(* ===== verification/_CoqProject ===== *)
-Q . S2P
Prelude.v
Memory.v
Heap.v
Status.v
Endian.v
Buffer.v
Dispatch.v
Bitpack.v
Rle.v
RleDecode.v
RleEncode.v
RleLevels.v
Delta.v
DeltaDecode.v
DeltaRoundtrip.v
ThriftDecode.v
ThriftEncode.v
ThriftRoundtrip.v
ByteStreamSplit.v
Plain.v
PlainRoundtrip.v
Snappy.v
SnappyDecode.v
SnappyEncode.v
DeltaStrings.v
DeltaStringsRoundtrip.v
Dictionary.v
DictionaryRoundtrip.v
Bloom.v
BloomCorrect.v
Arena.v
ThriftParse.v
ParquetTypes.v
ParquetParse.v
ParquetWrite.v
ParquetSafe.v
ParquetValues.v
HeaderRoundtrip.v
LogicalRoundtrip.v
FooterRoundtrip.v
Schema.v
SchemaForest.v
SchemaBuild.v
SchemaOps.v
SchemaQueries.v
SchemaRead.v
SchemaRoundtrip.v
FileReader.v
FileOpen.v
ValueOrder.v
RowGroupFilter.v
PageIndex.v
PageIndexSafe.v
PageIndexBuild.v
PageIndexRoundtrip.v
PageFilter.v
RowRanges.v
PageMatch.v
PageFilterSound.v
