(* ===== verification/Prelude.v ===== *)
(** * qio: a verification development for the Parquet engine of the R package qio

    qio reads and writes Parquet files from R.  The R glue (src/src/qio*.c) calls a bundled
    Parquet engine in C, src/src/carquet/, whose layers this library models from the bottom:

    - core: byte order and varints, growable buffers, an arena, bit packing;
    - encoding: the encodings of a data page (PLAIN, RLE hybrid, the DELTA family,
      BYTE_STREAM_SPLIT, dictionary), each over core, and over each other where the code
      does so (dictionary indices are RLE, string lengths are DELTA_BINARY_PACKED);
    - compression: Snappy, applied to whole pages;
    - thrift: the compact protocol in which headers and the footer are written;
    - the metadata structures of a file (its footer, the headers of its pages), parsed
      from and written to Thrift, with strings and arrays from the arena;
    - metadata: the schema a writer builds and a reader recovers from the footer, the Bloom
      filter and the hash under it;
    - readers and writers, which call all of these on pages of files.

    ** How C becomes Rocq

    A w-bit integer is a [Z]; every conversion and every place where the arithmetic can
    wrap is written out ([u8] ... [u64], [i8] ... [i64]).  Where signed arithmetic on values
    of a file can overflow, which is undefined behaviour, it is [sint], a partial function.
    [size_t] is 64 bits wide, and
    where the code copies bytes into an integer the host is little-endian.
    Floats are bit patterns, which is all that [memcpy] sees.  An object is the list of its
    bytes or elements and a pointer into it an offset; loads ([rd], [rd_n]) and stores
    ([wr], [wr_n]) return [None] outside the object.  The operations are therefore functions
    to [option]: [None] is undefined behaviour or a failed assertion, and a theorem that a call returns [Some _]
    for all inputs is memory safety (and, where the function has fuel, termination).  A
    failure the code reports is a value: a [carquet_status_t] next to the new state, a
    count, or [-1], as in the code.  Thrift decoding is a state monad over this, and the
    parsers of the metadata one over the decoder and the arena; records are updated with
    coqutil's setters, and a union is its bytes.
    What lies outside is an interface, a type class whose laws are documented behaviour:
    [Allocator] with [AllocatorOk] (the contract of realloc: it may always fail) and
    [AllocatorTotal] (it never fails); [UnpackKernels] (the SIMD table: a kernel computes
    what its scalar routine does); [AddressSpace] (blocks handed out do not overlap); [ArrayHeap]
    with [ArrayHeapOk] (realloc on an array keeps the elements that fit) and [ArrayHeapTotal];
    [FloorLog10] with [FloorLog10Ok] (the platform's long double logarithm is exact for the
    widths a column can have); [FileIO] (stdio and mmap; [stream_of] allows every call to
    fail or fall short, [stream_serves] does not).

    ** Files

    - [Prelude], [Memory]: machine integers, memory access, lists; automation.
    - [Status]: carquet/error.h, the status enumeration.
    - [Endian]: core/endian.h, core/float16.h.  Both preprocessor branches of the accessors
      agree, varints and zigzag round trip, half floats widen exactly.
    - [Buffer]: core/buffer.c, buffer.h, and the allocation entry points of
      core/allocator.c.  Every operation refines one on byte strings or fails without
      effect; the well-formedness invariant holds in every reachable state.
    - [Dispatch]: the scalar routines of simd/dispatch.c (prefix sums, gathers, boolean
      packing, match copy, null bitmaps, minima).
    - [Bitpack]: core/bitpack.c, bitpack.h.  Packing and unpacking against an arithmetic
      reference, for every width and any conforming kernel table.
    - [Rle], [RleDecode], [RleEncode], [RleLevels]: encoding/rle.c, rle.h.  [rle_values] is
      the meaning of a byte stream; decoder, encoder and the one-shot level loops are all
      proved against it, which gives the round trip and safety on arbitrary bytes.
    - [Delta], [DeltaDecode], [DeltaRoundtrip]: encoding/delta.c.  Decoder invariant, safety
      on arbitrary bytes, and the round trip with the exact number of bytes.
    - [ByteStreamSplit]: encoding/byte_stream_split.c, scalar and tiled paths.
    - [Plain], [PlainRoundtrip]: encoding/plain.c, plain.h.
    - [DeltaStrings], [DeltaStringsRoundtrip]: encoding/delta_length.c, delta_strings.c.
    - [Dictionary], [DictionaryRoundtrip]: encoding/dictionary.c.  The hash table as a map
      from values to indices in order of first appearance, rehashing included; the encoders
      on top of it; exact behaviour of the decoders on any page.
    - [Snappy], [SnappyDecode], [SnappyEncode]: compression/snappy.c.  A reference reading of
      the format; the decompressor computes it on any input, the compressor writes a stream
      that denotes its input and stays within the bound it promises.
    - [ThriftDecode], [ThriftEncode], [ThriftRoundtrip]: thrift/thrift_decode.c and
      thrift_encode.c.  A writer in state OK has stored all its bytes, readers invert
      writers, skipping a value consumes exactly that value and always ends.
    - [Bloom], [BloomCorrect]: util/xxhash.c, metadata/bloom_filter.c.  The hash agrees with
      published vectors; a filter never loses a value, whatever operations follow.
    - [Arena]: core/arena.c, arena.h.  Allocations that are live together are disjoint,
      aligned and inside their blocks, across resets and nested save/restore scopes;
      [arena_ready], the assertion that the arena has a block; [arena_room], what a client
      that must not run out of memory asks for.
    - [ThriftParse]: the loops that every parser of a Thrift struct is made of, with the two
      rules the parsers are verified by: on any bytes they end in bounds ([sim]), in front
      of the bytes of a value they return what it says and stop behind it ([preads]).
    - [ParquetTypes], [ParquetParse], [ParquetWrite]: thrift/parquet_types.h and
      parquet_types.c, carquet/types.h.  The structures of the footer and of page headers,
      their parsers and their writers.
    - [ParquetSafe]: the parsers on arbitrary bytes.  Page headers parse in bounds; the
      footer does too, but for two stores that the statement isolates.
    - [ParquetValues]: the metadata as Thrift values; the writers emit exactly these.
    - [HeaderRoundtrip], [LogicalRoundtrip], [FooterRoundtrip]: what the writers wrote is
      what the parsers read, up to a normal form that [read_page_header] and
      [read_file_metadata] spell out.
    - [Schema]: metadata/schema.c, every function but the one that frees a schema.
    - [SchemaForest], [SchemaBuild], [SchemaOps], [SchemaQueries]: the abstract schema (nodes
      with parents, the columns among them), the representation invariant, the building
      operations as a refinement of operations on the forest (the names of its nodes are
      copied into the arena, [store_names]), and the queries: columns, levels, paths, list
      offsets.
    - [SchemaRead], [SchemaRoundtrip]: reader/file_reader.c as far as it rebuilds a schema
      from the footer's elements, in bounds on any elements, and equal to what a builder
      that went depth first had.
    - [Heap]: arrays outside the arena (calloc and realloc of core/allocator.c).
    - [FileReader]: reader/file_reader.c, mmap_reader.c and row_group_reader.c as far as they
      open a file, read bytes behind the footer and answer questions about the metadata.
    - [FileOpen]: opening is safe on any bytes (but for what the footer parser does on this
      very footer, [footer_breaks]), the ways to open agree, a file is read back.
    - [ValueOrder]: how column values compare: integers, floats as bit patterns, half floats
      as numbers, byte strings.
    - [RowGroupFilter]: reader/statistics.c.  Row groups are skipped by their statistics, and
      none is skipped that holds a match between its bounds, in the order that the
      annotations of the schema give the column ([type_order], stated without the code).
    - [PageIndex]: metadata/page_index.c, the column index and the offset index.
    - [PageIndexSafe], [PageIndexBuild], [PageIndexRoundtrip]: parsing any bytes is safe, the
      builders hold what was added, and what they serialise is parsed back.
    - [PageFilter]: reader/page_filter.c, and the functions of reader/file_reader.c that read
      the page indexes of an open file.
    - [RowRanges], [PageMatch], [PageFilterSound]: lists of row ranges as sets of rows, the
      test of one page against one clause, and the filter as a whole: in bounds on hostile
      indexes as long as the sums of rows fit into 64 bits ([rows_fit]), and it loses no row
      when the indexes are true.  What a clause says of a value is stated from the schema
      ([declared_info]) and the layout of the caller's values ([in_entry]).

    ** Fuel and bounds

    Structural recursion is used wherever the loop counts.  The other loops take fuel, and
    the definition that stands for the C function supplies enough: the byte count of the
    input for loops that consume at least a byte per turn (xxHash64, the Snappy element
    loop, RLE runs); the length to produce for copy loops; as many turns as a machine word
    has bits or 7-bit groups for the varint and bit-width loops (4, 5, 9 or 10 and 32 or
    64).  [thrift_skip] alone takes its fuel as an argument; it recurses as deep as the
    input nests, and three more than the bytes left are always enough, for hostile bytes too
    ([thrift_skip_total]).  Running out of fuel is [None], so that every theorem that a call
    returns a result is also termination.  The field loops of the metadata parsers supply
    the bytes left and two, for every field takes a byte.  Doubling a capacity takes at most 32
    turns, the walk to the root of a schema one turn per element and one more, and the
    reader's recursion over a schema ends at its depth limit of 100.
    Preconditions are the ones of the C interface: the sizes passed are those of the
    objects, element counts fit their type, and for DELTA_LENGTH_BYTE_ARRAY a string is
    below 4 MiB ([delta_scratch_too_small] shows that the code needs such a bound).  A footer
    that is to be read back has lists within the reader's limits and an arena with room for
    777 bytes per byte: 688 for a column chunk, 80 for a row group, 9 for what is in them.

    ** Behaviour of the code worth knowing

    Some theorems state what the code does where that is surprising:
    [rle_prefixed_length_wraps] (a length check in 32 bits wraps),
    [rle_encode_ignores_oom] and [dictionary_encode_ignores_oom] (a failed append is not
    reported), [dictionary_big_endian_unchecked] (no index check on such hosts),
    [delta_empty_mini_blocks], [delta_scratch_too_small], [thrift_skip_bool_list],
    [thrift_skip_truncated_double], [bloom_create_wraps], [geo_types_overflow] (a repeated
    field is stored past an array), [footer_array_unchecked] (a NULL array is written),
    [schema_order_lost] (a schema not built depth first is read back as another),
    [schema_empty_group_column] (a group without columns is read back as a column),
    [schema_list_not_undone] (a refused list leaves its groups), [column_path_truncated]
    and its instance [deep_path_truncated] (paths stop at 64 names), [find_column_leaf_names]
    (no search by path), [footer_length_wraps] (a footer length near 2^32),
    [nan_bound_drops_group], [deprecated_bounds_drop_group] and [binary_decimal_drops_group]
    (row groups that match are skipped), [prefix_suffix_overflow] and [page_rows_overflow]
    (signed overflow on the numbers of a file), [column_builder_dangles] (a failed realloc leaves pointers to freed arrays),
    [index_serialize_ignores_oom], [float_page_ruled_out] (floats compared as bytes),
    [in_clause_negative_length] and [half_float_overread] (a column's type length is not
    checked) and [absent_null_counts_drop_page] (a missing count taken for 0).  A stream is not asked for the magic number at its start, a buffer or a mapping is.

    ** Not modelled

    Not reached: the pages and columns behind an open file (reader/page_reader.c,
    column_reader.c, batch_reader.c) and the writers of all these, which put the modelled
    encodings, headers and indexes together with the codecs and with file I/O; the writer's
    statistics builder, the bit stream reader and writer of bitpack.c, core/geo_wkb.c.  Not
    at all: the intrinsics under simd/x86 and simd/arm and CPU
    detection (an interface stands for them); gzip, LZ4, Zstandard and CRC-32, which are
    calls into zlib and the vendored libraries; the vendored libraries themselves; error
    text, and with it the error argument of the metadata parsers and writers; the worker
    pool's threads; the R glue, which is a use of R's C API;
    functions that only free memory; carquet_bloom_filter_create_with_ndv, whose size is a
    floating-point logarithm. *)

From stdpp Require Export base tactics numbers list list_numbers option.
From Stdlib Require Export ZArith Lia.

#[export] Set Default Goal Selector "!".
#[global] Open Scope Z_scope.

(** ** Notations for the C operators on integers *)

Declare Scope c_scope.
Delimit Scope c_scope with c.
Notation "a .& b" := (Z.land a b) (at level 37, left associativity) : c_scope.
Notation "a .^ b" := (Z.lxor a b) (at level 38, left associativity) : c_scope.
Notation "a .| b" := (Z.lor a b) (at level 39, left associativity) : c_scope.
#[global] Open Scope c_scope.

(** ** Machine integers

    A C integer is a [Z]; [uN] and [iN] are the conversions to the unsigned and
    signed N-bit types (reduction modulo 2^N, two's complement).  [size_t] is
    64 bits wide, as on every platform qio builds for. *)

Definition u8 (x : Z) : Z := x mod 2 ^ 8.
Definition u16 (x : Z) : Z := x mod 2 ^ 16.
Definition u32 (x : Z) : Z := x mod 2 ^ 32.
Definition u64 (x : Z) : Z := x mod 2 ^ 64.

Definition wrap_signed (w x : Z) : Z :=
  let y := x mod 2 ^ w in if y <? 2 ^ (w - 1) then y else y - 2 ^ w.

Definition i8 (x : Z) : Z := wrap_signed 8 x.
Definition i16 (x : Z) : Z := wrap_signed 16 x.
Definition i32 (x : Z) : Z := wrap_signed 32 x.
Definition i64 (x : Z) : Z := wrap_signed 64 x.

Definition SIZE_MAX : Z := 2 ^ 64 - 1.

(** The values of the types. *)
Definition in_u (w x : Z) : Prop := 0 <= x < 2 ^ w.
Definition in_i (w x : Z) : Prop := - 2 ^ (w - 1) <= x < 2 ^ (w - 1).

Abbreviation is_byte := (in_u 8).
Abbreviation bytes_ok := (Forall (in_u 8)).

#[export] Instance in_u_dec w x : Decision (in_u w x).
Proof. unfold in_u. apply _. Defined.

#[export] Instance in_i_dec w x : Decision (in_i w x).
Proof. unfold in_i. apply _. Defined.

(** ** Memory

    A readable object is the list of its elements.  [rd p i] is [p[i]]; it is
    [None] outside the object, where the C program has no defined behaviour.
    [rd_n p i n] is the source of a [memcpy] of [n] elements at offset [i], and
    [wr p i x] the store [p[i] = x].  Every model of a reader is built from these,
    so a result [Some _] is also the statement that no access was out of bounds. *)

Definition rd {A} (p : list A) (i : Z) : option A :=
  if i <? 0 then None else p !! Z.to_nat i.

Definition rd_n {A} (p : list A) (i n : Z) : option (list A) :=
  if (0 <=? i) && (0 <=? n) && (i + n <=? Z.of_nat (length p))
  then Some (take (Z.to_nat n) (drop (Z.to_nat i) p)) else None.

Definition wr {A} (p : list A) (i : Z) (x : A) : option (list A) :=
  if (0 <=? i) && (i <? Z.of_nat (length p))
  then Some (<[Z.to_nat i := x]> p) else None.

(** Pointer arithmetic [p + i] on a readable object. *)
Definition ptr_add {A} (p : list A) (i : Z) : list A := drop (Z.to_nat i) p.

Abbreviation lenZ l := (Z.of_nat (length l)).

(** ** Tactics *)

(** [lia] with quotients and remainders by constants. *)
Ltac dlia := Z.to_euclidean_division_equations; lia.

(** Case analysis on the boolean comparisons of the code. *)
Ltac case_bool :=
  match goal with
  | |- context [?a <? ?b] => destruct (Z.ltb_spec a b)
  | |- context [?a <=? ?b] => destruct (Z.leb_spec a b)
  | |- context [?a =? ?b] => destruct (Z.eqb_spec a b)
  | |- context [?a >? ?b] => rewrite (Z.gtb_ltb a b)
  | |- context [?a >=? ?b] => rewrite (Z.geb_leb a b)
  end.

Ltac case_bool_in H :=
  match type of H with
  | context [?a <? ?b] => destruct (Z.ltb_spec a b)
  | context [?a <=? ?b] => destruct (Z.leb_spec a b)
  | context [?a =? ?b] => destruct (Z.eqb_spec a b)
  | context [?a >? ?b] => rewrite (Z.gtb_ltb a b) in H
  | context [?a >=? ?b] => rewrite (Z.geb_leb a b) in H
  end.

(** Decide the comparisons of the goal that [lia] settles. *)
Ltac decide_bool :=
  repeat match goal with
  | |- context [?a <? ?b] =>
      first [rewrite (proj2 (Z.ltb_lt a b)) by lia | rewrite (proj2 (Z.ltb_ge a b)) by lia]
  | |- context [?a <=? ?b] =>
      first [rewrite (proj2 (Z.leb_le a b)) by lia | rewrite (proj2 (Z.leb_gt a b)) by lia]
  | |- context [?a =? ?b] =>
      first [rewrite (proj2 (Z.eqb_eq a b)) by lia | rewrite (proj2 (Z.eqb_neq a b)) by lia]
  | |- context [?a >? ?b] => rewrite (Z.gtb_ltb a b)
  | |- context [?a >=? ?b] => rewrite (Z.geb_leb a b)
  end; cbn [andb orb negb].

#[global] Arguments Z.shiftl : simpl never.
#[global] Arguments Z.shiftr : simpl never.
#[global] Arguments Z.land : simpl never.
#[global] Arguments Z.lor : simpl never.
#[global] Arguments Z.lxor : simpl never.
#[global] Arguments Z.pow : simpl never.
#[global] Arguments Z.mul : simpl never.
#[global] Arguments Z.add : simpl never.
#[global] Arguments Z.sub : simpl never.
#[global] Arguments Z.div : simpl never.
#[global] Arguments Z.modulo : simpl never.
#[global] Arguments Z.ltb : simpl nomatch.
#[global] Arguments Z.leb : simpl nomatch.
#[global] Arguments Z.eqb : simpl nomatch.
#[global] Arguments Z.of_nat : simpl never.
#[global] Arguments Z.to_nat : simpl never.

(** Evaluate the [Z.to_nat] of literals. *)
Ltac red_nat :=
  repeat match goal with
  | |- context [Z.to_nat ?c] =>
      lazymatch isZcst c with
      | true => let v := eval vm_compute in (Z.to_nat c) in change (Z.to_nat c) with v
      end
  end.

Create HintDb wrap discriminated.
Create HintDb bytes discriminated.

(** ** Lemmas on machine integers *)

Lemma pow2_pos n : 0 <= n -> 0 < 2 ^ n.
Proof. intros. apply Z.pow_pos_nonneg; lia. Qed.

Lemma u8_small x : 0 <= x < 2 ^ 8 -> u8 x = x.
Proof. apply Z.mod_small. Qed.
Lemma u16_small x : 0 <= x < 2 ^ 16 -> u16 x = x.
Proof. apply Z.mod_small. Qed.
Lemma u32_small x : 0 <= x < 2 ^ 32 -> u32 x = x.
Proof. apply Z.mod_small. Qed.
Lemma u64_small x : 0 <= x < 2 ^ 64 -> u64 x = x.
Proof. apply Z.mod_small. Qed.

Lemma u8_range x : 0 <= u8 x < 2 ^ 8.
Proof. apply Z.mod_pos_bound. lia. Qed.
Lemma u16_range x : 0 <= u16 x < 2 ^ 16.
Proof. apply Z.mod_pos_bound. lia. Qed.
Lemma u32_range x : 0 <= u32 x < 2 ^ 32.
Proof. apply Z.mod_pos_bound. lia. Qed.
Lemma u64_range x : 0 <= u64 x < 2 ^ 64.
Proof. apply Z.mod_pos_bound. lia. Qed.

Lemma pow2_half w : 1 <= w -> 2 ^ w = 2 * 2 ^ (w - 1).
Proof. intros. rewrite <- Z.pow_succ_r by lia. f_equal. lia. Qed.

Lemma wrap_signed_small w x : 1 <= w -> in_i w x -> wrap_signed w x = x.
Proof.
  intros Hw [Hlo Hhi]. unfold wrap_signed.
  pose proof (pow2_half w Hw) as E. pose proof (pow2_pos (w - 1)) as P.
  destruct (Z.lt_ge_cases x 0).
  - replace (x mod 2 ^ w) with (x + 2 ^ w)
      by (apply Z.mod_unique with (-1); lia).
    case_bool; lia.
  - rewrite Z.mod_small by lia. case_bool; lia.
Qed.

(** Signed arithmetic: the mathematical result; overflow is undefined behaviour. *)
Definition sint (w x : Z) : option Z := if bool_decide (in_i w x) then Some x else None.

Lemma sint_Some w x : in_i w x -> sint w x = Some x.
Proof. intros H. unfold sint. by rewrite bool_decide_true. Qed.

Lemma sint_inv w x y : sint w x = Some y -> y = x /\ in_i w x.
Proof. unfold sint. case_bool_decide; [by intros [= <-]|done]. Qed.

Lemma wrap_signed_range w x : 1 <= w -> in_i w (wrap_signed w x).
Proof.
  intros Hw. unfold wrap_signed, in_i.
  pose proof (pow2_half w Hw) as E. pose proof (pow2_pos (w - 1)) as P.
  pose proof (Z.mod_pos_bound x (2 ^ w)).
  case_bool; lia.
Qed.

Lemma wrap_signed_mod w x : 0 <= w -> wrap_signed w x mod 2 ^ w = x mod 2 ^ w.
Proof.
  intros Hw. unfold wrap_signed. pose proof (pow2_pos w Hw).
  case_bool.
  - apply Z.mod_mod. lia.
  - replace (x mod 2 ^ w - 2 ^ w) with (x mod 2 ^ w + (-1) * 2 ^ w) by lia.
    rewrite Z.mod_add by lia. apply Z.mod_mod. lia.
Qed.

(** Signed conversion only depends on the residue. *)
Lemma wrap_signed_congr w x y : x mod 2 ^ w = y mod 2 ^ w -> wrap_signed w x = wrap_signed w y.
Proof. unfold wrap_signed. by intros ->. Qed.

(** The unsigned image of a signed value, back to signed. *)
Lemma wrap_signed_of_mod w x : 1 <= w -> in_i w x -> wrap_signed w (x mod 2 ^ w) = x.
Proof.
  intros Hw Hx. rewrite <- (wrap_signed_small w x) at 2 by done.
  apply wrap_signed_congr. apply Z.mod_mod. pose proof (pow2_pos w). lia.
Qed.

Lemma mod_mod_pow2 x a b : 0 <= a <= b -> (x mod 2 ^ b) mod 2 ^ a = x mod 2 ^ a.
Proof.
  intros. replace b with (a + (b - a)) by lia. rewrite Z.pow_add_r by lia.
  pose proof (pow2_pos a). pose proof (pow2_pos (b - a)).
  rewrite Z.rem_mul_r by lia.
  rewrite Z.mul_comm, Z.mod_add by lia. apply Z.mod_mod. lia.
Qed.

(** ** Bit operations as arithmetic *)

Lemma land_ones_mod x n : 0 <= n -> Z.land x (2 ^ n - 1) = x mod 2 ^ n.
Proof. intros. rewrite <- Z.land_ones by lia. by rewrite Z.ones_equiv, Z.sub_1_r. Qed.

Lemma lor_add a b n : 0 <= n -> 0 <= a < 2 ^ n -> Z.lor a (b ≪ n) = a + b * 2 ^ n.
Proof.
  intros Hn Ha. rewrite <- Z.shiftl_mul_pow2 by lia.
  symmetry. apply Z.add_nocarry_lor.
  apply Z.bits_inj'. intros i Hi. rewrite Z.land_spec, Z.bits_0.
  destruct (Z.lt_ge_cases i n).
  - rewrite Z.shiftl_spec_low by lia. by rewrite andb_false_r.
  - rewrite <- (Z.mod_small a (2 ^ n)) by lia.
    rewrite Z.mod_pow2_bits_high by lia. done.
Qed.

Lemma testbit_above a n i : 0 <= a < 2 ^ n -> n <= i -> 0 <= n -> Z.testbit a i = false.
Proof.
  intros. rewrite <- (Z.mod_small a (2 ^ n)) by lia. apply Z.mod_pow2_bits_high. lia.
Qed.

Lemma lor_bound a b n : 0 <= n -> 0 <= a < 2 ^ n -> 0 <= b < 2 ^ n -> 0 <= Z.lor a b < 2 ^ n.
Proof.
  intros Hn Ha Hb. split; [apply Z.lor_nonneg; lia|].
  assert (Z.lor a b = Z.lor a b mod 2 ^ n) as ->.
  2: { apply Z.mod_pos_bound, pow2_pos; lia. }
  apply Z.bits_inj'. intros i Hi. destruct (Z.lt_ge_cases i n).
  - by rewrite Z.mod_pow2_bits_low by lia.
  - rewrite Z.mod_pow2_bits_high, Z.lor_spec by lia.
    rewrite !(testbit_above _ n) by lia. done.
Qed.

Lemma shiftr_div x n : 0 <= n -> x ≫ n = x / 2 ^ n.
Proof. apply Z.shiftr_div_pow2. Qed.

Lemma shiftl_mul x n : 0 <= n -> x ≪ n = x * 2 ^ n.
Proof. apply Z.shiftl_mul_pow2. Qed.

(** ** Little-endian byte strings

    The reference reading of a byte string as an integer, least significant byte
    first, and its inverse. *)

Fixpoint le_val (l : list Z) : Z :=
  match l with
  | [] => 0
  | b :: t => b + 2 ^ 8 * le_val t
  end.

Fixpoint le_bytes (n : nat) (z : Z) : list Z :=
  match n with
  | O => []
  | S n => z mod 2 ^ 8 :: le_bytes n (z / 2 ^ 8)
  end.

Lemma length_le_bytes n z : length (le_bytes n z) = n.
Proof. revert z. induction n; intros; simpl; auto. Qed.

Lemma le_bytes_ok n z : bytes_ok (le_bytes n z).
Proof.
  revert z. induction n; intros; constructor; auto.
  apply Z.mod_pos_bound. lia.
Qed.

Lemma pow2_S n : 2 ^ (8 * Z.of_nat (S n)) = 2 ^ 8 * 2 ^ (8 * Z.of_nat n).
Proof. rewrite <- Z.pow_add_r by lia. f_equal. lia. Qed.

Lemma le_val_bound l : bytes_ok l -> 0 <= le_val l < 2 ^ (8 * lenZ l).
Proof.
  induction 1 as [|b l Hb _ IH]; [done|]. cbn [le_val length].
  rewrite pow2_S. unfold in_u in Hb. lia.
Qed.

Lemma le_val_bytes n z : le_val (le_bytes n z) = z mod 2 ^ (8 * Z.of_nat n).
Proof.
  revert z. induction n as [|n IH]; intros z.
  - change (8 * Z.of_nat 0) with 0. by rewrite Z.mod_1_r.
  - cbn [le_bytes le_val]. rewrite IH, pow2_S.
    pose proof (pow2_pos (8 * Z.of_nat n)).
    by rewrite (Z.rem_mul_r z (2 ^ 8)) by lia.
Qed.

Lemma le_bytes_val l : bytes_ok l -> le_bytes (length l) (le_val l) = l.
Proof.
  induction 1 as [|b l Hb _ IH]; [done|]. unfold in_u in Hb. cbn [le_bytes le_val length].
  rewrite (Z.mul_comm (2 ^ 8)), Z.mod_add, Z.mod_small by lia.
  rewrite Z.div_add, Z.div_small by lia. by rewrite Z.add_0_l, IH.
Qed.

Lemma le_bytes_congr n x y :
  x mod 2 ^ (8 * Z.of_nat n) = y mod 2 ^ (8 * Z.of_nat n) -> le_bytes n x = le_bytes n y.
Proof.
  intros E. rewrite <- !le_val_bytes in E.
  rewrite <- (le_bytes_val (le_bytes n x)), <- (le_bytes_val (le_bytes n y))
    by apply le_bytes_ok.
  by rewrite !length_le_bytes, E.
Qed.

Lemma le_val_app l1 l2 : le_val (l1 ++ l2) = le_val l1 + 2 ^ (8 * lenZ l1) * le_val l2.
Proof.
  induction l1 as [|b l1 IH]; cbn [le_val app length].
  - change (8 * Z.of_nat 0) with 0. lia.
  - rewrite IH, pow2_S. lia.
Qed.

Lemma le_val_replicate_0 n : le_val (replicate n 0) = 0.
Proof. induction n; cbn [replicate le_val]; lia. Qed.

Lemma le_val_take n l :
  bytes_ok l -> le_val (take n l) = le_val l mod 2 ^ (8 * Z.of_nat n).
Proof.
  intros Hl. destruct (decide (n <= length l)%nat) as [Hn|Hn].
  - rewrite <- (take_drop n l) at 2. rewrite le_val_app, length_take_le by done.
    pose proof (le_val_bound (take n l) (Forall_take _ _ _ Hl)) as B.
    rewrite length_take_le in B by done.
    rewrite Z.mul_comm, Z.mod_add by (pose proof (pow2_pos (8 * Z.of_nat n)); lia).
    by rewrite Z.mod_small.
  - rewrite take_ge by lia. rewrite Z.mod_small; [done|].
    pose proof (le_val_bound l Hl).
    pose proof (Z.pow_le_mono_r 2 (8 * lenZ l) (8 * Z.of_nat n)). lia.
Qed.

Lemma le_val_drop n l :
  bytes_ok l -> le_val (drop n l) = le_val l / 2 ^ (8 * Z.of_nat n).
Proof.
  intros Hl. destruct (decide (n <= length l)%nat) as [Hn|Hn].
  - rewrite <- (take_drop n l) at 2. rewrite le_val_app, length_take_le by done.
    pose proof (le_val_bound (take n l) (Forall_take _ _ _ Hl)) as B.
    rewrite length_take_le in B by done.
    rewrite Z.mul_comm, Z.div_add by (pose proof (pow2_pos (8 * Z.of_nat n)); lia).
    by rewrite Z.div_small.
  - rewrite drop_ge by lia. rewrite Z.div_small; [done|].
    pose proof (le_val_bound l Hl).
    pose proof (Z.pow_le_mono_r 2 (8 * lenZ l) (8 * Z.of_nat n)). lia.
Qed.

Lemma le_val_snoc l b : le_val (l ++ [b]) = le_val l + 2 ^ (8 * lenZ l) * b.
Proof. rewrite le_val_app. simpl. lia. Qed.

(** The [n]-th byte of an integer. *)
Lemma le_bytes_lookup n z i : (i < n)%nat ->
  le_bytes n z !! i = Some ((z / 2 ^ (8 * Z.of_nat i)) mod 2 ^ 8).
Proof.
  revert z i. induction n as [|n IH]; intros z i Hi; [lia|].
  destruct i as [|i]; cbn [le_bytes lookup list_lookup].
  - change (8 * Z.of_nat 0) with 0. by rewrite Z.div_1_r.
  - fold (le_bytes n (z / 2 ^ 8) !! i). rewrite IH by lia.
    rewrite pow2_S, Z.div_div by (pose proof (pow2_pos (8 * Z.of_nat i)); lia). done.
Qed.

Lemma le_bytes_app n m z :
  le_bytes (n + m) z = le_bytes n z ++ le_bytes m (z / 2 ^ (8 * Z.of_nat n)).
Proof.
  revert z. induction n as [|n IH]; intros z; cbn [le_bytes app Nat.add].
  - change (8 * Z.of_nat 0) with 0. by rewrite Z.div_1_r.
  - rewrite IH, pow2_S, Z.div_div by (pose proof (pow2_pos (8 * Z.of_nat n)); lia). done.
Qed.

(** ** Lemmas on memory accesses *)

Lemma rd_lookup {A} (p : list A) i : 0 <= i -> rd p i = p !! Z.to_nat i.
Proof. intros. unfold rd. by decide_bool. Qed.

Lemma rd_Some {A} (p : list A) i : 0 <= i < lenZ p -> is_Some (rd p i).
Proof. intros. rewrite rd_lookup by lia. apply lookup_lt_is_Some. lia. Qed.

Lemma rd_bound {A} (p : list A) i x : rd p i = Some x -> 0 <= i < lenZ p.
Proof.
  unfold rd. intros H. case_bool_in H; [done|]. apply lookup_lt_Some in H. lia.
Qed.

Lemma rd_drop {A} (p : list A) i j : 0 <= i -> 0 <= j -> rd (ptr_add p i) j = rd p (i + j).
Proof.
  intros. unfold ptr_add. rewrite !rd_lookup by lia. rewrite lookup_drop. f_equal. lia.
Qed.

Lemma rd_app_l {A} (p q : list A) i : i < lenZ p -> rd (p ++ q) i = rd p i.
Proof. intros. unfold rd. case_bool; [done|]. by rewrite lookup_app_l by lia. Qed.

Lemma rd_app_r {A} (p q : list A) i : lenZ p <= i -> rd (p ++ q) i = rd q (i - lenZ p).
Proof.
  intros. rewrite !rd_lookup by lia. rewrite lookup_app_r by lia. f_equal. lia.
Qed.

Lemma rd_middle {A} (p q : list A) x i : i = lenZ p -> rd (p ++ x :: q) i = Some x.
Proof. intros ->. rewrite rd_app_r by lia. by rewrite Z.sub_diag. Qed.

Lemma rd_byte p i b : bytes_ok p -> rd p i = Some b -> 0 <= b < 2 ^ 8.
Proof.
  intros Hp H. pose proof (rd_bound _ _ _ H). rewrite rd_lookup in H by lia.
  exact (Forall_lookup_1 _ _ _ _ Hp H).
Qed.

Lemma rd_n_Some {A} (p : list A) i n :
  0 <= i -> 0 <= n -> i + n <= lenZ p ->
  rd_n p i n = Some (take (Z.to_nat n) (drop (Z.to_nat i) p)).
Proof. intros. unfold rd_n. by decide_bool. Qed.

Lemma rd_n_inv {A} (p : list A) i n l : rd_n p i n = Some l ->
  0 <= i /\ 0 <= n /\ i + n <= lenZ p /\ lenZ l = n /\
  l = take (Z.to_nat n) (drop (Z.to_nat i) p).
Proof.
  unfold rd_n. intros H. repeat case_bool_in H; cbn in H; simplify_eq.
  repeat split; try lia. rewrite length_take, length_drop. lia.
Qed.

Lemma rd_n_middle {A} (p q r : list A) i n :
  i = lenZ p -> n = lenZ q -> rd_n (p ++ q ++ r) i n = Some q.
Proof.
  intros -> ->. rewrite rd_n_Some by (rewrite ?length_app; lia).
  by rewrite !Nat2Z.id, drop_app_length, take_app_length.
Qed.

Lemma wr_Some {A} (p : list A) i x : 0 <= i < lenZ p -> wr p i x = Some (<[Z.to_nat i := x]> p).
Proof. intros. unfold wr. by decide_bool. Qed.

Lemma rd_n_bytes p i n l : bytes_ok p -> rd_n p i n = Some l -> bytes_ok l.
Proof.
  intros Hp H. apply rd_n_inv in H as (_ & _ & _ & _ & ->).
  by apply Forall_take, Forall_drop.
Qed.

Lemma length_ptr_add {A} (p : list A) i : 0 <= i <= lenZ p -> lenZ (ptr_add p i) = lenZ p - i.
Proof. intros. unfold ptr_add. rewrite length_drop. lia. Qed.

Lemma ptr_add_app {A} (p q : list A) i : i = lenZ p -> ptr_add (p ++ q) i = q.
Proof. intros ->. unfold ptr_add. by rewrite Nat2Z.id, drop_app_length. Qed.

Lemma ptr_add_add {A} (p : list A) i j :
  0 <= i -> 0 <= j -> ptr_add (ptr_add p i) j = ptr_add p (i + j).
Proof. intros. unfold ptr_add. rewrite drop_drop. f_equal. lia. Qed.

Lemma ptr_add_bytes p i : bytes_ok p -> bytes_ok (ptr_add p i).
Proof. apply Forall_drop. Qed.

#[export] Hint Resolve le_bytes_ok ptr_add_bytes Forall_take Forall_drop : bytes.
#[export] Hint Resolve Forall_nil_2 Forall_cons_2 Forall_app_2 : bytes.

(** Facts about one byte, or any small range, by enumeration. *)
Lemma forall_range (n : Z) (f : Z -> bool) :
  forallb f (seqZ 0 n) = true -> forall b, 0 <= b < n -> f b = true.
Proof.
  intros H b Hb. rewrite forallb_forall in H. apply H.
  apply list_elem_of_In, elem_of_seqZ. lia.
Qed.

Lemma byte_land_7F b : b .& 0x7F = b mod 2 ^ 7.
Proof. by apply (land_ones_mod b 7). Qed.

Lemma byte_land_80 b : 0 <= b < 2 ^ 8 -> ((b .& 0x80) =? 0) = (b <? 2 ^ 7).
Proof.
  intros Hb. apply eqb_prop.
  by apply (forall_range 256 (λ b, eqb ((b .& 0x80) =? 0) (b <? 2 ^ 7))).
Qed.

Lemma byte_lor_80 b : 0 <= b < 2 ^ 7 -> b .| 0x80 = b + 2 ^ 7.
Proof. intros. by apply (lor_add b 1 7). Qed.

(** Turn a disjunction of shifted pieces, least significant first, into a sum. *)
Ltac lor_to_add :=
  repeat match goal with
  | |- context [Z.lor ?a (?b ≪ ?n)] =>
      lazymatch a with
      | context [Z.lor] => fail
      | _ => rewrite (lor_add a b n) by lia
      end
  end.

Lemma land_lxor_ones x n : 0 <= x < 2 ^ n -> 0 <= n -> Z.land x (Z.lxor x (2 ^ n - 1)) = 0.
Proof.
  intros Hx Hn. replace (2 ^ n - 1) with (Z.ones n) by (rewrite Z.ones_equiv; lia).
  apply Z.bits_inj'. intros i Hi. rewrite Z.land_spec, Z.lxor_spec, Z.bits_0.
  destruct (Z.lt_ge_cases i n).
  - rewrite Z.ones_spec_low by lia. by destruct (Z.testbit x i).
  - by rewrite (testbit_above x n) by lia.
Qed.

(** Exclusive or with an all-ones word complements. *)
Lemma lxor_ones x n : 0 <= x < 2 ^ n -> 0 <= n -> Z.lxor x (2 ^ n - 1) = 2 ^ n - 1 - x.
Proof.
  intros Hx Hn. pose proof (Z.add_nocarry_lxor _ _ (land_lxor_ones x n Hx Hn)) as E.
  rewrite <- Z.lxor_assoc, Z.lxor_nilpotent, Z.lxor_0_l in E. lia.
Qed.

Lemma opp1_mod w : 0 <= w -> (-1) mod 2 ^ w = 2 ^ w - 1.
Proof.
  intros. destruct (decide (w = 0)) as [->|]; [done|].
  symmetry. apply Z.mod_unique with (-1); [|lia]. pose proof (pow2_pos w). lia.
Qed.

Lemma land_1 x : x .& 1 = x mod 2.
Proof. by apply (land_ones_mod x 1). Qed.
