(* ===== verification/Memory.v ===== *)
(** * Writable memory

    Block stores into an object, the counterpart of [rd_n], and the lemmas that read
    such an object cell by cell and prefix by prefix. *)

From S2P Require Import Prelude.

(** The destination of a [memcpy] of the bytes [bs] at offset [i]. *)
Definition wr_n {A} (p : list A) (i : Z) (bs : list A) : option (list A) :=
  if (0 <=? i) && (i + lenZ bs <=? lenZ p)
  then Some (take (Z.to_nat i) p ++ bs ++ drop (Z.to_nat (i + lenZ bs)) p) else None.

Section Cells.
Context {A : Type}.
Implicit Types p bs : list A.

Lemma wr_n_Some p i bs : 0 <= i -> i + lenZ bs <= lenZ p ->
  wr_n p i bs = Some (take (Z.to_nat i) p ++ bs ++ drop (Z.to_nat (i + lenZ bs)) p).
Proof. intros. unfold wr_n. by decide_bool. Qed.

Lemma wr_n_total p i bs : 0 <= i -> i + lenZ bs <= lenZ p -> exists p', wr_n p i bs = Some p'.
Proof. intros. rewrite wr_n_Some by done. by eexists. Qed.

Lemma length_wr_n p i bs p' : wr_n p i bs = Some p' -> length p' = length p.
Proof.
  unfold wr_n. intros H. repeat case_bool_in H; cbn in H; simplify_eq.
  rewrite !length_app, length_take, length_drop. lia.
Qed.

Lemma length_wr p i (x : A) p' : wr p i x = Some p' -> length p' = length p.
Proof. unfold wr. intros H. repeat case_bool_in H; cbn in H; simplify_eq. by rewrite length_insert. Qed.

Lemma rd_wr_n p i bs p' j : wr_n p i bs = Some p' ->
  rd p' j = if (i <=? j) && (j <? i + lenZ bs) then rd bs (j - i) else rd p j.
Proof.
  unfold wr_n. intros H. repeat case_bool_in H; cbn [andb] in H; simplify_eq.
  destruct (Z.ltb_spec j 0) as [Hj|Hj].
  { unfold rd. decide_bool. destruct (Z.leb_spec i j); [lia|]. cbn [andb]. done. }
  destruct (Z.leb_spec i j); cbn [andb].
  - rewrite rd_app_r by (rewrite length_take; lia). rewrite length_take.
    replace (j - Z.of_nat (Nat.min (Z.to_nat i) (length p))) with (j - i) by lia.
    destruct (Z.ltb_spec j (i + lenZ bs)).
    + apply rd_app_l. lia.
    + rewrite rd_app_r by lia. rewrite !rd_lookup, lookup_drop by lia. f_equal. lia.
  - rewrite rd_app_l by (rewrite length_take; lia). rewrite !rd_lookup by lia. apply lookup_take_lt. lia.
Qed.

Lemma wr_as_wr_n p i (x : A) : wr p i x = wr_n p i [x].
Proof.
  unfold wr, wr_n. cbn [length]. destruct (Z.leb_spec 0 i); cbn [andb]; [|done].
  destruct (Z.ltb_spec i (lenZ p)); destruct (Z.leb_spec (i + Z.of_nat 1) (lenZ p)); try lia; [|done].
  f_equal. rewrite insert_take_drop by lia. do 2 f_equal. cbn. f_equal. f_equal. lia.
Qed.

Lemma rd_wr p i (x : A) p' j : wr p i x = Some p' -> rd p' j = if j =? i then Some x else rd p j.
Proof.
  rewrite wr_as_wr_n. intros H. rewrite (rd_wr_n _ _ _ _ j H). cbn [length].
  destruct (Z.eqb_spec j i) as [->|]; decide_bool.
  - by rewrite Z.sub_diag.
  - destruct (Z.leb_spec i j); cbn [andb]; [|done]. by decide_bool.
Qed.

Lemma wr_total p i (x : A) : 0 <= i < lenZ p -> exists p', wr p i x = Some p'.
Proof. intros. rewrite wr_Some by done. by eexists. Qed.

Lemma rd_rd_n p i n l j : rd_n p i n = Some l -> 0 <= j < n -> rd l j = rd p (i + j).
Proof.
  intros H Hj. apply rd_n_inv in H as (? & ? & ? & ? & ->). rewrite !rd_lookup by lia.
  rewrite lookup_take_lt, lookup_drop by lia. f_equal. lia.
Qed.

Lemma rd_n_total p i n : 0 <= i -> 0 <= n -> i + n <= lenZ p -> exists l, rd_n p i n = Some l /\ lenZ l = n.
Proof. intros. rewrite rd_n_Some by done. eexists. split; [done|]. rewrite length_take, length_drop. lia. Qed.

Lemma rd_None p i : lenZ p <= i -> rd p i = None.
Proof. intros. unfold rd. case_bool; [done|]. apply lookup_ge_None_2. lia. Qed.

(** Equality of prefixes, cell by cell. *)
Lemma take_eq_rd p q n : n <= lenZ p -> n <= lenZ q -> (forall i, 0 <= i < n -> rd p i = rd q i) ->
  take (Z.to_nat n) p = take (Z.to_nat n) q.
Proof.
  intros Hp Hq H. apply list_eq. intros i. destruct (decide (i < Z.to_nat n)%nat).
  - rewrite !lookup_take_lt by done. specialize (H (Z.of_nat i) ltac:(lia)). rewrite !rd_lookup, !Nat2Z.id in H by lia. done.
  - rewrite !lookup_take_ge by lia. done.
Qed.

Lemma rd_take p n i : 0 <= i < n -> rd (take (Z.to_nat n) p) i = rd p i.
Proof. intros. rewrite !rd_lookup by lia. apply lookup_take_lt. lia. Qed.

Lemma drop_eq_rd p q n : 0 <= n -> length p = length q -> (forall i, n <= i < lenZ p -> rd p i = rd q i) ->
  drop (Z.to_nat n) p = drop (Z.to_nat n) q.
Proof.
  intros Hn Hl H. apply list_eq. intros i. rewrite !lookup_drop.
  destruct (decide (Z.to_nat n + i < length p)%nat).
  - specialize (H (n + Z.of_nat i) ltac:(lia)). rewrite !rd_lookup in H by lia.
    by replace (Z.to_nat (n + Z.of_nat i)) with (Z.to_nat n + i)%nat in H by lia.
  - rewrite !lookup_ge_None_2 by lia. done.
Qed.

(** A store at the end of a prefix, of which only the first [k] elements count. *)
Lemma take_wr_n p i bs p' k : wr_n p i bs = Some p' -> 0 <= k <= lenZ bs ->
  take (Z.to_nat (i + k)) p' = take (Z.to_nat i) p ++ take (Z.to_nat k) bs.
Proof.
  unfold wr_n. intros H Hk. repeat case_bool_in H; cbn [andb] in H; simplify_eq.
  replace (Z.to_nat (i + k)) with (length (take (Z.to_nat i) p) + Z.to_nat k)%nat by (rewrite length_take; lia).
  rewrite take_app_add. f_equal. apply take_app_le. lia.
Qed.

Lemma take_wr p i (x : A) p' : wr p i x = Some p' -> take (Z.to_nat (i + 1)) p' = take (Z.to_nat i) p ++ [x].
Proof. rewrite wr_as_wr_n. intros H. by rewrite (take_wr_n _ _ _ _ 1 H) by (cbn; lia). Qed.

(** The prefix before a store is kept. *)
Lemma take_wr_n_before p i bs p' k : wr_n p i bs = Some p' -> 0 <= k <= i -> take (Z.to_nat k) p' = take (Z.to_nat k) p.
Proof.
  unfold wr_n. intros H Hk. repeat case_bool_in H; cbn [andb] in H; simplify_eq.
  rewrite take_app_le by (rewrite length_take; lia). rewrite take_take. f_equal. lia.
Qed.
End Cells.

Lemma wr_n_bytes p i bs p' : wr_n p i bs = Some p' -> bytes_ok p -> bytes_ok bs -> bytes_ok p'.
Proof.
  unfold wr_n. intros H Hp Hb. repeat case_bool_in H; cbn [andb] in H; simplify_eq.
  repeat apply Forall_app_2; auto with bytes.
Qed.

Lemma le_val_rd_n p i n l : rd_n p i n = Some l -> bytes_ok p -> 0 <= le_val l < 2 ^ (8 * n).
Proof. intros H Hp. pose proof (rd_n_bytes _ _ _ _ Hp H) as B. apply rd_n_inv in H as (_ & _ & _ & <- & _). by apply le_val_bound. Qed.
