(* ===== verification/Heap.v ===== *)
(** * The heap, for arrays (carquet/core/allocator.h)

    [carquet_mem_realloc] and [carquet_mem_calloc] on arrays of elements: an interface
    whose laws are the contract of realloc, blocks that a later realloc has freed, and a
    heap that serves every request. *)

From S2P Require Import Prelude.

#[local] Open Scope Z_scope.

(** [array_realloc p n size] is [carquet_mem_realloc(p, n * size)] on an array of elements
    of [size] bytes: [None] when it fails; the old array, [[]] for NULL, may be shorter or
    longer, and the cells beyond it are not initialised. *)
Class ArrayHeap := array_realloc : forall {X : Type} {HX : Inhabited X}, list X -> Z -> Z -> option (list X).

Class ArrayHeapOk (Hp : ArrayHeap) := {
  array_length : forall X (HX : Inhabited X) (p : list X) n size q, array_realloc p n size = Some q -> 0 <= n -> lenZ q = n;
  array_prefix : forall X (HX : Inhabited X) (p : list X) n size q k, array_realloc p n size = Some q ->
    (k <= length p)%nat -> Z.of_nat k <= n -> take k q = take k p }.

(** Requests for arrays of up to 2^31 elements are served. *)
Class ArrayHeapTotal (H : ArrayHeap) :=
  array_total : forall X (HX : Inhabited X) (p : list X) n size, 0 <= n < 2 ^ 31 -> is_Some (array_realloc p n size).

(** A heap that serves every request. *)
Definition plain_heap : ArrayHeap := λ X HX p n size, if 0 <=? n then Some (take (Z.to_nat n) p ++ replicate (Z.to_nat n - length p) inhabitant) else None.

#[export] Instance plain_heap_ok : ArrayHeapOk plain_heap.
Proof.
  split; intros *; unfold array_realloc, plain_heap; destruct (Z.leb_spec 0 n); try done; intros [= <-].
  - intros _. rewrite length_app, length_take, length_replicate. lia.
  - intros Hk Hn. rewrite take_app_le by (rewrite length_take; lia). rewrite take_take. f_equal. lia.
Qed.

#[export] Instance plain_heap_total : ArrayHeapTotal plain_heap.
Proof. intros X HX p n size Hn. unfold array_realloc, plain_heap. decide_bool. by eexists. Qed.

(** A pointer to an array, which may dangle: a block that was moved is freed. *)
Inductive block (X : Type) := Live (cells : list X) | Freed.
Arguments Live {X}.
Arguments Freed {X}.

Definition live {X} (b : block X) : option (list X) := match b with Live l => Some l | Freed => None end.

Section Heap.
Context {Hp : ArrayHeap}.

(** [carquet_mem_calloc(n, size)] *)
Definition array_calloc {X} (zero : X) (n size : Z) : option (list X) :=
  match array_realloc (HX := populate zero) [] n size with
  | Some _ => Some (replicate (Z.to_nat n) zero)
  | None => None
  end.

(** [q = carquet_mem_realloc(p, n * size)], where [p] stays as it was when [q] is NULL and
    must not be used any more when it is not. *)
Definition block_realloc {X} {HX : Inhabited X} (p : block X) (n size : Z) : option (option (list X) * block X) :=
  l ← live p;
  match array_realloc l n size with
  | Some q => Some (Some q, Freed)
  | None => Some (None, p)
  end.

Lemma not_total {X} {HX : Inhabited X} (p : list X) n size : array_realloc p n size = None -> 0 <= n < 2 ^ 31 -> ArrayHeapTotal Hp -> False.
Proof. intros E Hn T. destruct (T X HX p n size Hn). congruence. Qed.

Lemma array_calloc_total {X} (zero : X) n size : ArrayHeapTotal Hp -> 0 <= n < 2 ^ 31 -> array_calloc zero n size = Some (replicate (Z.to_nat n) zero).
Proof. intros T Hn. unfold array_calloc. by destruct (T X (populate zero) [] n size Hn) as [q ->]. Qed.

Lemma calloc_inv {X} (zero : X) n size l : array_calloc zero n size = Some l -> l = replicate (Z.to_nat n) zero.
Proof. unfold array_calloc. destruct (array_realloc _ _ _); by intros [= <-]. Qed.

End Heap.
