(* ===== verification/Status.v ===== *)
(** * Status codes (carquet/error.h)

    [carquet_status_t], the code every fallible operation of the engine returns,
    with its numeric values and decidable equality. *)

From S2P Require Import Prelude.

Inductive carquet_status_t :=
  | CARQUET_OK
  | CARQUET_ERROR_INVALID_ARGUMENT
  | CARQUET_ERROR_OUT_OF_MEMORY
  | CARQUET_ERROR_NOT_IMPLEMENTED
  | CARQUET_ERROR_INTERNAL
  | CARQUET_ERROR_FILE_NOT_FOUND
  | CARQUET_ERROR_FILE_OPEN
  | CARQUET_ERROR_FILE_READ
  | CARQUET_ERROR_FILE_WRITE
  | CARQUET_ERROR_FILE_SEEK
  | CARQUET_ERROR_FILE_TRUNCATED
  | CARQUET_ERROR_INVALID_MAGIC
  | CARQUET_ERROR_INVALID_FOOTER
  | CARQUET_ERROR_INVALID_SCHEMA
  | CARQUET_ERROR_INVALID_METADATA
  | CARQUET_ERROR_INVALID_PAGE
  | CARQUET_ERROR_INVALID_ENCODING
  | CARQUET_ERROR_VERSION_NOT_SUPPORTED
  | CARQUET_ERROR_THRIFT_DECODE
  | CARQUET_ERROR_THRIFT_ENCODE
  | CARQUET_ERROR_THRIFT_INVALID_TYPE
  | CARQUET_ERROR_THRIFT_TRUNCATED
  | CARQUET_ERROR_DECODE
  | CARQUET_ERROR_ENCODE
  | CARQUET_ERROR_DICTIONARY_NOT_FOUND
  | CARQUET_ERROR_INVALID_RLE
  | CARQUET_ERROR_INVALID_DELTA
  | CARQUET_ERROR_COMPRESSION
  | CARQUET_ERROR_DECOMPRESSION
  | CARQUET_ERROR_UNSUPPORTED_CODEC
  | CARQUET_ERROR_INVALID_COMPRESSED_DATA
  | CARQUET_ERROR_TYPE_MISMATCH
  | CARQUET_ERROR_COLUMN_NOT_FOUND
  | CARQUET_ERROR_ROW_GROUP_NOT_FOUND
  | CARQUET_ERROR_END_OF_DATA
  | CARQUET_ERROR_CHECKSUM
  | CARQUET_ERROR_CRC_MISMATCH
  | CARQUET_ERROR_INVALID_STATE
  | CARQUET_ERROR_ALREADY_CLOSED
  | CARQUET_ERROR_NOT_OPEN
  | CARQUET_ERROR_PAGE_INDEX_REQUIRED.

#[export] Instance carquet_status_eq_dec : EqDecision carquet_status_t.
Proof. solve_decision. Defined.

(** [CARQUET_FAILED(status)] and the test [status == CARQUET_OK]. *)
Definition CARQUET_FAILED (s : carquet_status_t) : bool :=
  match s with CARQUET_OK => false | _ => true end.

Definition is_ok (s : carquet_status_t) : bool := negb (CARQUET_FAILED s).

Lemma is_ok_true s : is_ok s = true <-> s = CARQUET_OK.
Proof. by destruct s. Qed.

Lemma CARQUET_FAILED_false s : CARQUET_FAILED s = false <-> s = CARQUET_OK.
Proof. by destruct s. Qed.
