(* ===== verification/Endian.v ===== *)
(** * Byte order, varints and zigzag (carquet/core/endian.h, core/float16.h)

    Little-endian loads and stores, the LEB128 varints of Thrift and of the Parquet
    encodings, and the zigzag mapping of signed integers.  Pointers are readable byte
    lists; floating-point values are their IEEE-754 bit patterns, which is all the
    [memcpy] conversions of the header see. *)

From S2P Require Import Prelude.

(** ** Loads

    [carquet_read_uN_le] is the branch compiled on little-endian targets, where the
    object representation of the result is the [N/8] bytes copied; the [_portable]
    definitions are the shift-and-or branch of the other targets. *)

Definition carquet_read_u16_le (p : list Z) : option Z := le_val <$> rd_n p 0 2.
Definition carquet_read_u32_le (p : list Z) : option Z := le_val <$> rd_n p 0 4.
Definition carquet_read_u64_le (p : list Z) : option Z := le_val <$> rd_n p 0 8.

Definition carquet_read_u16_le_portable (p : list Z) : option Z :=
  p0 ← rd p 0; p1 ← rd p 1;
  Some (p0 .| (p1 ≪ 8)).

Definition carquet_read_u32_le_portable (p : list Z) : option Z :=
  p0 ← rd p 0; p1 ← rd p 1; p2 ← rd p 2; p3 ← rd p 3;
  Some (p0 .| (p1 ≪ 8) .| (p2 ≪ 16) .| (p3 ≪ 24)).

Definition carquet_read_u64_le_portable (p : list Z) : option Z :=
  p0 ← rd p 0; p1 ← rd p 1; p2 ← rd p 2; p3 ← rd p 3;
  p4 ← rd p 4; p5 ← rd p 5; p6 ← rd p 6; p7 ← rd p 7;
  Some (p0 .| (p1 ≪ 8) .| (p2 ≪ 16) .| (p3 ≪ 24)
        .| (p4 ≪ 32) .| (p5 ≪ 40) .| (p6 ≪ 48) .| (p7 ≪ 56)).

Definition carquet_read_i16_le (p : list Z) : option Z := i16 <$> carquet_read_u16_le p.
Definition carquet_read_i32_le (p : list Z) : option Z := i32 <$> carquet_read_u32_le p.
Definition carquet_read_i64_le (p : list Z) : option Z := i64 <$> carquet_read_u64_le p.
Definition carquet_read_f32_le (p : list Z) : option Z := carquet_read_u32_le p.
Definition carquet_read_f64_le (p : list Z) : option Z := carquet_read_u64_le p.

(** ** Stores: the bytes written at the destination *)

Definition carquet_write_u16_le (v : Z) : list Z := le_bytes 2 v.
Definition carquet_write_u32_le (v : Z) : list Z := le_bytes 4 v.
Definition carquet_write_u64_le (v : Z) : list Z := le_bytes 8 v.

Definition carquet_write_u16_le_portable (v : Z) : list Z := [u8 v; u8 (v ≫ 8)].

Definition carquet_write_u32_le_portable (v : Z) : list Z :=
  [u8 v; u8 (v ≫ 8); u8 (v ≫ 16); u8 (v ≫ 24)].

Definition carquet_write_u64_le_portable (v : Z) : list Z :=
  [u8 v; u8 (v ≫ 8); u8 (v ≫ 16); u8 (v ≫ 24);
   u8 (v ≫ 32); u8 (v ≫ 40); u8 (v ≫ 48); u8 (v ≫ 56)].

Definition carquet_write_i16_le (v : Z) : list Z := carquet_write_u16_le (u16 v).
Definition carquet_write_i32_le (v : Z) : list Z := carquet_write_u32_le (u32 v).
Definition carquet_write_i64_le (v : Z) : list Z := carquet_write_u64_le (u64 v).
Definition carquet_write_f32_le (bits : Z) : list Z := carquet_write_u32_le bits.
Definition carquet_write_f64_le (bits : Z) : list Z := carquet_write_u64_le bits.

(** ** Varints

    [encode_varint_loop] is the [while (v >= 0x80)] loop shared by the encoders;
    [fuel] is the size of the destination array, and running past it is an
    out-of-bounds store ([None]). *)

Fixpoint encode_varint_loop (fuel : nat) (v : Z) : option (list Z) :=
  match fuel with
  | O => None
  | S fuel =>
      if v >=? 0x80 then
        rest ← encode_varint_loop fuel (v ≫ 7);
        Some (u8 ((v .& 0x7F) .| 0x80) :: rest)
      else Some [u8 v]
  end.

Definition carquet_encode_varint32 (v : Z) : option (list Z) := encode_varint_loop 5 v.
Definition carquet_encode_varint64 (v : Z) : option (list Z) := encode_varint_loop 10 v.

(** The decoders return the number of bytes consumed, or -1, and the value stored in
    [*out] (kept at 0 when nothing is stored).  [trunc] is the width of [result] and
    [n] the number of iterations the test [i < 5] (or [i < 10]) still allows. *)

Fixpoint decode_varint_loop (trunc : Z -> Z) (n : nat) (p : list Z) (len : Z)
    (i shift result : Z) : option (Z * Z) :=
  match n with
  | O => Some (-1, 0)
  | S n =>
      if i <? len then
        byte ← rd p i;
        let result := result .| trunc ((byte .& 0x7F) ≪ shift) in
        if (byte .& 0x80) =? 0 then Some (i + 1, result)
        else decode_varint_loop trunc n p len (i + 1) (shift + 7) result
      else Some (-1, 0)
  end.

Definition carquet_decode_varint32 (p : list Z) (len : Z) : option (Z * Z) :=
  decode_varint_loop u32 5 p len 0 0 0.

Definition carquet_decode_varint64 (p : list Z) (len : Z) : option (Z * Z) :=
  decode_varint_loop u64 10 p len 0 0 0.

(** ** Zigzag *)

Definition carquet_zigzag_encode32 (v : Z) : Z := u32 (u32 v ≪ 1) .^ u32 (v ≫ 31).
Definition carquet_zigzag_encode64 (v : Z) : Z := u64 (u64 v ≪ 1) .^ u64 (v ≫ 63).

Definition carquet_zigzag_decode32 (v : Z) : Z := i32 ((v ≫ 1) .^ u32 (- (v .& 1))).
Definition carquet_zigzag_decode64 (v : Z) : Z := i64 ((v ≫ 1) .^ u64 (- (v .& 1))).

(** ** Half precision (core/float16.h) *)

(** [while ((mant & 0x400u) == 0) { mant <<= 1; exp--; }]; a non-zero 10-bit
    mantissa reaches bit 10 within ten shifts. *)
Fixpoint half_normalize (fuel : nat) (mant exp : Z) : option (Z * Z) :=
  match fuel with
  | O => None
  | S fuel =>
      if (mant .& 0x400) =? 0 then half_normalize fuel (u32 (mant ≪ 1)) (u32 (exp - 1))
      else Some (mant, exp)
  end.

Definition carquet_half_to_float (h : Z) : option Z :=
  let sign := u32 (h ≫ 15) .& 1 in
  let exp := (h ≫ 10) .& 0x1F in
  let mant := h .& 0x3FF in
  if exp =? 0 then
    if mant =? 0 then Some (u32 (sign ≪ 31))
    else
      '(mant, exp) ← half_normalize 11 mant 1;
      let mant := mant .& 0x3FF in
      Some (u32 (sign ≪ 31) .| u32 (u32 (exp + (127 - 15)) ≪ 23) .| u32 (mant ≪ 13))
  else if exp =? 0x1F then
    Some (u32 (sign ≪ 31) .| u32 (0xFF ≪ 23) .| u32 (mant ≪ 13))
  else
    Some (u32 (sign ≪ 31) .| u32 (u32 (exp + (127 - 15)) ≪ 23) .| u32 (mant ≪ 13)).

(** ** Correctness of loads and stores *)

Lemma rd_n_length {A} (p : list A) n : 0 <= n <= lenZ p -> rd_n p 0 n = Some (take (Z.to_nat n) p).
Proof. intros. by rewrite rd_n_Some by lia. Qed.

Lemma rd_n_all {B} (l : list B) : rd_n l 0 (lenZ l) = Some l.
Proof. rewrite rd_n_Some by lia. change (Z.to_nat 0) with 0%nat. by rewrite drop_0, take_ge by lia. Qed.

(** The portable branch computes the little-endian value of the bytes it reads. *)
Lemma carquet_read_u16_le_branches p : bytes_ok p -> 2 <= lenZ p ->
  carquet_read_u16_le_portable p = carquet_read_u16_le p.
Proof.
  intros Hp Hl. unfold carquet_read_u16_le. rewrite rd_n_length by lia.
  do 2 (destruct p as [|? p]; [cbn in Hl; lia|]).
  rewrite !Forall_cons_iff in Hp. unfold in_u in Hp.
  repeat (cbn; red_nat). rewrite take_0. f_equal. lor_to_add. cbn. lia.
Qed.

Lemma carquet_read_u32_le_branches p : bytes_ok p -> 4 <= lenZ p ->
  carquet_read_u32_le_portable p = carquet_read_u32_le p.
Proof.
  intros Hp Hl. unfold carquet_read_u32_le. rewrite rd_n_length by lia.
  do 4 (destruct p as [|? p]; [cbn in Hl; lia|]).
  rewrite !Forall_cons_iff in Hp. unfold in_u in Hp.
  repeat (cbn; red_nat). rewrite take_0. f_equal. lor_to_add. cbn. lia.
Qed.

Lemma carquet_read_u64_le_branches p : bytes_ok p -> 8 <= lenZ p ->
  carquet_read_u64_le_portable p = carquet_read_u64_le p.
Proof.
  intros Hp Hl. unfold carquet_read_u64_le. rewrite rd_n_length by lia.
  do 8 (destruct p as [|? p]; [cbn in Hl; lia|]).
  rewrite !Forall_cons_iff in Hp. unfold in_u in Hp.
  repeat (cbn; red_nat). rewrite take_0. f_equal. lor_to_add. cbn. lia.
Qed.

Lemma carquet_write_u16_le_branches v : carquet_write_u16_le_portable v = carquet_write_u16_le v.
Proof. unfold carquet_write_u16_le_portable. rewrite shiftr_div by lia. done. Qed.

Lemma carquet_write_u32_le_branches v : carquet_write_u32_le_portable v = carquet_write_u32_le v.
Proof.
  unfold carquet_write_u32_le_portable, carquet_write_u32_le, u8.
  rewrite !shiftr_div by lia. cbn. by rewrite !Z.div_div by lia.
Qed.

Lemma carquet_write_u64_le_branches v : carquet_write_u64_le_portable v = carquet_write_u64_le v.
Proof.
  unfold carquet_write_u64_le_portable, carquet_write_u64_le, u8.
  rewrite !shiftr_div by lia. cbn. by rewrite !Z.div_div by lia.
Qed.

(** A load of a stored value, whatever follows it in memory. *)
Lemma load_store n v r :
  0 <= v < 2 ^ (8 * Z.of_nat n) ->
  le_val <$> rd_n (le_bytes n v ++ r) 0 (Z.of_nat n) = Some v.
Proof.
  intros Hv. rewrite rd_n_Some by (rewrite ?length_app, ?length_le_bytes; lia).
  rewrite Nat2Z.id. change (Z.to_nat 0) with 0%nat. rewrite drop_0.
  rewrite take_app_length' by (by rewrite length_le_bytes).
  cbn. rewrite le_val_bytes, Z.mod_small by lia. done.
Qed.

Lemma read_write_u16 v r : in_u 16 v -> carquet_read_u16_le (carquet_write_u16_le v ++ r) = Some v.
Proof. intros. by apply (load_store 2). Qed.
Lemma read_write_u32 v r : in_u 32 v -> carquet_read_u32_le (carquet_write_u32_le v ++ r) = Some v.
Proof. intros. by apply (load_store 4). Qed.
Lemma read_write_u64 v r : in_u 64 v -> carquet_read_u64_le (carquet_write_u64_le v ++ r) = Some v.
Proof. intros. by apply (load_store 8). Qed.

Lemma read_write_i32 v r : in_i 32 v -> carquet_read_i32_le (carquet_write_i32_le v ++ r) = Some v.
Proof.
  intros. unfold carquet_read_i32_le, carquet_write_i32_le.
  rewrite read_write_u32 by apply u32_range. cbn. f_equal. by apply wrap_signed_of_mod.
Qed.
Lemma read_write_i64 v r : in_i 64 v -> carquet_read_i64_le (carquet_write_i64_le v ++ r) = Some v.
Proof.
  intros. unfold carquet_read_i64_le, carquet_write_i64_le.
  rewrite read_write_u64 by apply u64_range. cbn. f_equal. by apply wrap_signed_of_mod.
Qed.

(** ** Varints *)

(** The reference LEB128 encoding: base-128 digits, least significant first, the
    high bit set on all but the last. *)
Fixpoint uleb_n (fuel : nat) (v : Z) : list Z :=
  match fuel with
  | O => []
  | S fuel => if v <? 2 ^ 7 then [v] else (v mod 2 ^ 7 + 2 ^ 7) :: uleb_n fuel (v / 2 ^ 7)
  end.

Definition uleb (v : Z) : list Z := uleb_n 10 v.

Lemma pow7_S n : 2 ^ (7 * Z.of_nat (S n)) = 2 ^ 7 * 2 ^ (7 * Z.of_nat n).
Proof. rewrite <- Z.pow_add_r by lia. f_equal. lia. Qed.

Lemma uleb_n_enough n m v :
  0 <= v < 2 ^ (7 * Z.of_nat n) -> (n <= m)%nat -> (0 < n)%nat -> uleb_n m v = uleb_n n v.
Proof.
  revert m v. induction n as [|n IH]; intros m v Hv Hm Hn; [lia|].
  destruct m as [|m]; [lia|]. cbn [uleb_n]. case_bool; [done|]. f_equal.
  rewrite pow7_S in Hv. destruct (decide (n = 0%nat)) as [->|].
  - change (2 ^ (7 * Z.of_nat 0)) with 1 in Hv. lia.
  - apply IH; [|lia..]. split; [apply Z.div_pos; lia|]. apply Z.div_lt_upper_bound; lia.
Qed.

Lemma encode_varint_loop_uleb n v :
  (0 < n)%nat -> 0 <= v < 2 ^ (7 * Z.of_nat n) -> encode_varint_loop n v = Some (uleb_n n v).
Proof.
  revert v. induction n as [|n IH]; intros v Hn Hv; [lia|].
  cbn [encode_varint_loop uleb_n]. rewrite Z.geb_leb. rewrite pow7_S in Hv.
  destruct (Z.ltb_spec v (2 ^ 7)); decide_bool.
  - by rewrite u8_small by lia.
  - rewrite shiftr_div by lia.
    destruct (decide (n = 0%nat)) as [->|].
    { change (2 ^ (7 * Z.of_nat 0)) with 1 in Hv. lia. }
    rewrite IH; [|lia|].
    2: { split; [apply Z.div_pos; lia|]. apply Z.div_lt_upper_bound; lia. }
    cbn. rewrite byte_land_7F, byte_lor_80 by (apply Z.mod_pos_bound; lia).
    pose proof (Z.mod_pos_bound v (2 ^ 7)). by rewrite u8_small by lia.
Qed.

Lemma length_uleb_n n v : (0 < n)%nat -> (1 <= length (uleb_n n v) <= n)%nat.
Proof.
  revert v. induction n as [|n IH]; intros v Hn; [lia|]. cbn [uleb_n].
  case_bool; cbn [length]; [lia|]. destruct n; [simpl; lia|].
  specialize (IH (v / 2 ^ 7)). lia.
Qed.

Lemma uleb_n_ok n v : 0 <= v -> bytes_ok (uleb_n n v).
Proof.
  revert v. induction n as [|n IH]; intros v Hv; cbn [uleb_n]; [constructor|].
  case_bool; constructor.
  - unfold in_u. lia.
  - constructor.
  - unfold in_u. pose proof (Z.mod_pos_bound v (2 ^ 7)). lia.
  - apply IH. apply Z.div_pos; lia.
Qed.

Lemma length_uleb v : (1 <= length (uleb v) <= 10)%nat.
Proof. apply length_uleb_n. lia. Qed.

Lemma uleb_ok v : 0 <= v -> bytes_ok (uleb v).
Proof. apply uleb_n_ok. Qed.

#[export] Hint Resolve uleb_ok uleb_n_ok : bytes.

Lemma encode_varint64_uleb v : in_u 64 v -> carquet_encode_varint64 v = Some (uleb v).
Proof.
  intros Hv. unfold in_u in Hv. apply encode_varint_loop_uleb; [lia|].
  change (7 * Z.of_nat 10) with 70. lia.
Qed.

Lemma encode_varint32_uleb v : in_u 32 v -> carquet_encode_varint32 v = Some (uleb v).
Proof.
  intros Hv. unfold in_u in Hv. unfold uleb.
  rewrite (uleb_n_enough 5 10) by (try change (7 * Z.of_nat 5) with 35; lia).
  apply encode_varint_loop_uleb; [lia|]. change (7 * Z.of_nat 5) with 35. lia.
Qed.

(** Reading back one base-128 digit: the digit lands above the bits already read. *)
Lemma varint_digit trunc w d shift result :
  (forall x, 0 <= x < 2 ^ w -> trunc x = x) ->
  0 <= shift -> 0 <= result < 2 ^ shift -> 0 <= d -> d * 2 ^ shift < 2 ^ w ->
  result .| trunc (d ≪ shift) = result + d * 2 ^ shift.
Proof.
  intros Htr Hs Hr Hd Hb. pose proof (pow2_pos shift Hs).
  rewrite Htr by (rewrite shiftl_mul; lia). by rewrite lor_add.
Qed.

(** The decoding loop started in front of an encoded value returns it. *)
Lemma decode_varint_loop_uleb trunc w n m p pre r len i shift result v :
  (forall x, 0 <= x < 2 ^ w -> trunc x = x) ->
  p = pre ++ uleb_n m v ++ r -> i = lenZ pre ->
  i + lenZ (uleb_n m v) <= len -> (0 < m <= n)%nat ->
  0 <= v < 2 ^ (7 * Z.of_nat m) -> 0 <= shift -> 0 <= result < 2 ^ shift ->
  result + v * 2 ^ shift < 2 ^ w ->
  decode_varint_loop trunc n p len i shift result =
    Some (i + lenZ (uleb_n m v), result + v * 2 ^ shift).
Proof.
  intros Htr. revert m p pre len i shift result v.
  induction n as [|n IH]; intros m p pre len i shift result v Hp Hi Hlen Hm Hv Hs Hr Hw; [lia|].
  destruct m as [|m]; [lia|]. cbn [uleb_n decode_varint_loop] in *.
  pose proof (pow2_pos shift Hs) as Ps. rewrite pow7_S in Hv.
  destruct (Z.ltb_spec v (2 ^ 7)); cbn [length] in *; decide_bool.
  - rewrite Hp. cbn [app]. rewrite rd_middle by done. cbn.
    rewrite byte_land_7F, byte_land_80, (Z.mod_small v) by lia. decide_bool.
    rewrite (varint_digit _ w) by (auto; lia). done.
  - rewrite Hp. cbn [app]. rewrite rd_middle by done. cbn.
    pose proof (Z.mod_pos_bound v (2 ^ 7)) as B. pose proof (Z.div_mod v (2 ^ 7)) as E.
    assert (0 <= v / 2 ^ 7) by (apply Z.div_pos; lia).
    rewrite byte_land_7F, byte_land_80 by lia.
    replace ((v mod 2 ^ 7 + 2 ^ 7) mod 2 ^ 7) with (v mod 2 ^ 7) by dlia. decide_bool.
    rewrite (varint_digit _ w) by (auto; nia).
    destruct (decide (m = 0%nat)) as [->|].
    { change (2 ^ (7 * Z.of_nat 0)) with 1 in Hv. lia. }
    assert (2 ^ (shift + 7) = 2 ^ 7 * 2 ^ shift) as E7 by (rewrite Z.pow_add_r by lia; lia).
    rewrite (IH m _ (pre ++ [v mod 2 ^ 7 + 2 ^ 7])) with (v := v / 2 ^ 7).
    + f_equal. f_equal; [lia|]. rewrite E7. nia.
    + by rewrite <- app_assoc.
    + rewrite length_app. simpl. lia.
    + lia.
    + lia.
    + split; [lia|]. apply Z.div_lt_upper_bound; lia.
    + lia.
    + rewrite E7. nia.
    + rewrite E7. nia.
Qed.

Lemma decode_varint64_uleb v r len :
  in_u 64 v -> lenZ (uleb v) <= len ->
  carquet_decode_varint64 (uleb v ++ r) len = Some (lenZ (uleb v), v).
Proof.
  intros Hv Hl. unfold in_u in Hv. unfold carquet_decode_varint64.
  rewrite (decode_varint_loop_uleb u64 64 10 10 _ [] r) with (v := v); unfold uleb in *.
  - f_equal. f_equal; lia.
  - apply u64_small.
  - done.
  - done.
  - lia.
  - lia.
  - change (7 * Z.of_nat 10) with 70. lia.
  - lia.
  - lia.
  - lia.
Qed.

Lemma decode_varint32_uleb v r len :
  in_u 32 v -> lenZ (uleb v) <= len ->
  carquet_decode_varint32 (uleb v ++ r) len = Some (lenZ (uleb v), v).
Proof.
  intros Hv Hl. unfold in_u in Hv. unfold carquet_decode_varint32, uleb in *.
  rewrite (uleb_n_enough 5 10) in * by (try change (7 * Z.of_nat 5) with 35; lia).
  rewrite (decode_varint_loop_uleb u32 32 5 5 _ [] r) with (v := v).
  - f_equal. f_equal; lia.
  - apply u32_small.
  - done.
  - done.
  - lia.
  - lia.
  - change (7 * Z.of_nat 5) with 35. lia.
  - lia.
  - lia.
  - lia.
Qed.

(** ** Zigzag

    The bit tricks compute the arithmetic zigzag map, for either width. *)

Lemma shiftr_sign w v : 1 <= w -> in_i w v -> v ≫ (w - 1) = if v <? 0 then -1 else 0.
Proof.
  intros Hw [Hlo Hhi]. rewrite shiftr_div by lia. pose proof (pow2_pos (w - 1)).
  case_bool.
  - symmetry. apply Z.div_unique with (v + 2 ^ (w - 1)); lia.
  - apply Z.div_small. lia.
Qed.

Lemma zigzag_encode_arith w v : 1 <= w -> in_i w v ->
  Z.lxor (((v mod 2 ^ w) ≪ 1) mod 2 ^ w) ((v ≫ (w - 1)) mod 2 ^ w)
  = if v <? 0 then - 2 * v - 1 else 2 * v.
Proof.
  intros Hw Hv. rewrite (shiftr_sign w) by done. unfold in_i in Hv.
  pose proof (pow2_half w Hw). pose proof (pow2_pos (w - 1)).
  rewrite shiftl_mul, Z.mul_mod_idemp_l by lia. change (2 ^ 1) with 2.
  case_bool.
  - rewrite opp1_mod by lia. rewrite lxor_ones; [|apply Z.mod_pos_bound; lia|lia].
    replace ((v * 2) mod 2 ^ w) with (v * 2 + 2 ^ w); [lia|].
    apply Z.mod_unique with (-1); lia.
  - rewrite Z.mod_0_l, Z.lxor_0_r by lia. rewrite Z.mod_small; lia.
Qed.

Lemma even_mod u : Z.even u = (u mod 2 =? 0).
Proof.
  rewrite (Z.div_mod u 2) at 1 by lia. rewrite Z.even_add, Z.even_mul. cbn [Z.even orb eqb].
  destruct (Z.mod_pos_bound u 2); [lia|].
  assert (u mod 2 = 0 \/ u mod 2 = 1) as [-> | ->] by lia; done.
Qed.

Lemma zigzag_decode_arith w u : 1 <= w -> in_u w u ->
  wrap_signed w (Z.lxor (u ≫ 1) ((- (u .& 1)) mod 2 ^ w))
  = if Z.even u then u / 2 else - (u + 1) / 2.
Proof.
  intros Hw Hu. unfold in_u in Hu. rewrite land_1, shiftr_div by lia. change (2 ^ 1) with 2.
  pose proof (pow2_half w Hw). pose proof (pow2_pos (w - 1)).
  pose proof (Z.div_mod u 2). rewrite even_mod.
  destruct (Z.mod_pos_bound u 2); [lia|].
  assert (0 <= u / 2 < 2 ^ (w - 1)) by (split; [apply Z.div_pos; lia|apply Z.div_lt_upper_bound; lia]).
  destruct (decide (u mod 2 = 0)) as [E|E].
  - rewrite E. cbn. rewrite Z.mod_0_l, Z.lxor_0_r by lia.
    apply wrap_signed_small; [done|]. unfold in_i. lia.
  - assert (u mod 2 = 1) as E1 by lia. rewrite E1. cbn.
    rewrite opp1_mod by lia. rewrite lxor_ones by lia.
    replace (- (u + 1) / 2) with (- 1 - u / 2) by (apply Z.div_unique with 0; lia).
    rewrite <- (wrap_signed_small w (-1 - u / 2)) by (unfold in_i; lia).
    apply wrap_signed_congr.
    replace (2 ^ w - 1 - u / 2) with (-1 - u / 2 + 1 * 2 ^ w) by lia.
    rewrite Z.mod_add by lia. done.
Qed.

Lemma zigzag_encode64_arith v : in_i 64 v ->
  carquet_zigzag_encode64 v = if v <? 0 then - 2 * v - 1 else 2 * v.
Proof. apply (zigzag_encode_arith 64). lia. Qed.

Lemma zigzag_encode32_arith v : in_i 32 v ->
  carquet_zigzag_encode32 v = if v <? 0 then - 2 * v - 1 else 2 * v.
Proof. apply (zigzag_encode_arith 32). lia. Qed.

Lemma zigzag_decode64_arith u : in_u 64 u ->
  carquet_zigzag_decode64 u = if Z.even u then u / 2 else - (u + 1) / 2.
Proof. apply (zigzag_decode_arith 64). lia. Qed.

Lemma zigzag_decode32_arith u : in_u 32 u ->
  carquet_zigzag_decode32 u = if Z.even u then u / 2 else - (u + 1) / 2.
Proof. apply (zigzag_decode_arith 32). lia. Qed.

Lemma even_2mul v : Z.even (2 * v) = true.
Proof. by rewrite Z.even_mul. Qed.
Lemma even_2mul_1 v : Z.even (- 2 * v - 1) = false.
Proof. rewrite Z.even_sub, Z.even_mul. done. Qed.

Lemma zigzag_encode64_range v : in_i 64 v -> in_u 64 (carquet_zigzag_encode64 v).
Proof.
  intros Hv. rewrite zigzag_encode64_arith by done. unfold in_i, in_u in *. case_bool; lia.
Qed.

Lemma zigzag64_decode_encode v : in_i 64 v ->
  carquet_zigzag_decode64 (carquet_zigzag_encode64 v) = v.
Proof.
  intros Hv. rewrite zigzag_decode64_arith by by apply zigzag_encode64_range.
  rewrite zigzag_encode64_arith by done. unfold in_i in Hv. case_bool.
  - rewrite even_2mul_1. dlia.
  - rewrite even_2mul. dlia.
Qed.

Lemma zigzag_encode32_range v : in_i 32 v -> in_u 32 (carquet_zigzag_encode32 v).
Proof.
  intros Hv. rewrite zigzag_encode32_arith by done. unfold in_i, in_u in *. case_bool; lia.
Qed.

Lemma zigzag32_decode_encode v : in_i 32 v ->
  carquet_zigzag_decode32 (carquet_zigzag_encode32 v) = v.
Proof.
  intros Hv. rewrite zigzag_decode32_arith by by apply zigzag_encode32_range.
  rewrite zigzag_encode32_arith by done. unfold in_i in Hv. case_bool.
  - rewrite even_2mul_1. dlia.
  - rewrite even_2mul. dlia.
Qed.

Lemma zigzag64_encode_decode u : in_u 64 u ->
  carquet_zigzag_encode64 (carquet_zigzag_decode64 u) = u.
Proof.
  intros Hu. unfold in_u in Hu. rewrite zigzag_decode64_arith by done.
  rewrite even_mod. destruct (Z.eqb_spec (u mod 2) 0);
    rewrite zigzag_encode64_arith by (unfold in_i; dlia); case_bool; dlia.
Qed.

(** ** Half precision

    The magnitude of a finite binary16 (in units of 2^-24) and of a finite binary32
    (in units of 2^-149), from their exponent and mantissa fields. *)

Definition half_exp (h : Z) : Z := (h / 2 ^ 10) mod 2 ^ 5.
Definition half_mant (h : Z) : Z := h mod 2 ^ 10.
Definition half_mag (h : Z) : Z :=
  if half_exp h =? 0 then half_mant h else (2 ^ 10 + half_mant h) * 2 ^ (half_exp h - 1).

Definition float_exp (f : Z) : Z := (f / 2 ^ 23) mod 2 ^ 8.
Definition float_mant (f : Z) : Z := f mod 2 ^ 23.
Definition float_mag (f : Z) : Z :=
  if float_exp f =? 0 then float_mant f else (2 ^ 23 + float_mant f) * 2 ^ (float_exp f - 1).

(** The normalisation loop shifts a non-zero mantissa [k] times into [2^10, 2^11). *)
Lemma half_normalize_spec m : 0 < m < 2 ^ 10 ->
  exists k, 1 <= k <= 10 /\ half_normalize 11 m 1 = Some (m * 2 ^ k, u32 (1 - k)) /\
    2 ^ 10 <= m * 2 ^ k < 2 ^ 11.
Proof.
  intros Hm.
  set (chk := λ m, (m =? 0) || match half_normalize 11 m 1 with
    | Some (m', e) => let k := 1 - i32 e in (1 <=? k) && (k <=? 10) && (m' =? m ≪ k) &&
        (e =? u32 (1 - k)) && (2 ^ 10 <=? m') && (m' <? 2 ^ 11)
    | None => false end).
  assert (chk m = true) as E by (apply (forall_range (2 ^ 10)); [vm_compute; reflexivity|lia]).
  unfold chk in E. rewrite orb_true_iff in E. destruct E as [E|E]; [lia|].
  destruct (half_normalize 11 m 1) as [[m' e]|]; [|done].
  rewrite !andb_true_iff in E. destruct E as [[[[[E1 E2] E3] E4] E5] E6].
  exists (1 - i32 e). rewrite !Z.eqb_eq, ?Z.leb_le, ?Z.ltb_lt in *.
  rewrite <- (shiftl_mul m) by lia. rewrite <- E3. split_and!; auto; try lia. congruence.
Qed.

(** Assembling sign, biased exponent and mantissa. *)
Lemma float_fields s e m : 0 <= s <= 1 -> 0 <= e <= 255 -> 0 <= m < 2 ^ 10 ->
  let f := u32 (s ≪ 31) .| u32 (e ≪ 23) .| u32 (m ≪ 13) in
  in_u 32 f /\ f / 2 ^ 31 = s /\ float_exp f = e /\ float_mant f = m * 2 ^ 13.
Proof.
  intros Hs He Hm f. assert (f = m * 2 ^ 13 + e * 2 ^ 23 + s * 2 ^ 31) as ->.
  { unfold f. rewrite !u32_small by (rewrite shiftl_mul; lia).
    rewrite Z.lor_comm, Z.lor_comm with (b := e ≪ 23), Z.lor_assoc.
    rewrite (shiftl_mul m) by lia. lor_to_add. lia. }
  unfold in_u, float_exp, float_mant. split_and!; dlia.
Qed.

(** Every binary16 bit pattern widens to a binary32 with the same sign and exactly
    the same magnitude (subnormals included, 2^-24 = 2^125 * 2^-149), infinities and
    NaNs keep their class and payload, and the normalisation loop terminates. *)
Theorem half_to_float_exact (h : Z) : in_u 16 h ->
  exists f, carquet_half_to_float h = Some f /\ in_u 32 f /\ f / 2 ^ 31 = h / 2 ^ 15 /\
    if half_exp h =? 31 then float_exp f = 255 /\ float_mant f = half_mant h * 2 ^ 13
    else float_exp f < 255 /\ float_mag f = half_mag h * 2 ^ 125.
Proof.
  intros Hh. unfold in_u in Hh. unfold carquet_half_to_float.
  cbv zeta. rewrite !shiftr_div by lia. rewrite !(u32_small (h / 2 ^ 15)), !land_1 by dlia.
  change (?x .& 0x1F) with (x .& (2 ^ 5 - 1)). change (?x .& 0x3FF) with (x .& (2 ^ 10 - 1)). rewrite !land_ones_mod by lia.
  fold (half_exp h) (half_mant h). replace ((h / 2 ^ 15) mod 2) with (h / 2 ^ 15) by dlia.
  assert (0 <= h / 2 ^ 15 <= 1) as Hs by dlia.
  assert (0 <= half_exp h < 2 ^ 5) as He by (apply Z.mod_pos_bound; lia).
  assert (0 <= half_mant h < 2 ^ 10) as Hm by (apply Z.mod_pos_bound; lia).
  destruct (Z.eqb_spec (half_exp h) 0) as [E0|E0].
  - destruct (Z.eqb_spec (half_mant h) 0) as [M0|M0].
    + eexists. split; [done|].
      destruct (float_fields (h / 2 ^ 15) 0 0) as (F1 & F2 & F3 & F4); [lia..|].
      rewrite !Z.shiftl_0_l, !Z.lor_0_r in *. split_and!; auto.
      unfold float_mag, half_mag. rewrite F3, F4, E0. decide_bool. lia.
    + destruct (half_normalize_spec (half_mant h)) as (k & Hk & -> & Hm'); [lia|]. cbn.
      rewrite land_ones_mod by lia. eexists. split; [done|].
      assert (u32 (u32 (1 - k) + (127 - 15)) = 113 - k) as -> by (unfold u32; dlia).
      destruct (float_fields (h / 2 ^ 15) (113 - k) ((half_mant h * 2 ^ k) mod 2 ^ 10))
        as (F1 & F2 & F3 & F4); [lia..|apply Z.mod_pos_bound; lia|].
      split_and!; auto. decide_bool. split; [lia|].
      unfold float_mag, half_mag. rewrite F3, F4, E0. decide_bool.
      replace ((half_mant h * 2 ^ k) mod 2 ^ 10) with (half_mant h * 2 ^ k - 2 ^ 10) by dlia.
      replace (2 ^ 23 + (half_mant h * 2 ^ k - 2 ^ 10) * 2 ^ 13) with (half_mant h * (2 ^ k * 2 ^ 13)) by lia.
      rewrite <- Z.mul_assoc, <- !Z.pow_add_r by lia. f_equal. f_equal. lia.
  - destruct (Z.eqb_spec (half_exp h) 31) as [E1|E1].
    + eexists. split; [done|].
      destruct (float_fields (h / 2 ^ 15) 0xFF (half_mant h)) as (F1 & F2 & F3 & F4); [lia..|].
      split_and!; auto.
    + rewrite (u32_small (half_exp h + _)) by lia. eexists. split; [done|].
      destruct (float_fields (h / 2 ^ 15) (half_exp h + (127 - 15)) (half_mant h))
        as (F1 & F2 & F3 & F4); [lia..|].
      split_and!; auto; [lia|]. unfold float_mag, half_mag. rewrite F3, F4. decide_bool.
      replace (2 ^ 23 + half_mant h * 2 ^ 13) with ((2 ^ 10 + half_mant h) * 2 ^ 13) by lia.
      rewrite <- !Z.mul_assoc, <- !Z.pow_add_r by lia. f_equal. f_equal. lia.
Qed.

Lemma half_to_float_exact_witness :
  in_u 16 1 /\ exists f, carquet_half_to_float 1 = Some f /\ in_u 32 f /\ f / 2 ^ 31 = 1 / 2 ^ 15 /\
    if half_exp 1 =? 31 then float_exp f = 255 /\ float_mant f = half_mant 1 * 2 ^ 13
    else float_exp f < 255 /\ float_mag f = half_mag 1 * 2 ^ 125.
Proof.
  assert (in_u 16 1) by (unfold in_u; lia). split; [done|]. by apply (half_to_float_exact 1).
Defined.

(** A varint written by either encoder is between one and ten (five) bytes long
    and is read back by the matching decoder as the same value, with the number of
    bytes consumed equal to the number written, whatever follows it in the buffer. *)
Theorem varint_roundtrip (v : Z) (rest : list Z) :
  (in_u 64 v -> exists enc, carquet_encode_varint64 v = Some enc /\ 1 <= lenZ enc <= 10 /\
     carquet_decode_varint64 (enc ++ rest) (lenZ (enc ++ rest)) = Some (lenZ enc, v)) /\
  (in_u 32 v -> exists enc, carquet_encode_varint32 v = Some enc /\ 1 <= lenZ enc <= 5 /\
     carquet_decode_varint32 (enc ++ rest) (lenZ (enc ++ rest)) = Some (lenZ enc, v)).
Proof.
  split; intros Hv; exists (uleb v).
  - rewrite encode_varint64_uleb, decode_varint64_uleb by (rewrite ?length_app; auto; lia).
    pose proof (length_uleb v). split_and!; auto; lia.
  - rewrite encode_varint32_uleb, decode_varint32_uleb by (rewrite ?length_app; auto; lia).
    unfold in_u in Hv. unfold uleb. rewrite (uleb_n_enough 5 10) by (try change (7 * Z.of_nat 5) with 35; lia).
    pose proof (length_uleb_n 5 v). split_and!; auto; lia.
Qed.

Lemma varint_roundtrip_witness :
  (exists enc, carquet_encode_varint64 300 = Some enc /\ 1 <= lenZ enc <= 10 /\
     carquet_decode_varint64 (enc ++ [7]) (lenZ (enc ++ [7])) = Some (lenZ enc, 300)) /\
  carquet_encode_varint64 300 = Some [172; 2].
Proof.
  split; [|reflexivity]. apply (varint_roundtrip 300 [7]). unfold in_u. lia.
Defined.

(** Zigzag is a bijection between the signed and the unsigned integers of a width:
    decoding inverts encoding on every signed value, encoding inverts decoding on every
    unsigned one, and small magnitudes get small codes. *)
Theorem zigzag_bijection (v u : Z) :
  (in_i 64 v -> carquet_zigzag_decode64 (carquet_zigzag_encode64 v) = v /\
                carquet_zigzag_encode64 v <= 2 * Z.abs v) /\
  (in_i 32 v -> carquet_zigzag_decode32 (carquet_zigzag_encode32 v) = v) /\
  (in_u 64 u -> carquet_zigzag_encode64 (carquet_zigzag_decode64 u) = u).
Proof.
  split_and!; intros H.
  - split; [by apply zigzag64_decode_encode|]. rewrite zigzag_encode64_arith by done.
    case_bool; lia.
  - by apply zigzag32_decode_encode.
  - by apply zigzag64_encode_decode.
Qed.

Lemma zigzag_bijection_witness :
  carquet_zigzag_decode64 (carquet_zigzag_encode64 (-3)) = -3 /\ carquet_zigzag_encode64 (-3) = 5.
Proof. split; [|reflexivity]. apply (zigzag_bijection (-3) 0). unfold in_i. lia. Defined.

(** The two compile-time branches of the little-endian loads and stores (a [memcpy]
    on little-endian targets, shifts elsewhere) agree on every input, and loads invert
    stores at every width, for unsigned and signed values. *)
Theorem endian_branches_agree (p : list Z) (v : Z) (rest : list Z) :
  bytes_ok p -> 8 <= lenZ p ->
  (carquet_read_u16_le_portable p = carquet_read_u16_le p /\
   carquet_read_u32_le_portable p = carquet_read_u32_le p /\
   carquet_read_u64_le_portable p = carquet_read_u64_le p) /\
  (carquet_write_u16_le_portable v = carquet_write_u16_le v /\
   carquet_write_u32_le_portable v = carquet_write_u32_le v /\
   carquet_write_u64_le_portable v = carquet_write_u64_le v) /\
  (in_i 32 v -> carquet_read_i32_le (carquet_write_i32_le v ++ rest) = Some v) /\
  (in_i 64 v -> carquet_read_i64_le (carquet_write_i64_le v ++ rest) = Some v).
Proof.
  intros Hp Hl. split_and!.
  - apply carquet_read_u16_le_branches; [done|lia].
  - apply carquet_read_u32_le_branches; [done|lia].
  - apply carquet_read_u64_le_branches; [done|lia].
  - apply carquet_write_u16_le_branches.
  - apply carquet_write_u32_le_branches.
  - apply carquet_write_u64_le_branches.
  - apply read_write_i32.
  - apply read_write_i64.
Qed.

Lemma endian_branches_agree_witness :
  carquet_read_u16_le_portable [1; 2; 3; 4; 5; 6; 7; 8] = carquet_read_u16_le [1; 2; 3; 4; 5; 6; 7; 8].
Proof.
  apply (endian_branches_agree [1; 2; 3; 4; 5; 6; 7; 8] 0 []).
  - repeat (constructor; [unfold in_u; lia|]). constructor.
  - cbn. lia.
Defined.
