(* ===== verification/Buffer.v ===== *)
(** * Growable buffer and cursor reader (carquet/core/buffer.c, buffer.h)

    [carquet_buffer_t] is the output side of every encoder, [carquet_buffer_reader_t]
    the input side of the Thrift decoder.  The heap allocator is an interface: the
    library routes every request through a user-replaceable [realloc], so the model
    takes any function with the contract of C's [realloc]. *)

From S2P Require Import Prelude Status Endian.

(** ** The allocator

    [mem_realloc blk n] is [carquet_mem_realloc(ptr, n)] for [n > 0]: [None] when the
    request fails, otherwise a block of [n] bytes.  [blk] is the old block, [None] for
    the null pointer. *)

Class Allocator := mem_realloc : option (list Z) -> Z -> option (list Z).

Class AllocatorOk (A : Allocator) := {
  realloc_length : forall blk n blk', mem_realloc blk n = Some blk' -> lenZ blk' = n;
  realloc_prefix : forall blk n blk' k, mem_realloc (Some blk) n = Some blk' ->
    (k <= length blk)%nat -> Z.of_nat k <= n -> take k blk' = take k blk;
  realloc_bytes : forall blk n blk', mem_realloc blk n = Some blk' ->
    (forall b, blk = Some b -> bytes_ok b) -> bytes_ok blk' }.

(** An allocator that serves every request, and one that serves requests up to a
    limit; new memory reads as zero. *)
Definition grow (blk : option (list Z)) (n : Z) : list Z :=
  let old := default [] blk in
  take (Z.to_nat n) old ++ replicate (Z.to_nat n - length old) 0.

Definition limited_alloc (limit : Z) : Allocator :=
  λ blk n, if (0 <=? n) && (n <=? limit) then Some (grow blk n) else None.

(** [carquet_mem_malloc(n)] *)
Definition mem_malloc {A : Allocator} (n : Z) : option (list Z) := mem_realloc None n.

(** [carquet_mem_calloc(nmemb, size)] *)
Definition mem_calloc {A : Allocator} (nmemb size : Z) : option (list Z) :=
  if negb (nmemb =? 0) && (size >? SIZE_MAX / nmemb) then None else
  let total := u64 (nmemb * size) in
  match mem_malloc total with
  | Some _ => Some (replicate (Z.to_nat total) 0)
  | None => None
  end.

Section Buffer.
Context {A : Allocator}.

(** ** Representation *)

Record carquet_buffer_t := mk_buffer {
  buf_data : option (list Z);   (* uint8_t* data: the allocated block, or NULL *)
  buf_size : Z;                 (* size_t size *)
  buf_capacity : Z;             (* size_t capacity *)
  buf_owns_data : bool }.       (* bool owns_data *)

Definition CARQUET_BUFFER_DEFAULT_CAPACITY : Z := 4096.

(** ** Helpers *)

Definition next_power_of_two (n : Z) : Z :=
  if n =? 0 then 1 else
  let n := u64 (n - 1) in
  let n := n .| (n ≫ 1) in
  let n := n .| (n ≫ 2) in
  let n := n .| (n ≫ 4) in
  let n := n .| (n ≫ 8) in
  let n := n .| (n ≫ 16) in
  let n := n .| (n ≫ 32) in
  u64 (n + 1).

(** [None] is the overflow return, [Some needed] the stored sum. *)
Definition add_overflows_size (a b : Z) : option Z :=
  if a >? SIZE_MAX - b then None else Some (u64 (a + b)).

Definition ensure_capacity (buf : carquet_buffer_t) (needed : Z)
    : carquet_status_t * carquet_buffer_t :=
  if needed <=? buf_capacity buf then (CARQUET_OK, buf)
  else if negb (buf_owns_data buf) && bool_decide (is_Some (buf_data buf)) then
    (CARQUET_ERROR_OUT_OF_MEMORY, buf)
  else
    let new_capacity := next_power_of_two needed in
    let new_capacity := if new_capacity <? needed then needed else new_capacity in
    let new_capacity := if new_capacity <? CARQUET_BUFFER_DEFAULT_CAPACITY
                        then CARQUET_BUFFER_DEFAULT_CAPACITY else new_capacity in
    match mem_realloc (buf_data buf) new_capacity with
    | None => (CARQUET_ERROR_OUT_OF_MEMORY, buf)
    | Some new_data => (CARQUET_OK, mk_buffer (Some new_data) (buf_size buf) new_capacity true)
    end.

(** A [memcpy] or [memset] into the block at an offset. *)
Definition store_at (data : option (list Z)) (off : Z) (bs : list Z) : option (list Z) :=
  (λ blk, take (Z.to_nat off) blk ++ bs ++ drop (Z.to_nat off + length bs) blk) <$> data.

(** ** Operations *)

Definition carquet_buffer_init : carquet_buffer_t := mk_buffer None 0 0 true.

Definition carquet_buffer_reserve (buf : carquet_buffer_t) (capacity : Z) :=
  ensure_capacity buf capacity.

Definition carquet_buffer_init_capacity (capacity : Z) : carquet_status_t * carquet_buffer_t :=
  let buf := carquet_buffer_init in
  if capacity >? 0 then
    let '(status, buf) := carquet_buffer_reserve buf capacity in
    if CARQUET_FAILED status then (status, buf) else (CARQUET_OK, buf)
  else (CARQUET_OK, buf).

Definition carquet_buffer_init_wrap (data : list Z) (size : Z) : carquet_buffer_t :=
  mk_buffer (Some data) size size false.

(** [data = None] is a null source pointer. *)
Definition carquet_buffer_init_copy (data : option (list Z)) (size : Z)
    : carquet_status_t * carquet_buffer_t :=
  let '(status, buf) := carquet_buffer_init_capacity size in
  if CARQUET_FAILED status then (status, buf)
  else match data with
  | Some src =>
      if size >? 0 then
        (CARQUET_OK, mk_buffer (store_at (buf_data buf) 0 (take (Z.to_nat size) src)) size (buf_capacity buf) (buf_owns_data buf))
      else (CARQUET_OK, buf)
  | None => (CARQUET_OK, buf)
  end.

Definition carquet_buffer_destroy (buf : carquet_buffer_t) : carquet_buffer_t :=
  mk_buffer None 0 0 true.

Definition carquet_buffer_clear (buf : carquet_buffer_t) : carquet_buffer_t :=
  mk_buffer (buf_data buf) 0 (buf_capacity buf) (buf_owns_data buf).

Definition carquet_buffer_resize (buf : carquet_buffer_t) (size : Z)
    : carquet_status_t * carquet_buffer_t :=
  let '(status, buf) := ensure_capacity buf size in
  if CARQUET_FAILED status then (status, buf)
  else
    let data := if size >? buf_size buf
                then store_at (buf_data buf) (buf_size buf)
                       (replicate (Z.to_nat (size - buf_size buf)) 0)
                else buf_data buf in
    (CARQUET_OK, mk_buffer data size (buf_capacity buf) (buf_owns_data buf)).

(** [assert(buf->owns_data)]: [None] for a wrapped buffer. *)
Definition carquet_buffer_shrink_to_fit (buf : carquet_buffer_t)
    : option (carquet_status_t * carquet_buffer_t) :=
  if negb (buf_owns_data buf) then None else
  if buf_size buf =? 0 then Some (CARQUET_OK, mk_buffer None (buf_size buf) 0 (buf_owns_data buf))
  else if buf_size buf <? buf_capacity buf then
    match mem_realloc (buf_data buf) (buf_size buf) with
    | Some new_data =>
        Some (CARQUET_OK, mk_buffer (Some new_data) (buf_size buf) (buf_size buf) (buf_owns_data buf))
    | None => Some (CARQUET_OK, buf)
    end
  else Some (CARQUET_OK, buf).

Definition carquet_buffer_append (buf : carquet_buffer_t) (data : list Z)
    : carquet_status_t * carquet_buffer_t :=
  let size := lenZ data in
  if size =? 0 then (CARQUET_OK, buf) else
  match add_overflows_size (buf_size buf) size with
  | None => (CARQUET_ERROR_OUT_OF_MEMORY, buf)
  | Some needed =>
      let '(status, buf) := ensure_capacity buf needed in
      if CARQUET_FAILED status then (status, buf)
      else (CARQUET_OK, mk_buffer (store_at (buf_data buf) (buf_size buf) data)
                          (buf_size buf + size) (buf_capacity buf) (buf_owns_data buf))
  end.

Definition carquet_buffer_append_byte (buf : carquet_buffer_t) (byte : Z) :=
  carquet_buffer_append buf [byte].

Definition carquet_buffer_append_fill (buf : carquet_buffer_t) (value count : Z)
    : carquet_status_t * carquet_buffer_t :=
  if count =? 0 then (CARQUET_OK, buf) else
  match add_overflows_size (buf_size buf) count with
  | None => (CARQUET_ERROR_OUT_OF_MEMORY, buf)
  | Some needed =>
      let '(status, buf) := ensure_capacity buf needed in
      if CARQUET_FAILED status then (status, buf)
      else (CARQUET_OK, mk_buffer (store_at (buf_data buf) (buf_size buf)
                                     (replicate (Z.to_nat count) value))
                          (buf_size buf + count) (buf_capacity buf) (buf_owns_data buf))
  end.

Definition carquet_buffer_append_u16_le (buf : carquet_buffer_t) (value : Z) :=
  carquet_buffer_append buf (carquet_write_u16_le value).
Definition carquet_buffer_append_u32_le (buf : carquet_buffer_t) (value : Z) :=
  carquet_buffer_append buf (carquet_write_u32_le value).
Definition carquet_buffer_append_u64_le (buf : carquet_buffer_t) (value : Z) :=
  carquet_buffer_append buf (carquet_write_u64_le value).
Definition carquet_buffer_append_f32_le (buf : carquet_buffer_t) (bits : Z) :=
  carquet_buffer_append buf (carquet_write_f32_le bits).
Definition carquet_buffer_append_f64_le (buf : carquet_buffer_t) (bits : Z) :=
  carquet_buffer_append buf (carquet_write_f64_le bits).

(** The returned pointer is the offset of the reserved region, [None] for NULL. *)
Definition carquet_buffer_advance (buf : carquet_buffer_t) (size : Z)
    : option Z * carquet_buffer_t :=
  if size =? 0 then (None, buf) else
  match add_overflows_size (buf_size buf) size with
  | None => (None, buf)
  | Some needed =>
      let '(status, buf) := ensure_capacity buf needed in
      if CARQUET_FAILED status then (None, buf)
      else (Some (buf_size buf),
            mk_buffer (buf_data buf) (buf_size buf + size) (buf_capacity buf) (buf_owns_data buf))
  end.

(** A store through the pointer [carquet_buffer_advance] returned. *)
Definition buffer_poke (buf : carquet_buffer_t) (off : Z) (bs : list Z) : carquet_buffer_t :=
  mk_buffer (store_at (buf_data buf) off bs) (buf_size buf) (buf_capacity buf) (buf_owns_data buf).

(** The detached block with its size, and the reset buffer. *)
Definition carquet_buffer_detach (buf : carquet_buffer_t)
    : option (list Z) * Z * carquet_buffer_t :=
  (buf_data buf, buf_size buf, mk_buffer None 0 0 true).

Definition carquet_buffer_swap (a b : carquet_buffer_t) : carquet_buffer_t * carquet_buffer_t := (b, a).

Definition carquet_buffer_empty (buf : carquet_buffer_t) : bool := buf_size buf =? 0.

End Buffer.

(** ** Cursor reader *)

Record carquet_buffer_reader_t := mk_reader {
  reader_data : list Z;   (* const uint8_t* data: the readable object *)
  reader_size : Z;
  reader_pos : Z }.

Definition carquet_buffer_reader_init_data (data : list Z) (size : Z) : carquet_buffer_reader_t :=
  mk_reader data size 0.

(** [buf = None] is a null buffer. *)
Definition carquet_buffer_reader_init (buf : option carquet_buffer_t) : carquet_buffer_reader_t :=
  mk_reader (match buf with Some b => default [] (buf_data b) | None => [] end)
            (match buf with Some b => buf_size b | None => 0 end) 0.

Definition carquet_buffer_reader_remaining (r : carquet_buffer_reader_t) : Z :=
  u64 (reader_size r - reader_pos r).

Definition carquet_buffer_reader_has (r : carquet_buffer_reader_t) (n : Z) : bool :=
  u64 (reader_pos r + n) <=? reader_size r.

Definition carquet_buffer_reader_peek (r : carquet_buffer_reader_t) : list Z :=
  ptr_add (reader_data r) (reader_pos r).

Definition reader_advance (r : carquet_buffer_reader_t) (n : Z) : carquet_buffer_reader_t :=
  mk_reader (reader_data r) (reader_size r) (u64 (reader_pos r + n)).

(** The readers return the status, the value stored through the output pointer
    ([None] when the call fails and stores nothing) and the advanced cursor. *)
Definition reader_fixed {V} (n : Z) (load : list Z -> option V) (r : carquet_buffer_reader_t)
    : option (carquet_status_t * option V * carquet_buffer_reader_t) :=
  if negb (carquet_buffer_reader_has r n) then Some (CARQUET_ERROR_FILE_TRUNCATED, None, r)
  else
    v ← load (carquet_buffer_reader_peek r);
    Some (CARQUET_OK, Some v, reader_advance r n).

Definition carquet_buffer_reader_read (r : carquet_buffer_reader_t) (size : Z) :=
  reader_fixed size (λ p, rd_n p 0 size) r.

Definition carquet_buffer_reader_skip (r : carquet_buffer_reader_t) (size : Z)
    : carquet_status_t * carquet_buffer_reader_t :=
  if negb (carquet_buffer_reader_has r size) then (CARQUET_ERROR_FILE_TRUNCATED, r)
  else (CARQUET_OK, reader_advance r size).

Definition carquet_buffer_reader_read_byte (r : carquet_buffer_reader_t) :=
  reader_fixed 1 (λ p, rd p 0) r.
Definition carquet_buffer_reader_read_u16_le (r : carquet_buffer_reader_t) :=
  reader_fixed 2 carquet_read_u16_le r.
Definition carquet_buffer_reader_read_u32_le (r : carquet_buffer_reader_t) :=
  reader_fixed 4 carquet_read_u32_le r.
Definition carquet_buffer_reader_read_u64_le (r : carquet_buffer_reader_t) :=
  reader_fixed 8 carquet_read_u64_le r.
Definition carquet_buffer_reader_read_f32_le (r : carquet_buffer_reader_t) :=
  reader_fixed 4 carquet_read_f32_le r.
Definition carquet_buffer_reader_read_f64_le (r : carquet_buffer_reader_t) :=
  reader_fixed 8 carquet_read_f64_le r.

(** ** [next_power_of_two]

    [covers n x y]: bit [i] of [y] is the disjunction of the bits [i .. i+n-1] of [x].
    Each smearing step doubles the window. *)

Definition covers (n x y : Z) : Prop :=
  forall i, 0 <= i -> (Z.testbit y i = true <-> exists j, 0 <= j < n /\ Z.testbit x (i + j) = true).

Lemma covers_one x : covers 1 x x.
Proof.
  intros i Hi. split.
  - intros H. exists 0. by rewrite Z.add_0_r.
  - intros (j & Hj & H). by replace (i + j) with i in H by lia.
Qed.

Lemma covers_step n x y : 0 < n -> covers n x y -> covers (2 * n) x (y .| (y ≫ n)).
Proof.
  intros Hn C i Hi. rewrite Z.lor_spec, Z.shiftr_spec, orb_true_iff by lia.
  rewrite (C i), (C (i + n)) by lia. split.
  - intros [(j & Hj & H)|(j & Hj & H)].
    + exists j. split; [lia|done].
    + exists (n + j). split; [lia|]. by rewrite Z.add_assoc.
  - intros (j & Hj & H). destruct (Z.lt_ge_cases j n).
    + left. exists j. split; [lia|done].
    + right. exists (j - n). split; [lia|]. by replace (i + n + (j - n)) with (i + j) by lia.
Qed.

(** A word whose bits are all covered is a run of ones up to its highest bit. *)
Lemma covers_ones x y : 0 < x < 2 ^ 64 -> 0 <= y -> covers 64 x y -> y = Z.ones (Z.log2 x + 1).
Proof.
  intros Hx Hy C. apply Z.bits_inj'. intros i Hi.
  pose proof (Z.log2_nonneg x). rewrite Z.testbit_ones_nonneg by lia.
  assert (Z.log2 x < 64) by (apply Z.log2_lt_pow2; lia).
  destruct (Z.ltb_spec i (Z.log2 x + 1)).
  - apply C; [lia|]. exists (Z.log2 x - i). split; [lia|].
    replace (i + (Z.log2 x - i)) with (Z.log2 x) by lia. apply Z.bit_log2. lia.
  - destruct (Z.testbit y i) eqn:E; [|done]. apply C in E as (j & Hj & E); [|lia].
    rewrite Z.bits_above_log2 in E by lia. done.
Qed.

Lemma next_power_of_two_spec n : 1 <= n <= 2 ^ 63 -> next_power_of_two n = 2 ^ Z.log2_up n.
Proof.
  intros Hn. unfold next_power_of_two. decide_bool. rewrite (u64_small (n - 1)) by lia.
  destruct (decide (n = 1)) as [->|]; [done|].
  set (y := Z.lor _ (Z.shiftr _ 32)).
  assert (covers 64 (n - 1) y) as C.
  { unfold y. apply (covers_step 32), (covers_step 16), (covers_step 8), (covers_step 4),
      (covers_step 2), (covers_step 1), covers_one; lia. }
  apply covers_ones in C; [|lia|].
  2: { unfold y. repeat (rewrite Z.lor_nonneg || rewrite Z.shiftr_nonneg). lia. }
  rewrite C, Z.ones_equiv, Z.log2_up_eqn by lia.
  replace (Z.pred n) with (n - 1) by lia. rewrite Z.add_1_r.
  assert (Z.log2 (n - 1) < 63) by (apply Z.log2_lt_pow2; lia).
  pose proof (Z.log2_nonneg (n - 1)).
  pose proof (pow2_pos (Z.succ (Z.log2 (n - 1)))).
  pose proof (Z.pow_le_mono_r 2 (Z.succ (Z.log2 (n - 1))) 63).
  rewrite u64_small by lia. lia.
Qed.

Lemma next_power_of_two_range n : 0 <= next_power_of_two n < 2 ^ 64.
Proof. unfold next_power_of_two. case_bool; [lia|]. apply u64_range. Qed.

(** ** The buffer invariant and its abstraction

    A well-formed buffer has a block of exactly [capacity] bytes (none when the
    capacity is zero) and its size fits; it denotes the first [size] bytes. *)

Definition buffer_wf (b : carquet_buffer_t) : Prop :=
  match buf_data b with
  | Some blk => lenZ blk = buf_capacity b /\ bytes_ok blk
  | None => buf_capacity b = 0
  end /\ 0 <= buf_size b <= buf_capacity b /\ buf_capacity b < 2 ^ 64.

Definition buf_bytes (b : carquet_buffer_t) : list Z :=
  take (Z.to_nat (buf_size b)) (default [] (buf_data b)).

Lemma buf_bytes_length b : buffer_wf b -> lenZ (buf_bytes b) = buf_size b.
Proof.
  intros (? & ? & ?). unfold buf_bytes. rewrite length_take.
  destruct (buf_data b); cbn in *; lia.
Qed.

Lemma buf_bytes_ok b : buffer_wf b -> bytes_ok (buf_bytes b).
Proof.
  intros (H & _). unfold buf_bytes. apply Forall_take.
  destruct (buf_data b); [apply H|constructor].
Qed.

Lemma init_wf : buffer_wf carquet_buffer_init.
Proof. unfold buffer_wf. cbn. lia. Qed.

Lemma init_bytes : buf_bytes carquet_buffer_init = [].
Proof. done. Qed.

#[export] Hint Resolve buf_bytes_ok init_wf : bytes.

(** Writing [bs] at the end of the contents and growing the size by its length. *)
Lemma store_end_spec b bs :
  buffer_wf b -> bytes_ok bs -> buf_size b + lenZ bs <= buf_capacity b -> bs <> [] ->
  let b' := mk_buffer (store_at (buf_data b) (buf_size b) bs)
              (buf_size b + lenZ bs) (buf_capacity b) (buf_owns_data b) in
  buffer_wf b' /\ buf_bytes b' = buf_bytes b ++ bs.
Proof.
  intros (Hd & Hs & Hc) Hb Hfit Hne b'. unfold b', buffer_wf, buf_bytes, store_at. cbn.
  destruct (buf_data b) as [blk|]; cbn.
  2: { destruct bs; [done|]. cbn [length] in Hfit. lia. }
  destruct Hd as [Hl Hok]. split; [split_and!; [|by eauto with bytes|lia..]|].
  - rewrite !length_app, length_take, length_drop. lia.
  - rewrite app_assoc, take_app_length'; [done|].
    rewrite length_app, length_take. lia.
Qed.

Section BufferSpec.
Context {A : Allocator} {AOk : AllocatorOk A}.

(** Growing keeps the contents and reaches the requested capacity, or fails with
    [OUT_OF_MEMORY] and changes nothing. *)
Lemma ensure_capacity_spec b needed s b' :
  buffer_wf b -> 0 <= needed < 2 ^ 64 -> ensure_capacity b needed = (s, b') ->
  (s = CARQUET_OK /\ buffer_wf b' /\ needed <= buf_capacity b' /\
   buf_size b' = buf_size b /\ buf_bytes b' = buf_bytes b) \/
  (s = CARQUET_ERROR_OUT_OF_MEMORY /\ b' = b).
Proof.
  intros Hwf Hn. unfold ensure_capacity.
  destruct (Z.leb_spec needed (buf_capacity b)); [intros; simplify_eq; left; auto|].
  destruct (_ && _); [intros; simplify_eq; by right|].
  cbv zeta. match goal with |- context [mem_realloc _ ?c] => set (cap := c) end.
  assert (needed <= cap < 2 ^ 64) as Hcap.
  { unfold cap, CARQUET_BUFFER_DEFAULT_CAPACITY. pose proof (next_power_of_two_range needed).
    destruct (Z.ltb_spec (next_power_of_two needed) needed); case_bool; lia. }
  destruct (mem_realloc (buf_data b) cap) as [blk|] eqn:E; intros; simplify_eq; [left|by right].
  pose proof (realloc_length _ _ _ E) as L. destruct Hwf as (Hd & Hs & Hc).
  unfold buffer_wf, buf_bytes. cbn. split_and!; auto; try lia.
  - eapply realloc_bytes; [exact E|]. intros x Hx. rewrite Hx in Hd. apply Hd.
  - destruct (buf_data b) as [old|] eqn:Ed; cbn.
    + eapply realloc_prefix; [exact E|lia..].
    + assert (buf_size b = 0) as -> by lia. done.
Qed.

Lemma add_overflows_size_spec a n : 0 <= a < 2 ^ 64 -> 0 <= n < 2 ^ 64 ->
  add_overflows_size a n = if a + n <? 2 ^ 64 then Some (a + n) else None.
Proof.
  intros. unfold add_overflows_size, SIZE_MAX. rewrite Z.gtb_ltb.
  repeat case_bool; try lia; [done|]. by rewrite u64_small by lia.
Qed.

(** [carquet_buffer_append] concatenates, or fails and leaves the buffer alone. *)
Lemma append_spec b bs s b' :
  buffer_wf b -> bytes_ok bs -> lenZ bs < 2 ^ 64 -> carquet_buffer_append b bs = (s, b') ->
  (s = CARQUET_OK /\ buffer_wf b' /\ buf_bytes b' = buf_bytes b ++ bs) \/
  (s = CARQUET_ERROR_OUT_OF_MEMORY /\ b' = b).
Proof.
  intros Hwf Hok Hl. unfold carquet_buffer_append.
  destruct (Z.eqb_spec (lenZ bs) 0) as [E|E].
  { destruct bs; [|cbn [length] in E; lia]. intros. simplify_eq. left. by rewrite app_nil_r. }
  pose proof Hwf as (_ & Hs & Hc). rewrite add_overflows_size_spec by lia.
  case_bool; [|intros; simplify_eq; by right].
  destruct (ensure_capacity b _) as [s1 b1] eqn:Ec.
  apply ensure_capacity_spec in Ec as [(-> & Hwf1 & Hcap & Hsz & Hb)|(-> & ->)]; [| |done|lia].
  2: { intros. cbn in *. simplify_eq. by right. }
  cbn. intros. simplify_eq. left.
  destruct (store_end_spec b1 bs) as [W B]; auto; [lia|by intros ->|].
  split_and!; auto. by rewrite B, Hb.
Qed.

Lemma append_fill_spec b v n s b' :
  buffer_wf b -> in_u 8 v -> 0 <= n < 2 ^ 64 -> carquet_buffer_append_fill b v n = (s, b') ->
  (s = CARQUET_OK /\ buffer_wf b' /\ buf_bytes b' = buf_bytes b ++ replicate (Z.to_nat n) v) \/
  (s = CARQUET_ERROR_OUT_OF_MEMORY /\ b' = b).
Proof.
  intros Hwf Hv Hn H. eapply append_spec; [done|by apply Forall_replicate|..].
  - rewrite length_replicate. lia.
  - rewrite <- H. unfold carquet_buffer_append, carquet_buffer_append_fill.
    rewrite length_replicate, Z2Nat.id by lia. done.
Qed.

(** [carquet_buffer_resize] truncates or zero-extends. *)
Lemma resize_spec b n s b' :
  buffer_wf b -> 0 <= n < 2 ^ 64 -> carquet_buffer_resize b n = (s, b') ->
  (s = CARQUET_OK /\ buffer_wf b' /\
   buf_bytes b' = take (Z.to_nat n) (buf_bytes b) ++ replicate (Z.to_nat n - length (buf_bytes b)) 0) \/
  (s = CARQUET_ERROR_OUT_OF_MEMORY /\ b' = b).
Proof.
  intros Hwf Hn. unfold carquet_buffer_resize.
  destruct (ensure_capacity b n) as [s1 b1] eqn:Ec.
  apply ensure_capacity_spec in Ec as [(-> & Hwf1 & Hcap & Hsz & Hb)|(-> & ->)]; [| |done|lia].
  2: { intros. cbn in *. simplify_eq. by right. }
  cbn. intros. simplify_eq. left. split; [done|].
  pose proof (buf_bytes_length b1 Hwf1) as Hlen. rewrite <- Hb. rewrite Z.gtb_ltb. case_bool.
  - destruct (store_end_spec b1 (replicate (Z.to_nat (n - buf_size b1)) 0)) as [W B]; auto.
    + apply Forall_replicate. unfold in_u. lia.
    + rewrite length_replicate. lia.
    + intros E%(f_equal length). rewrite length_replicate in E. cbn in E. lia.
    + rewrite length_replicate in W, B. replace (buf_size b1 + Z.of_nat (Z.to_nat (n - buf_size b1))) with n in * by lia.
      split; [done|]. rewrite B, take_ge by lia. f_equal. f_equal. lia.
  - destruct Hwf1 as (Hd & Hs & Hc). split.
    + unfold buffer_wf. cbn. split_and!; auto; lia.
    + replace (Z.to_nat n - length (buf_bytes b1))%nat with 0%nat by lia.
      unfold buf_bytes. cbn. rewrite app_nil_r, take_take. f_equal. lia.
Qed.

Lemma shrink_spec b : buffer_wf b -> buf_owns_data b = true ->
  exists b', carquet_buffer_shrink_to_fit b = Some (CARQUET_OK, b') /\ buffer_wf b' /\ buf_bytes b' = buf_bytes b.
Proof.
  intros Hwf Ho. pose proof Hwf as (Hd & Hs & Hc). unfold carquet_buffer_shrink_to_fit. rewrite Ho. cbn [negb].
  destruct (Z.eqb_spec (buf_size b) 0) as [E0|E0].
  { eexists. split; [done|]. unfold buffer_wf, buf_bytes. cbn. rewrite E0. split_and!; auto; lia. }
  case_bool; [|by exists b].
  destruct (mem_realloc (buf_data b) (buf_size b)) as [blk|] eqn:E; [|by exists b]. eexists. split; [done|].
  pose proof (realloc_length _ _ _ E) as L. unfold buffer_wf, buf_bytes. cbn.
  destruct (buf_data b) as [old|] eqn:Ed; [|lia]. cbn. split_and!; auto; try lia.
  - eapply realloc_bytes; [exact E|]. intros x [= <-]. apply Hd.
  - eapply realloc_prefix; [exact E|lia..].
Qed.

(** [carquet_buffer_advance] reserves a region at the end; the contents before it stay. *)
Lemma advance_spec b n o b' :
  buffer_wf b -> 0 <= n < 2 ^ 64 -> carquet_buffer_advance b n = (o, b') ->
  (o = Some (buf_size b) /\ 0 < n /\ buffer_wf b' /\ buf_size b' = buf_size b + n /\
   take (length (buf_bytes b)) (buf_bytes b') = buf_bytes b) \/
  (o = None /\ b' = b).
Proof.
  intros Hwf Hn. unfold carquet_buffer_advance.
  destruct (Z.eqb_spec n 0); [intros; simplify_eq; by right|].
  pose proof Hwf as (_ & Hs & Hc). rewrite add_overflows_size_spec by lia.
  case_bool; [|intros; simplify_eq; by right].
  destruct (ensure_capacity b _) as [s1 b1] eqn:Ec.
  apply ensure_capacity_spec in Ec as [(-> & Hwf1 & Hcap & Hsz & Hb)|(-> & ->)]; [| |done|lia].
  2: { intros. cbn in *. simplify_eq. by right. }
  cbn. intros. simplify_eq. left. pose proof (buf_bytes_length b1 Hwf1) as Hlen.
  destruct Hwf1 as (Hd & ? & ?). split_and!; auto; try lia; try congruence.
  - unfold buffer_wf. cbn. split_and!; auto; lia.
  - cbn. lia.
  - rewrite <- Hb. unfold buf_bytes at 2 3. cbn. rewrite take_take. f_equal. lia.
Qed.


(** ** Reachable buffers

    The calls that change a buffer, as a step relation. *)

Inductive buffer_step : carquet_buffer_t -> carquet_buffer_t -> Prop :=
  | step_reserve b n s b' : 0 <= n < 2 ^ 64 ->
      carquet_buffer_reserve b n = (s, b') -> buffer_step b b'
  | step_destroy b : buffer_step b (carquet_buffer_destroy b)
  | step_clear b : buffer_step b (carquet_buffer_clear b)
  | step_resize b n s b' : 0 <= n < 2 ^ 64 ->
      carquet_buffer_resize b n = (s, b') -> buffer_step b b'
  | step_shrink b s b' : carquet_buffer_shrink_to_fit b = Some (s, b') -> buffer_step b b'
  | step_append b bs s b' : bytes_ok bs -> lenZ bs < 2 ^ 64 ->
      carquet_buffer_append b bs = (s, b') -> buffer_step b b'
  | step_append_fill b v n s b' : in_u 8 v -> 0 <= n < 2 ^ 64 ->
      carquet_buffer_append_fill b v n = (s, b') -> buffer_step b b'
  | step_advance b n o b' : 0 <= n < 2 ^ 64 ->
      carquet_buffer_advance b n = (o, b') -> buffer_step b b'
  | step_poke b off bs : bytes_ok bs -> 0 <= off -> off + lenZ bs <= buf_size b ->
      buffer_step b (buffer_poke b off bs)
  | step_detach b d n b' : carquet_buffer_detach b = (d, n, b') -> buffer_step b b'
  | step_swap b other b' : buffer_wf other ->
      fst (carquet_buffer_swap b other) = b' -> buffer_step b b'.

Inductive buffer_reachable : carquet_buffer_t -> Prop :=
  | reach_init : buffer_reachable carquet_buffer_init
  | reach_init_capacity n s b : 0 <= n < 2 ^ 64 ->
      carquet_buffer_init_capacity n = (s, b) -> buffer_reachable b
  | reach_init_copy d n s b : lenZ d = n -> n < 2 ^ 64 -> bytes_ok d ->
      carquet_buffer_init_copy (Some d) n = (s, b) -> buffer_reachable b
  | reach_init_wrap d : bytes_ok d -> lenZ d < 2 ^ 64 ->
      buffer_reachable (carquet_buffer_init_wrap d (lenZ d))
  | reach_step b b' : buffer_reachable b -> buffer_step b b' -> buffer_reachable b'.

Lemma poke_wf b off bs : bytes_ok bs -> 0 <= off -> off + lenZ bs <= buf_size b ->
  buffer_wf b -> buffer_wf (buffer_poke b off bs).
Proof.
  intros Hb Ho Hl (Hd & Hs & Hc). unfold buffer_wf, buffer_poke, store_at. cbn.
  split; [|lia]. destruct (buf_data b) as [blk|]; cbn; [|done].
  destruct Hd as [Hlen Hok]. split; [|by eauto with bytes].
  rewrite !length_app, length_take, length_drop. lia.
Qed.

Lemma buffer_step_wf b b' : buffer_step b b' -> buffer_wf b -> buffer_wf b'.
Proof.
  destruct 1; intros Hwf.
  - match goal with H : _ = _ |- _ => apply ensure_capacity_spec in H end; naive_solver.
  - apply init_wf.
  - destruct Hwf as (? & ? & ?). unfold buffer_wf. cbn. split_and!; auto; lia.
  - match goal with H : _ = _ |- _ => apply resize_spec in H end; naive_solver.
  - destruct (buf_owns_data b) eqn:Ho; [|unfold carquet_buffer_shrink_to_fit in *; rewrite Ho in *; done].
    destruct (shrink_spec b Hwf Ho) as (b1 & E & W & _). congruence.
  - match goal with H : _ = _ |- _ => apply append_spec in H end; naive_solver.
  - match goal with H : _ = _ |- _ => apply append_fill_spec in H end; naive_solver.
  - match goal with H : _ = _ |- _ => apply advance_spec in H end; naive_solver.
  - by apply poke_wf.
  - unfold carquet_buffer_detach in *. simplify_eq. apply init_wf.
  - cbn in *. by subst.
Qed.

Lemma init_capacity_spec n s b : 0 <= n < 2 ^ 64 -> carquet_buffer_init_capacity n = (s, b) ->
  buffer_wf b /\ buf_bytes b = [] /\ buf_size b = 0 /\
  (s = CARQUET_OK /\ n <= buf_capacity b \/ s = CARQUET_ERROR_OUT_OF_MEMORY).
Proof.
  intros Hn. unfold carquet_buffer_init_capacity, carquet_buffer_reserve. rewrite Z.gtb_ltb.
  case_bool.
  - destruct (ensure_capacity _ n) as [s1 b1] eqn:E.
    apply ensure_capacity_spec in E as [(-> & ? & ? & ? & ?)|(-> & ->)]; [| |apply init_wf|lia].
    + cbn. intros. simplify_eq. split_and!; auto.
    + cbn. intros. simplify_eq. split_and!; auto using init_wf.
  - intros; simplify_eq. split_and!; auto using init_wf.
Qed.

Lemma init_copy_spec d s b : bytes_ok d -> lenZ d < 2 ^ 64 ->
  carquet_buffer_init_copy (Some d) (lenZ d) = (s, b) ->
  buffer_wf b /\ (s = CARQUET_OK /\ buf_bytes b = d \/ s = CARQUET_ERROR_OUT_OF_MEMORY).
Proof.
  intros Hd Hl. unfold carquet_buffer_init_copy.
  destruct (carquet_buffer_init_capacity _) as [s1 b1] eqn:E.
  apply init_capacity_spec in E as (W & Hb & Hz & [(-> & Hcap)| ->]); [| |lia]; cbn.
  2: { intros; simplify_eq; auto. }
  rewrite Z.gtb_ltb. case_bool; intros; simplify_eq.
  - destruct (store_end_spec b1 d) as [W' B]; auto; [lia|by intros ->; cbn in *; lia|].
    rewrite Hz, Z.add_0_l in *. rewrite Nat2Z.id, firstn_all. split; [done|]. left. by rewrite B, Hb.
  - split; [done|]. left. rewrite Hb. destruct d; cbn in *; [done|lia].
Qed.

Lemma reachable_wf b : buffer_reachable b -> buffer_wf b.
Proof.
  induction 1.
  - apply init_wf.
  - by eapply init_capacity_spec.
  - subst. by eapply init_copy_spec.
  - unfold buffer_wf. cbn. split_and!; auto; lia.
  - by eapply buffer_step_wf.
Qed.

(** Every buffer the API can produce is well formed.  From any initialiser
    (empty, with capacity, copied, wrapped) and through any sequence of calls, failing
    calls included, the block has exactly [capacity] bytes, the size never exceeds the
    capacity, and the contents are [size] bytes. *)
Theorem buffer_reachable_wf b : buffer_reachable b ->
  buffer_wf b /\ lenZ (buf_bytes b) = buf_size b /\ bytes_ok (buf_bytes b).
Proof.
  intros W%reachable_wf. split_and!; [done|by apply buf_bytes_length|by apply buf_bytes_ok].
Qed.

(** C39: the buffer refines a byte string.  On a well-formed buffer
    [carquet_buffer_append] appends exactly the given bytes, [append_fill] a run,
    [resize] truncates or zero-extends, and on a buffer that owns its block [shrink_to_fit]
    succeeds and changes nothing (on a wrapped one it asserts); a call that fails reports [OUT_OF_MEMORY] and leaves the contents alone. *)
Theorem buffer_refines_bytes b (Hwf : buffer_wf b) :
  (forall bs s b', bytes_ok bs -> lenZ bs < 2 ^ 64 -> carquet_buffer_append b bs = (s, b') ->
     s = CARQUET_OK /\ buf_bytes b' = buf_bytes b ++ bs \/
     s = CARQUET_ERROR_OUT_OF_MEMORY /\ buf_bytes b' = buf_bytes b) /\
  (forall v n s b', in_u 8 v -> 0 <= n < 2 ^ 64 -> carquet_buffer_append_fill b v n = (s, b') ->
     s = CARQUET_OK /\ buf_bytes b' = buf_bytes b ++ replicate (Z.to_nat n) v \/
     s = CARQUET_ERROR_OUT_OF_MEMORY /\ buf_bytes b' = buf_bytes b) /\
  (forall n s b', 0 <= n < 2 ^ 64 -> carquet_buffer_resize b n = (s, b') ->
     s = CARQUET_OK /\
       buf_bytes b' = take (Z.to_nat n) (buf_bytes b) ++ replicate (Z.to_nat n - length (buf_bytes b)) 0 \/
     s = CARQUET_ERROR_OUT_OF_MEMORY /\ buf_bytes b' = buf_bytes b) /\
  (buf_owns_data b = true -> exists b', carquet_buffer_shrink_to_fit b = Some (CARQUET_OK, b') /\ buf_bytes b' = buf_bytes b).
Proof.
  split_and!; intros.
  - destruct (append_spec b bs s b') as [(? & ? & ?)|(? & ->)]; auto.
  - destruct (append_fill_spec b v n s b') as [(? & ? & ?)|(? & ->)]; auto.
  - destruct (resize_spec b n s b') as [(? & ? & ?)|(? & ->)]; auto.
  - destruct (shrink_spec b) as (b' & ? & ? & ?); eauto.
Qed.

End BufferSpec.

Lemma mem_malloc_spec {A : Allocator} {AOk : AllocatorOk A} n blk : mem_malloc n = Some blk -> lenZ blk = n /\ bytes_ok blk.
Proof. unfold mem_malloc. intros H. split; [by apply realloc_length in H|]. by apply realloc_bytes in H. Qed.

(** ** An allocator that never fails

    With it, and below the size limit, appending to a buffer that owns its block
    always succeeds. *)

Class AllocatorTotal (A : Allocator) :=
  realloc_total : forall blk n, 0 <= n < 2 ^ 64 -> is_Some (mem_realloc blk n).

Section BufferTotal.
Context {A : Allocator} {AOk : AllocatorOk A} {AT : AllocatorTotal A}.

Lemma ensure_capacity_total b needed : buffer_wf b -> buf_owns_data b = true -> 0 <= needed < 2 ^ 64 ->
  exists b', ensure_capacity b needed = (CARQUET_OK, b') /\ buf_owns_data b' = true.
Proof.
  intros W Ho Hn. unfold ensure_capacity.
  destruct (Z.leb_spec needed (buf_capacity b)); [by exists b|]. rewrite Ho. cbn [negb andb].
  match goal with |- context [mem_realloc _ ?c] => set (cap := c) end.
  destruct (realloc_total (buf_data b) cap) as [blk ->]; [|by eexists].
  unfold cap, CARQUET_BUFFER_DEFAULT_CAPACITY. pose proof (next_power_of_two_range needed).
  destruct (Z.ltb_spec (next_power_of_two needed) needed); case_bool; lia.
Qed.

Lemma append_total b bs : buffer_wf b -> buf_owns_data b = true -> bytes_ok bs ->
  buf_size b + lenZ bs < 2 ^ 64 ->
  exists b', carquet_buffer_append b bs = (CARQUET_OK, b') /\ buffer_wf b' /\
    buf_owns_data b' = true /\ buf_bytes b' = buf_bytes b ++ bs /\ buf_size b' = buf_size b + lenZ bs.
Proof.
  intros W Ho Hb Hl. destruct (carquet_buffer_append b bs) as [s b'] eqn:E.
  pose proof W as (_ & Hs & _).
  assert (s = CARQUET_OK /\ buf_owns_data b' = true) as [-> Ho'].
  { revert E. unfold carquet_buffer_append.
    destruct (Z.eqb_spec (lenZ bs) 0); [intros; by simplify_eq|].
    rewrite add_overflows_size_spec by lia. decide_bool.
    destruct (ensure_capacity_total b (buf_size b + lenZ bs)) as (b1 & -> & H1); auto; [lia|].
    cbn. intros. by simplify_eq. }
  pose proof E as [(_ & W' & Eb)|(? & _)]%append_spec; auto; [|done|lia].
  exists b'. split_and!; auto. rewrite <- !buf_bytes_length, Eb, length_app by done. lia.
Qed.

End BufferTotal.

(** The bounded allocator meets the allocator contract. *)
#[export] Instance limited_alloc_ok limit : AllocatorOk (limited_alloc limit).
Proof.
  split; unfold mem_realloc, limited_alloc, grow; intros *; destruct (_ && _) eqn:E;
    intros; simplify_eq; apply andb_true_iff in E as [E%Z.leb_le _].
  - rewrite length_app, length_take, length_replicate. lia.
  - cbn. rewrite take_app_le by (rewrite length_take; lia). rewrite take_take. f_equal. lia.
  - apply Forall_app_2; [apply Forall_take|apply Forall_replicate; unfold in_u; lia].
    destruct blk; cbn; auto.
Qed.

#[export] Instance limited_alloc_total : AllocatorTotal (limited_alloc (2 ^ 64)).
Proof.
  intros blk n Hn. unfold mem_realloc, limited_alloc. decide_bool. by eexists.
Qed.

Lemma buffer_reachable_wf_witness :
  let A := limited_alloc (2 ^ 40) in
  let b := snd (carquet_buffer_append carquet_buffer_init [1; 2; 3]) in
  buffer_wf b /\ lenZ (buf_bytes b) = buf_size b /\ bytes_ok (buf_bytes b).
Proof.
  apply (buffer_reachable_wf (A := limited_alloc (2 ^ 40))). eapply reach_step; [apply reach_init|].
  eapply step_append; [| |apply surjective_pairing]; [by apply (bool_decide_unpack _)|cbn; lia].
Defined.

Lemma buffer_refines_bytes_witness :
  let A := limited_alloc (2 ^ 40) in
  exists b, carquet_buffer_append carquet_buffer_init [1; 2; 3] = (CARQUET_OK, b) /\
            buf_bytes b = [1; 2; 3].
Proof.
  intros A. destruct (carquet_buffer_append carquet_buffer_init [1; 2; 3]) as [s b] eqn:E.
  destruct (buffer_refines_bytes (A := A) carquet_buffer_init init_wf) as (H & _).
  destruct (H [1; 2; 3] s b) as [[-> Hb]|[-> _]]; [|cbn; lia|done| |].
  - by apply (bool_decide_unpack _).
  - exists b. by rewrite Hb.
  - exfalso. vm_compute in E. done.
Defined.

(** The growth policy.  For every request up to 2^63 bytes [next_power_of_two]
    is the least power of two that holds it. *)
Lemma next_power_of_two_least n : 1 <= n <= 2 ^ 63 ->
  exists k, 0 <= k /\ next_power_of_two n = 2 ^ k /\ n <= 2 ^ k /\
    forall j, 0 <= j -> n <= 2 ^ j -> 2 ^ k <= 2 ^ j.
Proof.
  intros Hn. exists (Z.log2_up n). rewrite next_power_of_two_spec by done.
  pose proof (Z.log2_up_nonneg n). split_and!; [done..| |].
  - destruct (decide (n = 1)) as [->|]; [done|]. apply Z.log2_up_spec. lia.
  - intros j Hj Hle. apply Z.pow_le_mono_r; [lia|].
    apply Z.log2_up_le_mono in Hle. by rewrite Z.log2_up_pow2 in Hle by lia.
Qed.

Lemma next_power_of_two_least_witness :
  next_power_of_two 5000 = 8192 /\
  exists k, 0 <= k /\ next_power_of_two 5000 = 2 ^ k /\ 5000 <= 2 ^ k /\
    forall j, 0 <= j -> 5000 <= 2 ^ j -> 2 ^ k <= 2 ^ j.
Proof. split; [reflexivity|apply (next_power_of_two_least 5000); lia]. Defined.

(** ** The cursor reader *)

Definition reader_wf (r : carquet_buffer_reader_t) : Prop :=
  0 <= reader_pos r <= reader_size r /\ reader_size r <= lenZ (reader_data r) /\
  reader_size r < 2 ^ 63.

Definition reader_rest (r : carquet_buffer_reader_t) : list Z :=
  take (Z.to_nat (reader_size r - reader_pos r)) (ptr_add (reader_data r) (reader_pos r)).

Lemma reader_has_spec r n : reader_wf r -> 0 <= n <= 2 ^ 63 ->
  carquet_buffer_reader_has r n = (reader_pos r + n <=? reader_size r).
Proof.
  intros (? & ? & ?) ?. unfold carquet_buffer_reader_has. by rewrite u64_small by lia.
Qed.

Lemma reader_advance_wf r n : reader_wf r -> 0 <= n -> reader_pos r + n <= reader_size r ->
  reader_wf (reader_advance r n).
Proof.
  intros (? & ? & ?) ? ?. unfold reader_wf, reader_advance. cbn. rewrite u64_small by lia. lia.
Qed.

Lemma reader_rest_length r : reader_wf r -> lenZ (reader_rest r) = reader_size r - reader_pos r.
Proof.
  intros (? & ? & ?). unfold reader_rest, ptr_add. rewrite length_take, length_drop. lia.
Qed.

Lemma reader_rest_advance r n : reader_wf r -> 0 <= n -> reader_pos r + n <= reader_size r ->
  reader_rest (reader_advance r n) = ptr_add (reader_rest r) n.
Proof.
  intros (? & ? & ?) ? ?. unfold reader_rest, reader_advance, ptr_add. cbn.
  rewrite u64_small by lia. rewrite skipn_firstn_comm, drop_drop. f_equal; [lia|]. f_equal. lia.
Qed.

(** A read of [n] bytes only looks at the next [n] bytes. *)
Lemma reader_peek_rest r n : reader_wf r -> 0 <= n -> reader_pos r + n <= reader_size r ->
  take (Z.to_nat n) (carquet_buffer_reader_peek r) = take (Z.to_nat n) (reader_rest r).
Proof.
  intros (? & ? & ?) ? ?. unfold carquet_buffer_reader_peek, reader_rest.
  rewrite take_take. f_equal. lia.
Qed.

(** The bounded reader never leaves its window.  Reading [n] bytes from a
    well-formed reader is always defined: it returns exactly the next [n] bytes and
    moves by [n] when they are there, and otherwise reports [FILE_TRUNCATED] and does
    not move.  This holds for every [n] up to 2^63, hostile lengths included. *)
Lemma reader_read_total r n : reader_wf r -> 0 <= n <= 2 ^ 63 ->
  exists s v r', carquet_buffer_reader_read r n = Some (s, v, r') /\ reader_wf r' /\
    ((s = CARQUET_OK /\ v = Some (take (Z.to_nat n) (reader_rest r)) /\
      n <= lenZ (reader_rest r) /\ reader_rest r' = ptr_add (reader_rest r) n) \/
     (s = CARQUET_ERROR_FILE_TRUNCATED /\ v = None /\ lenZ (reader_rest r) < n /\ r' = r)).
Proof.
  intros Hwf Hn. unfold carquet_buffer_reader_read, reader_fixed.
  rewrite reader_has_spec by done. pose proof (reader_rest_length r Hwf).
  case_bool; cbn [negb].
  - pose proof Hwf as (? & ? & ?). rewrite rd_n_Some; [|lia..|].
    2: { unfold carquet_buffer_reader_peek. rewrite length_ptr_add by lia. lia. }
    red_nat. rewrite drop_0. cbn.
    do 3 eexists. split; [done|]. split; [apply reader_advance_wf; auto; lia|].
    left. split_and!; auto; [|lia|by apply reader_rest_advance; auto; lia].
    f_equal. apply reader_peek_rest; auto; lia.
  - do 3 eexists. split; [done|]. split; [done|]. right. split_and!; auto; lia.
Qed.

Lemma reader_read_total_witness :
  let r := carquet_buffer_reader_init_data [1; 2; 3] 3 in
  exists s v r', carquet_buffer_reader_read r 2 = Some (s, v, r') /\ reader_wf r' /\
    ((s = CARQUET_OK /\ v = Some (take 2 (reader_rest r)) /\
      2 <= lenZ (reader_rest r) /\ reader_rest r' = ptr_add (reader_rest r) 2) \/
     (s = CARQUET_ERROR_FILE_TRUNCATED /\ v = None /\ lenZ (reader_rest r) < 2 /\ r' = r)).
Proof.
  apply (reader_read_total (carquet_buffer_reader_init_data [1; 2; 3] 3) 2); [|lia].
  unfold reader_wf. cbn. lia.
Defined.
