(* ===== verification/Dispatch.v ===== *)
(** * Scalar kernels (carquet/simd/dispatch.c)

    The routines every build can fall back to, and the guarded entry points the
    decoders call.  [count] is always the number of elements of the array argument, so
    an array is the list of its elements; floats and doubles travel as bit patterns. *)

From S2P Require Import Prelude.

(** ** Prefix sums *)

Fixpoint scalar_prefix_sum_i32 (values : list Z) (initial : Z) : list Z :=
  match values with
  | [] => []
  | v :: values =>
      let sum := u32 (u32 initial + u32 v) in
      i32 sum :: scalar_prefix_sum_i32 values sum
  end.

Fixpoint scalar_prefix_sum_i64 (values : list Z) (initial : Z) : list Z :=
  match values with
  | [] => []
  | v :: values =>
      let sum := u64 (u64 initial + u64 v) in
      i64 sum :: scalar_prefix_sum_i64 values sum
  end.

Definition carquet_dispatch_prefix_sum_i32 := scalar_prefix_sum_i32.
Definition carquet_dispatch_prefix_sum_i64 := scalar_prefix_sum_i64.

(** ** Dictionary gathers *)

(** [output[i] = dict[indices[i]]]; the prefetches do not access memory. *)
Fixpoint scalar_gather (dict indices : list Z) : option (list Z) :=
  match indices with
  | [] => Some []
  | idx :: indices =>
      v ← rd dict idx;
      out ← scalar_gather dict indices;
      Some (v :: out)
  end.

(** The result and the values stored so far. *)
Fixpoint scalar_checked_gather (dict : list Z) (dict_count : Z) (indices : list Z) : option (bool * list Z) :=
  match indices with
  | [] => Some (true, [])
  | idx :: indices =>
      if idx >=? u32 dict_count then Some (false, []) else
      v ← rd dict idx;
      '(ok, out) ← scalar_checked_gather dict dict_count indices;
      Some (ok, v :: out)
  end.

Fixpoint validate_gather_indices (indices : list Z) (dict_count : Z) : bool :=
  match indices with
  | [] => true
  | idx :: indices => if idx >=? u32 dict_count then false else validate_gather_indices indices dict_count
  end.

(** The guarded gather; [None] as output when nothing was stored. *)
Definition carquet_dispatch_checked_gather (dict : list Z) (dict_count : Z) (indices : list Z)
    : option (bool * option (list Z)) :=
  if dict_count <=? 0 then Some (lenZ indices =? 0, None) else
  if negb (validate_gather_indices indices dict_count) then Some (false, None) else
  out ← scalar_gather dict indices;
  Some (true, Some out).

(** The four element types run the same code. *)
Definition scalar_gather_i32 := scalar_gather.
Definition scalar_gather_i64 := scalar_gather.
Definition scalar_gather_float := scalar_gather.
Definition scalar_gather_double := scalar_gather.
Definition scalar_checked_gather_i32 := scalar_checked_gather.
Definition scalar_checked_gather_i64 := scalar_checked_gather.
Definition scalar_checked_gather_float := scalar_checked_gather_i32.
Definition scalar_checked_gather_double := scalar_checked_gather_i64.
Definition carquet_dispatch_checked_gather_i32 := carquet_dispatch_checked_gather.
Definition carquet_dispatch_checked_gather_i64 := carquet_dispatch_checked_gather.
Definition carquet_dispatch_checked_gather_float := carquet_dispatch_checked_gather.
Definition carquet_dispatch_checked_gather_double := carquet_dispatch_checked_gather.

(** ** Booleans *)

Fixpoint unpack_bools_loop (n : nat) (input : list Z) (i : Z) : option (list Z) :=
  match n with
  | O => Some []
  | S n =>
      b ← rd input (i32 (i / 8));
      out ← unpack_bools_loop n input (i + 1);
      Some (((b ≫ (i mod 8)) .& 1) :: out)
  end.

Definition scalar_unpack_bools (input : list Z) (count : Z) : option (list Z) :=
  unpack_bools_loop (Z.to_nat count) input 0.

(** [for (j = 0; j < 8 && i + j < count; j++) if (input[i + j]) byte |= 1 << j] over
    the next inputs. *)
Fixpoint pack_bool_byte (n : nat) (input : list Z) (j byte : Z) : Z :=
  match n, input with
  | S n, x :: input => pack_bool_byte n input (j + 1) (if x =? 0 then byte else u8 (byte .| (1 ≪ j)))
  | _, _ => byte
  end.

Fixpoint pack_bools_loop (fuel : nat) (input : list Z) : list Z :=
  match fuel, input with
  | S fuel, _ :: _ => pack_bool_byte 8 input 0 0 :: pack_bools_loop fuel (drop 8 input)
  | _, _ => []
  end.

Definition scalar_pack_bools (input : list Z) : list Z := pack_bools_loop (length input) input.

(** ** Runs and matches *)

Fixpoint run_length_loop (values : list Z) (first i : Z) : Z :=
  match values with
  | [] => i
  | v :: values => if v =? first then run_length_loop values first (i + 1) else i
  end.

Definition scalar_find_run_length_i32 (values : list Z) : Z :=
  match values with [] => 0 | first :: values => run_length_loop values first 1 end.

(** Copies inside one block of memory: [dst] and [src] are offsets, [src] below [dst]. *)
Fixpoint match_copy_bytes (n : nat) (mem : list Z) (dst src : Z) : option (list Z) :=
  match n with
  | O => Some mem
  | S n =>
      b ← rd mem src;
      mem ← wr mem dst b;
      match_copy_bytes n mem (dst + 1) (src + 1)
  end.

(** [memcpy(dst, src, 8)] *)
Definition copy_word (mem : list Z) (dst src : Z) : option (list Z) :=
  bs ← rd_n mem src 8;
  old ← rd_n mem dst 8;
  Some (take (Z.to_nat dst) mem ++ bs ++ drop (Z.to_nat dst + 8) mem).

Fixpoint match_copy_words (fuel : nat) (mem : list Z) (dst src len : Z) : option (list Z) :=
  if len >=? 8 then
    match fuel with
    | O => None
    | S fuel => mem ← copy_word mem dst src; match_copy_words fuel mem (dst + 8) (src + 8) (len - 8)
    end
  else match_copy_bytes (Z.to_nat len) mem dst src.

Definition scalar_match_copy (mem : list Z) (dst src len offset : Z) : option (list Z) :=
  if offset >=? 8 then match_copy_words (Z.to_nat len) mem dst src len
  else match_copy_bytes (Z.to_nat len) mem dst src.

(** [while (p < limit && *p == *match)] over offsets of one block. *)
Fixpoint match_length_loop (fuel : nat) (mem : list Z) (p m limit : Z) : option Z :=
  if p <? limit then
    match fuel with
    | O => None
    | S fuel =>
        x ← rd mem p; y ← rd mem m;
        if x =? y then n ← match_length_loop fuel mem (p + 1) (m + 1) limit; Some (n + 1) else Some 0
    end
  else Some 0.

Definition scalar_match_length (mem : list Z) (p m limit : Z) : option Z :=
  match_length_loop (Z.to_nat (limit - p)) mem p m limit.

(** ** Levels *)

Fixpoint scalar_count_non_nulls (def_levels : list Z) (max_def_level : Z) : Z :=
  match def_levels with
  | [] => 0
  | l :: t => (if l =? max_def_level then 1 else 0) + scalar_count_non_nulls t max_def_level
  end.

(** One byte of the bitmap from eight levels. *)
Definition null_bitmap_byte (l : list Z) (m : Z) : option Z :=
  l0 ← rd l 0; l1 ← rd l 1; l2 ← rd l 2; l3 ← rd l 3; l4 ← rd l 4; l5 ← rd l 5; l6 ← rd l 6; l7 ← rd l 7;
  let b := 0 in
  let b := if l0 =? m then b .| 0x01 else b in
  let b := if l1 =? m then b .| 0x02 else b in
  let b := if l2 =? m then b .| 0x04 else b in
  let b := if l3 =? m then b .| 0x08 else b in
  let b := if l4 =? m then b .| 0x10 else b in
  let b := if l5 =? m then b .| 0x20 else b in
  let b := if l6 =? m then b .| 0x40 else b in
  Some (if l7 =? m then b .| 0x80 else b).

Fixpoint null_bitmap_full (n : nat) (def_levels : list Z) (m b : Z) (bitmap : list Z) : option (list Z) :=
  match n with
  | O => Some bitmap
  | S n =>
      x ← null_bitmap_byte (ptr_add def_levels (b * 8)) m;
      bitmap ← wr bitmap b x;
      null_bitmap_full n def_levels m (b + 1) bitmap
  end.

Fixpoint null_bitmap_tail (n : nat) (def_levels : list Z) (m j : Z) (bitmap : list Z) : option (list Z) :=
  match n with
  | O => Some bitmap
  | S n =>
      l ← rd def_levels j;
      bitmap ← (if l =? m then
                  b ← rd bitmap (j / 8); wr bitmap (j / 8) (u8 (b .| (1 ≪ (j mod 8))))
                else Some bitmap);
      null_bitmap_tail n def_levels m (j + 1) bitmap
  end.

Definition scalar_build_null_bitmap (def_levels : list Z) (max_def_level : Z) (null_bitmap : list Z)
    : option (list Z) :=
  let count := lenZ def_levels in
  let full_bytes := count / 8 in
  bitmap ← null_bitmap_full (Z.to_nat full_bytes) def_levels max_def_level 0 null_bitmap;
  null_bitmap_tail (Z.to_nat (count - full_bytes * 8)) def_levels max_def_level (full_bytes * 8) bitmap.

Definition scalar_fill_def_levels (count value : Z) : list Z := replicate (Z.to_nat count) value.

(** ** Minimum and maximum *)

Fixpoint minmax_loop (values : list Z) (min_v max_v : Z) : Z * Z :=
  match values with
  | [] => (min_v, max_v)
  | v :: values =>
      minmax_loop values (if v <? min_v then v else min_v) (if v >? max_v then v else max_v)
  end.

(** The code reads [values[0]] unconditionally. *)
Definition scalar_minmax_i32 (values : list Z) : option (Z * Z) :=
  match values with [] => None | v :: values => Some (minmax_loop values v v) end.
Definition scalar_minmax_i64 (values : list Z) : option (Z * Z) :=
  match values with [] => None | v :: values => Some (minmax_loop values v v) end.

Definition scalar_copy_minmax_i32 (values : list Z) : option (list Z * (Z * Z)) :=
  mm ← scalar_minmax_i32 values; Some (values, mm).
Definition scalar_copy_minmax_i64 (values : list Z) : option (list Z * (Z * Z)) :=
  mm ← scalar_minmax_i64 values; Some (values, mm).

(** ** Prefix sums undo differences *)

(** The differences of a sequence, modulo 2^w. *)
Fixpoint diffs_of (w prev : Z) (vs ds : list Z) : Prop :=
  match vs, ds with
  | [], [] => True
  | v :: vs, d :: ds => d mod 2 ^ w = (v - prev) mod 2 ^ w /\ diffs_of w v vs ds
  | _, _ => False
  end.

Lemma prefix_sum_i64_diffs vs : forall ds prev init, Forall (in_i 64) vs -> diffs_of 64 prev vs ds ->
  u64 init = u64 prev -> scalar_prefix_sum_i64 ds init = vs.
Proof.
  induction vs as [|v vs IH]; intros [|d ds] prev init Hv Hd Hi; cbn in Hd; try done.
  destruct Hd as [Hd Hds]. apply Forall_cons_iff in Hv as [Hv Hvs]. cbn [scalar_prefix_sum_i64].
  assert (u64 (u64 init + u64 d) = u64 v) as E.
  { rewrite Hi. unfold u64 at 1 2 3. rewrite Hd, <- Z.add_mod by lia. unfold u64. f_equal. lia. }
  rewrite E. f_equal.
  - unfold i64, u64. by rewrite wrap_signed_of_mod by (auto; lia).
  - apply (IH _ v); auto. unfold u64. by rewrite Z.mod_mod by lia.
Qed.

Lemma prefix_sum_i32_diffs vs : forall ds prev init, Forall (in_i 32) vs -> diffs_of 32 prev vs ds ->
  u32 init = u32 prev -> scalar_prefix_sum_i32 ds init = vs.
Proof.
  induction vs as [|v vs IH]; intros [|d ds] prev init Hv Hd Hi; cbn in Hd; try done.
  destruct Hd as [Hd Hds]. apply Forall_cons_iff in Hv as [Hv Hvs]. cbn [scalar_prefix_sum_i32].
  assert (u32 (u32 init + u32 d) = u32 v) as E.
  { rewrite Hi. unfold u32 at 1 2 3. rewrite Hd, <- Z.add_mod by lia. unfold u32. f_equal. lia. }
  rewrite E. f_equal.
  - unfold i32, u32. by rewrite wrap_signed_of_mod by (auto; lia).
  - apply (IH _ v); auto. unfold u32. by rewrite Z.mod_mod by lia.
Qed.

Lemma length_prefix_sum_i64 ds : forall init, length (scalar_prefix_sum_i64 ds init) = length ds.
Proof. induction ds; intros; cbn; auto. Qed.
Lemma length_prefix_sum_i32 ds : forall init, length (scalar_prefix_sum_i32 ds init) = length ds.
Proof. induction ds; intros; cbn; auto. Qed.

Lemma prefix_sum_i64_range ds : forall init, Forall (in_i 64) (scalar_prefix_sum_i64 ds init).
Proof. induction ds; intros init; constructor; auto. apply wrap_signed_range. lia. Qed.
Lemma prefix_sum_i32_range ds : forall init, Forall (in_i 32) (scalar_prefix_sum_i32 ds init).
Proof. induction ds; intros init; constructor; auto. apply wrap_signed_range. lia. Qed.

(** ** Gathers *)

Lemma validate_spec indices n : Forall (in_u 32) indices -> 0 <= n < 2 ^ 31 ->
  validate_gather_indices indices n = true <-> Forall (λ i, i < n) indices.
Proof.
  intros Hi Hn. induction indices as [|i t IH]; [by split|].
  apply Forall_cons_iff in Hi as [Hi Ht]. cbn [validate_gather_indices]. rewrite Z.geb_leb, u32_small, Forall_cons_iff by lia.
  case_bool; [split; [done|intros [? _]; lia]|]. rewrite IH by done. naive_solver.
Qed.

Lemma gather_spec dict indices : Forall (λ i, 0 <= i < lenZ dict) indices ->
  scalar_gather dict indices = Some ((λ i, dict !!! Z.to_nat i) <$> indices).
Proof.
  induction 1 as [|i t Hi _ IH]; [done|]. cbn [scalar_gather]. destruct (rd_Some dict i Hi) as [v Hv].
  rewrite Hv, IH. cbn. rewrite rd_lookup in Hv by lia. by rewrite (list_lookup_total_correct _ _ _ Hv).
Qed.

Lemma checked_gather_cases dict n indices :
  Forall (in_u 32) indices -> n < 2 ^ 31 -> n <= lenZ dict ->
  carquet_dispatch_checked_gather dict n indices =
    Some (if bool_decide (Forall (λ i, i < n) indices)
          then (true, if n <=? 0 then None else Some ((λ i, dict !!! Z.to_nat i) <$> indices))
          else (false, None)).
Proof.
  intros Hi Hn Hd. unfold carquet_dispatch_checked_gather. case_bool.
  { destruct indices as [|i t]; [done|]. rewrite bool_decide_false; [done|].
    rewrite Forall_cons_iff. apply Forall_cons_iff in Hi as [[? _] _]. lia. }
  pose proof (validate_spec indices n Hi ltac:(lia)) as V. case_bool_decide as HF.
  - rewrite (proj2 V HF). cbn [negb]. rewrite gather_spec; [done|].
    apply Forall_forall. intros i Hin. rewrite Forall_forall in Hi, HF.
    specialize (Hi i Hin). specialize (HF i Hin). unfold in_u in Hi. lia.
  - destruct (validate_gather_indices indices n); [|done]. by destruct HF, V; auto.
Qed.

(** The guarded dictionary gather never reads outside the dictionary.  For any
    index array, however corrupt, it stores [dict[indices[i]]] for every [i] when all
    indices are below the dictionary size, and otherwise returns false having stored
    nothing. *)
Theorem checked_gather_safe dict n indices :
  Forall (in_u 32) indices -> n < 2 ^ 31 -> n <= lenZ dict ->
  carquet_dispatch_checked_gather dict n indices =
    Some (if bool_decide (Forall (λ i, i < n) indices)
          then (true, if n <=? 0 then None else Some ((λ i, dict !!! Z.to_nat i) <$> indices))
          else (false, None)).
Proof. exact (checked_gather_cases dict n indices). Qed.

Lemma checked_gather_safe_witness :
  carquet_dispatch_checked_gather [7; 8; 9] 3 [2; 0; 3] =
    Some (if bool_decide (Forall (λ i, i < 3) [2; 0; 3])
          then (true, if 3 <=? 0 then None else Some ((λ i, [7; 8; 9] !!! Z.to_nat i) <$> [2; 0; 3]))
          else (false, None)).
Proof.
  apply (checked_gather_safe [7; 8; 9] 3 [2; 0; 3]); [by apply (bool_decide_unpack _)|lia|cbn; lia].
Defined.

(** ** Match copies *)

Lemma match_copy_bytes_app n m mem dst src :
  match_copy_bytes (n + m) mem dst src =
  (mem ← match_copy_bytes n mem dst src; match_copy_bytes m mem (dst + Z.of_nat n) (src + Z.of_nat n)).
Proof.
  revert mem dst src. induction n as [|n IH]; intros mem dst src; cbn [match_copy_bytes Nat.add].
  { by rewrite !Z.add_0_r. }
  destruct (rd mem src) as [b|]; cbn [mbind option_bind]; [|done].
  destruct (wr mem dst b) as [mem'|]; cbn [mbind option_bind]; [|done].
  rewrite IH. destruct (match_copy_bytes n _ _ _); cbn [mbind option_bind]; [|done]. f_equal; lia.
Qed.

(** Bytes copied from a source the copy has not reached yet. *)
Lemma match_copy_bytes_disjoint n : forall mem dst src, 0 <= src -> src + Z.of_nat n <= dst ->
  dst + Z.of_nat n <= lenZ mem ->
  match_copy_bytes n mem dst src =
    Some (take (Z.to_nat dst) mem ++ take n (ptr_add mem src) ++ drop (Z.to_nat dst + n) mem).
Proof.
  induction n as [|n IH]; intros mem dst src Hs Hd Hl; cbn [match_copy_bytes].
  { rewrite take_0. cbn [app]. by rewrite Nat.add_0_r, take_drop. }
  destruct (rd_Some mem src) as [b Hb]; [lia|]. rewrite Hb. cbn [mbind option_bind].
  rewrite wr_Some by lia. cbn [mbind option_bind]. rewrite IH by (rewrite ?length_insert; lia). f_equal.
  replace (Z.to_nat (dst + 1)) with (S (Z.to_nat dst)) by lia.
  rewrite (take_S_r _ _ b) by (apply list_lookup_insert_eq; lia). rewrite take_insert_ge by lia.
  rewrite drop_insert_lt by lia. rewrite <- app_assoc. f_equal. rewrite rd_lookup in Hb by lia.
  unfold ptr_add. rewrite (drop_S _ _ _ Hb). cbn [take app]. f_equal. f_equal.
  - replace (Z.to_nat (src + 1)) with (S (Z.to_nat src)) by lia.
    apply list_eq. intros i. destruct (decide (i < n)%nat).
    + rewrite !lookup_take_lt, !lookup_drop by done. apply list_lookup_insert_ne. lia.
    + rewrite !lookup_take_ge by lia. done.
  - f_equal. lia.
Qed.

Lemma copy_word_bytes mem dst src : 0 <= src -> src + 8 <= dst -> dst + 8 <= lenZ mem ->
  copy_word mem dst src = match_copy_bytes 8 mem dst src.
Proof.
  intros. rewrite match_copy_bytes_disjoint by lia. unfold copy_word. rewrite !rd_n_Some by lia. done.
Qed.

Lemma length_match_copy_bytes n : forall mem dst src mem', match_copy_bytes n mem dst src = Some mem' ->
  length mem' = length mem.
Proof.
  induction n as [|n IH]; intros mem dst src mem'; cbn [match_copy_bytes]; [intros; by simplify_eq|].
  destruct (rd mem src) as [b|]; cbn [mbind option_bind]; [|done]. unfold wr. destruct (_ && _); [|done].
  cbn [mbind option_bind]. intros H%IH. by rewrite length_insert in H.
Qed.

Lemma match_copy_words_bytes fuel : forall mem dst src len, 0 <= src -> src + 8 <= dst -> 0 <= len ->
  dst + len <= lenZ mem -> len <= Z.of_nat fuel ->
  match_copy_words fuel mem dst src len = match_copy_bytes (Z.to_nat len) mem dst src.
Proof.
  induction fuel as [|fuel IH]; intros mem dst src len Hs Hd Hn Hl Hf; cbn [match_copy_words];
    rewrite Z.geb_leb; case_bool; try done; [lia|].
  replace (Z.to_nat len) with (8 + Z.to_nat (len - 8))%nat by lia.
  rewrite match_copy_bytes_app, copy_word_bytes by lia.
  destruct (match_copy_bytes 8 mem dst src) as [mem'|] eqn:E; cbn [mbind option_bind]; [|done].
  apply length_match_copy_bytes in E. rewrite IH by lia. f_equal; lia.
Qed.

(** The word-at-a-time match copy is the byte-at-a-time copy.  LZ matches may
    overlap their own output; copying eight bytes at a time when the distance is at
    least eight gives the same memory as copying byte by byte, for every length, and
    touches nothing outside the destination. *)
Theorem match_copy_bytewise mem dst offset len :
  0 < offset <= dst -> 0 <= len -> dst + len <= lenZ mem ->
  scalar_match_copy mem dst (dst - offset) len offset =
    match_copy_bytes (Z.to_nat len) mem dst (dst - offset).
Proof.
  intros Ho Hn Hl. unfold scalar_match_copy. rewrite Z.geb_leb. case_bool; [|done].
  apply match_copy_words_bytes; lia.
Qed.

Lemma match_copy_bytewise_witness :
  scalar_match_copy (seqZ 1 8 ++ replicate 12 0) 8 (8 - 8) 12 8 =
    match_copy_bytes (Z.to_nat 12) (seqZ 1 8 ++ replicate 12 0) 8 (8 - 8).
Proof. apply (match_copy_bytewise (seqZ 1 8 ++ replicate 12 0) 8 8 12); [lia|lia|vm_compute; discriminate]. Defined.

(** ** Minimum and maximum *)

Lemma minmax_loop_spec values : forall lo hi,
  let '(mn, mx) := minmax_loop values lo hi in
  (mn = lo \/ mn ∈ values) /\ (mx = hi \/ mx ∈ values) /\ mn <= lo /\ hi <= mx /\
  Forall (λ v, mn <= v <= mx) values.
Proof.
  induction values as [|v t IH]; intros lo hi; cbn [minmax_loop]; [split_and!; auto; lia|].
  specialize (IH (if v <? lo then v else lo) (if v >? hi then v else hi)).
  destruct (minmax_loop t _ _) as [mn mx]. destruct IH as (H1 & H2 & H3 & H4 & H5).
  rewrite Z.gtb_ltb in *. rewrite !elem_of_cons, Forall_cons_iff.
  destruct (Z.ltb_spec v lo), (Z.ltb_spec hi v); naive_solver lia.
Qed.

(** Column statistics.  [scalar_minmax] on a non-empty array returns two of its
    elements that bound all of them; on an empty array the code would read
    [values[0]] out of bounds. *)
Lemma minmax_exact values : 
  match scalar_minmax_i64 values with
  | Some (mn, mx) => mn ∈ values /\ mx ∈ values /\ Forall (λ v, mn <= v <= mx) values
  | None => values = []
  end.
Proof.
  destruct values as [|v t]; [done|]. cbn [scalar_minmax_i64]. pose proof (minmax_loop_spec t v v) as H.
  destruct (minmax_loop t v v) as [mn mx]. destruct H as (H1 & H2 & H3 & H4 & H5).
  rewrite !elem_of_cons, Forall_cons_iff. auto.
Qed.
