(* ===== verification/Bitpack.v ===== *)
(** * Bit packing (carquet/core/bitpack.c, bitpack.h)

    Groups of eight values of a fixed width packed least significant bit first: the
    kernels behind the RLE hybrid and the delta encodings, plus the legacy
    most-significant-first level decoder.  The reference reading of a packed run is
    arithmetic: value [i] of width [w] is [(N / 2^(i*w)) mod 2^w], where [N] is the
    little-endian integer the bytes spell. *)

From S2P Require Import Prelude.

(** ** Bit-manipulation utilities *)

(** [carquet_clz32], the portable branch. *)
Definition carquet_clz32 (v : Z) : Z :=
  if v =? 0 then 32 else
  let n := 0 in
  let '(n, v) := if v <=? 0x0000FFFF then (n + 16, u32 (v ≪ 16)) else (n, v) in
  let '(n, v) := if v <=? 0x00FFFFFF then (n + 8, u32 (v ≪ 8)) else (n, v) in
  let '(n, v) := if v <=? 0x0FFFFFFF then (n + 4, u32 (v ≪ 4)) else (n, v) in
  let '(n, v) := if v <=? 0x3FFFFFFF then (n + 2, u32 (v ≪ 2)) else (n, v) in
  if v <=? 0x7FFFFFFF then n + 1 else n.

Definition carquet_clz64 (v : Z) : Z :=
  if v =? 0 then 64 else
  let n := 0 in
  let '(n, v) := if v <=? 0x00000000FFFFFFFF then (n + 32, u64 (v ≪ 32)) else (n, v) in
  let '(n, v) := if v <=? 0x0000FFFFFFFFFFFF then (n + 16, u64 (v ≪ 16)) else (n, v) in
  let '(n, v) := if v <=? 0x00FFFFFFFFFFFFFF then (n + 8, u64 (v ≪ 8)) else (n, v) in
  let '(n, v) := if v <=? 0x0FFFFFFFFFFFFFFF then (n + 4, u64 (v ≪ 4)) else (n, v) in
  let '(n, v) := if v <=? 0x3FFFFFFFFFFFFFFF then (n + 2, u64 (v ≪ 2)) else (n, v) in
  if v <=? 0x7FFFFFFFFFFFFFFF then n + 1 else n.

Definition carquet_bit_width32 (v : Z) : Z := if v =? 0 then 0 else 32 - carquet_clz32 v.
Definition carquet_bit_width64 (v : Z) : Z := if v =? 0 then 0 else 64 - carquet_clz64 v.

Definition carquet_packed_size (count bit_width : Z) : Z :=
  u64 (u64 (count * bit_width) + 7) / 8.

(** ** Little-endian reads *)

Definition read_le16 (p : list Z) : option Z :=
  p0 ← rd p 0; p1 ← rd p 1; Some (p0 .| (p1 ≪ 8)).
Definition read_le24 (p : list Z) : option Z :=
  p0 ← rd p 0; p1 ← rd p 1; p2 ← rd p 2; Some (p0 .| (p1 ≪ 8) .| (p2 ≪ 16)).
Definition read_le32 (p : list Z) : option Z :=
  p0 ← rd p 0; p1 ← rd p 1; p2 ← rd p 2; p3 ← rd p 3;
  Some (p0 .| (p1 ≪ 8) .| (p2 ≪ 16) .| (p3 ≪ 24)).
Definition read_le40 (p : list Z) : option Z :=
  p0 ← rd p 0; p1 ← rd p 1; p2 ← rd p 2; p3 ← rd p 3; p4 ← rd p 4;
  Some (p0 .| (p1 ≪ 8) .| (p2 ≪ 16) .| (p3 ≪ 24) .| (p4 ≪ 32)).
Definition read_le48 (p : list Z) : option Z :=
  p0 ← rd p 0; p1 ← rd p 1; p2 ← rd p 2; p3 ← rd p 3; p4 ← rd p 4; p5 ← rd p 5;
  Some (p0 .| (p1 ≪ 8) .| (p2 ≪ 16) .| (p3 ≪ 24) .| (p4 ≪ 32) .| (p5 ≪ 40)).
Definition read_le56 (p : list Z) : option Z :=
  p0 ← rd p 0; p1 ← rd p 1; p2 ← rd p 2; p3 ← rd p 3; p4 ← rd p 4; p5 ← rd p 5; p6 ← rd p 6;
  Some (p0 .| (p1 ≪ 8) .| (p2 ≪ 16) .| (p3 ≪ 24) .| (p4 ≪ 32) .| (p5 ≪ 40) .| (p6 ≪ 48)).

(** ** Specialised unpack kernels: the eight values stored through [values] *)

Definition carquet_bitunpack8_1bit (input : list Z) : option (list Z) :=
  byte ← rd input 0;
  Some [(byte ≫ 0) .& 1; (byte ≫ 1) .& 1; (byte ≫ 2) .& 1; (byte ≫ 3) .& 1;
        (byte ≫ 4) .& 1; (byte ≫ 5) .& 1; (byte ≫ 6) .& 1; (byte ≫ 7) .& 1].

Definition carquet_bitunpack8_2bit (input : list Z) : option (list Z) :=
  v ← read_le16 input;
  Some [(v ≫ 0) .& 0x3; (v ≫ 2) .& 0x3; (v ≫ 4) .& 0x3; (v ≫ 6) .& 0x3;
        (v ≫ 8) .& 0x3; (v ≫ 10) .& 0x3; (v ≫ 12) .& 0x3; (v ≫ 14) .& 0x3].

Definition carquet_bitunpack8_3bit (input : list Z) : option (list Z) :=
  v ← read_le24 input;
  Some [(v ≫ 0) .& 0x7; (v ≫ 3) .& 0x7; (v ≫ 6) .& 0x7; (v ≫ 9) .& 0x7;
        (v ≫ 12) .& 0x7; (v ≫ 15) .& 0x7; (v ≫ 18) .& 0x7; (v ≫ 21) .& 0x7].

Definition carquet_bitunpack8_4bit (input : list Z) : option (list Z) :=
  v ← read_le32 input;
  Some [(v ≫ 0) .& 0xF; (v ≫ 4) .& 0xF; (v ≫ 8) .& 0xF; (v ≫ 12) .& 0xF;
        (v ≫ 16) .& 0xF; (v ≫ 20) .& 0xF; (v ≫ 24) .& 0xF; (v ≫ 28) .& 0xF].

Definition carquet_bitunpack8_5bit (input : list Z) : option (list Z) :=
  v ← read_le40 input;
  Some [(v ≫ 0) .& 0x1F; (v ≫ 5) .& 0x1F; (v ≫ 10) .& 0x1F; (v ≫ 15) .& 0x1F;
        (v ≫ 20) .& 0x1F; (v ≫ 25) .& 0x1F; (v ≫ 30) .& 0x1F; (v ≫ 35) .& 0x1F].

Definition carquet_bitunpack8_6bit (input : list Z) : option (list Z) :=
  v ← read_le48 input;
  Some [(v ≫ 0) .& 0x3F; (v ≫ 6) .& 0x3F; (v ≫ 12) .& 0x3F; (v ≫ 18) .& 0x3F;
        (v ≫ 24) .& 0x3F; (v ≫ 30) .& 0x3F; (v ≫ 36) .& 0x3F; (v ≫ 42) .& 0x3F].

Definition carquet_bitunpack8_7bit (input : list Z) : option (list Z) :=
  v ← read_le56 input;
  Some [(v ≫ 0) .& 0x7F; (v ≫ 7) .& 0x7F; (v ≫ 14) .& 0x7F; (v ≫ 21) .& 0x7F;
        (v ≫ 28) .& 0x7F; (v ≫ 35) .& 0x7F; (v ≫ 42) .& 0x7F; (v ≫ 49) .& 0x7F].

Definition carquet_bitunpack8_8bit (input : list Z) : option (list Z) :=
  v0 ← rd input 0; v1 ← rd input 1; v2 ← rd input 2; v3 ← rd input 3;
  v4 ← rd input 4; v5 ← rd input 5; v6 ← rd input 6; v7 ← rd input 7;
  Some [v0; v1; v2; v3; v4; v5; v6; v7].

(** ** The kernel table

    [bitunpack8_u32] and [bitunpack_wide] are the two tables of [g_dispatch] that
    [carquet_simd_dispatch_init] fills per instruction set; a null entry is [None].
    A wide entry is the number of values of one call with the kernel. *)

Class UnpackKernels := {
  bitunpack8_u32 : Z -> option (list Z -> option (list Z));
  bitunpack_wide : Z -> option (Z * (list Z -> option (list Z))) }.

(** The tables of a build without SIMD flags: every entry stays null. *)
Definition scalar_kernels : UnpackKernels :=
  {| bitunpack8_u32 := λ _, None; bitunpack_wide := λ _, None |}.

Section Unpack.
Context {K : UnpackKernels}.

Definition carquet_dispatch_get_bitunpack8_fn (bit_width : Z) : option (list Z -> option (list Z)) :=
  if (bit_width <? 0) || (bit_width >? 32) then None else bitunpack8_u32 bit_width.

(** [None] is the return value 0. *)
Definition carquet_dispatch_get_bitunpack_wide (bit_width : Z)
    : option (Z * (list Z -> option (list Z))) :=
  if (bit_width <? 1) || (bit_width >? 32) then None else bitunpack_wide bit_width.

(** The refill loop of the general case; [bits_held < bit_width <= 32] on every
    iteration, so [bit_width] iterations are enough. *)
Fixpoint unpack_refill (fuel : nat) (input : list Z) (bit_width accumulator bits_held byte_pos : Z)
    : option (Z * Z * Z) :=
  if bits_held <? bit_width then
    match fuel with
    | O => None
    | S fuel =>
        b ← rd input byte_pos;
        unpack_refill fuel input bit_width (u64 (accumulator .| (b ≪ bits_held)))
          (bits_held + 8) (byte_pos + 1)
    end
  else Some (accumulator, bits_held, byte_pos).

(** [for (int i = 0; i < 8; i++)]: [n] values are still to be produced. *)
Fixpoint unpack_general (n : nat) (input : list Z) (bit_width accumulator bits_held byte_pos : Z)
    : option (list Z) :=
  match n with
  | O => Some []
  | S n =>
      '(accumulator, bits_held, byte_pos) ←
        unpack_refill (Z.to_nat bit_width) input bit_width accumulator bits_held byte_pos;
      let mask := u32 (u64 (1 ≪ bit_width) - 1) in
      rest ← unpack_general n input bit_width (accumulator ≫ bit_width) (bits_held - bit_width) byte_pos;
      Some (u32 (accumulator .& mask) :: rest)
  end.

Definition carquet_bitunpack8_32 (input : list Z) (bit_width : Z) : option (list Z) :=
  if bit_width =? 0 then Some (replicate 8 0) else
  match carquet_dispatch_get_bitunpack8_fn bit_width with
  | Some simd_fn => simd_fn input
  | None =>
      match bit_width with
      | 1 => carquet_bitunpack8_1bit input
      | 2 => carquet_bitunpack8_2bit input
      | 3 => carquet_bitunpack8_3bit input
      | 4 => carquet_bitunpack8_4bit input
      | 5 => carquet_bitunpack8_5bit input
      | 6 => carquet_bitunpack8_6bit input
      | 7 => carquet_bitunpack8_7bit input
      | 8 => carquet_bitunpack8_8bit input
      | _ => unpack_general 8 input bit_width 0 0 0
      end
  end.

(** The wide loop: at most [count] iterations. *)
Fixpoint unpack_wide_loop (fuel : nat) (input : list Z) (fn : list Z -> option (list Z))
    (wvals wbytes count i bytes_consumed : Z) : option (list Z * Z * Z) :=
  if i + wvals <=? count then
    match fuel with
    | O => None
    | S fuel =>
        vs ← fn (ptr_add input bytes_consumed);
        '(rest, i, bytes_consumed) ←
          unpack_wide_loop fuel input fn wvals wbytes count (i + wvals) (bytes_consumed + wbytes);
        Some (vs ++ rest, i, bytes_consumed)
    end
  else Some ([], i, bytes_consumed).

Fixpoint unpack_group_loop (fuel : nat) (input : list Z) (bit_width count i bytes_consumed : Z)
    : option (list Z * Z * Z) :=
  if i + 8 <=? count then
    match fuel with
    | O => None
    | S fuel =>
        vs ← carquet_bitunpack8_32 (ptr_add input bytes_consumed) bit_width;
        '(rest, i, bytes_consumed) ←
          unpack_group_loop fuel input bit_width count (i + 8) (bytes_consumed + bit_width);
        Some (vs ++ rest, i, bytes_consumed)
    end
  else Some ([], i, bytes_consumed).

(** The [count] values stored through [values], and the bytes consumed. *)
Definition carquet_bitunpack_32 (input : list Z) (count bit_width : Z) : option (list Z * Z) :=
  if bit_width =? 0 then Some (replicate (Z.to_nat count) 0, 0) else
  let fuel := Z.to_nat count in
  '(wide, i, bytes_consumed) ←
    match carquet_dispatch_get_bitunpack_wide bit_width with
    | Some (wvals, wide_fn) =>
        if wvals >? 0 then
          unpack_wide_loop fuel input wide_fn wvals (carquet_packed_size wvals bit_width) count 0 0
        else Some ([], 0, 0)
    | None => Some ([], 0, 0)
    end;
  '(groups, i, bytes_consumed) ← unpack_group_loop fuel input bit_width count i bytes_consumed;
  if i <? count then
    let tail_bytes := carquet_packed_size (count - i) bit_width in
    tail ← rd_n input bytes_consumed tail_bytes;
    let padded := tail ++ replicate (32 - length tail) 0 in
    temp ← carquet_bitunpack8_32 padded bit_width;
    last ← rd_n temp 0 (count - i);
    Some (wide ++ groups ++ last, bytes_consumed + tail_bytes)
  else Some (wide ++ groups, bytes_consumed).

Definition unpack_functions (bit_width : Z) : option (list Z -> option (list Z)) :=
  match bit_width with
  | 1 => Some carquet_bitunpack8_1bit
  | 2 => Some carquet_bitunpack8_2bit
  | 3 => Some carquet_bitunpack8_3bit
  | 4 => Some carquet_bitunpack8_4bit
  | 5 => Some carquet_bitunpack8_5bit
  | 6 => Some carquet_bitunpack8_6bit
  | 7 => Some carquet_bitunpack8_7bit
  | 8 => Some carquet_bitunpack8_8bit
  | _ => None
  end.

Definition carquet_get_bitunpack8_fn (bit_width : Z) : option (list Z -> option (list Z)) :=
  if (bit_width <? 1) || (bit_width >? 8) then None else
  match carquet_dispatch_get_bitunpack8_fn bit_width with
  | Some simd_fn => Some simd_fn
  | None => unpack_functions bit_width
  end.

End Unpack.

(** ** Packing

    [output] is the region of [bit_width] bytes the function clears and fills. *)

(** [output[byte_pos] |= x] *)
Definition or_byte (output : list Z) (byte_pos x : Z) : option (list Z) :=
  b ← rd output byte_pos; wr output byte_pos (b .| x).

(** The inner [while]; [bits_written] starts at 1 or more and grows by 8 up to at
    most 32, so five iterations are enough. *)
Fixpoint pack_bytes (fuel : nat) (bit_width : Z) (output : list Z) (val bits_written byte_pos : Z)
    : option (list Z) :=
  if bits_written <? bit_width then
    match fuel with
    | O => None
    | S fuel =>
        output ← or_byte output byte_pos (u8 val);
        pack_bytes fuel bit_width output (val ≫ 8) (bits_written + 8) (byte_pos + 1)
    end
  else Some output.

Fixpoint pack_values (bit_width : Z) (output values : list Z) (bit_pos : Z) : option (list Z) :=
  match values with
  | [] => Some output
  | v :: values =>
      let mask := u32 (u64 (1 ≪ bit_width) - 1) in
      let val := v .& mask in
      let byte_pos := bit_pos / 8 in
      let bit_offset := bit_pos mod 8 in
      output ← or_byte output byte_pos (u8 (u32 (val ≪ bit_offset)));
      let bits_written := 8 - bit_offset in
      output ←
        (if bits_written <? bit_width
         then pack_bytes 5 bit_width output (val ≫ bits_written) bits_written (byte_pos + 1)
         else Some output);
      pack_values bit_width output values (bit_pos + bit_width)
  end.

(** The bytes stored through [output]. *)
Definition carquet_bitpack8_32 (values : list Z) (bit_width : Z) : option (list Z) :=
  if bit_width =? 0 then Some [] else
  vs ← rd_n values 0 8;
  if bit_width =? 8 then Some (u8 <$> vs)
  else pack_values bit_width (replicate (Z.to_nat bit_width) 0) vs 0.

Fixpoint pack_group_loop (fuel : nat) (values : list Z) (count bit_width i bytes_written : Z)
    : option (list Z * Z * Z) :=
  if i + 8 <=? count then
    match fuel with
    | O => None
    | S fuel =>
        bs ← carquet_bitpack8_32 (ptr_add values i) bit_width;
        '(rest, i, bytes_written) ←
          pack_group_loop fuel values count bit_width (i + 8) (bytes_written + bit_width);
        Some (bs ++ rest, i, bytes_written)
    end
  else Some ([], i, bytes_written).

(** Every byte stored through [output], and the returned size.  A tail group stores
    [bit_width] bytes although fewer are counted. *)
Definition carquet_bitpack_32 (values : list Z) (count bit_width : Z) : option (list Z * Z) :=
  if (bit_width =? 0) || (count =? 0) then Some ([], 0) else
  '(groups, i, bytes_written) ←
    pack_group_loop (Z.to_nat count) values count bit_width 0 0;
  if i <? count then
    tail ← rd_n values i (count - i);
    let temp := tail ++ replicate (8 - length tail) 0 in
    let remaining_bytes := carquet_packed_size (count - i) bit_width in
    bs ← carquet_bitpack8_32 temp bit_width;
    Some (groups ++ bs, bytes_written + remaining_bytes)
  else Some (groups, bytes_written).

(** ** Legacy BIT_PACKED levels *)

Fixpoint bitpacked_level (n : nat) (data : list Z) (v bitpos : Z) : option (Z * Z) :=
  match n with
  | O => Some (v, bitpos)
  | S n =>
      let shift := 7 - (bitpos .& 7) in
      b ← rd data (bitpos ≫ 3);
      bitpacked_level n data (u32 (v ≪ 1) .| ((b ≫ shift) .& 1)) (u64 (bitpos + 1))
  end.

Fixpoint bitpacked_levels (count : nat) (data : list Z) (bit_width bitpos : Z) : option (list Z) :=
  match count with
  | O => Some []
  | S count =>
      '(v, bitpos) ← bitpacked_level (Z.to_nat bit_width) data 0 bitpos;
      rest ← bitpacked_levels count data bit_width bitpos;
      Some (i16 v :: rest)
  end.

(** The outer [None] is undefined behaviour, the inner one the return value -1;
    [data = None] is a null pointer. *)
Definition carquet_decode_bitpacked_levels (data : option (list Z)) (data_size bit_width count : Z)
    : option (option (list Z * Z)) :=
  if count <? 0 then Some None else
  if bit_width =? 0 then Some (Some (replicate (Z.to_nat count) 0, 0)) else
  if (bit_width <? 0) || (bit_width >? 16) then Some None else
  match data with
  | None => Some None
  | Some data =>
      let needed := u64 (u64 (count * bit_width) + 7) / 8 in
      if needed >? data_size then Some None else
      out ← bitpacked_levels (Z.to_nat count) data bit_width 0;
      Some (Some (out, needed))
  end.

(** ** Reference reading and writing of packed runs *)

Definition unpack_val (w : Z) (p : list Z) (i : Z) : Z := (le_val p / 2 ^ (i * w)) mod 2 ^ w.

Definition unpack (w : Z) (n : nat) (p : list Z) : list Z :=
  (λ i, unpack_val w p (Z.of_nat i)) <$> seq 0 n.

Fixpoint pack_val (w : Z) (vs : list Z) : Z :=
  match vs with
  | [] => 0
  | v :: t => v mod 2 ^ w + 2 ^ w * pack_val w t
  end.

Definition pack (w : Z) (n : nat) (vs : list Z) : list Z := le_bytes n (pack_val w vs).

Lemma length_unpack w n p : length (unpack w n p) = n.
Proof. unfold unpack. by rewrite length_fmap, length_seq. Qed.

Lemma unpack_lookup w n p i : (i < n)%nat -> unpack w n p !! i = Some (unpack_val w p (Z.of_nat i)).
Proof. intros. unfold unpack. by rewrite list_lookup_fmap, lookup_seq_lt by lia. Qed.

Lemma unpack_val_range w p i : 0 <= w -> 0 <= unpack_val w p i < 2 ^ w.
Proof. intros. apply Z.mod_pos_bound, pow2_pos. lia. Qed.

Lemma unpack_range w n p : 0 <= w -> Forall (in_u w) (unpack w n p).
Proof.
  intros. apply Forall_fmap, Forall_forall. intros i _. by apply unpack_val_range.
Qed.

(** Value [i] only depends on the bytes that hold its bits. *)
Lemma unpack_val_take w p i k : bytes_ok p -> 0 <= w -> 0 <= i -> (i + 1) * w <= 8 * Z.of_nat k ->
  unpack_val w (take k p) i = unpack_val w p i.
Proof.
  intros Hp Hw Hi Hk. unfold unpack_val. rewrite le_val_take by done.
  apply Z.bits_inj'. intros j Hj. destruct (Z.lt_ge_cases j w).
  - rewrite !Z.mod_pow2_bits_low, !Z.div_pow2_bits, Z.mod_pow2_bits_low by nia. done.
  - by rewrite !Z.mod_pow2_bits_high by lia.
Qed.

Lemma unpack_take w n p k : bytes_ok p -> 0 <= w -> Z.of_nat n * w <= 8 * Z.of_nat k ->
  unpack w n (take k p) = unpack w n p.
Proof.
  intros. apply list_eq. intros i. destruct (decide (i < n)%nat).
  - rewrite !unpack_lookup by done. f_equal. apply unpack_val_take; auto; nia.
  - rewrite !lookup_ge_None_2; rewrite ?length_unpack; auto; lia.
Qed.

(** Dropping whole groups shifts the index. *)
Lemma unpack_val_drop w p i j k : bytes_ok p -> 0 <= w -> 0 <= i -> 0 <= j ->
  8 * Z.of_nat k = j * w -> unpack_val w (drop k p) i = unpack_val w p (j + i).
Proof.
  intros Hp Hw Hi Hj Hk. unfold unpack_val. rewrite le_val_drop by done.
  pose proof (pow2_pos (8 * Z.of_nat k)). pose proof (pow2_pos (i * w)).
  rewrite Z.div_div, <- Z.pow_add_r by nia. do 3 f_equal. lia.
Qed.

Lemma unpack_app w n m p k : bytes_ok p -> 0 <= w -> 8 * Z.of_nat k = Z.of_nat n * w ->
  unpack w (n + m) p = unpack w n p ++ unpack w m (drop k p).
Proof.
  intros. apply list_eq. intros i. destruct (decide (i < n)%nat).
  - rewrite lookup_app_l by (rewrite length_unpack; lia). by rewrite !unpack_lookup by lia.
  - rewrite lookup_app_r, length_unpack by (rewrite length_unpack; lia).
    destruct (decide (i < n + m)%nat).
    + rewrite !unpack_lookup by lia. f_equal.
      rewrite (unpack_val_drop w p _ (Z.of_nat n)) by (auto; lia). f_equal. lia.
    + rewrite !lookup_ge_None_2; rewrite ?length_unpack; auto; lia.
Qed.

Lemma unpack_ptr_app w n m p k : bytes_ok p -> 0 <= w -> 0 <= k -> 8 * k = Z.of_nat n * w ->
  unpack w n p ++ unpack w m (ptr_add p k) = unpack w (n + m) p.
Proof. intros. symmetry. apply unpack_app; auto; lia. Qed.

Lemma pack_val_range w vs : 0 <= w -> 0 <= pack_val w vs < 2 ^ (w * lenZ vs).
Proof.
  intros Hw. induction vs as [|v vs IH]; cbn [pack_val length]; [by rewrite Z.mul_0_r|].
  replace (w * Z.of_nat (S (length vs))) with (w + w * lenZ vs) by lia.
  rewrite Z.pow_add_r by lia. pose proof (Z.mod_pos_bound v (2 ^ w)). pose proof (pow2_pos w). nia.
Qed.

Lemma pack_val_app w vs1 vs2 : 0 <= w ->
  pack_val w (vs1 ++ vs2) = pack_val w vs1 + 2 ^ (w * lenZ vs1) * pack_val w vs2.
Proof.
  intros Hw. induction vs1 as [|v vs1 IH]; cbn [pack_val length app].
  { rewrite Z.mul_0_r. lia. }
  rewrite IH. replace (w * Z.of_nat (S (length vs1))) with (w + w * lenZ vs1) by lia.
  rewrite Z.pow_add_r by lia. lia.
Qed.

Lemma pack_val_replicate_0 w n : 0 <= w -> pack_val w (replicate n 0) = 0.
Proof.
  intros. induction n; cbn [pack_val replicate]; [done|]. rewrite Z.mod_0_l; [lia|].
  pose proof (pow2_pos w). lia.
Qed.

Lemma pack_val_lookup w vs i v : 0 <= w -> vs !! i = Some v ->
  (pack_val w vs / 2 ^ (Z.of_nat i * w)) mod 2 ^ w = v mod 2 ^ w.
Proof.
  intros Hw. pose proof (pow2_pos w Hw). revert i. induction vs as [|x vs IH]; [done|].
  intros [|i]; cbn [pack_val lookup list_lookup]; intros E.
  - simplify_eq. rewrite Z.mul_0_l, Z.div_1_r, (Z.mul_comm (2 ^ w)), Z.mod_add by lia.
    by rewrite Z.mod_mod by lia.
  - fold (vs !! i) in E. rewrite <- (IH i E).
    replace (Z.of_nat (S i) * w) with (w + Z.of_nat i * w) by lia.
    pose proof (pow2_pos (Z.of_nat i * w)). pose proof (Z.mod_pos_bound x (2 ^ w)).
    rewrite Z.pow_add_r, <- Z.div_div by lia. do 2 f_equal.
    rewrite (Z.mul_comm (2 ^ w)), Z.div_add, Z.div_small by lia. lia.
Qed.

(** Unpacking what was packed returns the values, cut to the width. *)
Lemma unpack_pack w n k vs : 0 <= w -> (n <= length vs)%nat -> Z.of_nat n * w <= 8 * Z.of_nat k ->
  unpack w n (pack w k vs) = (λ v, v mod 2 ^ w) <$> take n vs.
Proof.
  intros Hw Hn Hk. apply list_eq. intros i. destruct (decide (i < n)%nat).
  - rewrite unpack_lookup by done. rewrite list_lookup_fmap, lookup_take_lt by done.
    destruct (lookup_lt_is_Some_2 vs i ltac:(lia)) as [v Hv]. rewrite Hv. cbn. f_equal.
    rewrite <- (pack_val_lookup w vs i v) by done.
    unfold unpack_val, pack. rewrite le_val_bytes.
    apply Z.bits_inj'. intros j Hj. destruct (Z.lt_ge_cases j w).
    + rewrite !Z.mod_pow2_bits_low, !Z.div_pow2_bits, Z.mod_pow2_bits_low by nia. done.
    + by rewrite !Z.mod_pow2_bits_high by lia.
  - rewrite !lookup_ge_None_2; rewrite ?length_fmap, ?length_take, ?length_unpack; auto; lia.
Qed.

(** ** The kernels compute the reference reading *)

(** Split off the leading bytes of an input of known minimal length. *)
Ltac split_bytes p n :=
  lazymatch n with
  | O => idtac
  | S ?n =>
      destruct p as [|? p]; [cbn [length] in *; lia|];
      match goal with H : bytes_ok (_ :: _) |- _ => apply Forall_cons_iff in H as [? H] end;
      split_bytes p n
  end.

Ltac read_le p n :=
  intros Hp Hl; split_bytes p n; unfold rd; red_nat; cbn; rewrite take_0; cbn [le_val];
  unfold in_u in *; lor_to_add; f_equal; lia.

Lemma read_le16_spec p : bytes_ok p -> (2 <= length p)%nat -> read_le16 p = Some (le_val (take 2 p)).
Proof. unfold read_le16. read_le p 2%nat. Qed.
Lemma read_le24_spec p : bytes_ok p -> (3 <= length p)%nat -> read_le24 p = Some (le_val (take 3 p)).
Proof. unfold read_le24. read_le p 3%nat. Qed.
Lemma read_le32_spec p : bytes_ok p -> (4 <= length p)%nat -> read_le32 p = Some (le_val (take 4 p)).
Proof. unfold read_le32. read_le p 4%nat. Qed.
Lemma read_le40_spec p : bytes_ok p -> (5 <= length p)%nat -> read_le40 p = Some (le_val (take 5 p)).
Proof. unfold read_le40. read_le p 5%nat. Qed.
Lemma read_le48_spec p : bytes_ok p -> (6 <= length p)%nat -> read_le48 p = Some (le_val (take 6 p)).
Proof. unfold read_le48. read_le p 6%nat. Qed.
Lemma read_le56_spec p : bytes_ok p -> (7 <= length p)%nat -> read_le56 p = Some (le_val (take 7 p)).
Proof. unfold read_le56. read_le p 7%nat. Qed.
Lemma read_byte_spec p : bytes_ok p -> (1 <= length p)%nat -> rd p 0 = Some (le_val (take 1 p)).
Proof. read_le p 1%nat. Qed.

Lemma kernel_elem p n w i k m : bytes_ok p -> 0 <= w -> (Z.of_nat i + 1) * w <= 8 * Z.of_nat n ->
  k = Z.of_nat i * w -> m = 2 ^ w - 1 ->
  (le_val (take n p) ≫ k) .& m = unpack_val w p (Z.of_nat i).
Proof.
  intros Hp Hw Hn -> ->. rewrite land_ones_mod, shiftr_div by nia.
  by apply (unpack_val_take w p (Z.of_nat i) n); auto; lia.
Qed.

Ltac kernel w :=
  unfold unpack; cbn; f_equal; repeat f_equal;
  first [apply (kernel_elem _ w (Z.of_nat w)); [done|lia..|done|done]].

Lemma bitunpack8_1bit_spec p : bytes_ok p -> (1 <= length p)%nat ->
  carquet_bitunpack8_1bit p = Some (unpack 1 8 p).
Proof.
  intros Hp Hl. unfold carquet_bitunpack8_1bit. rewrite read_byte_spec by done. kernel 1%nat.
Qed.
Lemma bitunpack8_2bit_spec p : bytes_ok p -> (2 <= length p)%nat ->
  carquet_bitunpack8_2bit p = Some (unpack 2 8 p).
Proof.
  intros Hp Hl. unfold carquet_bitunpack8_2bit. rewrite read_le16_spec by done. kernel 2%nat.
Qed.
Lemma bitunpack8_3bit_spec p : bytes_ok p -> (3 <= length p)%nat ->
  carquet_bitunpack8_3bit p = Some (unpack 3 8 p).
Proof.
  intros Hp Hl. unfold carquet_bitunpack8_3bit. rewrite read_le24_spec by done. kernel 3%nat.
Qed.
Lemma bitunpack8_4bit_spec p : bytes_ok p -> (4 <= length p)%nat ->
  carquet_bitunpack8_4bit p = Some (unpack 4 8 p).
Proof.
  intros Hp Hl. unfold carquet_bitunpack8_4bit. rewrite read_le32_spec by done. kernel 4%nat.
Qed.
Lemma bitunpack8_5bit_spec p : bytes_ok p -> (5 <= length p)%nat ->
  carquet_bitunpack8_5bit p = Some (unpack 5 8 p).
Proof.
  intros Hp Hl. unfold carquet_bitunpack8_5bit. rewrite read_le40_spec by done. kernel 5%nat.
Qed.
Lemma bitunpack8_6bit_spec p : bytes_ok p -> (6 <= length p)%nat ->
  carquet_bitunpack8_6bit p = Some (unpack 6 8 p).
Proof.
  intros Hp Hl. unfold carquet_bitunpack8_6bit. rewrite read_le48_spec by done. kernel 6%nat.
Qed.
Lemma bitunpack8_7bit_spec p : bytes_ok p -> (7 <= length p)%nat ->
  carquet_bitunpack8_7bit p = Some (unpack 7 8 p).
Proof.
  intros Hp Hl. unfold carquet_bitunpack8_7bit. rewrite read_le56_spec by done. kernel 7%nat.
Qed.

(** A byte of the input is the 8-bit value at its index. *)
Lemma unpack_val_8 p i b : bytes_ok p -> p !! i = Some b -> unpack_val 8 p (Z.of_nat i) = b.
Proof.
  intros Hp Hb. rewrite <- (Nat.add_0_r i), <- lookup_drop in Hb.
  pose proof (unpack_val_drop 8 p 0 (Z.of_nat i) i Hp) as E. rewrite Z.add_0_r in E.
  rewrite <- E by lia. apply (Forall_drop _ i) in Hp.
  destruct (drop i p) as [|x t]; [done|]. cbn in Hb. simplify_eq.
  apply Forall_cons_iff in Hp as [Hx _]. unfold in_u in Hx.
  unfold unpack_val. cbn [le_val]. rewrite Z.mul_0_l, Z.div_1_r, (Z.mul_comm (2 ^ 8)), Z.mod_add by lia.
  by apply Z.mod_small.
Qed.

Lemma bitunpack8_8bit_spec p : bytes_ok p -> (8 <= length p)%nat ->
  carquet_bitunpack8_8bit p = Some (unpack 8 8 p).
Proof.
  intros Hp Hl. unfold carquet_bitunpack8_8bit.
  assert (forall i, 0 <= i < 8 -> rd p i = Some (unpack_val 8 p i)) as R.
  { intros i Hi. rewrite rd_lookup by lia. rewrite <- (Z2Nat.id i) at 2 by lia.
    destruct (lookup_lt_is_Some_2 p (Z.to_nat i) ltac:(lia)) as [b Hb].
    by rewrite (unpack_val_8 p (Z.to_nat i) b). }
  rewrite (R 0), (R 1), (R 2), (R 3), (R 4), (R 5), (R 6), (R 7) by lia.
  done.
Qed.

(** ** The general loop

    [acc_inv]: after [i] values the accumulator holds the bits of the first
    [byte_pos] bytes that are not consumed yet. *)

Definition acc_inv (p : list Z) (w i acc held bp : Z) : Prop :=
  0 <= bp <= lenZ p /\ held = 8 * bp - i * w /\ 0 <= held <= w + 7 /\
  acc = le_val (take (Z.to_nat bp) p) / 2 ^ (i * w).

Lemma acc_bound p w i acc held bp : bytes_ok p -> 0 <= i * w -> acc_inv p w i acc held bp ->
  0 <= acc < 2 ^ held.
Proof.
  intros Hp Hi (Hb & Hh & Hr & ->).
  pose proof (le_val_bound (take (Z.to_nat bp) p) (Forall_take _ _ _ Hp)) as B.
  rewrite length_take in B. replace (8 * _) with (i * w + held) in B by lia.
  rewrite Z.pow_add_r in B by lia. pose proof (pow2_pos (i * w)).
  split; [apply Z.div_pos; lia|apply Z.div_lt_upper_bound; lia].
Qed.

Lemma refill_step p w i acc held bp b : bytes_ok p -> 0 <= w <= 32 -> 0 <= i -> held < w ->
  acc_inv p w i acc held bp -> rd p bp = Some b ->
  acc_inv p w i (u64 (acc .| (b ≪ held))) (held + 8) (bp + 1).
Proof.
  intros Hp Hw Hi Hlt Hinv Hb. pose proof (acc_bound p w i acc held bp Hp ltac:(lia) Hinv) as Ha.
  destruct Hinv as (Hbp & Hh & Hr & E). pose proof (rd_byte _ _ _ Hp Hb).
  pose proof (rd_bound _ _ _ Hb). rewrite lor_add by lia.
  pose proof (Z.pow_le_mono_r 2 held 32). pose proof (pow2_pos held).
  rewrite u64_small by nia. unfold acc_inv. split_and!; try lia.
  rewrite rd_lookup in Hb by lia. replace (Z.to_nat (bp + 1)) with (S (Z.to_nat bp)) by lia.
  rewrite (take_S_r _ _ b), le_val_snoc, length_take by done.
  replace (8 * _) with (held + i * w) by lia. rewrite Z.pow_add_r by lia.
  pose proof (pow2_pos (i * w)).
  replace (_ + 2 ^ held * 2 ^ (i * w) * b) with
    (le_val (take (Z.to_nat bp) p) + (b * 2 ^ held) * 2 ^ (i * w)) by lia.
  rewrite Z.div_add by lia. lia.
Qed.

Lemma unpack_refill_spec fuel p w i acc held bp : bytes_ok p -> 1 <= w <= 32 -> 0 <= i < 8 ->
  w <= lenZ p -> acc_inv p w i acc held bp -> w - held <= 8 * Z.of_nat fuel ->
  exists acc' held' bp', unpack_refill fuel p w acc held bp = Some (acc', held', bp') /\
    acc_inv p w i acc' held' bp' /\ w <= held'.
Proof.
  revert acc held bp. induction fuel as [|fuel IH]; intros acc held bp Hp Hw Hi Hl Hinv Hf;
    cbn [unpack_refill].
  - case_bool; [lia|]. eauto 6.
  - case_bool; [|eauto 6]. destruct (rd_Some p bp) as [b Hb].
    { destruct Hinv. nia. }
    rewrite Hb. cbn. apply IH; auto; [|lia]. apply refill_step; auto; lia.
Qed.

Lemma general_mask x w : 1 <= w <= 32 -> u32 (x .& u32 (u64 (1 ≪ w) - 1)) = x mod 2 ^ w.
Proof.
  intros Hw. rewrite shiftl_mul, Z.mul_1_l by lia. pose proof (pow2_pos w).
  pose proof (Z.pow_le_mono_r 2 w 32). rewrite u64_small, (u32_small (2 ^ w - 1)) by lia.
  rewrite land_ones_mod by lia. pose proof (Z.mod_pos_bound x (2 ^ w)).
  by rewrite u32_small by lia.
Qed.

Lemma unpack_general_spec p w : bytes_ok p -> 1 <= w <= 32 -> w <= lenZ p ->
  forall n i acc held bp, i + Z.of_nat n = 8 -> 0 <= i -> acc_inv p w i acc held bp ->
  unpack_general n p w acc held bp = Some ((λ k, unpack_val w p (i + Z.of_nat k)) <$> seq 0 n).
Proof.
  intros Hp Hw Hl n. induction n as [|n IH]; intros i acc held bp Hn Hi Hinv; [done|].
  cbn [unpack_general].
  destruct (unpack_refill_spec (Z.to_nat w) p w i acc held bp) as (acc' & held' & bp' & -> & I & Hh);
    auto; try lia.
  { destruct Hinv as (_ & _ & ? & _). lia. }
  cbn. rewrite (IH (i + 1)); [|lia|lia|].
  - cbn. f_equal. rewrite general_mask by lia. f_equal.
    + destruct I as (? & ? & ? & ->). rewrite Z.add_0_r.
      apply (unpack_val_take w p i (Z.to_nat bp')); auto; lia.
    + rewrite <- fmap_S_seq, <- list_fmap_compose. apply list_fmap_ext. intros ? k _. cbn. f_equal. lia.
  - destruct I as (? & ? & ? & ->). unfold acc_inv. split_and!; try lia.
    pose proof (pow2_pos (i * w)). pose proof (pow2_pos w).
    rewrite shiftr_div, Z.div_div, <- Z.pow_add_r by nia. do 2 f_equal. lia.
Qed.

(** ** The contract of the kernel table

    What [bitpack.c] and [rle.c] rely on: an installed kernel unpacks like the scalar
    code, a wide kernel like a whole number of groups of eight. *)

Class UnpackKernelsOk (K : UnpackKernels) := {
  kernel8_ok : forall w fn p, 1 <= w <= 32 -> bitunpack8_u32 w = Some fn ->
    bytes_ok p -> w <= lenZ p -> fn p = Some (unpack w 8 p);
  kernel_wide_ok : forall w n fn, 1 <= w <= 32 -> bitunpack_wide w = Some (n, fn) ->
    exists g, n = 8 * g /\ 0 <= g < 2 ^ 16 /\
      forall p, bytes_ok p -> g * w <= lenZ p -> fn p = Some (unpack w (Z.to_nat n) p) }.

#[export] Instance scalar_kernels_ok : UnpackKernelsOk scalar_kernels.
Proof. by split. Qed.

(** A table that has every kernel. *)
Definition full_kernels : UnpackKernels :=
  {| bitunpack8_u32 := λ w, Some (λ p, Some (unpack w 8 p));
     bitunpack_wide := λ w, Some (32, λ p, Some (unpack w 32 p)) |}.

#[export] Instance full_kernels_ok : UnpackKernelsOk full_kernels.
Proof. split; cbn; intros; simplify_eq; [done|]. exists 4. split_and!; auto; lia. Qed.

Lemma packed_size_spec count w : 0 <= count -> 0 <= w -> count * w + 7 < 2 ^ 64 ->
  carquet_packed_size count w = (count * w + 7) / 8.
Proof.
  intros. unfold carquet_packed_size. by rewrite (u64_small (count * w)), u64_small by nia.
Qed.

Section UnpackSpec.
Context {K : UnpackKernels} {KOk : UnpackKernelsOk K}.

Lemma bitunpack8_32_0 p : carquet_bitunpack8_32 p 0 = Some (replicate 8 0).
Proof. done. Qed.

Lemma bitunpack8_32_spec p w : bytes_ok p -> 0 <= w <= 32 -> w <= lenZ p ->
  carquet_bitunpack8_32 p w = Some (unpack w 8 p).
Proof.
  intros Hp Hw Hl. unfold carquet_bitunpack8_32.
  destruct (Z.eqb_spec w 0) as [->|Hw0].
  { unfold unpack, unpack_val. cbn. change (2 ^ 0) with 1. by rewrite !Z.mod_1_r. }
  unfold carquet_dispatch_get_bitunpack8_fn. decide_bool.
  destruct (bitunpack8_u32 w) as [fn|] eqn:E; [apply (kernel8_ok w); auto; lia|].
  destruct (Z.le_gt_cases w 8).
  - assert (w = 1 \/ w = 2 \/ w = 3 \/ w = 4 \/ w = 5 \/ w = 6 \/ w = 7 \/ w = 8) as Hc by lia.
    destruct Hc as [->|[->|[->|[->|[->|[->|[->| ->]]]]]]];
      [apply bitunpack8_1bit_spec|apply bitunpack8_2bit_spec|apply bitunpack8_3bit_spec
      |apply bitunpack8_4bit_spec|apply bitunpack8_5bit_spec|apply bitunpack8_6bit_spec
      |apply bitunpack8_7bit_spec|apply bitunpack8_8bit_spec]; auto; lia.
  - transitivity (unpack_general 8 p w 0 0 0).
    { destruct w as [|w|w]; [lia| |lia]. do 4 (destruct w as [w|w|]; try lia; try done). }
    apply (unpack_general_spec p w Hp ltac:(lia) Hl 8 0); [done..|].
    unfold acc_inv. split_and!; try lia. done.
Qed.

(** The loops over groups, from an index that is a multiple of eight. *)
Lemma group_loop_spec p w count : bytes_ok p -> 1 <= w <= 32 ->
  forall fuel g bc, 0 <= g -> bc = g * w -> 8 * g <= count -> count * w <= 8 * lenZ p ->
  count - 8 * g <= Z.of_nat fuel ->
  exists g', unpack_group_loop fuel p w count (8 * g) bc =
      Some (unpack w (Z.to_nat (8 * (g' - g))) (ptr_add p bc), 8 * g', g' * w) /\
    g <= g' /\ 8 * g' <= count < 8 * g' + 8.
Proof.
  intros Hp Hw. induction fuel as [|fuel IH]; intros g bc Hg -> Hgc Hl Hf; cbn [unpack_group_loop].
  - case_bool; [lia|]. exists g. rewrite Z.sub_diag. split; [done|lia].
  - case_bool; [|exists g; rewrite Z.sub_diag; split; [done|lia]].
    assert (g * w + w <= lenZ p) by nia.
    rewrite bitunpack8_32_spec by (auto with bytes; rewrite ?length_ptr_add; nia). cbn.
    destruct (IH (g + 1) (g * w + w)) as (g' & E & ? & ?); [lia..|].
    replace (8 * g + 8) with (8 * (g + 1)) by lia. rewrite E. cbn. exists g'. split; [|lia].
    replace (Z.to_nat (8 * (g' - g))) with (8 + Z.to_nat (8 * (g' - (g + 1))))%nat by lia.
    rewrite (unpack_app w 8 _ _ (Z.to_nat w)) by (auto with bytes; lia).
    rewrite <- ptr_add_add by nia. done.
Qed.

Lemma wide_loop_spec p w count fn k : bytes_ok p -> 1 <= w <= 32 -> 1 <= k ->
  (forall p, bytes_ok p -> k * w <= lenZ p -> fn p = Some (unpack w (Z.to_nat (8 * k)) p)) ->
  forall fuel g bc, 0 <= g -> bc = g * w -> 8 * g <= count -> count * w <= 8 * lenZ p ->
  count - 8 * g <= Z.of_nat fuel ->
  exists g', unpack_wide_loop fuel p fn (8 * k) (k * w) count (8 * g) bc =
      Some (unpack w (Z.to_nat (8 * (g' - g))) (ptr_add p bc), 8 * g', g' * w) /\
    g <= g' /\ 8 * g' <= count.
Proof.
  intros Hp Hw Hk Hfn. induction fuel as [|fuel IH]; intros g bc Hg -> Hgc Hl Hf;
    cbn [unpack_wide_loop].
  - case_bool; [lia|]. exists g. rewrite Z.sub_diag. split; [done|lia].
  - case_bool; [|exists g; rewrite Z.sub_diag; split; [done|lia]].
    assert (g * w + k * w <= lenZ p) by nia.
    rewrite Hfn by (auto with bytes; rewrite ?length_ptr_add; nia). cbn.
    destruct (IH (g + k) (g * w + k * w)) as (g' & E & ? & ?); [lia..|].
    replace (8 * g + 8 * k) with (8 * (g + k)) by lia. rewrite E. cbn. exists g'. split; [|lia].
    replace (Z.to_nat (8 * (g' - g))) with (Z.to_nat (8 * k) + Z.to_nat (8 * (g' - (g + k))))%nat by lia.
    rewrite (unpack_app w _ _ _ (Z.to_nat (k * w))) by (auto with bytes; nia).
    rewrite <- ptr_add_add by nia. done.
Qed.

(** The tail: fewer than eight values from a zero-padded copy. *)
Lemma unpack_padded p w n : bytes_ok p -> 1 <= w <= 32 -> (n < 8)%nat ->
  Z.of_nat n * w <= 8 * lenZ p -> (length p <= 32)%nat ->
  exists temp, carquet_bitunpack8_32 (p ++ replicate (32 - length p) 0) w = Some temp /\
    rd_n temp 0 (Z.of_nat n) = Some (unpack w n p).
Proof.
  intros Hp Hw Hn Hl Hle. assert (bytes_ok (p ++ replicate (32 - length p) 0)) as Hb.
  { apply Forall_app_2; [done|]. apply Forall_replicate. unfold in_u. lia. }
  eexists. split; [apply bitunpack8_32_spec; auto; [lia|rewrite length_app, length_replicate; lia]|].
  rewrite rd_n_Some by (rewrite ?length_unpack; lia). f_equal. red_nat.
  rewrite drop_0, Nat2Z.id. apply list_eq. intros i. destruct (decide (i < n)%nat).
  - rewrite lookup_take_lt, !unpack_lookup by lia. f_equal.
    rewrite <- (unpack_val_take w _ _ (length p)) by (auto; nia). by rewrite take_app_length.
  - rewrite !lookup_ge_None_2; rewrite ?length_take, ?length_unpack; auto; lia.
Qed.

Lemma wide_part_spec p w count : bytes_ok p -> 1 <= w <= 32 -> 0 <= count ->
  count * w <= 8 * lenZ p ->
  exists g, (match carquet_dispatch_get_bitunpack_wide w with
    | Some (wvals, wide_fn) =>
        if wvals >? 0 then
          unpack_wide_loop (Z.to_nat count) p wide_fn wvals (carquet_packed_size wvals w) count 0 0
        else Some ([], 0, 0)
    | None => Some ([], 0, 0)
    end) = Some (unpack w (Z.to_nat (8 * g)) p, 8 * g, g * w) /\ 0 <= g /\ 8 * g <= count.
Proof.
  intros Hp Hw Hc Hl. assert (exists g, Some (([] : list Z), 0, 0) =
    Some (unpack w (Z.to_nat (8 * g)) p, 8 * g, g * w) /\ 0 <= g /\ 8 * g <= count) as Hnil.
  { exists 0. split; [done|lia]. }
  unfold carquet_dispatch_get_bitunpack_wide. decide_bool.
  destruct (bitunpack_wide w) as [[wv fn]|] eqn:E; [|done].
  destruct (kernel_wide_ok w wv fn ltac:(lia) E) as (k & -> & Hk & Hfn).
  rewrite Z.gtb_ltb. case_bool; [|done].
  rewrite packed_size_spec by nia. replace ((8 * k * w + 7) / 8) with (k * w) by dlia.
  destruct (wide_loop_spec p w count fn k Hp Hw ltac:(lia) Hfn (Z.to_nat count) 0 0) as (g & E' & ? & ?);
    [lia..|]. change (8 * 0) with 0 in E'. rewrite E'. exists g. rewrite Z.sub_0_r. split; [done|lia].
Qed.

Lemma bitunpack_32_spec p w count : bytes_ok p -> 0 <= w <= 32 -> 0 <= count < 2 ^ 58 ->
  count * w <= 8 * lenZ p ->
  carquet_bitunpack_32 p count w = Some (unpack w (Z.to_nat count) p, (count * w + 7) / 8).
Proof.
  intros Hp Hw Hc Hl. unfold carquet_bitunpack_32. destruct (Z.eqb_spec w 0) as [->|Hw0].
  { rewrite Z.mul_0_r. f_equal. f_equal. apply list_eq. intros i. symmetry.
    destruct (decide (i < Z.to_nat count)%nat).
    - rewrite unpack_lookup, lookup_replicate_2 by lia. f_equal. apply Z.mod_1_r.
    - rewrite !lookup_ge_None_2; rewrite ?length_unpack, ?length_replicate; auto; lia. }
  destruct (wide_part_spec p w count) as (g & -> & Hg & Hgc); [done|lia..|]. cbn.
  destruct (group_loop_spec p w count Hp ltac:(lia) (Z.to_nat count) g (g * w)) as (g' & -> & ? & ?);
    [lia..|]. cbn.
  assert (unpack w (Z.to_nat (8 * g)) p ++ unpack w (Z.to_nat (8 * (g' - g))) (ptr_add p (g * w)) =
          unpack w (Z.to_nat (8 * g')) p) as J.
  { rewrite unpack_ptr_app by (auto; nia). f_equal. lia. }
  case_bool.
  - rewrite packed_size_spec by nia. set (m := count - 8 * g') in *.
    set (tb := (m * w + 7) / 8). assert (8 * tb - 7 <= m * w <= 8 * tb) by (unfold tb; dlia).
    rewrite rd_n_Some by nia. cbn. fold (ptr_add p (g' * w)).
    assert (bytes_ok (ptr_add p (g' * w))) by auto with bytes.
    pose proof (length_ptr_add p (g' * w) ltac:(nia)) as Lp.
    destruct (unpack_padded (take (Z.to_nat tb) (ptr_add p (g' * w))) w (Z.to_nat m))
      as (temp & -> & T); [by auto with bytes|lia|lia|rewrite length_take; nia..|]. cbn.
    rewrite Z2Nat.id in T by lia. rewrite T. cbn. rewrite unpack_take by (auto; lia). rewrite app_assoc, J. f_equal. f_equal; [|unfold tb; dlia].
    rewrite unpack_ptr_app by (auto; nia). f_equal. lia.
  - rewrite J. f_equal. f_equal; [f_equal; lia|]. replace count with (8 * g') by lia. dlia.
Qed.

End UnpackSpec.

(** ** Packing writes the reference bytes *)

Lemma le_val_insert l k b b' : l !! k = Some b ->
  le_val (<[k := b']> l) = le_val l + (b' - b) * 2 ^ (8 * Z.of_nat k).
Proof.
  revert k. induction l as [|x l IH]; intros [|k]; cbn [lookup list_lookup]; [done..| |]; intros E.
  - simplify_eq. cbn. change (8 * Z.of_nat 0) with 0. lia.
  - change (<[S k := b']> (x :: l)) with (x :: <[k := b']> l). cbn [le_val].
    change (l !! k = Some b) in E. rewrite (IH k E), pow2_S. lia.
Qed.

(** A byte of a little-endian number, from the number. *)
Lemma le_val_lookup l k b : bytes_ok l -> l !! k = Some b ->
  b = (le_val l / 2 ^ (8 * Z.of_nat k)) mod 2 ^ 8.
Proof.
  intros Hl Hb. pose proof (unpack_val_8 l k b Hl Hb) as E. unfold unpack_val in E.
  by rewrite (Z.mul_comm (Z.of_nat k)) in E.
Qed.

(** Or-ing a byte above every bit written so far adds it. *)
Lemma or_byte_spec out k c j : bytes_ok out -> 0 <= k < lenZ out -> 0 <= j <= 8 ->
  le_val out < 2 ^ (8 * k + j) -> 0 <= c < 2 ^ (8 - j) ->
  exists out', or_byte out k (c ≪ j) = Some out' /\ bytes_ok out' /\ length out' = length out /\
    le_val out' = le_val out + c * 2 ^ (8 * k + j).
Proof.
  intros Hok Hk Hj Hlt Hc. destruct (rd_Some out k Hk) as [b Hb].
  unfold or_byte. rewrite Hb. cbn. rewrite wr_Some by lia. eexists. split; [done|].
  pose proof (rd_byte _ _ _ Hok Hb) as Hbr. rewrite rd_lookup in Hb by lia.
  pose proof (le_val_lookup _ _ _ Hok Hb) as Eb. rewrite Z2Nat.id in Eb by lia.
  pose proof (le_val_bound out Hok). pose proof (pow2_pos (8 * k)).
  rewrite Z.pow_add_r in Hlt by lia.
  assert (b < 2 ^ j).
  { assert (le_val out / 2 ^ (8 * k) < 2 ^ j) by (apply Z.div_lt_upper_bound; lia).
    pose proof (Z.div_pos (le_val out) (2 ^ (8 * k)) ltac:(lia) ltac:(lia)).
    pose proof (Z.pow_le_mono_r 2 j 8). rewrite Z.mod_small in Eb by lia. lia. }
  rewrite lor_add by lia. split_and!.
  - apply Forall_insert; [done|]. unfold in_u.
    assert (2 ^ 8 = 2 ^ (8 - j) * 2 ^ j) by (rewrite <- Z.pow_add_r by lia; f_equal; lia).
    pose proof (pow2_pos j). nia.
  - by rewrite length_insert.
  - rewrite (le_val_insert _ _ b) by done. rewrite Z2Nat.id, Z.pow_add_r by lia. lia.
Qed.

Lemma or_byte_0_spec out k c : bytes_ok out -> 0 <= k < lenZ out ->
  le_val out < 2 ^ (8 * k) -> 0 <= c < 2 ^ 8 ->
  exists out', or_byte out k c = Some out' /\ bytes_ok out' /\ length out' = length out /\
    le_val out' = le_val out + c * 2 ^ (8 * k).
Proof.
  intros. destruct (or_byte_spec out k c 0) as (out' & H'); auto; try lia.
  { by rewrite Z.add_0_r. }
  rewrite Z.shiftl_0_r, Z.add_0_r in H'. eauto.
Qed.

Lemma pack_bytes_spec w : 1 <= w <= 32 -> forall fuel out val bw k,
  bytes_ok out -> 1 <= bw -> w - bw <= 8 * Z.of_nat fuel ->
  0 <= k -> (bw < w -> k + (w - bw + 7) / 8 <= lenZ out) ->
  0 <= val -> val < 2 ^ Z.max 0 (w - bw) -> le_val out < 2 ^ (8 * k) ->
  exists out', pack_bytes fuel w out val bw k = Some out' /\ bytes_ok out' /\
    length out' = length out /\ le_val out' = le_val out + val * 2 ^ (8 * k).
Proof.
  intros Hw. induction fuel as [|fuel IH]; intros out val bw k Hok Hbw Hf Hk Hlen Hv0 Hv Hlt;
    cbn [pack_bytes].
  - case_bool; [lia|]. rewrite Z.max_l in Hv by lia. exists out. split_and!; auto. lia.
  - case_bool.
    2: { rewrite Z.max_l in Hv by lia. exists out. split_and!; auto. lia. }
    specialize (Hlen ltac:(lia)). assert (1 <= (w - bw + 7) / 8) by dlia.
    pose proof (u8_range val). pose proof (pow2_pos (8 * k)).
    destruct (or_byte_0_spec out k (u8 val)) as (out1 & -> & Hok1 & Hl1 & E1); auto; [lia|].
    cbn. rewrite Z.max_r in Hv by lia.
    destruct (IH out1 (val ≫ 8) (bw + 8) (k + 1)) as (out' & -> & Hok' & Hl' & E'); auto; try lia.
    + intros. rewrite Hl1. replace (w - (bw + 8) + 7) with (w - bw + 7 + (-1) * 8) by lia.
      rewrite Z.div_add by lia. lia.
    + rewrite shiftr_div by lia. apply Z.div_pos; lia.
    + rewrite shiftr_div by lia. apply Z.div_lt_upper_bound; [lia|].
      rewrite <- Z.pow_add_r by lia. pose proof (Z.pow_le_mono_r 2 (w - bw) (8 + Z.max 0 (w - (bw + 8)))).
      lia.
    + rewrite E1. replace (8 * (k + 1)) with (8 + 8 * k) by lia. rewrite Z.pow_add_r by lia. nia.
    + exists out'. split_and!; auto; [lia|]. rewrite E', E1.
      replace (8 * (k + 1)) with (8 * k + 8) by lia. rewrite Z.pow_add_r, shiftr_div by lia.
      unfold u8. pose proof (Z.div_mod val (2 ^ 8)). nia.
Qed.

Lemma low_piece val off : 0 <= off < 8 -> 0 <= val ->
  u8 (u32 (val ≪ off)) = (val mod 2 ^ (8 - off)) ≪ off.
Proof.
  intros Ho Hv. unfold u8, u32. rewrite mod_mod_pow2, !shiftl_mul by lia.
  replace (2 ^ 8) with (2 ^ (8 - off) * 2 ^ off) by (rewrite <- Z.pow_add_r by lia; f_equal; lia).
  pose proof (pow2_pos off). pose proof (pow2_pos (8 - off)).
  by rewrite Z.mul_mod_distr_r by lia.
Qed.

Lemma pack_one_spec w out v bp : 1 <= w <= 32 -> bytes_ok out -> 0 <= bp -> 0 <= v ->
  bp + w <= 8 * lenZ out -> le_val out < 2 ^ bp ->
  exists out', pack_values w out [v] bp = Some out' /\ bytes_ok out' /\
    length out' = length out /\ le_val out' = le_val out + (v mod 2 ^ w) * 2 ^ bp.
Proof.
  intros Hw Hok Hbp Hv Hlen Hlt. cbn [pack_values].
  assert (v .& u32 (u64 (1 ≪ w) - 1) = v mod 2 ^ w) as ->.
  { rewrite shiftl_mul, Z.mul_1_l by lia. pose proof (pow2_pos w).
    pose proof (Z.pow_le_mono_r 2 w 32). rewrite u64_small, u32_small, land_ones_mod by lia. done. }
  pose proof (pow2_pos w ltac:(lia)). pose proof (Z.mod_pos_bound v (2 ^ w) ltac:(lia)) as Hval.
  set (val := v mod 2 ^ w) in *. set (k := bp / 8). set (off := bp mod 8).
  assert (bp = 8 * k + off /\ 0 <= off < 8) as [Ebp Hoff] by (unfold k, off; dlia).
  rewrite low_piece by lia. pose proof (pow2_pos (8 - off) ltac:(lia)).
  pose proof (Z.mod_pos_bound val (2 ^ (8 - off)) ltac:(lia)) as Hc. rewrite Ebp in Hlt.
  destruct (or_byte_spec out k (val mod 2 ^ (8 - off)) off) as (out1 & -> & Hok1 & Hl1 & E1); auto; try lia.
  cbn [mbind option_bind]. rewrite <- Ebp in *. pose proof (pow2_pos bp Hbp).
  case_bool.
  - assert (2 ^ (8 * (k + 1)) = 2 ^ (8 - off) * 2 ^ bp) as Ep.
    { rewrite <- Z.pow_add_r by lia. f_equal. lia. }
    destruct (pack_bytes_spec w Hw 5 out1 (val ≫ (8 - off)) (8 - off) (k + 1))
      as (out' & -> & Hok' & Hl' & E'); auto; try lia.
    + intros. rewrite Hl1. dlia.
    + rewrite shiftr_div by lia. apply Z.div_pos; lia.
    + rewrite shiftr_div, Z.max_r by lia. apply Z.div_lt_upper_bound; [lia|].
      rewrite <- Z.pow_add_r by lia. replace (8 - off + (w - (8 - off))) with w by lia. lia.
    + rewrite E1, Ep. nia.
    + cbn. exists out'. split_and!; auto; [lia|]. rewrite E', E1, Ep, shiftr_div by lia.
      pose proof (Z.div_mod val (2 ^ (8 - off)) ltac:(lia)). nia.
  - cbn. exists out1. split_and!; auto. rewrite E1.
    pose proof (Z.pow_le_mono_r 2 w (8 - off)). rewrite (Z.mod_small val) by lia. done.
Qed.

Lemma pack_values_cons w out v vs bp :
  pack_values w out (v :: vs) bp =
  (out ← pack_values w out [v] bp; pack_values w out vs (bp + w)).
Proof.
  cbn [pack_values]. destruct (or_byte _ _ _) as [o|]; cbn; [|done].
  by destruct (if _ <? w then _ else _).
Qed.

Lemma pack_values_spec w : 1 <= w <= 32 -> forall vs out bp, bytes_ok out -> 0 <= bp ->
  Forall (λ v, 0 <= v) vs -> bp + w * lenZ vs <= 8 * lenZ out -> le_val out < 2 ^ bp ->
  exists out', pack_values w out vs bp = Some out' /\ bytes_ok out' /\
    length out' = length out /\ le_val out' = le_val out + pack_val w vs * 2 ^ bp.
Proof.
  intros Hw. induction vs as [|v vs IH]; intros out bp Hok Hbp Hvs Hlen Hlt.
  { exists out. split_and!; auto. cbn [pack_val]. lia. }
  apply Forall_cons_iff in Hvs as [Hv Hvs]. cbn [length] in Hlen.
  rewrite pack_values_cons.
  destruct (pack_one_spec w out v bp) as (out1 & -> & Hok1 & Hl1 & E1); auto; [lia|]. cbn.
  pose proof (Z.mod_pos_bound v (2 ^ w) (pow2_pos w ltac:(lia))).
  destruct (IH out1 (bp + w)) as (out' & -> & ? & ? & E'); auto; [lia|rewrite Hl1; lia| |].
  - rewrite E1, Z.pow_add_r by lia. pose proof (pow2_pos bp). nia.
  - exists out'. split_and!; auto; [lia|]. rewrite E', E1. cbn [pack_val].
    rewrite Z.pow_add_r by lia. lia.
Qed.

(** At width 8 a value is a byte. *)
Lemma pack_8 vs : pack 8 (length vs) vs = u8 <$> vs.
Proof.
  unfold pack. induction vs as [|v vs IH]; [done|]. cbn [length le_bytes pack_val fmap list_fmap].
  rewrite (Z.mul_comm (2 ^ 8)), Z.mod_add, Z.mod_mod, Z.div_add by lia.
  rewrite (Z.div_small (v mod 2 ^ 8)), Z.add_0_l by (apply Z.mod_pos_bound; lia). by rewrite IH.
Qed.

Lemma bitpack8_32_spec vs w : 0 <= w <= 32 -> Forall (in_u 32) vs -> (8 <= length vs)%nat ->
  carquet_bitpack8_32 vs w = Some (pack w (Z.to_nat w) (take 8 vs)).
Proof.
  intros Hw Hvs Hl. unfold carquet_bitpack8_32. destruct (Z.eqb_spec w 0) as [->|]; [done|].
  rewrite rd_n_Some by lia. red_nat. rewrite drop_0. cbn [mbind option_bind].
  assert (length (take 8 vs) = 8%nat) as L by (rewrite length_take; lia).
  destruct (Z.eqb_spec w 8) as [->|].
  - f_equal. symmetry. change (Z.to_nat 8) with 8%nat. pose proof (pack_8 (take 8 vs)) as E. by rewrite L in E.
  - destruct (pack_values_spec w ltac:(lia) (take 8 vs) (replicate (Z.to_nat w) 0) 0)
      as (out & -> & Hok & Hlen & E).
    + apply Forall_replicate. unfold in_u. lia.
    + lia.
    + apply Forall_take. eapply Forall_impl; [|exact Hvs]. intros ? [? ?]. lia.
    + rewrite length_replicate, L. lia.
    + rewrite le_val_replicate_0. done.
    + rewrite le_val_replicate_0, Z.mul_1_r, Z.add_0_l in E. rewrite length_replicate in Hlen.
      f_equal. unfold pack. rewrite <- E, <- Hlen. symmetry. by apply le_bytes_val.
Qed.

Lemma pack_app w k1 k2 vs1 vs2 : 0 <= w -> w * lenZ vs1 = 8 * Z.of_nat k1 ->
  pack w (k1 + k2) (vs1 ++ vs2) = pack w k1 vs1 ++ pack w k2 vs2.
Proof.
  intros Hw Hk. unfold pack. rewrite le_bytes_app, pack_val_app, Hk by done.
  pose proof (pack_val_range w vs1 Hw) as R. rewrite Hk in R.
  pose proof (pow2_pos (8 * Z.of_nat k1)). f_equal.
  - apply le_bytes_congr. by rewrite Z.mul_comm, Z.mod_add by lia.
  - f_equal. rewrite Z.mul_comm, Z.div_add, Z.div_small by lia. lia.
Qed.

Lemma length_pack w k vs : length (pack w k vs) = k.
Proof. apply length_le_bytes. Qed.

Lemma pack_ok w k vs : bytes_ok (pack w k vs).
Proof. apply le_bytes_ok. Qed.

Lemma pack_zeros w k vs n : 0 <= w -> pack w k (vs ++ replicate n 0) = pack w k vs.
Proof.
  intros. unfold pack. by rewrite pack_val_app, pack_val_replicate_0, Z.mul_0_r, Z.add_0_r.
Qed.

(** A shorter output is a prefix. *)
Lemma pack_take w k n vs : (k <= n)%nat -> take k (pack w n vs) = pack w k vs.
Proof.
  intros. unfold pack. replace n with (k + (n - k))%nat by lia.
  by rewrite le_bytes_app, take_app_length' by (by rewrite length_le_bytes).
Qed.

Lemma pack_group_loop_spec vs w count : Forall (in_u 32) vs -> 1 <= w <= 32 -> count <= lenZ vs ->
  forall fuel g, 0 <= g -> 8 * g <= count -> count - 8 * g <= Z.of_nat fuel ->
  exists g', pack_group_loop fuel vs count w (8 * g) (g * w) =
      Some (pack w (Z.to_nat ((g' - g) * w)) (take (Z.to_nat (8 * (g' - g))) (ptr_add vs (8 * g))),
            8 * g', g' * w) /\
    g <= g' /\ 8 * g' <= count < 8 * g' + 8.
Proof.
  intros Hvs Hw Hl. induction fuel as [|fuel IH]; intros g Hg Hgc Hf; cbn [pack_group_loop].
  - case_bool; [lia|]. exists g. rewrite Z.sub_diag. split; [done|lia].
  - case_bool; [|exists g; rewrite Z.sub_diag; split; [done|lia]].
    rewrite bitpack8_32_spec; [|lia|by apply Forall_drop|unfold ptr_add; rewrite length_drop; lia].
    cbn [mbind option_bind]. destruct (IH (g + 1)) as (g' & E & ? & ?); [lia..|].
    replace (8 * g + 8) with (8 * (g + 1)) by lia. replace (g * w + w) with ((g + 1) * w) by lia.
    rewrite E. cbn. exists g'. split; [|lia].
    replace (8 * (g + 1)) with (8 * g + 8) by lia. rewrite <- ptr_add_add by lia.
    set (q := ptr_add vs (8 * g)).
    assert (8 <= length q)%nat by (unfold q, ptr_add; rewrite length_drop; lia).
    rewrite <- (pack_app w) by (rewrite ?length_take; nia).
    replace (take (Z.to_nat (8 * (g' - g))) q)
      with (take 8 q ++ take (Z.to_nat (8 * (g' - (g + 1)))) (ptr_add q 8)).
    + do 4 f_equal. nia.
    + unfold ptr_add. red_nat. rewrite <- (take_drop 8 q) at 3.
      rewrite take_app_ge by (rewrite length_take; lia). f_equal. f_equal. rewrite length_take. lia.
Qed.

(** [carquet_bitpack_32] stores the reference bytes of the values, then the rest of
    the last group. *)
Lemma bitpack_32_spec vs w count : Forall (in_u 32) vs -> 0 <= w <= 32 -> 0 <= count < 2 ^ 58 ->
  count <= lenZ vs ->
  exists out, carquet_bitpack_32 vs count w = Some (out, (count * w + 7) / 8) /\ bytes_ok out /\
    lenZ out = (count + 7) / 8 * w /\
    take (Z.to_nat ((count * w + 7) / 8)) out =
      pack w (Z.to_nat ((count * w + 7) / 8)) (take (Z.to_nat count) vs).
Proof.
  intros Hvs Hw Hc Hl. unfold carquet_bitpack_32.
  destruct (Z.eqb_spec w 0) as [->|Hw0].
  { cbn [orb]. exists []. rewrite !Z.mul_0_r. split_and!; auto. }
  destruct (Z.eqb_spec count 0) as [->|Hc0]; [by exists []|]. cbn [orb].
  destruct (pack_group_loop_spec vs w count Hvs ltac:(lia) Hl (Z.to_nat count) 0) as (g & E & ? & ?);
    [lia..|].
  change (8 * 0) with 0 in E. change (0 * w) with 0 in E. rewrite E.
  cbn [mbind option_bind]. rewrite Z.sub_0_r. change (ptr_add vs 0) with vs.
  case_bool.
  - set (m := count - 8 * g) in *. rewrite rd_n_Some by lia. cbn [mbind option_bind].
    set (tail := take (Z.to_nat m) (drop (Z.to_nat (8 * g)) vs)).
    assert (length tail = Z.to_nat m) as Lt by (unfold tail; rewrite length_take, length_drop; lia).
    rewrite bitpack8_32_spec; [|lia| |rewrite length_app, length_replicate; lia].
    2: { apply Forall_app_2; [by apply Forall_take, Forall_drop|]. apply Forall_replicate. unfold in_u. lia. }
    cbn [mbind option_bind]. rewrite (take_ge (tail ++ _)) by (rewrite length_app, length_replicate; lia). rewrite pack_zeros by lia.
    rewrite <- pack_app by (rewrite ?length_take; nia).
    replace (take (Z.to_nat (8 * g)) vs ++ tail) with (take (Z.to_nat count) vs).
    2: { unfold tail. rewrite <- (take_drop (Z.to_nat (8 * g)) vs) at 1.
         rewrite take_app_ge by (rewrite length_take; lia). f_equal. f_equal. rewrite length_take. lia. }
    assert ((count * w + 7) / 8 = g * w + (m * w + 7) / 8) as D.
    { replace (count * w + 7) with (m * w + 7 + (g * w) * 8) by lia. rewrite Z.div_add by lia. lia. }
    assert ((m * w + 7) / 8 < w + 1) by (apply Z.div_lt_upper_bound; nia).
    assert (0 <= (m * w + 7) / 8) by (apply Z.div_pos; nia).
    eexists. rewrite packed_size_spec, D by nia. split; [done|].
    split; [apply pack_ok|]. rewrite length_pack. split; [|apply pack_take; nia].
    replace ((count + 7) / 8) with (g + 1) by dlia. nia.
  - assert (count = 8 * g) as -> by lia. replace ((8 * g * w + 7) / 8) with (g * w) by dlia.
    eexists. split; [done|]. split; [apply pack_ok|]. rewrite length_pack. split; [|by apply pack_take].
    replace ((8 * g + 7) / 8) with g by dlia. nia.
Qed.

(** ** Leading zeros and bit widths *)

Lemma clz_stage W s v n x thr : 0 < s -> 2 * s <= W -> x = v * 2 ^ n -> 0 <= n ->
  2 ^ (W - 2 * s) <= x < 2 ^ W -> thr = 2 ^ (W - s) - 1 ->
  forall n' x', (if x <=? thr then (n + s, (x ≪ s) mod 2 ^ W) else (n, x)) = (n', x') ->
  x' = v * 2 ^ n' /\ 0 <= n' /\ 2 ^ (W - s) <= x' < 2 ^ W.
Proof.
  intros Hs HW Hx Hn [Hlo Hhi] -> n' x'. pose proof (pow2_pos s).
  case_bool; intros [= <- <-]; [|split_and!; auto; lia].
  assert (2 ^ W = 2 ^ (W - s) * 2 ^ s) as EW by (rewrite <- Z.pow_add_r by lia; f_equal; lia).
  assert (2 ^ (W - s) = 2 ^ (W - 2 * s) * 2 ^ s) as Es by (rewrite <- Z.pow_add_r by lia; f_equal; lia).
  pose proof (pow2_pos (W - 2 * s) ltac:(lia)).
  rewrite shiftl_mul, Z.mod_small by nia. rewrite Z.pow_add_r by lia. split_and!; nia.
Qed.

Lemma clz_final W v n : 0 < v -> 0 <= n -> 0 <= W -> 2 ^ W <= v * 2 ^ n < 2 ^ (W + 1) -> n = W - Z.log2 v.
Proof.
  intros Hv Hn HW H. pose proof (Z.log2_shiftl v n Hv Hn) as E. rewrite shiftl_mul in E by lia.
  assert (Z.log2 (v * 2 ^ n) = W) as E' by (apply Z.log2_unique; rewrite <- ?Z.add_1_r; lia). lia.
Qed.

Lemma clz32_spec v : 0 < v < 2 ^ 32 -> carquet_clz32 v = 31 - Z.log2 v.
Proof.
  intros Hv. unfold carquet_clz32, u32. decide_bool.
  destruct (if v <=? 0x0000FFFF then _ else _) as [n1 x1] eqn:E1.
  apply (clz_stage 32 16 v 0 v) in E1 as (-> & ? & ?); [|change (2 ^ 0) with 1; change (2 ^ (32 - 2 * 16)) with 1; lia..].
  destruct (if _ <=? 0x00FFFFFF then _ else _) as [n2 x2] eqn:E2.
  apply (clz_stage 32 8 v) in E2 as (-> & ? & ?); [|done..].
  destruct (if _ <=? 0x0FFFFFFF then _ else _) as [n3 x3] eqn:E3.
  apply (clz_stage 32 4 v) in E3 as (-> & ? & ?); [|done..].
  destruct (if _ <=? 0x3FFFFFFF then _ else _) as [n4 x4] eqn:E4.
  apply (clz_stage 32 2 v) in E4 as (-> & ? & ?); [|done..].
  pose proof (pow2_pos n4). case_bool; apply clz_final; rewrite ?Z.pow_add_r; try lia.
Qed.

Lemma clz64_spec v : 0 < v < 2 ^ 64 -> carquet_clz64 v = 63 - Z.log2 v.
Proof.
  intros Hv. unfold carquet_clz64, u64. decide_bool.
  destruct (if v <=? 0x00000000FFFFFFFF then _ else _) as [n0 x0] eqn:E0.
  apply (clz_stage 64 32 v 0 v) in E0 as (-> & ? & ?); [|change (2 ^ 0) with 1; change (2 ^ (64 - 2 * 32)) with 1; lia..].
  destruct (if _ <=? 0x0000FFFFFFFFFFFF then _ else _) as [n1 x1] eqn:E1.
  apply (clz_stage 64 16 v) in E1 as (-> & ? & ?); [|done..].
  destruct (if _ <=? 0x00FFFFFFFFFFFFFF then _ else _) as [n2 x2] eqn:E2.
  apply (clz_stage 64 8 v) in E2 as (-> & ? & ?); [|done..].
  destruct (if _ <=? 0x0FFFFFFFFFFFFFFF then _ else _) as [n3 x3] eqn:E3.
  apply (clz_stage 64 4 v) in E3 as (-> & ? & ?); [|done..].
  destruct (if _ <=? 0x3FFFFFFFFFFFFFFF then _ else _) as [n4 x4] eqn:E4.
  apply (clz_stage 64 2 v) in E4 as (-> & ? & ?); [|done..].
  pose proof (pow2_pos n4). case_bool; apply clz_final; rewrite ?Z.pow_add_r; try lia.
Qed.

(** The least width that holds a value. *)
Lemma bit_width64_spec v : 0 <= v < 2 ^ 64 ->
  0 <= carquet_bit_width64 v <= 64 /\ v < 2 ^ carquet_bit_width64 v /\
  forall k, 0 <= k -> v < 2 ^ k -> carquet_bit_width64 v <= k.
Proof.
  intros Hv. unfold carquet_bit_width64. destruct (Z.eqb_spec v 0) as [->|].
  { split_and!; [lia..|done|]. intros. lia. }
  rewrite clz64_spec by lia. assert (0 <= Z.log2 v < 64) as Hl.
  { split; [apply Z.log2_nonneg|apply Z.log2_lt_pow2; lia]. }
  pose proof (Z.log2_spec v ltac:(lia)) as [_ Hs]. replace (64 - (63 - Z.log2 v)) with (Z.succ (Z.log2 v)) by lia.
  split_and!; [lia..|]. intros k Hk Hlt. apply Z.log2_lt_pow2 in Hlt; lia.
Qed.

Lemma bit_width32_spec v : 0 <= v < 2 ^ 32 ->
  0 <= carquet_bit_width32 v <= 32 /\ v < 2 ^ carquet_bit_width32 v /\
  forall k, 0 <= k -> v < 2 ^ k -> carquet_bit_width32 v <= k.
Proof.
  intros Hv. unfold carquet_bit_width32. destruct (Z.eqb_spec v 0) as [->|].
  { split_and!; [lia..|done|]. intros. lia. }
  rewrite clz32_spec by lia. assert (0 <= Z.log2 v < 32) as Hl.
  { split; [apply Z.log2_nonneg|apply Z.log2_lt_pow2; lia]. }
  pose proof (Z.log2_spec v ltac:(lia)) as [_ Hs]. replace (32 - (31 - Z.log2 v)) with (Z.succ (Z.log2 v)) by lia.
  split_and!; [lia..|]. intros k Hk Hlt. apply Z.log2_lt_pow2 in Hlt; lia.
Qed.

(** ** Legacy levels: most significant bit first *)

Definition be_val (l : list Z) : Z := le_val (reverse l).

Definition level_val (w : Z) (p : list Z) (i : Z) : Z :=
  (be_val p / 2 ^ (8 * lenZ p - (i + 1) * w)) mod 2 ^ w.

Lemma be_bit p bp b : bytes_ok p -> 0 <= bp -> rd p (bp ≫ 3) = Some b ->
  (b ≫ (7 - (bp .& 7))) .& 1 = (be_val p / 2 ^ (8 * lenZ p - bp - 1)) mod 2.
Proof.
  intros Hp Hbp Hb. pose proof (rd_bound _ _ _ Hb) as Hr.
  change 7 with (2 ^ 3 - 1) at 2; rewrite land_ones_mod by lia. rewrite shiftr_div in Hb, Hr by lia.
  set (j := bp / 2 ^ 3) in *. set (r := bp mod 2 ^ 3).
  assert (bp = 8 * j + r /\ 0 <= r < 8) as [Ebp ?] by (unfold j, r; dlia).
  rewrite rd_lookup in Hb by lia.
  assert (reverse p !! (length p - S (Z.to_nat j))%nat = Some b) as Hb'.
  { rewrite reverse_lookup by lia. rewrite <- Hb. f_equal. lia. }
  apply le_val_lookup in Hb'; [|by apply Forall_reverse]. fold (be_val p) in Hb'.
  rewrite land_1, shiftr_div by lia. rewrite Hb'.
  apply Z.bits_inj'. intros i Hi.
  match goal with |- Z.testbit (?a mod 2) _ = Z.testbit (?b mod 2) _ =>
    change (Z.testbit (a mod 2 ^ 1) i = Z.testbit (b mod 2 ^ 1) i) end.
  destruct (Z.lt_ge_cases i 1).
  - rewrite !Z.mod_pow2_bits_low, !Z.div_pow2_bits, Z.mod_pow2_bits_low, Z.div_pow2_bits by lia.
    f_equal. lia.
  - by rewrite !Z.mod_pow2_bits_high by lia.
Qed.

Lemma bitpacked_level_spec p w s n : bytes_ok p -> 0 <= s -> 0 <= w <= 16 ->
  forall k v, k + Z.of_nat n = w -> 0 <= k -> s + w <= 8 * lenZ p -> s + w < 2 ^ 64 ->
  v = (be_val p / 2 ^ (8 * lenZ p - s - k)) mod 2 ^ k ->
  bitpacked_level n p v (s + k) = Some ((be_val p / 2 ^ (8 * lenZ p - s - w)) mod 2 ^ w, s + w).
Proof.
  intros Hp Hs Hw. induction n as [|n IH]; intros k v Hk Hk0 Hl H64 Hv; cbn [bitpacked_level].
  { replace w with k by lia. by rewrite <- Hv. }
  destruct (rd_Some p ((s + k) ≫ 3)) as [b Hb].
  { rewrite shiftr_div by lia.
    split; [apply Z.div_pos; lia|apply Z.div_lt_upper_bound; lia]. }
  rewrite Hb. cbn [mbind option_bind]. rewrite u64_small by lia. rewrite (be_bit p (s + k) b) by (auto; lia).
  rewrite <- Z.add_assoc. apply IH; try lia.
  set (M := be_val p / 2 ^ (8 * lenZ p - (s + k) - 1)).
  replace (8 * lenZ p - s - (k + 1)) with (8 * lenZ p - (s + k) - 1) by lia. fold M.
  assert (v = (M / 2 ^ 1) mod 2 ^ k) as ->.
  { rewrite Hv. unfold M. pose proof (pow2_pos (8 * lenZ p - (s + k) - 1)).
    rewrite Z.div_div, <- Z.pow_add_r by lia. do 3 f_equal. lia. }
  change (2 ^ 1) with 2. pose proof (pow2_pos k Hk0). pose proof (Z.mod_pos_bound (M / 2) (2 ^ k) ltac:(lia)).
  pose proof (Z.mod_pos_bound M 2 ltac:(lia)). pose proof (Z.pow_le_mono_r 2 k 16).
  rewrite (shiftl_mul _ 1), u32_small by lia. rewrite Z.lor_comm, <- (shiftl_mul _ 1) by lia.
  rewrite lor_add by lia. rewrite Z.add_1_r, Z.pow_succ_r, Z.rem_mul_r by lia. lia.
Qed.

Lemma bitpacked_levels_spec p w : bytes_ok p -> 1 <= w <= 16 -> lenZ p < 2 ^ 60 ->
  forall n i, 0 <= i -> (i + Z.of_nat n) * w <= 8 * lenZ p ->
  bitpacked_levels n p w (i * w) = Some ((λ j, i16 (level_val w p (i + Z.of_nat j))) <$> seq 0 n).
Proof.
  intros Hp Hw H64. induction n as [|n IH]; intros i Hi Hl; [done|]. cbn [bitpacked_levels].
  pose proof (bitpacked_level_spec p w (i * w) (Z.to_nat w) Hp) as L. specialize (L ltac:(lia) ltac:(lia) 0 0).
  rewrite Z.add_0_r in L. rewrite L; [|nia..|by rewrite Z.mod_1_r]. cbn [mbind option_bind].
  replace (i * w + w) with ((i + 1) * w) by lia. rewrite IH by lia. cbn. f_equal. f_equal.
  - unfold level_val. do 4 f_equal. lia.
  - rewrite <- fmap_S_seq, <- list_fmap_compose. apply list_fmap_ext. intros ? k _. cbn. do 2 f_equal. lia.
Qed.

(** ** Properties *)

(** Unpacking is exact for every width.  For each width 0 to 32, every count and
    every input that holds the packed bits, [carquet_bitunpack_32] (wide kernels,
    groups of eight and the padded tail together) returns value [i] as bits
    [i*w .. i*w+w-1] of the little-endian input, consumes [ceil(count*w/8)] bytes, and
    never reads past them; whatever conforming kernels the dispatch table holds. *)
Theorem bitunpack_32_exact {K : UnpackKernels} {KOk : UnpackKernelsOk K} p w count :
  bytes_ok p -> 0 <= w <= 32 -> 0 <= count < 2 ^ 58 -> count * w <= 8 * lenZ p ->
  carquet_bitunpack_32 p count w =
    Some ((λ i, (le_val p / 2 ^ (Z.of_nat i * w)) mod 2 ^ w) <$> seq 0 (Z.to_nat count),
          (count * w + 7) / 8).
Proof. intros. by rewrite bitunpack_32_spec. Qed.

Lemma bitunpack_32_exact_witness :
  @carquet_bitunpack_32 scalar_kernels [0x88; 0xC6; 0xFA] 8 3 =
    Some ((λ i, (le_val [0x88; 0xC6; 0xFA] / 2 ^ (Z.of_nat i * 3)) mod 2 ^ 3) <$> seq 0 8, 3) /\
  @carquet_bitunpack_32 scalar_kernels [0x88; 0xC6; 0xFA] 8 3 = Some ([0; 1; 2; 3; 4; 5; 6; 7], 3).
Proof.
  split; [|reflexivity].
  apply (@bitunpack_32_exact scalar_kernels _ [0x88; 0xC6; 0xFA] 3 8); [|cbn; lia..].
  by apply (bool_decide_unpack _).
Defined.

(** Packing and unpacking are inverse.  Values that fit the width survive
    [carquet_bitpack_32] followed by [carquet_bitunpack_32], both sides count the same
    bytes, and bytes that follow in the stream do not matter. *)
Theorem bitpack_roundtrip {K : UnpackKernels} {KOk : UnpackKernelsOk K} vs w rest :
  1 <= w <= 32 -> Forall (in_u w) vs -> lenZ vs < 2 ^ 58 -> bytes_ok rest ->
  exists out n, carquet_bitpack_32 vs (lenZ vs) w = Some (out, n) /\
    n = (lenZ vs * w + 7) / 8 /\ n <= lenZ out /\
    carquet_bitunpack_32 (take (Z.to_nat n) out ++ rest) (lenZ vs) w = Some (vs, n).
Proof.
  intros Hw Hvs Hl Hr. assert (Forall (in_u 32) vs) as Hvs'.
  { eapply Forall_impl; [|exact Hvs]. intros v [? ?]. pose proof (Z.pow_le_mono_r 2 w 32).
    unfold in_u. lia. }
  destruct (bitpack_32_spec vs w (lenZ vs)) as (out & E & Hok & Hlen & Ht); auto; try lia.
  set (n := (lenZ vs * w + 7) / 8) in *.
  assert (8 * n - 7 <= lenZ vs * w <= 8 * n) by (unfold n; dlia).
  exists out, n. split; [done|]. split; [done|]. split.
  { rewrite Hlen. assert (lenZ vs <= 8 * ((lenZ vs + 7) / 8)) by dlia.
    apply Z.lt_succ_r, Z.div_lt_upper_bound; nia. }
  rewrite Ht, Nat2Z.id, firstn_all.
  rewrite bitunpack_32_spec; [|by apply Forall_app_2; [apply pack_ok|]|lia|lia|].
  2: { rewrite length_app, length_pack. lia. }
  f_equal. f_equal. rewrite Nat2Z.id, <- (unpack_take _ _ _ (Z.to_nat n)); [|by apply Forall_app_2; [apply pack_ok|]|lia|lia].
  rewrite take_app_length' by (by rewrite length_pack).
  rewrite unpack_pack, firstn_all by lia.
  transitivity (id <$> vs); [|apply list_fmap_id]. apply list_fmap_ext. intros i v Hv.
  apply Z.mod_small. exact (Forall_lookup_1 _ _ _ _ Hvs Hv).
Qed.

Lemma bitpack_roundtrip_witness :
  exists out n, carquet_bitpack_32 [5; 1000; 3] 3 10 = Some (out, n) /\
    n = (3 * 10 + 7) / 8 /\ n <= lenZ out /\
    @carquet_bitunpack_32 full_kernels (take (Z.to_nat n) out ++ [255]) 3 10 = Some ([5; 1000; 3], n).
Proof.
  apply (@bitpack_roundtrip full_kernels _ [5; 1000; 3] 10 [255]); [lia| |cbn; lia|];
    by apply (bool_decide_unpack _).
Defined.

(** The legacy level decoder is total and exact.  For a well-formed call it
    either decodes every level as the next [w] bits, most significant first, and
    reports [ceil(count*w/8)] bytes, or rejects the input because those bytes are not
    there; it never reads outside the input. *)
Theorem bitpacked_levels_exact p size w count :
  bytes_ok p -> 0 <= size <= lenZ p -> lenZ p < 2 ^ 60 -> 1 <= w <= 16 -> 0 <= count < 2 ^ 31 ->
  carquet_decode_bitpacked_levels (Some p) size w count =
    Some (if (count * w + 7) / 8 <=? size
          then Some ((λ i, i16 (level_val w p (Z.of_nat i))) <$> seq 0 (Z.to_nat count),
                     (count * w + 7) / 8)
          else None).
Proof.
  intros Hp Hs Hl Hw Hc. unfold carquet_decode_bitpacked_levels. decide_bool.
  rewrite (u64_small (count * w)), u64_small by nia.
  destruct (Z.leb_spec ((count * w + 7) / 8) size) as [Hle|Hle].
  - rewrite (proj2 (Z.ltb_ge size _)) by lia.
    pose proof (bitpacked_levels_spec p w Hp Hw Hl (Z.to_nat count) 0) as E. cbn [Z.mul] in E.
    rewrite Z.mul_0_l in E. rewrite E; [done|lia|]. rewrite Z2Nat.id by lia.
    assert (count * w <= 8 * ((count * w + 7) / 8)) by dlia. lia.
  - by rewrite (proj2 (Z.ltb_lt size _)) by lia.
Qed.

Lemma bitpacked_levels_exact_witness :
  carquet_decode_bitpacked_levels (Some [0x05; 0x39; 0x77]) 3 3 8 =
    Some (Some ((λ i, i16 (level_val 3 [0x05; 0x39; 0x77] (Z.of_nat i))) <$> seq 0 8, 3)) /\
  carquet_decode_bitpacked_levels (Some [0x05; 0x39; 0x77]) 3 3 8 = Some (Some ([0; 1; 2; 3; 4; 5; 6; 7], 3)).
Proof.
  split; [|reflexivity].
  apply (bitpacked_levels_exact [0x05; 0x39; 0x77] 3 3 8); [|cbn; lia..].
  by apply (bool_decide_unpack _).
Defined.
