(* ===== verification/Rle.v ===== *)
(** * RLE / bit-packing hybrid (carquet/encoding/rle.c, rle.h)

    Definition and repetition levels, dictionary indices and booleans are stored in
    this encoding.  This file is the program: the resumable decoder, the encoder and
    the one-shot level decoders.  [RleDecode], [RleLevels] and [RleEncode] prove it. *)

From S2P Require Import Prelude Status Endian Buffer Bitpack.

(** ** Decoder state *)

Record carquet_rle_decoder_t := mk_rle_decoder {
  dec_data : list Z;
  dec_size : Z;
  dec_pos : Z;
  dec_bit_width : Z;
  dec_value_mask : Z;
  dec_in_rle_run : bool;
  dec_run_remaining : Z;
  dec_rle_value : Z;
  dec_bitpack_buffer : list Z;
  dec_bitpack_pos : Z;
  dec_bitpack_count : Z;
  dec_status : carquet_status_t }.

(** Assignments to the fields. *)
Definition with_pos (d : carquet_rle_decoder_t) (pos : Z) : carquet_rle_decoder_t :=
  mk_rle_decoder (dec_data d) (dec_size d) pos (dec_bit_width d) (dec_value_mask d)
    (dec_in_rle_run d) (dec_run_remaining d) (dec_rle_value d) (dec_bitpack_buffer d)
    (dec_bitpack_pos d) (dec_bitpack_count d) (dec_status d).

Definition with_run (d : carquet_rle_decoder_t) (in_rle : bool) (remaining : Z) : carquet_rle_decoder_t :=
  mk_rle_decoder (dec_data d) (dec_size d) (dec_pos d) (dec_bit_width d) (dec_value_mask d)
    in_rle remaining (dec_rle_value d) (dec_bitpack_buffer d)
    (dec_bitpack_pos d) (dec_bitpack_count d) (dec_status d).

Definition with_remaining (d : carquet_rle_decoder_t) (remaining : Z) : carquet_rle_decoder_t :=
  with_run d (dec_in_rle_run d) remaining.

Definition with_value (d : carquet_rle_decoder_t) (pos value : Z) : carquet_rle_decoder_t :=
  mk_rle_decoder (dec_data d) (dec_size d) pos (dec_bit_width d) (dec_value_mask d)
    (dec_in_rle_run d) (dec_run_remaining d) value (dec_bitpack_buffer d)
    (dec_bitpack_pos d) (dec_bitpack_count d) (dec_status d).

Definition with_bitpack (d : carquet_rle_decoder_t) (buffer : list Z) (bpos count : Z) : carquet_rle_decoder_t :=
  mk_rle_decoder (dec_data d) (dec_size d) (dec_pos d) (dec_bit_width d) (dec_value_mask d)
    (dec_in_rle_run d) (dec_run_remaining d) (dec_rle_value d) buffer bpos count (dec_status d).

Definition with_status (d : carquet_rle_decoder_t) (s : carquet_status_t) : carquet_rle_decoder_t :=
  mk_rle_decoder (dec_data d) (dec_size d) (dec_pos d) (dec_bit_width d) (dec_value_mask d)
    (dec_in_rle_run d) (dec_run_remaining d) (dec_rle_value d) (dec_bitpack_buffer d)
    (dec_bitpack_pos d) (dec_bitpack_count d) s.

(** ** Internal helpers *)

(** The loop of [read_varint]: five iterations reach [shift = 35].  The inner [None]
    is the return value -1. *)
Fixpoint read_varint_loop (fuel : nat) (data : list Z) (size p shift result : Z)
    : option (option (Z * Z)) :=
  if (p <? size) && (shift <? 32) then
    match fuel with
    | O => None
    | S fuel =>
        byte ← rd data p;
        let result := result .| u32 ((byte .& 0x7F) ≪ shift) in
        if (byte .& 0x80) =? 0 then Some (Some (result, p + 1))
        else read_varint_loop fuel data size (p + 1) (shift + 7) result
    end
  else Some None.

Definition read_varint (data : list Z) (size pos : Z) : option (option (Z * Z)) :=
  read_varint_loop 5 data size pos 0 0.

(** [for (i = 0; i < value_bytes; i++) rle_value |= (uint32_t)data[pos++] << (i * 8)] *)
Fixpoint read_value_bytes (n : nat) (data : list Z) (pos i value : Z) : option Z :=
  match n with
  | O => Some value
  | S n =>
      b ← rd data pos;
      read_value_bytes n data (pos + 1) (i + 1) (value .| u32 (b ≪ (i * 8)))
  end.

(** Empty runs are skipped by recursion; each consumes at least one byte. *)
Fixpoint start_new_run_loop (fuel : nat) (dec : carquet_rle_decoder_t)
    : option (bool * carquet_rle_decoder_t) :=
  if dec_pos dec >=? dec_size dec then Some (false, dec) else
  match fuel with
  | O => None
  | S fuel =>
      r ← read_varint (dec_data dec) (dec_size dec) (dec_pos dec);
      match r with
      | None => Some (false, with_status dec CARQUET_ERROR_INVALID_RLE)
      | Some (header, pos) =>
          let dec := with_pos dec pos in
          if (header .& 1) =? 0 then
            let dec := with_run dec true (header ≫ 1) in
            if dec_run_remaining dec =? 0 then start_new_run_loop fuel dec else
            let value_bytes := (dec_bit_width dec + 7) / 8 in
            if dec_pos dec + value_bytes >? dec_size dec then
              Some (false, with_status dec CARQUET_ERROR_INVALID_RLE)
            else
              v ← read_value_bytes (Z.to_nat value_bytes) (dec_data dec) (dec_pos dec) 0 0;
              Some (true, with_value dec (dec_pos dec + value_bytes) (v .& dec_value_mask dec))
          else
            let num_groups := i32 (header ≫ 1) in
            let dec := with_run dec false (num_groups * 8) in
            if dec_run_remaining dec =? 0 then start_new_run_loop fuel dec
            else Some (true, with_bitpack dec (dec_bitpack_buffer dec) 0 0)
      end
  end.

Definition start_new_run (dec : carquet_rle_decoder_t) : option (bool * carquet_rle_decoder_t) :=
  start_new_run_loop (Z.to_nat (dec_size dec - dec_pos dec)) dec.

(** ** Decoder *)

Definition carquet_rle_decoder_init (data : list Z) (size bit_width : Z) : carquet_rle_decoder_t :=
  if (bit_width <? 0) || (bit_width >? 32) then
    mk_rle_decoder data size 0 0 0 false 0 0 (replicate 8 0) 0 0 CARQUET_ERROR_INVALID_RLE
  else
    mk_rle_decoder data size 0 bit_width
      (if bit_width >=? 32 then 2 ^ 32 - 1 else u32 (1 ≪ bit_width) - 1)
      false 0 0 (replicate 8 0) 0 0 CARQUET_OK.

Definition carquet_rle_decoder_has_next (dec : carquet_rle_decoder_t) : bool :=
  if negb (is_ok (dec_status dec)) then false
  else if dec_run_remaining dec >? 0 then true
  else dec_pos dec <? dec_size dec.

Definition carquet_rle_decoder_status (dec : carquet_rle_decoder_t) : carquet_status_t := dec_status dec.

Section Decoder.
Context {K : UnpackKernels}.

Definition fill_bitpack_buffer (dec : carquet_rle_decoder_t) : option (bool * carquet_rle_decoder_t) :=
  if dec_run_remaining dec <=? 0 then Some (false, dec) else
  let bytes_needed := dec_bit_width dec in
  if dec_pos dec + bytes_needed >? dec_size dec then
    Some (false, with_status dec CARQUET_ERROR_INVALID_RLE)
  else
    vs ← carquet_bitunpack8_32 (ptr_add (dec_data dec) (dec_pos dec)) (dec_bit_width dec);
    Some (true, with_bitpack (with_pos dec (dec_pos dec + bytes_needed)) vs 0 8).

Definition carquet_rle_decoder_get (dec : carquet_rle_decoder_t) : option (Z * carquet_rle_decoder_t) :=
  if negb (is_ok (dec_status dec)) then Some (0, dec) else
  '(started, dec) ← (if dec_run_remaining dec <=? 0 then start_new_run dec else Some (true, dec));
  if negb started then Some (0, dec) else
  if dec_in_rle_run dec then
    Some (dec_rle_value dec, with_remaining dec (dec_run_remaining dec - 1))
  else
    '(filled, dec) ← (if dec_bitpack_pos dec >=? dec_bitpack_count dec
                      then fill_bitpack_buffer dec else Some (true, dec));
    if negb filled then Some (0, dec) else
    v ← rd (dec_bitpack_buffer dec) (dec_bitpack_pos dec);
    let dec := with_remaining dec (dec_run_remaining dec - 1) in
    Some (v, with_bitpack dec (dec_bitpack_buffer dec) (dec_bitpack_pos dec + 1) (dec_bitpack_count dec)).

(** The three loops over a bit-packed run.  [count] is what is still wanted; each
    returns the values stored, in order. *)

(** Drain the staging buffer: at most eight values. *)
Fixpoint drain_staging (fuel : nat) (dec : carquet_rle_decoder_t) (count : Z)
    : option (list Z * carquet_rle_decoder_t) :=
  if (0 <? count) && (dec_bitpack_pos dec <? dec_bitpack_count dec) && (dec_run_remaining dec >? 0) then
    match fuel with
    | O => None
    | S fuel =>
        v ← rd (dec_bitpack_buffer dec) (dec_bitpack_pos dec);
        let dec := with_bitpack dec (dec_bitpack_buffer dec) (dec_bitpack_pos dec + 1) (dec_bitpack_count dec) in
        '(out, dec) ← drain_staging fuel (with_remaining dec (dec_run_remaining dec - 1)) (count - 1);
        Some (v :: out, dec)
    end
  else Some ([], dec).

(** Whole groups, unpacked in place. *)
Fixpoint whole_groups (fuel : nat) (unpack8 : option (list Z -> option (list Z)))
    (dec : carquet_rle_decoder_t) (count : Z) : option (list Z * carquet_rle_decoder_t) :=
  if (count >=? 8) && (dec_run_remaining dec >=? 8) then
    match fuel with
    | O => None
    | S fuel =>
        let bytes_needed := dec_bit_width dec in
        if dec_pos dec + bytes_needed >? dec_size dec then
          Some ([], with_status dec CARQUET_ERROR_INVALID_RLE)
        else
          vs ← match unpack8 with
               | Some f => f (ptr_add (dec_data dec) (dec_pos dec))
               | None => carquet_bitunpack8_32 (ptr_add (dec_data dec) (dec_pos dec)) (dec_bit_width dec)
               end;
          let dec := with_pos dec (dec_pos dec + bytes_needed) in
          '(out, dec) ← whole_groups fuel unpack8
                          (with_remaining dec (dec_run_remaining dec - 8)) (count - 8);
          Some (vs ++ out, dec)
    end
  else Some ([], dec).

(** The rest goes through the staging buffer. *)
Fixpoint partial_groups (fuel : nat) (dec : carquet_rle_decoder_t) (count : Z)
    : option (list Z * carquet_rle_decoder_t) :=
  if (0 <? count) && (dec_run_remaining dec >? 0) then
    match fuel with
    | O => None
    | S fuel =>
        '(filled, dec) ← (if dec_bitpack_pos dec >=? dec_bitpack_count dec
                          then fill_bitpack_buffer dec else Some (true, dec));
        if negb filled then Some ([], dec) else
        '(vs, dec) ← drain_staging 8 dec count;
        '(out, dec) ← partial_groups fuel dec (count - lenZ vs);
        Some (vs ++ out, dec)
    end
  else Some ([], dec).

(** The outer loop.  Every iteration that does not end the loop stores a value. *)
Fixpoint get_batch_loop (fuel : nat) (unpack8 : option (list Z -> option (list Z)))
    (dec : carquet_rle_decoder_t) (count : Z) : option (list Z * carquet_rle_decoder_t) :=
  if (0 <? count) && carquet_rle_decoder_has_next dec then
    match fuel with
    | O => None
    | S fuel =>
        '(started, dec) ← (if dec_run_remaining dec <=? 0 then start_new_run dec else Some (true, dec));
        if negb started then Some ([], dec) else
        if dec_in_rle_run dec then
          let to_fill := if count >? dec_run_remaining dec then dec_run_remaining dec else count in
          '(out, dec') ← get_batch_loop fuel unpack8
                          (with_remaining dec (dec_run_remaining dec - to_fill)) (count - to_fill);
          Some (replicate (Z.to_nat to_fill) (dec_rle_value dec) ++ out, dec')
        else
          '(o1, dec) ← drain_staging 8 dec count;
          let count := count - lenZ o1 in
          '(o2, dec) ← whole_groups (Z.to_nat count) unpack8 dec count;
          let count := count - lenZ o2 in
          '(o3, dec) ← partial_groups (Z.to_nat count) dec count;
          let count := count - lenZ o3 in
          '(out, dec) ← get_batch_loop fuel unpack8 dec count;
          Some (o1 ++ o2 ++ o3 ++ out, dec)
    end
  else Some ([], dec).

(** The values stored in [output]; their number is the return value. *)
Definition carquet_rle_decoder_get_batch (dec : carquet_rle_decoder_t) (count : Z)
    : option (list Z * carquet_rle_decoder_t) :=
  let unpack8 := if dec_bit_width dec >? 0
                 then carquet_dispatch_get_bitunpack8_fn (dec_bit_width dec) else None in
  get_batch_loop (S (Z.to_nat count)) unpack8 dec count.

(** The inner loop of [skip] over a bit-packed run: what is still to skip, and the
    number skipped. *)
Fixpoint skip_groups (fuel : nat) (dec : carquet_rle_decoder_t) (to_skip skipped : Z)
    : option (Z * carquet_rle_decoder_t) :=
  if (to_skip >? 0) && (dec_run_remaining dec >? 0) then
    match fuel with
    | O => None
    | S fuel =>
        '(filled, dec) ← (if dec_bitpack_pos dec >=? dec_bitpack_count dec
                          then fill_bitpack_buffer dec else Some (true, dec));
        if negb filled then Some (skipped, dec) else
        let can_skip := dec_bitpack_count dec - dec_bitpack_pos dec in
        let can_skip := if can_skip >? to_skip then to_skip else can_skip in
        let can_skip := if can_skip >? dec_run_remaining dec then dec_run_remaining dec else can_skip in
        let dec := with_bitpack dec (dec_bitpack_buffer dec) (dec_bitpack_pos dec + can_skip)
                     (dec_bitpack_count dec) in
        skip_groups fuel (with_remaining dec (dec_run_remaining dec - can_skip))
          (to_skip - can_skip) (skipped + can_skip)
    end
  else Some (skipped, dec).

Fixpoint skip_loop (fuel : nat) (dec : carquet_rle_decoder_t) (count skipped : Z)
    : option (Z * carquet_rle_decoder_t) :=
  if (skipped <? count) && carquet_rle_decoder_has_next dec then
    match fuel with
    | O => None
    | S fuel =>
        '(started, dec) ← (if dec_run_remaining dec <=? 0 then start_new_run dec else Some (true, dec));
        if negb started then Some (skipped, dec) else
        let to_skip := count - skipped in
        let to_skip := if to_skip >? dec_run_remaining dec then dec_run_remaining dec else to_skip in
        if dec_in_rle_run dec then
          skip_loop fuel (with_remaining dec (dec_run_remaining dec - to_skip)) count (skipped + to_skip)
        else
          '(skipped, dec) ← skip_groups (Z.to_nat to_skip) dec to_skip skipped;
          skip_loop fuel dec count skipped
    end
  else Some (skipped, dec).

Definition carquet_rle_decoder_skip (dec : carquet_rle_decoder_t) (count : Z)
    : option (Z * carquet_rle_decoder_t) :=
  skip_loop (S (Z.to_nat count)) dec count 0.

Definition carquet_rle_decode_all (input : list Z) (input_size bit_width max_values : Z) : option (list Z) :=
  '(out, _) ← carquet_rle_decoder_get_batch (carquet_rle_decoder_init input input_size bit_width) max_values;
  Some out.

End Decoder.

(** ** Encoder

    The encoder holds a pointer to the caller's buffer; the model holds the buffer.
    As in the code, the status of every append is discarded. *)

Record carquet_rle_encoder_t := mk_rle_encoder {
  enc_buffer : carquet_buffer_t;
  enc_bit_width : Z;
  enc_prev_value : Z;
  enc_repeat_count : Z;
  enc_has_prev : bool;
  enc_bitpack_buffer : list Z;
  enc_bitpack_count : Z;
  enc_bitpack_total : Z;
  enc_status : carquet_status_t }.

Definition with_buffer (e : carquet_rle_encoder_t) (b : carquet_buffer_t) : carquet_rle_encoder_t :=
  mk_rle_encoder b (enc_bit_width e) (enc_prev_value e) (enc_repeat_count e) (enc_has_prev e)
    (enc_bitpack_buffer e) (enc_bitpack_count e) (enc_bitpack_total e) (enc_status e).

Definition with_prev (e : carquet_rle_encoder_t) (value repeat : Z) : carquet_rle_encoder_t :=
  mk_rle_encoder (enc_buffer e) (enc_bit_width e) value repeat true
    (enc_bitpack_buffer e) (enc_bitpack_count e) (enc_bitpack_total e) (enc_status e).

Definition with_repeat (e : carquet_rle_encoder_t) (repeat : Z) : carquet_rle_encoder_t :=
  mk_rle_encoder (enc_buffer e) (enc_bit_width e) (enc_prev_value e) repeat (enc_has_prev e)
    (enc_bitpack_buffer e) (enc_bitpack_count e) (enc_bitpack_total e) (enc_status e).

Definition with_staged (e : carquet_rle_encoder_t) (staged : list Z) (count total : Z) : carquet_rle_encoder_t :=
  mk_rle_encoder (enc_buffer e) (enc_bit_width e) (enc_prev_value e) (enc_repeat_count e) (enc_has_prev e)
    staged count total (enc_status e).

(** The inline varint loops: five bytes hold 32 bits. *)
Fixpoint header_bytes (fuel : nat) (value : Z) : option (list Z) :=
  if value >=? 0x80 then
    match fuel with
    | O => None
    | S fuel =>
        rest ← header_bytes fuel (value ≫ 7);
        Some (u8 ((value .& 0x7F) .| 0x80) :: rest)
    end
  else Some [u8 value].

Definition rle_value_bytes (bit_width : Z) : Z := (bit_width + 7) / 8.

(** The first [value_bytes] bytes written; byte 0 is written even for a zero width,
    inside the local array, and not appended then. *)
Definition write_value_bytes (value value_bytes : Z) : list Z :=
  take (Z.to_nat value_bytes)
    ([u8 value] ++ (if value_bytes >? 1 then [u8 (value ≫ 8)] else []) ++
     (if value_bytes >? 2 then [u8 (value ≫ 16)] else []) ++
     (if value_bytes >? 3 then [u8 (value ≫ 24)] else [])).

Section Encoder.
Context {A : Allocator}.

Definition rle_append (enc : carquet_rle_encoder_t) (bs : list Z) : carquet_rle_encoder_t :=
  with_buffer enc (snd (carquet_buffer_append (enc_buffer enc) bs)).

(** [write_varint(enc->buffer, value)] *)
Definition write_varint (enc : carquet_rle_encoder_t) (value : Z) : option carquet_rle_encoder_t :=
  bytes ← header_bytes 4 value; Some (rle_append enc bytes).

Definition flush_rle (enc : carquet_rle_encoder_t) : option carquet_rle_encoder_t :=
  if enc_repeat_count enc =? 0 then Some enc else
  let vb := rle_value_bytes (enc_bit_width enc) in
  header ← header_bytes 4 (u32 (enc_repeat_count enc ≪ 1));
  let enc := rle_append enc (header ++ write_value_bytes (enc_prev_value enc) vb) in
  Some (with_repeat enc 0).

(** [while (i + run < count && buffer[i + run] == val) run++] *)
Fixpoint equal_run (fuel : nat) (buffer : list Z) (count val i run : Z) : option Z :=
  if i + run <? count then
    match fuel with
    | O => None
    | S fuel =>
        x ← rd buffer (i + run);
        if x =? val then equal_run fuel buffer count val i (run + 1) else Some run
    end
  else Some run.

Fixpoint flush_as_rle_loop (fuel : nat) (enc : carquet_rle_encoder_t) (i : Z) : option carquet_rle_encoder_t :=
  if i <? enc_bitpack_count enc then
    match fuel with
    | O => None
    | S fuel =>
        val ← rd (enc_bitpack_buffer enc) i;
        run ← equal_run 8 (enc_bitpack_buffer enc) (enc_bitpack_count enc) val i 1;
        header ← header_bytes 4 (u32 (run ≪ 1));
        let enc := rle_append enc (header ++ write_value_bytes val (rle_value_bytes (enc_bit_width enc))) in
        flush_as_rle_loop fuel enc (i + run)
    end
  else Some enc.

Definition flush_bitpack_as_rle (enc : carquet_rle_encoder_t) : option carquet_rle_encoder_t :=
  enc ← flush_as_rle_loop 8 enc 0;
  Some (with_staged enc (enc_bitpack_buffer enc) 0 0).

Fixpoint flush_groups (num_groups : nat) (enc : carquet_rle_encoder_t) : option carquet_rle_encoder_t :=
  match num_groups with
  | O => Some enc
  | S n =>
      packed ← carquet_bitpack8_32 (enc_bitpack_buffer enc) (enc_bit_width enc);
      flush_groups n (rle_append enc packed)
  end.

Definition flush_bitpack (enc : carquet_rle_encoder_t) : option carquet_rle_encoder_t :=
  if enc_bitpack_count enc =? 0 then Some enc else
  if enc_bitpack_count enc <? 8 then flush_bitpack_as_rle enc else
  let num_groups := (enc_bitpack_total enc + 7) / 8 in
  enc ← write_varint enc (u32 ((num_groups ≪ 1) .| 1));
  enc ← flush_groups (Z.to_nat num_groups) enc;
  Some (with_staged enc (enc_bitpack_buffer enc) 0 0).

Definition carquet_rle_encoder_init (buffer : carquet_buffer_t) (bit_width : Z) : carquet_rle_encoder_t :=
  mk_rle_encoder buffer bit_width 0 0 false (replicate 8 0) 0 0 CARQUET_OK.

(** Move [n] copies of the previous value to the staging buffer. *)
Fixpoint stage_repeats (n : nat) (enc : carquet_rle_encoder_t) : option carquet_rle_encoder_t :=
  match n with
  | O => Some enc
  | S n =>
      staged ← wr (enc_bitpack_buffer enc) (enc_bitpack_count enc) (enc_prev_value enc);
      let enc := with_staged enc staged (enc_bitpack_count enc + 1) (enc_bitpack_total enc + 1) in
      enc ← (if enc_bitpack_count enc =? 8 then flush_bitpack enc else Some enc);
      stage_repeats n enc
  end.

Definition carquet_rle_encoder_put (enc : carquet_rle_encoder_t) (value : Z)
    : option (carquet_status_t * carquet_rle_encoder_t) :=
  if negb (is_ok (enc_status enc)) then Some (enc_status enc, enc) else
  if negb (enc_has_prev enc) then Some (CARQUET_OK, with_prev enc value 1) else
  if value =? enc_prev_value enc then
    Some (CARQUET_OK, with_repeat enc (enc_repeat_count enc + 1))
  else
    enc ← (if enc_repeat_count enc >=? 8 then enc ← flush_bitpack enc; flush_rle enc
           else enc ← stage_repeats (Z.to_nat (enc_repeat_count enc)) enc;
                Some (with_repeat enc 0));
    Some (CARQUET_OK, with_prev enc value 1).

Definition carquet_rle_encoder_put_repeat (enc : carquet_rle_encoder_t) (value count : Z)
    : option (carquet_status_t * carquet_rle_encoder_t) :=
  if (count <=? 0) || negb (is_ok (enc_status enc)) then Some (enc_status enc, enc) else
  if enc_has_prev enc && (value =? enc_prev_value enc) then
    Some (CARQUET_OK, with_repeat enc (enc_repeat_count enc + count))
  else if enc_has_prev enc then
    '(status, enc) ← carquet_rle_encoder_put enc value;
    if negb (is_ok status) then Some (status, enc)
    else Some (CARQUET_OK, with_repeat enc (enc_repeat_count enc + (count - 1)))
  else Some (CARQUET_OK, with_prev enc value count).

Definition carquet_rle_encoder_flush (enc : carquet_rle_encoder_t)
    : option (carquet_status_t * carquet_rle_encoder_t) :=
  if negb (is_ok (enc_status enc)) then Some (enc_status enc, enc) else
  enc ← (if enc_repeat_count enc >=? 8 then enc ← flush_bitpack enc; flush_rle enc
         else if enc_repeat_count enc >? 0 then
           enc ← stage_repeats (Z.to_nat (enc_repeat_count enc)) enc;
           let enc := with_repeat enc 0 in
           if enc_bitpack_count enc >? 0 then flush_bitpack enc else Some enc
         else Some enc);
  Some (CARQUET_OK, enc).

Fixpoint encode_loop (enc : carquet_rle_encoder_t) (input : list Z)
    : option (carquet_status_t * carquet_rle_encoder_t) :=
  match input with
  | [] => carquet_rle_encoder_flush enc
  | v :: input =>
      '(status, enc) ← carquet_rle_encoder_put enc v;
      if negb (is_ok status) then Some (status, enc) else encode_loop enc input
  end.

(** The status and the caller's buffer. *)
Definition carquet_rle_encode_all (input : list Z) (bit_width : Z) (output : carquet_buffer_t)
    : option (carquet_status_t * carquet_buffer_t) :=
  '(status, enc) ← encode_loop (carquet_rle_encoder_init output bit_width) input;
  Some (status, enc_buffer enc).

Definition carquet_rle_encode_levels (input : list Z) (bit_width : Z) (output : carquet_buffer_t)
    : option (carquet_status_t * carquet_buffer_t) :=
  '(status, enc) ← encode_loop (carquet_rle_encoder_init output bit_width) (u32 <$> input);
  Some (status, enc_buffer enc).

End Encoder.

(** ** One-shot level decoders *)

(** The inline header loop: unlike [read_varint] it hands out what it has when the
    input ends or the varint is too long. *)
Fixpoint inline_header (fuel : nat) (input : list Z) (input_size pos shift header : Z) : option (Z * Z) :=
  if (pos <? input_size) && (shift <? 32) then
    match fuel with
    | O => None
    | S fuel =>
        byte ← rd input pos;
        let header := header .| u32 ((byte .& 0x7F) ≪ shift) in
        if (byte .& 0x80) =? 0 then Some (header, pos + 1)
        else inline_header fuel input input_size (pos + 1) (shift + 7) header
    end
  else Some (header, pos).

Section Levels.
Context {K : UnpackKernels}.

(** The chunked bulk decode of a whole bit-packed run. *)
Fixpoint levels_bulk (fuel : nat) (input : list Z) (bit_width run_length pos done : Z)
    : option (list Z * Z) :=
  if done <? run_length then
    match fuel with
    | O => None
    | S fuel =>
        let chunk := run_length - done in
        let chunk := if chunk >? 256 then 256 else chunk in
        '(tmp, used) ← carquet_bitunpack_32 (ptr_add input pos) chunk bit_width;
        '(out, pos) ← levels_bulk fuel input bit_width run_length (pos + used) (done + chunk);
        Some ((i16 <$> tmp) ++ out, pos)
    end
  else Some ([], pos).

(** The group-by-group fallback; [count] values are stored so far. *)
Fixpoint levels_groups (num_groups : nat) (input : list Z) (input_size bit_width max_values pos count : Z)
    : option (list Z * Z) :=
  match num_groups with
  | O => Some ([], pos)
  | S n =>
      if count <? max_values then
        if pos + bit_width >? input_size then Some ([], pos) else
        temp ← carquet_bitunpack8_32 (ptr_add input pos) bit_width;
        let to_store := if count + 8 >? max_values then max_values - count else 8 in
        vs ← rd_n temp 0 to_store;
        '(out, pos) ← levels_groups n input input_size bit_width max_values (pos + bit_width) (count + to_store);
        Some ((i16 <$> vs) ++ out, pos)
      else Some ([], pos)
  end.

(** Every iteration consumes at least one byte. *)
Fixpoint levels_loop (fuel : nat) (input : list Z) (input_size bit_width max_values pos count : Z)
    : option (list Z) :=
  if (count <? max_values) && (pos <? input_size) then
    match fuel with
    | O => None
    | S fuel =>
        '(header, pos) ← inline_header 5 input input_size pos 0 0;
        if (header .& 1) =? 0 then
          let run_length := header ≫ 1 in
          if run_length =? 0 then levels_loop fuel input input_size bit_width max_values pos count else
          let value_bytes := (bit_width + 7) / 8 in
          if pos + value_bytes >? input_size then Some [] else
          v ← read_value_bytes (Z.to_nat value_bytes) input pos 0 0;
          let value_mask := if bit_width >=? 32 then 2 ^ 32 - 1 else u32 (1 ≪ bit_width) - 1 in
          let val16 := i16 (v .& value_mask) in
          let to_fill := if count + run_length >? max_values then max_values - count else run_length in
          out ← levels_loop fuel input input_size bit_width max_values (pos + value_bytes) (count + to_fill);
          Some (replicate (Z.to_nat to_fill) val16 ++ out)
        else
          let num_groups := i32 (header ≫ 1) in
          let run_length := num_groups * 8 in
          if run_length =? 0 then levels_loop fuel input input_size bit_width max_values pos count else
          '(vs, pos) ←
            (if (bit_width >=? 1) && (num_groups <=? (input_size - pos) / bit_width) &&
                (count + run_length <=? max_values)
             then levels_bulk (Z.to_nat run_length) input bit_width run_length pos 0
             else levels_groups (Z.to_nat num_groups) input input_size bit_width max_values pos count);
          out ← levels_loop fuel input input_size bit_width max_values pos (count + lenZ vs);
          Some (vs ++ out)
    end
  else Some [].

(** The levels stored; their number is the return value. *)
Definition carquet_rle_decode_levels (input : list Z) (input_size bit_width max_values : Z) : option (list Z) :=
  if (max_values <=? 0) || (input_size =? 0) || (bit_width <? 0) || (bit_width >? 32) then Some []
  else levels_loop (Z.to_nat input_size) input input_size bit_width max_values 0 0.

(** The inner [None] is the return value -1; otherwise the levels and
    [*bytes_consumed].  The sum is computed in [uint32_t]. *)
Definition carquet_rle_decode_levels_prefixed (input : list Z) (input_size bit_width max_values : Z)
    : option (option (list Z * Z)) :=
  if input_size <? 4 then Some None else
  rle_length ← carquet_read_u32_le input;
  if u32 (4 + rle_length) >? input_size then Some None else
  out ← carquet_rle_decode_levels (ptr_add input 4) rle_length bit_width max_values;
  Some (Some (out, u32 (4 + rle_length))).

End Levels.

(** [bitmap[idx / 8] |= (uint8_t)(1 << (idx % 8))] *)
Definition set_bit (bitmap : list Z) (idx : Z) : option (list Z) :=
  b ← rd bitmap (idx / 8); wr bitmap (idx / 8) (b .| u8 (1 ≪ (idx mod 8))).

Fixpoint set_bits (n : nat) (bitmap : list Z) (idx : Z) : option (list Z) :=
  match n with
  | O => Some bitmap
  | S n => bitmap ← set_bit bitmap idx; set_bits n bitmap (idx + 1)
  end.

Fixpoint store_bits (n : nat) (bitmap : list Z) (packed_byte i count nn_count : Z) : option (list Z * Z) :=
  match n with
  | O => Some (bitmap, nn_count)
  | S n =>
      if ((packed_byte ≫ i) .& 1) =? 1 then
        bitmap ← set_bit bitmap (count + i);
        store_bits n bitmap packed_byte (i + 1) count (nn_count + 1)
      else store_bits n bitmap packed_byte (i + 1) count nn_count
  end.

Fixpoint bitmap_groups (num_groups : nat) (input : list Z) (input_size max_values : Z)
    (bitmap : list Z) (pos count nn_count : Z) : option (list Z * Z * Z * Z) :=
  match num_groups with
  | O => Some (bitmap, pos, count, nn_count)
  | S n =>
      if count <? max_values then
        if pos >=? input_size then Some (bitmap, pos, count, nn_count) else
        packed_byte ← rd input pos;
        let to_store := if count + 8 >? max_values then max_values - count else 8 in
        '(bitmap, nn_count) ← store_bits (Z.to_nat to_store) bitmap packed_byte 0 count nn_count;
        bitmap_groups n input input_size max_values bitmap (pos + 1) (count + to_store) nn_count
      else Some (bitmap, pos, count, nn_count)
  end.

Fixpoint bitmap_loop (fuel : nat) (input : list Z) (input_size max_values : Z)
    (bitmap : list Z) (pos count nn_count : Z) : option (list Z * Z * Z) :=
  if (count <? max_values) && (pos <? input_size) then
    match fuel with
    | O => None
    | S fuel =>
        '(header, pos) ← inline_header 5 input input_size pos 0 0;
        if (header .& 1) =? 0 then
          let run_length := header ≫ 1 in
          if run_length =? 0 then bitmap_loop fuel input input_size max_values bitmap pos count nn_count else
          if pos + 1 >? input_size then Some (bitmap, count, nn_count) else
          b ← rd input pos;
          let rle_value := b .& 1 in
          let to_fill := if count + run_length >? max_values then max_values - count else run_length in
          '(bitmap, nn_count) ←
            (if rle_value =? 1
             then bitmap ← set_bits (Z.to_nat to_fill) bitmap count; Some (bitmap, nn_count + to_fill)
             else Some (bitmap, nn_count));
          bitmap_loop fuel input input_size max_values bitmap (pos + 1) (count + to_fill) nn_count
        else
          let num_groups := i32 (header ≫ 1) in
          if num_groups =? 0 then bitmap_loop fuel input input_size max_values bitmap pos count nn_count else
          '(bitmap, pos, count, nn_count) ←
            bitmap_groups (Z.to_nat num_groups) input input_size max_values bitmap pos count nn_count;
          bitmap_loop fuel input input_size max_values bitmap pos count nn_count
    end
  else Some (bitmap, count, nn_count).

(** The cleared and filled bitmap, the return value and [*non_null_count]; on the
    early return the bitmap is left as it was. *)
Definition carquet_rle_decode_to_bitmap (input : list Z) (input_size : Z) (bitmap : list Z) (max_values : Z)
    : option (list Z * Z * Z) :=
  if (max_values <=? 0) || (input_size =? 0) then Some (bitmap, 0, 0) else
  let bitmap_bytes := u64 (max_values + 7) / 8 in
  rest ← rd_n bitmap bitmap_bytes (lenZ bitmap - bitmap_bytes);
  bitmap_loop (Z.to_nat input_size) input input_size max_values
    (replicate (Z.to_nat bitmap_bytes) 0 ++ rest) 0 0 0.
