(* ===== verification/RleDecode.v ===== *)
(** * The RLE hybrid decoder refines a reference reading of the stream

    [rle_values w p] is the meaning of the bytes [p]: the values of all runs in order,
    and whether the stream ends cleanly.  The decoder state denotes what is left of it
    ([remaining]); every operation takes a prefix, so batches compose, skipping is
    dropping, and no input makes the decoder read out of bounds. *)

From S2P Require Import Prelude Status Endian Buffer Bitpack Rle.

(** ** The reference reading *)

(** A base-128 number of at most [n] bytes, least significant first. *)
Fixpoint spec_varint (n : nat) (p : list Z) : option (Z * list Z) :=
  match n, p with
  | S n, b :: t =>
      if b <? 128 then Some (b, t)
      else '(v, rest) ← spec_varint n t; Some (b - 128 + 128 * v, rest)
  | _, _ => None
  end.

(** A run header is a 32-bit varint. *)
Definition rle_header (p : list Z) : option (Z * list Z) :=
  '(h, rest) ← spec_varint 5 p; Some (h mod 2 ^ 32, rest).

(** [G] groups of eight: the values present, and the bytes after the groups, if all
    are there. *)
Definition run_groups (w G : Z) (p : list Z) : list Z * option (list Z) :=
  if G * w <=? lenZ p then (unpack w (Z.to_nat (8 * G)) p, Some (ptr_add p (G * w)))
  else (unpack w (Z.to_nat (8 * (lenZ p / w))) p, None).

Definition prepend (l : list Z) (r : list Z * bool) : list Z * bool := (l ++ r.1, r.2).

Fixpoint hybrid (fuel : nat) (w : Z) (p : list Z) : list Z * bool :=
  match p with
  | [] => ([], true)
  | _ =>
      match fuel with
      | O => ([], false)
      | S fuel =>
          match rle_header p with
          | None => ([], false)
          | Some (h, rest) =>
              if h / 2 =? 0 then hybrid fuel w rest
              else if Z.even h then
                let vb := (w + 7) / 8 in
                if lenZ rest <? vb then ([], false)
                else prepend (replicate (Z.to_nat (h / 2)) (le_val (take (Z.to_nat vb) rest) mod 2 ^ w))
                       (hybrid fuel w (ptr_add rest vb))
              else match run_groups w (h / 2) rest with
                   | (vs, None) => (vs, false)
                   | (vs, Some rest) => prepend vs (hybrid fuel w rest)
                   end
          end
      end
  end.

Definition rle_values (w : Z) (p : list Z) : list Z * bool := hybrid (length p) w p.

(** Every denoted value fits the width. *)
Lemma rle_values_range w p : 0 <= w -> Forall (in_u w) (rle_values w p).1.
Proof.
  intros Hw. unfold rle_values. generalize (length p) as fuel. intros fuel. revert p.
  induction fuel as [|fuel IH]; intros [|b t]; cbn [hybrid]; try constructor.
  destruct (rle_header (b :: t)) as [[h rest]|]; [|constructor]. destruct (h / 2 =? 0); [apply IH|]. destruct (Z.even h).
  - cbv zeta. destruct (_ <? _); [constructor|]. cbn [prepend fst]. apply Forall_app_2; [|apply IH]. apply Forall_replicate, Z.mod_pos_bound, pow2_pos, Hw.
  - unfold run_groups. destruct (_ <=? _); [|by apply unpack_range]. cbn [prepend fst]. apply Forall_app_2; [by apply unpack_range|apply IH].
Qed.

(** ** Laws of the reference reading *)

Lemma spec_varint_length n p v rest : spec_varint n p = Some (v, rest) ->
  (length rest < length p)%nat.
Proof.
  revert p v rest. induction n as [|n IH]; intros [|b t] v rest; cbn; [done..|].
  case_bool; intros E; [simplify_eq; lia|].
  destruct (spec_varint n t) as [[v' rest']|] eqn:E'; cbn in E; [|done]. simplify_eq.
  apply IH in E'. lia.
Qed.

Lemma rle_header_length p h rest : rle_header p = Some (h, rest) -> (length rest < length p)%nat.
Proof.
  unfold rle_header. destruct (spec_varint 5 p) as [[v r]|] eqn:E; cbn; [|done].
  intros. simplify_eq. by apply spec_varint_length in E.
Qed.

Lemma spec_varint_suffix n p v rest : spec_varint n p = Some (v, rest) -> exists l, p = l ++ rest.
Proof.
  revert p v rest. induction n as [|n IH]; intros [|b t] v rest; cbn; [done..|].
  case_bool; intros E; [simplify_eq; by eexists [_]|].
  destruct (spec_varint n t) as [[v' rest']|] eqn:E'; cbn in E; [|done]. simplify_eq.
  apply IH in E' as [l ->]. by exists (b :: l).
Qed.

Lemma spec_varint_bound n p v rest : bytes_ok p -> spec_varint n p = Some (v, rest) -> 0 <= v.
Proof.
  intros Hp. revert p v rest Hp. induction n as [|n IH]; intros [|b t] v rest Hp; cbn; [done..|].
  apply Forall_cons_iff in Hp as [Hb Ht]. unfold in_u in Hb. case_bool; intros E; [simplify_eq; lia|].
  destruct (spec_varint n t) as [[v' rest']|] eqn:E'; cbn in E; [|done]. simplify_eq.
  apply IH in E'; auto. lia.
Qed.

Lemma rle_header_inv p h rest : bytes_ok p -> rle_header p = Some (h, rest) ->
  0 <= h < 2 ^ 32 /\ bytes_ok rest /\ exists l, p = l ++ rest.
Proof.
  intros Hp. unfold rle_header. destruct (spec_varint 5 p) as [[v r]|] eqn:E; cbn; [|done].
  intros. simplify_eq. pose proof (spec_varint_suffix _ _ _ _ E) as [l ->].
  apply Forall_app in Hp as [_ Hr]. split_and!; eauto; apply Z.mod_pos_bound; lia.
Qed.

Lemma run_groups_length w G p vs rest : 0 <= w -> 0 <= G -> run_groups w G p = (vs, Some rest) ->
  (length rest <= length p)%nat.
Proof.
  intros. unfold run_groups in *. case_bool_in H1; simplify_eq.
  unfold ptr_add. rewrite length_drop. lia.
Qed.

(** Enough fuel: one unit per byte. *)
Lemma hybrid_fuel w : 0 <= w -> forall f1 f2 p, (length p <= f1)%nat -> (length p <= f2)%nat ->
  hybrid f1 w p = hybrid f2 w p.
Proof.
  intros Hw. induction f1 as [|f1 IH]; intros f2 p H1 H2.
  { destruct p; [by destruct f2|cbn in H1; lia]. }
  destruct p as [|b t]; [by destruct f2|]. destruct f2 as [|f2]; [cbn in H2; lia|].
  cbn [hybrid]. set (p := b :: t) in *.
  destruct (rle_header p) as [[h rest]|] eqn:Eh; [|done]. apply rle_header_length in Eh.
  destruct (h / 2 =? 0); [apply IH; lia|]. destruct (Z.even h).
  - case_bool; [done|]. f_equal. unfold ptr_add. apply IH; rewrite length_drop; lia.
  - destruct (run_groups w (h / 2) rest) as [vs [rest'|]] eqn:Er; [|done].
    assert (length rest' <= length rest)%nat.
    { unfold run_groups in Er. case_bool_in Er; simplify_eq. unfold ptr_add. rewrite length_drop. lia. }
    f_equal. apply IH; lia.
Qed.

Lemma rle_values_nil w : rle_values w [] = ([], true).
Proof. done. Qed.

(** One run at a time. *)
Lemma rle_values_step w p : 0 <= w -> p <> [] ->
  rle_values w p =
    match rle_header p with
    | None => ([], false)
    | Some (h, rest) =>
        if h / 2 =? 0 then rle_values w rest
        else if Z.even h then
          let vb := (w + 7) / 8 in
          if lenZ rest <? vb then ([], false)
          else prepend (replicate (Z.to_nat (h / 2)) (le_val (take (Z.to_nat vb) rest) mod 2 ^ w))
                 (rle_values w (ptr_add rest vb))
        else match run_groups w (h / 2) rest with
             | (vs, None) => (vs, false)
             | (vs, Some rest) => prepend vs (rle_values w rest)
             end
    end.
Proof.
  intros Hw Hp. destruct p as [|b t]; [done|]. unfold rle_values at 1. cbn [length hybrid].
  destruct (rle_header (b :: t)) as [[h rest]|] eqn:Eh; [|done]. apply rle_header_length in Eh.
  cbn [length] in Eh.
  destruct (h / 2 =? 0); [apply hybrid_fuel; lia|]. destruct (Z.even h).
  - cbv zeta. case_bool; [done|]. f_equal. unfold ptr_add. apply hybrid_fuel; rewrite ?length_drop; lia.
  - destruct (run_groups w (h / 2) rest) as [vs [rest'|]] eqn:Er; [|done].
    assert (length rest' <= length rest)%nat.
    { unfold run_groups in Er. case_bool_in Er; simplify_eq. unfold ptr_add. rewrite length_drop. lia. }
    f_equal. apply hybrid_fuel; lia.
Qed.

Lemma run_groups_0 w p : run_groups w 0 p = ([], Some p).
Proof. unfold run_groups. rewrite Z.mul_0_l. by decide_bool. Qed.

(** Peeling one group off a bit-packed run. *)
Lemma run_groups_S w G p : bytes_ok p -> 0 <= w -> 0 <= G -> w <= lenZ p ->
  run_groups w (G + 1) p =
    let '(vs, r) := run_groups w G (ptr_add p w) in (unpack w 8 p ++ vs, r).
Proof.
  intros Hp Hw HG Hl. unfold run_groups. rewrite length_ptr_add by lia. repeat case_bool; try lia.
  - f_equal.
    + rewrite unpack_ptr_app by (auto; lia). f_equal. lia.
    + f_equal. rewrite ptr_add_add by nia. f_equal. lia.
  - f_equal. assert (w <> 0) by nia. rewrite unpack_ptr_app by (auto; lia). f_equal.
    replace (lenZ p) with (lenZ p - w + 1 * w) at 1 by lia. rewrite Z.div_add by lia.
    assert (0 <= (lenZ p - w) / w) by (apply Z.div_pos; lia). lia.
Qed.

Lemma run_groups_short w G p : 0 <= w -> 1 <= G -> lenZ p < w -> run_groups w G p = ([], None).
Proof.
  intros. unfold run_groups. case_bool; [nia|]. rewrite Z.div_small by lia. done.
Qed.

(** ** The bytes a cursor still sees *)

Definition window (data : list Z) (size pos : Z) : list Z := ptr_add (take (Z.to_nat size) data) pos.

Lemma window_length data size pos : 0 <= pos <= size -> size <= lenZ data ->
  lenZ (window data size pos) = size - pos.
Proof. intros. unfold window. rewrite length_ptr_add; rewrite length_take; lia. Qed.

Lemma window_bytes data size pos : bytes_ok data -> bytes_ok (window data size pos).
Proof. intros. unfold window. auto with bytes. Qed.

Lemma window_add data size pos n : 0 <= pos -> 0 <= n ->
  ptr_add (window data size pos) n = window data size (pos + n).
Proof. intros. unfold window. by apply ptr_add_add. Qed.

Lemma window_cons data size pos : 0 <= pos < size -> size <= lenZ data ->
  exists b, rd data pos = Some b /\ window data size pos = b :: window data size (pos + 1).
Proof.
  intros. destruct (rd_Some data pos) as [b Hb]; [lia|]. exists b. split; [done|].
  rewrite rd_lookup in Hb by lia. unfold window, ptr_add.
  replace (Z.to_nat (pos + 1)) with (S (Z.to_nat pos)) by lia. apply drop_S.
  by rewrite lookup_take_lt by lia.
Qed.

Lemma window_end data size pos : size <= pos -> 0 <= size -> window data size pos = [].
Proof.
  intros. unfold window, ptr_add. apply drop_ge. rewrite length_take. lia.
Qed.

(** Reads inside the window are reads of the data. *)
Lemma window_take data size pos n : 0 <= pos -> 0 <= n -> pos + n <= size ->
  take (Z.to_nat n) (ptr_add data pos) = take (Z.to_nat n) (window data size pos).
Proof.
  intros. unfold window, ptr_add. rewrite skipn_firstn_comm, take_take. f_equal. lia.
Qed.

Lemma window_suffix data size pos l rest : 0 <= pos <= size -> size <= lenZ data ->
  window data size pos = l ++ rest -> rest = window data size (size - lenZ rest).
Proof.
  intros Hp Hs E. pose proof (window_length data size pos Hp Hs) as L.
  rewrite E, length_app in L.
  replace (size - lenZ rest) with (pos + lenZ l) by lia. rewrite <- window_add by lia.
  rewrite E. by rewrite ptr_add_app.
Qed.

(** ** Headers *)

Lemma header_piece b shift : 0 <= b < 2 ^ 7 -> 0 <= shift <= 32 ->
  u32 (b ≪ shift) = (b mod 2 ^ (32 - shift)) ≪ shift.
Proof.
  intros. unfold u32. rewrite !shiftl_mul by lia.
  replace (2 ^ 32) with (2 ^ (32 - shift) * 2 ^ shift) by (rewrite <- Z.pow_add_r by lia; f_equal; lia).
  pose proof (pow2_pos shift). pose proof (pow2_pos (32 - shift)). by rewrite Z.mul_mod_distr_r by lia.
Qed.

(** What the loop has accumulated, plus what is still to read. *)
Lemma header_step result shift b v : 0 <= shift <= 28 -> 0 <= result < 2 ^ shift -> 0 <= b < 2 ^ 7 ->
  let r := result .| u32 (b ≪ shift) in
  r = (result + 2 ^ shift * b) mod 2 ^ 32 /\
  (r + 2 ^ (shift + 7) * v) mod 2 ^ 32 = (result + 2 ^ shift * (b + 128 * v)) mod 2 ^ 32.
Proof.
  intros Hs Hr Hb r. pose proof (pow2_pos shift). pose proof (pow2_pos (32 - shift)).
  assert (2 ^ 32 = 2 ^ shift * 2 ^ (32 - shift)) as E32.
  { rewrite <- Z.pow_add_r by lia. f_equal. lia. }
  assert (r = (result + 2 ^ shift * b) mod 2 ^ 32) as Er.
  { unfold r. rewrite header_piece, lor_add by lia.
    apply Z.mod_unique with (b / 2 ^ (32 - shift)).
    - left. pose proof (Z.mod_pos_bound b (2 ^ (32 - shift)) ltac:(lia)). nia.
    - rewrite E32. pose proof (Z.div_mod b (2 ^ (32 - shift)) ltac:(lia)). nia. }
  split; [done|]. rewrite Er, Zplus_mod_idemp_l. f_equal. rewrite Z.pow_add_r by lia. lia.
Qed.

Lemma read_varint_loop_spec data size : bytes_ok data -> 0 <= size <= lenZ data ->
  forall n pos shift result, shift = 35 - 7 * Z.of_nat n -> (n <= 5)%nat ->
  0 <= result < 2 ^ shift -> result < 2 ^ 32 -> 0 <= pos <= size ->
  read_varint_loop n data size pos shift result =
    Some ('(h, rest) ← spec_varint n (window data size pos);
          Some ((result + 2 ^ shift * h) mod 2 ^ 32, size - lenZ rest)).
Proof.
  intros Hd Hs. induction n as [|n IH]; intros pos shift result Es Hn Hr Hr32 Hp; cbn [read_varint_loop].
  { decide_bool. by rewrite andb_false_r. }
  destruct (decide (pos = size)) as [->|].
  { decide_bool. rewrite window_end by lia. done. }
  decide_bool. destruct (window_cons data size pos) as (b & Hb & ->); [lia..|]. rewrite Hb.
  cbn [mbind option_bind spec_varint]. pose proof (rd_byte _ _ _ Hd Hb) as Hbr.
  rewrite byte_land_80, byte_land_7F by done.
  destruct (header_step result shift (b mod 2 ^ 7) 0) as [E1 _]; [lia|lia|apply Z.mod_pos_bound; lia|].
  cbv zeta in E1. destruct (Z.ltb_spec b (2 ^ 7)) as [Hlt|Hge].
  - change (b <? 128) with (b <? 2 ^ 7). decide_bool. cbn. rewrite E1, Z.mod_small with (a := b) by lia.
    do 2 f_equal. f_equal. rewrite window_length by lia. lia.
  - change (b <? 128) with (b <? 2 ^ 7). decide_bool.
    assert (b mod 2 ^ 7 = b - 128) as Eb by dlia.
    destruct n as [|n'].
    { cbn. decide_bool. by rewrite andb_false_r. }
    assert (0 <= result .| u32 ((b mod 2 ^ 7) ≪ shift) < 2 ^ (shift + 7)) as Hr'.
    { pose proof (Z.pow_le_mono_r 2 7 (32 - shift)). rewrite Eb, header_piece by lia.
      rewrite (Z.mod_small (b - 128)) by lia. rewrite lor_add, Z.pow_add_r by lia. nia. }
    rewrite IH; [|lia|lia|done| |lia].
    2: { rewrite E1. apply Z.mod_pos_bound. lia. }
    destruct (spec_varint (S n') _) as [[v rest]|] eqn:Ev; cbn [mbind option_bind]; [|done].
    destruct (header_step result shift (b mod 2 ^ 7) v) as [_ E2];
      [lia|lia|apply Z.mod_pos_bound; lia|]. cbv zeta in E2. by rewrite E2, Eb.
Qed.

Lemma read_varint_spec data size pos : bytes_ok data -> 0 <= size <= lenZ data -> 0 <= pos <= size ->
  read_varint data size pos =
    Some ('(h, rest) ← rle_header (window data size pos); Some (h, size - lenZ rest)).
Proof.
  intros. unfold read_varint, rle_header. rewrite read_varint_loop_spec by (auto; lia).
  destruct (spec_varint 5 _) as [[h rest]|]; cbn; [|done]. change (2 ^ 0) with 1. by rewrite Z.mul_1_l, Z.add_0_l.
Qed.

(** The repeated value. *)
Lemma read_value_bytes_spec data : bytes_ok data -> forall n pos i value,
  0 <= pos -> pos + Z.of_nat n <= lenZ data -> 0 <= i -> i + Z.of_nat n <= 4 -> 0 <= value < 2 ^ (8 * i) ->
  read_value_bytes n data pos i value =
    Some (value + 2 ^ (8 * i) * le_val (take n (ptr_add data pos))).
Proof.
  intros Hd. induction n as [|n IH]; intros pos i value Hp Hl Hi Hi4 Hv; cbn [read_value_bytes].
  { rewrite take_0. cbn. f_equal. lia. }
  destruct (rd_Some data pos) as [b Hb]; [lia|]. rewrite Hb. cbn [mbind option_bind].
  pose proof (rd_byte _ _ _ Hd Hb). rewrite rd_lookup in Hb by lia.
  replace (i * 8) with (8 * i) by lia. pose proof (pow2_pos (8 * i) ltac:(lia)).
  assert (b * 2 ^ (8 * i) < 2 ^ 32).
  { pose proof (Z.pow_le_mono_r 2 (8 * i) 24). nia. }
  rewrite u32_small by (rewrite shiftl_mul by lia; nia). rewrite lor_add by lia.
  assert (2 ^ (8 * (i + 1)) = 2 ^ (8 * i) * 2 ^ 8) as E by (rewrite <- Z.pow_add_r by lia; f_equal; lia).
  rewrite IH; [|lia..|rewrite E; nia]. unfold ptr_add. rewrite (drop_S _ _ _ Hb). cbn [take le_val].
  replace (Z.to_nat (pos + 1)) with (S (Z.to_nat pos)) by lia. rewrite E. f_equal. lia.
Qed.

(** ** The decoder invariant and what a state denotes *)

Record dec_wf (d : carquet_rle_decoder_t) : Prop := {
  wf_bytes : bytes_ok (dec_data d);
  wf_size : dec_size d <= lenZ (dec_data d);
  wf_pos : 0 <= dec_pos d <= dec_size d;
  wf_width : 0 <= dec_bit_width d <= 32;
  wf_mask : dec_value_mask d = 2 ^ dec_bit_width d - 1;
  wf_value : in_u (dec_bit_width d) (dec_rle_value d);
  wf_buffer : length (dec_bitpack_buffer d) = 8%nat;
  wf_staged : Forall (in_u (dec_bit_width d)) (dec_bitpack_buffer d);
  wf_cursor : 0 <= dec_bitpack_pos d <= dec_bitpack_count d /\ dec_bitpack_count d <= 8;
  wf_run : if dec_in_rle_run d
           then dec_bitpack_pos d = dec_bitpack_count d /\ 0 <= dec_run_remaining d
           else exists G, 0 <= G /\
             dec_run_remaining d = 8 * G + (dec_bitpack_count d - dec_bitpack_pos d) }.

Definition dec_window (d : carquet_rle_decoder_t) : list Z :=
  window (dec_data d) (dec_size d) (dec_pos d).

Definition staged (d : carquet_rle_decoder_t) : list Z :=
  take (Z.to_nat (dec_bitpack_count d - dec_bitpack_pos d)) (ptr_add (dec_bitpack_buffer d) (dec_bitpack_pos d)).

(** The values left in the current run and after it. *)
Definition remaining (d : carquet_rle_decoder_t) : list Z * bool :=
  if negb (is_ok (dec_status d)) then ([], false) else
  let w := dec_bit_width d in
  if dec_in_rle_run d then
    prepend (replicate (Z.to_nat (dec_run_remaining d)) (dec_rle_value d)) (rle_values w (dec_window d))
  else
    match run_groups w ((dec_run_remaining d - lenZ (staged d)) / 8) (dec_window d) with
    | (vs, None) => (staged d ++ vs, false)
    | (vs, Some rest) => prepend (staged d ++ vs) (rle_values w rest)
    end.

Lemma prepend_app l1 l2 r : prepend (l1 ++ l2) r = prepend l1 (prepend l2 r).
Proof. unfold prepend. cbn. by rewrite app_assoc. Qed.

Lemma prepend_nil r : prepend [] r = r.
Proof. by destruct r. Qed.

Lemma length_staged d : dec_wf d -> lenZ (staged d) = dec_bitpack_count d - dec_bitpack_pos d.
Proof.
  intros [? ? ? ? ? ? Hb ? [? ?] ?]. unfold staged, ptr_add. rewrite length_take, length_drop, Hb. lia.
Qed.

Lemma staged_nil d : dec_bitpack_count d <= dec_bitpack_pos d -> staged d = [].
Proof. intros. unfold staged. replace (Z.to_nat _) with 0%nat by lia. apply take_0. Qed.

Lemma remaining_error d : dec_status d <> CARQUET_OK -> remaining d = ([], false).
Proof. intros. unfold remaining. destruct (is_ok (dec_status d)) eqn:E; [|done]. by apply is_ok_true in E. Qed.

Lemma remaining_ok d : dec_status d = CARQUET_OK ->
  remaining d =
  if dec_in_rle_run d then
    prepend (replicate (Z.to_nat (dec_run_remaining d)) (dec_rle_value d))
      (rle_values (dec_bit_width d) (dec_window d))
  else
    match run_groups (dec_bit_width d) ((dec_run_remaining d - lenZ (staged d)) / 8) (dec_window d) with
    | (vs, None) => (staged d ++ vs, false)
    | (vs, Some rest) => prepend (staged d ++ vs) (rle_values (dec_bit_width d) rest)
    end.
Proof. intros E. unfold remaining. by rewrite E. Qed.

(** Between runs the state denotes the rest of the stream. *)
Lemma remaining_idle d : dec_wf d -> dec_status d = CARQUET_OK -> dec_run_remaining d <= 0 ->
  remaining d = rle_values (dec_bit_width d) (dec_window d).
Proof.
  intros W Hok Hr. rewrite remaining_ok by done. pose proof (wf_run _ W) as HR.
  destruct (dec_in_rle_run d).
  - replace (Z.to_nat (dec_run_remaining d)) with 0%nat by lia. apply prepend_nil.
  - destruct HR as (G & HG & HR). pose proof (wf_cursor _ W).
    rewrite staged_nil by lia. cbn [length]. replace (_ / 8) with 0 by dlia.
    rewrite run_groups_0. apply prepend_nil.
Qed.

Lemma init_dec_wf data size w : bytes_ok data -> 0 <= size <= lenZ data ->
  dec_wf (carquet_rle_decoder_init data size w).
Proof.
  intros Hd Hs. unfold carquet_rle_decoder_init.
  assert (forall w', 0 <= w' -> in_u w' 0) as Z0 by (intros; unfold in_u; pose proof (pow2_pos w'); lia).
  destruct (Z.ltb_spec w 0); cbn [orb].
  { split; cbn; auto; try lia; [by apply Z0|apply (Forall_replicate _ 8), Z0; lia|]. exists 0. lia. }
  rewrite Z.gtb_ltb. case_bool.
  { split; cbn; auto; try lia; [by apply Z0|apply (Forall_replicate _ 8), Z0; lia|]. exists 0. lia. }
  split; cbn; auto; try lia; [|by apply (Forall_replicate _ 8), Z0|exists 0; lia].
  rewrite Z.geb_leb. case_bool; [by replace w with 32 by lia|].
  rewrite shiftl_mul, Z.mul_1_l by lia. pose proof (pow2_pos w). pose proof (Z.pow_lt_mono_r 2 w 32).
  rewrite u32_small by lia. done.
Qed.

Lemma init_remaining data size w : bytes_ok data -> 0 <= size <= lenZ data -> 0 <= w <= 32 ->
  remaining (carquet_rle_decoder_init data size w) = rle_values w (take (Z.to_nat size) data).
Proof.
  intros Hd Hs Hw. pose proof (init_dec_wf data size w Hd Hs) as W.
  rewrite remaining_idle; [|done|..];
    unfold carquet_rle_decoder_init; decide_bool; cbn; try done.
Qed.

(** ** [start_new_run] *)

Definition run_result (d : carquet_rle_decoder_t) (r : bool * carquet_rle_decoder_t) : Prop :=
  let '(ok, d') := r in
  dec_wf d' /\ dec_bit_width d' = dec_bit_width d /\ remaining d' = remaining d /\
  (ok = true -> dec_status d' = CARQUET_OK /\ 0 < dec_run_remaining d') /\
  (ok = false -> fst (remaining d') = [] /\ (dec_status d' = CARQUET_OK -> snd (remaining d') = true)).

Lemma dec_wf_status d s : dec_wf d -> dec_wf (with_status d s).
Proof. intros []. by split. Qed.

Lemma value_mask_mod d x : dec_wf d -> x .& dec_value_mask d = x mod 2 ^ dec_bit_width d.
Proof. intros W. rewrite (wf_mask _ W). apply land_ones_mod. pose proof (wf_width _ W). lia. Qed.

(** The state after the header of a run. *)
Lemma after_header_wf d pos in_rle rr : dec_wf d -> dec_run_remaining d <= 0 ->
  0 <= pos <= dec_size d -> 0 <= rr -> (in_rle = false -> exists G, 0 <= G /\ rr = 8 * G) ->
  let d' := with_run (with_pos d pos) in_rle rr in
  dec_wf d' /\ dec_bitpack_pos d' = dec_bitpack_count d'.
Proof.
  intros W Hr Hp Hrr HG d'. assert (dec_bitpack_pos d = dec_bitpack_count d) as E.
  { pose proof (wf_run _ W) as HR. pose proof (wf_cursor _ W).
    destruct (dec_in_rle_run d); [lia|]. destruct HR as (G & ? & ?). lia. }
  destruct W. split; [|done]. unfold d'. split; cbn; auto.
  destruct in_rle; [lia|]. destruct HG as (G & ? & ->); [done|]. exists G. lia.
Qed.

Lemma even_land h : ((h .& 1) =? 0) = Z.even h.
Proof. rewrite land_1, Zmod_even. by destruct (Z.even h). Qed.

(** The three ways a header continues. *)
Section RunStart.
Context (d : carquet_rle_decoder_t) (W : dec_wf d).
Context (Hok : dec_status d = CARQUET_OK) (Hidle : dec_run_remaining d <= 0).

Lemma start_error d' : dec_wf d' -> dec_bit_width d' = dec_bit_width d -> remaining d = ([], false) ->
  run_result d (false, with_status d' CARQUET_ERROR_INVALID_RLE).
Proof.
  intros W' Hw E. split_and!; [by apply dec_wf_status|done| |done|].
  - by rewrite remaining_error.
  - intros _. by rewrite remaining_error.
Qed.

Lemma start_skip pos in_rle : 0 <= pos <= dec_size d ->
  remaining d = rle_values (dec_bit_width d) (window (dec_data d) (dec_size d) pos) ->
  remaining (with_run (with_pos d pos) in_rle 0) = remaining d.
Proof.
  intros Hp E. destruct (after_header_wf d pos in_rle 0) as [W1 _]; auto; [lia|by exists 0|].
  by rewrite remaining_idle.
Qed.

Lemma start_rle pos n v : 0 <= pos <= dec_size d -> 0 < n -> in_u (dec_bit_width d) v ->
  let vb := (dec_bit_width d + 7) / 8 in pos + vb <= dec_size d ->
  remaining d = prepend (replicate (Z.to_nat n) v)
    (rle_values (dec_bit_width d) (window (dec_data d) (dec_size d) (pos + vb))) ->
  run_result d (true, with_value (with_run (with_pos d pos) true n) (pos + vb) v).
Proof.
  intros Hp Hn Hv vb Hvb E. destruct (after_header_wf d pos true n) as [W1 Ec]; auto; [lia|done|].
  assert (0 <= vb) by (pose proof (wf_width _ W); unfold vb; dlia).
  split_and!; [|done| | |done].
  - destruct W1. split; cbn in *; auto. lia.
  - rewrite remaining_ok by done. by rewrite E.
  - intros _. split; [done|]. cbn. lia.
Qed.

Lemma start_bitpacked pos G : 0 <= pos <= dec_size d -> 0 < G ->
  remaining d =
    match run_groups (dec_bit_width d) G (window (dec_data d) (dec_size d) pos) with
    | (vs, None) => (vs, false)
    | (vs, Some rest) => prepend vs (rle_values (dec_bit_width d) rest)
    end ->
  let d1 := with_run (with_pos d pos) false (G * 8) in
  run_result d (true, with_bitpack d1 (dec_bitpack_buffer d1) 0 0).
Proof.
  intros Hp HG E d1. destruct (after_header_wf d pos false (G * 8)) as [W1 Ec]; auto; [lia|intros; exists G; lia|].
  split_and!; [|done| | |done].
  - destruct W1. split; cbn in *; auto; [lia|]. exists G. lia.
  - rewrite remaining_ok by done. cbn [dec_in_rle_run d1 with_bitpack with_run with_pos].
    rewrite staged_nil by done. rewrite E. cbn. rewrite Z.sub_0_r, Z.div_mul by lia. done.
  - intros _. split; [done|]. cbn. lia.
Qed.

End RunStart.

Lemma run_result_trans d d1 r : dec_bit_width d1 = dec_bit_width d -> remaining d1 = remaining d ->
  run_result d1 r -> run_result d r.
Proof. destruct r as [ok d']. intros Hw E (W & Hw' & E' & H1 & H2). split_and!; auto; congruence. Qed.

Lemma start_new_run_loop_spec fuel : forall d, dec_wf d -> dec_status d = CARQUET_OK ->
  dec_run_remaining d <= 0 -> dec_size d - dec_pos d <= Z.of_nat fuel ->
  exists r, start_new_run_loop fuel d = Some r /\ run_result d r.
Proof.
  induction fuel as [|fuel IH]; intros d W Hok Hidle Hf; cbn [start_new_run_loop];
    rewrite Z.geb_leb; pose proof (remaining_idle d W Hok Hidle) as ER; pose proof (wf_pos _ W) as Hp;
    pose proof (wf_width _ W) as Hw; pose proof (wf_size _ W) as Hs.
  { decide_bool. eexists. split; [done|]. unfold dec_window in ER. rewrite window_end in ER by lia.
    split_and!; auto; intros; [done|by rewrite ER]. }
  case_bool.
  { eexists. split; [done|]. unfold dec_window in ER. rewrite window_end in ER by lia.
    split_and!; auto; intros; [done|by rewrite ER]. }
  rewrite read_varint_spec by (try apply (wf_bytes _ W); lia). cbn [mbind option_bind].
  fold (dec_window d). assert (dec_window d <> []) as Hne.
  { destruct (window_cons (dec_data d) (dec_size d) (dec_pos d)) as (b & _ & E); [lia..|].
    unfold dec_window. by rewrite E. }
  rewrite rle_values_step in ER by (auto; lia).
  destruct (rle_header (dec_window d)) as [[h rest]|] eqn:Eh; cbn.
  2: { eexists. split; [done|]. by apply start_error. }
  destruct (rle_header_inv _ _ _ (window_bytes _ _ _ (wf_bytes _ W)) Eh) as (Hh & Hrok & l & El).
  pose proof (window_suffix _ _ _ _ _ Hp Hs El) as Erest.
  pose proof (rle_header_length _ _ _ Eh) as Hrl. pose proof (window_length _ _ _ Hp Hs) as Lw.
  fold (dec_window d) in Lw. set (pos := dec_size d - lenZ rest) in *.
  rewrite even_land, shiftr_div by lia. change (2 ^ 1) with 2. destruct (Z.even h) eqn:Ev.
  - case_bool.
    + edestruct (IH (with_run (with_pos d pos) true (h / 2))) as (r & Hr & HR).
      * apply after_header_wf; auto; [unfold pos; lia|lia|done].
      * done.
      * cbn. lia.
      * cbn. unfold pos. lia.
      * exists r. split; [done|]. eapply run_result_trans; [|..|exact HR]; [done|].
        replace (h / 2) with 0 by lia. apply start_skip; auto; [unfold pos; lia|]. by rewrite <- Erest.
    + set (vb := (dec_bit_width d + 7) / 8) in *. assert (0 <= vb <= 4) by (unfold vb; dlia).
      rewrite Z.gtb_ltb. replace (dec_size d <? pos + vb) with (lenZ rest <? vb)
        by (unfold pos; repeat case_bool; lia).
      cbv zeta in ER. case_bool_in ER; decide_bool.
      { eexists. split; [done|]. apply start_error; auto.
        apply after_header_wf; auto; [unfold pos; lia|dlia|done]. }
      rewrite read_value_bytes_spec; [|apply (wf_bytes _ W)|unfold pos; lia|unfold pos; lia|lia|lia|done].
      cbn [mbind option_bind]. rewrite (window_take _ (dec_size d)), <- Erest by (unfold pos; lia).
      change (2 ^ (8 * 0)) with 1. rewrite Z.add_0_l, Z.mul_1_l.
      change (dec_value_mask _) with (dec_value_mask d). rewrite value_mask_mod by done.
      eexists. split; [done|]. apply start_rle; auto; try (unfold pos; lia); [dlia| |].
      * unfold in_u. apply Z.mod_pos_bound, pow2_pos. lia.
      * rewrite ER. do 2 f_equal. rewrite Erest, window_add by (unfold pos; lia). done.
  - assert (0 <= h / 2 < 2 ^ 31) by dlia. unfold i32. rewrite wrap_signed_small by (unfold in_i; lia).
    destruct (Z.eqb_spec (h / 2) 0) as [E0|E0]; decide_bool.
    + edestruct (IH (with_run (with_pos d pos) false (h / 2 * 8))) as (r & Hr & HR).
      * apply after_header_wf; auto; [unfold pos; lia|lia|]. exists 0. lia.
      * done.
      * cbn. lia.
      * cbn. unfold pos. lia.
      * exists r. split; [done|]. eapply run_result_trans; [|..|exact HR]; [done|].
        replace (h / 2 * 8) with 0 by lia. apply start_skip; auto; [unfold pos; lia|]. by rewrite <- Erest.
    + eexists. split; [done|]. apply start_bitpacked; auto; [unfold pos; lia|lia|]. by rewrite <- Erest.
Qed.

Lemma start_new_run_spec d : dec_wf d -> dec_status d = CARQUET_OK -> dec_run_remaining d <= 0 ->
  exists r, start_new_run d = Some r /\ run_result d r.
Proof. intros. apply start_new_run_loop_spec; auto. lia. Qed.

(** ** Steps inside a run

    [yields d o d']: the operation handed out [o] and left [d'] with the rest. *)

Definition yields (d : carquet_rle_decoder_t) (o : list Z) (d' : carquet_rle_decoder_t) : Prop :=
  dec_wf d' /\ dec_bit_width d' = dec_bit_width d /\ remaining d = prepend o (remaining d').

Lemma yields_refl d : dec_wf d -> yields d [] d.
Proof. intros. split_and!; auto. by rewrite prepend_nil. Qed.

Lemma yields_trans d1 o1 d2 o2 d3 : yields d1 o1 d2 -> yields d2 o2 d3 -> yields d1 (o1 ++ o2) d3.
Proof.
  intros (? & ? & E1) (? & ? & E2). split_and!; auto; [congruence|]. by rewrite prepend_app, <- E2.
Qed.

Lemma run_result_yields d ok d' : run_result d (ok, d') -> yields d [] d'.
Proof. intros (? & ? & E & _). split_and!; auto. by rewrite prepend_nil. Qed.

(** Taking [n] values of an RLE run. *)
Lemma rle_take d n : dec_wf d -> dec_status d = CARQUET_OK -> dec_in_rle_run d = true ->
  0 <= n <= dec_run_remaining d ->
  yields d (replicate (Z.to_nat n) (dec_rle_value d)) (with_remaining d (dec_run_remaining d - n)).
Proof.
  intros W Hok Hr Hn. split_and!; [|done|].
  - destruct W. split; cbn; auto. rewrite Hr in *. lia.
  - rewrite !remaining_ok by done. cbn. rewrite Hr, <- prepend_app, <- replicate_add.
    do 2 f_equal. lia.
Qed.

(** Taking [n] staged values of a bit-packed run. *)
Lemma staged_take d n : dec_wf d -> dec_status d = CARQUET_OK -> dec_in_rle_run d = false ->
  0 <= n <= dec_bitpack_count d - dec_bitpack_pos d ->
  yields d (take (Z.to_nat n) (staged d))
    (with_remaining (with_bitpack d (dec_bitpack_buffer d) (dec_bitpack_pos d + n) (dec_bitpack_count d))
       (dec_run_remaining d - n)).
Proof.
  intros W Hok Hr Hn. set (d' := with_remaining _ _).
  assert (dec_wf d') as W'.
  { pose proof (wf_run _ W) as HR. destruct W. split; cbn; auto; [lia|]. rewrite Hr in *.
    destruct HR as (G & ? & ?). exists G. lia. }
  assert (staged d' = drop (Z.to_nat n) (staged d)) as Es.
  { unfold staged, ptr_add. cbn. rewrite skipn_firstn_comm, drop_drop. pose proof (wf_cursor _ W).
    f_equal; [lia|]. f_equal. lia. }
  split_and!; [done..|]. rewrite !remaining_ok by done.
  change (dec_in_rle_run d') with (dec_in_rle_run d). rewrite Hr.
  change (dec_window d') with (dec_window d). change (dec_bit_width d') with (dec_bit_width d).
  replace ((dec_run_remaining d' - lenZ (staged d')) / 8) with ((dec_run_remaining d - lenZ (staged d)) / 8).
  2: { rewrite !length_staged by done. cbn. f_equal. lia. }
  rewrite Es. destruct (run_groups _ _ _) as [vs [rest|]];
    rewrite <- ?prepend_app; unfold prepend; cbn; by rewrite app_assoc, take_drop.
Qed.

Lemma bitpacked_groups d : dec_wf d -> dec_in_rle_run d = false -> staged d = [] ->
  exists G, 0 <= G /\ dec_run_remaining d = 8 * G /\ dec_bitpack_pos d = dec_bitpack_count d.
Proof.
  intros W Hr Hs. pose proof (length_staged d W) as L. rewrite Hs in L. cbn in L.
  pose proof (wf_run _ W) as HR. rewrite Hr in HR. destruct HR as (G & ? & ?). exists G. lia.
Qed.

(** The next group of a bit-packed run, or the error when its bytes are missing. *)
Lemma next_group d G : dec_wf d -> dec_status d = CARQUET_OK -> dec_in_rle_run d = false ->
  staged d = [] -> dec_run_remaining d = 8 * (G + 1) -> 0 <= G ->
  dec_pos d + dec_bit_width d <= dec_size d ->
  remaining d =
    prepend (unpack (dec_bit_width d) 8 (dec_window d))
      (match run_groups (dec_bit_width d) G (ptr_add (dec_window d) (dec_bit_width d)) with
       | (vs, None) => (vs, false)
       | (vs, Some rest) => prepend vs (rle_values (dec_bit_width d) rest)
       end).
Proof.
  intros W Hok Hr Hs Hrr HG Hp. rewrite remaining_ok, Hr, Hs by done. cbn [length app].
  replace ((dec_run_remaining d - Z.of_nat 0) / 8) with (G + 1) by (rewrite Hrr; dlia).
  pose proof (wf_pos _ W). pose proof (wf_size _ W). pose proof (wf_width _ W).
  rewrite run_groups_S; [|apply window_bytes, W|lia|lia|unfold dec_window; rewrite window_length by lia; lia].
  destruct (run_groups _ G _) as [vs [rest|]]; [by rewrite prepend_app|done].
Qed.

Lemma missing_group d : dec_wf d -> dec_status d = CARQUET_OK -> dec_in_rle_run d = false ->
  staged d = [] -> 0 < dec_run_remaining d -> dec_size d < dec_pos d + dec_bit_width d ->
  yields d [] (with_status d CARQUET_ERROR_INVALID_RLE).
Proof.
  intros W Hok Hr Hs Hrr Hp. split_and!; [by apply dec_wf_status|done|].
  rewrite (remaining_error (with_status _ _)) by done. rewrite remaining_ok, Hr, Hs by done.
  destruct (bitpacked_groups d W Hr Hs) as (G & ? & E & _). cbn [length].
  pose proof (wf_pos _ W). pose proof (wf_size _ W). pose proof (wf_width _ W).
  rewrite run_groups_short; [done|lia|rewrite E; dlia|]. unfold dec_window. rewrite window_length by lia. lia.
Qed.

Section DecoderSpec.
Context {K : UnpackKernels} {KOk : UnpackKernelsOk K}.

(** The bytes of the next group, unpacked by whichever kernel the code picks. *)
Lemma unpack_next d : dec_wf d -> dec_pos d + dec_bit_width d <= dec_size d ->
  let unpack8 := if dec_bit_width d >? 0
                 then carquet_dispatch_get_bitunpack8_fn (dec_bit_width d) else None in
  let p := ptr_add (dec_data d) (dec_pos d) in
  let vs := unpack (dec_bit_width d) 8 (dec_window d) in
  carquet_bitunpack8_32 p (dec_bit_width d) = Some vs /\
  match unpack8 with Some f => f p | None => carquet_bitunpack8_32 p (dec_bit_width d) end = Some vs.
Proof.
  intros W Hp unpack8 p vs. pose proof (wf_pos _ W). pose proof (wf_size _ W). pose proof (wf_width _ W).
  assert (bytes_ok p) by (apply ptr_add_bytes, W).
  assert (dec_bit_width d <= lenZ p) by (unfold p; rewrite length_ptr_add by lia; lia).
  assert (unpack (dec_bit_width d) 8 p = vs) as E.
  { unfold vs. rewrite <- (unpack_take _ _ p (Z.to_nat (dec_bit_width d))) by (auto; lia).
    rewrite <- (unpack_take _ _ (dec_window d) (Z.to_nat (dec_bit_width d))); [|apply window_bytes, W|lia..].
    unfold p, dec_window. by rewrite (window_take _ (dec_size d)) by lia. }
  assert (carquet_bitunpack8_32 p (dec_bit_width d) = Some vs) as B.
  { by rewrite bitunpack8_32_spec, E by (auto; lia). }
  split; [done|]. unfold unpack8. rewrite Z.gtb_ltb. case_bool; [|done].
  unfold carquet_dispatch_get_bitunpack8_fn. decide_bool.
  destruct (bitunpack8_u32 _) as [f|] eqn:Ef; [|done].
  rewrite (kernel8_ok (dec_bit_width d) f p); [by rewrite E|lia|done..].
Qed.

Lemma fill_spec d : dec_wf d -> dec_status d = CARQUET_OK -> dec_in_rle_run d = false ->
  staged d = [] -> 0 < dec_run_remaining d ->
  exists ok d', fill_bitpack_buffer d = Some (ok, d') /\ yields d [] d' /\
    (ok = true -> dec_status d' = CARQUET_OK /\ dec_in_rle_run d' = false /\
       dec_run_remaining d' = dec_run_remaining d /\ lenZ (staged d') = 8) /\
    (ok = false -> dec_status d' <> CARQUET_OK).
Proof.
  intros W Hok Hr Hs Hrr. unfold fill_bitpack_buffer. decide_bool. case_bool.
  { do 2 eexists. split; [done|]. split; [apply missing_group; auto; lia|]. done. }
  destruct (unpack_next d W ltac:(lia)) as [-> _]. cbn [mbind option_bind].
  do 2 eexists. split; [done|]. set (vs := unpack _ 8 _). set (d' := with_bitpack _ _ _ _).
  destruct (bitpacked_groups d W Hr Hs) as (G & HG & ER & Ec).
  pose proof (wf_pos _ W). pose proof (wf_width _ W).
  assert (staged d' = vs) as Es.
  { unfold staged, d', ptr_add. cbn [with_bitpack dec_bitpack_count dec_bitpack_pos dec_bitpack_buffer].
    change (Z.to_nat (8 - 0)) with 8%nat. change (Z.to_nat 0) with 0%nat. rewrite drop_0. apply take_ge.
    unfold vs. by rewrite length_unpack. }
  assert (dec_wf d') as W'.
  { destruct W. split; cbn; auto; try lia; [apply (unpack_range _ 8); lia|].
    rewrite Hr in *. exists (G - 1). lia. }
  split; [|split; [|done]].
  - split_and!; [done..|]. rewrite (next_group d (G - 1)) by (auto; lia). rewrite prepend_nil.
    rewrite (remaining_ok d') by done. change (dec_in_rle_run d') with (dec_in_rle_run d). rewrite Hr, Es.
    change (dec_bit_width d') with (dec_bit_width d). change (dec_run_remaining d') with (dec_run_remaining d).
    assert (lenZ vs = 8) as -> by (unfold vs; by rewrite length_unpack).
    replace ((dec_run_remaining d - 8) / 8) with (G - 1) by (rewrite ER; dlia).
    unfold dec_window at 2. rewrite window_add by lia.
    change (window (dec_data d) (dec_size d) (dec_pos d + dec_bit_width d)) with (dec_window d').
    destruct (run_groups _ _ _) as [us [rest|]]; [by rewrite <- prepend_app|done].
  - intros _. split_and!; auto.
Qed.

(** Draining hands out staged values one by one. *)
Lemma drain_spec fuel : forall d count, dec_wf d -> dec_status d = CARQUET_OK ->
  dec_in_rle_run d = false -> lenZ (staged d) <= Z.of_nat fuel -> 0 <= count ->
  exists o d', drain_staging fuel d count = Some (o, d') /\ yields d o d' /\
    dec_status d' = CARQUET_OK /\ dec_in_rle_run d' = false /\
    dec_run_remaining d' = dec_run_remaining d - lenZ o /\ lenZ o = Z.min count (lenZ (staged d)) /\
    lenZ (staged d') = lenZ (staged d) - lenZ o.
Proof.
  induction fuel as [|fuel IH]; intros d count W Hok Hr Hf Hc; cbn [drain_staging];
    pose proof (length_staged d W) as Ls; pose proof (wf_cursor _ W) as Hcur.
  { decide_bool. rewrite andb_false_r. exists [], d. split_and!; auto using yields_refl; cbn; lia. }
  assert (dec_bitpack_count d - dec_bitpack_pos d <= dec_run_remaining d) as Hrr.
  { pose proof (wf_run _ W) as HR. rewrite Hr in HR. destruct HR as (G & ? & ?). lia. }
  destruct (Z.ltb_spec 0 count), (Z.ltb_spec (dec_bitpack_pos d) (dec_bitpack_count d)); cbn [andb].
  2-4: exists [], d; split_and!; auto using yields_refl; cbn; lia.
  decide_bool. destruct (rd_Some (dec_bitpack_buffer d) (dec_bitpack_pos d)) as [v Hv].
  { rewrite (wf_buffer _ W). lia. }
  rewrite Hv. cbn [mbind option_bind]. pose proof (staged_take d 1 W Hok Hr ltac:(lia)) as Y.
  set (d1 := with_remaining _ _) in *. assert (take (Z.to_nat 1) (staged d) = [v]) as Et.
  { unfold staged, ptr_add. rewrite rd_lookup in Hv by lia. rewrite take_take. red_nat.
    rewrite (drop_S _ _ _ Hv). by replace (1 `min` _)%nat with 1%nat by lia. }
  rewrite Et in Y. pose proof Y as (W1 & _). pose proof (length_staged d1 W1) as L1. cbn in L1.
  destruct (IH d1 (count - 1)) as (o & d' & -> & Y' & ? & ? & R & Lo & Ls'); auto; [lia..|].
  cbn [mbind option_bind]. exists (v :: o), d'. split; [done|]. cbn in R. cbn [length].
  split_and!; auto; try lia. exact (yields_trans _ [v] _ _ _ Y Y').
Qed.

(** Whole groups go straight to the output. *)
Lemma whole_groups_spec unpack8 fuel : forall d count, dec_wf d -> dec_status d = CARQUET_OK ->
  dec_in_rle_run d = false -> staged d = [] \/ count = 0 -> 0 <= count ->
  unpack8 = (if dec_bit_width d >? 0
             then carquet_dispatch_get_bitunpack8_fn (dec_bit_width d) else None) ->
  count <= Z.of_nat fuel ->
  exists o d', whole_groups fuel unpack8 d count = Some (o, d') /\ yields d o d' /\ lenZ o <= count /\
    (dec_status d' <> CARQUET_OK /\ dec_size d' < dec_pos d' + dec_bit_width d' /\
       dec_bitpack_count d' <= dec_bitpack_pos d' \/
     dec_status d' = CARQUET_OK /\ dec_in_rle_run d' = false /\ staged d' = staged d /\
       dec_run_remaining d' = dec_run_remaining d - lenZ o).
Proof.
  induction fuel as [|fuel IH]; intros d count W Hok Hr Hs Hc Eu Hf; cbn [whole_groups].
  { decide_bool. exists [], d. split; [done|]. split; [by apply yields_refl|].
    split; [cbn; lia|]. right. split_and!; auto. cbn. lia. }
  destruct (Z.geb_spec count 8), (Z.geb_spec (dec_run_remaining d) 8); cbn [andb].
  2-4: exists [], d; (split; [done|]); (split; [by apply yields_refl|]); (split; [cbn; lia|]);
       right; split_and!; auto; cbn; lia.
  destruct Hs as [Hs| ->]; [|lia]. case_bool. case_bool.
  { exists [], (with_status d CARQUET_ERROR_INVALID_RLE). split; [done|]. split; [apply missing_group; auto; lia|].
    split; [cbn; lia|]. left. cbn. split_and!; [done|lia|].
    destruct (bitpacked_groups d W Hr Hs) as (? & _ & _ & ?). lia. }
  destruct (unpack_next d W ltac:(lia)) as [_ Eb]. cbv zeta in Eb. rewrite <- Eu in Eb. rewrite Eb.
  cbn [mbind option_bind]. set (vs := unpack _ 8 _) in *. set (d1 := with_remaining _ _).
  destruct (bitpacked_groups d W Hr Hs) as (G & HG & ER & Ec).
  pose proof (wf_pos _ W). pose proof (wf_width _ W).
  assert (dec_wf d1) as W1.
  { destruct W. split; cbn; auto; try lia. rewrite Hr in *. exists (G - 1). lia. }
  assert (staged d1 = []) as Hs1 by (apply staged_nil; cbn; lia).
  assert (lenZ vs = 8) as Lv by (unfold vs; by rewrite length_unpack).
  assert (yields d vs d1) as Y.
  { split_and!; [done..|]. rewrite (next_group d (G - 1)) by (auto; lia). f_equal.
    rewrite (remaining_ok d1) by done. change (dec_in_rle_run d1) with (dec_in_rle_run d). rewrite Hr, Hs1.
    change (dec_bit_width d1) with (dec_bit_width d). cbn [length app].
    change (dec_run_remaining d1) with (dec_run_remaining d - 8).
    replace ((dec_run_remaining d - 8 - Z.of_nat 0) / 8) with (G - 1) by (rewrite ER; dlia).
    unfold dec_window at 1. by rewrite window_add by lia. }
  destruct (IH d1 (count - 8)) as (o & d' & -> & Y' & Lo & HS); auto; [lia..|].
  cbn [mbind option_bind]. exists (vs ++ o), d'. split; [done|].
  split; [by eapply yields_trans|]. rewrite length_app. split; [lia|].
  destruct HS as [?|(? & ? & ? & ER')]; [by left|right]. cbn in ER'.
  split_and!; auto; first [congruence|lia].
Qed.

(** The tail of the run goes through the staging buffer. *)
Lemma partial_groups_spec fuel : forall d count, dec_wf d -> dec_status d = CARQUET_OK ->
  dec_in_rle_run d = false -> 0 <= count <= Z.of_nat fuel ->
  exists o d', partial_groups fuel d count = Some (o, d') /\ yields d o d' /\ lenZ o <= count /\
    (dec_status d' <> CARQUET_OK \/
     dec_status d' = CARQUET_OK /\
       (lenZ o = count \/ dec_run_remaining d' = 0 /\ dec_in_rle_run d' = false /\
          lenZ o = dec_run_remaining d)).
Proof.
  induction fuel as [|fuel IH]; intros d count W Hok Hr Hc; cbn [partial_groups].
  { decide_bool. exists [], d. split_and!; auto using yields_refl; cbn; [lia|right]. split; [done|left; lia]. }
  assert (0 <= dec_run_remaining d) as Hrr.
  { pose proof (wf_run _ W) as HR. pose proof (wf_cursor _ W). rewrite Hr in HR. destruct HR as (G & ? & ?). lia. }
  rewrite (Z.gtb_ltb (dec_run_remaining d)).
  destruct (Z.ltb_spec 0 count), (Z.ltb_spec 0 (dec_run_remaining d)); cbn [andb].
  2-4: exists [], d; split_and!; auto using yields_refl; cbn; [lia|right];
       split; [done|first [left; lia|right; split_and!; auto; lia]].
  rewrite Z.geb_leb.
  assert (exists ok d1, (if dec_bitpack_count d <=? dec_bitpack_pos d then fill_bitpack_buffer d
                         else Some (true, d)) = Some (ok, d1) /\ yields d [] d1 /\
    (ok = true -> dec_status d1 = CARQUET_OK /\ dec_in_rle_run d1 = false /\
       dec_run_remaining d1 = dec_run_remaining d /\ 0 < lenZ (staged d1)) /\
    (ok = false -> dec_status d1 <> CARQUET_OK)) as (ok & d1 & -> & Y1 & Ht & Hff).
  { pose proof (length_staged d W). case_bool.
    - destruct (fill_spec d) as (ok & d1 & E & Y & Hft & Hff); auto; [by apply staged_nil|].
      exists ok, d1. split_and!; auto. intros T. destruct (Hft T) as (? & ? & ? & ?). split_and!; auto. lia.
    - exists true, d. split; [done|]. split; [by apply yields_refl|]. split; [|done]. intros _. split_and!; auto. lia. }
  cbn [mbind option_bind]. destruct ok; cbn [negb].
  2: { exists [], d1. split_and!; auto; cbn; lia. }
  destruct (Ht eq_refl) as (Hok1 & Hr1 & Hrr1 & Hl1). pose proof Y1 as (W1 & _).
  pose proof (length_staged d1 W1). pose proof (wf_cursor _ W1).
  destruct (drain_spec 8 d1 count) as (vs & d2 & -> & Y2 & Hok2 & Hr2 & Hrr2 & Lvs & _); auto; [lia..|].
  cbn [mbind option_bind]. pose proof Y2 as (W2 & _).
  destruct (IH d2 (count - lenZ vs)) as (o & d' & -> & Y3 & Lo & HS); auto; [lia..|].
  cbn [mbind option_bind]. exists (vs ++ o), d'. split; [done|].
  split; [exact (yields_trans _ [] _ _ _ Y1 (yields_trans _ _ _ _ _ Y2 Y3))|].
  rewrite length_app. split; [lia|]. destruct HS as [?|(? & [?|(? & ? & ?)])]; [by left|right..];
    (split; [done|]); [left; lia|right; split_and!; auto; lia].
Qed.

Lemma partial_groups_error fuel d count : dec_wf d -> dec_status d <> CARQUET_OK ->
  dec_size d < dec_pos d + dec_bit_width d -> dec_bitpack_count d <= dec_bitpack_pos d ->
  count <= Z.of_nat fuel ->
  exists d', partial_groups fuel d count = Some ([], d') /\ yields d [] d' /\ dec_status d' <> CARQUET_OK.
Proof.
  intros W Hs Hp Hc Hf. assert (forall d', dec_wf d' -> dec_status d' <> CARQUET_OK ->
    dec_bit_width d' = dec_bit_width d -> yields d [] d') as Y.
  { intros. split_and!; auto. by rewrite !remaining_error. }
  destruct fuel as [|fuel]; cbn [partial_groups].
  { decide_bool. exists d. split_and!; auto. }
  destruct (_ && _); [|exists d; split_and!; auto].
  rewrite Z.geb_leb. decide_bool. unfold fill_bitpack_buffer. decide_bool.
  destruct (_ <=? 0); cbn; [exists d; split_and!; auto|].
  eexists. split; [done|]. split; [|done]. apply Y; auto using dec_wf_status.
Qed.

(** One bit-packed iteration of the batch loop. *)
Lemma bitpacked_iteration d count unpack8 : dec_wf d -> dec_status d = CARQUET_OK ->
  dec_in_rle_run d = false -> 0 < dec_run_remaining d -> 0 < count ->
  unpack8 = (if dec_bit_width d >? 0
             then carquet_dispatch_get_bitunpack8_fn (dec_bit_width d) else None) ->
  exists o1 d1 o2 d2 o3 d3,
    drain_staging 8 d count = Some (o1, d1) /\
    whole_groups (Z.to_nat (count - lenZ o1)) unpack8 d1 (count - lenZ o1) = Some (o2, d2) /\
    partial_groups (Z.to_nat (count - lenZ o1 - lenZ o2)) d2 (count - lenZ o1 - lenZ o2) = Some (o3, d3) /\
    yields d (o1 ++ o2 ++ o3) d3 /\ lenZ (o1 ++ o2 ++ o3) <= count /\
    (dec_status d3 <> CARQUET_OK \/ 0 < lenZ (o1 ++ o2 ++ o3)).
Proof.
  intros W Hok Hr Hrr Hc Eu. pose proof (length_staged d W). pose proof (wf_cursor _ W).
  destruct (drain_spec 8 d count) as (o1 & d1 & E1 & Y1 & Hok1 & Hr1 & Hrr1 & L1 & Ls1); auto; [lia..|].
  pose proof Y1 as (W1 & Hw1 & _).
  destruct (whole_groups_spec unpack8 (Z.to_nat (count - lenZ o1)) d1 (count - lenZ o1))
    as (o2 & d2 & E2 & Y2 & L2 & HS2); auto; try lia.
  { destruct (Z.le_gt_cases count (lenZ (staged d))); [right; lia|left].
    destruct (staged d1); [done|cbn [length] in *; lia]. }
  { by rewrite Hw1. }
  pose proof Y2 as (W2 & _).
  destruct HS2 as [(Hs2 & Hp2 & Hc2)|(Hok2 & Hr2 & _ & Hrr2)].
  - destruct (partial_groups_error (Z.to_nat (count - lenZ o1 - lenZ o2)) d2 (count - lenZ o1 - lenZ o2))
      as (d3 & E3 & Y3 & Hs3); auto; [lia|].
    exists o1, d1, o2, d2, [], d3. rewrite app_nil_r, length_app. split_and!; auto; [|lia].
    rewrite <- (app_nil_r (o1 ++ o2)), <- app_assoc.
    exact (yields_trans _ _ _ _ _ Y1 (yields_trans _ _ _ _ _ Y2 Y3)).
  - destruct (partial_groups_spec (Z.to_nat (count - lenZ o1 - lenZ o2)) d2 (count - lenZ o1 - lenZ o2))
      as (o3 & d3 & E3 & Y3 & L3 & HS3); auto; [lia|].
    exists o1, d1, o2, d2, o3, d3. rewrite !length_app. split_and!; auto; [|lia|].
    + exact (yields_trans _ _ _ _ _ Y1 (yields_trans _ _ _ _ _ Y2 Y3)).
    + destruct HS3 as [?|(_ & [?|(_ & _ & ?)])]; [by left|right; lia..].
Qed.

Lemma not_has_next d : dec_wf d -> carquet_rle_decoder_has_next d = false ->
  remaining d = ([], is_ok (dec_status d)).
Proof.
  intros W. unfold carquet_rle_decoder_has_next. destruct (is_ok (dec_status d)) eqn:E; cbn [negb].
  - apply is_ok_true in E. rewrite Z.gtb_ltb. case_bool; [done|]. intros Hp%Z.ltb_ge.
    rewrite remaining_idle by done. unfold dec_window. pose proof (wf_pos _ W).
    by rewrite window_end by lia.
  - intros _. apply remaining_error. intros E'. by rewrite E' in E.
Qed.

Lemma has_next_ok d : carquet_rle_decoder_has_next d = true -> dec_status d = CARQUET_OK.
Proof.
  unfold carquet_rle_decoder_has_next. destruct (is_ok (dec_status d)) eqn:E; [|done].
  by apply is_ok_true in E.
Qed.

(** Entering a run, or finding out that there is none. *)
Lemma ensure_run d : dec_wf d -> dec_status d = CARQUET_OK ->
  exists r, (if dec_run_remaining d <=? 0 then start_new_run d else Some (true, d)) = Some r /\ run_result d r.
Proof.
  intros W Hok. case_bool; [by apply start_new_run_spec|]. eexists. split; [done|].
  split_and!; auto; done.
Qed.

Lemma run_result_end d d' : run_result d (false, d') -> remaining d' = ([], is_ok (dec_status d')).
Proof.
  intros (_ & _ & _ & _ & H). destruct (H eq_refl) as [H1 H2].
  destruct (is_ok (dec_status d')) eqn:E.
  - apply is_ok_true in E. specialize (H2 E). destruct (remaining d'); cbn in *. by subst.
  - apply remaining_error. intros E'. by rewrite E' in E.
Qed.

Lemma get_batch_loop_spec unpack8 fuel : forall d count, dec_wf d -> 0 <= count ->
  unpack8 = (if dec_bit_width d >? 0
             then carquet_dispatch_get_bitunpack8_fn (dec_bit_width d) else None) ->
  count < Z.of_nat fuel \/ dec_status d <> CARQUET_OK ->
  exists o d', get_batch_loop fuel unpack8 d count = Some (o, d') /\ yields d o d' /\ lenZ o <= count /\
    (lenZ o = count \/ remaining d' = ([], is_ok (dec_status d'))).
Proof.
  induction fuel as [|fuel IH]; intros d count W Hc Eu Hf; cbn [get_batch_loop];
    (destruct (carquet_rle_decoder_has_next d) eqn:Hn;
      [pose proof (has_next_ok d Hn) as Hok|
       rewrite andb_false_r; exists [], d; split_and!; auto using yields_refl, not_has_next; cbn; lia]).
  { destruct Hf; [lia|done]. }
  rewrite andb_true_r. case_bool.
  2: { exists [], d. split_and!; auto using yields_refl; cbn; first [lia|left; lia]. }
  destruct Hf as [Hf|]; [|done].
  destruct (ensure_run d W Hok) as ([ok d1] & -> & HR). pose proof (run_result_yields _ _ _ HR) as Y0.
  cbn [mbind option_bind]. destruct ok; cbn [negb].
  2: { exists [], d1. split; [done|]. split; [done|]. split; [cbn; lia|]. right. by eapply run_result_end. }
  pose proof HR as (W1 & Hw1 & _ & H1 & _). destruct (H1 eq_refl) as [Hok1 Hrr1].
  destruct (dec_in_rle_run d1) eqn:Hr1.
  - set (n := if count >? dec_run_remaining d1 then dec_run_remaining d1 else count).
    assert (0 < n <= count /\ n <= dec_run_remaining d1) as Hn'.
    { unfold n. rewrite Z.gtb_ltb. case_bool; lia. }
    pose proof (rle_take d1 n W1 Hok1 Hr1 ltac:(lia)) as Y1. pose proof Y1 as (W2 & Hw2 & _).
    destruct (IH (with_remaining d1 (dec_run_remaining d1 - n)) (count - n))
      as (o & d' & -> & Y2 & Lo & HE); auto; [lia|by rewrite Hw2, Hw1|lia|].
    cbn [mbind option_bind]. do 2 eexists. split; [done|].
    split; [exact (yields_trans _ [] _ _ _ Y0 (yields_trans _ _ _ _ _ Y1 Y2))|].
    rewrite length_app, length_replicate. split; [lia|]. destruct HE; [left; lia|by right].
  - destruct (bitpacked_iteration d1 count unpack8) as (o1 & d2 & o2 & d3 & o3 & d4 & -> & E2 & E3 & Y1 & Lo & HP);
      auto; [by rewrite Hw1|].
    cbn [mbind option_bind]. rewrite E2. cbn [mbind option_bind]. rewrite E3. cbn [mbind option_bind].
    pose proof Y1 as (W4 & Hw4 & _). rewrite !length_app in Lo, HP.
    destruct (IH d4 (count - lenZ o1 - lenZ o2 - lenZ o3)) as (o & d' & -> & Y2 & Lo' & HE); auto;
      [lia|by rewrite Hw4, Hw1|destruct HP; [by right|left; lia]|].
    cbn [mbind option_bind]. do 2 eexists. split; [done|]. split.
    + pose proof (yields_trans _ [] _ _ _ Y0 (yields_trans _ _ _ _ _ Y1 Y2)) as Y.
      by rewrite <- !app_assoc in Y.
    + rewrite !length_app. split; [lia|]. destruct HE; [left; lia|by right].
Qed.

Lemma get_spec d : dec_wf d ->
  exists v d', carquet_rle_decoder_get d = Some (v, d') /\
    (yields d [v] d' \/ v = 0 /\ yields d [] d' /\ remaining d' = ([], is_ok (dec_status d'))).
Proof.
  intros W. unfold carquet_rle_decoder_get. destruct (is_ok (dec_status d)) eqn:Hok; cbn [negb].
  2: { do 2 eexists. split; [done|]. right. split_and!; auto using yields_refl. rewrite Hok.
       apply remaining_error. intros E. by rewrite E in Hok. }
  apply is_ok_true in Hok. destruct (ensure_run d W Hok) as ([ok d1] & -> & HR).
  pose proof (run_result_yields _ _ _ HR) as Y0. cbn [mbind option_bind]. destruct ok; cbn [negb].
  2: { do 2 eexists. split; [done|]. right. split_and!; auto. by eapply run_result_end. }
  pose proof HR as (W1 & Hw1 & _ & H1 & _). destruct (H1 eq_refl) as [Hok1 Hrr1].
  destruct (dec_in_rle_run d1) eqn:Hr1.
  { do 2 eexists. split; [done|]. left.
    exact (yields_trans _ [] _ _ _ Y0 (rle_take d1 1 W1 Hok1 Hr1 ltac:(lia))). }
  assert (exists ok d2, (if dec_bitpack_pos d1 >=? dec_bitpack_count d1 then fill_bitpack_buffer d1
                         else Some (true, d1)) = Some (ok, d2) /\ yields d1 [] d2 /\
    (ok = true -> dec_status d2 = CARQUET_OK /\ dec_in_rle_run d2 = false /\
       0 < dec_bitpack_count d2 - dec_bitpack_pos d2) /\
    (ok = false -> dec_status d2 <> CARQUET_OK)) as (ok & d2 & -> & Y1 & Ht & Hff).
  { rewrite Z.geb_leb. case_bool.
    - destruct (fill_spec d1) as (ok & d2 & E & Y & Ht & Hff); auto; [by apply staged_nil|].
      exists ok, d2. split_and!; auto. intros T. destruct (Ht T) as (? & ? & ? & L). split_and!; auto.
      rewrite length_staged in L by apply Y. lia.
    - exists true, d1. split; [done|]. split; [by apply yields_refl|]. split; [|done].
      intros _. split_and!; auto. lia. }
  cbn [mbind option_bind]. destruct ok; cbn [negb].
  2: { do 2 eexists. split; [done|]. right. split; [done|].
       split; [exact (yields_trans _ [] _ _ _ Y0 Y1)|]. specialize (Hff eq_refl).
       rewrite remaining_error by done. destruct (is_ok _) eqn:E; [by apply is_ok_true in E|done]. }
  destruct (Ht eq_refl) as (Hok2 & Hr2 & Hl2). pose proof Y1 as (W2 & _).
  destruct (rd_Some (dec_bitpack_buffer d2) (dec_bitpack_pos d2)) as [v Hv].
  { rewrite (wf_buffer _ W2). pose proof (wf_cursor _ W2). lia. }
  rewrite Hv. cbn [mbind option_bind]. do 2 eexists. split; [done|]. left.
  pose proof (staged_take d2 1 W2 Hok2 Hr2 ltac:(lia)) as Y2.
  assert (take (Z.to_nat 1) (staged d2) = [v]) as Et.
  { pose proof (wf_cursor _ W2). unfold staged, ptr_add. rewrite rd_lookup in Hv by lia. rewrite take_take.
    red_nat. rewrite (drop_S _ _ _ Hv). by replace (1 `min` _)%nat with 1%nat by lia. }
  rewrite Et in Y2. exact (yields_trans _ [] _ [v] _ Y0 (yields_trans _ [] _ [v] _ Y1 Y2)).
Qed.

Lemma skip_groups_spec fuel : forall d to_skip skipped, dec_wf d -> dec_status d = CARQUET_OK ->
  dec_in_rle_run d = false -> 0 <= to_skip <= dec_run_remaining d -> to_skip <= Z.of_nat fuel ->
  exists o d', skip_groups fuel d to_skip skipped = Some (skipped + lenZ o, d') /\ yields d o d' /\
    lenZ o <= to_skip /\ (dec_status d' <> CARQUET_OK \/ lenZ o = to_skip).
Proof.
  induction fuel as [|fuel IH]; intros d to_skip skipped W Hok Hr Hn Hf; cbn [skip_groups];
    rewrite !Z.gtb_ltb.
  { decide_bool. exists [], d. cbn. rewrite Z.add_0_r. split_and!; auto using yields_refl; lia. }
  destruct (Z.ltb_spec 0 to_skip); cbn [andb].
  2: { exists [], d. cbn. rewrite Z.add_0_r. split_and!; auto using yields_refl; lia. }
  decide_bool. rewrite ?Z.geb_leb.
  assert (exists ok d1, (if dec_bitpack_count d <=? dec_bitpack_pos d then fill_bitpack_buffer d
                         else Some (true, d)) = Some (ok, d1) /\ yields d [] d1 /\
    (ok = true -> dec_status d1 = CARQUET_OK /\ dec_in_rle_run d1 = false /\
       dec_run_remaining d1 = dec_run_remaining d /\ 0 < dec_bitpack_count d1 - dec_bitpack_pos d1) /\
    (ok = false -> dec_status d1 <> CARQUET_OK)) as (ok & d1 & -> & Y1 & Ht & Hff).
  { case_bool.
    - destruct (fill_spec d) as (ok & d1 & E & Y & Ht & Hff); auto; [by apply staged_nil|lia|].
      exists ok, d1. split_and!; auto. intros T. destruct (Ht T) as (? & ? & ? & L). split_and!; auto.
      rewrite length_staged in L by apply Y. lia.
    - exists true, d. split; [done|]. split; [by apply yields_refl|]. split; [|done].
      intros _. split_and!; auto. lia. }
  cbn [mbind option_bind]. destruct ok; cbn [negb].
  2: { exists [], d1. cbn. rewrite Z.add_0_r. split_and!; auto; lia. }
  destruct (Ht eq_refl) as (Hok1 & Hr1 & Hrr1 & Hl1). pose proof Y1 as (W1 & _).
  assert (dec_bitpack_count d1 - dec_bitpack_pos d1 <= dec_run_remaining d1) as Hle.
  { pose proof (wf_run _ W1) as HR. rewrite Hr1 in HR. destruct HR as (G & ? & ?). lia. }
  cbv zeta. match goal with |- context [with_bitpack _ _ (_ + ?c)] => set (n := c) end.
  assert (0 < n <= to_skip /\ n <= dec_bitpack_count d1 - dec_bitpack_pos d1) as Hn'.
  { unfold n. rewrite !Z.gtb_ltb. destruct (Z.ltb_spec to_skip (dec_bitpack_count d1 - dec_bitpack_pos d1));
      case_bool; lia. }
  pose proof (staged_take d1 n W1 Hok1 Hr1 ltac:(lia)) as Y2. pose proof Y2 as (W2 & _).
  destruct (IH _ (to_skip - n) (skipped + n) W2) as (o & d' & E & Y3 & Lo & HE); auto; [cbn; lia|lia|].
  change (dec_run_remaining (with_bitpack d1 _ _ _)) with (dec_run_remaining d1). rewrite E.
  assert (lenZ (take (Z.to_nat n) (staged d1)) = n) as Lt.
  { rewrite length_take. pose proof (length_staged d1 W1). lia. }
  eexists _, d'. split; [|split; [exact (yields_trans _ [] _ _ _ Y1 (yields_trans _ _ _ _ _ Y2 Y3))|]];
    cbn [app]; rewrite length_app, Nat2Z.inj_add, Lt; [do 2 f_equal; lia|].
  split; [lia|]. destruct HE; [by left|right; lia].
Qed.

Lemma skip_loop_spec fuel : forall d count skipped, dec_wf d -> skipped <= count ->
  count - skipped < Z.of_nat fuel \/ dec_status d <> CARQUET_OK ->
  exists o d', skip_loop fuel d count skipped = Some (skipped + lenZ o, d') /\ yields d o d' /\
    lenZ o <= count - skipped /\ (lenZ o = count - skipped \/ remaining d' = ([], is_ok (dec_status d'))).
Proof.
  induction fuel as [|fuel IH]; intros d count skipped W Hc Hf; cbn [skip_loop];
    (destruct (carquet_rle_decoder_has_next d) eqn:Hn;
      [pose proof (has_next_ok d Hn) as Hok|
       rewrite andb_false_r; exists [], d; cbn; rewrite Z.add_0_r;
       split_and!; auto using yields_refl, not_has_next; lia]).
  { destruct Hf; [lia|done]. }
  rewrite andb_true_r. case_bool.
  2: { exists [], d. cbn. rewrite Z.add_0_r. split_and!; auto using yields_refl; [lia|left; lia]. }
  destruct Hf as [Hf|]; [|done].
  destruct (ensure_run d W Hok) as ([ok d1] & -> & HR). pose proof (run_result_yields _ _ _ HR) as Y0.
  cbn [mbind option_bind]. destruct ok; cbn [negb].
  2: { exists [], d1. cbn. rewrite Z.add_0_r. split; [done|]. split; [done|]. split; [lia|].
       right. by eapply run_result_end. }
  pose proof HR as (W1 & Hw1 & _ & H1 & _). destruct (H1 eq_refl) as [Hok1 Hrr1].
  cbv zeta. match goal with |- context [skip_groups (Z.to_nat ?c)] => set (n := c) end.
  assert (0 < n <= count - skipped /\ n <= dec_run_remaining d1) as Hn'.
  { unfold n. rewrite Z.gtb_ltb. case_bool; lia. }
  destruct (dec_in_rle_run d1) eqn:Hr1.
  - pose proof (rle_take d1 n W1 Hok1 Hr1 ltac:(lia)) as Y1. pose proof Y1 as (W2 & _).
    destruct (IH _ count (skipped + n) W2) as (o & d' & -> & Y2 & Lo & HE); [lia|left; lia|].
    eexists _, d'. split; [|split; [exact (yields_trans _ [] _ _ _ Y0 (yields_trans _ _ _ _ _ Y1 Y2))|]];
      cbn [app]; rewrite length_app, length_replicate; [do 2 f_equal; lia|].
    split; [lia|]. destruct HE; [left; lia|by right].
  - destruct (skip_groups_spec (Z.to_nat n) d1 n skipped) as (o1 & d2 & -> & Y1 & Lo1 & HE1); auto; [lia..|].
    cbn [mbind option_bind]. pose proof Y1 as (W2 & _).
    destruct (IH d2 count (skipped + lenZ o1) W2) as (o & d' & -> & Y2 & Lo & HE);
      [lia|destruct HE1; [by right|left; lia]|].
    exists (o1 ++ o), d'. split; [|split; [exact (yields_trans _ [] _ _ _ Y0 (yields_trans _ _ _ _ _ Y1 Y2))|]];
      rewrite length_app; [do 2 f_equal; lia|].
    split; [lia|]. destruct HE; [left; lia|by right].
Qed.

(** A step that hands out [o] and either all that was asked for or all there is. *)
Lemma yields_take d o d' n : yields d o d' -> lenZ o <= n -> (lenZ o = n \/ fst (remaining d') = []) ->
  o = take (Z.to_nat n) (fst (remaining d)) /\
  remaining d' = (drop (Z.to_nat n) (fst (remaining d)), snd (remaining d)).
Proof.
  intros (_ & _ & E) Hl HE. rewrite E. unfold prepend. cbn. destruct (remaining d') as [vs ok]. cbn in *.
  destruct HE as [<-| ->].
  - rewrite Nat2Z.id, take_app_length, drop_app_length. done.
  - rewrite app_nil_r, take_ge, drop_ge by lia. done.
Qed.

Lemma get_batch_spec d n : dec_wf d -> 0 <= n ->
  exists o d', carquet_rle_decoder_get_batch d n = Some (o, d') /\ dec_wf d' /\
    dec_bit_width d' = dec_bit_width d /\
    o = take (Z.to_nat n) (fst (remaining d)) /\
    remaining d' = (drop (Z.to_nat n) (fst (remaining d)), snd (remaining d)) /\
    (lenZ o < n -> snd (remaining d) = is_ok (dec_status d')).
Proof.
  intros W Hn. unfold carquet_rle_decoder_get_batch.
  set (unpack8 := if _ >? 0 then _ else None).
  destruct (get_batch_loop_spec unpack8 (S (Z.to_nat n)) d n) as (o & d' & E & Y & Lo & HE); [done..|lia|].
  exists o, d'. rewrite E. pose proof Y as (W' & Hw & ER).
  destruct (yields_take d o d' n Y Lo) as [Eo Er]; [destruct HE as [?| ->]; auto|].
  split_and!; auto. intros Hlt. destruct HE as [?|HE]; [lia|]. rewrite ER. unfold prepend. cbn. by rewrite HE.
Qed.

End DecoderSpec.

(** ** Properties *)

Section Properties.
Context {K : UnpackKernels} {KOk : UnpackKernelsOk K}.

Lemma decode_all_values data size w n :
  bytes_ok data -> 0 <= size <= lenZ data -> 0 <= n ->
  carquet_rle_decode_all data size w n =
    Some (if (0 <=? w) && (w <=? 32)
          then take (Z.to_nat n) (fst (rle_values w (take (Z.to_nat size) data))) else []).
Proof.
  intros Hd Hs Hn. unfold carquet_rle_decode_all.
  destruct (get_batch_spec _ n (init_dec_wf data size w Hd Hs) Hn) as (o & d' & -> & _ & _ & -> & _).
  cbn [mbind option_bind]. f_equal. repeat case_bool; cbn [andb].
  - by rewrite init_remaining.
  - rewrite remaining_error; [by destruct (Z.to_nat n)|].
    unfold carquet_rle_decoder_init. by decide_bool.
  - rewrite remaining_error; [by destruct (Z.to_nat n)|].
    unfold carquet_rle_decoder_init. by decide_bool.
  - lia.
Qed.

(** C29: decoding is exact and safe on arbitrary bytes.  For every input, hostile or
    not, and every width, [carquet_rle_decode_all] terminates without an
    out-of-bounds access and returns the first [n] values the stream denotes: RLE runs
    repeated, bit-packed groups in order, empty runs skipped, and everything before
    the first malformed or truncated run. *)
Theorem rle_decode_all_exact data size w n :
  bytes_ok data -> 0 <= size <= lenZ data -> 0 <= n ->
  carquet_rle_decode_all data size w n =
    Some (if (0 <=? w) && (w <=? 32)
          then take (Z.to_nat n) (fst (rle_values w (take (Z.to_nat size) data))) else []).
Proof. exact (decode_all_values data size w n). Qed.

(** C32: the resumable decoder refines the value stream.  From any state the decoder
    can be in, [get_batch], [skip] and [get] are total, keep the invariant, and
    respectively take, drop and pop the values the state denotes; a short batch means
    the stream is over, and the status then tells a clean end from a corrupt one. *)
Theorem rle_decoder_refines d n : dec_wf d -> 0 <= n ->
  let vs := fst (remaining d) in
  (exists d', carquet_rle_decoder_get_batch d n = Some (take (Z.to_nat n) vs, d') /\ dec_wf d' /\
     fst (remaining d') = drop (Z.to_nat n) vs /\
     (lenZ vs < n -> snd (remaining d) = is_ok (carquet_rle_decoder_status d'))) /\
  (exists d', carquet_rle_decoder_skip d n = Some (lenZ (take (Z.to_nat n) vs), d') /\ dec_wf d' /\
     fst (remaining d') = drop (Z.to_nat n) vs) /\
  (exists d', carquet_rle_decoder_get d = Some (default 0 (head vs), d') /\ dec_wf d' /\
     fst (remaining d') = tail vs).
Proof.
  intros W Hn vs. split_and!.
  - destruct (get_batch_spec d n W Hn) as (o & d' & -> & W' & _ & -> & E & HE). exists d'.
    split_and!; auto; [by rewrite E|]. intros Hl. apply HE. rewrite length_take. fold vs. lia.
  - destruct (skip_loop_spec (S (Z.to_nat n)) d n 0 W Hn ltac:(lia)) as (o & d' & E & Y & Lo & HE).
    destruct (yields_take d o d' n Y) as [Eo Er]; [lia|destruct HE as [?| ->]; [left; lia|by right]|].
    exists d'. unfold carquet_rle_decoder_skip. rewrite E, Eo. split_and!; [done|apply Y|by rewrite Er].
  - destruct (get_spec d W) as (v & d' & -> & [Y|(-> & Y & E)]).
    + pose proof Y as (? & _ & E). exists d'. unfold vs. rewrite E. done.
    + pose proof Y as (? & _ & E'). exists d'. unfold vs. rewrite E', E. done.
Qed.

(** Batches compose.  Asking for [n] values and then for [m] gives exactly the
    [n + m] values one larger request gives, however the boundary falls inside a run
    or a group of eight. *)
Lemma rle_batches_compose d n m : dec_wf d -> 0 <= n -> 0 <= m ->
  exists o1 d1 o2 d2 d3,
    carquet_rle_decoder_get_batch d n = Some (o1, d1) /\
    carquet_rle_decoder_get_batch d1 m = Some (o2, d2) /\
    carquet_rle_decoder_get_batch d (n + m) = Some (o1 ++ o2, d3) /\
    remaining d3 = remaining d2.
Proof.
  intros W Hn Hm.
  destruct (get_batch_spec d n W Hn) as (o1 & d1 & E1 & W1 & _ & Eo1 & Er1 & _).
  destruct (get_batch_spec d1 m W1 Hm) as (o2 & d2 & E2 & W2 & _ & Eo2 & Er2 & _).
  destruct (get_batch_spec d (n + m) W ltac:(lia)) as (o3 & d3 & E3 & W3 & _ & Eo3 & Er3 & _).
  exists o1, d1, o2, d2, d3. rewrite Er1 in Eo2, Er2. cbn in Eo2, Er2.
  assert (Z.to_nat (n + m) = (Z.to_nat n + Z.to_nat m)%nat) as En by lia. rewrite En in *.
  split_and!; auto.
  - rewrite E3, Eo3, Eo1, Eo2. do 2 f_equal. symmetry.
    rewrite <- (take_drop (Z.to_nat n) (take (Z.to_nat n + Z.to_nat m) _)).
    rewrite take_take, skipn_firstn_comm. f_equal; f_equal; lia.
  - rewrite Er3, Er2, drop_drop. done.
Qed.

End Properties.

(** An RLE run of four 5s and one bit-packed group, width 3. *)
Definition sample_stream : list Z := [8; 5; 3; 0x88; 0xC6; 0xFA].

Lemma sample_bytes : bytes_ok sample_stream.
Proof. by apply (bool_decide_unpack _). Qed.

Lemma rle_decode_all_exact_witness :
  @carquet_rle_decode_all scalar_kernels sample_stream 6 3 6 =
    Some (take 6 (fst (rle_values 3 sample_stream))) /\
  fst (rle_values 3 sample_stream) = [5; 5; 5; 5; 0; 1; 2; 3; 4; 5; 6; 7].
Proof.
  split; [|reflexivity].
  apply (@rle_decode_all_exact scalar_kernels _ sample_stream 6 3 6 sample_bytes); [cbn; lia|lia].
Defined.

Lemma rle_decoder_refines_witness :
  let d := carquet_rle_decoder_init sample_stream 6 3 in
  exists d', @carquet_rle_decoder_get_batch scalar_kernels d 7 = Some ([5; 5; 5; 5; 0; 1; 2], d') /\
    fst (remaining d') = [3; 4; 5; 6; 7].
Proof.
  intros d. assert (dec_wf d) as W by (apply init_dec_wf; [apply sample_bytes|cbn; lia]).
  destruct (@rle_decoder_refines scalar_kernels _ d 7 W ltac:(lia)) as ((d' & E & _ & R & _) & _).
  exists d'. split; [exact E|exact R].
Defined.

Lemma rle_batches_compose_witness :
  let d := carquet_rle_decoder_init sample_stream 6 3 in
  exists o1 d1 o2 d2 d3,
    @carquet_rle_decoder_get_batch full_kernels d 3 = Some (o1, d1) /\
    @carquet_rle_decoder_get_batch full_kernels d1 6 = Some (o2, d2) /\
    @carquet_rle_decoder_get_batch full_kernels d (3 + 6) = Some (o1 ++ o2, d3) /\
    remaining d3 = remaining d2.
Proof.
  apply (@rle_batches_compose full_kernels _); [|lia..].
  apply init_dec_wf; [apply sample_bytes|cbn; lia].
Defined.
