(* ===== verification/RleEncode.v ===== *)
(** * The RLE hybrid encoder and its round trip

    What the encoder has appended denotes, in the sense of [rle_values], exactly the
    values it has let go of; the rest is staged.  Encoding and decoding are therefore
    inverse. *)

From S2P Require Import Prelude Status Endian Buffer Bitpack Rle RleDecode.

(** ** Concatenating streams *)

Lemma spec_varint_app n p q v rest : spec_varint n p = Some (v, rest) ->
  spec_varint n (p ++ q) = Some (v, rest ++ q).
Proof.
  revert p v rest. induction n as [|n IH]; intros [|b t] v rest; cbn; [done..|].
  case_bool; intros E; [by simplify_eq|].
  destruct (spec_varint n t) as [[v' rest']|] eqn:E'; cbn in E; [|done]. simplify_eq.
  by rewrite (IH _ _ _ E').
Qed.

Lemma rle_header_app p q h rest : rle_header p = Some (h, rest) -> rle_header (p ++ q) = Some (h, rest ++ q).
Proof.
  unfold rle_header. destruct (spec_varint 5 p) as [[v r]|] eqn:E; cbn [mbind option_bind]; [|done].
  intros. simplify_eq. by rewrite (spec_varint_app _ _ q _ _ E).
Qed.

Lemma ptr_add_app_l {A} (p q : list A) n : 0 <= n <= lenZ p -> ptr_add (p ++ q) n = ptr_add p n ++ q.
Proof. intros. unfold ptr_add. apply drop_app_le. lia. Qed.

Lemma run_groups_app w G p q vs rest : bytes_ok p -> bytes_ok q -> 0 <= w -> 0 <= G ->
  run_groups w G p = (vs, Some rest) -> run_groups w G (p ++ q) = (vs, Some (rest ++ q)).
Proof.
  intros Hp Hq Hw HG. unfold run_groups. rewrite length_app. repeat case_bool; intros; simplify_eq; [|lia].
  rewrite ptr_add_app_l by nia. f_equal.
  rewrite <- (unpack_take _ _ (p ++ q) (length p)) by (auto with bytes; nia). by rewrite take_app_length.
Qed.

Lemma prepend_eq l r vs ok : prepend l r = (vs, ok) -> exists us, r = (us, ok) /\ vs = l ++ us.
Proof. destruct r. intros [= <- <-]. eauto. Qed.

(** A clean stream followed by more bytes. *)
Lemma rle_values_app w p q vs : bytes_ok p -> bytes_ok q -> 0 <= w -> rle_values w p = (vs, true) ->
  rle_values w (p ++ q) = prepend vs (rle_values w q).
Proof.
  intros Hp Hq Hw. revert vs Hp. induction p as [p IH] using (induction_ltof1 _ length).
  unfold ltof in IH. intros vs Hp E. destruct (decide (p = [])) as [->|Hne].
  { rewrite rle_values_nil in E. simplify_eq. by rewrite prepend_nil. }
  rewrite rle_values_step in E by done. rewrite rle_values_step; [|done|by destruct p].
  destruct (rle_header p) as [[h rest]|] eqn:Eh; [|done]. rewrite (rle_header_app _ q _ _ Eh).
  pose proof (rle_header_length _ _ _ Eh) as Hl. pose proof (rle_header_inv _ _ _ Hp Eh) as (Hh & Hr & _).
  destruct (Z.eqb_spec (h / 2) 0); [by apply IH|]. destruct (Z.even h); cbv zeta in *.
  - rewrite length_app. case_bool_in E; [done|]. decide_bool.
    apply prepend_eq in E as (us & E & ->). assert (0 <= (w + 7) / 8) by dlia.
    rewrite take_app_le, ptr_add_app_l, (IH (ptr_add rest ((w + 7) / 8)) ltac:(unfold ptr_add; rewrite length_drop; lia) us)
      by (auto with bytes; lia).
    by rewrite prepend_app.
  - destruct (run_groups w (h / 2) rest) as [gs [rest'|]] eqn:Eg; [|done].
    rewrite (run_groups_app _ _ _ q _ _ Hr Hq Hw (Z.div_pos h 2 ltac:(lia) ltac:(lia)) Eg).
    apply prepend_eq in E as (us & E & ->).
    assert (bytes_ok rest' /\ (length rest' <= length rest)%nat) as [? ?].
    { unfold run_groups in Eg. case_bool_in Eg; simplify_eq. split; [auto with bytes|].
      unfold ptr_add. rewrite length_drop. lia. }
    rewrite (IH rest' ltac:(lia) us) by done. by rewrite prepend_app.
Qed.

(** ** Single runs *)

Lemma header_bytes_spec n v q : 0 <= v < 2 ^ (7 * (Z.of_nat n + 1)) ->
  exists l, header_bytes n v = Some l /\ spec_varint (S n) (l ++ q) = Some (v, q) /\ bytes_ok l /\
    (1 <= length l <= S n)%nat.
Proof.
  revert v. induction n as [|n IH]; intros v Hv; cbn [header_bytes]; rewrite Z.geb_leb.
  { change (2 ^ (7 * (Z.of_nat 0 + 1))) with 128 in Hv. decide_bool. rewrite u8_small by lia.
    exists [v]. cbn. decide_bool. split_and!; auto; [|lia..]. repeat constructor; lia. }
  case_bool.
  - destruct (IH (v ≫ 7)) as (l & -> & Es & Hl & Hlen).
    { rewrite shiftr_div by lia. split; [apply Z.div_pos; lia|].
      apply Z.div_lt_upper_bound; [lia|]. rewrite <- Z.pow_add_r by lia.
      replace (7 + 7 * (Z.of_nat n + 1)) with (7 * (Z.of_nat (S n) + 1)) by lia. lia. }
    cbn [mbind option_bind]. rewrite byte_land_7F, byte_lor_80 by (apply Z.mod_pos_bound; lia).
    pose proof (Z.mod_pos_bound v (2 ^ 7) ltac:(lia)). rewrite u8_small by lia.
    eexists. split; [done|]. cbn [app]. rewrite shiftr_div in Es by lia. split_and!.
    + cbn [spec_varint]. decide_bool. cbn [spec_varint] in Es. rewrite Es. cbn. do 2 f_equal.
      pose proof (Z.div_mod v (2 ^ 7)). lia.
    + constructor; [unfold in_u; lia|done].
    + cbn. lia.
    + cbn. lia.
  - rewrite u8_small by lia. exists [v]. cbn. decide_bool. split_and!; auto; [|lia..]. repeat constructor; lia.
Qed.

Lemma write_value_bytes_spec v vb : 0 <= vb <= 4 -> write_value_bytes v vb = le_bytes (Z.to_nat vb) v.
Proof.
  intros H. unfold write_value_bytes, u8. rewrite !shiftr_div by lia.
  assert (vb = 0 \/ vb = 1 \/ vb = 2 \/ vb = 3 \/ vb = 4) as Hc by lia.
  destruct Hc as [->|[->|[->|[->| ->]]]]; cbn; red_nat; cbn;
    rewrite ?Z.div_div by lia; repeat f_equal; done.
Qed.

(** The bytes of an RLE run. *)
Lemma rle_run_values w n v q : 0 <= w <= 32 -> 1 <= n < 2 ^ 31 -> in_u w v -> bytes_ok q ->
  exists l, header_bytes 4 (u32 (n ≪ 1)) = Some l /\
    let out := l ++ write_value_bytes v (rle_value_bytes w) in
    bytes_ok out /\ lenZ out <= 9 /\
    rle_values w (out ++ q) = prepend (replicate (Z.to_nat n) v) (rle_values w q).
Proof.
  intros Hw Hn Hv Hq. rewrite shiftl_mul, u32_small by lia. change (2 ^ 1) with 2.
  set (vb := rle_value_bytes w). assert (0 <= vb <= 4 /\ w <= 8 * vb) as [Hvb Hvw].
  { unfold vb, rle_value_bytes. dlia. }
  rewrite write_value_bytes_spec by done. set (bs := le_bytes (Z.to_nat vb) v).
  assert (lenZ bs = vb) as Lb by (unfold bs; rewrite length_le_bytes; lia).
  destruct (header_bytes_spec 4 (n * 2) (bs ++ q)) as (l & -> & Es & Hl & Hlen).
  { change (7 * (Z.of_nat 4 + 1)) with 35. lia. }
  exists l. split; [done|]. cbv zeta. split; [apply Forall_app_2; [done|apply le_bytes_ok]|].
  rewrite length_app. split; [lia|]. rewrite <- app_assoc, rle_values_step; [|lia|destruct l; [cbn in Hlen; lia|done]].
  unfold rle_header. rewrite Es. cbn [mbind option_bind]. rewrite Z.mod_small, Z.div_mul by lia. decide_bool.
  rewrite Z.even_mul, orb_true_r. change ((w + 7) / 8) with vb. rewrite length_app. decide_bool.
  rewrite ptr_add_app by lia. do 2 f_equal. rewrite take_app_length' by lia. unfold bs.
  unfold in_u in Hv. pose proof (Z.pow_le_mono_r 2 w (8 * Z.of_nat (Z.to_nat vb))).
  rewrite le_val_bytes, !(Z.mod_small v) by lia. done.
Qed.

(** The bytes of a bit-packed group. *)
Lemma group_values w vs q : 0 <= w <= 32 -> length vs = 8%nat -> Forall (in_u w) vs -> bytes_ok q ->
  rle_values w (3 :: pack w (Z.to_nat w) vs ++ q) = prepend vs (rle_values w q).
Proof.
  intros Hw Hl Hv Hq. rewrite rle_values_step by (done || lia). unfold rle_header.
  cbn [spec_varint]. change (3 <? 128) with true. cbn [mbind option_bind].
  change (3 mod 2 ^ 32) with 3. change (3 / 2) with 1. change (1 =? 0) with false. change (Z.even 3) with false.
  cbv iota. unfold run_groups. rewrite length_app, length_pack. decide_bool.
  rewrite ptr_add_app by (rewrite length_pack; lia). change (Z.to_nat (8 * 1)) with 8%nat.
  rewrite <- (unpack_take _ _ _ (Z.to_nat w)); [|by apply Forall_app_2; [apply pack_ok|]|lia|lia].
  rewrite take_app_length' by (by rewrite length_pack). rewrite unpack_pack by lia.
  rewrite take_ge by lia. f_equal. transitivity (id <$> vs); [|apply list_fmap_id].
  apply list_fmap_ext. intros i v Hi. apply Z.mod_small. exact (Forall_lookup_1 _ _ _ _ Hv Hi).
Qed.

(** ** What the encoder has written *)

Definition emits (w : Z) (b : carquet_buffer_t) (vs : list Z) (b' : carquet_buffer_t) : Prop :=
  buffer_wf b' /\ buf_owns_data b' = true /\
  exists out, buf_bytes b' = buf_bytes b ++ out /\ bytes_ok out /\ lenZ out <= 9 * lenZ vs /\
    rle_values w out = (vs, true).

Lemma emits_refl w b : buffer_wf b -> buf_owns_data b = true -> emits w b [] b.
Proof.
  intros. split_and!; auto. exists []. rewrite app_nil_r. split_and!; auto. cbn. lia.
Qed.

Lemma emits_trans w b1 vs1 b2 vs2 b3 : 0 <= w -> emits w b1 vs1 b2 -> emits w b2 vs2 b3 ->
  emits w b1 (vs1 ++ vs2) b3.
Proof.
  intros Hw (_ & _ & o1 & E1 & Hb1 & L1 & V1) (? & ? & o2 & E2 & Hb2 & L2 & V2).
  split_and!; auto. exists (o1 ++ o2). rewrite !length_app. split_and!; auto with bytes; [|lia|].
  - by rewrite E2, E1, app_assoc.
  - rewrite (rle_values_app w o1 o2 vs1), V2 by done. done.
Qed.

Lemma emits_size w b vs b' : buffer_wf b -> emits w b vs b' -> buf_size b' <= buf_size b + 9 * lenZ vs.
Proof.
  intros W (W' & _ & out & E & _ & L & _). rewrite <- !buf_bytes_length, E, length_app by done. lia.
Qed.

Section EncoderSpec.
Context {A : Allocator} {AOk : AllocatorOk A} {AT : AllocatorTotal A}.

(** Appending the bytes of complete runs. *)
Lemma append_emits w b out vs : 0 <= w -> buffer_wf b -> buf_owns_data b = true -> bytes_ok out ->
  lenZ out <= 9 * lenZ vs -> buf_size b + 9 * lenZ vs < 2 ^ 64 ->
  rle_values w (out ++ []) = prepend vs (rle_values w []) ->
  emits w b vs (snd (carquet_buffer_append b out)).
Proof.
  intros Hw W Ho Hb Hl Hs E. destruct (append_total b out) as (b' & -> & W' & Ho' & Eb & _); auto; [lia|].
  split_and!; auto. exists out. split_and!; auto. rewrite app_nil_r in E. rewrite E.
  unfold prepend. cbn. by rewrite app_nil_r.
Qed.

(** The fields a flush leaves alone. *)
Definition same_run (e e' : carquet_rle_encoder_t) : Prop :=
  enc_bit_width e' = enc_bit_width e /\ enc_prev_value e' = enc_prev_value e /\
  enc_repeat_count e' = enc_repeat_count e /\ enc_has_prev e' = enc_has_prev e /\
  enc_status e' = enc_status e.

Lemma same_run_trans e1 e2 e3 : same_run e1 e2 -> same_run e2 e3 -> same_run e1 e3.
Proof. intros (? & ? & ? & ? & ?) (? & ? & ? & ? & ?). split_and!; congruence. Qed.

(** The staging buffer holds [s]. *)
Record staging (e : carquet_rle_encoder_t) (s : list Z) : Prop := {
  st_len : length (enc_bitpack_buffer e) = 8%nat;
  st_ok : Forall (in_u (enc_bit_width e)) (enc_bitpack_buffer e);
  st_count : enc_bitpack_count e = lenZ s;
  st_total : enc_bitpack_total e = lenZ s;
  st_prefix : take (length s) (enc_bitpack_buffer e) = s }.

Definition buf_room (e : carquet_rle_encoder_t) (n : Z) : Prop :=
  buffer_wf (enc_buffer e) /\ buf_owns_data (enc_buffer e) = true /\
  buf_size (enc_buffer e) + 9 * n < 2 ^ 64.

Lemma flush_rle_spec e : 0 <= enc_bit_width e <= 32 -> in_u (enc_bit_width e) (enc_prev_value e) ->
  1 <= enc_repeat_count e < 2 ^ 31 -> buf_room e (enc_repeat_count e) ->
  exists b', flush_rle e = Some (with_repeat (with_buffer e b') 0) /\
    emits (enc_bit_width e) (enc_buffer e) (replicate (Z.to_nat (enc_repeat_count e)) (enc_prev_value e)) b'.
Proof.
  intros Hw Hv Hn (W & Ho & Hr). unfold flush_rle. decide_bool.
  destruct (rle_run_values (enc_bit_width e) (enc_repeat_count e) (enc_prev_value e) [])
    as (l & -> & Hb & Hl & E); auto. cbn [mbind option_bind].
  eexists. split; [done|]. apply append_emits; auto; [lia|..]; rewrite length_replicate; lia.
Qed.

(** The run found in the staging buffer is a run of equal values. *)
Lemma equal_run_spec fuel buf count val i : forall run, 1 <= run -> 0 <= i -> i + run <= count ->
  count <= lenZ buf -> count - (i + run) <= Z.of_nat fuel ->
  take (Z.to_nat run) (ptr_add buf i) = replicate (Z.to_nat run) val ->
  exists run', equal_run fuel buf count val i run = Some run' /\ run <= run' /\ i + run' <= count /\
    take (Z.to_nat run') (ptr_add buf i) = replicate (Z.to_nat run') val.
Proof.
  induction fuel as [|fuel IH]; intros run Hr Hi Hc Hl Hf Et; cbn [equal_run].
  { decide_bool. exists run. split_and!; auto; lia. }
  case_bool; [|exists run; split_and!; auto; lia].
  destruct (rd_Some buf (i + run)) as [x Hx]; [lia|]. rewrite Hx. cbn [mbind option_bind].
  case_bool; [|exists run; split_and!; auto; lia]. subst x.
  destruct (IH (run + 1)) as (run' & -> & ? & ? & ?); [lia..| |exists run'; split_and!; auto; lia].
  replace (Z.to_nat (run + 1)) with (S (Z.to_nat run)) by lia.
  rewrite (take_S_r _ _ val), Et, replicate_S_end; [done|].
  unfold ptr_add. rewrite lookup_drop, <- Hx, rd_lookup by lia. f_equal. lia.
Qed.

Lemma flush_as_rle_spec s fuel : forall e i, staging e s -> 0 <= enc_bit_width e <= 32 ->
  0 <= i <= lenZ s -> lenZ s - i <= Z.of_nat fuel -> buf_room e (lenZ s - i) ->
  exists b', flush_as_rle_loop fuel e i = Some (with_buffer e b') /\
    emits (enc_bit_width e) (enc_buffer e) (ptr_add s i) b'.
Proof.
  induction fuel as [|fuel IH]; intros e i S Hw Hi Hf Hroom; cbn [flush_as_rle_loop];
    rewrite (st_count _ _ S); pose proof Hroom as (W & Ho & Hr).
  { decide_bool. exists (enc_buffer e). split; [by destruct e|].
    unfold ptr_add. rewrite drop_ge by lia. by apply emits_refl. }
  pose proof (st_len _ _ S) as L8. pose proof (f_equal length (st_prefix _ _ S)) as Lp.
  rewrite length_take, L8 in Lp. case_bool.
  2: { exists (enc_buffer e). split; [by destruct e|].
       unfold ptr_add. rewrite drop_ge by lia. by apply emits_refl. }
  destruct (rd_Some (enc_bitpack_buffer e) i) as [val Hval]; [lia|]. rewrite Hval. cbn [mbind option_bind].
  destruct (equal_run_spec 8 (enc_bitpack_buffer e) (lenZ s) val i 1) as (run & -> & Hr1 & Hrl & Et); try lia.
  { red_nat. unfold ptr_add. rewrite rd_lookup in Hval by lia. by rewrite (drop_S _ _ _ Hval). }
  cbn [mbind option_bind]. assert (in_u (enc_bit_width e) val) as Hv.
  { rewrite rd_lookup in Hval by lia. exact (Forall_lookup_1 _ _ _ _ (st_ok _ _ S) Hval). }
  destruct (rle_run_values (enc_bit_width e) run val []) as (l & -> & Hb & Hl & E); auto; [lia|].
  cbn [mbind option_bind]. set (out := l ++ _) in *. unfold rle_append.
  assert (emits (enc_bit_width e) (enc_buffer e) (replicate (Z.to_nat run) val)
            (snd (carquet_buffer_append (enc_buffer e) out))) as Em.
  { apply append_emits; auto; [lia|..]; rewrite length_replicate; lia. }
  set (b1 := snd _) in *. pose proof (emits_size _ _ _ _ W Em) as Hsz. rewrite length_replicate in Hsz.
  destruct (IH (with_buffer e b1) (i + run)) as (b' & -> & Em2).
  - by destruct S; split.
  - done.
  - lia.
  - lia.
  - destruct Em as (? & ? & _). split_and!; auto. cbn. lia.
  - exists b'. split; [done|]. cbn in Em2.
    replace (ptr_add s i) with (replicate (Z.to_nat run) val ++ ptr_add s (i + run));
      [eapply emits_trans; [lia|done..]|].
    rewrite <- Et, <- ptr_add_add by lia.
    etransitivity; [|apply (take_drop (Z.to_nat run) (ptr_add s i))].
    f_equal. rewrite <- (st_prefix _ _ S) at 1. unfold ptr_add.
    rewrite skipn_firstn_comm, take_take. f_equal. lia.
Qed.

Lemma with_staged_nil e b : length (enc_bitpack_buffer e) = 8%nat ->
  Forall (in_u (enc_bit_width e)) (enc_bitpack_buffer e) ->
  let e' := with_staged (with_buffer e b) (enc_bitpack_buffer e) 0 0 in
  staging e' [] /\ same_run e e'.
Proof. intros. split; [by split|]. by split_and!. Qed.

Lemma flush_group_spec e s : staging e s -> 0 <= enc_bit_width e <= 32 -> length s = 8%nat ->
  buf_room e 8 ->
  exists b', (enc ← write_varint e 3; flush_groups 1 enc) = Some (with_buffer e b') /\
    emits (enc_bit_width e) (enc_buffer e) s b'.
Proof.
  intros ST Hw L8 (W & Ho & Hr). pose proof (st_len _ _ ST) as Lb.
  pose proof (st_prefix _ _ ST) as Es. rewrite take_ge in Es by lia.
  unfold write_varint. change (header_bytes 4 3) with (Some [3]). cbn [mbind option_bind flush_groups].
  unfold rle_append. change (enc_bitpack_buffer (with_buffer e _)) with (enc_bitpack_buffer e).
  change (enc_bit_width (with_buffer e _)) with (enc_bit_width e).
  rewrite bitpack8_32_spec; [|done| |lia].
  2: { eapply Forall_impl; [|apply (st_ok _ _ ST)]. intros x [? ?]. unfold in_u.
       pose proof (Z.pow_le_mono_r 2 (enc_bit_width e) 32). lia. }
  cbn [mbind option_bind with_buffer enc_buffer]. rewrite Es, take_ge by lia.
  set (ps := pack _ _ _). assert (lenZ ps = enc_bit_width e) as Lp by (unfold ps; rewrite length_pack; lia).
  destruct (append_total (enc_buffer e) [3]) as (b1 & -> & W1 & Ho1 & E1 & S1); auto.
  { repeat constructor; lia. }
  { cbn. lia. }
  cbn [snd length] in *. destruct (append_total b1 ps) as (b2 & -> & W2 & Ho2 & E2 & S2); auto; [apply pack_ok|lia|].
  cbn [snd]. exists b2. split; [by destruct e|]. split_and!; auto. exists (3 :: ps).
  split; [by rewrite E2, E1, <- app_assoc|]. split; [constructor; [by unfold in_u|apply pack_ok]|].
  split; [cbn [length]; lia|].
  pose proof (group_values (enc_bit_width e) s [] Hw L8) as V. rewrite app_nil_r in V. fold ps in V.
  rewrite V; [unfold prepend; cbn; by rewrite app_nil_r| |constructor].
  rewrite <- Es. apply (st_ok _ _ ST).
Qed.

Lemma flush_bitpack_spec e s : staging e s -> 0 <= enc_bit_width e <= 32 -> buf_room e (lenZ s) ->
  exists e', flush_bitpack e = Some e' /\ emits (enc_bit_width e) (enc_buffer e) s (enc_buffer e') /\
    same_run e e' /\ staging e' [].
Proof.
  intros ST Hw Hroom. pose proof Hroom as (W & Ho & Hr). pose proof (st_len _ _ ST) as Lb.
  pose proof (f_equal length (st_prefix _ _ ST)) as Lp. rewrite length_take, Lb in Lp.
  unfold flush_bitpack. rewrite (st_count _ _ ST), (st_total _ _ ST).
  destruct (Z.eqb_spec (lenZ s) 0) as [E0|E0].
  { destruct s; [|cbn in E0; lia]. exists e. split_and!; auto using emits_refl; by split_and!. }
  case_bool.
  - destruct (flush_as_rle_spec s 8 e 0 ST Hw) as (b' & E & Em); [lia..|by rewrite Z.sub_0_r|].
    unfold flush_bitpack_as_rle. rewrite E. cbn [mbind option_bind].
    eexists. split; [done|]. split; [done|]. apply and_comm, (with_staged_nil e b'); apply ST.
  - assert (lenZ s = 8) as L8 by lia. rewrite L8. change ((8 + 7) / 8) with 1.
    change (u32 ((1 ≪ 1) .| 1)) with 3. change (Z.to_nat 1) with 1%nat.
    destruct (flush_group_spec e s ST Hw) as (b' & E & Em); [lia|by rewrite <- L8|].
    destruct (write_varint e 3) as [e1|]; [|done]. cbn [mbind option_bind] in E |- *. rewrite E.
    cbn [mbind option_bind]. eexists. split; [done|]. split; [done|]. apply and_comm, (with_staged_nil e b'); apply ST.
Qed.

(** ** The encoder invariant

    [enc_inv b0 done s e]: relative to the buffer it started with, the encoder has
    written runs for [done] and holds [s] staged. *)

Record enc_inv (b0 : carquet_buffer_t) (done s : list Z) (e : carquet_rle_encoder_t) : Prop := {
  ei_width : 0 <= enc_bit_width e <= 32;
  ei_status : enc_status e = CARQUET_OK;
  ei_prev : in_u (enc_bit_width e) (enc_prev_value e);
  ei_staging : staging e s;
  ei_short : (length s < 8)%nat;
  ei_emits : emits (enc_bit_width e) b0 done (enc_buffer e) }.

Lemma enc_room b0 done s e n : buffer_wf b0 -> enc_inv b0 done s e ->
  buf_size b0 + 9 * (lenZ done + n) < 2 ^ 64 -> buf_room e n.
Proof.
  intros W I H. pose proof (emits_size _ _ _ _ W (ei_emits _ _ _ _ I)).
  destruct (ei_emits _ _ _ _ I) as (? & ? & _). split_and!; auto. lia.
Qed.

Lemma enc_flush b0 done s e : buffer_wf b0 -> enc_inv b0 done s e ->
  buf_size b0 + 9 * (lenZ done + lenZ s) < 2 ^ 64 ->
  exists e', flush_bitpack e = Some e' /\ enc_inv b0 (done ++ s) [] e' /\ same_run e e'.
Proof.
  intros W I H. pose proof (enc_room _ _ _ _ _ W I H) as R.
  destruct (flush_bitpack_spec e s) as (e' & -> & Em & SR & ST); [apply I|apply I|done|].
  exists e'. split; [done|]. split; [|done]. destruct SR as (Hw & Hp & _ & _ & Hs).
  split; rewrite ?Hw, ?Hp, ?Hs; [apply I|apply I|apply I|done|cbn; lia|].
  eapply emits_trans; [destruct (ei_width _ _ _ _ I); lia|apply I|done].
Qed.

(** Staging one more value, flushing a full group. *)
Lemma stage_repeats_spec b0 n : forall done s e, buffer_wf b0 -> enc_inv b0 done s e ->
  buf_size b0 + 9 * (lenZ done + lenZ s + Z.of_nat n) < 2 ^ 64 ->
  exists done' s' e', stage_repeats n e = Some e' /\ enc_inv b0 done' s' e' /\ same_run e e' /\
    done' ++ s' = done ++ s ++ replicate n (enc_prev_value e).
Proof.
  induction n as [|n IH]; intros done s e W I H; cbn [stage_repeats].
  { exists done, s, e. rewrite app_nil_r. split_and!; auto; by split_and!. }
  pose proof (ei_staging _ _ _ _ I) as ST. pose proof (st_len _ _ ST) as L8. pose proof (ei_short _ _ _ _ I) as Hs.
  rewrite (st_count _ _ ST), (st_total _ _ ST), wr_Some by lia. cbn [mbind option_bind]. rewrite Nat2Z.id.
  set (e1 := with_staged e _ _ _). set (v := enc_prev_value e).
  assert (staging e1 (s ++ [v])) as ST1.
  { split; cbn; rewrite ?length_insert, ?length_app; cbn [length]; try lia.
    - apply Forall_insert; [apply ST|apply I].
    - rewrite Nat.add_1_r, (take_S_r _ _ v) by (apply list_lookup_insert_eq; lia).
      rewrite take_insert_ge by lia. by rewrite (st_prefix _ _ ST). }
  change (enc_bitpack_count e1) with (lenZ s + 1).
  assert (done ++ s ++ replicate (S n) v = done ++ (s ++ [v]) ++ replicate n v) as Ev.
  { by rewrite <- (app_assoc s). }
  destruct (Z.eqb_spec (lenZ s + 1) 8) as [E8|E8].
  - destruct (flush_bitpack_spec e1 (s ++ [v]) ST1) as (e2 & -> & Em & SR & ST2); [apply I| |].
    { destruct (enc_room _ _ _ _ (lenZ (s ++ [v])) W I) as (? & ? & ?); [|by split_and!].
      rewrite length_app; cbn [length]. lia. }
    cbn [mbind option_bind]. pose proof SR as (Hw & Hp & ? & ? & Hst).
    destruct (IH (done ++ s ++ [v]) [] e2 W) as (done' & s' & e' & -> & I' & SR' & E').
    + split; rewrite ?Hw, ?Hp, ?Hst; [apply I|apply I|apply I|done|cbn; lia|].
      eapply emits_trans; [exact (proj1 (ei_width _ _ _ _ I))|apply I|done].
    + rewrite !length_app. cbn [length]. lia.
    + exists done', s', e'. split; [done|]. split; [done|].
      split; [exact (same_run_trans e e2 e' SR SR')|].
      rewrite E', Ev, Hp. cbn. by rewrite <- !app_assoc.
  - cbn [mbind option_bind]. destruct (IH done (s ++ [v]) e1 W) as (done' & s' & e' & -> & I' & SR' & E').
    + split; try apply I; [done|]. rewrite length_app. cbn [length]. lia.
    + rewrite length_app. cbn [length]. lia.
    + exists done', s', e'. split; [done|]. split; [done|]. split; [exact SR'|]. by rewrite E', Ev.
Qed.

(** The whole state: [vals] have been put. *)
Definition enc_vals (b0 : carquet_buffer_t) (vals : list Z) (e : carquet_rle_encoder_t) : Prop :=
  exists done s, enc_inv b0 done s e /\ 0 <= enc_repeat_count e /\
    (enc_has_prev e = false -> enc_repeat_count e = 0) /\ (enc_repeat_count e = 0 -> s = []) /\
    vals = done ++ s ++ replicate (Z.to_nat (enc_repeat_count e)) (enc_prev_value e).

(** Letting go of the current run. *)
Lemma release_run b0 done s e : buffer_wf b0 -> enc_inv b0 done s e -> 0 <= enc_repeat_count e < 2 ^ 31 ->
  buf_size b0 + 9 * (lenZ done + lenZ s + enc_repeat_count e) < 2 ^ 64 ->
  exists done' s' e',
    (if enc_repeat_count e >=? 8 then enc ← flush_bitpack e; flush_rle enc
     else enc ← stage_repeats (Z.to_nat (enc_repeat_count e)) e; Some (with_repeat enc 0)) = Some e' /\
    enc_inv b0 done' s' e' /\ enc_bit_width e' = enc_bit_width e /\ enc_repeat_count e' = 0 /\
    enc_has_prev e' = enc_has_prev e /\
    done' ++ s' = done ++ s ++ replicate (Z.to_nat (enc_repeat_count e)) (enc_prev_value e).
Proof.
  intros W I Hn H. rewrite Z.geb_leb. case_bool.
  - destruct (enc_flush b0 done s e W I) as (e1 & -> & I1 & SR); [lia|]. cbn [mbind option_bind].
    pose proof SR as (Hw & Hp & Hr & Hh & _).
    destruct (flush_rle_spec e1) as (b' & -> & Em); [apply I1|apply I1|lia| |].
    { eapply enc_room; [done|exact I1|]. rewrite Hr, length_app. lia. }
    exists ((done ++ s) ++ replicate (Z.to_nat (enc_repeat_count e)) (enc_prev_value e)), [].
    eexists. split; [done|]. rewrite Hr, Hp in Em. split; [|split_and!; auto; by rewrite app_nil_r, <- app_assoc].
    pose proof (ei_staging _ _ _ _ I1) as ST1. split; cbn; [apply I1|apply I1|apply I1| |lia|].
    + destruct ST1. by split.
    + eapply emits_trans; [destruct (ei_width _ _ _ _ I1); lia|apply I1|done].
  - destruct (stage_repeats_spec b0 (Z.to_nat (enc_repeat_count e)) done s e W I)
      as (done' & s' & e1 & -> & I1 & SR & E); [lia|]. cbn [mbind option_bind].
    pose proof SR as (Hw & Hp & Hr & Hh & _).
    exists done', s', (with_repeat e1 0). split_and!; auto. destruct I1 as [? ? ? ST1 ? ?]. split; cbn; auto.
    destruct ST1. by split.
Qed.

Lemma enc_vals_length b0 vals e : enc_vals b0 vals e -> 0 <= enc_repeat_count e <= lenZ vals.
Proof. intros (done & s & _ & ? & _ & _ & ->). rewrite !length_app, length_replicate. lia. Qed.

(** Starting a run of [n] copies of [v]. *)
Lemma with_prev_vals b0 done s e v n : enc_inv b0 done s e -> in_u (enc_bit_width e) v -> 1 <= n ->
  enc_vals b0 (done ++ s ++ replicate (Z.to_nat n) v) (with_prev e v n).
Proof.
  intros I Hv Hn. exists done, s. split_and!; cbn; [|lia|done|lia|done].
  destruct I as [? ? ? ST ? ?]. split; cbn; auto. destruct ST. by split.
Qed.

Lemma with_repeat_vals b0 vals e n : enc_vals b0 vals e -> enc_has_prev e = true -> 1 <= n ->
  enc_vals b0 (vals ++ replicate (Z.to_nat n) (enc_prev_value e)) (with_repeat e (enc_repeat_count e + n)).
Proof.
  intros (done & s & I & Hr & Hh & Hs & ->) Hp Hn. exists done, s.
  split_and!; cbn; [|lia|by rewrite Hp|lia|].
  - destruct I as [? ? ? ST ? ?]. split; cbn; auto. destruct ST. by split.
  - rewrite Z2Nat.inj_add, replicate_add, <- !app_assoc by lia. done.
Qed.

Lemma put_spec b0 vals e v : buffer_wf b0 -> enc_vals b0 vals e -> in_u (enc_bit_width e) v ->
  lenZ vals < 2 ^ 31 -> buf_size b0 + 9 * lenZ vals < 2 ^ 64 ->
  exists e', carquet_rle_encoder_put e v = Some (CARQUET_OK, e') /\ enc_vals b0 (vals ++ [v]) e' /\
    enc_bit_width e' = enc_bit_width e /\ enc_has_prev e' = true /\ enc_prev_value e' = v.
Proof.
  intros W V Hv Hl Hsz. pose proof (enc_vals_length _ _ _ V) as Hn.
  pose proof V as (done & s & I & Hr & Hh & Hs & Ev). unfold carquet_rle_encoder_put.
  rewrite (ei_status _ _ _ _ I). cbn [is_ok negb]. destruct (enc_has_prev e) eqn:Hp; cbn [negb].
  2: { eexists. split; [done|]. split; [|done]. rewrite Ev, (Hh eq_refl), app_nil_r, <- app_assoc.
       by apply (with_prev_vals b0 done s e v 1). }
  destruct (Z.eqb_spec v (enc_prev_value e)) as [->|].
  { eexists. split; [done|]. split; [|by split_and!]. by apply (with_repeat_vals b0 vals e 1). }
  rewrite Ev, !length_app, length_replicate in Hl, Hsz.
  destruct (release_run b0 done s e W I) as (done' & s' & e1 & -> & I1 & Hw1 & Hr1 & Hh1 & E1); [lia..|].
  cbn [mbind option_bind]. eexists. split; [done|]. split; [|by split_and!].
  rewrite Ev, <- E1, <- app_assoc. apply (with_prev_vals b0 done' s' e1 v 1); auto; [by rewrite Hw1|lia].
Qed.

Lemma put_repeat_spec b0 vals e v n : buffer_wf b0 -> enc_vals b0 vals e -> in_u (enc_bit_width e) v ->
  1 <= n -> lenZ vals < 2 ^ 31 -> buf_size b0 + 9 * lenZ vals < 2 ^ 64 ->
  exists e', carquet_rle_encoder_put_repeat e v n = Some (CARQUET_OK, e') /\
    enc_vals b0 (vals ++ replicate (Z.to_nat n) v) e' /\ enc_bit_width e' = enc_bit_width e.
Proof.
  intros W V Hv Hn Hl Hsz. pose proof V as (done & s & I & Hr & Hh & Hs & Ev).
  unfold carquet_rle_encoder_put_repeat. rewrite (ei_status _ _ _ _ I). decide_bool.
  cbn [is_ok negb]. destruct (enc_has_prev e) eqn:Hp; cbn [andb].
  - destruct (Z.eqb_spec v (enc_prev_value e)) as [->|].
    { eexists. split; [done|]. split; [|done]. by apply with_repeat_vals. }
    destruct (put_spec b0 vals e v) as (e1 & -> & V1 & Hw1 & Hp1 & Hv1); auto. cbn [mbind option_bind is_ok negb].
    eexists. split; [done|]. split; [|done].
    destruct (decide (n = 1)) as [->|].
    + rewrite Z.add_0_r. by destruct e1.
    + pose proof (with_repeat_vals b0 (vals ++ [v]) e1 (n - 1) V1 Hp1 ltac:(lia)) as V2.
      rewrite Hv1, <- app_assoc in V2. change ([v] ++ replicate _ v) with (replicate (S (Z.to_nat (n - 1))) v) in V2.
      by replace (S (Z.to_nat (n - 1))) with (Z.to_nat n) in V2 by lia.
  - eexists. split; [done|]. split; [|done]. rewrite Ev, (Hh eq_refl), app_nil_r, <- app_assoc.
    by apply with_prev_vals.
Qed.

Lemma flush_spec b0 vals e : buffer_wf b0 -> enc_vals b0 vals e -> lenZ vals < 2 ^ 31 ->
  buf_size b0 + 9 * lenZ vals < 2 ^ 64 ->
  exists e', carquet_rle_encoder_flush e = Some (CARQUET_OK, e') /\ enc_vals b0 vals e' /\
    emits (enc_bit_width e) b0 vals (enc_buffer e').
Proof.
  intros W V Hl Hsz. pose proof (enc_vals_length _ _ _ V) as Hn.
  pose proof V as (done & s & I & Hr & Hh & Hs & Ev). unfold carquet_rle_encoder_flush.
  rewrite (ei_status _ _ _ _ I). cbn [is_ok negb].
  rewrite Ev, !length_app, length_replicate in Hl, Hsz.
  destruct (release_run b0 done s e W I) as (done' & s' & e1 & E & I1 & Hw1 & Hr1 & Hh1 & E1); [lia..|].
  pose proof (f_equal length E1) as L1. rewrite !length_app, length_replicate in L1.
  assert (forall e2 done2, enc_inv b0 done2 [] e2 -> done2 = vals -> enc_repeat_count e2 = 0 ->
    enc_bit_width e2 = enc_bit_width e ->
    enc_vals b0 vals e2 /\ emits (enc_bit_width e) b0 vals (enc_buffer e2)) as Fin.
  { intros e2 done2 I2 -> Hr2 Hw2. split; [|rewrite <- Hw2; apply I2]. exists vals, [].
    rewrite Hr2. split_and!; auto; [lia|by rewrite app_nil_r]. }
  destruct (Z.geb_spec (enc_repeat_count e) 8) as [H8|H8].
  - (* nothing is left staged *)
    destruct (enc_flush b0 done s e W I) as (e2 & E2 & I2 & SR); [lia|]. rewrite E2 in E |- *.
    cbn [mbind option_bind] in E |- *. rewrite E. cbn [mbind option_bind]. eexists. split; [done|].
    destruct (flush_rle_spec e2) as (b' & E3 & Em); [apply I2|apply I2|destruct SR; lia| |].
    { pose proof SR as (_ & _ & Hr2 & _). eapply enc_room; [done|exact I2|]. rewrite Hr2, length_app. lia. }
    rewrite E3 in E. simplify_eq.
    assert (s' = []) as ->.
    { pose proof (st_count _ _ (ei_staging _ _ _ _ I1)) as C1. pose proof (st_count _ _ (ei_staging _ _ _ _ I2)) as C2.
      cbn in C1, C2. destruct s'; [done|cbn in C1; lia]. }
    apply (Fin _ done'); auto. by rewrite <- (app_nil_r done'), E1.
  - rewrite Z.gtb_ltb. case_bool.
    + destruct (stage_repeats _ e) as [e2|]; [|done]. cbn [mbind option_bind] in E |- *. simplify_eq.
      destruct (enc_flush b0 done' s' (with_repeat e2 0) W I1) as (e3 & E3 & I3 & SR); [lia|].
      rewrite Z.gtb_ltb. case_bool.
      * rewrite E3. cbn [mbind option_bind]. eexists. split; [done|].
        destruct SR as (Hw3 & _ & Hr3 & _). apply (Fin e3 (done' ++ s')); auto; congruence.
      * eexists. split; [done|]. cbn [mbind option_bind].
        assert (s' = []) as ->.
        { pose proof (st_count _ _ (ei_staging _ _ _ _ I1)) as C1. destruct s'; [done|cbn in *; lia]. }
        apply (Fin _ done'); auto. by rewrite <- (app_nil_r done'), E1.
    + assert (enc_repeat_count e = 0) as H0 by lia. rewrite (Hs H0) in *. rewrite H0 in Ev. cbn in Ev.
      rewrite app_nil_r in Ev. eexists. split; [done|]. by apply (Fin e done).
Qed.

Lemma encode_loop_spec b0 input : forall vals e, buffer_wf b0 -> enc_vals b0 vals e ->
  Forall (in_u (enc_bit_width e)) input -> lenZ (vals ++ input) < 2 ^ 31 ->
  buf_size b0 + 9 * lenZ (vals ++ input) < 2 ^ 64 ->
  exists e', encode_loop e input = Some (CARQUET_OK, e') /\
    emits (enc_bit_width e) b0 (vals ++ input) (enc_buffer e').
Proof.
  induction input as [|v input IH]; intros vals e W V Hv Hl Hsz; cbn [encode_loop].
  { rewrite app_nil_r in *. destruct (flush_spec b0 vals e) as (e' & -> & _ & Em); auto. eauto. }
  apply Forall_cons_iff in Hv as [Hv Hvs]. rewrite length_app in Hl, Hsz. cbn [length] in Hl, Hsz.
  destruct (put_spec b0 vals e v) as (e1 & -> & V1 & Hw1 & _); auto; [lia..|].
  cbn [mbind option_bind is_ok negb].
  destruct (IH (vals ++ [v]) e1) as (e' & -> & Em); auto.
  - by rewrite Hw1.
  - rewrite !length_app. cbn [length]. lia.
  - rewrite !length_app. cbn [length]. lia.
  - exists e'. split; [done|]. by rewrite Hw1, <- app_assoc in Em.
Qed.

Lemma encoder_init_vals b w : buffer_wf b -> buf_owns_data b = true -> 0 <= w <= 32 ->
  enc_vals b [] (carquet_rle_encoder_init b w).
Proof.
  intros W Ho Hw. exists [], []. split_and!; cbn; auto; [|lia].
  assert (in_u w 0) by (unfold in_u; pose proof (pow2_pos w); lia).
  split; cbn; auto; [|lia|by apply emits_refl]. split; cbn; auto. by apply (Forall_replicate _ 8).
Qed.

Lemma encode_all_spec {K : UnpackKernels} {KOk : UnpackKernelsOk K} vs w b :
  buffer_wf b -> buf_owns_data b = true -> 0 <= w <= 32 -> Forall (in_u w) vs ->
  lenZ vs < 2 ^ 31 -> buf_size b < 2 ^ 63 ->
  exists b' out, carquet_rle_encode_all vs w b = Some (CARQUET_OK, b') /\ buffer_wf b' /\
    buf_bytes b' = buf_bytes b ++ out /\ bytes_ok out /\ rle_values w out = (vs, true) /\
    forall rest, bytes_ok rest ->
      carquet_rle_decode_all (out ++ rest) (lenZ out) w (lenZ vs) = Some vs.
Proof.
  intros W Ho Hw Hv Hl Hs. unfold carquet_rle_encode_all.
  destruct (encode_loop_spec b vs [] (carquet_rle_encoder_init b w)) as (e' & -> & W' & _ & out & Eb & Hout & _ & Er);
    auto using encoder_init_vals; [cbn [app]; lia|].
  cbn [mbind option_bind]. exists (enc_buffer e'), out. cbn [app] in *. split_and!; auto.
  intros rest Hrest. rewrite decode_all_values; [|auto with bytes|rewrite length_app; lia|lia].
  decide_bool. rewrite !Nat2Z.id, take_app_length. cbn in Er. by rewrite Er, firstn_all.
Qed.

(** C4: the RLE encoder writes the values it is given.  With a working allocator,
    [carquet_rle_encode_all] appends to the output buffer a stream that denotes
    exactly the input, whatever mixture of long runs, full groups and partial groups
    it chose, and decoding that stream returns the input. *)
Theorem rle_roundtrip {K : UnpackKernels} {KOk : UnpackKernelsOk K} vs w b :
  buffer_wf b -> buf_owns_data b = true -> 0 <= w <= 32 -> Forall (in_u w) vs ->
  lenZ vs < 2 ^ 31 -> buf_size b < 2 ^ 63 ->
  exists b' out, carquet_rle_encode_all vs w b = Some (CARQUET_OK, b') /\
    buf_bytes b' = buf_bytes b ++ out /\ rle_values w out = (vs, true) /\
    forall rest, bytes_ok rest ->
      carquet_rle_decode_all (out ++ rest) (lenZ out) w (lenZ vs) = Some vs.
Proof.
  intros W Ho Hw Hv Hl Hs. destruct (encode_all_spec vs w b W Ho Hw Hv Hl Hs) as (b' & out & ? & _ & ? & _ & ? & ?). by exists b', out.
Qed.

(** A session: any sequence of [put] and [put_repeat] calls, then [flush]. *)
Inductive enc_op :=
  | op_put (v : Z)
  | op_put_repeat (v n : Z).

Definition op_values (o : enc_op) : list Z :=
  match o with op_put v => [v] | op_put_repeat v n => replicate (Z.to_nat n) v end.

Definition op_ok (w : Z) (o : enc_op) : Prop :=
  match o with op_put v => in_u w v | op_put_repeat v n => in_u w v /\ 1 <= n end.

Definition run_op (e : carquet_rle_encoder_t) (o : enc_op) :=
  match o with
  | op_put v => carquet_rle_encoder_put e v
  | op_put_repeat v n => carquet_rle_encoder_put_repeat e v n
  end.

Fixpoint run_session (e : carquet_rle_encoder_t) (ops : list enc_op)
    : option (carquet_status_t * carquet_rle_encoder_t) :=
  match ops with
  | [] => carquet_rle_encoder_flush e
  | o :: ops => '(_, e) ← run_op e o; run_session e ops
  end.

Lemma run_session_spec b0 ops : forall vals e, buffer_wf b0 -> enc_vals b0 vals e ->
  Forall (op_ok (enc_bit_width e)) ops -> lenZ (vals ++ (ops ≫= op_values)) < 2 ^ 31 ->
  buf_size b0 + 9 * lenZ (vals ++ (ops ≫= op_values)) < 2 ^ 64 ->
  exists e', run_session e ops = Some (CARQUET_OK, e') /\
    emits (enc_bit_width e) b0 (vals ++ (ops ≫= op_values)) (enc_buffer e').
Proof.
  induction ops as [|o ops IH]; intros vals e W V Hv Hl Hsz; cbn [run_session].
  { cbn in *. rewrite app_nil_r in *. destruct (flush_spec b0 vals e) as (e' & -> & _ & Em); auto. eauto. }
  apply Forall_cons_iff in Hv as [Ho Hos]. rewrite bind_cons, app_assoc in *.
  assert (exists e1, run_op e o = Some (CARQUET_OK, e1) /\ enc_vals b0 (vals ++ op_values o) e1 /\
            enc_bit_width e1 = enc_bit_width e) as (e1 & -> & V1 & Hw1).
  { rewrite !length_app in Hl, Hsz. destruct o as [v|v n]; cbn in Ho |- *.
    - destruct (put_spec b0 vals e v) as (e1 & -> & ? & ? & _); auto; [lia..|]. eauto.
    - destruct (put_repeat_spec b0 vals e v n) as (e1 & -> & ? & ?); [done|done|apply Ho|lia..|]. eauto. }
  cbn [mbind option_bind]. destruct (IH (vals ++ op_values o) e1) as (e' & -> & Em); auto.
  - by rewrite Hw1.
  - exists e'. split; [done|]. by rewrite Hw1 in Em.
Qed.

(** The incremental encoder.  Any sequence of [put] and [put_repeat] calls
    followed by [flush] appends one clean stream that denotes the concatenation of
    everything put, in order. *)
Theorem rle_session_exact ops w b : buffer_wf b -> buf_owns_data b = true -> 0 <= w <= 32 ->
  Forall (op_ok w) ops -> lenZ (ops ≫= op_values) < 2 ^ 31 -> buf_size b < 2 ^ 63 ->
  exists e' out, run_session (carquet_rle_encoder_init b w) ops = Some (CARQUET_OK, e') /\
    buf_bytes (enc_buffer e') = buf_bytes b ++ out /\ rle_values w out = (ops ≫= op_values, true).
Proof.
  intros W Ho Hw Hops Hl Hs.
  destruct (run_session_spec b ops [] (carquet_rle_encoder_init b w)) as (e' & -> & _ & _ & out & Eb & _ & _ & Er);
    auto using encoder_init_vals; [cbn [app]; lia|]. cbn [app] in Er. by exists e', out.
Qed.

End EncoderSpec.

Lemma rle_roundtrip_witness :
  let A := limited_alloc (2 ^ 64) in
  exists b' out, carquet_rle_encode_all [3; 1; 4; 1; 5; 2; 6; 5; 3; 5] 3 carquet_buffer_init = Some (CARQUET_OK, b') /\
    buf_bytes b' = buf_bytes carquet_buffer_init ++ out /\
    rle_values 3 out = ([3; 1; 4; 1; 5; 2; 6; 5; 3; 5], true) /\
    forall rest, bytes_ok rest ->
      @carquet_rle_decode_all scalar_kernels (out ++ rest) (lenZ out) 3 10 = Some [3; 1; 4; 1; 5; 2; 6; 5; 3; 5].
Proof.
  apply (@rle_roundtrip (limited_alloc (2 ^ 64)) _ _ scalar_kernels _ [3; 1; 4; 1; 5; 2; 6; 5; 3; 5] 3 carquet_buffer_init);
    [apply init_wf|done|lia|by apply (bool_decide_unpack _)|cbn; lia|cbn; lia].
Defined.

Lemma rle_session_exact_witness :
  let A := limited_alloc (2 ^ 64) in
  exists e' out, run_session (carquet_rle_encoder_init carquet_buffer_init 2)
      [op_put 1; op_put_repeat 2 100; op_put 2; op_put 3] = Some (CARQUET_OK, e') /\
    buf_bytes (enc_buffer e') = buf_bytes carquet_buffer_init ++ out /\
    rle_values 2 out = ([op_put 1; op_put_repeat 2 100; op_put 2; op_put 3] ≫= op_values, true).
Proof.
  apply (@rle_session_exact (limited_alloc (2 ^ 64)) _ _); [apply init_wf|done|lia| |vm_compute; reflexivity|cbn; lia].
  repeat constructor; cbn; lia.
Defined.

(** An allocation failure is not reported.  When the buffer cannot grow, the
    append fails, [carquet_rle_encode_all] still returns [CARQUET_OK], and nothing has
    been written: the status of [carquet_buffer_append] is discarded. *)
Theorem rle_encode_ignores_oom : 
  let A := limited_alloc 0 in
  exists b', carquet_rle_encode_all [1; 2; 3] 2 carquet_buffer_init = Some (CARQUET_OK, b') /\ buf_bytes b' = [].
Proof. eexists. by vm_compute. Qed.
