(* ===== verification/RleLevels.v ===== *)
(** * The one-shot level decoders (carquet_rle_decode_levels and friends)

    These loops re-implement the RLE hybrid for speed: levels straight into an
    [int16_t] array, or straight into a validity bitmap.  Both agree with the
    reference reading [rle_values] as far as the stream is well formed, and stay in
    bounds on any input. *)

From S2P Require Import Prelude Status Endian Buffer Bitpack Rle RleDecode.

(** ** Agreement with a stream

    [decodes f n r out]: [out] holds at most [n] results; they start with the first
    [n] values of the stream, and nothing else follows if the stream is clean. *)

Definition decodes {B} (f : Z -> B) (n : nat) (r : list Z * bool) (out : list B) : Prop :=
  exists junk, out = (f <$> take n r.1) ++ junk /\ (length out <= n)%nat /\ (r.2 = true -> junk = []).

Lemma decodes_any {B} (f : Z -> B) n out : (length out <= n)%nat -> decodes f n ([], false) out.
Proof. intros. exists out. cbn [fst snd]. rewrite take_nil. by split_and!. Qed.

Lemma decodes_end {B} (f : Z -> B) n r : (n = 0%nat \/ r = ([], true)) -> decodes f n r [].
Proof. intros [->| ->]; exists []; cbn [fst snd]; rewrite ?take_0, ?take_nil; split_and!; auto; cbn; lia. Qed.

Lemma decodes_full {B} (f : Z -> B) n l r : (n <= length l)%nat ->
  decodes f n (prepend l r) (f <$> take n l).
Proof.
  intros. exists []. cbn. rewrite app_nil_r, take_app_le by done. split_and!; auto.
  rewrite length_fmap, length_take. lia.
Qed.

Lemma decodes_prepend {B} (f : Z -> B) n l r out : (length l <= n)%nat ->
  decodes f (n - length l) r out -> decodes f n (prepend l r) ((f <$> l) ++ out).
Proof.
  intros Hl (junk & -> & Hlen & Hj). exists junk. cbn. rewrite take_app_ge by done.
  rewrite fmap_app, <- app_assoc. split_and!; auto. rewrite !length_app, !length_fmap in *. lia.
Qed.

Lemma decodes_short {B} (f : Z -> B) n l out : (length l <= n)%nat -> (length out <= n - length l)%nat ->
  decodes f n (l, false) ((f <$> l) ++ out).
Proof.
  intros. replace (l, false) with (prepend l ([], false)) by (unfold prepend; cbn; by rewrite app_nil_r).
  apply decodes_prepend; [done|]. by apply decodes_any.
Qed.

Lemma decodes_length {B} (f : Z -> B) n r out : decodes f n r out -> (length out <= n)%nat.
Proof. by intros (_ & _ & ? & _). Qed.

Lemma decodes_0 {B} (f : Z -> B) r out : decodes f 0 r out -> out = [].
Proof. intros H%decodes_length. destruct out; [done|cbn in H; lia]. Qed.

(** Taking an RLE run, cut to what is wanted. *)
Lemma decodes_rle {B} (f : Z -> B) n R v r out k : k = (R `min` n)%nat ->
  decodes f (n - k) r out -> decodes f n (prepend (replicate R v) r) (replicate k (f v) ++ out).
Proof.
  intros -> D. destruct (Nat.le_gt_cases R n).
  - rewrite Nat.min_l in * by done. rewrite <- fmap_replicate.
    apply decodes_prepend; by rewrite length_replicate.
  - rewrite Nat.min_r in * by lia. rewrite Nat.sub_diag in D. apply decodes_0 in D as ->.
    rewrite app_nil_r. replace (replicate n (f v)) with (f <$> take n (replicate R v)).
    + apply decodes_full. rewrite length_replicate. lia.
    + rewrite take_replicate, fmap_replicate. f_equal. lia.
Qed.

(** Taking a bit-packed run, cut to what is wanted or to what is there. *)
Lemma decodes_run {B} (f : Z -> B) n w (g : list Z * option (list Z)) rest out :
  ((n <= length g.1)%nat \/ g.2 = Some rest \/ g.2 = None) ->
  decodes f (n - length (take n g.1)) (rle_values w rest) out ->
  decodes f n (match g with
               | (vs, None) => (vs, false)
               | (vs, Some rest) => prepend vs (rle_values w rest)
               end) ((f <$> take n g.1) ++ out).
Proof.
  destruct g as [vs o]. cbn [fst snd]. rewrite length_take. intros HE D.
  destruct (Nat.le_gt_cases n (length vs)).
  - rewrite Nat.min_l, Nat.sub_diag in D by done. apply decodes_0 in D as ->. rewrite app_nil_r.
    destruct o; [by apply decodes_full|].
    replace (vs, false) with (prepend vs ([], false)) by (unfold prepend; cbn; by rewrite app_nil_r).
    by apply decodes_full.
  - rewrite (take_ge vs) by lia. rewrite Nat.min_r in D by lia.
    destruct HE as [?|[->| ->]]; [lia|apply decodes_prepend; [lia|done]|].
    apply decodes_short; [lia|by eapply decodes_length].
Qed.

(** On a clean stream the result is determined. *)
Lemma decodes_clean {B} (f : Z -> B) n vs out : decodes f n (vs, true) out -> out = f <$> take n vs.
Proof. intros (junk & -> & _ & Hj). by rewrite Hj, app_nil_r. Qed.

(** ** Headers *)

Lemma inline_header_total data size : bytes_ok data -> size <= lenZ data -> forall fuel pos shift header,
  0 <= pos <= size -> shift = 35 - 7 * Z.of_nat fuel -> 0 <= header < 2 ^ 32 ->
  exists h pos', inline_header fuel data size pos shift header = Some (h, pos') /\
    0 <= h < 2 ^ 32 /\ pos <= pos' <= size /\ (pos < size -> shift < 32 -> pos < pos').
Proof.
  intros Hd Hs. induction fuel as [|fuel IH]; intros pos shift header Hp Es Hh; cbn [inline_header].
  { decide_bool. rewrite andb_false_r. do 2 eexists. split; [done|]. split_and!; auto; lia. }
  destruct (Z.ltb_spec pos size), (Z.ltb_spec shift 32); cbn [andb].
  2-4: do 2 eexists; split; [done|]; split_and!; auto; lia.
  destruct (rd_Some data pos) as [b Hb]; [lia|]. rewrite Hb. cbn [mbind option_bind].
  assert (0 <= header .| u32 ((b .& 0x7F) ≪ shift) < 2 ^ 32) by (apply lor_bound; [lia|done|apply u32_range]).
  destruct (_ =? 0).
  { do 2 eexists. split; [done|]. split_and!; auto; lia. }
  destruct (IH (pos + 1) (shift + 7) (header .| u32 ((b .& 0x7F) ≪ shift))) as (h & pos' & -> & ? & ? & ?);
    [lia..|done|]. do 2 eexists. split; [done|]. split_and!; auto; lia.
Qed.

(** On a complete varint the two header loops agree. *)
Lemma inline_header_read data size : forall fuel pos shift header r,
  read_varint_loop fuel data size pos shift header = Some (Some r) ->
  inline_header fuel data size pos shift header = Some r.
Proof.
  induction fuel as [|fuel IH]; intros pos shift header r; cbn [inline_header read_varint_loop];
    destruct (_ && _); try done.
  destruct (rd data pos) as [b|]; cbn [mbind option_bind]; [|done].
  destruct (_ =? 0); [intros; by simplify_eq|]. apply IH.
Qed.

(** The header of the next run, or anything in bounds when it is malformed. *)
Lemma inline_header_spec data size pos : bytes_ok data -> 0 <= size <= lenZ data -> 0 <= pos < size ->
  exists h pos', inline_header 5 data size pos 0 0 = Some (h, pos') /\ 0 <= h < 2 ^ 32 /\
    pos < pos' <= size /\
    (rle_header (window data size pos) = Some (h, window data size pos') \/
     rle_header (window data size pos) = None).
Proof.
  intros Hd Hs Hp. destruct (inline_header_total data size Hd ltac:(lia) 5 pos 0 0) as (h & pos' & E & Hh & Hp' & Hlt);
    [lia..|]. exists h, pos'. split; [done|]. split; [lia|]. split; [lia|].
  destruct (rle_header (window data size pos)) as [[h' rest]|] eqn:Eh; [left|by right].
  pose proof (read_varint_spec data size pos Hd Hs ltac:(lia)) as Er. rewrite Eh in Er. cbn [mbind option_bind] in Er.
  apply inline_header_read in Er. rewrite E in Er. simplify_eq.
  destruct (rle_header_inv _ _ _ (window_bytes _ _ _ Hd) Eh) as (_ & _ & l & El).
  pose proof (window_suffix data size pos l rest ltac:(lia) ltac:(lia) El) as Es. by rewrite <- Es.
Qed.

(** What the stream denotes at the cursor, by the outcome of the header. *)
Lemma rle_values_header w data size pos h rest : 0 <= w -> 0 <= pos < size -> size <= lenZ data ->
  rle_header (window data size pos) = Some (h, rest) \/ rle_header (window data size pos) = None ->
  rle_values w (window data size pos) =
    (if h / 2 =? 0 then rle_values w rest
     else if Z.even h then
       if lenZ rest <? (w + 7) / 8 then ([], false)
       else prepend (replicate (Z.to_nat (h / 2)) (le_val (take (Z.to_nat ((w + 7) / 8)) rest) mod 2 ^ w))
              (rle_values w (ptr_add rest ((w + 7) / 8)))
     else match run_groups w (h / 2) rest with
          | (vs, None) => (vs, false)
          | (vs, Some rest) => prepend vs (rle_values w rest)
          end) \/
  rle_values w (window data size pos) = ([], false).
Proof.
  intros Hw Hp Hs Eh. rewrite rle_values_step; [|done|].
  - by destruct Eh as [-> | ->]; [left|right].
  - destruct (window_cons data size pos) as (b & _ & ->); [lia..|done].
Qed.

Lemma eqb_mul_8 n : (n * 8 =? 0) = (n =? 0).
Proof. repeat case_bool; lia. Qed.

Lemma level_mask w x : 0 <= w <= 32 ->
  x .& (if w >=? 32 then 2 ^ 32 - 1 else u32 (1 ≪ w) - 1) = x mod 2 ^ w.
Proof.
  intros Hw. rewrite <- (land_ones_mod x w) by lia. f_equal. rewrite Z.geb_leb. case_bool.
  { by replace w with 32 by lia. }
  rewrite shiftl_mul, Z.mul_1_l by lia. pose proof (pow2_pos w). pose proof (Z.pow_lt_mono_r 2 w 32).
  by rewrite u32_small by lia.
Qed.

(** The repeated value of an RLE run, in place. *)
Lemma value_at data size pos w : bytes_ok data -> 0 <= pos -> size <= lenZ data -> 0 <= w <= 32 ->
  pos + (w + 7) / 8 <= size ->
  read_value_bytes (Z.to_nat ((w + 7) / 8)) data pos 0 0 =
    Some (le_val (take (Z.to_nat ((w + 7) / 8)) (window data size pos))).
Proof.
  intros Hd Hp Hs Hw Hle. assert (0 <= (w + 7) / 8 <= 4) by dlia.
  rewrite read_value_bytes_spec; [|done|lia|lia|lia|lia|done].
  rewrite (window_take _ size) by lia. change (2 ^ (8 * 0)) with 1. f_equal. lia.
Qed.

Section LevelsSpec.
Context {K : UnpackKernels} {KOk : UnpackKernelsOk K}.

(** Unpacking at the cursor. *)
Lemma unpack8_at data size pos w : bytes_ok data -> 0 <= pos -> size <= lenZ data -> 0 <= w <= 32 ->
  pos + w <= size ->
  carquet_bitunpack8_32 (ptr_add data pos) w = Some (unpack w 8 (window data size pos)).
Proof.
  intros Hd Hp Hs Hw Hle. rewrite bitunpack8_32_spec; [|auto with bytes|lia|rewrite length_ptr_add by lia; lia].
  f_equal. rewrite <- (unpack_take _ _ (ptr_add data pos) (Z.to_nat w)) by (auto with bytes; lia).
  rewrite <- (unpack_take _ _ (window data size pos) (Z.to_nat w)); [|by apply window_bytes|lia..].
  by rewrite (window_take _ size) by lia.
Qed.

Lemma unpack_at data size pos w n : bytes_ok data -> 0 <= pos -> size <= lenZ data -> 0 <= w <= 32 ->
  0 <= n < 2 ^ 50 -> 8 * pos + n * w <= 8 * size ->
  carquet_bitunpack_32 (ptr_add data pos) n w =
    Some (unpack w (Z.to_nat n) (window data size pos), (n * w + 7) / 8).
Proof.
  intros Hd Hp Hs Hw Hn Hle.
  rewrite bitunpack_32_spec; [|auto with bytes|lia|lia|rewrite length_ptr_add by nia; nia].
  f_equal. f_equal. rewrite <- (unpack_take _ _ (ptr_add data pos) (Z.to_nat (size - pos))) by (auto with bytes; nia).
  rewrite <- (unpack_take _ _ (window data size pos) (Z.to_nat (size - pos))); [|by apply window_bytes|nia..].
  by rewrite (window_take _ size) by nia.
Qed.

Lemma levels_bulk_spec data size w run_length : bytes_ok data -> size <= lenZ data -> 1 <= w <= 32 ->
  forall fuel pos g G, 0 <= pos -> run_length = 8 * (g + G) -> 0 <= g -> 0 <= G -> pos + G * w <= size ->
  8 * G <= Z.of_nat fuel ->
  levels_bulk fuel data w run_length pos (8 * g) =
    Some (i16 <$> unpack w (Z.to_nat (8 * G)) (window data size pos), pos + G * w).
Proof.
  intros Hd Hs Hw. induction fuel as [|fuel IH]; intros pos g G Hp Er Hg HG Hle Hf; cbn [levels_bulk].
  { decide_bool. replace G with 0 by lia. rewrite Z.mul_0_l, Z.add_0_r. done. }
  case_bool.
  2: { replace G with 0 by lia. rewrite Z.mul_0_l, Z.add_0_r. done. }
  set (chunk := if _ >? 256 then 256 else _). assert (exists c, chunk = 8 * c /\ 1 <= c <= G) as (c & Ec & Hc).
  { unfold chunk. rewrite Z.gtb_ltb. case_bool; [exists 32; lia|exists G; lia]. }
  assert (chunk <= 256) by (unfold chunk; rewrite Z.gtb_ltb; case_bool; lia).
  clearbody chunk. subst chunk. rewrite (unpack_at data size) by (auto; nia). cbn [mbind option_bind].
  replace ((8 * c * w + 7) / 8) with (c * w) by dlia. replace (8 * g + 8 * c) with (8 * (g + c)) by lia.
  rewrite (IH (pos + c * w) (g + c) (G - c)) by nia. cbn [mbind option_bind]. f_equal. f_equal; [|lia].
  rewrite <- fmap_app, <- window_add by nia. f_equal.
  rewrite unpack_ptr_app by (auto using window_bytes; nia). f_equal. lia.
Qed.

Lemma levels_groups_spec data size w max : bytes_ok data -> size <= lenZ data -> 0 <= w <= 32 ->
  forall n pos count, 0 <= pos <= size -> 0 <= count <= max ->
  exists pos', let r := run_groups w (Z.of_nat n) (window data size pos) in
    levels_groups n data size w max pos count =
      Some (i16 <$> take (Z.to_nat (max - count)) r.1, pos') /\ pos <= pos' <= size /\
    ((Z.to_nat (max - count) <= length r.1)%nat \/ r.2 = Some (window data size pos') \/ r.2 = None).
Proof.
  intros Hd Hs Hw. induction n as [|n IH]; intros pos count Hp Hc; cbn [levels_groups]; cbv zeta.
  { exists pos. rewrite run_groups_0. cbn [fst snd]. rewrite take_nil. split_and!; auto; lia. }
  case_bool.
  2: { exists pos. replace (Z.to_nat (max - count)) with 0%nat by lia. rewrite take_0. split_and!; auto; lia. }
  pose proof (window_length data size pos Hp Hs) as Lw. rewrite Z.gtb_ltb. case_bool.
  { exists pos. rewrite run_groups_short by lia. cbn [fst snd]. rewrite take_nil. split_and!; auto; lia. }
  rewrite (unpack8_at data size) by (auto; lia). cbn [mbind option_bind].
  replace (Z.of_nat (S n)) with (Z.of_nat n + 1) by lia.
  rewrite run_groups_S by (auto using window_bytes; lia). rewrite window_add by lia.
  set (us := unpack w 8 _). assert (length us = 8%nat) as Lu by apply length_unpack.
  set (k := if _ >? max then _ else 8). assert (k = Z.min 8 (max - count)) as Ek.
  { unfold k. rewrite Z.gtb_ltb. case_bool; lia. }
  clearbody k. rewrite rd_n_Some by lia. cbn [mbind option_bind]. change (Z.to_nat 0) with 0%nat. rewrite drop_0.
  destruct (IH (pos + w) (count + k)) as (pos' & E & Hp' & HE); [lia..|]. rewrite E. cbn [mbind option_bind].
  destruct (run_groups w (Z.of_nat n) (window data size (pos + w))) as [vs r] eqn:Er. cbn [fst snd] in *.
  exists pos'. rewrite length_app. split; [|split; [lia|destruct HE as [?|?]; [left; lia|by right]]].
  f_equal. f_equal. rewrite <- fmap_app. f_equal. destruct (Z.le_gt_cases 8 (max - count)).
  - rewrite (take_ge us), take_app_ge by lia. do 2 f_equal. lia.
  - replace (Z.to_nat (max - (count + k))) with 0%nat by lia.
    rewrite take_0, app_nil_r, take_app_le by lia. f_equal. lia.
Qed.

(** A bit-packed run, through either path. *)
Lemma levels_run_spec data size w max G pos count : bytes_ok data -> size <= lenZ data -> 0 <= w <= 32 ->
  0 <= pos <= size -> 0 <= count <= max -> 0 <= G ->
  exists pos', let r := run_groups w G (window data size pos) in
    (if (w >=? 1) && (G <=? (size - pos) / w) && (count + G * 8 <=? max)
     then levels_bulk (Z.to_nat (G * 8)) data w (G * 8) pos 0
     else levels_groups (Z.to_nat G) data size w max pos count) =
      Some (i16 <$> take (Z.to_nat (max - count)) r.1, pos') /\ pos <= pos' <= size /\
    ((Z.to_nat (max - count) <= length r.1)%nat \/ r.2 = Some (window data size pos') \/ r.2 = None).
Proof.
  intros Hd Hs Hw Hp Hc HG. destruct ((w >=? 1) && _ && _) eqn:Eb.
  - apply andb_true_iff in Eb as [[H1 H2]%andb_true_iff H3]. rewrite Z.geb_leb in H1.
    apply Z.leb_le in H1, H2, H3. assert (G * w <= size - pos).
    { pose proof (Z.mul_div_le (size - pos) w). nia. }
    pose proof (levels_bulk_spec data size w (G * 8) Hd Hs ltac:(lia) (Z.to_nat (G * 8)) pos 0 G) as E.
    change (8 * 0) with 0 in E. exists (pos + G * w). cbv zeta. rewrite E by lia. unfold run_groups.
    rewrite window_length by lia. decide_bool. cbn [fst snd]. rewrite window_add by nia.
    split; [|split; [nia|auto]]. do 3 f_equal. symmetry. apply take_ge. rewrite length_unpack. lia.
  - destruct (levels_groups_spec data size w max Hd Hs Hw (Z.to_nat G) pos count Hp Hc) as (pos' & E).
    rewrite Z2Nat.id in E by lia. by exists pos'.
Qed.

(** The two kinds of run, given the rest of the loop. *)
Section OneRun.
Context (data : list Z) (size w max : Z) (Hd : bytes_ok data) (Hs : 0 <= size <= lenZ data) (Hw : 0 <= w <= 32).
Context (fuel : nat) (pos count : Z) (Hp : 0 <= pos < size) (Hc : 0 <= count < max).
Context (Next : forall pos2 k, pos < pos2 <= size -> 0 <= k <= max - count ->
    exists out, levels_loop fuel data size w max pos2 (count + k) = Some out /\
      decodes i16 (Z.to_nat (max - count) - Z.to_nat k) (rle_values w (window data size pos2)) out).

Lemma levels_rle_run n pos1 : 1 <= n -> pos < pos1 -> pos1 + (w + 7) / 8 <= size ->
  exists v out,
    read_value_bytes (Z.to_nat ((w + 7) / 8)) data pos1 0 0 = Some v /\
    let val16 := i16 (v .& (if w >=? 32 then 2 ^ 32 - 1 else u32 (1 ≪ w) - 1)) in
    let to_fill := if count + n >? max then max - count else n in
    levels_loop fuel data size w max (pos1 + (w + 7) / 8) (count + to_fill) = Some out /\
    decodes i16 (Z.to_nat (max - count))
      (prepend (replicate (Z.to_nat n) (le_val (take (Z.to_nat ((w + 7) / 8)) (window data size pos1)) mod 2 ^ w))
         (rle_values w (ptr_add (window data size pos1) ((w + 7) / 8))))
      (replicate (Z.to_nat to_fill) val16 ++ out).
Proof.
  intros Hn Hp1 Hle. assert (0 <= (w + 7) / 8) by dlia. eexists. cbv zeta.
  set (k := if _ >? max then _ else _). assert (k = Z.min n (max - count)) as Ek.
  { unfold k. rewrite Z.gtb_ltb. case_bool; lia. }
  destruct (Next (pos1 + (w + 7) / 8) k) as (out & E & D); [lia..|]. exists out.
  split; [apply (value_at data size); auto; lia|]. split; [done|]. rewrite level_mask, window_add by lia.
  apply decodes_rle; [lia|done].
Qed.

Lemma levels_packed_run G pos1 : 1 <= G -> pos < pos1 <= size ->
  exists vs pos2 out,
    (if (w >=? 1) && (G <=? (size - pos1) / w) && (count + G * 8 <=? max)
     then levels_bulk (Z.to_nat (G * 8)) data w (G * 8) pos1 0
     else levels_groups (Z.to_nat G) data size w max pos1 count) = Some (vs, pos2) /\
    levels_loop fuel data size w max pos2 (count + lenZ vs) = Some out /\
    decodes i16 (Z.to_nat (max - count))
      (match run_groups w G (window data size pos1) with
       | (vs, None) => (vs, false)
       | (vs, Some rest) => prepend vs (rle_values w rest)
       end) (vs ++ out).
Proof.
  intros HG Hp1. destruct (levels_run_spec data size w max G pos1 count) as (pos2 & E & Hp2 & HE); [done|lia..|].
  cbv zeta in E, HE. set (g := run_groups w G (window data size pos1)) in *.
  destruct (Next pos2 (lenZ (i16 <$> take (Z.to_nat (max - count)) g.1))) as (out & E2 & D).
  - lia.
  - rewrite length_fmap, length_take. lia.
  - do 3 eexists. split; [exact E|]. split; [exact E2|]. apply (decodes_run _ _ w g (window data size pos2)); [done|].
    by rewrite Nat2Z.id, length_fmap in D.
Qed.

End OneRun.

Lemma levels_loop_spec data size w max : bytes_ok data -> 0 <= size <= lenZ data -> 0 <= w <= 32 ->
  forall fuel pos count, 0 <= pos <= size -> 0 <= count <= max -> size - pos <= Z.of_nat fuel ->
  exists out, levels_loop fuel data size w max pos count = Some out /\
    decodes i16 (Z.to_nat (max - count)) (rle_values w (window data size pos)) out.
Proof.
  intros Hd Hs Hw. induction fuel as [|fuel IH]; intros pos count Hp Hc Hf; cbn [levels_loop].
  { decide_bool. rewrite andb_false_r. exists []. split; [done|]. apply decodes_end. right.
    by rewrite window_end by lia. }
  destruct (Z.ltb_spec count max); cbn [andb].
  2: { exists []. split; [done|]. apply decodes_end. left. lia. }
  destruct (Z.ltb_spec pos size).
  2: { exists []. split; [done|]. apply decodes_end. right. by rewrite window_end by lia. }
  destruct (inline_header_spec data size pos) as (h & pos1 & -> & Hh & Hp1 & Eh); [done|lia|lia|].
  cbn [mbind option_bind]. set (n := Z.to_nat (max - count)).
  assert (forall pos2 k, pos < pos2 <= size -> 0 <= k <= max - count ->
    exists out, levels_loop fuel data size w max pos2 (count + k) = Some out /\
      decodes i16 (n - Z.to_nat k) (rle_values w (window data size pos2)) out) as Next.
  { intros pos2 k Hp2 Hk. destruct (IH pos2 (count + k)) as (out & -> & D); [lia..|]. exists out.
    split; [done|]. replace (n - Z.to_nat k)%nat with (Z.to_nat (max - (count + k))) by lia. done. }
  rewrite even_land, shiftr_div by lia. change (2 ^ 1) with 2.
  assert (0 <= h / 2 < 2 ^ 31) by dlia.
  apply (rle_values_header w) in Eh; [|lia..]. revert Eh. unfold i32. rewrite wrap_signed_small by (unfold in_i; lia).
  rewrite (eqb_mul_8 (h / 2)). destruct (Z.eqb_spec (h / 2) 0) as [E0|E0].
  { destruct (Next pos1 0) as (out & E & D); [lia..|]. rewrite Z.add_0_r in E. rewrite Nat.sub_0_r in D.
    intros Eh. exists out. split; [by destruct (Z.even h)|]. destruct Eh as [->| ->]; [done|].
    apply decodes_any. by eapply decodes_length. }
  destruct (Z.even h).
  - pose proof (window_length data size pos1 ltac:(lia) ltac:(lia)) as L1. rewrite Z.gtb_ltb.
    replace (size <? pos1 + (w + 7) / 8) with (lenZ (window data size pos1) <? (w + 7) / 8)
      by (repeat case_bool; lia).
    destruct (Z.ltb_spec (lenZ (window data size pos1)) ((w + 7) / 8)).
    { intros Eh. exists []. split; [done|]. destruct Eh as [->| ->]; apply decodes_any; cbn; lia. }
    destruct (levels_rle_run data size w max Hd Hs Hw fuel pos count ltac:(lia) ltac:(lia) Next (h / 2) pos1)
      as (v & out & -> & -> & D); [lia..|].
    intros Eh. cbn [mbind option_bind]. eexists. split; [done|]. destruct Eh as [->| ->]; [done|].
    apply decodes_any. by eapply decodes_length.
  - destruct (levels_packed_run data size w max Hd Hs Hw fuel pos count ltac:(lia) ltac:(lia) Next (h / 2) pos1)
      as (vs & pos2 & out & -> & E2 & D); [lia..|]. cbn [mbind option_bind]. rewrite E2. cbn [mbind option_bind].
    intros Eh. eexists. split; [done|]. destruct Eh as [->| ->]; [done|].
    apply decodes_any. by eapply decodes_length.
Qed.

(** The level decoder agrees with the stream and never leaves its buffers.  On any
    bytes [carquet_rle_decode_levels] terminates in bounds with at most [max] levels,
    which start with the levels the stream denotes; on a clean stream they are exactly
    its first [max] levels, the same the incremental decoder returns. *)
Theorem rle_decode_levels_exact data size w max :
  bytes_ok data -> 0 <= size <= lenZ data -> 0 <= w <= 32 -> 0 <= max ->
  exists out, carquet_rle_decode_levels data size w max = Some out /\
    (length out <= Z.to_nat max)%nat /\
    (i16 <$> take (Z.to_nat max) (fst (rle_values w (take (Z.to_nat size) data)))) `prefix_of` out /\
    (snd (rle_values w (take (Z.to_nat size) data)) = true ->
     out = i16 <$> take (Z.to_nat max) (fst (rle_values w (take (Z.to_nat size) data)))).
Proof.
  intros Hd Hs Hw Hm. set (r := rle_values w (take (Z.to_nat size) data)).
  assert (exists out, carquet_rle_decode_levels data size w max = Some out /\
    decodes i16 (Z.to_nat max) r out) as (out & E & junk & Eo & Hl & Hj).
  { unfold carquet_rle_decode_levels. rewrite (proj2 (Z.ltb_ge w 0)), Z.gtb_ltb, (proj2 (Z.ltb_ge 32 w)), !orb_false_r by lia.
    destruct (Z.leb_spec max 0); cbn [orb].
    { exists []. split; [done|]. apply decodes_end. left. lia. }
    destruct (Z.eqb_spec size 0) as [->|].
    { exists []. split; [done|]. apply decodes_end. right. unfold r. change (Z.to_nat 0) with 0%nat. by rewrite take_0. }
    destruct (levels_loop_spec data size w max Hd Hs Hw (Z.to_nat size) 0 0) as (out & -> & D); [lia..|].
    rewrite Z.sub_0_r in D. by exists out. }
  exists out. split_and!; auto; [by exists junk|]. intros Hc. by rewrite Eo, (Hj Hc), app_nil_r.
Qed.

End LevelsSpec.

(** ** Straight to a validity bitmap *)

(** Bit [i] of a bitmap, least significant first within a byte. *)
Definition bit_at (bm : list Z) (i : Z) : bool :=
  match rd bm (i / 8) with Some b => Z.testbit b (i mod 8) | None => false end.

(** The bitmap holds the flags [L] and is clear after them. *)
Definition bm_holds (bm : list Z) (max : Z) (L : list bool) : Prop :=
  bytes_ok bm /\ (max + 7) / 8 <= lenZ bm /\
  forall i, 0 <= i < 8 * ((max + 7) / 8) -> bit_at bm i = default false (L !! Z.to_nat i).

Fixpoint ones (L : list bool) : Z :=
  match L with [] => 0 | b :: t => Z.b2z b + ones t end.

Lemma ones_app L1 L2 : ones (L1 ++ L2) = ones L1 + ones L2.
Proof. induction L1; cbn [ones app]; lia. Qed.

Lemma ones_replicate n b : ones (replicate n b) = if b then Z.of_nat n else 0.
Proof. induction n; destruct b; cbn [ones replicate Z.b2z] in *; lia. Qed.

Lemma bm_holds_false bm max L n : bm_holds bm max L -> bm_holds bm max (L ++ replicate n false).
Proof.
  intros (? & ? & H). split_and!; auto. intros i Hi. rewrite H by done.
  destruct (decide (Z.to_nat i < length L)%nat).
  - by rewrite lookup_app_l.
  - rewrite lookup_app_r, (lookup_ge_None_2 L) by lia.
    destruct (replicate n false !! _) as [b|] eqn:E; [|done]. by apply lookup_replicate in E as [-> _].
Qed.

Lemma set_bit_spec bm max L : bm_holds bm max L -> lenZ L < max ->
  exists bm', set_bit bm (lenZ L) = Some bm' /\ bm_holds bm' max (L ++ [true]).
Proof.
  intros (Hb & Hl & H) Hm. set (j := lenZ L). unfold set_bit. fold j.
  assert (0 <= j / 8 < (max + 7) / 8) as Hj by dlia. assert (0 <= j mod 8 < 8) as Hr by dlia.
  destruct (rd_Some bm (j / 8)) as [b Eb]; [lia|]. rewrite Eb. cbn [mbind option_bind]. rewrite wr_Some by lia.
  eexists. split; [done|]. pose proof (rd_byte _ _ _ Hb Eb).
  assert (u8 (1 ≪ (j mod 8)) = 2 ^ (j mod 8)) as Eu.
  { rewrite shiftl_mul, Z.mul_1_l by lia. apply u8_small. pose proof (pow2_pos (j mod 8)).
    pose proof (Z.pow_lt_mono_r 2 (j mod 8) 8). lia. }
  rewrite Eu. pose proof (pow2_pos (j mod 8) ltac:(lia)). pose proof (Z.pow_lt_mono_r 2 (j mod 8) 8 ltac:(lia) ltac:(lia) ltac:(lia)).
  split_and!; [apply Forall_insert; [done|]; apply lor_bound; lia|by rewrite length_insert|].
  intros i Hi. unfold bit_at.
  assert (L !! Z.to_nat i = None <-> j <= i) as HL.
  { rewrite lookup_ge_None. unfold j. lia. }
  assert (0 <= i / 8) as Hi8 by dlia. rewrite rd_lookup by lia.
  specialize (H i Hi). unfold bit_at in H.
  destruct (Z.eq_dec (i / 8) (j / 8)) as [E8|E8].
  - rewrite E8, list_lookup_insert_eq by lia. rewrite E8, Eb in H.
    rewrite Z.lor_spec, H, Z.pow2_bits_eqb by lia. destruct (Z.eqb_spec (j mod 8) (i mod 8)) as [Em|Em].
    + assert (i = j) as -> by dlia. rewrite lookup_app_r by lia. unfold j. rewrite Nat2Z.id, Nat.sub_diag.
      by rewrite orb_true_r.
    + rewrite orb_false_r. destruct (decide (Z.to_nat i < length L)%nat).
      * by rewrite lookup_app_l.
      * rewrite !lookup_ge_None_2; rewrite ?length_app; cbn [length]; auto; [dlia|lia].
  - rewrite list_lookup_insert_ne by lia. rewrite rd_lookup in H by lia. rewrite H.
    destruct (decide (Z.to_nat i < length L)%nat); [by rewrite lookup_app_l|].
    rewrite !lookup_ge_None_2; rewrite ?length_app; cbn [length]; auto; [dlia|lia].
Qed.

Lemma set_bits_spec max n : forall bm L, bm_holds bm max L -> lenZ L + Z.of_nat n <= max ->
  exists bm', set_bits n bm (lenZ L) = Some bm' /\ bm_holds bm' max (L ++ replicate n true).
Proof.
  induction n as [|n IH]; intros bm L H Hm; cbn [set_bits].
  { exists bm. by rewrite app_nil_r. }
  destruct (set_bit_spec bm max L H) as (bm1 & -> & H1); [lia|]. cbn [mbind option_bind].
  destruct (IH bm1 (L ++ [true]) H1) as (bm' & E & H'); [rewrite length_app; cbn [length]; lia|].
  rewrite length_app in E. cbn [length] in E.
  replace (Z.of_nat (length L + 1)) with (lenZ L + 1) in E by lia. exists bm'. split; [done|].
  by rewrite <- app_assoc in H'.
Qed.

Definition bits_of (b i : Z) (n : nat) : list bool :=
  (λ k, Z.testbit b (i + Z.of_nat k)) <$> seq 0 n.

Lemma bits_of_S b i n : bits_of b i (S n) = Z.testbit b i :: bits_of b (i + 1) n.
Proof.
  unfold bits_of. cbn [seq fmap list_fmap]. rewrite Z.add_0_r. f_equal.
  rewrite <- fmap_S_seq, <- list_fmap_compose. apply list_fmap_ext. intros ? k _. cbn. f_equal. lia.
Qed.

Lemma store_bits_spec max b n : 0 <= b < 2 ^ 8 -> forall bm L count i nn, bm_holds bm max L -> lenZ L = count + i ->
  0 <= i -> lenZ L + Z.of_nat n <= max ->
  exists bm', store_bits n bm b i count nn = Some (bm', nn + ones (bits_of b i n)) /\
    bm_holds bm' max (L ++ bits_of b i n).
Proof.
  intros Hb. induction n as [|n IH]; intros bm L count i nn H Ei Hi Hm; cbn [store_bits].
  { exists bm. rewrite app_nil_r, Z.add_0_r. done. }
  rewrite bits_of_S. assert ((((b ≫ i) .& 1) =? 1) = Z.testbit b i) as ->.
  { rewrite land_1, <- Z.bit0_mod, Z.shiftr_spec, Z.add_0_l by lia. by destruct (Z.testbit b i). }
  destruct (Z.testbit b i) eqn:Eb.
  - rewrite <- Ei. destruct (set_bit_spec bm max L H) as (bm1 & -> & H1); [lia|]. cbn [mbind option_bind].
    destruct (IH bm1 (L ++ [true]) count (i + 1) (nn + 1) H1) as (bm' & -> & H'); [rewrite ?length_app; cbn [length]; lia..|].
    exists bm'. split; [do 2 f_equal; cbn; lia|]. by rewrite <- app_assoc in H'.
  - destruct (IH bm (L ++ [false]) count (i + 1) nn) as (bm' & -> & H');
      [by apply (bm_holds_false bm max L 1)|rewrite ?length_app; cbn [length]; lia..|].
    exists bm'. split; [done|]. by rewrite <- app_assoc in H'.
Qed.

Definition flag (v : Z) : bool := v =? 1.

Lemma bits_of_unpack b t k : 0 <= b < 2 ^ 8 -> (k <= 8)%nat ->
  bits_of b 0 k = flag <$> take k (unpack 1 8 (b :: t)).
Proof.
  intros Hb Hk. apply list_eq. intros i. unfold bits_of. destruct (decide (i < k)%nat).
  - rewrite !list_lookup_fmap, lookup_seq_lt, lookup_take_lt, unpack_lookup by lia. cbn. f_equal.
    unfold unpack_val, flag. cbn [le_val]. rewrite Z.add_0_l, Z.mul_1_r. change (2 ^ 1) with 2.
    rewrite <- Z.bit0_mod, Z.div_pow2_bits, Z.add_0_l by lia.
    replace (Z.testbit (b + 2 ^ 8 * le_val t) (Z.of_nat i)) with (Z.testbit b (Z.of_nat i)).
    { by destruct (Z.testbit b _). }
    rewrite <- (Z.mod_pow2_bits_low (b + _) 8) by lia. f_equal.
    rewrite (Z.mul_comm (2 ^ 8)), Z.mod_add by lia. symmetry. by apply Z.mod_small.
  - rewrite !lookup_ge_None_2; rewrite ?length_fmap, ?length_take, ?length_seq; auto; lia.
Qed.

Lemma bitmap_groups_spec data size max : bytes_ok data -> size <= lenZ data ->
  forall n pos bm L nn, 0 <= pos <= size -> lenZ L <= max -> bm_holds bm max L ->
  exists bm' pos', let g := run_groups 1 (Z.of_nat n) (window data size pos) in
    let L' := flag <$> take (Z.to_nat (max - lenZ L)) g.1 in
    bitmap_groups n data size max bm pos (lenZ L) nn =
      Some (bm', pos', lenZ (L ++ L'), nn + ones L') /\ bm_holds bm' max (L ++ L') /\ pos <= pos' <= size /\
    ((Z.to_nat (max - lenZ L) <= length g.1)%nat \/ g.2 = Some (window data size pos') \/ g.2 = None).
Proof.
  intros Hd Hs. induction n as [|n IH]; intros pos bm L nn Hp Hm H; cbn [bitmap_groups]; cbv zeta.
  { exists bm, pos. rewrite run_groups_0. cbn [fst snd]. rewrite take_nil. cbn [fmap list_fmap ones].
    rewrite app_nil_r, Z.add_0_r. split_and!; auto; lia. }
  case_bool.
  2: { exists bm, pos. replace (Z.to_nat (max - lenZ L)) with 0%nat by lia. rewrite take_0.
       cbn [fmap list_fmap ones]. rewrite app_nil_r, Z.add_0_r. split_and!; auto; lia. }
  pose proof (window_length data size pos Hp Hs) as Lw. rewrite Z.geb_leb. case_bool.
  { exists bm, pos. rewrite run_groups_short by lia. cbn [fst snd]. rewrite take_nil. cbn [fmap list_fmap ones].
    rewrite app_nil_r, Z.add_0_r. split_and!; auto; lia. }
  destruct (window_cons data size pos) as (b & Eb & Ew); [lia..|]. rewrite Eb. cbn [mbind option_bind].
  pose proof (rd_byte _ _ _ Hd Eb) as Hb.
  replace (Z.of_nat (S n)) with (Z.of_nat n + 1) by lia.
  rewrite run_groups_S by (auto using window_bytes; lia). rewrite window_add by lia.
  set (k := if _ >? max then _ else 8). assert (k = Z.min 8 (max - lenZ L)) as Ek.
  { unfold k. rewrite Z.gtb_ltb. case_bool; lia. }
  clearbody k. destruct (store_bits_spec max b (Z.to_nat k) Hb bm L (lenZ L) 0 nn H) as (bm1 & -> & HB1); [lia..|].
  cbn [mbind option_bind]. set (us := unpack 1 8 _). assert (length us = 8%nat) as Lu by apply length_unpack.
  assert (bits_of b 0 (Z.to_nat k) = flag <$> take (Z.to_nat k) us) as Eu.
  { unfold us. rewrite Ew. apply bits_of_unpack; [done|lia]. }
  rewrite Eu in *. set (L1 := flag <$> take (Z.to_nat k) us) in *.
  assert (lenZ (L ++ L1) = lenZ L + k) as LL.
  { unfold L1. rewrite length_app, length_fmap, length_take. lia. }
  destruct (IH (pos + 1) bm1 (L ++ L1) (nn + ones L1)) as (bm' & pos' & E & H' & Hp' & HE); [lia..|done|].
  cbv zeta in E, H', HE. rewrite LL in E, H', HE. rewrite E. exists bm', pos'.
  destruct (run_groups 1 (Z.of_nat n) (window data size (pos + 1))) as [vs r]. cbn [fst snd] in *.
  assert (flag <$> take (Z.to_nat (max - lenZ L)) (us ++ vs) =
          L1 ++ (flag <$> take (Z.to_nat (max - (lenZ L + k))) vs)) as EL.
  { unfold L1. rewrite <- fmap_app. f_equal. destruct (Z.le_gt_cases 8 (max - lenZ L)).
    - rewrite (take_ge us), take_app_ge by lia. do 2 f_equal. lia.
    - replace (Z.to_nat (max - (lenZ L + k))) with 0%nat by lia.
      rewrite take_0, app_nil_r, take_app_le by lia. f_equal. lia. }
  rewrite EL, app_assoc, ones_app, Z.add_assoc. split_and!; auto; [lia..|].
  destruct HE as [?|?]; [left; rewrite length_app; lia|by right].
Qed.

Section OneBitmapRun.
Context (data : list Z) (size max : Z) (Hd : bytes_ok data) (Hs : 0 <= size <= lenZ data).
Context (fuel : nat) (pos : Z) (bm : list Z) (L : list bool).
Context (Hp : 0 <= pos < size) (Hc : lenZ L < max) (H : bm_holds bm max L).

(** What the rest of the loop has to deliver from a state with flags [L1]. *)
Definition finishes (pos2 : Z) (bm1 : list Z) (L1 : list bool) (r : option (list Z * Z * Z)) : Prop :=
  exists bm' L', r = Some (bm', lenZ (L1 ++ L'), ones (L1 ++ L')) /\ bm_holds bm' max (L1 ++ L') /\
    decodes flag (Z.to_nat (max - lenZ L1)) (rle_values 1 (window data size pos2)) L'.

Context (Next : forall pos2 bm1 L1, pos < pos2 <= size -> lenZ (L ++ L1) <= max -> bm_holds bm1 max (L ++ L1) ->
    finishes pos2 bm1 (L ++ L1)
      (bitmap_loop fuel data size max bm1 pos2 (lenZ (L ++ L1)) (ones (L ++ L1)))).

Lemma bitmap_rle_run n pos1 : 1 <= n -> pos < pos1 < size ->
  exists b bm1 nn k, rd data pos1 = Some b /\ k = (if lenZ L + n >? max then max - lenZ L else n) /\
    (if (b .& 1) =? 1
     then bitmap ← set_bits (Z.to_nat k) bm (lenZ L); Some (bitmap, ones L + k)
     else Some (bm, ones L)) = Some (bm1, nn) /\
    exists bm' L', bitmap_loop fuel data size max bm1 (pos1 + 1) (lenZ L + k) nn =
        Some (bm', lenZ (L ++ L'), ones (L ++ L')) /\ bm_holds bm' max (L ++ L') /\
      decodes flag (Z.to_nat (max - lenZ L))
        (prepend (replicate (Z.to_nat n) (le_val (take (Z.to_nat 1) (window data size pos1)) mod 2 ^ 1))
           (rle_values 1 (ptr_add (window data size pos1) 1))) L'.
Proof.
  intros Hn Hp1. destruct (window_cons data size pos1) as (b & Eb & Ew); [lia..|].
  set (k := if _ >? max then _ else _). assert (k = Z.min n (max - lenZ L)) as Ek.
  { unfold k. rewrite Z.gtb_ltb. case_bool; lia. }
  exists b. rewrite land_1. set (v := b mod 2). set (L1 := replicate (Z.to_nat k) (v =? 1)).
  assert (exists bm1, (if v =? 1 then bitmap ← set_bits (Z.to_nat k) bm (lenZ L); Some (bitmap, ones L + k)
     else Some (bm, ones L)) = Some (bm1, ones (L ++ L1)) /\ bm_holds bm1 max (L ++ L1)) as (bm1 & E1 & H1).
  { unfold L1. rewrite ones_app, ones_replicate. destruct (v =? 1).
    - destruct (set_bits_spec max (Z.to_nat k) bm L H) as (bm1 & -> & H1); [lia|]. cbn [mbind option_bind].
      exists bm1. split; [do 2 f_equal; lia|done].
    - exists bm. rewrite Z.add_0_r. split; [done|]. by apply bm_holds_false. }
  assert (lenZ (L ++ L1) = lenZ L + k) as LL.
  { unfold L1. rewrite length_app, length_replicate. lia. }
  exists bm1, (ones (L ++ L1)), k. split_and!; auto.
  destruct (Next (pos1 + 1) bm1 L1) as (bm' & L' & E & H' & D); [lia..|done|].
  rewrite LL in E, D. rewrite E. exists bm', (L1 ++ L'). rewrite app_assoc. split_and!; auto.
  rewrite Ew. change (take (Z.to_nat 1) _) with [b]. cbn [le_val]. change (2 ^ 1) with 2.
  replace (b + 2 ^ 8 * 0) with b by lia. fold v.
  change (ptr_add (b :: window data size (pos1 + 1)) 1) with (drop 0 (window data size (pos1 + 1))). rewrite drop_0.
  unfold L1. change (v =? 1) with (flag v). apply decodes_rle; [lia|].
  by replace (Z.to_nat (max - lenZ L) - Z.to_nat k)%nat with (Z.to_nat (max - (lenZ L + k))) by lia.
Qed.

Lemma bitmap_packed_run G pos1 : 1 <= G -> pos < pos1 <= size ->
  exists bm1 pos2 c nn,
    bitmap_groups (Z.to_nat G) data size max bm pos1 (lenZ L) (ones L) = Some (bm1, pos2, c, nn) /\
    exists bm' L', bitmap_loop fuel data size max bm1 pos2 c nn =
        Some (bm', lenZ (L ++ L'), ones (L ++ L')) /\ bm_holds bm' max (L ++ L') /\
      decodes flag (Z.to_nat (max - lenZ L))
        (match run_groups 1 G (window data size pos1) with
         | (vs, None) => (vs, false)
         | (vs, Some rest) => prepend vs (rle_values 1 rest)
         end) L'.
Proof.
  intros HG Hp1.
  destruct (bitmap_groups_spec data size max Hd ltac:(lia) (Z.to_nat G) pos1 bm L (ones L))
    as (bm1 & pos2 & E1 & H1 & Hp2 & HE); [lia..|done|]. cbv zeta in E1, H1, HE.
  rewrite Z2Nat.id in E1, H1, HE by lia. set (g := run_groups 1 G (window data size pos1)) in *.
  set (L1 := flag <$> take (Z.to_nat (max - lenZ L)) g.1) in *.
  assert (length L1 = length (take (Z.to_nat (max - lenZ L)) g.1)) as Ll by apply length_fmap.
  pose proof (length_take g.1 (Z.to_nat (max - lenZ L))) as Lt.
  do 4 eexists. split; [exact E1|]. rewrite <- ones_app.
  destruct (Next pos2 bm1 L1) as (bm' & L' & E & H' & D); [lia|rewrite length_app; lia|done|].
  rewrite E. exists bm', (L1 ++ L'). rewrite app_assoc. split_and!; auto.
  apply (decodes_run _ _ 1 g (window data size pos2)); [done|]. rewrite <- Ll. rewrite length_app in D.
  by replace (Z.to_nat (max - lenZ L) - length L1)%nat
    with (Z.to_nat (max - Z.of_nat (length L + length L1))) by lia.
Qed.

End OneBitmapRun.

Lemma bitmap_loop_spec data size max : bytes_ok data -> 0 <= size <= lenZ data ->
  forall fuel pos bm L, 0 <= pos <= size -> lenZ L <= max -> bm_holds bm max L -> size - pos <= Z.of_nat fuel ->
  finishes data size max pos bm L (bitmap_loop fuel data size max bm pos (lenZ L) (ones L)).
Proof.
  intros Hd Hs. induction fuel as [|fuel IH]; intros pos bm L Hp Hm H Hf; cbn [bitmap_loop].
  { decide_bool. rewrite andb_false_r. exists bm, []. rewrite app_nil_r. split_and!; auto.
    apply decodes_end. right. by rewrite window_end by lia. }
  destruct (Z.ltb_spec (lenZ L) max); cbn [andb].
  2: { exists bm, []. rewrite app_nil_r. split_and!; auto. apply decodes_end. left. lia. }
  destruct (Z.ltb_spec pos size).
  2: { exists bm, []. rewrite app_nil_r. split_and!; auto. apply decodes_end. right. by rewrite window_end by lia. }
  destruct (inline_header_spec data size pos) as (h & pos1 & -> & Hh & Hp1 & Eh); [done|lia|lia|].
  cbn [mbind option_bind].
  assert (forall pos2 bm1 L1, pos < pos2 <= size -> lenZ (L ++ L1) <= max -> bm_holds bm1 max (L ++ L1) ->
    finishes data size max pos2 bm1 (L ++ L1)
      (bitmap_loop fuel data size max bm1 pos2 (lenZ (L ++ L1)) (ones (L ++ L1)))) as Next.
  { intros pos2 bm1 L1 Hp2 HL HB. apply IH; auto; lia. }
  rewrite even_land, shiftr_div by lia. change (2 ^ 1) with 2.
  assert (0 <= h / 2 < 2 ^ 31) by dlia.
  apply (rle_values_header 1) in Eh; [|lia..]. change ((1 + 7) / 8) with 1 in Eh. revert Eh.
  unfold i32. rewrite wrap_signed_small by (unfold in_i; lia).
  destruct (Z.eqb_spec (h / 2) 0) as [E0|E0].
  { destruct (Next pos1 bm []) as (bm' & L' & E & H' & D); rewrite ?app_nil_r in *; [lia|lia|done|].
    intros Eh. exists bm', L'. split; [by destruct (Z.even h)|]. split; [done|]. destruct Eh as [->| ->]; [done|].
    apply decodes_any. by eapply decodes_length. }
  destruct (Z.even h).
  - pose proof (window_length data size pos1 ltac:(lia) ltac:(lia)) as L1. rewrite Z.gtb_ltb.
    replace (size <? pos1 + 1) with (lenZ (window data size pos1) <? 1) by (repeat case_bool; lia).
    destruct (Z.ltb_spec (lenZ (window data size pos1)) 1).
    { intros Eh. exists bm, []. rewrite app_nil_r. split_and!; auto.
      destruct Eh as [->| ->]; apply decodes_any; cbn; lia. }
    destruct (bitmap_rle_run data size max Hs fuel pos bm L ltac:(lia) ltac:(lia) H Next (h / 2) pos1)
      as (b & bm1 & nn & k & -> & <- & E1 & bm' & L' & E & H' & D); [lia..|].
    intros Eh. cbn [mbind option_bind]. rewrite E1. cbn [mbind option_bind]. rewrite E.
    exists bm', L'. split_and!; auto. destruct Eh as [->| ->]; [done|]. apply decodes_any. by eapply decodes_length.
  - destruct (bitmap_packed_run data size max Hd Hs fuel pos bm L ltac:(lia) ltac:(lia) H Next (h / 2) pos1)
      as (bm1 & pos2 & c & nn & -> & bm' & L' & E & H' & D); [lia..|].
    intros Eh. cbn [mbind option_bind]. rewrite E. exists bm', L'. split_and!; auto.
    destruct Eh as [->| ->]; [done|]. apply decodes_any. by eapply decodes_length.
Qed.

(** Decoding levels straight into a validity bitmap.  For levels of width 1 the
    bitmap routine never leaves the input or the bitmap, and on a clean stream its
    count, its bits and its non-null count are those of the level decoder: bit [i] is
    set exactly when level [i] is 1, and the bits after the last level are clear. *)
Theorem rle_decode_to_bitmap_exact data size bm max :
  bytes_ok data -> 0 <= size <= lenZ data -> 0 < max < 2 ^ 63 -> bytes_ok bm -> (max + 7) / 8 <= lenZ bm ->
  size <> 0 ->
  exists bm' L, carquet_rle_decode_to_bitmap data size bm max = Some (bm', lenZ L, ones L) /\
    lenZ L <= max /\
    (forall i, 0 <= i < max -> bit_at bm' i = default false (L !! Z.to_nat i)) /\
    (forall vs, rle_values 1 (take (Z.to_nat size) data) = (vs, true) ->
       L = flag <$> take (Z.to_nat max) vs).
Proof.
  intros Hd Hs Hm Hb Hl Hz. unfold carquet_rle_decode_to_bitmap. decide_bool.
  rewrite u64_small by lia. assert (0 <= (max + 7) / 8) by dlia. rewrite rd_n_Some by lia.
  cbn [mbind option_bind]. set (bm0 := replicate _ 0 ++ _).
  assert (bm_holds bm0 max []) as H0.
  { unfold bm0. split; [apply Forall_app_2; [apply Forall_replicate; unfold in_u; lia|by apply Forall_take, Forall_drop]|].
    split; [rewrite length_app, length_replicate; lia|]. intros i Hi. unfold bit_at.
    assert (0 <= i / 8 < (max + 7) / 8) by dlia.
    rewrite rd_app_l by (rewrite length_replicate; lia). rewrite rd_lookup, lookup_replicate_2 by lia.
    by rewrite Z.bits_0. }
  destruct (bitmap_loop_spec data size max Hd Hs (Z.to_nat size) 0 bm0 []) as (bm' & L & E & (_ & _ & HB) & D);
    [lia|cbn; lia|done|lia|].
  cbn [length ones app] in E, HB, D. rewrite Z.sub_0_r in D. exists bm', L. split; [done|]. split_and!.
  - apply decodes_length in D. lia.
  - intros i Hi. apply HB. dlia.
  - intros vs Ev. change (window data size 0) with (take (Z.to_nat size) data) in D. rewrite Ev in D.
    by apply decodes_clean in D.
Qed.

(** Widths 1: levels 1 0 1 1 in one RLE run and one packed byte. *)
Definition level_stream : list Z := [4; 1; 3; 0x0D].

Lemma level_stream_bytes : bytes_ok level_stream.
Proof. by apply (bool_decide_unpack _). Qed.

Lemma rle_decode_levels_exact_witness :
  exists out, @carquet_rle_decode_levels scalar_kernels level_stream 4 1 6 = Some out /\
    out = [1; 1; 1; 0; 1; 1].
Proof.
  destruct (@rle_decode_levels_exact scalar_kernels _ level_stream 4 1 6 level_stream_bytes)
    as (out & E & _ & _ & H); [cbn; lia|lia|lia|].
  exists out. split; [exact E|]. apply H. reflexivity.
Defined.

Lemma rle_decode_to_bitmap_exact_witness :
  exists bm', carquet_rle_decode_to_bitmap level_stream 4 [255] 6 = Some (bm', 6, 5) /\ bit_at bm' 3 = false.
Proof.
  destruct (rle_decode_to_bitmap_exact level_stream 4 [255] 6 level_stream_bytes)
    as (bm' & L & E & _ & HB & HL); [cbn; lia|lia|by apply (bool_decide_unpack _)|vm_compute; discriminate|lia|].
  exists bm'. assert (L = [true; true; true; false; true; true]) as EL by (by apply (HL (fst (rle_values 1 level_stream)))).
  split; [rewrite E, EL; reflexivity|]. rewrite (HB 3), EL by lia. reflexivity.
Defined.

(** The length check of the prefixed decoder wraps.  With a prefix of 0xFFFFFFFC
    or more the 32-bit sum [4 + rle_length] wraps to a small number, the check passes,
    and the decoder runs past the end of the input. *)
Theorem rle_prefixed_length_wraps :
  @carquet_rle_decode_levels_prefixed scalar_kernels [0xFF; 0xFF; 0xFF; 0xFF] 4 1 8 = None.
Proof.
  unfold carquet_rle_decode_levels_prefixed.
  change (carquet_read_u32_le [0xFF; 0xFF; 0xFF; 0xFF]) with (Some 0xFFFFFFFF).
  cbn [mbind option_bind]. change (u32 (4 + 0xFFFFFFFF)) with 3. decide_bool.
  change (ptr_add [0xFF; 0xFF; 0xFF; 0xFF] 4) with ([] : list Z).
  unfold carquet_rle_decode_levels. decide_bool.
  replace (Z.to_nat 0xFFFFFFFF) with (S (Z.to_nat 0xFFFFFFFE)) by lia. done.
Qed.
