(* ===== verification/Delta.v ===== *)
(** * DELTA_BINARY_PACKED (carquet/encoding/delta.c)

    Integers as zigzag varint header, then blocks of deltas: the minimum delta, a bit
    width per mini-block, and the packed excess over the minimum.  This file is the
    program; [DeltaDecode] and [DeltaRoundtrip] prove it. *)

From S2P Require Import Prelude Status Endian Dispatch Bitpack.

Definition DELTA_BLOCK_SIZE : Z := 128.
Definition DELTA_MINI_BLOCKS : Z := 4.
Definition DELTA_MINI_BLOCK_SIZE : Z := DELTA_BLOCK_SIZE / DELTA_MINI_BLOCKS.
Definition DELTA_MAX_BLOCK_SIZE : Z := 1024.
Definition DELTA_MAX_MINI_BLOCKS : Z := 32.
Definition DELTA_MAX_MINI_BLOCK_SIZE : Z := DELTA_MAX_BLOCK_SIZE.

(** ** Decoder *)

Record delta_decoder_t := mk_delta_decoder {
  dd_data : list Z;
  dd_size : Z;
  dd_pos : Z;
  dd_block_size : Z;
  dd_mini_blocks_per_block : Z;
  dd_total_values : Z;
  dd_values_decoded : Z;
  dd_first_value : Z;
  dd_last_value : Z;
  dd_min_delta : Z;
  dd_bit_widths : list Z;          (* uint8_t[DELTA_MAX_MINI_BLOCKS] *)
  dd_current_mini_block : Z;
  dd_values_in_mini_block : Z;
  dd_mini_block_values : list Z;   (* int64_t[DELTA_MAX_MINI_BLOCK_SIZE] *)
  dd_mini_block_pos : Z }.

(** The number of bytes read, 0 on failure, and [*value]. *)
Fixpoint read_uleb128_loop (n : nat) (data : list Z) (size i shift value : Z) : option (Z * Z) :=
  match n with
  | O => Some (0, value)
  | S n =>
      if i <? size then
        b ← rd data i;
        let value := value .| u64 ((b .& 0x7F) ≪ shift) in
        if (b .& 0x80) =? 0 then Some (i + 1, value)
        else read_uleb128_loop n data size (i + 1) (shift + 7) value
      else Some (0, value)
  end.

Definition read_uleb128 (data : list Z) (size : Z) : option (Z * Z) :=
  read_uleb128_loop 10 data size 0 0 0.

Definition zigzag_decode64 (n : Z) : Z :=
  i64 ((n ≫ 1) .^ u64 (u64 (Z.lnot (n .& 1)) + 1)).

(** One header varint at the cursor: [Some None] is the failing return. *)
Definition header_varint (data : list Z) (size pos : Z) : option (option (Z * Z)) :=
  '(bytes, val) ← read_uleb128 (ptr_add data pos) (size - pos);
  Some (if bytes =? 0 then None else Some (val, pos + bytes)).

Definition delta_decoder_init (data : list Z) (size : Z) : option (carquet_status_t * option delta_decoder_t) :=
  let fail := Some (CARQUET_ERROR_DECODE, None) in
  r ← header_varint data size 0;
  match r with None => fail | Some (val, pos) =>
  let block_size := i32 val in
  r ← header_varint data size pos;
  match r with None => fail | Some (val, pos) =>
  let mini_blocks := i32 val in
  if (mini_blocks <=? 0) || (mini_blocks >? DELTA_MAX_MINI_BLOCKS) then fail else
  if (block_size <=? 0) || (block_size >? DELTA_MAX_BLOCK_SIZE) then fail else
  if block_size / mini_blocks >? DELTA_MAX_MINI_BLOCK_SIZE then fail else
  r ← header_varint data size pos;
  match r with None => fail | Some (val, pos) =>
  let total_values := i32 val in
  r ← header_varint data size pos;
  match r with None => fail | Some (val, pos) =>
  let first_value := zigzag_decode64 val in
  Some (CARQUET_OK, Some (mk_delta_decoder data size pos block_size mini_blocks total_values 0
    first_value first_value 0 (replicate 32 0) mini_blocks 0 (replicate 1024 0) DELTA_MAX_MINI_BLOCK_SIZE))
  end end end end.

(** [memcpy] to the start of an array. *)
Definition overwrite (arr bs : list Z) : list Z := bs ++ drop (length bs) arr.

Definition delta_decoder_read_block (dec : delta_decoder_t) : option (carquet_status_t * delta_decoder_t) :=
  if dd_pos dec >=? dd_size dec then Some (CARQUET_ERROR_END_OF_DATA, dec) else
  '(bytes, val) ← read_uleb128 (ptr_add (dd_data dec) (dd_pos dec)) (dd_size dec - dd_pos dec);
  if bytes =? 0 then Some (CARQUET_ERROR_DECODE, dec) else
  let pos := dd_pos dec + bytes in
  let with_state pos widths current :=
    mk_delta_decoder (dd_data dec) (dd_size dec) pos (dd_block_size dec) (dd_mini_blocks_per_block dec)
      (dd_total_values dec) (dd_values_decoded dec) (dd_first_value dec) (dd_last_value dec)
      (zigzag_decode64 val) widths current (dd_values_in_mini_block dec)
      (dd_mini_block_values dec) (dd_mini_block_pos dec) in
  if pos + dd_mini_blocks_per_block dec >? dd_size dec then
    Some (CARQUET_ERROR_DECODE, with_state pos (dd_bit_widths dec) (dd_current_mini_block dec))
  else
    ws ← rd_n (dd_data dec) pos (dd_mini_blocks_per_block dec);
    Some (CARQUET_OK, with_state (pos + dd_mini_blocks_per_block dec) (overwrite (dd_bit_widths dec) ws) 0).

(** [val |= (uint64_t)data[pos++] << (b * 8)] for [b = 0 .. n - 1] *)
Fixpoint read_wide (n : nat) (data : list Z) (pos b val : Z) : option Z :=
  match n with
  | O => Some val
  | S n => x ← rd data pos; read_wide n data (pos + 1) (b + 1) (val .| u64 (x ≪ (b * 8)))
  end.

Fixpoint read_wide_values (count : nat) (data : list Z) (pos bytes_per_value min_delta : Z) : option (list Z) :=
  match count with
  | O => Some []
  | S count =>
      val ← read_wide (Z.to_nat bytes_per_value) data pos 0 0;
      rest ← read_wide_values count data (pos + bytes_per_value) bytes_per_value min_delta;
      Some (i64 (u64 (u64 min_delta + val)) :: rest)
  end.

Section Decode.
Context {K : UnpackKernels}.

(** The values of the mini-block with the bytes it takes, or the error. *)
Definition mini_block_contents (dec : delta_decoder_t) (bit_width mini_block_size : Z)
    : option (carquet_status_t * list Z * Z) :=
  if bit_width =? 0 then
    Some (CARQUET_OK, replicate (Z.to_nat mini_block_size) (dd_min_delta dec), dd_pos dec)
  else if bit_width <=? 32 then
    let packed_size := (mini_block_size * bit_width + 7) / 8 in
    if dd_pos dec + packed_size >? dd_size dec then Some (CARQUET_ERROR_DECODE, [], dd_pos dec) else
    '((unpacked, _) : list Z * Z) ← carquet_bitunpack_32 (ptr_add (dd_data dec) (dd_pos dec)) mini_block_size bit_width;
    Some (CARQUET_OK, map (λ u, i64 (u64 (u64 (dd_min_delta dec) + u))) unpacked, dd_pos dec + packed_size)
  else if bit_width <=? 64 then
    let bytes_per_value := (bit_width + 7) / 8 in
    let packed_size := mini_block_size * bytes_per_value in
    if dd_pos dec + packed_size >? dd_size dec then Some (CARQUET_ERROR_DECODE, [], dd_pos dec) else
    vs ← read_wide_values (Z.to_nat mini_block_size) (dd_data dec) (dd_pos dec) bytes_per_value (dd_min_delta dec);
    Some (CARQUET_OK, vs, dd_pos dec + packed_size)
  else Some (CARQUET_ERROR_DECODE, [], dd_pos dec).

Definition delta_decoder_read_mini_block (dec : delta_decoder_t) : option (carquet_status_t * delta_decoder_t) :=
  '(status, dec) ← (if dd_current_mini_block dec >=? dd_mini_blocks_per_block dec
                    then delta_decoder_read_block dec else Some (CARQUET_OK, dec));
  if negb (is_ok status) then Some (status, dec) else
  bit_width ← rd (dd_bit_widths dec) (dd_current_mini_block dec);
  let mini_block_size := dd_block_size dec / dd_mini_blocks_per_block dec in
  '(status, vs, pos) ← mini_block_contents dec bit_width mini_block_size;
  if negb (is_ok status) then Some (status, dec) else
  Some (CARQUET_OK,
    mk_delta_decoder (dd_data dec) (dd_size dec) pos (dd_block_size dec) (dd_mini_blocks_per_block dec)
      (dd_total_values dec) (dd_values_decoded dec) (dd_first_value dec) (dd_last_value dec)
      (dd_min_delta dec) (dd_bit_widths dec) (dd_current_mini_block dec + 1) mini_block_size
      (overwrite (dd_mini_block_values dec) vs) 0).

(** [values[i] = mini_block_values[mini_block_pos++]; values_decoded++] *)
Definition delta_advance (dec : delta_decoder_t) : delta_decoder_t :=
  mk_delta_decoder (dd_data dec) (dd_size dec) (dd_pos dec) (dd_block_size dec) (dd_mini_blocks_per_block dec)
    (dd_total_values dec) (dd_values_decoded dec + 1) (dd_first_value dec) (dd_last_value dec)
    (dd_min_delta dec) (dd_bit_widths dec) (dd_current_mini_block dec) (dd_values_in_mini_block dec)
    (dd_mini_block_values dec) (dd_mini_block_pos dec + 1).

(** [dec.values_decoded = 1] *)
Definition delta_start (dec : delta_decoder_t) : delta_decoder_t :=
  mk_delta_decoder (dd_data dec) (dd_size dec) (dd_pos dec) (dd_block_size dec) (dd_mini_blocks_per_block dec)
    (dd_total_values dec) 1 (dd_first_value dec) (dd_last_value dec)
    (dd_min_delta dec) (dd_bit_widths dec) (dd_current_mini_block dec) (dd_values_in_mini_block dec)
    (dd_mini_block_values dec) (dd_mini_block_pos dec).

(** The next [n] raw deltas. *)
Fixpoint decode_deltas (n : nat) (dec : delta_decoder_t) : option (carquet_status_t * list Z * delta_decoder_t) :=
  match n with
  | O => Some (CARQUET_OK, [], dec)
  | S n =>
      '(status, dec) ← (if dd_mini_block_pos dec >=? dd_values_in_mini_block dec
                        then delta_decoder_read_mini_block dec else Some (CARQUET_OK, dec));
      if negb (is_ok status) then Some (status, [], dec) else
      v ← rd (dd_mini_block_values dec) (dd_mini_block_pos dec);
      '(status, rest, dec) ← decode_deltas n (delta_advance dec);
      Some (status, v :: rest, dec)
  end.

(** The status, the decoded values and [*bytes_consumed]; nothing on failure. *)
Definition carquet_delta_decode_int32 (data : list Z) (data_size num_values : Z)
    : option (carquet_status_t * option (list Z * Z)) :=
  '(status, dec) ← delta_decoder_init data data_size;
  match dec with None => Some (status, None) | Some dec =>
  if num_values =? 0 then Some (CARQUET_OK, Some ([], dd_pos dec)) else
  let v0 := i32 (dd_first_value dec) in
  '(status, deltas, dec) ← decode_deltas (Z.to_nat (num_values - 1)) (delta_start dec);
  if negb (is_ok status) then Some (status, None) else
  Some (CARQUET_OK, Some (v0 :: carquet_dispatch_prefix_sum_i32 (i32 <$> deltas) v0, dd_pos dec))
  end.

Definition carquet_delta_decode_int64 (data : list Z) (data_size num_values : Z)
    : option (carquet_status_t * option (list Z * Z)) :=
  '(status, dec) ← delta_decoder_init data data_size;
  match dec with None => Some (status, None) | Some dec =>
  if num_values =? 0 then Some (CARQUET_OK, Some ([], dd_pos dec)) else
  let v0 := dd_first_value dec in
  '(status, deltas, dec) ← decode_deltas (Z.to_nat (num_values - 1)) (delta_start dec);
  if negb (is_ok status) then Some (status, None) else
  Some (CARQUET_OK, Some (v0 :: carquet_dispatch_prefix_sum_i64 deltas v0, dd_pos dec))
  end.

End Decode.

(** ** Encoder

    [data] is the caller's array; stores outside it are undefined. *)

Record delta_encoder_t := mk_delta_encoder {
  de_data : list Z;
  de_capacity : Z;
  de_pos : Z;
  de_values_written : Z;
  de_first_value : Z;
  de_last_value : Z;
  de_deltas : list Z }.   (* deltas[0 .. delta_count - 1] *)

(** Store bytes at the cursor and advance it. *)
Definition emit (enc : delta_encoder_t) (bs : list Z) : option delta_encoder_t :=
  if (0 <=? de_pos enc) && (de_pos enc + lenZ bs <=? lenZ (de_data enc)) then
    Some (mk_delta_encoder
      (take (Z.to_nat (de_pos enc)) (de_data enc) ++ bs ++ drop (Z.to_nat (de_pos enc) + length bs) (de_data enc))
      (de_capacity enc) (de_pos enc + lenZ bs) (de_values_written enc)
      (de_first_value enc) (de_last_value enc) (de_deltas enc))
  else None.

Fixpoint write_uleb128 (fuel : nat) (value : Z) : option (list Z) :=
  if value >=? 0x80 then
    match fuel with
    | O => None
    | S fuel => rest ← write_uleb128 fuel (value ≫ 7); Some (u8 (value .| 0x80) :: rest)
    end
  else Some [u8 value].

Definition emit_uleb128 (enc : delta_encoder_t) (value : Z) : option delta_encoder_t :=
  bs ← write_uleb128 9 value; emit enc bs.

Definition zigzag_encode64 (n : Z) : Z := u64 (u64 n ≪ 1) .^ u64 (n ≫ 63).

Fixpoint bit_width_loop (fuel : nat) (value width : Z) : option Z :=
  if value >? 0 then
    match fuel with O => None | S fuel => bit_width_loop fuel (value ≫ 1) (width + 1) end
  else Some width.

Definition bit_width_required (value : Z) : option Z :=
  if value =? 0 then Some 0 else bit_width_loop 64 value 0.

Definition delta_encoder_init (data : list Z) (capacity : Z) : delta_encoder_t :=
  mk_delta_encoder data capacity 0 0 0 0 [].

Definition min_of (d0 : Z) (ds : list Z) : Z := foldl (λ m d, if d <? m then d else m) d0 ds.

(** [adjusted = (uint64_t)delta - (uint64_t)min_delta] *)
Definition adjusted (min_delta d : Z) : Z := u64 (u64 d - u64 min_delta).

(** The deltas of mini-block [mb]. *)
Definition mini_slice (deltas : list Z) (mb : nat) : list Z := take 32 (drop (mb * 32) deltas).

Definition mini_width (min_delta : Z) (deltas : list Z) (mb : nat) : option Z :=
  bit_width_required
    (foldl (λ m d, if adjusted min_delta d >? m then adjusted min_delta d else m) 0 (mini_slice deltas mb)).

Definition mini_bytes_needed (w : Z) : Z :=
  if w >? 0 then if w <=? 32 then DELTA_MINI_BLOCK_SIZE * w / 8 else DELTA_MINI_BLOCK_SIZE * ((w + 7) / 8) else 0.

(** The bytes [adjusted >> (b * 8)] of one value. *)
Fixpoint wide_bytes (n : nat) (v b : Z) : list Z :=
  match n with O => [] | S n => u8 (v ≫ (b * 8)) :: wide_bytes n v (b + 1) end.

(** The packed bytes of one mini-block.  [carquet_bitpack_32] stores 32 values, whole
    groups, so it stores exactly the bytes it counts. *)
Definition pack_mini (min_delta : Z) (slice : list Z) (w : Z) : option (list Z) :=
  if w =? 0 then Some [] else
  if w <=? 32 then
    let to_pack := (λ d, u32 (adjusted min_delta d)) <$> slice in
    '(out, n) ← carquet_bitpack_32 (to_pack ++ replicate (32 - length to_pack) 0) DELTA_MINI_BLOCK_SIZE w;
    Some (take (Z.to_nat n) out)
  else
    let bytes_per_value := Z.to_nat ((w + 7) / 8) in
    Some (concat ((λ d, wide_bytes bytes_per_value (adjusted min_delta d) 0) <$> slice) ++
          replicate ((32 - length slice) * bytes_per_value) 0).

Definition emit_mini (enc : delta_encoder_t) (min_delta : Z) (deltas : list Z) (mb : nat) (w : Z)
    : option delta_encoder_t :=
  bs ← pack_mini min_delta (mini_slice deltas mb) w; emit enc bs.

Definition delta_encoder_flush_block (enc : delta_encoder_t) : option (carquet_status_t * delta_encoder_t) :=
  match de_deltas enc with
  | [] => Some (CARQUET_OK, enc)
  | d0 :: ds =>
      let deltas := d0 :: ds in
      let min_delta := min_of d0 ds in
      w0 ← mini_width min_delta deltas 0;
      w1 ← mini_width min_delta deltas 1;
      w2 ← mini_width min_delta deltas 2;
      w3 ← mini_width min_delta deltas 3;
      let packed_bytes_needed :=
        mini_bytes_needed w0 + mini_bytes_needed w1 + mini_bytes_needed w2 + mini_bytes_needed w3 in
      let bytes_needed := 10 + DELTA_MINI_BLOCKS + packed_bytes_needed in
      if de_pos enc + bytes_needed >? de_capacity enc then Some (CARQUET_ERROR_ENCODE, enc) else
      enc ← emit_uleb128 enc (zigzag_encode64 min_delta);
      enc ← emit enc [u8 w0; u8 w1; u8 w2; u8 w3];
      enc ← emit_mini enc min_delta deltas 0 w0;
      enc ← emit_mini enc min_delta deltas 1 w1;
      enc ← emit_mini enc min_delta deltas 2 w2;
      enc ← emit_mini enc min_delta deltas 3 w3;
      Some (CARQUET_OK, mk_delta_encoder (de_data enc) (de_capacity enc) (de_pos enc) (de_values_written enc)
              (de_first_value enc) (de_last_value enc) [])
  end.

Definition push_delta (enc : delta_encoder_t) (v : Z) : delta_encoder_t :=
  mk_delta_encoder (de_data enc) (de_capacity enc) (de_pos enc) (de_values_written enc)
    (de_first_value enc) v (de_deltas enc ++ [i64 (u64 (u64 v - u64 (de_last_value enc)))]).

Fixpoint encode_values (enc : delta_encoder_t) (values : list Z) : option (carquet_status_t * delta_encoder_t) :=
  match values with
  | [] => delta_encoder_flush_block enc
  | v :: values =>
      let enc := push_delta enc v in
      '(status, enc) ← (if lenZ (de_deltas enc) =? DELTA_BLOCK_SIZE
                        then delta_encoder_flush_block enc else Some (CARQUET_OK, enc));
      if negb (is_ok status) then Some (status, enc) else encode_values enc values
  end.

(** Both public encoders: the status, the array and [*bytes_written]. *)
Definition delta_encode (values : list Z) (data : list Z) (data_capacity : Z)
    : option (carquet_status_t * list Z * option Z) :=
  let enc := delta_encoder_init data data_capacity in
  if data_capacity <? 40 then Some (CARQUET_ERROR_ENCODE, data, None) else
  match values with
  | [] =>
      enc ← emit_uleb128 enc DELTA_BLOCK_SIZE;
      enc ← emit_uleb128 enc DELTA_MINI_BLOCKS;
      enc ← emit_uleb128 enc 0;
      enc ← emit_uleb128 enc (zigzag_encode64 0);
      Some (CARQUET_OK, de_data enc, Some (de_pos enc))
  | v0 :: values =>
      enc ← emit_uleb128 enc DELTA_BLOCK_SIZE;
      enc ← emit_uleb128 enc DELTA_MINI_BLOCKS;
      enc ← emit_uleb128 enc (u64 (lenZ (v0 :: values)));
      enc ← emit_uleb128 enc (zigzag_encode64 v0);
      let enc := mk_delta_encoder (de_data enc) (de_capacity enc) (de_pos enc) 1 v0 v0 [] in
      '(status, enc) ← encode_values enc values;
      if negb (is_ok status) then Some (status, de_data enc, None)
      else Some (CARQUET_OK, de_data enc, Some (de_pos enc))
  end.

Definition carquet_delta_encode_int32 (values data : list Z) (data_capacity : Z) :=
  delta_encode values data data_capacity.
Definition carquet_delta_encode_int64 (values data : list Z) (data_capacity : Z) :=
  delta_encode values data data_capacity.
