(* ===== verification/DeltaDecode.v ===== *)
(** * The DELTA_BINARY_PACKED decoder on arbitrary bytes

    The invariant of the decoder state, its preservation by every operation, and the
    safety of the public decoders: no access outside the input or the state's arrays. *)

From S2P Require Import Prelude Status Endian Dispatch Bitpack Delta.

Record delta_wf (d : delta_decoder_t) : Prop := {
  dw_bytes : bytes_ok (dd_data d);
  dw_pos : 0 <= dd_pos d <= dd_size d;
  dw_size : dd_size d <= lenZ (dd_data d);
  dw_blocks : 1 <= dd_mini_blocks_per_block d <= 32;
  dw_block_size : 1 <= dd_block_size d <= 1024;
  dw_widths : length (dd_bit_widths d) = 32%nat;
  dw_widths_ok : bytes_ok (dd_bit_widths d);
  dw_current : 0 <= dd_current_mini_block d;
  dw_values : length (dd_mini_block_values d) = 1024%nat;
  dw_values_ok : Forall (in_i 64) (dd_mini_block_values d);
  dw_min_delta : in_i 64 (dd_min_delta d);
  dw_in_block : dd_values_in_mini_block d <= 1024;
  dw_block_pos : 0 <= dd_mini_block_pos d }.

(** ** Varints *)

Lemma shifted_byte_range b shift : 0 <= shift -> in_u 64 (u64 ((b .& 0x7F) ≪ shift)).
Proof. intros. apply u64_range. Qed.

Lemma read_uleb128_loop_safe data size : bytes_ok data -> size <= lenZ data ->
  forall n i shift value, 0 <= i <= size -> 0 <= shift -> in_u 64 value ->
  exists bytes val, read_uleb128_loop n data size i shift value = Some (bytes, val) /\
    (bytes = 0 \/ i < bytes <= size) /\ in_u 64 val.
Proof.
  intros Hb Hs. induction n as [|n IH]; intros i shift value Hi Hsh Hv; cbn [read_uleb128_loop].
  { eauto 6. }
  case_bool; [|by eauto 6].
  destruct (rd_Some data i) as [b E]; [lia|]. rewrite E. cbn [mbind option_bind].
  assert (in_u 64 (value .| u64 ((b .& 0x7F) ≪ shift))) as Hv'.
  { apply lor_bound; [lia|done|apply u64_range]. }
  case_bool; [eexists _, _; split; [done|split; [lia|done]]|].
  destruct (IH (i + 1) (shift + 7) _ ltac:(lia) ltac:(lia) Hv') as (bytes & val & -> & Hbytes & ?).
  eexists _, _. split; [done|]. split; [lia|done].
Qed.

Lemma read_uleb128_safe data size pos : bytes_ok data -> 0 <= pos <= size -> size <= lenZ data ->
  exists bytes val, read_uleb128 (ptr_add data pos) (size - pos) = Some (bytes, val) /\
    0 <= bytes <= size - pos /\ in_u 64 val.
Proof.
  intros. destruct (read_uleb128_loop_safe (ptr_add data pos) (size - pos)
    ltac:(auto with bytes) ltac:(rewrite length_ptr_add; lia) 10 0 0 0) as (b & v & E & ? & ?);
    [lia|lia|unfold in_u; lia|]. exists b, v. split; [done|]. split; [lia|done].
Qed.

Lemma header_varint_safe data size pos : bytes_ok data -> 0 <= pos <= size -> size <= lenZ data ->
  exists r, header_varint data size pos = Some r /\
    match r with Some (val, pos') => in_u 64 val /\ pos <= pos' <= size | None => True end.
Proof.
  intros. unfold header_varint. destruct (read_uleb128_safe data size pos) as (b & v & -> & ? & ?); auto.
  cbn [mbind option_bind]. eexists. split; [done|]. case_bool; [done|]. split; [done|lia].
Qed.

Lemma zigzag_decode64_range n : in_i 64 (zigzag_decode64 n).
Proof. apply wrap_signed_range. lia. Qed.

(** ** Operations *)

(** Either the header is refused, or the decoder starts in a good state. *)
Lemma delta_decoder_init_safe data size : bytes_ok data -> 0 <= size <= lenZ data ->
  delta_decoder_init data size = Some (CARQUET_ERROR_DECODE, None) \/
  exists d, delta_decoder_init data size = Some (CARQUET_OK, Some d) /\ delta_wf d /\
    dd_data d = data /\ dd_size d = size /\ in_i 64 (dd_first_value d).
Proof.
  intros Hb Hs. unfold delta_decoder_init.
  destruct (header_varint_safe data size 0) as ([[v1 p1]|] & -> & H1); [done|lia..| |by left].
  cbn [mbind option_bind]. destruct H1 as [_ H1].
  destruct (header_varint_safe data size p1) as ([[v2 p2]|] & -> & H2); [done|lia..| |by left].
  cbn [mbind option_bind]. destruct H2 as [_ H2].
  destruct ((i32 v2 <=? 0) || (i32 v2 >? DELTA_MAX_MINI_BLOCKS)) eqn:E1; [by left|].
  destruct ((i32 v1 <=? 0) || (i32 v1 >? DELTA_MAX_BLOCK_SIZE)) eqn:E2; [by left|].
  case_bool. case_bool; [by left|].
  destruct (header_varint_safe data size p2) as ([[v3 p3]|] & -> & H3); [done|lia..| |by left].
  cbn [mbind option_bind]. destruct H3 as [_ H3].
  destruct (header_varint_safe data size p3) as ([[v4 p4]|] & -> & H4); [done|lia..| |by left].
  cbn [mbind option_bind]. destruct H4 as [_ H4]. right. eexists. split; [done|].
  unfold DELTA_MAX_MINI_BLOCKS, DELTA_MAX_BLOCK_SIZE in *.
  split; [|split_and!; auto; apply zigzag_decode64_range].
  split; cbn -[replicate]; auto; try lia.
  - apply Forall_replicate. unfold in_u. lia.
  - apply Forall_replicate. unfold in_i. lia.
  - unfold in_i. lia.
  - done.
Qed.

Lemma length_overwrite arr bs : (length bs <= length arr)%nat -> length (overwrite arr bs) = length arr.
Proof. intros. unfold overwrite. rewrite length_app, length_drop. lia. Qed.

Lemma overwrite_Forall P arr bs : Forall P arr -> Forall P bs -> Forall P (overwrite arr bs).
Proof. intros. unfold overwrite. apply Forall_app_2; [done|by apply Forall_drop]. Qed.

Lemma delta_decoder_read_block_safe d : delta_wf d ->
  exists s d', delta_decoder_read_block d = Some (s, d') /\ delta_wf d' /\ dd_size d' = dd_size d /\
    (is_ok s = true -> dd_current_mini_block d' = 0 /\ dd_mini_blocks_per_block d' = dd_mini_blocks_per_block d).
Proof.
  intros W. destruct (W) as [? Hpos ? ? ? HL ? ? ? ? ? ? ?]. unfold delta_decoder_read_block.
  case_bool. case_bool; [eexists _, _; split_and!; done|].
  destruct (read_uleb128_safe (dd_data d) (dd_size d) (dd_pos d)) as (b & v & -> & ? & ?); auto.
  cbn [mbind option_bind]. case_bool; [eexists _, _; split_and!; done|].
  case_bool. case_bool.
  - eexists _, _. split; [done|]. split; [|by split].
    split; cbn; auto; [lia|apply zigzag_decode64_range].
  - rewrite rd_n_Some by lia. cbn [mbind option_bind]. eexists _, _. split; [done|]. split; [|by split].
    split; cbn; auto; try lia; try apply zigzag_decode64_range.
    + rewrite length_overwrite; [done|]. rewrite length_take. lia.
    + apply overwrite_Forall; auto with bytes.
Qed.

Lemma read_wide_safe data : bytes_ok data -> forall n pos b val, 0 <= pos -> pos + Z.of_nat n <= lenZ data ->
  is_Some (read_wide n data pos b val).
Proof.
  intros Hb. induction n as [|n IH]; intros pos b val Hp Hl; cbn [read_wide]; [by eexists|].
  destruct (rd_Some data pos) as [x E]; [lia|]. rewrite E. cbn [mbind option_bind]. apply IH; lia.
Qed.

Lemma read_wide_values_safe data k min_delta : bytes_ok data -> 0 <= k ->
  forall n pos, 0 <= pos -> pos + Z.of_nat n * k <= lenZ data ->
  exists vs, read_wide_values n data pos k min_delta = Some vs /\ length vs = n /\ Forall (in_i 64) vs.
Proof.
  intros Hb Hk. induction n as [|n IH]; intros pos Hp Hl; cbn [read_wide_values]; [by exists []|].
  destruct (read_wide_safe data Hb (Z.to_nat k) pos 0 0) as [x E]; [lia..|]. rewrite E.
  cbn [mbind option_bind]. destruct (IH (pos + k)) as (vs & -> & ? & ?); [lia..|].
  cbn [mbind option_bind]. eexists. split; [done|]. split; [cbn; lia|].
  constructor; [apply wrap_signed_range; lia|done].
Qed.

Section Safety.
Context {K : UnpackKernels} {KOk : UnpackKernelsOk K}.

Lemma mini_block_contents_safe d w n : delta_wf d -> 0 <= w < 2 ^ 8 -> 0 <= n <= 1024 ->
  exists s vs pos, mini_block_contents d w n = Some (s, vs, pos) /\
    (is_ok s = true -> length vs = Z.to_nat n /\ Forall (in_i 64) vs /\ dd_pos d <= pos <= dd_size d).
Proof.
  intros [? Hpos ? ? ? HL ? ? ? ? ? ? ?] Hw Hn. unfold mini_block_contents. destruct (Z.eqb_spec w 0).
  { eexists _, _, _. split; [done|]. intros _. rewrite length_replicate. split; [done|].
    split; [by apply Forall_replicate|lia]. }
  destruct (Z.leb_spec w 32).
  - case_bool. case_bool; [eexists _, _, _; split; [done|done]|].
    assert (0 <= (n * w + 7) / 8) by (apply Z.div_pos; nia).
    rewrite bitunpack_32_spec; [|auto with bytes|lia|lia|].
    2:{ rewrite length_ptr_add by lia. assert (n * w <= 8 * ((n * w + 7) / 8)) by dlia. lia. }
    cbn [mbind option_bind]. eexists _, _, _. split; [done|]. intros _.
    rewrite length_map, length_unpack. split; [done|]. split; [|lia].
    apply Forall_map, Forall_true. intros x. apply wrap_signed_range. lia.
  - destruct (Z.leb_spec w 64); [|eexists _, _, _; split; [done|done]].
    case_bool. case_bool; [eexists _, _, _; split; [done|done]|].
    assert (0 <= (w + 7) / 8) by (apply Z.div_pos; lia).
    destruct (read_wide_values_safe (dd_data d) ((w + 7) / 8) (dd_min_delta d)) with (n := Z.to_nat n) (pos := dd_pos d)
      as (vs & -> & ? & ?); [done|lia|lia|rewrite Z2Nat.id; lia|].
    cbn [mbind option_bind]. eexists _, _, _. split; [done|]. intros _. split; [done|]. split; [done|nia].
Qed.

Lemma delta_decoder_read_mini_block_safe d : delta_wf d ->
  exists s d', delta_decoder_read_mini_block d = Some (s, d') /\ delta_wf d' /\ dd_size d' = dd_size d /\
    (is_ok s = true -> dd_mini_block_pos d' = 0).
Proof.
  intros W. unfold delta_decoder_read_mini_block.
  assert (exists s d', (if dd_current_mini_block d >=? dd_mini_blocks_per_block d
      then delta_decoder_read_block d else Some (CARQUET_OK, d)) = Some (s, d') /\ delta_wf d' /\ dd_size d' = dd_size d /\
    (is_ok s = true -> dd_current_mini_block d' < dd_mini_blocks_per_block d')) as (s & d' & -> & W' & HS & Hc).
  { destruct (W). case_bool. case_bool.
    - destruct (delta_decoder_read_block_safe d W) as (s & d' & -> & W' & HS & HB). eexists _, _. split_and!; [done..|].
      intros Hs. destruct (HB Hs). destruct W'. lia.
    - eexists _, _. split_and!; [done..|]. intros _. lia. }
  cbn [mbind option_bind]. destruct (is_ok s) eqn:Hs; cbn [negb]; [|by exists s, d'; rewrite Hs; auto].
  specialize (Hc eq_refl). destruct (W') as [? ? ? Hm Hbs HL Hw ? ? ? ? ? ?].
  destruct (rd_Some (dd_bit_widths d') (dd_current_mini_block d')) as [w E]; [lia|]. rewrite E.
  cbn [mbind option_bind]. assert (0 <= dd_block_size d' / dd_mini_blocks_per_block d' <= 1024).
  { split; [apply Z.div_pos; lia|]. apply Z.div_le_upper_bound; nia. }
  destruct (mini_block_contents_safe d' w (dd_block_size d' / dd_mini_blocks_per_block d'))
    as (s2 & vs & pos & -> & H2); [done|by apply (rd_byte (dd_bit_widths d') (dd_current_mini_block d'))|done|].
  cbn [mbind option_bind]. destruct (is_ok s2) eqn:Hs2; cbn [negb]; [|by exists s2, d'; rewrite Hs2; auto].
  destruct (H2 eq_refl) as (L & ? & ?). eexists _, _. split; [done|]. split; [|by split].
  split; cbn; auto; try lia.
  - rewrite length_overwrite; lia.
  - by apply overwrite_Forall.
Qed.

Lemma delta_advance_wf d : delta_wf d -> delta_wf (delta_advance d).
Proof. intros []. split; cbn; auto; lia. Qed.

Lemma delta_start_wf d : delta_wf d -> delta_wf (delta_start d).
Proof. intros []. split; cbn; auto; lia. Qed.

Lemma decode_deltas_safe n : forall d, delta_wf d ->
  exists s vs d', decode_deltas n d = Some (s, vs, d') /\ delta_wf d' /\ dd_size d' = dd_size d /\
    (is_ok s = true -> length vs = n /\ Forall (in_i 64) vs).
Proof.
  induction n as [|n IH]; intros d W; cbn [decode_deltas].
  { eexists _, _, _. split_and!; [done..|]. auto. }
  assert (exists s d', (if dd_mini_block_pos d >=? dd_values_in_mini_block d
      then delta_decoder_read_mini_block d else Some (CARQUET_OK, d)) = Some (s, d') /\ delta_wf d' /\ dd_size d' = dd_size d /\
    (is_ok s = true -> dd_mini_block_pos d' < 1024)) as (s & d' & -> & W' & HS & Hc).
  { destruct (W). case_bool. case_bool.
    - destruct (delta_decoder_read_mini_block_safe d W) as (s & d' & -> & W' & HS & HB). eexists _, _.
      split_and!; [done..|]. intros Hs. rewrite HB by done. lia.
    - eexists _, _. split_and!; [done..|]. intros _. lia. }
  cbn [mbind option_bind]. destruct (is_ok s) eqn:Hs; cbn [negb]; [|by exists s, [], d'; rewrite Hs; auto].
  specialize (Hc eq_refl). destruct (W') as [? ? ? ? ? ? ? ? HL HV ? ? ?].
  destruct (rd_Some (dd_mini_block_values d') (dd_mini_block_pos d')) as [v E]; [lia|]. rewrite E.
  cbn [mbind option_bind]. destruct (IH (delta_advance d') (delta_advance_wf d' W')) as (s2 & vs & d2 & -> & W2 & HS2 & H2).
  cbn [mbind option_bind]. eexists _, _, _. split; [done|]. split; [done|]. split; [by rewrite HS2|]. intros Hs2.
  destruct (H2 Hs2) as [<- ?]. split; [done|]. constructor; [|done].
  rewrite rd_lookup in E by lia. exact (Forall_lookup_1 _ _ _ _ HV E).
Qed.

(** A whole decoding run. *)
Lemma delta_run_safe data size n : bytes_ok data -> 0 <= size <= lenZ data ->
  delta_decoder_init data size = Some (CARQUET_ERROR_DECODE, None) \/
  exists d, delta_decoder_init data size = Some (CARQUET_OK, Some d) /\
    0 <= dd_pos d <= size /\ in_i 64 (dd_first_value d) /\
    exists s vs d', decode_deltas n (delta_start d) = Some (s, vs, d') /\
      (is_ok s = true -> length vs = n /\ Forall (in_i 64) vs /\ 0 <= dd_pos d' <= size).
Proof.
  intros Hb Hs. destruct (delta_decoder_init_safe data size Hb Hs) as [?|(d & E & W & Hd & Hsz & HF)]; [by left|].
  right. exists d. split; [done|]. split; [destruct W; lia|]. split; [done|].
  destruct (decode_deltas_safe n _ (delta_start_wf d W)) as (s & vs & d' & ED & W' & HS & H).
  exists s, vs, d'. split; [done|]. intros Hok. destruct (H Hok). split_and!; auto; destruct W'; cbn in HS; lia.
Qed.

Lemma delta_decode32_safe data size n : bytes_ok data -> 0 <= size <= lenZ data -> 0 <= n ->
  exists s r, carquet_delta_decode_int32 data size n = Some (s, r) /\
    match r with
    | Some (vs, used) => s = CARQUET_OK /\ lenZ vs = n /\ Forall (in_i 32) vs /\ 0 <= used <= size
    | None => is_ok s = false
    end.
Proof.
  intros Hb Hs Hn. unfold carquet_delta_decode_int32.
  destruct (delta_run_safe data size (Z.to_nat (n - 1)) Hb Hs)
    as [->|(d & -> & Hp & HF & s & vs & d' & E & H)]; cbn [mbind option_bind]; [by eexists _, None|].
  rewrite E. cbn [mbind option_bind].
  destruct (Z.eqb_spec n 0) as [->|Hn0]; [by eexists _, (Some ([], _)); repeat split; try lia|].
  destruct (is_ok s) eqn:Hok; cbn [negb]; [|by eexists _, None].
  destruct (H eq_refl) as (? & ? & ?). eexists _, (Some (_, _)). split; [done|]. split; [done|]. cbn [length].
  rewrite length_prefix_sum_i32, length_fmap. split; [lia|]. split; [|done].
  constructor; [apply wrap_signed_range; lia|apply prefix_sum_i32_range].
Qed.

(** C35: the delta decoders are safe on any bytes.  Whatever the input, both decoders
    end with a status and never read outside the input or their own arrays; on success
    exactly [num_values] values of the column's width are delivered and
    [*bytes_consumed] lies inside the input, on failure nothing is. *)
Theorem delta_decode_safe data size n : bytes_ok data -> 0 <= size <= lenZ data -> 0 <= n ->
  (exists s r, carquet_delta_decode_int32 data size n = Some (s, r) /\
    match r with
    | Some (vs, used) => s = CARQUET_OK /\ lenZ vs = n /\ Forall (in_i 32) vs /\ 0 <= used <= size
    | None => is_ok s = false
    end) /\
  (exists s r, carquet_delta_decode_int64 data size n = Some (s, r) /\
    match r with
    | Some (vs, used) => s = CARQUET_OK /\ lenZ vs = n /\ Forall (in_i 64) vs /\ 0 <= used <= size
    | None => is_ok s = false
    end).
Proof.
  intros Hb Hs Hn. split; [by apply delta_decode32_safe|]. unfold carquet_delta_decode_int64.
  destruct (delta_run_safe data size (Z.to_nat (n - 1)) Hb Hs)
    as [->|(d & -> & Hp & HF & s & vs & d' & E & H)]; cbn [mbind option_bind]; [by eexists _, None|].
  rewrite E. cbn [mbind option_bind].
  destruct (Z.eqb_spec n 0) as [->|Hn0]; [by eexists _, (Some ([], _)); repeat split; try lia|].
  destruct (is_ok s) eqn:Hok; cbn [negb]; [|by eexists _, None].
  destruct (H eq_refl) as (? & ? & ?). eexists _, (Some (_, _)). split; [done|]. split; [done|]. cbn [length].
  rewrite length_prefix_sum_i64. split; [lia|]. split; [|done].
  constructor; [done|apply prefix_sum_i64_range].
Qed.

End Safety.

Lemma delta_decode_safe_witness :
  (exists s r, carquet_delta_decode_int32 (K := full_kernels) [128; 1; 4; 3; 14; 255; 0] 6 3 = Some (s, r)) /\
  bytes_ok [128; 1; 4; 3; 14; 255; 0].
Proof.
  assert (bytes_ok [128; 1; 4; 3; 14; 255; 0]) as Hb by (apply (bool_decide_unpack _); vm_compute; exact I).
  split; [|exact Hb].
  destruct (delta_decode_safe (K := full_kernels) [128; 1; 4; 3; 14; 255; 0] 6 3 Hb)
    as [(s & r & E & _) _]; [cbn; lia..|]. by exists s, r.
Defined.

(** A header with fewer values per block than mini-blocks passes the validation: its
    mini-blocks hold no value, and every delta is read from the empty staging buffer
    as 0, with status OK. *)
Lemma delta_empty_mini_blocks :
  carquet_delta_decode_int64 (K := full_kernels) [1; 2; 3; 10; 6; 7; 7] 7 3 = Some (CARQUET_OK, Some ([5; 5; 5], 7)).
Proof. vm_compute. reflexivity. Qed.
