(* ===== verification/DeltaRoundtrip.v ===== *)
(** * DELTA_BINARY_PACKED: decoding what was encoded

    The encoder is shown to append a reference encoding (header, then blocks of 128
    deltas in four mini-blocks) within the caller's capacity, and the decoder to read
    the reference encoding back exactly, consuming exactly its bytes. *)

From S2P Require Import Prelude Status Endian Dispatch Bitpack RleDecode Delta DeltaDecode.

(** ** Reference encoding *)

Definition width_of (v : Z) : Z := if v =? 0 then 0 else Z.log2 v + 1.

Definition max_adjusted (min_delta : Z) (ds : list Z) : Z :=
  foldl (λ m d, if adjusted min_delta d >? m then adjusted min_delta d else m) 0 ds.

Definition mini_w (min_delta : Z) (ds : list Z) : Z := width_of (max_adjusted min_delta ds).

Definition mini_data (min_delta : Z) (ds : list Z) (w : Z) : list Z :=
  if w <=? 32 then pack w (Z.to_nat (4 * w)) (adjusted min_delta <$> ds)
  else concat ((λ d, le_bytes (Z.to_nat ((w + 7) / 8)) (adjusted min_delta d)) <$> ds) ++
       replicate ((32 - length ds) * Z.to_nat ((w + 7) / 8)) 0.

Fixpoint widths (n : nat) (min_delta : Z) (ds : list Z) : list Z :=
  match n with
  | O => []
  | S n => mini_w min_delta (take 32 ds) :: widths n min_delta (drop 32 ds)
  end.

Fixpoint datas (n : nat) (min_delta : Z) (ds : list Z) : list Z :=
  match n with
  | O => []
  | S n => mini_data min_delta (take 32 ds) (mini_w min_delta (take 32 ds)) ++ datas n min_delta (drop 32 ds)
  end.

Definition minimum (ds : list Z) : Z := match ds with [] => 0 | d :: ds => min_of d ds end.

Definition block (ds : list Z) : list Z :=
  uleb (carquet_zigzag_encode64 (minimum ds)) ++ widths 4 (minimum ds) ds ++ datas 4 (minimum ds) ds.

Fixpoint blocks (fuel : nat) (ds : list Z) : list Z :=
  match fuel with
  | O => []
  | S fuel => if bool_decide (ds = []) then [] else block (take 128 ds) ++ blocks fuel (drop 128 ds)
  end.

Definition delta_header (n v0 : Z) : list Z := uleb 128 ++ uleb 4 ++ uleb n ++ uleb (carquet_zigzag_encode64 v0).

(** The deltas of consecutive values. *)
Fixpoint deltas_from (last : Z) (vs : list Z) : list Z :=
  match vs with [] => [] | v :: vs => i64 (u64 (u64 v - u64 last)) :: deltas_from v vs end.

Definition delta_bytes (vs : list Z) : list Z :=
  match vs with
  | [] => delta_header 0 0
  | v0 :: vs => delta_header (lenZ (v0 :: vs)) v0 ++ blocks (length vs) (deltas_from v0 vs)
  end.

(** ** Deltas and widths *)

Lemma bit_width_loop_spec fuel : forall v w, 0 <= v < 2 ^ Z.of_nat fuel ->
  bit_width_loop fuel v w = Some (w + width_of v).
Proof.
  induction fuel as [|fuel IH]; intros v w Hv; unfold width_of.
  { change (2 ^ Z.of_nat 0) with 1 in Hv. assert (v = 0) as -> by lia. cbn. f_equal. lia. }
  cbn [bit_width_loop]. rewrite Z.gtb_ltb. destruct (Z.ltb_spec 0 v).
  - rewrite shiftr_div by lia. change (2 ^ 1) with 2.
    rewrite IH.
    2:{ rewrite Nat2Z.inj_succ, Z.pow_succ_r in Hv by lia.
        split; [apply Z.div_pos; lia|apply Z.div_lt_upper_bound; lia]. }
    unfold width_of. destruct (Z.eqb_spec v 0); [lia|]. f_equal.
    destruct (Z.eqb_spec (v / 2) 0) as [E|E].
    + assert (v = 1) as -> by dlia. change (Z.log2 1) with 0. lia.
    + pose proof (Z.log2_shiftr v 1 ltac:(lia)) as L. rewrite shiftr_div in L by lia. change (2 ^ 1) with 2 in L.
      assert (2 <= v) by dlia. assert (1 <= Z.log2 v) by (apply Z.log2_le_pow2; lia). lia.
  - decide_bool. f_equal. lia.
Qed.

Lemma bit_width_required_spec v : in_u 64 v -> bit_width_required v = Some (width_of v).
Proof.
  intros Hv. unfold bit_width_required. destruct (Z.eqb_spec v 0) as [->|]; [done|].
  rewrite bit_width_loop_spec by (change (Z.of_nat 64) with 64; exact Hv). f_equal.
Qed.

Lemma width_of_bounds v : in_u 64 v -> 0 <= width_of v <= 64 /\ v < 2 ^ width_of v /\ (width_of v = 0 -> v = 0).
Proof.
  intros Hv. unfold in_u in Hv. unfold width_of. destruct (Z.eqb_spec v 0) as [->|]; [by repeat split|].
  pose proof (Z.log2_spec v ltac:(lia)) as L. rewrite <- Z.add_1_r in L.
  pose proof (Z.log2_nonneg v). assert (Z.log2 v < 64) by (apply Z.log2_lt_pow2; lia). lia.
Qed.

Lemma adjusted_range m d : in_u 64 (adjusted m d).
Proof. apply u64_range. Qed.

Lemma max_adjusted_spec m ds : in_u 64 (max_adjusted m ds) /\ Forall (λ d, adjusted m d <= max_adjusted m ds) ds.
Proof.
  unfold max_adjusted. assert (forall ds m0, in_u 64 m0 ->
    let r := foldl (λ m0 d, if adjusted m d >? m0 then adjusted m d else m0) m0 ds in
    in_u 64 r /\ m0 <= r /\ Forall (λ d, adjusted m d <= r) ds) as G.
  { clear ds. induction ds as [|d ds IH]; intros m0 H0; cbn; [by split; [|split; [lia|]]|].
    rewrite Z.gtb_ltb. pose proof (adjusted_range m d).
    set (m1 := if m0 <? adjusted m d then adjusted m d else m0).
    assert (in_u 64 m1 /\ m0 <= m1 /\ adjusted m d <= m1) as (? & ? & ?) by (unfold m1; case_bool; auto with lia).
    destruct (IH m1) as (? & ? & ?); [done|]. split; [done|]. split; [lia|]. constructor; [lia|done]. }
  destruct (G ds 0) as (? & _ & ?); [unfold in_u; lia|]. done.
Qed.

Lemma mini_w_spec m ds : 0 <= mini_w m ds <= 64 /\ Forall (λ d, 0 <= adjusted m d < 2 ^ mini_w m ds) ds.
Proof.
  destruct (max_adjusted_spec m ds) as [H1 H2]. destruct (width_of_bounds _ H1) as (? & ? & ?).
  split; [done|]. eapply Forall_impl; [|exact H2]. intros d Hd. cbn in Hd.
  pose proof (adjusted_range m d) as R. unfold in_u in R. unfold mini_w. lia.
Qed.

(** Adding the minimum back. *)
Lemma adjusted_back m d : in_i 64 d -> i64 (u64 (u64 m + adjusted m d)) = d.
Proof.
  intros Hd. transitivity (wrap_signed 64 (d mod 2 ^ 64)); [|by apply wrap_signed_of_mod].
  unfold i64. f_equal. unfold adjusted, u64.
  rewrite Z.add_mod_idemp_r by lia. rewrite Zplus_minus. apply Z.mod_mod. lia.
Qed.

Lemma min_of_range d0 ds : in_i 64 d0 -> Forall (in_i 64) ds -> in_i 64 (min_of d0 ds).
Proof.
  unfold min_of. revert d0. induction ds as [|d ds IH]; intros d0 H0 Hds; cbn; [done|].
  apply Forall_cons_iff in Hds as [? ?]. apply IH; [|done]. by case_bool.
Qed.

Lemma minimum_range ds : Forall (in_i 64) ds -> in_i 64 (minimum ds).
Proof.
  intros H. destruct ds as [|d ds]; cbn; [unfold in_i; lia|].
  apply Forall_cons_iff in H as [? ?]. by apply min_of_range.
Qed.

Lemma deltas_from_range last vs : Forall (in_i 64) (deltas_from last vs).
Proof. revert last. induction vs; intros last; cbn; constructor; auto. apply wrap_signed_range. lia. Qed.

Lemma length_deltas_from last vs : length (deltas_from last vs) = length vs.
Proof. revert last. induction vs; intros last; cbn; auto. Qed.

Lemma i64_diff_mod w v last : 0 <= w <= 64 -> i64 (u64 (u64 v - u64 last)) mod 2 ^ w = (v - last) mod 2 ^ w.
Proof.
  intros Hw. rewrite <- (mod_mod_pow2 (i64 _) w 64), <- (mod_mod_pow2 (v - last) w 64) by lia.
  f_equal. unfold i64. rewrite wrap_signed_mod by lia. unfold u64. rewrite Z.mod_mod by lia.
  symmetry. apply Zminus_mod.
Qed.

Lemma deltas_from_diffs last vs : diffs_of 64 last vs (deltas_from last vs).
Proof. revert last. induction vs; intros last; cbn; [done|]. split; [|done]. apply i64_diff_mod. lia. Qed.

Lemma deltas_from_diffs32 last vs : diffs_of 32 last vs (i32 <$> deltas_from last vs).
Proof.
  revert last. induction vs; intros last; cbn; [done|]. split; [|done].
  unfold i32. rewrite wrap_signed_mod by lia. apply i64_diff_mod. lia.
Qed.

(** ** Sizes *)

Lemma length_widths n m ds : length (widths n m ds) = n.
Proof. revert ds. induction n; intros; cbn; auto. Qed.

Lemma widths_ok n m ds : bytes_ok (widths n m ds).
Proof.
  revert ds. induction n as [|n IH]; intros ds; cbn; constructor; auto.
  pose proof (mini_w_spec m (take 32 ds)). unfold in_u. lia.
Qed.

Lemma length_concat_const {A B} (f : A -> list B) k l : (forall x, length (f x) = k) ->
  length (concat (f <$> l)) = (length l * k)%nat.
Proof. intros Hf. induction l; cbn; [done|]. rewrite length_app, Hf. cbn in IHl. lia. Qed.

Lemma mini_data_nil m w : w = 0 -> mini_data m [] w = [].
Proof. intros ->. done. Qed.

Lemma mini_w_nil m : mini_w m [] = 0.
Proof. done. Qed.

Lemma length_mini_data m ds w : 0 <= w <= 64 -> (length ds <= 32)%nat ->
  lenZ (mini_data m ds w) = mini_bytes_needed w.
Proof.
  intros Hw Hl. unfold mini_data, mini_bytes_needed, DELTA_MINI_BLOCK_SIZE, DELTA_BLOCK_SIZE, DELTA_MINI_BLOCKS.
  change (128 / 4) with 32. rewrite Z.gtb_ltb. destruct (Z.leb_spec w 32).
  - rewrite length_pack. case_bool; [|lia]. rewrite Z2Nat.id by lia. dlia.
  - decide_bool. rewrite length_app, length_replicate.
    rewrite (length_concat_const _ (Z.to_nat ((w + 7) / 8))) by (intros; apply length_le_bytes).
    assert (0 <= (w + 7) / 8) by (apply Z.div_pos; lia). nia.
Qed.

Lemma mini_data_ok m ds w : bytes_ok (mini_data m ds w).
Proof.
  unfold mini_data. case_bool; [apply pack_ok|]. apply Forall_app_2.
  - induction ds; cbn; [constructor|]. apply Forall_app_2; auto with bytes.
  - apply Forall_replicate. unfold in_u. lia.
Qed.

Lemma datas_ok n m ds : bytes_ok (datas n m ds).
Proof. revert ds. induction n; intros; cbn; [constructor|]. apply Forall_app_2; auto using mini_data_ok. Qed.

(** ** The encoder *)

Lemma u8_lor_80 v : u8 (v .| 0x80) = v mod 2 ^ 7 + 2 ^ 7.
Proof.
  unfold u8. rewrite <- land_ones_mod, Z.land_lor_distr_l, land_ones_mod by lia.
  change (Z.land 0x80 (2 ^ 8 - 1)) with 0x80. rewrite <- (mod_mod_pow2 v 7 8) by lia.
  apply Z.eqb_eq. apply (forall_range (2 ^ 8) (λ b, (b .| 0x80) =? b mod 2 ^ 7 + 2 ^ 7)); [by vm_compute|].
  apply Z.mod_pos_bound. lia.
Qed.

Lemma write_uleb128_spec fuel : forall v, 0 <= v < 2 ^ (7 * Z.of_nat (S fuel)) ->
  write_uleb128 fuel v = Some (uleb_n (S fuel) v).
Proof.
  induction fuel as [|fuel IH]; intros v Hv; cbn [write_uleb128 uleb_n]; rewrite Z.geb_leb.
  - change (7 * Z.of_nat 1) with 7 in Hv. decide_bool. by rewrite u8_small by lia.
  - change 0x80 with (2 ^ 7). destruct (Z.leb_spec (2 ^ 7) v); decide_bool; [|by rewrite u8_small by lia].
    rewrite shiftr_div by lia. rewrite pow7_S in Hv.
    rewrite IH by (split; [apply Z.div_pos; lia|apply Z.div_lt_upper_bound; lia]). cbn [mbind option_bind].
    by rewrite u8_lor_80.
Qed.

Lemma wide_bytes_spec n : forall v b, 0 <= b -> wide_bytes n v b = le_bytes n (v / 2 ^ (b * 8)).
Proof.
  induction n as [|n IH]; intros v b Hb; cbn [wide_bytes le_bytes]; [done|].
  rewrite shiftr_div by lia. f_equal. rewrite IH by lia. f_equal. pose proof (pow2_pos (b * 8)).
  rewrite Z.div_div by lia. f_equal. rewrite <- Z.pow_add_r by lia. f_equal. lia.
Qed.

Lemma pack_mini_spec m ds : (length ds <= 32)%nat ->
  pack_mini m ds (mini_w m ds) = Some (mini_data m ds (mini_w m ds)).
Proof.
  intros Hl. destruct (mini_w_spec m ds) as [Hw Hds]. unfold pack_mini, mini_data. set (w := mini_w m ds) in *.
  destruct (Z.eqb_spec w 0) as [E|E]; [by rewrite E|].
  destruct (Z.leb_spec w 32).
  - assert (((λ d, u32 (adjusted m d)) <$> ds) = adjusted m <$> ds) as ->.
    { apply list_fmap_ext. intros i d Hd. apply u32_small. rewrite Forall_lookup in Hds.
      specialize (Hds i d Hd). assert (2 ^ w <= 2 ^ 32) by (apply Z.pow_le_mono_r; lia). lia. }
    rewrite length_fmap. set (padded := _ ++ _). unfold DELTA_MINI_BLOCK_SIZE, DELTA_BLOCK_SIZE, DELTA_MINI_BLOCKS.
    change (128 / 4) with 32.
    assert (length padded = 32%nat) as Lp by (unfold padded; rewrite length_app, length_fmap, length_replicate; lia).
    assert (Forall (in_u 32) padded).
    { apply Forall_app_2; [|apply Forall_replicate; unfold in_u; lia]. apply Forall_fmap.
      eapply Forall_impl; [|exact Hds]. intros d Hd. cbn. unfold in_u. cbn in Hd.
      assert (2 ^ w <= 2 ^ 32) by (apply Z.pow_le_mono_r; lia). lia. }
    destruct (bitpack_32_spec padded w 32) as (out & -> & _ & _ & E2); [done|lia..|]. cbn [mbind option_bind].
    rewrite E2. replace ((32 * w + 7) / 8) with (4 * w) by dlia.
    rewrite take_ge by lia. unfold padded. by rewrite pack_zeros by lia.
  - do 2 f_equal. f_equal. apply list_fmap_ext. intros i d _. rewrite wide_bytes_spec by lia.
    change (2 ^ (0 * 8)) with 1. by rewrite Z.div_1_r.
Qed.

(** An encoder that has stored [out] in the array [data0]. *)
Definition enc_with (data0 : list Z) (cap vw fv : Z) (out : list Z) (lv : Z) (ds : list Z) : delta_encoder_t :=
  mk_delta_encoder (out ++ drop (length out) data0) cap (lenZ out) vw fv lv ds.

(** The room the encoder asks for: ten bytes for the minimum of each block, its widths
    and its data. *)
Fixpoint room (fuel : nat) (ds : list Z) : Z :=
  match fuel with
  | O => 0
  | S fuel =>
      if bool_decide (ds = []) then 0
      else 14 + lenZ (datas 4 (minimum (take 128 ds)) (take 128 ds)) + room fuel (drop 128 ds)
  end.

Lemma room_fuel n : forall m ds, (length ds <= n)%nat -> (length ds <= m)%nat -> room n ds = room m ds.
Proof.
  induction n as [|n IH]; intros m ds Hn Hm.
  { destruct ds; [|cbn in Hn; lia]. by destruct m. }
  destruct (decide (ds = [])) as [->|Hne]; [by destruct m|].
  destruct m as [|m]; [destruct ds; [done|cbn in Hm; lia]|]. cbn [room].
  rewrite bool_decide_false by done. f_equal. destruct ds; [done|]. apply IH; rewrite length_drop; lia.
Qed.

Lemma room_step n ds1 ds2 : length ds1 = 128%nat -> (length (ds1 ++ ds2) <= n)%nat ->
  room n (ds1 ++ ds2) = 14 + lenZ (datas 4 (minimum ds1) ds1) + room (length ds2) ds2.
Proof.
  intros H1 Hn. rewrite length_app in Hn. destruct n as [|n]; [lia|]. cbn [room].
  rewrite bool_decide_false by (intros E; apply (f_equal length) in E; rewrite length_app in E; cbn in E; lia).
  rewrite <- H1, take_app_length, drop_app_length. f_equal. apply room_fuel; lia.
Qed.

Lemma room_last n ds : ds <> [] -> (length ds <= 128)%nat -> (length ds <= n)%nat ->
  room n ds = 14 + lenZ (datas 4 (minimum ds) ds).
Proof.
  intros Hne H1 Hn. destruct ds as [|d ds]; [done|]. destruct n as [|n]; [cbn in Hn; lia|]. cbn [room].
  rewrite bool_decide_false by done. rewrite take_ge, drop_ge by done. rewrite (room_fuel n 0) by (cbn in *; lia).
  cbn [room]. lia.
Qed.

Lemma room_nonneg n ds : 0 <= room n ds.
Proof. revert ds. induction n as [|n IH]; intros ds; cbn [room]; [lia|]. destruct (bool_decide _); [lia|]. specialize (IH (drop 128 ds)). lia. Qed.

Lemma mini_width_spec m ds mb : mini_width m ds mb = Some (mini_w m (mini_slice ds mb)).
Proof.
  unfold mini_width. rewrite bit_width_required_spec; [done|]. apply (max_adjusted_spec m (mini_slice ds mb)).
Qed.

Lemma length_mini_slice ds mb : (length (mini_slice ds mb) <= 32)%nat.
Proof. unfold mini_slice. rewrite length_take. lia. Qed.

Lemma mini_bytes_needed_bound w : 0 <= w <= 64 -> 0 <= mini_bytes_needed w <= 256.
Proof.
  intros. unfold mini_bytes_needed, DELTA_MINI_BLOCK_SIZE, DELTA_BLOCK_SIZE, DELTA_MINI_BLOCKS.
  change (128 / 4) with 32. rewrite Z.gtb_ltb. case_bool; [|lia]. case_bool; dlia.
Qed.

Lemma widths_slices m ds : widths 4 m ds =
  [mini_w m (mini_slice ds 0); mini_w m (mini_slice ds 1); mini_w m (mini_slice ds 2); mini_w m (mini_slice ds 3)].
Proof. unfold mini_slice. cbn [widths]. by rewrite !drop_drop. Qed.

Definition slice_data (m : Z) (ds : list Z) (mb : nat) : list Z :=
  mini_data m (mini_slice ds mb) (mini_w m (mini_slice ds mb)).

Lemma datas_slices m ds : datas 4 m ds =
  slice_data m ds 0 ++ slice_data m ds 1 ++ slice_data m ds 2 ++ slice_data m ds 3.
Proof. unfold slice_data, mini_slice. cbn [datas]. by rewrite !drop_drop, app_nil_r. Qed.

Lemma slice_data_length m ds mb :
  lenZ (slice_data m ds mb) = mini_bytes_needed (mini_w m (mini_slice ds mb)) /\
  0 <= mini_bytes_needed (mini_w m (mini_slice ds mb)) <= 256.
Proof.
  destruct (mini_w_spec m (mini_slice ds mb)) as [Hw _]. split; [|by apply mini_bytes_needed_bound].
  apply length_mini_data; [done|apply length_mini_slice].
Qed.

Lemma u8_mini_w m ds : u8 (mini_w m ds) = mini_w m ds.
Proof. apply u8_small. pose proof (mini_w_spec m ds). lia. Qed.

Section Encoder.
Context (data0 : list Z) (cap : Z).
Context (Hcap : cap <= lenZ data0).

Lemma emit_spec vw fv out lv ds bs : lenZ out + lenZ bs <= cap ->
  emit (enc_with data0 cap vw fv out lv ds) bs = Some (enc_with data0 cap vw fv (out ++ bs) lv ds).
Proof.
  intros Hl. unfold emit, enc_with. cbn. rewrite length_app, length_drop. decide_bool. f_equal. f_equal.
  - rewrite Nat2Z.id, take_app_length, <- app_assoc. do 2 f_equal.
    rewrite <- drop_drop, drop_app_length, drop_drop, length_app. done.
  - rewrite length_app. lia.
Qed.

Lemma emit_uleb128_spec vw fv out lv ds v : in_u 64 v -> lenZ out + lenZ (uleb v) <= cap ->
  emit_uleb128 (enc_with data0 cap vw fv out lv ds) v = Some (enc_with data0 cap vw fv (out ++ uleb v) lv ds).
Proof.
  intros Hv Hl. unfold in_u in Hv. unfold emit_uleb128.
  rewrite write_uleb128_spec by (change (7 * Z.of_nat 10) with 70; lia).
  cbn [mbind option_bind]. by apply emit_spec.
Qed.

Lemma emit_mini_spec vw fv out lv ds' m ds mb (w := mini_w m (mini_slice ds mb)) :
  lenZ out + mini_bytes_needed w <= cap ->
  emit_mini (enc_with data0 cap vw fv out lv ds') m ds mb w =
    Some (enc_with data0 cap vw fv (out ++ mini_data m (mini_slice ds mb) w) lv ds').
Proof.
  intros Hl. pose proof (length_mini_slice ds mb). destruct (mini_w_spec m (mini_slice ds mb)) as [Hw _].
  unfold emit_mini, w in *. rewrite pack_mini_spec by done. cbn [mbind option_bind].
  apply emit_spec. rewrite length_mini_data; done.
Qed.

(** A flush refuses for lack of room or appends the reference block. *)
Lemma delta_flush_spec vw fv out lv ds : ds <> [] -> Forall (in_i 64) ds ->
  delta_encoder_flush_block (enc_with data0 cap vw fv out lv ds) =
    if lenZ out + 14 + lenZ (datas 4 (minimum ds) ds) >? cap
    then Some (CARQUET_ERROR_ENCODE, enc_with data0 cap vw fv out lv ds)
    else Some (CARQUET_OK, enc_with data0 cap vw fv (out ++ block ds) lv []).
Proof.
  intros Hne Hds. unfold delta_encoder_flush_block, block. cbn [de_deltas enc_with].
  pose proof (minimum_range ds Hds) as Hm. destruct ds as [|d0 ds]; [done|].
  cbn [minimum] in *. set (m := min_of d0 ds) in *. set (l := d0 :: ds) in *. clearbody l m. clear Hne Hds.
  rewrite !mini_width_spec. cbn [mbind option_bind de_pos de_capacity enc_with].
  rewrite datas_slices, widths_slices.
  destruct (slice_data_length m l 0) as [L0 B0]. destruct (slice_data_length m l 1) as [L1 B1].
  destruct (slice_data_length m l 2) as [L2 B2]. destruct (slice_data_length m l 3) as [L3 B3].
  set (n0 := mini_bytes_needed _) in L0, B0 |- *. set (n1 := mini_bytes_needed _) in L1, B1 |- *.
  set (n2 := mini_bytes_needed _) in L2, B2 |- *. set (n3 := mini_bytes_needed _) in L3, B3 |- *.
  assert (lenZ out + (10 + DELTA_MINI_BLOCKS + (n0 + n1 + n2 + n3)) =
    lenZ out + 14 + lenZ (slice_data m l 0 ++ slice_data m l 1 ++ slice_data m l 2 ++ slice_data m l 3)) as ->.
  { rewrite !length_app. unfold DELTA_MINI_BLOCKS. lia. }
  rewrite !Z.gtb_ltb. case_bool; [done|]. rewrite !length_app in *.
  pose proof (length_uleb (carquet_zigzag_encode64 m)).
  change (zigzag_encode64 m) with (carquet_zigzag_encode64 m).
  rewrite emit_uleb128_spec by (try (by apply zigzag_encode64_range); lia). cbn [mbind option_bind].
  rewrite !u8_mini_w. rewrite emit_spec by (rewrite ?length_app; cbn [length]; lia). cbn [mbind option_bind].
  do 4 (rewrite emit_mini_spec by (rewrite ?length_app; cbn [length]; unfold slice_data in *; lia);
    cbn [mbind option_bind]).
  f_equal. f_equal. unfold enc_with. cbn [de_data de_capacity de_pos de_values_written de_first_value de_last_value].
  unfold slice_data. by rewrite <- !app_assoc.
Qed.

Lemma length_block_bound ds : Forall (in_i 64) ds ->
  lenZ (block ds) <= 14 + lenZ (datas 4 (minimum ds) ds) /\ lenZ (datas 4 (minimum ds) ds) <= 1024.
Proof.
  intros Hds. unfold block. rewrite !length_app, length_widths, datas_slices, !length_app.
  pose proof (length_uleb (carquet_zigzag_encode64 (minimum ds))).
  pose proof (slice_data_length (minimum ds) ds 0). pose proof (slice_data_length (minimum ds) ds 1).
  pose proof (slice_data_length (minimum ds) ds 2). pose proof (slice_data_length (minimum ds) ds 3). lia.
Qed.

Lemma blocks_fuel n : forall m ds, (length ds <= n)%nat -> (length ds <= m)%nat -> blocks n ds = blocks m ds.
Proof.
  induction n as [|n IH]; intros m ds Hn Hm.
  { destruct ds; [|cbn in Hn; lia]. by destruct m. }
  destruct (decide (ds = [])) as [->|Hne]; [by destruct m|].
  destruct m as [|m]; [destruct ds; [done|cbn in Hm; lia]|]. cbn [blocks].
  rewrite bool_decide_false by done. f_equal. destruct ds; [done|]. apply IH; rewrite length_drop; lia.
Qed.

Lemma blocks_step n ds1 ds2 : length ds1 = 128%nat -> (length (ds1 ++ ds2) <= n)%nat ->
  blocks n (ds1 ++ ds2) = block ds1 ++ blocks (length ds2) ds2.
Proof.
  intros H1 Hn. rewrite length_app in Hn. destruct n as [|n]; [lia|]. cbn [blocks].
  rewrite bool_decide_false by (intros E; apply (f_equal length) in E; rewrite length_app in E; cbn in E; lia).
  rewrite <- H1, take_app_length, drop_app_length. f_equal. apply blocks_fuel; lia.
Qed.

Lemma blocks_last n ds : ds <> [] -> (length ds <= 128)%nat -> (length ds <= n)%nat -> blocks n ds = block ds.
Proof.
  intros Hne H1 Hn. destruct ds as [|d ds]; [done|]. destruct n as [|n]; [cbn in Hn; lia|]. cbn [blocks].
  rewrite bool_decide_false by done. rewrite take_ge, drop_ge by done. rewrite (blocks_fuel n 0) by (cbn in *; lia).
  apply app_nil_r.
Qed.

(** At most 1038 bytes per started block. *)
Lemma room_bound n : forall ds, (length ds <= n)%nat -> Forall (in_i 64) ds -> room n ds <= 1038 * ((lenZ ds + 127) / 128).
Proof.
  induction n as [|n IH]; intros ds Hn Hds; cbn [room]; [assert (0 <= (lenZ ds + 127) / 128) by (apply Z.div_pos; lia); lia|].
  destruct (decide (ds = [])) as [->|Hne]; [rewrite bool_decide_true by done; apply Z.mul_nonneg_nonneg; [lia|apply Z.div_pos; lia]|]. rewrite bool_decide_false by done.
  destruct (length_block_bound (take 128 ds)) as [_ B]; [by apply Forall_take|].
  assert (0 < length ds)%nat by (destruct ds; [done|cbn; lia]).
  specialize (IH (drop 128 ds)). rewrite length_drop in IH. specialize (IH ltac:(lia) ltac:(by apply Forall_drop)).
  destruct (decide (length ds <= 128)%nat).
  - rewrite (drop_ge ds) in * by done. rewrite (room_fuel n 0) by (cbn; lia). cbn [room].
    assert (1 <= (lenZ ds + 127) / 128) by (apply Z.div_le_lower_bound; lia). lia.
  - replace ((lenZ ds + 127) / 128) with (1 + (Z.of_nat (length ds - 128) + 127) / 128); [lia|].
    rewrite <- Z.div_add_l by lia. f_equal. lia.
Qed.

(** The encoding loop refuses for lack of room, or has appended the blocks. *)
Lemma encode_values_spec vw fv vs : forall out lv p, lenZ out <= cap -> (length p < 128)%nat -> Forall (in_i 64) p ->
  let all := p ++ deltas_from lv vs in
  let need := room (length all) all in
  (exists enc', encode_values (enc_with data0 cap vw fv out lv p) vs = Some (CARQUET_ERROR_ENCODE, enc') /\
    cap < lenZ out + need) \/
  (exists lv', encode_values (enc_with data0 cap vw fv out lv p) vs =
    Some (CARQUET_OK, enc_with data0 cap vw fv (out ++ blocks (length all) all) lv' []) /\
    lenZ (out ++ blocks (length all) all) <= cap).
Proof.
  induction vs as [|v vs IH]; intros out lv p Ho Hp Hpr all need.
  - cbn [encode_values]. subst all need. cbn [deltas_from]. rewrite app_nil_r.
    destruct (decide (p = [])) as [->|Hne].
    { right. exists lv. cbn. rewrite app_nil_r. done. }
    rewrite delta_flush_spec by done. destruct (length_block_bound p Hpr). rewrite Z.gtb_ltb. case_bool.
    + left. eexists. split; [done|]. rewrite room_last by (done || lia). lia.
    + right. exists lv. rewrite blocks_last by (done || lia). split; [done|]. rewrite length_app. lia.
  - cbn [encode_values]. set (d := i64 (u64 (u64 v - u64 lv))).
    change (push_delta (enc_with data0 cap vw fv out lv p) v) with (enc_with data0 cap vw fv out v (p ++ [d])).
    assert (Forall (in_i 64) (p ++ [d])) as Hpd.
    { apply Forall_app_2; [done|]. constructor; [|done]. apply wrap_signed_range. lia. }
    assert (all = (p ++ [d]) ++ deltas_from v vs) as Eall by (subst all; cbn; by rewrite <- app_assoc).
    cbn [de_deltas enc_with]. rewrite length_app. unfold DELTA_BLOCK_SIZE. cbn [length].
    subst need. clearbody all. subst all. destruct (Z.eqb_spec (Z.of_nat (length p + 1)) 128) as [E|E].
    + assert (length (p ++ [d]) = 128%nat) as L by (rewrite length_app; cbn; lia).
      rewrite delta_flush_spec by (try done; by destruct p).
      rewrite (length_app (p ++ [d])), L. set (rest := deltas_from v vs) in *.
      rewrite (room_step _ (p ++ [d]) rest) by (try done; rewrite length_app; lia). pose proof (room_nonneg (length rest) rest).
      destruct (length_block_bound (p ++ [d]) Hpd). rewrite Z.gtb_ltb. case_bool; cbn [mbind option_bind is_ok negb].
      { left. eexists. split; [done|]. lia. }
      rewrite blocks_step by (try done; rewrite length_app; lia).
      subst rest. destruct (IH (out ++ block (p ++ [d])) v []) as [(enc' & -> & ?)|(lv' & -> & ?)];
        [rewrite length_app; lia|cbn; lia|by apply Forall_nil_2|left|right]; cbn [app] in *.
      * eexists. split; [done|]. rewrite length_app in *. lia.
      * exists lv'. rewrite <- app_assoc in *. done.
    + cbn [mbind option_bind is_ok negb]. apply IH; [done| |done]. rewrite length_app. cbn. lia.
Qed.

Lemma length_delta_header n v : (length (delta_header n v) <= 40)%nat.
Proof.
  unfold delta_header. rewrite !length_app. pose proof (length_uleb 128). pose proof (length_uleb 4).
  pose proof (length_uleb n). pose proof (length_uleb (carquet_zigzag_encode64 v)). lia.
Qed.

(** The room a whole column asks for, header included. *)
Definition delta_room (vs : list Z) : Z :=
  match vs with
  | [] => 0
  | v0 :: vs => lenZ (delta_header (lenZ (v0 :: vs)) v0) + room (length vs) (deltas_from v0 vs)
  end.

Lemma delta_encode_spec vs : Forall (in_i 64) vs -> lenZ vs < 2 ^ 31 ->
  (exists data', delta_encode vs data0 cap = Some (CARQUET_ERROR_ENCODE, data', None) /\ (cap < 40 \/ cap < delta_room vs)) \/
  (delta_encode vs data0 cap =
    Some (CARQUET_OK, delta_bytes vs ++ drop (length (delta_bytes vs)) data0, Some (lenZ (delta_bytes vs))) /\
   lenZ (delta_bytes vs) <= cap).
Proof.
  intros Hvs Hn. unfold delta_encode.
  destruct (Z.ltb_spec cap 40); [left; eexists; split; [done|by left]|].
  change (delta_encoder_init data0 cap) with (enc_with data0 cap 0 0 [] 0 []).
  pose proof (length_uleb 128). pose proof (length_uleb 4). unfold DELTA_BLOCK_SIZE, DELTA_MINI_BLOCKS.
  destruct vs as [|v0 vs].
  - right. pose proof (length_uleb 0). change (zigzag_encode64 0) with 0.
    do 4 (rewrite emit_uleb128_spec by (rewrite ?length_app; cbn [length]; unfold in_u; lia); cbn [mbind option_bind]).
    cbn [delta_bytes app]. unfold delta_header. change (carquet_zigzag_encode64 0) with 0.
    unfold enc_with. cbn [de_data de_pos]. rewrite <- !app_assoc. split; [done|]. rewrite !length_app. lia.
  - set (n := lenZ (v0 :: vs)) in *. assert (1 <= n) by (unfold n; cbn [length]; lia).
    rewrite (u64_small n) by lia. pose proof (length_uleb n). apply Forall_cons_iff in Hvs as [Hv0 Hvs].
    change (zigzag_encode64 v0) with (carquet_zigzag_encode64 v0).
    pose proof (length_uleb (carquet_zigzag_encode64 v0)).
    pose proof (zigzag_encode64_range v0 Hv0).
    do 4 (rewrite emit_uleb128_spec by (rewrite ?length_app; cbn [length]; unfold in_u; (done || lia)); cbn [mbind option_bind]).
    cbn [app]. rewrite <- !app_assoc. fold (delta_header n v0).
    set (enc := mk_delta_encoder _ _ _ _ _ _ _). change enc with (enc_with data0 cap 1 v0 (delta_header n v0) v0 []).
    clear enc. pose proof (length_delta_header n v0).
    destruct (encode_values_spec 1 v0 vs (delta_header n v0) v0 []) as [(enc' & -> & ?)|(lv' & -> & ?)];
      [lia|cbn; lia|by apply Forall_nil_2| |]; cbn [app] in *; cbn [mbind option_bind is_ok negb].
    + left. eexists. split; [done|]. right. cbn [delta_room]. fold n. rewrite length_deltas_from in *. lia.
    + right. cbn [delta_bytes]. fold n. rewrite length_deltas_from in *. done.
Qed.

Lemma delta_room_bound vs : Forall (in_i 64) vs -> delta_room vs <= 40 + 1038 * ((lenZ vs + 126) / 128).
Proof.
  intros Hr. destruct vs as [|v0 vs]; cbn [delta_room]; [change (lenZ []) with 0; dlia|]. pose proof (length_delta_header (lenZ (v0 :: vs)) v0).
  pose proof (room_bound (length vs) (deltas_from v0 vs) ltac:(by rewrite length_deltas_from) (deltas_from_range v0 vs)) as B.
  rewrite length_deltas_from in B. cbn [length] in *. replace (Z.of_nat (S (length vs)) + 126) with (lenZ vs + 127) by lia. lia.
Qed.

End Encoder.

(** ** The decoder *)

Lemma read_uleb128_of_decode n p len : forall i shift r k v, 0 < k ->
  decode_varint_loop u64 n p len i shift r = Some (k, v) -> read_uleb128_loop n p len i shift r = Some (k, v).
Proof.
  induction n as [|n IH]; intros i shift r k v Hk; cbn [decode_varint_loop read_uleb128_loop]; [intros [= <- <-]; lia|].
  case_bool; [|intros [= <- <-]; lia]. destruct (rd p i); [|done]. cbn [mbind option_bind].
  case_bool; [done|]. by apply IH.
Qed.

Lemma window_split data size pos : 0 <= pos <= size -> size <= lenZ data ->
  ptr_add data pos = window data size pos ++ ptr_add data size.
Proof.
  intros. unfold window, ptr_add. rewrite <- (take_drop (Z.to_nat size) data) at 1.
  rewrite drop_app_le by (rewrite length_take; lia). done.
Qed.

Lemma read_uleb128_spec data size pos v q : 0 <= pos <= size -> size <= lenZ data -> in_u 64 v ->
  window data size pos = uleb v ++ q ->
  read_uleb128 (ptr_add data pos) (size - pos) = Some (lenZ (uleb v), v).
Proof.
  intros Hp Hs Hv E. rewrite (window_split data size pos), E, <- app_assoc by done.
  pose proof (length_uleb v). pose proof (window_length data size pos Hp Hs) as L. rewrite E, length_app in L.
  apply read_uleb128_of_decode; [lia|]. apply decode_varint64_uleb; [done|lia].
Qed.

Lemma zigzag_decode64_eq v : zigzag_decode64 v = carquet_zigzag_decode64 v.
Proof.
  unfold zigzag_decode64, carquet_zigzag_decode64, u64. do 2 f_equal.
  rewrite Zplus_mod_idemp_l. f_equal. unfold Z.lnot. lia.
Qed.

Lemma read_wide_spec data : bytes_ok data -> forall n pos b val, 0 <= pos -> pos + Z.of_nat n <= lenZ data ->
  0 <= b -> b + Z.of_nat n <= 8 -> 0 <= val < 2 ^ (b * 8) ->
  read_wide n data pos b val = Some (val + 2 ^ (b * 8) * le_val (take n (ptr_add data pos))).
Proof.
  intros Hb. induction n as [|n IH]; intros pos b val Hp Hl Hb0 Hbn Hv; cbn [read_wide].
  { rewrite take_0. cbn. f_equal. lia. }
  destruct (rd_Some data pos) as [x E]; [lia|]. rewrite E. cbn [mbind option_bind].
  pose proof (rd_byte _ _ _ Hb E). pose proof (pow2_pos (b * 8) ltac:(lia)).
  assert (2 ^ ((b + 1) * 8) = 2 ^ 8 * 2 ^ (b * 8)) as E8 by (rewrite <- Z.pow_add_r by lia; f_equal; lia).
  assert (2 ^ ((b + 1) * 8) <= 2 ^ 64) by (apply Z.pow_le_mono_r; lia).
  rewrite (u64_small (x ≪ (b * 8))) by (rewrite shiftl_mul by lia; nia).
  rewrite lor_add by lia. rewrite IH by (nia || lia). f_equal.
  rewrite rd_lookup in E by lia. unfold ptr_add. rewrite (drop_S data x (Z.to_nat pos)) by done.
  cbn [firstn le_val]. replace (Z.to_nat (pos + 1)) with (S (Z.to_nat pos)) by lia. rewrite E8. lia.
Qed.

Lemma read_wide_values_spec data k m : bytes_ok data -> 0 <= k <= 8 -> forall xs pos r, 0 <= pos ->
  ptr_add data pos = concat (le_bytes (Z.to_nat k) <$> xs) ++ r -> (xs <> [] -> pos <= lenZ data) ->
  read_wide_values (length xs) data pos k m = Some ((λ x, i64 (u64 (u64 m + x mod 2 ^ (8 * k)))) <$> xs).
Proof.
  intros Hb Hk. induction xs as [|x xs IH]; intros pos r Hp E Hle; [done|]. cbn [length read_wide_values].
  specialize (Hle ltac:(done)).
  cbn [fmap list_fmap concat] in E. rewrite <- app_assoc in E.
  assert (pos + k <= lenZ data) by (pose proof (length_ptr_add data pos ltac:(lia)) as L;
    rewrite E, length_app, length_le_bytes in L; lia).
  rewrite read_wide_spec by (auto; lia). rewrite E, take_app_length' by (by rewrite length_le_bytes).
  cbn [mbind option_bind]. rewrite (IH (pos + k) r); [|lia| |lia].
  - cbn [mbind option_bind]. rewrite le_val_bytes. change (2 ^ (0 * 8)) with 1. rewrite Z2Nat.id by lia.
    do 2 f_equal. cbn. do 3 f_equal. lia.
  - rewrite <- ptr_add_add, E by lia. rewrite ptr_add_app by (rewrite length_le_bytes; lia). done.
Qed.

Lemma le_bytes_0 k : le_bytes k 0 = replicate k 0.
Proof. induction k; cbn; [done|]. f_equal. exact IHk. Qed.

Lemma concat_replicate_0 n k : concat (le_bytes k <$> replicate n 0) = replicate (n * k) 0.
Proof. induction n; cbn; [done|]. rewrite le_bytes_0, replicate_add. f_equal. exact IHn. Qed.

Section Decoder.
Context {K : UnpackKernels} {KOk : UnpackKernelsOk K}.
Context (size : Z).

(** A decoder of 128-value blocks in front of the bytes [rest]. *)
Record at_rest (d : delta_decoder_t) (rest : list Z) : Prop := {
  ar_wf : delta_wf d;
  ar_size : dd_size d = size;
  ar_block : dd_block_size d = 128;
  ar_minis : dd_mini_blocks_per_block d = 4;
  ar_rest : window (dd_data d) (dd_size d) (dd_pos d) = rest }.

Lemma at_rest_length d p q : at_rest d (p ++ q) -> dd_pos d + lenZ p <= dd_size d.
Proof.
  intros [W _ _ _ E]. pose proof (dw_pos d W). pose proof (dw_size d W).
  pose proof (window_length (dd_data d) (dd_size d) (dd_pos d) ltac:(done) ltac:(done)) as L.
  rewrite E, length_app in L. lia.
Qed.

Lemma at_rest_skip d p q : at_rest d (p ++ q) ->
  window (dd_data d) (dd_size d) (dd_pos d + lenZ p) = q.
Proof.
  intros [W _ _ _ E]. pose proof (dw_pos d W). rewrite <- window_add, E by lia. by apply ptr_add_app.
Qed.

Lemma at_rest_ptr d p : at_rest d p -> ptr_add (dd_data d) (dd_pos d) = p ++ ptr_add (dd_data d) (dd_size d).
Proof. intros [W _ _ _ <-]. destruct W. by apply window_split. Qed.

Lemma zero_width m ds : mini_w m ds = 0 -> Forall (in_i 64) ds -> in_i 64 m -> ds = replicate (length ds) m.
Proof.
  intros E Hr Hm. destruct (mini_w_spec m ds) as [_ H]. rewrite E in H.
  symmetry. apply replicate_as_Forall. split; [done|].
  rewrite Forall_forall in *. intros d Hd. specialize (H d Hd). specialize (Hr d Hd).
  change (2 ^ 0) with 1 in H. rewrite <- (adjusted_back m d Hr). replace (adjusted m d) with 0 by lia.
  rewrite Z.add_0_r. unfold u64. rewrite Z.mod_mod by lia. symmetry. by apply (wrap_signed_of_mod 64).
Qed.

Lemma Forall_fmap_id {A} (f : A -> A) l : Forall (λ x, f x = x) l -> f <$> l = l.
Proof. induction 1 as [|x l E _ IH]; cbn; [done|]. by rewrite E, IH. Qed.

(** The packed excesses, unpacked and added to the minimum. *)
Lemma unpack_mini m ds w n r : Forall (in_i 64) ds -> Forall (λ d, 0 <= adjusted m d < 2 ^ w) ds ->
  0 <= w -> (length ds <= 32)%nat -> n = Z.to_nat (4 * w) -> bytes_ok r ->
  (λ u, i64 (u64 (u64 m + u))) <$> take (length ds) (unpack w 32 (pack w n (adjusted m <$> ds) ++ r)) = ds.
Proof.
  intros Hr Hds Hw Hl -> Hrest. set (n := Z.to_nat (4 * w)).
  rewrite <- (unpack_take w 32 _ n) by (lia || apply Forall_app_2; auto using pack_ok).
  rewrite take_app_length' by (by rewrite length_pack). rewrite <- (pack_zeros w _ _ (32 - length ds)) by lia.
  rewrite unpack_pack by (rewrite ?length_app, ?length_fmap, ?length_replicate; lia).
  rewrite <- !fmap_take, take_take, Nat.min_l by lia.
  rewrite take_app_length' by (by rewrite length_fmap). rewrite <- !list_fmap_compose.
  apply Forall_fmap_id. rewrite Forall_forall in *. intros x Hx. cbn. rewrite Z.mod_small by auto.
  apply adjusted_back. auto.
Qed.

Lemma mini_contents_spec d ds q (m := dd_min_delta d) (w := mini_w m ds) :
  at_rest d (mini_data m ds w ++ q) -> Forall (in_i 64) ds -> (length ds <= 32)%nat ->
  exists vs, mini_block_contents d w 32 = Some (CARQUET_OK, vs, dd_pos d + lenZ (mini_data m ds w)) /\
    take (length ds) vs = ds /\ length vs = 32%nat /\ Forall (in_i 64) vs.
Proof.
  intros A Hr Hl. pose proof (at_rest_length _ _ _ A) as HL. pose proof (at_rest_ptr _ _ A) as HP.
  destruct (mini_w_spec m ds) as [Hw Hds]. fold w in Hw, Hds. destruct (ar_wf _ _ A) as [Hb ? ? ? ? ? ? ? ? ? Hm ? ?].
  assert (Forall (λ x, i64 (u64 (u64 m + adjusted m x)) = x) ds) as Hback
    by (eapply Forall_impl; [|exact Hr]; intros; by apply adjusted_back).
  unfold mini_block_contents. fold m. destruct (Z.eqb_spec w 0) as [E|E].
  { exists (replicate 32 m). rewrite E. split; [change (mini_data m ds 0) with (@nil Z); cbn [length]; by rewrite Z.add_0_r|].
    rewrite take_replicate, Nat.min_l by done. split; [symmetry; by apply zero_width|].
    split; [apply length_replicate|by apply Forall_replicate]. }
  pose proof (length_mini_data m ds w Hw Hl) as LD. unfold mini_bytes_needed, DELTA_MINI_BLOCK_SIZE, DELTA_BLOCK_SIZE, DELTA_MINI_BLOCKS in LD.
  change (128 / 4) with 32 in LD. rewrite Z.gtb_ltb, (proj2 (Z.ltb_lt 0 w)) in LD by lia.
  unfold mini_data in HP, LD, HL |- *. fold m w in HP. destruct (Z.leb_spec w 32).
  - replace ((32 * w + 7) / 8) with (4 * w) by dlia. replace (32 * w / 8) with (4 * w) in LD by dlia.
    decide_bool. rewrite bitunpack_32_spec; [|by auto with bytes|lia|lia|rewrite length_ptr_add by lia; lia].
    cbn [mbind option_bind]. rewrite LD. eexists. split; [done|].
    rewrite length_map, length_unpack. split; [|split; [done|]].
    2:{ apply Forall_map, Forall_true. intros. apply wrap_signed_range. lia. }
    rewrite firstn_map, HP, <- app_assoc. red_nat. apply unpack_mini; auto; [lia|].
    apply (ptr_add_bytes _ (dd_pos d)) in Hb as Hb'. rewrite HP, <- app_assoc in Hb'. by apply Forall_app in Hb' as [_ ?].
  - decide_bool. set (k := (w + 7) / 8) in *. assert (5 <= k <= 8) by (unfold k; dlia).
    set (xs := (adjusted m <$> ds) ++ replicate (32 - length ds) 0).
    assert (length xs = 32%nat) as Lx by (unfold xs; rewrite length_app, length_fmap, length_replicate; lia).
    assert (concat ((λ d0, le_bytes (Z.to_nat k) (adjusted m d0)) <$> ds) ++ replicate ((32 - length ds) * Z.to_nat k) 0 =
      concat (le_bytes (Z.to_nat k) <$> xs)) as EX.
    { unfold xs. rewrite fmap_app, concat_app, concat_replicate_0, <- list_fmap_compose. done. }
    rewrite EX in *. rewrite <- app_assoc in HP. rewrite LD. change (Z.to_nat 32) with 32%nat. rewrite <- Lx.
    rewrite (read_wide_values_spec (dd_data d) k m Hb ltac:(lia) xs (dd_pos d) _ ltac:(lia) HP) by lia.
    rewrite Lx. cbn [mbind option_bind]. eexists. split; [done|]. rewrite length_fmap. split; [|split; [done|]].
    2:{ apply Forall_fmap, Forall_true. intros. apply wrap_signed_range. lia. }
    unfold xs. rewrite <- fmap_take, take_app_length' by (by rewrite length_fmap). rewrite <- list_fmap_compose.
    apply Forall_fmap_id. rewrite Forall_forall in *. intros x Hx. cbn. rewrite Z.mod_small; [by apply Hback|].
    specialize (Hds x Hx). cbn in Hds. assert (2 ^ w <= 2 ^ (8 * k)) by (apply Z.pow_le_mono_r; unfold k; dlia). lia.
Qed.

(** Reading one mini-block. *)
Lemma read_mini_block_spec d ds q (m := dd_min_delta d) (w := mini_w m ds) :
  at_rest d (mini_data m ds w ++ q) -> Forall (in_i 64) ds -> (length ds <= 32)%nat ->
  dd_current_mini_block d < 4 -> dd_bit_widths d !! Z.to_nat (dd_current_mini_block d) = Some w ->
  exists d', delta_decoder_read_mini_block d = Some (CARQUET_OK, d') /\ at_rest d' q /\
    dd_min_delta d' = m /\ dd_bit_widths d' = dd_bit_widths d /\
    dd_current_mini_block d' = dd_current_mini_block d + 1 /\
    dd_mini_block_pos d' = 0 /\ dd_values_in_mini_block d' = 32 /\
    take (length ds) (dd_mini_block_values d') = ds.
Proof.
  intros A Hr Hl Hc Hw. destruct (mini_contents_spec d ds q A Hr Hl) as (vs & E & T & L & R).
  pose proof (at_rest_skip _ _ _ A) as HS. destruct (A) as [W Hs Hbs Hmb _].
  destruct (delta_decoder_read_mini_block_safe d W) as (s' & d' & E' & W' & _). revert E'.
  unfold delta_decoder_read_mini_block. rewrite Hmb. rewrite Z.geb_leb. destruct (W) as [? ? ? ? ? ? ? ? ? ? ? ? ?].
  decide_bool. cbn [mbind option_bind is_ok negb]. rewrite rd_lookup, Hw by lia.
  cbn [mbind option_bind]. rewrite Hbs, Hmb. change (128 / 4) with 32. fold m w in E. rewrite E. cbn [mbind option_bind is_ok negb].
  intros [= <- <-]. eexists. split; [done|]. cbn. fold m w in HS. split; [|split_and!; try done].
  - by split.
  - unfold overwrite. rewrite take_app_le by lia. done.
Qed.

Definition same_block (d d' : delta_decoder_t) : Prop :=
  dd_min_delta d' = dd_min_delta d /\ dd_bit_widths d' = dd_bit_widths d /\
  dd_current_mini_block d' = dd_current_mini_block d /\ dd_values_in_mini_block d' = dd_values_in_mini_block d.

Lemma decode_deltas_app a b : forall d xs d1, decode_deltas a d = Some (CARQUET_OK, xs, d1) ->
  decode_deltas (a + b) d = '(s, ys, d2) ← decode_deltas b d1; Some (s, xs ++ ys, d2).
Proof.
  induction a as [|a IH]; intros d xs d1; cbn [decode_deltas Nat.add].
  { intros [= <- <-]. by destruct (decode_deltas b d) as [[[]]|]. }
  destruct (if dd_mini_block_pos d >=? _ then _ else _) as [[s d']|]; [|done]. cbn [mbind option_bind].
  destruct (is_ok s) eqn:Hs; cbn [negb]; [|by intros [= -> _ _]].
  destruct (rd (dd_mini_block_values d') (dd_mini_block_pos d')) as [v|]; [|done]. cbn [mbind option_bind].
  destruct (decode_deltas a (delta_advance d')) as [[[s1 ys] d2]|] eqn:E; [|done]. cbn [mbind option_bind].
  intros [= -> <- <-]. rewrite (IH _ _ _ E). by destruct (decode_deltas b d2) as [[[]]|].
Qed.

(** Values still staged are delivered without reading. *)
Lemma decode_run k : forall d rest, at_rest d rest ->
  dd_mini_block_pos d + Z.of_nat k <= dd_values_in_mini_block d ->
  exists d', decode_deltas k d =
      Some (CARQUET_OK, take k (drop (Z.to_nat (dd_mini_block_pos d)) (dd_mini_block_values d)), d') /\
    at_rest d' rest /\ same_block d d' /\ dd_mini_block_pos d' = dd_mini_block_pos d + Z.of_nat k.
Proof.
  induction k as [|k IH]; intros d rest A Hk; cbn [decode_deltas].
  { exists d. split; [done|]. split; [done|]. split; [done|lia]. }
  destruct (A) as [W Hs Hbs Hmb E]. destruct (W) as [? ? ? ? ? ? ? ? HL ? ? ? ?].
  rewrite Z.geb_leb. decide_bool. cbn [mbind option_bind is_ok negb].
  destruct (rd_Some (dd_mini_block_values d) (dd_mini_block_pos d)) as [v Ev]; [lia|]. rewrite Ev.
  cbn [mbind option_bind].
  destruct (IH (delta_advance d) rest) as (d' & -> & A' & S' & P'); [|cbn; lia|].
  { split; cbn; auto. by apply delta_advance_wf. }
  cbn [mbind option_bind]. eexists. split; [|split; [done|]; split; [done|cbn in P'; lia]].
  rewrite rd_lookup in Ev by lia. rewrite (drop_S _ _ _ Ev). cbn.
  replace (Z.to_nat (dd_mini_block_pos d + 1)) with (S (Z.to_nat (dd_mini_block_pos d))) by lia. done.
Qed.

(** A whole mini-block from an exhausted state. *)
Lemma mini_decode d ds q (m := dd_min_delta d) (w := mini_w m ds) :
  at_rest d (mini_data m ds w ++ q) -> Forall (in_i 64) ds -> (0 < length ds <= 32)%nat ->
  dd_current_mini_block d < 4 -> dd_bit_widths d !! Z.to_nat (dd_current_mini_block d) = Some w ->
  dd_values_in_mini_block d <= dd_mini_block_pos d ->
  exists d', decode_deltas (length ds) d = Some (CARQUET_OK, ds, d') /\ at_rest d' q /\
    dd_min_delta d' = m /\ dd_bit_widths d' = dd_bit_widths d /\
    dd_current_mini_block d' = dd_current_mini_block d + 1 /\
    dd_mini_block_pos d' = lenZ ds /\ dd_values_in_mini_block d' = 32.
Proof.
  intros A Hr Hl Hc Hw Hx.
  destruct (read_mini_block_spec d ds q A Hr ltac:(lia) Hc Hw) as (d1 & E1 & A1 & M1 & B1 & C1 & P1 & V1 & T1).
  destruct (decode_run (length ds) d1 q A1) as (d2 & E2 & A2 & (M2 & B2 & C2 & V2) & P2); [lia|].
  exists d2. rewrite P1 in E2. change (Z.to_nat 0) with 0%nat in E2. rewrite drop_0, T1 in E2.
  split; [|split; [done|]; split_and!; try congruence; lia].
  rewrite <- E2. destruct ds as [|x ds]; [cbn in Hl; lia|]. cbn [length decode_deltas].
  rewrite E1, V1, P1, !Z.geb_leb. cbn [length] in Hl. decide_bool. done.
Qed.

Lemma datas_nil n m : datas n m [] = [].
Proof. induction n; cbn [datas]; [done|]. rewrite take_nil, drop_nil, IHn. done. Qed.

(** The mini-blocks left in a block. *)
Lemma minis_decode n : forall d ds q (m := dd_min_delta d), at_rest d (datas n m ds ++ q) ->
  Forall (in_i 64) ds -> (length ds <= 32 * n)%nat ->
  dd_current_mini_block d + Z.of_nat n = 4 ->
  (forall i, (i < n)%nat -> dd_bit_widths d !! (Z.to_nat (dd_current_mini_block d) + i)%nat = widths n m ds !! i) ->
  dd_values_in_mini_block d <= dd_mini_block_pos d ->
  exists d', decode_deltas (length ds) d = Some (CARQUET_OK, ds, d') /\ at_rest d' q /\
    (length ds = (32 * n)%nat -> dd_current_mini_block d' = 4 /\ dd_values_in_mini_block d' <= dd_mini_block_pos d').
Proof.
  induction n as [|n IH]; intros d ds q m A Hr Hl Hc Hw Hx.
  { destruct ds; [|cbn in Hl; lia]. exists d. split; [done|]. split; [done|]. intros _. lia. }
  destruct (decide (ds = [])) as [->|Hne].
  { exists d. rewrite datas_nil in A. split; [done|]. split; [done|]. cbn. lia. }
  cbn [datas] in A. rewrite <- app_assoc in A.
  assert (0 < length ds)%nat by (destruct ds; [done|cbn; lia]).
  pose proof (dw_current d (ar_wf _ _ A)). assert (length (take 32 ds) = Nat.min 32 (length ds)) as LT by apply length_take.
  destruct (mini_decode d (take 32 ds) (datas n m (drop 32 ds) ++ q)) as (d1 & E1 & A1 & M1 & B1 & C1 & P1 & V1);
    [done|by apply Forall_take|lia|lia|specialize (Hw 0%nat ltac:(lia)); rewrite Nat.add_0_r in Hw; exact Hw|done|].
  destruct (decide (length ds < 32)%nat) as [Hlt|Hge].
  { rewrite take_ge in E1 by lia. rewrite drop_ge, datas_nil in A1 by lia. exists d1. split; [done|]. split; [done|]. lia. }
  destruct (IH d1 (drop 32 ds) q) as (d2 & E2 & A2 & X2);
    [by rewrite M1|by apply Forall_drop|rewrite length_drop; lia|lia| |lia|].
  { intros i Hi. rewrite B1, M1, C1. specialize (Hw (S i) ltac:(lia)). 
    change (widths (S n) m ds !! S i) with (widths n m (drop 32 ds) !! i) in Hw.
    etransitivity; [|exact Hw]. f_equal. lia. }
  exists d2. split; [|split; [done|]]; [|intros Hn; apply X2; rewrite length_drop; lia].
  rewrite <- (take_drop 32 ds) at 1. rewrite length_app, (decode_deltas_app _ _ _ _ _ E1), E2.
  cbn [mbind option_bind]. by rewrite take_drop.
Qed.

(** Reading a block header. *)
Lemma read_block_spec d ds q (m := minimum ds) : at_rest d (block ds ++ q) -> Forall (in_i 64) ds ->
  exists d1, delta_decoder_read_block d = Some (CARQUET_OK, d1) /\ at_rest d1 (datas 4 m ds ++ q) /\
    dd_min_delta d1 = m /\ dd_bit_widths d1 = overwrite (dd_bit_widths d) (widths 4 m ds) /\
    dd_current_mini_block d1 = 0 /\ dd_mini_block_pos d1 = dd_mini_block_pos d /\
    dd_values_in_mini_block d1 = dd_values_in_mini_block d.
Proof.
  intros A Hr. pose proof (minimum_range ds Hr) as Hm. fold m in Hm. unfold block in A. fold m in A.
  rewrite <- !app_assoc in A. pose proof (at_rest_length _ _ _ A) as L1. pose proof (at_rest_skip _ _ _ A) as S1.
  destruct (A) as [W Hs Hbs Hmb E]. destruct (delta_decoder_read_block_safe d W) as (s' & d' & E' & W' & _). revert E'.
  destruct (W) as [? Hpos Hsz ? ? ? ? ? ? ? ? ? ?]. unfold delta_decoder_read_block.
  pose proof (length_uleb (carquet_zigzag_encode64 m)).
  rewrite !Z.geb_leb. decide_bool.
  rewrite (read_uleb128_spec _ _ _ (carquet_zigzag_encode64 m) _ Hpos Hsz (zigzag_encode64_range m Hm) E).
  cbn [mbind option_bind]. decide_bool. rewrite zigzag_decode64_eq, zigzag64_decode_encode, Hmb by done.
  set (pos := dd_pos d + _) in *.
  assert (pos + 4 <= dd_size d).
  { pose proof (window_length (dd_data d) (dd_size d) pos ltac:(lia) Hsz) as L. rewrite S1, length_app, length_widths in L. lia. }
  decide_bool. rewrite rd_n_Some by lia. fold (ptr_add (dd_data d) pos).
  rewrite (window_take _ (dd_size d)), S1 by lia. rewrite take_app_length' by (by rewrite length_widths).
  cbn [mbind option_bind]. intros [= <- <-]. eexists. split; [done|]. cbn. split; [|done].
  split; cbn; auto. rewrite <- window_add, S1 by lia. apply ptr_add_app. rewrite length_widths. lia.
Qed.

Lemma block_decode d ds q : at_rest d (block ds ++ q) -> Forall (in_i 64) ds -> (0 < length ds <= 128)%nat ->
  4 <= dd_current_mini_block d -> dd_values_in_mini_block d <= dd_mini_block_pos d ->
  exists d', decode_deltas (length ds) d = Some (CARQUET_OK, ds, d') /\ at_rest d' q /\
    (length ds = 128%nat -> 4 <= dd_current_mini_block d' /\ dd_values_in_mini_block d' <= dd_mini_block_pos d').
Proof.
  intros A Hr Hl Hc Hx. destruct (read_block_spec d ds q A Hr) as (d1 & E1 & A1 & M1 & B1 & C1 & P1 & V1).
  destruct (minis_decode 4 d1 ds q) as (d2 & E2 & A2 & X2); [by rewrite M1|done|lia|lia| |lia|].
  { intros i Hi. rewrite C1, B1, M1. change (Z.to_nat 0 + i)%nat with i. unfold overwrite.
    apply lookup_app_l. rewrite length_widths. lia. }
  exists d2. split; [|split; [done|intros Hn; destruct (X2 Hn); lia]]. rewrite <- E2.
  destruct ds as [|x ds]; [cbn in Hl; lia|]. cbn [length decode_deltas]. rewrite P1, V1, !Z.geb_leb. decide_bool.
  assert (delta_decoder_read_mini_block d = delta_decoder_read_mini_block d1) as ->; [|done].
  unfold delta_decoder_read_mini_block. rewrite E1, C1, (ar_minis _ _ A), (ar_minis _ _ A1), !Z.geb_leb.
  decide_bool. done.
Qed.

Lemma blocks_decode n : forall d ds q, (length ds <= n)%nat -> at_rest d (blocks n ds ++ q) -> Forall (in_i 64) ds ->
  4 <= dd_current_mini_block d -> dd_values_in_mini_block d <= dd_mini_block_pos d ->
  exists d', decode_deltas (length ds) d = Some (CARQUET_OK, ds, d') /\ at_rest d' q.
Proof.
  induction n as [|n IH]; intros d ds q Hl A Hr Hc Hx.
  { destruct ds; [|cbn in Hl; lia]. by exists d. }
  cbn [blocks] in A. case_bool_decide as Hne; [subst; by exists d|]. rewrite <- app_assoc in A.
  assert (0 < length ds)%nat by (destruct ds; [done|cbn; lia]).
  destruct (block_decode d (take 128 ds) (blocks n (drop 128 ds) ++ q)) as (d1 & E1 & A1 & X1);
    [done|by apply Forall_take|rewrite length_take; lia|done|done|].
  destruct (decide (length ds <= 128)%nat) as [Hle|Hgt].
  { rewrite take_ge in E1 by lia. rewrite drop_ge in A1 by lia. assert (blocks n [] = []) as B0 by (by destruct n); rewrite B0 in A1. by exists d1. }
  destruct X1 as [? ?]; [rewrite length_take; lia|].
  destruct (IH d1 (drop 128 ds) q) as (d2 & E2 & A2); [rewrite length_drop; lia|done|by apply Forall_drop|lia|done|].
  exists d2. split; [|done]. rewrite <- (take_drop 128 ds) at 1.
  rewrite length_app, (decode_deltas_app _ _ _ _ _ E1), E2. cbn [mbind option_bind]. by rewrite take_drop.
Qed.

Lemma header_varint_spec data pos v q : 0 <= pos <= size -> size <= lenZ data -> in_u 64 v ->
  window data size pos = uleb v ++ q ->
  header_varint data size pos = Some (Some (v, pos + lenZ (uleb v))) /\
    window data size (pos + lenZ (uleb v)) = q /\ pos + lenZ (uleb v) <= size.
Proof.
  intros Hp Hs Hv E. unfold header_varint. rewrite (read_uleb128_spec data size pos v q) by done.
  cbn [mbind option_bind]. pose proof (length_uleb v). decide_bool. split; [done|].
  pose proof (window_length data size pos Hp Hs) as L. rewrite E, length_app in L. split; [|lia].
  rewrite <- window_add, E by lia. by apply ptr_add_app.
Qed.

(** The header starts a decoder in front of the blocks. *)
Lemma delta_decoder_init_spec data n v0 q : bytes_ok data -> 0 <= size <= lenZ data ->
  window data size 0 = delta_header n v0 ++ q -> 0 <= n < 2 ^ 31 -> in_i 64 v0 ->
  exists d, delta_decoder_init data size = Some (CARQUET_OK, Some d) /\ at_rest (delta_start d) q /\
    dd_first_value d = v0 /\ dd_pos d = lenZ (delta_header n v0) /\
    4 <= dd_current_mini_block d /\ dd_values_in_mini_block d <= dd_mini_block_pos d.
Proof.
  intros Hb Hs E Hn Hv. unfold delta_header in E. rewrite <- !app_assoc in E.
  destruct (header_varint_spec data 0 128 _ ltac:(lia) ltac:(lia) ltac:(unfold in_u; lia) E) as (V1 & E2 & ?).
  destruct (header_varint_spec data (0 + lenZ (uleb 128)) 4 _ ltac:(lia) ltac:(lia) ltac:(unfold in_u; lia) E2) as (V2 & E3 & ?).
  destruct (header_varint_spec data (0 + lenZ (uleb 128) + lenZ (uleb 4)) n _ ltac:(lia) ltac:(lia) ltac:(unfold in_u; lia) E3) as (V3 & E4 & ?).
  destruct (header_varint_spec data (0 + lenZ (uleb 128) + lenZ (uleb 4) + lenZ (uleb n)) _ _ ltac:(lia) ltac:(lia) (zigzag_encode64_range v0 Hv) E4) as (V4 & E5 & ?).
  destruct (delta_decoder_init_safe data size Hb Hs) as [E0|(d0 & E0 & W & _)]; revert E0; unfold delta_decoder_init;
    rewrite V1; cbn [mbind option_bind]; rewrite V2; cbn [mbind option_bind];
    change (i32 4) with 4; change (i32 128) with 128; change (128 / 4) with 32;
    unfold DELTA_MAX_MINI_BLOCKS, DELTA_MAX_BLOCK_SIZE, DELTA_MAX_MINI_BLOCK_SIZE; decide_bool;
    rewrite V3; cbn [mbind option_bind]; rewrite V4; cbn [mbind option_bind]; [done|].
  intros [= <-]. eexists. split; [done|].
  split; [by split; [apply delta_start_wf|..]|].
  cbn -[replicate]. rewrite zigzag_decode64_eq, zigzag64_decode_encode by done. unfold delta_header. rewrite !length_app.
  split; [done|]. split; [lia|]. split; [lia|done].
Qed.

End Decoder.

Lemma uleb_bytes_ok v : 0 <= v -> bytes_ok (uleb v).
Proof. auto with bytes. Qed.

Lemma block_ok ds : Forall (in_i 64) ds -> bytes_ok (block ds).
Proof.
  intros Hr. unfold block. pose proof (zigzag_encode64_range _ (minimum_range ds Hr)) as R. unfold in_u in R.
  apply Forall_app_2; [apply uleb_bytes_ok; lia|]. apply Forall_app_2; [apply widths_ok|apply datas_ok].
Qed.

Lemma blocks_ok n : forall ds, Forall (in_i 64) ds -> bytes_ok (blocks n ds).
Proof.
  induction n as [|n IH]; intros ds Hr; cbn [blocks]; [constructor|]. case_bool_decide; [constructor|].
  apply Forall_app_2; [apply block_ok; by apply Forall_take|apply IH; by apply Forall_drop].
Qed.

Lemma delta_header_ok n v : 0 <= n -> in_i 64 v -> bytes_ok (delta_header n v).
Proof.
  intros Hn Hv. unfold delta_header. pose proof (zigzag_encode64_range v Hv) as R. unfold in_u in R.
  do 3 (apply Forall_app_2; [apply uleb_bytes_ok; lia|]). apply uleb_bytes_ok. lia.
Qed.

Lemma delta_bytes_ok vs : Forall (in_i 64) vs -> bytes_ok (delta_bytes vs).
Proof.
  intros Hr. destruct vs as [|v vs]; cbn [delta_bytes]; [apply delta_header_ok; [lia|unfold in_i; lia]|].
  apply Forall_cons_iff in Hr as [? ?]. apply Forall_app_2; [apply delta_header_ok; [lia|done]|].
  apply blocks_ok, deltas_from_range.
Qed.

Section Roundtrip.
Context {K : UnpackKernels} {KOk : UnpackKernelsOk K}.

(** The decoders read the reference encoding, whatever follows it. *)
Lemma delta_run_spec size v0 vs r : Forall (in_i 64) (v0 :: vs) -> bytes_ok r -> lenZ (v0 :: vs) < 2 ^ 31 ->
  lenZ (delta_bytes (v0 :: vs)) <= size <= lenZ (delta_bytes (v0 :: vs) ++ r) ->
  exists d, delta_decoder_init (delta_bytes (v0 :: vs) ++ r) size = Some (CARQUET_OK, Some d) /\
    dd_first_value d = v0 /\ exists d', decode_deltas (length vs) (delta_start d) = Some (CARQUET_OK, deltas_from v0 vs, d') /\
      dd_pos d' = lenZ (delta_bytes (v0 :: vs)).
Proof.
  intros Hr Hb Hn Hs. pose proof (delta_bytes_ok _ Hr) as Hb0. cbn [delta_bytes] in *.
  set (h := delta_header _ _) in *. set (bs := blocks _ _) in *. set (data := (h ++ bs) ++ r) in *.
  apply Forall_cons_iff in Hr as [Hv0 Hvs].
  set (q := take (Z.to_nat size - length (h ++ bs)) r).
  assert (window data size 0 = h ++ bs ++ q) as EW.
  { unfold window, data, q. change (ptr_add ?l 0) with l. rewrite take_app_ge by lia. by rewrite app_assoc. }
  destruct (delta_decoder_init_spec size data (lenZ (v0 :: vs)) v0 (bs ++ q)) as (d & E & A & F & P & C & X);
    [by apply Forall_app_2|lia|exact EW|lia|done|].
  exists d. split; [done|]. split; [done|].
  destruct (blocks_decode size (length vs) (delta_start d) (deltas_from v0 vs) q) as (d' & E' & A');
    [by rewrite length_deltas_from|done|apply deltas_from_range|done|done|].
  rewrite length_deltas_from in E'. exists d'. split; [done|].
  pose proof (at_rest_length size d' q []) as L1. rewrite app_nil_r in L1. specialize (L1 A').
  destruct A' as [W S' _ _ R']. pose proof (dw_pos d' W). pose proof (dw_size d' W).
  pose proof (window_length _ _ (dd_pos d') ltac:(done) ltac:(done)) as L2. rewrite R' in L2.
  assert (lenZ q = size - lenZ (h ++ bs)) by (unfold q, data in *; rewrite length_take, !length_app in *; lia). lia.
Qed.

(** An encoder and a decoder fit: the encoder refuses only for lack of room, and what
    it stored is read back with its exact length, whatever the size announced. *)
Definition delta_exact
    (enc : list Z -> list Z -> Z -> option (carquet_status_t * list Z * option Z))
    (dec : list Z -> Z -> Z -> option (carquet_status_t * option (list Z * Z)))
    (vs data : list Z) (cap : Z) : Prop :=
  (exists data', enc vs data cap = Some (CARQUET_ERROR_ENCODE, data', None) /\
     cap < 40 + 1038 * ((lenZ vs + 126) / 128)) \/
  (exists data' n, enc vs data cap = Some (CARQUET_OK, data', Some n) /\ 0 <= n <= cap /\
     lenZ data' = lenZ data /\
     forall size, n <= size <= lenZ data -> dec data' size (lenZ vs) = Some (CARQUET_OK, Some (vs, n))).

(** The decoder states behind both decoders. *)
Lemma delta_decode_states vs r size : Forall (in_i 64) vs -> bytes_ok r -> lenZ vs < 2 ^ 31 ->
  lenZ (delta_bytes vs) <= size <= lenZ (delta_bytes vs ++ r) ->
  exists d d', delta_decoder_init (delta_bytes vs ++ r) size = Some (CARQUET_OK, Some d) /\
    (vs = [] -> dd_pos d = lenZ (delta_bytes vs)) /\
    (forall v0 vs', vs = v0 :: vs' -> dd_first_value d = v0 /\ dd_pos d' = lenZ (delta_bytes vs) /\
       decode_deltas (length vs') (delta_start d) = Some (CARQUET_OK, deltas_from v0 vs', d')).
Proof.
  intros Hr Hb Hn Hs. destruct vs as [|v0 vs].
  - destruct (delta_decoder_init_spec size (delta_bytes [] ++ r) 0 0 (take (Z.to_nat size - length (delta_bytes [])) r))
      as (d & ED & _ & _ & P & _); [|lia| |lia|unfold in_i; lia|].
    + by apply Forall_app_2; [apply delta_bytes_ok|].
    + unfold window. change (ptr_add ?l 0) with l. rewrite take_app_ge by lia. done.
    + by exists d, d.
  - destruct (delta_run_spec size v0 vs r Hr) as (d & ED & F & d' & E' & P'); [done|done|lia|].
    exists d, d'. split; [done|]. split; [done|]. intros v1 vs1 [= <- <-]. done.
Qed.

Lemma delta_decode32_bytes vs r size : Forall (in_i 32) vs -> bytes_ok r -> lenZ vs < 2 ^ 31 ->
  lenZ (delta_bytes vs) <= size <= lenZ (delta_bytes vs ++ r) ->
  carquet_delta_decode_int32 (delta_bytes vs ++ r) size (lenZ vs) = Some (CARQUET_OK, Some (vs, lenZ (delta_bytes vs))).
Proof.
  intros Hr Hb Hn Hs. destruct (delta_decode_states vs r size) as (d & d' & ED & HN & HC); try done.
  { eapply Forall_impl; [|exact Hr]. intros x. unfold in_i. lia. }
  unfold carquet_delta_decode_int32. rewrite ED. cbn [mbind option_bind]. destruct vs as [|v0 vs].
  { cbn. by rewrite HN. }
  destruct (HC v0 vs eq_refl) as (F & P & E). apply Forall_cons_iff in Hr as [Hr0 Hr].
  replace (Z.to_nat (lenZ (v0 :: vs) - 1)) with (length vs) by (cbn [length]; lia).
  rewrite (proj2 (Z.eqb_neq (lenZ (v0 :: vs)) 0)) by (cbn [length]; lia). rewrite E. cbn [mbind option_bind is_ok negb]. rewrite F, P.
  assert (i32 v0 = v0) as -> by (by apply wrap_signed_small). unfold carquet_dispatch_prefix_sum_i32.
  by rewrite (prefix_sum_i32_diffs vs _ v0) by (auto using deltas_from_diffs32).
Qed.

Lemma delta_decode64_bytes vs r size : Forall (in_i 64) vs -> bytes_ok r -> lenZ vs < 2 ^ 31 ->
  lenZ (delta_bytes vs) <= size <= lenZ (delta_bytes vs ++ r) ->
  carquet_delta_decode_int64 (delta_bytes vs ++ r) size (lenZ vs) = Some (CARQUET_OK, Some (vs, lenZ (delta_bytes vs))).
Proof.
  intros Hr Hb Hn Hs. destruct (delta_decode_states vs r size) as (d & d' & ED & HN & HC); try done.
  unfold carquet_delta_decode_int64. rewrite ED. cbn [mbind option_bind]. destruct vs as [|v0 vs].
  { cbn. by rewrite HN. }
  destruct (HC v0 vs eq_refl) as (F & P & E). apply Forall_cons_iff in Hr as [Hr0 Hr].
  replace (Z.to_nat (lenZ (v0 :: vs) - 1)) with (length vs) by (cbn [length]; lia).
  rewrite (proj2 (Z.eqb_neq (lenZ (v0 :: vs)) 0)) by (cbn [length]; lia). rewrite E. cbn [mbind option_bind is_ok negb]. rewrite F, P.
  unfold carquet_dispatch_prefix_sum_i64. by rewrite (prefix_sum_i64_diffs vs _ v0) by (auto using deltas_from_diffs).
Qed.

Lemma delta_exact_intro dec vs data cap : Forall (in_i 64) vs -> bytes_ok data -> cap <= lenZ data -> lenZ vs < 2 ^ 31 ->
  (forall r size, bytes_ok r -> lenZ (delta_bytes vs) <= size <= lenZ (delta_bytes vs ++ r) ->
    dec (delta_bytes vs ++ r) size (lenZ vs) = Some (CARQUET_OK, Some (vs, lenZ (delta_bytes vs)))) ->
  delta_exact delta_encode dec vs data cap.
Proof.
  intros Hr Hb Hcap Hn Hdec. unfold delta_exact. pose proof (delta_room_bound data vs Hr).
  assert (0 <= (lenZ vs + 126) / 128) by (apply Z.div_pos; lia).
  destruct (delta_encode_spec data cap Hcap vs Hr Hn) as [(data' & E & ?)|[E L]]; [left; exists data'; split; [done|lia]|right].
  eexists _, _. split; [exact E|]. split; [lia|]. split; [rewrite length_app, length_drop; lia|].
  intros size Hs. apply Hdec; [by apply Forall_drop|]. rewrite length_app, length_drop. lia.
Qed.

(** C5: DELTA_BINARY_PACKED round trip.  For every column of 32-bit or 64-bit integers
    and every output array, the encoder stays inside the array and either succeeds or
    reports that the capacity was too small, which cannot happen from
    40 + 1038 bytes per started block of 128 on; after a success, decoding the array
    (with any bytes after the encoded ones counted in or not) returns exactly the values
    and consumes exactly the bytes written. *)
Theorem delta_roundtrip vs data cap : bytes_ok data -> cap <= lenZ data -> lenZ vs < 2 ^ 31 ->
  (Forall (in_i 32) vs -> delta_exact carquet_delta_encode_int32 carquet_delta_decode_int32 vs data cap) /\
  (Forall (in_i 64) vs -> delta_exact carquet_delta_encode_int64 carquet_delta_decode_int64 vs data cap).
Proof.
  intros Hb Hcap Hn. split; intros Hr; apply delta_exact_intro; try done.
  - eapply Forall_impl; [|exact Hr]. intros x. unfold in_i. lia.
  - intros. by apply delta_decode32_bytes.
  - intros. by apply delta_decode64_bytes.
Qed.

End Roundtrip.

Lemma delta_roundtrip_witness :
  delta_exact carquet_delta_encode_int32 (carquet_delta_decode_int32 (K := full_kernels))
    [7; 5; 5; -9; 2147483647] (replicate 200 0) 200 /\
  exists data', carquet_delta_encode_int32 [7; 5; 5; -9; 2147483647] (replicate 200 0) 200 =
    Some (CARQUET_OK, data', Some 138).
Proof.
  split; [|eexists; vm_compute; reflexivity].
  apply (delta_roundtrip (K := full_kernels) [7; 5; 5; -9; 2147483647] (replicate 200 0) 200).
  - apply Forall_replicate. unfold in_u. lia.
  - rewrite length_replicate. lia.
  - cbn. lia.
  - apply (bool_decide_unpack _). vm_compute. exact I.
Defined.
