(* ===== verification/ThriftDecode.v ===== *)
(** * Thrift compact protocol, decoding (carquet/thrift/thrift_decode.c)

    The decoder is a cursor over bytes with a sticky status, the field-id stack and a
    pending boolean.  Its operations are written in a state monad whose failure is
    undefined behaviour, so a defined result is also memory safety. *)

From S2P Require Import Prelude Status Endian Buffer.
From stdpp Require Import strings.

#[global] Open Scope Z_scope.

Definition THRIFT_TYPE_STOP : Z := 0.
Definition THRIFT_TYPE_TRUE : Z := 1.
Definition THRIFT_TYPE_FALSE : Z := 2.
Definition THRIFT_TYPE_BYTE : Z := 3.
Definition THRIFT_TYPE_I16 : Z := 4.
Definition THRIFT_TYPE_I32 : Z := 5.
Definition THRIFT_TYPE_I64 : Z := 6.
Definition THRIFT_TYPE_DOUBLE : Z := 7.
Definition THRIFT_TYPE_BINARY : Z := 8.
Definition THRIFT_TYPE_LIST : Z := 9.
Definition THRIFT_TYPE_SET : Z := 10.
Definition THRIFT_TYPE_MAP : Z := 11.
Definition THRIFT_TYPE_STRUCT : Z := 12.
Definition THRIFT_TYPE_UUID : Z := 13.

Definition THRIFT_MAX_NESTING : Z := 32.

Record thrift_decoder_t := mk_thrift_decoder {
  td_reader : carquet_buffer_reader_t;
  td_last_field_id : list Z;   (* int16_t[THRIFT_MAX_NESTING] *)
  td_nesting_level : Z;
  td_bool_pending : bool;
  td_bool_value : bool;
  td_status : carquet_status_t;
  td_error_message : string }.

(** ** The monad *)

Definition tdec (A : Type) : Type := thrift_decoder_t -> option (A * thrift_decoder_t).

#[export] Instance tdec_ret : MRet tdec := λ A x d, Some (x, d).
#[export] Instance tdec_bind : MBind tdec := λ A B f m d,
  match m d with Some (x, d') => f x d' | None => None end.

Definition gets {A} (f : thrift_decoder_t -> A) : tdec A := λ d, Some (f d, d).
Definition modify (f : thrift_decoder_t -> thrift_decoder_t) : tdec () := λ d, Some ((), f d).
(** A read or store that may be out of bounds. *)
Definition checked {A} (f : thrift_decoder_t -> option A) : tdec A := λ d, v ← f d; Some (v, d).

Definition set_reader (r : carquet_buffer_reader_t) (d : thrift_decoder_t) : thrift_decoder_t :=
  mk_thrift_decoder r (td_last_field_id d) (td_nesting_level d) (td_bool_pending d) (td_bool_value d)
    (td_status d) (td_error_message d).

Definition set_ids (ids : list Z) (level : Z) (d : thrift_decoder_t) : thrift_decoder_t :=
  mk_thrift_decoder (td_reader d) ids level (td_bool_pending d) (td_bool_value d) (td_status d) (td_error_message d).

Definition set_bool (pending value : bool) (d : thrift_decoder_t) : thrift_decoder_t :=
  mk_thrift_decoder (td_reader d) (td_last_field_id d) (td_nesting_level d) pending value
    (td_status d) (td_error_message d).

(** ** Helpers *)

(** Every message fits the 128 bytes of [error_message]. *)
Definition set_error (status : carquet_status_t) (msg : string) : tdec () := modify (λ d,
  if is_ok (td_status d) then
    mk_thrift_decoder (td_reader d) (td_last_field_id d) (td_nesting_level d) (td_bool_pending d)
      (td_bool_value d) status msg
  else d).

Definition has_bytes (n : Z) : tdec bool := gets (λ d, carquet_buffer_reader_has (td_reader d) n).

Definition read_byte_raw : tdec Z :=
  ok ← has_bytes 1;
  if negb ok then set_error CARQUET_ERROR_THRIFT_TRUNCATED "Unexpected end of data";; mret 0
  else λ d, '(_, b, r) ← carquet_buffer_reader_read_byte (td_reader d); b ← b; Some (b, set_reader r d).

Definition thrift_decoder_init (data : list Z) (size : Z) : thrift_decoder_t :=
  mk_thrift_decoder (carquet_buffer_reader_init_data data size) (replicate 32 0) 0 false false CARQUET_OK "".

Definition thrift_decoder_init_reader (reader : carquet_buffer_reader_t) : thrift_decoder_t :=
  mk_thrift_decoder reader (replicate 32 0) 0 false false CARQUET_OK "".

Definition thrift_decoder_has_error (d : thrift_decoder_t) : bool := negb (is_ok (td_status d)).
Definition thrift_decoder_remaining (d : thrift_decoder_t) : Z := carquet_buffer_reader_remaining (td_reader d).

(** ** Varints *)

(** [n] iterations are left before [shift] reaches 64. *)
Fixpoint thrift_varint_loop (n : nat) (result shift : Z) : tdec Z :=
  match n with
  | O => set_error CARQUET_ERROR_THRIFT_DECODE "Varint overflow";; mret 0
  | S n =>
      ok ← has_bytes 1;
      if negb ok then set_error CARQUET_ERROR_THRIFT_TRUNCATED "Truncated varint";; mret 0
      else
        byte ← read_byte_raw;
        let result := result .| u64 ((byte .& 0x7F) ≪ shift) in
        if (byte .& 0x80) =? 0 then mret result else thrift_varint_loop n result (shift + 7)
  end.

Definition thrift_read_varint : tdec Z := thrift_varint_loop 10 0 0.

Definition thrift_read_zigzag : tdec Z := n ← thrift_read_varint; mret (carquet_zigzag_decode64 n).

(** ** Primitive values *)

Definition thrift_read_byte : tdec Z := b ← read_byte_raw; mret (i8 b).
Definition thrift_read_i16 : tdec Z := v ← thrift_read_zigzag; mret (i16 v).
Definition thrift_read_i32 : tdec Z := v ← thrift_read_zigzag; mret (i32 v).
Definition thrift_read_i64 : tdec Z := thrift_read_zigzag.

(** [carquet_buffer_reader_skip], its status ignored. *)
Definition skip_raw (n : Z) : tdec () := modify (λ d, set_reader (carquet_buffer_reader_skip (td_reader d) n).2 d).

(** Doubles are their bit patterns. *)
Definition thrift_read_double : tdec Z :=
  ok ← has_bytes 8;
  if negb ok then set_error CARQUET_ERROR_THRIFT_TRUNCATED "Truncated double";; mret 0
  else
    result ← checked (λ d, carquet_read_f64_le (carquet_buffer_reader_peek (td_reader d)));
    skip_raw 8;; mret result.

Definition thrift_read_bool : tdec bool :=
  pending ← gets td_bool_pending;
  if pending : bool then
    v ← gets td_bool_value;
    modify (λ d, set_bool false (td_bool_value d) d);; mret v
  else b ← read_byte_raw; mret (b =? 1).

(** [*length] and the returned pointer, [None] for NULL. *)
Definition thrift_read_binary : tdec (option (list Z) * Z) :=
  v ← thrift_read_varint;
  let len := i32 v in
  if len <? 0 then set_error CARQUET_ERROR_THRIFT_DECODE "Negative binary length";; mret (None, 0) else
  ok ← has_bytes len;
  if negb ok then set_error CARQUET_ERROR_THRIFT_TRUNCATED "Truncated binary data";; mret (None, 0)
  else
    data ← gets (λ d, carquet_buffer_reader_peek (td_reader d));
    skip_raw len;; mret (Some data, len).

(** The allocated string with its terminator; [alloc n] tells whether the allocator
    serves a request for [n] bytes. *)
Definition thrift_read_string_alloc (alloc : Z -> bool) : tdec (option (list Z)) :=
  '(data, length) ← thrift_read_binary;
  status ← gets td_status;
  match data with
  | None => if (length =? 0) && is_ok status
            then mret (if alloc 1 then Some [0] else None)
            else mret None
  | Some p =>
      if negb (alloc (length + 1)) then
        set_error CARQUET_ERROR_OUT_OF_MEMORY "Failed to allocate string";; mret None
      else
        bs ← checked (λ _, rd_n p 0 length);
        mret (Some (bs ++ [0]))
  end.

Definition thrift_read_uuid : tdec (list Z) :=
  ok ← has_bytes 16;
  if negb ok then set_error CARQUET_ERROR_THRIFT_TRUNCATED "Truncated UUID";; mret (replicate 16 0)
  else λ d, '(_, b, r) ← carquet_buffer_reader_read (td_reader d) 16; b ← b; Some (b, set_reader r d).

(** ** Structs *)

Definition thrift_read_struct_begin : tdec () :=
  level ← gets td_nesting_level;
  if level >=? THRIFT_MAX_NESTING then set_error CARQUET_ERROR_THRIFT_DECODE "Struct nesting too deep"
  else
    ids ← checked (λ d, wr (td_last_field_id d) level 0);
    modify (set_ids ids (level + 1)).

Definition thrift_read_struct_end : tdec () := modify (λ d,
  if td_nesting_level d >? 0 then set_ids (td_last_field_id d) (td_nesting_level d - 1) d else d).

(** The returned flag, [*type] and [*field_id]. *)
Definition thrift_read_field_begin : tdec (bool * Z * Z) :=
  status ← gets td_status;
  if negb (is_ok status) then mret (false, THRIFT_TYPE_STOP, 0) else
  header ← read_byte_raw;
  if header =? 0 then mret (false, THRIFT_TYPE_STOP, 0) else
  let type := header .& 0x0F in
  let delta := (header ≫ 4) .& 0x0F in
  level ← gets td_nesting_level;
  prev_field_id ← (if level >? 0 then checked (λ d, rd (td_last_field_id d) (level - 1)) else mret 0);
  field_id ← (if delta =? 0 then thrift_read_i16 else mret (i16 (prev_field_id + delta)));
  (if level >? 0 then
     ids ← checked (λ d, wr (td_last_field_id d) (level - 1) field_id);
     modify (set_ids ids level)
   else mret ());;
  (if type =? THRIFT_TYPE_TRUE then modify (set_bool true true)
   else if type =? THRIFT_TYPE_FALSE then modify (set_bool true false)
   else mret ());;
  mret (true, type, field_id).

(** ** Containers *)

Definition thrift_read_list_begin : tdec (Z * Z) :=
  header ← read_byte_raw;
  let elem_type := header .& 0x0F in
  let size_and_type := (header ≫ 4) .& 0x0F in
  count ← (if size_and_type =? 0x0F then v ← thrift_read_varint; mret (i32 v) else mret size_and_type);
  if count <? 0 then set_error CARQUET_ERROR_THRIFT_DECODE "Negative list size";; mret (elem_type, 0) else
  remaining ← gets (λ d, carquet_buffer_reader_remaining (td_reader d));
  if count >? remaining then
    set_error CARQUET_ERROR_THRIFT_DECODE "List count exceeds remaining data";; mret (elem_type, 0)
  else mret (elem_type, count).

Definition thrift_read_set_begin : tdec (Z * Z) := thrift_read_list_begin.

Definition thrift_read_map_begin : tdec (Z * Z * Z) :=
  v ← thrift_read_varint;
  let count := i32 v in
  if count <? 0 then
    set_error CARQUET_ERROR_THRIFT_DECODE "Negative map size";; mret (THRIFT_TYPE_STOP, THRIFT_TYPE_STOP, 0)
  else if count =? 0 then mret (THRIFT_TYPE_STOP, THRIFT_TYPE_STOP, 0) else
  remaining ← gets (λ d, carquet_buffer_reader_remaining (td_reader d));
  if count >? remaining then
    set_error CARQUET_ERROR_THRIFT_DECODE "Map count exceeds remaining data";;
    mret (THRIFT_TYPE_STOP, THRIFT_TYPE_STOP, 0)
  else
    types ← read_byte_raw;
    mret ((types ≫ 4) .& 0x0F, types .& 0x0F, count).

(** ** Skipping

    [for (i = 0; i < count && status == OK; i++) body] and
    [while (thrift_read_field_begin(...)) body(type)], the latter with fuel. *)

Fixpoint repeat_ok (count : nat) (body : tdec ()) : tdec () :=
  match count with
  | O => mret ()
  | S count =>
      status ← gets td_status;
      if is_ok status then body;; repeat_ok count body else mret ()
  end.

Fixpoint while_field (fuel : nat) (body : Z -> tdec ()) : tdec () :=
  match fuel with
  | O => λ _, None
  | S fuel =>
      '(more, type, _) ← thrift_read_field_begin;
      if more : bool then body type;; while_field fuel body else mret ()
  end.

(** [fuel] bounds the depth of the recursion; a value inside another starts at least
    one byte later, so three more than the bytes left are enough ([thrift_skip_total]). *)
Fixpoint thrift_skip (fuel : nat) (type : Z) : tdec () :=
  match fuel with
  | O => λ _, None
  | S fuel =>
      status ← gets td_status;
      if negb (is_ok status) then mret () else
      if type =? THRIFT_TYPE_STOP then set_error CARQUET_ERROR_THRIFT_DECODE "Cannot skip STOP type" else
      if (type =? THRIFT_TYPE_TRUE) || (type =? THRIFT_TYPE_FALSE) then
        modify (λ d, set_bool false (td_bool_value d) d) else
      if type =? THRIFT_TYPE_BYTE then skip_raw 1 else
      if (type =? THRIFT_TYPE_I16) || (type =? THRIFT_TYPE_I32) || (type =? THRIFT_TYPE_I64) then
        thrift_read_varint;; mret () else
      if type =? THRIFT_TYPE_DOUBLE then skip_raw 8 else
      if type =? THRIFT_TYPE_BINARY then thrift_read_binary;; mret () else
      if (type =? THRIFT_TYPE_LIST) || (type =? THRIFT_TYPE_SET) then
        '(elem_type, count) ← thrift_read_list_begin;
        repeat_ok (Z.to_nat count) (thrift_skip fuel elem_type) else
      if type =? THRIFT_TYPE_MAP then
        '(key_type, value_type, count) ← thrift_read_map_begin;
        repeat_ok (Z.to_nat count) (thrift_skip fuel key_type;; thrift_skip fuel value_type) else
      if type =? THRIFT_TYPE_STRUCT then
        thrift_read_struct_begin;; while_field fuel (thrift_skip fuel);; thrift_read_struct_end else
      if type =? THRIFT_TYPE_UUID then skip_raw 16
      else set_error CARQUET_ERROR_THRIFT_INVALID_TYPE "Unknown type to skip"
  end.

Definition thrift_skip_field := thrift_skip.

Definition thrift_type_name (type : Z) : string :=
  match type with
  | 0 => "STOP" | 1 => "TRUE" | 2 => "FALSE" | 3 => "BYTE" | 4 => "I16" | 5 => "I32" | 6 => "I64"
  | 7 => "DOUBLE" | 8 => "BINARY" | 9 => "LIST" | 10 => "SET" | 11 => "MAP" | 12 => "STRUCT" | 13 => "UUID"
  | _ => "UNKNOWN"
  end%string.

(** ** Invariant and progress *)

Record td_wf (d : thrift_decoder_t) : Prop := {
  tw_reader : reader_wf (td_reader d);
  tw_bytes : bytes_ok (reader_data (td_reader d));
  tw_ids : length (td_last_field_id d) = 32%nat;
  tw_ids_ok : Forall (in_i 16) (td_last_field_id d);
  tw_level : 0 <= td_nesting_level d <= 32 }.

Abbreviation td_pos d := (reader_pos (td_reader d)).
Abbreviation td_ok d := (is_ok (td_status d) = true).

(** [d'] comes after [d]: same input, the cursor only moves forward, an error is never
    cleared, and without error at least [k] bytes were consumed. *)
Record td_step (k : Z) (d d' : thrift_decoder_t) : Prop := {
  ts_wf : td_wf d';
  ts_data : reader_data (td_reader d') = reader_data (td_reader d);
  ts_size : reader_size (td_reader d') = reader_size (td_reader d);
  ts_pos : td_pos d <= td_pos d';
  ts_ok : td_ok d' -> td_ok d /\ td_pos d + k <= td_pos d' }.

Definition runs {A} (m : tdec A) (k : Z) (Q : A -> Prop) : Prop :=
  forall d, td_wf d -> exists x d', m d = Some (x, d') /\ td_step k d d' /\ Q x.

Lemma td_step_refl d : td_wf d -> td_step 0 d d.
Proof. intros. split; auto; try lia. intros. split; [done|lia]. Qed.

Lemma td_step_trans j k d d1 d2 : 0 <= j -> 0 <= k -> td_step j d d1 -> td_step k d1 d2 -> td_step (j + k) d d2.
Proof.
  intros ? ? [] [? ? ? ? H2]. split; auto; try congruence; try lia.
  intros Hok. destruct (H2 Hok) as [Hok1 ?]. destruct (ts_ok0 Hok1). split; [done|lia].
Qed.

Lemma td_step_weaken j k d d' : k <= j -> td_step j d d' -> td_step k d d'.
Proof. intros ? [? ? ? ? H]. split; auto. intros Hok. destruct (H Hok). split; [done|lia]. Qed.

Section Runs.
Context {A B : Type}.
Implicit Types (m : tdec A) (f : A -> tdec B).

Lemma runs_weaken m j k (P Q : A -> Prop) : runs m j P -> k <= j -> (forall x, P x -> Q x) -> runs m k Q.
Proof.
  intros H Hk HQ d W. destruct (H d W) as (x & d' & E & S & HP). exists x, d'. split; [done|].
  split; [by apply (td_step_weaken j)|auto].
Qed.

Lemma runs_bind m f j k P (Q : B -> Prop) : 0 <= j -> 0 <= k -> runs m j P ->
  (forall x, P x -> runs (f x) k Q) -> runs (m ≫= f) (j + k) Q.
Proof.
  intros ? ? Hm Hf d W. destruct (Hm d W) as (x & d1 & E1 & S1 & HP).
  destruct (Hf x HP d1 (ts_wf _ _ _ S1)) as (y & d2 & E2 & S2 & HQ).
  exists y, d2. unfold mbind, tdec_bind. rewrite E1. split; [done|]. split; [by apply (td_step_trans j k d d1)|done].
Qed.

Lemma runs_ret (x : A) (Q : A -> Prop) : Q x -> runs (mret x) 0 Q.
Proof. intros HQ d W. exists x, d. split; [done|]. split; [by apply td_step_refl|done]. Qed.

Lemma runs_gets (g : thrift_decoder_t -> A) : runs (gets g) 0 (λ _, True).
Proof. intros d W. exists (g d), d. split; [done|]. split; [by apply td_step_refl|done]. Qed.

Lemma runs_if (b : bool) m m' k (Q : A -> Prop) : (b = true -> runs m k Q) -> (b = false -> runs m' k Q) ->
  runs (if b then m else m') k Q.
Proof. destruct b; auto. Qed.

End Runs.

(** An error satisfies any promise of progress. *)
Lemma runs_error (s : carquet_status_t) msg k : is_ok s = false -> runs (set_error s msg) k (λ _, True).
Proof.
  intros Hs d W. eexists _, _. split; [done|]. split; [|done]. cbn.
  destruct (is_ok (td_status d)) eqn:E.
  - destruct W. split; cbn; auto; try lia; [by split|]. rewrite Hs. done.
  - split; auto; [lia|]. rewrite E. done.
Qed.

Lemma runs_error_ret {A} s msg (x : A) k (Q : A -> Prop) : is_ok s = false -> 0 <= k -> Q x ->
  runs (set_error s msg;; mret x) k Q.
Proof.
  intros Hs Hk HQ. replace k with (k + 0) by lia. eapply (runs_bind _ _ k 0 (λ _, True)); [lia|lia|by apply runs_error|].
  intros _ _. by apply runs_ret.
Qed.

(** ** Every operation runs *)

Lemma advance_step d n : td_wf d -> 0 <= n -> td_pos d + n <= reader_size (td_reader d) ->
  td_step n d (set_reader (reader_advance (td_reader d) n) d).
Proof.
  intros [W Hb ? ? ?] Hn Hs. pose proof (reader_advance_wf _ _ W Hn Hs) as W'. destruct W as (? & ? & ?).
  assert (reader_pos (reader_advance (td_reader d) n) = td_pos d + n) as P by (cbn; rewrite u64_small; lia).
  split; cbn -[reader_advance]; rewrite ?P; auto; try lia. 
  - by split.
  - intros. split; [done|lia].
Qed.

Lemma has_bytes_spec d n : td_wf d -> 0 <= n <= 2 ^ 63 ->
  has_bytes n d = Some (td_pos d + n <=? reader_size (td_reader d), d).
Proof. intros [W _ _ _ _] Hn. unfold has_bytes, gets. by rewrite reader_has_spec. Qed.

Lemma read_byte_raw_spec d : td_wf d ->
  (exists b, rd (reader_data (td_reader d)) (td_pos d) = Some b /\ td_pos d < reader_size (td_reader d) /\
    read_byte_raw d = Some (b, set_reader (reader_advance (td_reader d) 1) d)) \/
  (td_pos d = reader_size (td_reader d) /\ exists d', read_byte_raw d = Some (0, d') /\ td_step 1 d d' /\ is_ok (td_status d') = false).
Proof.
  intros W. unfold read_byte_raw, mbind, tdec_bind. rewrite has_bytes_spec by (done || lia).
  destruct (W) as [(? & ? & ?) _ _ _ _]. destruct (Z.leb_spec (td_pos d + 1) (reader_size (td_reader d))); cbn [negb].
  - left. destruct (rd_Some (reader_data (td_reader d)) (td_pos d)) as [b E]; [lia|]. exists b.
    split; [done|]. split; [lia|]. unfold carquet_buffer_reader_read_byte, reader_fixed.
    rewrite reader_has_spec by (apply W || lia). decide_bool. unfold carquet_buffer_reader_peek.
    rewrite rd_drop by lia. rewrite Z.add_0_r, E. done.
  - right. split; [lia|].
    destruct (runs_error_ret CARQUET_ERROR_THRIFT_TRUNCATED "Unexpected end of data" 0 1 (λ _, True) eq_refl ltac:(lia) I d W)
      as (x & d' & E & S & _). exists d'. unfold set_error, modify, mbind, tdec_bind, mret, tdec_ret in E.
    injection E as <- <-. split; [done|]. split; [done|]. by destruct (is_ok (td_status d)) eqn:E.
Qed.

Lemma runs_read_byte_raw : runs read_byte_raw 1 (λ b, 0 <= b < 2 ^ 8).
Proof.
  intros d W. destruct (read_byte_raw_spec d W) as [(b & E & ? & ->)|(? & d' & -> & S & _)].
  - eexists _, _. split; [done|]. split; [apply advance_step; (done || lia)|]. by eapply rd_byte; [apply W|].
  - eexists _, _. split; [done|]. split; [done|lia].
Qed.

Lemma runs_thrift_varint_loop n : forall result shift, in_u 64 result -> runs (thrift_varint_loop n result shift) 1 (in_u 64).
Proof.
  assert (in_u 64 0) by (unfold in_u; lia).
  induction n as [|n IH]; intros result shift Hr; cbn [thrift_varint_loop]; [by apply runs_error_ret|].
  apply (runs_bind _ _ 0 1 (λ _, True)); [lia|lia|apply runs_gets|]. intros ok _.
  apply runs_if; intros _; [by apply runs_error_ret|].
  apply (runs_bind _ _ 1 0 (λ b, 0 <= b < 2 ^ 8)); [lia|lia|apply runs_read_byte_raw|]. intros b Hb.
  assert (in_u 64 (result .| u64 ((b .& 0x7F) ≪ shift))) by (apply lor_bound; [lia|done|apply u64_range]).
  apply runs_if; intros _; [by apply runs_ret|]. eapply runs_weaken; [by apply IH|lia|done].
Qed.

Lemma runs_read_varint : runs thrift_read_varint 1 (in_u 64).
Proof. apply runs_thrift_varint_loop. unfold in_u. lia. Qed.

Lemma runs_then {A B} (m : tdec A) (g : A -> B) k (P : A -> Prop) (Q : B -> Prop) : 0 <= k -> runs m k P ->
  (forall x, P x -> Q (g x)) -> runs (x ← m; mret (g x)) k Q.
Proof.
  intros Hk Hm HQ. replace k with (k + 0) by lia. apply (runs_bind _ _ k 0 P); [lia|lia|done|].
  intros x Hx. apply runs_ret. auto.
Qed.

Lemma runs_read_zigzag : runs thrift_read_zigzag 1 (in_i 64).
Proof. eapply runs_then; [lia|apply runs_read_varint|]. intros. apply wrap_signed_range. lia. Qed.

Lemma runs_read_i16 : runs thrift_read_i16 1 (in_i 16).
Proof. eapply runs_then; [lia|apply runs_read_zigzag|]. intros. apply wrap_signed_range. lia. Qed.

Lemma runs_skip_raw n : 0 <= n <= 2 ^ 63 -> runs (skip_raw n) 0 (λ _, True).
Proof.
  intros Hn d W. eexists _, _. split; [done|]. split; [|done]. unfold carquet_buffer_reader_skip.
  rewrite reader_has_spec by (apply W || lia). case_bool; cbn [negb snd].
  - apply (td_step_weaken n); [lia|]. apply advance_step; (done || lia).
  - assert (set_reader (td_reader d) d = d) as -> by (by destruct d). by apply td_step_refl.
Qed.

Lemma runs_read_binary : runs thrift_read_binary 1 (λ _, True).
Proof.
  unfold thrift_read_binary. apply (runs_bind _ _ 1 0 (in_u 64)); [lia|lia|apply runs_read_varint|]. intros v Hv.
  apply runs_if; intros E; [by apply runs_error_ret|].
  assert (in_i 32 (i32 v)) as R by (apply wrap_signed_range; lia). unfold in_i in R.
  apply (runs_bind _ _ 0 0 (λ _, True)); [lia|lia|apply runs_gets|]. intros ok _.
  apply runs_if; intros _; [by apply runs_error_ret|].
  apply (runs_bind _ _ 0 0 (λ _, True)); [lia|lia|apply runs_gets|]. intros data _.
  apply (runs_bind _ _ 0 0 (λ _, True)); [lia|lia|apply runs_skip_raw; lia|]. intros _ _. by apply runs_ret.
Qed.

Lemma runs_read_list_begin : runs thrift_read_list_begin 1 (λ _, True).
Proof.
  unfold thrift_read_list_begin. apply (runs_bind _ _ 1 0 (λ b, 0 <= b < 2 ^ 8)); [lia|lia|apply runs_read_byte_raw|].
  intros h Hh. apply (runs_bind _ _ 0 0 (λ _, True)); [lia|lia| |].
  { apply runs_if; intros _; [|by apply runs_ret]. apply (runs_weaken _ 1 0 (λ _, True)); [|lia|done].
    eapply runs_then; [lia|apply runs_read_varint|done]. }
  intros count _. apply runs_if; intros _; [by apply runs_error_ret|].
  apply (runs_bind _ _ 0 0 (λ _, True)); [lia|lia|apply runs_gets|]. intros r _.
  apply runs_if; intros _; [by apply runs_error_ret|by apply runs_ret].
Qed.

Lemma runs_read_map_begin : runs thrift_read_map_begin 1 (λ _, True).
Proof.
  unfold thrift_read_map_begin. apply (runs_bind _ _ 1 0 (in_u 64)); [lia|lia|apply runs_read_varint|].
  intros v Hv. apply runs_if; intros _; [by apply runs_error_ret|]. apply runs_if; intros _; [by apply runs_ret|].
  apply (runs_bind _ _ 0 0 (λ _, True)); [lia|lia|apply runs_gets|]. intros r _.
  apply runs_if; intros _; [by apply runs_error_ret|]. apply (runs_weaken _ 1 0 (λ _, True)); [|lia|done].
  eapply runs_then; [lia|apply runs_read_byte_raw|done].
Qed.

Lemma set_ids_step d ids level : td_wf d -> length ids = 32%nat -> Forall (in_i 16) ids -> 0 <= level <= 32 ->
  td_step 0 d (set_ids ids level d).
Proof. intros [] ? ? ?. split; cbn; auto; try lia; [by split|]. intros. split; [done|lia]. Qed.

Lemma set_bool_step d p v : td_wf d -> td_step 0 d (set_bool p v d).
Proof. intros []. split; cbn; auto; try lia; [by split|]. intros. split; [done|lia]. Qed.

Lemma wr_ids ids i v : length ids = 32%nat -> Forall (in_i 16) ids -> 0 <= i < 32 -> in_i 16 v ->
  exists ids', wr ids i v = Some ids' /\ length ids' = 32%nat /\ Forall (in_i 16) ids'.
Proof.
  intros Hl Hf Hi Hv. rewrite wr_Some by lia. eexists. split; [done|]. rewrite length_insert. split; [done|].
  by apply Forall_insert.
Qed.

Lemma runs_struct_begin : runs thrift_read_struct_begin 0 (λ _, True).
Proof.
  intros d W. unfold thrift_read_struct_begin, mbind, tdec_bind, gets. rewrite Z.geb_leb.
  destruct (Z.leb_spec THRIFT_MAX_NESTING (td_nesting_level d)) as [L|L]; [by apply runs_error|].
  unfold THRIFT_MAX_NESTING in L. destruct (W).
  destruct (wr_ids (td_last_field_id d) (td_nesting_level d) 0) as (ids & E & ? & ?);
    [done|done|lia|unfold in_i; lia|]. unfold checked. rewrite E. cbn.
  eexists _, _. split; [done|]. split; [|done]. apply set_ids_step; (done || lia).
Qed.

Lemma runs_struct_end : runs thrift_read_struct_end 0 (λ _, True).
Proof.
  intros d W. eexists _, _. split; [done|]. split; [|done]. rewrite Z.gtb_ltb. destruct (W). case_bool.
  - apply set_ids_step; (done || lia).
  - by apply td_step_refl.
Qed.

Lemma runs_set_bool p v : runs (modify (set_bool p v)) 0 (λ _, True).
Proof. intros d W. eexists _, _. split; [done|]. split; [by apply set_bool_step|done]. Qed.

(** Storing the field id at the current level. *)
Lemma runs_store_id level fid : in_i 16 fid -> level <= 32 ->
  runs (if level >? 0 then
          ids ← checked (λ d, wr (td_last_field_id d) (level - 1) fid); modify (set_ids ids level)
        else mret ()) 0 (λ _, True).
Proof.
  intros Hf Hl. rewrite Z.gtb_ltb. destruct (Z.ltb_spec 0 level); [|by apply runs_ret].
  intros d W. destruct (W). destruct (wr_ids (td_last_field_id d) (level - 1) fid) as (ids & E & ? & ?); [done|done|lia|done|].
  unfold mbind, tdec_bind, checked. rewrite E. cbn.
  eexists _, _. split; [done|]. split; [|done]. apply set_ids_step; (done || lia).
Qed.

Lemma runs_load_id level : level <= 32 ->
  runs (if level >? 0 then checked (λ d, rd (td_last_field_id d) (level - 1)) else mret 0) 0 (λ _, True).
Proof.
  intros Hl. rewrite Z.gtb_ltb. destruct (Z.ltb_spec 0 level); [|by apply runs_ret].
  intros d W. destruct (W). destruct (rd_Some (td_last_field_id d) (level - 1)) as [x E]; [lia|].
  unfold checked. rewrite E. eexists _, _. split; [done|]. split; [by apply td_step_refl|done].
Qed.

(** What follows the non-zero header byte. *)
Lemma runs_field_tail type delta :
  runs (level ← gets td_nesting_level;
    prev_field_id ← (if level >? 0 then checked (λ d, rd (td_last_field_id d) (level - 1)) else mret 0);
    field_id ← (if delta =? 0 then thrift_read_i16 else mret (i16 (prev_field_id + delta)));
    (if level >? 0 then
       ids ← checked (λ d, wr (td_last_field_id d) (level - 1) field_id);
       modify (set_ids ids level)
     else mret ());;
    (if type =? THRIFT_TYPE_TRUE then modify (set_bool true true)
     else if type =? THRIFT_TYPE_FALSE then modify (set_bool true false)
     else mret ());;
    mret (true, type, field_id)) 0 (λ r, r.1.1 = true).
Proof.
  intros d W. pose proof (tw_level d W) as HL. unfold mbind at 1, tdec_bind at 1, gets.
  generalize (td_nesting_level d) HL. clear HL. intros level HL. revert d W.
  apply (runs_bind _ _ 0 0 (λ _, True)); [lia|lia|apply runs_load_id; lia|]. intros prev _.
  apply (runs_bind _ _ 0 0 (in_i 16)); [lia|lia| |].
  { apply runs_if; intros _; [|apply runs_ret; apply wrap_signed_range; lia].
    apply (runs_weaken _ 1 0 (in_i 16)); [apply runs_read_i16|lia|done]. }
  intros fid Hf. apply (runs_bind _ _ 0 0 (λ _, True)); [lia|lia|apply runs_store_id; (done || lia)|]. intros _ _.
  apply (runs_bind _ _ 0 0 (λ _, True)); [lia|lia| |intros _ _; by apply runs_ret].
  apply runs_if; intros _; [apply runs_set_bool|]. apply runs_if; intros _; [apply runs_set_bool|by apply runs_ret].
Qed.

Lemma field_begin_spec d : td_wf d -> exists more type fid d', thrift_read_field_begin d = Some ((more, type, fid), d') /\
  td_step 0 d d' /\ (more = true -> td_ok d /\ td_step 1 d d').
Proof.
  intros W. unfold thrift_read_field_begin. unfold mbind at 1, tdec_bind at 1, gets at 1.
  destruct (is_ok (td_status d)) eqn:Hok; cbn [negb].
  2:{ eexists _, _, _, d. split; [done|]. split; [by apply td_step_refl|done]. }
  unfold mbind at 1, tdec_bind at 1. destruct (runs_read_byte_raw d W) as (h & d1 & E1 & S1 & Hh). rewrite E1.
  destruct (Z.eqb_spec h 0).
  { eexists _, _, _, d1. split; [done|]. split; [by apply (td_step_weaken 1)|done]. }
  destruct (runs_field_tail (h .& 0x0F) ((h ≫ 4) .& 0x0F) d1 (ts_wf _ _ _ S1)) as ([[m t] f] & d2 & E2 & S2 & Hm).
  exists m, t, f, d2. split; [exact E2|]. pose proof (td_step_trans 1 0 _ _ _ ltac:(lia) ltac:(lia) S1 S2) as S.
  split; [by apply (td_step_weaken (1 + 0))|]. intros _. by split; [|apply (td_step_weaken (1 + 0))].
Qed.

(** ** Skipping ends *)

(** Bytes that can still be read, plus one, or 0 after an error. *)
Definition td_measure (d : thrift_decoder_t) : Z :=
  if is_ok (td_status d) then reader_size (td_reader d) - td_pos d + 1 else 0.

Lemma td_measure_step k d d' : td_wf d -> 0 <= k -> td_step k d d' -> 
  0 <= td_measure d' <= td_measure d /\ (td_ok d -> 1 <= k -> td_measure d' < td_measure d).
Proof.
  intros [(? & ? & ?) _ _ _ _] Hk [[(? & ? & ?) _ _ _ _] _ ? ? HS]. unfold td_measure.
  destruct (is_ok (td_status d')) eqn:E'.
  - destruct (HS eq_refl) as [-> ?]. lia.
  - destruct (is_ok (td_status d)); split; lia || done.
Qed.

Lemma repeat_ok_total M body :
  (forall d, td_wf d -> td_ok d -> td_measure d <= M -> exists d', body d = Some ((), d') /\ td_step 0 d d') ->
  forall n d, td_wf d -> td_measure d <= M -> exists d', repeat_ok n body d = Some ((), d') /\ td_step 0 d d'.
Proof.
  intros Hb. induction n as [|n IH]; intros d W HM; cbn [repeat_ok]; [eexists; split; [done|by apply td_step_refl]|].
  unfold mbind at 1, tdec_bind at 1, gets. destruct (is_ok (td_status d)) eqn:Hok.
  2:{ eexists. split; [done|by apply td_step_refl]. }
  destruct (Hb d W Hok HM) as (d1 & E1 & S1). unfold mbind at 1, tdec_bind at 1. rewrite E1.
  destruct (td_measure_step 0 d d1 W ltac:(lia) S1) as [? _].
  destruct (IH d1 (ts_wf _ _ _ S1) ltac:(lia)) as (d2 & E2 & S2). exists d2. split; [done|].
  by apply (td_step_trans 0 0 _ d1).
Qed.

Lemma while_field_total body M :
  (forall type d, td_wf d -> td_measure d < M -> exists d', body type d = Some ((), d') /\ td_step 0 d d') ->
  forall fuel d, td_wf d -> td_measure d <= M -> td_measure d < Z.of_nat fuel ->
  exists d', while_field fuel body d = Some ((), d') /\ td_step 0 d d'.
Proof.
  intros Hb. induction fuel as [|fuel IH]; intros d W HM Hf.
  { pose proof (td_measure_step 0 d d W ltac:(lia) (td_step_refl d W)). lia. }
  cbn [while_field]. unfold mbind at 1, tdec_bind at 1.
  destruct (field_begin_spec d W) as (more & type & fid & d1 & E1 & S1 & H1). rewrite E1.
  destruct more; [|by eexists].
  destruct (H1 eq_refl) as [Hok S1']. destruct (td_measure_step 1 d d1 W ltac:(lia) S1') as [? HL]. specialize (HL Hok ltac:(lia)).
  unfold mbind at 1, tdec_bind at 1. destruct (Hb type d1 (ts_wf _ _ _ S1) ltac:(lia)) as (d2 & E2 & S2). rewrite E2.
  destruct (td_measure_step 0 d1 d2 (ts_wf _ _ _ S1) ltac:(lia) S2) as [? _].
  destruct (IH d2 (ts_wf _ _ _ S2) ltac:(lia) ltac:(lia)) as (d3 & E3 & S3). exists d3. split; [done|].
  apply (td_step_trans 0 0 _ d1); [lia|lia|done|]. by apply (td_step_trans 0 0 _ d2).
Qed.

Lemma skip_from_runs {A} (m : tdec A) k d : 0 <= k -> td_wf d -> runs m k (λ _, True) ->
  exists d', (m;; mret ()) d = Some ((), d') /\ td_step 0 d d'.
Proof.
  intros Hk W H. destruct (H d W) as (x & d' & E & S & _). exists d'. unfold mbind, tdec_bind. rewrite E.
  split; [done|by apply (td_step_weaken k)].
Qed.

Lemma skip_of_runs (m : tdec ()) d : td_wf d -> runs m 0 (λ _, True) -> exists d', m d = Some ((), d') /\ td_step 0 d d'.
Proof. intros W H. destruct (H d W) as ([] & d' & E & S & _). eauto. Qed.

Lemma skip_total fuel : forall type d, td_wf d -> td_measure d + 1 < Z.of_nat fuel ->
  exists d', thrift_skip fuel type d = Some ((), d') /\ td_step 0 d d'.
Proof.
  induction fuel as [|fuel IH]; intros type d W Hf.
  { pose proof (td_measure_step 0 d d W ltac:(lia) (td_step_refl d W)). lia. }
  cbn [thrift_skip]. unfold mbind at 1, tdec_bind at 1, gets.
  destruct (is_ok (td_status d)) eqn:Hok; cbn [negb]; [|eexists; split; [done|by apply td_step_refl]].
  destruct (type =? THRIFT_TYPE_STOP); [apply skip_of_runs; [done|by apply runs_error]|].
  destruct (_ || _); [eexists; split; [done|by apply set_bool_step]|].
  destruct (type =? THRIFT_TYPE_BYTE); [apply skip_of_runs; [done|apply runs_skip_raw; lia]|].
  destruct (_ || _); [apply (skip_from_runs _ 1); [lia|done|]; by apply (runs_weaken _ 1 1 (in_u 64)); [apply runs_read_varint|..]|].
  destruct (type =? THRIFT_TYPE_DOUBLE); [apply skip_of_runs; [done|apply runs_skip_raw; lia]|].
  destruct (type =? THRIFT_TYPE_BINARY); [apply (skip_from_runs _ 1); [lia|done|apply runs_read_binary]|].
  destruct (_ || _).
  { destruct (runs_read_list_begin d W) as ([et n] & d1 & E1 & S1 & _). unfold mbind at 1, tdec_bind at 1. rewrite E1.
    destruct (td_measure_step 1 d d1 W ltac:(lia) S1) as [? HL]. specialize (HL Hok ltac:(lia)).
    destruct (repeat_ok_total (td_measure d1) (thrift_skip fuel et)) with (n := Z.to_nat n) (d := d1)
      as (d2 & E2 & S2); [|apply S1|lia|].
    - intros d' W' _ ?. apply IH; [done|lia].
    - exists d2. split; [done|]. apply (td_step_trans 0 0 _ d1); [lia|lia|by apply (td_step_weaken 1)|done]. }
  destruct (type =? THRIFT_TYPE_MAP).
  { destruct (runs_read_map_begin d W) as ([[kt vt] n] & d1 & E1 & S1 & _). unfold mbind at 1, tdec_bind at 1. rewrite E1.
    destruct (td_measure_step 1 d d1 W ltac:(lia) S1) as [? HL]. specialize (HL Hok ltac:(lia)).
    destruct (repeat_ok_total (td_measure d1) (thrift_skip fuel kt;; thrift_skip fuel vt)) with (n := Z.to_nat n) (d := d1)
      as (d2 & E2 & S2); [|apply S1|lia|].
    - intros d' W' _ ?. destruct (IH kt d' W' ltac:(lia)) as (d3 & E3 & S3). unfold mbind, tdec_bind. rewrite E3.
      destruct (td_measure_step 0 d' d3 W' ltac:(lia) S3) as [? _].
      destruct (IH vt d3 (ts_wf _ _ _ S3) ltac:(lia)) as (d4 & E4 & S4). exists d4. split; [done|].
      by apply (td_step_trans 0 0 _ d3).
    - exists d2. split; [done|]. apply (td_step_trans 0 0 _ d1); [lia|lia|by apply (td_step_weaken 1)|done]. }
  destruct (type =? THRIFT_TYPE_STRUCT).
  { destruct (runs_struct_begin d W) as ([] & d1 & E1 & S1 & _). unfold mbind at 1, tdec_bind at 1. rewrite E1.
    destruct (td_measure_step 0 d d1 W ltac:(lia) S1) as [? _].
    destruct (while_field_total (thrift_skip fuel) (td_measure d1)) with (fuel := fuel) (d := d1) as (d2 & E2 & S2);
      [|apply S1|lia|lia|].
    - intros ty d' W' ?. apply IH; [done|lia].
    - unfold mbind at 1, tdec_bind at 1. rewrite E2.
      destruct (runs_struct_end d2 (ts_wf _ _ _ S2)) as ([] & d3 & E3 & S3 & _). exists d3. split; [done|].
      apply (td_step_trans 0 0 _ d1); [lia|lia|done|]. by apply (td_step_trans 0 0 _ d2). }
  destruct (type =? THRIFT_TYPE_UUID); [apply skip_of_runs; [done|apply runs_skip_raw; lia]|].
  apply skip_of_runs; [done|by apply runs_error].
Qed.

(** ** Properties *)

(** C38: skipping an unknown field always ends and stays in bounds.  On any bytes, of any
    declared type, [thrift_skip] returns (with recursion depth at most the bytes left
    plus three), never reads outside the input, never moves the cursor backwards or past
    the end, keeps the nesting level in its array, and never clears an error. *)
Theorem thrift_skip_total type d fuel : td_wf d -> reader_size (td_reader d) - td_pos d + 3 <= Z.of_nat fuel ->
  exists d', thrift_skip fuel type d = Some ((), d') /\ td_wf d' /\
    reader_data (td_reader d') = reader_data (td_reader d) /\
    td_pos d <= td_pos d' <= reader_size (td_reader d) /\
    (is_ok (td_status d') = true -> is_ok (td_status d) = true).
Proof.
  intros W Hf. destruct (W) as [(? & ? & ?) _ _ _ _].
  destruct (skip_total fuel type d W) as (d' & E & [W' HD HS HP HO]).
  { unfold td_measure. destruct (is_ok (td_status d)); lia. }
  exists d'. split; [done|]. split; [done|]. split; [done|]. destruct (W') as [(? & ? & ?) _ _ _ _].
  split; [lia|]. intros Hok. by apply HO.
Qed.

Lemma thrift_decoder_init_wf data size : bytes_ok data -> 0 <= size <= lenZ data -> size < 2 ^ 63 ->
  td_wf (thrift_decoder_init data size).
Proof.
  intros. split; cbn -[replicate]; auto; try lia.
  - unfold reader_wf. cbn. lia.
  - apply Forall_replicate. unfold in_i. lia.
Qed.

Lemma thrift_skip_total_witness :
  exists d', thrift_skip 9 THRIFT_TYPE_STRUCT (thrift_decoder_init [0x18; 3; 97; 98; 99; 0] 6) = Some ((), d') /\
    td_pos d' <= 6.
Proof.
  destruct (thrift_skip_total THRIFT_TYPE_STRUCT (thrift_decoder_init [0x18; 3; 97; 98; 99; 0] 6) 9) as (d' & E & _ & _ & HP & _).
  - apply thrift_decoder_init_wf; [apply (bool_decide_unpack _); vm_compute; exact I|cbn; lia|lia].
  - cbn. lia.
  - exists d'. split; [exact E|exact (proj2 HP)].
Defined.
