(* ===== verification/ThriftEncode.v ===== *)
(** * Thrift compact protocol, encoding (carquet/thrift/thrift_encode.c)

    The writer appends to a growable buffer and remembers the first failure in a sticky
    status.  The file gives every operation, the bytes each one stands for, and the
    theorem that a writer whose status is still OK has stored all of them. *)

From S2P Require Import Prelude Status Endian Buffer.

Definition THRIFT_ENCODER_MAX_NESTING : Z := 32.

Section Encoder.
Context {A : Allocator}.

Record thrift_encoder_t := mk_thrift_encoder {
  te_buffer : carquet_buffer_t;
  te_last_field_id : list Z;   (* int16_t[THRIFT_ENCODER_MAX_NESTING] *)
  te_nesting_level : Z;
  te_status : carquet_status_t }.

Definition enc_set_error (enc : thrift_encoder_t) (status : carquet_status_t) : thrift_encoder_t :=
  if is_ok (te_status enc)
  then mk_thrift_encoder (te_buffer enc) (te_last_field_id enc) (te_nesting_level enc) status else enc.

Definition thrift_encoder_init (buffer : carquet_buffer_t) : thrift_encoder_t :=
  mk_thrift_encoder buffer (replicate 32 0) 0 CARQUET_OK.

Definition thrift_encoder_has_error (enc : thrift_encoder_t) : bool := negb (is_ok (te_status enc)).
Definition thrift_encoder_size (enc : thrift_encoder_t) : Z := buf_size (te_buffer enc).

(** [if (carquet_buffer_append(...) != CARQUET_OK) set_error(enc, OUT_OF_MEMORY)] *)
Definition enc_append (enc : thrift_encoder_t) (bs : list Z) : thrift_encoder_t :=
  let '(status, buffer) := carquet_buffer_append (te_buffer enc) bs in
  let enc := mk_thrift_encoder buffer (te_last_field_id enc) (te_nesting_level enc) (te_status enc) in
  if is_ok status then enc else enc_set_error enc CARQUET_ERROR_OUT_OF_MEMORY.

(** ** Varints and primitive values *)

(** The loop is that of [carquet_encode_varint64], into [buf[10]]. *)
Definition thrift_write_varint (enc : thrift_encoder_t) (value : Z) : option thrift_encoder_t :=
  buf ← encode_varint_loop 10 value; Some (enc_append enc buf).

Definition thrift_write_zigzag (enc : thrift_encoder_t) (value : Z) : option thrift_encoder_t :=
  thrift_write_varint enc (carquet_zigzag_encode64 value).

Definition thrift_write_byte (enc : thrift_encoder_t) (value : Z) : thrift_encoder_t := enc_append enc [u8 value].

Definition thrift_write_i16 := thrift_write_zigzag.
Definition thrift_write_i32 := thrift_write_zigzag.
Definition thrift_write_i64 := thrift_write_zigzag.

Definition thrift_write_double (enc : thrift_encoder_t) (bits : Z) : thrift_encoder_t :=
  enc_append enc (carquet_write_f64_le bits).

Definition thrift_write_bool (enc : thrift_encoder_t) (value : bool) : thrift_encoder_t :=
  thrift_write_byte enc (if value then 1 else 0).

Definition thrift_write_binary (enc : thrift_encoder_t) (data : option (list Z)) (length : Z)
    : option thrift_encoder_t :=
  enc ← thrift_write_varint enc (u64 length);
  match data with
  | Some p => if length >? 0 then bs ← rd_n p 0 length; Some (enc_append enc bs) else Some enc
  | None => Some enc
  end.

(** [str] is the characters before the terminator, [None] the null pointer. *)
Definition thrift_write_string (enc : thrift_encoder_t) (str : option (list Z)) : option thrift_encoder_t :=
  match str with
  | None => thrift_write_binary enc None 0
  | Some s => thrift_write_binary enc (Some s) (i32 (lenZ s))
  end.

Definition thrift_write_uuid (enc : thrift_encoder_t) (uuid : list Z) : option thrift_encoder_t :=
  bs ← rd_n uuid 0 16; Some (enc_append enc bs).

(** ** Structs *)

Definition thrift_write_struct_begin (enc : thrift_encoder_t) : option thrift_encoder_t :=
  if te_nesting_level enc >=? THRIFT_ENCODER_MAX_NESTING then Some (enc_set_error enc CARQUET_ERROR_THRIFT_ENCODE)
  else
    ids ← wr (te_last_field_id enc) (te_nesting_level enc) 0;
    Some (mk_thrift_encoder (te_buffer enc) ids (te_nesting_level enc + 1) (te_status enc)).

Definition thrift_write_field_stop (enc : thrift_encoder_t) : thrift_encoder_t := thrift_write_byte enc 0.

Definition thrift_write_struct_end (enc : thrift_encoder_t) : thrift_encoder_t :=
  let enc := thrift_write_field_stop enc in
  if te_nesting_level enc >? 0
  then mk_thrift_encoder (te_buffer enc) (te_last_field_id enc) (te_nesting_level enc - 1) (te_status enc)
  else enc.

Definition thrift_write_field_header (enc : thrift_encoder_t) (type field_id : Z) : option thrift_encoder_t :=
  last_id ← (if te_nesting_level enc >? 0 then rd (te_last_field_id enc) (te_nesting_level enc - 1) else Some 0);
  let delta := i16 (field_id - last_id) in
  enc ← (if (delta >? 0) && (delta <=? 15) then
           let header := u8 (((delta .& 0x0F) ≪ 4) .| (type .& 0x0F)) in
           Some (thrift_write_byte enc (i8 header))
         else
           let enc := thrift_write_byte enc (i8 (type .& 0x0F)) in
           thrift_write_i16 enc field_id);
  if te_nesting_level enc >? 0 then
    ids ← wr (te_last_field_id enc) (te_nesting_level enc - 1) field_id;
    Some (mk_thrift_encoder (te_buffer enc) ids (te_nesting_level enc) (te_status enc))
  else Some enc.

(** ** Containers *)

Definition thrift_write_list_begin (enc : thrift_encoder_t) (elem_type count : Z) : option thrift_encoder_t :=
  if count <? 15 then
    let header := u8 (((count .& 0x0F) ≪ 4) .| (elem_type .& 0x0F)) in
    Some (thrift_write_byte enc (i8 header))
  else
    let header := u8 ((0x0F ≪ 4) .| (elem_type .& 0x0F)) in
    thrift_write_varint (thrift_write_byte enc (i8 header)) (u64 count).

Definition thrift_write_set_begin := thrift_write_list_begin.

Definition thrift_write_map_begin (enc : thrift_encoder_t) (key_type value_type count : Z) : option thrift_encoder_t :=
  if count =? 0 then Some (thrift_write_byte enc 0) else
  enc ← thrift_write_varint enc (u64 count);
  let types := u8 (((key_type .& 0x0F) ≪ 4) .| (value_type .& 0x0F)) in
  Some (thrift_write_byte enc (i8 types)).

(** ** Programs of the writer *)

Inductive wop :=
  | WByte (v : Z) | WI16 (v : Z) | WI32 (v : Z) | WI64 (v : Z) | WDouble (bits : Z) | WBool (b : bool)
  | WBinary (bs : list Z) | WString (s : option (list Z)) | WUuid (bs : list Z)
  | WStructBegin | WStructEnd | WField (type id : Z) | WStop
  | WList (type count : Z) | WSet (type count : Z) | WMap (kt vt count : Z).

Definition run_wop (enc : thrift_encoder_t) (op : wop) : option thrift_encoder_t :=
  match op with
  | WByte v => Some (thrift_write_byte enc v)
  | WI16 v => thrift_write_i16 enc v
  | WI32 v => thrift_write_i32 enc v
  | WI64 v => thrift_write_i64 enc v
  | WDouble v => Some (thrift_write_double enc v)
  | WBool b => Some (thrift_write_bool enc b)
  | WBinary bs => thrift_write_binary enc (Some bs) (lenZ bs)
  | WString s => thrift_write_string enc s
  | WUuid bs => thrift_write_uuid enc bs
  | WStructBegin => thrift_write_struct_begin enc
  | WStructEnd => Some (thrift_write_struct_end enc)
  | WField t id => thrift_write_field_header enc t id
  | WStop => Some (thrift_write_field_stop enc)
  | WList t n => thrift_write_list_begin enc t n
  | WSet t n => thrift_write_set_begin enc t n
  | WMap k v n => thrift_write_map_begin enc k v n
  end.

Fixpoint run_wops (enc : thrift_encoder_t) (ops : list wop) : option thrift_encoder_t :=
  match ops with [] => Some enc | op :: ops => enc ← run_wop enc op; run_wops enc ops end.

End Encoder.

(** ** What the operations stand for

    The stack of last field ids, innermost first; the bytes of an operation and the
    stack after it. *)

Definition wop_ok (op : wop) : Prop :=
  match op with
  | WByte v => in_i 8 v
  | WI16 v => in_i 16 v
  | WI32 v => in_i 32 v
  | WI64 v => in_i 64 v
  | WDouble v => in_u 64 v
  | WBinary bs => bytes_ok bs /\ lenZ bs < 2 ^ 31
  | WString s => match s with Some bs => bytes_ok bs /\ lenZ bs < 2 ^ 31 | None => True end
  | WUuid bs => bytes_ok bs /\ length bs = 16%nat
  | WField t id => 0 <= t < 16 /\ in_i 16 id
  | WList t n | WSet t n => 0 <= t < 16 /\ 0 <= n < 2 ^ 31
  | WMap k v n => 0 <= k < 16 /\ 0 <= v < 16 /\ 0 <= n < 2 ^ 31
  | _ => True
  end.

Definition zz (v : Z) : list Z := uleb (carquet_zigzag_encode64 v).

Definition field_bytes (last type id : Z) : list Z :=
  let delta := i16 (id - last) in
  if (0 <? delta) && (delta <=? 15) then [delta * 16 + type] else type :: zz id.

Definition list_bytes (type count : Z) : list Z :=
  if count <? 15 then [count * 16 + type] else (240 + type) :: uleb count.

Definition map_bytes (kt vt count : Z) : list Z :=
  if count =? 0 then [0] else uleb count ++ [kt * 16 + vt].

Definition wop_bytes (stack : list Z) (op : wop) : list Z :=
  match op with
  | WByte v => [u8 v]
  | WI16 v | WI32 v | WI64 v => zz v
  | WDouble v => le_bytes 8 v
  | WBool b => [if b then 1 else 0]
  | WBinary bs => uleb (lenZ bs) ++ bs
  | WString s => let bs := default [] s in uleb (lenZ bs) ++ bs
  | WUuid bs => bs
  | WStructBegin => []
  | WStructEnd | WStop => [0]
  | WField t id => field_bytes (default 0 (head stack)) t id
  | WList t n | WSet t n => list_bytes t n
  | WMap k v n => map_bytes k v n
  end.

Definition wop_stack (stack : list Z) (op : wop) : list Z :=
  match op with
  | WStructBegin => 0 :: stack
  | WStructEnd => tail stack
  | WField _ id => match stack with [] => [] | _ :: s => id :: s end
  | _ => stack
  end.

Fixpoint wops_bytes (stack : list Z) (ops : list wop) : list Z :=
  match ops with [] => [] | op :: ops => wop_bytes stack op ++ wops_bytes (wop_stack stack op) ops end.

(** ** The writer stores what the operations stand for *)

Lemma nibbles d t : 0 <= d < 16 -> 0 <= t < 16 -> u8 (((d .& 0x0F) ≪ 4) .| (t .& 0x0F)) = d * 16 + t.
Proof.
  intros Hd Ht. change 0x0F with (2 ^ 4 - 1). rewrite !land_ones_mod, !Z.mod_small by lia.
  rewrite Z.lor_comm, lor_add by lia. rewrite u8_small by lia. lia.
Qed.

Lemma u8_i8 x : 0 <= x < 2 ^ 8 -> u8 (i8 x) = x.
Proof. intros. unfold u8, i8. rewrite wrap_signed_mod by lia. by apply Z.mod_small. Qed.

Section EncoderOk.
Context {A : Allocator} {AOk : AllocatorOk A}.

Record enc_wf (enc : thrift_encoder_t) : Prop := {
  ew_buffer : buffer_wf (te_buffer enc);
  ew_ids : length (te_last_field_id enc) = 32%nat;
  ew_ids_ok : Forall (in_i 16) (te_last_field_id enc);
  ew_level : 0 <= te_nesting_level enc <= 32 }.

Definition enc_bytes (enc : thrift_encoder_t) : list Z := buf_bytes (te_buffer enc).
Definition enc_stack (enc : thrift_encoder_t) : list Z :=
  reverse (take (Z.to_nat (te_nesting_level enc)) (te_last_field_id enc)).

(** With an allocator that serves every request, storing [bs] does not fail. *)
Definition never_fails (bs : list Z) (enc enc' : thrift_encoder_t) : Prop :=
  AllocatorTotal A -> buf_owns_data (te_buffer enc) = true -> is_ok (te_status enc) = true -> lenZ (enc_bytes enc) + lenZ bs < 2 ^ 64 ->
  is_ok (te_status enc') = true /\ buf_owns_data (te_buffer enc') = true.

(** [enc'] is [enc] after an attempt to store [bs]. *)
Record wrote (bs : list Z) (enc enc' : thrift_encoder_t) : Prop := {
  wt_wf : enc_wf enc';
  wt_ids : te_last_field_id enc' = te_last_field_id enc;
  wt_level : te_nesting_level enc' = te_nesting_level enc;
  wt_ok : is_ok (te_status enc') = true -> is_ok (te_status enc) = true /\ enc_bytes enc' = enc_bytes enc ++ bs;
  wt_total : never_fails bs enc enc' }.

Lemma wrote_trans bs1 bs2 e e1 e2 : wrote bs1 e e1 -> wrote bs2 e1 e2 -> wrote (bs1 ++ bs2) e e2.
Proof.
  intros [? ? ? H1 T1] [? ? ? H2 T2]. split; [done|congruence|congruence| |].
  - intros Hok. destruct (H2 Hok) as [Hok1 E2]. destruct (H1 Hok1) as [? E1]. split; [done|]. by rewrite E2, E1, app_assoc.
  - intros AT Ho Hok Hl. rewrite length_app in Hl. destruct (T1 AT Ho Hok) as [O1 Ho1]; [lia|].
    apply (T2 AT Ho1 O1). destruct (H1 O1) as [_ ->]. rewrite length_app. lia.
Qed.

Lemma enc_append_wrote enc bs : enc_wf enc -> bytes_ok bs -> lenZ bs < 2 ^ 64 -> wrote bs enc (enc_append enc bs).
Proof.
  intros [W ? ? ?] Hb Hl. unfold enc_append. destruct (carquet_buffer_append (te_buffer enc) bs) as [s b] eqn:E.
  destruct (append_spec _ _ _ _ W Hb Hl E) as [(-> & W' & B)|(-> & ->)]; cbn.
  - split; cbn; [by split|done|done|intros Hok; split; [done|exact B]|]. intros AT Ho Hok Hsz. split; [done|].
    unfold enc_bytes in Hsz. rewrite buf_bytes_length in Hsz by done. destruct (append_total _ bs W Ho Hb Hsz) as (b' & E' & _ & Ho' & _).
    rewrite E in E'. by injection E' as ->.
  - assert (never_fails bs enc (enc_append enc bs)) as T.
    { intros AT Ho Hok Hsz. unfold enc_bytes in Hsz. rewrite buf_bytes_length in Hsz by done.
      destruct (append_total _ bs W Ho Hb Hsz) as (b' & E' & _). rewrite E in E'. discriminate. }
    unfold enc_append in T. rewrite E in T. cbn in T. revert T. unfold enc_set_error. cbn.
    destruct (is_ok (te_status enc)) eqn:Hok; intros T; split; cbn; try done; by rewrite Hok.
Qed.

Lemma write_byte_wrote enc v : enc_wf enc -> wrote [u8 v] enc (thrift_write_byte enc v).
Proof.
  intros W. apply enc_append_wrote; [done| |cbn; lia]. constructor; [apply u8_range|done].
Qed.

Lemma write_i8_wrote enc v : enc_wf enc -> 0 <= v < 2 ^ 8 -> wrote [v] enc (thrift_write_byte enc (i8 v)).
Proof. intros W Hv. rewrite <- (u8_i8 v Hv) at 1. by apply write_byte_wrote. Qed.

Lemma write_varint_wrote enc v : enc_wf enc -> in_u 64 v ->
  exists enc', thrift_write_varint enc v = Some enc' /\ wrote (uleb v) enc enc'.
Proof.
  intros W Hv. unfold thrift_write_varint. fold (carquet_encode_varint64 v). rewrite (encode_varint64_uleb v Hv). eexists. split; [done|].
  unfold in_u in Hv. pose proof (length_uleb v). apply enc_append_wrote; [done|apply uleb_ok; lia|lia].
Qed.

Lemma write_zigzag_wrote enc v : enc_wf enc -> in_i 64 v ->
  exists enc', thrift_write_zigzag enc v = Some enc' /\ wrote (zz v) enc enc'.
Proof. intros W Hv. apply write_varint_wrote; [done|by apply zigzag_encode64_range]. Qed.

Lemma write_binary_wrote enc bs : enc_wf enc -> bytes_ok bs -> lenZ bs < 2 ^ 31 ->
  exists enc', thrift_write_binary enc (Some bs) (lenZ bs) = Some enc' /\ wrote (uleb (lenZ bs) ++ bs) enc enc'.
Proof.
  intros W Hb Hl. unfold thrift_write_binary. rewrite u64_small by lia.
  destruct (write_varint_wrote enc (lenZ bs) W) as (e1 & -> & H1); [unfold in_u; lia|]. cbn [mbind option_bind].
  rewrite Z.gtb_ltb. destruct (Z.ltb_spec 0 (lenZ bs)).
  - rewrite rd_n_Some by lia. cbn [mbind option_bind]. change (Z.to_nat 0) with 0%nat.
    rewrite drop_0, take_ge by lia. eexists. split; [done|]. eapply wrote_trans; [done|].
    apply enc_append_wrote; [apply H1|done|lia].
  - destruct bs; [|cbn in *; lia]. rewrite app_nil_r. by eexists.
Qed.

Lemma wrote_stack bs e e' : wrote bs e e' -> enc_stack e' = enc_stack e.
Proof. intros [_ E1 E2 _ _]. unfold enc_stack. by rewrite E1, E2. Qed.

(** One operation. *)
Definition stepped (enc : thrift_encoder_t) (op : wop) (enc' : thrift_encoder_t) : Prop :=
  enc_wf enc' /\ (is_ok (te_status enc') = true ->
    is_ok (te_status enc) = true /\ enc_bytes enc' = enc_bytes enc ++ wop_bytes (enc_stack enc) op /\
    enc_stack enc' = wop_stack (enc_stack enc) op) /\
  ((op = WStructBegin -> length (enc_stack enc) < 32)%nat -> never_fails (wop_bytes (enc_stack enc) op) enc enc').

Lemma stepped_wrote enc op enc' : wrote (wop_bytes (enc_stack enc) op) enc enc' ->
  wop_stack (enc_stack enc) op = enc_stack enc -> stepped enc op enc'.
Proof.
  intros H E. pose proof (wrote_stack _ _ _ H) as ES. destruct H as [W _ _ H T]. split; [done|]. split; [|done]. intros Hok.
  destruct (H Hok). rewrite E, ES. done.
Qed.

Lemma struct_begin_stepped enc : enc_wf enc ->
  exists enc', thrift_write_struct_begin enc = Some enc' /\ stepped enc WStructBegin enc'.
Proof.
  intros W. destruct (W) as [? HL HF ?]. unfold thrift_write_struct_begin, THRIFT_ENCODER_MAX_NESTING. rewrite Z.geb_leb.
  case_bool.
  - assert (length (enc_stack enc) = 32%nat) as E32 by (unfold enc_stack; rewrite length_reverse, length_take; lia).
    eexists. split; [done|]. split; [|split].
    + unfold enc_set_error. destruct (is_ok (te_status enc)); [by split|done].
    + unfold enc_set_error. destruct (is_ok (te_status enc)) eqn:E; [done|]. by rewrite E.
    + intros Hn. specialize (Hn eq_refl). lia.
  - rewrite wr_Some by lia. cbn. eexists. split; [done|]. split; [|split; [|done]].
    + split; cbn; [done|by rewrite length_insert|apply Forall_insert; [done|unfold in_i; lia]|lia].
    + cbn. intros Hok. split; [done|]. split; [by rewrite app_nil_r|]. unfold enc_stack. cbn.
      replace (Z.to_nat (te_nesting_level enc + 1)) with (S (Z.to_nat (te_nesting_level enc))) by lia.
      rewrite (take_S_r _ _ 0) by (apply list_lookup_insert_eq; lia).
      rewrite take_insert_ge by lia. by rewrite reverse_snoc.
Qed.

Lemma struct_end_stepped enc : enc_wf enc -> stepped enc WStructEnd (thrift_write_struct_end enc).
Proof.
  intros W. pose proof (write_byte_wrote enc 0 W) as H. unfold thrift_write_struct_end, thrift_write_field_stop.
  set (e := thrift_write_byte enc 0) in *. pose proof (wrote_stack _ _ _ H) as ES. destruct H as [We Ei El Ho T].
  destruct (We) as [? HL HF ?]. rewrite Z.gtb_ltb. case_bool.
  - split; [split; cbn; (done || lia)|]. cbn. split; [|intros _; exact T]. intros Hok. destruct (Ho Hok) as [? EB]. split; [done|].
    split; [exact EB|]. rewrite <- ES. unfold enc_stack. cbn.
    destruct (lookup_lt_is_Some_2 (te_last_field_id e) (Z.to_nat (te_nesting_level e - 1))) as [x Hx]; [lia|].
    replace (Z.to_nat (te_nesting_level e)) with (S (Z.to_nat (te_nesting_level e - 1))) by lia.
    by rewrite (take_S_r _ _ _ Hx), reverse_snoc.
  - split; [done|]. split; [|intros _; exact T]. intros Hok. destruct (Ho Hok) as [? EB]. split; [done|]. split; [exact EB|].
    rewrite ES. cbn. unfold enc_stack. replace (te_nesting_level enc) with 0 by lia. done.
Qed.

Lemma enc_stack_top enc : enc_wf enc -> 0 < te_nesting_level enc ->
  exists x, rd (te_last_field_id enc) (te_nesting_level enc - 1) = Some x /\ in_i 16 x /\
    enc_stack enc = x :: reverse (take (Z.to_nat (te_nesting_level enc - 1)) (te_last_field_id enc)).
Proof.
  intros [? HL HF ?] Hl. rewrite rd_lookup by lia.
  destruct (lookup_lt_is_Some_2 (te_last_field_id enc) (Z.to_nat (te_nesting_level enc - 1))) as [x Hx]; [lia|].
  exists x. split; [done|]. split; [exact (Forall_lookup_1 _ _ _ _ HF Hx)|]. unfold enc_stack.
  replace (Z.to_nat (te_nesting_level enc)) with (S (Z.to_nat (te_nesting_level enc - 1))) by lia.
  by rewrite (take_S_r _ _ _ Hx), reverse_snoc.
Qed.

(** The header bytes. *)
Lemma header_wrote enc last type id : enc_wf enc -> 0 <= type < 16 -> in_i 16 id ->
  let delta := i16 (id - last) in
  exists enc', (if (delta >? 0) && (delta <=? 15) then
      Some (thrift_write_byte enc (i8 (u8 (((delta .& 0x0F) ≪ 4) .| (type .& 0x0F)))))
    else thrift_write_i16 (thrift_write_byte enc (i8 (type .& 0x0F))) id) = Some enc' /\
  wrote (field_bytes last type id) enc enc'.
Proof.
  intros W Ht Hid delta. unfold field_bytes. fold delta. rewrite Z.gtb_ltb.
  destruct (Z.ltb_spec 0 delta); [destruct (Z.leb_spec delta 15)|]; cbn [andb].
  { rewrite nibbles by lia. eexists. split; [done|]. apply write_i8_wrote; [done|lia]. }
  all: change 0x0F with (2 ^ 4 - 1); rewrite land_ones_mod, Z.mod_small by lia;
    pose proof (write_i8_wrote enc type W ltac:(lia)) as H1;
    (destruct (write_zigzag_wrote (thrift_write_byte enc (i8 type)) id) as (e2 & E2 & H2); [apply H1|unfold in_i in *; lia|]);
    exists e2; (split; [exact E2|]); change (type :: zz id) with ([type] ++ zz id); by eapply wrote_trans.
Qed.

Lemma field_header_stepped enc type id : enc_wf enc -> 0 <= type < 16 -> in_i 16 id ->
  exists enc', thrift_write_field_header enc type id = Some enc' /\ stepped enc (WField type id) enc'.
Proof.
  intros W Ht Hid. unfold thrift_write_field_header. rewrite Z.gtb_ltb. destruct (Z.ltb_spec 0 (te_nesting_level enc)) as [Hl|Hl].
  - destruct (enc_stack_top enc W Hl) as (x & E & _ & ES). rewrite E. cbn [mbind option_bind].
    destruct (header_wrote enc x type id W Ht Hid) as (e1 & E1 & H1). rewrite E1. cbn [mbind option_bind].
    destruct H1 as [W1 I1 L1 O1 T1]. rewrite L1, I1, Z.gtb_ltb. decide_bool. destruct (W) as [? HL HF ?].
    rewrite wr_Some by lia. cbn [mbind option_bind]. eexists. split; [done|]. split; [|split].
    + split; cbn; [apply W1|by rewrite length_insert|by apply Forall_insert|lia].
    + cbn [te_status]. intros Hok. destruct (O1 Hok) as [? EB]. split; [done|]. cbn [wop_bytes wop_stack]. rewrite ES.
      split; [exact EB|]. unfold enc_stack. cbn.
      replace (Z.to_nat (te_nesting_level enc)) with (S (Z.to_nat (te_nesting_level enc - 1))) by lia.
      rewrite (take_S_r _ _ id) by (apply list_lookup_insert_eq; lia).
      rewrite take_insert_ge by lia. by rewrite reverse_snoc.
    + intros _. cbn [wop_bytes]. rewrite ES. exact T1.
  - cbn [mbind option_bind]. destruct (header_wrote enc 0 type id W Ht Hid) as (e1 & E1 & H1). rewrite E1.
    cbn [mbind option_bind]. rewrite Z.gtb_ltb, (wt_level _ _ _ H1). decide_bool. eexists. split; [done|].
    assert (enc_stack enc = []) as ES.
    { unfold enc_stack. destruct W. replace (te_nesting_level enc) with 0 by lia. done. }
    apply stepped_wrote; rewrite ES; done.
Qed.

Lemma list_begin_wrote enc t n : enc_wf enc -> 0 <= t < 16 -> 0 <= n < 2 ^ 31 ->
  exists enc', thrift_write_list_begin enc t n = Some enc' /\ wrote (list_bytes t n) enc enc'.
Proof.
  intros W Ht Hn. unfold thrift_write_list_begin, list_bytes. case_bool.
  - rewrite nibbles by lia. eexists. split; [done|]. apply write_i8_wrote; [done|lia].
  - change 0x0F with (15 .& 0x0F) at 1. rewrite nibbles, u64_small by lia. change (15 * 16) with 240.
    pose proof (write_i8_wrote enc (240 + t) W ltac:(lia)) as H1.
    destruct (write_varint_wrote (thrift_write_byte enc (i8 (240 + t))) n) as (e2 & E2 & H2); [apply H1|unfold in_u; lia|].
    exists e2. split; [exact E2|]. change (240 + t :: uleb n) with ([240 + t] ++ uleb n). by eapply wrote_trans.
Qed.

Lemma map_begin_wrote enc k v n : enc_wf enc -> 0 <= k < 16 -> 0 <= v < 16 -> 0 <= n < 2 ^ 31 ->
  exists enc', thrift_write_map_begin enc k v n = Some enc' /\ wrote (map_bytes k v n) enc enc'.
Proof.
  intros W Hk Hv Hn. unfold thrift_write_map_begin, map_bytes. destruct (Z.eqb_spec n 0).
  - eexists. split; [done|]. by apply (write_byte_wrote enc 0).
  - rewrite u64_small, nibbles by lia.
    destruct (write_varint_wrote enc n) as (e1 & -> & H1); [done|unfold in_u; lia|]. cbn [mbind option_bind].
    eexists. split; [done|]. eapply wrote_trans; [done|]. apply write_i8_wrote; [apply H1|lia].
Qed.

Lemma wop_stepped enc op : enc_wf enc -> wop_ok op -> exists enc', run_wop enc op = Some enc' /\ stepped enc op enc'.
Proof.
  assert (forall P enc op, (exists enc', P = Some enc' /\ wrote (wop_bytes (enc_stack enc) op) enc enc') ->
    wop_stack (enc_stack enc) op = enc_stack enc -> exists enc', P = Some enc' /\ stepped enc op enc') as L.
  { intros P e o (e' & E & H) Hs. exists e'. split; [done|by apply stepped_wrote]. }
  intros W Hop. destruct op; cbn [run_wop wop_ok] in *.
  - apply L; [|done]. eexists. split; [done|]. by apply write_byte_wrote.
  - apply L; [|done]. apply write_zigzag_wrote; [done|unfold in_i in *; lia].
  - apply L; [|done]. apply write_zigzag_wrote; [done|unfold in_i in *; lia].
  - apply L; [|done]. by apply write_zigzag_wrote.
  - apply L; [|done]. eexists. split; [done|]. unfold thrift_write_double. change (carquet_write_f64_le bits) with (le_bytes 8 bits).
    apply enc_append_wrote; [done|apply le_bytes_ok|rewrite length_le_bytes; lia].
  - apply L; [|done]. eexists. split; [done|]. destruct b; [by apply (write_byte_wrote enc 1)|by apply (write_byte_wrote enc 0)].
  - apply L; [|done]. apply write_binary_wrote; [done|apply Hop|apply Hop].
  - apply L; [|done]. destruct s as [s|]; cbn [thrift_write_string default].
    + destruct Hop. assert (i32 (lenZ s) = lenZ s) as -> by (apply wrap_signed_small; [lia|unfold in_i; lia]).
      by apply write_binary_wrote.
    + unfold thrift_write_binary. change (u64 0) with 0. destruct (write_varint_wrote enc 0) as (e1 & -> & H1); [done|unfold in_u; lia|].
      eexists. split; [done|]. exact H1.
  - apply L; [|done]. destruct Hop as [? Hl]. unfold thrift_write_uuid. rewrite rd_n_Some by lia. cbn.
    change (Z.to_nat 16) with 16%nat. change (Z.to_nat 0) with 0%nat. rewrite drop_0, take_ge by lia.
    eexists. split; [done|]. apply enc_append_wrote; [done|done|lia].
  - by apply struct_begin_stepped.
  - eexists. split; [done|]. by apply struct_end_stepped.
  - destruct Hop. by apply field_header_stepped.
  - apply L; [|done]. eexists. split; [done|]. by apply (write_byte_wrote enc 0).
  - apply L; [|done]. destruct Hop. by apply list_begin_wrote.
  - apply L; [|done]. destruct Hop. by apply list_begin_wrote.
  - apply L; [|done]. destruct Hop as (? & ? & ?). by apply map_begin_wrote.
Qed.

(** Structs are opened at most 32 deep. *)
Fixpoint nest_ok (stack : list Z) (ops : list wop) : Prop :=
  match ops with [] => True | op :: ops => (op = WStructBegin -> length stack < 32)%nat /\ nest_ok (wop_stack stack op) ops end.

Lemma run_wops_spec enc ops : enc_wf enc -> Forall wop_ok ops ->
  exists enc', run_wops enc ops = Some enc' /\ enc_wf enc' /\
    (is_ok (te_status enc') = true ->
      is_ok (te_status enc) = true /\ enc_bytes enc' = enc_bytes enc ++ wops_bytes (enc_stack enc) ops) /\
    (nest_ok (enc_stack enc) ops -> never_fails (wops_bytes (enc_stack enc) ops) enc enc').
Proof.
  intros W Hops. revert enc W. induction Hops as [|op ops Hop _ IH]; intros enc W; cbn [run_wops wops_bytes nest_ok].
  { exists enc. rewrite app_nil_r. split_and!; done. }
  destruct (wop_stepped enc op W Hop) as (e1 & -> & W1 & H1 & T1). cbn [mbind option_bind].
  destruct (IH e1 W1) as (e2 & E2 & W2 & H2 & T2). exists e2. split; [done|]. split; [done|]. split.
  - intros Hok. destruct (H2 Hok) as [Hok1 B2]. destruct (H1 Hok1) as (? & B1 & S1). split; [done|].
    by rewrite B2, B1, S1, app_assoc.
  - intros [N1 N2] AT Ho Hok Hl. rewrite length_app in Hl. destruct (T1 N1 AT Ho Hok) as [O1 Ho1]; [lia|].
    destruct (H1 O1) as (_ & B1 & S1). rewrite S1 in T2. apply (T2 N2 AT Ho1 O1). rewrite B1, length_app. lia.
Qed.

(** C27: the Thrift writer never loses bytes silently.  For every allocator and every
    sequence of write operations, the writer is defined (no store outside its arrays),
    and if its status is still OK at the end then every allocation succeeded, the
    nesting limit was respected and the buffer holds exactly the bytes of all the
    operations; any failure leaves a status that is not OK.  It fails only for lack of
    memory or of nesting levels: with an allocator that serves every request, a buffer
    that owns its data and structs at most 32 deep, the status stays OK. *)
Theorem thrift_writer_sound enc ops : enc_wf enc -> Forall wop_ok ops ->
  exists enc', run_wops enc ops = Some enc' /\ enc_wf enc' /\
    (is_ok (te_status enc') = true ->
      is_ok (te_status enc) = true /\ enc_bytes enc' = enc_bytes enc ++ wops_bytes (enc_stack enc) ops) /\
    (nest_ok (enc_stack enc) ops -> never_fails (wops_bytes (enc_stack enc) ops) enc enc').
Proof. apply run_wops_spec. Qed.

End EncoderOk.

Lemma thrift_encoder_init_wf b : buffer_wf b -> enc_wf (thrift_encoder_init b).
Proof. intros. split; cbn; auto; [|lia]. repeat constructor; unfold in_i; lia. Qed.

Lemma thrift_writer_sound_witness :
  let A := limited_alloc (2 ^ 64) in
  let ops := [WStructBegin; WField 5 1; WI32 300; WField 8 2; WString (Some [97; 98]); WStructEnd] in
  exists enc', run_wops (thrift_encoder_init carquet_buffer_init) ops = Some enc' /\ is_ok (te_status enc') = true /\
    enc_bytes enc' = [0x15; 216; 4; 0x18; 2; 97; 98; 0].
Proof.
  intros A ops. destruct (thrift_writer_sound (A := A) (thrift_encoder_init carquet_buffer_init) ops) as (enc' & E & _ & H & T).
  - apply thrift_encoder_init_wf, init_wf.
  - repeat (apply Forall_cons_2; [cbn; unfold in_i; first [lia | split; [repeat constructor; unfold in_u; lia|lia]]|]).
    apply Forall_nil_2.
  - exists enc'. split; [exact E|]. destruct T as [Hok _].
    + change (enc_stack (thrift_encoder_init carquet_buffer_init)) with (@nil Z). unfold ops. cbn [nest_ok wop_stack tail length].
      clear E H. repeat (split; [first [discriminate | intros _; apply Nat.ltb_lt; reflexivity]|]). exact I.
    + exact limited_alloc_total.
    + reflexivity.
    + reflexivity.
    + reflexivity.
    + split; [exact Hok|]. destruct (H Hok) as [_ ->]. reflexivity.
Defined.
