(* ===== verification/ThriftRoundtrip.v ===== *)
(** * Thrift compact protocol: reading what was written

    Each reader returns the value its writer stored and consumes exactly its bytes, and
    [thrift_skip] steps over exactly the bytes of any nested value. *)

From S2P Require Import Prelude Status Endian Buffer ThriftDecode ThriftEncode.
From stdpp Require Import strings.

#[local] Open Scope Z_scope.

Definition td_rest (d : thrift_decoder_t) : list Z := reader_rest (td_reader d).

Definition td_advance (d : thrift_decoder_t) (n : Z) : thrift_decoder_t :=
  set_reader (reader_advance (td_reader d) n) d.

(** [m], started without error in front of [bs], returns [x] and consumes [bs]. *)
Definition reads {A} (m : tdec A) (bs : list Z) (x : A) : Prop :=
  forall d q, td_wf d -> td_ok d -> td_rest d = bs ++ q -> m d = Some (x, td_advance d (lenZ bs)).

Lemma td_rest_length d : td_wf d -> lenZ (td_rest d) = reader_size (td_reader d) - td_pos d.
Proof. intros [W _ _ _ _]. by apply reader_rest_length. Qed.

Lemma td_rest_room d bs q : td_wf d -> td_rest d = bs ++ q -> td_pos d + lenZ bs <= reader_size (td_reader d).
Proof. intros W E. pose proof (td_rest_length d W) as L. rewrite E, length_app in L. lia. Qed.

Lemma td_advance_wf d bs q : td_wf d -> td_rest d = bs ++ q -> td_wf (td_advance d (lenZ bs)).
Proof. intros W E. apply (ts_wf (lenZ bs) d). apply advance_step; [done|lia|by eapply td_rest_room]. Qed.

Lemma td_advance_rest d bs q : td_wf d -> td_rest d = bs ++ q -> td_rest (td_advance d (lenZ bs)) = q.
Proof.
  intros W E. unfold td_rest, td_advance. cbn [td_reader set_reader].
  rewrite reader_rest_advance; [|apply W|lia|by eapply td_rest_room]. unfold td_rest in E. rewrite E. by apply ptr_add_app.
Qed.

Lemma td_advance_add d bs1 bs2 q : td_wf d -> td_rest d = bs1 ++ bs2 ++ q ->
  td_advance (td_advance d (lenZ bs1)) (lenZ bs2) = td_advance d (lenZ (bs1 ++ bs2)).
Proof.
  intros W E. rewrite app_assoc in E. pose proof (td_rest_room _ _ _ W E) as R.
  unfold td_advance, set_reader, reader_advance. cbn. f_equal. f_equal.
  rewrite length_app in *. destruct W as [(? & ? & ?) _ _ _ _]. rewrite !u64_small by (rewrite ?u64_small; lia). lia.
Qed.

Lemma td_advance_0 d : td_wf d -> td_advance d 0 = d.
Proof.
  intros [(? & ? & ?) _ _ _ _]. destruct d as [[]]. unfold td_advance, set_reader, reader_advance. cbn in *.
  f_equal. f_equal. rewrite u64_small; lia.
Qed.

(** ** Composition *)

Lemma reads_ret {A} (x : A) : reads (mret x) [] x.
Proof. intros d q W _ _. cbn [length]. by rewrite td_advance_0. Qed.

Lemma reads_bind {A B} (m : tdec A) (f : A -> tdec B) bs1 bs2 x y :
  reads m bs1 x -> reads (f x) bs2 y -> reads (m ≫= f) (bs1 ++ bs2) y.
Proof.
  intros Hm Hf d q W Hok E. rewrite <- app_assoc in E. unfold mbind, tdec_bind. rewrite (Hm d (bs2 ++ q)) by done.
  rewrite (Hf _ q); [|by eapply td_advance_wf|done|by apply (td_advance_rest d)]. by rewrite (td_advance_add d _ _ q).
Qed.

Lemma reads_then {A B} (m : tdec A) (f : A -> B) bs x : reads m bs x -> reads (v ← m; mret (f v)) bs (f x).
Proof. intros H. rewrite <- (app_nil_r bs). eapply reads_bind; [done|apply reads_ret]. Qed.

Lemma has_bytes_rest d n : td_wf d -> 0 <= n <= 2 ^ 63 -> has_bytes n d = Some (n <=? lenZ (td_rest d), d).
Proof.
  intros W Hn. rewrite has_bytes_spec, td_rest_length by done. do 2 f_equal. case_bool; case_bool; lia || done.
Qed.

(** The readers test that the bytes are there first. *)
Lemma reads_has {A} n (f : bool -> tdec A) bs x : lenZ bs = n -> n <= 2 ^ 63 -> reads (f true) bs x ->
  reads (has_bytes n ≫= f) bs x.
Proof.
  intros <- Hn Hf d q W Hok E. unfold mbind, tdec_bind. rewrite has_bytes_rest by (done || lia).
  rewrite E, length_app. decide_bool. by apply (Hf d q).
Qed.

Lemma rest_peek d n : td_wf d -> 0 <= n <= lenZ (td_rest d) ->
  take (Z.to_nat n) (carquet_buffer_reader_peek (td_reader d)) = take (Z.to_nat n) (td_rest d).
Proof.
  intros W Hn. rewrite td_rest_length in Hn by done. apply reader_peek_rest; [apply W|lia|lia].
Qed.

Lemma reads_byte b : 0 <= b < 2 ^ 8 -> reads read_byte_raw [b] b.
Proof.
  intros Hb d q W Hok E. pose proof (td_rest_room d [b] q W E) as R. cbn in R.
  destruct (read_byte_raw_spec d W) as [(b' & Eb & ? & ->)|(? & _)]; [|lia].
  assert (b' = b) as ->; [|done]. pose proof (rest_peek d 1 W) as P. rewrite E in P. cbn [app length] in P.
  specialize (P ltac:(lia)). destruct (W) as [(? & ? & ?) _ _ _ _]. change (Z.to_nat 1) with 1%nat in P. unfold carquet_buffer_reader_peek, ptr_add in P.
  rewrite rd_lookup in Eb by lia. rewrite (drop_S _ _ _ Eb) in P. cbn in P. congruence.
Qed.

(** ** Varints *)

Lemma reads_varint_loop n : forall m v result shift, (0 < m <= n)%nat -> 0 <= v < 2 ^ (7 * Z.of_nat m) ->
  0 <= shift -> 0 <= result < 2 ^ shift -> result + v * 2 ^ shift < 2 ^ 64 ->
  reads (thrift_varint_loop n result shift) (uleb_n m v) (result + v * 2 ^ shift).
Proof.
  induction n as [|n IH]; intros m v result shift Hm Hv Hs Hr Hb; [lia|]. destruct m as [|m]; [lia|].
  rewrite pow7_S in Hv. pose proof (pow2_pos shift Hs). cbn [thrift_varint_loop uleb_n].
  pose proof (Z.mod_pos_bound v (2 ^ 7) ltac:(lia)). pose proof (Z.div_mod v (2 ^ 7) ltac:(lia)).
  assert (0 <= v / 2 ^ 7) by (apply Z.div_pos; lia).
  assert (forall b, 0 <= b < 2 ^ 8 -> forall bs x, 
    reads (let r := result .| u64 ((b .& 0x7F) ≪ shift) in
           if (b .& 0x80) =? 0 then mret r else thrift_varint_loop n r (shift + 7)) bs x ->
    reads (ok ← has_bytes 1; if negb ok then set_error CARQUET_ERROR_THRIFT_TRUNCATED "Truncated varint";; mret 0
      else byte ← read_byte_raw; let r := result .| u64 ((byte .& 0x7F) ≪ shift) in
        if (byte .& 0x80) =? 0 then mret r else thrift_varint_loop n r (shift + 7)) (b :: bs) x) as Step.
  { intros b Hb8 bs x H3 d q W Hok E. unfold mbind at 1, tdec_bind at 1. rewrite has_bytes_rest by (done || lia).
    rewrite E. cbn [app length]. decide_bool. change (b :: bs) with ([b] ++ bs) in *.
    by apply (reads_bind read_byte_raw _ [b] bs b x (reads_byte b Hb8) H3 d q). }
  destruct (Z.ltb_spec v (2 ^ 7)).
  - apply Step; [lia|]. cbv zeta. rewrite byte_land_80 by lia. decide_bool.
    rewrite byte_land_7F, Z.mod_small by lia. rewrite (varint_digit _ 64) by (auto using u64_small; nia). apply reads_ret.
  - apply Step; [lia|]. cbv zeta. rewrite byte_land_80 by lia. decide_bool.
    rewrite byte_land_7F. replace ((v mod 2 ^ 7 + 2 ^ 7) mod 2 ^ 7) with (v mod 2 ^ 7) by dlia.
    rewrite (varint_digit _ 64) by (auto using u64_small; nia).
    assert (2 ^ (shift + 7) = 2 ^ 7 * 2 ^ shift) as E7 by (rewrite Z.pow_add_r by lia; lia).
    replace (result + v * 2 ^ shift) with (result + (v mod 2 ^ 7) * 2 ^ shift + v / 2 ^ 7 * 2 ^ (shift + 7)) by (rewrite E7; nia).
    destruct (decide (m = 0%nat)) as [->|]; [change (2 ^ (7 * Z.of_nat 0)) with 1 in Hv; lia|].
    apply IH; [lia|split; [lia|apply Z.div_lt_upper_bound; lia]|lia|rewrite E7; nia|rewrite E7; nia].
Qed.

Lemma reads_varint v : in_u 64 v -> reads thrift_read_varint (uleb v) v.
Proof.
  intros Hv. unfold in_u in Hv. unfold thrift_read_varint, uleb.
  replace v with (0 + v * 2 ^ 0) at 2 by lia. apply reads_varint_loop; [lia|change (7 * Z.of_nat 10) with 70; lia|lia|lia|lia].
Qed.

Lemma reads_zigzag v : in_i 64 v -> reads thrift_read_zigzag (zz v) v.
Proof.
  intros Hv. rewrite <- (zigzag64_decode_encode v Hv) at 2.
  apply (reads_then thrift_read_varint), reads_varint. by apply zigzag_encode64_range.
Qed.

(** ** Primitive values *)

Lemma reads_i16 v : in_i 16 v -> reads thrift_read_i16 (zz v) v.
Proof.
  intros Hv. assert (i16 v = v) as E by (by apply wrap_signed_small). rewrite <- E at 2.
  apply (reads_then thrift_read_zigzag i16), reads_zigzag. unfold in_i in *. lia.
Qed.

Lemma reads_i32 v : in_i 32 v -> reads thrift_read_i32 (zz v) v.
Proof.
  intros Hv. assert (i32 v = v) as E by (by apply wrap_signed_small). rewrite <- E at 2.
  apply (reads_then thrift_read_zigzag i32), reads_zigzag. unfold in_i in *. lia.
Qed.

Lemma reads_i8 v : in_i 8 v -> reads thrift_read_byte [u8 v] v.
Proof.
  intros Hv. assert (i8 (u8 v) = v) as E by (by apply (wrap_signed_of_mod 8)). rewrite <- E at 2.
  apply (reads_then read_byte_raw i8), reads_byte, u8_range.
Qed.

Lemma skip_raw_spec d bs q : td_wf d -> td_rest d = bs ++ q -> lenZ bs <= 2 ^ 63 ->
  skip_raw (lenZ bs) d = Some ((), td_advance d (lenZ bs)).
Proof.
  intros W E Hl. pose proof (td_rest_room _ _ _ W E). unfold skip_raw, modify, carquet_buffer_reader_skip.
  rewrite reader_has_spec by (apply W || lia). decide_bool. done.
Qed.

Lemma reads_skip_raw bs : lenZ bs <= 2 ^ 63 -> reads (skip_raw (lenZ bs)) bs ().
Proof. intros Hl d q W _ E. by apply (skip_raw_spec d bs q). Qed.

(** A look at the bytes ahead, then a step over them. *)
Lemma reads_peek {A} (g : list Z -> option A) bs x : lenZ bs <= 2 ^ 63 ->
  (forall p, take (length bs) p = bs -> g p = Some x) ->
  reads (v ← checked (λ d, g (carquet_buffer_reader_peek (td_reader d))); skip_raw (lenZ bs);; mret v) bs x.
Proof.
  intros Hl Hg d q W Hok E. unfold mbind at 1, tdec_bind at 1, checked.
  assert (take (length bs) (carquet_buffer_reader_peek (td_reader d)) = bs) as P.
  { rewrite <- (Nat2Z.id (length bs)), rest_peek, E, Nat2Z.id; [apply take_app_length|done|rewrite E, length_app; lia]. }
  rewrite (Hg _ P). cbn [mbind option_bind]. unfold mbind, tdec_bind. by rewrite (skip_raw_spec d bs q).
Qed.

Lemma reads_double v : in_u 64 v -> reads thrift_read_double (le_bytes 8 v) v.
Proof.
  intros Hv. apply reads_has; [by rewrite length_le_bytes|lia|]. cbn [negb].
  change 8 with (lenZ (le_bytes 8 v)). apply reads_peek; [rewrite length_le_bytes; lia|].
  intros p Hp. rewrite <- (take_drop (length (le_bytes 8 v)) p), Hp. by apply read_write_u64.
Qed.

Lemma reads_bool_byte b d q : td_wf d -> td_ok d -> td_bool_pending d = false ->
  td_rest d = [if b : bool then 1 else 0] ++ q -> thrift_read_bool d = Some (b, td_advance d 1).
Proof.
  intros W Hok Hp E. unfold thrift_read_bool, mbind, tdec_bind, gets. rewrite Hp.
  rewrite (reads_byte (if b then 1 else 0) ltac:(destruct b; lia) d q W Hok E). by destruct b.
Qed.

(** The returned pointer addresses the bytes written. *)
Lemma read_binary_spec bs d q : bytes_ok bs -> lenZ bs < 2 ^ 31 -> td_wf d -> td_ok d ->
  td_rest d = (uleb (lenZ bs) ++ bs) ++ q ->
  exists p, thrift_read_binary d = Some ((Some p, lenZ bs), td_advance d (lenZ (uleb (lenZ bs) ++ bs))) /\
    take (length bs) p = bs.
Proof.
  intros Hb Hl W Hok E. rewrite <- app_assoc in E. unfold thrift_read_binary. unfold mbind at 1, tdec_bind at 1.
  rewrite (reads_varint (lenZ bs) ltac:(unfold in_u; lia) d (bs ++ q)) by done.
  pose proof (td_advance_wf _ _ _ W E) as W1. pose proof (td_advance_rest _ _ _ W E) as E1.
  rewrite <- (td_advance_add d _ _ q) by done. set (d1 := td_advance d _) in *.
  assert (i32 (lenZ bs) = lenZ bs) as -> by (apply wrap_signed_small; [lia|unfold in_i; lia]). decide_bool.
  unfold mbind at 1, tdec_bind at 1. rewrite has_bytes_rest by (done || lia). rewrite E1, length_app. decide_bool.
  unfold mbind, tdec_bind, gets. rewrite (skip_raw_spec d1 bs q) by (done || lia). eexists. split; [done|].
  rewrite <- (Nat2Z.id (length bs)) at 1. rewrite rest_peek, E1, Nat2Z.id; [apply take_app_length|done|].
  rewrite E1, length_app. lia.
Qed.

Lemma reads_string bs (alloc : Z -> bool) : bytes_ok bs -> lenZ bs < 2 ^ 31 -> alloc (lenZ bs + 1) = true ->
  reads (thrift_read_string_alloc alloc) (uleb (lenZ bs) ++ bs) (Some (bs ++ [0])).
Proof.
  intros Hb Hl Ha d q W Hok E. destruct (read_binary_spec bs d q Hb Hl W Hok E) as (p & E1 & Hp).
  unfold thrift_read_string_alloc, mbind, tdec_bind. rewrite E1. unfold gets. rewrite Ha. cbn [negb]. unfold checked.
  assert (rd_n p 0 (lenZ bs) = Some bs) as ->; [|done].
  rewrite rd_n_Some; [|lia|lia|].
  - rewrite Nat2Z.id. change (Z.to_nat 0) with 0%nat. by rewrite drop_0, Hp.
  - apply (f_equal length) in Hp. rewrite length_take in Hp. lia.
Qed.

Lemma reads_uuid bs : bytes_ok bs -> length bs = 16%nat -> reads thrift_read_uuid bs bs.
Proof.
  intros Hb Hl. apply reads_has; [lia|lia|]. cbn [negb]. intros d q W Hok E.
  assert (reader_rest (td_reader d) = bs ++ q) as E' by exact E.
  pose proof (td_rest_room _ _ _ W E) as R. rewrite Hl in R.
  unfold carquet_buffer_reader_read, reader_fixed. rewrite reader_has_spec by (apply W || lia). decide_bool.
  assert (rd_n (carquet_buffer_reader_peek (td_reader d)) 0 16 = Some bs) as ->.
  2:{ rewrite Hl. done. }
  destruct (W) as [(? & ? & ?) _ _ _ _].
  rewrite rd_n_Some; [|lia|lia|unfold carquet_buffer_reader_peek; rewrite length_ptr_add by lia; lia].
  change (Z.to_nat 0) with 0%nat. rewrite drop_0. rewrite rest_peek, E; [|done|rewrite E, length_app; lia].
  f_equal. apply take_app_length'. lia.
Qed.

(** ** Containers *)

Lemma nibbles_read d t : 0 <= d < 16 -> 0 <= t < 16 ->
  (d * 16 + t) .& 0x0F = t /\ ((d * 16 + t) ≫ 4) .& 0x0F = d.
Proof.
  intros. change 0x0F with (2 ^ 4 - 1). rewrite !land_ones_mod, shiftr_div by lia. split; dlia.
Qed.

Lemma remaining_rest d : td_wf d -> carquet_buffer_reader_remaining (td_reader d) = lenZ (td_rest d).
Proof.
  intros W. rewrite td_rest_length by done. destruct W as [(? & ? & ?) _ _ _ _]. apply u64_small. lia.
Qed.

(** The count is accepted when at least that many bytes follow. *)
Lemma read_list_begin_spec t n d q : 0 <= t < 16 -> 0 <= n < 2 ^ 31 -> td_wf d -> td_ok d ->
  td_rest d = list_bytes t n ++ q -> n <= lenZ q ->
  thrift_read_list_begin d = Some ((t, n), td_advance d (lenZ (list_bytes t n))).
Proof.
  intros Ht Hn W Hok E Hq. unfold thrift_read_list_begin.
  assert (forall d1, td_wf d1 -> td_rest d1 = q -> (if n <? 0 then set_error CARQUET_ERROR_THRIFT_DECODE "Negative list size";; mret (t, 0) else
    remaining ← gets (λ d, carquet_buffer_reader_remaining (td_reader d));
    if n >? remaining then set_error CARQUET_ERROR_THRIFT_DECODE "List count exceeds remaining data";; mret (t, 0)
    else mret (t, n)) d1 = Some ((t, n), d1)) as Tail.
  { intros d1 W1 E1. decide_bool. unfold mbind, tdec_bind, gets. rewrite remaining_rest, E1 by done. by decide_bool. }
  unfold list_bytes in *. destruct (Z.ltb_spec n 15).
  - unfold mbind at 1, tdec_bind at 1. rewrite (reads_byte (n * 16 + t) ltac:(lia) d q) by done.
    destruct (nibbles_read n t) as [-> ->]; [lia|lia|]. decide_bool. unfold mbind at 1, tdec_bind at 1, mret at 1, tdec_ret at 1.
    apply Tail; [by eapply td_advance_wf|by apply (td_advance_rest d)].
  - unfold mbind at 1, tdec_bind at 1. change (240 + t :: uleb n) with ([240 + t] ++ uleb n) in *. rewrite <- app_assoc in E.
    rewrite (reads_byte (240 + t) ltac:(lia) d (uleb n ++ q)) by done.
    change (240 + t) with (15 * 16 + t). destruct (nibbles_read 15 t) as [-> ->]; [lia|lia|]. decide_bool. unfold mbind at 1, tdec_bind at 1.
    rewrite (reads_then thrift_read_varint i32 (uleb n) n (reads_varint n ltac:(unfold in_u; lia)) _ q);
      [|by eapply td_advance_wf|done|by apply (td_advance_rest d)].
    rewrite (td_advance_add d _ _ q) by done.
    assert (i32 n = n) as -> by (apply wrap_signed_small; [lia|unfold in_i; lia]). rewrite app_assoc in E.
    apply Tail; [by eapply td_advance_wf|by apply (td_advance_rest d)].
Qed.

Lemma read_map_begin_spec k v n d q : 0 <= k < 16 -> 0 <= v < 16 -> 0 <= n < 2 ^ 31 -> td_wf d -> td_ok d ->
  td_rest d = map_bytes k v n ++ q -> n <= lenZ q ->
  thrift_read_map_begin d =
    Some ((if n =? 0 then (THRIFT_TYPE_STOP, THRIFT_TYPE_STOP, 0) else (k, v, n)), td_advance d (lenZ (map_bytes k v n))).
Proof.
  intros Hk Hv Hn W Hok E Hq. unfold thrift_read_map_begin, map_bytes in *. unfold mbind at 1, tdec_bind at 1.
  assert (i32 n = n) as Ei by (apply wrap_signed_small; [lia|unfold in_i; lia]).
  destruct (Z.eqb_spec n 0) as [->|Hn0].
  - rewrite (reads_varint 0 ltac:(unfold in_u; lia) d q) by done. done.
  - rewrite <- app_assoc in E. rewrite (reads_varint n ltac:(unfold in_u; lia) d _ W Hok E). rewrite Ei. decide_bool.
    pose proof (td_advance_wf _ _ _ W E) as W1. pose proof (td_advance_rest _ _ _ W E) as E1.
    unfold mbind at 1, tdec_bind at 1, gets. rewrite remaining_rest, E1 by done. cbn [app length]. decide_bool.
    unfold mbind, tdec_bind. rewrite (reads_byte (k * 16 + v) ltac:(lia) _ q W1 Hok E1).
    destruct (nibbles_read k v) as [-> ->]; [lia|lia|]. by rewrite (td_advance_add d _ _ q).
Qed.

(** ** Field headers *)

(** The id stored for the innermost open struct, 0 outside any. *)
Definition td_last (d : thrift_decoder_t) : Z :=
  if 0 <? td_nesting_level d then default 0 (td_last_field_id d !! Z.to_nat (td_nesting_level d - 1)) else 0.

(** The state after a header: the id is remembered and a boolean is pending. *)
Definition after_field (d : thrift_decoder_t) (type id : Z) : thrift_decoder_t :=
  let d := if 0 <? td_nesting_level d
           then set_ids (<[Z.to_nat (td_nesting_level d - 1) := id]> (td_last_field_id d)) (td_nesting_level d) d else d in
  if type =? 1 then set_bool true true d else if type =? 2 then set_bool true false d else d.

Lemma header_bytes_read last type id : 0 < type < 16 -> in_i 16 id -> in_i 16 last ->
  exists h tl, field_bytes last type id = h :: tl /\ 0 < h < 2 ^ 8 /\ h .& 0x0F = type /\
    reads (if (h ≫ 4) .& 0x0F =? 0 then thrift_read_i16 else mret (i16 (last + (h ≫ 4) .& 0x0F))) tl id.
Proof.
  intros Ht Hid Hl. unfold field_bytes. set (delta := i16 (id - last)).
  destruct (Z.ltb_spec 0 delta); [destruct (Z.leb_spec delta 15)|]; cbn [andb].
  { exists (delta * 16 + type), []. split; [done|]. split; [lia|]. destruct (nibbles_read delta type) as [-> ->]; [lia|lia|].
    split; [done|]. decide_bool. assert (i16 (last + delta) = id) as ->; [|apply reads_ret].
    rewrite <- (wrap_signed_small 16 id) by (done || lia). apply wrap_signed_congr. unfold delta, i16.
    rewrite <- Zplus_mod_idemp_r, wrap_signed_mod, Zplus_mod_idemp_r by lia. f_equal. lia. }
  all: exists type, (zz id); (split; [done|]); (split; [lia|]);
    destruct (nibbles_read 0 type) as [E1 E2]; [lia|lia|]; rewrite Z.add_0_l in E1, E2; rewrite E1, E2;
    (split; [done|]); cbn [Z.eqb]; by apply reads_i16.
Qed.

Lemma read_field_begin_spec type id d q : 0 < type < 16 -> in_i 16 id -> td_wf d -> td_ok d ->
  td_rest d = field_bytes (td_last d) type id ++ q ->
  thrift_read_field_begin d =
    Some ((true, type, id), after_field (td_advance d (lenZ (field_bytes (td_last d) type id))) type id).
Proof.
  intros Ht Hid W Hok E. destruct (W) as [_ _ HL HF Hlev].
  assert (in_i 16 (td_last d)) as Hlast.
  { unfold td_last. case_bool; [|unfold in_i; lia].
    destruct (lookup_lt_is_Some_2 (td_last_field_id d) (Z.to_nat (td_nesting_level d - 1))) as [x Hx]; [lia|].
    rewrite Hx. exact (Forall_lookup_1 _ _ _ _ HF Hx). }
  destruct (header_bytes_read (td_last d) type id Ht Hid Hlast) as (h & tl & EB & Hh & Et & Hr).
  rewrite EB in *. change (h :: tl) with ([h] ++ tl) in *. rewrite <- app_assoc in E.
  unfold thrift_read_field_begin. unfold mbind at 1, tdec_bind at 1, gets at 1. rewrite Hok. cbn [negb].
  unfold mbind at 1, tdec_bind at 1. rewrite (reads_byte h ltac:(lia) d (tl ++ q)) by done.
  destruct (Z.eqb_spec h 0); [lia|]. cbv zeta. rewrite Et.
  pose proof (td_advance_wf _ _ _ W E) as W1. pose proof (td_advance_rest _ _ _ W E) as E1.
  rewrite <- (td_advance_add d [h] tl q) by done. set (d1 := td_advance d (lenZ [h])) in *.
  unfold mbind at 1, tdec_bind at 1, gets at 1. change (td_nesting_level d1) with (td_nesting_level d).
  unfold mbind at 1, tdec_bind at 1. rewrite Z.gtb_ltb.
  assert ((if 0 <? td_nesting_level d then checked (λ d0, rd (td_last_field_id d0) (td_nesting_level d - 1)) else mret 0) d1
    = Some (td_last d, d1)) as ->.
  { unfold td_last, checked. case_bool; [|done]. change (td_last_field_id d1) with (td_last_field_id d).
    rewrite rd_lookup by lia.
    destruct (lookup_lt_is_Some_2 (td_last_field_id d) (Z.to_nat (td_nesting_level d - 1))) as [x Hx]; [lia|]. by rewrite Hx. }
  unfold mbind at 1, tdec_bind at 1. rewrite (Hr d1 q W1 Hok E1). unfold mbind, tdec_bind.
  assert ((if 0 <? td_nesting_level d then checked (λ d0, wr (td_last_field_id d0) (td_nesting_level d - 1) id) ≫=
      (λ ids, modify (set_ids ids (td_nesting_level d))) else mret ()) (td_advance d1 (lenZ tl)) =
    Some ((), if 0 <? td_nesting_level d then set_ids (<[Z.to_nat (td_nesting_level d - 1) := id]> (td_last_field_id d))
      (td_nesting_level d) (td_advance d1 (lenZ tl)) else td_advance d1 (lenZ tl))) as EI.
  { case_bool; [|done]. unfold mbind, tdec_bind, checked. change (td_last_field_id (td_advance d1 (lenZ tl))) with (td_last_field_id d).
    rewrite wr_Some by lia. done. }
  unfold mbind, tdec_bind in EI. rewrite EI. unfold after_field.
  change (td_nesting_level (td_advance d1 (lenZ tl))) with (td_nesting_level d).
  change (td_last_field_id (td_advance d1 (lenZ tl))) with (td_last_field_id d).
  unfold THRIFT_TYPE_TRUE, THRIFT_TYPE_FALSE. destruct (type =? 1); [done|]. by destruct (type =? 2).
Qed.

(** The stop byte ends a struct. *)
Lemma read_field_stop_spec d q : td_wf d -> td_ok d -> td_rest d = [0] ++ q ->
  thrift_read_field_begin d = Some ((false, THRIFT_TYPE_STOP, 0), td_advance d 1).
Proof.
  intros W Hok E. unfold thrift_read_field_begin. unfold mbind at 1, tdec_bind at 1, gets at 1. rewrite Hok. cbn [negb].
  unfold mbind at 1, tdec_bind at 1. by rewrite (reads_byte 0 ltac:(lia) d q W Hok E).
Qed.

(** C26: every Thrift reader inverts its writer.  In front of the bytes a write operation
    stands for, the matching read returns the written value and consumes exactly those
    bytes, whatever follows: bytes, 16/32/64-bit integers, doubles, UUIDs, strings (when
    the allocation succeeds), booleans in containers, list and set headers, map headers
    (an empty map has no types) and struct field headers in both forms. *)
Theorem thrift_readers_invert_writers :
  (forall v, in_i 8 v -> reads thrift_read_byte (wop_bytes [] (WByte v)) v) /\
  (forall v, in_i 16 v -> reads thrift_read_i16 (wop_bytes [] (WI16 v)) v) /\
  (forall v, in_i 32 v -> reads thrift_read_i32 (wop_bytes [] (WI32 v)) v) /\
  (forall v, in_i 64 v -> reads thrift_read_i64 (wop_bytes [] (WI64 v)) v) /\
  (forall v, in_u 64 v -> reads thrift_read_double (wop_bytes [] (WDouble v)) v) /\
  (forall bs, wop_ok (WUuid bs) -> reads thrift_read_uuid (wop_bytes [] (WUuid bs)) bs) /\
  (forall bs alloc, wop_ok (WString (Some bs)) -> alloc (lenZ bs + 1) = true ->
     reads (thrift_read_string_alloc alloc) (wop_bytes [] (WString (Some bs))) (Some (bs ++ [0]))) /\
  (forall d q, td_wf d -> td_ok d ->
    (forall b, td_bool_pending d = false -> td_rest d = wop_bytes [] (WBool b) ++ q ->
       thrift_read_bool d = Some (b, td_advance d 1)) /\
    (forall t n, wop_ok (WList t n) -> td_rest d = wop_bytes [] (WList t n) ++ q -> n <= lenZ q ->
       thrift_read_list_begin d = Some ((t, n), td_advance d (lenZ (list_bytes t n)))) /\
    (forall k v n, wop_ok (WMap k v n) -> td_rest d = wop_bytes [] (WMap k v n) ++ q -> n <= lenZ q ->
       thrift_read_map_begin d = Some ((if n =? 0 then (THRIFT_TYPE_STOP, THRIFT_TYPE_STOP, 0) else (k, v, n)),
         td_advance d (lenZ (map_bytes k v n)))) /\
    (forall t id, 0 < t -> wop_ok (WField t id) -> td_rest d = wop_bytes [td_last d] (WField t id) ++ q ->
       thrift_read_field_begin d =
         Some ((true, t, id), after_field (td_advance d (lenZ (field_bytes (td_last d) t id))) t id))).
Proof.
  split_and!.
  - apply reads_i8.
  - apply reads_i16.
  - apply reads_i32.
  - apply reads_zigzag.
  - apply reads_double.
  - intros bs [? ?]. by apply reads_uuid.
  - intros bs alloc [? ?] ?. by apply reads_string.
  - intros d q W Hok. split_and!.
    + intros b Hp E. by apply (reads_bool_byte b d q).
    + intros t n [? ?] E ?. by apply (read_list_begin_spec t n d q).
    + intros k v n (? & ? & ?) E ?. by apply (read_map_begin_spec k v n d q).
    + intros t id Ht [? ?] E. apply (read_field_begin_spec t id d q); (done || lia).
Qed.

(** ** Nested values *)

Inductive tval :=
  | VBool (b : bool) | VByte (v : Z) | VI16 (v : Z) | VI32 (v : Z) | VI64 (v : Z) | VDouble (bits : Z)
  | VBinary (bs : list Z) | VUuid (bs : list Z)
  | VList (t : Z) (l : list tval) | VSet (t : Z) (l : list tval)
  | VMap (kt vt : Z) (l : list (tval * tval)) | VStruct (fs : list (Z * tval)).

Definition type_of (v : tval) : Z :=
  match v with
  | VBool b => if b then 1 else 2
  | VByte _ => 3 | VI16 _ => 4 | VI32 _ => 5 | VI64 _ => 6 | VDouble _ => 7 | VBinary _ => 8
  | VUuid _ => 13 | VList _ _ => 9 | VSet _ _ => 10 | VMap _ _ _ => 11 | VStruct _ => 12
  end.

Definition is_bool (v : tval) : bool := match v with VBool _ => true | _ => false end.

Section TvalInd.
Context (P : tval -> Prop).
Context (Hbool : forall b, P (VBool b)) (Hbyte : forall v, P (VByte v)) (H16 : forall v, P (VI16 v))
  (H32 : forall v, P (VI32 v)) (H64 : forall v, P (VI64 v)) (Hd : forall v, P (VDouble v))
  (Hbin : forall bs, P (VBinary bs)) (Huuid : forall bs, P (VUuid bs))
  (Hlist : forall t l, Forall P l -> P (VList t l)) (Hset : forall t l, Forall P l -> P (VSet t l))
  (Hmap : forall kt vt l, Forall (λ kv, P kv.1 /\ P kv.2) l -> P (VMap kt vt l))
  (Hstruct : forall fs, Forall (λ f, P f.2) fs -> P (VStruct fs)).

Fixpoint tval_nested_ind (v : tval) : P v :=
  let all := fix all (l : list tval) : Forall P l :=
    match l with [] => Forall_nil_2 _ | x :: l => Forall_cons_2 _ _ _ (tval_nested_ind x) (all l) end in
  match v with
  | VBool b => Hbool b | VByte v => Hbyte v | VI16 v => H16 v | VI32 v => H32 v | VI64 v => H64 v
  | VDouble v => Hd v | VBinary bs => Hbin bs | VUuid bs => Huuid bs
  | VList t l => Hlist t l (all l)
  | VSet t l => Hset t l (all l)
  | VMap kt vt l => Hmap kt vt l
      ((fix go (l : list (tval * tval)) : Forall (λ kv, P kv.1 /\ P kv.2) l :=
        match l with [] => Forall_nil_2 _
        | kv :: l => Forall_cons_2 _ _ _ (conj (tval_nested_ind kv.1) (tval_nested_ind kv.2)) (go l) end) l)
  | VStruct fs => Hstruct fs
      ((fix go (l : list (Z * tval)) : Forall (λ f, P f.2) l :=
        match l with [] => Forall_nil_2 _ | f :: l => Forall_cons_2 _ _ _ (tval_nested_ind f.2) (go l) end) fs)
  end.
End TvalInd.

(** The write operations of a value, as a list element; a boolean field is its header. *)
Fixpoint val_ops (v : tval) : list wop :=
  match v with
  | VBool b => [WBool b]
  | VByte v => [WByte v] | VI16 v => [WI16 v] | VI32 v => [WI32 v] | VI64 v => [WI64 v]
  | VDouble v => [WDouble v] | VBinary bs => [WBinary bs] | VUuid bs => [WUuid bs]
  | VList t l => WList t (lenZ l) :: concat (map val_ops l)
  | VSet t l => WSet t (lenZ l) :: concat (map val_ops l)
  | VMap kt vt l => WMap kt vt (lenZ l) :: concat (map (λ kv, val_ops kv.1 ++ val_ops kv.2) l)
  | VStruct fs =>
      WStructBegin ::
        concat (map (λ f, WField (type_of f.2) f.1 :: if is_bool f.2 then [] else val_ops f.2) fs) ++ [WStructEnd]
  end.

(** Its bytes. *)
Definition fields_with (f : tval -> list Z) : Z -> list (Z * tval) -> list Z :=
  fix go (last : Z) (fs : list (Z * tval)) : list Z :=
    match fs with
    | [] => [0]
    | (id, v) :: fs => field_bytes last (type_of v) id ++ (if is_bool v then [] else f v) ++ go id fs
    end.

Fixpoint val_bytes (v : tval) : list Z :=
  match v with
  | VBool b => [if b then 1 else 0]
  | VByte v => [u8 v] | VI16 v | VI32 v | VI64 v => zz v
  | VDouble v => le_bytes 8 v | VBinary bs => uleb (lenZ bs) ++ bs | VUuid bs => bs
  | VList t l | VSet t l => list_bytes t (lenZ l) ++ concat (map val_bytes l)
  | VMap kt vt l => map_bytes kt vt (lenZ l) ++ concat (map (λ kv, val_bytes kv.1 ++ val_bytes kv.2) l)
  | VStruct fs => fields_with val_bytes 0 fs
  end.

Abbreviation fields_bytes := (fields_with val_bytes).

(** Well-formed values: ranges, containers whose elements have the declared type and are
    not booleans, structs nested at most [room] deep. *)
Fixpoint val_ok (room : Z) (v : tval) : Prop :=
  match v with
  | VBool _ => True
  | VByte v => in_i 8 v | VI16 v => in_i 16 v | VI32 v => in_i 32 v | VI64 v => in_i 64 v
  | VDouble v => in_u 64 v
  | VBinary bs => bytes_ok bs /\ lenZ bs < 2 ^ 31
  | VUuid bs => bytes_ok bs /\ length bs = 16%nat
  | VList t l | VSet t l => 2 < t < 16 /\ lenZ l < 2 ^ 31 /\
      foldr and True (map (λ v, type_of v = t /\ val_ok room v) l)
  | VMap kt vt l => 2 < kt < 16 /\ 2 < vt < 16 /\ lenZ l < 2 ^ 31 /\
      foldr and True (map (λ kv, type_of kv.1 = kt /\ type_of kv.2 = vt /\ val_ok room kv.1 /\ val_ok room kv.2) l)
  | VStruct fs => 0 < room /\ foldr and True (map (λ f, in_i 16 f.1 /\ val_ok (room - 1) f.2) fs)
  end.

Lemma foldr_and_Forall {A} (P : A -> Prop) l : foldr and True (map P l) <-> Forall P l.
Proof.
  induction l as [|x l IH]; cbn; [split; intros; [by apply Forall_nil_2|done]|]. by rewrite IH, Forall_cons_iff.
Qed.

(** The operations of a value stand for its bytes and leave the id stack as it was. *)
Lemma wops_bytes_app st a b : wops_bytes st (a ++ b) = wops_bytes st a ++ wops_bytes (foldl wop_stack st a) b.
Proof. revert st. induction a as [|op a IH]; intros st; cbn; [done|]. by rewrite IH, app_assoc. Qed.

Definition ops_exact (ops : list wop) (bs : list Z) : Prop :=
  forall st, wops_bytes st ops = bs /\ foldl wop_stack st ops = st.

Lemma ops_exact_app a b x y : ops_exact a x -> ops_exact b y -> ops_exact (a ++ b) (x ++ y).
Proof.
  intros Ha Hb st. destruct (Ha st) as [E1 F1]. destruct (Hb st) as [E2 F2].
  rewrite wops_bytes_app, foldl_app, E1, F1. by rewrite E2.
Qed.

Lemma ops_exact_concat {A} (f : A -> list wop) (g : A -> list Z) l :
  Forall (λ x, ops_exact (f x) (g x)) l -> ops_exact (concat (map f l)) (concat (map g l)).
Proof. induction 1; cbn; [done|]. by apply ops_exact_app. Qed.

Lemma fields_ops_exact fs : Forall (λ f, ops_exact (val_ops f.2) (val_bytes f.2)) fs -> forall last st,
  wops_bytes (last :: st) (concat (map (λ f, WField (type_of f.2) f.1 :: if is_bool f.2 then [] else val_ops f.2) fs) ++ [WStructEnd])
    = fields_bytes last fs /\
  foldl wop_stack (last :: st) (concat (map (λ f, WField (type_of f.2) f.1 :: if is_bool f.2 then [] else val_ops f.2) fs) ++ [WStructEnd]) = st.
Proof.
  induction 1 as [|[id v] fs H _ IH]; intros last st; [done|].
  cbn [map concat fst snd fields_with]. cbn [snd] in H.
  destruct (IH id st) as [I1 I2]. cbn [app]. cbn [wops_bytes foldl wop_bytes wop_stack head default].
  rewrite <- !app_assoc. destruct (is_bool v).
  - cbn [app]. by rewrite I1, I2.
  - destruct (H (id :: st)) as [H1 H2]. rewrite wops_bytes_app, foldl_app, H1, H2, I1, I2. done.
Qed.

Lemma val_ops_exact v : ops_exact (val_ops v) (val_bytes v).
Proof.
  assert (forall op bs, (forall st, wop_bytes st op = bs) -> (forall st, wop_stack st op = st) -> ops_exact [op] bs) as One.
  { intros op bs H1 H2 st. cbn. by rewrite H1, H2, app_nil_r. }
  induction v using tval_nested_ind; try (by apply One).
  - apply (ops_exact_app [_] _ (list_bytes t (lenZ l))); [by apply One|by apply ops_exact_concat].
  - apply (ops_exact_app [_] _ (list_bytes t (lenZ l))); [by apply One|by apply ops_exact_concat].
  - apply (ops_exact_app [_] _ (map_bytes kt vt (lenZ l))); [by apply One|]. apply (ops_exact_concat (λ kv, val_ops kv.1 ++ val_ops kv.2) (λ kv, val_bytes kv.1 ++ val_bytes kv.2)).
    apply (Forall_impl _ _ _ H). intros [k w] [? ?]. by apply ops_exact_app.
  - intros st. apply (fields_ops_exact fs H 0 st).
Qed.

(** Structs nested at most [room] deep. *)
Fixpoint depth_ok (room : nat) (v : tval) : Prop :=
  match v with
  | VList _ l | VSet _ l => foldr and True (map (depth_ok room) l)
  | VMap _ _ l => foldr and True (map (λ kv, depth_ok room kv.1 /\ depth_ok room kv.2) l)
  | VStruct fs => match room with O => False | S room => foldr and True (map (λ f, depth_ok room f.2) fs) end
  | _ => True
  end.

Lemma nest_ok_app st a b : nest_ok st (a ++ b) <-> nest_ok st a /\ nest_ok (foldl wop_stack st a) b.
Proof. revert st. induction a as [|op a IH]; intros st; cbn; [tauto|]. rewrite IH. tauto. Qed.

Lemma nest_concat {X} (f : X -> list wop) (g : X -> list Z) st l : Forall (λ x, ops_exact (f x) (g x)) l ->
  Forall (λ x, nest_ok st (f x)) l -> nest_ok st (concat (map f l)).
Proof.
  intros HE HN. induction HE as [|x l E _ IH]; cbn; [done|]. apply Forall_cons_iff in HN as [N HN].
  rewrite nest_ok_app. destruct (E st) as [_ ->]. auto.
Qed.

Lemma fields_nest fs : forall last st, Forall (λ f, forall id, nest_ok (id :: st) (val_ops f.2)) fs ->
  nest_ok (last :: st) (concat (map (λ f, WField (type_of f.2) f.1 :: if is_bool f.2 then [] else val_ops f.2) fs) ++ [WStructEnd]).
Proof.
  induction fs as [|[id v] fs IH]; intros last st HN; [by cbn|]. apply Forall_cons_iff in HN as [N HN].
  cbn [map concat fst snd app nest_ok wop_stack] in *. split; [done|]. destruct (is_bool v); cbn [app]; [by apply IH|].
  rewrite <- app_assoc, nest_ok_app. destruct (val_ops_exact v (id :: st)) as [_ ->]. auto.
Qed.

Lemma val_ops_nest v : forall room st, depth_ok room v -> (length st + room <= 32)%nat -> nest_ok st (val_ops v).
Proof.
  induction v using tval_nested_ind; intros room st Hd Hr; cbn [val_ops nest_ok depth_ok] in *; try done.
  - rewrite foldr_and_Forall in Hd. split; [done|]. apply (nest_concat val_ops val_bytes); [apply Forall_true; intros; apply val_ops_exact|].
    rewrite Forall_forall in *. eauto.
  - rewrite foldr_and_Forall in Hd. split; [done|]. apply (nest_concat val_ops val_bytes); [apply Forall_true; intros; apply val_ops_exact|].
    rewrite Forall_forall in *. eauto.
  - rewrite foldr_and_Forall in Hd. split; [done|]. apply (nest_concat _ (λ kv, val_bytes kv.1 ++ val_bytes kv.2)).
    + apply Forall_true. intros. apply ops_exact_app; apply val_ops_exact.
    + rewrite Forall_forall in *. intros kv Hkv. destruct (H kv Hkv) as [H1 H2], (Hd kv Hkv) as [D1 D2].
      rewrite nest_ok_app. destruct (val_ops_exact kv.1 st) as [_ E]. cbn [wop_stack] in *. rewrite E. eauto.
  - destruct room as [|room]; [done|]. rewrite foldr_and_Forall in Hd. split; [intros _; lia|]. apply fields_nest.
    rewrite Forall_forall in *. intros f Hf id. apply (H f Hf room); [auto|cbn; lia].
Qed.

(** ** Skipping a value *)

(** [d'] is [d] with [bs] consumed; of the id stack only the first [k] entries count. *)
Record skipped (k : Z) (bs : list Z) (d d' : thrift_decoder_t) : Prop := {
  sk_wf : td_wf d';
  sk_ok : td_ok d';
  sk_reader : td_reader d' = reader_advance (td_reader d) (lenZ bs);
  sk_level : td_nesting_level d' = td_nesting_level d;
  sk_ids : take (Z.to_nat k) (td_last_field_id d') = take (Z.to_nat k) (td_last_field_id d);
  sk_bool : td_bool_pending d' = false }.

Lemma skipped_rest k bs q d d' : td_wf d -> td_rest d = bs ++ q -> skipped k bs d d' -> td_rest d' = q.
Proof.
  intros W E [_ _ R _ _ _]. unfold td_rest at 1. rewrite R.
  change (reader_advance (td_reader d) (lenZ bs)) with (td_reader (td_advance d (lenZ bs))). by apply (td_advance_rest d).
Qed.

Lemma skipped_trans k bs1 bs2 q d d1 d2 : td_wf d -> td_rest d = bs1 ++ bs2 ++ q ->
  skipped k bs1 d d1 -> skipped k bs2 d1 d2 -> skipped k (bs1 ++ bs2) d d2.
Proof.
  intros W E [] [? ? R ? ? ?]. split; auto; try congruence.
  rewrite R, sk_reader0. pose proof (td_advance_add d bs1 bs2 q W E) as EA. by apply (f_equal td_reader) in EA.
Qed.

Lemma skipped_advance k bs q d : td_wf d -> td_ok d -> td_rest d = bs ++ q -> td_bool_pending d = false ->
  skipped k bs d (td_advance d (lenZ bs)).
Proof. intros W Hok E Hb. split; try done. by apply (td_advance_wf d bs q). Qed.

Definition skips_by (body : tdec ()) (room : Z) (bs : list Z) : Prop :=
  forall d q d', td_wf d -> td_ok d -> td_rest d = bs ++ q -> td_nesting_level d + room <= 32 ->
  td_bool_pending d = false -> body d = Some ((), d') -> skipped (td_nesting_level d) bs d d'.

Lemma skips_by_reads body room bs : reads body bs () -> skips_by body room bs.
Proof.
  intros H d q d' W Hok E _ Hb. rewrite (H d q) by done. intros [= <-]. by apply (skipped_advance _ bs q).
Qed.

Lemma reads_unit {A} (m : tdec A) bs x : reads m bs x -> reads (m;; mret ()) bs ().
Proof. intros H. exact (reads_then m (λ _, ()) bs x H). Qed.

Lemma skips_by_bind b1 b2 room bs1 bs2 : skips_by b1 room bs1 -> skips_by b2 room bs2 ->
  skips_by (b1;; b2) room (bs1 ++ bs2).
Proof.
  intros H1 H2 d q d' W Hok E Hr Hb. rewrite <- app_assoc in E. unfold mbind, tdec_bind.
  destruct (b1 d) as [[[] d1]|] eqn:E1; [|done]. intros E2.
  pose proof (H1 d _ d1 W Hok E Hr Hb E1) as S1. pose proof (skipped_rest _ _ _ _ _ W E S1) as R1.
  eapply skipped_trans; [done|done|done|]. pose proof (sk_level _ _ _ _ S1) as L1. rewrite <- L1.
  apply (H2 d1 q d'); try apply S1; [done|lia|done].
Qed.

Lemma repeat_ok_skips body room bss : Forall (skips_by body room) bss ->
  skips_by (repeat_ok (length bss) body) room (concat bss).
Proof.
  induction 1 as [|bs bss H _ IH]; cbn [length repeat_ok concat].
  { apply skips_by_reads, reads_ret. }
  intros d q d' W Hok E Hr Hb. unfold mbind at 1, tdec_bind at 1, gets. rewrite Hok.
  by apply (skips_by_bind _ _ _ _ _ H IH d q d').
Qed.

Lemma val_bytes_nonempty room v : val_ok room v -> (1 <= length (val_bytes v))%nat.
Proof.
  assert (forall x, (1 <= length (uleb x))%nat) as U by (intros x; pose proof (length_uleb x); lia).
  destruct v; cbn [val_ok val_bytes]; intros H; rewrite ?length_app, ?length_le_bytes; auto; try (cbn; lia).
  1-3: apply U.
  - pose proof (U (lenZ bs)). lia.
  - unfold list_bytes. case_bool; cbn; lia.
  - unfold list_bytes. case_bool; cbn; lia.
  - unfold map_bytes. case_bool; [cbn; lia|]. rewrite length_app. cbn. lia.
  - destruct fs as [|[id v] fs]; cbn; [lia|]. rewrite length_app. unfold field_bytes. case_match; cbn; lia.
Qed.

Lemma concat_length_ge {A} (f : A -> list Z) l : Forall (λ x, 1 <= length (f x))%nat l -> lenZ l <= lenZ (concat (map f l)).
Proof. induction 1; cbn; [lia|]. rewrite length_app. lia. Qed.

Lemma type_of_range v : 0 < type_of v < 14 /\ (is_bool v = false -> 2 < type_of v).
Proof. destruct v as [[]| | | | | | | | | | |]; cbn; done || lia. Qed.

Lemma not_bool v : 2 < type_of v -> is_bool v = false.
Proof. destruct v as [[]| | | | | | | | | | |]; cbn; done || lia. Qed.

(** What [thrift_skip] must do on a value. *)
Definition val_skips (v : tval) : Prop := forall room, val_ok room v -> is_bool v = false ->
  forall fuel, skips_by (thrift_skip fuel (type_of v)) room (val_bytes v).

Lemma list_skips t l room f : Forall val_skips l -> 2 < t < 16 -> lenZ l < 2 ^ 31 ->
  Forall (λ v, type_of v = t /\ val_ok room v) l ->
  skips_by ('(elem_type, count) ← thrift_read_list_begin; repeat_ok (Z.to_nat count) (thrift_skip f elem_type)) room
    (list_bytes t (lenZ l) ++ concat (map val_bytes l)).
Proof.
  intros IH Ht Hl Hok d q d' W Hd E Hr Hb. rewrite <- app_assoc in E.
  assert (lenZ l <= lenZ (concat (map val_bytes l))) as Hn.
  { apply concat_length_ge. apply (Forall_impl _ _ _ Hok). intros v [_ ?]. by apply (val_bytes_nonempty room). }
  unfold mbind, tdec_bind. rewrite (read_list_begin_spec t (lenZ l) d (concat (map val_bytes l) ++ q)) by (try done; rewrite ?length_app; lia).
  rewrite Nat2Z.id. intros E2.
  pose proof (skipped_advance (td_nesting_level d) _ _ d W Hd E Hb) as S1. eapply (skipped_trans _ _ _ q); [done|done|done|].
  set (d1 := td_advance _ _) in *. change (td_nesting_level d) with (td_nesting_level d1).
  rewrite <- (length_map val_bytes l) in E2.
  apply (repeat_ok_skips (thrift_skip f t) room) with (q := q); try apply S1; [|by apply (td_advance_rest d)|done|done].
  apply Forall_map. rewrite Forall_forall in *. intros v Hv. destruct (Hok v Hv) as [Et Ev].
  rewrite <- Et. apply IH; [done|done|]. apply not_bool. lia.
Qed.

Lemma map_skips kt vt l room f : Forall (λ kv, val_skips kv.1 /\ val_skips kv.2) l -> 2 < kt < 16 -> 2 < vt < 16 ->
  lenZ l < 2 ^ 31 ->
  Forall (λ kv, type_of kv.1 = kt /\ type_of kv.2 = vt /\ val_ok room kv.1 /\ val_ok room kv.2) l ->
  skips_by ('(key_type, value_type, count) ← thrift_read_map_begin;
      repeat_ok (Z.to_nat count) (thrift_skip f key_type;; thrift_skip f value_type)) room
    (map_bytes kt vt (lenZ l) ++ concat (map (λ kv, val_bytes kv.1 ++ val_bytes kv.2) l)).
Proof.
  intros IH Hkt Hvt Hl Hok d q d' W Hd E Hr Hb. rewrite <- app_assoc in E.
  assert (lenZ l <= lenZ (concat (map (λ kv, val_bytes kv.1 ++ val_bytes kv.2) l))) as Hn.
  { apply concat_length_ge. apply (Forall_impl _ _ _ Hok). intros kv (_ & _ & ? & _). rewrite length_app.
    pose proof (val_bytes_nonempty room kv.1 H). lia. }
  unfold mbind at 1, tdec_bind at 1. rewrite (read_map_begin_spec kt vt (lenZ l) d _ ltac:(lia) ltac:(lia) ltac:(lia) W Hd E) by (rewrite length_app; lia).
  pose proof (skipped_advance (td_nesting_level d) _ _ d W Hd E Hb) as S1.
  destruct (Z.eqb_spec (lenZ l) 0) as [E0|E0].
  { destruct l; [|cbn in E0; lia]. intros [= <-]. cbn [map concat]. rewrite app_nil_r. exact S1. }
  rewrite Nat2Z.id. intros E2. eapply (skipped_trans _ _ _ q); [done|done|done|].
  set (d1 := td_advance _ _) in *. change (td_nesting_level d) with (td_nesting_level d1).
  rewrite <- (length_map (λ kv, val_bytes kv.1 ++ val_bytes kv.2) l) in E2.
  apply (repeat_ok_skips (thrift_skip f kt;; thrift_skip f vt) room) with (q := q); try apply S1; [|by apply (td_advance_rest d)|done|done].
  apply Forall_map. rewrite Forall_forall in *. intros kv Hv. destruct (Hok kv Hv) as (Ek & Ev & Ok & Ov).
  destruct (IH kv Hv) as [Ik Iv]. apply skips_by_bind.
  - rewrite <- Ek. apply Ik; [done|]. apply not_bool. lia.
  - rewrite <- Ev. apply Iv; [done|]. apply not_bool. lia.
Qed.

Lemma skip_bool_spec fuel t d d' : (t = 1 \/ t = 2) -> td_ok d -> thrift_skip fuel t d = Some ((), d') ->
  d' = set_bool false (td_bool_value d) d.
Proof.
  intros Ht Hok. destruct fuel as [|fuel]; [done|]. cbn [thrift_skip]. unfold mbind at 1, tdec_bind at 1, gets.
  rewrite Hok. cbn [negb]. destruct Ht as [-> | ->]; by intros [= <-].
Qed.

Lemma after_field_wf d t id : td_wf d -> in_i 16 id -> td_wf (after_field d t id).
Proof.
  intros W Hid. unfold after_field. set (d1 := if 0 <? _ then _ else _). assert (td_wf d1) as W1.
  { unfold d1. case_bool; [|done]. destruct (W). apply (ts_wf 0 d), set_ids_step; [done|by rewrite length_insert|by apply Forall_insert|lia]. }
  destruct (t =? 1); [by apply (ts_wf 0 d1), set_bool_step|]. destruct (t =? 2); [by apply (ts_wf 0 d1), set_bool_step|done].
Qed.

Lemma after_field_frame d t id : 0 < td_nesting_level d -> td_reader (after_field d t id) = td_reader d /\
  td_nesting_level (after_field d t id) = td_nesting_level d /\ td_status (after_field d t id) = td_status d /\
  td_last_field_id (after_field d t id) = <[Z.to_nat (td_nesting_level d - 1) := id]> (td_last_field_id d) /\
  (2 < t -> td_bool_pending (after_field d t id) = td_bool_pending d).
Proof.
  intros Hl. unfold after_field. decide_bool. destruct (Z.eqb_spec t 1) as [->|]; [|destruct (Z.eqb_spec t 2) as [->|]];
    split_and!; (done || lia).
Qed.

Lemma td_last_insert ids level id d : td_last_field_id d = <[Z.to_nat (level - 1) := id]> ids -> td_nesting_level d = level ->
  length ids = 32%nat -> 0 < level <= 32 -> td_last d = id.
Proof.
  intros E1 E2 Hl Hlev. unfold td_last. rewrite E1, E2. decide_bool. rewrite list_lookup_insert_eq by lia. done.
Qed.

Lemma td_last_take d d' : td_nesting_level d' = td_nesting_level d -> 0 < td_nesting_level d ->
  take (Z.to_nat (td_nesting_level d)) (td_last_field_id d') = take (Z.to_nat (td_nesting_level d)) (td_last_field_id d) ->
  td_last d' = td_last d.
Proof.
  intros EL Hl ET. unfold td_last. rewrite EL. decide_bool. f_equal.
  rewrite <- (lookup_take_lt (td_last_field_id d') (Z.to_nat (td_nesting_level d))) by lia.
  rewrite ET, lookup_take_lt by lia. done.
Qed.

(** One field: its header, then its value. *)
Lemma field_skips d q d' id v f room : td_wf d -> td_ok d -> 0 < td_nesting_level d -> td_bool_pending d = false ->
  in_i 16 id -> val_ok room v -> val_skips v -> td_nesting_level d + room <= 32 ->
  td_rest d = field_bytes (td_last d) (type_of v) id ++ (if is_bool v then [] else val_bytes v) ++ q ->
  thrift_skip f (type_of v) (after_field (td_advance d (lenZ (field_bytes (td_last d) (type_of v) id))) (type_of v) id) = Some ((), d') ->
  skipped (td_nesting_level d - 1) (field_bytes (td_last d) (type_of v) id ++ (if is_bool v then [] else val_bytes v)) d d' /\
  td_last d' = id.
Proof.
  intros W Hok Hl Hb Hid Hv IHv Hroom E. set (h := field_bytes _ _ _) in *.
  pose proof (td_advance_wf _ _ _ W E) as W1. pose proof (td_advance_rest _ _ _ W E) as E1.
  set (d1 := td_advance d (lenZ h)) in *. pose proof (after_field_wf d1 (type_of v) id W1 Hid) as W2.
  destruct (after_field_frame d1 (type_of v) id Hl) as (FR & FL & FS & FI & FB).
  set (d2 := after_field d1 (type_of v) id) in *. destruct (W) as [_ _ HL HF Hlev].
  assert (td_ok d2) as Hok2 by (rewrite FS; exact Hok).
  assert (take (Z.to_nat (td_nesting_level d - 1)) (td_last_field_id d2) = take (Z.to_nat (td_nesting_level d - 1)) (td_last_field_id d)) as FT.
  { rewrite FI. apply take_insert_ge. change (td_nesting_level d1) with (td_nesting_level d). lia. }
  pose proof (td_last_insert _ _ id d2 FI FL HL ltac:(cbn; lia)) as Hlast.
  destruct (is_bool v) eqn:Hbool; intros Es.
  - assert (type_of v = 1 \/ type_of v = 2) as Ht by (destruct v as [[]| | | | | | | | | | |]; auto; done).
    apply skip_bool_spec in Es as ->; [|done|done]. split; [|exact Hlast]. rewrite app_nil_r.
    split; [by apply (ts_wf 0 d2), set_bool_step|done|exact FR|exact FL|exact FT|done].
  - pose proof (proj2 (type_of_range v) Hbool) as Ht.
    assert (td_rest d2 = val_bytes v ++ q) as E2 by (unfold td_rest; rewrite FR; exact E1).
    pose proof (IHv room Hv Hbool f d2 q d' W2 Hok2 E2) as S. rewrite FL in S.
    specialize (S Hroom ltac:(rewrite FB by done; exact Hb) Es).
    split.
    + destruct S as [SW SO SR SL SI SB]. split; [done|done| |by rewrite SL, FL| |done].
      * rewrite SR, FR. exact (f_equal td_reader (td_advance_add d h (val_bytes v) q W E)).
      * rewrite <- FT. apply (f_equal (take (Z.to_nat (td_nesting_level d - 1)))) in SI. rewrite !take_take in SI.
        change (td_nesting_level d1) with (td_nesting_level d) in SI. by rewrite !Nat.min_l in SI by lia.
    + rewrite <- Hlast. apply td_last_take; [by rewrite (sk_level _ _ _ _ S)|rewrite FL; exact Hl|].
      rewrite FL. apply (sk_ids _ _ _ _ S).
Qed.

Lemma fields_skip fs room f : Forall (λ g, val_skips g.2) fs -> Forall (λ g, in_i 16 g.1 /\ val_ok room g.2) fs ->
  forall fuel d q d', td_wf d -> td_ok d -> 0 < td_nesting_level d -> td_bool_pending d = false ->
  td_nesting_level d + room <= 32 -> td_rest d = fields_bytes (td_last d) fs ++ q ->
  while_field fuel (thrift_skip f) d = Some ((), d') ->
  skipped (td_nesting_level d - 1) (fields_bytes (td_last d) fs) d d'.
Proof.
  intros IH. induction IH as [|[id v] fs Hv _ IH']; intros Hok fuel d q d' W Hd Hl Hb Hroom E;
    (destruct fuel as [|fuel]; [done|]); cbn [while_field fields_with] in *; unfold mbind at 1, tdec_bind at 1.
  - rewrite (read_field_stop_spec d q W Hd E). intros [= <-]. by apply (skipped_advance _ [0] q).
  - apply Forall_cons_iff in Hok as [[Hid Hvo] Hok]. cbn [fst snd] in *. rewrite <- !app_assoc in E.
    pose proof (type_of_range v) as [Ht _].
    rewrite (read_field_begin_spec (type_of v) id d _ ltac:(lia) Hid W Hd E). unfold mbind, tdec_bind.
    destruct (thrift_skip f (type_of v) _) as [[[] d1]|] eqn:Es; [|done]. intros Ew.
    destruct (field_skips d _ d1 id v f room W Hd Hl Hb Hid Hvo Hv Hroom E Es) as [S1 L1].
    rewrite app_assoc in E. pose proof (skipped_rest _ _ _ _ _ W E S1) as R1. rewrite <- L1 in R1, E |- *.
    rewrite app_assoc. eapply (skipped_trans _ _ _ q); [done|rewrite L1; rewrite L1 in E; done|rewrite L1; exact S1|].
    rewrite <- (sk_level _ _ _ _ S1) in Hroom, Hl |- *.
    apply (IH' Hok fuel d1 q d'); try apply S1; done.
Qed.

Lemma struct_skips fs room f : Forall (λ g, val_skips g.2) fs -> 0 < room ->
  Forall (λ g, in_i 16 g.1 /\ val_ok (room - 1) g.2) fs ->
  skips_by (thrift_read_struct_begin;; while_field f (thrift_skip f);; thrift_read_struct_end) room (fields_bytes 0 fs).
Proof.
  intros IH Hroom Hok d q d' W Hd E Hr Hb. destruct (W) as [_ _ HL HF Hlev].
  unfold thrift_read_struct_begin, mbind, tdec_bind, gets, THRIFT_MAX_NESTING. rewrite Z.geb_leb. decide_bool.
  unfold checked. rewrite wr_Some by lia. cbn [mbind option_bind modify]. unfold modify.
  set (d1 := set_ids _ _ d). assert (td_wf d1) as W1.
  { apply (ts_wf 0 d), set_ids_step; [done|by rewrite length_insert| |lia]. apply Forall_insert; [done|unfold in_i; lia]. }
  assert (td_last d1 = 0) as L1.
  { apply (td_last_insert (td_last_field_id d) (td_nesting_level d + 1)); [|done|done|lia].
    unfold d1. cbn. f_equal. lia. }
  destruct (while_field f (thrift_skip f) d1) as [[[] d2]|] eqn:Ew; [|done]. intros [= <-].
  rewrite <- L1 in E |- *.
  pose proof (fields_skip fs (room - 1) f IH Hok f d1 q d2 W1 Hd ltac:(cbn; lia) Hb ltac:(cbn; lia) E Ew) as S.
  destruct S as [SW SO SR SL SI SB]. change (td_nesting_level d1) with (td_nesting_level d + 1) in *.
  rewrite Z.add_simpl_r in SI. unfold thrift_read_struct_end, modify. rewrite SL, Z.gtb_ltb. decide_bool. destruct (SW).
  split; cbn; [|done|exact SR|lia| |done].
  - apply (ts_wf 0 d2), set_ids_step; (done || lia).
  - rewrite SI. unfold d1. cbn. by apply take_insert_ge.
Qed.

Lemma all_skip v : val_skips v.
Proof.
  induction v using tval_nested_ind; intros room Hv Hb fuel; cbn [type_of val_bytes val_ok] in *; [done|..];
    (destruct fuel as [|fuel]; [done|]); intros d q d' W Hok E Hr Hp;
    cbn [thrift_skip]; unfold mbind at 1, tdec_bind at 1, gets; rewrite Hok; cbn [negb].
  - apply (skips_by_reads (skip_raw 1) room [u8 v]) with (q := q); [apply (reads_skip_raw [u8 v]); cbn; lia|done..].
  - apply (skips_by_reads (thrift_read_varint;; mret ()) room (zz v)) with (q := q); [|done..].
    apply (reads_unit _ _ (carquet_zigzag_encode64 v)), reads_varint, zigzag_encode64_range. unfold in_i in *. lia.
  - apply (skips_by_reads (thrift_read_varint;; mret ()) room (zz v)) with (q := q); [|done..].
    apply (reads_unit _ _ (carquet_zigzag_encode64 v)), reads_varint, zigzag_encode64_range. unfold in_i in *. lia.
  - apply (skips_by_reads (thrift_read_varint;; mret ()) room (zz v)) with (q := q); [|done..].
    apply (reads_unit _ _ (carquet_zigzag_encode64 v)), reads_varint, zigzag_encode64_range. done.
  - apply (skips_by_reads (skip_raw 8) room (le_bytes 8 v)) with (q := q); [|done..].
    apply (reads_skip_raw (le_bytes 8 v)). rewrite length_le_bytes. lia.
  - destruct Hv as [? ?]. destruct (read_binary_spec bs d q) as (p & Ep & _); [done..|].
    intros Es. assert (d' = td_advance d (lenZ (uleb (lenZ bs) ++ bs))) as ->.
    { change ((thrift_read_binary;; mret ()) d = Some ((), d')) in Es. revert Es.
      unfold mbind, tdec_bind. rewrite Ep. by intros [= <-]. }
    by apply (skipped_advance _ _ q).
  - destruct Hv as [? Hl]. apply (skips_by_reads (skip_raw 16) room bs) with (q := q); [|done..].
    replace 16 with (lenZ bs) by lia. apply reads_skip_raw. lia.
  - destruct Hv as (? & ? & Hv). rewrite foldr_and_Forall in Hv.
    by apply (list_skips t l room fuel) with (q := q).
  - destruct Hv as (? & ? & Hv). rewrite foldr_and_Forall in Hv.
    by apply (list_skips t l room fuel) with (q := q).
  - destruct Hv as (? & ? & ? & Hv). rewrite foldr_and_Forall in Hv.
    by apply (map_skips kt vt l room fuel) with (q := q).
  - destruct Hv as (? & Hv). rewrite foldr_and_Forall in Hv.
    by apply (struct_skips fs room fuel) with (q := q).
Qed.

(** C25: skipping consumes exactly the value.  In front of the bytes the writer produces
    for any nested value (structs with fields in any id order, lists, sets and maps of
    non-boolean elements, at most 32 structs deep), [thrift_skip] succeeds, stops exactly
    after those bytes and leaves the field-id tracking of the enclosing structs as it
    was, so the next field header is decoded correctly. *)
Theorem thrift_skip_exact v d q st fuel : td_wf d -> td_ok d -> td_bool_pending d = false ->
  is_bool v = false -> val_ok (32 - td_nesting_level d) v ->
  td_rest d = wops_bytes st (val_ops v) ++ q ->
  reader_size (td_reader d) - td_pos d + 3 <= Z.of_nat fuel ->
  exists d', thrift_skip fuel (type_of v) d = Some ((), d') /\ td_wf d' /\ td_ok d' /\
    td_rest d' = q /\ td_nesting_level d' = td_nesting_level d /\ td_bool_pending d' = false /\
    take (Z.to_nat (td_nesting_level d)) (td_last_field_id d') = take (Z.to_nat (td_nesting_level d)) (td_last_field_id d).
Proof.
  intros W Hok Hb Hnb Hv E Hf. destruct (val_ops_exact v st) as [EB _]. rewrite EB in E.
  destruct (skip_total fuel (type_of v) d W) as (d' & Es & _).
  { unfold td_measure. rewrite Hok. lia. }
  pose proof (all_skip v _ Hv Hnb fuel d q d' W Hok E ltac:(lia) Hb Es) as S.
  exists d'. split; [done|]. split; [apply S|]. split; [apply S|]. split; [by apply (skipped_rest _ _ _ _ _ W E S)|].
  split_and!; apply S.
Qed.

Lemma thrift_skip_exact_witness :
  let v := VStruct [(1, VI32 300); (2, VBool true); (3, VList 12 [VStruct [(1, VBinary [97; 98])]])] in
  let bs := wops_bytes [] (val_ops v) in
  let d := thrift_decoder_init (bs ++ [7; 7]) (lenZ bs + 2) in
  exists d', thrift_skip 40 (type_of v) d = Some ((), d') /\ td_rest d' = [7; 7].
Proof.
  intros v bs d. destruct (thrift_skip_exact v d [7; 7] [] 40) as (d' & E & _ & _ & R & _).
  - apply thrift_decoder_init_wf; [apply (bool_decide_unpack _); vm_compute; exact I|vm_compute; split; discriminate|vm_compute; reflexivity].
  - reflexivity.
  - reflexivity.
  - reflexivity.
  - cbn. unfold in_i. repeat split; try lia. repeat constructor; unfold in_u; lia.
  - vm_compute. reflexivity.
  - vm_compute. discriminate.
  - exists d'. split; [exact E|exact R].
Defined.

(** Booleans in a list are one byte each for [thrift_write_bool] and [thrift_read_bool],
    but [thrift_skip] steps over none of them: after skipping a list of two booleans the
    cursor is on the first element. *)
Lemma thrift_skip_bool_list :
  let bs := wops_bytes [] (val_ops (VList 1 [VBool true; VBool false])) in
  exists d', thrift_skip 40 THRIFT_TYPE_LIST (thrift_decoder_init bs (lenZ bs)) = Some ((), d') /\
    td_ok d' /\ lenZ bs = 3 /\ td_pos d' = 1.
Proof. eexists. split; [vm_compute; reflexivity|]. done. Qed.

(** A truncated byte, double or UUID is skipped without an error. *)
Lemma thrift_skip_truncated_double :
  exists d', thrift_skip 40 THRIFT_TYPE_DOUBLE (thrift_decoder_init [1; 2; 3] 3) = Some ((), d') /\
    td_ok d' /\ td_pos d' = 0.
Proof. eexists. split; [vm_compute; reflexivity|]. done. Qed.
