(* ===== verification/ByteStreamSplit.v ===== *)
(** * BYTE_STREAM_SPLIT (carquet/encoding/byte_stream_split.c, simd/dispatch.c)

    Transposition of the bytes of fixed-width values: byte [b] of every value goes to
    stream [b].  Values are their bytes, as the code reads them through [uint8_t*].
    The file has the scalar kernels, the cache-tiled decoders and the public functions,
    and proves that decoding inverts encoding on every path. *)

From S2P Require Import Prelude Status.

(** A nested [for] loop of byte copies [dst[d] = src[s]] is the list of its index pairs
    in order. *)
Fixpoint run_copies (pairs : list (Z * Z)) (src dst : list Z) : option (list Z) :=
  match pairs with
  | [] => Some dst
  | (d, s) :: pairs => x ← rd src s; dst ← wr dst d x; run_copies pairs src dst
  end.

(** [for (i = 0; i < count; i++) for (b = 0; b < width; b++)] *)
Definition by_value (width count : Z) (f : Z -> Z -> Z * Z) : list (Z * Z) :=
  mjoin ((λ i, (λ b, f i b) <$> seqZ 0 width) <$> seqZ 0 count).

(** [for (b = 0; b < width; b++) for (i = 0; i < count; i++)] *)
Definition by_stream (width count : Z) (f : Z -> Z -> Z * Z) : list (Z * Z) :=
  mjoin ((λ b, (λ i, f i b) <$> seqZ 0 count) <$> seqZ 0 width).

(** ** Kernels *)

Definition split_encode (width : Z) (values : list Z) (count : Z) (output : list Z) : option (list Z) :=
  run_copies (by_value width count (λ i b, (b * count + i, i * width + b))) values output.

(** [dst] is [base] bytes into the destination array. *)
Definition split_decode (width : Z) (data : list Z) (count : Z) (base : Z) (values : list Z) : option (list Z) :=
  run_copies (by_value width count (λ i b, (base + (i * width + b), b * count + i))) data values.

Definition scalar_byte_split_encode_float := split_encode 4.
Definition scalar_byte_split_decode_float := split_decode 4.
Definition scalar_byte_split_encode_double := split_encode 8.
Definition scalar_byte_split_decode_double := split_decode 8.

(** ** Cache-tiled decoding *)

Definition BSS_TILE_FLOAT : Z := 65536.
Definition BSS_TILE_DOUBLE : Z := 32768.

(** [memcpy(dst + doff, src + soff, n)] *)
Definition copy_range (dst : list Z) (doff : Z) (src : list Z) (soff n : Z) : option (list Z) :=
  bs ← rd_n src soff n;
  if (0 <=? doff) && (doff + n <=? lenZ dst)
  then Some (take (Z.to_nat doff) dst ++ bs ++ drop (Z.to_nat (doff + n)) dst) else None.

(** [for (s = 0; s < streams; s++) memcpy(tile + s * n, data + s * count + offset, n)] *)
Fixpoint gather_tile (streams : nat) (s : Z) (tile data : list Z) (n count offset : Z) : option (list Z) :=
  match streams with
  | O => Some tile
  | S streams =>
      tile ← copy_range tile (s * n) data (s * count + offset) n;
      gather_tile streams (s + 1) tile data n count offset
  end.

Fixpoint tiled_loop (fuel : nat) (width tile_size : Z) (tile data : list Z) (count offset : Z) (values : list Z)
    : option (list Z) :=
  if offset <? count then
    match fuel with
    | O => None
    | S fuel =>
        let n := count - offset in
        let n := if n >? tile_size then tile_size else n in
        tile ← gather_tile (Z.to_nat width) 0 tile data n count offset;
        values ← split_decode width tile n (offset * width) values;
        tiled_loop fuel width tile_size tile data count (offset + n) values
    end
  else Some values.

(** [tile0] is the uninitialised stack buffer. *)
Definition bss_decode_tiled (width tile_size : Z) (tile0 data : list Z) (count : Z) (values : list Z) : option (list Z) :=
  if count <=? tile_size then split_decode width data count 0 values
  else tiled_loop (Z.to_nat count) width tile_size tile0 data count 0 values.

Definition carquet_bss_decode_float_tiled := bss_decode_tiled 4 BSS_TILE_FLOAT.
Definition carquet_bss_decode_double_tiled := bss_decode_tiled 8 BSS_TILE_DOUBLE.

(** ** Public functions

    Null pointers are [None].  The result is the status, the output array and
    [*bytes_written]. *)

Definition carquet_byte_stream_split_encode (values : option (list Z)) (count type_length : Z)
    (output : option (list Z)) (output_capacity : Z) : option (carquet_status_t * option (list Z) * option Z) :=
  match values, output with
  | Some vs, Some out =>
      if type_length <=? 0 then Some (CARQUET_ERROR_INVALID_ARGUMENT, output, None) else
      let required_size := u64 (u64 count * u64 type_length) in
      if output_capacity <? required_size then Some (CARQUET_ERROR_ENCODE, output, None) else
      if type_length =? 4 then
        out ← scalar_byte_split_encode_float vs count out; Some (CARQUET_OK, Some out, Some required_size)
      else if type_length =? 8 then
        out ← scalar_byte_split_encode_double vs count out; Some (CARQUET_OK, Some out, Some required_size)
      else
        out ← run_copies (by_stream type_length count (λ i b, (b * count + i, i * type_length + b))) vs out;
        Some (CARQUET_OK, Some out, Some required_size)
  | _, _ => Some (CARQUET_ERROR_INVALID_ARGUMENT, output, None)
  end.

Definition carquet_byte_stream_split_decode (tile4 tile8 : list Z) (data : option (list Z)) (data_size type_length : Z)
    (values : option (list Z)) (count : Z) : option (carquet_status_t * option (list Z)) :=
  match data, values with
  | Some p, Some vs =>
      if type_length <=? 0 then Some (CARQUET_ERROR_INVALID_ARGUMENT, values) else
      let required_size := u64 (u64 count * u64 type_length) in
      if data_size <? required_size then Some (CARQUET_ERROR_DECODE, values) else
      if type_length =? 4 then
        vs ← carquet_bss_decode_float_tiled tile4 p count vs; Some (CARQUET_OK, Some vs)
      else if type_length =? 8 then
        vs ← carquet_bss_decode_double_tiled tile8 p count vs; Some (CARQUET_OK, Some vs)
      else
        vs ← run_copies (by_value type_length count (λ i b, (i * type_length + b, b * count + i))) p vs;
        Some (CARQUET_OK, Some vs)
  | _, _ => Some (CARQUET_ERROR_INVALID_ARGUMENT, values)
  end.

Definition carquet_byte_stream_split_encode_float (values : option (list Z)) (count : Z)
    (output : option (list Z)) (output_capacity : Z) : option (carquet_status_t * option (list Z) * option Z) :=
  match values, output with
  | Some vs, Some out =>
      let required_size := u64 (u64 count * 4) in
      if output_capacity <? required_size then Some (CARQUET_ERROR_ENCODE, output, None) else
      out ← scalar_byte_split_encode_float vs count out; Some (CARQUET_OK, Some out, Some required_size)
  | _, _ => Some (CARQUET_ERROR_INVALID_ARGUMENT, output, None)
  end.

Definition carquet_byte_stream_split_decode_float (tile4 : list Z) (data : option (list Z)) (data_size : Z)
    (values : option (list Z)) (count : Z) : option (carquet_status_t * option (list Z)) :=
  match data, values with
  | Some p, Some vs =>
      let required_size := u64 (u64 count * 4) in
      if data_size <? required_size then Some (CARQUET_ERROR_DECODE, values) else
      vs ← carquet_bss_decode_float_tiled tile4 p count vs; Some (CARQUET_OK, Some vs)
  | _, _ => Some (CARQUET_ERROR_INVALID_ARGUMENT, values)
  end.

Definition carquet_byte_stream_split_encode_double (values : option (list Z)) (count : Z)
    (output : option (list Z)) (output_capacity : Z) : option (carquet_status_t * option (list Z) * option Z) :=
  match values, output with
  | Some vs, Some out =>
      let required_size := u64 (u64 count * 8) in
      if output_capacity <? required_size then Some (CARQUET_ERROR_ENCODE, output, None) else
      out ← scalar_byte_split_encode_double vs count out; Some (CARQUET_OK, Some out, Some required_size)
  | _, _ => Some (CARQUET_ERROR_INVALID_ARGUMENT, output, None)
  end.

Definition carquet_byte_stream_split_decode_double (tile8 : list Z) (data : option (list Z)) (data_size : Z)
    (values : option (list Z)) (count : Z) : option (carquet_status_t * option (list Z)) :=
  match data, values with
  | Some p, Some vs =>
      let required_size := u64 (u64 count * 8) in
      if data_size <? required_size then Some (CARQUET_ERROR_DECODE, values) else
      vs ← carquet_bss_decode_double_tiled tile8 p count vs; Some (CARQUET_OK, Some vs)
  | _, _ => Some (CARQUET_ERROR_INVALID_ARGUMENT, values)
  end.

(** ** Copy loops *)

Lemma elem_by_value w c f p : p ∈ by_value w c f <-> exists i b, 0 <= i < c /\ 0 <= b < w /\ p = f i b.
Proof.
  unfold by_value. rewrite list_elem_of_join. split.
  - intros (l & Hp & Hl). apply list_elem_of_fmap in Hl as (i & -> & Hi). apply list_elem_of_fmap in Hp as (b & -> & Hb).
    apply elem_of_seqZ in Hi. apply elem_of_seqZ in Hb. exists i, b. split; [lia|]. split; [lia|done].
  - intros (i & b & Hi & Hb & ->). eexists. split; [|apply list_elem_of_fmap; exists i; split; [done|apply elem_of_seqZ; lia]].
    apply list_elem_of_fmap. exists b. split; [done|apply elem_of_seqZ; lia].
Qed.

Lemma elem_by_stream w c f p : p ∈ by_stream w c f <-> exists i b, 0 <= i < c /\ 0 <= b < w /\ p = f i b.
Proof.
  unfold by_stream. rewrite list_elem_of_join. split.
  - intros (l & Hp & Hl). apply list_elem_of_fmap in Hl as (b & -> & Hb). apply list_elem_of_fmap in Hp as (i & -> & Hi).
    apply elem_of_seqZ in Hi. apply elem_of_seqZ in Hb. exists i, b. split; [lia|]. split; [lia|done].
  - intros (i & b & Hi & Hb & ->). eexists. split; [|apply list_elem_of_fmap; exists b; split; [done|apply elem_of_seqZ; lia]].
    apply list_elem_of_fmap. exists i. split; [done|apply elem_of_seqZ; lia].
Qed.

(** Copies whose destinations determine their sources. *)
Lemma run_copies_spec src pairs : forall dst,
  (forall d s, (d, s) ∈ pairs -> 0 <= d < lenZ dst /\ 0 <= s < lenZ src) ->
  (forall d s s', (d, s) ∈ pairs -> (d, s') ∈ pairs -> s = s') ->
  exists dst', run_copies pairs src dst = Some dst' /\ length dst' = length dst /\
    (forall d s, (d, s) ∈ pairs -> rd dst' d = rd src s) /\
    (forall k, (forall s, (k, s) ∉ pairs) -> rd dst' k = rd dst k).
Proof.
  induction pairs as [|[d s] pairs IH]; intros dst HR HF; cbn [run_copies].
  { exists dst. split_and!; [done|done|intros ? ? Hin; by apply elem_of_nil in Hin|done]. }
  destruct (HR d s) as [Hd Hs]; [constructor|]. destruct (rd_Some src s Hs) as [x Ex]. rewrite Ex. cbn [mbind option_bind].
  rewrite wr_Some by done. cbn [mbind option_bind].
  destruct (IH (<[Z.to_nat d:=x]> dst)) as (dst' & E & L & G & U).
  { intros d' s' Hin. rewrite length_insert. apply HR. by constructor. }
  { intros d' s1 s2 H1 H2. apply (HF d'); by constructor. }
  rewrite length_insert in L. exists dst'. split; [done|]. split; [done|]. split.
  - intros d' s' Hin. destruct (decide (d' ∈ pairs.*1)) as [H0|Hno].
    + apply list_elem_of_fmap in H0 as ([d1 s1] & E1 & H1). cbn in E1. subst d1. rewrite (G d' s1 H1). f_equal. apply (HF d'); [by constructor|done].
    + apply elem_of_cons in Hin as [[= -> ->]|Hin]; [|destruct Hno; apply list_elem_of_fmap; by exists (d', s')].
      rewrite U, Ex by (intros s1 H1; apply Hno; apply list_elem_of_fmap; by exists (d, s1)).
      rewrite rd_lookup by lia. apply list_lookup_insert_eq. lia.
  - intros k Hk. rewrite U by (intros s1 H1; apply (Hk s1); by constructor).
    destruct (Z.lt_ge_cases k 0); [unfold rd; by decide_bool|]. rewrite !rd_lookup by lia.
    apply list_lookup_insert_ne. intros E'. apply (Hk s). replace k with d by lia. constructor.
Qed.

(** ** Transposition *)

Definition split_of (w c : Z) (values streams : list Z) : Prop :=
  forall i b, 0 <= i < c -> 0 <= b < w -> rd streams (b * c + i) = rd values (i * w + b).

Lemma stream_index w c i b : 0 <= i < c -> 0 <= b < w -> 0 <= b * c + i < w * c.
Proof. nia. Qed.

Lemma value_index w c i b : 0 <= i < c -> 0 <= b < w -> 0 <= i * w + b < w * c.
Proof. nia. Qed.

Lemma index_inj c i b i' b' : 0 <= i < c -> 0 <= i' < c -> b * c + i = b' * c + i' -> b = b' /\ i = i'.
Proof. intros. assert (b = b') by nia. nia. Qed.

Lemma encode_pairs_spec pairs w c vs out :
  (forall p, p ∈ pairs <-> exists i b, 0 <= i < c /\ 0 <= b < w /\ p = (b * c + i, i * w + b)) ->
  w * c <= lenZ vs -> w * c <= lenZ out ->
  exists out', run_copies pairs vs out = Some out' /\ length out' = length out /\ split_of w c vs out' /\
    forall k, w * c <= k -> rd out' k = rd out k.
Proof.
  intros HP Hv Ho. destruct (run_copies_spec vs pairs out) as (out' & E & L & G & U).
  { intros d s Hin. apply HP in Hin as (i & b & Hi & Hb & [= -> ->]).
    pose proof (stream_index w c i b Hi Hb). pose proof (value_index w c i b Hi Hb). lia. }
  { intros d s s' H1 H2. apply HP in H1 as (i & b & Hi & Hb & [= -> ->]). apply HP in H2 as (i' & b' & Hi' & Hb' & [= E1 ->]).
    destruct (index_inj c i b i' b' Hi Hi' E1) as [-> ->]. done. }
  exists out'. split; [done|]. split; [done|]. split.
  - intros i b Hi Hb. apply G, HP. by exists i, b.
  - intros k Hk. apply U. intros s Hin. apply HP in Hin as (i & b & Hi & Hb & [= -> ->]).
    pose proof (stream_index w c i b Hi Hb). lia.
Qed.

Lemma decode_pairs_spec pairs w c base data vs : 0 <= base -> 
  (forall p, p ∈ pairs <-> exists i b, 0 <= i < c /\ 0 <= b < w /\ p = (base + (i * w + b), b * c + i)) ->
  w * c <= lenZ data -> base + w * c <= lenZ vs ->
  exists vs', run_copies pairs data vs = Some vs' /\ length vs' = length vs /\
    (forall i b, 0 <= i < c -> 0 <= b < w -> rd vs' (base + (i * w + b)) = rd data (b * c + i)) /\
    forall k, k < base \/ base + w * c <= k -> rd vs' k = rd vs k.
Proof.
  intros Hbase HP Hd Hv. destruct (run_copies_spec data pairs vs) as (vs' & E & L & G & U).
  { intros d s Hin. apply HP in Hin as (i & b & Hi & Hb & [= -> ->]).
    pose proof (stream_index w c i b Hi Hb). pose proof (value_index w c i b Hi Hb). lia. }
  { intros d s s' H1 H2. apply HP in H1 as (i & b & Hi & Hb & [= -> ->]). apply HP in H2 as (i' & b' & Hi' & Hb' & [= E1 ->]).
    destruct (index_inj w b i b' i' Hb Hb' ltac:(lia)) as [-> ->]. done. }
  exists vs'. split; [done|]. split; [done|]. split.
  - intros i b Hi Hb. apply G, HP. by exists i, b.
  - intros k Hk. apply U. intros s Hin. apply HP in Hin as (i & b & Hi & Hb & [= -> ->]).
    pose proof (value_index w c i b Hi Hb). lia.
Qed.

Lemma split_decode_spec w c base data vs : 0 <= base -> w * c <= lenZ data -> base + w * c <= lenZ vs ->
  exists vs', split_decode w data c base vs = Some vs' /\ length vs' = length vs /\
    (forall i b, 0 <= i < c -> 0 <= b < w -> rd vs' (base + (i * w + b)) = rd data (b * c + i)) /\
    forall k, k < base \/ base + w * c <= k -> rd vs' k = rd vs k.
Proof. intros. apply decode_pairs_spec; auto. intros p. apply elem_by_value. Qed.

(** ** Tiles *)

Lemma copy_range_spec dst doff src soff n : 0 <= doff -> 0 <= n -> 0 <= soff -> doff + n <= lenZ dst -> soff + n <= lenZ src ->
  exists dst', copy_range dst doff src soff n = Some dst' /\ length dst' = length dst /\
    (forall j, 0 <= j < n -> rd dst' (doff + j) = rd src (soff + j)) /\
    (forall k, k < doff \/ doff + n <= k -> rd dst' k = rd dst k).
Proof.
  intros. unfold copy_range. rewrite rd_n_Some by lia. cbn [mbind option_bind]. decide_bool.
  eexists. split; [done|].
  assert (length (take (Z.to_nat n) (drop (Z.to_nat soff) src)) = Z.to_nat n) as Lb
    by (rewrite length_take, length_drop; lia).
  assert (length (take (Z.to_nat doff) dst) = Z.to_nat doff) as La by (rewrite length_take; lia).
  split; [rewrite !length_app, La, Lb, length_drop; lia|]. split.
  - intros j Hj. rewrite !rd_lookup by lia. rewrite lookup_app_r by lia. rewrite lookup_app_l by lia.
    rewrite lookup_take_lt by lia. rewrite lookup_drop. f_equal. lia.
  - intros k Hk. destruct (Z.lt_ge_cases k 0); [unfold rd; by decide_bool|]. rewrite !rd_lookup by lia. destruct Hk.
    + rewrite lookup_app_l by lia. rewrite lookup_take_lt by lia. done.
    + rewrite !lookup_app_r by lia. rewrite La, Lb, lookup_drop. f_equal. lia.
Qed.

Lemma gather_tile_spec data n count offset : 0 <= n -> 0 <= offset -> offset + n <= count ->
  forall streams s tile, 0 <= s -> (s + Z.of_nat streams) * n <= lenZ tile -> (s + Z.of_nat streams) * count <= lenZ data ->
  (forall s' j, 0 <= s' < s -> 0 <= j < n -> rd tile (s' * n + j) = rd data (s' * count + offset + j)) ->
  exists tile', gather_tile streams s tile data n count offset = Some tile' /\ length tile' = length tile /\
    forall s' j, 0 <= s' < s + Z.of_nat streams -> 0 <= j < n -> rd tile' (s' * n + j) = rd data (s' * count + offset + j).
Proof.
  intros Hn Ho Hc. induction streams as [|streams IH]; intros s tile Hs Ht Hd HI; cbn [gather_tile].
  { exists tile. rewrite Z.add_0_r in *. done. }
  destruct (copy_range_spec tile (s * n) data (s * count + offset) n) as (t1 & -> & L1 & G1 & U1); [nia|lia|nia|nia|nia|].
  cbn [mbind option_bind]. destruct (IH (s + 1) t1) as (t2 & -> & L2 & G2); [lia|rewrite L1; lia|lia| |].
  { intros s' j Hs' Hj. destruct (Z.eq_dec s' s) as [->|].
    - apply G1. lia.
    - rewrite U1 by nia. apply HI; lia. }
  exists t2. split; [done|]. split; [lia|]. intros s' j Hs' Hj. apply G2; lia.
Qed.

(** The first [m] values are decoded. *)
Definition decoded_upto (w c m : Z) (data vs : list Z) : Prop :=
  forall i b, 0 <= i < m -> 0 <= b < w -> rd vs (i * w + b) = rd data (b * c + i).

Lemma tiled_loop_spec w ts c data : 1 <= w -> 1 <= ts -> w * c <= lenZ data ->
  forall fuel tile offset vs, 0 <= offset <= c -> c - offset <= Z.of_nat fuel -> w * ts <= lenZ tile -> w * c <= lenZ vs ->
  decoded_upto w c offset data vs ->
  exists vs', tiled_loop fuel w ts tile data c offset vs = Some vs' /\ length vs' = length vs /\
    decoded_upto w c c data vs' /\ forall k, w * c <= k -> rd vs' k = rd vs k.
Proof.
  intros Hw Hts Hd. induction fuel as [|fuel IH]; intros tile offset vs Ho Hf Ht Hv HI; cbn [tiled_loop].
  { decide_bool. assert (offset = c) as -> by lia. by exists vs. }
  destruct (Z.ltb_spec offset c); [|assert (offset = c) as -> by lia; by exists vs].
  rewrite Z.gtb_ltb. set (n := if ts <? c - offset then ts else c - offset).
  assert (1 <= n <= ts /\ offset + n <= c) as [Hn Hnc] by (unfold n; case_bool; lia).
  destruct (gather_tile_spec data n c offset) with (streams := Z.to_nat w) (s := 0) (tile := tile) as (t1 & E1 & L1 & G1);
    [lia|lia|lia|lia|rewrite Z2Nat.id by lia; nia|rewrite Z2Nat.id by lia; lia|intros; lia|].
  rewrite E1. cbn [mbind option_bind]. rewrite Z2Nat.id in G1 by lia.
  destruct (split_decode_spec w n (offset * w) t1 vs) as (v1 & -> & Lv1 & Gv1 & Uv1); [nia|rewrite L1; nia|nia|].
  cbn [mbind option_bind].
  destruct (IH t1 (offset + n) v1) as (v2 & -> & Lv2 & Gv2 & Uv2); [lia|lia|rewrite L1; lia|rewrite Lv1; lia| |].
  { intros i b Hi Hb. destruct (Z.lt_ge_cases i offset).
    - rewrite Uv1 by nia. apply HI; lia.
    - replace (i * w + b) with (offset * w + ((i - offset) * w + b)) by lia.
      rewrite Gv1 by lia. rewrite G1 by lia. f_equal. lia. }
  exists v2. split; [done|]. split; [lia|]. split; [done|]. intros k Hk. rewrite Uv2 by done. apply Uv1. nia.
Qed.

Lemma bss_decode_tiled_spec w ts c tile data vs : 1 <= w -> 1 <= ts -> 0 <= c -> w * c <= lenZ data -> w * c <= lenZ vs ->
  w * ts <= lenZ tile ->
  exists vs', bss_decode_tiled w ts tile data c vs = Some vs' /\ length vs' = length vs /\
    decoded_upto w c c data vs' /\ forall k, w * c <= k -> rd vs' k = rd vs k.
Proof.
  intros Hw Hts Hc Hd Hv Ht. unfold bss_decode_tiled. case_bool.
  - destruct (split_decode_spec w c 0 data vs) as (v1 & E & L & G & U); [lia|done|lia|].
    exists v1. split; [done|]. split; [done|]. split; [|intros; apply U; lia].
    intros i b Hi Hb. by rewrite <- (G i b Hi Hb).
  - apply tiled_loop_spec; [done|done|done|lia|lia|done|done|]. intros i b Hi. lia.
Qed.

(** ** Public functions *)

Lemma required_size_spec c w : 0 <= c -> 0 <= w < 2 ^ 31 -> w * c < 2 ^ 63 -> u64 (u64 c * u64 w) = w * c.
Proof.
  intros Hc Hw Hs. destruct (Z.eq_dec w 0) as [->|]; [by rewrite Z.mul_0_r|].
  rewrite (u64_small c), (u64_small w), u64_small by nia. lia.
Qed.

Lemma bss_encode_spec vs c w out cap : 1 <= w < 2 ^ 31 -> 0 <= c -> w * c < 2 ^ 63 -> w * c <= lenZ vs -> cap <= lenZ out ->
  (cap < w * c /\ carquet_byte_stream_split_encode (Some vs) c w (Some out) cap = Some (CARQUET_ERROR_ENCODE, Some out, None)) \/
  (w * c <= cap /\ exists out', carquet_byte_stream_split_encode (Some vs) c w (Some out) cap = Some (CARQUET_OK, Some out', Some (w * c)) /\
     length out' = length out /\ split_of w c vs out' /\ forall k, w * c <= k -> rd out' k = rd out k).
Proof.
  intros Hw Hc Hs Hv Ho. unfold carquet_byte_stream_split_encode. rewrite required_size_spec by lia.
  rewrite (proj2 (Z.leb_gt w 0)) by lia. destruct (Z.ltb_spec cap (w * c)); [by left|]. right. split; [done|].
  destruct (Z.eqb_spec w 4) as [->|]; [|destruct (Z.eqb_spec w 8) as [->|]].
  - destruct (encode_pairs_spec _ 4 c vs out (elem_by_value 4 c _) Hv ltac:(lia)) as (o & E & L & G & U).
    exists o. unfold scalar_byte_split_encode_float, split_encode. by rewrite E.
  - destruct (encode_pairs_spec _ 8 c vs out (elem_by_value 8 c _) Hv ltac:(lia)) as (o & E & L & G & U).
    exists o. unfold scalar_byte_split_encode_double, split_encode. by rewrite E.
  - destruct (encode_pairs_spec _ w c vs out (elem_by_stream w c _) Hv ltac:(lia)) as (o & E & L & G & U).
    exists o. by rewrite E.
Qed.

Lemma bss_decode_spec t4 t8 data size w vs c : 1 <= w < 2 ^ 31 -> 0 <= c -> w * c < 2 ^ 63 -> w * c <= lenZ vs -> size <= lenZ data ->
  4 * BSS_TILE_FLOAT <= lenZ t4 -> 8 * BSS_TILE_DOUBLE <= lenZ t8 -> 
  (size < w * c /\ carquet_byte_stream_split_decode t4 t8 (Some data) size w (Some vs) c = Some (CARQUET_ERROR_DECODE, Some vs)) \/
  (w * c <= size /\ exists vs', carquet_byte_stream_split_decode t4 t8 (Some data) size w (Some vs) c = Some (CARQUET_OK, Some vs') /\
     length vs' = length vs /\ decoded_upto w c c data vs' /\ forall k, w * c <= k -> rd vs' k = rd vs k).
Proof.
  intros Hw Hc Hs Hv Hd H4 H8. unfold carquet_byte_stream_split_decode. rewrite required_size_spec by lia.
  rewrite (proj2 (Z.leb_gt w 0)) by lia. destruct (Z.ltb_spec size (w * c)); [by left|]. right. split; [done|].
  destruct (Z.eqb_spec w 4) as [->|]; [|destruct (Z.eqb_spec w 8) as [->|]].
  - destruct (bss_decode_tiled_spec 4 BSS_TILE_FLOAT c t4 data vs) as (v & E & L & G & U); [lia|done|lia..|].
    exists v. unfold carquet_bss_decode_float_tiled. by rewrite E.
  - destruct (bss_decode_tiled_spec 8 BSS_TILE_DOUBLE c t8 data vs) as (v & E & L & G & U); [lia|done|lia..|].
    exists v. unfold carquet_bss_decode_double_tiled. by rewrite E.
  - destruct (decode_pairs_spec _ w c 0 data vs ltac:(lia) (elem_by_value w c _)) as (v & E & L & G & U); [lia|lia|].
    exists v. change (run_copies (by_value w c (λ i b, (i * w + b, b * c + i))) data vs = Some v) in E. rewrite E.
    split; [done|]. split; [done|]. split; [|intros; apply U; lia].
    intros i b Hi Hb. by rewrite <- (G i b Hi Hb).
Qed.

(** The streams determine the values. *)
Lemma transpose_inverse w c vs streams vs' : 1 <= w -> 0 <= c -> w * c <= lenZ vs -> w * c <= lenZ vs' ->
  split_of w c vs streams -> decoded_upto w c c streams vs' ->
  take (Z.to_nat (w * c)) vs' = take (Z.to_nat (w * c)) vs.
Proof.
  intros Hw Hc Hv Hv' HS HD. apply list_eq. intros k. destruct (decide (k < Z.to_nat (w * c))%nat) as [Hk|Hk].
  - rewrite !lookup_take_lt by done. set (z := Z.of_nat k).
    pose proof (Z.div_mod z w ltac:(lia)). pose proof (Z.mod_pos_bound z w ltac:(lia)).
    assert (0 <= z / w < c) by (split; [apply Z.div_pos; lia|apply Z.div_lt_upper_bound; lia]).
    pose proof (HD (z / w) (z mod w) ltac:(lia) ltac:(lia)) as E1. rewrite (HS (z / w) (z mod w)) in E1 by lia.
    replace (z / w * w + z mod w) with z in E1 by lia. rewrite !rd_lookup in E1 by lia.
    unfold z in E1. by rewrite Nat2Z.id in E1.
  - rewrite !lookup_ge_None_2; [done|rewrite length_take; lia..].
Qed.

(** What an encoder and a decoder of values of [w] bytes promise: the encoder refuses exactly
    when the capacity is too small and otherwise stores byte [b] of value [i] at position
    [b * count + i] and nothing else; the decoder restores exactly the values, writes nothing
    past them, and refuses exactly the inputs that are too short. *)
Definition split_codec (w : Z)
    (encode : option (list Z) -> Z -> option (list Z) -> Z -> option (carquet_status_t * option (list Z) * option Z))
    (decode : option (list Z) -> Z -> option (list Z) -> Z -> option (carquet_status_t * option (list Z))) : Prop :=
  forall vs c out cap dst, 0 <= c -> w * c < 2 ^ 63 -> w * c <= lenZ vs -> w * c <= lenZ dst -> cap <= lenZ out ->
  (cap < w * c /\ encode (Some vs) c (Some out) cap = Some (CARQUET_ERROR_ENCODE, Some out, None)) \/
  (exists out', encode (Some vs) c (Some out) cap = Some (CARQUET_OK, Some out', Some (w * c)) /\ w * c <= cap /\ split_of w c vs out' /\
    drop (Z.to_nat (w * c)) out' = drop (Z.to_nat (w * c)) out /\
    forall size, 0 <= size <= lenZ out ->
      decode (Some out') size (Some dst) c =
        if size <? w * c then Some (CARQUET_ERROR_DECODE, Some dst)
        else Some (CARQUET_OK, Some (take (Z.to_nat (w * c)) vs ++ drop (Z.to_nat (w * c)) dst))).

Section Codecs.
Context (t4 t8 : list Z) (H4 : 4 * BSS_TILE_FLOAT <= lenZ t4) (H8 : 8 * BSS_TILE_DOUBLE <= lenZ t8).

Lemma generic_codec w : 1 <= w < 2 ^ 31 ->
  split_codec w (λ vs c out cap, carquet_byte_stream_split_encode vs c w out cap) (λ data size vs c, carquet_byte_stream_split_decode t4 t8 data size w vs c).
Proof.
  intros Hw vs c out cap dst Hc Hs Hv Hd Ho.
  assert (forall l l' : list Z, length l' = length l -> (forall k, w * c <= k -> rd l' k = rd l k) ->
    drop (Z.to_nat (w * c)) l' = drop (Z.to_nat (w * c)) l) as Tail.
  { intros l l' _ HU. apply list_eq. intros k. rewrite !lookup_drop.
    pose proof (HU (Z.of_nat (Z.to_nat (w * c) + k)) ltac:(lia)) as E. rewrite !rd_lookup, !Nat2Z.id in E by lia. done. }
  destruct (bss_encode_spec vs c w out cap) as [[? E]|(? & o & E & L & G & U)]; [done..|by left|right].
  exists o. split; [done|]. split; [done|]. split; [done|]. split; [by apply Tail|]. intros size Hsz.
  destruct (bss_decode_spec t4 t8 o size w dst c) as [[? ->]|(? & v & -> & Lv & Gv & Uv)]; [done..|rewrite L; lia|done|done| |].
  - by decide_bool.
  - decide_bool. do 3 f_equal. rewrite <- (take_drop (Z.to_nat (w * c)) v). f_equal; [|by apply Tail].
    apply (transpose_inverse w c vs o v); [lia|done|done|rewrite Lv; done|done|done].
Qed.

(** The functions for floats and doubles are the general ones at widths 4 and 8. *)
Lemma encode_float_generic vs c out cap : carquet_byte_stream_split_encode_float (Some vs) c (Some out) cap = carquet_byte_stream_split_encode (Some vs) c 4 (Some out) cap.
Proof. unfold carquet_byte_stream_split_encode. cbn [Z.leb Z.eqb Z.compare Pos.eqb]. change (u64 4) with 4. reflexivity. Qed.
Lemma encode_double_generic vs c out cap : carquet_byte_stream_split_encode_double (Some vs) c (Some out) cap = carquet_byte_stream_split_encode (Some vs) c 8 (Some out) cap.
Proof. unfold carquet_byte_stream_split_encode. cbn [Z.leb Z.eqb Z.compare Pos.eqb]. change (u64 8) with 8. reflexivity. Qed.
Lemma decode_float_generic p size vs c : carquet_byte_stream_split_decode_float t4 (Some p) size (Some vs) c = carquet_byte_stream_split_decode t4 t8 (Some p) size 4 (Some vs) c.
Proof. unfold carquet_byte_stream_split_decode. cbn [Z.leb Z.eqb Z.compare Pos.eqb]. change (u64 4) with 4. reflexivity. Qed.
Lemma decode_double_generic p size vs c : carquet_byte_stream_split_decode_double t8 (Some p) size (Some vs) c = carquet_byte_stream_split_decode t4 t8 (Some p) size 8 (Some vs) c.
Proof. unfold carquet_byte_stream_split_decode. cbn [Z.leb Z.eqb Z.compare Pos.eqb]. change (u64 8) with 8. reflexivity. Qed.

Lemma float_codec : split_codec 4 carquet_byte_stream_split_encode_float (carquet_byte_stream_split_decode_float t4).
Proof.
  intros vs c out cap dst Hc Hs Hv Hd Ho. rewrite encode_float_generic. destruct (generic_codec 4 ltac:(lia) vs c out cap dst Hc Hs Hv Hd Ho) as [H|(o & H)]; [by left|right].
  exists o. setoid_rewrite decode_float_generic. exact H.
Qed.

Lemma double_codec : split_codec 8 carquet_byte_stream_split_encode_double (carquet_byte_stream_split_decode_double t8).
Proof.
  intros vs c out cap dst Hc Hs Hv Hd Ho. rewrite encode_double_generic. destruct (generic_codec 8 ltac:(lia) vs c out cap dst Hc Hs Hv Hd Ho) as [H|(o & H)]; [by left|right].
  exists o. setoid_rewrite decode_double_generic. exact H.
Qed.

End Codecs.

(** C37: BYTE_STREAM_SPLIT round trip, for each of the three public pairs of functions: the
    one for any value width and those for floats and doubles, each with its own size checks.
    The encoder refuses exactly when the capacity is too small and otherwise stores byte [b]
    of value [i] at position [b * count + i] and nothing else; the decoder, on the direct path
    and on the cache-tiled path with any contents of the tile buffer, restores exactly the
    values, writes nothing past them, and refuses exactly the inputs that are too short. *)
Theorem bss_roundtrip t4 t8 : 4 * BSS_TILE_FLOAT <= lenZ t4 -> 8 * BSS_TILE_DOUBLE <= lenZ t8 ->
  (forall w, 1 <= w < 2 ^ 31 -> split_codec w (λ vs c out cap, carquet_byte_stream_split_encode vs c w out cap) (λ data size vs c, carquet_byte_stream_split_decode t4 t8 data size w vs c)) /\
  split_codec 4 carquet_byte_stream_split_encode_float (carquet_byte_stream_split_decode_float t4) /\
  split_codec 8 carquet_byte_stream_split_encode_double (carquet_byte_stream_split_decode_double t8).
Proof. intros H4 H8. split; [by apply generic_codec|]. split; [by apply (float_codec t4 t8)|by apply (double_codec t4 t8)]. Qed.

(** Two values of three bytes, and a float. *)
Lemma bss_roundtrip_witness : let t4 := replicate (4 * 256 * 256) 0 in let t8 := replicate (8 * 128 * 256) 0 in
  (exists out', carquet_byte_stream_split_encode (Some [1; 2; 3; 4; 5; 6]) 2 3 (Some (replicate 8 0)) 8 = Some (CARQUET_OK, Some out', Some 6) /\
    carquet_byte_stream_split_decode t4 t8 (Some out') 6 3 (Some (replicate 6 0)) 2 = Some (CARQUET_OK, Some [1; 2; 3; 4; 5; 6])) /\
  carquet_byte_stream_split_encode_float (Some [1; 2; 3; 4]) 1 (Some (replicate 4 0)) 3 = Some (CARQUET_ERROR_ENCODE, Some (replicate 4 0), None).
Proof.
  intros t4 t8. destruct (bss_roundtrip t4 t8) as (HG & HF & _).
  - unfold t4. rewrite length_replicate. unfold BSS_TILE_FLOAT. lia.
  - unfold t8. rewrite length_replicate. unfold BSS_TILE_DOUBLE. lia.
  - split.
    + destruct (HG 3 ltac:(lia) [1; 2; 3; 4; 5; 6] 2 (replicate 8 0) 8 (replicate 6 0)) as [[H _]|(o & E & _ & _ & _ & D)]; [cbn; lia..| |].
      * exfalso. lia.
      * exists o. split; [exact E|]. apply (D 6). cbn. lia.
    + destruct (HF [1; 2; 3; 4] 1 (replicate 4 0) 3 (replicate 4 0)) as [[_ E]|(o & _ & H & _)]; [cbn; lia..|exact E|exfalso; lia].
Defined.
