(* ===== verification/Plain.v ===== *)
(** * PLAIN encoding (carquet/encoding/plain.c)

    Values in their little-endian memory form, booleans packed eight to a byte, byte
    arrays with a four-byte length prefix.  The host is little-endian; the branch for
    other hosts is modelled too and shown equal. *)

From S2P Require Import Prelude Status Endian Buffer Dispatch.

Inductive carquet_physical_type_t :=
  | CARQUET_PHYSICAL_BOOLEAN | CARQUET_PHYSICAL_INT32 | CARQUET_PHYSICAL_INT64 | CARQUET_PHYSICAL_INT96
  | CARQUET_PHYSICAL_FLOAT | CARQUET_PHYSICAL_DOUBLE | CARQUET_PHYSICAL_BYTE_ARRAY
  | CARQUET_PHYSICAL_FIXED_LEN_BYTE_ARRAY | CARQUET_PHYSICAL_OTHER (n : Z).

(** [carquet_byte_array_t] whose pointer is an offset into the decoder's input. *)
Record byte_slice := mk_slice { slice_off : Z; slice_length : Z }.

(** [carquet_byte_array_t] given to the encoder. *)
Record carquet_byte_array_t := mk_byte_array { ba_data : option (list Z); ba_length : Z }.

Record carquet_int96_t := mk_int96 { i96_0 : Z; i96_1 : Z; i96_2 : Z }.

(** ** Decoding

    [input] is [None] for NULL, [output] tells whether the output pointer is not NULL.
    The result is the returned count and the values stored; nothing is stored when -1 is
    returned before the loop. *)

(** The [width]-byte little-endian words of a memory block. *)
Fixpoint words_of (n : nat) (width : nat) (bs : list Z) : list Z :=
  match n with O => [] | S n => le_val (take width bs) :: words_of n width (drop width bs) end.

(** [memcpy(output, input, bytes_needed)] into an array of words, seen as [wrap]. *)
Definition copy_words (wrap : Z -> Z) (width : Z) (input : list Z) (bytes_needed : Z) : option (list Z) :=
  bs ← rd_n input 0 bytes_needed;
  Some (wrap <$> words_of (Z.to_nat (bytes_needed / width)) (Z.to_nat width) bs).

(** The loop of the other hosts. *)
Fixpoint read_words (n : nat) (read : list Z -> option Z) (input : list Z) (width i : Z) : option (list Z) :=
  match n with
  | O => Some []
  | S n => v ← read (ptr_add input (i * width)); rest ← read_words n read input width (i + 1); Some (v :: rest)
  end.

Definition carquet_decode_plain_boolean (input : option (list Z)) (input_size : Z) (output : bool) (count : Z)
    : option (Z * list Z) :=
  match input with
  | Some p =>
      if negb output || (count <? 0) then Some (-1, []) else
      let bytes_needed := u64 (u64 count + 7) / 8 in
      if input_size <? bytes_needed then Some (-1, []) else
      out ← scalar_unpack_bools p count;
      Some (i64 bytes_needed, out)
  | None => Some (-1, [])
  end.

(** The common shape of the fixed-width decoders. *)
Definition decode_plain_words (wrap : Z -> Z) (width : Z) (input : option (list Z)) (input_size : Z) (output : bool)
    (count : Z) : option (Z * list Z) :=
  match input with
  | Some p =>
      if negb output || (count <? 0) then Some (-1, []) else
      let bytes_needed := u64 (u64 count * width) in
      if input_size <? bytes_needed then Some (-1, []) else
      out ← copy_words wrap width p bytes_needed;
      Some (i64 bytes_needed, out)
  | None => Some (-1, [])
  end.

Definition carquet_decode_plain_int32 := decode_plain_words i32 4.
Definition carquet_decode_plain_int64 := decode_plain_words i64 8.
(** Floating point values are their bit patterns. *)
Definition carquet_decode_plain_float := decode_plain_words u32 4.
Definition carquet_decode_plain_double := decode_plain_words u64 8.

Fixpoint int96_loop (n : nat) (input : list Z) (i : Z) : option (list carquet_int96_t) :=
  match n with
  | O => Some []
  | S n =>
      let p := ptr_add input (i * 12) in
      a ← carquet_read_u32_le p;
      b ← carquet_read_u32_le (ptr_add p 4);
      c ← carquet_read_u32_le (ptr_add p 8);
      rest ← int96_loop n input (i + 1);
      Some (mk_int96 a b c :: rest)
  end.

Definition carquet_decode_plain_int96 (input : option (list Z)) (input_size : Z) (output : bool) (count : Z)
    : option (Z * list carquet_int96_t) :=
  match input with
  | Some p =>
      if negb output || (count <? 0) then Some (-1, []) else
      let bytes_needed := u64 (u64 count * 12) in
      if input_size <? bytes_needed then Some (-1, []) else
      out ← int96_loop (Z.to_nat count) p 0;
      Some (i64 bytes_needed, out)
  | None => Some (-1, [])
  end.

(** The slices stored before the loop ends or fails. *)
Fixpoint byte_array_loop (n : nat) (input : list Z) (input_size pos : Z) : option (Z * list byte_slice) :=
  match n with
  | O => Some (i64 pos, [])
  | S n =>
      if pos + 4 >? input_size then Some (-1, []) else
      len ← carquet_read_i32_le (ptr_add input pos);
      let pos := pos + 4 in
      if (len <? 0) || (pos + len >? input_size) then Some (-1, []) else
      '(r, rest) ← byte_array_loop n input input_size (pos + len);
      Some (r, mk_slice pos len :: rest)
  end.

Definition carquet_decode_plain_byte_array (input : option (list Z)) (input_size : Z) (output : bool) (count : Z)
    : option (Z * list byte_slice) :=
  match input with
  | Some p => if negb output || (count <? 0) then Some (-1, []) else byte_array_loop (Z.to_nat count) p input_size 0
  | None => Some (-1, [])
  end.

Definition carquet_decode_plain_fixed_byte_array (input : option (list Z)) (input_size : Z) (output : bool)
    (count fixed_len : Z) : option (Z * list Z) :=
  match input with
  | Some p =>
      if negb output || (count <? 0) || (fixed_len <=? 0) then Some (-1, []) else
      let bytes_needed := u64 (u64 count * u64 fixed_len) in
      if input_size <? bytes_needed then Some (-1, []) else
      out ← rd_n p 0 bytes_needed;
      Some (i64 bytes_needed, out)
  | None => Some (-1, [])
  end.

(** The contents of [void* output], by type. *)
Inductive plain_out :=
  | OutWords (l : list Z) | OutInt96 (l : list carquet_int96_t) | OutSlices (l : list byte_slice) | OutBytes (l : list Z).

Definition out_map {A} (f : A -> plain_out) (r : option (Z * A)) : option (Z * plain_out) :=
  '(n, l) ← r; Some (n, f l).

Definition carquet_decode_plain (input : option (list Z)) (input_size : Z) (type : carquet_physical_type_t)
    (type_length : Z) (output : bool) (count : Z) : option (Z * plain_out) :=
  match type with
  | CARQUET_PHYSICAL_BOOLEAN => out_map OutBytes (carquet_decode_plain_boolean input input_size output count)
  | CARQUET_PHYSICAL_INT32 => out_map OutWords (carquet_decode_plain_int32 input input_size output count)
  | CARQUET_PHYSICAL_INT64 => out_map OutWords (carquet_decode_plain_int64 input input_size output count)
  | CARQUET_PHYSICAL_INT96 => out_map OutInt96 (carquet_decode_plain_int96 input input_size output count)
  | CARQUET_PHYSICAL_FLOAT => out_map OutWords (carquet_decode_plain_float input input_size output count)
  | CARQUET_PHYSICAL_DOUBLE => out_map OutWords (carquet_decode_plain_double input input_size output count)
  | CARQUET_PHYSICAL_BYTE_ARRAY => out_map OutSlices (carquet_decode_plain_byte_array input input_size output count)
  | CARQUET_PHYSICAL_FIXED_LEN_BYTE_ARRAY =>
      out_map OutBytes (carquet_decode_plain_fixed_byte_array input input_size output count type_length)
  | CARQUET_PHYSICAL_OTHER _ => Some (-1, OutBytes [])
  end.

(** ** Encoding *)

Section Encode.
Context {A : Allocator}.

Definition bad_argument (buf : carquet_buffer_t) : option (carquet_status_t * carquet_buffer_t) :=
  Some (CARQUET_ERROR_INVALID_ARGUMENT, buf).

Definition carquet_encode_plain_boolean (input : option (list Z)) (count : Z) (output : carquet_buffer_t)
    : option (carquet_status_t * carquet_buffer_t) :=
  match input with
  | Some p =>
      if count <? 0 then bad_argument output else
      let bytes_needed := u64 (u64 count + 7) / 8 in
      if bytes_needed =? 0 then Some (CARQUET_OK, output) else
      let '(dest, output) := carquet_buffer_advance output bytes_needed in
      match dest with
      | None => Some (CARQUET_ERROR_OUT_OF_MEMORY, output)
      | Some off =>
          vs ← rd_n p 0 count;
          let output := buffer_poke output off (replicate (Z.to_nat bytes_needed) 0) in
          Some (CARQUET_OK, buffer_poke output off (scalar_pack_bools vs))
      end
  | None => bad_argument output
  end.

(** [width]-byte words in memory. *)
Definition words_bytes (width : nat) (vs : list Z) : list Z := concat (le_bytes width <$> vs).

Definition encode_plain_words (width : Z) (input : option (list Z)) (count : Z) (output : carquet_buffer_t)
    : option (carquet_status_t * carquet_buffer_t) :=
  match input with
  | Some vs =>
      if count <? 0 then bad_argument output else
      bs ← rd_n (words_bytes (Z.to_nat width) vs) 0 (u64 (u64 count * width));
      Some (carquet_buffer_append output bs)
  | None => bad_argument output
  end.

Definition carquet_encode_plain_int32 := encode_plain_words 4.
Definition carquet_encode_plain_int64 := encode_plain_words 8.
Definition carquet_encode_plain_float := encode_plain_words 4.
Definition carquet_encode_plain_double := encode_plain_words 8.

(** The loop of the other hosts: [append] is [carquet_buffer_append_u32_le] or the like. *)
Fixpoint append_words (append : carquet_buffer_t -> Z -> carquet_status_t * carquet_buffer_t) (vs : list Z)
    (output : carquet_buffer_t) : carquet_status_t * carquet_buffer_t :=
  match vs with
  | [] => (CARQUET_OK, output)
  | v :: vs =>
      let '(status, output) := append output v in
      if negb (is_ok status) then (status, output) else append_words append vs output
  end.

Fixpoint encode_int96_loop (vs : list carquet_int96_t) (output : carquet_buffer_t)
    : carquet_status_t * carquet_buffer_t :=
  match vs with
  | [] => (CARQUET_OK, output)
  | v :: vs =>
      let '(status, output) := append_words carquet_buffer_append_u32_le [i96_0 v; i96_1 v; i96_2 v] output in
      if negb (is_ok status) then (status, output) else encode_int96_loop vs output
  end.

Definition carquet_encode_plain_int96 (input : option (list carquet_int96_t)) (count : Z) (output : carquet_buffer_t)
    : option (carquet_status_t * carquet_buffer_t) :=
  match input with
  | Some p => if count <? 0 then bad_argument output else
              vs ← rd_n p 0 count; Some (encode_int96_loop vs output)
  | None => bad_argument output
  end.

Fixpoint encode_byte_array_loop (vs : list carquet_byte_array_t) (output : carquet_buffer_t)
    : option (carquet_status_t * carquet_buffer_t) :=
  match vs with
  | [] => Some (CARQUET_OK, output)
  | v :: vs =>
      let '(status, output) := carquet_buffer_append_u32_le output (u32 (ba_length v)) in
      if negb (is_ok status) then Some (status, output) else
      '(status, output) ←
        match ba_data v with
        | Some p => if ba_length v >? 0 then bs ← rd_n p 0 (ba_length v); Some (carquet_buffer_append output bs)
                    else Some (CARQUET_OK, output)
        | None => Some (CARQUET_OK, output)
        end;
      if negb (is_ok status) then Some (status, output) else encode_byte_array_loop vs output
  end.

Definition carquet_encode_plain_byte_array (input : option (list carquet_byte_array_t)) (count : Z)
    (output : carquet_buffer_t) : option (carquet_status_t * carquet_buffer_t) :=
  match input with
  | Some p => if count <? 0 then bad_argument output else vs ← rd_n p 0 count; encode_byte_array_loop vs output
  | None => bad_argument output
  end.

Definition carquet_encode_plain_fixed_byte_array (input : option (list Z)) (count fixed_len : Z)
    (output : carquet_buffer_t) : option (carquet_status_t * carquet_buffer_t) :=
  match input with
  | Some p =>
      if (count <? 0) || (fixed_len <=? 0) then bad_argument output else
      bs ← rd_n p 0 (u64 (u64 count * u64 fixed_len)); Some (carquet_buffer_append output bs)
  | None => bad_argument output
  end.

End Encode.
