(* ===== verification/PlainRoundtrip.v ===== *)
(** * PLAIN: decoding what was encoded

    Round trip of every physical type through the growable buffer, and the safety of the
    decoders of all types on arbitrary bytes. *)

From S2P Require Import Prelude Status Endian Buffer Dispatch Plain.

(** ** Packed booleans *)

Definition truth (x : Z) : Z := if x =? 0 then 0 else 1.

Fixpoint bitsum (l : list Z) : Z := match l with [] => 0 | x :: l => truth x + 2 * bitsum l end.

Lemma truth_range x : 0 <= truth x <= 1.
Proof. unfold truth. case_bool; lia. Qed.

Lemma bitsum_range l : 0 <= bitsum l < 2 ^ lenZ l.
Proof.
  induction l as [|x l IH]; cbn [bitsum length]; [change (2 ^ lenZ []) with 1; lia|].
  pose proof (truth_range x). rewrite Nat2Z.inj_succ, Z.pow_succ_r by lia. lia.
Qed.

Lemma bitsum_bit l i x : l !! i = Some x -> (bitsum l / 2 ^ Z.of_nat i) mod 2 = truth x.
Proof.
  revert i. induction l as [|y l IH]; intros i H; [done|]. cbn [bitsum]. pose proof (truth_range y).
  destruct i as [|i]; cbn in H.
  - injection H as ->. change (2 ^ Z.of_nat 0) with 1. rewrite Z.div_1_r, Z.mul_comm, Z.mod_add by lia. apply Z.mod_small. lia.
  - rewrite Nat2Z.inj_succ, Z.pow_succ_r, <- Z.div_div by lia.
    replace ((truth y + 2 * bitsum l) / 2) with (bitsum l) by dlia. by apply IH.
Qed.

Lemma pack_bool_byte_spec n : forall input j byte, 0 <= j -> j + Z.of_nat n <= 8 -> 0 <= byte < 2 ^ j ->
  pack_bool_byte n input j byte = byte + 2 ^ j * bitsum (take n input).
Proof.
  induction n as [|n IH]; intros input j byte Hj Hn Hb; [rewrite take_0; cbn; lia|].
  destruct input as [|x input]; cbn [pack_bool_byte firstn bitsum]; [lia|]. pose proof (pow2_pos j Hj).
  assert (2 ^ (j + 1) = 2 * 2 ^ j) as E by (rewrite Z.pow_add_r by lia; lia).
  unfold truth. destruct (Z.eqb_spec x 0).
  - rewrite IH by lia. rewrite E. lia.
  - rewrite lor_add by lia. assert (2 ^ (j + 1) <= 2 ^ 8) by (apply Z.pow_le_mono_r; lia). rewrite u8_small by lia.
    rewrite IH by lia. rewrite E. lia.
Qed.

Lemma pack_bools_lookup fuel : forall vs k, (length vs <= fuel)%nat -> (8 * k < length vs)%nat ->
  pack_bools_loop fuel vs !! k = Some (bitsum (take 8 (drop (8 * k) vs))).
Proof.
  induction fuel as [|fuel IH]; intros vs k Hf Hk; [lia|]. destruct vs as [|v vs]; [cbn in Hk; lia|].
  cbn [pack_bools_loop]. destruct k as [|k].
  - cbn [lookup list_lookup]. rewrite pack_bool_byte_spec by lia. change (2 ^ 0) with 1. f_equal. rewrite Nat.mul_0_r, drop_0. lia.
  - change ((?x :: ?l) !! S k) with (l !! k). rewrite IH by (rewrite length_drop; cbn [length] in *; lia).
    rewrite drop_drop. by replace (8 * S k)%nat with (8 + 8 * k)%nat by lia.
Qed.

Lemma length_pack_bools fuel : forall vs, (length vs <= fuel)%nat -> lenZ (pack_bools_loop fuel vs) = (lenZ vs + 7) / 8.
Proof.
  induction fuel as [|fuel IH]; intros vs Hf; [destruct vs; [done|cbn in Hf; lia]|].
  destruct vs as [|v vs]; [done|]. cbn [pack_bools_loop length]. rewrite Nat2Z.inj_succ, IH by (rewrite length_drop; cbn [length] in *; lia).
  rewrite length_drop. cbn [length]. dlia.
Qed.

Lemma pack_bools_ok vs : bytes_ok (scalar_pack_bools vs).
Proof.
  unfold scalar_pack_bools. generalize (length vs). intros n. revert vs.
  induction n as [|n IH]; intros vs; [constructor|]. destruct vs as [|v vs]; [constructor|]. cbn [pack_bools_loop].
  constructor; [|apply IH]. rewrite pack_bool_byte_spec by lia. change (2 ^ 0) with 1.
  pose proof (bitsum_range (take 8 (v :: vs))) as B. assert (lenZ (take 8 (v :: vs)) <= 8) by (rewrite length_take; lia).
  assert (2 ^ lenZ (take 8 (v :: vs)) <= 2 ^ 8) by (apply Z.pow_le_mono_r; lia). unfold in_u. lia.
Qed.

Lemma unpack_bools_spec vs r : lenZ vs < 2 ^ 33 -> forall n i, i + Z.of_nat n = lenZ vs -> 0 <= i ->
  unpack_bools_loop n (scalar_pack_bools vs ++ r) i = Some (truth <$> drop (Z.to_nat i) vs).
Proof.
  intros Hl. induction n as [|n IH]; intros i Hi Hi0; cbn [unpack_bools_loop].
  { rewrite drop_ge by lia. done. }
  assert (0 <= i / 8 < 2 ^ 31) by (split; [apply Z.div_pos; lia|apply Z.div_lt_upper_bound; lia]).
  assert (i32 (i / 8) = i / 8) as -> by (apply wrap_signed_small; [lia|unfold in_i; lia]).
  destruct (lookup_lt_is_Some_2 vs (Z.to_nat i)) as [x Hx]; [lia|].
  pose proof (Z.div_mod i 8 ltac:(lia)). pose proof (Z.mod_pos_bound i 8 ltac:(lia)).
  rewrite rd_lookup by lia. rewrite lookup_app_l.
  2:{ pose proof (length_pack_bools (length vs) vs ltac:(lia)) as L. unfold scalar_pack_bools.
      assert (i / 8 < (lenZ vs + 7) / 8) by (apply Z.div_lt_upper_bound; [lia|]; dlia). lia. }
  assert (scalar_pack_bools vs !! Z.to_nat (i / 8) = Some (bitsum (take 8 (drop (8 * Z.to_nat (i / 8)) vs)))) as ->
    by (apply pack_bools_lookup; lia). cbn [mbind option_bind].
  rewrite IH by lia. cbn [mbind option_bind]. f_equal. rewrite (drop_S _ _ _ Hx). cbn [fmap list_fmap].
  replace (Z.to_nat (i + 1)) with (S (Z.to_nat i)) by lia. f_equal.
  rewrite land_1, shiftr_div by lia. replace (i mod 8) with (Z.of_nat (Z.to_nat (i mod 8))) by lia.
  apply bitsum_bit. rewrite lookup_take_lt by lia. rewrite lookup_drop. rewrite <- Hx. f_equal. lia.
Qed.

(** ** Words *)

Lemma words_of_bytes w vs r : words_of (length vs) w (words_bytes w vs ++ r) = (λ v, v mod 2 ^ (8 * Z.of_nat w)) <$> vs.
Proof.
  induction vs as [|v vs IH]; cbn [length words_of fmap list_fmap]; [done|]. unfold words_bytes in *. cbn [fmap list_fmap concat].
  rewrite <- app_assoc. rewrite take_app_length', drop_app_length' by (by rewrite length_le_bytes).
  rewrite le_val_bytes. f_equal. exact IH.
Qed.

Lemma length_words_bytes w vs : length (words_bytes w vs) = (length vs * w)%nat.
Proof.
  unfold words_bytes. induction vs; cbn; [done|]. rewrite length_app, length_le_bytes. cbn in IHvs. lia.
Qed.

Lemma words_bytes_ok w vs : bytes_ok (words_bytes w vs).
Proof. unfold words_bytes. induction vs; cbn; [constructor|]. apply Forall_app_2; [apply le_bytes_ok|done]. Qed.

Lemma decode_words_spec (wrap : Z -> Z) width vs r size : 1 <= width -> width * lenZ vs < 2 ^ 63 ->
  (forall v, v ∈ vs -> wrap (v mod 2 ^ (8 * width)) = v) ->
  let bs := words_bytes (Z.to_nat width) vs in
  lenZ bs <= size <= lenZ (bs ++ r) ->
  decode_plain_words wrap width (Some (bs ++ r)) size true (lenZ vs) = Some (lenZ bs, vs).
Proof.
  intros Hw Hl Hwrap bs Hs. assert (lenZ bs = width * lenZ vs) as Lb by (unfold bs; rewrite length_words_bytes; nia).
  unfold decode_plain_words. cbn [negb orb]. decide_bool.
  rewrite (u64_small (lenZ vs)), u64_small by nia. replace (lenZ vs * width) with (lenZ bs) by lia. decide_bool.
  unfold copy_words. rewrite rd_n_Some by lia. cbn [mbind option_bind]. change (Z.to_nat 0) with 0%nat. rewrite drop_0, Nat2Z.id, take_app_length.
  assert (i64 (lenZ bs) = lenZ bs) as -> by (apply wrap_signed_small; [lia|unfold in_i; lia]).
  f_equal. f_equal. rewrite Lb, Z.mul_comm, Z.div_mul, Nat2Z.id by lia. unfold bs.
  rewrite <- (app_nil_r (words_bytes _ _)), words_of_bytes, <- list_fmap_compose, Z2Nat.id by lia.
  clear - Hwrap. induction vs as [|v vs IH]; cbn; [done|]. rewrite IH by (intros; apply Hwrap; by constructor).
  f_equal. apply Hwrap. constructor.
Qed.

(** ** The other decoders *)

Definition int96_bytes (v : carquet_int96_t) : list Z := 
  carquet_write_u32_le (i96_0 v) ++ carquet_write_u32_le (i96_1 v) ++ carquet_write_u32_le (i96_2 v).
Definition int96_ok (v : carquet_int96_t) : Prop := in_u 32 (i96_0 v) /\ in_u 32 (i96_1 v) /\ in_u 32 (i96_2 v).

Lemma length_int96_bytes v : length (int96_bytes v) = 12%nat.
Proof. done. Qed.

Lemma int96_loop_spec input r vs : forall i, Forall int96_ok vs -> 0 <= i ->
  ptr_add input (i * 12) = concat (int96_bytes <$> vs) ++ r -> int96_loop (length vs) input i = Some vs.
Proof.
  induction vs as [|v vs IH]; intros i Hok Hi E; cbn [length int96_loop]; [done|].
  apply Forall_cons_iff in Hok as [(H0 & H1 & H2) Hok]. cbn [fmap list_fmap concat] in E. rewrite <- app_assoc in E.
  assert (ptr_add input ((i + 1) * 12) = concat (int96_bytes <$> vs) ++ r) as E'.
  { replace ((i + 1) * 12) with (i * 12 + 12) by lia. rewrite <- ptr_add_add, E by lia. apply ptr_add_app. by rewrite length_int96_bytes. }
  rewrite E. set (q := concat _ ++ r). unfold int96_bytes. rewrite <- !app_assoc.
  rewrite (read_write_u32 (i96_0 v)) by done. cbn [mbind option_bind].
  rewrite (ptr_add_app (carquet_write_u32_le (i96_0 v)) _ 4) by reflexivity. rewrite (read_write_u32 (i96_1 v)) by done. cbn [mbind option_bind].
  rewrite (app_assoc (carquet_write_u32_le (i96_0 v))), (ptr_add_app _ _ 8) by reflexivity. rewrite (read_write_u32 (i96_2 v)) by done. cbn [mbind option_bind].
  rewrite (IH (i + 1) Hok) by (done || lia). by destruct v.
Qed.

(** Byte arrays: the prefixed encoding and the slices that denote the values. *)
Definition array_bytes (v : list Z) : list Z := le_bytes 4 (lenZ v) ++ v.

Definition slice_of (input : list Z) (s : byte_slice) : list Z :=
  take (Z.to_nat (slice_length s)) (drop (Z.to_nat (slice_off s)) input).

Lemma byte_array_loop_spec input size r vs : forall pos, Forall (λ v, lenZ v < 2 ^ 31) vs -> 0 <= pos ->
  ptr_add input pos = concat (array_bytes <$> vs) ++ r ->
  let stop := pos + lenZ (concat (array_bytes <$> vs)) in stop <= size -> stop < 2 ^ 63 ->
  exists out, byte_array_loop (length vs) input size pos = Some (stop, out) /\
    slice_of input <$> out = vs /\ slice_length <$> out = (λ v, lenZ v) <$> vs.
Proof.
  induction vs as [|v vs IH]; intros pos Hok Hp E stop Hs Hb; cbn [length byte_array_loop].
  { exists []. split; [|done]. f_equal. f_equal. unfold stop in *. cbn [fmap list_fmap concat length] in *. rewrite Z.add_0_r in *.
    apply wrap_signed_small; [lia|unfold in_i; lia]. }
  apply Forall_cons_iff in Hok as [Hv Hok]. cbn [fmap list_fmap concat] in *. unfold stop in *. clear stop.
  set (cs := concat (array_bytes <$> vs)) in *.
  assert (lenZ (array_bytes v ++ cs) = 4 + lenZ v + lenZ cs) as L
    by (unfold array_bytes; rewrite !length_app, length_le_bytes; lia).
  rewrite L in *. unfold array_bytes in E. rewrite <- !app_assoc in E.
  rewrite Z.gtb_ltb. rewrite (proj2 (Z.ltb_ge size (pos + 4))) by lia.
  assert (carquet_read_i32_le (ptr_add input pos) = Some (lenZ v)) as ->.
  { rewrite E. unfold carquet_read_i32_le. change (le_bytes 4 (lenZ v)) with (carquet_write_u32_le (lenZ v)).
    rewrite read_write_u32 by (unfold in_u; lia). cbn. f_equal. apply wrap_signed_small; [lia|unfold in_i; lia]. }
  cbn [mbind option_bind]. rewrite (proj2 (Z.ltb_ge (lenZ v) 0)) by lia. rewrite Z.gtb_ltb, (proj2 (Z.ltb_ge size _)) by lia. cbn [orb].
  assert (ptr_add input (pos + 4) = v ++ cs ++ r) as E1
    by (rewrite <- ptr_add_add, E by lia; apply ptr_add_app; by rewrite length_le_bytes).
  assert (ptr_add input (pos + 4 + lenZ v) = cs ++ r) as E2
    by (rewrite <- ptr_add_add, E1 by lia; by apply ptr_add_app).
  destruct (IH (pos + 4 + lenZ v) Hok ltac:(lia) E2) as (out & -> & HS & HL); [lia|lia|]. cbn [mbind option_bind].
  eexists. split; [f_equal; f_equal; lia|]. split; cbn [fmap list_fmap].
  - f_equal; [|exact HS]. unfold slice_of. cbn. fold (ptr_add input (pos + 4)). by rewrite E1, Nat2Z.id, take_app_length.
  - f_equal. exact HL.
Qed.

(** ** The encoders *)

Section Encode.
Context {A : Allocator} {AOk : AllocatorOk A}.

(** [r] appended [bs], or failed for lack of memory and left a well-formed buffer. *)
Definition appends (b : carquet_buffer_t) (bs : list Z) (r : carquet_status_t * carquet_buffer_t) : Prop :=
  buffer_wf r.2 /\ ((r.1 = CARQUET_OK /\ buf_bytes r.2 = buf_bytes b ++ bs) \/ r.1 = CARQUET_ERROR_OUT_OF_MEMORY).

Lemma append_appends b bs : buffer_wf b -> bytes_ok bs -> lenZ bs < 2 ^ 64 -> appends b bs (carquet_buffer_append b bs).
Proof.
  intros W Hb Hl. destruct (carquet_buffer_append b bs) as [s b'] eqn:E.
  destruct (append_spec b bs s b' W Hb Hl E) as [(-> & W' & EB)|(-> & ->)]; split; auto.
Qed.

(** Sequencing: stop at the first failure. *)
Lemma appends_bind b bs1 bs2 r (k : carquet_buffer_t -> carquet_status_t * carquet_buffer_t) :
  appends b bs1 r -> (forall b', buffer_wf b' -> appends b' bs2 (k b')) ->
  appends b (bs1 ++ bs2) (if negb (is_ok r.1) then r else k r.2).
Proof.
  intros [W [[E EB]|E]] Hk; destruct r as [s b1]; cbn in *; subst s; cbn [is_ok CARQUET_FAILED negb].
  - destruct (Hk b1 W) as [W2 [[E2 EB2]|E2]]; split; auto. left. split; [done|]. by rewrite EB2, EB, app_assoc.
  - split; auto.
Qed.

Lemma u32_appends b v : buffer_wf b -> appends b (carquet_write_u32_le v) (carquet_buffer_append_u32_le b v).
Proof. intros W. apply append_appends; [done|apply le_bytes_ok|done]. Qed.

Lemma append_words_appends (append : carquet_buffer_t -> Z -> carquet_status_t * carquet_buffer_t) (enc : Z -> list Z) :
  (forall b v, buffer_wf b -> appends b (enc v) (append b v)) ->
  forall vs b, buffer_wf b -> appends b (concat (enc <$> vs)) (append_words append vs b).
Proof.
  intros Ha. induction vs as [|v vs IH]; intros b W; cbn [append_words fmap list_fmap concat].
  { split; [done|]. left. by rewrite app_nil_r. }
  pose proof (appends_bind b _ (concat (enc <$> vs)) _ (append_words append vs) (Ha b v W)) as H.
  destruct (append b v) as [s o]. apply H. intros b' W'. by apply IH.
Qed.

Lemma int96_appends b v : buffer_wf b ->
  appends b (int96_bytes v) (append_words carquet_buffer_append_u32_le [i96_0 v; i96_1 v; i96_2 v] b).
Proof.
  intros W. pose proof (append_words_appends _ _ u32_appends [i96_0 v; i96_1 v; i96_2 v] b W) as H.
  unfold int96_bytes. cbn [fmap list_fmap concat] in H. by rewrite app_nil_r in H.
Qed.

Lemma int96_loop_appends vs : forall b, buffer_wf b -> appends b (concat (int96_bytes <$> vs)) (encode_int96_loop vs b).
Proof.
  induction vs as [|v vs IH]; intros b W; cbn [encode_int96_loop fmap list_fmap concat].
  { split; [done|]. left. by rewrite app_nil_r. }
  pose proof (appends_bind b _ (concat (int96_bytes <$> vs)) _ (encode_int96_loop vs) (int96_appends b v W)) as H.
  destruct (append_words _ _ b) as [s o]. apply H. intros b' W'. by apply IH.
Qed.

(** Arrays with a pointer that is null only when they are empty. *)
Definition array_ok (v : carquet_byte_array_t) : Prop :=
  0 <= ba_length v < 2 ^ 31 /\
  match ba_data v with Some p => bytes_ok p /\ ba_length v <= lenZ p | None => ba_length v = 0 end.

Definition array_val (v : carquet_byte_array_t) : list Z :=
  take (Z.to_nat (ba_length v)) (default [] (ba_data v)).

Lemma length_array_val v : array_ok v -> lenZ (array_val v) = ba_length v.
Proof. intros [? H]. unfold array_val. rewrite length_take. destruct (ba_data v); cbn; [lia|]. rewrite H. done. Qed.

Lemma array_val_ok v : array_ok v -> bytes_ok (array_val v).
Proof. intros [? H]. unfold array_val. apply Forall_take. destruct (ba_data v); cbn; [apply H|constructor]. Qed.

Lemma array_body_appends v b : array_ok v -> buffer_wf b ->
  exists r, match ba_data v with
        | Some p => if ba_length v >? 0 then bs ← rd_n p 0 (ba_length v); Some (carquet_buffer_append b bs)
                    else Some (CARQUET_OK, b)
        | None => Some (CARQUET_OK, b)
        end = Some r /\ appends b (array_val v) r.
Proof.
  intros Hv W. destruct (Hv) as [Hl Hd]. pose proof (array_val_ok v Hv) as Hok. pose proof (length_array_val v Hv) as HL.
  assert (ba_length v = 0 -> array_val v = []) as Empty by (intros E; unfold array_val; by rewrite E).
  assert (forall bs, bs = [] -> appends b bs (CARQUET_OK, b)) as Nil.
  { intros bs ->. split; [done|]. left. by rewrite app_nil_r. }
  destruct (ba_data v) as [p|] eqn:E; [|eexists; split; [done|auto]].
  rewrite Z.gtb_ltb. case_bool; [|eexists; split; [done|]; apply Nil, Empty; lia].
  rewrite rd_n_Some by lia. cbn [mbind option_bind]. eexists. split; [done|].
  change (Z.to_nat 0) with 0%nat. rewrite drop_0. unfold array_val in *. rewrite E in *. cbn [default] in *.
  apply append_appends; [done|done|]. unfold id in HL. lia.
Qed.

Lemma byte_array_loop_appends vs : Forall array_ok vs -> forall b, buffer_wf b ->
  exists r, encode_byte_array_loop vs b = Some r /\ appends b (concat ((λ v, array_bytes (array_val v)) <$> vs)) r.
Proof.
  induction 1 as [|v vs Hv _ IH]; intros b W; cbn [encode_byte_array_loop fmap list_fmap concat].
  { eexists. split; [done|]. split; [done|]. left. by rewrite app_nil_r. }
  pose proof (u32_appends b (u32 (ba_length v)) W) as [W1 H1]. destruct (carquet_buffer_append_u32_le _ _) as [s1 b1]. cbn in W1, H1.
  destruct H1 as [[-> E1]| ->]; cbn [is_ok CARQUET_FAILED negb]; [|eexists; split; [done|]; split; auto].
  destruct (array_body_appends v b1 Hv W1) as ([s2 b2] & -> & W2 & H2). cbn [mbind option_bind]. cbn in W2, H2.
  destruct H2 as [[-> E2]| ->]; cbn [is_ok CARQUET_FAILED negb]; [|eexists; split; [done|]; split; auto].
  destruct (IH b2 W2) as (r & -> & W3 & H3). eexists. split; [done|]. split; [done|].
  destruct H3 as [[? E3]|?]; [left|by right]. split; [done|]. rewrite E3, E2, E1, <- !app_assoc. f_equal.
  unfold array_bytes at 2. rewrite <- app_assoc, length_array_val by done. destruct Hv as [? _]. by rewrite u32_small by lia.
Qed.

Lemma poke_end b off bs : buffer_wf b -> 0 <= off -> off + lenZ bs = buf_size b -> 0 < lenZ bs ->
  buf_bytes (buffer_poke b off bs) = take (Z.to_nat off) (buf_bytes b) ++ bs.
Proof.
  intros (Hd & Hs & Hc) Ho Hl Hp. unfold buf_bytes, buffer_poke, store_at. cbn.
  destruct (buf_data b) as [blk|]; cbn [fmap option_fmap option_map default]; [|lia]. destruct Hd as [Hlen _].
  unfold id. rewrite take_take, Nat.min_l by lia. rewrite app_assoc, take_app_length'; [done|].
  rewrite length_app, length_take. lia.
Qed.

Lemma boolean_appends vs b : bytes_ok vs -> lenZ vs < 2 ^ 33 -> buffer_wf b ->
  exists r, carquet_encode_plain_boolean (Some vs) (lenZ vs) b = Some r /\ appends b (scalar_pack_bools vs) r.
Proof.
  intros Hv Hl W. unfold carquet_encode_plain_boolean. decide_bool.
  rewrite (u64_small (lenZ vs)), u64_small by lia. set (n := (lenZ vs + 7) / 8).
  assert (0 <= n < 2 ^ 31) by (unfold n; dlia).
  assert (lenZ (scalar_pack_bools vs) = n) as LP by (apply length_pack_bools; lia).
  destruct (Z.eqb_spec n 0) as [E0|E0].
  { eexists. split; [done|]. split; [done|]. left. destruct (scalar_pack_bools vs); [by rewrite app_nil_r|]. cbn in LP. lia. }
  destruct (carquet_buffer_advance b n) as [o b'] eqn:E.
  destruct (advance_spec b n o b' W ltac:(lia) E) as [(-> & ? & W' & Hsz & HT)|(-> & ->)].
  2:{ eexists. split; [done|]. split; auto. }
  rewrite rd_n_Some by lia. cbn [mbind option_bind]. change (Z.to_nat 0) with 0%nat. rewrite drop_0, take_ge by lia.
  eexists. split; [done|]. destruct (W) as (_ & ? & _).
  assert (buffer_wf (buffer_poke b' (buf_size b) (replicate (Z.to_nat n) 0))) as W1.
  { apply poke_wf; [apply Forall_replicate; unfold in_u; lia|lia|rewrite length_replicate; lia|done]. }
  split; [apply poke_wf; [apply pack_bools_ok|lia|cbn; lia|done]|]. left. split; [done|].
  cbn [snd]. rewrite poke_end by (try done; cbn; lia). rewrite poke_end by (try done; rewrite ?length_replicate; lia).
  pose proof (buf_bytes_length b' W'). pose proof (buf_bytes_length b W).
  rewrite take_app_le by (rewrite length_take; lia). rewrite take_take, Nat.min_id. f_equal. rewrite <- HT. f_equal. lia.
Qed.

Lemma words_appends w vs b : 1 <= w <= 8 -> w * lenZ vs < 2 ^ 63 -> buffer_wf b ->
  exists r, encode_plain_words w (Some vs) (lenZ vs) b = Some r /\ appends b (words_bytes (Z.to_nat w) vs) r.
Proof.
  intros Hw Hl W. unfold encode_plain_words. decide_bool. rewrite (u64_small (lenZ vs)), u64_small by nia.
  pose proof (length_words_bytes (Z.to_nat w) vs) as L. rewrite rd_n_Some by lia. cbn [mbind option_bind].
  change (Z.to_nat 0) with 0%nat. rewrite drop_0, take_ge by lia. eexists. split; [done|].
  apply append_appends; [done|apply words_bytes_ok|lia].
Qed.

End Encode.

(** ** Columns *)

Inductive column :=
  | ColBool (vs : list Z) | ColI32 (vs : list Z) | ColI64 (vs : list Z) | ColF32 (vs : list Z) | ColF64 (vs : list Z)
  | ColI96 (vs : list carquet_int96_t) | ColArrays (vs : list carquet_byte_array_t)
  | ColFixed (width : Z) (count : Z) (bs : list Z).

Definition col_ok (c : column) : Prop :=
  match c with
  | ColBool vs => bytes_ok vs /\ lenZ vs < 2 ^ 33
  | ColI32 vs => Forall (in_i 32) vs /\ lenZ vs < 2 ^ 60
  | ColI64 vs => Forall (in_i 64) vs /\ lenZ vs < 2 ^ 60
  | ColF32 vs => Forall (in_u 32) vs /\ lenZ vs < 2 ^ 60
  | ColF64 vs => Forall (in_u 64) vs /\ lenZ vs < 2 ^ 60
  | ColI96 vs => Forall int96_ok vs /\ lenZ vs < 2 ^ 59
  | ColArrays vs => Forall array_ok vs /\ lenZ (concat ((λ v, array_bytes (array_val v)) <$> vs)) < 2 ^ 63
  | ColFixed w n bs => 1 <= w < 2 ^ 31 /\ 0 <= n /\ lenZ bs = n * w /\ lenZ bs < 2 ^ 63 /\ bytes_ok bs
  end.

Definition col_type (c : column) : carquet_physical_type_t :=
  match c with
  | ColBool _ => CARQUET_PHYSICAL_BOOLEAN | ColI32 _ => CARQUET_PHYSICAL_INT32 | ColI64 _ => CARQUET_PHYSICAL_INT64
  | ColF32 _ => CARQUET_PHYSICAL_FLOAT | ColF64 _ => CARQUET_PHYSICAL_DOUBLE | ColI96 _ => CARQUET_PHYSICAL_INT96
  | ColArrays _ => CARQUET_PHYSICAL_BYTE_ARRAY | ColFixed _ _ _ => CARQUET_PHYSICAL_FIXED_LEN_BYTE_ARRAY
  end.

Definition col_width (c : column) : Z := match c with ColFixed w _ _ => w | _ => 0 end.

Definition col_count (c : column) : Z :=
  match c with
  | ColBool vs | ColI32 vs | ColI64 vs | ColF32 vs | ColF64 vs => lenZ vs
  | ColI96 vs => lenZ vs
  | ColArrays vs => lenZ vs
  | ColFixed _ n _ => n
  end.

(** The decoded output denotes the column; a byte array is a slice of the input. *)
Definition col_matches (c : column) (input : list Z) (out : plain_out) : Prop :=
  match c, out with
  | ColBool vs, OutBytes l => l = truth <$> vs
  | ColI32 vs, OutWords l | ColI64 vs, OutWords l | ColF32 vs, OutWords l | ColF64 vs, OutWords l => l = vs
  | ColI96 vs, OutInt96 l => l = vs
  | ColArrays vs, OutSlices l => slice_of input <$> l = array_val <$> vs /\ slice_length <$> l = ba_length <$> vs
  | ColFixed _ _ bs, OutBytes l => l = bs
  | _, _ => False
  end.

Definition col_bytes (c : column) : list Z :=
  match c with
  | ColBool vs => scalar_pack_bools vs
  | ColI32 vs | ColF32 vs => words_bytes 4 vs
  | ColI64 vs | ColF64 vs => words_bytes 8 vs
  | ColI96 vs => concat (int96_bytes <$> vs)
  | ColArrays vs => concat ((λ v, array_bytes (array_val v)) <$> vs)
  | ColFixed _ _ bs => bs
  end.

Definition col_encode {A : Allocator} (c : column) (b : carquet_buffer_t) : option (carquet_status_t * carquet_buffer_t) :=
  match c with
  | ColBool vs => carquet_encode_plain_boolean (Some vs) (lenZ vs) b
  | ColI32 vs => carquet_encode_plain_int32 (Some vs) (lenZ vs) b
  | ColI64 vs => carquet_encode_plain_int64 (Some vs) (lenZ vs) b
  | ColF32 vs => carquet_encode_plain_float (Some vs) (lenZ vs) b
  | ColF64 vs => carquet_encode_plain_double (Some vs) (lenZ vs) b
  | ColI96 vs => carquet_encode_plain_int96 (Some vs) (lenZ vs) b
  | ColArrays vs => carquet_encode_plain_byte_array (Some vs) (lenZ vs) b
  | ColFixed w n bs => carquet_encode_plain_fixed_byte_array (Some bs) n w b
  end.

Lemma col_encode_appends {A : Allocator} {AOk : AllocatorOk A} c b : col_ok c -> buffer_wf b ->
  exists r, col_encode c b = Some r /\ appends b (col_bytes c) r.
Proof.
  intros Hc W. destruct c; cbn [col_ok col_encode col_bytes] in *; destruct Hc as [H1 H2].
  - by apply boolean_appends.
  - apply (words_appends 4); [lia|lia|done].
  - apply (words_appends 8); [lia|lia|done].
  - apply (words_appends 4); [lia|lia|done].
  - apply (words_appends 8); [lia|lia|done].
  - unfold carquet_encode_plain_int96. decide_bool. rewrite rd_n_all. eexists. split; [done|]. by apply int96_loop_appends.
  - unfold carquet_encode_plain_byte_array. decide_bool. rewrite rd_n_all. by apply byte_array_loop_appends.
  - destruct H2 as (? & HL & ? & ?). unfold carquet_encode_plain_fixed_byte_array. decide_bool.
    rewrite (u64_small count), (u64_small width), u64_small by nia. replace (count * width) with (lenZ bs) by lia.
    rewrite rd_n_all. eexists. split; [done|]. apply append_appends; [done|done|lia].
Qed.

Lemma Forall_elem {B} (P : B -> Prop) l x : Forall P l -> x ∈ l -> P x.
Proof. rewrite Forall_forall. intros H Hx. by apply H, list_elem_of_In. Qed.

Lemma i64_len {B} (l : list B) : lenZ l < 2 ^ 63 -> i64 (lenZ l) = lenZ l.
Proof. intros. apply wrap_signed_small; [lia|unfold in_i; lia]. Qed.

Lemma i32_words vs : Forall (in_i 32) vs -> forall v, v ∈ vs -> i32 (v mod 2 ^ (8 * 4)) = v.
Proof. intros H v Hv. apply (wrap_signed_of_mod 32); [lia|]. exact (Forall_elem _ vs v H Hv). Qed.

Lemma i64_words vs : Forall (in_i 64) vs -> forall v, v ∈ vs -> i64 (v mod 2 ^ (8 * 8)) = v.
Proof. intros H v Hv. apply (wrap_signed_of_mod 64); [lia|]. exact (Forall_elem _ vs v H Hv). Qed.

Lemma u32_words vs : Forall (in_u 32) vs -> forall v, v ∈ vs -> u32 (v mod 2 ^ (8 * 4)) = v.
Proof.
  intros H v Hv. pose proof (Forall_elem _ vs v H Hv) as R. unfold in_u in R.
  rewrite (Z.mod_small v) by exact R. by apply u32_small.
Qed.

Lemma u64_words vs : Forall (in_u 64) vs -> forall v, v ∈ vs -> u64 (v mod 2 ^ (8 * 8)) = v.
Proof.
  intros H v Hv. pose proof (Forall_elem _ vs v H Hv) as R. unfold in_u in R.
  rewrite (Z.mod_small v) by exact R. by apply u64_small.
Qed.

Lemma col_decode_spec c r size : col_ok c -> lenZ (col_bytes c) <= size <= lenZ (col_bytes c ++ r) ->
  exists out, carquet_decode_plain (Some (col_bytes c ++ r)) size (col_type c) (col_width c) true (col_count c) =
    Some (lenZ (col_bytes c), out) /\ col_matches c (col_bytes c ++ r) out.
Proof.
  intros Hc Hs. destruct c; cbn [col_ok col_type col_width col_count col_bytes carquet_decode_plain] in *; destruct Hc as [H1 H2].
  - unfold carquet_decode_plain_boolean. cbn [negb orb]. decide_bool. rewrite (u64_small (lenZ vs)), u64_small by lia.
    pose proof (length_pack_bools (length vs) vs ltac:(lia)) as LP. fold (scalar_pack_bools vs) in LP. rewrite <- LP. decide_bool.
    unfold scalar_unpack_bools. rewrite unpack_bools_spec by lia. cbn.
    rewrite i64_len by (rewrite LP; dlia). by eexists.
  - unfold carquet_decode_plain_int32. rewrite (decode_words_spec i32 4 vs r) by (lia || exact Hs || by apply i32_words). by eexists.
  - unfold carquet_decode_plain_int64. rewrite (decode_words_spec i64 8 vs r) by (lia || exact Hs || by apply i64_words). by eexists.
  - unfold carquet_decode_plain_float. rewrite (decode_words_spec u32 4 vs r) by (lia || exact Hs || by apply u32_words). by eexists.
  - unfold carquet_decode_plain_double. rewrite (decode_words_spec u64 8 vs r) by (lia || exact Hs || by apply u64_words). by eexists.
  - assert (lenZ (concat (int96_bytes <$> vs)) = lenZ vs * 12) as L.
    { clear. induction vs as [|v vs IH]; [done|]. rewrite fmap_cons, concat_cons, length_app, length_int96_bytes, length_cons. lia. }
    unfold carquet_decode_plain_int96. cbn [negb orb]. decide_bool. rewrite (u64_small (lenZ vs)), u64_small by lia. rewrite <- L. decide_bool.
    rewrite Nat2Z.id, (int96_loop_spec _ r vs) by (done || lia). cbn. rewrite i64_len by lia. by eexists.
  - unfold carquet_decode_plain_byte_array. cbn [negb orb]. decide_bool. rewrite Nat2Z.id.
    assert (length vs = length (array_val <$> vs)) as -> by (by rewrite length_fmap).
    assert (concat ((λ v, array_bytes (array_val v)) <$> vs) = concat (array_bytes <$> (array_val <$> vs))) as EC by (by rewrite <- list_fmap_compose).
    rewrite EC in *. destruct (byte_array_loop_spec (concat (array_bytes <$> (array_val <$> vs)) ++ r) size r (array_val <$> vs) 0) as (out & -> & HS & HL);
      [|lia|done|lia|lia|].
    + apply Forall_fmap. eapply Forall_impl; [|exact H1]. intros v Hv. cbn. rewrite length_array_val by done. destruct Hv. lia.
    + cbn. eexists. split; [done|]. cbn. split; [done|]. rewrite HL, <- list_fmap_compose.
      clear - H1. induction H1 as [|v vs Hv _ IH]; cbn; [done|]. f_equal; [by apply length_array_val|exact IH].
  - destruct H2 as (? & HL & ? & ?). unfold carquet_decode_plain_fixed_byte_array. cbn [negb orb]. decide_bool.
    rewrite (u64_small count), (u64_small width), u64_small by nia. replace (count * width) with (lenZ bs) by lia. decide_bool.
    rewrite rd_n_Some by lia. cbn. change (Z.to_nat 0) with 0%nat. rewrite drop_0, Nat2Z.id, take_app_length, i64_len by lia. by eexists.
Qed.

(** C12: PLAIN round trip for every physical type.  Encoding a column into any buffer with
    any allocator either fails with OUT_OF_MEMORY or appends bytes from which the decoder
    returns exactly the column (booleans as 0/1, byte arrays as slices of the input) and
    the exact number of bytes, whatever follows them. *)
Theorem plain_roundtrip {A : Allocator} {AOk : AllocatorOk A} c b : col_ok c -> buffer_wf b ->
  exists s b', col_encode c b = Some (s, b') /\ buffer_wf b' /\
    (s = CARQUET_ERROR_OUT_OF_MEMORY \/
     s = CARQUET_OK /\ exists bs, buf_bytes b' = buf_bytes b ++ bs /\
       forall r size, lenZ bs <= size <= lenZ (bs ++ r) ->
         exists out, carquet_decode_plain (Some (bs ++ r)) size (col_type c) (col_width c) true (col_count c) =
           Some (lenZ bs, out) /\ col_matches c (bs ++ r) out).
Proof.
  intros Hc W. destruct (col_encode_appends c b Hc W) as ([s b'] & E & W' & H). exists s, b'. cbn in *.
  split; [done|]. split; [done|]. destruct H as [[-> EB]| ->]; [right|by left]. split; [done|].
  exists (col_bytes c). split; [done|]. intros r size Hs. by apply col_decode_spec.
Qed.

Lemma plain_roundtrip_witness :
  let A := limited_alloc (2 ^ 20) in
  let c := ColArrays [mk_byte_array (Some [104; 105]) 2; mk_byte_array None 0] in
  exists s b', col_encode c carquet_buffer_init = Some (s, b') /\ buf_bytes b' = [2; 0; 0; 0; 104; 105; 0; 0; 0; 0].
Proof.
  intros A c. destruct (plain_roundtrip (A := A) c carquet_buffer_init) as (s & b' & E & _).
  - split; [|vm_compute; reflexivity]. apply Forall_cons_2; [|apply Forall_cons_2; [|apply Forall_nil_2]].
    + split; [cbn; lia|]. cbn. split; [|lia]. repeat constructor; unfold in_u; lia.
    + split; cbn; lia.
  - apply init_wf.
  - exists s, b'. split; [exact E|]. revert E. vm_compute. intros [= <- <-]. reflexivity.
Defined.

(** ** Other hosts

    The element-wise loops of the branch for hosts that are not little-endian. *)

Lemma read_words_eq (wrap : Z -> Z) read (w : nat) input : (forall p, (w <= length p)%nat -> read p = Some (wrap (le_val (take w p)))) ->
  forall n i, 0 <= i -> (i + Z.of_nat n) * Z.of_nat w <= lenZ input ->
  read_words n read input (Z.of_nat w) i = Some (wrap <$> words_of n w (ptr_add input (i * Z.of_nat w))).
Proof.
  intros Hr. induction n as [|n IH]; intros i Hi Hn; cbn [read_words words_of fmap list_fmap]; [done|].
  assert (0 <= i * Z.of_nat w) by nia. assert (i * Z.of_nat w + Z.of_nat w <= lenZ input) by nia.
  rewrite Hr by (pose proof (length_ptr_add input (i * Z.of_nat w)); lia). cbn [mbind option_bind].
  rewrite IH by nia. cbn [mbind option_bind]. do 3 f_equal. f_equal.
  unfold ptr_add. rewrite drop_drop. f_equal. lia.
Qed.

Lemma copy_words_eq (wrap : Z -> Z) w input n : (0 < w)%nat -> Z.of_nat n * Z.of_nat w <= lenZ input ->
  copy_words wrap (Z.of_nat w) input (Z.of_nat n * Z.of_nat w) = Some (wrap <$> words_of n w input).
Proof.
  intros Hw Hn. unfold copy_words. rewrite rd_n_length by lia. cbn [mbind option_bind]. rewrite Z.div_mul, !Nat2Z.id by lia.
  f_equal. f_equal. rewrite <- Nat2Z.inj_mul, Nat2Z.id. rewrite <- Nat2Z.inj_mul in Hn. clear Hw. revert input Hn.
  induction n as [|n IH]; intros input Hn; cbn [words_of]; [done|]. rewrite take_take, skipn_firstn_comm.
  replace (Nat.min w (S n * w)) with w by lia. f_equal. replace (S n * w - w)%nat with (n * w)%nat by lia.
  apply IH. rewrite length_drop. lia.
Qed.

(** The branch of the other hosts stores the same words as the [memcpy]. *)
Lemma plain_hosts_agree p n : bytes_ok p ->
  (4 * Z.of_nat n <= lenZ p -> read_words n carquet_read_i32_le p 4 0 = copy_words i32 4 p (Z.of_nat n * 4)) /\
  (8 * Z.of_nat n <= lenZ p -> read_words n carquet_read_i64_le p 8 0 = copy_words i64 8 p (Z.of_nat n * 8)).
Proof.
  intros Hp. split; intros Hn.
  - rewrite (read_words_eq i32 carquet_read_i32_le 4), (copy_words_eq i32 4) by (try lia; intros q Hq;
      unfold carquet_read_i32_le, carquet_read_u32_le; rewrite rd_n_length by lia; done). done.
  - rewrite (read_words_eq i64 carquet_read_i64_le 8), (copy_words_eq i64 8) by (try lia; intros q Hq;
      unfold carquet_read_i64_le, carquet_read_u64_le; rewrite rd_n_length by lia; done). done.
Qed.

(** ** Arbitrary bytes *)

Lemma unpack_bools_total p : forall n i, 0 <= i -> i + Z.of_nat n < 2 ^ 33 -> (i + Z.of_nat n + 7) / 8 <= lenZ p ->
  exists out, unpack_bools_loop n p i = Some out /\ length out = n.
Proof.
  induction n as [|n IH]; intros i Hi H1 H2; cbn [unpack_bools_loop]; [by eexists|].
  assert (i32 (i / 8) = i / 8) as -> by (apply wrap_signed_small; [lia|unfold in_i; dlia]).
  rewrite rd_lookup by dlia. destruct (lookup_lt_is_Some_2 p (Z.to_nat (i / 8))) as [x ->]; [dlia|]. cbn [mbind option_bind].
  destruct (IH (i + 1)) as (out & -> & L); [lia|lia|by replace (i + 1 + Z.of_nat n) with (i + Z.of_nat (S n)) by lia|].
  cbn. eexists. split; [done|]. cbn. lia.
Qed.

Lemma int96_loop_total p : forall n i, 0 <= i -> (i + Z.of_nat n) * 12 <= lenZ p ->
  exists out, int96_loop n p i = Some out /\ length out = n.
Proof.
  induction n as [|n IH]; intros i Hi H1; cbn [int96_loop]; [by eexists|].
  unfold carquet_read_u32_le. pose proof (length_ptr_add p (i * 12) ltac:(lia)) as L.
  rewrite !ptr_add_add by lia. pose proof (length_ptr_add p (i * 12 + 4) ltac:(lia)). pose proof (length_ptr_add p (i * 12 + 8) ltac:(lia)).
  rewrite !rd_n_length by lia. cbn [mbind option_bind fmap option_fmap option_map].
  destruct (IH (i + 1)) as (out & -> & Lo); [lia|lia|]. cbn. eexists. split; [done|]. cbn. lia.
Qed.

Definition slice_in (size : Z) (s : byte_slice) : Prop :=
  0 <= slice_off s /\ 0 <= slice_length s /\ slice_off s + slice_length s <= size.

Lemma byte_array_loop_total p size : 0 <= size <= lenZ p -> size < 2 ^ 63 -> forall n pos, 0 <= pos <= size ->
  exists r out, byte_array_loop n p size pos = Some (r, out) /\ Forall (slice_in size) out /\ (length out <= n)%nat /\
    (r = -1 \/ pos <= r <= size /\ length out = n).
Proof.
  intros Hs Hs'. induction n as [|n IH]; intros pos Hp; cbn [byte_array_loop].
  { assert (i64 pos = pos) as -> by (apply wrap_signed_small; [lia|unfold in_i; lia]). exists pos, []. split; [done|].
    split; [constructor|]. split; [done|]. right. split; [lia|done]. }
  rewrite Z.gtb_ltb. destruct (Z.ltb_spec size (pos + 4)).
  { exists (-1), []. split; [done|]. split; [constructor|]. split; [cbn; lia|by left]. }
  unfold carquet_read_i32_le, carquet_read_u32_le. pose proof (length_ptr_add p pos ltac:(lia)).
  rewrite rd_n_length by lia. cbn [mbind option_bind fmap option_fmap option_map].
  set (len := i32 _). rewrite Z.gtb_ltb. destruct (Z.ltb_spec len 0); cbn [orb].
  { exists (-1), []. split; [done|]. split; [constructor|]. split; [cbn; lia|by left]. }
  destruct (Z.ltb_spec size (pos + 4 + len)).
  { exists (-1), []. split; [done|]. split; [constructor|]. split; [cbn; lia|by left]. }
  destruct (IH (pos + 4 + len)) as (r & out & -> & F & L & R); [lia|]. cbn [mbind option_bind].
  exists r, (mk_slice (pos + 4) len :: out). split; [done|]. split; [constructor; [split; cbn; lia|done]|].
  split; [cbn; lia|]. destruct R as [R|[R1 R2]]; [by left|right]. split; [lia|cbn; lia].
Qed.

Definition out_count (out : plain_out) : nat :=
  match out with OutWords l | OutBytes l => length l | OutInt96 l => length l | OutSlices l => length l end.

Definition out_slices_in (size : Z) (out : plain_out) : Prop :=
  match out with OutSlices l => Forall (slice_in size) l | _ => True end.

(** The number of cells of the output array a successful call fills. *)
Definition out_cells (type : carquet_physical_type_t) (type_length count : Z) : Z :=
  match type with CARQUET_PHYSICAL_FIXED_LEN_BYTE_ARRAY => count * type_length | _ => count end.

(** What every decoder promises on a page of [size] bytes. *)
Definition decode_promise (size cells : Z) (r : option (Z * plain_out)) : Prop :=
  exists n out, r = Some (n, out) /\ out_slices_in size out /\ Z.of_nat (out_count out) <= Z.max 0 cells /\
    (n = -1 \/ 0 <= n <= size /\ Z.of_nat (out_count out) = cells).

Lemma promise_refused size cells out : out_count out = 0%nat -> out_slices_in size out -> decode_promise size cells (Some (-1, out)).
Proof. intros H1 H2. exists (-1), out. rewrite H1. repeat split; [done|lia|by left]. Qed.

Lemma length_words_of n w bs : length (words_of n w bs) = n.
Proof. revert bs. induction n as [|n IH]; intros bs; cbn; [done|by rewrite IH]. Qed.

Lemma words_promise wrap w p size count : 0 < w <= 8 -> 0 <= size <= lenZ p -> size < 2 ^ 63 -> count < 2 ^ 33 ->
  decode_promise size count (out_map OutWords (decode_plain_words wrap w (Some p) size true count)).
Proof.
  intros Hw Hs Hs' Hc. unfold decode_plain_words. cbn [negb orb]. destruct (Z.ltb_spec count 0); [by apply promise_refused|].
  rewrite (u64_small count), u64_small by nia. destruct (Z.ltb_spec size (count * w)); [by apply promise_refused|].
  unfold copy_words. rewrite rd_n_length by nia. cbn [mbind option_bind out_map]. rewrite Z.div_mul by lia.
  exists (count * w), (OutWords (wrap <$> words_of (Z.to_nat count) (Z.to_nat w) (take (Z.to_nat (count * w)) p))).
  split; [cbn; do 2 f_equal; apply wrap_signed_small; [lia|unfold in_i; nia]|]. cbn. rewrite length_fmap, length_words_of.
  repeat split; [lia|]. right. nia.
Qed.

Lemma boolean_promise p size count : 0 <= size <= lenZ p -> size < 2 ^ 63 -> count < 2 ^ 33 ->
  decode_promise size count (out_map OutBytes (carquet_decode_plain_boolean (Some p) size true count)).
Proof.
  intros Hs Hs' Hc. unfold carquet_decode_plain_boolean. cbn [negb orb]. destruct (Z.ltb_spec count 0); [by apply promise_refused|].
  rewrite (u64_small count), u64_small by lia. destruct (Z.ltb_spec size ((count + 7) / 8)); [by apply promise_refused|].
  unfold scalar_unpack_bools. destruct (unpack_bools_total p (Z.to_nat count) 0) as (out & -> & L);
    [lia|lia|replace (0 + Z.of_nat (Z.to_nat count)) with count by lia; lia|].
  exists ((count + 7) / 8), (OutBytes out). split; [cbn; do 2 f_equal; apply wrap_signed_small; [lia|unfold in_i; dlia]|]. cbn.
  repeat split; [lia|]. right. split; [dlia|lia].
Qed.

Lemma int96_promise p size count : 0 <= size <= lenZ p -> size < 2 ^ 63 -> count < 2 ^ 33 ->
  decode_promise size count (out_map OutInt96 (carquet_decode_plain_int96 (Some p) size true count)).
Proof.
  intros Hs Hs' Hc. unfold carquet_decode_plain_int96. cbn [negb orb]. destruct (Z.ltb_spec count 0); [by apply promise_refused|].
  rewrite (u64_small count), u64_small by lia. destruct (Z.ltb_spec size (count * 12)); [by apply promise_refused|].
  destruct (int96_loop_total p (Z.to_nat count) 0) as (out & -> & L); [lia|lia|].
  exists (count * 12), (OutInt96 out). split; [cbn; do 2 f_equal; apply wrap_signed_small; [lia|unfold in_i; lia]|]. cbn.
  repeat split; [lia|]. right. lia.
Qed.

Lemma byte_array_promise p size count : 0 <= size <= lenZ p -> size < 2 ^ 63 ->
  decode_promise size count (out_map OutSlices (carquet_decode_plain_byte_array (Some p) size true count)).
Proof.
  intros Hs Hs'. unfold carquet_decode_plain_byte_array. cbn [negb orb].
  destruct (Z.ltb_spec count 0); [apply promise_refused; [done|constructor]|].
  destruct (byte_array_loop_total p size Hs Hs' (Z.to_nat count) 0) as (r & out & -> & F & L & R); [lia|].
  exists r, (OutSlices out). split; [done|]. split; [exact F|]. cbn [out_count]. split; [lia|]. lia.
Qed.

Lemma fixed_promise p size count width : 0 <= size <= lenZ p -> size < 2 ^ 63 -> count < 2 ^ 32 -> width < 2 ^ 31 ->
  decode_promise size (count * width) (out_map OutBytes (carquet_decode_plain_fixed_byte_array (Some p) size true count width)).
Proof.
  intros Hs Hs' Hc Hw. unfold carquet_decode_plain_fixed_byte_array. cbn [negb orb].
  destruct (Z.ltb_spec count 0); [by apply promise_refused|]. destruct (Z.leb_spec width 0); [by apply promise_refused|]. cbn [orb].
  rewrite (u64_small count), (u64_small width), u64_small by nia. destruct (Z.ltb_spec size (count * width)); [by apply promise_refused|].
  rewrite rd_n_length by nia. exists (count * width), (OutBytes (take (Z.to_nat (count * width)) p)).
  split; [cbn; do 2 f_equal; apply wrap_signed_small; [lia|unfold in_i; nia]|]. cbn. rewrite length_take. repeat split; [nia|]. right. nia.
Qed.

(** C36: memory safety of the PLAIN decoder.  For any bytes, type and count the decoder
    returns, reads inside the page only, fills at most [count] cells of the output array
    and all of them unless it returns -1, reports a byte count within the page, and every
    byte array it hands out lies inside the page. *)
Theorem plain_decode_safe input size type type_length output count :
  match input with Some p => size <= lenZ p | None => True end ->
  0 <= size < 2 ^ 63 -> in_i 32 type_length -> count < 2 ^ 32 ->
  decode_promise size (out_cells type type_length count) (carquet_decode_plain input size type type_length output count).
Proof.
  intros Hi Hs Ht Hc. unfold in_i in Ht. destruct input as [p|]; [destruct output|].
  - destruct type; cbn [out_cells carquet_decode_plain].
    + apply boolean_promise; lia.
    + apply words_promise; lia.
    + apply words_promise; lia.
    + apply int96_promise; lia.
    + apply words_promise; lia.
    + apply words_promise; lia.
    + apply byte_array_promise; lia.
    + apply fixed_promise; lia.
    + by apply promise_refused.
  - destruct type; apply promise_refused; (done || constructor).
  - destruct type; apply promise_refused; (done || constructor).
Qed.

Lemma plain_decode_safe_witness :
  decode_promise 7 2 (carquet_decode_plain (Some [1; 0; 0; 0; 65; 9; 0]) 7 CARQUET_PHYSICAL_BYTE_ARRAY 0 true 2) /\
  carquet_decode_plain (Some [1; 0; 0; 0; 65; 9; 0]) 7 CARQUET_PHYSICAL_BYTE_ARRAY 0 true 2 = Some (-1, OutSlices [mk_slice 4 1]).
Proof.
  split; [|reflexivity]. apply (plain_decode_safe (Some [1; 0; 0; 0; 65; 9; 0]) 7 CARQUET_PHYSICAL_BYTE_ARRAY 0 true 2);
    [cbn; lia|lia|unfold in_i; lia|lia].
Defined.
