(* ===== verification/Snappy.v ===== *)
(** * Snappy (carquet/compression/snappy.c)

    The block compressor and the decompressor.  Source and destination are byte lists
    with offsets for the pointers [ip], [op], [anchor], [candidate]; every load and store
    is checked against the object it touches, so a result [Some _] says that no access was
    out of bounds.  The destination is real memory: block copies overwrite bytes past the
    output cursor, as in the code.  [vec] tells whether the build has a vector shuffle
    (NEON or SSSE3); both branches of the preprocessor are modelled. *)

From S2P Require Import Prelude Memory Status Dispatch.

Definition SNAPPY_LITERAL : Z := 0.
Definition SNAPPY_COPY_1 : Z := 1.
Definition SNAPPY_COPY_2 : Z := 2.
Definition SNAPPY_COPY_4 : Z := 3.
Definition SNAPPY_HASH_LOG : Z := 14.
Definition SNAPPY_HASH_SIZE : Z := 1 ≪ SNAPPY_HASH_LOG.
Definition SNAPPY_MAX_OFFSET : Z := 65535.
Definition SNAPPY_BLOCK_SIZE : Z := 1 ≪ 16.
Definition SNAPPY_SLOP_BYTES : Z := 64.

(** ** Loads and stores *)

Definition load32 (p : list Z) (i : Z) : option Z := le_val <$> rd_n p i 4.
Definition load64 (p : list Z) (i : Z) : option Z := le_val <$> rd_n p i 8.
Definition store32 (p : list Z) (i v : Z) : option (list Z) := wr_n p i (le_bytes 4 v).

(** [copy64(src + s, dst + d)]; source and destination may be the same object. *)
Definition copy64 (src : list Z) (s : Z) (dst : list Z) (d : Z) : option (list Z) :=
  v ← rd_n src s 8; wr_n dst d v.

Definition copy128 (src : list Z) (s : Z) (dst : list Z) (d : Z) : option (list Z) :=
  lo ← rd_n src s 8;
  hi ← rd_n src (s + 8) 8;
  dst ← wr_n dst d lo;
  wr_n dst (d + 8) hi.

(** ** Tables *)

Definition kLengthMinusOffset : list Z := [
  -255; 4; 1; 255; -254; 5; 2; 255; -253; 6; 3; 255; -252; 7; 4; 255;
  -251; 8; 5; 255; -250; 9; 6; 255; -249; 10; 7; 255; -248; 11; 8; 255;
  -247; -252; 9; 255; -246; -251; 10; 255; -245; -250; 11; 255; -244; -249; 12; 255;
  -243; -248; 13; 255; -242; -247; 14; 255; -241; -246; 15; 255; -240; -245; 16; 255;
  -239; -508; 17; 255; -238; -507; 18; 255; -237; -506; 19; 255; -236; -505; 20; 255;
  -235; -504; 21; 255; -234; -503; 22; 255; -233; -502; 23; 255; -232; -501; 24; 255;
  -231; -764; 25; 255; -230; -763; 26; 255; -229; -762; 27; 255; -228; -761; 28; 255;
  -227; -760; 29; 255; -226; -759; 30; 255; -225; -758; 31; 255; -224; -757; 32; 255;
  -223; -1020; 33; 255; -222; -1019; 34; 255; -221; -1018; 35; 255; -220; -1017; 36; 255;
  -219; -1016; 37; 255; -218; -1015; 38; 255; -217; -1014; 39; 255; -216; -1013; 40; 255;
  -215; -1276; 41; 255; -214; -1275; 42; 255; -213; -1274; 43; 255; -212; -1273; 44; 255;
  -211; -1272; 45; 255; -210; -1271; 46; 255; -209; -1270; 47; 255; -208; -1269; 48; 255;
  -207; -1532; 49; 255; -206; -1531; 50; 255; -205; -1530; 51; 255; -204; -1529; 52; 255;
  -203; -1528; 53; 255; -202; -1527; 54; 255; -201; -1526; 55; 255; -200; -1525; 56; 255;
  -199; -1788; 57; 255; -198; -1787; 58; 255; -197; -1786; 59; 255; -196; -1785; 60; 255;
  255; -1784; 61; 255; 255; -1783; 62; 255; 255; -1782; 63; 255; 255; -1781; 64; 255].

Definition snappy_masks_offset0 : list (list Z) := [
  [0; 0; 0; 0; 0; 0; 0; 0; 0; 0; 0; 0; 0; 0; 0; 0];
  [0; 0; 0; 0; 0; 0; 0; 0; 0; 0; 0; 0; 0; 0; 0; 0];
  [0; 1; 0; 1; 0; 1; 0; 1; 0; 1; 0; 1; 0; 1; 0; 1];
  [0; 1; 2; 0; 1; 2; 0; 1; 2; 0; 1; 2; 0; 1; 2; 0];
  [0; 1; 2; 3; 0; 1; 2; 3; 0; 1; 2; 3; 0; 1; 2; 3];
  [0; 1; 2; 3; 4; 0; 1; 2; 3; 4; 0; 1; 2; 3; 4; 0];
  [0; 1; 2; 3; 4; 5; 0; 1; 2; 3; 4; 5; 0; 1; 2; 3];
  [0; 1; 2; 3; 4; 5; 6; 0; 1; 2; 3; 4; 5; 6; 0; 1];
  [0; 1; 2; 3; 4; 5; 6; 7; 0; 1; 2; 3; 4; 5; 6; 7];
  [0; 1; 2; 3; 4; 5; 6; 7; 8; 0; 1; 2; 3; 4; 5; 6];
  [0; 1; 2; 3; 4; 5; 6; 7; 8; 9; 0; 1; 2; 3; 4; 5];
  [0; 1; 2; 3; 4; 5; 6; 7; 8; 9; 10; 0; 1; 2; 3; 4];
  [0; 1; 2; 3; 4; 5; 6; 7; 8; 9; 10; 11; 0; 1; 2; 3];
  [0; 1; 2; 3; 4; 5; 6; 7; 8; 9; 10; 11; 12; 0; 1; 2];
  [0; 1; 2; 3; 4; 5; 6; 7; 8; 9; 10; 11; 12; 13; 0; 1];
  [0; 1; 2; 3; 4; 5; 6; 7; 8; 9; 10; 11; 12; 13; 14; 0]].

Definition snappy_masks_offset16 : list (list Z) := [
  [0; 0; 0; 0; 0; 0; 0; 0; 0; 0; 0; 0; 0; 0; 0; 0];
  [0; 0; 0; 0; 0; 0; 0; 0; 0; 0; 0; 0; 0; 0; 0; 0];
  [0; 1; 0; 1; 0; 1; 0; 1; 0; 1; 0; 1; 0; 1; 0; 1];
  [1; 2; 0; 1; 2; 0; 1; 2; 0; 1; 2; 0; 1; 2; 0; 1];
  [0; 1; 2; 3; 0; 1; 2; 3; 0; 1; 2; 3; 0; 1; 2; 3];
  [1; 2; 3; 4; 0; 1; 2; 3; 4; 0; 1; 2; 3; 4; 0; 1];
  [4; 5; 0; 1; 2; 3; 4; 5; 0; 1; 2; 3; 4; 5; 0; 1];
  [2; 3; 4; 5; 6; 0; 1; 2; 3; 4; 5; 6; 0; 1; 2; 3];
  [0; 1; 2; 3; 4; 5; 6; 7; 0; 1; 2; 3; 4; 5; 6; 7];
  [7; 8; 0; 1; 2; 3; 4; 5; 6; 7; 8; 0; 1; 2; 3; 4];
  [6; 7; 8; 9; 0; 1; 2; 3; 4; 5; 6; 7; 8; 9; 0; 1];
  [5; 6; 7; 8; 9; 10; 0; 1; 2; 3; 4; 5; 6; 7; 8; 9];
  [4; 5; 6; 7; 8; 9; 10; 11; 0; 1; 2; 3; 4; 5; 6; 7];
  [3; 4; 5; 6; 7; 8; 9; 10; 11; 12; 0; 1; 2; 3; 4; 5];
  [2; 3; 4; 5; 6; 7; 8; 9; 10; 11; 12; 13; 0; 1; 2; 3];
  [1; 2; 3; 4; 5; 6; 7; 8; 9; 10; 11; 12; 13; 14; 0; 1]].

(** ** Varints *)

(** The unrolled steps; the last accepts only a byte below 16.  The result is the value
    and the offset after the varint. *)
Fixpoint read_varint_steps (steps : nat) (src : list Z) (p end_ result shift : Z) : option (option (Z * Z)) :=
  match steps with
  | O => Some None
  | S steps =>
      if p >=? end_ then Some None else
      b ← rd src p;
      let result := u32 (result .| u32 ((b .& 0x7F) ≪ shift)) in
      let limit := match steps with O => 16 | _ => 128 end in
      if b <? limit then Some (Some (result, p + 1))
      else read_varint_steps steps src (p + 1) end_ result (shift + 7)
  end.

(** [None] inside is the return value 0. *)
Definition snappy_read_varint (src : list Z) (p end_ : Z) : option (option (Z * Z)) :=
  read_varint_steps 5 src p end_ 0 0.

Fixpoint write_varint_loop (fuel : nat) (dst : list Z) (p value : Z) : option (list Z * Z) :=
  if value >=? 0x80 then
    match fuel with
    | O => None
    | S fuel => dst ← wr dst p (u8 (value .| 0x80)); write_varint_loop fuel dst (p + 1) (value ≫ 7)
    end
  else dst ← wr dst p (u8 value); Some (dst, p + 1).

Definition snappy_write_varint (dst : list Z) (p value : Z) : option (list Z * Z) :=
  write_varint_loop 5 dst p value.

(** ** Overlapping copies

    [src] and [op] are offsets into [m]. *)

Definition incremental_copy_slow (m : list Z) (src op op_limit : Z) : option (list Z) :=
  match_copy_bytes (Z.to_nat (op_limit - op)) m op src.

(** [vqtbl1q_u8] and [_mm_shuffle_epi8] on masks below 16. *)
Definition shuffle (v mask : list Z) : option (list Z) := mapM (rd v) mask.

Definition load_pattern (m : list Z) (src pattern_size : Z) : option (list Z) :=
  gen_mask ← rd snappy_masks_offset0 pattern_size;
  raw ← rd_n m src 16;
  shuffle raw gen_mask.

Definition reshuffle_mask (pattern_size : Z) : option (list Z) := rd snappy_masks_offset16 pattern_size.

(** [if (op + k < op_limit) { pattern = shuffle(pattern, reshuffle); store(op + k, pattern); }]
    for the offsets [k] of the list. *)
Fixpoint store_patterns (ks : list Z) (m pattern reshuffle : list Z) (op op_limit : Z) : option (list Z) :=
  match ks with
  | [] => Some m
  | k :: ks =>
      if op + k <? op_limit then
        pattern ← shuffle pattern reshuffle;
        m ← wr_n m (op + k) pattern;
        store_patterns ks m pattern reshuffle op op_limit
      else store_patterns ks m pattern reshuffle op op_limit
  end.

(** [while (pattern_size < 8) { copy64(src, op); op += pattern_size; pattern_size *= 2; }] *)
Fixpoint double_pattern (fuel : nat) (m : list Z) (src op pattern_size : Z) : option (list Z * Z * Z) :=
  if pattern_size <? 8 then
    match fuel with
    | O => None
    | S fuel => m ← copy64 m src m op; double_pattern fuel m src (op + pattern_size) (pattern_size * 2)
    end
  else Some (m, op, pattern_size).

(** [while (op + 8 <= op_limit && op + 8 <= buf_limit) copy64(...)] *)
Fixpoint copy64_loop (fuel : nat) (m : list Z) (src op op_limit buf_limit : Z) : option (list Z * Z * Z) :=
  if (op + 8 <=? op_limit) && (op + 8 <=? buf_limit) then
    match fuel with
    | O => None
    | S fuel => m ← copy64 m src m op; copy64_loop fuel m (src + 8) (op + 8) op_limit buf_limit
    end
  else Some (m, src, op).

(** [while (op < op_end) copy128(...)] *)
Fixpoint copy128_loop (fuel : nat) (m : list Z) (src op op_end : Z) : option (list Z * Z * Z) :=
  if op <? op_end then
    match fuel with
    | O => None
    | S fuel => m ← copy128 m src m op; copy128_loop fuel m (src + 16) (op + 16) op_end
    end
  else Some (m, src, op).

(** [if (op + k < op_limit) copy128(src + k, op + k);] for the offsets of the list. *)
Fixpoint copy128_blocks (ks : list Z) (m : list Z) (src op op_limit : Z) : option (list Z) :=
  match ks with
  | [] => Some m
  | k :: ks =>
      if op + k <? op_limit then m ← copy128 m (src + k) m (op + k); copy128_blocks ks m src op op_limit
      else copy128_blocks ks m src op op_limit
  end.

Definition incremental_copy (vec : bool) (m : list Z) (src op op_limit buf_limit : Z) : option (list Z) :=
  let pattern_size := op - src in
  let big_pattern := 16 in
  if pattern_size <? big_pattern then
    if vec then
      if op_limit <=? buf_limit - 15 then
        pattern ← load_pattern m src pattern_size;
        reshuffle ← reshuffle_mask pattern_size;
        m ← wr_n m op pattern;
        store_patterns [16; 32; 48] m pattern reshuffle op op_limit
      else incremental_copy_slow m src op op_limit
    else
      if op <=? buf_limit - 11 then
        '(m, op, pattern_size) ← double_pattern 3 m src op pattern_size;
        if op >=? op_limit then Some m else
        let src := op - pattern_size in
        '(m, src, op) ← copy64_loop 8 m src op op_limit buf_limit;
        if op >=? op_limit then Some m else
        incremental_copy_slow m src op op_limit
      else incremental_copy_slow m src op op_limit
  else
    if op_limit <=? buf_limit - 15 then
      m ← copy128 m src m op;
      copy128_blocks [16; 32; 48] m src op op_limit
    else
      let op_end := buf_limit - 16 in
      '(m, src, op) ← copy128_loop (Z.to_nat (op_end - op)) m src op op_end;
      if op >=? op_limit then Some m else
      if op <=? buf_limit - 8 then
        m ← copy64 m src m op;
        incremental_copy_slow m (src + 8) (op + 8) op_limit
      else incremental_copy_slow m src op op_limit.

(** ** Decompression *)

Inductive step_result := StepInvalid | StepNext (dst : list Z) (ip op : Z).

Definition literal_length (src : list Z) (tag ip ip_end : Z) : option (option (Z * Z)) :=
  let literal_len := (tag ≫ 2) + 1 in
  if literal_len >=? 61 then
    let extra_bytes := literal_len - 60 in
    if ip + extra_bytes >? ip_end then Some None else
    raw ← le_val <$> rd_n src ip (if extra_bytes <=? 4 then extra_bytes else 4);
    let mask64 := 0xFFFFFFFF in
    let literal_len := u32 ((raw .& u32 (Z.lnot (u64 (mask64 ≪ (8 * extra_bytes))))) + 1) in
    Some (Some (literal_len, ip + extra_bytes))
  else Some (Some (literal_len, ip)).

(** The bytes of a literal: sixteen at once when there is room, or exactly [literal_len]. *)
Definition literal_copy (src : list Z) (literal_len ip ip_end : Z) (dst : list Z) (op op_end : Z) : option step_result :=
  if (literal_len <=? 16) && (ip + 16 <=? ip_end) && (op + 16 <=? op_end) then
    dst ← copy128 src ip dst op;
    Some (StepNext dst (ip + literal_len) (op + literal_len))
  else if (ip + literal_len >? ip_end) || (op + literal_len >? op_end) then Some StepInvalid
  else
    bs ← rd_n src ip literal_len;
    dst ← wr_n dst op bs;
    Some (StepNext dst (ip + literal_len) (op + literal_len)).

Definition literal_step (src : list Z) (tag ip ip_end : Z) (dst : list Z) (op op_end : Z) : option step_result :=
  r ← literal_length src tag ip ip_end;
  match r with
  | None => Some StepInvalid
  | Some (literal_len, ip) => literal_copy src literal_len ip ip_end dst op op_end
  end.

(** The trailer of COPY_1 and COPY_2: the offset and the cursor after it. *)
Definition copy_trailer (src : list Z) (type tag ip ip_end : Z) : option (option (Z * Z)) :=
  if type =? SNAPPY_COPY_1 then
    if ip >=? ip_end then Some None else
    b ← rd src ip;
    Some (Some (((tag .& 0xE0) ≪ 3) .| b, ip + 1))
  else
    if ip + 2 >? ip_end then Some None else
    b0 ← rd src ip;
    b1 ← rd src (ip + 1);
    Some (Some (b0 .| (b1 ≪ 8), ip + 2)).

(** The three ways of expanding a match. *)
Definition expand_match (vec : bool) (dst : list Z) (op copy_offset length op_end op_limit_min_slop : Z) : option (list Z) :=
  let match_src := op - copy_offset in
  if (copy_offset >=? 16) && (op + length <=? op_limit_min_slop) then
    dst ← copy128 dst match_src dst op;
    copy128_blocks [16; 32; 48] dst match_src op (op + length)
  else if (length <=? SNAPPY_SLOP_BYTES) && (op + length <=? op_limit_min_slop) && (copy_offset >=? length) then
    bs ← rd_n dst match_src SNAPPY_SLOP_BYTES;
    wr_n dst op bs
  else incremental_copy vec dst match_src op (op + length) op_end.

Definition copy_step (vec : bool) (src : list Z) (type tag ip ip_end : Z) (dst : list Z) (op op_end op_limit_min_slop : Z)
    : option step_result :=
  entry ← rd kLengthMinusOffset tag;
  r ← copy_trailer src type tag ip ip_end;
  match r with
  | None => Some StepInvalid
  | Some (copy_offset, ip) =>
      let length := entry .& 0xFF in
      if (copy_offset =? 0) || (copy_offset >? op) then Some StepInvalid else
      if op + length >? op_end then Some StepInvalid else
      dst ← expand_match vec dst op copy_offset length op_end op_limit_min_slop;
      Some (StepNext dst ip (op + length))
  end.

Definition copy4_step (vec : bool) (src : list Z) (tag ip ip_end : Z) (dst : list Z) (op op_end : Z) : option step_result :=
  if ip + 4 >? ip_end then Some StepInvalid else
  let length := ((tag ≫ 2) .& 0x3F) + 1 in
  copy_offset ← load32 src ip;
  let ip := ip + 4 in
  if (copy_offset =? 0) || (copy_offset >? op) then Some StepInvalid else
  if op + length >? op_end then Some StepInvalid else
  let match_src := op - copy_offset in
  dst ← incremental_copy vec dst match_src op (op + length) op_end;
  Some (StepNext dst ip (op + length)).

Definition decompress_step (vec : bool) (src : list Z) (ip_end : Z) (op_end op_limit_min_slop : Z) (dst : list Z) (ip op : Z)
    : option step_result :=
  tag ← rd src ip;
  let ip := ip + 1 in
  let type := tag .& 0x03 in
  if type =? SNAPPY_LITERAL then literal_step src tag ip ip_end dst op op_end
  else if negb (type =? SNAPPY_COPY_4) then copy_step vec src type tag ip ip_end dst op op_end op_limit_min_slop
  else copy4_step vec src tag ip ip_end dst op op_end.

Fixpoint decompress_loop (fuel : nat) (vec : bool) (src : list Z) (ip_end op_end op_limit_min_slop : Z)
    (dst : list Z) (ip op : Z) : option step_result :=
  if (ip <? ip_end) && (op <? op_end) then
    match fuel with
    | O => None
    | S fuel =>
        r ← decompress_step vec src ip_end op_end op_limit_min_slop dst ip op;
        match r with
        | StepInvalid => Some StepInvalid
        | StepNext dst ip op => decompress_loop fuel vec src ip_end op_end op_limit_min_slop dst ip op
        end
    end
  else Some (StepNext dst ip op).

(** The status, the destination and [*dst_size] when it is written.  The destination after
    a failure is not described: the code leaves a partial expansion there. *)
Definition carquet_snappy_decompress (vec : bool) (src : option (list Z)) (src_size : Z) (dst : option (list Z))
    (dst_capacity : Z) (has_dst_size : bool) : option (carquet_status_t * option (list Z * Z)) :=
  match src, dst with
  | Some src, Some dst =>
      if negb has_dst_size then Some (CARQUET_ERROR_INVALID_ARGUMENT, None) else
      if src_size =? 0 then Some (CARQUET_OK, Some (dst, 0)) else
      let ip_end := src_size in
      r ← snappy_read_varint src 0 ip_end;
      match r with
      | None => Some (CARQUET_ERROR_INVALID_COMPRESSED_DATA, None)
      | Some (uncompressed_len, ip) =>
          if uncompressed_len >? dst_capacity then Some (CARQUET_ERROR_INVALID_COMPRESSED_DATA, None) else
          let op_end := uncompressed_len in
          let op_limit_min_slop := if uncompressed_len >=? SNAPPY_SLOP_BYTES then op_end - SNAPPY_SLOP_BYTES + 1 else 0 in
          r ← decompress_loop (Z.to_nat src_size) vec src ip_end op_end op_limit_min_slop dst ip 0;
          match r with
          | StepInvalid => Some (CARQUET_ERROR_INVALID_COMPRESSED_DATA, None)
          | StepNext dst ip op =>
              if negb (op =? uncompressed_len) || negb (ip =? ip_end)
              then Some (CARQUET_ERROR_INVALID_COMPRESSED_DATA, None)
              else Some (CARQUET_OK, Some (dst, uncompressed_len))
          end
      end
  | _, _ => Some (CARQUET_ERROR_INVALID_ARGUMENT, None)
  end.

Definition carquet_snappy_get_uncompressed_length (src : option (list Z)) (src_size : Z) (has_length : bool)
    : option (carquet_status_t * option Z) :=
  match src with
  | Some src =>
      if negb has_length then Some (CARQUET_ERROR_INVALID_ARGUMENT, None) else
      r ← snappy_read_varint src 0 src_size;
      match r with
      | None => Some (CARQUET_ERROR_INVALID_COMPRESSED_DATA, None)
      | Some (len, _) => Some (CARQUET_OK, Some len)
      end
  | None => Some (CARQUET_ERROR_INVALID_ARGUMENT, None)
  end.

(** ** Compression *)

Definition snappy_hash (val : Z) : Z := u32 (val * 0x1e35a7bd) ≫ (32 - SNAPPY_HASH_LOG).

(** [SNAPPY_CTZ64] and [SNAPPY_CLZ32], the portable definitions. *)
Fixpoint snappy_ctz64 (fuel : nat) (x : Z) : option Z :=
  if (x .& 1) =? 0 then
    match fuel with O => None | S fuel => n ← snappy_ctz64 fuel (x ≫ 1); Some (n + 1) end
  else Some 0.

Fixpoint snappy_clz32 (fuel : nat) (x : Z) : option Z :=
  if (x .& 0x80000000) =? 0 then
    match fuel with O => None | S fuel => n ← snappy_clz32 fuel (u32 (x ≪ 1)); Some (n + 1) end
  else Some 0.

(** The 64-bit comparisons, then the byte loop; the result is the number of equal bytes. *)
Fixpoint match_words (fuel : nat) (src : list Z) (p m limit : Z) : option Z :=
  if p + 8 <=? limit then
    match fuel with
    | O => None
    | S fuel =>
        a ← load64 src p;
        b ← load64 src m;
        let diff := a .^ b in
        if negb (diff =? 0) then c ← snappy_ctz64 63 diff; Some (c ≫ 3)
        else n ← match_words fuel src (p + 8) (m + 8) limit; Some (8 + n)
    end
  else match_length_loop (Z.to_nat (limit - p)) src p m limit.

Definition fast_match_length (src : list Z) (p m limit : Z) : option Z :=
  match_words (Z.to_nat (limit - p)) src p m limit.

Definition snappy_emit_literal (dst : list Z) (op : Z) (src : list Z) (literal len : Z) : option (list Z * Z) :=
  let n := len - 1 in
  '(dst, op) ←
    (if n <? 60 then dst ← wr dst op (u8 (n ≪ 2)); Some (dst, op + 1)
     else
       c ← snappy_clz32 32 (u32 n);
       let count := (31 - c) / 8 + 1 in
       dst ← wr dst op (u8 ((59 + count) ≪ 2));
       dst ← store32 dst (op + 1) (u32 n);
       Some (dst, op + 1 + count));
  bs ← rd_n src literal len;
  dst ← wr_n dst op bs;
  Some (dst, op + len).

(** [*op++ = tag; *op++ = offset & 0xFF; *op++ = offset >> 8;] *)
Definition emit_copy2 (dst : list Z) (op tag offset : Z) : option (list Z * Z) :=
  dst ← wr dst op (u8 tag);
  dst ← wr dst (op + 1) (u8 (offset .& 0xFF));
  dst ← wr dst (op + 2) (u8 (offset ≫ 8));
  Some (dst, op + 3).

Fixpoint emit_copy_chunks (fuel : nat) (dst : list Z) (op offset len : Z) : option (list Z * Z * Z) :=
  if len >=? 68 then
    match fuel with
    | O => None
    | S fuel =>
        '(dst, op) ← emit_copy2 dst op ((63 ≪ 2) .| SNAPPY_COPY_2) offset;
        emit_copy_chunks fuel dst op offset (len - 64)
    end
  else Some (dst, op, len).

(** The last chunk, one of three forms. *)
Definition emit_copy_tail (dst : list Z) (op offset len : Z) : option (list Z * Z) :=
  if (len <? 12) && (offset <? 2048) then
    let u := u32 (u32 (u32 len ≪ 2) + u32 (u32 offset ≪ 8)) in
    let copy1 := u32 (SNAPPY_COPY_1 - (4 ≪ 2) + ((u32 offset ≫ 3) .& 0xe0)) in
    dst ← store32 dst op (u32 (u + copy1));
    Some (dst, op + 2)
  else if len <? 12 then
    let u := u32 (SNAPPY_COPY_2 + u32 (u32 (u32 len - 1) ≪ 2) + u32 (u32 offset ≪ 8)) in
    dst ← store32 dst op u;
    Some (dst, op + 3)
  else emit_copy2 dst op (((len - 1) ≪ 2) .| SNAPPY_COPY_2) offset.

Definition snappy_emit_copy (dst : list Z) (op offset len : Z) : option (list Z * Z) :=
  '(dst, op, len) ← emit_copy_chunks (Z.to_nat len) dst op offset len;
  if len >? 64 then
    '(dst, op) ← emit_copy2 dst op ((59 ≪ 2) .| SNAPPY_COPY_2) offset;
    emit_copy_tail dst op offset (len - 60)
  else emit_copy_tail dst op offset len.

(** The table lookup and update shared by the loops:
    [candidate = src + hash_table[h]; hash_table[h] = (uint16_t)pos;] *)
Definition hash_swap (table : list Z) (h pos : Z) : option (Z * list Z) :=
  candidate ← rd table h;
  table ← wr table h (u16 pos);
  Some (candidate, table).

(** The start-up loop over the first sixteen positions, [ip] fixed, [delta = ip - src].
    [i = 4 * j + k]; the next word is loaded after every fourth step. *)
Fixpoint startup_loop (steps : nat) (src : list Z) (ip : Z) (table : list Z) (i data : Z)
    : option (option (Z * Z) * list Z) :=
  match steps with
  | O => Some (None, table)
  | S steps =>
      dword ← (if i =? 0 then load32 src ip else Some (u32 data));
      let h := snappy_hash dword in
      '(candidate, table) ← hash_swap table h (ip + i);
      c ← load32 src candidate;
      if c =? dword then Some (Some (i, candidate), table)
      else
        data ← (if i mod 4 =? 3 then load64 src (ip + 4 * (i / 4) + 4) else Some (data ≫ 8));
        startup_loop steps src ip table (i + 1) data
  end.

(** The [for (;;)] search: [None] when the next position passes [ilimit], otherwise the
    position and the candidate of a match.  The table is updated on the way. *)
Fixpoint search_loop (fuel : nat) (src : list Z) (ilimit : Z) (table : list Z) (ip skip : Z)
    : option (option (Z * Z) * list Z) :=
  match fuel with
  | O => None
  | S fuel =>
      d ← load32 src ip;
      let h := snappy_hash d in
      let bytes_between := skip ≫ 5 in
      let skip := u32 (skip + bytes_between) in
      let next_ip := ip + bytes_between in
      if next_ip >? ilimit then Some (None, table) else
      '(candidate, table) ← hash_swap table h ip;
      d ← load32 src ip;
      c ← load32 src candidate;
      if d =? c then Some (Some (ip, candidate), table)
      else search_loop fuel src ilimit table next_ip skip
  end.

(** [emit_match:] and what follows it; the result is the destination, [op] and [anchor]
    at [emit_remainder]. *)
Fixpoint match_loop (fuel : nat) (src : list Z) (iend ilimit : Z) (table dst : list Z) (op ip candidate : Z)
    : option (list Z * Z * Z) :=
  match fuel with
  | O => None
  | S fuel =>
      n ← fast_match_length src (ip + 4) (candidate + 4) iend;
      let match_len := 4 + n in
      let offset := ip - candidate in
      let ip := ip + match_len in
      '(dst, op) ← snappy_emit_copy dst op offset match_len;
      if ip >=? ilimit then Some (dst, op, ip) else
      d ← load32 src (ip - 1);
      table ← wr table (snappy_hash d) (u16 (ip - 1));
      d ← load32 src ip;
      let h := snappy_hash d in
      '(candidate, table) ← hash_swap table h ip;
      d ← load32 src ip;
      c ← load32 src candidate;
      if (d =? c) && (ip - candidate <=? SNAPPY_MAX_OFFSET)
      then match_loop fuel src iend ilimit table dst op ip candidate
      else
        let anchor := ip in
        '(found, table) ← search_loop (Z.to_nat iend) src ilimit table (ip + 1) 32;
        match found with
        | None => Some (dst, op, anchor)
        | Some (ip, candidate) =>
            '(dst, op) ← (if ip >? anchor then snappy_emit_literal dst op src anchor (ip - anchor) else Some (dst, op));
            match_loop fuel src iend ilimit table dst op ip candidate
        end
  end.

(** [emit_remainder:] *)
Definition emit_remainder (src : list Z) (iend : Z) (r : list Z * Z * Z) : option (list Z * Z) :=
  let '(dst, op, anchor) := r in
  if anchor <? iend then snappy_emit_literal dst op src anchor (iend - anchor) else Some (dst, op).

Definition snappy_compress_block (src : list Z) (src_size : Z) (dst : list Z) (op : Z) : option (list Z * Z) :=
  if src_size =? 0 then Some (dst, op) else
  if src_size <? 15 then snappy_emit_literal dst op src 0 src_size else
  let hash_table := replicate (Z.to_nat SNAPPY_HASH_SIZE) 0 in
  let iend := src_size in
  let ilimit := iend - 15 in
  let anchor := 0 in
  d ← load32 src 0;
  hash_table ← wr hash_table (snappy_hash d) 0;
  '(found, hash_table) ←
    (if ilimit - 1 >=? 16 then data ← load64 src 1; startup_loop 16 src 1 hash_table 0 data
     else Some (None, hash_table));
  match found with
  | Some (i, candidate) =>
      dst ← wr dst op (u8 (SNAPPY_LITERAL .| (i ≪ 2)));
      dst ← copy128 src anchor dst (op + 1);
      r ← match_loop (Z.to_nat iend) src iend ilimit hash_table dst (op + i + 2) (1 + i) candidate;
      emit_remainder src iend r
  | None =>
      let ip := if ilimit - 1 >=? 16 then 1 + 16 else 1 in
      '(found, hash_table) ← search_loop (Z.to_nat iend) src ilimit hash_table ip 32;
      match found with
      | None => emit_remainder src iend (dst, op, anchor)
      | Some (ip, candidate) =>
          '(dst, op) ← (if ip >? anchor then snappy_emit_literal dst op src anchor (ip - anchor) else Some (dst, op));
          r ← match_loop (Z.to_nat iend) src iend ilimit hash_table dst op ip candidate;
          emit_remainder src iend r
      end
  end.

Definition carquet_snappy_compress_bound (src_size : Z) : Z := u64 (32 + src_size + src_size / 6).

Fixpoint compress_blocks (fuel : nat) (src : list Z) (src_size pos : Z) (dst : list Z) (op : Z) : option (list Z * Z) :=
  if pos <? src_size then
    match fuel with
    | O => None
    | S fuel =>
        let block_size := src_size - pos in
        let block_size := if block_size >? SNAPPY_BLOCK_SIZE then SNAPPY_BLOCK_SIZE else block_size in
        '(dst, op) ← snappy_compress_block (ptr_add src pos) block_size dst op;
        compress_blocks fuel src src_size (pos + block_size) dst op
    end
  else Some (dst, op).

Definition carquet_snappy_compress (src : option (list Z)) (src_size : Z) (dst : option (list Z)) (dst_capacity : Z)
    (has_dst_size : bool) : option (carquet_status_t * option (list Z * Z)) :=
  match dst with
  | Some dst =>
      if negb has_dst_size then Some (CARQUET_ERROR_INVALID_ARGUMENT, None) else
      let max_output := carquet_snappy_compress_bound src_size in
      if dst_capacity <? max_output then Some (CARQUET_ERROR_COMPRESSION, None) else
      '(dst, op) ← snappy_write_varint dst 0 (u32 src_size);
      if src_size =? 0 then Some (CARQUET_OK, Some (dst, op)) else
      match src with
      | None => Some (CARQUET_ERROR_INVALID_ARGUMENT, None)
      | Some src =>
          '(dst, op) ← compress_blocks (Z.to_nat src_size) src src_size 0 dst op;
          Some (CARQUET_OK, Some (dst, op))
      end
  | None => Some (CARQUET_ERROR_INVALID_ARGUMENT, None)
  end.

(** A run of the two together, with and without the vector shuffle. *)
Definition snappy_trip (vec : bool) (s : list Z) (spare : Z) : option (list Z * list Z) :=
  match carquet_snappy_compress (Some s) (lenZ s) (Some (replicate (Z.to_nat (32 + 2 * lenZ s)) 0)) (32 + 2 * lenZ s) true with
  | Some (CARQUET_OK, Some (d, n)) =>
      match carquet_snappy_decompress vec (Some d) n (Some (replicate (Z.to_nat (lenZ s + spare)) 7)) (lenZ s + spare) true with
      | Some (CARQUET_OK, Some (o, m)) => Some (take (Z.to_nat n) d, o)
      | _ => None
      end
  | _ => None
  end.

Example snappy_trip_periodic :
  let s := mjoin (replicate 12 [97; 98; 99]) in
  snappy_trip false s 4 = Some ([36; 8; 97; 98; 99; 130; 3; 0], s ++ replicate 4 7) /\
  snappy_trip true s 4 = Some ([36; 8; 97; 98; 99; 130; 3; 0], s ++ replicate 4 7).
Proof. split; vm_compute; reflexivity. Qed.
