(* ===== verification/SnappyDecode.v ===== *)
(** * Snappy: the decompressor

    The reference reading of a Snappy stream, and the proof that the decompressor
    computes it: the block copies, the pattern doubling and the vector shuffles all
    produce the byte-by-byte expansion, inside the destination. *)

From S2P Require Import Prelude Memory Status Dispatch Snappy.

(** ** The format *)

Inductive snappy_element := Literal (bs : list Z) | Copy (offset len : Z).

Definition take_literal (n : Z) (l : list Z) : option (snappy_element * list Z) :=
  if n <=? lenZ l then Some (Literal (take (Z.to_nat n) l), drop (Z.to_nat n) l) else None.

(** The first element of a stream and the rest.  A literal length is a 32-bit number. *)
Definition next_element (l : list Z) : option (snappy_element * list Z) :=
  match l with
  | [] => None
  | tag :: l =>
      let n := tag / 4 in
      if tag mod 4 =? 0 then
        if n <? 60 then take_literal (n + 1) l
        else if n - 59 <=? lenZ l
             then take_literal (u32 (le_val (take (Z.to_nat (n - 59)) l) + 1)) (drop (Z.to_nat (n - 59)) l)
             else None
      else if tag mod 4 =? 1 then
        match l with b :: l => Some (Copy (n / 8 * 256 + b) (n mod 8 + 4), l) | _ => None end
      else if tag mod 4 =? 2 then
        match l with b0 :: b1 :: l => Some (Copy (b0 + 256 * b1) (n + 1), l) | _ => None end
      else if 4 <=? lenZ l then Some (Copy (le_val (take 4 l)) (n + 1), drop 4 l) else None
  end.

(** Byte-by-byte expansion of a match. *)
Fixpoint lz_copy (n : nat) (offset : Z) (out : list Z) : list Z :=
  match n with
  | O => out
  | S n => match rd out (lenZ out - offset) with Some b => lz_copy n offset (out ++ [b]) | None => out end
  end.

Definition apply_element (ulen : Z) (e : snappy_element) (out : list Z) : option (list Z) :=
  match e with
  | Literal bs => if lenZ out + lenZ bs <=? ulen then Some (out ++ bs) else None
  | Copy offset len =>
      if (offset =? 0) || (lenZ out <? offset) || (ulen <? lenZ out + len) then None
      else Some (lz_copy (Z.to_nat len) offset out)
  end.

Fixpoint snappy_run (fuel : nat) (ulen : Z) (l out : list Z) : option (list Z) :=
  match l with
  | [] => if lenZ out =? ulen then Some out else None
  | _ =>
      if ulen <=? lenZ out then None else
      match fuel with
      | O => None
      | S fuel => '(e, l) ← next_element l; out ← apply_element ulen e out; snappy_run fuel ulen l out
      end
  end.

(** The length header: at most five bytes, the value below 2^32. *)
Fixpoint parse_varint32 (n : nat) (l : list Z) : option (Z * list Z) :=
  match n, l with
  | S n, b :: l =>
      if b <? (match n with O => 16 | _ => 128 end) then Some (b, l)
      else '(v, l) ← parse_varint32 n l; Some (b mod 128 + 128 * v, l)
  | _, _ => None
  end.

(** What a stream denotes; an empty stream is accepted as the empty string. *)
Definition snappy_denote (l : list Z) : option (list Z) :=
  match l with
  | [] => Some []
  | _ => '(ulen, l) ← parse_varint32 5 l; snappy_run (length l) ulen l []
  end.

(** ** Expansion of a match, in closed form *)

Lemma mod_pred j off : 0 < off -> (j - 1) mod off = if j mod off =? 0 then off - 1 else j mod off - 1.
Proof.
  intros H. pose proof (Z.mod_pos_bound j off H). pose proof (Z.div_mod j off ltac:(lia)) as E.
  destruct (Z.eqb_spec (j mod off) 0) as [E0|E0].
  - symmetry. apply (Z.mod_unique _ _ (j / off - 1)); lia.
  - symmetry. apply (Z.mod_unique _ _ (j / off)); lia.
Qed.

Lemma rd_lz_copy n : forall off out, 1 <= off <= lenZ out ->
  lenZ (lz_copy n off out) = lenZ out + Z.of_nat n /\
  forall j, 0 <= j < lenZ out + Z.of_nat n ->
    rd (lz_copy n off out) j = if j <? lenZ out then rd out j else rd out (lenZ out - off + (j - lenZ out) mod off).
Proof.
  induction n as [|n IH]; intros off out Ho; cbn [lz_copy].
  { split; [lia|]. intros j Hj. by decide_bool. }
  destruct (rd_Some out (lenZ out - off)) as [b Hb]; [lia|]. rewrite Hb.
  destruct (IH off (out ++ [b])) as [L R]; [rewrite length_app; lia|]. rewrite length_app in L, R. cbn [length] in L, R.
  split; [lia|]. intros j Hj. rewrite R by lia. replace (Z.of_nat (length out + 1)) with (lenZ out + 1) by lia.
  destruct (Z.ltb_spec j (lenZ out)); [decide_bool; rewrite rd_app_l by lia; done|].
  destruct (Z.ltb_spec j (lenZ out + 1)).
  - rewrite rd_middle by lia. replace (j - lenZ out) with 0 by lia. rewrite Z.mod_0_l, Z.add_0_r by lia. done.
  - replace (j - (lenZ out + 1)) with (j - lenZ out - 1) by lia. rewrite mod_pred by lia.
    pose proof (Z.mod_pos_bound (j - lenZ out) off ltac:(lia)).
    destruct (Z.eqb_spec ((j - lenZ out) mod off) 0) as [E|E].
    + rewrite rd_middle by lia. rewrite E, Z.add_0_r. done.
    + rewrite rd_app_l by lia. f_equal. lia.
Qed.

Lemma length_lz_copy n off out : 1 <= off <= lenZ out -> lenZ (lz_copy n off out) = lenZ out + Z.of_nat n.
Proof. intros H. apply (rd_lz_copy n off out H). Qed.

(** ** Partial copies

    [copied m0 m op ps p lim]: memory [m] has come from [m0] by writing the pattern of the
    [ps] bytes before [op] over [op .. p), and anything over [p .. lim). *)

Record copied (m0 m : list Z) (op ps p lim : Z) : Prop := {
  copied_length : length m = length m0;
  copied_before : forall i, i < op -> rd m i = rd m0 i;
  copied_pattern : forall i, op <= i < p -> rd m i = rd m0 (op - ps + (i - op) mod ps);
  copied_after : forall i, lim <= i -> rd m i = rd m0 i
}.

Lemma copied_refl m op ps lim : copied m m op ps op lim.
Proof. split; [done|done|lia|done]. Qed.

Lemma copied_shorter m0 m op ps p q lim : copied m0 m op ps p lim -> q <= p -> copied m0 m op ps q lim.
Proof. intros [H1 H2 H3 H4] Hq. split; [done|done| |done]. intros i Hi. apply H3. lia. Qed.

(** The pattern also describes the bytes just before [op]. *)
Lemma copied_source m0 m op ps p lim i : copied m0 m op ps p lim -> 1 <= ps -> op - ps <= i < p ->
  rd m i = rd m0 (op - ps + (i - op) mod ps).
Proof.
  intros C Hp Hi. destruct (Z.lt_ge_cases i op); [|by apply C; lia].
  rewrite (copied_before _ _ _ _ _ _ C) by lia. f_equal.
  rewrite <- (Z.mod_unique (i - op) ps (-1) (i - op + ps)); lia.
Qed.

(** Storing [bs] at [p], of which the first [w] bytes continue the pattern. *)
Lemma copied_store m0 m m' op ps p w lim bs : copied m0 m op ps p lim -> op <= p -> 0 <= w <= lenZ bs ->
  p + lenZ bs <= lim -> wr_n m p bs = Some m' ->
  (forall j, 0 <= j < w -> rd bs j = rd m0 (op - ps + (p + j - op) mod ps)) -> copied m0 m' op ps (p + w) lim.
Proof.
  intros C Hp Hw Hl Hm Hb. pose proof (fun j => rd_wr_n _ _ _ _ j Hm) as R.
  split.
  - rewrite (length_wr_n _ _ _ _ Hm). apply C.
  - intros i Hi. rewrite R. destruct (Z.leb_spec p i); [lia|]. cbn [andb]. by apply C.
  - intros i Hi. rewrite R. destruct (Z.leb_spec p i); cbn [andb].
    + decide_bool. rewrite Hb by lia. do 3 f_equal. lia.
    + apply C. lia.
  - intros i Hi. rewrite R. decide_bool. by apply (copied_after _ _ _ _ _ _ C).
Qed.

(** A block copy from distance [d], a multiple of the pattern size. *)
Definition copy_block (W : Z) (m : list Z) (s : Z) (m2 : list Z) (d : Z) : option (list Z) :=
  bs ← rd_n m s W; wr_n m2 d bs.

Lemma copied_block m0 m op ps p lim d k w W : copied m0 m op ps p lim -> 1 <= ps <= op -> op <= p ->
  d = k * ps -> 0 <= w <= W -> w <= d -> op - ps <= p - d -> p + W <= lim -> lim <= lenZ m0 ->
  exists m', copy_block W m (p - d) m p = Some m' /\ copied m0 m' op ps (p + w) lim.
Proof.
  intros C Hps Hp Hd Hw Hwd Hsrc Hl Hlim. pose proof (copied_length _ _ _ _ _ _ C) as HL. unfold copy_block.
  destruct (Z.eq_dec w 0) as [->|].
  { destruct (rd_n_total m (p - d) W) as (bs & E & L); [lia|lia|nia|]. rewrite E. cbn [mbind option_bind].
    destruct (wr_n_total m p bs) as [m' Hm]; [lia|lia|]. exists m'. split; [done|].
    apply (copied_store m0 m m' op ps p 0 lim bs); try done; lia. }
  destruct (rd_n_total m (p - d) W) as (bs & E & L); [lia|lia|nia|]. rewrite E. cbn [mbind option_bind].
  destruct (wr_n_total m p bs) as [m' Hm]; [lia|lia|]. exists m'. split; [done|].
  apply (copied_store m0 m m' op ps p w lim bs); try done; [lia|lia|].
  intros j Hj. rewrite (rd_rd_n _ _ _ _ j E) by lia. rewrite (copied_source _ _ _ _ _ _ _ C) by lia. f_equal. f_equal.
  replace (p - d + j - op) with (p + j - op + - k * ps) by lia. apply Z.mod_add. lia.
Qed.

Lemma copy128_block src s dst d : 0 <= s -> s + 16 <= lenZ src -> 0 <= d -> d + 16 <= lenZ dst ->
  copy128 src s dst d = copy_block 16 src s dst d.
Proof.
  intros Hs Hs' Hd Hd'. unfold copy128, copy_block. rewrite !rd_n_Some by lia. cbn [mbind option_bind].
  set (lo := take _ (drop (Z.to_nat s) src)). set (hi := take _ (drop (Z.to_nat (s + 8)) src)).
  assert (take (Z.to_nat 16) (drop (Z.to_nat s) src) = lo ++ hi) as ->.
  { unfold lo, hi. red_nat.
    replace (Z.to_nat (s + 8)) with (Z.to_nat s + 8)%nat by lia. rewrite <- drop_drop.
    by rewrite take_take_drop. }
  assert (lenZ lo = 8) as Ll by (unfold lo; rewrite length_take, length_drop; lia).
  assert (lenZ hi = 8) as Lh by (unfold hi; rewrite length_take, length_drop; lia).
  destruct (wr_n_total dst d lo) as [m1 H1]; [lia|lia|]. rewrite H1. cbn [mbind option_bind].
  pose proof (length_wr_n _ _ _ _ H1) as L1.
  destruct (wr_n_total m1 (d + 8) hi) as [m2 H2]; [lia|lia|]. rewrite H2.
  destruct (wr_n_total dst d (lo ++ hi)) as [m3 H3]; [lia|rewrite length_app; lia|]. rewrite H3. f_equal.
  apply list_eq. intros i. pose proof (rd_wr_n _ _ _ _ (Z.of_nat i) H2) as R2. pose proof (rd_wr_n _ _ _ _ (Z.of_nat i) H1) as R1.
  pose proof (rd_wr_n _ _ _ _ (Z.of_nat i) H3) as R3. rewrite R1 in R2. rewrite rd_lookup, Nat2Z.id in R2, R3 by lia. rewrite R2, R3.
  rewrite length_app. replace (Z.of_nat (length lo + length hi)) with 16 by lia. rewrite Ll, Lh.
  destruct (Z.leb_spec (d + 8) (Z.of_nat i)); cbn [andb].
  - destruct (Z.ltb_spec (Z.of_nat i) (d + 8 + 8)); decide_bool; [|done].
    rewrite rd_app_r by lia. f_equal. lia.
  - destruct (Z.leb_spec d (Z.of_nat i)); cbn [andb]; [|done]. decide_bool. rewrite rd_app_l by lia. done.
Qed.

Lemma match_copy_bytes_step n m op src : 0 <= src ->
  match_copy_bytes (S n) m op src = (m ← copy_block 1 m src m op; match_copy_bytes n m (op + 1) (src + 1)).
Proof.
  intros Hs. cbn [match_copy_bytes]. unfold copy_block, rd_n. destruct (rd m src) as [b|] eqn:E.
  - pose proof (rd_bound _ _ _ E). decide_bool. cbn [mbind option_bind]. rewrite rd_lookup in E by lia.
    rewrite (drop_S _ _ _ E). cbn. by rewrite wr_as_wr_n.
  - destruct (Z.leb_spec (src + 1) (lenZ m)) as [Hl|Hl].
    + destruct (rd_Some m src) as [? ?]; [lia|congruence].
    + decide_bool. done.
Qed.

Lemma copied_slow n : forall m0 m op ps p lim d k, copied m0 m op ps p lim -> 1 <= ps <= op -> op <= p ->
  d = k * ps -> 1 <= d -> op - ps <= p - d -> p + Z.of_nat n <= lim -> lim <= lenZ m0 ->
  exists m', match_copy_bytes n m p (p - d) = Some m' /\ copied m0 m' op ps (p + Z.of_nat n) lim.
Proof.
  induction n as [|n IH]; intros m0 m op ps p lim d k C Hps Hp Hd Hd1 Hsrc Hl Hlim.
  { exists m. split; [done|]. by rewrite Z.add_0_r. }
  rewrite match_copy_bytes_step by lia.
  destruct (copied_block m0 m op ps p lim d k 1 1) as (m1 & E & C1); try done; try lia. rewrite E. cbn [mbind option_bind].
  replace (p - d + 1) with (p + 1 - d) by lia.
  destruct (IH m0 m1 op ps (p + 1) lim d k) as (m' & E' & C'); try done; try lia. exists m'. split; [done|].
  by replace (p + Z.of_nat (S n)) with (p + 1 + Z.of_nat n) by lia.
Qed.

Lemma copied_slow_limit m0 m op ps p lim d k op_limit : copied m0 m op ps p lim -> 1 <= ps <= op -> op <= p ->
  d = k * ps -> 1 <= d -> op - ps <= p - d -> op_limit <= lim -> lim <= lenZ m0 ->
  exists m', incremental_copy_slow m (p - d) p op_limit = Some m' /\ copied m0 m' op ps op_limit lim.
Proof.
  intros. unfold incremental_copy_slow.
  destruct (Z.le_gt_cases op_limit p).
  { replace (Z.to_nat (op_limit - p)) with 0%nat by lia. exists m. split; [done|]. by apply copied_shorter with p. }
  destruct (copied_slow (Z.to_nat (op_limit - p)) m0 m op ps p lim d k) as (m' & E & C); try done; try lia.
  exists m'. split; [done|]. by replace op_limit with (p + Z.of_nat (Z.to_nat (op_limit - p))) by lia.
Qed.

(** ** The loops of [incremental_copy] *)

Lemma double_pattern_copied m0 op ps lim : 1 <= ps < 16 -> ps <= op -> op + 11 <= lim -> lim <= lenZ m0 ->
  exists m p d k, double_pattern 3 m0 (op - ps) op ps = Some (m, p, d) /\ copied m0 m op ps p lim /\
    p = op - ps + d /\ d = k * ps /\ 1 <= k /\ 8 <= d.
Proof.
  intros Hps Hop Hl Hlim. pose proof (copied_refl m0 op ps lim) as C0. cbn [double_pattern]. unfold copy64.
  change (v ← rd_n ?a ?b 8; wr_n ?c ?d v) with (copy_block 8 a b c d).
  destruct (Z.ltb_spec ps 8); [|exists m0, op, ps, 1; repeat split_and; try done; lia].
  destruct (copied_block m0 m0 op ps op lim ps 1 ps 8) as (m1 & -> & C1); try done; try lia. cbn [mbind option_bind].
  change (v ← rd_n ?a ?b 8; wr_n ?c ?d v) with (copy_block 8 a b c d).
  destruct (Z.ltb_spec (ps * 2) 8); [|exists m1, (op + ps), (ps * 2), 2; repeat split_and; try done; lia].
  destruct (copied_block m0 m1 op ps (op + ps) lim (ps * 2) 2 (ps * 2) 8) as (m2 & E2 & C2); try done; try lia.
  replace (op + ps - ps * 2) with (op - ps) in E2 by lia. rewrite E2. cbn [mbind option_bind].
  change (v ← rd_n ?a ?b 8; wr_n ?c ?d v) with (copy_block 8 a b c d).
  destruct (Z.ltb_spec (ps * 2 * 2) 8); [|exists m2, (op + ps + ps * 2), (ps * 2 * 2), 4; repeat split_and; try done; lia].
  destruct (copied_block m0 m2 op ps (op + ps + ps * 2) lim (ps * 2 * 2) 4 (ps * 2 * 2) 8) as (m3 & E3 & C3); try done; try lia.
  replace (op + ps + ps * 2 - ps * 2 * 2) with (op - ps) in E3 by lia. rewrite E3. cbn [mbind option_bind]. decide_bool.
  exists m3, (op + ps + ps * 2 + ps * 2 * 2), (ps * 2 * 2 * 2), 8. repeat split_and; try done; lia.
Qed.

Lemma copy64_loop_copied fuel : forall m0 m op ps p lim d k op_limit, copied m0 m op ps p lim -> 1 <= ps <= op -> op <= p ->
  d = k * ps -> 8 <= d -> op - ps <= p - d -> lim <= lenZ m0 -> op_limit - p < 8 * Z.of_nat fuel + 8 ->
  exists m' p', copy64_loop fuel m (p - d) p op_limit lim = Some (m', p' - d, p') /\ copied m0 m' op ps p' lim /\ p <= p'.
Proof.
  induction fuel as [|fuel IH]; intros m0 m op ps p lim d k op_limit C Hps Hp Hd H8 Hsrc Hlim Hf; cbn [copy64_loop];
    destruct (Z.leb_spec (p + 8) op_limit); cbn [andb]; try (exists m, p; repeat split_and; (done || lia)).
  destruct (Z.leb_spec (p + 8) lim); [|exists m, p; repeat split_and; (done || lia)]. unfold copy64.
  change (v ← rd_n ?a ?b 8; wr_n ?c ?d v) with (copy_block 8 a b c d).
  destruct (copied_block m0 m op ps p lim d k 8 8) as (m1 & -> & C1); try done; try lia. cbn [mbind option_bind].
  replace (p - d + 8) with (p + 8 - d) by lia.
  destruct (IH m0 m1 op ps (p + 8) lim d k op_limit) as (m' & p' & E & C' & Hp'); try done; try lia.
  exists m', p'. repeat split_and; (done || lia).
Qed.

Lemma copy128_loop_copied fuel : forall m0 m op ps p lim op_end, copied m0 m op ps p lim -> 16 <= ps <= op -> op <= p ->
  lim <= lenZ m0 -> op_end + 16 <= lim -> op_end - p <= Z.of_nat fuel ->
  exists m' p', copy128_loop fuel m (p - ps) p op_end = Some (m', p' - ps, p') /\ copied m0 m' op ps p' lim /\ p <= p' /\ op_end <= p'.
Proof.
  induction fuel as [|fuel IH]; intros m0 m op ps p lim op_end C Hps Hp Hlim He Hf; cbn [copy128_loop];
    destruct (Z.ltb_spec p op_end); try (exists m, p; repeat split_and; (done || lia)).
  pose proof (copied_length _ _ _ _ _ _ C) as HL. rewrite copy128_block by lia.
  destruct (copied_block m0 m op ps p lim ps 1 16 16) as (m1 & -> & C1); try done; try lia. cbn [mbind option_bind].
  replace (p - ps + 16) with (p + 16 - ps) by lia.
  destruct (IH m0 m1 op ps (p + 16) lim op_end) as (m' & p' & E & C' & Hp' & He'); try done; try lia.
  exists m', p'. repeat split_and; (done || lia).
Qed.

Fixpoint steps16 (n : nat) (k : Z) : list Z := match n with O => [] | S n => k :: steps16 n (k + 16) end.

Lemma copy128_blocks_copied n : forall k m0 m op ps lim op_limit, copied m0 m op ps (Z.min op_limit (op + k)) lim ->
  16 <= ps <= op -> 0 <= k -> op_limit + 15 <= lim -> lim <= lenZ m0 ->
  exists m', copy128_blocks (steps16 n k) m (op - ps) op op_limit = Some m' /\
    copied m0 m' op ps (Z.min op_limit (op + k + 16 * Z.of_nat n)) lim.
Proof.
  induction n as [|n IH]; intros k m0 m op ps lim op_limit C Hps Hk Hl Hlim; cbn [steps16 copy128_blocks].
  { exists m. split; [done|]. by rewrite Z.add_0_r. }
  replace (op + k + 16 * Z.of_nat (S n)) with (op + (k + 16) + 16 * Z.of_nat n) by lia.
  destruct (Z.ltb_spec (op + k) op_limit).
  - rewrite Z.min_r in C by lia. pose proof (copied_length _ _ _ _ _ _ C) as HL. rewrite copy128_block by lia.
    destruct (copied_block m0 m op ps (op + k) lim ps 1 16 16) as (m1 & E & C1); try done; try lia.
    replace (op + k - ps) with (op - ps + k) in E by lia. rewrite E. cbn [mbind option_bind].
    apply IH; try done; try lia. apply copied_shorter with (op + k + 16); [done|lia].
  - rewrite Z.min_l in C by lia. apply IH; try done; try lia. by rewrite Z.min_l by lia.
Qed.

(** ** The vector shuffles *)

Lemma shuffle_spec v mask : Forall (λ x, 0 <= x < lenZ v) mask ->
  exists l, shuffle v mask = Some l /\ length l = length mask /\ forall j x, rd mask j = Some x -> rd l j = rd v x.
Proof.
  unfold shuffle. induction 1 as [|x mask Hx _ (l & E & L & H)].
  { exists []. repeat split. intros j x Hj. apply rd_bound in Hj. cbn in Hj. lia. }
  destruct (rd_Some v x Hx) as [b Hb]. exists (b :: l). cbn. rewrite Hb. cbn. rewrite E. cbn. repeat split; [by rewrite L|].
  intros j y Hj. pose proof (rd_bound _ _ _ Hj). rewrite rd_lookup in Hj by lia. rewrite (rd_lookup (b :: l)) by lia.
  destruct (Z.to_nat j) as [|i] eqn:Ei; cbn in Hj |- *; [congruence|].
  rewrite <- (H (Z.of_nat i)); rewrite !rd_lookup, Nat2Z.id by lia; done.
Qed.

Definition mask_is (table : list (list Z)) (base ps : Z) : bool :=
  bool_decide (rd table ps = Some ((λ j, (base + j) mod ps) <$> seqZ 0 16)).

Lemma masks_ok ps : 1 <= ps < 16 ->
  rd snappy_masks_offset0 ps = Some ((λ j, (0 + j) mod ps) <$> seqZ 0 16) /\
  rd snappy_masks_offset16 ps = Some ((λ j, (16 + j) mod ps) <$> seqZ 0 16).
Proof.
  intros H. assert (((ps =? 0) || mask_is snappy_masks_offset0 0 ps && mask_is snappy_masks_offset16 16 ps) = true) as E.
  { apply (forall_range 16 (λ ps, (ps =? 0) || mask_is snappy_masks_offset0 0 ps && mask_is snappy_masks_offset16 16 ps));
      [vm_compute; reflexivity|lia]. }
  destruct (Z.eqb_spec ps 0); [lia|]. cbn [orb] in E. apply andb_prop in E as [E1 E2].
  unfold mask_is in *. by apply bool_decide_eq_true in E1, E2.
Qed.

Lemma rd_seqZ_fmap (f : Z -> Z) n j : 0 <= j < n -> rd (f <$> seqZ 0 n) j = Some (f j).
Proof.
  intros H. rewrite rd_lookup, list_lookup_fmap by lia. rewrite lookup_seqZ_lt by lia. cbn. do 2 f_equal. lia.
Qed.

(** Shuffling a vector of sixteen bytes with a mask [(base + j) mod ps]. *)
Lemma shuffle_mod v base ps : lenZ v = 16 -> 1 <= ps < 16 ->
  exists l, shuffle v ((λ j, (base + j) mod ps) <$> seqZ 0 16) = Some l /\ lenZ l = 16 /\
    forall j, 0 <= j < 16 -> rd l j = rd v ((base + j) mod ps).
Proof.
  intros L Hp. destruct (shuffle_spec v ((λ j, (base + j) mod ps) <$> seqZ 0 16)) as (l & E & L' & H).
  { apply Forall_fmap, Forall_true. intros j. cbn. pose proof (Z.mod_pos_bound (base + j) ps ltac:(lia)). lia. }
  exists l. split; [done|]. split; [rewrite L'; done|]. intros j Hj. apply H. by apply (rd_seqZ_fmap (λ j, (base + j) mod ps)).
Qed.

Lemma store_patterns_done n : forall k m pattern reshuffle op op_limit, op_limit <= op + k ->
  store_patterns (steps16 n k) m pattern reshuffle op op_limit = Some m.
Proof.
  induction n as [|n IH]; intros k m pattern reshuffle op op_limit H; cbn [steps16 store_patterns]; [done|]. decide_bool. apply IH. lia.
Qed.

(** [pattern] holds the sixteen bytes of the pattern before [op + k]. *)
Lemma store_patterns_copied n : forall k m0 m pattern op ps lim op_limit,
  copied m0 m op ps (Z.min op_limit (op + k)) lim -> 1 <= ps < 16 -> 16 <= k -> lenZ pattern = 16 ->
  (forall j, 0 <= j < 16 -> rd pattern j = rd m0 (op - ps + (k - 16 + j) mod ps)) ->
  op_limit + 15 <= lim -> lim <= lenZ m0 -> 0 <= op ->
  exists m', store_patterns (steps16 n k) m pattern ((λ j, (16 + j) mod ps) <$> seqZ 0 16) op op_limit = Some m' /\
    copied m0 m' op ps (Z.min op_limit (op + k + 16 * Z.of_nat n)) lim.
Proof.
  induction n as [|n IH]; intros k m0 m pattern op ps lim op_limit C Hps Hk L HP Hl Hlim Hop; cbn [steps16 store_patterns].
  { exists m. split; [done|]. by rewrite Z.add_0_r. }
  replace (op + k + 16 * Z.of_nat (S n)) with (op + (k + 16) + 16 * Z.of_nat n) by lia.
  destruct (Z.ltb_spec (op + k) op_limit).
  2:{ rewrite store_patterns_done by lia. exists m. split; [done|]. rewrite Z.min_l in C by lia. by rewrite Z.min_l by lia. }
  rewrite Z.min_r in C by lia. destruct (shuffle_mod pattern 16 ps L Hps) as (v & -> & Lv & Hv). cbn [mbind option_bind].
  pose proof (copied_length _ _ _ _ _ _ C) as HL. destruct (wr_n_total m (op + k) v) as [m1 E1]; [lia|lia|].
  rewrite E1. cbn [mbind option_bind].
  assert (forall j, 0 <= j < 16 -> rd v j = rd m0 (op - ps + (k + j) mod ps)) as HV.
  { intros j Hj. rewrite Hv by lia. pose proof (Z.mod_pos_bound (16 + j) ps ltac:(lia)). rewrite HP by lia. do 2 f_equal.
    rewrite Z.add_mod_idemp_r by lia. f_equal. lia. }
  apply IH; try done; try lia.
  - apply copied_shorter with (op + k + 16); [|lia]. apply (copied_store m0 m m1 op ps (op + k) 16 lim v); try done; try lia.
    intros j Hj. rewrite HV by lia. do 3 f_equal. lia.
  - intros j Hj. rewrite HV by lia. do 3 f_equal. lia.
Qed.

(** ** [incremental_copy]: every path writes the repeated pattern, inside the buffer *)
Lemma incremental_copy_copied vec m op ps len lim : 1 <= ps <= op -> 1 <= len <= 64 -> op + len <= lim -> lim <= lenZ m ->
  exists m', incremental_copy vec m (op - ps) op (op + len) lim = Some m' /\ copied m m' op ps (op + len) lim.
Proof.
  intros Hps Hlen Hl Hlim. unfold incremental_copy. replace (op - (op - ps)) with ps by lia. pose proof (copied_refl m op ps lim) as C0.
  destruct (Z.ltb_spec ps 16).
  - destruct vec.
    + destruct (Z.leb_spec (op + len) (lim - 15)); [|by apply copied_slow_limit with (k := 1); lia || done].
      unfold load_pattern, reshuffle_mask. destruct (masks_ok ps ltac:(lia)) as [-> ->]. cbn [mbind option_bind].
      destruct (rd_n_total m (op - ps) 16) as (raw & E & L); [lia|lia|lia|]. rewrite E. cbn [mbind option_bind].
      destruct (shuffle_mod raw 0 ps L ltac:(lia)) as (v & -> & Lv & Hv). cbn [mbind option_bind].
      assert (forall j, 0 <= j < 16 -> rd v j = rd m (op - ps + j mod ps)) as HV.
      { intros j Hj. rewrite Hv by lia. pose proof (Z.mod_pos_bound j ps ltac:(lia)). rewrite Z.add_0_l. apply (rd_rd_n _ _ _ _ _ E). lia. }
      destruct (wr_n_total m op v) as [m1 E1]; [lia|lia|]. rewrite E1. cbn [mbind option_bind]. change [16; 32; 48] with (steps16 3 16).
      destruct (store_patterns_copied 3 16 m m1 v op ps lim (op + len)) as (m' & E' & C'); try done; try lia.
      * apply copied_shorter with (op + 16); [|lia]. apply (copied_store m m m1 op ps op 16 lim v); try done; try lia.
        intros j Hj. rewrite HV by lia. do 3 f_equal. lia.
      * exists m'. split; [done|]. by rewrite Z.min_l in C' by lia.
    + destruct (Z.leb_spec op (lim - 11)); [|by apply copied_slow_limit with (k := 1); lia || done].
      destruct (double_pattern_copied m op ps lim) as (m1 & p & d & k & -> & C1 & Hp & Hd & Hk & H8); try lia. cbn [mbind option_bind].
      rewrite Z.geb_leb. destruct (Z.leb_spec (op + len) p); [exists m1; split; [done|by apply copied_shorter with p]|].
      destruct (copy64_loop_copied 8 m m1 op ps p lim d k (op + len)) as (m2 & p2 & -> & C2 & Hp2); try done; try nia. cbn [mbind option_bind].
      rewrite Z.geb_leb. destruct (Z.leb_spec (op + len) p2); [exists m2; split; [done|by apply copied_shorter with p2]|].
      apply copied_slow_limit with (k := k); (done || nia).
  - destruct (Z.leb_spec (op + len) (lim - 15)).
    + rewrite copy128_block by lia. destruct (copied_block m m op ps op lim ps 1 16 16) as (m1 & -> & C1); try done; try lia.
      cbn [mbind option_bind]. change [16; 32; 48] with (steps16 3 16).
      destruct (copy128_blocks_copied 3 16 m m1 op ps lim (op + len)) as (m' & E' & C'); try done; try lia.
      * apply copied_shorter with (op + 16); [done|lia].
      * exists m'. split; [done|]. by rewrite Z.min_l in C' by lia.
    + destruct (copy128_loop_copied (Z.to_nat (lim - 16 - op)) m m op ps op lim (lim - 16)) as (m1 & p & -> & C1 & Hp & He); try done; try lia.
      cbn [mbind option_bind]. rewrite Z.geb_leb. destruct (Z.leb_spec (op + len) p); [exists m1; split; [done|by apply copied_shorter with p]|].
      destruct (Z.leb_spec p (lim - 8)); [|apply copied_slow_limit with (k := 1); (done || lia)].
      unfold copy64. change (v ← rd_n ?a ?b 8; wr_n ?c ?d v) with (copy_block 8 a b c d).
      destruct (copied_block m m1 op ps p lim ps 1 8 8) as (m2 & -> & C2); try done; try lia. cbn [mbind option_bind].
      replace (p - ps + 8) with (p + 8 - ps) by lia. apply copied_slow_limit with (k := 1); (done || lia).
Qed.

(** ** One element *)

(** The destination holds the output so far and is unchanged past [lim]. *)
Record holds (dst0 dst : list Z) (lim : Z) (out : list Z) : Prop := {
  holds_length : length dst = length dst0;
  holds_fits : lenZ out <= lim;
  holds_out : forall i, i < lenZ out -> rd dst i = rd out i;
  holds_after : forall i, lim <= i -> rd dst i = rd dst0 i
}.

Lemma holds_copied dst0 dst m lim out off len : holds dst0 dst lim out -> 1 <= off <= lenZ out -> 0 <= len ->
  lenZ out + len <= lim -> copied dst m (lenZ out) off (lenZ out + len) lim ->
  holds dst0 m lim (lz_copy (Z.to_nat len) off out).
Proof.
  intros H Ho Hl Hlim C. destruct (rd_lz_copy (Z.to_nat len) off out Ho) as [L R]. split.
  - rewrite (copied_length _ _ _ _ _ _ C). apply H.
  - lia.
  - intros i Hi. destruct (Z.lt_ge_cases i 0); [unfold rd; by decide_bool|]. rewrite R by lia. destruct (Z.ltb_spec i (lenZ out)).
    + rewrite (copied_before _ _ _ _ _ _ C) by lia. by apply (holds_out _ _ _ _ H).
    + rewrite (copied_pattern _ _ _ _ _ _ C) by lia. pose proof (Z.mod_pos_bound (i - lenZ out) off ltac:(lia)).
      apply (holds_out _ _ _ _ H). lia.
  - intros i Hi. rewrite (copied_after _ _ _ _ _ _ C) by lia. by apply (holds_after _ _ _ _ H).
Qed.

Lemma holds_literal dst0 dst m lim out bs k : holds dst0 dst lim out -> wr_n dst (lenZ out) bs = Some m ->
  0 <= k <= lenZ bs -> lenZ out + lenZ bs <= lim -> holds dst0 m lim (out ++ take (Z.to_nat k) bs).
Proof.
  intros H E Hk Hl. pose proof (fun j => rd_wr_n _ _ _ _ j E) as R. split.
  - rewrite (length_wr_n _ _ _ _ E). apply H.
  - rewrite length_app, length_take. lia.
  - rewrite length_app, length_take. intros i Hi. rewrite R. destruct (Z.leb_spec (lenZ out) i); cbn [andb].
    + decide_bool. rewrite rd_app_r by lia. rewrite rd_take by lia. done.
    + rewrite rd_app_l by lia. apply (holds_out _ _ _ _ H). lia.
  - intros i Hi. rewrite R. decide_bool. by apply (holds_after _ _ _ _ H).
Qed.

Section Step.
Context (vec : bool) (src : list Z) (n : Z).
Context (Hsrc : bytes_ok src) (Hn : 0 <= n <= lenZ src).

(** The part of the stream from [ip] on. *)
Definition rest (ip : Z) : list Z := drop (Z.to_nat ip) (take (Z.to_nat n) src).

Lemma length_rest ip : 0 <= ip <= n -> lenZ (rest ip) = n - ip.
Proof. intros. unfold rest. rewrite length_drop, length_take. lia. Qed.

Lemma rest_cons ip : 0 <= ip < n -> exists b, rd src ip = Some b /\ rest ip = b :: rest (ip + 1) /\ 0 <= b < 2 ^ 8.
Proof.
  intros H. destruct (rd_Some src ip) as [b Hb]; [lia|]. exists b. split; [done|]. split; [|by apply (rd_byte src ip)].
  unfold rest. rewrite rd_lookup in Hb by lia. rewrite (drop_S _ b) by (by rewrite lookup_take_lt by lia).
  f_equal. f_equal. lia.
Qed.

Lemma drop_rest ip k : 0 <= ip -> 0 <= k -> drop (Z.to_nat k) (rest ip) = rest (ip + k).
Proof. intros. unfold rest. rewrite drop_drop. f_equal. lia. Qed.

Lemma rd_n_rest ip k : 0 <= ip -> 0 <= k -> ip + k <= n -> rd_n src ip k = Some (take (Z.to_nat k) (rest ip)).
Proof.
  intros. rewrite rd_n_Some by lia. f_equal. unfold rest. rewrite skipn_firstn_comm, take_take. f_equal. lia.
Qed.

Lemma literal_length_spec tag ip : 0 <= tag < 2 ^ 8 -> 0 <= ip <= n ->
  literal_length src tag ip n =
    (if tag / 4 <? 60 then Some (Some (tag / 4 + 1, ip))
     else if tag / 4 - 59 <=? n - ip
          then Some (Some (u32 (le_val (take (Z.to_nat (tag / 4 - 59)) (rest ip)) + 1), ip + (tag / 4 - 59)))
          else Some None).
Proof.
  intros Ht Hi. unfold literal_length. rewrite shiftr_div by lia. change (2 ^ 2) with 4. rewrite Z.geb_leb, Z.gtb_ltb.
  destruct (Z.ltb_spec (tag / 4) 60); decide_bool; [done|]. replace (tag / 4 + 1 - 60) with (tag / 4 - 59) by lia.
  destruct (Z.leb_spec (tag / 4 - 59) (n - ip)); decide_bool; [|done].
  assert (tag / 4 - 59 <= 4) by dlia. decide_bool. rewrite rd_n_rest by lia. cbn [fmap option_fmap option_map mbind option_bind].
  set (k := tag / 4 - 59) in *. do 5 f_equal.
  assert (u32 (Z.lnot (u64 (0xFFFFFFFF ≪ (8 * k)))) = 2 ^ (8 * k) - 1) as ->.
  { assert (k = 1 \/ k = 2 \/ k = 3 \/ k = 4) as [-> | [-> | [-> | ->]]] by lia; reflexivity. }
  rewrite land_ones_mod by lia. apply Z.mod_small.
  pose proof (le_val_bound (take (Z.to_nat k) (rest ip))) as B. rewrite length_take in B.
  replace (Z.of_nat (Z.to_nat k `min` length (rest ip))) with k in B by (pose proof (length_rest ip); lia).
  apply B. unfold rest. auto with bytes.
Qed.

(** The outcome of one step against the output and the rest of the stream the format
    gives, [None] where it gives none. *)
Definition step_agrees (dst0 : list Z) (ulen ip : Z) (ref : option (list Z * list Z)) (r : option step_result) : Prop :=
  match ref with
  | None => r = Some StepInvalid
  | Some (out', l) =>
      exists dst' ip', r = Some (StepNext dst' ip' (lenZ out')) /\ ip < ip' <= n /\ l = rest ip' /\ holds dst0 dst' ulen out'
  end.

Definition ref_element (ulen : Z) (out : list Z) (el : option (snappy_element * list Z)) : option (list Z * list Z) :=
  '(e, l) ← el; out' ← apply_element ulen e out; Some (out', l).

Lemma literal_store_agrees dst0 dst ulen out ip ip' len w : 0 <= ip < ip' -> 0 <= len <= w -> ip' + w <= n ->
  holds dst0 dst ulen out -> lenZ out + w <= ulen -> ulen <= lenZ dst0 ->
  step_agrees dst0 ulen ip (Some (out ++ take (Z.to_nat len) (rest ip'), rest (ip' + len)))
    (dst ← copy_block w src ip' dst (lenZ out); Some (StepNext dst (ip' + len) (lenZ out + len))).
Proof.
  intros Hip Hl Hw H Ho Hu. pose proof (holds_length _ _ _ _ H) as HL. pose proof (length_rest ip' ltac:(lia)) as LR.
  unfold copy_block. rewrite rd_n_rest by lia. cbn [mbind option_bind].
  assert (lenZ (take (Z.to_nat w) (rest ip')) = w) as Lw by (rewrite length_take; lia).
  destruct (wr_n_total dst (lenZ out) (take (Z.to_nat w) (rest ip'))) as [m Em]; [lia|lia|]. rewrite Em. cbn [mbind option_bind].
  exists m, (ip' + len). split; [do 2 f_equal; rewrite length_app, length_take; lia|]. split; [lia|]. split; [done|].
  replace (take (Z.to_nat len) (rest ip')) with (take (Z.to_nat len) (take (Z.to_nat w) (rest ip')))
    by (rewrite take_take; f_equal; lia).
  apply (holds_literal dst0 dst m ulen out _ len H Em); lia.
Qed.

Lemma literal_copy_agrees dst0 dst ulen out ip ip' len : 0 <= ip < ip' -> ip' <= n -> 0 <= len ->
  holds dst0 dst ulen out -> ulen <= lenZ dst0 ->
  step_agrees dst0 ulen ip (ref_element ulen out (take_literal len (rest ip'))) (literal_copy src len ip' n dst (lenZ out) ulen).
Proof.
  intros Hip Hip' Hl H Hu. pose proof (holds_length _ _ _ _ H) as HL. pose proof (length_rest ip' ltac:(lia)) as LR.
  unfold literal_copy, ref_element, take_literal. rewrite LR, !Z.gtb_ltb.
  destruct (Z.leb_spec len (n - ip')) as [L1|L1]; cbn [mbind option_bind apply_element].
  2:{ destruct (Z.leb_spec len 16); destruct (Z.leb_spec (ip' + 16) n); try lia; cbn [andb]; decide_bool; done. }
  rewrite length_take. replace (Z.of_nat (Z.to_nat len `min` length (rest ip'))) with len by lia.
  destruct (Z.leb_spec (lenZ out + len) ulen) as [L2|L2]; cbn [mbind option_bind].
  2:{ destruct (Z.leb_spec (lenZ out + 16) ulen).
      - destruct (Z.leb_spec len 16); [lia|]. cbn [andb]. by decide_bool.
      - rewrite andb_false_r. by decide_bool. }
  rewrite drop_rest by lia. destruct ((len <=? 16) && (ip' + 16 <=? n) && (lenZ out + 16 <=? ulen)) eqn:E.
  - apply andb_prop in E as [E E3]. apply andb_prop in E as [E1 E2]. apply Z.leb_le in E1, E2, E3.
    rewrite copy128_block by lia. apply literal_store_agrees; (done || lia).
  - decide_bool. pose proof (literal_store_agrees dst0 dst ulen out ip ip' len len) as K. unfold copy_block in K.
    rewrite rd_n_rest in K |- * by lia. apply K; (done || lia).
Qed.

Lemma literal_step_agrees dst0 dst ulen out ip tag : 0 <= ip < n -> holds dst0 dst ulen out -> ulen <= lenZ dst0 ->
  0 <= tag < 2 ^ 8 -> tag mod 4 = 0 ->
  step_agrees dst0 ulen ip (ref_element ulen out (next_element (tag :: rest (ip + 1))))
    (literal_step src tag (ip + 1) n dst (lenZ out) ulen).
Proof.
  intros Hip H Hu Ht H0. unfold literal_step. cbn [next_element]. rewrite H0. cbn [Z.eqb].
  rewrite literal_length_spec, length_rest by lia. destruct (Z.ltb_spec (tag / 4) 60); cbn [mbind option_bind].
  - apply literal_copy_agrees; (done || dlia).
  - destruct (Z.leb_spec (tag / 4 - 59) (n - (ip + 1))); cbn [mbind option_bind]; [|done].
    rewrite drop_rest by dlia. apply literal_copy_agrees; (done || lia || apply u32_range).
Qed.

(** *** Copies *)

Definition tag_facts (tag : Z) : bool :=
  match rd kLengthMinusOffset tag with
  | Some entry =>
      (if tag mod 4 =? 1 then (entry .& 0xFF) =? (tag / 4) mod 8 + 4 else true) &&
      (if tag mod 4 =? 2 then (entry .& 0xFF) =? tag / 4 + 1 else true) &&
      (((tag .& 0xE0) ≪ 3) =? ((tag / 4 / 8) ≪ 8)) && ((tag .& 3) =? tag mod 4) && (((tag ≫ 2) .& 0x3F) =? tag / 4)
  | None => false
  end.

Lemma tag_facts_ok tag : 0 <= tag < 2 ^ 8 -> tag_facts tag = true.
Proof. intros H. apply (forall_range 256 tag_facts); [vm_compute; reflexivity|lia]. Qed.

(** The guards shared by the copies; [body] expands the match. *)
Lemma copy_agrees dst0 dst ulen out ip ip' off len (body : option (list Z)) : 0 <= ip < ip' -> ip' <= n ->
  holds dst0 dst ulen out -> 1 <= len -> 0 <= off ->
  (1 <= off <= lenZ out -> lenZ out + len <= ulen ->
     exists m, body = Some m /\ copied dst m (lenZ out) off (lenZ out + len) ulen) ->
  step_agrees dst0 ulen ip (ref_element ulen out (Some (Copy off len, rest ip')))
    (if (off =? 0) || (off >? lenZ out) then Some StepInvalid else
     if lenZ out + len >? ulen then Some StepInvalid else
     dst ← body; Some (StepNext dst ip' (lenZ out + len))).
Proof.
  intros Hip Hip' H Hl Ho Hb. unfold ref_element. cbn [mbind option_bind apply_element].
  rewrite !Z.gtb_ltb. destruct (Z.eqb_spec off 0); cbn [orb]; [done|]. destruct (Z.ltb_spec (lenZ out) off); cbn [orb]; [done|].
  destruct (Z.ltb_spec ulen (lenZ out + len)); [done|]. destruct Hb as (m & -> & C); [lia|lia|]. cbn [mbind option_bind].
  exists m, ip'. rewrite length_lz_copy by lia. split; [do 2 f_equal; lia|]. split; [lia|]. split; [done|].
  apply holds_copied with dst; (done || lia).
Qed.

Definition slop_limit (ulen : Z) : Z := if ulen >=? SNAPPY_SLOP_BYTES then ulen - SNAPPY_SLOP_BYTES + 1 else 0.

Lemma expand_match_copied dst ulen op off len : 1 <= len <= 64 -> ulen <= lenZ dst -> 1 <= off <= op -> op + len <= ulen ->
  exists m, expand_match vec dst op off len ulen (slop_limit ulen) = Some m /\ copied dst m op off (op + len) ulen.
Proof.
  intros Hl Hu Ho Hf. pose proof (copied_refl dst op off ulen) as C0. unfold expand_match, slop_limit, SNAPPY_SLOP_BYTES. rewrite !Z.geb_leb.
  set (slop := if 64 <=? ulen then _ else _).
  assert (op + len <= slop -> op + len + 63 <= ulen) as HS by (unfold slop; destruct (Z.leb_spec 64 ulen); lia).
  destruct (Z.leb_spec (op + len) slop) as [L|L]; rewrite ?andb_false_r; [specialize (HS L)|].
  2:{ cbn [andb]. apply incremental_copy_copied; lia. }
  rewrite andb_true_r. destruct (Z.leb_spec 16 off).
  - rewrite copy128_block by lia. destruct (copied_block dst dst op off op ulen off 1 16 16) as (m1 & -> & C1); try done; try lia.
    cbn [mbind option_bind]. change [16; 32; 48] with (steps16 3 16).
    destruct (copy128_blocks_copied 3 16 dst m1 op off ulen (op + len)) as (m' & E' & C'); try done; try lia.
    + apply copied_shorter with (op + 16); [done|lia].
    + exists m'. split; [done|]. by rewrite Z.min_l in C' by lia.
  - decide_bool. destruct (Z.leb_spec len off); [|apply incremental_copy_copied; lia].
    destruct (copied_block dst dst op off op ulen off 1 len 64) as (m1 & E1 & C1); try done; try lia. by exists m1.
Qed.

Lemma copy_step_agrees dst0 dst ulen out ip tag : 0 <= ip < n -> holds dst0 dst ulen out -> ulen <= lenZ dst0 ->
  0 <= tag < 2 ^ 8 -> tag mod 4 = 1 \/ tag mod 4 = 2 ->
  step_agrees dst0 ulen ip (ref_element ulen out (next_element (tag :: rest (ip + 1))))
    (copy_step vec src (tag mod 4) tag (ip + 1) n dst (lenZ out) ulen (slop_limit ulen)).
Proof.
  intros Hip H Hu Ht Hm. pose proof (holds_length _ _ _ _ H) as HL. pose proof (tag_facts_ok tag Ht) as F. unfold tag_facts in F.
  unfold copy_step, copy_trailer, SNAPPY_COPY_1. destruct (rd kLengthMinusOffset tag) as [entry|]; [|done]. cbn [mbind option_bind].
  apply andb_prop in F as [F _]. apply andb_prop in F as [F _]. apply andb_prop in F as [F F3]. apply andb_prop in F as [F1 F2].
  rewrite Z.geb_leb, (Z.gtb_ltb (ip + 1 + 2)). cbn [next_element]. destruct Hm as [Hm|Hm]; rewrite Hm in *; cbn [Z.eqb Pos.eqb] in *.
  - destruct (Z.leb_spec n (ip + 1)) as [L|L].
    { assert (rest (ip + 1) = []) as -> by (apply nil_length_inv; pose proof (length_rest (ip + 1)); lia). done. }
    destruct (rest_cons (ip + 1)) as (b & -> & -> & Hb); [lia|]. cbn [mbind option_bind].
    apply Z.eqb_eq in F1, F3. rewrite F1, F3, Z.lor_comm, lor_add by lia. change (2 ^ 8) with 256 in *.
    replace (tag / 4 / 8 * 256 + b) with (b + tag / 4 / 8 * 256) by lia.
    apply copy_agrees with dst; try done; try dlia. intros. apply expand_match_copied; dlia.
  - destruct (Z.ltb_spec n (ip + 1 + 2)) as [L|L].
    { pose proof (length_rest (ip + 1) ltac:(lia)) as LR. destruct (rest (ip + 1)) as [|? [|? ?]]; cbn in LR; try done. lia. }
    destruct (rest_cons (ip + 1)) as (b0 & -> & -> & Hb0); [lia|]. cbn [mbind option_bind].
    destruct (rest_cons (ip + 1 + 1)) as (b1 & -> & -> & Hb1); [lia|]. cbn [mbind option_bind].
    apply Z.eqb_eq in F2. rewrite F2, lor_add by lia. change (2 ^ 8) with 256 in *.
    replace (b0 + 256 * b1) with (b0 + b1 * 256) by lia. replace (ip + 1 + 1 + 1) with (ip + 1 + 2) by lia.
    apply copy_agrees with dst; try done; try dlia. intros. apply expand_match_copied; dlia.
Qed.

Lemma copy4_step_agrees dst0 dst ulen out ip tag : 0 <= ip < n -> holds dst0 dst ulen out -> ulen <= lenZ dst0 ->
  0 <= tag < 2 ^ 8 -> tag mod 4 = 3 ->
  step_agrees dst0 ulen ip (ref_element ulen out (next_element (tag :: rest (ip + 1))))
    (copy4_step vec src tag (ip + 1) n dst (lenZ out) ulen).
Proof.
  intros Hip H Hu Ht Hm. pose proof (holds_length _ _ _ _ H) as HL. pose proof (tag_facts_ok tag Ht) as F. unfold tag_facts in F.
  destruct (rd kLengthMinusOffset tag) as [entry|]; [|done]. apply andb_prop in F as [F F5]. apply Z.eqb_eq in F5.
  unfold copy4_step, load32. cbn [next_element]. rewrite Hm, F5. cbn [Z.eqb Pos.eqb]. rewrite length_rest by lia. rewrite (Z.gtb_ltb (ip + 1 + 4)).
  destruct (Z.ltb_spec n (ip + 1 + 4)) as [L|L]; [by decide_bool|]. rewrite (proj2 (Z.leb_le 4 (n - (ip + 1)))), rd_n_rest by lia.
  cbn [mbind option_bind fmap option_fmap option_map]. change (Z.to_nat 4) with 4%nat. change (drop 4 ?l) with (drop (Z.to_nat 4) l).
  rewrite drop_rest by lia. pose proof (le_val_bound (take 4 (rest (ip + 1)))) as B.
  apply copy_agrees with dst; try done; try dlia.
  - apply B. unfold rest. auto with bytes.
  - intros. apply incremental_copy_copied; dlia.
Qed.

Lemma decompress_step_agrees dst0 dst ulen out ip : 0 <= ip < n -> holds dst0 dst ulen out -> ulen <= lenZ dst0 ->
  step_agrees dst0 ulen ip (ref_element ulen out (next_element (rest ip)))
    (decompress_step vec src n ulen (slop_limit ulen) dst ip (lenZ out)).
Proof.
  intros Hip H Hu. destruct (rest_cons ip Hip) as (tag & E & -> & Ht). unfold decompress_step. rewrite E. cbn [mbind option_bind].
  assert (tag .& 3 = tag mod 4) as -> by (by apply (land_ones_mod tag 2)). unfold SNAPPY_LITERAL, SNAPPY_COPY_4.
  pose proof (Z.mod_pos_bound tag 4 ltac:(lia)).
  destruct (Z.eqb_spec (tag mod 4) 0); [by apply literal_step_agrees|]. destruct (Z.eqb_spec (tag mod 4) 3); cbn [negb].
  - by apply copy4_step_agrees.
  - apply copy_step_agrees; (done || lia).
Qed.

(** ** The loop *)

(** The end of the loop against the reference: all input and all output, or an error. *)
Definition loop_agrees (dst0 : list Z) (ulen : Z) (ref : option (list Z)) (r : option step_result) : Prop :=
  match ref with
  | Some out => exists dst', r = Some (StepNext dst' n ulen) /\ lenZ out = ulen /\ holds dst0 dst' ulen out
  | None => r = Some StepInvalid \/ exists dst' ip op, r = Some (StepNext dst' ip op) /\ (op <> ulen \/ ip <> n)
  end.

Lemma decompress_loop_agrees fuel : forall fuel' dst0 dst ulen out ip, 0 <= ip <= n -> n - ip <= Z.of_nat fuel ->
  n - ip <= Z.of_nat fuel' -> holds dst0 dst ulen out -> ulen <= lenZ dst0 ->
  loop_agrees dst0 ulen (snappy_run fuel' ulen (rest ip) out)
    (decompress_loop fuel vec src n ulen (slop_limit ulen) dst ip (lenZ out)).
Proof.
  induction fuel as [|fuel IH]; intros fuel' dst0 dst ulen out ip Hip Hf Hf' H Hu; pose proof (holds_fits _ _ _ _ H) as HF.
  all: destruct (Z.eq_dec ip n) as [->|Hne].
  1,3: assert (rest n = []) as -> by (apply nil_length_inv; pose proof (length_rest n); lia);
       assert (snappy_run fuel' ulen [] out = if lenZ out =? ulen then Some out else None) as -> by (by destruct fuel');
       cbn [decompress_loop]; rewrite Z.ltb_irrefl; cbn [andb];
       destruct (Z.eqb_spec (lenZ out) ulen) as [E|E]; [exists dst; by rewrite E|right; exists dst, n, (lenZ out); by auto].
  1: lia.
  destruct (rest_cons ip) as (tag & _ & E & _); [lia|]. destruct fuel' as [|fuel']; [lia|].
  pose proof (decompress_step_agrees dst0 dst ulen out ip ltac:(lia) H Hu) as S. rewrite E in S |- *.
  cbn [decompress_loop snappy_run]. rewrite (proj2 (Z.ltb_lt ip n)) by lia. cbn [andb].
  destruct (Z.leb_spec ulen (lenZ out)) as [L|L].
  { rewrite (proj2 (Z.ltb_ge (lenZ out) ulen)) by lia. right. exists dst, ip, (lenZ out). auto. }
  rewrite (proj2 (Z.ltb_lt (lenZ out) ulen)) by lia. unfold ref_element in S.
  destruct (next_element (tag :: rest (ip + 1))) as [[e l]|]; cbn [mbind option_bind] in S |- *; [|rewrite S; by left].
  destruct (apply_element ulen e out) as [out'|]; cbn [mbind option_bind] in S |- *; [|rewrite S; by left].
  destruct S as (dst' & ip' & -> & Hip' & -> & H'). cbn [mbind option_bind]. apply IH; (done || lia).
Qed.

(** ** The header *)

Lemma varint_steps_spec steps : forall ip result shift, 0 <= ip <= n -> shift + 7 * Z.of_nat steps = 35 -> 0 <= shift ->
  0 <= result < 2 ^ shift ->
  read_varint_steps steps src ip n result shift =
    Some (match parse_varint32 steps (rest ip) with
          | Some (v, l) => Some (result + 2 ^ shift * v, n - lenZ l)
          | None => None
          end) /\
  match parse_varint32 steps (rest ip) with
  | Some (v, l) => exists ip', ip < ip' <= n /\ l = rest ip' /\ 0 <= v < 2 ^ (32 - shift)
  | None => True
  end.
Proof.
  induction steps as [|steps IH]; intros ip result shift Hip Hsh Hs Hr; cbn [read_varint_steps]; [done|].
  rewrite Z.geb_leb. destruct (Z.leb_spec n ip) as [L|L].
  { assert (rest ip = []) as -> by (apply nil_length_inv; pose proof (length_rest ip); lia). done. }
  destruct (rest_cons ip) as (b & -> & -> & Hb); [lia|]. cbn [parse_varint32 mbind option_bind].
  rewrite byte_land_7F. pose proof (Z.mod_pos_bound b (2 ^ 7) ltac:(lia)) as Hm.
  assert (0 < 2 ^ shift) as Hp by (apply pow2_pos; lia). assert (2 ^ (shift + 7) = 2 ^ shift * 2 ^ 7) as E7 by (apply Z.pow_add_r; lia).
  destruct steps as [|steps].
  - replace shift with 28 in * by lia. destruct (Z.ltb_spec b 16); [|done]. rewrite (Z.mod_small b) by lia.
    rewrite shiftl_mul, (u32_small (b * _)), <- shiftl_mul, lor_add, u32_small by lia. rewrite length_rest by lia.
    split; [do 3 f_equal; lia|]. exists (ip + 1). split; [lia|]. split; [done|lia].
  - assert (2 ^ (shift + 7) <= 2 ^ 28) as P28 by (apply Z.pow_le_mono_r; lia).
    assert (u32 (result .| u32 ((b mod 2 ^ 7) ≪ shift)) = result + 2 ^ shift * (b mod 2 ^ 7)) as ->.
    { rewrite shiftl_mul, (u32_small (_ * _)) by nia. rewrite <- shiftl_mul, lor_add, u32_small by nia. lia. }
    destruct (Z.ltb_spec b 128).
    + rewrite (Z.mod_small b) by lia. rewrite length_rest by lia. split; [do 3 f_equal; lia|].
      exists (ip + 1). split; [lia|]. split; [done|]. assert (2 ^ 11 <= 2 ^ (32 - shift)) by (apply Z.pow_le_mono_r; lia). lia.
    + destruct (IH (ip + 1) (result + 2 ^ shift * (b mod 2 ^ 7)) (shift + 7)) as [E R]; [lia|lia|lia|nia|]. rewrite E.
      destruct (parse_varint32 (S steps) (rest (ip + 1))) as [[v l]|]; cbn [mbind option_bind]; [|done].
      destruct R as (ip' & Hip' & -> & Hv). change (2 ^ 7) with 128 in *. split; [do 3 f_equal; rewrite E7; lia|].
      exists ip'. split; [lia|]. split; [done|].
      assert (2 ^ (32 - shift) = 2 ^ (32 - (shift + 7)) * 2 ^ 7) as -> by (rewrite <- Z.pow_add_r by lia; f_equal; lia). lia.
Qed.

End Step.

Lemma snappy_run_length fuel : forall ulen l out r, snappy_run fuel ulen l out = Some r -> lenZ r = ulen.
Proof.
  induction fuel as [|fuel IH]; intros ulen [|x l] out r; cbn [snappy_run].
  1,3: destruct (Z.eqb_spec (lenZ out) ulen); intros; by simplify_eq.
  - by destruct (ulen <=? lenZ out).
  - destruct (ulen <=? lenZ out); [done|]. destruct (next_element (x :: l)) as [[e l']|]; cbn [mbind option_bind]; [|done].
    destruct (apply_element ulen e out) as [out'|]; cbn [mbind option_bind]; [|done]. apply IH.
Qed.

Lemma holds_eq dst0 dst out : holds dst0 dst (lenZ out) out -> lenZ out <= lenZ dst0 -> dst = out ++ drop (length out) dst0.
Proof.
  intros H Hl. apply list_eq. intros i. pose proof (holds_out _ _ _ _ H (Z.of_nat i)) as H1.
  pose proof (holds_after _ _ _ _ H (Z.of_nat i)) as H2. rewrite !rd_lookup, Nat2Z.id in H1, H2 by lia.
  destruct (decide (i < length out)%nat).
  - rewrite lookup_app_l by done. apply H1. lia.
  - rewrite lookup_app_r, lookup_drop by lia. rewrite H2 by lia. f_equal. lia.
Qed.

Lemma decompress_denotes vec src src_size dst cap :
  bytes_ok src -> 0 <= src_size <= lenZ src -> 0 <= cap <= lenZ dst ->
  let stream := take (Z.to_nat src_size) src in
  let r := carquet_snappy_decompress vec (Some src) src_size (Some dst) cap true in
  match snappy_denote stream with
  | Some out =>
      if lenZ out <=? cap
      then exists dst', r = Some (CARQUET_OK, Some (dst', lenZ out)) /\ dst' = out ++ drop (length out) dst
      else r = Some (CARQUET_ERROR_INVALID_COMPRESSED_DATA, None)
  | None => r = Some (CARQUET_ERROR_INVALID_COMPRESSED_DATA, None)
  end.
Proof.
  intros Hsrc Hn Hcap stream. unfold carquet_snappy_decompress. cbn [negb]. cbv zeta.
  destruct (Z.eqb_spec src_size 0) as [->|Hne].
  { unfold stream. change (Z.to_nat 0) with 0%nat. rewrite take_0. cbn [snappy_denote length]. decide_bool. by exists dst. }
  assert (stream = rest src src_size 0) as -> by (by unfold rest; rewrite drop_0).
  unfold snappy_denote, snappy_read_varint. destruct (rest_cons src src_size Hsrc Hn 0) as (b & _ & Er & _); [lia|].
  destruct (varint_steps_spec src src_size Hsrc Hn 5 0 0 0) as [E R]; [lia|lia|lia|lia|]. rewrite E, Er in *. clear E. cbn [mbind option_bind].
  destruct (parse_varint32 5 (b :: rest src src_size (0 + 1))) as [[v l]|]; cbn [mbind option_bind]; [|done].
  destruct R as (ip & Hip & -> & Hv). change (2 ^ 0) with 1. rewrite !Z.add_0_l, Z.mul_1_l, length_rest by lia.
  replace (src_size - (src_size - ip)) with ip by lia. rewrite Z.gtb_ltb. fold (slop_limit v).
  destruct (Z.ltb_spec cap v) as [L|L].
  { destruct (snappy_run _ _ _ _) as [out|] eqn:E; [|done]. rewrite (snappy_run_length _ _ _ _ _ E). by decide_bool. }
  pose proof (decompress_loop_agrees vec src src_size Hsrc Hn (Z.to_nat src_size) (length (rest src src_size ip)) dst dst v [] ip) as A.
  specialize (A ltac:(lia) ltac:(lia) ltac:(pose proof (length_rest src src_size Hn ip); lia)).
  specialize (A ltac:(split; [done|cbn; lia|cbn; intros i Hi; unfold rd; by decide_bool|done]) ltac:(lia)). change (lenZ []) with 0 in A.
  destruct (snappy_run _ _ _ _) as [out|]; unfold loop_agrees in A.
  - destruct A as (dst' & -> & Lo & H). cbn [mbind option_bind]. rewrite Lo. decide_bool. exists dst'. split; [done|].
    rewrite <- Lo in H. by apply holds_eq; [|lia].
  - destruct A as [-> | (dst' & ip' & op & -> & Hbad)]; cbn [mbind option_bind]; [done|].
    destruct (Z.eqb_spec op v); destruct (Z.eqb_spec ip' src_size); cbn [negb orb]; try done. lia.
Qed.

(** C10: the Snappy decompressor computes the format.  On any bytes, with or without the
    vector shuffle, [carquet_snappy_decompress] returns without an access outside its
    source and destination; it answers OK exactly when the stream denotes a string that
    fits the capacity, and then the destination holds that string and is unchanged after
    it; every other stream is rejected as invalid compressed data. *)
Theorem snappy_decompress_exact vec src src_size dst cap :
  bytes_ok src -> 0 <= src_size <= lenZ src -> 0 <= cap <= lenZ dst ->
  let stream := take (Z.to_nat src_size) src in
  let r := carquet_snappy_decompress vec (Some src) src_size (Some dst) cap true in
  match snappy_denote stream with
  | Some out =>
      if lenZ out <=? cap
      then exists dst', r = Some (CARQUET_OK, Some (dst', lenZ out)) /\ dst' = out ++ drop (length out) dst
      else r = Some (CARQUET_ERROR_INVALID_COMPRESSED_DATA, None)
  | None => r = Some (CARQUET_ERROR_INVALID_COMPRESSED_DATA, None)
  end.
Proof. exact (decompress_denotes vec src src_size dst cap). Qed.

Lemma snappy_decompress_exact_witness :
  let src := [9; 8; 97; 98; 99; 9; 3] in
  snappy_denote src = Some [97; 98; 99; 97; 98; 99; 97; 98; 99] /\
  exists dst', carquet_snappy_decompress true (Some src) 7 (Some (replicate 10 0)) 10 true = Some (CARQUET_OK, Some (dst', 9)) /\
    dst' = [97; 98; 99; 97; 98; 99; 97; 98; 99; 0].
Proof.
  intros src. split; [reflexivity|].
  apply (snappy_decompress_exact true src 7 (replicate 10 0) 10); [|cbn; lia|cbn; lia].
  apply (bool_decide_unpack _). vm_compute. exact I.
Defined.
