(* ===== verification/SnappyEncode.v ===== *)
(** * Snappy: the compressor

    Every block the compressor writes is a sequence of elements that expands to the
    block, within the bound it promises, so decompression gives back the input. *)

From S2P Require Import Prelude Memory Status Dispatch Snappy SnappyDecode.

(** ** Streams of elements *)

(** [bs] is an encoding of [e], whatever follows. *)
Definition encodes (bs : list Z) (e : snappy_element) : Prop :=
  forall rest, next_element (bs ++ rest) = Some (e, rest).

(** [produces bs out out']: the elements of [bs] extend the output [out] to [out']. *)
Inductive produces : list Z -> list Z -> list Z -> Prop :=
  | produces_nil out : produces [] out out
  | produces_literal b lit bs out out' :
      encodes b (Literal lit) -> 1 <= lenZ lit -> produces bs (out ++ lit) out' -> produces (b ++ bs) out out'
  | produces_copy b off len bs out out' :
      encodes b (Copy off len) -> 1 <= len -> 1 <= off <= lenZ out ->
      produces bs (lz_copy (Z.to_nat len) off out) out' -> produces (b ++ bs) out out'.

Lemma produces_app bs1 bs2 out1 out2 out3 : produces bs1 out1 out2 -> produces bs2 out2 out3 -> produces (bs1 ++ bs2) out1 out3.
Proof.
  induction 1 as [|b lit bs out out' He Hl _ IH|b off len bs out out' He Hl Ho _ IH]; intros H; [done| |]; rewrite <- app_assoc.
  - eapply produces_literal; eauto.
  - eapply produces_copy; eauto.
Qed.

Lemma produces_one_literal b lit out : encodes b (Literal lit) -> 1 <= lenZ lit -> produces b out (out ++ lit).
Proof. intros. rewrite <- (app_nil_r b). eapply produces_literal; eauto. constructor. Qed.

Lemma produces_one_copy b off len out : encodes b (Copy off len) -> 1 <= len -> 1 <= off <= lenZ out ->
  produces b out (lz_copy (Z.to_nat len) off out).
Proof. intros. rewrite <- (app_nil_r b). eapply produces_copy; eauto. constructor. Qed.

Lemma produces_length bs out out' : produces bs out out' -> lenZ out <= lenZ out' /\ (bs <> [] -> lenZ out < lenZ out').
Proof.
  induction 1 as [|b lit bs out out' He Hl _ IH|b off len bs out out' He Hl Ho _ IH]; [split; [lia|done]| |].
  - rewrite length_app in IH. lia.
  - rewrite length_lz_copy in IH by done. lia.
Qed.

Lemma encodes_cons b e : encodes b e -> exists x t, b = x :: t.
Proof. intros H. destruct b as [|x t]; [|by eauto]. specialize (H []). done. Qed.

(** The reference decoder runs the elements. *)
Lemma produces_run bs out out' : produces bs out out' -> forall fuel, (length bs <= fuel)%nat ->
  snappy_run fuel (lenZ out') bs out = Some out'.
Proof.
  induction 1 as [|b lit bs out out' He Hl Hp IH|b off len bs out out' He Hl Ho Hp IH]; intros fuel Hf.
  - destruct fuel; cbn; by rewrite Z.eqb_refl.
  - destruct (encodes_cons _ _ He) as (x & t & ->). rewrite length_app in Hf. cbn [length] in Hf. destruct fuel as [|fuel]; [lia|].
    pose proof (produces_length _ _ _ Hp) as [L _]. rewrite length_app in L.
    specialize (He bs). cbn [app] in He |- *. cbn [snappy_run]. rewrite He. cbn [mbind option_bind apply_element]. decide_bool.
    cbn [mbind option_bind]. apply IH. lia.
  - destruct (encodes_cons _ _ He) as (x & t & ->). rewrite length_app in Hf. cbn [length] in Hf. destruct fuel as [|fuel]; [lia|].
    pose proof (produces_length _ _ _ Hp) as [L _]. rewrite length_lz_copy in L by done.
    specialize (He bs). cbn [app] in He |- *. cbn [snappy_run]. rewrite He. cbn [mbind option_bind apply_element]. decide_bool.
    cbn [mbind option_bind]. apply IH. lia.
Qed.

(** A match of the input with itself. *)
Lemma lz_copy_match base blk off m : forall ip, 1 <= off <= ip -> ip + Z.of_nat m <= lenZ blk ->
  (forall i, 0 <= i < Z.of_nat m -> rd blk (ip - off + i) = rd blk (ip + i)) ->
  lz_copy m off (base ++ take (Z.to_nat ip) blk) = base ++ take (Z.to_nat (ip + Z.of_nat m)) blk.
Proof.
  induction m as [|m IH]; intros ip Ho Hl H; cbn [lz_copy]; [by rewrite Z.add_0_r|].
  assert (lenZ (base ++ take (Z.to_nat ip) blk) = lenZ base + ip) as L by (rewrite length_app, length_take; lia).
  rewrite L. rewrite rd_app_r by lia. replace (lenZ base + ip - off - lenZ base) with (ip - off) by lia.
  rewrite rd_take by lia. pose proof (H 0 ltac:(lia)) as H0. rewrite !Z.add_0_r in H0. rewrite H0.
  destruct (rd_Some blk ip) as [b Hb]; [lia|]. rewrite Hb. rewrite rd_lookup in Hb by lia. rewrite <- app_assoc, <- (take_S_r _ _ _ Hb).
  replace (S (Z.to_nat ip)) with (Z.to_nat (ip + 1)) by lia. rewrite IH; [do 2 f_equal; lia|lia|lia|].
  intros i Hi. replace (ip + 1 - off + i) with (ip - off + (i + 1)) by lia. replace (ip + 1 + i) with (ip + (i + 1)) by lia. apply H. lia.
Qed.

Lemma lz_copy_add a b off : forall out, 1 <= off <= lenZ out -> lz_copy (a + b) off out = lz_copy b off (lz_copy a off out).
Proof.
  induction a as [|a IH]; intros out Ho; cbn [lz_copy Nat.add]; [done|].
  destruct (rd_Some out (lenZ out - off)) as [x Hx]; [lia|]. rewrite Hx. apply IH. rewrite length_app. lia.
Qed.

(** ** Writing at the output cursor *)

(** From [dst] at [op] the code has appended [bs] and reached [dst'] at [op']; what lies
    past [op'] is scratch. *)
Record wrote (dst : list Z) (op : Z) (dst' : list Z) (op' : Z) (bs : list Z) : Prop := {
  wrote_length : length dst' = length dst;
  wrote_op : op' = op + lenZ bs;
  wrote_take : take (Z.to_nat op') dst' = take (Z.to_nat op) dst ++ bs;
  wrote_bytes : bytes_ok dst -> bytes_ok dst'
}.

Lemma wrote_refl dst op : wrote dst op dst op [].
Proof. split; [done|cbn; lia|by rewrite app_nil_r|done]. Qed.

Lemma snappy_wrote_trans d1 o1 d2 o2 d3 o3 b1 b2 : wrote d1 o1 d2 o2 b1 -> wrote d2 o2 d3 o3 b2 -> wrote d1 o1 d3 o3 (b1 ++ b2).
Proof.
  intros [L1 O1 T1 B1] [L2 O2 T2 B2]. split; [congruence|rewrite length_app; lia| |auto].
  by rewrite T2, T1, app_assoc.
Qed.

Lemma wrote_wr_n dst op bs dst' k : wr_n dst op bs = Some dst' -> 0 <= k <= lenZ bs -> 0 <= op -> bytes_ok bs ->
  wrote dst op dst' (op + k) (take (Z.to_nat k) bs).
Proof.
  intros H Hk Ho Hb. split.
  - by apply length_wr_n in H.
  - rewrite length_take. lia.
  - by apply take_wr_n.
  - intros Hd. by apply (wr_n_bytes _ _ _ _ H).
Qed.

Lemma wrote_wr dst op x : 0 <= op < lenZ dst -> is_byte x -> exists dst', wr dst op x = Some dst' /\ wrote dst op dst' (op + 1) [x].
Proof.
  intros Ho Hx. rewrite wr_as_wr_n. destruct (wr_n_total dst op [x]) as [d E]; [lia|cbn; lia|]. exists d. split; [done|].
  apply (wrote_wr_n _ _ [x] _ 1 E); [cbn; lia|lia|auto with bytes].
Qed.

Lemma wrote_store32 dst op v k : 0 <= op -> op + 4 <= lenZ dst -> 0 <= k <= 4 ->
  exists dst', store32 dst op v = Some dst' /\ wrote dst op dst' (op + k) (take (Z.to_nat k) (le_bytes 4 v)).
Proof.
  intros Ho Hl Hk. unfold store32. destruct (wr_n_total dst op (le_bytes 4 v)) as [d E]; [lia|rewrite length_le_bytes; lia|].
  exists d. split; [done|]. apply wrote_wr_n; auto with bytes.
Qed.

(** ** Literals *)

Lemma land_top_bit x : 0 <= x < 2 ^ 32 -> ((x .& 0x80000000) =? 0) = (x <? 2 ^ 31).
Proof.
  intros H. change 0x80000000 with (2 ^ 31). destruct (Z.ltb_spec x (2 ^ 31)).
  - apply Z.eqb_eq. apply Z.bits_inj'. intros i Hi. rewrite Z.land_spec, Z.bits_0, Z.pow2_bits_eqb by lia.
    destruct (Z.eqb_spec 31 i) as [<-|]; [|by rewrite andb_false_r]. by rewrite (testbit_above x 31) by lia.
  - apply Z.eqb_neq. intros E. assert (Z.testbit (x .& 2 ^ 31) 31 = true) as T; [|by rewrite E, Z.bits_0 in T].
    rewrite Z.land_spec, Z.pow2_bits_true, andb_true_r by lia. apply Z.testbit_true; [lia|].
    replace (x / 2 ^ 31) with 1; [done|]. apply (Z.div_unique _ _ _ (x - 2 ^ 31)); lia.
Qed.

Lemma snappy_clz32_log2 fuel : forall x, 0 < x < 2 ^ 32 -> 31 - Z.log2 x <= Z.of_nat fuel ->
  snappy_clz32 fuel x = Some (31 - Z.log2 x).
Proof.
  induction fuel as [|fuel IH]; intros x Hx Hf; cbn [snappy_clz32]; rewrite land_top_bit by lia.
  - assert (Z.log2 x < 32) by (apply Z.log2_lt_pow2; lia). assert (2 ^ 31 <= x) by (apply Z.log2_le_pow2; lia). decide_bool. f_equal. lia.
  - destruct (Z.ltb_spec x (2 ^ 31)).
    + rewrite shiftl_mul, u32_small by lia. change (2 ^ 1) with 2. assert (Z.log2 (x * 2) = Z.log2 x + 1) as E.
      { rewrite Z.mul_comm, Z.log2_double by lia. lia. }
      rewrite IH by lia. cbn. f_equal. lia.
    + assert (Z.log2 x < 32) by (apply Z.log2_lt_pow2; lia). assert (31 <= Z.log2 x) by (apply Z.log2_le_pow2; lia). f_equal. lia.
Qed.

Lemma clz32_count n : 60 <= n < 65536 ->
  exists c, snappy_clz32 32 (u32 n) = Some c /\ (31 - c) / 8 + 1 = if n <? 256 then 1 else 2.
Proof.
  intros H. exists (31 - Z.log2 n). rewrite u32_small by lia. assert (0 <= Z.log2 n) by apply Z.log2_nonneg.
  split; [apply snappy_clz32_log2; lia|]. replace (31 - (31 - Z.log2 n)) with (Z.log2 n) by lia. destruct (Z.ltb_spec n 256).
  - assert (Z.log2 n < 8) by (apply Z.log2_lt_pow2; lia). dlia.
  - assert (Z.log2 n < 16) by (apply Z.log2_lt_pow2; lia). assert (8 <= Z.log2 n) by (apply Z.log2_le_pow2; lia). dlia.
Qed.

(** The bytes before the literal itself. *)
Definition literal_header (len : Z) : list Z :=
  let n := len - 1 in
  if n <? 60 then [n * 4]
  else if n <? 256 then [60 * 4; n] else [61 * 4; n mod 256; n / 256].

Lemma encodes_literal lit : 1 <= lenZ lit <= 65536 -> encodes (literal_header (lenZ lit) ++ lit) (Literal lit).
Proof.
  intros H rest. rewrite <- app_assoc. unfold literal_header.
  assert (forall l, take_literal (lenZ lit) (lit ++ l) = Some (Literal lit, l)) as T.
  { intros l. unfold take_literal. rewrite length_app. decide_bool. by rewrite Nat2Z.id, take_app_length, drop_app_length. }
  destruct (Z.ltb_spec (lenZ lit - 1) 60); [|destruct (Z.ltb_spec (lenZ lit - 1) 256)]; cbn [app next_element].
  - rewrite Z.mod_mul, Z.div_mul by lia. cbn [Z.eqb]. decide_bool. rewrite Z.sub_add. apply T.
  - change (60 * 4 mod 4) with 0. change (60 * 4 / 4) with 60. cbn [Z.eqb length]. decide_bool.
    change (Z.to_nat (60 - 59)) with 1%nat. cbn [take le_val drop]. rewrite Z.mul_0_r, Z.add_0_r, Z.sub_add, u32_small by lia. apply T.
  - change (61 * 4 mod 4) with 0. change (61 * 4 / 4) with 61. cbn [Z.eqb length]. decide_bool.
    change (Z.to_nat (61 - 59)) with 2%nat. cbn [take le_val drop]. rewrite Z.mul_0_r, Z.add_0_r. change (2 ^ 8) with 256.
    rewrite (Z.add_comm ((lenZ lit - 1) mod 256)), <- Z.div_mod, Z.sub_add, u32_small by lia. apply T.
Qed.

Lemma emit_literal_wrote dst op src p len : bytes_ok src -> 0 <= op -> 1 <= len <= 65536 -> op + len + 5 <= lenZ dst ->
  0 <= p -> p + len <= lenZ src ->
  let lit := take (Z.to_nat len) (drop (Z.to_nat p) src) in
  let bs := literal_header len ++ lit in
  exists dst' op', snappy_emit_literal dst op src p len = Some (dst', op') /\ wrote dst op dst' op' bs.
Proof.
  intros Hs Ho Hl Hc Hp Hp' lit bs. unfold snappy_emit_literal.
  assert (lenZ lit = len) as Ll by (unfold lit; rewrite length_take, length_drop; lia).
  assert (bytes_ok lit) as Bl by (unfold lit; auto with bytes).
  assert (forall d1 o1, wrote dst op d1 o1 (literal_header len) -> o1 <= op + 3 ->
    exists dst' op', (bs ← rd_n src p len; dst ← wr_n d1 o1 bs; Some (dst, o1 + len)) = Some (dst', op') /\ wrote dst op dst' op' bs) as K.
  { intros d1 o1 W H3. rewrite rd_n_Some by lia. cbn [mbind option_bind]. fold lit.
    pose proof (wrote_length _ _ _ _ _ W). pose proof (wrote_op _ _ _ _ _ W).
    destruct (wr_n_total d1 o1 lit) as [d2 E]; [lia|lia|]. rewrite E. cbn [mbind option_bind]. exists d2, (o1 + len). split; [done|].
    apply (snappy_wrote_trans _ _ _ _ _ _ _ _ W). rewrite <- (take_ge lit (Z.to_nat len)) by lia. apply wrote_wr_n; (done || lia). }
  unfold literal_header in K, bs. cbv zeta. destruct (Z.ltb_spec (len - 1) 60).
  - rewrite shiftl_mul, u8_small by lia. change (2 ^ 2) with 4.
    destruct (wrote_wr dst op ((len - 1) * 4)) as (d1 & -> & W1); [lia|unfold in_u; lia|]. cbn [mbind option_bind]. apply K; [done|lia].
  - destruct (clz32_count (len - 1)) as (c & -> & Ec); [lia|]. cbn [mbind option_bind]. rewrite Ec.
    destruct (Z.ltb_spec (len - 1) 256).
    + change (u8 ((59 + 1) ≪ 2)) with (60 * 4). destruct (wrote_wr dst op (60 * 4)) as (d1 & -> & W1); [lia|unfold in_u; lia|].
      cbn [mbind option_bind]. pose proof (wrote_length _ _ _ _ _ W1). destruct (wrote_store32 d1 (op + 1) (u32 (len - 1)) 1) as (d2 & -> & W2); [lia|lia|lia|].
      cbn [mbind option_bind]. apply K; [|lia]. apply (snappy_wrote_trans _ _ _ _ _ _ [60 * 4] [len - 1] W1).
      rewrite u32_small in W2 by lia. change (Z.to_nat 1) with 1%nat in W2. cbn [le_bytes take] in W2. by rewrite Z.mod_small in W2 by lia.
    + change (u8 ((59 + 2) ≪ 2)) with (61 * 4). destruct (wrote_wr dst op (61 * 4)) as (d1 & -> & W1); [lia|unfold in_u; lia|].
      cbn [mbind option_bind]. pose proof (wrote_length _ _ _ _ _ W1). destruct (wrote_store32 d1 (op + 1) (u32 (len - 1)) 2) as (d2 & -> & W2); [lia|lia|lia|].
      cbn [mbind option_bind]. apply K; [|lia]. apply (snappy_wrote_trans _ _ _ _ _ _ [61 * 4] [(len - 1) mod 256; (len - 1) / 256] W1).
      rewrite u32_small in W2 by lia. change (Z.to_nat 2) with 2%nat in W2. cbn [le_bytes take] in W2. change (2 ^ 8) with 256 in W2.
      by rewrite (Z.mod_small ((len - 1) / 256)) in W2 by dlia.
Qed.

(** Literal overhead against the growth allowed. *)
Lemma length_literal_header len : 1 <= len <= 65536 -> 12 * lenZ (literal_header len) <= len + 12 /\ lenZ (literal_header len) <= 3.
Proof. intros H. unfold literal_header. repeat case_bool; cbn [length]; lia. Qed.

(** ** Copies *)

Definition copy2_bytes (off len : Z) : list Z := [(len - 1) * 4 + 2; off mod 256; off / 256].

Definition copy1_bytes (off len : Z) : list Z := [(len - 4) * 4 + 1 + 32 * (off / 256); off mod 256].

Lemma encodes_copy2 off len : 0 <= off < 65536 -> 1 <= len <= 64 -> encodes (copy2_bytes off len) (Copy off len).
Proof.
  intros Ho Hl rest. cbn [copy2_bytes app next_element]. replace (((len - 1) * 4 + 2) mod 4) with 2 by dlia.
  replace (((len - 1) * 4 + 2) / 4) with (len - 1) by dlia. cbn [Z.eqb Pos.eqb]. do 3 f_equal; dlia.
Qed.

Lemma encodes_copy1 off len : 0 <= off < 2048 -> 4 <= len < 12 -> encodes (copy1_bytes off len) (Copy off len).
Proof.
  intros Ho Hl rest. cbn [copy1_bytes app next_element]. set (q := off / 256). assert (0 <= q < 8) by (unfold q; dlia).
  replace (((len - 4) * 4 + 1 + 32 * q) mod 4) with 1 by dlia. cbn [Z.eqb Pos.eqb].
  replace (((len - 4) * 4 + 1 + 32 * q) / 4) with (len - 4 + 8 * q) by dlia. do 3 f_equal; unfold q; dlia.
Qed.

Lemma emit_copy2_wrote dst op tag off : 0 <= op -> op + 3 <= lenZ dst -> 0 <= tag < 256 -> 0 <= off < 65536 ->
  exists dst', emit_copy2 dst op tag off = Some (dst', op + 3) /\ wrote dst op dst' (op + 3) [tag; off mod 256; off / 256].
Proof.
  intros Ho Hl Ht Hf. unfold emit_copy2. rewrite (u8_small tag) by lia.
  change 0xFF with (2 ^ 8 - 1). rewrite (land_ones_mod off 8), shiftr_div by lia. change (2 ^ 8) with 256. rewrite !u8_small by dlia.
  destruct (wrote_wr dst op tag) as (d1 & -> & W1); [lia|unfold in_u; lia|]. cbn [mbind option_bind]. pose proof (wrote_length _ _ _ _ _ W1).
  destruct (wrote_wr d1 (op + 1) (off mod 256)) as (d2 & -> & W2); [lia|unfold in_u; dlia|]. cbn [mbind option_bind]. pose proof (wrote_length _ _ _ _ _ W2).
  destruct (wrote_wr d2 (op + 2) (off / 256)) as (d3 & -> & W3); [lia|unfold in_u; dlia|]. cbn [mbind option_bind].
  exists d3. split; [done|]. replace (op + 1 + 1) with (op + 2) in W2 by lia. replace (op + 2 + 1) with (op + 3) in W3 by lia.
  exact (snappy_wrote_trans _ _ _ _ _ _ _ _ W1 (snappy_wrote_trans _ _ _ _ _ _ _ _ W2 W3)).
Qed.

(** What an emitted copy is: its bytes on the cursor, and their meaning. *)
Definition copy_written (dst : list Z) (op : Z) (dst' : list Z) (op' off len : Z) : Prop :=
  exists bs, wrote dst op dst' op' bs /\ lenZ bs <= len /\ (len <> 0 -> lenZ bs <= len - 1) /\
    forall out, 1 <= off <= lenZ out -> produces bs out (lz_copy (Z.to_nat len) off out).

Lemma copy_written_one dst op dst' op' off len bs : wrote dst op dst' op' bs -> encodes bs (Copy off len) -> 4 <= len -> lenZ bs <= 3 ->
  copy_written dst op dst' op' off len.
Proof.
  intros W E Hl Hb. exists bs. split; [done|]. split; [lia|]. split; [lia|]. intros out Ho. apply produces_one_copy; (done || lia).
Qed.

Lemma copy_written_trans d1 o1 d2 o2 d3 o3 off a b : 0 <= a -> 0 <= b -> copy_written d1 o1 d2 o2 off a -> copy_written d2 o2 d3 o3 off b ->
  copy_written d1 o1 d3 o3 off (a + b).
Proof.
  intros Ha Hb (b1 & W1 & L1 & M1 & P1) (b2 & W2 & L2 & M2 & P2). exists (b1 ++ b2).
  split; [by apply (snappy_wrote_trans _ _ _ _ _ _ _ _ W1)|]. rewrite length_app. split; [lia|]. split; [lia|]. intros out Ho.
  rewrite Z2Nat.inj_add, lz_copy_add by lia. apply produces_app with (lz_copy (Z.to_nat a) off out); [by apply P1|].
  apply P2. rewrite length_lz_copy by done. lia.
Qed.

Lemma copy_written_refl d o off : copy_written d o d o off 0.
Proof. exists []. split; [apply wrote_refl|]. split; [cbn; lia|]. split; [lia|]. intros. constructor. Qed.

Lemma copy_written_op d o d' o' off len : copy_written d o d' o' off len -> o <= o' <= o + len /\ length d' = length d.
Proof. intros (bs & W & L & _). destruct W. lia. Qed.

Lemma emit_copy_chunks_written fuel : forall dst op off len, 4 <= len -> 1 <= off < 65536 -> 0 <= op -> op + len + 4 <= lenZ dst ->
  len <= Z.of_nat fuel ->
  exists dst' op' len', emit_copy_chunks fuel dst op off len = Some (dst', op', len') /\ 4 <= len' < 68 /\ len' <= len /\
    copy_written dst op dst' op' off (len - len').
Proof.
  induction fuel as [|fuel IH]; intros dst op off len Hl Ho Hop Hc Hf; cbn [emit_copy_chunks]; rewrite Z.geb_leb;
    destruct (Z.leb_spec 68 len); [lia| |
      |exists dst, op, len; rewrite Z.sub_diag; split; [done|]; split; [lia|]; split; [lia|apply copy_written_refl]]; [lia|].
  change ((63 ≪ 2) .| SNAPPY_COPY_2) with ((64 - 1) * 4 + 2).
  destruct (emit_copy2_wrote dst op ((64 - 1) * 4 + 2) off) as (d1 & -> & W1); [lia|lia|lia|lia|]. cbn [mbind option_bind].
  assert (copy_written dst op d1 (op + 3) off 64) as C1 by (apply (copy_written_one _ _ _ _ _ _ _ W1); [apply (encodes_copy2 off 64); lia|lia|cbn; lia]).
  pose proof (copy_written_op _ _ _ _ _ _ C1) as [_ L1].
  destruct (IH d1 (op + 3) off (len - 64)) as (d2 & o2 & len' & -> & H1 & H2 & C2); [lia|lia|lia|lia|lia|].
  exists d2, o2, len'. split; [done|]. split; [lia|]. split; [lia|].
  replace (len - len') with (64 + (len - 64 - len')) by lia. apply copy_written_trans with d1 (op + 3); (done || lia).
Qed.

Lemma copy1_high off : 0 <= off < 2048 -> (off ≫ 3) .& 0xe0 = 32 * (off / 256).
Proof.
  intros H. apply Z.eqb_eq. apply (forall_range 2048 (λ off, ((off ≫ 3) .& 0xe0) =? 32 * (off / 256))); [vm_compute; reflexivity|lia].
Qed.

Lemma emit_copy_last dst op off len : 4 <= len <= 64 -> 1 <= off < 65536 -> 0 <= op -> op + 4 <= lenZ dst ->
  exists dst' op', emit_copy_tail dst op off len = Some (dst', op') /\ copy_written dst op dst' op' off len.
Proof.
  intros Hl Ho Hop Hc. unfold emit_copy_tail. rewrite !(u32_small len), !(u32_small off) by lia. unfold SNAPPY_COPY_1, SNAPPY_COPY_2.
  destruct (Z.ltb_spec len 12); cbn [andb].
  - rewrite !(u32_small (len - 1)) by lia. rewrite !shiftl_mul by lia. change (2 ^ 2) with 4. change (2 ^ 8) with 256.
    rewrite !(u32_small (_ * _)) by lia. destruct (Z.ltb_spec off 2048).
    + rewrite copy1_high by lia. change (4 * 4) with 16. unfold u32 at 2 3.
      set (v := u32 _). assert (v = ((len - 4) * 4 + 1 + 32 * (off / 256)) + 256 * off) as Ev.
      { unfold v, u32. rewrite <- Z.add_mod by lia. rewrite Z.mod_small by dlia. lia. }
      destruct (wrote_store32 dst op v 2) as (d & -> & W); [lia|lia|lia|]. exists d, (op + 2). split; [done|].
      apply (copy_written_one _ _ _ _ _ _ (copy1_bytes off len)); [|apply encodes_copy1; lia|lia|cbn; lia].
      change (Z.to_nat 2) with 2%nat in W. cbn [le_bytes take] in W. change (2 ^ 8) with 256 in W. rewrite Ev in W.
      replace ((((len - 4) * 4 + 1 + 32 * (off / 256)) + 256 * off) mod 256) with ((len - 4) * 4 + 1 + 32 * (off / 256)) in W by dlia.
      replace ((((len - 4) * 4 + 1 + 32 * (off / 256)) + 256 * off) / 256) with off in W by dlia. exact W.
    + set (v := u32 _). assert (v = ((len - 1) * 4 + 2) + 256 * off) as Ev by (unfold v; rewrite u32_small by lia; lia).
      destruct (wrote_store32 dst op v 3) as (d & -> & W); [lia|lia|lia|]. exists d, (op + 3). split; [done|].
      apply (copy_written_one _ _ _ _ _ _ (copy2_bytes off len)); [|apply encodes_copy2; lia|lia|cbn; lia].
      change (Z.to_nat 3) with 3%nat in W. cbn [le_bytes take] in W. change (2 ^ 8) with 256 in W. rewrite Ev in W.
      replace ((((len - 1) * 4 + 2) + 256 * off) mod 256) with ((len - 1) * 4 + 2) in W by dlia.
      replace ((((len - 1) * 4 + 2) + 256 * off) / 256) with off in W by dlia. rewrite (Z.mod_small (off / 256)) in W by dlia. exact W.
  - replace (((len - 1) ≪ 2) .| 2) with ((len - 1) * 4 + 2) by (rewrite Z.lor_comm, lor_add by lia; lia).
    destruct (emit_copy2_wrote dst op ((len - 1) * 4 + 2) off) as (d & -> & W); [lia|lia|lia|lia|]. exists d, (op + 3). split; [done|].
    apply (copy_written_one _ _ _ _ _ _ (copy2_bytes off len)); [done|apply encodes_copy2; lia|lia|cbn; lia].
Qed.

Lemma emit_copy_written dst op off len : 4 <= len -> 1 <= off < 65536 -> 0 <= op -> op + len + 4 <= lenZ dst ->
  exists dst' op', snappy_emit_copy dst op off len = Some (dst', op') /\ copy_written dst op dst' op' off len.
Proof.
  intros Hl Ho Hop Hc. unfold snappy_emit_copy.
  destruct (emit_copy_chunks_written (Z.to_nat len) dst op off len) as (d1 & o1 & l1 & -> & H1 & H2 & C1); try lia. cbn [mbind option_bind].
  pose proof (copy_written_op _ _ _ _ _ _ C1) as [O1 L1]. rewrite Z.gtb_ltb. destruct (Z.ltb_spec 64 l1).
  - change ((59 ≪ 2) .| SNAPPY_COPY_2) with ((60 - 1) * 4 + 2).
    destruct (emit_copy2_wrote d1 o1 ((60 - 1) * 4 + 2) off) as (d2 & -> & W2); [lia|lia|lia|lia|]. cbn [mbind option_bind].
    assert (copy_written d1 o1 d2 (o1 + 3) off 60) as C2 by (apply (copy_written_one _ _ _ _ _ _ _ W2); [apply (encodes_copy2 off 60); lia|lia|cbn; lia]).
    pose proof (copy_written_op _ _ _ _ _ _ C2) as [_ L2].
    destruct (emit_copy_last d2 (o1 + 3) off (l1 - 60)) as (d3 & o3 & E3 & C3); [lia|lia|lia|lia|]. rewrite E3. exists d3, o3. split; [done|].
    replace len with (len - l1 + (60 + (l1 - 60))) by lia.
    apply copy_written_trans with d1 o1; [lia|lia|done|]. apply copy_written_trans with d2 (o1 + 3); (done || lia).
  - destruct (emit_copy_last d1 o1 off l1) as (d3 & o3 & E3 & C3); [lia|lia|lia|lia|]. rewrite E3. exists d3, o3. split; [done|].
    replace len with (len - l1 + l1) by lia. apply copy_written_trans with d1 o1; (done || lia).
Qed.

(** ** Match lengths *)

Lemma snappy_ctz64_spec fuel : forall x, 0 < x < 2 ^ (Z.of_nat fuel + 1) ->
  exists c, snappy_ctz64 fuel x = Some c /\ 0 <= c <= Z.of_nat fuel /\ x mod 2 ^ c = 0.
Proof.
  induction fuel as [|fuel IH]; intros x Hx; cbn [snappy_ctz64]; rewrite land_1.
  - change (2 ^ (Z.of_nat 0 + 1)) with 2 in Hx. replace x with 1 by lia. exists 0. split; [done|]. split; [lia|done].
  - destruct (Z.eqb_spec (x mod 2) 0) as [E|E]; [|exists 0; split; [done|]; split; [lia|apply Z.mod_1_r]].
    rewrite shiftr_div by lia. change (2 ^ 1) with 2.
    replace (Z.of_nat (S fuel) + 1) with (Z.succ (Z.of_nat fuel + 1)) in Hx by lia. rewrite Z.pow_succ_r in Hx by lia.
    destruct (IH (x / 2)) as (c & -> & Hc & Hm); [dlia|]. cbn. exists (c + 1). split; [done|]. split; [lia|].
    rewrite Z.pow_add_r, Z.mul_comm by lia. change (2 ^ 1) with 2. pose proof (pow2_pos c ltac:(lia)).
    rewrite Z.rem_mul_r by lia. rewrite E, Hm. done.
Qed.

Lemma lxor_mod_eq a b c : 0 <= c -> Z.lxor a b mod 2 ^ c = 0 -> a mod 2 ^ c = b mod 2 ^ c.
Proof.
  intros Hc H. apply Z.bits_inj'. intros i Hi. destruct (Z.lt_ge_cases i c).
  - rewrite !Z.mod_pow2_bits_low by lia. assert (Z.testbit (Z.lxor a b mod 2 ^ c) i = false) as T by (by rewrite H, Z.bits_0).
    rewrite Z.mod_pow2_bits_low, Z.lxor_spec in T by lia. by destruct (Z.testbit a i), (Z.testbit b i).
  - rewrite !Z.mod_pow2_bits_high by lia. done.
Qed.

(** The bytes at [p] and at [m] agree over [k]. *)
Definition same_bytes (src : list Z) (p m k : Z) : Prop := forall i, 0 <= i < k -> rd src (m + i) = rd src (p + i).

Lemma same_bytes_app src p m a b : same_bytes src p m a -> same_bytes src (p + a) (m + a) b -> 0 <= a -> same_bytes src p m (a + b).
Proof.
  intros H1 H2 Ha i Hi. destruct (Z.lt_ge_cases i a); [apply H1; lia|].
  specialize (H2 (i - a) ltac:(lia)). replace (m + a + (i - a)) with (m + i) in H2 by lia. by replace (p + a + (i - a)) with (p + i) in H2 by lia.
Qed.

Lemma same_bytes_take src p m k : 0 <= p -> 0 <= m -> 0 <= k ->
  take (Z.to_nat k) (drop (Z.to_nat p) src) = take (Z.to_nat k) (drop (Z.to_nat m) src) -> same_bytes src p m k.
Proof.
  intros Hp Hm Hk E i Hi. assert (take (Z.to_nat k) (drop (Z.to_nat p) src) !! Z.to_nat i = take (Z.to_nat k) (drop (Z.to_nat m) src) !! Z.to_nat i) as H by (by rewrite E).
  rewrite !lookup_take_lt, !lookup_drop in H by lia. rewrite !rd_lookup by lia.
  replace (Z.to_nat (m + i)) with (Z.to_nat m + Z.to_nat i)%nat by lia. by replace (Z.to_nat (p + i)) with (Z.to_nat p + Z.to_nat i)%nat by lia.
Qed.

Lemma le_val_inj l1 l2 : bytes_ok l1 -> bytes_ok l2 -> length l1 = length l2 -> le_val l1 = le_val l2 -> l1 = l2.
Proof. intros H1 H2 L E. rewrite <- (le_bytes_val l1 H1), <- (le_bytes_val l2 H2). by rewrite L, E. Qed.

Lemma match_length_loop_sound src limit fuel : forall p m, 0 <= m <= p -> p <= limit <= lenZ src -> limit - p <= Z.of_nat fuel ->
  exists k, match_length_loop fuel src p m limit = Some k /\ 0 <= k /\ p + k <= limit /\ same_bytes src p m k.
Proof.
  induction fuel as [|fuel IH]; intros p m Hm Hp Hf; cbn [match_length_loop]; destruct (Z.ltb_spec p limit); try lia.
  1,3: exists 0; split; [done|]; split; [lia|]; split; [lia|]; intros i Hi; lia.
  destruct (rd_Some src p) as [x Ex]; [lia|]. destruct (rd_Some src m) as [y Ey]; [lia|]. rewrite Ex, Ey. cbn [mbind option_bind].
  destruct (Z.eqb_spec x y) as [->|]; [|exists 0; split; [done|]; split; [lia|]; split; [lia|]; intros i Hi; lia].
  destruct (IH (p + 1) (m + 1)) as (k & -> & Hk & Hl & HS); [lia|lia|lia|]. cbn [mbind option_bind]. exists (k + 1). split; [done|].
  split; [lia|]. split; [lia|]. rewrite Z.add_comm. apply same_bytes_app; [|done|lia].
  intros i Hi. replace i with 0 by lia. rewrite !Z.add_0_r. congruence.
Qed.

Lemma load64_Some src p : 0 <= p -> p + 8 <= lenZ src -> load64 src p = Some (le_val (take 8 (drop (Z.to_nat p) src))).
Proof. intros. unfold load64. by rewrite rd_n_Some by lia. Qed.

Lemma load32_Some src p : 0 <= p -> p + 4 <= lenZ src -> load32 src p = Some (le_val (take 4 (drop (Z.to_nat p) src))).
Proof. intros. unfold load32. by rewrite rd_n_Some by lia. Qed.

Lemma same_bytes_le_val src p m w k : bytes_ok src -> 0 <= p -> 0 <= m -> p + Z.of_nat w <= lenZ src -> m + Z.of_nat w <= lenZ src ->
  0 <= k <= Z.of_nat w ->
  le_val (take w (drop (Z.to_nat p) src)) mod 2 ^ (8 * k) = le_val (take w (drop (Z.to_nat m) src)) mod 2 ^ (8 * k) ->
  same_bytes src p m k.
Proof.
  intros Hs Hp Hm Hpw Hmw Hk E. apply same_bytes_take; [lia|lia|lia|].
  assert (forall q, 0 <= q -> q + Z.of_nat w <= lenZ src ->
    le_val (take (Z.to_nat k) (drop (Z.to_nat q) src)) = le_val (take w (drop (Z.to_nat q) src)) mod 2 ^ (8 * k)) as K.
  { intros q Hq Hqw. replace (take (Z.to_nat k) (drop (Z.to_nat q) src)) with (take (Z.to_nat k) (take w (drop (Z.to_nat q) src)))
      by (rewrite take_take; f_equal; lia).
    rewrite le_val_take by auto with bytes. do 3 f_equal. lia. }
  apply le_val_inj; auto with bytes.
  - rewrite !length_take, !length_drop. lia.
  - by rewrite !K by lia.
Qed.

Lemma match_words_sound src limit : bytes_ok src -> forall fuel p m, 0 <= m <= p -> p <= limit <= lenZ src -> limit - p <= Z.of_nat fuel ->
  exists k, match_words fuel src p m limit = Some k /\ 0 <= k /\ p + k <= limit /\ same_bytes src p m k.
Proof.
  intros Hs. induction fuel as [|fuel IH]; intros p m Hm Hp Hf; cbn [match_words]; destruct (Z.leb_spec (p + 8) limit); try lia.
  1,3: apply match_length_loop_sound; lia.
  rewrite !load64_Some by lia. cbn [mbind option_bind].
  set (a := le_val (take 8 (drop (Z.to_nat p) src))). set (b := le_val (take 8 (drop (Z.to_nat m) src))).
  assert (forall q, 0 <= le_val (take 8 (drop q src)) < 2 ^ 64) as B.
  { intros q. pose proof (le_val_bound (take 8 (drop q src)) ltac:(auto with bytes)) as B. rewrite length_take in B.
    assert (2 ^ (8 * Z.of_nat (8 `min` length (drop q src))) <= 2 ^ 64) by (apply Z.pow_le_mono_r; lia). lia. }
  destruct (Z.eqb_spec (a .^ b) 0) as [E|E]; cbn [negb].
  - apply Z.lxor_eq in E. destruct (IH (p + 8) (m + 8)) as (k & -> & Hk & Hl & HS); [lia|lia|lia|]. cbn [mbind option_bind].
    exists (8 + k). split; [done|]. split; [lia|]. split; [lia|]. apply same_bytes_app; [|done|lia].
    apply (same_bytes_le_val src p m 8); try done; try lia. unfold a, b in E. by rewrite E.
  - assert (0 < a .^ b < 2 ^ 64) as HX.
    { assert (0 <= a .^ b) by (apply Z.lxor_nonneg; pose proof (B (Z.to_nat p)); pose proof (B (Z.to_nat m)); unfold a, b; lia).
      split; [lia|]. assert (a .^ b < 2 ^ 64 \/ 2 ^ 64 <= a .^ b) as [|Hbig] by lia; [done|]. apply Z.log2_le_pow2 in Hbig; [|lia].
      assert (Z.log2 (a .^ b) <= Z.max (Z.log2 a) (Z.log2 b)) by (apply Z.log2_lxor; [apply B|apply B]).
      assert (forall x, 0 <= x < 2 ^ 64 -> Z.log2 x < 64) as LL.
      { intros x Hx. destruct (Z.eq_dec x 0) as [->|]; [done|]. apply Z.log2_lt_pow2; lia. }
      pose proof (LL a (B _)). pose proof (LL b (B _)). lia. }
    destruct (snappy_ctz64_spec 63 (a .^ b)) as (c & -> & Hc & Hm'); [done|]. cbn [mbind option_bind]. rewrite shiftr_div by lia. change (2 ^ 3) with 8.
    exists (c / 8). split; [done|]. split; [dlia|]. split; [dlia|]. apply (same_bytes_le_val src p m 8); try done; try dlia.
    apply lxor_mod_eq; [dlia|]. fold a b. apply Z.mod_divide in Hm'; [|pose proof (pow2_pos c); lia].
    apply Z.mod_divide; [pose proof (pow2_pos (8 * (c / 8))); dlia|]. apply Z.divide_trans with (2 ^ c); [|done].
    exists (2 ^ (c - 8 * (c / 8))). rewrite <- Z.pow_add_r by dlia. f_equal. dlia.
Qed.

(** ** The hash table *)

(** Every entry is a position before [pos]. *)
Definition table_ok (table : list Z) (pos : Z) : Prop := lenZ table = SNAPPY_HASH_SIZE /\ Forall (λ c, 0 <= c < pos) table.

Lemma table_ok_mono table p q : table_ok table p -> p <= q -> table_ok table q.
Proof. intros [L F] H. split; [done|]. eapply Forall_impl; [|exact F]. intros c Hc. cbn in *. lia. Qed.

Lemma snappy_hash_range v : 0 <= snappy_hash v < SNAPPY_HASH_SIZE.
Proof.
  unfold snappy_hash. change (32 - SNAPPY_HASH_LOG) with 18. change SNAPPY_HASH_SIZE with 16384. rewrite shiftr_div by lia.
  pose proof (u32_range (v * 0x1e35a7bd)). dlia.
Qed.

Lemma hash_write table h pos p : table_ok table p -> 0 <= h < SNAPPY_HASH_SIZE -> 0 <= pos < 65536 -> pos < p ->
  exists t', wr table h (u16 pos) = Some t' /\ table_ok t' p.
Proof.
  intros [L F] Hh Hp Hpp. rewrite u16_small by lia. rewrite wr_Some by lia. eexists. split; [done|]. split; [by rewrite length_insert|].
  apply Forall_insert; [done|lia].
Qed.

Lemma hash_swap_spec table h pos : table_ok table pos -> 0 <= h < SNAPPY_HASH_SIZE -> 0 <= pos < 65536 ->
  exists c t', hash_swap table h pos = Some (c, t') /\ 0 <= c < pos /\ table_ok t' (pos + 1).
Proof.
  intros T Hh Hp. unfold hash_swap. destruct T as [L F]. destruct (rd_Some table h) as [c Hc]; [lia|]. rewrite Hc. cbn [mbind option_bind].
  destruct (hash_write table h pos (pos + 1)) as (t' & -> & T'); [apply table_ok_mono with pos; [by split|lia]|done|done|lia|].
  cbn [mbind option_bind]. exists c, t'. split; [done|]. split; [|done]. rewrite rd_lookup in Hc by lia. exact (Forall_lookup_1 _ _ _ _ F Hc).
Qed.

Section Block.
Context (src : list Z) (n : Z).
Context (Hsrc : bytes_ok src) (Hn : 15 <= n <= 65536) (Hlen : n <= lenZ src).

(** A candidate whose first four bytes match. *)
Definition found_ok (ip candidate : Z) : Prop := 0 <= candidate < ip /\ same_bytes src ip candidate 4.

Lemma found_ok_load ip c v : 0 <= c < ip -> ip + 4 <= n -> load32 src ip = Some v -> load32 src c = Some v -> found_ok ip c.
Proof.
  intros Hc Hi E1 E2. split; [done|]. rewrite load32_Some in E1, E2 by lia. apply (same_bytes_le_val src ip c 4); try done; try lia. congruence.
Qed.

Lemma search_loop_spec fuel : forall table ip skip, table_ok table ip -> 1 <= ip <= n - 15 + 1 -> 32 <= skip <= 32 + ip ->
  n - 15 + 2 - ip <= Z.of_nat fuel ->
  exists r t', search_loop fuel src (n - 15) table ip skip = Some (r, t') /\
    match r with None => True | Some (ip', c) => ip <= ip' < n - 15 /\ found_ok ip' c /\ table_ok t' (ip' + 1) end.
Proof.
  induction fuel as [|fuel IH]; intros table ip skip T Hip Hs Hf; [lia|]. cbn [search_loop]. rewrite load32_Some by lia. cbn [mbind option_bind].
  set (v := le_val (take 4 (drop (Z.to_nat ip) src))). rewrite shiftr_div by lia. change (2 ^ 5) with 32. set (bb := skip / 32).
  assert (1 <= bb <= skip) by (unfold bb; dlia). rewrite Z.gtb_ltb. destruct (Z.ltb_spec (n - 15) (ip + bb)); [by exists None, table|].
  destruct (hash_swap_spec table (snappy_hash v) ip) as (c & t' & -> & Hc & T'); [done|apply snappy_hash_range|lia|]. cbn [mbind option_bind].
  rewrite load32_Some by lia. cbn [mbind option_bind]. fold v. destruct (Z.eqb_spec v (le_val (take 4 (drop (Z.to_nat c) src)))) as [E|E].
  - exists (Some (ip, c)), t'. split; [done|]. split; [lia|]. split; [|done].
    apply found_ok_load with v; [lia|lia|by rewrite load32_Some by lia|]. rewrite load32_Some by lia. by rewrite E.
  - rewrite u32_small by lia. destruct (IH t' (ip + bb) (skip + bb)) as (r & t2 & -> & HR).
    + apply table_ok_mono with (ip + 1); [done|lia].
    + lia.
    + unfold bb in *. dlia.
    + lia.
    + exists r, t2. split; [done|]. destruct r as [[ip' c']|]; [|done]. destruct HR as (? & ? & ?). split; [lia|]. by split.
Qed.

Lemma load_sub p w k : load64 src p = Some w -> 0 <= p -> p + 8 <= lenZ src -> 0 <= k <= 4 ->
  load32 src (p + k) = Some (u32 (w / 2 ^ (8 * k))).
Proof.
  intros E Hp Hl Hk. rewrite load64_Some in E by lia. injection E as <-. rewrite load32_Some by lia. f_equal.
  replace (take 4 (drop (Z.to_nat (p + k)) src)) with (take 4 (drop (Z.to_nat k) (take 8 (drop (Z.to_nat p) src)))).
  - rewrite le_val_take, le_val_drop by auto with bytes. unfold u32. do 3 f_equal. lia.
  - rewrite skipn_firstn_comm, take_take, drop_drop. f_equal; [lia|]. f_equal. lia.
Qed.

Lemma startup_loop_spec steps : forall table i data w, table_ok table (1 + i) -> 0 <= i -> i + Z.of_nat steps = 16 -> 32 <= n ->
  (i < 16 -> load64 src (1 + 4 * (i / 4)) = Some w /\ data = w / 2 ^ (8 * (i mod 4))) ->
  exists r t', startup_loop steps src 1 table i data = Some (r, t') /\
    match r with
    | None => table_ok t' 17
    | Some (i', c) => 0 <= i' < 16 /\ found_ok (1 + i') c /\ table_ok t' (1 + i' + 1)
    end.
Proof.
  induction steps as [|steps IH]; intros table i data w T Hi Hs Hn32 HD; cbn [startup_loop].
  { exists None, table. split; [done|]. by replace 17 with (1 + i) by lia. }
  destruct HD as [HW HDt]; [lia|]. assert (load32 src (1 + i) = Some (u32 data)) as HL.
  { replace (1 + i) with (1 + 4 * (i / 4) + i mod 4) by dlia. rewrite HDt. apply load_sub; (done || dlia). }
  assert ((if i =? 0 then load32 src 1 else Some (u32 data)) = Some (u32 data)) as ->.
  { destruct (Z.eqb_spec i 0) as [->|]; [done|done]. }
  cbn [mbind option_bind]. destruct (hash_swap_spec table (snappy_hash (u32 data)) (1 + i)) as (c & t' & -> & Hc & T');
    [done|apply snappy_hash_range|lia|]. cbn [mbind option_bind].
  rewrite load32_Some by lia. cbn [mbind option_bind]. destruct (Z.eqb_spec (le_val (take 4 (drop (Z.to_nat c) src))) (u32 data)) as [E|E].
  - exists (Some (i, c)), t'. split; [done|]. split; [lia|]. split; [|done].
    apply found_ok_load with (u32 data); [lia|lia|done|]. by rewrite load32_Some, E by lia.
  - destruct (Z.eqb_spec (i mod 4) 3).
    + rewrite load64_Some by dlia. cbn [mbind option_bind].
      apply (IH t' (i + 1) _ (le_val (take 8 (drop (Z.to_nat (1 + 4 * (i / 4) + 4)) src)))); [by replace (1 + (i + 1)) with (1 + i + 1) by lia|lia|lia|done|].
      intros Hlt. replace ((i + 1) mod 4) with 0 by dlia. replace (4 * ((i + 1) / 4)) with (4 * (i / 4) + 4) by dlia.
      rewrite Z.add_assoc. split; [rewrite load64_Some by dlia; done|]. change (2 ^ (8 * 0)) with 1. by rewrite Z.div_1_r.
    + cbn [mbind option_bind]. apply (IH t' (i + 1) _ w); [by replace (1 + (i + 1)) with (1 + i + 1) by lia|lia|lia|done|].
      intros _. replace ((i + 1) / 4) with (i / 4) by dlia. split; [done|]. replace ((i + 1) mod 4) with (i mod 4 + 1) by dlia.
      pose proof (pow2_pos (8 * (i mod 4)) ltac:(dlia)). rewrite HDt, shiftr_div, Z.div_div by lia. rewrite <- Z.pow_add_r by dlia. do 2 f_equal. lia.
Qed.
(** ** One block

    [progress dst op pos slack]: what has been written since the start of the block expands
    to its first [pos] bytes, and has grown by at most one byte in twelve, plus [slack]
    twelfths. *)

Context (dst0 : list Z) (op0 : Z) (base : list Z).
Context (Hop0 : 0 <= op0) (Hcap : 13 * n + 60 <= 12 * (lenZ dst0 - op0)).

Definition progress (dst : list Z) (op pos slack : Z) : Prop :=
  exists bs, wrote dst0 op0 dst op bs /\ produces bs base (base ++ take (Z.to_nat pos) src) /\ 12 * lenZ bs <= 13 * pos + slack.

Lemma progress_start : progress dst0 op0 0 0.
Proof. exists []. split; [apply wrote_refl|]. split; [rewrite take_0, app_nil_r; constructor|cbn; lia]. Qed.

Lemma literal_progress dst op anchor ip : progress dst op anchor 0 -> 0 <= anchor < ip -> ip <= n ->
  exists dst' op', snappy_emit_literal dst op src anchor (ip - anchor) = Some (dst', op') /\ progress dst' op' ip 12.
Proof.
  intros (bs & W & P & B) Ha Hi. pose proof (wrote_length _ _ _ _ _ W) as WL. pose proof (wrote_op _ _ _ _ _ W) as WO.
  destruct (emit_literal_wrote dst op src anchor (ip - anchor)) as (d & o & -> & W'); try done; try lia.
  set (lit := take (Z.to_nat (ip - anchor)) (drop (Z.to_nat anchor) src)) in *.
  assert (lenZ lit = ip - anchor) as Ll by (unfold lit; rewrite length_take, length_drop; lia).
  exists d, o. split; [done|]. exists (bs ++ literal_header (ip - anchor) ++ lit). split; [by apply (snappy_wrote_trans _ _ _ _ _ _ _ _ W)|]. split.
  - apply produces_app with (base ++ take (Z.to_nat anchor) src); [done|].
    replace (base ++ take (Z.to_nat ip) src) with ((base ++ take (Z.to_nat anchor) src) ++ lit).
    + rewrite <- Ll. apply produces_one_literal; [apply encodes_literal|]; lia.
    + rewrite <- app_assoc. f_equal. unfold lit. rewrite take_take_drop. f_equal. lia.
  - rewrite !length_app. pose proof (length_literal_header (ip - anchor) ltac:(lia)). lia.
Qed.

Lemma copy_progress dst op ip c m : progress dst op ip 12 -> 0 <= c < ip -> 4 <= m -> ip + m <= n -> same_bytes src ip c m ->
  exists dst' op', snappy_emit_copy dst op (ip - c) m = Some (dst', op') /\ progress dst' op' (ip + m) 0.
Proof.
  intros (bs & W & P & B) Hc Hm Hi HS. pose proof (wrote_length _ _ _ _ _ W) as WL. pose proof (wrote_op _ _ _ _ _ W) as WO.
  destruct (emit_copy_written dst op (ip - c) m) as (d & o & -> & (b2 & W2 & L2 & M2 & P2)); try done; try lia.
  exists d, o. split; [done|]. exists (bs ++ b2). split; [by apply (snappy_wrote_trans _ _ _ _ _ _ _ _ W)|]. split.
  - apply produces_app with (base ++ take (Z.to_nat ip) src); [done|].
    replace (base ++ take (Z.to_nat (ip + m)) src) with (lz_copy (Z.to_nat m) (ip - c) (base ++ take (Z.to_nat ip) src)).
    + apply P2. rewrite length_app, length_take. lia.
    + rewrite lz_copy_match; [do 3 f_equal; lia|lia|lia|]. intros i Hj. replace (ip - (ip - c) + i) with (c + i) by lia. apply HS. lia.
  - rewrite length_app. lia.
Qed.

Lemma match_loop_progress fuel : forall table dst op ip c, progress dst op ip 12 -> found_ok ip c -> table_ok table (ip + 1) ->
  1 <= ip -> ip + 4 <= n -> n - ip <= Z.of_nat fuel ->
  exists dst' op' anchor, match_loop fuel src n (n - 15) table dst op ip c = Some (dst', op', anchor) /\
    progress dst' op' anchor 0 /\ 0 <= anchor <= n.
Proof.
  induction fuel as [|fuel IH]; intros table dst op ip c P [Hc HS] T Hip Hi Hf; [lia|]. cbn [match_loop]. unfold fast_match_length.
  destruct (match_words_sound src n Hsrc (Z.to_nat (n - (ip + 4))) (ip + 4) (c + 4)) as (k & -> & Hk & Hkl & HK); [lia|lia|lia|].
  cbn [mbind option_bind]. assert (same_bytes src ip c (4 + k)) as HSk by (apply same_bytes_app; [done|done|lia]).
  destruct (copy_progress dst op ip c (4 + k)) as (d1 & o1 & -> & P1); try done; try lia. cbn [mbind option_bind].
  set (ip1 := ip + (4 + k)) in *. rewrite Z.geb_leb. destruct (Z.leb_spec (n - 15) ip1); [exists d1, o1, ip1; split; [done|]; split; [done|lia]|].
  rewrite (load32_Some src (ip1 - 1)) by lia. cbn [mbind option_bind].
  destruct (hash_write table (snappy_hash (le_val (take 4 (drop (Z.to_nat (ip1 - 1)) src)))) (ip1 - 1) ip1) as (t1 & -> & T1);
    [apply table_ok_mono with (ip + 1); [done|lia]|apply snappy_hash_range|lia|lia|]. cbn [mbind option_bind].
  rewrite (load32_Some src ip1) by lia. cbn [mbind option_bind]. set (v := le_val (take 4 (drop (Z.to_nat ip1) src))).
  destruct (hash_swap_spec t1 (snappy_hash v) ip1) as (c1 & t2 & -> & Hc1 & T2); [done|apply snappy_hash_range|lia|]. cbn [mbind option_bind].
  rewrite (load32_Some src c1) by lia. cbn [mbind option_bind].
  destruct ((v =? le_val (take 4 (drop (Z.to_nat c1) src))) && (ip1 - c1 <=? SNAPPY_MAX_OFFSET)) eqn:E.
  - apply andb_prop in E as [E _]. apply Z.eqb_eq in E. destruct P1 as (bs & W & Pr & B).
    apply IH; [exists bs; split; [done|]; split; [done|lia]| |done|lia|lia|lia].
    apply found_ok_load with v; [lia|lia|by rewrite load32_Some by lia|]. rewrite load32_Some by lia. by rewrite E.
  - destruct (search_loop_spec (Z.to_nat n) t2 (ip1 + 1) 32) as (r & t3 & -> & HR); [done|lia|lia|lia|]. cbn [mbind option_bind].
    destruct r as [[ip2 c2]|]; [|exists d1, o1, ip1; split; [done|]; split; [done|lia]]. destruct HR as (Hip2 & F2 & T3).
    rewrite Z.gtb_ltb. decide_bool. destruct (literal_progress d1 o1 ip1 ip2) as (d3 & o3 & -> & P3); [done|lia|lia|]. cbn [mbind option_bind].
    apply IH; (done || lia).
Qed.

Lemma remainder_progress dst op anchor : progress dst op anchor 0 -> 0 <= anchor <= n ->
  exists dst' op', emit_remainder src n (dst, op, anchor) = Some (dst', op') /\ progress dst' op' n 12.
Proof.
  intros P Ha. cbn [emit_remainder]. destruct (Z.ltb_spec anchor n); [apply literal_progress; (done || lia)|].
  exists dst, op. split; [done|]. destruct P as (bs & W & Pr & B). replace n with anchor by lia. exists bs. split; [done|]. split; [done|lia].
Qed.

Lemma block_progress : exists dst' op', snappy_compress_block src n dst0 op0 = Some (dst', op') /\ progress dst' op' n 12.
Proof.
  unfold snappy_compress_block. decide_bool. rewrite load32_Some by lia. cbn [mbind option_bind].
  set (h := snappy_hash _). pose proof (snappy_hash_range (le_val (take 4 (drop (Z.to_nat 0) src)))) as Hh. fold h in Hh.
  destruct (hash_write (replicate (Z.to_nat SNAPPY_HASH_SIZE) 0) h 0 1) as (t0 & E0 & T0); [|done|lia|lia|].
  { split; [rewrite length_replicate; done|]. apply Forall_replicate. lia. }
  change (u16 0) with 0 in E0. rewrite E0. cbn [mbind option_bind]. clear E0.
  assert (exists found t1, (if 16 <=? n - 15 - 1 then data ← load64 src 1; startup_loop 16 src 1 t0 0 data else Some (None, t0)) = Some (found, t1) /\
    match found with
    | None => table_ok t1 (if 16 <=? n - 15 - 1 then 17 else 1)
    | Some (i', c) => 0 <= i' < 16 /\ found_ok (1 + i') c /\ table_ok t1 (1 + i' + 1) /\ 32 <= n
    end) as (found & t1 & -> & HF).
  { destruct (Z.leb_spec 16 (n - 15 - 1)); [|by exists None, t0]. rewrite load64_Some by lia. cbn [mbind option_bind].
    destruct (startup_loop_spec 16 t0 0 (le_val (take 8 (drop (Z.to_nat 1) src))) (le_val (take 8 (drop (Z.to_nat 1) src))))
      as (r & t1 & E & HR); [done|lia|lia|lia| |].
    - intros _. change (4 * (0 / 4)) with 0. rewrite load64_Some by lia. split; [done|]. change (2 ^ (8 * (0 mod 4))) with 1. by rewrite Z.div_1_r.
    - exists r, t1. split; [done|]. destruct r as [[i c]|]; [|done]. destruct HR as (? & ? & ?). split; [done|]. split; [done|]. split; [done|lia]. }
  cbn [mbind option_bind]. destruct found as [[i c]|].
  - destruct HF as (Hi & F & T & H32). change SNAPPY_LITERAL with 0. rewrite Z.lor_0_l, shiftl_mul by lia. change (2 ^ 2) with 4. rewrite u8_small by lia.
    destruct (wrote_wr dst0 op0 (i * 4)) as (d1 & -> & W1); [lia|unfold in_u; lia|]. cbn [mbind option_bind]. pose proof (wrote_length _ _ _ _ _ W1).
    rewrite copy128_block by lia. unfold copy_block. rewrite rd_n_Some by lia. cbn [mbind option_bind].
    set (raw := take (Z.to_nat 16) (drop (Z.to_nat 0) src)). assert (lenZ raw = 16) as Lr by (unfold raw; rewrite length_take, length_drop; lia).
    destruct (wr_n_total d1 (op0 + 1) raw) as [d2 E2]; [lia|lia|]. rewrite E2. cbn [mbind option_bind].
    pose proof (wrote_wr_n _ _ _ _ (i + 1) E2 ltac:(lia) ltac:(lia) ltac:(unfold raw; auto with bytes)) as W2.
    assert (take (Z.to_nat (i + 1)) raw = take (Z.to_nat (i + 1)) src) as Er.
    { unfold raw. rewrite drop_0, take_take. f_equal. lia. }
    rewrite Er in W2. replace (op0 + 1 + (i + 1)) with (op0 + i + 2) in W2 by lia.
    assert (progress d2 (op0 + i + 2) (1 + i) 12) as P.
    { assert (lenZ (take (Z.to_nat (i + 1)) src) = i + 1) as Ll by (rewrite length_take; lia).
      exists ([i * 4] ++ take (Z.to_nat (i + 1)) src). split; [exact (snappy_wrote_trans _ _ _ _ _ _ _ _ W1 W2)|]. split; [|rewrite length_app; cbn [length]; lia].
      replace (1 + i) with (i + 1) by lia. apply produces_one_literal; [|lia].
      pose proof (encodes_literal (take (Z.to_nat (i + 1)) src) ltac:(lia)) as E. unfold literal_header in E. rewrite Ll in E.
      rewrite (proj2 (Z.ltb_lt (i + 1 - 1) 60)) in E by lia. by replace (i + 1 - 1) with i in E by lia. }
    destruct (match_loop_progress (Z.to_nat n) t1 d2 (op0 + i + 2) (1 + i) c) as (d3 & o3 & a & -> & P3 & Ha); try done; try lia. cbn [mbind option_bind].
    by apply remainder_progress.
  - destruct (search_loop_spec (Z.to_nat n) t1 (if 16 <=? n - 15 - 1 then 1 + 16 else 1) 32) as (r & t2 & -> & HR);
      [by destruct (16 <=? n - 15 - 1)|destruct (Z.leb_spec 16 (n - 15 - 1)); lia|destruct (Z.leb_spec 16 (n - 15 - 1)); lia|destruct (Z.leb_spec 16 (n - 15 - 1)); lia|].
    cbn [mbind option_bind]. destruct r as [[ip2 c2]|]; [|apply remainder_progress; [apply progress_start|lia]].
    destruct HR as (Hip2 & F2 & T2). assert (1 <= ip2) by (destruct (Z.leb_spec 16 (n - 15 - 1)); lia). rewrite Z.gtb_ltb. decide_bool. rewrite Z.sub_0_r.
    destruct (literal_progress dst0 op0 0 ip2) as (d3 & o3 & E3 & P3); [apply progress_start|lia|lia|]. rewrite Z.sub_0_r in E3. rewrite E3. cbn [mbind option_bind].
    destruct (match_loop_progress (Z.to_nat n) t2 d3 o3 ip2 c2) as (d4 & o4 & a & -> & P4 & Ha); try done; try lia. cbn [mbind option_bind].
    by apply remainder_progress.
Qed.

End Block.

Lemma block_written src n dst op base : bytes_ok src -> 1 <= n <= 65536 -> n <= lenZ src -> 0 <= op ->
  13 * n + 60 <= 12 * (lenZ dst - op) ->
  exists dst' op' bs, snappy_compress_block src n dst op = Some (dst', op') /\ wrote dst op dst' op' bs /\
    produces bs base (base ++ take (Z.to_nat n) src) /\ 12 * lenZ bs <= 13 * n + 12.
Proof.
  intros Hs Hn Hl Ho Hc. destruct (Z.lt_ge_cases n 15).
  - unfold snappy_compress_block. decide_bool.
    destruct (emit_literal_wrote dst op src 0 n) as (d & o & -> & W); try done; try lia.
    change (Z.to_nat 0) with 0%nat in W. rewrite drop_0 in W. assert (lenZ (take (Z.to_nat n) src) = n) as L by (rewrite length_take; lia).
    exists d, o, (literal_header n ++ take (Z.to_nat n) src). split; [done|]. split; [done|]. split.
    + rewrite <- L at 1. apply produces_one_literal; [apply encodes_literal; lia|lia].
    + rewrite length_app. pose proof (length_literal_header n ltac:(lia)). lia.
  - destruct (block_progress src n Hs ltac:(lia) Hl dst op base Ho Hc) as (d & o & E & bs & W & P & B). by exists d, o, bs.
Qed.

Lemma compress_blocks_written src N dst0 op0 : bytes_ok src -> N <= lenZ src -> 0 <= op0 -> 14 * N + 100 <= 12 * (lenZ dst0 - op0) ->
  forall fuel pos dst op bs, 0 <= pos <= N -> N - pos <= Z.of_nat fuel ->
  wrote dst0 op0 dst op bs -> produces bs [] (take (Z.to_nat pos) src) -> 12 * lenZ bs <= 14 * pos + (if pos =? N then 12 else 0) ->
  exists dst' op' bs', compress_blocks fuel src N pos dst op = Some (dst', op') /\ wrote dst0 op0 dst' op' bs' /\
    produces bs' [] (take (Z.to_nat N) src) /\ 12 * lenZ bs' <= 14 * N + 12.
Proof.
  intros Hs HN Ho Hc. induction fuel as [|fuel IH]; intros pos dst op bs Hp Hf W P B; cbn [compress_blocks]; destruct (Z.ltb_spec pos N); try lia.
  1,3: exists dst, op, bs; split; [done|]; split; [done|]; split; [by replace N with pos by lia|]; destruct (Z.eqb_spec pos N); lia.
  rewrite (proj2 (Z.eqb_neq pos N)) in B by lia. change SNAPPY_BLOCK_SIZE with 65536. rewrite Z.gtb_ltb.
  set (n := if 65536 <? N - pos then 65536 else N - pos).
  assert (1 <= n <= 65536 /\ n <= N - pos /\ (n = 65536 \/ pos + n = N)) as (Hn & Hn' & Hlast) by (unfold n; destruct (Z.ltb_spec 65536 (N - pos)); lia).
  pose proof (wrote_length _ _ _ _ _ W) as WL. pose proof (wrote_op _ _ _ _ _ W) as WO.
  destruct (block_written (ptr_add src pos) n dst op (take (Z.to_nat pos) src)) as (d1 & o1 & b1 & -> & W1 & P1 & B1);
    [auto with bytes|lia|rewrite length_ptr_add; lia|lia|lia|]. cbn [mbind option_bind].
  apply (IH (pos + n) d1 o1 (bs ++ b1)); [lia|lia|by apply (snappy_wrote_trans _ _ _ _ _ _ _ _ W)| |].
  - apply produces_app with (take (Z.to_nat pos) src); [done|]. unfold ptr_add in P1. rewrite take_take_drop in P1.
    by replace (Z.to_nat (pos + n)) with (Z.to_nat pos + Z.to_nat n)%nat by lia.
  - rewrite length_app. destruct (Z.eqb_spec (pos + n) N); lia.
Qed.

(** ** The header *)

Lemma varint_byte v : 0 <= v -> u8 (v .| 0x80) = v mod 128 + 128.
Proof.
  intros Hv. unfold u8. rewrite <- (land_ones_mod _ 8) by lia. rewrite Z.land_lor_distr_l, (land_ones_mod v 8) by lia.
  change (Z.land 0x80 (2 ^ 8 - 1)) with 128. assert (forall x, 0 <= x < 256 -> x .| 128 = x mod 128 + 128) as K.
  { intros x Hx. apply Z.eqb_eq. apply (forall_range 256 (λ x, (x .| 128) =? x mod 128 + 128)); [vm_compute; reflexivity|lia]. }
  rewrite K by (apply Z.mod_pos_bound; lia). f_equal. change (2 ^ 8) with 256. dlia.
Qed.

Lemma write_varint_last fuel dst p v : v < 128 -> write_varint_loop fuel dst p v = (dst ← wr dst p (u8 v); Some (dst, p + 1)).
Proof. intros H. destruct fuel; cbn [write_varint_loop]; rewrite Z.geb_leb, (proj2 (Z.leb_gt _ _) H); done. Qed.

Lemma write_varint_written k : forall fuel dst p v, 0 <= v < 2 ^ (7 * Z.of_nat (S k) - 3) -> (k <= fuel)%nat -> 0 <= p -> p + Z.of_nat (S k) <= lenZ dst ->
  exists dst' p' bs, write_varint_loop fuel dst p v = Some (dst', p') /\ wrote dst p dst' p' bs /\ 1 <= lenZ bs <= Z.of_nat (S k) /\
    forall rest, parse_varint32 (S k) (bs ++ rest) = Some (v, rest).
Proof.
  induction k as [|k IH]; intros fuel dst p v Hv Hf Hp Hl.
  - change (2 ^ (7 * Z.of_nat 1 - 3)) with 16 in Hv.
    rewrite write_varint_last, u8_small by lia. destruct (wrote_wr dst p v) as (d & -> & W); [lia|unfold in_u; lia|]. cbn [mbind option_bind]. exists d, (p + 1), [v].
    split; [done|]. split; [done|]. split; [cbn; lia|]. intros rest. cbn [app parse_varint32]. by decide_bool.
  - destruct (Z.le_gt_cases 128 v).
    + destruct fuel as [|fuel]; [lia|]. cbn [write_varint_loop]. rewrite Z.geb_leb. decide_bool. rewrite varint_byte, shiftr_div by lia. change (2 ^ 7) with 128.
      destruct (wrote_wr dst p (v mod 128 + 128)) as (d & -> & W); [lia|unfold in_u; dlia|]. cbn [mbind option_bind]. pose proof (wrote_length _ _ _ _ _ W).
      assert (2 ^ (7 * Z.of_nat (S (S k)) - 3) = 2 ^ (7 * Z.of_nat (S k) - 3) * 128) as E.
      { change 128 with (2 ^ 7). rewrite <- Z.pow_add_r by lia. f_equal. lia. }
      destruct (IH fuel d (p + 1) (v / 128)) as (d2 & p2 & bs & -> & W2 & L2 & P2); [rewrite E in Hv; dlia|lia|lia|lia|].
      exists d2, p2, ([v mod 128 + 128] ++ bs). split; [done|]. split; [exact (snappy_wrote_trans _ _ _ _ _ _ _ _ W W2)|].
      split; [rewrite length_app; cbn [length]; lia|]. intros rest. rewrite <- app_assoc. cbn [app]. remember (S k) as k1. cbn [parse_varint32]. subst k1.
      rewrite (proj2 (Z.ltb_ge (v mod 128 + 128) 128)) by dlia. rewrite P2. cbn [mbind option_bind]. do 2 f_equal. dlia.
    + rewrite write_varint_last, u8_small by lia. destruct (wrote_wr dst p v) as (d & -> & W); [lia|unfold in_u; lia|]. cbn [mbind option_bind]. exists d, (p + 1), [v].
      split; [done|]. split; [done|]. split; [cbn; lia|]. intros rest. cbn [app parse_varint32]. by decide_bool.
Qed.

Lemma compress_bound_small N : 0 <= N < 2 ^ 32 -> carquet_snappy_compress_bound N = 32 + N + N / 6.
Proof. intros H. unfold carquet_snappy_compress_bound. apply u64_small. dlia. Qed.

Lemma compress_written s dst cap : bytes_ok s -> lenZ s < 2 ^ 32 -> cap <= lenZ dst -> carquet_snappy_compress_bound (lenZ s) <= cap ->
  exists dst' n bs, carquet_snappy_compress (Some s) (lenZ s) (Some dst) cap true = Some (CARQUET_OK, Some (dst', n)) /\
    wrote dst 0 dst' n bs /\ snappy_denote bs = Some s /\ n <= carquet_snappy_compress_bound (lenZ s).
Proof.
  intros Hs HN Hcap Hb. unfold carquet_snappy_compress. cbn [negb]. rewrite compress_bound_small in * by lia. decide_bool.
  set (N := lenZ s) in *. rewrite u32_small by lia. unfold snappy_write_varint.
  destruct (write_varint_written 4 5 dst 0 N) as (d1 & p1 & hd & -> & W1 & L1 & P1); [change (7 * Z.of_nat 5 - 3) with 32; lia|lia|lia|dlia|].
  cbn [mbind option_bind]. change (Z.of_nat 5) with 5 in L1. pose proof (wrote_length _ _ _ _ _ W1) as WL. pose proof (wrote_op _ _ _ _ _ W1) as WO.
  destruct (Z.eqb_spec N 0) as [E0|E0].
  - exists d1, p1, hd. split; [done|]. split; [done|]. split; [|dlia]. specialize (P1 []). rewrite app_nil_r in P1.
    unfold snappy_denote. destruct hd as [|x hd]; [cbn in L1; lia|]. rewrite P1. cbn [mbind option_bind]. unfold N in E0.
    destruct s; [|cbn in E0; lia]. done.
  - destruct (compress_blocks_written s N d1 p1) with (fuel := Z.to_nat N) (pos := 0) (dst := d1) (op := p1) (bs := @nil Z)
      as (d2 & o2 & bs & -> & W2 & P2 & B2); [done|lia|lia|dlia|lia|lia|apply wrote_refl|rewrite take_0; constructor|cbn; rewrite (proj2 (Z.eqb_neq 0 N)) by lia; lia|].
    cbn [mbind option_bind]. exists d2, o2, (hd ++ bs). split; [done|]. split; [exact (snappy_wrote_trans _ _ _ _ _ _ _ _ W1 W2)|].
    pose proof (wrote_op _ _ _ _ _ W2) as WO2. split; [|dlia].
    unfold snappy_denote. specialize (P1 bs). destruct hd as [|x hd]; [cbn in L1; lia|]. cbn [app] in *. rewrite P1. cbn [mbind option_bind].
    unfold N in P2. rewrite take_ge in P2 by lia. exact (produces_run _ _ _ P2 (length bs) ltac:(lia)).
Qed.

(** C2: Snappy round trip.  For every input below 4 GiB the compressor either refuses a
    destination smaller than [carquet_snappy_compress_bound] or succeeds without an access
    outside its source and destination, writes at most the bound, and what it wrote, with
    whatever bytes follow in the buffer, decompresses (with or without the vector shuffle)
    to exactly the input, into any destination with room for it. *)
Theorem snappy_roundtrip s dst cap : bytes_ok s -> bytes_ok dst -> lenZ s < 2 ^ 32 -> cap <= lenZ dst ->
  let r := carquet_snappy_compress (Some s) (lenZ s) (Some dst) cap true in
  if cap <? carquet_snappy_compress_bound (lenZ s) then r = Some (CARQUET_ERROR_COMPRESSION, None)
  else exists dst' n, r = Some (CARQUET_OK, Some (dst', n)) /\ 0 <= n <= carquet_snappy_compress_bound (lenZ s) /\
    length dst' = length dst /\
    forall vec out cap', lenZ s <= cap' <= lenZ out ->
      carquet_snappy_decompress vec (Some dst') n (Some out) cap' true =
        Some (CARQUET_OK, Some (s ++ drop (length s) out, lenZ s)).
Proof.
  intros Hs Hd HN Hcap r. destruct (Z.ltb_spec cap (carquet_snappy_compress_bound (lenZ s))) as [L|L].
  - unfold r, carquet_snappy_compress. cbn [negb]. by decide_bool.
  - destruct (compress_written s dst cap) as (dst' & n & bs & E & W & D & B); try done. exists dst', n. split; [done|].
    destruct W as [WL WO WT WB]. split; [lia|]. split; [done|]. intros vec out cap' Hc.
    pose proof (decompress_denotes vec dst' n out cap' (WB Hd)) as X. rewrite compress_bound_small in B, L by lia.
    specialize (X ltac:(lia) ltac:(lia)). cbv zeta in X. rewrite WT in X. change (take (Z.to_nat 0) dst) with (@nil Z) in X. cbn [app] in X.
    rewrite D in X. rewrite (proj2 (Z.leb_le _ _)) in X by lia. destruct X as (o & -> & ->). done.
Qed.

Lemma snappy_roundtrip_witness :
  let s := mjoin (replicate 12 [97; 98; 99]) in
  exists dst' n, carquet_snappy_compress (Some s) 36 (Some (replicate 80 0)) 80 true = Some (CARQUET_OK, Some (dst', n)) /\
    carquet_snappy_decompress false (Some dst') n (Some s) 36 true = Some (CARQUET_OK, Some (s, 36)).
Proof.
  intros s. destruct (snappy_roundtrip s (replicate 80 0) 80) as (dst' & n & E & _ & _ & D).
  - apply (bool_decide_unpack _). vm_compute. exact I.
  - apply Forall_replicate. unfold in_u. lia.
  - vm_compute. reflexivity.
  - vm_compute. discriminate.
  - exists dst', n. split; [exact E|]. apply (D false s 36). vm_compute. split; discriminate.
Defined.
