(* ===== verification/DeltaStrings.v ===== *)
(** * DELTA_LENGTH_BYTE_ARRAY and DELTA_BYTE_ARRAY (carquet/encoding/delta_length.c, delta_strings.c)

    Byte arrays as DELTA_BINARY_PACKED lengths followed by the bytes, and the incremental
    form that shares prefixes with the previous string.  Temporary arrays come from the
    allocator; the decoded strings are slices of the page, or of the caller's work buffer
    for the incremental form.  [DeltaStringsRoundtrip] proves the program below. *)

From S2P Require Import Prelude Memory Status Endian Buffer Dispatch Bitpack Delta Plain.

(** [lengths[i] < 0] fails, otherwise the sum in [size_t]. *)
Fixpoint sum_lengths (lengths : list Z) (total : Z) : option Z :=
  match lengths with
  | [] => Some total
  | l :: lengths => if l <? 0 then None else sum_lengths lengths (u64 (total + l))
  end.

(** [values[i].data = byte_data + offset; offset += lengths[i]] *)
Fixpoint slice_lengths (lengths : list Z) (byte_data offset : Z) : list byte_slice :=
  match lengths with
  | [] => []
  | l :: lengths => mk_slice (byte_data + offset) l :: slice_lengths lengths byte_data (offset + l)
  end.

Section DeltaLength.
Context {A : Allocator} {K : UnpackKernels}.

(** ** DELTA_LENGTH_BYTE_ARRAY *)

(** The status, and on success the values and [*bytes_consumed]. *)
Definition carquet_delta_length_decode (data : option (list Z)) (data_size : Z) (has_values : bool) (num_values : Z)
    : option (carquet_status_t * option (list byte_slice * Z)) :=
  match data with
  | Some data =>
      if (num_values <? 0) || ((num_values >? 0) && negb has_values) then Some (CARQUET_ERROR_INVALID_ARGUMENT, None) else
      if num_values =? 0 then
        '(s, r) ← carquet_delta_decode_int32 data data_size 0;
        match r with
        | Some (_, hdr_consumed) => Some (CARQUET_OK, Some ([], hdr_consumed))
        | None => Some (s, None)
        end
      else
        match mem_malloc (num_values * 4) with
        | None => Some (CARQUET_ERROR_OUT_OF_MEMORY, None)
        | Some _ =>
            '(status, r) ← carquet_delta_decode_int32 data data_size num_values;
            match r with
            | None => Some (status, None)
            | Some (lengths, lengths_consumed) =>
                match sum_lengths lengths 0 with
                | None => Some (CARQUET_ERROR_DECODE, None)
                | Some total_data_size =>
                    if u64 (lengths_consumed + total_data_size) >? data_size then Some (CARQUET_ERROR_DECODE, None)
                    else Some (CARQUET_OK, Some (slice_lengths lengths lengths_consumed 0, u64 (lengths_consumed + total_data_size)))
                end
            end
        end
  | None => Some (CARQUET_ERROR_INVALID_ARGUMENT, None)
  end.

(** [if (values[i].length > 0 && values[i].data) append(...)] for each value. *)
Fixpoint append_arrays (vs : list carquet_byte_array_t) (output : carquet_buffer_t)
    : option (carquet_status_t * carquet_buffer_t) :=
  match vs with
  | [] => Some (CARQUET_OK, output)
  | v :: vs =>
      '(status, output) ←
        match ba_data v with
        | Some p => if ba_length v >? 0 then bs ← rd_n p 0 (ba_length v); Some (carquet_buffer_append output bs)
                    else Some (CARQUET_OK, output)
        | None => Some (CARQUET_OK, output)
        end;
      if negb (is_ok status) then Some (status, output) else append_arrays vs output
  end.

(** Delta-encode [values] into the array [buffer] and append what was written. *)
Definition append_delta (values buffer : list Z) (capacity : Z) (output : carquet_buffer_t)
    : option (carquet_status_t * list Z * carquet_buffer_t) :=
  '(status, buffer, written) ← carquet_delta_encode_int32 values buffer capacity;
  match written with
  | None => Some (status, buffer, output)
  | Some n =>
      bs ← rd_n buffer 0 n;
      let '(status, output) := carquet_buffer_append output bs in
      Some (status, buffer, output)
  end.

(** The uninitialised stack array [uint8_t header[64]]. *)
Definition header_array : list Z := replicate 64 0.

Definition carquet_delta_length_encode (values : option (list carquet_byte_array_t)) (num_values : Z) (output : carquet_buffer_t)
    : option (carquet_status_t * carquet_buffer_t) :=
  if (num_values <? 0) || ((num_values >? 0) && bool_decide (values = None)) then Some (CARQUET_ERROR_INVALID_ARGUMENT, output) else
  if num_values =? 0 then
    '(s, _, output) ← append_delta [] header_array 64 output;
    Some (s, output)
  else
    vs ← rd_n (default [] values) 0 num_values;
    match mem_malloc (num_values * 4) with
    | None => Some (CARQUET_ERROR_OUT_OF_MEMORY, output)
    | Some _ =>
        let lengths := ba_length <$> vs in
        let lengths_capacity := u64 (u64 num_values * 10 + 100) in
        match mem_malloc lengths_capacity with
        | None => Some (CARQUET_ERROR_OUT_OF_MEMORY, output)
        | Some lengths_buffer =>
            '(status, _, output) ← append_delta lengths lengths_buffer lengths_capacity output;
            if negb (is_ok status) then Some (status, output) else append_arrays vs output
        end
    end.

Definition carquet_delta_length_max_encoded_size (values : option (list carquet_byte_array_t)) (num_values : Z) : option Z :=
  match values with
  | None => Some 0
  | Some p =>
      if num_values <=? 0 then Some 0 else
      vs ← rd_n p 0 num_values;
      let total_data_size := foldl (λ t v, u64 (t + u64 (ba_length v))) 0 vs in
      Some (u64 (total_data_size + u64 (num_values * 5 + 100)))
  end.

(** ** DELTA_BYTE_ARRAY *)

(** The loop of [common_prefix_length]: [prefix_len] when the bytes differ or end. *)
Fixpoint prefix_loop (n : nat) (a b : list Z) (i : Z) : option Z :=
  match n with
  | O => Some i
  | S n =>
      x ← rd a i;
      y ← rd b i;
      if negb (x =? y) then Some i else prefix_loop n a b (i + 1)
  end.

Definition common_prefix_length (a : list Z) (a_len : Z) (b : list Z) (b_len : Z) : option Z :=
  let min_len := if a_len <? b_len then a_len else b_len in
  prefix_loop (Z.to_nat min_len) a b 0.

(** Both negativity checks and the sum of the suffix lengths. *)
Fixpoint sum_suffixes (prefix_lengths suffix_lengths : list Z) (total : Z) : option Z :=
  match prefix_lengths, suffix_lengths with
  | p :: ps, s :: ss => if (s <? 0) || (p <? 0) then None else sum_suffixes ps ss (u64 (total + s))
  | _, _ => Some total
  end.

(** The reconstruction loop.  [prev] is the previous string in the work buffer.  The two lengths
    are added as [int32_t], which must not overflow. *)
Fixpoint reconstruct (prefix_lengths suffix_lengths : list Z) (suffix_data : list Z) (suffix_offset : Z)
    (work : list Z) (work_buffer_size work_offset : Z) (prev : option (Z * Z))
    : option (carquet_status_t * list byte_slice * list Z) :=
  match prefix_lengths, suffix_lengths with
  | prefix_len :: ps, suffix_len :: ss =>
      sum ← sint 32 (prefix_len + suffix_len);
      let total_len := u32 sum in
      if u64 (work_offset + total_len) >? work_buffer_size then Some (CARQUET_ERROR_OUT_OF_MEMORY, [], work) else
      let dest := work_offset in
      let bad := match prev with None => true | Some (_, prev_len) => prefix_len >? i32 prev_len end in
      if (prefix_len >? 0) && bad then Some (CARQUET_ERROR_DECODE, [], work) else
      work ← (if prefix_len >? 0 then
                match prev with
                | Some (prev_string, _) => bs ← rd_n work prev_string prefix_len; wr_n work dest bs
                | None => None
                end
              else Some work);
      work ← (if suffix_len >? 0 then bs ← rd_n suffix_data suffix_offset suffix_len; wr_n work (dest + prefix_len) bs
              else Some work);
      let suffix_offset := if suffix_len >? 0 then suffix_offset + suffix_len else suffix_offset in
      '(status, rest, work) ← reconstruct ps ss suffix_data suffix_offset work work_buffer_size (work_offset + total_len) (Some (dest, total_len));
      Some (status, mk_slice dest (i32 total_len) :: rest, work)
  | _, _ => Some (CARQUET_OK, [], work)
  end.

(** The two length arrays and the position after them, or the status that ends the call. *)
Definition decode_both_lengths (data : list Z) (data_size num_values : Z)
    : option (carquet_status_t * option (list Z * list Z * Z)) :=
  match mem_malloc (num_values * 4), mem_malloc (num_values * 4) with
  | Some _, Some _ =>
      '(status, r) ← carquet_delta_decode_int32 data data_size num_values;
      match r with
      | None => Some (status, None)
      | Some (prefix_lengths, consumed) =>
          let pos := consumed in
          '(status, r) ← carquet_delta_decode_int32 (ptr_add data pos) (data_size - pos) num_values;
          match r with
          | None => Some (status, None)
          | Some (suffix_lengths, consumed) => Some (CARQUET_OK, Some (prefix_lengths, suffix_lengths, pos + consumed))
          end
      end
  | _, _ => Some (CARQUET_ERROR_OUT_OF_MEMORY, None)
  end.

(** The status, the values (slices of the work buffer), the work buffer and
    [*bytes_consumed]. *)
Definition carquet_delta_strings_decode (data : option (list Z)) (data_size : Z) (has_values : bool) (num_values : Z)
    (work_buffer : list Z) (work_buffer_size : Z) : option (carquet_status_t * option (list byte_slice * Z) * list Z) :=
  match data with
  | Some data =>
      if (num_values <? 0) || ((num_values >? 0) && negb has_values)
      then Some (CARQUET_ERROR_INVALID_ARGUMENT, None, work_buffer) else
      if num_values =? 0 then
        '(s, r) ← carquet_delta_decode_int32 data data_size 0;
        match r with
        | None => Some (s, None, work_buffer)
        | Some (_, c1) =>
            '(s, r) ← carquet_delta_decode_int32 (ptr_add data c1) (data_size - c1) 0;
            match r with
            | None => Some (s, None, work_buffer)
            | Some (_, c2) => Some (CARQUET_OK, Some ([], c1 + c2), work_buffer)
            end
        end
      else
        '(status, r) ← decode_both_lengths data data_size num_values;
        match r with
        | None => Some (status, None, work_buffer)
        | Some (prefix_lengths, suffix_lengths, pos) =>
            match sum_suffixes prefix_lengths suffix_lengths 0 with
            | None => Some (CARQUET_ERROR_DECODE, None, work_buffer)
            | Some total_suffix_size =>
                if u64 (pos + total_suffix_size) >? data_size then Some (CARQUET_ERROR_DECODE, None, work_buffer) else
                '(status, values, work_buffer) ←
                  reconstruct prefix_lengths suffix_lengths (ptr_add data pos) 0 work_buffer work_buffer_size 0 None;
                if negb (is_ok status) then Some (status, None, work_buffer)
                else Some (CARQUET_OK, Some (values, u64 (pos + total_suffix_size)), work_buffer)
            end
        end
  | None => Some (CARQUET_ERROR_INVALID_ARGUMENT, None, work_buffer)
  end.

Fixpoint sum_both (prefix_lengths suffix_lengths : list Z) (total : Z) : option Z :=
  match prefix_lengths, suffix_lengths with
  | p :: ps, s :: ss => if (p <? 0) || (s <? 0) then None else sum_both ps ss (u64 (total + u64 (p + s)))
  | _, _ => Some total
  end.

Definition carquet_delta_strings_decoded_size (data : option (list Z)) (data_size num_values : Z) (has_required_size : bool)
    : option (carquet_status_t * option Z) :=
  match data with
  | Some data =>
      if negb has_required_size || (num_values <=? 0) then Some (CARQUET_ERROR_INVALID_ARGUMENT, None) else
      '(status, r) ← decode_both_lengths data data_size num_values;
      match r with
      | None => Some (status, None)
      | Some (prefix_lengths, suffix_lengths, _) =>
          match sum_both prefix_lengths suffix_lengths 0 with
          | None => Some (CARQUET_ERROR_DECODE, None)
          | Some total => Some (CARQUET_OK, Some total)
          end
      end
  | None => Some (CARQUET_ERROR_INVALID_ARGUMENT, None)
  end.

(** The bytes a pointer reads: none through NULL. *)
Definition pointee (v : carquet_byte_array_t) : list Z := default [] (ba_data v).

(** The prefix and suffix lengths; [prev] is [None] for the first value. *)
Fixpoint split_lengths (prev : option carquet_byte_array_t) (vs : list carquet_byte_array_t) : option (list Z * list Z) :=
  match vs with
  | [] => Some ([], [])
  | v :: vs =>
      prefix_len ← match prev with
                   | None => Some 0
                   | Some p => common_prefix_length (pointee p) (u32 (ba_length p)) (pointee v) (u32 (ba_length v))
                   end;
      suffix_len ← sint 32 (ba_length v - prefix_len);
      '(ps, ss) ← split_lengths (Some v) vs;
      Some (prefix_len :: ps, suffix_len :: ss)
  end.

(** The suffix bytes; the prefix lengths are computed again. *)
Fixpoint append_suffixes (prev : option carquet_byte_array_t) (vs : list carquet_byte_array_t) (suffix_lengths : list Z)
    (output : carquet_buffer_t) : option (carquet_status_t * carquet_buffer_t) :=
  match vs, suffix_lengths with
  | v :: vs, suffix_len :: ss =>
      prefix_len ← match prev with
                   | None => Some 0
                   | Some p => common_prefix_length (pointee p) (u32 (ba_length p)) (pointee v) (u32 (ba_length v))
                   end;
      '(status, output) ←
        match ba_data v with
        | Some p => if suffix_len >? 0 then bs ← rd_n p prefix_len suffix_len; Some (carquet_buffer_append output bs)
                    else Some (CARQUET_OK, output)
        | None => Some (CARQUET_OK, output)
        end;
      if negb (is_ok status) then Some (status, output) else append_suffixes (Some v) vs ss output
  | _, _ => Some (CARQUET_OK, output)
  end.

Definition carquet_delta_strings_encode (values : option (list carquet_byte_array_t)) (num_values : Z) (output : carquet_buffer_t)
    : option (carquet_status_t * carquet_buffer_t) :=
  if (num_values <? 0) || ((num_values >? 0) && bool_decide (values = None)) then Some (CARQUET_ERROR_INVALID_ARGUMENT, output) else
  if num_values =? 0 then
    '(s, header, written) ← carquet_delta_encode_int32 [] header_array 64;
    match written with
    | None => Some (s, output)
    | Some n =>
        bs ← rd_n header 0 n;
        let '(s, output) := carquet_buffer_append output bs in
        if negb (is_ok s) then Some (s, output) else Some (carquet_buffer_append output bs)
    end
  else
    vs ← rd_n (default [] values) 0 num_values;
    match mem_malloc (num_values * 4), mem_malloc (num_values * 4) with
    | Some _, Some _ =>
        '(prefix_lengths, suffix_lengths) ← split_lengths None vs;
        let delta_capacity := u64 (u64 num_values * 10 + 100) in
        match mem_malloc delta_capacity with
        | None => Some (CARQUET_ERROR_OUT_OF_MEMORY, output)
        | Some delta_buffer =>
            '(status, delta_buffer, output) ← append_delta prefix_lengths delta_buffer delta_capacity output;
            if negb (is_ok status) then Some (status, output) else
            '(status, _, output) ← append_delta suffix_lengths delta_buffer delta_capacity output;
            if negb (is_ok status) then Some (status, output) else append_suffixes None vs suffix_lengths output
        end
    | _, _ => Some (CARQUET_ERROR_OUT_OF_MEMORY, output)
    end.

(** The sum of the lengths, in [size_t]. *)
Definition carquet_delta_strings_work_buffer_size (values : option (list carquet_byte_array_t)) (num_values : Z) : option Z :=
  match values with
  | None => Some 0
  | Some p => if num_values <=? 0 then Some 0 else
              vs ← rd_n p 0 num_values; Some (foldl (λ t v, u64 (t + u64 (ba_length v))) 0 vs)
  end.

Definition carquet_delta_strings_max_encoded_size (values : option (list carquet_byte_array_t)) (num_values : Z) : option Z :=
  match values with
  | None => Some 0
  | Some p =>
      if num_values <=? 0 then Some 0 else
      vs ← rd_n p 0 num_values;
      Some (u64 (foldl (λ t v, u64 (t + u64 (ba_length v))) 0 vs + u64 (num_values * 10 + 200)))
  end.

End DeltaLength.
