(* ===== verification/DeltaStringsRoundtrip.v ===== *)
(** * DELTA_LENGTH_BYTE_ARRAY and DELTA_BYTE_ARRAY: decoding what was encoded

    The fixed-size delta scratch buffer is large enough for strings below 4 MiB, encoding
    then fails only for lack of memory, and decoding returns the strings; on arbitrary
    bytes the decoders stay inside the page and the work buffer. *)

From S2P Require Import Prelude Memory Status Endian Buffer Dispatch Bitpack RleDecode Delta DeltaDecode DeltaRoundtrip Plain PlainRoundtrip DeltaStrings.

(** ** The scratch capacity

    The encoders give the delta encoder [10 * n + 100] bytes. *)

Lemma length_uleb_small k v : (1 <= k <= 10)%nat -> 0 <= v < 2 ^ (7 * Z.of_nat k) -> (length (uleb v) <= k)%nat.
Proof.
  intros Hk Hv. unfold uleb. rewrite (uleb_n_enough k 10) by lia. apply length_uleb_n. lia.
Qed.

Lemma min_of_spec (P : Z -> Prop) ds : forall d0, P d0 -> Forall P ds ->
  P (min_of d0 ds) /\ min_of d0 ds <= d0 /\ Forall (λ d, min_of d0 ds <= d) ds.
Proof.
  unfold min_of. induction ds as [|d ds IH]; intros d0 H0 Hds; cbn [foldl]; [by repeat split|].
  apply Forall_cons_iff in Hds as [Hd Hds]. set (m := if d <? d0 then d else d0).
  assert (P m /\ m <= d0 /\ m <= d) as (Hm & ? & ?) by (unfold m; destruct (Z.ltb_spec d d0); auto with lia).
  destruct (IH m Hm Hds) as (? & ? & F). split; [done|]. split; [lia|]. constructor; [lia|done].
Qed.

(** Deltas of lengths below 2^22. *)
Definition small_delta (d : Z) : Prop := - 2 ^ 22 < d < 2 ^ 22.

Lemma width_of_le v k : 0 <= k -> 0 <= v < 2 ^ k -> width_of v <= k.
Proof.
  intros Hk Hv. unfold width_of. destruct (Z.eqb_spec v 0); [lia|]. assert (Z.log2 v < k) by (apply Z.log2_lt_pow2; lia). lia.
Qed.

Lemma max_adjusted_lt m ds b : 0 < b -> Forall (λ d, adjusted m d < b) ds -> 0 <= max_adjusted m ds < b.
Proof.
  intros Hb H. unfold max_adjusted. set (f := λ m0 d, if adjusted m d >? m0 then adjusted m d else m0).
  assert (forall a, 0 <= a < b -> 0 <= foldl f a ds < b) as G; [|apply G; lia].
  induction ds as [|d ds IH]; intros a Ha; cbn [foldl]; [done|]. apply Forall_cons_iff in H as [Hd H]. apply IH; [done|]. unfold f.
  pose proof (adjusted_range m d) as R. unfold in_u in R. rewrite Z.gtb_ltb. destruct (Z.ltb_spec a (adjusted m d)); lia.
Qed.

Lemma adjusted_small m d : small_delta m -> small_delta d -> m <= d -> adjusted m d < 2 ^ 23.
Proof.
  unfold small_delta. intros Hm Hd Hle. unfold adjusted, u64. rewrite <- Zminus_mod. rewrite Z.mod_small by lia. lia.
Qed.

Lemma slice_bytes_small m ds mb : small_delta m -> Forall (λ d, small_delta d /\ m <= d) ds ->
  lenZ (slice_data m ds mb) <= if bool_decide (mb * 32 < length ds)%nat then 92 else 0.
Proof.
  intros Hm Hds. destruct (slice_data_length m ds mb) as [-> _]. set (sl := mini_slice ds mb).
  assert (mini_w m sl <= 23) as W.
  { unfold mini_w. apply width_of_le; [lia|]. apply max_adjusted_lt; [lia|]. unfold sl, mini_slice.
    eapply Forall_impl; [|apply Forall_take, Forall_drop, Hds]. intros d [? ?]. by apply adjusted_small. }
  destruct (mini_w_spec m sl) as [[W0 _] _]. unfold mini_bytes_needed. change DELTA_MINI_BLOCK_SIZE with 32. rewrite Z.gtb_ltb.
  destruct (bool_decide_reflect (mb * 32 < length ds)%nat) as [H|H].
  - destruct (Z.ltb_spec 0 (mini_w m sl)); [|lia]. rewrite (proj2 (Z.leb_le (mini_w m sl) 32)) by lia. dlia.
  - assert (sl = []) as E by (unfold sl, mini_slice; by rewrite drop_ge by lia). rewrite E, mini_w_nil. cbn. lia.
Qed.

Lemma block_room_small ds : Forall small_delta ds -> ds <> [] -> (length ds <= 128)%nat ->
  14 + lenZ (datas 4 (minimum ds) ds) <= 10 * lenZ ds + 96 /\ (length ds = 128%nat -> 14 + lenZ (datas 4 (minimum ds) ds) <= 10 * lenZ ds).
Proof.
  intros Hds Hne Hl. destruct ds as [|d0 ds]; [done|]. apply Forall_cons_iff in Hds as [H0 Hds]. cbn [minimum].
  destruct (min_of_spec small_delta ds d0 H0 Hds) as (Hm & Hle & Hall). set (m := min_of d0 ds) in *. rewrite datas_slices.
  assert (Forall (λ d, small_delta d /\ m <= d) (d0 :: ds)) as HF.
  { constructor; [done|]. by apply Forall_and. }
  pose proof (slice_bytes_small m (d0 :: ds) 0 Hm HF) as S0. pose proof (slice_bytes_small m (d0 :: ds) 1 Hm HF) as S1.
  pose proof (slice_bytes_small m (d0 :: ds) 2 Hm HF) as S2. pose proof (slice_bytes_small m (d0 :: ds) 3 Hm HF) as S3.
  rewrite !length_app. cbn [length] in *. repeat case_bool_decide; lia.
Qed.

Lemma room_small n : forall ds, (length ds <= n)%nat -> Forall small_delta ds -> room n ds <= 10 * lenZ ds + 96.
Proof.
  induction n as [|n IH]; intros ds Hn Hds; cbn [room]; [lia|].
  destruct (decide (ds = [])) as [->|Hne]; [rewrite bool_decide_true by done; cbn; lia|]. rewrite bool_decide_false by done.
  assert (0 < length ds)%nat by (destruct ds; [done|cbn; lia]).
  destruct (block_room_small (take 128 ds)) as [B1 B2];
    [by apply Forall_take|intros E; apply (f_equal length) in E; rewrite length_take in E; change (length (@nil Z)) with 0%nat in E; lia|rewrite length_take; lia|].
  rewrite length_take in B1, B2. destruct (decide (length ds <= 128)%nat).
  - rewrite (drop_ge ds) by done. rewrite (room_fuel n 0) by (cbn; lia). cbn [room]. lia.
  - specialize (IH (drop 128 ds)). rewrite length_drop in IH. specialize (IH ltac:(lia) ltac:(by apply Forall_drop)). lia.
Qed.

Definition small_length (l : Z) : Prop := 0 <= l < 2 ^ 22.

Lemma deltas_small last vs : small_length last -> Forall small_length vs -> Forall small_delta (deltas_from last vs).
Proof.
  unfold small_length, small_delta. intros Hl Hvs. revert last Hl. induction Hvs as [|v vs Hv _ IH]; intros last Hl; cbn [deltas_from]; [constructor|].
  constructor; [|by apply IH]. rewrite (u64_small v), (u64_small last) by lia.
  assert (i64 (u64 (v - last)) = v - last) as -> by (apply (wrap_signed_of_mod 64); [lia|unfold in_i; lia]). lia.
Qed.

(** The scratch buffer is large enough. *)
Lemma delta_room_small vs : Forall small_length vs -> lenZ vs < 2 ^ 31 -> delta_room vs <= lenZ vs * 10 + 100.
Proof.
  intros Hvs Hn. destruct vs as [|v0 vs]; cbn [delta_room]; [cbn; lia|]. apply Forall_cons_iff in Hvs as [H0 Hvs].
  pose proof (room_small (length vs) (deltas_from v0 vs) ltac:(by rewrite length_deltas_from) (deltas_small v0 vs H0 Hvs)) as R.
  rewrite length_deltas_from in R. unfold delta_header. rewrite !length_app. change (length (uleb 128)) with 2%nat. change (length (uleb 4)) with 1%nat.
  unfold small_length in H0. pose proof (length_uleb_small 5 (lenZ (v0 :: vs)) ltac:(lia) ltac:(change (7 * Z.of_nat 5) with 35; lia)).
  pose proof (length_uleb_small 4 (carquet_zigzag_encode64 v0) ltac:(lia)) as L4.
  rewrite zigzag_encode64_arith in L4 |- * by (unfold in_i; lia). rewrite (proj2 (Z.ltb_ge v0 0)) in L4 |- * by lia.
  change (7 * Z.of_nat 4) with 28 in L4. cbn [length] in *. specialize (L4 ltac:(lia)). lia.
Qed.

Section Roundtrip.
Context {A : Allocator} {AOk : AllocatorOk A} {K : UnpackKernels} {KOk : UnpackKernelsOk K}.

(** The delta-encoded array on the output, or the reason it is not there. *)
Lemma append_delta_spec vs buffer cap b : Forall (in_i 32) vs -> lenZ vs < 2 ^ 31 -> bytes_ok buffer -> cap <= lenZ buffer < 2 ^ 63 -> buffer_wf b ->
  exists s buf' b', append_delta vs buffer cap b = Some (s, buf', b') /\ buffer_wf b' /\
    ((s = CARQUET_ERROR_ENCODE /\ (cap < 40 \/ cap < delta_room vs)) \/ s = CARQUET_ERROR_OUT_OF_MEMORY \/
     (s = CARQUET_OK /\ buf_bytes b' = buf_bytes b ++ delta_bytes vs /\ lenZ buf' = lenZ buffer /\ bytes_ok buf')).
Proof.
  intros Hvs Hn Hb Hc W. assert (Forall (in_i 64) vs) as H64 by (eapply Forall_impl; [|exact Hvs]; intros x; unfold in_i; lia).
  unfold append_delta, carquet_delta_encode_int32.
  destruct (delta_encode_spec buffer cap ltac:(lia) vs H64 Hn) as [(d' & -> & HE)|[-> HL]]; cbn [mbind option_bind].
  { exists CARQUET_ERROR_ENCODE, d', b. split; [done|]. split; [done|]. by left. }
  rewrite rd_n_Some by (rewrite ?length_app; lia). cbn [mbind option_bind]. change (Z.to_nat 0) with 0%nat. rewrite drop_0, Nat2Z.id, take_app_length.
  pose proof (delta_bytes_ok vs H64) as Hd. pose proof (append_appends b (delta_bytes vs) W Hd ltac:(lia)) as [W' H].
  destruct (carquet_buffer_append b (delta_bytes vs)) as [s b']. cbn in W', H. eexists _, _, _. split; [done|]. split; [done|].
  destruct H as [[-> EB]| ->]; [|right; by left]. right. right. split; [done|]. split; [done|]. split.
  - rewrite length_app, length_drop. lia.
  - apply Forall_app_2; [done|by apply Forall_drop].
Qed.

(** ** DELTA_LENGTH_BYTE_ARRAY *)

Definition vals (vs : list carquet_byte_array_t) : list (list Z) := array_val <$> vs.

Lemma append_arrays_appends vs : Forall array_ok vs -> forall b, buffer_wf b ->
  exists r, append_arrays vs b = Some r /\ appends b (concat (vals vs)) r.
Proof.
  induction 1 as [|v vs Hv _ IH]; intros b W; cbn [append_arrays vals fmap list_fmap concat].
  { eexists. split; [done|]. split; [done|]. left. by rewrite app_nil_r. }
  destruct (array_body_appends v b Hv W) as ([s2 b2] & -> & W2 & H2). cbn [mbind option_bind]. cbn in W2, H2.
  destruct H2 as [[-> E2]| ->]; cbn [is_ok CARQUET_FAILED negb]; [|eexists; split; [done|]; split; auto].
  destruct (IH b2 W2) as (r & -> & W3 & H3). eexists. split; [done|]. split; [done|].
  destruct H3 as [[? E3]|?]; [left|by right]. split; [done|]. by rewrite E3, E2, app_assoc.
Qed.

Lemma lengths_vals vs : Forall array_ok vs -> ba_length <$> vs = (λ v, lenZ v) <$> vals vs.
Proof. induction 1 as [|v vs Hv _ IH]; cbn; [done|]. rewrite length_array_val by done. f_equal. exact IH. Qed.

Lemma sum_lengths_spec (ws : list (list Z)) : forall t, 0 <= t -> t + lenZ (concat ws) < 2 ^ 64 ->
  sum_lengths ((λ v, lenZ v) <$> ws) t = Some (t + lenZ (concat ws)).
Proof.
  induction ws as [|w ws IH]; intros t Ht Hl; cbn [fmap list_fmap sum_lengths concat] in *; [by rewrite Z.add_0_r|].
  rewrite length_app in *. rewrite (proj2 (Z.ltb_ge (lenZ w) 0)) by lia. rewrite u64_small, IH by lia. f_equal. lia.
Qed.

Lemma slice_lengths_spec data r base (ws : list (list Z)) : forall off, 0 <= base + off -> ptr_add data (base + off) = concat ws ++ r ->
  slice_of data <$> slice_lengths ((λ v, lenZ v) <$> ws) base off = ws.
Proof.
  induction ws as [|w ws IH]; intros off Ho E; cbn [fmap list_fmap slice_lengths concat] in *; [done|]. rewrite <- app_assoc in E. f_equal.
  - unfold slice_of. cbn. fold (ptr_add data (base + off)). by rewrite E, Nat2Z.id, take_app_length.
  - apply IH; [lia|]. rewrite Z.add_assoc, <- ptr_add_add, E by lia. by apply ptr_add_app.
Qed.

Definition delta_length_bytes (vs : list carquet_byte_array_t) : list Z := delta_bytes (ba_length <$> vs) ++ concat (vals vs).

Lemma lengths_in_range vs : Forall array_ok vs -> Forall (in_i 32) (ba_length <$> vs).
Proof. intros H. apply Forall_fmap. eapply Forall_impl; [|exact H]. intros v [Hv _]. unfold in_i, compose. lia. Qed.

Lemma vals_ok vs : Forall array_ok vs -> bytes_ok (concat (vals vs)).
Proof. induction 1 as [|v vs Hv _ IH]; cbn; [constructor|]. apply Forall_app_2; [by apply array_val_ok|done]. Qed.

Lemma delta_length_decode_spec vs r size : Forall array_ok vs -> lenZ vs < 2 ^ 31 -> lenZ (concat (vals vs)) < 2 ^ 62 -> bytes_ok r ->
  is_Some (mem_malloc (lenZ vs * 4)) -> size < 2 ^ 63 ->
  lenZ (delta_length_bytes vs) <= size <= lenZ (delta_length_bytes vs ++ r) ->
  exists out, carquet_delta_length_decode (Some (delta_length_bytes vs ++ r)) size true (lenZ vs) =
    Some (CARQUET_OK, Some (out, lenZ (delta_length_bytes vs))) /\ slice_of (delta_length_bytes vs ++ r) <$> out = vals vs.
Proof.
  intros Hv Hn Hc Hr [blk Hm] Hs63 Hs. unfold carquet_delta_length_decode. rewrite (proj2 (Z.ltb_ge (lenZ vs) 0)) by lia. rewrite andb_false_r. cbn [orb].
  unfold delta_length_bytes in *. rewrite <- app_assoc in *. set (hd := delta_bytes (ba_length <$> vs)) in *. set (body := concat (vals vs)) in *.
  rewrite !length_app in Hs. assert (lenZ (ba_length <$> vs) = lenZ vs) as Ln by (by rewrite length_fmap).
  assert (carquet_delta_decode_int32 (hd ++ body ++ r) size (lenZ vs) = Some (CARQUET_OK, Some (ba_length <$> vs, lenZ hd))) as ED.
  { rewrite <- Ln. apply delta_decode32_bytes; [by apply lengths_in_range|apply Forall_app_2; [by apply vals_ok|done]|lia|]. fold hd. rewrite !length_app. lia. }
  rewrite length_app. destruct (Z.eqb_spec (lenZ vs) 0) as [E0|E0].
  - destruct vs; [|cbn in E0; lia]. change (lenZ []) with 0 in ED. rewrite ED. cbn [mbind option_bind]. exists []. split; [|done]. cbn. do 3 f_equal; lia.
  - rewrite Hm, ED. cbn [mbind option_bind]. rewrite lengths_vals, sum_lengths_spec by (try done; fold body; lia). rewrite Z.add_0_l. fold body.
    rewrite u64_small by lia. rewrite Z.gtb_ltb, (proj2 (Z.ltb_ge size _)) by lia. rewrite Nat2Z.inj_add. eexists. split; [done|].
    apply (slice_lengths_spec _ r); [lia|]. rewrite Z.add_0_r. by apply ptr_add_app.
Qed.

(** DELTA_LENGTH_BYTE_ARRAY round trip.  Encoding byte arrays into any buffer, with
    any allocator, fails only for lack of memory or, when some array has 4 MiB or more,
    because the delta scratch buffer is too small; otherwise it appends bytes from which
    the decoder returns slices of exactly those arrays and the exact byte count, whatever
    follows. *)
Theorem delta_length_roundtrip vs b : Forall array_ok vs -> lenZ vs < 2 ^ 31 -> lenZ (concat (vals vs)) < 2 ^ 62 -> buffer_wf b ->
  exists s b', carquet_delta_length_encode (Some vs) (lenZ vs) b = Some (s, b') /\ buffer_wf b' /\
    (s = CARQUET_ERROR_OUT_OF_MEMORY \/
     (s = CARQUET_ERROR_ENCODE /\ ~ Forall (λ v, ba_length v < 2 ^ 22) vs) \/
     (s = CARQUET_OK /\ exists bs, buf_bytes b' = buf_bytes b ++ bs /\
        forall r size, bytes_ok r -> is_Some (mem_malloc (lenZ vs * 4)) -> lenZ bs <= size <= lenZ (bs ++ r) -> size < 2 ^ 63 ->
          exists out, carquet_delta_length_decode (Some (bs ++ r)) size true (lenZ vs) = Some (CARQUET_OK, Some (out, lenZ bs)) /\
            slice_of (bs ++ r) <$> out = array_val <$> vs)).
Proof.
  intros Hv Hn Hc W. unfold carquet_delta_length_encode. rewrite (proj2 (Z.ltb_ge (lenZ vs) 0)) by lia. rewrite bool_decide_false by done.
  rewrite andb_false_r. cbn [orb]. pose proof (lengths_in_range vs Hv) as Hl. assert (lenZ (ba_length <$> vs) = lenZ vs) as Ln by (by rewrite length_fmap).
  assert (forall b', buf_bytes b' = buf_bytes b ++ delta_length_bytes vs -> exists bs, buf_bytes b' = buf_bytes b ++ bs /\
        forall r size, bytes_ok r -> is_Some (mem_malloc (lenZ vs * 4)) -> lenZ bs <= size <= lenZ (bs ++ r) -> size < 2 ^ 63 ->
          exists out, carquet_delta_length_decode (Some (bs ++ r)) size true (lenZ vs) = Some (CARQUET_OK, Some (out, lenZ bs)) /\
            slice_of (bs ++ r) <$> out = array_val <$> vs) as Fin.
  { intros b' EB. exists (delta_length_bytes vs). split; [done|]. intros. by apply delta_length_decode_spec. }
  destruct (Z.eqb_spec (lenZ vs) 0) as [E0|E0].
  - destruct vs; [|cbn in E0; lia]. destruct (append_delta_spec [] header_array 64 b) as (s & buf & b' & -> & W' & H); try done.
    { apply Forall_replicate. unfold in_u. lia. }
    cbn [mbind option_bind]. exists s, b'. split; [done|]. split; [done|]. destruct H as [[_ H]|[H|(-> & EB & _)]]; [cbn in H; lia|by left|].
    right. right. split; [done|]. apply Fin. unfold delta_length_bytes. cbn [vals fmap list_fmap concat]. by rewrite app_nil_r.
  - cbn [default]. rewrite rd_n_all. cbn [mbind option_bind]. destruct (mem_malloc (lenZ vs * 4)) as [blk|]; [|by exists CARQUET_ERROR_OUT_OF_MEMORY, b; auto].
    rewrite (u64_small (lenZ vs)), u64_small by lia. destruct (mem_malloc (lenZ vs * 10 + 100)) as [buf|] eqn:Em; [|by exists CARQUET_ERROR_OUT_OF_MEMORY, b; auto].
    apply mem_malloc_spec in Em as [Lb Bb].
    destruct (append_delta_spec (ba_length <$> vs) buf (lenZ vs * 10 + 100) b) as (s & buf' & b1 & -> & W1 & H); try done; try lia. cbn [mbind option_bind].
    destruct H as [[-> H]|[-> |(-> & EB & _)]]; cbn [is_ok CARQUET_FAILED negb]; [|by eexists _, _; auto|].
    + eexists _, _. split; [done|]. split; [done|]. right. left. split; [done|]. intros F.
      assert (Forall small_length (ba_length <$> vs)) as Hsm.
      { apply Forall_fmap. eapply Forall_impl; [|exact (Forall_and Hv F)]. intros v [[? _] ?]. unfold small_length, compose. lia. }
      pose proof (delta_room_small _ Hsm ltac:(lia)). lia.
    + destruct (append_arrays_appends vs Hv b1 W1) as ([s2 b2] & -> & W2 & H2). cbn in W2, H2. exists s2, b2. split; [done|]. split; [done|].
      destruct H2 as [[-> E2]| ->]; [|by left]. right. right. split; [done|]. apply Fin. unfold delta_length_bytes. by rewrite E2, EB, app_assoc.
Qed.
(** ** DELTA_BYTE_ARRAY *)

(** [ks] are lengths of prefixes each string shares with the one before it. *)
Inductive shares : option (list Z) -> list (list Z) -> list Z -> Prop :=
  | shares_nil prev : shares prev [] []
  | shares_cons prev v ws k ks :
      0 <= k <= lenZ v ->
      match prev with None => k = 0 | Some p => k <= lenZ p /\ take (Z.to_nat k) p = take (Z.to_nat k) v end ->
      shares (Some v) ws ks -> shares prev (v :: ws) (k :: ks).

Definition suffixes (ws : list (list Z)) (ks : list Z) : list (list Z) := zip_with (λ v k, drop (Z.to_nat k) v) ws ks.

Lemma prefix_loop_spec n : forall a b i, 0 <= i -> i + Z.of_nat n <= lenZ a -> i + Z.of_nat n <= lenZ b -> take (Z.to_nat i) a = take (Z.to_nat i) b ->
  exists k, prefix_loop n a b i = Some k /\ i <= k <= i + Z.of_nat n /\ take (Z.to_nat k) a = take (Z.to_nat k) b.
Proof.
  induction n as [|n IH]; intros a b i Hi Ha Hb E; cbn [prefix_loop]; [exists i; split; [done|]; split; [lia|done]|].
  destruct (rd_Some a i) as [x Hx]; [lia|]. destruct (rd_Some b i) as [y Hy]; [lia|]. rewrite Hx, Hy. cbn [mbind option_bind].
  destruct (Z.eqb_spec x y) as [->|]; cbn [negb]; [|exists i; split; [done|]; split; [lia|done]].
  destruct (IH a b (i + 1)) as (k & -> & Hk & Ek); [lia|lia|lia| |exists k; split; [done|]; split; [lia|done]].
  rewrite rd_lookup in Hx, Hy by lia. replace (Z.to_nat (i + 1)) with (S (Z.to_nat i)) by lia.
  by rewrite (take_S_r _ _ _ Hx), (take_S_r _ _ _ Hy), E.
Qed.

Lemma common_prefix_spec p v : array_ok p -> array_ok v ->
  exists k, common_prefix_length (pointee p) (u32 (ba_length p)) (pointee v) (u32 (ba_length v)) = Some k /\
    0 <= k <= lenZ (array_val v) /\ k <= lenZ (array_val p) /\ take (Z.to_nat k) (array_val p) = take (Z.to_nat k) (array_val v).
Proof.
  intros Hp Hv. unfold common_prefix_length. rewrite !length_array_val by done.
  rewrite !u32_small by (destruct Hp, Hv; lia).
  assert (forall x, array_ok x -> 0 <= ba_length x <= lenZ (pointee x)) as HB.
  { intros x [Hl Hd]. unfold pointee. destruct (ba_data x); cbn; [unfold id; lia|lia]. }
  pose proof (HB p Hp). pose proof (HB v Hv). set (m := if ba_length p <? ba_length v then _ else _).
  assert (0 <= m <= ba_length p /\ m <= ba_length v) as [Hm1 Hm2] by (unfold m; destruct (Z.ltb_spec (ba_length p) (ba_length v)); lia).
  destruct (prefix_loop_spec (Z.to_nat m) (pointee p) (pointee v) 0) as (k & -> & Hk & E); [lia|lia|lia|done|].
  exists k. split; [done|]. split; [lia|]. split; [lia|]. unfold array_val. rewrite !take_take, !Nat.min_l by lia. exact E.
Qed.

Lemma split_lengths_spec vs : Forall array_ok vs -> forall prev, match prev with Some p => array_ok p | None => True end ->
  exists ks, split_lengths prev vs = Some (ks, (λ v, lenZ v) <$> suffixes (vals vs) ks) /\ shares (array_val <$> prev) (vals vs) ks /\
    forall b, buffer_wf b -> exists r, append_suffixes prev vs ((λ v, lenZ v) <$> suffixes (vals vs) ks) b = Some r /\
      appends b (concat (suffixes (vals vs) ks)) r.
Proof.
  induction 1 as [|v vs Hv _ IH]; intros prev Hp; cbn [split_lengths vals fmap list_fmap].
  { exists []. split; [done|]. split; [constructor|]. intros b W. eexists. split; [done|]. split; [done|]. left. cbn. by rewrite app_nil_r. }
  assert (exists k, match prev with None => Some 0 | Some p => common_prefix_length (pointee p) (u32 (ba_length p)) (pointee v) (u32 (ba_length v)) end = Some k /\
    0 <= k <= lenZ (array_val v) /\ match array_val <$> prev with None => k = 0 | Some p => k <= lenZ p /\ take (Z.to_nat k) p = take (Z.to_nat k) (array_val v) end)
    as (k & E & Hk & Hs).
  { destruct prev as [p|]; [|exists 0; split; [done|]; split; [lia|done]].
    destruct (common_prefix_spec p v Hp Hv) as (k & -> & H1 & H2 & H3). exists k. split; [done|]. split; [done|]. by split. }
  destruct (IH (Some v) Hv) as (ks & E2 & S2 & A2). exists (k :: ks). cbn [suffixes zip_with fmap list_fmap concat]. fold (suffixes (vals vs) ks).
  pose proof (length_array_val v Hv) as Lv. destruct (Hv) as [Hl Hd].
  assert (ba_length v - k = lenZ (drop (Z.to_nat k) (array_val v))) as ES by (rewrite length_drop; lia).
  rewrite E. cbn [mbind option_bind]. rewrite ES, sint_Some by (unfold in_i; lia). cbn [mbind option_bind]. rewrite E2. cbn [mbind option_bind].
  split; [done|]. split; [by constructor|]. intros b W. cbn [append_suffixes]. rewrite E. cbn [mbind option_bind].
  assert (exists r, match ba_data v with
        | Some p => if lenZ (drop (Z.to_nat k) (array_val v)) >? 0 then bs ← rd_n p k (lenZ (drop (Z.to_nat k) (array_val v))); Some (carquet_buffer_append b bs)
                    else Some (CARQUET_OK, b)
        | None => Some (CARQUET_OK, b) end = Some r /\ appends b (drop (Z.to_nat k) (array_val v)) r) as ([s2 b2] & -> & W2 & H2).
  { assert (lenZ (drop (Z.to_nat k) (array_val v)) = 0 -> appends b (drop (Z.to_nat k) (array_val v)) (CARQUET_OK, b)) as Nil.
    { intros Hz. assert (drop (Z.to_nat k) (array_val v) = []) as -> by (apply nil_length_inv; lia).
      split; [done|]. left. by rewrite app_nil_r. }
    destruct (ba_data v) as [p|] eqn:Ed.
    - rewrite Z.gtb_ltb. destruct (Z.ltb_spec 0 (lenZ (drop (Z.to_nat k) (array_val v)))); [|eexists; split; [done|]; apply Nil; lia].
      rewrite length_drop in *. rewrite rd_n_Some by lia. cbn [mbind option_bind]. eexists. split; [done|].
      assert (take (Z.to_nat (Z.of_nat (length (array_val v) - Z.to_nat k))) (drop (Z.to_nat k) p) = drop (Z.to_nat k) (array_val v)) as ->.
      { unfold array_val. rewrite Ed. cbn [default]. unfold id. rewrite skipn_firstn_comm. f_equal. rewrite length_take. lia. }
      apply append_appends; [done|by apply Forall_drop, array_val_ok|rewrite length_drop; lia].
    - eexists. split; [done|]. apply Nil. rewrite length_drop. lia. }
  cbn [mbind option_bind]. cbn in W2, H2. destruct H2 as [[-> EB]| ->]; cbn [is_ok CARQUET_FAILED negb]; [|eexists; split; [done|]; split; auto].
  destruct (A2 b2 W2) as (r & E3' & W3 & H3). exists r. split; [exact E3'|]. split; [done|].
  destruct H3 as [[? E3]|?]; [left|by right]. split; [done|]. rewrite E3, EB. apply eq_sym, app_assoc.
Qed.

Lemma shares_lengths prev ws ks : shares prev ws ks -> Forall (λ v, lenZ v < 2 ^ 31) ws ->
  length ks = length ws /\ Forall (in_i 32) ks /\ Forall (in_i 32) ((λ v, lenZ v) <$> suffixes ws ks) /\
  (Forall (λ v, lenZ v < 2 ^ 22) ws -> Forall small_length ks /\ Forall small_length ((λ v, lenZ v) <$> suffixes ws ks)).
Proof.
  induction 1 as [|prev v ws k ks Hk _ _ IH]; intros Hw; [by repeat split; constructor|].
  apply Forall_cons_iff in Hw as [Hv Hw]. destruct (IH Hw) as (L & F1 & F2 & F3). cbn [suffixes zip_with fmap list_fmap length].
  split; [lia|]. split; [constructor; [unfold in_i; lia|done]|]. split; [constructor; [unfold in_i; rewrite length_drop; lia|done]|].
  intros Hs. apply Forall_cons_iff in Hs as [Hs1 Hs]. destruct (F3 Hs). split; constructor; try done; unfold small_length; rewrite ?length_drop; lia.
Qed.

(** A guarded copy: nothing is read or written for zero bytes. *)
Lemma guarded_copy (rdr : option (list Z)) work w bs : 0 <= w -> w + lenZ bs <= lenZ work -> (0 < lenZ bs -> rdr = Some bs) ->
  exists work', (if lenZ bs >? 0 then bs ← rdr; wr_n work w bs else Some work) = Some work' /\
    take (Z.to_nat (w + lenZ bs)) work' = take (Z.to_nat w) work ++ bs /\ lenZ work' = lenZ work.
Proof.
  intros Hw Hl Hr. rewrite Z.gtb_ltb. destruct (Z.ltb_spec 0 (lenZ bs)) as [H|H].
  - rewrite Hr by done. cbn [mbind option_bind]. destruct (wr_n_total work w bs Hw Hl) as [work' E]. exists work'. split; [done|].
    split; [|by apply length_wr_n in E; f_equal]. rewrite (take_wr_n _ _ _ _ (lenZ bs) E) by lia. by rewrite Nat2Z.id, firstn_all.
  - assert (bs = []) as -> by (apply nil_length_inv; lia). exists work. cbn. by rewrite Z.add_0_r, app_nil_r.
Qed.

(** The previous string where the reconstruction loop finds it. *)
Definition prev_at (prev : option (list Z)) (pv : option (Z * Z)) (work : list Z) (w : Z) : Prop :=
  match prev, pv with
  | None, None => True
  | Some p, Some (po, pl) => 0 <= po /\ pl = lenZ p /\ pl < 2 ^ 31 /\ po + pl <= w /\ slice_of work (mk_slice po pl) = p
  | _, _ => False
  end.

Lemma slice_of_take work work' k po pl : 0 <= po -> 0 <= pl -> po + pl <= k -> take (Z.to_nat k) work = take (Z.to_nat k) work' ->
  slice_of work (mk_slice po pl) = slice_of work' (mk_slice po pl).
Proof.
  intros Hpo Hpl Hk E. unfold slice_of. cbn. assert (forall l : list Z, take (Z.to_nat pl) (drop (Z.to_nat po) l) = drop (Z.to_nat po) (take (Z.to_nat (po + pl)) (take (Z.to_nat k) l))) as G.
  { intros l. rewrite take_take, Nat.min_l by lia. rewrite skipn_firstn_comm. f_equal. lia. }
  by rewrite !G, E.
Qed.

Lemma slice_of_end work w v : 0 <= w <= lenZ work -> take (Z.to_nat (w + lenZ v)) work = take (Z.to_nat w) work ++ v ->
  slice_of work (mk_slice w (lenZ v)) = v.
Proof.
  intros Hw E. unfold slice_of. cbn. rewrite firstn_skipn_comm. replace (Z.to_nat w + Z.to_nat (lenZ v))%nat with (Z.to_nat (w + lenZ v)) by lia.
  rewrite E. rewrite drop_app_length' by (rewrite length_take; lia). done.
Qed.

Lemma reconstruct_spec prev ws ks : shares prev ws ks -> Forall (λ v, lenZ v < 2 ^ 31) ws ->
  forall data r soff work size w pv, 0 <= soff -> ptr_add data soff = concat (suffixes ws ks) ++ r ->
    0 <= w -> w + lenZ (concat ws) <= size -> size <= lenZ work -> size < 2 ^ 63 -> prev_at prev pv work w ->
  exists out work', reconstruct ks ((λ v, lenZ v) <$> suffixes ws ks) data soff work size w pv = Some (CARQUET_OK, out, work') /\
    take (Z.to_nat w) work' = take (Z.to_nat w) work /\ lenZ work' = lenZ work /\ slice_of work' <$> out = ws.
Proof.
  induction 1 as [|prev v ws k ks Hk Hp _ IH]; intros Hws data r soff work size w pv Hso ED Hw Hfit Hsz Hs63 HP;
    [by exists [], work|]. apply Forall_cons_iff in Hws as [Hv Hws].
  cbn [suffixes zip_with fmap list_fmap reconstruct concat] in *. fold (suffixes ws ks) in *. rewrite length_app in Hfit.
  set (sfx := drop (Z.to_nat k) v) in *. set (pfx := take (Z.to_nat k) v).
  assert (lenZ pfx = k) as Lp by (unfold pfx; rewrite length_take; lia). assert (lenZ sfx = lenZ v - k) as Ls by (unfold sfx; rewrite length_drop; lia).
  assert (pfx ++ sfx = v) as Ev by apply take_drop.
  rewrite sint_Some by (unfold in_i; lia). cbn [mbind option_bind]. rewrite (u32_small (k + lenZ sfx)) by lia. replace (k + lenZ sfx) with (lenZ v) by lia. rewrite u64_small by lia.
  rewrite (Z.gtb_ltb (w + _)), (proj2 (Z.ltb_ge size _)) by lia.
  assert ((k >? 0) && match pv with None => true | Some (_, pl) => k >? i32 pl end = false) as ->.
  { rewrite Z.gtb_ltb. destruct (Z.ltb_spec 0 k); [|done]. destruct prev as [p|]; [|lia]. destruct pv as [[po pl]|]; [|done].
    destruct HP as (? & -> & ? & ? & ?). unfold i32. rewrite wrap_signed_small by (unfold in_i; lia). rewrite Z.gtb_ltb. apply Z.ltb_ge. lia. }
  destruct (guarded_copy (match pv with Some (po, _) => rd_n work po k | None => None end) work w pfx) as (work1 & E1 & T1 & L1); [lia|lia| |].
  { rewrite Lp. intros Hk0. destruct prev as [p|]; [|lia]. destruct pv as [[po pl]|]; [|done]. destruct HP as (? & -> & ? & ? & HS). destruct Hp as [? HT].
    rewrite rd_n_Some by lia. f_equal. unfold pfx. rewrite <- HT. rewrite <- HS. unfold slice_of. cbn. by rewrite take_take, Nat.min_l by lia. }
  rewrite Lp in E1, T1.
  replace (if k >? 0 then match pv with Some (po, _) => bs ← rd_n work po k; wr_n work w bs | None => None end else Some work) with (Some work1)
    by (rewrite <- E1; destruct pv as [[? ?]|]; done). cbn [mbind option_bind].
  destruct (guarded_copy (rd_n data soff (lenZ sfx)) work1 (w + k) sfx) as (work2 & -> & T2 & L2); [lia|lia| |].
  { intros H0. assert (lenZ (ptr_add data soff) = lenZ ((sfx ++ concat (suffixes ws ks)) ++ r)) as LL by by rewrite ED.
    rewrite !length_app in LL. unfold ptr_add in LL, ED. rewrite length_drop in LL.
    rewrite rd_n_Some by lia. rewrite ED, Nat2Z.id, <- app_assoc. by rewrite take_app_length. }
  cbn [mbind option_bind]. replace (w + k + lenZ sfx) with (w + lenZ v) in T2 by lia. rewrite T1, <- app_assoc, Ev in T2.
  destruct (IH Hws data r (if lenZ sfx >? 0 then soff + lenZ sfx else soff) work2 size (w + lenZ v) (Some (w, lenZ v))) as (out & work' & -> & T3 & L3 & S3).
  - destruct (lenZ sfx >? 0); lia.
  - rewrite <- app_assoc in ED. rewrite Z.gtb_ltb. destruct (Z.ltb_spec 0 (lenZ sfx)).
    + rewrite <- ptr_add_add by lia. rewrite ED. by apply ptr_add_app.
    + assert (sfx = []) as E0 by (apply nil_length_inv; lia). by rewrite E0 in ED.
  - lia.
  - lia.
  - lia.
  - done.
  - cbn. split; [lia|]. split; [done|]. split; [lia|]. split; [lia|]. apply slice_of_end; [lia|].
    rewrite T2. f_equal. replace (take (Z.to_nat w) work) with (take (Z.to_nat w) (take (Z.to_nat (w + lenZ v)) work2)); [by rewrite take_take, Nat.min_l by lia|].
    rewrite T2. apply take_app_length'. rewrite length_take. lia.
  - cbn [mbind option_bind]. eexists _, _. split; [done|].
    assert (take (Z.to_nat w) work' = take (Z.to_nat w) work) as TW.
    { replace (take (Z.to_nat w) work') with (take (Z.to_nat w) (take (Z.to_nat (w + lenZ v)) work')); [|by rewrite take_take, Nat.min_l by lia].
      rewrite T3, T2. apply take_app_length'. rewrite length_take. lia. }
    split; [done|]. split; [lia|]. cbn [fmap list_fmap]. f_equal; [|done].
    unfold i32. rewrite wrap_signed_small by (unfold in_i; lia). apply slice_of_end; [lia|]. by rewrite T3, T2, TW.
Qed.

Lemma concat_suffixes_le prev ws ks : shares prev ws ks -> lenZ (concat (suffixes ws ks)) <= lenZ (concat ws).
Proof.
  induction 1 as [|prev v ws k ks Hk _ _ IH]; cbn [suffixes zip_with concat]; [lia|]. fold (suffixes ws ks). rewrite !length_app, length_drop. lia.
Qed.

Lemma sum_suffixes_spec prev ws ks : shares prev ws ks -> forall t, 0 <= t -> t + lenZ (concat ws) < 2 ^ 64 ->
  sum_suffixes ks ((λ v, lenZ v) <$> suffixes ws ks) t = Some (t + lenZ (concat (suffixes ws ks))).
Proof.
  induction 1 as [|prev v ws k ks Hk _ _ IH]; intros t Ht Hl; cbn [suffixes zip_with fmap list_fmap sum_suffixes concat] in *; [by rewrite Z.add_0_r|].
  fold (suffixes ws ks) in *. rewrite length_app in *. rewrite length_drop in *. rewrite (proj2 (Z.ltb_ge k 0)), (proj2 (Z.ltb_ge _ 0)) by lia. cbn [orb].
  rewrite u64_small, IH by lia. f_equal. lia.
Qed.

Lemma sum_both_spec prev ws ks : shares prev ws ks -> forall t, 0 <= t -> t + lenZ (concat ws) < 2 ^ 64 ->
  sum_both ks ((λ v, lenZ v) <$> suffixes ws ks) t = Some (t + lenZ (concat ws)).
Proof.
  induction 1 as [|prev v ws k ks Hk _ _ IH]; intros t Ht Hl; cbn [suffixes zip_with fmap list_fmap sum_both concat] in *; [by rewrite Z.add_0_r|].
  fold (suffixes ws ks) in *. rewrite length_app in *. rewrite length_drop. rewrite (proj2 (Z.ltb_ge k 0)), (proj2 (Z.ltb_ge _ 0)) by lia. cbn [orb].
  rewrite (u64_small (k + _)), u64_small, IH by lia. f_equal. lia.
Qed.

(** The encoded form: prefix lengths, suffix lengths, suffixes. *)
Definition delta_strings_bytes (ws : list (list Z)) (ks : list Z) : list Z :=
  delta_bytes ks ++ delta_bytes ((λ v, lenZ v) <$> suffixes ws ks) ++ concat (suffixes ws ks).

Lemma suffixes_ok ws : Forall bytes_ok ws -> forall ks, bytes_ok (concat (suffixes ws ks)).
Proof.
  induction 1 as [|w ws Hw _ IH]; intros [|k ks]; cbn [suffixes zip_with concat]; try constructor. apply Forall_app_2; [by apply Forall_drop|apply IH].
Qed.

Lemma in_i_32_64 vs : Forall (in_i 32) vs -> Forall (in_i 64) vs.
Proof. intros H. eapply Forall_impl; [|exact H]. intros x. unfold in_i. lia. Qed.

(** What the delta-encoded lengths decode to, inside a page. *)
Lemma decode32_inside vs r size n : Forall (in_i 32) vs -> bytes_ok r -> lenZ vs = n -> n < 2 ^ 31 ->
  lenZ (delta_bytes vs) <= size <= lenZ (delta_bytes vs ++ r) -> size < 2 ^ 63 ->
  carquet_delta_decode_int32 (delta_bytes vs ++ r) size n = Some (CARQUET_OK, Some (vs, lenZ (delta_bytes vs))).
Proof. intros Hv Hr <- Hn Hs H63. by apply delta_decode32_bytes. Qed.

Section Strings.
Context (prev : option (list Z)) (ws : list (list Z)) (ks : list Z) (r : list Z) (size : Z).
Context (HS : shares prev ws ks) (Hw : Forall (λ v, lenZ v < 2 ^ 31) ws) (Hb : Forall bytes_ok ws) (Hr : bytes_ok r).
Context (Hn : lenZ ws < 2 ^ 31) (Hs : lenZ (delta_strings_bytes ws ks) <= size <= lenZ (delta_strings_bytes ws ks ++ r)) (H63 : size < 2 ^ 63).

Lemma decode_lengths_spec :
  carquet_delta_decode_int32 (delta_strings_bytes ws ks ++ r) size (lenZ ws) = Some (CARQUET_OK, Some (ks, lenZ (delta_bytes ks))) /\
  carquet_delta_decode_int32 (ptr_add (delta_strings_bytes ws ks ++ r) (lenZ (delta_bytes ks))) (size - lenZ (delta_bytes ks)) (lenZ ws) =
    Some (CARQUET_OK, Some ((λ v, lenZ v) <$> suffixes ws ks, lenZ (delta_bytes ((λ v, lenZ v) <$> suffixes ws ks)))) /\
  ptr_add (delta_strings_bytes ws ks ++ r) (lenZ (delta_bytes ks) + lenZ (delta_bytes ((λ v, lenZ v) <$> suffixes ws ks))) = concat (suffixes ws ks) ++ r.
Proof.
  destruct (shares_lengths _ _ _ HS Hw) as (L & F1 & F2 & _). pose proof (suffixes_ok ws Hb ks) as Hsb.
  assert (length ((λ v, lenZ v) <$> suffixes ws ks) = length ws) as L2 by (rewrite length_fmap; unfold suffixes; rewrite length_zip_with; lia).
  pose proof (delta_bytes_ok _ (in_i_32_64 _ F2)) as Hd2. unfold delta_strings_bytes in *. set (d2 := delta_bytes (_ <$> _)) in *. set (d1 := delta_bytes ks) in *.
  rewrite <- !app_assoc in *. rewrite !length_app in Hs. split; [|split].
  - apply decode32_inside; try done; [|by rewrite L|fold d1; rewrite !length_app; lia]. repeat apply Forall_app_2; done.
  - rewrite ptr_add_app by done. apply decode32_inside; try done; [by apply Forall_app_2|by rewrite L2|fold d2; rewrite !length_app; lia|lia].
  - rewrite <- ptr_add_add by lia. by rewrite !ptr_add_app.
Qed.

Lemma decode_both_spec : is_Some (mem_malloc (lenZ ws * 4)) ->
  decode_both_lengths (delta_strings_bytes ws ks ++ r) size (lenZ ws) =
    Some (CARQUET_OK, Some (ks, (λ v, lenZ v) <$> suffixes ws ks, lenZ (delta_bytes ks) + lenZ (delta_bytes ((λ v, lenZ v) <$> suffixes ws ks)))).
Proof.
  intros [blk Hm]. destruct decode_lengths_spec as (E1 & E2 & _). unfold decode_both_lengths. rewrite Hm, E1. cbn [mbind option_bind].
  rewrite E2. cbn [mbind option_bind]. done.
Qed.

Lemma decoded_size_spec : is_Some (mem_malloc (lenZ ws * 4)) -> ws <> [] -> lenZ (concat ws) < 2 ^ 62 ->
  carquet_delta_strings_decoded_size (Some (delta_strings_bytes ws ks ++ r)) size (lenZ ws) true = Some (CARQUET_OK, Some (lenZ (concat ws))).
Proof.
  intros Hm Hne Hc. unfold carquet_delta_strings_decoded_size. assert (0 < lenZ ws) by (destruct ws; [done|cbn; lia]).
  rewrite (proj2 (Z.leb_gt (lenZ ws) 0)) by lia. cbn [orb negb]. rewrite decode_both_spec by done. cbn [mbind option_bind].
  by rewrite (sum_both_spec prev) by (done || lia).
Qed.

Lemma strings_decode_spec work wsize : is_Some (mem_malloc (lenZ ws * 4)) -> lenZ (concat ws) <= wsize -> wsize <= lenZ work -> wsize < 2 ^ 62 -> prev = None ->
  exists out work', carquet_delta_strings_decode (Some (delta_strings_bytes ws ks ++ r)) size true (lenZ ws) work wsize =
    Some (CARQUET_OK, Some (out, lenZ (delta_strings_bytes ws ks)), work') /\ slice_of work' <$> out = ws.
Proof.
  intros Hm Hc1 Hc2 Hc3 Ep. unfold carquet_delta_strings_decode. rewrite (proj2 (Z.ltb_ge (lenZ ws) 0)) by lia. rewrite andb_false_r. cbn [orb].
  destruct decode_lengths_spec as (E1 & E2 & E3). pose proof (concat_suffixes_le _ _ _ HS).
  assert (lenZ (delta_strings_bytes ws ks) = lenZ (delta_bytes ks) + lenZ (delta_bytes ((λ v, lenZ v) <$> suffixes ws ks)) + lenZ (concat (suffixes ws ks))) as LL
    by (unfold delta_strings_bytes; rewrite !length_app; lia).
  destruct (Z.eqb_spec (lenZ ws) 0) as [E0|E0].
  - rewrite E0 in E1, E2. rewrite E1. cbn [mbind option_bind]. rewrite E2. cbn [mbind option_bind]. destruct ws; [|cbn in E0; lia].
    exists [], work. split; [|done]. rewrite LL. change (lenZ (concat (suffixes [] ks))) with 0. by rewrite Z.add_0_r.
  - rewrite decode_both_spec by done. cbn [mbind option_bind]. rewrite (sum_suffixes_spec prev) by (done || lia). rewrite Z.add_0_l.
    rewrite u64_small by lia. rewrite (Z.gtb_ltb _ size), (proj2 (Z.ltb_ge size _)) by lia.
    destruct (reconstruct_spec prev ws ks HS Hw _ r 0 work wsize 0 None ltac:(lia) ltac:(unfold ptr_add at 1; rewrite drop_0; exact E3)) as (out & work' & -> & _ & _ & Es);
      [lia|lia|done|lia|by rewrite Ep|]. cbn [mbind option_bind is_ok CARQUET_FAILED negb]. exists out, work'. split; [|done]. by rewrite LL.
Qed.

End Strings.

Lemma array_vals_ok vs : Forall array_ok vs -> Forall (λ v, lenZ v < 2 ^ 31) (vals vs) /\ Forall bytes_ok (vals vs).
Proof.
  intros H. split; apply Forall_fmap; (eapply Forall_impl; [|exact H]); intros v Hv; unfold compose; [|by apply array_val_ok].
  rewrite length_array_val by done. destruct Hv as [Hv _]. lia.
Qed.

Lemma small_vals vs : Forall array_ok vs -> Forall (λ v, ba_length v < 2 ^ 22) vs -> Forall (λ v, lenZ v < 2 ^ 22) (vals vs).
Proof.
  intros H1 H2. apply Forall_fmap. eapply Forall_impl; [|exact (Forall_and H1 H2)]. intros v [Hv ?]. unfold compose. by rewrite length_array_val.
Qed.

(** The encoder, on every branch. *)
Lemma strings_encode_spec vs b : Forall array_ok vs -> lenZ vs < 2 ^ 31 -> buffer_wf b ->
  exists s b' ks, carquet_delta_strings_encode (Some vs) (lenZ vs) b = Some (s, b') /\ buffer_wf b' /\ shares None (vals vs) ks /\
    (s = CARQUET_ERROR_OUT_OF_MEMORY \/ (s = CARQUET_ERROR_ENCODE /\ ~ Forall (λ v, ba_length v < 2 ^ 22) vs) \/
     (s = CARQUET_OK /\ buf_bytes b' = buf_bytes b ++ delta_strings_bytes (vals vs) ks)).
Proof.
  intros Hv Hn W. unfold carquet_delta_strings_encode. rewrite (proj2 (Z.ltb_ge (lenZ vs) 0)) by lia. rewrite bool_decide_false by done.
  rewrite andb_false_r. cbn [orb]. destruct (split_lengths_spec vs Hv None I) as (ks & ES & HS & AS).
  destruct (array_vals_ok vs Hv) as [Hv31 Hvb]. destruct (shares_lengths _ _ _ HS Hv31) as (L & F1 & F2 & F3).
  assert (length (vals vs) = length vs) as Lv by apply length_fmap.
  assert (length ((λ v, lenZ v) <$> suffixes (vals vs) ks) = length vs) as L2 by (rewrite length_fmap; unfold suffixes; rewrite length_zip_with; lia).
  destruct (Z.eqb_spec (lenZ vs) 0) as [E0|E0].
  - destruct vs; [|cbn in E0; lia]. destruct ks; [|cbn in L; lia].
    assert (carquet_delta_encode_int32 [] header_array 64 = Some (CARQUET_OK, delta_bytes [] ++ drop (length (delta_bytes [])) header_array, Some (lenZ (delta_bytes [])))) as -> by (by vm_compute).
    cbn [mbind option_bind]. rewrite rd_n_Some by (rewrite ?length_app; lia). cbn [mbind option_bind]. change (Z.to_nat 0) with 0%nat. rewrite drop_0, Nat2Z.id, take_app_length.
    assert (bytes_ok (delta_bytes [])) as Hd by (apply delta_bytes_ok; constructor). assert (lenZ (delta_bytes []) < 2 ^ 63) as Ld by (by vm_compute).
    assert (delta_strings_bytes (vals []) [] = delta_bytes [] ++ delta_bytes []) as EDS by (unfold delta_strings_bytes; cbn [vals suffixes fmap list_fmap zip_with concat]; by rewrite app_nil_r).
    generalize dependent (delta_bytes []). intros d0 Hd Ld EDS. destruct (append_appends b d0 W Hd ltac:(lia)) as [W1 H1]. destruct (carquet_buffer_append b d0) as [s1 b1]. cbn in W1, H1.
    destruct H1 as [[-> E1]| ->]; cbn [is_ok CARQUET_FAILED negb]; [|eexists _, _, []; split; [reflexivity|by auto 8]].
    destruct (append_appends b1 d0 W1 Hd ltac:(lia)) as [W2 H2]. destruct (carquet_buffer_append b1 d0) as [s2 b2]. cbn in W2, H2.
    eexists _, _, []. split; [done|]. split; [done|]. split; [done|]. destruct H2 as [[-> E2]| ->]; [|by left]. right. right. split; [done|].
    by rewrite E2, E1, EDS, app_assoc.
  - cbn [default]. rewrite rd_n_all. cbn [mbind option_bind]. destruct (mem_malloc (lenZ vs * 4)) as [blk|]; [|by exists CARQUET_ERROR_OUT_OF_MEMORY, b, ks; auto 8].
    rewrite ES. cbn [mbind option_bind]. rewrite (u64_small (lenZ vs)), u64_small by lia.
    destruct (mem_malloc (lenZ vs * 10 + 100)) as [buf|] eqn:Em; [|by exists CARQUET_ERROR_OUT_OF_MEMORY, b, ks; auto 8].
    apply mem_malloc_spec in Em as [Lb Bb]. set (ss := (λ v, lenZ v) <$> suffixes (vals vs) ks) in *.
    assert (forall xs, length xs = length vs -> (Forall (λ v, ba_length v < 2 ^ 22) vs -> Forall small_length xs) ->
      (lenZ vs * 10 + 100 < 40 \/ lenZ vs * 10 + 100 < delta_room xs) -> ~ Forall (λ v, ba_length v < 2 ^ 22) vs) as Room.
    { intros xs Lx Hx [?|HR] F; [lia|]. pose proof (delta_room_small xs (Hx F) ltac:(lia)). lia. }
    destruct (append_delta_spec ks buf (lenZ vs * 10 + 100) b) as (s & buf1 & b1 & -> & W1 & H1); try done; try lia. cbn [mbind option_bind].
    destruct H1 as [[-> H1]|[-> |(-> & E1 & L1 & B1)]]; cbn [is_ok CARQUET_FAILED negb]; [|eexists _, _, ks; split; [reflexivity|by auto 8]|].
    { eexists _, _, ks. split; [done|]. split; [done|]. split; [done|]. right. left. split; [done|]. apply (Room ks); [lia|intros F; exact (proj1 (F3 (small_vals vs Hv F)))|done]. }
    destruct (append_delta_spec ss buf1 (lenZ vs * 10 + 100) b1) as (s & buf2 & b2 & -> & W2 & H2); try done; try lia. cbn [mbind option_bind].
    destruct H2 as [[-> H2]|[-> |(-> & E2 & _)]]; cbn [is_ok CARQUET_FAILED negb]; [|eexists _, _, ks; split; [reflexivity|by auto 8]|].
    { eexists _, _, ks. split; [done|]. split; [done|]. split; [done|]. right. left. split; [done|]. apply (Room ss); [lia|intros F; exact (proj2 (F3 (small_vals vs Hv F)))|done]. }
    destruct (AS b2 W2) as ([s3 b3] & E3 & W3 & H3). rewrite E3. cbn in W3, H3. exists s3, b3, ks. split; [done|]. split; [done|]. split; [done|].
    destruct H3 as [[-> H3]| ->]; [|by left]. right. right. split; [done|]. rewrite H3, E2, E1. unfold delta_strings_bytes. by rewrite !app_assoc.
Qed.

(** C11: DELTA_BYTE_ARRAY round trip.  Encoding byte arrays into any buffer, with any
    allocator, fails only for lack of memory or, when some array has 4 MiB or more,
    because the delta scratch buffer is too small; otherwise it appends bytes for which
    carquet_delta_strings_decoded_size computes exactly the total length of the arrays, and
    from which, with a work buffer of at least that size, the decoder rebuilds exactly
    those arrays and reports the exact byte count, whatever follows. *)
Theorem delta_strings_roundtrip vs b : Forall array_ok vs -> lenZ vs < 2 ^ 31 -> lenZ (concat (vals vs)) < 2 ^ 62 -> buffer_wf b ->
  exists s b', carquet_delta_strings_encode (Some vs) (lenZ vs) b = Some (s, b') /\ buffer_wf b' /\
    (s = CARQUET_ERROR_OUT_OF_MEMORY \/
     (s = CARQUET_ERROR_ENCODE /\ ~ Forall (λ v, ba_length v < 2 ^ 22) vs) \/
     (s = CARQUET_OK /\ exists bs, buf_bytes b' = buf_bytes b ++ bs /\
        forall r size, bytes_ok r -> is_Some (mem_malloc (lenZ vs * 4)) -> lenZ bs <= size <= lenZ (bs ++ r) -> size < 2 ^ 63 ->
          (vs <> [] -> carquet_delta_strings_decoded_size (Some (bs ++ r)) size (lenZ vs) true = Some (CARQUET_OK, Some (lenZ (concat (vals vs))))) /\
          forall work wsize, lenZ (concat (vals vs)) <= wsize <= lenZ work -> wsize < 2 ^ 62 ->
            exists out work', carquet_delta_strings_decode (Some (bs ++ r)) size true (lenZ vs) work wsize = Some (CARQUET_OK, Some (out, lenZ bs), work') /\
              slice_of work' <$> out = array_val <$> vs)).
Proof.
  intros Hv Hn Hc W. destruct (strings_encode_spec vs b Hv Hn W) as (s & b' & ks & E & W' & HS & H). exists s, b'. split; [done|]. split; [done|].
  destruct H as [H|[H|[-> EB]]]; [by left|right; by left|]. right. right. split; [done|]. exists (delta_strings_bytes (vals vs) ks). split; [done|].
  intros r size Hr Hm Hs H63. destruct (array_vals_ok vs Hv) as [Hv31 Hvb]. assert (length (vals vs) = length vs) as Lv by apply length_fmap. rewrite <- Lv in *.
  split.
  - intros Hne. apply (decoded_size_spec None); try done. intros E0. apply fmap_nil_inv in E0. done.
  - intros work wsize [? ?] ?. by apply (strings_decode_spec None).
Qed.

(** ** Arbitrary bytes *)

Definition sum_z (ls : list Z) : Z := foldr Z.add 0 ls.

Lemma sum_z_bound ls : Forall (in_i 32) ls -> Forall (λ l, 0 <= l) ls -> 0 <= sum_z ls <= lenZ ls * 2 ^ 31.
Proof.
  intros H1 H2. induction ls as [|l ls IH]; cbn [sum_z foldr length]; [lia|]. apply Forall_cons_iff in H1 as [? H1]. apply Forall_cons_iff in H2 as [? H2].
  specialize (IH H1 H2). unfold sum_z, in_i in *. lia.
Qed.

Lemma sum_lengths_cases ls : Forall (in_i 32) ls -> forall t, 0 <= t -> t + lenZ ls * 2 ^ 31 < 2 ^ 63 ->
  sum_lengths ls t = None \/ (Forall (λ l, 0 <= l) ls /\ sum_lengths ls t = Some (t + sum_z ls)).
Proof.
  induction 1 as [|l ls Hl _ IH]; intros t Ht Hb; cbn [sum_lengths sum_z foldr length] in *; [right; by rewrite Z.add_0_r|].
  destruct (Z.ltb_spec l 0); [by left|]. unfold in_i in Hl. rewrite u64_small by lia. destruct (IH (t + l)) as [->|[F ->]]; [lia|lia|by left|].
  right. split; [by constructor|]. f_equal. unfold sum_z. lia.
Qed.

Lemma sum_suffixes_cases ps : forall ss t, length ps = length ss -> Forall (in_i 32) ps -> Forall (in_i 32) ss -> 0 <= t -> t + lenZ ss * 2 ^ 31 < 2 ^ 63 ->
  sum_suffixes ps ss t = None \/ (Forall (λ l, 0 <= l) ps /\ Forall (λ l, 0 <= l) ss /\ sum_suffixes ps ss t = Some (t + sum_z ss)).
Proof.
  induction ps as [|p ps IH]; intros [|s ss] t L Hps Hss Ht Hb; try discriminate L; cbn [sum_suffixes sum_z foldr length] in *;
    [right; by rewrite Z.add_0_r|].
  apply Forall_cons_iff in Hps as [Hp Hps]. apply Forall_cons_iff in Hss as [Hs Hss]. unfold in_i in Hp, Hs.
  destruct (Z.ltb_spec s 0); [by left|]. destruct (Z.ltb_spec p 0); [by left|]. cbn [orb]. rewrite u64_small by lia.
  destruct (IH ss (t + s)) as [->|(F1 & F2 & ->)]; try done; [lia|lia|lia|by left|]. right. split; [by constructor|]. split; [by constructor|]. f_equal. unfold sum_z. lia.
Qed.

(** A slice inside [lo, hi). *)
Definition slice_within (lo hi : Z) (s : byte_slice) : Prop := lo <= slice_off s /\ 0 <= slice_length s /\ slice_off s + slice_length s <= hi.

Lemma slice_lengths_within base hi ls : Forall (λ l, 0 <= l) ls -> forall off, 0 <= off -> base + off + sum_z ls <= hi ->
  Forall (slice_within base hi) (slice_lengths ls base off).
Proof.
  assert (forall ls, Forall (λ l, 0 <= l) ls -> 0 <= sum_z ls) as P by (induction 1; cbn [sum_z foldr]; unfold sum_z in *; lia).
  induction 1 as [|l ls Hl Hls IH]; intros off Ho Hh; cbn [slice_lengths sum_z foldr] in *; constructor.
  - specialize (P ls Hls). unfold slice_within. cbn. unfold sum_z in P. lia.
  - apply IH; [lia|]. unfold sum_z. lia.
Qed.

(** One of the two guarded copies, in bounds. *)
Lemma guarded_copy_safe {B} (p : list B) (work : list B) src dst n : 0 <= n -> 0 <= dst -> dst + n <= lenZ work -> (0 < n -> 0 <= src /\ src + n <= lenZ p) ->
  exists work', (if n >? 0 then bs ← rd_n p src n; wr_n work dst bs else Some work) = Some work' /\ length work' = length work.
Proof.
  intros Hn Hd Hw Hs. rewrite Z.gtb_ltb. destruct (Z.ltb_spec 0 n) as [H|H]; [|by exists work]. destruct (Hs H) as [? ?].
  destruct (rd_n_total p src n) as (l & -> & L); [lia..|]. cbn [mbind option_bind]. destruct (wr_n_total work dst l) as [w' E]; [lia..|].
  exists w'. split; [done|]. by apply length_wr_n in E.
Qed.

Lemma i32_le x : 0 <= x < 2 ^ 32 -> i32 x <= x.
Proof. intros. unfold i32, wrap_signed. cbv zeta. rewrite (Z.mod_small x) by lia. destruct (x <? 2 ^ (32 - 1)); lia. Qed.

Lemma reconstruct_safe data wsize ps : Forall (in_i 32) ps -> Forall (λ l, 0 <= l) ps ->
  forall ss soff work w pv, Forall2 (λ p s, p + s < 2 ^ 31) ps ss -> Forall (in_i 32) ss -> Forall (λ l, 0 <= l) ss ->
    0 <= soff -> soff + sum_z ss <= lenZ data -> 0 <= w -> w <= wsize <= lenZ work -> wsize < 2 ^ 63 ->
    match pv with None => True | Some (po, pl) => 0 <= po /\ 0 <= pl < 2 ^ 32 /\ po + pl <= w /\ pl <= soff end ->
  exists s out work', reconstruct ps ss data soff work wsize w pv = Some (s, out, work') /\ length work' = length work /\
    Forall (slice_within 0 wsize) out /\ (s = CARQUET_OK -> length out = length ps).
Proof.
  intros Hps0 Hps1. induction ps as [|p ps IH]; intros ss soff work w pv HL Hss0 Hss1 Hso Hsum Hw Hws H63 HP; inversion HL as [|? s ? ss' Hsum' HL']; subst; cbn [reconstruct];
    [by exists CARQUET_OK, [], work|]. rename ss' into ss.
  apply Forall_cons_iff in Hps0 as [Hp0 Hps0], Hps1 as [Hp1 Hps1], Hss0 as [Hs0 Hss0], Hss1 as [Hs1 Hss1]. unfold in_i in Hp0, Hs0. cbn [sum_z foldr] in Hsum.
  pose proof (sum_z_bound ss Hss0 Hss1) as B. unfold sum_z in B. rewrite sint_Some by (unfold in_i; lia). cbn [mbind option_bind]. rewrite (u32_small (p + s)) by lia. rewrite u64_small by lia.
  rewrite (Z.gtb_ltb (w + _)). destruct (Z.ltb_spec wsize (w + (p + s))); [by eexists _, [], work|].
  destruct ((p >? 0) && _) eqn:Bad; [by eexists _, [], work|].
  destruct (guarded_copy_safe work work (match pv with Some (po, _) => po | None => 0 end) w p) as (work1 & E1 & L1); [lia|lia|lia| |].
  { intros Hp. rewrite Z.gtb_ltb, (proj2 (Z.ltb_lt 0 p)) in Bad by lia. cbn [andb] in Bad. destruct pv as [[po pl]|]; [|done]. destruct HP as (? & ? & ? & ?).
    rewrite Z.gtb_ltb in Bad. apply Z.ltb_ge in Bad. pose proof (i32_le pl). lia. }
  replace (if p >? 0 then match pv with Some (po, _) => bs ← rd_n work po p; wr_n work w bs | None => None end else Some work) with (Some work1).
  2: { rewrite <- E1. destruct pv as [[? ?]|]; [done|]. destruct (p >? 0); [discriminate Bad|done]. }
  cbn [mbind option_bind]. destruct (guarded_copy_safe data work1 soff (w + p) s) as (work2 & -> & L2); [lia..|]. cbn [mbind option_bind].
  assert ((if s >? 0 then soff + s else soff) = soff + s) as Es by (rewrite Z.gtb_ltb; destruct (Z.ltb_spec 0 s); lia).
  assert (p + s <= soff + s) as Hps.
  { rewrite Z.gtb_ltb in Bad. destruct (Z.ltb_spec 0 p); [|lia]. cbn [andb] in Bad. destruct pv as [[po pl]|]; [|done]. destruct HP as (? & ? & ? & ?).
    rewrite Z.gtb_ltb in Bad. apply Z.ltb_ge in Bad. pose proof (i32_le pl). lia. }
  destruct (IH Hps0 Hps1 ss (if s >? 0 then soff + s else soff) work2 (w + (p + s)) (Some (w, p + s))) as (st & out & work' & -> & L3 & F & HLen);
    rewrite ?Es; unfold sum_z; try done; [lia..|].
  cbn [mbind option_bind]. eexists _, _, _. split; [done|]. split; [lia|]. split; [constructor; [|done]|].
  { unfold slice_within, i32. cbn. rewrite wrap_signed_small by (unfold in_i; lia). lia. }
  intros Hok. cbn. by rewrite HLen.
Qed.

Lemma decode_both_safe data size n : bytes_ok data -> 0 <= size <= lenZ data -> 0 <= n ->
  exists s r, decode_both_lengths data size n = Some (s, r) /\
    match r with
    | Some (ps, ss, pos) => lenZ ps = n /\ lenZ ss = n /\ Forall (in_i 32) ps /\ Forall (in_i 32) ss /\ 0 <= pos <= size
    | None => is_ok s = false
    end.
Proof.
  intros Hb Hs Hn. unfold decode_both_lengths. destruct (mem_malloc (n * 4)); [|by eexists _, None].
  destruct (delta_decode32_safe data size n Hb Hs Hn) as (s1 & r1 & -> & H1). cbn [mbind option_bind].
  destruct r1 as [[ps c1]|]; [|by eexists _, None]. destruct H1 as (_ & L1 & F1 & B1).
  destruct (delta_decode32_safe (ptr_add data c1) (size - c1) n) as (s2 & r2 & -> & H2);
    [by apply ptr_add_bytes|rewrite length_ptr_add by lia; lia|done|]. cbn [mbind option_bind].
  destruct r2 as [[ss c2]|]; [|by eexists _, None]. destruct H2 as (_ & L2 & F2 & B2). eexists _, (Some (_, _, _)). split; [done|].
  repeat split; try done; lia.
Qed.

Lemma length_decode_safe data size n : bytes_ok data -> 0 <= size <= lenZ data -> size < 2 ^ 62 -> 0 <= n < 2 ^ 31 ->
  exists s r, carquet_delta_length_decode (Some data) size true n = Some (s, r) /\
    match r with
    | Some (out, used) => s = CARQUET_OK /\ lenZ out = n /\ 0 <= used <= size /\ Forall (slice_within 0 used) out
    | None => is_ok s = false
    end.
Proof.
  intros Hb Hs H62 Hn. unfold carquet_delta_length_decode. rewrite (proj2 (Z.ltb_ge n 0)) by lia. rewrite andb_false_r. cbn [orb].
  destruct (Z.eqb_spec n 0) as [->|Hn0].
  - destruct (delta_decode32_safe data size 0 Hb Hs ltac:(lia)) as (s & r & -> & H). cbn [mbind option_bind].
    destruct r as [[vs c]|]; [|by eexists _, None]. destruct H as (_ & _ & _ & H). eexists _, (Some (_, _)). split; [done|]. repeat split; try done; lia.
  - destruct (mem_malloc (n * 4)); [|by eexists _, None]. destruct (delta_decode32_safe data size n Hb Hs ltac:(lia)) as (s & r & -> & H). cbn [mbind option_bind].
    destruct r as [[ls c]|]; [|by eexists _, None]. destruct H as (_ & L & F & B).
    destruct (sum_lengths_cases ls F 0) as [->|[P ->]]; [lia|lia|by eexists _, None|]. pose proof (sum_z_bound ls F P).
    rewrite Z.add_0_l, u64_small by lia. rewrite Z.gtb_ltb. destruct (Z.ltb_spec size (c + sum_z ls)); [by eexists _, None|].
    eexists _, (Some (_, _)). split; [done|]. split; [done|]. split; [|split; [lia|]].
    + assert (forall ls off, length (slice_lengths ls c off) = length ls) as G by (induction ls0 as [|? ? IH]; intros; cbn; [done|by rewrite IH]). by rewrite G.
    + eapply Forall_impl; [|apply (slice_lengths_within c (c + sum_z ls) ls P 0); lia]. unfold slice_within. intros x. lia.
Qed.

(** No prefix and suffix that a page announces make a string beyond an [int32_t]. *)
Definition lengths_fit (data : list Z) (size n : Z) : Prop :=
  forall s ps ss pos, decode_both_lengths data size n = Some (s, Some (ps, ss, pos)) -> Forall2 (λ p s, p + s < 2 ^ 31) ps ss.

Lemma strings_decode_safe data size n work wsize : bytes_ok data -> 0 <= size <= lenZ data -> size < 2 ^ 62 -> 0 <= n < 2 ^ 31 -> 0 <= wsize <= lenZ work -> wsize < 2 ^ 63 ->
  lengths_fit data size n ->
  exists s r work', carquet_delta_strings_decode (Some data) size true n work wsize = Some (s, r, work') /\ length work' = length work /\
    match r with
    | Some (out, used) => s = CARQUET_OK /\ lenZ out = n /\ 0 <= used <= size /\ Forall (slice_within 0 wsize) out
    | None => is_ok s = false
    end.
Proof.
  intros Hb Hs H62 Hn Hw H63 HF. unfold carquet_delta_strings_decode. rewrite (proj2 (Z.ltb_ge n 0)) by lia. rewrite andb_false_r. cbn [orb].
  destruct (Z.eqb_spec n 0) as [->|Hn0].
  - destruct (delta_decode32_safe data size 0 Hb Hs ltac:(lia)) as (s & r & -> & H). cbn [mbind option_bind].
    destruct r as [[vs c]|]; [|by eexists _, None, work]. destruct H as (_ & _ & _ & H).
    destruct (delta_decode32_safe (ptr_add data c) (size - c) 0) as (s2 & r2 & -> & H2); [by apply ptr_add_bytes|rewrite length_ptr_add by lia; lia|done|].
    cbn [mbind option_bind]. destruct r2 as [[vs2 c2]|]; [|by eexists _, None, work]. destruct H2 as (_ & _ & _ & H2).
    eexists _, (Some (_, _)), work. split; [done|]. split; [done|]. repeat split; try done; lia.
  - destruct (decode_both_safe data size n Hb Hs ltac:(lia)) as (s & r & Er & H). specialize (λ ps ss pos, HF s ps ss pos) as HF'. rewrite Er in HF' |- *. cbn [mbind option_bind].
    destruct r as [[[ps ss] pos]|]; [|by eexists _, None, work]. destruct H as (L1 & L2 & F1 & F2 & B).
    destruct (sum_suffixes_cases ps ss 0) as [->|(P1 & P2 & ->)]; try done; [lia|lia|by eexists _, None, work|].
    pose proof (sum_z_bound ss F2 P2). rewrite Z.add_0_l, u64_small by lia. rewrite (Z.gtb_ltb _ size). destruct (Z.ltb_spec size (pos + sum_z ss)); [by eexists _, None, work|].
    destruct (reconstruct_safe (ptr_add data pos) wsize ps F1 P1 ss 0 work 0 None) as (st & out & work' & -> & LW & FW & HL); try done; try lia;
      [by eapply HF'|rewrite length_ptr_add by lia; lia|]. cbn [mbind option_bind].
    destruct (is_ok st) eqn:Ok; cbn [negb]; [|by eexists _, None, work']. eexists _, (Some (_, _)), work'. split; [done|]. split; [done|].
    split; [done|]. split; [|split; [lia|done]]. rewrite HL; [done|]. by destruct st.
Qed.

(** The size of the work buffer fits. *)
Lemma sum_both_range ps : forall ss t t', Forall (in_i 32) ps -> Forall (in_i 32) ss -> 0 <= t -> t + lenZ ps * 2 ^ 32 < 2 ^ 63 ->
  sum_both ps ss t = Some t' -> t <= t' <= t + lenZ ps * 2 ^ 32.
Proof.
  induction ps as [|p ps IH]; intros [|s ss] t t' Hp Hs Ht Hb; cbn [sum_both length]; try (intros [= <-]; lia).
  apply Forall_cons_iff in Hp as [Hp Hps]. apply Forall_cons_iff in Hs as [Hs Hss]. unfold in_i in Hp, Hs. cbn [length] in Hb.
  destruct (Z.ltb_spec p 0); [done|]. destruct (Z.ltb_spec s 0); [done|]. cbn [orb]. rewrite (u64_small (p + s)), u64_small by lia. intros E.
  apply IH in E; [lia|done|done|lia|lia].
Qed.

Lemma decoded_size_safe data size n : bytes_ok data -> 0 <= size <= lenZ data -> n < 2 ^ 31 ->
  exists s r, carquet_delta_strings_decoded_size (Some data) size n true = Some (s, r) /\
    match r with Some total => s = CARQUET_OK /\ 0 <= total < 2 ^ 63 | None => is_ok s = false end.
Proof.
  intros Hb Hs Hn. unfold carquet_delta_strings_decoded_size. cbn [negb orb]. destruct (Z.leb_spec n 0) as [?|Hn']; [by eexists _, None|].
  destruct (decode_both_safe data size n Hb Hs ltac:(lia)) as (s & r & -> & H). cbn [mbind option_bind].
  destruct r as [[[ps ss] pos]|]; [|by eexists _, None]. destruct H as (L1 & L2 & F1 & F2 & B).
  destruct (sum_both ps ss 0) as [t|] eqn:E; [|by eexists _, None]. eexists _, (Some t). split; [done|]. split; [done|].
  apply sum_both_range in E; try done; lia.
Qed.

(** C34: memory safety of the string decoders.  On any bytes, for any count and any
    allocator, the DELTA_LENGTH_BYTE_ARRAY and DELTA_BYTE_ARRAY decoders return, read only
    inside the page and write only inside the work buffer, and the function that computes the
    size of that buffer returns a sum that has not wrapped; on success the decoders hand out
    exactly the requested number of strings, each inside the bytes consumed, or inside the
    work buffer, and on failure they report an error.  For DELTA_BYTE_ARRAY the bytes must not
    announce a prefix and a suffix of 2 GiB together ([lengths_fit]): their [int32_t] sum
    would overflow before any check ([prefix_suffix_overflow]). *)
Theorem delta_strings_safe data size n work wsize : bytes_ok data -> 0 <= size <= lenZ data -> size < 2 ^ 62 -> 0 <= n < 2 ^ 31 ->
  0 <= wsize <= lenZ work -> wsize < 2 ^ 63 ->
  (exists s r, carquet_delta_length_decode (Some data) size true n = Some (s, r) /\
    match r with
    | Some (out, used) => s = CARQUET_OK /\ lenZ out = n /\ 0 <= used <= size /\ Forall (slice_within 0 used) out
    | None => is_ok s = false
    end) /\
  (exists s r, carquet_delta_strings_decoded_size (Some data) size n true = Some (s, r) /\
    match r with Some total => s = CARQUET_OK /\ 0 <= total < 2 ^ 63 | None => is_ok s = false end) /\
  (lengths_fit data size n ->
   exists s r work', carquet_delta_strings_decode (Some data) size true n work wsize = Some (s, r, work') /\ length work' = length work /\
    match r with
    | Some (out, used) => s = CARQUET_OK /\ lenZ out = n /\ 0 <= used <= size /\ Forall (slice_within 0 wsize) out
    | None => is_ok s = false
    end).
Proof. intros Hb Hs H62 Hn Hw H63. split; [by apply length_decode_safe|]. split; [apply decoded_size_safe; [done|done|lia]|by apply strings_decode_safe]. Qed.

End Roundtrip.

Definition apple_apply : list carquet_byte_array_t :=
  [mk_byte_array (Some [97; 112; 112; 108; 101]) 5; mk_byte_array (Some [97; 112; 112; 108; 121]) 5; mk_byte_array None 0].

Lemma apple_apply_ok : Forall array_ok apple_apply.
Proof.
  repeat (apply Forall_cons_2; [split; [cbn; lia|]|]); [| | |apply Forall_nil_2]; cbn; try lia.
  all: split; [repeat constructor; unfold in_u; lia|lia].
Qed.

Lemma delta_length_roundtrip_witness :
  let A := limited_alloc (2 ^ 20) in
  exists s b', carquet_delta_length_encode (Some apple_apply) 3 carquet_buffer_init = Some (s, b') /\ s = CARQUET_OK /\
    lenZ (buf_bytes b') = 32.
Proof.
  intros A. destruct (delta_length_roundtrip (K := full_kernels) apple_apply carquet_buffer_init) as (s & b' & E & _).
  - exact apple_apply_ok.
  - cbn. lia.
  - vm_compute. reflexivity.
  - apply init_wf.
  - exists s, b'. split; [exact E|]. revert E. vm_compute. intros [= <- <-]. split; reflexivity.
Defined.

Lemma delta_strings_roundtrip_witness :
  let A := limited_alloc (2 ^ 20) in
  exists s b', carquet_delta_strings_encode (Some apple_apply) 3 carquet_buffer_init = Some (s, b') /\ s = CARQUET_OK /\
    lenZ (buf_bytes b') = 50.
Proof.
  intros A. destruct (delta_strings_roundtrip (K := full_kernels) apple_apply carquet_buffer_init) as (s & b' & E & _).
  - exact apple_apply_ok.
  - cbn. lia.
  - vm_compute. reflexivity.
  - apply init_wf.
  - exists s, b'. split; [exact E|]. revert E. vm_compute. intros [= <- <-]. split; reflexivity.
Defined.

(** The scratch buffer is too small for three lengths that spread over the whole range:
    the encoder reports an error although the output buffer could grow. *)
Lemma delta_scratch_too_small : let lengths := [0; 2 ^ 31 - 1; 0] in
  exists buffer', carquet_delta_encode_int32 lengths (replicate 130 0) (u64 (u64 (lenZ lengths) * 10 + 100)) = Some (CARQUET_ERROR_ENCODE, buffer', None).
Proof. eexists. vm_compute. reflexivity. Qed.

Lemma delta_strings_safe_witness :
  let A := limited_alloc (2 ^ 20) in
  exists s r work', carquet_delta_strings_decode (K := full_kernels) (Some [128; 1; 4; 2; 0; 255; 3]) 7 true 2 [0; 0; 0] 3 = Some (s, r, work') /\
    s = CARQUET_ERROR_DECODE /\ work' = [0; 0; 0].
Proof.
  intros A. destruct (delta_strings_safe (K := full_kernels) [128; 1; 4; 2; 0; 255; 3] 7 2 [0; 0; 0] 3) as (_ & _ & HD).
  - repeat constructor; unfold in_u; lia.
  - cbn. lia.
  - lia.
  - lia.
  - cbn. lia.
  - lia.
  - destruct HD as (s & r & work' & E & _); [intros s ps ss pos H; vm_compute in H; discriminate H|].
    exists s, r, work'. split; [exact E|]. revert E. vm_compute. intros [= <- <- <-]. split; reflexivity.
Defined.

(** A page of two strings, "a" and one of 2^31 - 1 bytes of prefix and one of suffix: the sum
    overflows although the prefix is longer than the string before it. *)
Theorem prefix_suffix_overflow :
  let A := limited_alloc (2 ^ 20) in
  let page := [128; 1; 4; 2; 0; 254; 255; 255; 255; 15; 0; 0; 0; 0] ++ [128; 1; 4; 2; 2; 0; 0; 0; 0; 0] ++ [97; 98] in
  carquet_delta_strings_decode (K := full_kernels) (Some page) 26 true 2 [0; 0] 2 = None.
Proof. vm_compute. reflexivity. Qed.
