(* ===== verification/Dictionary.v ===== *)
(** * Dictionary encoding (carquet/encoding/dictionary.c)

    The hash-table builder that gives each distinct value an index, the encoders that
    write the dictionary page and the RLE-encoded indices, the single-pass encoder with a
    size budget, and the decoders that gather values through the indices.  A bucket's
    linked list is the list of its entries; the table owns every entry.
    [DictionaryRoundtrip] proves the program below. *)

From S2P Require Import Prelude Memory Status Endian Buffer Dispatch Bitpack Rle Plain.

Record dict_entry_t := mk_entry {
  entry_data : list Z;
  entry_size : Z;
  entry_hash : Z;
  entry_index : Z }.

Record dict_builder_t := mk_builder {
  dict_buckets : list (list dict_entry_t);
  num_buckets : Z;
  dict_count : Z;
  dict_buffer : carquet_buffer_t;
  dict_indices : list Z;             (* the uint32_t cells of the indices array *)
  indices_capacity : Z;
  indices_count : Z;
  value_size : Z;
  is_variable_length : bool;
  max_dict_bytes : Z;
  dict_abandoned : bool }.

Definition DICT_BUILDER_INITIAL_BUCKETS : Z := 1024.
Definition DICT_BUILDER_MAX_LOAD_NUM : Z := 3.
Definition DICT_BUILDER_MAX_LOAD_DEN : Z := 4.

(** The sizes of an entry and of a pointer. *)
Definition sizeof_entry : Z := 32.
Definition sizeof_ptr : Z := 8.

(** ** Hashing *)

Definition dict_hash_fixed32 (data : list Z) : option Z :=
  h ← le_val <$> rd_n data 0 4;
  let h := Z.lxor h (h ≫ 16) in
  let h := u32 (h * 0x85ebca6b) in
  let h := Z.lxor h (h ≫ 13) in
  let h := u32 (h * 0xc2b2ae35) in
  Some (Z.lxor h (h ≫ 16)).

Definition dict_hash_fixed64 (data : list Z) : option Z :=
  k ← le_val <$> rd_n data 0 8;
  let k := Z.lxor k (k ≫ 33) in
  let k := u64 (k * 0xff51afd7ed558ccd) in
  let k := Z.lxor k (k ≫ 33) in
  let k := u64 (k * 0xc4ceb9fe1a85ec53) in
  let k := Z.lxor k (k ≫ 33) in
  Some (u32 k).

Definition dict_hash (data : list Z) (size : Z) : option Z :=
  if size =? 4 then dict_hash_fixed32 data else
  if size =? 8 then dict_hash_fixed64 data else
  bs ← rd_n data 0 size;
  Some (foldl (λ h b, u32 (Z.lxor h b * 0x01000193)) 0x811c9dc5 bs).

(** ** The builder *)

(** [entry->next = buckets[bucket]; buckets[bucket] = entry] *)
Definition push_entry (e : dict_entry_t) (bucket : Z) (buckets : list (list dict_entry_t))
    : option (list (list dict_entry_t)) :=
  chain ← rd buckets bucket;
  wr buckets bucket (e :: chain).

Fixpoint move_chain (chain : list dict_entry_t) (mask : Z) (new_buckets : list (list dict_entry_t))
    : option (list (list dict_entry_t)) :=
  match chain with
  | [] => Some new_buckets
  | entry :: next =>
      new_buckets ← push_entry entry (entry_hash entry .& mask) new_buckets;
      move_chain next mask new_buckets
  end.

Fixpoint move_chains (buckets : list (list dict_entry_t)) (mask : Z) (new_buckets : list (list dict_entry_t))
    : option (list (list dict_entry_t)) :=
  match buckets with
  | [] => Some new_buckets
  | chain :: buckets =>
      new_buckets ← move_chain chain mask new_buckets;
      move_chains buckets mask new_buckets
  end.

(** The first entry of the chain equal to the value: its index. *)
Fixpoint find_entry (chain : list dict_entry_t) (hash : Z) (value : list Z) (size : Z) : option (option Z) :=
  match chain with
  | [] => Some None
  | entry :: next =>
      if (entry_hash entry =? hash) && (entry_size entry =? size) then
        same ← (if size =? 0 then Some true else bs ← rd_n value 0 size; ds ← rd_n (entry_data entry) 0 size; Some (bool_decide (ds = bs)));
        if same : bool then Some (Some (entry_index entry)) else find_entry next hash value size
      else find_entry next hash value size
  end.

Section Dictionary.
Context {A : Allocator} {K : UnpackKernels}.

Definition with_buckets (b : dict_builder_t) (buckets : list (list dict_entry_t)) (n : Z) : dict_builder_t :=
  mk_builder buckets n (dict_count b) (dict_buffer b) (dict_indices b) (indices_capacity b) (indices_count b)
    (value_size b) (is_variable_length b) (max_dict_bytes b) (dict_abandoned b).

Definition with_indices (b : dict_builder_t) (cells : list Z) (capacity count : Z) : dict_builder_t :=
  mk_builder (dict_buckets b) (num_buckets b) (dict_count b) (dict_buffer b) cells capacity count
    (value_size b) (is_variable_length b) (max_dict_bytes b) (dict_abandoned b).

Definition dict_builder_rehash (b : dict_builder_t) (new_bucket_count : Z) : option (carquet_status_t * dict_builder_t) :=
  match mem_calloc new_bucket_count sizeof_ptr with
  | None => Some (CARQUET_ERROR_OUT_OF_MEMORY, b)
  | Some _ =>
      let mask := u64 (new_bucket_count - 1) in
      new_buckets ← move_chains (dict_buckets b) mask (replicate (Z.to_nat new_bucket_count) []);
      Some (CARQUET_OK, with_buckets b new_buckets new_bucket_count)
  end.

Definition dict_builder_init (expected_count size : Z) (variable_length : bool)
    : carquet_status_t * option dict_builder_t :=
  match mem_calloc DICT_BUILDER_INITIAL_BUCKETS sizeof_ptr with
  | None => (CARQUET_ERROR_OUT_OF_MEMORY, None)
  | Some _ =>
      let '(status, buf) := carquet_buffer_init_capacity 4096 in
      if negb (is_ok status) then (status, None) else
      let capacity := if expected_count >? 0 then expected_count else 1024 in
      match mem_malloc (u64 (capacity * 4)) with
      | None => (CARQUET_ERROR_OUT_OF_MEMORY, None)
      | Some blk =>
          (CARQUET_OK, Some (mk_builder (replicate (Z.to_nat DICT_BUILDER_INITIAL_BUCKETS) []) DICT_BUILDER_INITIAL_BUCKETS 0 buf
             (words_of (length blk / 4) 4 blk) capacity 0 size variable_length 0 false))
      end
  end.

(** Room for one more index. *)
Definition grow_indices (b : dict_builder_t) : carquet_status_t * dict_builder_t :=
  if indices_count b >=? indices_capacity b then
    let new_cap := u64 (indices_capacity b * 2) in
    match mem_realloc (Some (concat (le_bytes 4 <$> dict_indices b))) (u64 (new_cap * 4)) with
    | None => (CARQUET_ERROR_OUT_OF_MEMORY, b)
    | Some blk => (CARQUET_OK, with_indices b (words_of (length blk / 4) 4 blk) new_cap (indices_count b))
    end
  else (CARQUET_OK, b).

(** [builder->indices[builder->indices_count++] = index] *)
Definition store_index (b : dict_builder_t) (index : Z) : option dict_builder_t :=
  cells ← wr (dict_indices b) (indices_count b) index;
  Some (with_indices b cells (indices_capacity b) (u64 (indices_count b + 1))).

(** The tail of [dict_builder_add] for a value that is not in the table. *)
Definition add_new (b : dict_builder_t) (value : list Z) (size hash : Z) : option (carquet_status_t * dict_builder_t) :=
  let bucket := hash .& u64 (num_buckets b - 1) in
  match mem_malloc (u64 (sizeof_entry + size)) with
  | None => Some (CARQUET_ERROR_OUT_OF_MEMORY, b)
  | Some _ =>
      bs ← rd_n value 0 size;
      buckets ← push_entry (mk_entry bs size hash (u32 (dict_count b))) bucket (dict_buckets b);
      let buf := if is_variable_length b then snd (carquet_buffer_append_u32_le (dict_buffer b) (u32 size)) else dict_buffer b in
      let buf := snd (carquet_buffer_append buf bs) in
      b ← store_index (with_buckets b buckets (num_buckets b)) (u32 (dict_count b));
      let abandoned := if negb (max_dict_bytes b =? 0) && (buf_size buf >? max_dict_bytes b) then true else dict_abandoned b in
      Some (CARQUET_OK, mk_builder (dict_buckets b) (num_buckets b) (u64 (dict_count b + 1)) buf (dict_indices b) (indices_capacity b)
        (indices_count b) (value_size b) (is_variable_length b) (max_dict_bytes b) abandoned)
  end.

Definition dict_builder_add (b : dict_builder_t) (value : list Z) (size : Z) : option (carquet_status_t * dict_builder_t) :=
  let '(status, b) := grow_indices b in
  if negb (is_ok status) then Some (status, b) else
  hash ← dict_hash value size;
  chain ← rd (dict_buckets b) (hash .& u64 (num_buckets b - 1));
  found ← find_entry chain hash value size;
  match found with
  | Some index => b ← store_index b index; Some (CARQUET_OK, b)
  | None =>
      '(status, b) ←
        (if u64 (u64 (dict_count b + 1) * DICT_BUILDER_MAX_LOAD_DEN) >? u64 (num_buckets b * DICT_BUILDER_MAX_LOAD_NUM)
         then dict_builder_rehash b (u64 (num_buckets b * 2)) else Some (CARQUET_OK, b));
      if negb (is_ok status) then Some (status, b) else add_new b value size hash
  end.

(** ** Encoding *)

Fixpoint width_loop (n : nat) (count width : Z) : Z :=
  match n with
  | O => width
  | S n => if count >? 0 then width_loop n (count ≫ 1) (width + 1) else width
  end.

(** The loop halves a 32-bit count: 32 rounds are enough. *)
Definition bit_width_for_count (count : Z) : Z :=
  if count =? 0 then 0 else
  let width := width_loop 32 (count - 1) 0 in
  if width >? 0 then width else 1.

(** A loop over the marshalled values. *)
Fixpoint add_values (b : dict_builder_t) (vs : list (list Z * Z)) : option (carquet_status_t * dict_builder_t) :=
  match vs with
  | [] => Some (CARQUET_OK, b)
  | (value, size) :: vs =>
      '(status, b) ← dict_builder_add b value size;
      if negb (is_ok status) then Some (status, b) else add_values b vs
  end.

(** The same loop with the test of [abandoned]. *)
Fixpoint add_values_capped (b : dict_builder_t) (vs : list (list Z * Z)) : option (carquet_status_t * dict_builder_t) :=
  match vs with
  | [] => Some (CARQUET_OK, b)
  | (value, size) :: vs =>
      if dict_abandoned b then Some (CARQUET_OK, b) else
      '(status, b) ← dict_builder_add b value size;
      if negb (is_ok status) then Some (status, b) else add_values_capped b vs
  end.

(** The dictionary page, the bit width byte and the indices. *)
Definition write_pages (b : dict_builder_t) (count : Z) (dict_output indices_output : carquet_buffer_t)
    : option (carquet_status_t * carquet_buffer_t * carquet_buffer_t) :=
  let dict_output := snd (carquet_buffer_append dict_output (buf_bytes (dict_buffer b))) in
  let bit_width := bit_width_for_count (u32 (dict_count b)) in
  let indices_output := snd (carquet_buffer_append_byte indices_output (u8 bit_width)) in
  indices ← (if count <=? 0 then Some [] else rd_n (dict_indices b) 0 count);
  '(status, indices_output) ← carquet_rle_encode_all indices bit_width indices_output;
  Some (status, dict_output, indices_output).

(** The common body of the encoders: [marshal] is the conversion of one value to the bytes
    and the size given to the builder. *)
Definition dictionary_encode {T} (marshal : T -> list Z * Z) (size : Z) (variable_length : bool) (values : list T) (count : Z)
    (dict_output indices_output : carquet_buffer_t) : option (carquet_status_t * carquet_buffer_t * carquet_buffer_t) :=
  let '(status, b) := dict_builder_init (u64 count) size variable_length in
  match b with
  | None => Some (status, dict_output, indices_output)
  | Some b =>
      vs ← (if count <=? 0 then Some [] else rd_n values 0 count);
      '(status, b) ← add_values b (marshal <$> vs);
      if negb (is_ok status) then Some (status, dict_output, indices_output) else write_pages b count dict_output indices_output
  end.

Definition carquet_dictionary_encode_int32 := dictionary_encode (λ v, (carquet_write_i32_le v, 4)) 4 false.
Definition carquet_dictionary_encode_int64 := dictionary_encode (λ v, (carquet_write_i64_le v, 8)) 8 false.
Definition carquet_dictionary_encode_float := dictionary_encode (λ v, (carquet_write_f32_le v, 4)) 4 false.
Definition carquet_dictionary_encode_double := dictionary_encode (λ v, (carquet_write_f64_le v, 8)) 8 false.
Definition carquet_dictionary_encode_byte_array :=
  dictionary_encode (λ v, (default [] (ba_data v), u64 (ba_length v))) 0 true.

Definition marshal_all {T} (marshal : T -> list Z * Z) (vs : list T) : list (list Z * Z) := marshal <$> vs.

(** The values of the two pointer arguments of the capped encoder. *)
Definition capped_values (type : carquet_physical_type_t) (fixed_values : list Z) (ba_values : list carquet_byte_array_t) (count : Z)
    : option (list (list Z * Z)) :=
  match type with
  | CARQUET_PHYSICAL_INT32 => marshal_all (λ v, (carquet_write_i32_le v, 4)) <$> rd_n fixed_values 0 count
  | CARQUET_PHYSICAL_INT64 => marshal_all (λ v, (carquet_write_i64_le v, 8)) <$> rd_n fixed_values 0 count
  | CARQUET_PHYSICAL_FLOAT => marshal_all (λ v, (carquet_write_f32_le v, 4)) <$> rd_n fixed_values 0 count
  | CARQUET_PHYSICAL_DOUBLE => marshal_all (λ v, (carquet_write_f64_le v, 8)) <$> rd_n fixed_values 0 count
  | _ => marshal_all (λ v, (default [] (ba_data v), u64 (ba_length v))) <$> rd_n ba_values 0 count
  end.

Definition with_budget (b : dict_builder_t) (max : Z) : dict_builder_t :=
  mk_builder (dict_buckets b) (num_buckets b) (dict_count b) (dict_buffer b) (dict_indices b) (indices_capacity b)
    (indices_count b) (value_size b) (is_variable_length b) max (dict_abandoned b).

(** The status, [*abandoned] and the two outputs. *)
Definition carquet_dictionary_encode_capped (type : carquet_physical_type_t) (fixed_values : list Z)
    (ba_values : list carquet_byte_array_t) (count max : Z) (dict_output indices_output : carquet_buffer_t)
    : option (carquet_status_t * bool * carquet_buffer_t * carquet_buffer_t) :=
  if count <=? 0 then Some (CARQUET_ERROR_INVALID_ARGUMENT, false, dict_output, indices_output) else
  let size_of_type :=
    match type with
    | CARQUET_PHYSICAL_INT32 | CARQUET_PHYSICAL_FLOAT => Some (4, false)
    | CARQUET_PHYSICAL_INT64 | CARQUET_PHYSICAL_DOUBLE => Some (8, false)
    | CARQUET_PHYSICAL_BYTE_ARRAY => Some (0, true)
    | _ => None
    end in
  match size_of_type with
  | None => Some (CARQUET_ERROR_NOT_IMPLEMENTED, false, dict_output, indices_output)
  | Some (size, var_len) =>
      let '(status, b) := dict_builder_init (u64 count) size var_len in
      match b with
      | None => Some (status, false, dict_output, indices_output)
      | Some b =>
          vs ← capped_values type fixed_values ba_values count;
          '(status, b) ← add_values_capped (with_budget b max) vs;
          if negb (is_ok status) then Some (status, false, dict_output, indices_output) else
          if dict_abandoned b then Some (CARQUET_OK, true, dict_output, indices_output) else
          '(status, dict_output, indices_output) ← write_pages b count dict_output indices_output;
          Some (status, false, dict_output, indices_output)
      end
  end.

(** ** Decoding *)

(** The loop of big-endian hosts: the indices are not checked. *)
Fixpoint gather_be (read : list Z -> option Z) (width : Z) (dict_data : list Z) (indices : list Z) : option (list Z) :=
  match indices with
  | [] => Some []
  | i :: indices =>
      v ← (if i * width <=? lenZ dict_data then read (ptr_add dict_data (i * width)) else None);
      rest ← gather_be read width dict_data indices;
      Some (v :: rest)
  end.

(** [ENSURE_DICT_ALIGNED]: the dictionary as an array of [width]-byte words, or NULL. *)
Definition ensure_dict_aligned (aligned : bool) (wrap : Z -> Z) (width : Z) (dict_data : list Z) (dict_bytes : Z) : option (option (list Z)) :=
  if aligned then
    Some (Some (wrap <$> words_of (Z.to_nat (dict_bytes / width)) (Z.to_nat width) dict_data))
  else
    match mem_malloc dict_bytes with
    | None => Some None
    | Some _ => bs ← rd_n dict_data 0 dict_bytes; Some (Some (wrap <$> words_of (Z.to_nat (dict_bytes / width)) (Z.to_nat width) bs))
    end.

(** The common body of the decoders.  [wrap] and [read] are the element type, [aligned]
    tells whether the page happens to be aligned for it. *)
Definition dictionary_decode (wrap : Z -> Z) (read : list Z -> option Z) (width : Z) (big_endian aligned : bool)
    (dict_data : option (list Z)) (dict_size count : Z) (indices_data : list Z) (indices_size output_count : Z)
    : option (carquet_status_t * option (list Z)) :=
  if output_count <=? 0 then Some (CARQUET_OK, None) else
  match dict_data with
  | None => Some (CARQUET_ERROR_DECODE, None)
  | Some dict_data =>
      if count <=? 0 then Some (CARQUET_ERROR_DECODE, None) else
      if dict_size <? u64 (u64 count * width) then Some (CARQUET_ERROR_DECODE, None) else
      if indices_size <? 1 then Some (CARQUET_ERROR_DECODE, None) else
      bit_width ← rd indices_data 0;
      match mem_malloc (u64 (output_count * 4)) with
      | None => Some (CARQUET_ERROR_OUT_OF_MEMORY, None)
      | Some _ =>
          indices ← carquet_rle_decode_all (ptr_add indices_data 1) (indices_size - 1) bit_width output_count;
          if lenZ indices <? output_count then Some (CARQUET_ERROR_DECODE, None) else
          if big_endian then
            out ← gather_be read width dict_data indices;
            Some (CARQUET_OK, Some out)
          else
            dict ← ensure_dict_aligned aligned wrap width dict_data (u64 (u64 count * width));
            match dict with
            | None => Some (CARQUET_ERROR_OUT_OF_MEMORY, None)
            | Some dict =>
                '(ok, out) ← carquet_dispatch_checked_gather dict count indices;
                if negb ok then Some (CARQUET_ERROR_DECODE, None) else Some (CARQUET_OK, out)
            end
      end
  end.

Definition carquet_dictionary_decode_int32 := dictionary_decode i32 carquet_read_i32_le 4.
Definition carquet_dictionary_decode_int64 := dictionary_decode i64 carquet_read_i64_le 8.
Definition carquet_dictionary_decode_float := dictionary_decode id carquet_read_f32_le 4.
Definition carquet_dictionary_decode_double := dictionary_decode id carquet_read_f64_le 8.

End Dictionary.
