(* ===== verification/DictionaryRoundtrip.v ===== *)
(** * Dictionary encoding: the table, the pages and what they decode to

    The hash table is a faithful index of the distinct values, rehashing included; the
    encoders write exactly the distinct values in order of first appearance and an index
    for every value; the decoders are exact on every input and invert the encoders. *)

From stdpp Require Import sets.
From S2P Require Import Prelude Memory Status Endian Buffer Dispatch Bitpack Rle RleDecode RleEncode Plain PlainRoundtrip Dictionary.

(** ** Reference: the distinct values in order of first appearance *)

Definition dedup_step (uniq : list (list Z)) (v : list Z) : list (list Z) := if bool_decide (v ∈ uniq) then uniq else uniq ++ [v].

Definition distinct (vs : list (list Z)) : list (list Z) := foldl dedup_step [] vs.

Lemma dedup_step_prefix uniq v : exists t, dedup_step uniq v = uniq ++ t.
Proof. unfold dedup_step. case_bool_decide; [exists []; by rewrite app_nil_r|by exists [v]]. Qed.

Lemma dedup_step_in uniq v : v ∈ dedup_step uniq v.
Proof. unfold dedup_step. case_bool_decide; set_solver. Qed.

Lemma dedup_step_nodup uniq v : NoDup uniq -> NoDup (dedup_step uniq v).
Proof.
  intros H. unfold dedup_step. case_bool_decide; [done|]. apply list.NoDup_app. repeat split; [done|set_solver|apply NoDup_singleton].
Qed.

Lemma foldl_dedup_prefix vs : forall uniq, exists t, foldl dedup_step uniq vs = uniq ++ t.
Proof.
  induction vs as [|v vs IH]; intros uniq; cbn [foldl]; [exists []; by rewrite app_nil_r|].
  destruct (dedup_step_prefix uniq v) as [t1 ->]. destruct (IH (uniq ++ t1)) as [t2 ->]. exists (t1 ++ t2). by rewrite app_assoc.
Qed.

Lemma distinct_nodup vs : NoDup (distinct vs).
Proof.
  unfold distinct. assert (forall uniq, NoDup uniq -> NoDup (foldl dedup_step uniq vs)) as G; [|apply G, NoDup_nil_2].
  induction vs as [|v vs IH]; intros uniq H; cbn [foldl]; [done|]. by apply IH, dedup_step_nodup.
Qed.

Lemma distinct_in vs v : v ∈ distinct vs <-> v ∈ vs.
Proof.
  unfold distinct. assert (forall uniq, v ∈ foldl dedup_step uniq vs <-> v ∈ uniq \/ v ∈ vs) as G; [|rewrite G; set_solver].
  induction vs as [|x vs IH]; intros uniq; cbn [foldl]; [set_solver|]. rewrite IH. unfold dedup_step. case_bool_decide; set_solver.
Qed.

(** ** The table *)

Definition hash_of (bs : list Z) : Z := default 0 (dict_hash bs (lenZ bs)).

Lemma dict_hash_of value size bs : rd_n value 0 size = Some bs -> dict_hash value size = Some (hash_of bs).
Proof.
  intros H. destruct (rd_n_inv _ _ _ _ H) as (_ & Hn & _ & Hl & _). unfold hash_of, dict_hash. rewrite Hl.
  destruct (Z.eqb_spec size 4) as [->|].
  { unfold dict_hash_fixed32. rewrite H, <- Hl, rd_n_all. done. }
  destruct (Z.eqb_spec size 8) as [->|].
  { unfold dict_hash_fixed64. rewrite H, <- Hl, rd_n_all. done. }
  rewrite H, <- Hl, rd_n_all. done.
Qed.

Definition entry_of (i : Z) (bs : list Z) : dict_entry_t := mk_entry bs (lenZ bs) (hash_of bs) i.

Definition entries (uniq : list (list Z)) : list dict_entry_t := imap (λ i bs, entry_of (Z.of_nat i) bs) uniq.

(** Every chain holds the entries whose hash selects it, and the chains together hold one
    entry for each of the [uniq]. *)
Definition placed (buckets : list (list dict_entry_t)) (nb : Z) : Prop :=
  lenZ buckets = nb /\ forall i chain e, buckets !! i = Some chain -> e ∈ chain -> entry_hash e .& (nb - 1) = Z.of_nat i.

Lemma land_mask h k : 0 <= k -> 0 <= h .& (2 ^ k - 1) < 2 ^ k.
Proof.
  intros Hk. replace (2 ^ k - 1) with (Z.ones k) by (rewrite Z.ones_equiv; lia). rewrite Z.land_ones by done. apply Z.mod_pos_bound. lia.
Qed.

Lemma concat_insert {B} (l : list (list B)) i c e : l !! i = Some c -> concat (<[i := e :: c]> l) ≡ₚ e :: concat l.
Proof.
  intros H. pose proof (lookup_lt_Some _ _ _ H). rewrite insert_take_drop by done. rewrite <- (take_drop_middle l i c H) at 3.
  rewrite !concat_app. cbn [concat]. rewrite <- app_comm_cons. by rewrite <- Permutation_middle.
Qed.

Lemma push_entry_spec e buckets k : 0 <= k -> placed buckets (2 ^ k) ->
  exists buckets', push_entry e (entry_hash e .& (2 ^ k - 1)) buckets = Some buckets' /\ placed buckets' (2 ^ k) /\ concat buckets' ≡ₚ e :: concat buckets.
Proof.
  intros Hk [L P]. pose proof (land_mask (entry_hash e) k Hk) as B. set (i := entry_hash e .& (2 ^ k - 1)) in *. unfold push_entry.
  destruct (rd_Some buckets i) as [chain Hc]; [lia|]. rewrite Hc. cbn [mbind option_bind]. rewrite wr_Some by lia. eexists. split; [done|].
  rewrite rd_lookup in Hc by lia. split; [|by apply concat_insert]. split; [by rewrite length_insert|].
  intros j c x Hj Hx. apply list_lookup_insert_Some in Hj as [(<- & <- & _)|[_ Hj]]; [|by apply (P j c)].
  apply elem_of_cons in Hx as [->|Hx]; [lia|]. by apply (P (Z.to_nat i) chain).
Qed.

Lemma move_chain_spec chain k : 0 <= k -> forall buckets, placed buckets (2 ^ k) ->
  exists buckets', move_chain chain (2 ^ k - 1) buckets = Some buckets' /\ placed buckets' (2 ^ k) /\ concat buckets' ≡ₚ chain ++ concat buckets.
Proof.
  intros Hk. induction chain as [|e chain IH]; intros buckets P; cbn [move_chain]; [by exists buckets|].
  destruct (push_entry_spec e buckets k Hk P) as (b1 & -> & P1 & E1). cbn [mbind option_bind]. destruct (IH b1 P1) as (b2 & -> & P2 & E2).
  exists b2. split; [done|]. split; [done|]. rewrite E2, E1. by rewrite <- Permutation_middle.
Qed.

Lemma move_chains_spec old k : 0 <= k -> forall buckets, placed buckets (2 ^ k) ->
  exists buckets', move_chains old (2 ^ k - 1) buckets = Some buckets' /\ placed buckets' (2 ^ k) /\ concat buckets' ≡ₚ concat old ++ concat buckets.
Proof.
  intros Hk. induction old as [|chain old IH]; intros buckets P; cbn [move_chains concat]; [by exists buckets|].
  destruct (move_chain_spec chain k Hk buckets P) as (b1 & -> & P1 & E1). cbn [mbind option_bind]. destruct (IH b1 P1) as (b2 & -> & P2 & E2).
  exists b2. split; [done|]. split; [done|]. rewrite E2, E1, !app_assoc. by rewrite (Permutation_app_comm (concat old) chain).
Qed.

Lemma concat_replicate_nil {B} n : concat (replicate n (@nil B)) = [].
Proof. by induction n. Qed.

Lemma placed_empty k : 0 <= k -> placed (replicate (Z.to_nat (2 ^ k)) []) (2 ^ k).
Proof.
  intros Hk. split; [rewrite length_replicate; lia|]. intros i chain e H He. apply lookup_replicate in H as [-> _]. set_solver.
Qed.

(** The chain search finds exactly an entry with the value. *)
Lemma find_entry_spec chain value size bs : rd_n value 0 size = Some bs ->
  (forall e, e ∈ chain -> entry_size e = lenZ (entry_data e) /\ entry_hash e = hash_of (entry_data e)) ->
  exists r, find_entry chain (hash_of bs) value size = Some r /\
    match r with Some i => exists e, e ∈ chain /\ entry_data e = bs /\ entry_index e = i | None => forall e, e ∈ chain -> entry_data e <> bs end.
Proof.
  intros H. destruct (rd_n_inv _ _ _ _ H) as (_ & Hn & _ & Hl & _). induction chain as [|e chain IH]; intros W; cbn [find_entry].
  { exists None. split; [done|]. set_solver. }
  destruct (W e) as [W1 W2]; [set_solver|]. destruct IH as (r & E & Hr); [set_solver|]. rewrite E.
  assert (entry_data e <> bs -> exists r', Some r = Some r' /\ match r' with Some i => exists e', e' ∈ e :: chain /\ entry_data e' = bs /\ entry_index e' = i
    | None => forall e', e' ∈ e :: chain -> entry_data e' <> bs end) as Skip.
  { intros Hd. exists r. split; [done|]. destruct r; [destruct Hr as (e' & ? & ?); exists e'; set_solver|]. intros e' [->|He]%elem_of_cons; [done|by apply Hr]. }
  destruct (Z.eqb_spec (entry_hash e) (hash_of bs)); cbn [andb]; [|apply Skip; congruence].
  destruct (Z.eqb_spec (entry_size e) size) as [Es|Es]; [|apply Skip; intros E2; rewrite E2 in W1; congruence].
  destruct (Z.eqb_spec size 0) as [E0|E0]; cbn [mbind option_bind].
  - exists (Some (entry_index e)). split; [done|]. exists e. split; [set_solver|]. split; [|done].
    rewrite (nil_length_inv (entry_data e)), (nil_length_inv bs) by lia. done.
  - rewrite H. cbn [mbind option_bind]. assert (rd_n (entry_data e) 0 size = Some (entry_data e)) as -> by (rewrite <- Es, W1; apply rd_n_all). cbn [mbind option_bind].
    case_bool_decide as Ed; [|by apply Skip]. exists (Some (entry_index e)). split; [done|]. exists e. set_solver.
Qed.

Lemma elem_of_entries uniq e : e ∈ entries uniq <-> exists i bs, uniq !! i = Some bs /\ e = entry_of (Z.of_nat i) bs.
Proof.
  unfold entries. rewrite list_elem_of_lookup. setoid_rewrite list_lookup_imap_Some. naive_solver.
Qed.

Lemma elem_of_concat {B} (x : B) ls : x ∈ concat ls <-> exists l, x ∈ l /\ l ∈ ls.
Proof. induction ls as [|l ls IH]; cbn [concat]; [set_solver|]. rewrite elem_of_app, IH. set_solver. Qed.

(** Looking a value up in the chain of its hash. *)
Lemma table_lookup buckets k uniq value size bs : 0 <= k -> placed buckets (2 ^ k) -> concat buckets ≡ₚ entries uniq -> rd_n value 0 size = Some bs ->
  exists chain r, rd buckets (hash_of bs .& (2 ^ k - 1)) = Some chain /\ find_entry chain (hash_of bs) value size = Some r /\
    match r with Some i => 0 <= i /\ uniq !! Z.to_nat i = Some bs | None => bs ∉ uniq end.
Proof.
  intros Hk [L P] HP H. pose proof (land_mask (hash_of bs) k Hk) as B. set (j := hash_of bs .& (2 ^ k - 1)) in *.
  destruct (rd_Some buckets j) as [chain Hc]; [lia|]. rewrite rd_lookup in Hc by lia.
  assert (forall e, e ∈ chain -> e ∈ entries uniq) as Sub.
  { intros e He. rewrite <- HP. apply elem_of_concat. exists chain. split; [done|]. by apply list_elem_of_lookup_2 in Hc. }
  destruct (find_entry_spec chain value size bs H) as (r & E & Hr).
  { intros e He. apply Sub, elem_of_entries in He as (i & v & _ & ->). done. }
  exists chain, r. rewrite rd_lookup by lia. split; [done|]. split; [done|]. destruct r as [i|].
  - destruct Hr as (e & He & <- & <-). apply Sub, elem_of_entries in He as (i & v & Hi & ->). cbn. rewrite Nat2Z.id. split; [lia|done].
  - intros Hin. apply list_elem_of_lookup in Hin as [i Hi]. assert (entry_of (Z.of_nat i) bs ∈ concat buckets) as He.
    { rewrite HP. apply elem_of_entries. by exists i, bs. }
    apply elem_of_concat in He as (c & He & Hcb). apply list_elem_of_lookup in Hcb as [m Hm]. pose proof (P m c _ Hm He) as Hmm. cbn in Hmm. fold j in Hmm.
    replace (Z.to_nat j) with m in Hc by lia. rewrite Hm in Hc. injection Hc as ->. by apply (Hr _ He).
Qed.

(** ** The builder *)

(** What a value contributes to the dictionary page. *)
Definition payload (variable_length : bool) (bs : list Z) : list Z := if variable_length then array_bytes bs else bs.

Definition page_bytes (var : bool) (uniq : list (list Z)) : list Z := concat (payload var <$> uniq).

(** The dictionary page is larger than the budget. *)
Definition over_budget (b : dict_builder_t) (uniq : list (list Z)) : bool :=
  negb (max_dict_bytes b =? 0) && (max_dict_bytes b <? lenZ (page_bytes (is_variable_length b) uniq)).

Record dict_inv (b : dict_builder_t) (uniq : list (list Z)) (idxs : list Z) : Prop := {
  inv_table : exists k, 0 <= k /\ num_buckets b = 2 ^ k /\ placed (dict_buckets b) (2 ^ k) /\ (2 ^ k = 1024 \/ 3 * 2 ^ k <= 8 * (lenZ uniq + 1));
  inv_entries : concat (dict_buckets b) ≡ₚ entries uniq;
  inv_count : dict_count b = lenZ uniq;
  inv_bound : lenZ uniq <= lenZ idxs;
  inv_buffer : buffer_wf (dict_buffer b) /\ buf_owns_data (dict_buffer b) = true;
  inv_page : buf_bytes (dict_buffer b) = page_bytes (is_variable_length b) uniq;
  inv_cells : lenZ (dict_indices b) = indices_capacity b;
  inv_icount : indices_count b = lenZ idxs;
  inv_indices : take (length idxs) (dict_indices b) = idxs;
  inv_abandoned : dict_abandoned b = over_budget b uniq }.

(** The fields no operation changes. *)
Definition same_setup (b b' : dict_builder_t) : Prop :=
  indices_capacity b' = indices_capacity b /\ is_variable_length b' = is_variable_length b /\ max_dict_bytes b' = max_dict_bytes b.

Section Builder.
Context {A : Allocator} {AOk : AllocatorOk A} {AT : AllocatorTotal A}.

Lemma malloc_total n : 0 <= n < 2 ^ 64 -> exists blk, mem_malloc n = Some blk.
Proof. intros H. destruct (realloc_total None n H) as [blk E]. by exists blk. Qed.

Lemma calloc_total n : 0 < n -> n * 8 < 2 ^ 64 -> exists blk, mem_calloc n 8 = Some blk.
Proof.
  intros H1 H2. unfold mem_calloc. assert (8 <= SIZE_MAX / n) by (apply Z.div_le_lower_bound; unfold SIZE_MAX; lia).
  rewrite (Z.gtb_ltb 8), (proj2 (Z.ltb_ge _ 8)) by lia. rewrite andb_false_r, u64_small by lia. destruct (malloc_total (n * 8)) as [blk ->]; [lia|]. by eexists.
Qed.

Lemma page_bytes_app var uniq v : page_bytes var (uniq ++ [v]) = page_bytes var uniq ++ payload var v.
Proof. unfold page_bytes. rewrite fmap_app, concat_app. cbn. by rewrite app_nil_r. Qed.

Lemma page_bytes_cons var v vs : page_bytes var (v :: vs) = payload var v ++ page_bytes var vs.
Proof. done. Qed.

Lemma payload_ok var bs : bytes_ok bs -> bytes_ok (payload var bs).
Proof. intros H. destruct var; [|done]. unfold payload, array_bytes. apply Forall_app_2; [apply le_bytes_ok|done]. Qed.

(** Growing the table keeps every entry. *)
Lemma rehash_spec b uniq idxs : dict_inv b uniq idxs -> lenZ uniq < 2 ^ 32 -> num_buckets b * 3 < (lenZ uniq + 1) * 4 ->
  exists b', dict_builder_rehash b (u64 (num_buckets b * 2)) = Some (CARQUET_OK, b') /\ dict_inv b' uniq idxs /\ same_setup b b'.
Proof.
  intros I Hu Hl. destruct (inv_table _ _ _ I) as (k & Hk & En & P & Hn). rewrite En in *.
  assert (2 ^ k * 2 = 2 ^ (k + 1)) as E2 by (rewrite Z.pow_add_r by lia; lia). rewrite u64_small by lia. rewrite E2 in *.
  assert (0 < 2 ^ k) by (apply Z.pow_pos_nonneg; lia). unfold dict_builder_rehash, sizeof_ptr. destruct (calloc_total (2 ^ (k + 1))) as [blk ->]; [lia|lia|].
  rewrite u64_small by lia. destruct (move_chains_spec (dict_buckets b) (k + 1) ltac:(lia) _ (placed_empty (k + 1) ltac:(lia))) as (bs' & -> & P' & E').
  cbn [mbind option_bind]. eexists. split; [done|]. split; [|done]. rewrite concat_replicate_nil, app_nil_r in E'. destruct I. split; cbn; try done.
  - exists (k + 1). repeat split; try done; [lia|by destruct P'|by destruct P'|lia].
  - by rewrite E'.
Qed.

Lemma store_index_spec b idxs i : lenZ (dict_indices b) = indices_capacity b -> indices_count b = lenZ idxs -> take (length idxs) (dict_indices b) = idxs ->
  lenZ idxs < indices_capacity b -> indices_capacity b < 2 ^ 63 ->
  exists cells, store_index b i = Some (with_indices b cells (indices_capacity b) (lenZ (idxs ++ [i]))) /\ lenZ cells = indices_capacity b /\
    take (length (idxs ++ [i])) cells = idxs ++ [i].
Proof.
  intros L0 EI ET Hc Hc2. unfold store_index. destruct (wr_total (dict_indices b) (indices_count b) i) as [cells E]; [lia|]. rewrite E. cbn [mbind option_bind].
  pose proof (take_wr _ _ _ _ E) as T. pose proof (length_wr _ _ _ _ E) as L. exists cells. rewrite EI in *. split; [|split; [lia|]].
  - do 2 f_equal. rewrite length_app. cbn [length]. rewrite u64_small by lia. lia.
  - rewrite length_app. cbn [length]. replace (Z.to_nat (lenZ idxs + 1)) with (length idxs + 1)%nat in T by lia. by rewrite T, Nat2Z.id, ET.
Qed.

Lemma entries_app uniq v : entries (uniq ++ [v]) = entries uniq ++ [entry_of (lenZ uniq) v].
Proof. unfold entries. rewrite imap_app. cbn. by rewrite Nat.add_0_r. Qed.

(** Appending a new value's bytes to the dictionary page. *)
Lemma append_payload var buf bs : buffer_wf buf -> buf_owns_data buf = true -> bytes_ok bs -> lenZ bs < 2 ^ 32 -> buf_size buf + lenZ (payload var bs) < 2 ^ 64 ->
  exists buf', snd (carquet_buffer_append (if var then snd (carquet_buffer_append_u32_le buf (u32 (lenZ bs))) else buf) bs) = buf' /\
    buffer_wf buf' /\ buf_owns_data buf' = true /\ buf_bytes buf' = buf_bytes buf ++ payload var bs.
Proof.
  intros W O Hb H32 Hl. destruct var; cbn [payload] in *.
  - unfold array_bytes in *. rewrite length_app in Hl. rewrite u32_small by lia.
    unfold carquet_buffer_append_u32_le, carquet_write_u32_le.
    destruct (append_total buf (le_bytes 4 (lenZ bs)) W O ltac:(apply le_bytes_ok) ltac:(lia)) as (b1 & E1 & W1 & O1 & B1 & S1).
    rewrite E1. cbn [snd].
    destruct (append_total b1 bs W1 O1 Hb) as (b2 & E2 & W2 & O2 & B2 & S2); [lia|]. rewrite E2. cbn [snd]. exists b2. repeat split; try done; try apply W2.
    by rewrite B2, B1, app_assoc.
  - destruct (append_total buf bs W O Hb) as (b2 & E2 & W2 & O2 & B2 & S2); [lia|]. rewrite E2. cbn [snd]. exists b2. by repeat split; try apply W2.
Qed.

Lemma add_new_spec b uniq idxs value size bs : dict_inv b uniq idxs -> rd_n value 0 size = Some bs -> bs ∉ uniq -> bytes_ok bs -> size < 2 ^ 32 ->
  lenZ idxs < indices_capacity b -> indices_capacity b < 2 ^ 31 -> lenZ (page_bytes (is_variable_length b) uniq) + lenZ (payload (is_variable_length b) bs) < 2 ^ 62 ->
  exists b', add_new b value size (hash_of bs) = Some (CARQUET_OK, b') /\ dict_inv b' (uniq ++ [bs]) (idxs ++ [lenZ uniq]) /\ same_setup b b'.
Proof.
  intros I H Hnew Hb Hs Hc Hc31 Hl. destruct (rd_n_inv _ _ _ _ H) as (_ & Hn & _ & Hsz & _). destruct (inv_table _ _ _ I) as (k & Hk & En & P & Hnb).
  destruct (inv_buffer _ _ _ I) as [W O]. pose proof (inv_page _ _ _ I) as EP. pose proof (inv_count _ _ _ I) as EC. pose proof (inv_bound _ _ _ I) as EB.
  unfold add_new. assert (0 < 2 ^ k) by (apply Z.pow_pos_nonneg; lia). rewrite En, (u64_small (2 ^ k - 1)) by lia.
  unfold sizeof_entry. rewrite (u64_small (32 + size)) by lia. destruct (malloc_total (32 + size)) as [blk ->]; [lia|]. rewrite H. cbn [mbind option_bind].
  rewrite EC, (u32_small (lenZ uniq)) by lia. rewrite <- Hsz. fold (entry_of (lenZ uniq) bs).
  destruct (push_entry_spec (entry_of (lenZ uniq) bs) (dict_buckets b) k Hk P) as (bk & E1 & P1 & E2). cbn [entry_hash entry_of] in E1. rewrite E1. cbn [mbind option_bind].
  destruct (append_payload (is_variable_length b) (dict_buffer b) bs W O Hb) as (buf' & EBuf & W' & O' & B'); [lia|rewrite <- (buf_bytes_length _ W), EP; lia|].
  rewrite EBuf. assert (lenZ (buf_bytes buf') = buf_size buf') as LB by (by apply buf_bytes_length). rewrite B', EP, length_app in LB.
  destruct (store_index_spec (with_buckets b bk (2 ^ k)) idxs (lenZ uniq) (inv_cells _ _ _ I) (inv_icount _ _ _ I) (inv_indices _ _ _ I) Hc) as (cells & -> & C1 & C2); [cbn; lia|].
  cbn [mbind option_bind]. eexists. split; [done|]. split; [|done].
  cbn [dict_count with_indices with_buckets]. rewrite EC, (u64_small (lenZ uniq + 1)) by lia. assert (lenZ (uniq ++ [bs]) = lenZ uniq + 1) as Lu by (rewrite length_app; cbn; lia).
  destruct I. split; cbn; try done.
  - exists k. split; [done|]. split; [done|]. split; [done|]. rewrite length_app. cbn. lia.
  - rewrite E2, inv_entries0, entries_app. by rewrite Permutation_app_comm.
  - rewrite !length_app. cbn. lia.
  - by rewrite B', EP, page_bytes_app.
  - rewrite inv_abandoned0. unfold over_budget. cbn. rewrite page_bytes_app, length_app. rewrite Z.gtb_ltb.
    destruct (Z.eqb_spec (max_dict_bytes b) 0); cbn [negb andb]; [done|].
    destruct (Z.ltb_spec (max_dict_bytes b) (buf_size buf')); destruct (Z.ltb_spec (max_dict_bytes b) (lenZ (page_bytes (is_variable_length b) uniq)));
      symmetry; (apply Z.ltb_lt + apply Z.ltb_ge); lia.
Qed.

(** One value: the table finds it or takes it in, and its index is recorded. *)
Lemma add_spec b uniq idxs value size bs : dict_inv b uniq idxs -> rd_n value 0 size = Some bs -> bytes_ok bs -> size < 2 ^ 32 ->
  lenZ idxs < indices_capacity b -> indices_capacity b < 2 ^ 31 -> lenZ (page_bytes (is_variable_length b) uniq) + lenZ (payload (is_variable_length b) bs) < 2 ^ 62 ->
  exists b' i, dict_builder_add b value size = Some (CARQUET_OK, b') /\ dict_inv b' (dedup_step uniq bs) (idxs ++ [i]) /\ same_setup b b' /\
    rd (dedup_step uniq bs) i = Some bs.
Proof.
  intros I H Hb Hs Hc Hc31 Hl. destruct (inv_table _ _ _ I) as (k & Hk & En & P & Hnb). pose proof (inv_bound _ _ _ I) as EB. pose proof (inv_count _ _ _ I) as EC.
  unfold dict_builder_add, grow_indices. rewrite Z.geb_leb, (proj2 (Z.leb_gt (indices_capacity b) _)) by (rewrite (inv_icount _ _ _ I); lia). cbn [is_ok CARQUET_FAILED negb].
  rewrite (dict_hash_of _ _ _ H). cbn [mbind option_bind]. assert (0 < 2 ^ k) by (apply Z.pow_pos_nonneg; lia). rewrite En, (u64_small (2 ^ k - 1)) by lia.
  destruct (table_lookup _ k uniq _ _ _ Hk P (inv_entries _ _ _ I) H) as (chain & r & -> & HF & Hr). cbn [mbind option_bind]. rewrite HF. cbn [mbind option_bind].
  destruct r as [i|].
  - destruct Hr as [Hi Hr]. assert (dedup_step uniq bs = uniq) as -> by (unfold dedup_step; rewrite bool_decide_true; [done|by apply list_elem_of_lookup_2 in Hr]).
    destruct (store_index_spec b idxs i (inv_cells _ _ _ I) (inv_icount _ _ _ I) (inv_indices _ _ _ I) Hc ltac:(lia)) as (cells & -> & C1 & C2). cbn [mbind option_bind]. eexists _, i. split; [done|].
    split; [|split; [done|by rewrite rd_lookup by lia]]. destruct I. split; cbn; try done; rewrite ?length_app; lia.
  - assert (dedup_step uniq bs = uniq ++ [bs]) as -> by (unfold dedup_step; by rewrite bool_decide_false).
    assert (exists b1, (if u64 (u64 (dict_count b + 1) * DICT_BUILDER_MAX_LOAD_DEN) >? u64 (2 ^ k * DICT_BUILDER_MAX_LOAD_NUM) then dict_builder_rehash b (u64 (2 ^ k * 2)) else Some (CARQUET_OK, b)) =
      Some (CARQUET_OK, b1) /\ dict_inv b1 uniq idxs /\ same_setup b b1) as (b1 & -> & I1 & S1).
    { rewrite EC. unfold DICT_BUILDER_MAX_LOAD_DEN, DICT_BUILDER_MAX_LOAD_NUM. rewrite (u64_small (lenZ uniq + 1)), (u64_small (_ * 4)), (u64_small (2 ^ k * 3)) by lia.
      rewrite Z.gtb_ltb. destruct (Z.ltb_spec (2 ^ k * 3) ((lenZ uniq + 1) * 4)); [|by exists b]. rewrite <- En. apply rehash_spec; [done|lia|rewrite En; lia]. }
    cbn [mbind option_bind is_ok CARQUET_FAILED negb]. destruct S1 as (S1 & S2 & S3).
    destruct (add_new_spec b1 uniq idxs value size bs I1 H Hr Hb Hs) as (b2 & -> & I2 & S4 & S5 & S6); [by rewrite S1..|rewrite S2; lia|].
    exists b2, (lenZ uniq). split; [done|]. split; [done|]. split; [by unfold same_setup; rewrite S4, S5, S6|]. rewrite rd_lookup by lia. rewrite Nat2Z.id. by apply list_lookup_middle.
Qed.

Lemma init_capacity_total : exists buf, carquet_buffer_init_capacity 4096 = (CARQUET_OK, buf) /\ buffer_wf buf /\ buf_owns_data buf = true /\ buf_bytes buf = [].
Proof.
  destruct (carquet_buffer_init_capacity 4096) as [s buf] eqn:E. destruct (init_capacity_spec 4096 s buf ltac:(lia) E) as (W & B & _ & _).
  exists buf. unfold carquet_buffer_init_capacity, carquet_buffer_reserve in E. cbn [Z.gtb Z.compare] in E.
  destruct (ensure_capacity_total carquet_buffer_init 4096 (init_wf) eq_refl ltac:(lia)) as (b' & E' & O). rewrite E' in E. cbn in E. by injection E as <- <-.
Qed.

Lemma builder_init_spec count size var max : 0 < count < 2 ^ 31 -> 0 <= max ->
  exists b, dict_builder_init (u64 count) size var = (CARQUET_OK, Some b) /\ indices_capacity b = count /\ is_variable_length b = var /\ max_dict_bytes b = 0 /\
    dict_inv b [] [] /\ dict_inv (with_budget b max) [] [].
Proof.
  intros Hc Hm. unfold dict_builder_init, sizeof_ptr, DICT_BUILDER_INITIAL_BUCKETS. destruct (calloc_total 1024) as [blk ->]; [lia|lia|].
  destruct init_capacity_total as (buf & -> & W & O & B). cbn [is_ok CARQUET_FAILED negb]. rewrite (u64_small count) by lia. rewrite Z.gtb_ltb, (proj2 (Z.ltb_lt 0 count)) by lia.
  rewrite u64_small by lia. destruct (malloc_total (count * 4)) as [cells E]; [lia|]. rewrite E. apply mem_malloc_spec in E as [E _].
  assert (length cells / 4 = Z.to_nat count)%nat as EL.
  { replace (length cells) with (Z.to_nat count * 4)%nat by lia. by apply Nat.div_mul. }
  rewrite EL. eexists. split; [done|]. split; [done|]. split; [done|]. split; [done|].
  assert (placed (replicate (Z.to_nat 1024) []) (2 ^ 10)) as P by (apply (placed_empty 10); lia).
  assert (over_budget (with_budget (mk_builder [] 0 0 buf [] 0 0 0 var 0 false) max) [] = false) as OB.
  { unfold over_budget. cbn [max_dict_bytes is_variable_length with_budget]. change (lenZ (page_bytes var [])) with 0. rewrite (proj2 (Z.ltb_ge max 0)) by lia. by rewrite andb_false_r. }
  split; split; cbn; try done; try (by exists 10; auto with lia); try (by rewrite concat_replicate_nil); try (rewrite length_words_of; lia).
Qed.

(** ** Adding the values of a column *)

(** The bytes the builder is given for each value. *)
Definition marshalled (p : list Z * Z) (bs : list Z) : Prop := rd_n p.1 0 p.2 = Some bs /\ p.2 < 2 ^ 32 /\ bytes_ok bs.

Definition points_to (uniq : list (list Z)) (i : Z) (bs : list Z) : Prop := rd uniq i = Some bs.

Lemma rd_app_Some {B} (l t : list B) i x : rd l i = Some x -> rd (l ++ t) i = Some x.
Proof. unfold rd. case_bool; [done|]. apply lookup_app_l_Some. Qed.

Lemma points_to_mono uniq vs i bs : points_to uniq i bs -> points_to (foldl dedup_step uniq vs) i bs.
Proof. unfold points_to. intros H. destruct (foldl_dedup_prefix vs uniq) as [t ->]. by apply rd_app_Some. Qed.

Lemma page_step_bound var uniq bs : lenZ (page_bytes var uniq) <= lenZ (page_bytes var (dedup_step uniq bs)) <= lenZ (page_bytes var uniq) + lenZ (payload var bs).
Proof. unfold dedup_step. case_bool_decide; [lia|]. rewrite page_bytes_app, length_app. lia. Qed.

Lemma page_mono var vs : forall uniq, lenZ (page_bytes var uniq) <= lenZ (page_bytes var (foldl dedup_step uniq vs)).
Proof. induction vs as [|v vs IH]; intros uniq; cbn [foldl]; [lia|]. pose proof (IH (dedup_step uniq v)). pose proof (page_step_bound var uniq v). lia. Qed.

Lemma add_values_spec ps bss : Forall2 marshalled ps bss -> forall b uniq idxs, dict_inv b uniq idxs ->
  lenZ idxs + lenZ bss <= indices_capacity b -> indices_capacity b < 2 ^ 31 ->
  lenZ (page_bytes (is_variable_length b) uniq) + lenZ (page_bytes (is_variable_length b) bss) < 2 ^ 62 ->
  exists b' ids, add_values b ps = Some (CARQUET_OK, b') /\ dict_inv b' (foldl dedup_step uniq bss) (idxs ++ ids) /\ same_setup b b' /\
    Forall2 (points_to (foldl dedup_step uniq bss)) ids bss.
Proof.
  induction 1 as [|[v n] bs ps bss (H1 & H2 & H3) _ IH]; intros b uniq idxs I Hc Hc31 Hl; cbn [add_values foldl].
  { exists b, []. rewrite app_nil_r. split; [done|]. split; [done|]. split; [by repeat split|constructor]. }
  rewrite page_bytes_cons, length_app in Hl. cbn [length] in Hc. cbn in H1, H2.
  destruct (add_spec b uniq idxs v n bs I H1 H3 H2) as (b1 & i & -> & I1 & (S1 & S2 & S3) & R1); [lia|lia|lia|]. cbn [mbind option_bind is_ok CARQUET_FAILED negb].
  pose proof (page_step_bound (is_variable_length b) uniq bs).
  destruct (IH b1 _ _ I1) as (b' & ids & -> & I' & (S1' & S2' & S3') & R'); [rewrite S1, length_app; cbn; lia|lia|rewrite S2; lia|].
  exists b', (i :: ids). split; [done|]. rewrite <- app_assoc in I'. split; [done|]. split; [unfold same_setup; split; [congruence|split; congruence]|].
  constructor; [|done]. by apply points_to_mono.
Qed.

(** With a budget: the loop stops early exactly when the page of all the distinct values
    is too large. *)
Lemma add_values_capped_spec ps bss : Forall2 marshalled ps bss -> forall b uniq idxs, dict_inv b uniq idxs ->
  lenZ idxs + lenZ bss <= indices_capacity b -> indices_capacity b < 2 ^ 31 ->
  lenZ (page_bytes (is_variable_length b) uniq) + lenZ (page_bytes (is_variable_length b) bss) < 2 ^ 62 ->
  exists b', add_values_capped b ps = Some (CARQUET_OK, b') /\ dict_abandoned b' = over_budget b (foldl dedup_step uniq bss) /\
    (dict_abandoned b' = false -> add_values b ps = Some (CARQUET_OK, b')).
Proof.
  induction 1 as [|[v n] bs ps bss (H1 & H2 & H3) _ IH]; intros b uniq idxs I Hc Hc31 Hl; cbn [add_values_capped add_values foldl].
  { exists b. split; [done|]. split; [apply I|done]. }
  rewrite page_bytes_cons, length_app in Hl. cbn [length] in Hc. cbn in H1, H2. destruct (dict_abandoned b) eqn:EA.
  { exists b. split; [done|]. split; [|congruence]. rewrite (inv_abandoned _ _ _ I) in EA |- *. rewrite EA. symmetry. unfold over_budget in *.
    pose proof (page_mono (is_variable_length b) (bs :: bss) uniq) as PM. cbn [foldl] in PM. destruct (negb _); cbn [andb] in *; [|done]. apply Z.ltb_lt in EA. apply Z.ltb_lt. lia. }
  destruct (add_spec b uniq idxs v n bs I H1 H3 H2) as (b1 & i & -> & I1 & (S1 & S2 & S3) & R1); [lia|lia|lia|]. cbn [mbind option_bind is_ok CARQUET_FAILED negb].
  pose proof (page_step_bound (is_variable_length b) uniq bs).
  destruct (IH b1 _ _ I1) as (b' & -> & EA' & R'); [rewrite S1, length_app; cbn; lia|lia|rewrite S2; lia|]. exists b'. split; [done|]. split; [|done].
  rewrite EA'. unfold over_budget. by rewrite S2, S3.
Qed.

End Builder.

(** ** The pages *)

Lemma width_loop_spec fuel : forall c w, 0 <= c < 2 ^ Z.of_nat fuel ->
  w <= width_loop fuel c w <= w + Z.of_nat fuel /\ c < 2 ^ (width_loop fuel c w - w).
Proof.
  induction fuel as [|fuel IH]; intros c w Hc; cbn [width_loop]; [change (Z.of_nat 0) with 0 in *; rewrite Z.sub_diag; lia|].
  rewrite Z.gtb_ltb. destruct (Z.ltb_spec 0 c) as [H|H]; [|rewrite Z.sub_diag; split; [lia|]; assert (c = 0) by lia; subst; cbn; lia].
  assert (0 <= c ≫ 1 < 2 ^ Z.of_nat fuel) as Hb.
  { rewrite Z.shiftr_div_pow2 by lia. change (2 ^ 1) with 2. rewrite Nat2Z.inj_succ, Z.pow_succ_r in Hc by lia. split; [apply Z.div_pos; lia|apply Z.div_lt_upper_bound; lia]. }
  destruct (IH (c ≫ 1) (w + 1) Hb) as [[B1 B2] B3]. set (r := width_loop fuel (c ≫ 1) (w + 1)) in *. split; [lia|].
  rewrite Z.shiftr_div_pow2 in B3 by lia. change (2 ^ 1) with 2 in B3. replace (r - w) with (Z.succ (r - (w + 1))) by lia. rewrite Z.pow_succ_r by lia. dlia.
Qed.

Lemma bit_width_spec n : 1 <= n < 2 ^ 32 -> 1 <= bit_width_for_count n <= 32 /\ n <= 2 ^ bit_width_for_count n.
Proof.
  intros Hn. unfold bit_width_for_count. rewrite (proj2 (Z.eqb_neq n 0)) by lia. destruct (width_loop_spec 32 (n - 1) 0) as [B1 B2]; [cbn; lia|].
  rewrite Z.sub_0_r in B2. set (r := width_loop 32 (n - 1) 0) in *. rewrite Z.gtb_ltb. destruct (Z.ltb_spec 0 r); [lia|].
  assert (r = 0) as E0 by lia. rewrite E0 in B2. cbn in B2. split; [lia|]. cbn. lia.
Qed.

Section Pages.
Context {A : Allocator} {AOk : AllocatorOk A} {AT : AllocatorTotal A} {K : UnpackKernels} {KOk : UnpackKernelsOk K}.

(** An output buffer with room to spare. *)
Definition output_ok (b : carquet_buffer_t) : Prop := buffer_wf b /\ buf_owns_data b = true /\ buf_size b < 2 ^ 62.

(** The two pages of a column: the distinct values, and the bit width with the indices. *)
Definition pages_of (var : bool) (vals : list (list Z)) (idxs : list Z) (dict index_page : list Z) : Prop :=
  dict = page_bytes var (distinct vals) /\
  exists w rle, index_page = w :: rle /\ 1 <= w <= 32 /\ lenZ (distinct vals) <= 2 ^ w /\ bytes_ok rle /\ rle_values w rle = (idxs, true) /\
    Forall2 (points_to (distinct vals)) idxs vals.

Lemma points_to_range uniq idxs vals : Forall2 (points_to uniq) idxs vals -> Forall (λ i, 0 <= i < lenZ uniq) idxs.
Proof.
  induction 1 as [|i v idxs vals H _ IH]; constructor; [|done]. unfold points_to, rd in H. destruct (Z.ltb_spec i 0); [done|]. apply lookup_lt_Some in H. lia.
Qed.

Lemma write_pages_spec b vals idxs dout iout : dict_inv b (distinct vals) idxs -> Forall2 (points_to (distinct vals)) idxs vals -> vals <> [] -> lenZ vals < 2 ^ 31 ->
  bytes_ok (page_bytes (is_variable_length b) (distinct vals)) -> lenZ (page_bytes (is_variable_length b) (distinct vals)) < 2 ^ 62 -> output_ok dout -> output_ok iout ->
  exists dout' iout' dict index_page, write_pages b (lenZ vals) dout iout = Some (CARQUET_OK, dout', iout') /\
    buf_bytes dout' = buf_bytes dout ++ dict /\ buf_bytes iout' = buf_bytes iout ++ index_page /\ pages_of (is_variable_length b) vals idxs dict index_page.
Proof.
  intros I HP Hne Hl Hb Hsz (Wd & Od & Sd) (Wi & Oi & Si). unfold write_pages. rewrite (inv_page _ _ _ I), (inv_count _ _ _ I).
  pose proof (Forall2_length HP) as Li. pose proof (inv_bound _ _ _ I) as Bu. pose proof (points_to_range _ _ _ HP) as Rg.
  assert (0 < lenZ (distinct vals)) as Hpos by (destruct vals; [done|]; inversion HP; subst; apply Forall_cons_iff in Rg as [? _]; lia).
  assert (0 < lenZ vals) by lia.
  destruct (append_total dout (page_bytes (is_variable_length b) (distinct vals)) Wd Od Hb ltac:(lia)) as (dout' & -> & Wd' & Od' & Bd' & _). cbn [snd].
  rewrite (u32_small (lenZ (distinct vals))) by lia. destruct (bit_width_spec (lenZ (distinct vals)) ltac:(lia)) as [Bw Bn]. set (w := bit_width_for_count _) in *.
  unfold carquet_buffer_append_byte. rewrite u8_small by lia.
  destruct (append_total iout [w] Wi Oi) as (i1 & -> & W1 & O1 & B1 & S1); [constructor; [unfold in_u; lia|constructor]|cbn; lia|]. cbn [snd].
  rewrite (proj2 (Z.leb_gt (lenZ vals) 0)) by lia. assert (rd_n (dict_indices b) 0 (lenZ vals) = Some idxs) as ->.
  { pose proof (inv_indices _ _ _ I) as E. pose proof (f_equal length E) as LE. rewrite length_take in LE.
    rewrite rd_n_Some by lia. change (Z.to_nat 0) with 0%nat. rewrite drop_0, Nat2Z.id, <- Li. by f_equal. }
  cbn [mbind option_bind]. destruct (encode_all_spec idxs w i1 W1 O1 ltac:(lia)) as (i2 & rle & -> & _ & B2 & Hr & Er & _).
  { eapply Forall_impl; [|exact Rg]. intros i [? ?]. split; lia. }
  { lia. } { cbn in S1. lia. }
  cbn [mbind option_bind]. exists dout', i2, (page_bytes (is_variable_length b) (distinct vals)), (w :: rle). split; [done|]. split; [done|]. split.
  { rewrite B2, B1, <- app_assoc. done. }
  split; [done|]. by exists w, rle.
Qed.

Lemma page_bytes_ok var uniq : Forall bytes_ok uniq -> bytes_ok (page_bytes var uniq).
Proof. induction 1; [constructor|]. rewrite page_bytes_cons. apply Forall_app_2; [by apply payload_ok|done]. Qed.

Lemma distinct_forall (P : list Z -> Prop) vals : Forall P vals -> Forall P (distinct vals).
Proof. rewrite !list.Forall_forall. intros H v Hv. apply H, distinct_in, Hv. Qed.

Lemma distinct_page var vals : lenZ (page_bytes var (distinct vals)) <= lenZ (page_bytes var vals).
Proof.
  unfold distinct. assert (forall uniq, lenZ (page_bytes var (foldl dedup_step uniq vals)) <= lenZ (page_bytes var uniq) + lenZ (page_bytes var vals)) as G.
  { induction vals as [|v vals IH]; intros uniq; cbn [foldl]; [lia|]. rewrite page_bytes_cons, length_app. pose proof (IH (dedup_step uniq v)). pose proof (page_step_bound var uniq v). lia. }
  specialize (G []). change (lenZ (page_bytes var [])) with 0 in G. lia.
Qed.

(** The common body of the encoders. *)
Lemma dictionary_encode_spec {T} (marshal : T -> list Z * Z) (value_of : T -> list Z) size var vs dout iout :
  Forall (λ v, marshalled (marshal v) (value_of v)) vs -> vs <> [] -> lenZ vs < 2 ^ 31 -> lenZ (page_bytes var (value_of <$> vs)) < 2 ^ 62 -> output_ok dout -> output_ok iout ->
  exists dout' iout' dict index_page idxs, dictionary_encode marshal size var vs (lenZ vs) dout iout = Some (CARQUET_OK, dout', iout') /\
    buf_bytes dout' = buf_bytes dout ++ dict /\ buf_bytes iout' = buf_bytes iout ++ index_page /\ pages_of var (value_of <$> vs) idxs dict index_page.
Proof.
  intros Hm Hne Hl Hp Hd Hi. unfold dictionary_encode. assert (0 < lenZ vs) by (destruct vs; [done|cbn; lia]).
  destruct (builder_init_spec (lenZ vs) size var 0 ltac:(lia) ltac:(lia)) as (b & -> & Ec & Ev & _ & I & _).
  rewrite (proj2 (Z.leb_gt (lenZ vs) 0)), rd_n_all by lia. cbn [mbind option_bind].
  assert (Forall2 marshalled (marshal <$> vs) (value_of <$> vs)) as F2 by (clear -Hm; induction Hm; constructor; auto).
  assert (lenZ (value_of <$> vs) = lenZ vs) as Lv by (by rewrite length_fmap).
  destruct (add_values_spec _ _ F2 b [] [] I) as (b' & ids & -> & I' & (S1 & S2 & S3) & R); [cbn; lia|lia|rewrite Ev; change (lenZ (page_bytes var [])) with 0; lia|].
  cbn [mbind option_bind is_ok CARQUET_FAILED negb app] in *. rewrite <- Lv. rewrite Ev in S2. rewrite <- S2.
  destruct (write_pages_spec b' (value_of <$> vs) ids dout iout) as (dout' & iout' & dict & ip & E & Bd & Bi & Pg); try done.
  - intros E0. apply fmap_nil_inv in E0. done.
  - lia.
  - apply page_bytes_ok, distinct_forall, Forall_fmap. eapply Forall_impl; [|exact Hm]. intros v (_ & _ & ?). done.
  - pose proof (distinct_page (is_variable_length b') (value_of <$> vs)) as D. rewrite S2 in *. lia.
  - rewrite E. by exists dout', iout', dict, ip, ids.
Qed.
End Pages.

(** ** Decoding *)

(** The four element types of the fixed-width encoders and decoders. *)
Inductive dict_type := DT_int32 | DT_int64 | DT_float | DT_double.

Definition dt_width (t : dict_type) : nat := match t with DT_int32 | DT_float => 4 | DT_int64 | DT_double => 8 end.
Definition dt_wrap (t : dict_type) : Z -> Z := match t with DT_int32 => i32 | DT_int64 => i64 | _ => id end.
Definition dt_ok (t : dict_type) : Z -> Prop := match t with DT_int32 => in_i 32 | DT_int64 => in_i 64 | DT_float => in_u 32 | DT_double => in_u 64 end.
Definition dt_bytes (t : dict_type) : Z -> list Z :=
  match t with DT_int32 => carquet_write_i32_le | DT_int64 => carquet_write_i64_le | DT_float => carquet_write_f32_le | DT_double => carquet_write_f64_le end.

Definition dt_encode {A : Allocator} (t : dict_type) :=
  match t with
  | DT_int32 => carquet_dictionary_encode_int32 | DT_int64 => carquet_dictionary_encode_int64
  | DT_float => carquet_dictionary_encode_float | DT_double => carquet_dictionary_encode_double
  end.

Definition dt_decode {A : Allocator} {K : UnpackKernels} (t : dict_type) :=
  match t with
  | DT_int32 => carquet_dictionary_decode_int32 | DT_int64 => carquet_dictionary_decode_int64
  | DT_float => carquet_dictionary_decode_float | DT_double => carquet_dictionary_decode_double
  end.

(** The values of a dictionary page. *)
Definition cells (t : dict_type) (n : Z) (dict : list Z) : list Z := dt_wrap t <$> words_of (Z.to_nat n) (dt_width t) dict.

(** The indices an index page denotes: at most [n]. *)
Definition page_indices (index_page : list Z) (n : Z) : list Z :=
  match index_page with
  | w :: rle => if w <=? 32 then take (Z.to_nat n) (rle_values w rle).1 else []
  | [] => []
  end.

(** What decoding a pair of pages means. *)
Definition decode_ref (t : dict_type) (dict : list Z) (dict_size count : Z) (index_page : list Z) (n : Z) : carquet_status_t * option (list Z) :=
  if n <=? 0 then (CARQUET_OK, None) else
  let idxs := page_indices index_page n in
  if bool_decide (0 < count /\ count * Z.of_nat (dt_width t) <= dict_size /\ lenZ idxs = n /\ Forall (λ i, i < count) idxs)
  then (CARQUET_OK, Some ((λ i, cells t count dict !!! Z.to_nat i) <$> idxs)) else (CARQUET_ERROR_DECODE, None).

Section Decode.
Context {A : Allocator} {K : UnpackKernels} {KOk : UnpackKernelsOk K}.

Lemma words_of_take n w (bs : list Z) m : (n * w <= m)%nat -> words_of n w (take m bs) = words_of n w bs.
Proof.
  revert bs m. induction n as [|n IH]; intros bs m Hm; cbn [words_of]; [done|]. rewrite take_take, skipn_firstn_comm, Nat.min_l by lia.
  f_equal. apply IH. lia.
Qed.

(** The element array the gather reads, whatever the alignment of the page. *)
Lemma aligned_cells t aligned dict count : 0 < count < 2 ^ 31 -> count * Z.of_nat (dt_width t) <= lenZ dict ->
  ensure_dict_aligned aligned (dt_wrap t) (Z.of_nat (dt_width t)) dict (u64 (u64 count * Z.of_nat (dt_width t))) = Some (Some (cells t count dict)) \/
  ensure_dict_aligned aligned (dt_wrap t) (Z.of_nat (dt_width t)) dict (u64 (u64 count * Z.of_nat (dt_width t))) = Some None /\
    mem_malloc (count * Z.of_nat (dt_width t)) = None.
Proof.
  intros Hc Hl. assert (1 <= Z.of_nat (dt_width t) <= 8) by (destruct t; cbn; lia). unfold ensure_dict_aligned.
  rewrite (u64_small count), u64_small, Z.div_mul, Nat2Z.id by nia. destruct aligned; [by left|].
  destruct (mem_malloc _) eqn:Em; [|by right]. left. rewrite rd_n_Some by nia. cbn [mbind option_bind]. change (Z.to_nat 0) with 0%nat.
  rewrite drop_0, words_of_take by (rewrite Z2Nat.inj_mul, Nat2Z.id by lia; lia). done.
Qed.

Lemma length_cells t n dict : 0 <= n -> lenZ (cells t n dict) = n.
Proof. intros. unfold cells. rewrite length_fmap, length_words_of. lia. Qed.

Lemma dictionary_decode_cases t read aligned dict dict_size count idata isize n :
  bytes_ok idata -> 0 <= isize <= lenZ idata -> 0 <= dict_size <= lenZ dict -> count < 2 ^ 31 -> n < 2 ^ 61 ->
  let r := dictionary_decode (dt_wrap t) read (Z.of_nat (dt_width t)) false aligned (Some dict) dict_size count idata isize n in
  r = Some (decode_ref t dict dict_size count (take (Z.to_nat isize) idata) n) \/
  r = Some (CARQUET_ERROR_OUT_OF_MEMORY, None) /\ (mem_malloc (u64 (n * 4)) = None \/ (0 < count /\ mem_malloc (count * Z.of_nat (dt_width t)) = None)).
Proof.
  intros Hb Hi Hd Hc Hn. unfold dictionary_decode, decode_ref. destruct (Z.leb_spec n 0); [by left|]. assert (1 <= Z.of_nat (dt_width t) <= 8) by (destruct t; cbn; lia).
  destruct (Z.leb_spec count 0); [left; by rewrite bool_decide_false by lia|]. rewrite (u64_small count), (u64_small (count * _)) by nia.
  destruct (Z.ltb_spec dict_size (count * Z.of_nat (dt_width t))); [left; by rewrite bool_decide_false by lia|].
  destruct (Z.ltb_spec isize 1).
  { left. replace isize with 0 by lia. change (Z.to_nat 0) with 0%nat. rewrite take_0. cbn [page_indices length]. by rewrite bool_decide_false by lia. }
  destruct idata as [|w rle]; [cbn in Hi; lia|]. apply Forall_cons_iff in Hb as [Hw Hb]. change (rd (w :: rle) 0) with (Some w). cbn [mbind option_bind].
  destruct (mem_malloc (u64 (n * 4))) as [blk|]; [|by auto]. change (ptr_add (w :: rle) 1) with rle. cbn [length] in Hi.
  rewrite decode_all_values by (done || lia). replace (Z.to_nat isize) with (S (Z.to_nat (isize - 1))) by lia. cbn [take page_indices mbind option_bind].
  rewrite (proj2 (Z.leb_le 0 w)) by (unfold in_u in Hw; lia). cbn [andb]. set (idxs := if w <=? 32 then _ else _).
  assert (Forall (in_u 32) idxs) as Ri.
  { unfold idxs. destruct (Z.leb_spec w 32); [|constructor]. apply Forall_take. eapply Forall_impl; [|apply rle_values_range]; [|unfold in_u in Hw; lia].
    intros i [? ?]. split; [done|]. assert (2 ^ w <= 2 ^ 32) by (apply Z.pow_le_mono_r; lia). lia. }
  assert (lenZ idxs <= n) by (unfold idxs; destruct (w <=? 32); rewrite ?length_take; cbn; lia).
  destruct (Z.ltb_spec (lenZ idxs) n); [left; by rewrite bool_decide_false by lia|].
  destruct (aligned_cells t aligned dict count) as [E|[E Em]]; [lia|lia| |]; rewrite (u64_small count), u64_small in E by nia; rewrite E;
    cbn [mbind option_bind]; [|by auto].
  left. rewrite checked_gather_cases by (rewrite ?length_cells by lia; (done || lia)). cbn [mbind option_bind]. rewrite (proj2 (Z.leb_gt count 0)) by lia.
  case_bool_decide as HF; cbn [negb]; [by rewrite bool_decide_true by (repeat split; (done || lia))|]. rewrite bool_decide_false; [done|]. by intros (_ & _ & _ & ?).
Qed.

(** ** Big-endian hosts *)

Definition dt_read (t : dict_type) : list Z -> option Z :=
  match t with DT_int32 => carquet_read_i32_le | DT_int64 => carquet_read_i64_le | DT_float => carquet_read_f32_le | DT_double => carquet_read_f64_le end.

Lemma dt_read_spec t p : (dt_width t <= length p)%nat -> dt_read t p = Some (dt_wrap t (le_val (take (dt_width t) p))).
Proof.
  intros H. destruct t; cbn in H |- *; unfold carquet_read_i32_le, carquet_read_i64_le, carquet_read_f32_le, carquet_read_f64_le, carquet_read_u32_le, carquet_read_u64_le;
    rewrite rd_n_length by lia; done.
Qed.

Lemma words_of_lookup n w : forall (bs : list Z) i, (i < n)%nat -> words_of n w bs !! i = Some (le_val (take w (drop (i * w) bs))).
Proof.
  induction n as [|n IH]; intros bs [|i] Hi; cbn [words_of lookup list_lookup]; [lia|lia|done|]. fold (words_of n w (drop w bs)).
  assert (words_of n w (drop w bs) !! i = Some (le_val (take w (drop (S i * w) bs)))) as E by (rewrite IH by lia; rewrite drop_drop; done). exact E.
Qed.

Lemma cells_lookup t n dict i : 0 <= i < n -> cells t n dict !!! Z.to_nat i = dt_wrap t (le_val (take (dt_width t) (drop (Z.to_nat i * dt_width t) dict))).
Proof. intros Hi. apply list_lookup_total_correct. unfold cells. rewrite list_lookup_fmap, words_of_lookup by lia. done. Qed.

Lemma gather_be_spec t dict count idxs : count * Z.of_nat (dt_width t) <= lenZ dict -> Forall (λ i, 0 <= i < count) idxs ->
  gather_be (dt_read t) (Z.of_nat (dt_width t)) dict idxs = Some ((λ i, cells t count dict !!! Z.to_nat i) <$> idxs).
Proof.
  intros Hd. induction 1 as [|i idxs Hi _ IH]; cbn [gather_be fmap list_fmap]; [done|]. assert (0 < Z.of_nat (dt_width t)) by (destruct t; cbn; lia).
  rewrite (proj2 (Z.leb_le (i * _) _)) by nia. rewrite dt_read_spec by (pose proof (length_ptr_add dict (i * Z.of_nat (dt_width t))); nia).
  cbn [mbind option_bind]. rewrite IH. cbn [mbind option_bind]. rewrite cells_lookup by done. unfold ptr_add. by rewrite Z2Nat.inj_mul, Nat2Z.id by lia.
Qed.

Lemma dictionary_decode_be t dict dict_size count idata isize n : bytes_ok idata -> 1 <= isize <= lenZ idata -> 0 <= dict_size <= lenZ dict -> 0 < count < 2 ^ 31 ->
  count * Z.of_nat (dt_width t) <= dict_size -> 0 < n < 2 ^ 61 -> is_Some (mem_malloc (u64 (n * 4))) ->
  let idxs := page_indices (take (Z.to_nat isize) idata) n in
  lenZ idxs = n -> Forall (λ i, 0 <= i < count) idxs ->
  dictionary_decode (dt_wrap t) (dt_read t) (Z.of_nat (dt_width t)) true false (Some dict) dict_size count idata isize n =
    Some (CARQUET_OK, Some ((λ i, cells t count dict !!! Z.to_nat i) <$> idxs)).
Proof.
  intros Hb Hi Hd Hc Hcd Hn [blk Em] idxs Li Fi. unfold dictionary_decode. assert (1 <= Z.of_nat (dt_width t) <= 8) by (destruct t; cbn; lia).
  rewrite (proj2 (Z.leb_gt n 0)), (proj2 (Z.leb_gt count 0)) by lia. rewrite (u64_small count), (u64_small (count * _)) by nia.
  rewrite (proj2 (Z.ltb_ge dict_size _)), (proj2 (Z.ltb_ge isize 1)) by lia. destruct idata as [|w rle]; [cbn in Hi; lia|]. apply Forall_cons_iff in Hb as [Hw Hb].
  change (rd (w :: rle) 0) with (Some w). cbn [mbind option_bind]. rewrite Em. change (ptr_add (w :: rle) 1) with rle. cbn [length] in Hi.
  rewrite decode_all_values by (done || lia). unfold idxs in *. replace (Z.to_nat isize) with (S (Z.to_nat (isize - 1))) in * by lia. cbn [take page_indices] in *. cbn [mbind option_bind].
  rewrite (proj2 (Z.leb_le 0 w)) by (unfold in_u in Hw; lia). cbn [andb]. rewrite (proj2 (Z.ltb_ge _ n)) by lia.
  rewrite (gather_be_spec t dict count) by (done || lia). done.
Qed.

End Decode.

(** ** Properties *)

Lemma dt_bytes_spec t v : dt_ok t v -> length (dt_bytes t v) = dt_width t /\ bytes_ok (dt_bytes t v) /\ dt_wrap t (le_val (dt_bytes t v)) = v.
Proof.
  intros H. assert (dt_read t (dt_bytes t v ++ []) = Some v) as R.
  { destruct t; cbn in *; [by apply read_write_i32|by apply read_write_i64|by apply read_write_u32|by apply read_write_u64]. }
  rewrite app_nil_r in R. assert (length (dt_bytes t v) = dt_width t) as L by (destruct t; apply length_le_bytes). split; [done|]. split; [destruct t; apply le_bytes_ok|].
  rewrite dt_read_spec, <- L, firstn_all in R by lia. by injection R.
Qed.

Lemma concat_chunk w (uniq : list (list Z)) r : Forall (λ u, length u = w) uniq -> forall i u, uniq !! i = Some u -> take w (drop (i * w) (concat uniq ++ r)) = u.
Proof.
  induction 1 as [|x uniq Hx _ IH]; intros [|i] u Hu; cbn [lookup list_lookup] in Hu; try discriminate Hu; cbn [concat]; rewrite <- app_assoc.
  - injection Hu as <-. rewrite drop_0, <- Hx. apply take_app_length.
  - replace (S i * w)%nat with (length x + i * w)%nat by lia. rewrite drop_app_add. by apply IH.
Qed.

Lemma concat_length w (uniq : list (list Z)) : Forall (λ u, length u = w) uniq -> length (concat uniq) = (length uniq * w)%nat.
Proof. induction 1 as [|x uniq Hx _ IH]; cbn [concat length]; [done|]. rewrite length_app. lia. Qed.

Lemma page_bytes_fixed uniq : page_bytes false uniq = concat uniq.
Proof. unfold page_bytes. f_equal. apply list_fmap_id. Qed.

(** Following the indices through the page gives the column back. *)
Lemma gathered t uniq r vs idxs : Forall (dt_ok t) vs -> Forall (λ u, length u = dt_width t) uniq -> Forall2 (points_to uniq) idxs (dt_bytes t <$> vs) ->
  (λ i, cells t (lenZ uniq) (concat uniq ++ r) !!! Z.to_nat i) <$> idxs = vs.
Proof.
  intros Hv Hu. revert idxs. induction Hv as [|v vs Hv _ IH]; intros idxs H; inversion H as [|i ? idxs' ? Hi Hr]; subst; [done|]. cbn [fmap list_fmap]. f_equal; [|by apply IH].
  pose proof (points_to_range uniq [i] [dt_bytes t v] ltac:(by repeat constructor)) as R. apply Forall_cons_iff in R as [R _]. rewrite cells_lookup by done.
  unfold points_to in Hi. rewrite rd_lookup in Hi by lia. rewrite (concat_chunk _ _ _ Hu _ _ Hi). by apply dt_bytes_spec.
Qed.

Lemma distinct_length vals : lenZ (distinct vals) <= lenZ vals.
Proof.
  unfold distinct. assert (forall u, length (foldl dedup_step u vals) <= length u + length vals)%nat as G; [|specialize (G []); cbn in G; lia].
  induction vals as [|v l IH]; intros u; cbn [foldl length]; [lia|]. specialize (IH (dedup_step u v)). unfold dedup_step in *.
  case_bool_decide; rewrite ?length_app in IH; cbn in IH; lia.
Qed.

Lemma dt_width_range t : (1 <= dt_width t <= 8)%nat.
Proof. destruct t; cbn; lia. Qed.

Section Properties.
Context {A : Allocator} {AOk : AllocatorOk A} {AT : AllocatorTotal A} {K : UnpackKernels} {KOk : UnpackKernelsOk K}.

Lemma decode_pages t vs idxs dict ip big_endian aligned r r' : Forall (dt_ok t) vs -> vs <> [] -> lenZ vs < 2 ^ 31 -> pages_of false (dt_bytes t <$> vs) idxs dict ip -> bytes_ok r' ->
  dt_decode t big_endian aligned (Some (dict ++ r)) (lenZ dict) (lenZ (distinct (dt_bytes t <$> vs))) (ip ++ r') (lenZ ip) (lenZ vs) = Some (CARQUET_OK, Some vs).
Proof.
  intros Hv Hne Hl (ED & w & rle & -> & Bw & Bn & Hr & Er & HPt) Hr'. pose proof (dt_width_range t) as Hw. pose proof (distinct_length (dt_bytes t <$> vs)) as Lu.
  assert (Forall (λ u, length u = dt_width t) (dt_bytes t <$> vs)) as HL by (apply Forall_fmap; eapply Forall_impl; [|exact Hv]; intros v Ho; by apply dt_bytes_spec).
  pose proof (distinct_forall _ _ HL) as HU. set (uniq := distinct (dt_bytes t <$> vs)) in *. rewrite page_bytes_fixed in ED.
  pose proof (points_to_range _ _ _ HPt) as Rg. pose proof (Forall2_length HPt) as Li. rewrite length_fmap in Li, Lu.
  assert (0 < lenZ vs) by (destruct vs; [done|cbn; lia]).
  assert (0 < lenZ uniq) by (destruct idxs; [cbn in Li; lia|]; apply Forall_cons_iff in Rg as [? _]; lia).
  assert (lenZ dict = lenZ uniq * Z.of_nat (dt_width t)) as Ld by (rewrite ED, (concat_length _ _ HU); lia).
  assert (take (Z.to_nat (lenZ (w :: rle))) ((w :: rle) ++ r') = w :: rle) as ET by (rewrite Nat2Z.id; apply take_app_length).
  assert (page_indices (w :: rle) (lenZ vs) = idxs) as EI by (cbn [page_indices]; rewrite (proj2 (Z.leb_le w 32)) by lia; rewrite Er, <- Li, Nat2Z.id; apply firstn_all).
  assert (bytes_ok ((w :: rle) ++ r')) as HB by (apply Forall_app_2; [constructor; [unfold in_u; lia|done]|done]).
  pose proof (gathered t uniq r vs idxs Hv HU HPt) as GA. rewrite <- ED in GA.
  replace (dt_decode t) with (dictionary_decode (dt_wrap t) (dt_read t) (Z.of_nat (dt_width t))) by (by destruct t).
  assert (is_Some (mem_malloc (u64 (lenZ vs * 4)))) as Em by (rewrite u64_small by lia; destruct (malloc_total (lenZ vs * 4)) as [blk ->]; [lia|by eexists]).
  destruct big_endian.
  - change (dictionary_decode (dt_wrap t) (dt_read t) (Z.of_nat (dt_width t)) true aligned) with (dictionary_decode (dt_wrap t) (dt_read t) (Z.of_nat (dt_width t)) true false).
    rewrite dictionary_decode_be; rewrite ?ET, ?EI; rewrite ?length_app; try done; try lia; [by rewrite GA|cbn [length]; lia].
  - destruct (dictionary_decode_cases t (dt_read t) aligned (dict ++ r) (lenZ dict) (lenZ uniq) ((w :: rle) ++ r') (lenZ (w :: rle)) (lenZ vs)) as [->|[_ [Em'|[_ Em']]]];
      rewrite ?length_app; try done; try lia.
    + rewrite ET. unfold decode_ref. rewrite (proj2 (Z.leb_gt (lenZ vs) 0)) by lia. rewrite EI. rewrite bool_decide_true; [by rewrite GA|].
      split; [lia|]. split; [lia|]. split; [lia|]. eapply Forall_impl; [|exact Rg]. intros i [_ ?]. done.
    + rewrite Em' in Em. by destruct Em.
    + destruct (malloc_total (lenZ uniq * Z.of_nat (dt_width t))) as [blk E2]; [nia|congruence].
Qed.

Lemma marshalled_fixed t vs : Forall (dt_ok t) vs -> Forall (λ v, marshalled (dt_bytes t v, Z.of_nat (dt_width t)) (dt_bytes t v)) vs.
Proof.
  intros Hv. eapply Forall_impl; [|exact Hv]. intros v Ho. destruct (dt_bytes_spec t v Ho) as (L & B & _). pose proof (dt_width_range t).
  unfold marshalled. cbn [fst snd]. rewrite <- L. split; [apply rd_n_all|]. split; [lia|done].
Qed.

Lemma page_fixed_bound t vs : Forall (dt_ok t) vs -> lenZ vs < 2 ^ 31 -> lenZ (page_bytes false (dt_bytes t <$> vs)) < 2 ^ 62.
Proof.
  intros Hv Hl. pose proof (dt_width_range t). rewrite page_bytes_fixed, (concat_length (dt_width t)), length_fmap; [nia|].
  apply Forall_fmap; eapply Forall_impl; [|exact Hv]; intros v Ho; by apply dt_bytes_spec.
Qed.

(** C3: dictionary round trip.  With a working allocator each fixed-width encoder
    succeeds on a non-empty column and appends a dictionary page that holds each distinct
    value once, in order of first appearance, and an index page; decoding the two pages,
    whatever follows them, on hosts of either byte order and for pages of any alignment,
    returns exactly the column. *)
Theorem dictionary_roundtrip t vs dout iout : Forall (dt_ok t) vs -> vs <> [] -> lenZ vs < 2 ^ 31 -> output_ok dout -> output_ok iout ->
  exists dout' iout' dict index_page, dt_encode t vs (lenZ vs) dout iout = Some (CARQUET_OK, dout', iout') /\
    buf_bytes dout' = buf_bytes dout ++ dict /\ buf_bytes iout' = buf_bytes iout ++ index_page /\
    let uniq := distinct (dt_bytes t <$> vs) in
    dict = concat uniq /\
    forall big_endian aligned r r', bytes_ok r' ->
      dt_decode t big_endian aligned (Some (dict ++ r)) (lenZ dict) (lenZ uniq) (index_page ++ r') (lenZ index_page) (lenZ vs) = Some (CARQUET_OK, Some vs).
Proof.
  intros Hv Hne Hl Hd Hi.
  destruct (dictionary_encode_spec (λ v, (dt_bytes t v, Z.of_nat (dt_width t))) (dt_bytes t) (Z.of_nat (dt_width t)) false vs dout iout
    (marshalled_fixed t vs Hv) Hne Hl (page_fixed_bound t vs Hv Hl) Hd Hi) as (dout' & iout' & dict & ip & idxs & E & Bd & Bi & Pg).
  exists dout', iout', dict, ip. split; [destruct t; exact E|]. split; [done|]. split; [done|]. split; [|intros; by apply (decode_pages t vs idxs)].
  destruct Pg as [-> _]. apply page_bytes_fixed.
Qed.

(** C33: dictionary decoding is exact and safe on arbitrary pages.  For any bytes the
    decoders of a little-endian host return, without an access outside the pages and
    whatever the alignment: OK with the values the indices select exactly when both pages
    are long enough, the index page denotes as many indices as asked for and every index is
    below the dictionary size, and otherwise a decode error with nothing stored. *)
Theorem dictionary_decode_exact t aligned dict dict_size count idata isize n :
  bytes_ok idata -> 0 <= isize <= lenZ idata -> 0 <= dict_size <= lenZ dict -> count < 2 ^ 31 -> n < 2 ^ 61 ->
  dt_decode t false aligned (Some dict) dict_size count idata isize n = Some (decode_ref t dict dict_size count (take (Z.to_nat isize) idata) n).
Proof.
  intros Hb Hi Hd Hc Hn. replace (dt_decode t) with (dictionary_decode (dt_wrap t) (dt_read t) (Z.of_nat (dt_width t))) by (by destruct t).
  destruct (Z.leb_spec n 0) as [H0|H0]; [unfold dictionary_decode, decode_ref; by rewrite (proj2 (Z.leb_le n 0))|].
  destruct (dictionary_decode_cases t (dt_read t) aligned dict dict_size count idata isize n) as [->|[_ [E|[E0 E]]]]; try done.
  - rewrite u64_small in E by lia. destruct (malloc_total (n * 4)) as [blk E2]; [lia|congruence].
  - destruct (malloc_total (count * Z.of_nat (dt_width t))) as [blk E2]; [|congruence]. pose proof (dt_width_range t). nia.
Qed.

(** ** The encoder with a budget *)

(** A column the encoder accepts, and the per-type encoder for it. *)
Inductive dict_column := DCFixed (t : dict_type) (vs : list Z) | DCArrays (vs : list carquet_byte_array_t).

Definition dc_type (c : dict_column) : carquet_physical_type_t :=
  match c with
  | DCFixed DT_int32 _ => CARQUET_PHYSICAL_INT32 | DCFixed DT_int64 _ => CARQUET_PHYSICAL_INT64
  | DCFixed DT_float _ => CARQUET_PHYSICAL_FLOAT | DCFixed DT_double _ => CARQUET_PHYSICAL_DOUBLE
  | DCArrays _ => CARQUET_PHYSICAL_BYTE_ARRAY
  end.
Definition dc_fixed (c : dict_column) : list Z := match c with DCFixed _ vs => vs | DCArrays _ => [] end.
Definition dc_arrays (c : dict_column) : list carquet_byte_array_t := match c with DCFixed _ _ => [] | DCArrays vs => vs end.
Definition dc_var (c : dict_column) : bool := match c with DCFixed _ _ => false | DCArrays _ => true end.
Definition dc_values (c : dict_column) : list (list Z) := match c with DCFixed t vs => dt_bytes t <$> vs | DCArrays vs => array_val <$> vs end.
Definition dc_count (c : dict_column) : Z := lenZ (dc_values c).
Definition dc_ok (c : dict_column) : Prop :=
  match c with DCFixed t vs => Forall (dt_ok t) vs | DCArrays vs => Forall array_ok vs end /\
  0 < dc_count c < 2 ^ 31 /\ lenZ (page_bytes (dc_var c) (dc_values c)) < 2 ^ 62.

Definition dc_encode (c : dict_column) (dout iout : carquet_buffer_t) :=
  match c with DCFixed t vs => dt_encode t vs (dc_count c) dout iout | DCArrays vs => carquet_dictionary_encode_byte_array vs (dc_count c) dout iout end.

(** The marshalled values of the column. *)
Definition dc_marshal (c : dict_column) : list (list Z * Z) :=
  match c with
  | DCFixed t vs => (λ v, (dt_bytes t v, Z.of_nat (dt_width t))) <$> vs
  | DCArrays vs => (λ v, (default [] (ba_data v), u64 (ba_length v))) <$> vs
  end.

Lemma marshalled_array v : array_ok v -> marshalled (default [] (ba_data v), u64 (ba_length v)) (array_val v).
Proof.
  intros Hv. pose proof (array_val_ok v Hv) as B. destruct Hv as [Hl Hd]. unfold marshalled. cbn [fst snd]. rewrite u64_small by lia. split; [|split; [lia|done]].
  unfold array_val. destruct (ba_data v) as [p|]; cbn [default] in *; unfold id in *; [rewrite rd_n_Some by lia; by rewrite drop_0|by rewrite Hd].
Qed.

Lemma dc_marshalled c : dc_ok c -> Forall2 marshalled (dc_marshal c) (dc_values c).
Proof.
  intros [H _]. destruct c as [t vs|vs]; cbn [dc_marshal dc_values].
  - apply marshalled_fixed in H. induction H; constructor; auto.
  - induction H as [|v vs Hv _ IH]; constructor; [by apply marshalled_array|done].
Qed.

Lemma capped_values_spec c : capped_values (dc_type c) (dc_fixed c) (dc_arrays c) (dc_count c) = Some (dc_marshal c).
Proof.
  unfold dc_count. destruct c as [t vs|vs]; cbn [dc_fixed dc_arrays dc_values]; rewrite length_fmap; [destruct t|]; cbn [dc_type capped_values]; rewrite rd_n_all; done.
Qed.

Lemma dc_encode_builder c dout iout : dc_ok c -> dc_encode c dout iout =
  (let '(status, b) := dict_builder_init (u64 (dc_count c)) (match dc_type c with CARQUET_PHYSICAL_INT32 | CARQUET_PHYSICAL_FLOAT => 4 | CARQUET_PHYSICAL_BYTE_ARRAY => 0 | _ => 8 end) (dc_var c) in
   match b with
   | None => Some (status, dout, iout)
   | Some b => '(status, b) ← add_values b (dc_marshal c);
       if negb (is_ok status) then Some (status, dout, iout) else write_pages b (dc_count c) dout iout
   end).
Proof.
  intros (_ & Hc & _). unfold dc_count in *. destruct c as [t vs|vs]; cbn [dc_values] in Hc; rewrite length_fmap in Hc.
  - destruct t; cbn [dc_encode dt_encode dc_type dc_var dc_values dc_marshal]; unfold carquet_dictionary_encode_int32, carquet_dictionary_encode_int64, carquet_dictionary_encode_float,
      carquet_dictionary_encode_double, dictionary_encode, dc_count; cbn [dc_values]; rewrite length_fmap; destruct (dict_builder_init _ _ _) as [s [b|]]; try done;
      rewrite (proj2 (Z.leb_gt (lenZ vs) 0)), rd_n_all by lia; done.
  - cbn [dc_encode dc_type dc_var dc_values dc_marshal]. unfold carquet_dictionary_encode_byte_array, dictionary_encode, dc_count. cbn [dc_values]. rewrite length_fmap.
    destruct (dict_builder_init _ _ _) as [s [b|]]; [|done]. rewrite (proj2 (Z.leb_gt (lenZ vs) 0)), rd_n_all by lia. done.
Qed.

Lemma points_to_inj uniq vals : NoDup uniq -> forall a b, Forall2 (points_to uniq) a vals -> Forall2 (points_to uniq) b vals -> a = b.
Proof.
  intros N. induction vals as [|v vals IH]; intros a b Ha Hb; inversion Ha as [|i ? a' ? Hi Ha']; inversion Hb as [|j ? b' ? Hj Hb']; subst; [done|].
  f_equal; [|by apply IH]. unfold points_to, rd in Hi, Hj. destruct (Z.ltb_spec i 0); [done|]. destruct (Z.ltb_spec j 0); [done|].
  pose proof (NoDup_lookup uniq _ _ _ N Hi Hj). lia.
Qed.

Lemma write_pages_same b1 b2 uniq idxs dout iout : dict_inv b1 uniq idxs -> dict_inv b2 uniq idxs -> is_variable_length b1 = is_variable_length b2 -> 0 < lenZ idxs ->
  write_pages b1 (lenZ idxs) dout iout = write_pages b2 (lenZ idxs) dout iout.
Proof.
  intros I1 I2 Ev Hp. unfold write_pages. rewrite (inv_page _ _ _ I1), (inv_page _ _ _ I2), Ev, (inv_count _ _ _ I1), (inv_count _ _ _ I2).
  rewrite (proj2 (Z.leb_gt (lenZ idxs) 0)) by lia. assert (forall b, dict_inv b uniq idxs -> rd_n (dict_indices b) 0 (lenZ idxs) = Some idxs) as R.
  { intros b I. pose proof (inv_indices _ _ _ I) as E. pose proof (f_equal length E) as LE. rewrite length_take in LE. rewrite rd_n_Some by lia. rewrite drop_0, Nat2Z.id. by f_equal. }
  by rewrite !R.
Qed.

(** The single-pass encoder with a budget.  It reports [abandoned], leaving both
    outputs untouched, exactly when the dictionary page of all the distinct values is
    larger than a non-zero budget, although it stops at the first value that exceeds it;
    otherwise it does exactly what the encoder of the column's type does. *)
Theorem dictionary_capped_exact c max dout iout : dc_ok c -> 0 <= max ->
  carquet_dictionary_encode_capped (dc_type c) (dc_fixed c) (dc_arrays c) (dc_count c) max dout iout =
    if negb (max =? 0) && (max <? lenZ (page_bytes (dc_var c) (distinct (dc_values c)))) then Some (CARQUET_OK, true, dout, iout)
    else '(s, d, i) ← dc_encode c dout iout; Some (s, false, d, i).
Proof.
  intros Hok Hm. rewrite dc_encode_builder by done. pose proof (dc_marshalled c Hok) as F2. destruct Hok as (_ & Hc & Hp). unfold carquet_dictionary_encode_capped.
  rewrite (proj2 (Z.leb_gt (dc_count c) 0)), capped_values_spec by lia.
  match goal with |- _ = if _ then _ else _ (let '(_, _) := dict_builder_init _ ?sz _ in _) => set (size := sz) end.
  transitivity (let '(status, b) := dict_builder_init (u64 (dc_count c)) size (dc_var c) in
    match b with
    | None => Some (status, false, dout, iout)
    | Some b => '(status, b) ← add_values_capped (with_budget b max) (dc_marshal c);
        if negb (is_ok status) then Some (status, false, dout, iout) else
        if dict_abandoned b then Some (CARQUET_OK, true, dout, iout) else
        '(status, d, i) ← write_pages b (dc_count c) dout iout; Some (status, false, d, i)
    end); [by destruct c as [[] ?|?]|].
  destruct (builder_init_spec (dc_count c) size (dc_var c) max ltac:(lia) Hm) as (b & -> & Ec & Ev & E0 & I & Im).
  destruct (add_values_capped_spec _ _ F2 (with_budget b max) [] [] Im) as (b1 & -> & EA & Efull); [unfold dc_count in *; cbn; lia|cbn; lia|cbn; rewrite Ev; lia|].
  destruct (add_values_spec _ _ F2 (with_budget b max) [] [] Im) as (b2 & ids2 & E2 & I2 & (_ & V2 & _) & R2); [unfold dc_count in *; cbn; lia|cbn; lia|cbn; rewrite Ev; lia|].
  destruct (add_values_spec _ _ F2 b [] [] I) as (b3 & ids3 & -> & I3 & (_ & V3 & _) & R3); [unfold dc_count in *; cbn; lia|lia|cbn; rewrite Ev; lia|].
  cbn [mbind option_bind is_ok CARQUET_FAILED negb app] in *. fold (distinct (dc_values c)) in *. unfold over_budget in EA. cbn [max_dict_bytes is_variable_length with_budget] in EA.
  rewrite Ev in EA. rewrite <- EA. destruct (dict_abandoned b1) eqn:Ab; [done|]. rewrite Efull in E2 by done. injection E2 as ->.
  pose proof (points_to_inj _ _ (distinct_nodup _) _ _ R2 R3) as ->. assert (dc_count c = lenZ ids3) as EL by (unfold dc_count; by rewrite (Forall2_length R3)). rewrite EL.
  rewrite (write_pages_same b2 b3 _ ids3 dout iout I2 I3) by (rewrite ?V2, ?V3; cbn; (done || lia)). done.
Qed.

(** Dictionary encoding of byte arrays.  With a working allocator the encoder
    succeeds on a non-empty column; PLAIN decoding of the dictionary page gives slices of
    exactly the distinct arrays in order of first appearance, and RLE decoding of the index
    page, with the bit width in its first byte, gives for every value the index of its
    array, whatever follows the pages. *)
Theorem dictionary_byte_array_exact vs dout iout : dc_ok (DCArrays vs) -> output_ok dout -> output_ok iout ->
  let uniq := distinct (array_val <$> vs) in
  exists dout' iout' dict w rle, carquet_dictionary_encode_byte_array vs (lenZ vs) dout iout = Some (CARQUET_OK, dout', iout') /\
    buf_bytes dout' = buf_bytes dout ++ dict /\ buf_bytes iout' = buf_bytes iout ++ w :: rle /\
    forall r r', bytes_ok r' ->
      (exists out, carquet_decode_plain_byte_array (Some (dict ++ r)) (lenZ dict) true (lenZ uniq) = Some (lenZ dict, out) /\ slice_of (dict ++ r) <$> out = uniq) /\
      exists idxs, carquet_rle_decode_all (rle ++ r') (lenZ rle) w (lenZ vs) = Some idxs /\ Forall2 (points_to uniq) idxs (array_val <$> vs).
Proof.
  intros (Hv & Hc & Hp) Hd Hi uniq. unfold dc_count in Hc. cbn [dc_values dc_var] in *. rewrite length_fmap in Hc.
  destruct (dictionary_encode_spec (λ v, (default [] (ba_data v), u64 (ba_length v))) array_val 0 true vs dout iout) as (dout' & iout' & dict & ip & idxs & E & Bd & Bi & ED & w & rle & -> & Bw & Bn & Hr & Er & HPt);
    try done; [eapply Forall_impl; [|exact Hv]; apply marshalled_array|intros E0; rewrite E0 in Hc; cbn in Hc; lia|lia|].
  exists dout', iout', dict, w, rle. split; [exact E|]. split; [done|]. split; [done|]. intros r r' Hr'. fold uniq in ED, Bn, HPt. split.
  - unfold carquet_decode_plain_byte_array. cbn [negb orb]. rewrite (proj2 (Z.ltb_ge (lenZ uniq) 0)) by lia. rewrite Nat2Z.id.
    assert (dict = concat (array_bytes <$> uniq)) as ED2 by (rewrite ED; done). pose proof (distinct_page true (array_val <$> vs)) as DP. fold uniq in DP.
    destruct (byte_array_loop_spec (dict ++ r) (lenZ dict) r uniq 0) as (out & E1 & E2 & _); try lia.
    + apply distinct_forall, Forall_fmap. eapply Forall_impl; [|exact Hv]. intros v Ho. unfold compose. rewrite length_array_val by done. destruct Ho. lia.
    + unfold ptr_add. change (Z.to_nat 0) with 0%nat. by rewrite drop_0, ED2.
    + rewrite <- ED2. lia.
    + rewrite <- ED2, ED. lia.
    + exists out. rewrite E1, <- ED2. done.
  - exists idxs. split; [|done]. rewrite decode_all_values by (try (apply Forall_app_2; done); rewrite ?length_app; lia).
    rewrite (proj2 (Z.leb_le 0 w)), (proj2 (Z.leb_le w 32)) by lia. cbn [andb]. rewrite !Nat2Z.id, take_app_length, Er. cbn [fst].
    pose proof (Forall2_length HPt) as Li. rewrite length_fmap in Li. by rewrite <- Li, firstn_all.
Qed.
End Properties.

Lemma dictionary_roundtrip_witness :
  let A := limited_alloc (2 ^ 64) in
  exists dout iout, dt_encode DT_int32 [5; -1; 5; 5] 4 carquet_buffer_init carquet_buffer_init = Some (CARQUET_OK, dout, iout) /\
    buf_bytes dout = [5; 0; 0; 0; 255; 255; 255; 255].
Proof.
  intros A. destruct (dictionary_roundtrip (K := full_kernels) DT_int32 [5; -1; 5; 5] carquet_buffer_init carquet_buffer_init) as (dout & iout & dict & ip & E & Bd & _ & ED & _).
  - repeat constructor; unfold in_i; lia.
  - discriminate.
  - cbn. lia.
  - split; [apply init_wf|]. split; [reflexivity|]. cbn. lia.
  - split; [apply init_wf|]. split; [reflexivity|]. cbn. lia.
  - exists dout, iout. split; [exact E|]. rewrite Bd, ED. vm_compute. reflexivity.
Defined.

Lemma dictionary_decode_exact_witness :
  let A := limited_alloc (2 ^ 64) in
  @dt_decode A full_kernels DT_int32 false true (Some [7; 0; 0; 0; 9; 0; 0; 0]) 8 2 [2; 6; 1; 2; 2] 5 4 = Some (CARQUET_ERROR_DECODE, None) /\
  @dt_decode A full_kernels DT_int32 false true (Some [7; 0; 0; 0; 9; 0; 0; 0]) 8 2 [1; 6; 1; 2; 0] 5 4 = Some (CARQUET_OK, Some [9; 9; 9; 7]).
Proof.
  intros A. split.
  - rewrite (dictionary_decode_exact (K := full_kernels) DT_int32 true [7; 0; 0; 0; 9; 0; 0; 0] 8 2 [2; 6; 1; 2; 2] 5 4);
      [vm_compute; reflexivity|repeat constructor; unfold in_u; lia|cbn; lia|cbn; lia|lia|lia].
  - rewrite (dictionary_decode_exact (K := full_kernels) DT_int32 true [7; 0; 0; 0; 9; 0; 0; 0] 8 2 [1; 6; 1; 2; 0] 5 4);
      [vm_compute; reflexivity|repeat constructor; unfold in_u; lia|cbn; lia|cbn; lia|lia|lia].
Defined.

(** Two arrays, one of them empty. *)
Definition two_arrays : list carquet_byte_array_t := [mk_byte_array (Some [104; 105]) 2; mk_byte_array None 0; mk_byte_array (Some [104; 105; 0]) 2].

Lemma two_arrays_ok : dc_ok (DCArrays two_arrays).
Proof.
  split; [|by vm_compute]. repeat (apply Forall_cons_2; [split; [cbn; lia|]|]); [| | |apply Forall_nil_2]; cbn; try lia.
  all: split; [repeat constructor; unfold in_u; lia|lia].
Qed.

Lemma dictionary_capped_exact_witness :
  let A := limited_alloc (2 ^ 64) in
  carquet_dictionary_encode_capped CARQUET_PHYSICAL_BYTE_ARRAY [] two_arrays 3 9 carquet_buffer_init carquet_buffer_init =
    Some (CARQUET_OK, true, carquet_buffer_init, carquet_buffer_init).
Proof.
  intros A. etransitivity; [apply (dictionary_capped_exact (DCArrays two_arrays) 9 carquet_buffer_init carquet_buffer_init)|reflexivity]; [apply two_arrays_ok|lia].
Defined.

Lemma dictionary_byte_array_exact_witness :
  let A := limited_alloc (2 ^ 64) in
  exists dout iout, carquet_dictionary_encode_byte_array two_arrays 3 carquet_buffer_init carquet_buffer_init = Some (CARQUET_OK, dout, iout).
Proof.
  intros A. destruct (dictionary_byte_array_exact (K := full_kernels) two_arrays carquet_buffer_init carquet_buffer_init) as (dout & iout & dict & w & rle & E & _).
  - apply two_arrays_ok.
  - split; [apply init_wf|]. split; [reflexivity|]. cbn. lia.
  - split; [apply init_wf|]. split; [reflexivity|]. cbn. lia.
  - exists dout, iout. exact E.
Defined.

(** On a big-endian host the indices are not checked: an index past the dictionary reads
    outside the page. *)
Lemma dictionary_big_endian_unchecked : let A := limited_alloc (2 ^ 64) in
  @dt_decode A full_kernels DT_int32 true true (Some [7; 0; 0; 0]) 4 1 [1; 2; 1] 3 1 = None.
Proof. by vm_compute. Qed.

(** A failed append to the dictionary buffer is not reported: with an allocator that
    refuses blocks above 9000 bytes, two distinct arrays of 5000 bytes are encoded with
    status OK, and the dictionary page lacks the bytes of the second one. *)
Lemma dictionary_encode_ignores_oom : let A := limited_alloc 9000 in
  let big x := mk_byte_array (Some (replicate 5000 x)) 5000 in
  exists dout iout, carquet_dictionary_encode_byte_array [big 1; big 2] 2 carquet_buffer_init carquet_buffer_init = Some (CARQUET_OK, dout, iout) /\
    buf_size dout = 5008.
Proof. eexists _, _. split; vm_compute; reflexivity. Qed.
