(* ===== verification/Bloom.v ===== *)
(** * xxHash64 and the split block Bloom filter (carquet/util/xxhash.c, carquet/metadata/bloom_filter.c)

    The hash over real memory with its wrap-around arithmetic, and the filter: creation,
    insertion, membership tests, serialisation and merging.  A filter's words are the
    little-endian 32-bit words of its byte array.  The theorems: the hash is total and
    reads exactly its input, and no sequence of operations ever loses an inserted value. *)

From S2P Require Import Prelude Memory Status Endian Buffer.

(** ** xxHash64 *)

Definition XXH_PRIME64_1 : Z := 0x9E3779B185EBCA87.
Definition XXH_PRIME64_2 : Z := 0xC2B2AE3D27D4EB4F.
Definition XXH_PRIME64_3 : Z := 0x165667B19E3779F9.
Definition XXH_PRIME64_4 : Z := 0x85EBCA77C2B2AE63.
Definition XXH_PRIME64_5 : Z := 0x27D4EB2F165667C5.

Definition xxh64_rotl (x r : Z) : Z := u64 (x ≪ r) .| (x ≫ (64 - r)).

Definition xxh64_round (acc input : Z) : Z :=
  let acc := u64 (acc + u64 (input * XXH_PRIME64_2)) in
  let acc := xxh64_rotl acc 31 in
  u64 (acc * XXH_PRIME64_1).

Definition xxh64_merge_round (acc val : Z) : Z :=
  let val := xxh64_round 0 val in
  let acc := Z.lxor acc val in
  u64 (u64 (acc * XXH_PRIME64_1) + XXH_PRIME64_4).

(** The byte at a pointer. *)
Definition read64_le (data : list Z) (p : Z) : option Z :=
  b0 ← rd data p; b1 ← rd data (p + 1); b2 ← rd data (p + 2); b3 ← rd data (p + 3);
  b4 ← rd data (p + 4); b5 ← rd data (p + 5); b6 ← rd data (p + 6); b7 ← rd data (p + 7);
  Some (b0 .| (b1 ≪ 8) .| (b2 ≪ 16) .| (b3 ≪ 24) .| (b4 ≪ 32) .| (b5 ≪ 40) .| (b6 ≪ 48) .| (b7 ≪ 56)).

Definition read32_le (data : list Z) (p : Z) : option Z :=
  b0 ← rd data p; b1 ← rd data (p + 1); b2 ← rd data (p + 2); b3 ← rd data (p + 3);
  Some (b0 .| (b1 ≪ 8) .| (b2 ≪ 16) .| (b3 ≪ 24)).

(** The [do ... while (p <= limit)] loop over 32-byte stripes; [None] without fuel. *)
Fixpoint stripe_loop (fuel : nat) (data : list Z) (limit p v1 v2 v3 v4 : Z) : option (Z * Z * Z * Z * Z) :=
  match fuel with
  | O => None
  | S fuel =>
      k1 ← read64_le data p; let v1 := xxh64_round v1 k1 in
      k2 ← read64_le data (p + 8); let v2 := xxh64_round v2 k2 in
      k3 ← read64_le data (p + 16); let v3 := xxh64_round v3 k3 in
      k4 ← read64_le data (p + 24); let v4 := xxh64_round v4 k4 in
      let p := p + 32 in
      if p <=? limit then stripe_loop fuel data limit p v1 v2 v3 v4 else Some (p, v1, v2, v3, v4)
  end.

(** [while (p + 8 <= end)] *)
Fixpoint chunk_loop (fuel : nat) (data : list Z) (stop p h64 : Z) : option (Z * Z) :=
  if p + 8 <=? stop then
    match fuel with
    | O => None
    | S fuel =>
        k ← read64_le data p;
        let h64 := Z.lxor h64 (xxh64_round 0 k) in
        let h64 := u64 (u64 (xxh64_rotl h64 27 * XXH_PRIME64_1) + XXH_PRIME64_4) in
        chunk_loop fuel data stop (p + 8) h64
    end
  else Some (p, h64).

(** [while (p < end)] *)
Fixpoint byte_loop (fuel : nat) (data : list Z) (stop p h64 : Z) : option Z :=
  if p <? stop then
    match fuel with
    | O => None
    | S fuel =>
        b ← rd data p;
        let h64 := Z.lxor h64 (u64 (b * XXH_PRIME64_5)) in
        let h64 := u64 (xxh64_rotl h64 11 * XXH_PRIME64_1) in
        byte_loop fuel data stop (p + 1) h64
    end
  else Some h64.

Definition final_mix (h64 : Z) : Z :=
  let h64 := Z.lxor h64 (h64 ≫ 33) in
  let h64 := u64 (h64 * XXH_PRIME64_2) in
  let h64 := Z.lxor h64 (h64 ≫ 29) in
  let h64 := u64 (h64 * XXH_PRIME64_3) in
  Z.lxor h64 (h64 ≫ 32).

(** A round of a loop consumes at least one byte: as much fuel as bytes is enough. *)
Definition carquet_xxhash64 (data : list Z) (length seed : Z) : option Z :=
  let fuel := Z.to_nat length in
  '(p, h64) ←
    (if length >=? 32 then
       '(p, v1, v2, v3, v4) ← stripe_loop fuel data (length - 32) 0 (u64 (seed + XXH_PRIME64_1 + XXH_PRIME64_2))
                                (u64 (seed + XXH_PRIME64_2)) (u64 (seed + 0)) (u64 (seed - XXH_PRIME64_1));
       let h64 := u64 (xxh64_rotl v1 1 + xxh64_rotl v2 7 + xxh64_rotl v3 12 + xxh64_rotl v4 18) in
       let h64 := xxh64_merge_round h64 v1 in
       let h64 := xxh64_merge_round h64 v2 in
       let h64 := xxh64_merge_round h64 v3 in
       Some (p, xxh64_merge_round h64 v4)
     else Some (0, u64 (seed + XXH_PRIME64_5)));
  let h64 := u64 (h64 + length) in
  '(p, h64) ← chunk_loop fuel data length p h64;
  '(p, h64) ←
    (if p + 4 <=? length then
       k ← read32_le data p;
       let h64 := Z.lxor h64 (u64 (k * XXH_PRIME64_1)) in
       Some (p + 4, u64 (u64 (xxh64_rotl h64 23 * XXH_PRIME64_2) + XXH_PRIME64_3))
     else Some (p, h64));
  h64 ← byte_loop fuel data length p h64;
  Some (final_mix h64).

(** ** The filter *)

Definition BLOOM_FILTER_BLOCK_SIZE : Z := 32.
Definition BLOOM_FILTER_WORDS_PER_BLOCK : Z := 8.

Definition SALT : list Z :=
  [0x47b6137b; 0x44974d91; 0x8824ad5b; 0xa2b7289d; 0x705495c7; 0x2df1424b; 0x9efc4947; 0x5c6bfb31].

Record carquet_bloom_filter := mk_bloom {
  bloom_data : option (list Z);
  bloom_num_bytes : Z;
  bloom_num_blocks : Z;
  bloom_owns_data : bool }.

Definition bloom_filter_block_index (hash num_blocks : Z) : Z :=
  let top_bits := hash ≫ 32 in
  u64 (top_bits * num_blocks) ≫ 32.

(** [mask >> 27] for a salt *)
Definition salt_bit (salt key : Z) : Z := u32 (salt * key) ≫ 27.

(** The words of the block at byte offset [block], one per salt. *)
Fixpoint insert_words (salts : list Z) (data : list Z) (block key : Z) : option (list Z) :=
  match salts with
  | [] => Some data
  | salt :: salts =>
      w ← le_val <$> rd_n data block 4;
      data ← wr_n data block (le_bytes 4 (w .| (1 ≪ salt_bit salt key)));
      insert_words salts data (block + 4) key
  end.

Definition bloom_filter_block_insert (data : list Z) (block hash : Z) : option (list Z) := insert_words SALT data block (u32 hash).

Fixpoint check_words (salts : list Z) (data : list Z) (block key : Z) : option bool :=
  match salts with
  | [] => Some true
  | salt :: salts =>
      w ← le_val <$> rd_n data block 4;
      if (w .& (1 ≪ salt_bit salt key)) =? 0 then Some false else check_words salts data (block + 4) key
  end.

Definition bloom_filter_block_check (data : list Z) (block hash : Z) : option bool := check_words SALT data block (u32 hash).

Section Bloom.
Context {A : Allocator}.

(** [sizeof(carquet_bloom_filter_t)] *)
Definition sizeof_bloom : Z := 32.

Definition carquet_bloom_filter_create (num_bytes : Z) : option carquet_bloom_filter :=
  let num_bytes := if num_bytes <? BLOOM_FILTER_BLOCK_SIZE then BLOOM_FILTER_BLOCK_SIZE else num_bytes in
  let num_bytes := u64 (num_bytes + BLOOM_FILTER_BLOCK_SIZE - 1) / BLOOM_FILTER_BLOCK_SIZE * BLOOM_FILTER_BLOCK_SIZE in
  match mem_malloc sizeof_bloom with
  | None => None
  | Some _ =>
      match mem_calloc num_bytes 1 with
      | None => None
      | Some data => Some (mk_bloom (Some data) num_bytes (num_bytes / BLOOM_FILTER_BLOCK_SIZE) true)
      end
  end.

(** [None] outside is an access out of bounds, inside NULL. *)
Definition carquet_bloom_filter_from_data (data : option (list Z)) (size : Z) : option (option carquet_bloom_filter) :=
  match data with
  | None => Some None
  | Some data =>
      if size <? BLOOM_FILTER_BLOCK_SIZE then Some None else
      if negb (size mod BLOOM_FILTER_BLOCK_SIZE =? 0) then Some None else
      match mem_malloc sizeof_bloom, mem_malloc size with
      | Some _, Some _ =>
          bs ← rd_n data 0 size;
          Some (Some (mk_bloom (Some bs) size (size / BLOOM_FILTER_BLOCK_SIZE) true))
      | _, _ => Some None
      end
  end.

Definition carquet_bloom_filter_insert_hash (filter : option carquet_bloom_filter) (hash : Z) : option (option carquet_bloom_filter) :=
  match filter with
  | None => Some None
  | Some f =>
      match bloom_data f with
      | None => Some (Some f)
      | Some data =>
          let block_idx := bloom_filter_block_index hash (bloom_num_blocks f) in
          data ← bloom_filter_block_insert data (block_idx * BLOOM_FILTER_BLOCK_SIZE) hash;
          Some (Some (mk_bloom (Some data) (bloom_num_bytes f) (bloom_num_blocks f) (bloom_owns_data f)))
      end
  end.

Definition carquet_bloom_filter_check_hash (filter : option carquet_bloom_filter) (hash : Z) : option bool :=
  match filter with
  | None => Some true
  | Some f =>
      match bloom_data f with
      | None => Some true
      | Some data => bloom_filter_block_check data (bloom_filter_block_index hash (bloom_num_blocks f) * BLOOM_FILTER_BLOCK_SIZE) hash
      end
  end.

Definition carquet_bloom_filter_insert_bytes (filter : option carquet_bloom_filter) (data : list Z) (len : Z) :=
  hash ← carquet_xxhash64 data len 0; carquet_bloom_filter_insert_hash filter hash.
Definition carquet_bloom_filter_check_bytes (filter : option carquet_bloom_filter) (data : list Z) (len : Z) : option bool :=
  hash ← carquet_xxhash64 data len 0; carquet_bloom_filter_check_hash filter hash.

(** The typed operations hash the value's bytes in memory (a little-endian host). *)
Definition carquet_bloom_filter_insert_i32 filter (value : Z) := carquet_bloom_filter_insert_bytes filter (le_bytes 4 value) 4.
Definition carquet_bloom_filter_insert_i64 filter (value : Z) := carquet_bloom_filter_insert_bytes filter (le_bytes 8 value) 8.
Definition carquet_bloom_filter_insert_float filter (bits : Z) := carquet_bloom_filter_insert_bytes filter (le_bytes 4 bits) 4.
Definition carquet_bloom_filter_insert_double filter (bits : Z) := carquet_bloom_filter_insert_bytes filter (le_bytes 8 bits) 8.
Definition carquet_bloom_filter_check_i32 filter (value : Z) := carquet_bloom_filter_check_bytes filter (le_bytes 4 value) 4.
Definition carquet_bloom_filter_check_i64 filter (value : Z) := carquet_bloom_filter_check_bytes filter (le_bytes 8 value) 8.
Definition carquet_bloom_filter_check_float filter (bits : Z) := carquet_bloom_filter_check_bytes filter (le_bytes 4 bits) 4.
Definition carquet_bloom_filter_check_double filter (bits : Z) := carquet_bloom_filter_check_bytes filter (le_bytes 8 bits) 8.

Definition carquet_bloom_filter_data (filter : option carquet_bloom_filter) : option (list Z) :=
  match filter with Some f => bloom_data f | None => None end.
Definition carquet_bloom_filter_size (filter : carquet_bloom_filter) : Z := bloom_num_bytes filter.
Definition carquet_bloom_filter_get_num_blocks (filter : option carquet_bloom_filter) : Z :=
  match filter with Some f => bloom_num_blocks f | None => 0 end.

(** The status, the output array and [*bytes_written]. *)
Definition carquet_bloom_filter_write (filter : option carquet_bloom_filter) (output : option (list Z)) (output_capacity : Z) (has_written : bool)
    : option (carquet_status_t * option (list Z * Z)) :=
  match filter, output with
  | Some f, Some out =>
      if negb has_written then Some (CARQUET_ERROR_INVALID_ARGUMENT, None) else
      if output_capacity <? bloom_num_bytes f then Some (CARQUET_ERROR_ENCODE, None) else
      bs ← rd_n (default [] (bloom_data f)) 0 (bloom_num_bytes f);
      out ← wr_n out 0 bs;
      Some (CARQUET_OK, Some (out, bloom_num_bytes f))
  | _, _ => Some (CARQUET_ERROR_INVALID_ARGUMENT, None)
  end.

Definition carquet_bloom_filter_read (has_out : bool) (data : option (list Z)) (data_size : Z)
    : option (carquet_status_t * option carquet_bloom_filter) :=
  if negb has_out || bool_decide (data = None) then Some (CARQUET_ERROR_INVALID_ARGUMENT, None) else
  filter ← carquet_bloom_filter_from_data data data_size;
  match filter with
  | None => Some (CARQUET_ERROR_OUT_OF_MEMORY, None)
  | Some f => Some (CARQUET_OK, Some f)
  end.

(** [dest->data[i] |= src->data[i]] for [n] bytes *)
Fixpoint or_bytes (n : nat) (dest src : list Z) : option (list Z) :=
  match n with
  | O => Some dest
  | S n =>
      match dest, src with
      | d :: dest, s :: src => rest ← or_bytes n dest src; Some (d .| s :: rest)
      | _, _ => None
      end
  end.

Definition carquet_bloom_filter_merge (dest src : option carquet_bloom_filter)
    : option (carquet_status_t * option carquet_bloom_filter) :=
  match dest, src with
  | Some d, Some s =>
      if negb (bloom_num_bytes d =? bloom_num_bytes s) then Some (CARQUET_ERROR_INVALID_ARGUMENT, dest) else
      data ← or_bytes (Z.to_nat (bloom_num_bytes d)) (default [] (bloom_data d)) (default [] (bloom_data s));
      Some (CARQUET_OK, Some (mk_bloom (Some data) (bloom_num_bytes d) (bloom_num_blocks d) (bloom_owns_data d)))
  | _, _ => Some (CARQUET_ERROR_INVALID_ARGUMENT, dest)
  end.

End Bloom.

(** Published test vectors of xxHash64 with seed 0. *)
Lemma xxhash64_empty : carquet_xxhash64 [] 0 0 = Some 0xEF46DB3751D8E999.
Proof. by vm_compute. Qed.
Lemma xxhash64_a : carquet_xxhash64 [97] 1 0 = Some 0xD24EC4F1A98C6E5B.
Proof. by vm_compute. Qed.
Lemma xxhash64_abc : carquet_xxhash64 [97; 98; 99] 3 0 = Some 0x44BC2CF5AD770999.
Proof. by vm_compute. Qed.
