(* ===== verification/BloomCorrect.v ===== *)
(** * The Bloom filter never forgets

    The hash is total and in range; a filter's contents are the bits of its byte array read
    as one number, insertion sets the eight bits of a hash, merging is the bitwise or, and
    both only ever add bits; so a value that was inserted, before or after any number of
    insertions, merges and serialisations, is always reported. *)

From S2P Require Import Prelude Memory Status Endian Buffer Bloom.

(** ** xxHash64 is total *)

Lemma lxor_range a b n : 0 <= n -> 0 <= a < 2 ^ n -> 0 <= b < 2 ^ n -> 0 <= Z.lxor a b < 2 ^ n.
Proof.
  intros Hn Ha Hb. assert (0 <= Z.lxor a b) by (apply Z.lxor_nonneg; lia). split; [done|]. destruct (Z.eq_dec (Z.lxor a b) 0) as [->|Hne]; [by apply pow2_pos|].
  apply Z.log2_lt_pow2; [lia|]. pose proof (Z.log2_lxor a b ltac:(lia) ltac:(lia)).
  assert (forall x, 0 <= x < 2 ^ n -> x = 0 \/ Z.log2 x < n) as L by (intros x Hx; destruct (Z.eq_dec x 0); [by left|right; apply Z.log2_lt_pow2; lia]).
  destruct (L a Ha) as [->|]; destruct (L b Hb) as [->|]; try lia; [done|rewrite Z.lxor_0_l in *; lia|rewrite Z.lxor_0_r in *; lia].
Qed.

Lemma rd_bytes_total data p n : bytes_ok data -> 0 <= p -> p + n <= lenZ data -> forall k, 0 <= k < n -> exists b, rd data (p + k) = Some b /\ 0 <= b < 2 ^ 8.
Proof. intros Hb Hp Hn k Hk. destruct (rd_Some data (p + k)) as [b E]; [lia|]. exists b. split; [done|]. by apply (rd_byte data (p + k)). Qed.

Lemma read64_total data p : bytes_ok data -> 0 <= p -> p + 8 <= lenZ data -> exists k, read64_le data p = Some k.
Proof.
  intros Hb Hp Hn. unfold read64_le. replace (rd data p) with (rd data (p + 0)) by (f_equal; lia). pose proof (rd_bytes_total data p 8 Hb Hp Hn) as R.
  destruct (R 0 ltac:(lia)) as (b0 & -> & _). destruct (R 1 ltac:(lia)) as (b1 & -> & _). destruct (R 2 ltac:(lia)) as (b2 & -> & _). destruct (R 3 ltac:(lia)) as (b3 & -> & _).
  destruct (R 4 ltac:(lia)) as (b4 & -> & _). destruct (R 5 ltac:(lia)) as (b5 & -> & _). destruct (R 6 ltac:(lia)) as (b6 & -> & _). destruct (R 7 ltac:(lia)) as (b7 & -> & _).
  cbn [mbind option_bind]. by eexists.
Qed.

Lemma read32_total data p : bytes_ok data -> 0 <= p -> p + 4 <= lenZ data -> exists k, read32_le data p = Some k.
Proof.
  intros Hb Hp Hn. unfold read32_le. replace (rd data p) with (rd data (p + 0)) by (f_equal; lia). pose proof (rd_bytes_total data p 4 Hb Hp Hn) as R.
  destruct (R 0 ltac:(lia)) as (b0 & -> & _). destruct (R 1 ltac:(lia)) as (b1 & -> & _). destruct (R 2 ltac:(lia)) as (b2 & -> & _). destruct (R 3 ltac:(lia)) as (b3 & -> & _).
  cbn [mbind option_bind]. by eexists.
Qed.

Lemma stripe_loop_total data n : bytes_ok data -> n <= lenZ data -> forall fuel p v1 v2 v3 v4, 0 <= p -> p + 32 <= n -> n - p < 32 * Z.of_nat (S fuel) ->
  exists p' w1 w2 w3 w4, stripe_loop (S fuel) data (n - 32) p v1 v2 v3 v4 = Some (p', w1, w2, w3, w4) /\ p <= p' <= n.
Proof.
  intros Hb Hn. induction fuel as [|fuel IH]; intros p v1 v2 v3 v4 Hp Hl Hf; cbn [stripe_loop];
    (destruct (read64_total data p) as [k1 ->]; [done|lia|lia|]; destruct (read64_total data (p + 8)) as [k2 ->]; [done|lia|lia|];
     destruct (read64_total data (p + 16)) as [k3 ->]; [done|lia|lia|]; destruct (read64_total data (p + 24)) as [k4 ->]; [done|lia|lia|]; cbn [mbind option_bind]);
    destruct (Z.leb_spec (p + 32) (n - 32)).
  - lia.
  - eexists _, _, _, _, _. split; [done|]. lia.
  - destruct (IH (p + 32) (xxh64_round v1 k1) (xxh64_round v2 k2) (xxh64_round v3 k3) (xxh64_round v4 k4)) as (p' & w1 & w2 & w3 & w4 & E & B); [lia|lia|lia|].
    cbn [stripe_loop] in E. exists p', w1, w2, w3, w4. split; [exact E|lia].
  - eexists _, _, _, _, _. split; [done|]. lia.
Qed.

Lemma chunk_loop_total data n : bytes_ok data -> n <= lenZ data -> forall fuel p h, 0 <= p <= n -> n - p < 8 * Z.of_nat (S fuel) ->
  exists p' h', chunk_loop fuel data n p h = Some (p', h') /\ p <= p' <= n.
Proof.
  intros Hb Hn. induction fuel as [|fuel IH]; intros p h Hp Hf; cbn [chunk_loop]; destruct (Z.leb_spec (p + 8) n); try lia; try (eexists _, _; split; [done|]; lia).
  destruct (read64_total data p) as [k ->]; [done|lia|lia|]. cbn [mbind option_bind].
  destruct (IH (p + 8) (u64 (u64 (xxh64_rotl (Z.lxor h (xxh64_round 0 k)) 27 * XXH_PRIME64_1) + XXH_PRIME64_4))) as (p' & h' & E & B); [lia|lia|]. exists p', h'. split; [exact E|lia].
Qed.

Lemma byte_loop_total data n : bytes_ok data -> n <= lenZ data -> forall fuel p h, 0 <= p <= n -> n - p <= Z.of_nat fuel ->
  exists h', byte_loop fuel data n p h = Some h'.
Proof.
  intros Hb Hn. induction fuel as [|fuel IH]; intros p h Hp Hf; cbn [byte_loop]; destruct (Z.ltb_spec p n); try lia; try (by eexists).
  destruct (rd_Some data p) as [b ->]; [lia|]. cbn [mbind option_bind]. apply IH; lia.
Qed.

(** The last step leaves a 64-bit number. *)
Lemma final_mix_range h : 0 <= final_mix h < 2 ^ 64.
Proof.
  unfold final_mix. set (k := u64 (_ * XXH_PRIME64_3)). pose proof (u64_range (Z.lxor (u64 (Z.lxor h (h ≫ 33) * XXH_PRIME64_2)) (u64 (Z.lxor h (h ≫ 33) * XXH_PRIME64_2) ≫ 29) * XXH_PRIME64_3)) as R.
  fold k in R. apply lxor_range; [lia|done|]. rewrite Z.shiftr_div_pow2 by lia. split; [apply Z.div_pos; lia|]. apply Z.div_lt_upper_bound; lia.
Qed.

Lemma xxhash64_spec data n seed : bytes_ok data -> 0 <= n <= lenZ data -> exists h, carquet_xxhash64 data n seed = Some h /\ in_u 64 h.
Proof.
  intros Hb Hn. unfold carquet_xxhash64.
  assert (exists p h, (if n >=? 32 then '(p, v1, v2, v3, v4) ← stripe_loop (Z.to_nat n) data (n - 32) 0 (u64 (seed + XXH_PRIME64_1 + XXH_PRIME64_2)) (u64 (seed + XXH_PRIME64_2)) (u64 (seed + 0)) (u64 (seed - XXH_PRIME64_1));
       Some (p, xxh64_merge_round (xxh64_merge_round (xxh64_merge_round (xxh64_merge_round (u64 (xxh64_rotl v1 1 + xxh64_rotl v2 7 + xxh64_rotl v3 12 + xxh64_rotl v4 18)) v1) v2) v3) v4)
     else Some (0, u64 (seed + XXH_PRIME64_5))) = Some (p, h) /\ 0 <= p <= n) as (p & h & -> & Hp).
  { rewrite Z.geb_leb. destruct (Z.leb_spec 32 n); [|by eexists _, _; split; [done|lia]]. replace (Z.to_nat n) with (S (Z.to_nat (n - 1))) by lia.
    destruct (stripe_loop_total data n Hb ltac:(lia) (Z.to_nat (n - 1)) 0 (u64 (seed + XXH_PRIME64_1 + XXH_PRIME64_2)) (u64 (seed + XXH_PRIME64_2)) (u64 (seed + 0)) (u64 (seed - XXH_PRIME64_1)))
      as (p & w1 & w2 & w3 & w4 & -> & B); [lia|lia|lia|]. cbn [mbind option_bind]. eexists _, _. split; [done|lia]. }
  cbn [mbind option_bind]. destruct (chunk_loop_total data n Hb ltac:(lia) (Z.to_nat n) p (u64 (h + n))) as (p2 & h2 & -> & Hp2); [lia|lia|]. cbn [mbind option_bind].
  assert (exists p3 h3, (if p2 + 4 <=? n then k ← read32_le data p2; Some (p2 + 4, u64 (u64 (xxh64_rotl (Z.lxor h2 (u64 (k * XXH_PRIME64_1))) 23 * XXH_PRIME64_2) + XXH_PRIME64_3))
     else Some (p2, h2)) = Some (p3, h3) /\ 0 <= p3 <= n) as (p3 & h3 & -> & Hp3).
  { destruct (Z.leb_spec (p2 + 4) n); [|eexists _, _; split; [done|lia]]. destruct (read32_total data p2) as [k ->]; [done|lia|lia|]. cbn [mbind option_bind]. eexists _, _. split; [done|lia]. }
  cbn [mbind option_bind]. destruct (byte_loop_total data n Hb ltac:(lia) (Z.to_nat n) p3 h3) as [h4 ->]; [lia|lia|]. cbn [mbind option_bind]. eexists. split; [done|]. apply final_mix_range.
Qed.

(** ** The bits of the filter *)

Lemma testbit_app l1 l2 n : bytes_ok l1 -> 0 <= n ->
  Z.testbit (le_val (l1 ++ l2)) n = if n <? 8 * lenZ l1 then Z.testbit (le_val l1) n else Z.testbit (le_val l2) (n - 8 * lenZ l1).
Proof.
  intros Hb Hn. pose proof (le_val_bound l1 Hb) as B. rewrite le_val_app, Z.mul_comm, <- lor_add by lia. rewrite Z.lor_spec. destruct (Z.ltb_spec n (8 * lenZ l1)).
  - rewrite Z.shiftl_spec_low by lia. by rewrite orb_false_r.
  - rewrite Z.shiftl_spec_high by lia. rewrite (testbit_above (le_val l1) (8 * lenZ l1)) by lia. done.
Qed.

(** The bit of the filter that a word's bit is. *)
Lemma word_bit data off bs b : bytes_ok data -> rd_n data off 4 = Some bs -> 0 <= b < 32 -> Z.testbit (le_val bs) b = Z.testbit (le_val data) (8 * off + b).
Proof.
  intros Hb H Hbit. destruct (rd_n_inv _ _ _ _ H) as (? & _ & ? & L & ->). rewrite <- (take_drop (Z.to_nat off) data) at 2.
  rewrite testbit_app by (try apply Forall_take; done || lia). rewrite length_take. rewrite (proj2 (Z.ltb_ge _ _)) by lia.
  rewrite <- (take_drop (Z.to_nat 4) (drop (Z.to_nat off) data)) at 2. rewrite testbit_app by (try (apply Forall_take, Forall_drop); done || lia).
  rewrite L. rewrite (proj2 (Z.ltb_lt _ _)) by lia. f_equal. lia.
Qed.

(** Storing a word with one more bit adds exactly that bit. *)
Lemma set_word_bit data off bs b data' : bytes_ok data -> rd_n data off 4 = Some bs -> 0 <= b < 32 -> wr_n data off (le_bytes 4 (le_val bs .| (1 ≪ b))) = Some data' ->
  bytes_ok data' /\ length data' = length data /\ forall n, 0 <= n -> Z.testbit (le_val data') n = Z.testbit (le_val data) n || (n =? 8 * off + b).
Proof.
  intros Hb H Hbit Hw. split; [by apply (wr_n_bytes _ _ _ _ Hw); [|apply le_bytes_ok]|]. split; [by apply (length_wr_n _ _ _ _ Hw)|]. intros n Hn.
  destruct (rd_n_inv _ _ _ _ H) as (? & _ & ? & L & Ebs). set (w := le_val bs .| (1 ≪ b)) in *.
  rewrite wr_n_Some, length_le_bytes in Hw by (rewrite ?length_le_bytes; lia). apply (inj Some) in Hw as <-. assert (0 <= w < 2 ^ 32) as Bw.
  { apply lor_bound; [lia|apply (le_val_rd_n _ _ _ _ H Hb)|]. rewrite Z.shiftl_1_l. split; [lia|]. apply Z.pow_lt_mono_r; lia. }
  assert (Z.testbit (le_val data) n = if n <? 8 * off then Z.testbit (le_val (take (Z.to_nat off) data)) n else
    if n <? 8 * off + 32 then Z.testbit (le_val bs) (n - 8 * off) else Z.testbit (le_val (drop (Z.to_nat (off + 4)) data)) (n - 8 * off - 32)) as ->.
  { rewrite <- (take_drop (Z.to_nat off) data) at 1. rewrite testbit_app by (try apply Forall_take; done). rewrite length_take, Nat.min_l, Z2Nat.id by lia.
    destruct (Z.ltb_spec n (8 * off)); [done|]. rewrite <- (take_drop (Z.to_nat 4) (drop (Z.to_nat off) data)) at 1.
    rewrite testbit_app by (try (apply Forall_take, Forall_drop); done || lia). rewrite <- Ebs, L, drop_drop. replace (Z.to_nat off + Z.to_nat 4)%nat with (Z.to_nat (off + 4)) by lia.
    destruct (Z.ltb_spec (n - 8 * off) (8 * 4)); destruct (Z.ltb_spec n (8 * off + 32)); try lia; [done|f_equal; lia]. }
  rewrite testbit_app by (try apply Forall_take; done). rewrite length_take, Nat.min_l, Z2Nat.id by lia. destruct (Z.ltb_spec n (8 * off)).
  { rewrite (proj2 (Z.eqb_neq n _)) by lia. by rewrite orb_false_r. }
  rewrite testbit_app by (try apply le_bytes_ok; lia). rewrite length_le_bytes, le_val_bytes. change (8 * Z.of_nat 4) with 32. rewrite (Z.mod_small w) by done.
  destruct (Z.ltb_spec (n - 8 * off) 32); destruct (Z.ltb_spec n (8 * off + 32)); try lia.
  - unfold w. rewrite Z.lor_spec, Z.shiftl_1_l, Z.pow2_bits_eqb by lia. f_equal. destruct (Z.eqb_spec b (n - 8 * off)); destruct (Z.eqb_spec n (8 * off + b)); (done || lia).
  - rewrite (proj2 (Z.eqb_neq n _)) by lia. rewrite orb_false_r. change (Z.of_nat 4) with 4. done.
Qed.

Lemma salt_bit_range salt key : 0 <= salt_bit salt key < 32.
Proof. unfold salt_bit. rewrite Z.shiftr_div_pow2 by lia. pose proof (u32_range (salt * key)). split; [apply Z.div_pos; lia|apply Z.div_lt_upper_bound; lia]. Qed.

(** The bits of a key in the block at byte [block]. *)
Fixpoint key_bits (salts : list Z) (block key : Z) : list Z :=
  match salts with [] => [] | salt :: salts => 8 * block + salt_bit salt key :: key_bits salts (block + 4) key end.

Lemma key_bits_nonneg salts key : forall block, 0 <= block -> Forall (λ n, 0 <= n) (key_bits salts block key).
Proof. induction salts as [|s salts IH]; intros block Hb; cbn [key_bits]; constructor; [pose proof (salt_bit_range s key); lia|apply IH; lia]. Qed.

(** [data'] has all the bits of [data]. *)
Definition extends (data data' : list Z) : Prop :=
  bytes_ok data' /\ length data' = length data /\ forall n, 0 <= n -> Z.testbit (le_val data) n = true -> Z.testbit (le_val data') n = true.

Lemma insert_words_spec salts key : forall data block, bytes_ok data -> 0 <= block -> block + 4 * lenZ salts <= lenZ data ->
  exists data', insert_words salts data block key = Some data' /\ extends data data' /\ Forall (λ n, Z.testbit (le_val data') n = true) (key_bits salts block key).
Proof.
  induction salts as [|s salts IH]; intros data block Hb Hp Hl; cbn [insert_words key_bits]; [by exists data|]. cbn [length] in Hl. pose proof (salt_bit_range s key) as Bs.
  destruct (rd_n_total data block 4) as (bs & E & _); [lia..|]. rewrite E. cbn [fmap option_fmap option_map mbind option_bind].
  destruct (wr_n_total data block (le_bytes 4 (le_val bs .| (1 ≪ salt_bit s key)))) as [d1 E1]; [lia|rewrite length_le_bytes; lia|]. rewrite E1. cbn [mbind option_bind].
  destruct (set_word_bit data block bs (salt_bit s key) d1 Hb E Bs E1) as (B1 & L1 & T1). destruct (IH d1 (block + 4) B1 ltac:(lia) ltac:(lia)) as (d2 & -> & (B2 & L2 & T2) & F2).
  exists d2. split; [done|]. split; [|constructor; [|done]].
  - split; [done|]. split; [lia|]. intros n Hn H. apply T2; [done|]. rewrite T1, H by done. done.
  - apply T2; [lia|]. rewrite T1 by lia. rewrite Z.eqb_refl. apply orb_true_r.
Qed.

Lemma check_words_spec salts key : forall data block, bytes_ok data -> 0 <= block -> block + 4 * lenZ salts <= lenZ data ->
  exists r, check_words salts data block key = Some r /\ (r = true <-> Forall (λ n, Z.testbit (le_val data) n = true) (key_bits salts block key)).
Proof.
  induction salts as [|s salts IH]; intros data block Hb Hp Hl; cbn [check_words key_bits]; [exists true; split; [done|by split; constructor]|].
  cbn [length] in Hl. pose proof (salt_bit_range s key) as Bs. destruct (rd_n_total data block 4) as (bs & E & _); [lia..|]. rewrite E. cbn [fmap option_fmap option_map mbind option_bind].
  assert ((le_val bs .& (1 ≪ salt_bit s key) =? 0) = negb (Z.testbit (le_val data) (8 * block + salt_bit s key))) as ->.
  { rewrite <- (word_bit data block bs _ Hb E Bs). rewrite Z.shiftl_1_l. destruct (Z.testbit (le_val bs) (salt_bit s key)) eqn:T; cbn [negb].
    - apply Z.eqb_neq. intros Z0. apply (f_equal (λ x, Z.testbit x (salt_bit s key))) in Z0. rewrite Z.land_spec, T, Z.pow2_bits_true, Z.bits_0 in Z0 by lia. done.
    - apply Z.eqb_eq, Z.bits_inj_0. intros n. rewrite Z.land_spec. destruct (Z.eq_dec n (salt_bit s key)) as [->|]; [by rewrite T|].
      rewrite Z.pow2_bits_false by done. apply andb_false_r. }
  destruct (Z.testbit (le_val data) (8 * block + salt_bit s key)) eqn:T; cbn [negb].
  - destruct (IH data (block + 4) Hb ltac:(lia) ltac:(lia)) as (r & -> & Hr). exists r. split; [done|]. rewrite Hr, Forall_cons_iff. naive_solver.
  - exists false. split; [done|]. rewrite Forall_cons_iff. split; [done|]. intros [? _]. congruence.
Qed.

Lemma or_bytes_spec n : forall d s, length d = n -> length s = n -> bytes_ok d -> bytes_ok s ->
  exists r, or_bytes n d s = Some r /\ length r = n /\ bytes_ok r /\ forall i, 0 <= i -> Z.testbit (le_val r) i = Z.testbit (le_val d) i || Z.testbit (le_val s) i.
Proof.
  induction n as [|n IH]; intros [|x d] [|y s] Ld Ls Hd Hs; try discriminate; cbn [or_bytes]; [exists []; split; [done|]; split; [done|]; split; [done|]; intros; by rewrite Z.bits_0|].
  apply Forall_cons_iff in Hd as [Hx Hd]. apply Forall_cons_iff in Hs as [Hy Hs]. destruct (IH d s) as (r & -> & Lr & Br & Tr); [cbn in *; lia..|done|done|]. cbn [mbind option_bind].
  assert (in_u 8 (x .| y)) as Hxy by (apply lor_bound; done || lia). exists (x .| y :: r). split; [done|]. split; [cbn; lia|]. split; [by constructor|]. intros i Hi.
  change (x .| y :: r) with ([x .| y] ++ r). change (x :: d) with ([x] ++ d). change (y :: s) with ([y] ++ s). rewrite !testbit_app by (done || by repeat constructor; apply Hx || apply Hy || apply Hxy).
  cbn [length le_val]. rewrite !Z.mul_0_r, !Z.add_0_r. destruct (Z.ltb_spec i (8 * Z.of_nat 1)); [by rewrite Z.lor_spec|]. apply Tr. lia.
Qed.

(** ** Reachable filters *)

Definition bloom_wf (f : carquet_bloom_filter) (data : list Z) : Prop :=
  bloom_data f = Some data /\ bytes_ok data /\ lenZ data = bloom_num_bytes f /\ bloom_num_bytes f = 32 * bloom_num_blocks f /\ 1 <= bloom_num_blocks f /\ bloom_num_bytes f < 2 ^ 64.

Lemma block_index_range h nb : in_u 64 h -> 1 <= nb -> 0 <= bloom_filter_block_index h nb < nb.
Proof.
  intros Hh Hn. unfold in_u in Hh. unfold bloom_filter_block_index. rewrite !Z.shiftr_div_pow2 by lia. assert (0 <= h / 2 ^ 32 < 2 ^ 32) as Ht by (split; [apply Z.div_pos; lia|apply Z.div_lt_upper_bound; lia]).
  set (t := h / 2 ^ 32) in *. pose proof (u64_range (t * nb)) as R. split; [apply Z.div_pos; lia|]. destruct (Z.leb_spec nb (2 ^ 32)).
  - apply Z.div_lt_upper_bound; [lia|]. rewrite u64_small by nia. nia.
  - assert (u64 (t * nb) / 2 ^ 32 < 2 ^ 32) by (apply Z.div_lt_upper_bound; lia). lia.
Qed.

(** The bits a hash needs. *)
Definition hash_bits (f : carquet_bloom_filter) (h : Z) : list Z := key_bits SALT (bloom_filter_block_index h (bloom_num_blocks f) * 32) (u32 h).

Section Filter.
Context {A : Allocator}.

(** Filters made by the interface, with the hashes put into them. *)
Inductive bloom_reach : carquet_bloom_filter -> list Z -> Prop :=
  | reach_create n f : 0 <= n < 2 ^ 63 -> carquet_bloom_filter_create n = Some f -> bloom_reach f []
  | reach_from_data data size f : bytes_ok data -> size < 2 ^ 64 -> carquet_bloom_filter_from_data (Some data) size = Some (Some f) -> bloom_reach f []
  | reach_insert f hs h f' : bloom_reach f hs -> in_u 64 h -> carquet_bloom_filter_insert_hash (Some f) h = Some (Some f') -> bloom_reach f' (h :: hs)
  | reach_merge f hs g gs f' : bloom_reach f hs -> bloom_reach g gs -> carquet_bloom_filter_merge (Some f) (Some g) = Some (CARQUET_OK, Some f') -> bloom_reach f' (hs ++ gs)
  | reach_copy f hs out cap out' n g : bloom_reach f hs -> carquet_bloom_filter_write (Some f) (Some out) cap true = Some (CARQUET_OK, Some (out', n)) ->
      carquet_bloom_filter_read true (Some out') n = Some (CARQUET_OK, Some g) -> bloom_reach g hs.

Definition holds_hashes (f : carquet_bloom_filter) (data : list Z) (hs : list Z) : Prop :=
  forall h, h ∈ hs -> Forall (λ n, Z.testbit (le_val data) n = true) (hash_bits f h).

Lemma create_wf n f : 0 <= n < 2 ^ 63 -> carquet_bloom_filter_create n = Some f -> exists data, bloom_wf f data.
Proof.
  intros Hn. unfold carquet_bloom_filter_create, BLOOM_FILTER_BLOCK_SIZE. set (m := if n <? 32 then 32 else n). assert (32 <= m < 2 ^ 63) as Hm by (unfold m; destruct (Z.ltb_spec n 32); lia).
  rewrite u64_small by lia. set (nb := (m + 32 - 1) / 32). assert (1 <= nb /\ nb * 32 < 2 ^ 63 + 32) as [B1 B2] by (unfold nb; dlia).
  destruct (mem_malloc sizeof_bloom); [|done]. unfold mem_calloc. destruct (negb _ && _); [done|]. rewrite Z.mul_1_r, u64_small by lia. destruct (mem_malloc (nb * 32)); [|done].
  intros [= <-]. eexists. split; [done|]. cbn. rewrite length_replicate, Z.div_mul by lia. repeat split; try lia. apply Forall_replicate. unfold in_u. lia.
Qed.

Lemma from_data_wf data size f : bytes_ok data -> size < 2 ^ 64 -> carquet_bloom_filter_from_data (Some data) size = Some (Some f) ->
  size <= lenZ data /\ bloom_wf f (take (Z.to_nat size) data).
Proof.
  intros Hb H64. unfold carquet_bloom_filter_from_data, BLOOM_FILTER_BLOCK_SIZE. destruct (Z.ltb_spec size 32); [done|]. destruct (Z.eqb_spec (size mod 32) 0) as [Em|]; [|done]. cbn [negb].
  destruct (mem_malloc sizeof_bloom); [|done]. destruct (mem_malloc size); [|done]. destruct (rd_n data 0 size) as [bs|] eqn:E; [|done]. cbn [mbind option_bind]. intros [= <-].
  destruct (rd_n_inv _ _ _ _ E) as (_ & _ & Hl & L & Ebs). change (Z.to_nat 0) with 0%nat in Ebs. rewrite drop_0 in Ebs. split; [lia|]. rewrite <- Ebs. split; [done|]. cbn.
  split; [by apply (rd_n_bytes _ _ _ _ Hb E)|]. split; [done|]. dlia.
Qed.

Lemma insert_hash_spec f data h : bloom_wf f data -> in_u 64 h ->
  exists data', carquet_bloom_filter_insert_hash (Some f) h = Some (Some (mk_bloom (Some data') (bloom_num_bytes f) (bloom_num_blocks f) (bloom_owns_data f))) /\
    extends data data' /\ Forall (λ n, Z.testbit (le_val data') n = true) (hash_bits f h).
Proof.
  intros (Ed & Hb & Ld & En & Hn & _) Hh. pose proof (block_index_range h (bloom_num_blocks f) Hh Hn) as Bi. unfold carquet_bloom_filter_insert_hash. rewrite Ed.
  unfold bloom_filter_block_insert, BLOOM_FILTER_BLOCK_SIZE. destruct (insert_words_spec SALT (u32 h) data (bloom_filter_block_index h (bloom_num_blocks f) * 32)) as (d' & -> & X & F); [done|lia|cbn; lia|].
  cbn [mbind option_bind]. exists d'. split; [done|]. split; [done|exact F].
Qed.

Lemma check_hash_spec f data h : bloom_wf f data -> in_u 64 h ->
  exists r, carquet_bloom_filter_check_hash (Some f) h = Some r /\ (r = true <-> Forall (λ n, Z.testbit (le_val data) n = true) (hash_bits f h)).
Proof.
  intros (Ed & Hb & Ld & En & Hn & _) Hh. pose proof (block_index_range h (bloom_num_blocks f) Hh Hn) as Bi. unfold carquet_bloom_filter_check_hash. rewrite Ed.
  apply (check_words_spec SALT (u32 h) data); [done|unfold BLOOM_FILTER_BLOCK_SIZE; lia|unfold BLOOM_FILTER_BLOCK_SIZE; cbn; lia].
Qed.

Lemma hash_bits_nonneg f h : in_u 64 h -> 1 <= bloom_num_blocks f -> Forall (λ n, 0 <= n) (hash_bits f h).
Proof. intros Hh Hn. apply key_bits_nonneg. pose proof (block_index_range h _ Hh Hn). lia. Qed.

Lemma Forall_bits (P Q : Z -> Prop) ns : Forall (λ n, 0 <= n) ns -> (forall n, 0 <= n -> P n -> Q n) -> Forall P ns -> Forall Q ns.
Proof. intros H1 H2 H3. eapply Forall_impl; [|exact (Forall_and H1 H3)]. intros n [? ?]. by apply H2. Qed.

(** What is known of a reachable filter. *)
Definition bloom_inv (f : carquet_bloom_filter) (hs : list Z) : Prop := exists data, bloom_wf f data /\ Forall (in_u 64) hs /\ holds_hashes f data hs.

Lemma hashes_in (hs : list Z) x : Forall (in_u 64) hs -> x ∈ hs -> in_u 64 x.
Proof. rewrite list.Forall_forall. auto. Qed.

(** More bits keep the hashes. *)
Lemma holds_extends f data data' hs : Forall (in_u 64) hs -> 1 <= bloom_num_blocks f -> extends data data' -> holds_hashes f data hs -> holds_hashes f data' hs.
Proof. intros Hh Hn (_ & _ & T) H x Hx. eapply Forall_bits; [apply hash_bits_nonneg; [by apply (hashes_in hs)|done]|exact T|by apply H]. Qed.

Lemma empty_inv f data : bloom_wf f data -> bloom_inv f [].
Proof. intros W. exists data. split; [done|]. split; [constructor|]. intros h Hin. by apply not_elem_of_nil in Hin. Qed.

Lemma insert_inv f hs h f' : bloom_inv f hs -> in_u 64 h -> carquet_bloom_filter_insert_hash (Some f) h = Some (Some f') -> bloom_inv f' (h :: hs).
Proof.
  intros (data & W & Hh & HH) Hu E. destruct (insert_hash_spec f data h W Hu) as (d' & E' & X & F). rewrite E in E'. injection E' as ->.
  destruct W as (Ed & Hb & Ld & En & Hn & Hmax). exists d'. destruct (X) as (B & L & _). split; [split; [done|]; split; [done|]; cbn; split; [lia|]; auto|].
  split; [by constructor|]. intros x [->|Hin]%elem_of_cons; [exact F|]. by apply (holds_extends f data d' hs Hh Hn X HH).
Qed.

Lemma merge_inv f hs g gs f' : bloom_inv f hs -> bloom_inv g gs -> carquet_bloom_filter_merge (Some f) (Some g) = Some (CARQUET_OK, Some f') -> bloom_inv f' (hs ++ gs).
Proof.
  intros (d1 & (Ed & Hb & Ld & En & Hn & Hmax) & Hh1 & HH1) (d2 & (Ed2 & Hb2 & Ld2 & En2 & Hn2 & Hmax2) & Hh2 & HH2) E. unfold carquet_bloom_filter_merge in E.
  destruct (Z.eqb_spec (bloom_num_bytes f) (bloom_num_bytes g)) as [Eb|]; cbn [negb] in E; [|done]. rewrite Ed, Ed2 in E. cbn [default] in E. unfold id in E.
  destruct (or_bytes_spec (Z.to_nat (bloom_num_bytes f)) d1 d2) as (r & Er & Lr & Br & Tr); [lia|lia|done|done|]. rewrite Er in E. cbn [mbind option_bind] in E. injection E as <-.
  assert (bloom_num_blocks g = bloom_num_blocks f) as Enb by lia. exists r. split; [split; [done|]; split; [done|]; cbn; split; [lia|]; auto|]. split; [by apply Forall_app_2|].
  intros x [Hin|Hin]%elem_of_app; change (hash_bits (mk_bloom _ _ _ _) x) with (hash_bits f x).
  - apply (holds_extends f d1 r hs Hh1 Hn); [|done|done]. split; [done|]. split; [lia|]. intros n ? T. by rewrite Tr, T.
  - assert (hash_bits f x = hash_bits g x) as -> by (unfold hash_bits; by rewrite Enb). apply (holds_extends g d2 r gs Hh2 Hn2); [|done|done].
    split; [done|]. split; [lia|]. intros n ? T. rewrite Tr, T by done. apply orb_true_r.
Qed.

Lemma copy_inv f hs out cap out' n g : bloom_inv f hs -> carquet_bloom_filter_write (Some f) (Some out) cap true = Some (CARQUET_OK, Some (out', n)) ->
  carquet_bloom_filter_read true (Some out') n = Some (CARQUET_OK, Some g) -> bloom_inv g hs.
Proof.
  intros (data & (Ed & Hb & Ld & En & Hn & Hmax) & Hh & HH) E1 E2. unfold carquet_bloom_filter_write in E1. cbn [negb] in E1. destruct (cap <? bloom_num_bytes f); [done|].
  rewrite Ed in E1. cbn [default] in E1. unfold id in E1. rewrite <- Ld, rd_n_all in E1. cbn [mbind option_bind] in E1. destruct (wr_n out 0 data) as [o|] eqn:Ew; [|done].
  cbn [mbind option_bind] in E1. injection E1 as -> <-. pose proof (take_wr_n _ _ _ _ (lenZ data) Ew ltac:(lia)) as Tk.
  rewrite Z.add_0_l, Nat2Z.id, firstn_all in Tk. change (take (Z.to_nat 0) out) with (@nil Z) in Tk. cbn [app] in Tk.
  unfold carquet_bloom_filter_read, carquet_bloom_filter_from_data in E2. cbn [negb orb] in E2. rewrite bool_decide_false in E2 by done.
  destruct (_ <? _); [done|]. destruct (negb _); [done|]. destruct (mem_malloc _); [|done]. destruct (mem_malloc _); [|done].
  destruct (rd_n out' 0 (lenZ data)) as [bs|] eqn:Er; [|done]. cbn [mbind option_bind] in E2. injection E2 as <-. destruct (rd_n_inv _ _ _ _ Er) as (_ & _ & _ & _ & ->).
  rewrite Nat2Z.id. change (Z.to_nat 0) with 0%nat. rewrite drop_0, Tk.
  assert (lenZ data / BLOOM_FILTER_BLOCK_SIZE = bloom_num_blocks f) as Enb by (unfold BLOOM_FILTER_BLOCK_SIZE; rewrite Ld, En, Z.mul_comm, Z.div_mul by lia; done).
  exists data. split; [|split; [done|]].
  - split; [done|]. split; [done|]. cbn [bloom_num_bytes bloom_num_blocks]. rewrite Enb. repeat split; lia.
  - intros h Hin. specialize (HH h Hin). unfold hash_bits in *. cbn [bloom_num_blocks]. by rewrite Enb.
Qed.

Lemma bloom_reach_inv f hs : bloom_reach f hs -> bloom_inv f hs.
Proof.
  induction 1; [| |by eapply insert_inv|by eapply merge_inv|by eapply copy_inv].
  - destruct (create_wf n f) as [data W]; [done|done|]. by apply (empty_inv f data).
  - destruct (from_data_wf data size f) as [_ W]; [done..|]. by apply (empty_inv f _ W).
Qed.

(** C13: the Bloom filter has no false negatives and is memory safe.  For every filter that
    creation with a size below 2^63 (near SIZE_MAX it wraps, [bloom_create_wraps]), loading, insertion, merging and serialisation can produce, testing any hash
    and inserting any hash touch only the filter, and a hash that was put into it, or into
    a filter merged into it, or into the filter it was serialised from, is reported
    present; hence so is every byte string whose xxHash64 was inserted. *)
Theorem bloom_no_false_negatives f hs : bloom_reach f hs ->
  (forall h, in_u 64 h -> exists r, carquet_bloom_filter_check_hash (Some f) h = Some r /\ (h ∈ hs -> r = true)) /\
  (forall h, in_u 64 h -> exists f', carquet_bloom_filter_insert_hash (Some f) h = Some (Some f') /\ carquet_bloom_filter_check_hash (Some f') h = Some true) /\
  (forall value len h, bytes_ok value -> 0 <= len <= lenZ value -> carquet_xxhash64 value len 0 = Some h -> h ∈ hs -> carquet_bloom_filter_check_bytes (Some f) value len = Some true).
Proof.
  intros R. destruct (bloom_reach_inv f hs R) as (data & W & Hh & HH). split; [|split].
  - intros h Hu. destruct (check_hash_spec f data h W Hu) as (r & E & Hr). exists r. split; [done|]. intros Hin. by apply Hr, HH.
  - intros h Hu. destruct (insert_hash_spec f data h W Hu) as (d' & E & _ & _). eexists. split; [exact E|].
    destruct (insert_inv f hs h _ (ex_intro _ data (conj W (conj Hh HH))) Hu E) as (d2 & W2 & _ & HH2). destruct (check_hash_spec _ d2 h W2 Hu) as (r & -> & Hr). f_equal.
    apply Hr, HH2, elem_of_cons. by left.
  - intros value len h Hb Hl E Hin. unfold carquet_bloom_filter_check_bytes. rewrite E. cbn [mbind option_bind].
    destruct (check_hash_spec f data h W (hashes_in hs h Hh Hin)) as (r & -> & Hr). f_equal. by apply Hr, HH.
Qed.

End Filter.

(** A filter of two blocks, and the same filter with the hash of "a". *)
Definition empty_filter : carquet_bloom_filter := mk_bloom (Some (replicate 64 0)) 64 2 true.
Definition filter_with_a : carquet_bloom_filter :=
  Eval vm_compute in match carquet_bloom_filter_insert_hash (Some empty_filter) 0xD24EC4F1A98C6E5B with Some (Some f) => f | _ => empty_filter end.

Lemma bloom_no_false_negatives_witness :
  let A := limited_alloc (2 ^ 20) in
  bloom_reach filter_with_a [0xD24EC4F1A98C6E5B] /\ carquet_bloom_filter_check_bytes (Some filter_with_a) [97; 98] 1 = Some true.
Proof.
  intros A. assert (bloom_reach filter_with_a [0xD24EC4F1A98C6E5B]) as R.
  { apply (reach_insert empty_filter [] _ filter_with_a); [|unfold in_u; lia|vm_compute; reflexivity]. apply (reach_create 40); [lia|vm_compute; reflexivity]. }
  split; [exact R|]. apply (bloom_no_false_negatives filter_with_a [0xD24EC4F1A98C6E5B] R) with (h := 0xD24EC4F1A98C6E5B).
  - repeat constructor; unfold in_u; lia.
  - cbn. lia.
  - vm_compute. reflexivity.
  - apply elem_of_cons. left. reflexivity.
Defined.

(** The size computation wraps: the filter of a size within 31 bytes of SIZE_MAX has no
    block, and inserting into it writes outside its memory. *)
Lemma bloom_create_wraps : let A := limited_alloc (2 ^ 20) in
  exists f, carquet_bloom_filter_create SIZE_MAX = Some f /\ bloom_num_blocks f = 0 /\ carquet_bloom_filter_insert_hash (Some f) 1 = None.
Proof. eexists. split; [by vm_compute|]. split; by vm_compute. Qed.
