(* ===== verification/Arena.v ===== *)
(** * The arena allocator (carquet/core/arena.c)

    A chain of blocks with a bump pointer in each, marks and restoration.  A block is its
    address, capacity and bump offset; the chain is a list and [current] an index into it.
    The operating system's allocator is an interface: it hands out the addresses of blocks.
    The theorem: allocations that are live at the same time never overlap, stay inside
    their blocks and are aligned, across resets and nested save/restore scopes. *)

From S2P Require Import Prelude Status Buffer.

(** [carquet_mem_malloc(n)] when the blocks [taken] (address, bytes) are allocated. *)
Class AddressSpace := os_malloc : list (Z * Z) -> Z -> option Z.

Definition region_disjoint (r s : Z * Z) : Prop := r.1 + r.2 <= s.1 \/ s.1 + s.2 <= r.1.

(** What the C library promises: memory that nothing else occupies. *)
Class AddressSpaceOk (Sp : AddressSpace) :=
  os_malloc_fresh : forall taken n a, os_malloc taken n = Some a -> 0 < a /\ a + n <= 2 ^ 64 /\ Forall (region_disjoint (a, n)) taken.

Definition CARQUET_ARENA_DEFAULT_BLOCK_SIZE : Z := 64 * 1024.
Definition CARQUET_ARENA_ALIGNMENT : Z := 16.

Record carquet_arena_block_t := mk_block {
  block_addr : Z;
  block_size : Z;
  block_used : Z }.

(** [offsetof(carquet_arena_block_t, u)] *)
Definition header_size : Z := 24.

(** [CARQUET_ARENA_BLOCK_DATA] *)
Definition block_data (b : carquet_arena_block_t) : Z := block_addr b + header_size.

Record carquet_arena_t := mk_arena {
  arena_blocks : list carquet_arena_block_t;   (* head and its successors *)
  arena_current : nat;
  default_block_size : Z;
  total_allocated : Z;
  total_capacity : Z }.

Record carquet_arena_mark_t := mk_mark {
  mark_block : nat;
  mark_used : Z;
  mark_total_allocated : Z }.

(** [~x] on [size_t] *)
Definition not64 (x : Z) : Z := SIZE_MAX - x.

Definition align_up (value alignment : Z) : Z :=
  if (alignment =? 0) || (value >? SIZE_MAX - (alignment - 1)) then SIZE_MAX
  else u64 (value + alignment - 1) .& not64 (alignment - 1).

Section Arena.
Context {Sp : AddressSpace}.

Definition taken (blocks : list carquet_arena_block_t) : list (Z * Z) := (λ b, (block_addr b, header_size + block_size b)) <$> blocks.

Definition arena_new_block (blocks : list carquet_arena_block_t) (min_size : Z) : option carquet_arena_block_t :=
  let size := if min_size <? CARQUET_ARENA_DEFAULT_BLOCK_SIZE then CARQUET_ARENA_DEFAULT_BLOCK_SIZE
              else align_up min_size CARQUET_ARENA_DEFAULT_BLOCK_SIZE in
  if size =? SIZE_MAX then None else
  match add_overflows_size header_size size with
  | None => None
  | Some alloc_size =>
      match os_malloc (taken blocks) alloc_size with
      | None => None
      | Some addr => Some (mk_block addr size 0)
      end
  end.

Definition carquet_arena_init_size (size : Z) : carquet_status_t * carquet_arena_t :=
  match arena_new_block [] size with
  | None => (CARQUET_ERROR_OUT_OF_MEMORY, mk_arena [] 0 size 0 0)
  | Some head => (CARQUET_OK, mk_arena [head] 0 size 0 (block_size head))
  end.

Definition carquet_arena_init : carquet_status_t * carquet_arena_t := carquet_arena_init_size CARQUET_ARENA_DEFAULT_BLOCK_SIZE.

(** The blocks are freed. *)
Definition carquet_arena_destroy (a : carquet_arena_t) : carquet_arena_t := mk_arena [] 0 (default_block_size a) 0 0.

Definition unused (b : carquet_arena_block_t) : carquet_arena_block_t := mk_block (block_addr b) (block_size b) 0.

Definition carquet_arena_reset (a : carquet_arena_t) : carquet_arena_t :=
  mk_arena (unused <$> arena_blocks a) 0 (default_block_size a) 0 (total_capacity a).

Definition arena_aligned_offset (b : carquet_arena_block_t) (current_used alignment : Z) : Z :=
  let base := block_data b in
  let current_addr := u64 (base + current_used) in
  let aligned_addr := u64 (current_addr + alignment - 1) .& not64 (alignment - 1) in
  u64 (aligned_addr - base).

Inductive fit := Overflow | NoRoom | Fits (offset new_used : Z).

Definition fit_in (b : carquet_arena_block_t) (size alignment : Z) : fit :=
  let aligned_offset := arena_aligned_offset b (block_used b) alignment in
  match add_overflows_size aligned_offset size with
  | None => Overflow
  | Some new_used => if new_used <=? block_size b then Fits aligned_offset new_used else NoRoom
  end.

(** The current block, then its successors: the index of the first block with room. *)
Fixpoint find_block (blocks : list carquet_arena_block_t) (i : nat) (size alignment : Z) : option (nat * fit) :=
  match blocks with
  | [] => None
  | b :: blocks =>
      match fit_in b size alignment with
      | NoRoom => find_block blocks (S i) size alignment
      | r => Some (i, r)
      end
  end.

Definition with_used (b : carquet_arena_block_t) (used : Z) : carquet_arena_block_t := mk_block (block_addr b) (block_size b) used.

(** The current block, the ones behind it, or a new one: the pointer, [None] for NULL, and
    the arena. *)
Definition alloc_in_blocks (a : carquet_arena_t) (size alignment : Z) : option Z * carquet_arena_t :=
  match find_block (drop (arena_current a) (arena_blocks a)) (arena_current a) size alignment with
  | Some (i, Fits offset new_used) =>
      match arena_blocks a !! i with
      | Some b => (Some (block_data b + offset),
                   mk_arena (<[i := with_used b new_used]> (arena_blocks a)) i (default_block_size a) (u64 (total_allocated a + size)) (total_capacity a))
      | None => (None, a)
      end
  | Some (_, _) => (None, a)
  | None =>
      match add_overflows_size size alignment with
      | None => (None, a)
      | Some needed =>
          let wanted := if needed >? default_block_size a then needed else default_block_size a in
          match arena_new_block (arena_blocks a) wanted with
          | None => (None, a)
          | Some nb =>
              let i := length (arena_blocks a) in
              let capacity := u64 (total_capacity a + block_size nb) in
              let aligned_offset := arena_aligned_offset nb (block_used nb) alignment in
              match add_overflows_size aligned_offset size with
              | None => (None, mk_arena (arena_blocks a ++ [nb]) i (default_block_size a) (total_allocated a) capacity)
              | Some new_used =>
                  (Some (block_data nb + aligned_offset),
                   mk_arena (arena_blocks a ++ [with_used nb new_used]) i (default_block_size a) (u64 (total_allocated a + size)) capacity)
              end
          end
      end
  end.

(** The outer [None] is the assertion that there is a current block. *)
Definition carquet_arena_alloc_aligned (a : carquet_arena_t) (size alignment : Z) : option (option Z * carquet_arena_t) :=
  if size =? 0 then Some (None, a) else
  let alignment := if alignment =? 0 then 1 else alignment in
  _ ← arena_blocks a !! arena_current a;
  Some (alloc_in_blocks a size alignment).

Definition carquet_arena_alloc (a : carquet_arena_t) (size : Z) := carquet_arena_alloc_aligned a size CARQUET_ARENA_ALIGNMENT.

(** Where the bytes are, and what was stored there. *)
Definition stored (r : option (option Z * carquet_arena_t)) (bs : list Z) : option (option (Z * list Z) * carquet_arena_t) :=
  '(p, a) ← r;
  Some (option_map (λ p, (p, bs)) p, a).

Definition carquet_arena_calloc (a : carquet_arena_t) (count size : Z) : option (option (Z * list Z) * carquet_arena_t) :=
  let total := u64 (count * size) in
  if negb (count =? 0) && negb (total / count =? size) then Some (None, a)
  else stored (carquet_arena_alloc a total) (replicate (Z.to_nat total) 0).

(** [while (len < max_len && str[len]) len++]; [None] is a read outside the string. *)
Fixpoint string_length (max_len : nat) (str : list Z) : option Z :=
  match max_len with
  | O => Some 0
  | S max_len =>
      match str with
      | [] => None
      | c :: str => if c =? 0 then Some 0 else n ← string_length max_len str; Some (n + 1)
      end
  end.

Definition carquet_arena_strndup (a : carquet_arena_t) (str : option (list Z)) (max_len : Z) : option (option (Z * list Z) * carquet_arena_t) :=
  match str with
  | None => Some (None, a)
  | Some str =>
      len ← string_length (Z.to_nat max_len) str;
      bs ← rd_n str 0 len;
      stored (carquet_arena_alloc_aligned a (u64 (len + 1)) 1) (bs ++ [0])
  end.

(** [strlen] *)
Definition strlen (str : list Z) : option Z := string_length (S (length str)) str.

Definition carquet_arena_strdup (a : carquet_arena_t) (str : option (list Z)) : option (option (Z * list Z) * carquet_arena_t) :=
  match str with
  | None => Some (None, a)
  | Some s => n ← strlen s; carquet_arena_strndup a str n
  end.

Definition carquet_arena_memdup (a : carquet_arena_t) (src : option (list Z)) (size : Z) : option (option (Z * list Z) * carquet_arena_t) :=
  match src with
  | None => Some (None, a)
  | Some src =>
      if size =? 0 then Some (None, a) else
      bs ← rd_n src 0 size;
      stored (carquet_arena_alloc a size) bs
  end.

(** [None] when [current] is not a block, which the code asserts. *)
Definition carquet_arena_save (a : carquet_arena_t) : option carquet_arena_mark_t :=
  b ← arena_blocks a !! arena_current a;
  Some (mk_mark (arena_current a) (block_used b) (total_allocated a)).

Definition carquet_arena_restore (a : carquet_arena_t) (m : carquet_arena_mark_t) : option carquet_arena_t :=
  b ← arena_blocks a !! mark_block m;
  Some (mk_arena (take (mark_block m) (arena_blocks a) ++ with_used b (mark_used m) :: (unused <$> drop (S (mark_block m)) (arena_blocks a)))
          (mark_block m) (default_block_size a) (mark_total_allocated m) (total_capacity a)).

End Arena.

(** ** Alignment arithmetic *)

Lemma land_not64 x k : 0 <= x < 2 ^ 64 -> 0 <= k < 64 -> x .& not64 (2 ^ k - 1) = x - x mod 2 ^ k.
Proof.
  intros Hx Hk. assert (0 < 2 ^ k) by (apply Z.pow_pos_nonneg; lia). unfold not64, SIZE_MAX.
  replace (2 ^ 64 - 1 - (2 ^ k - 1)) with ((2 ^ (64 - k) - 1) * 2 ^ k) by (rewrite Z.mul_sub_distr_r, <- Z.pow_add_r by lia; replace (64 - k + k) with 64 by lia; lia).
  rewrite <- shiftl_mul by lia. replace (x - x mod 2 ^ k) with ((x / 2 ^ k) * 2 ^ k) by (pose proof (Z.div_mod x (2 ^ k)); lia). rewrite <- shiftl_mul by lia.
  apply Z.bits_inj_iff'. intros n Hn. rewrite Z.land_spec. destruct (Z.ltb_spec n k).
  - rewrite !Z.shiftl_spec_low by lia. apply andb_false_r.
  - rewrite !Z.shiftl_spec_high by lia. replace (2 ^ (64 - k) - 1) with (Z.ones (64 - k)) by (rewrite Z.ones_equiv; lia). rewrite Z.div_pow2_bits by lia.
    replace (n - k + k) with n by lia. destruct (Z.ltb_spec (n - k) (64 - k)); [rewrite Z.ones_spec_low by lia; apply andb_true_r|].
    rewrite (testbit_above x 64) by lia. done.
Qed.

(** The offset is the next aligned one, or so large that nothing fits. *)
Lemma aligned_offset_spec b used k : 0 < block_addr b -> block_data b + block_size b <= 2 ^ 64 -> 0 <= used <= block_size b -> 0 < block_size b -> 0 <= k < 64 ->
  let off := arena_aligned_offset b used (2 ^ k) in
  (used <= off < used + 2 ^ k /\ (block_data b + off) mod 2 ^ k = 0 /\ block_data b + off < 2 ^ 64) \/
  (2 ^ 64 < block_data b + used + 2 ^ k /\ block_size b <= off < 2 ^ 64).
Proof.
  intros Ha Hs Hu Hp Hk off. assert (0 < 2 ^ k) as Hpk by (apply Z.pow_pos_nonneg; lia). assert (2 ^ k <= 2 ^ 63) by (apply Z.pow_le_mono_r; lia).
  assert (0 < block_data b) by (unfold block_data, header_size in *; lia). set (base := block_data b) in *.
  assert (off = u64 ((u64 (u64 (base + used) + 2 ^ k - 1) .& not64 (2 ^ k - 1)) - base)) as -> by done.
  destruct (Z.ltb_spec (base + used + 2 ^ k - 1) (2 ^ 64)) as [Hno|Hw].
  - left. rewrite (u64_small (base + used)) by lia. rewrite (u64_small (_ + 2 ^ k - 1)) by lia. rewrite land_not64 by lia. set (x := base + used + 2 ^ k - 1) in *.
    pose proof (Z.mod_pos_bound x (2 ^ k) Hpk). rewrite u64_small by lia. replace (base + (x - x mod 2 ^ k - base)) with ((x / 2 ^ k) * 2 ^ k) by (pose proof (Z.div_mod x (2 ^ k)); lia).
    split; [lia|]. split; [apply Z.mod_mul; lia|]. pose proof (Z.div_mod x (2 ^ k)). lia.
  - right. split; [lia|]. set (y := u64 (base + used)). assert (u64 (y + 2 ^ k - 1) < 2 ^ k) as Hy.
    { unfold y. destruct (Z.eq_dec (base + used) (2 ^ 64)) as [E|E].
      - rewrite E. change (u64 (2 ^ 64)) with 0. rewrite u64_small by lia. lia.
      - rewrite (u64_small (base + used)) by lia. unfold u64. replace (base + used + 2 ^ k - 1) with (base + used + 2 ^ k - 1 - 2 ^ 64 + 1 * 2 ^ 64) by lia. rewrite Z.mod_add by lia. rewrite Z.mod_small by lia. lia. }
    pose proof (u64_range (y + 2 ^ k - 1)) as R. rewrite land_not64 by lia. rewrite (Z.mod_small (u64 (y + 2 ^ k - 1))) by lia. rewrite Z.sub_diag.
    unfold u64. replace (0 - base) with (2 ^ 64 - base + (-1) * 2 ^ 64) by lia. rewrite Z.mod_add by lia. rewrite Z.mod_small by lia. lia.
Qed.

(** ** The invariant *)

Definition block_ok (b : carquet_arena_block_t) : Prop :=
  0 < block_addr b /\ block_data b + block_size b <= 2 ^ 64 /\ 0 <= block_used b <= block_size b /\ 0 < block_size b.

Definition block_region (b : carquet_arena_block_t) : Z * Z := (block_addr b, header_size + block_size b).

(** An allocated region lies in the used part of a block. *)
Definition in_block (b : carquet_arena_block_t) (r : Z * Z) : Prop := block_data b <= r.1 /\ r.1 + r.2 <= block_data b + block_used b.

Fixpoint pairwise (rs : list (Z * Z)) : Prop :=
  match rs with [] => True | r :: rs => Forall (region_disjoint r) rs /\ pairwise rs end.

Definition sum_sizes (live : list (Z * Z)) : Z := foldr (λ r t, r.2 + t) 0 live.

Record arena_ok (a : carquet_arena_t) (live : list (Z * Z)) : Prop := {
  ok_blocks : forall i b, arena_blocks a !! i = Some b -> block_ok b;
  ok_disjoint : forall i j b c, i <> j -> arena_blocks a !! i = Some b -> arena_blocks a !! j = Some c -> region_disjoint (block_region b) (block_region c);
  ok_current : (arena_current a < length (arena_blocks a))%nat;
  ok_unused : forall i b, (arena_current a < i)%nat -> arena_blocks a !! i = Some b -> block_used b = 0;
  ok_live : Forall (λ r, 0 < r.2 /\ exists i b, arena_blocks a !! i = Some b /\ in_block b r) live;
  ok_pairwise : pairwise live;
  ok_total : total_allocated a = u64 (sum_sizes live);
  ok_default : 0 <= default_block_size a < 2 ^ 64 }.

(** What happens between a mark and its restoration: no block disappears, and the blocks
    before the marked one do not change. *)
Definition frame (a b : carquet_arena_t) : Prop :=
  (forall i x, arena_blocks a !! i = Some x -> exists y, arena_blocks b !! i = Some y /\ block_addr y = block_addr x /\ block_size y = block_size x) /\
  (arena_current a <= arena_current b)%nat /\
  (forall i, (i < arena_current a)%nat -> arena_blocks b !! i = arena_blocks a !! i).

Lemma frame_refl a : frame a a.
Proof. split; [naive_solver|]. split; [lia|done]. Qed.

Lemma frame_trans a b c : frame a b -> frame b c -> frame a c.
Proof.
  intros (F1 & C1 & U1) (F2 & C2 & U2). split; [|split; [lia|]].
  - intros i x Hx. destruct (F1 i x Hx) as (y & Hy & ? & ?). destruct (F2 i y Hy) as (z & Hz & ? & ?). exists z. split; [done|]. split; congruence.
  - intros i Hi. rewrite U2 by lia. by apply U1.
Qed.

Lemma region_disjoint_sym r s : region_disjoint r s -> region_disjoint s r.
Proof. unfold region_disjoint. lia. Qed.

(** Regions in different blocks do not meet. *)
Lemma in_blocks_disjoint b c r s : block_ok b -> block_ok c -> in_block b r -> in_block c s -> region_disjoint (block_region b) (block_region c) -> region_disjoint r s.
Proof. unfold block_ok, in_block, region_disjoint, block_region, block_data, header_size. cbn. lia. Qed.

(** A region above the bump pointer of block [i] meets no live region. *)
Lemma fresh_region a live i b off size : arena_ok a live -> arena_blocks a !! i = Some b -> block_used b <= off -> 0 < size -> off + size <= block_size b ->
  Forall (region_disjoint (block_data b + off, size)) live.
Proof.
  intros W Hb Ho Hs Hn. eapply Forall_impl; [|exact (ok_live _ _ W)]. intros r (Hr & j & c & Hc & In). pose proof (ok_blocks _ _ W i b Hb) as Bb. pose proof (ok_blocks _ _ W j c Hc) as Bc.
  destruct (decide (i = j)) as [<-|Hne].
  - rewrite Hb in Hc. injection Hc as <-. unfold in_block, region_disjoint in *. cbn. lia.
  - apply (in_blocks_disjoint (with_used b (off + size)) c); [|done| |done|exact (ok_disjoint _ _ W i j b c Hne Hb Hc)]; unfold block_ok, in_block, block_data, with_used, header_size in *; cbn in *; lia.
Qed.

(** Moving the bump pointer of a block at or after the current one. *)
Lemma bump_ok a live i b off size : arena_ok a live -> arena_blocks a !! i = Some b -> (arena_current a <= i)%nat -> block_used b <= off -> 0 < size -> off + size <= block_size b ->
  let a' := mk_arena (<[i := with_used b (off + size)]> (arena_blocks a)) i (default_block_size a) (u64 (total_allocated a + size)) (total_capacity a) in
  arena_ok a' ((block_data b + off, size) :: live) /\ frame a a'.
Proof.
  intros W Hb Hi Ho Hs Hn a'. pose proof (ok_blocks _ _ W i b Hb) as Bb. pose proof (fresh_region a live i b off size W Hb Ho Hs Hn) as Fr.
  assert (forall j c, arena_blocks a' !! j = Some c -> exists c0, arena_blocks a !! j = Some c0 /\ block_addr c = block_addr c0 /\ block_size c = block_size c0 /\
    (j = i /\ c = with_used b (off + size) \/ j <> i /\ c = c0)) as Back.
  { intros j c Hc. apply list_lookup_insert_Some in Hc as [(<- & <- & _)|[? Hc]]; [exists b|exists c]; naive_solver. }
  pose proof (lookup_lt_Some _ _ _ Hb) as Li. split; [split|split; [|split]].
  - intros j c Hc. destruct (Back j c Hc) as (c0 & H0 & _ & _ & [[-> ->]|[_ ->]]); [|by apply (ok_blocks _ _ W j)]. unfold block_ok, block_data, with_used in *. cbn in *. lia.
  - intros j m c d Hjm Hc Hd. destruct (Back j c Hc) as (c0 & H0 & E1 & E2 & _). destruct (Back m d Hd) as (d0 & H1 & E3 & E4 & _).
    unfold block_region. rewrite E1, E2, E3, E4. exact (ok_disjoint _ _ W j m c0 d0 Hjm H0 H1).
  - cbn. by rewrite length_insert.
  - intros j c Hj Hc. cbn in Hj. destruct (Back j c Hc) as (c0 & H0 & _ & _ & [[-> _]|[_ ->]]); [lia|]. apply (ok_unused _ _ W j c0); [lia|done].
  - assert (forall j c r, arena_blocks a !! j = Some c -> in_block c r -> exists j' c', arena_blocks a' !! j' = Some c' /\ in_block c' r) as Keep.
    { intros j c r Hc In. destruct (decide (j = i)) as [->|Hne].
      - rewrite Hb in Hc. injection Hc as <-. exists i, (with_used b (off + size)). split; [cbn; by apply list_lookup_insert_eq|]. unfold in_block, block_data, with_used in *. cbn. lia.
      - exists j, c. split; [|done]. cbn. by rewrite list_lookup_insert_ne. }
    constructor.
    + cbn. split; [done|]. exists i, (with_used b (off + size)). split; [by apply list_lookup_insert_eq|]. unfold in_block, block_data, with_used, block_ok in *. cbn in *. lia.
    + eapply Forall_impl; [|exact (ok_live _ _ W)]. intros r (Hr & j & c & Hc & In). split; [done|]. by apply (Keep j c).
  - split; [done|exact (ok_pairwise _ _ W)].
  - cbn. rewrite (ok_total _ _ W). fold (sum_sizes live). unfold u64. rewrite Zplus_mod_idemp_l. f_equal. lia.
  - exact (ok_default _ _ W).
  - intros j x Hx. destruct (decide (j = i)) as [->|Hne].
    + rewrite Hb in Hx. injection Hx as <-. exists (with_used b (off + size)). split; [by apply list_lookup_insert_eq|done].
    + exists x. split; [cbn; by rewrite list_lookup_insert_ne|done].
  - done.
  - intros j Hj. cbn. rewrite list_lookup_insert_ne by lia. done.
Qed.

Lemma fit_in_spec b size k off nu : block_ok b -> 0 < size < 2 ^ 64 -> 0 <= k < 64 -> fit_in b size (2 ^ k) = Fits off nu ->
  block_used b <= off /\ nu = off + size /\ nu <= block_size b /\ (block_data b + off) mod 2 ^ k = 0.
Proof.
  intros (B1 & B2 & B3 & B4) Hs Hk. unfold fit_in. pose proof (aligned_offset_spec b (block_used b) k B1 B2 B3 B4 Hk) as A. cbv zeta in A. set (o := arena_aligned_offset b (block_used b) (2 ^ k)) in *.
  assert (0 <= o < 2 ^ 64) by (unfold block_data, header_size in *; lia). unfold add_overflows_size, SIZE_MAX. rewrite Z.gtb_ltb. destruct (Z.ltb_spec (2 ^ 64 - 1 - size) o); [done|].
  rewrite u64_small by lia. destruct (Z.leb_spec (o + size) (block_size b)); [|done]. intros [= <- <-]. destruct A as [(A1 & A2 & A3)|A]; [|lia]. repeat split; (done || lia).
Qed.

Lemma find_block_spec size al : forall bs i j off nu, find_block bs i size al = Some (j, Fits off nu) -> exists b, (i <= j)%nat /\ bs !! (j - i)%nat = Some b /\ fit_in b size al = Fits off nu.
Proof.
  induction bs as [|b bs IH]; intros i j off nu H; cbn [find_block] in H; [done|]. destruct (fit_in b size al) eqn:E; [by simplify_eq| |].
  - destruct (IH (S i) j off nu H) as (c & Hj & Hc & Hf). exists c. split; [lia|]. split; [|done]. replace (j - i)%nat with (S (j - S i)) by lia. done.
  - injection H as <- <- <-. exists b. rewrite Nat.sub_diag. split; [lia|]. done.
Qed.

Section ArenaProofs.
Context {Sp : AddressSpace} {SpOk : AddressSpaceOk Sp}.

Lemma new_block_spec bs n nb : 0 <= n < 2 ^ 64 -> arena_new_block bs n = Some nb ->
  block_ok nb /\ block_used nb = 0 /\ n <= block_size nb /\ Forall (region_disjoint (block_region nb)) (taken bs).
Proof.
  intros Hn. unfold arena_new_block, CARQUET_ARENA_DEFAULT_BLOCK_SIZE. set (size := if n <? 64 * 1024 then _ else _). destruct (Z.eqb_spec size SIZE_MAX) as [|Hne]; [done|].
  assert (n <= size /\ 64 * 1024 <= size < 2 ^ 64) as [Hs1 Hs2].
  { unfold size in *. destruct (Z.ltb_spec n (64 * 1024)); [lia|]. unfold align_up, SIZE_MAX in *. cbn [Z.eqb orb] in *. rewrite Z.gtb_ltb in *.
    destruct (Z.ltb_spec (2 ^ 64 - 1 - (64 * 1024 - 1)) n); cbn [orb] in *; [done|]. rewrite u64_small by lia. change (64 * 1024) with (2 ^ 16) in *. rewrite land_not64 by lia.
    set (x := n + 2 ^ 16 - 1). pose proof (Z.mod_pos_bound x (2 ^ 16) ltac:(lia)). change (2 ^ 16 =? 0) with false. cbn [orb]. lia. }
  unfold add_overflows_size, SIZE_MAX, header_size. rewrite Z.gtb_ltb. destruct (Z.ltb_spec (2 ^ 64 - 1 - size) 24); [done|]. rewrite u64_small by lia.
  destruct (os_malloc (taken bs) (24 + size)) as [addr|] eqn:E; [|done]. intros [= <-]. apply os_malloc_fresh in E as (A1 & A2 & A3). unfold block_ok, block_data, block_region, header_size. cbn.
  repeat split; try lia. done.
Qed.

Lemma append_block_ok a live nb cap : arena_ok a live -> block_ok nb -> block_used nb = 0 -> Forall (region_disjoint (block_region nb)) (taken (arena_blocks a)) ->
  let a' := mk_arena (arena_blocks a ++ [nb]) (length (arena_blocks a)) (default_block_size a) (total_allocated a) cap in
  arena_ok a' live /\ frame a a'.
Proof.
  intros W Bn Un Dn a'. assert (forall i x, arena_blocks a' !! i = Some x -> arena_blocks a !! i = Some x \/ i = length (arena_blocks a) /\ x = nb) as Back.
  { intros i x Hx. cbn in Hx. apply lookup_app_Some in Hx as [Hx|[Hl Hx]]; [by left|]. right. apply list_lookup_singleton_Some in Hx as [? <-]. split; [lia|done]. }
  assert (forall i x, arena_blocks a !! i = Some x -> region_disjoint (block_region nb) (block_region x)) as Dn'.
  { intros i x Hx. unfold taken in Dn. rewrite Forall_fmap in Dn. eapply (Forall_lookup_1 _ _ i x) in Dn; [exact Dn|done]. }
  pose proof (ok_current _ _ W) as Cu. split; [split|split; [|split]]; cbn.
  - intros i x Hx. destruct (Back i x Hx) as [H|[_ ->]]; [by apply (ok_blocks _ _ W i)|done].
  - intros i j x y Hij Hx Hy. destruct (Back i x Hx) as [H|[-> ->]]; destruct (Back j y Hy) as [H'|[-> ->]].
    + by apply (ok_disjoint _ _ W i j).
    + apply region_disjoint_sym. by apply (Dn' i).
    + by apply (Dn' j).
    + done.
  - rewrite length_app. cbn. lia.
  - intros i x Hi Hx. destruct (Back i x Hx) as [H|[-> ->]]; [apply lookup_lt_Some in H; lia|lia].
  - eapply Forall_impl; [|exact (ok_live _ _ W)]. intros r (Hr & i & x & Hx & In). split; [done|]. exists i, x. split; [by apply lookup_app_l_Some|done].
  - exact (ok_pairwise _ _ W).
  - exact (ok_total _ _ W).
  - exact (ok_default _ _ W).
  - intros i x Hx. exists x. split; [by apply lookup_app_l_Some|done].
  - lia.
  - intros i Hi. by rewrite lookup_app_l by lia.
Qed.

(** Allocation: on success a fresh aligned region, on failure nothing changes for the
    regions that are live. *)
Lemma alloc_in_blocks_spec a live size k r a' : arena_ok a live -> 0 < size < 2 ^ 64 -> 0 <= k < 64 -> alloc_in_blocks a size (2 ^ k) = (r, a') ->
  frame a a' /\ match r with Some p => 0 < size /\ arena_ok a' ((p, size) :: live) /\ p mod 2 ^ k = 0 | None => arena_ok a' live end.
Proof.
  intros W Hs Hk. unfold alloc_in_blocks.
  assert (0 < 2 ^ k <= 2 ^ 63) as Hp by (split; [apply Z.pow_pos_nonneg; lia|apply Z.pow_le_mono_r; lia]).
  destruct (find_block (drop (arena_current a) (arena_blocks a)) (arena_current a) size (2 ^ k)) as [[i [| |off nu]]|] eqn:EF; try (intros [= <- <-]; split; [apply frame_refl|done]).
  - destruct (find_block_spec _ _ _ _ _ _ _ EF) as (b & Hi & Hb & Hf). rewrite lookup_drop in Hb. replace (arena_current a + (i - arena_current a))%nat with i in Hb by lia.
    rewrite Hb. destruct (fit_in_spec b size k off nu (ok_blocks _ _ W i b Hb) ltac:(lia) Hk Hf) as (F1 & -> & F3 & F4). intros [= <- <-].
    destruct (bump_ok a live i b off size W Hb Hi F1 ltac:(lia) F3) as [W' Fr]. split; [exact Fr|]. split; [lia|]. split; [exact W'|done].
  - unfold add_overflows_size at 1. unfold SIZE_MAX. rewrite (Z.gtb_ltb size). destruct (Z.ltb_spec (2 ^ 64 - 1 - 2 ^ k) size); [intros [= <- <-]; split; [apply frame_refl|done]|].
    rewrite u64_small by lia. set (wanted := if _ >? _ then _ else _). pose proof (ok_default _ _ W) as Hd.
    assert (size + 2 ^ k <= wanted < 2 ^ 64) as Hw by (unfold wanted; rewrite Z.gtb_ltb; destruct (Z.ltb_spec (default_block_size a) (size + 2 ^ k)); lia).
    destruct (arena_new_block (arena_blocks a) wanted) as [nb|] eqn:EN; [|intros [= <- <-]; split; [apply frame_refl|done]].
    destruct (new_block_spec (arena_blocks a) wanted nb ltac:(lia) EN) as (Bn & Un & Sn & Dn). pose proof Bn as (N1 & N2 & N3 & N4).
    destruct (append_block_ok a live nb (u64 (total_capacity a + block_size nb)) W Bn Un Dn) as [W1 F1]. rewrite Un.
    pose proof (aligned_offset_spec nb 0 k N1 N2 ltac:(lia) N4 Hk) as Al. cbv zeta in Al. destruct Al as [(A1 & A2 & A3)|[A1 _]]; [|lia].
    set (off := arena_aligned_offset nb 0 (2 ^ k)) in *. unfold add_overflows_size, SIZE_MAX. rewrite (Z.gtb_ltb off). destruct (Z.ltb_spec (2 ^ 64 - 1 - size) off) as [|Hno].
    { exfalso. unfold block_data, header_size in *. lia. }
    rewrite u64_small by lia. intros [= <- <-].
    set (a1 := mk_arena (arena_blocks a ++ [nb]) (length (arena_blocks a)) (default_block_size a) (total_allocated a) (u64 (total_capacity a + block_size nb))) in *.
    assert (arena_blocks a1 !! length (arena_blocks a) = Some nb) as Ln by (cbn; by apply list_lookup_middle).
    destruct (bump_ok a1 live (length (arena_blocks a)) nb off size W1 Ln) as [W2 F2]; [done|lia|lia|lia|].
    cbn [arena_blocks arena_current default_block_size total_allocated total_capacity a1] in W2, F2. rewrite insert_app_r_alt, Nat.sub_diag in W2, F2 by lia. cbn [insert list_insert] in W2, F2.
    split; [by apply (frame_trans a a1)|]. split; [lia|]. split; [exact W2|done].
Qed.

Lemma alloc_aligned_spec a live size k : arena_ok a live -> 0 <= size < 2 ^ 64 -> 0 <= k < 64 ->
  exists r a', carquet_arena_alloc_aligned a size (2 ^ k) = Some (r, a') /\ frame a a' /\
    match r with Some p => 0 < size /\ arena_ok a' ((p, size) :: live) /\ p mod 2 ^ k = 0 | None => arena_ok a' live end.
Proof.
  intros W Hs Hk. unfold carquet_arena_alloc_aligned. destruct (Z.eqb_spec size 0); [exists None, a; split; [done|]; split; [apply frame_refl|done]|].
  assert (0 < 2 ^ k) by (apply Z.pow_pos_nonneg; lia). rewrite (proj2 (Z.eqb_neq (2 ^ k) 0)) by lia.
  destruct (lookup_lt_is_Some_2 _ _ (ok_current _ _ W)) as [b ->]. cbn [mbind option_bind].
  destruct (alloc_in_blocks a size (2 ^ k)) as [r a'] eqn:E. exists r, a'. split; [done|]. apply (alloc_in_blocks_spec a live size k r a' W); (done || lia).
Qed.

Lemma reset_ok a live : arena_ok a live -> arena_ok (carquet_arena_reset a) [].
Proof.
  intros W. assert (forall i x, arena_blocks (carquet_arena_reset a) !! i = Some x -> exists y, arena_blocks a !! i = Some y /\ x = unused y) as Back.
  { intros i x Hx. cbn in Hx. rewrite list_lookup_fmap in Hx. destruct (arena_blocks a !! i) as [y|]; [|done]. exists y. cbn in Hx. by simplify_eq. }
  split; cbn; try done.
  - intros i x Hx. destruct (Back i x Hx) as (y & Hy & ->). pose proof (ok_blocks _ _ W i y Hy). unfold block_ok, block_data, unused in *. cbn. lia.
  - intros i j x y Hij Hx Hy. destruct (Back i x Hx) as (x0 & Hx0 & ->). destruct (Back j y Hy) as (y0 & Hy0 & ->). exact (ok_disjoint _ _ W i j x0 y0 Hij Hx0 Hy0).
  - rewrite length_fmap. pose proof (ok_current _ _ W). lia.
  - intros i x _ Hx. by destruct (Back i x Hx) as (y & _ & ->).
  - exact (ok_default _ _ W).
Qed.

(** Restoring a mark after any work brings every block back to its use at the mark. *)
Lemma restore_ok a live b live' m : arena_ok a live -> arena_ok b live' -> frame a b -> carquet_arena_save a = Some m ->
  exists c, carquet_arena_restore b m = Some c /\ arena_ok c live /\ frame a c /\ total_allocated c = total_allocated a /\ arena_current c = arena_current a.
Proof.
  intros Wa Wb (F1 & F2 & F3) Hm. unfold carquet_arena_save in Hm. destruct (arena_blocks a !! arena_current a) as [x|] eqn:Ex; [|done]. cbn [mbind option_bind] in Hm. injection Hm as <-.
  destruct (F1 _ _ Ex) as (y & Ey & A1 & A2). unfold carquet_arena_restore. cbn [mark_block mark_used mark_total_allocated]. rewrite Ey. cbn [mbind option_bind]. set (cur := arena_current a) in *.
  set (bs := take cur (arena_blocks b) ++ with_used y (block_used x) :: (unused <$> drop (S cur) (arena_blocks b))). pose proof (lookup_lt_Some _ _ _ Ey) as Ly.
  assert (length (take cur (arena_blocks b)) = cur) as Lt by (rewrite length_take; lia).
  assert (forall i z, bs !! i = Some z -> (i <= cur)%nat /\ arena_blocks a !! i = Some z \/ (cur < i)%nat /\ block_used z = 0 /\ exists z0, arena_blocks b !! i = Some z0 /\ z = unused z0) as Back.
  { intros i z Hz. unfold bs in Hz. apply lookup_app_Some in Hz as [Hz|[Hl Hz]].
    - left. pose proof (lookup_lt_Some _ _ _ Hz) as Hi. rewrite Lt in Hi. rewrite lookup_take_lt, F3 in Hz by lia. split; [lia|done].
    - rewrite Lt in Hl, Hz. rewrite lookup_cons in Hz. destruct (i - cur)%nat as [|n] eqn:En.
      + left. injection Hz as <-. replace i with cur by lia. split; [lia|]. rewrite Ex. f_equal. destruct x, y. cbn in *. by subst.
      + right. rewrite list_lookup_fmap, lookup_drop in Hz. replace (S cur + n)%nat with i in Hz by lia. destruct (arena_blocks b !! i) as [z0|] eqn:E0; cbn in Hz; [|done].
        injection Hz as <-. split; [lia|]. split; [done|]. by exists z0. }
  assert (forall i z, (i <= cur)%nat -> arena_blocks a !! i = Some z -> bs !! i = Some z) as Fwd.
  { intros i z Hi Hz. unfold bs. destruct (decide (i = cur)) as [->|].
    - rewrite lookup_app_r by lia. rewrite Lt, Nat.sub_diag. cbn. rewrite Ex in Hz. injection Hz as <-. f_equal. destruct x, y. cbn in *. by subst.
    - rewrite lookup_app_l by lia. rewrite lookup_take_lt, F3 by lia. done. }
  assert (forall i z, bs !! i = Some z -> exists z0, arena_blocks b !! i = Some z0 /\ block_addr z = block_addr z0 /\ block_size z = block_size z0) as Shape.
  { intros i z Hz. destruct (Back i z Hz) as [[_ Hz']|(_ & _ & z0 & H0 & ->)]; [|by exists z0]. destruct (F1 i z Hz') as (z0 & ? & ? & ?). by exists z0. }
  eexists. split; [done|]. split; [|split; [split; [|split]|]]; [split|..]; cbn.
  - intros i z Hz. destruct (Back i z Hz) as [[_ Hz']|(_ & _ & z0 & H0 & ->)]; [by apply (ok_blocks _ _ Wa i)|]. pose proof (ok_blocks _ _ Wb i z0 H0). unfold block_ok, block_data, unused in *. cbn. lia.
  - intros i j z w Hij Hz Hw. destruct (Shape i z Hz) as (z0 & Hz0 & E1 & E2). destruct (Shape j w Hw) as (w0 & Hw0 & E3 & E4). unfold block_region. rewrite E1, E2, E3, E4.
    exact (ok_disjoint _ _ Wb i j z0 w0 Hij Hz0 Hw0).
  - unfold bs. rewrite length_app, Lt. cbn. lia.
  - intros i z Hi Hz. destruct (Back i z Hz) as [[? _]|(_ & ? & _)]; [lia|done].
  - eapply Forall_impl; [|exact (ok_live _ _ Wa)]. intros r (Hr & i & z & Hz & In). split; [done|]. exists i, z. split; [|done]. apply Fwd; [|done].
    destruct (decide (i <= cur)%nat); [done|]. pose proof (ok_unused _ _ Wa i z ltac:(lia) Hz) as U0. unfold in_block in In. rewrite U0 in In. lia.
  - exact (ok_pairwise _ _ Wa).
  - exact (ok_total _ _ Wa).
  - exact (ok_default _ _ Wb).
  - intros i z Hz. destruct (F1 i z Hz) as (z0 & Hz0 & E1 & E2). destruct (decide (i <= cur)%nat); [exists z; split; [by apply Fwd|done]|].
    exists (unused z0). split; [|done]. unfold bs. rewrite lookup_app_r by lia. rewrite Lt. replace (i - cur)%nat with (S (i - S cur)) by lia. rewrite lookup_cons, list_lookup_fmap, lookup_drop.
    replace (S cur + (i - S cur))%nat with i by lia. by rewrite Hz0.
  - lia.
  - intros i Hi. fold cur in Hi. destruct (arena_blocks a !! i) as [z|] eqn:Ez; [apply Fwd; [lia|done]|]. apply lookup_ge_None in Ez. pose proof (ok_current _ _ Wa). fold cur in H. lia.
  - done.
Qed.

(** ** Runs

    Allocations and nested save/restore scopes, from a state with [live0]. *)
Inductive arena_run (a0 : carquet_arena_t) (live0 : list (Z * Z)) : carquet_arena_t -> list (Z * Z) -> Prop :=
  | run_start : arena_run a0 live0 a0 live0
  | run_alloc a live size k p a' : arena_run a0 live0 a live -> 0 <= size < 2 ^ 64 -> 0 <= k < 64 ->
      carquet_arena_alloc_aligned a size (2 ^ k) = Some (Some p, a') -> arena_run a0 live0 a' ((p, size) :: live)
  | run_alloc_fails a live size k a' : arena_run a0 live0 a live -> 0 <= size < 2 ^ 64 -> 0 <= k < 64 ->
      carquet_arena_alloc_aligned a size (2 ^ k) = Some (None, a') -> arena_run a0 live0 a' live
  | run_scope a live m b live' c : arena_run a0 live0 a live -> carquet_arena_save a = Some m -> arena_run a live b live' ->
      carquet_arena_restore b m = Some c -> arena_run a0 live0 c live.

(** An arena from its creation, through any number of resets. *)
Inductive arena_reach : carquet_arena_t -> list (Z * Z) -> Prop :=
  | arena_init_reach n a b live : 0 <= n < 2 ^ 64 -> carquet_arena_init_size n = (CARQUET_OK, a) -> arena_run a [] b live -> arena_reach b live
  | arena_reset_reach a live b live' : arena_reach a live -> arena_run (carquet_arena_reset a) [] b live' -> arena_reach b live'.

Lemma init_ok n a : 0 <= n < 2 ^ 64 -> carquet_arena_init_size n = (CARQUET_OK, a) -> arena_ok a [].
Proof.
  intros Hn. unfold carquet_arena_init_size. destruct (arena_new_block [] n) as [nb|] eqn:E; [|done]. intros [= <-]. destruct (new_block_spec [] n nb Hn E) as (B & U & _ & _).
  split; cbn; try done; try lia.
  - intros [|i] b Hb; cbn in Hb; [by injection Hb as <-|done].
  - intros [|i] [|j] b c Hij Hb Hc; cbn in *; done.
  - intros [|i] b Hi Hb; cbn in Hb; [lia|done].
Qed.

Lemma arena_run_ok a0 live0 a live : arena_ok a0 live0 -> arena_run a0 live0 a live -> arena_ok a live /\ frame a0 a.
Proof.
  intros W R. induction R as [a0 live0|a0 live0 a live size k p a' _ IH Hs Hk E|a0 live0 a live size k a' _ IH Hs Hk E|a0 live0 a live m b live' c _ IH1 Hm _ IH2 E].
  - split; [done|apply frame_refl].
  - destruct (IH W) as [Wa Fa]. destruct (alloc_aligned_spec a live size k Wa Hs Hk) as (r & b & E' & F & W'). rewrite E in E'. injection E' as <- <-. destruct W' as (_ & W' & _). split; [done|]. by apply (frame_trans _ a).
  - destruct (IH W) as [Wa Fa]. destruct (alloc_aligned_spec a live size k Wa Hs Hk) as (r & b & E' & F & W'). rewrite E in E'. injection E' as <- <-. split; [done|]. by apply (frame_trans _ a).
  - destruct (IH1 W) as [Wa Fa]. destruct (IH2 Wa) as [Wb Fb]. destruct (restore_ok a live b live' m Wa Wb Fb Hm) as (c' & Ec & Wc & Fc & _). rewrite E in Ec. injection Ec as <-.
    split; [done|]. by apply (frame_trans _ a).
Qed.

Lemma arena_reach_ok a live : arena_reach a live -> arena_ok a live.
Proof.
  induction 1 as [n a b live Hn Hi R|a live b live' _ IH R].
  - by apply (arena_run_ok a [] b live (init_ok n a Hn Hi)).
  - by apply (arena_run_ok _ [] b live' (reset_ok a live IH)).
Qed.

(** C16: the arena hands out disjoint memory.  In every state an arena can reach through
    allocations of any size and power-of-two alignment, resets and properly nested
    save/restore scopes, the regions that are live do not overlap, each lies inside the
    memory of one of the arena's blocks, and the allocation counter is their total size;
    the next allocation answers, and what it hands out is aligned, disjoint from all of
    them and inside a block.  The one promise of the C library that is used is that its
    blocks are disjoint. *)
Theorem arena_allocations_disjoint a live : arena_reach a live ->
  pairwise live /\ total_allocated a = u64 (sum_sizes live) /\
  Forall (λ r, 0 < r.2 /\ exists b, b ∈ arena_blocks a /\ block_data b <= r.1 /\ r.1 + r.2 <= block_data b + block_size b) live /\
  forall size k, 0 <= size < 2 ^ 64 -> 0 <= k < 64 -> exists r a', carquet_arena_alloc_aligned a size (2 ^ k) = Some (r, a') /\ forall p, r = Some p ->
    p mod 2 ^ k = 0 /\ Forall (region_disjoint (p, size)) live /\ exists b, b ∈ arena_blocks a' /\ block_data b <= p /\ p + size <= block_data b + block_size b.
Proof.
  intros R. pose proof (arena_reach_ok a live R) as W.
  assert (forall x l, arena_ok x l -> Forall (λ r, 0 < r.2 /\ exists b, b ∈ arena_blocks x /\ block_data b <= r.1 /\ r.1 + r.2 <= block_data b + block_size b) l) as Inside.
  { intros x l Wx. eapply Forall_impl; [|exact (ok_live _ _ Wx)]. intros r (Hr & i & b & Hb & In). split; [done|]. exists b. split; [by apply list_elem_of_lookup_2 in Hb|].
    pose proof (ok_blocks _ _ Wx i b Hb) as (_ & _ & ? & _). unfold in_block in In. lia. }
  split; [apply W|]. split; [apply W|]. split; [by apply Inside|]. intros size k Hs Hk. destruct (alloc_aligned_spec a live size k W Hs Hk) as (r & a' & E & _ & H).
  exists r, a'. split; [exact E|]. intros p ->. destruct H as (_ & W' & Hal). split; [done|]. split; [exact (proj1 (ok_pairwise _ _ W'))|]. pose proof (Inside a' _ W') as I. apply Forall_cons_iff in I as [(_ & I) _]. exact I.
Qed.
End ArenaProofs.

(** An address space that hands out memory above everything taken. *)
Definition next_free (taken : list (Z * Z)) : Z := foldr (λ r m, Z.max m (r.1 + r.2)) 4096 taken.

Definition upward_space : AddressSpace := λ taken n, if (0 <=? n) && (next_free taken + n <=? 2 ^ 47) then Some (next_free taken) else None.

#[export] Instance upward_space_ok : AddressSpaceOk upward_space.
Proof.
  intros taken n a. unfold os_malloc, upward_space. destruct (Z.leb_spec 0 n); [|done]. destruct (Z.leb_spec (next_free taken + n) (2 ^ 47)); [|done]. cbn [andb]. intros [= <-].
  assert (4096 <= next_free taken) as L by (clear; unfold next_free; induction taken; cbn; lia). split; [lia|]. split; [lia|]. clear -H.
  assert (forall m, next_free taken <= m -> Forall (region_disjoint (m, n)) taken) as G; [|by apply G].
  induction taken as [|r t IH]; intros m Hm; constructor; unfold next_free in Hm; cbn in Hm; [right; cbn; lia|]. apply IH. unfold next_free. lia.
Qed.

(** An arena of one default block, then seven bytes, then a hundred. *)
Definition arena_0 : carquet_arena_t := Eval vm_compute in (carquet_arena_init_size (Sp := upward_space) 64).2.
Definition arena_7 : carquet_arena_t := Eval vm_compute in (default (None, arena_0) (carquet_arena_alloc_aligned (Sp := upward_space) arena_0 7 (2 ^ 4))).2.
Definition arena_107 : carquet_arena_t := Eval vm_compute in (default (None, arena_0) (carquet_arena_alloc_aligned (Sp := upward_space) arena_7 100 (2 ^ 3))).2.

Lemma arena_allocations_disjoint_witness :
  let Sp := upward_space in
  arena_reach arena_107 [(4136, 100); (4128, 7)] /\ region_disjoint (4136, 100) (4128, 7).
Proof.
  intros Sp. assert (arena_reach arena_107 [(4136, 100); (4128, 7)]) as R.
  { apply (arena_init_reach 64 arena_0); [lia|vm_compute; reflexivity|]. apply (run_alloc arena_0 [] arena_7 [(4128, 7)] 100 3 4136 arena_107); [|lia|lia|vm_compute; reflexivity].
    apply (run_alloc arena_0 [] arena_0 [] 7 4 4128 arena_7); [constructor|lia|lia|vm_compute; reflexivity]. }
  split; [exact R|]. destruct (arena_allocations_disjoint arena_107 _ R) as ([F _] & _). apply Forall_cons_iff in F as [F _]. exact F.
Defined.

(** ** Room: what a client that must not run out of memory asks for

    [arena_after a n b]: [b] is [a] after requests for [n] bytes in all; an arena has
    room for [n] bytes when such a sequence of requests never fails. *)

Section Room.
Context {Sp : AddressSpace}.

Inductive arena_after (a : carquet_arena_t) : Z -> carquet_arena_t -> Prop :=
  | after_none : arena_after a 0 a
  | after_alloc n b size al r b' : arena_after a n b -> 0 < size -> al = 1 \/ al = 16 ->
      carquet_arena_alloc_aligned b size al = Some (r, b') -> arena_after a (n + size) b'.

Definition arena_room (n : Z) (a : carquet_arena_t) : Prop :=
  forall used b size al, arena_after a used b -> 0 < size -> used + size <= n -> al = 1 \/ al = 16 ->
  exists p b', carquet_arena_alloc_aligned b size al = Some (Some p, b').

Lemma arena_after_step a size al r a' n b : 0 < size -> al = 1 \/ al = 16 -> carquet_arena_alloc_aligned a size al = Some (r, a') ->
  arena_after a' n b -> arena_after a (size + n) b.
Proof.
  intros Hs Ha E. induction 1 as [|n b sz al' r' b' _ IH Hsz Hal Eb].
  - replace (size + 0) with (0 + size) by lia. eapply after_alloc; [constructor|done|exact Ha|exact E].
  - rewrite Z.add_assoc. by eapply after_alloc.
Qed.

Lemma room_alloc a size al n : arena_room (size + n) a -> 0 < size -> 0 <= n -> al = 1 \/ al = 16 ->
  exists p a', carquet_arena_alloc_aligned a size al = Some (Some p, a') /\ arena_room n a'.
Proof.
  intros H Hs Hn Ha. destruct (H 0 a size al) as (p & a' & E); [constructor|done|lia|done|]. exists p, a'. split; [done|].
  intros used b sz al' R Hsz Hu Hal. apply (H (size + used)); [|done|lia|done]. exact (arena_after_step a size al (Some p) a' used b Hs Ha E R).
Qed.

Lemma room_less k l a : arena_room l a -> k <= l -> arena_room k a.
Proof. intros H Hk used b size al R Hs Hu. apply (H used b size al R Hs). lia. Qed.

(** An arena with a current block, as every arena that was created has. *)
Definition arena_ready (a : carquet_arena_t) : Prop := is_Some (arena_blocks a !! arena_current a).

Lemma room_ready n a : arena_room n a -> 0 < n -> arena_ready a.
Proof.
  intros H Hn. destruct (H 0 a 1 1) as (p & b & E); [constructor|done|lia|by left|]. unfold carquet_arena_alloc_aligned in E. cbn in E.
  unfold arena_ready. destruct (arena_blocks a !! arena_current a); [by eexists|done].
Qed.

Lemma alloc_ready a size al : arena_ready a -> exists r a', carquet_arena_alloc_aligned a size al = Some (r, a') /\ arena_ready a'.
Proof.
  intros R. pose proof R as [b Eb]. unfold carquet_arena_alloc_aligned. destruct (size =? 0); [by exists None, a|]. rewrite Eb. cbn [mbind option_bind].
  set (al' := if al =? 0 then 1 else al). unfold alloc_in_blocks. destruct (find_block _ _ size al') as [[i [| |off nu]]|]; try by exists None, a.
  - destruct (arena_blocks a !! i) as [c|] eqn:Ei; [|by exists None, a]. eexists _, _. split; [done|]. unfold arena_ready. cbn.
    rewrite list_lookup_insert_eq by (by eapply lookup_lt_Some). by eexists.
  - destruct (add_overflows_size size al'); [|by exists None, a]. destruct (arena_new_block _ _) as [nb|]; [|by exists None, a].
    destruct (add_overflows_size _ size); (eexists _, _; split; [done|]); unfold arena_ready; cbn; rewrite list_lookup_middle by done; by eexists.
Qed.

Lemma stored_ready a size al bs : arena_ready a ->
  exists r a', stored (carquet_arena_alloc_aligned a size al) bs = Some (r, a') /\ arena_ready a' /\ (snd <$> r = Some bs \/ r = None).
Proof.
  intros R. destruct (alloc_ready a size al R) as (r & a' & -> & R'). unfold stored. cbn [mbind option_bind]. eexists _, _. split; [done|]. split; [done|].
  destruct r; cbn; auto.
Qed.

Lemma calloc_ready a count size : arena_ready a -> exists r a', carquet_arena_calloc a count size = Some (r, a') /\ arena_ready a'.
Proof.
  intros R. unfold carquet_arena_calloc. destruct (_ && _); [by exists None, a|].
  destruct (stored_ready a (u64 (count * size)) CARQUET_ARENA_ALIGNMENT (replicate (Z.to_nat (u64 (count * size))) 0) R) as (r & a' & E & R' & _). by exists r, a'.
Qed.

Lemma init_ready n a : carquet_arena_init_size n = (CARQUET_OK, a) -> arena_ready a.
Proof. unfold carquet_arena_init_size. destruct (arena_new_block [] n); [|done]. intros [= <-]. by eexists. Qed.

End Room.

(** Nothing goes wrong inside a sound block away from the end of the address space. *)
Lemma fit_in_low b size al : 0 < block_addr b -> 0 <= block_used b <= block_size b -> 0 < block_size b ->
  block_data b + block_size b <= 2 ^ 62 -> 0 < size <= 2 ^ 62 -> al = 1 \/ al = 16 ->
  (fit_in b size al = NoRoom /\ block_size b < block_used b + al + size) \/
  exists off nu, fit_in b size al = Fits off nu /\ 0 <= nu <= block_size b.
Proof.
  intros Ha Hu Hp Hd Hs Hal. assert (exists k, 0 <= k <= 4 /\ al = 2 ^ k) as (k & Hk & ->) by (destruct Hal as [-> | ->]; [by exists 0|by exists 4]).
  assert (0 < 2 ^ k <= 2 ^ 4) by (split; [apply Z.pow_pos_nonneg; lia|apply Z.pow_le_mono_r; lia]).
  destruct (aligned_offset_spec b (block_used b) k) as [(H1 & _ & H3)|[H1 _]]; [done|lia|done|done|lia| |lia].
  unfold fit_in. cbv zeta. set (off := arena_aligned_offset b (block_used b) (2 ^ k)) in *. unfold add_overflows_size, SIZE_MAX. rewrite Z.gtb_ltb.
  assert (0 < block_data b) by (unfold block_data, header_size; lia).
  destruct (Z.ltb_spec (2 ^ 64 - 1 - size) off); [lia|]. rewrite u64_small by lia. destruct (Z.leb_spec (off + size) (block_size b)); [|left; split; [done|lia]].
  right. eexists _, _. split; [done|lia].
Qed.

Lemma find_block_low size al bs : Forall (λ b, fit_in b size al = NoRoom \/ exists off nu, fit_in b size al = Fits off nu /\ 0 <= nu <= block_size b) bs ->
  forall i, find_block bs i size al = None \/ exists j b off nu, find_block bs i size al = Some (j, Fits off nu) /\ (i <= j)%nat /\
    bs !! (j - i)%nat = Some b /\ 0 <= nu <= block_size b.
Proof.
  induction 1 as [|b bs H _ IH]; intros i; cbn [find_block]; [by left|]. destruct H as [-> | (off & nu & -> & Hn)].
  - destruct (IH (S i)) as [-> | (j & c & off & nu & -> & Hj & Hc & Hn)]; [by left|]. right. exists j, c, off, nu. split; [done|]. split; [lia|].
    split; [|done]. replace (j - i)%nat with (S (j - S i)) by lia. done.
  - right. exists i, b, off, nu. rewrite Nat.sub_diag. done.
Qed.

(** In the upward space an arena has room as long as its blocks are low. *)
Record arena_low (used : Z) (a : carquet_arena_t) : Prop := {
  low_blocks : Forall (λ b, 0 < block_addr b /\ 0 <= block_used b <= block_size b /\ 0 < block_size b /\ block_data b + block_size b <= 2 ^ 62) (arena_blocks a);
  low_default : default_block_size a <= 65536;
  low_next : next_free (taken (arena_blocks a)) <= 2 ^ 18 + used * 2 ^ 18 }.

Lemma next_free_snoc l r : next_free (l ++ [r]) = Z.max (next_free l) (Z.max 4096 (r.1 + r.2)).
Proof. unfold next_free. induction l as [|x l IH]; cbn; [lia|]. rewrite IH. lia. Qed.

Lemma next_free_low l : 4096 <= next_free l.
Proof. unfold next_free. induction l; cbn; lia. Qed.

Lemma low_alloc_in_blocks used a size al : arena_low used a -> 0 < size -> 0 <= used -> used + size <= 2 ^ 28 -> al = 1 \/ al = 16 ->
  exists p a', alloc_in_blocks (Sp := upward_space) a size al = (Some p, a') /\ arena_low (used + size) a'.
Proof.
  intros [HB HD HN] Hs Hu Hus Hal. unfold alloc_in_blocks.
  destruct (find_block_low size al (drop (arena_current a) (arena_blocks a))) with (i := arena_current a) as [-> | (j & b & off & nu & -> & Hj & Hb & Hn)].
  { apply Forall_drop. eapply Forall_impl; [|exact HB]. intros b (? & ? & ? & ?). destruct (fit_in_low b size al) as [[-> _]|HF]; [done|done|done|done|lia|done|by left|by right]. }
  - assert (add_overflows_size size al = Some (size + al)) as ->.
    { unfold add_overflows_size, SIZE_MAX. rewrite Z.gtb_ltb. decide_bool. by rewrite u64_small by lia. }
    cbv zeta. set (wanted := if size + al >? default_block_size a then size + al else default_block_size a). assert (wanted <= Z.max 65536 (size + al) /\ size + al <= wanted) as [W1 W2] by (unfold wanted; rewrite Z.gtb_ltb; case_bool; lia).
    assert (0 <= wanted) as W0 by lia.
    assert (exists bsize, arena_new_block (Sp := upward_space) (arena_blocks a) wanted = Some (mk_block (next_free (taken (arena_blocks a))) bsize 0) /\ wanted <= bsize <= wanted + 65536 /\ 65536 <= bsize) as (bsize & -> & Hz & Hz').
    { unfold arena_new_block, CARQUET_ARENA_DEFAULT_BLOCK_SIZE. set (sz := if wanted <? 64 * 1024 then _ else _).
      assert (wanted <= sz <= wanted + 65536 /\ 65536 <= sz) as [Hz Hz'].
      { unfold sz. destruct (Z.ltb_spec wanted (64 * 1024)); [lia|]. unfold align_up, SIZE_MAX. cbn [Z.eqb orb]. change (64 * 1024 =? 0) with false. cbn [orb]. rewrite Z.gtb_ltb. decide_bool.
        rewrite u64_small by lia. change (64 * 1024) with (2 ^ 16) in *. rewrite land_not64 by lia. set (x := wanted + 2 ^ 16 - 1). pose proof (Z.mod_pos_bound x (2 ^ 16) ltac:(lia)). lia. }
      exists sz. unfold SIZE_MAX. decide_bool. unfold add_overflows_size, SIZE_MAX, header_size. rewrite Z.gtb_ltb. decide_bool. rewrite u64_small by lia.
      unfold os_malloc, upward_space. decide_bool. done. }
    cbn [block_used block_size]. set (nb := mk_block _ bsize 0). pose proof (next_free_low (taken (arena_blocks a))) as L.
    destruct (fit_in_low nb size al) as [[_ F]|(off & nu & F & Hnu)]; [cbn; lia|cbn; lia|cbn; lia|unfold block_data, header_size; cbn; lia|lia|done|cbn in F; lia|].
    unfold fit_in in F. cbv zeta in F. change (block_used nb) with 0 in F.
    destruct (add_overflows_size (arena_aligned_offset nb 0 al) size) as [nu'|]; [|done].
    destruct (nu' <=? block_size nb); [|done]. injection F as <- <-.
    eexists _, _. split; [done|]. split; cbn [arena_blocks default_block_size].
    + apply Forall_app. split; [done|]. apply Forall_singleton. unfold with_used, block_data, header_size. cbn in *. lia.
    + done.
    + unfold taken. rewrite fmap_app. cbn [fmap list_fmap]. rewrite next_free_snoc. fold (taken (arena_blocks a)). unfold header_size. cbn. lia.
  - rewrite lookup_drop in Hb. replace (arena_current a + (j - arena_current a))%nat with j in Hb by lia. rewrite Hb.
    eexists _, _. split; [done|]. pose proof (Forall_lookup_1 _ _ _ _ HB Hb) as (? & ? & ? & ?). split; cbn [arena_blocks default_block_size].
    + apply Forall_insert; [done|]. unfold with_used, block_data in *. cbn. lia.
    + done.
    + unfold taken. rewrite list_fmap_insert. cbn. rewrite list_insert_id; [fold (taken (arena_blocks a)); lia|]. rewrite list_lookup_fmap, Hb. done.
Qed.

Lemma low_alloc used a size al : arena_low used a -> arena_ready a -> 0 < size -> 0 <= used -> used + size <= 2 ^ 28 -> al = 1 \/ al = 16 ->
  exists p a', carquet_arena_alloc_aligned (Sp := upward_space) a size al = Some (Some p, a') /\ arena_low (used + size) a' /\ arena_ready a'.
Proof.
  intros W R Hs Hu Hus Hal. destruct (alloc_ready (Sp := upward_space) a size al R) as (r & a' & E & R'). rewrite E. revert E. destruct R as [b Eb].
  unfold carquet_arena_alloc_aligned. rewrite Eb, (proj2 (Z.eqb_neq size 0)) by lia. cbn [mbind option_bind].
  assert ((if al =? 0 then 1 else al) = al) as -> by (destruct Hal as [-> | ->]; done).
  destruct (low_alloc_in_blocks used a size al W Hs Hu Hus Hal) as (p & a2 & -> & W'). intros [= <- <-]. by exists p, a2.
Qed.

Lemma low_room used a n : arena_low used a -> arena_ready a -> 0 <= used -> used + n <= 2 ^ 28 -> arena_room (Sp := upward_space) n a.
Proof.
  intros W R Hu Hn u b size al A Hs Hle Hal.
  assert (0 <= u /\ (u <= n -> arena_low (used + u) b /\ arena_ready b)) as [H0 H].
  { clear -W R Hu Hn A. induction A as [|m b sz al r b' A [IH0 IH] Hs Hal E]; [split; [lia|by rewrite Z.add_0_r]|]. split; [lia|]. intros Hm.
    destruct (IH ltac:(lia)) as [Wb Rb]. destruct (low_alloc (used + m) b sz al Wb Rb) as (p & a' & E' & W' & R'); [lia|lia|lia|done|].
    rewrite E in E'. injection E' as _ <-. by rewrite Z.add_assoc. }
  destruct (H ltac:(lia)) as [Wb Rb]. destruct (low_alloc (used + u) b size al Wb Rb) as (p & a' & -> & _); [lia|lia|lia|done|]. by exists p, a'.
Qed.

Lemma arena_0_room : arena_room (Sp := upward_space) (2 ^ 27) arena_0.
Proof.
  apply (low_room 0); [|by eexists|lia|lia]. split; [|cbn; lia|vm_compute; congruence].
  apply Forall_singleton. vm_compute. repeat split; congruence.
Qed.
