(* ===== verification/ThriftParse.v ===== *)
(** * Parsing Thrift structures: the loops every parser is made of

    The parsers of thrift/parquet_types.c share one shape: open a struct, loop over its
    fields with a [switch] on the field id, close it; lists are counted loops.  This file
    has that shape as combinators over the decoder and a second state (the arena the
    strings and arrays come from), with the two rules that the parsers' proofs use: they
    end in bounds on any bytes ([sim]), and in front of the bytes of a value they return
    what the value says and consume exactly it ([preads], [chain]). *)

From S2P Require Import Prelude Status Endian Buffer ThriftDecode ThriftEncode ThriftRoundtrip.
From stdpp Require Import strings pretty.

#[local] Open Scope Z_scope.

Create HintDb parse_runs.

(** ** The monad: a decoder, a second state and undefined behaviour *)

Definition pdec (St A : Type) : Type := thrift_decoder_t -> St -> option (A * thrift_decoder_t * St).

#[export] Instance pdec_ret St : MRet (pdec St) := λ A x d s, Some (x, d, s).
#[export] Instance pdec_bind St : MBind (pdec St) := λ A B f m d s,
  match m d s with Some (x, d', s') => f x d' s' | None => None end.

Section Combinators.
Context {St : Type}.

(** An operation of the decoder alone. *)
Definition lift {A} (m : tdec A) : pdec St A := λ d s, '(x, d) ← m d; Some (x, d, s).
(** An operation of the second state. *)
Definition on_state {A} (f : St -> option (A * St)) : pdec St A := λ d s, '(x, s) ← f s; Some (x, d, s).
(** A memory access of the code itself. *)
Definition access {A} (o : option A) : pdec St A := λ d s, x ← o; Some (x, d, s).

(** [thrift_skip], with as much fuel as the bytes left can need. *)
Definition skip (type : Z) : pdec St () := λ d s,
  lift (thrift_skip (Z.to_nat (thrift_decoder_remaining d) + 3) type) d s.

(** [while (thrift_read_field_begin(dec, &type, &field_id)) body]; the body may return
    from the enclosing function with a result of type [R]. *)
Fixpoint fields_loop {R S : Type} (fuel : nat) (body : Z -> Z -> S -> pdec St (option R * S)) (x : S)
    : pdec St (option R * S) :=
  match fuel with
  | O => λ _ _, None
  | S fuel =>
      '(more, type, field_id) ← lift thrift_read_field_begin;
      if more : bool then
        '(r, x) ← body type field_id x;
        match r with Some _ => mret (r, x) | None => fields_loop fuel body x end
      else mret (None, x)
  end.

(** Every field starts with a byte, so the bytes left bound the turns. *)
Definition while_fields {R S : Type} (body : Z -> Z -> S -> pdec St (option R * S)) (x : S) : pdec St (option R * S) :=
  λ d s, fields_loop (Z.to_nat (thrift_decoder_remaining d) + 2) body x d s.

(** A struct whose loop may return early: then [thrift_read_struct_end] is not reached. *)
Definition parse_struct {S : Type} (body : Z -> Z -> S -> pdec St (option () * S)) (x : S) : pdec St S :=
  lift thrift_read_struct_begin;;
  '(r, x) ← while_fields body x;
  match r with Some _ => mret x | None => lift thrift_read_struct_end;; mret x end.

Definition next {S : Type} (m : pdec St S) : pdec St (option () * S) := x ← m; mret (None, x).

(** A struct whose loop has no [return]. *)
Definition parse_fields {S : Type} (body : Z -> Z -> S -> pdec St S) (x : S) : pdec St S :=
  parse_struct (λ t f x, next (body t f x)) x.

(** [for (i = 0; i < n; i++) a[i] = ...] *)
Fixpoint for_n {A} (n : nat) (f : pdec St A) : pdec St (list A) :=
  match n with O => mret [] | S n => x ← f; xs ← for_n n f; mret (x :: xs) end.

(** [VALIDATE_COUNT]: the status is overwritten; the result tells whether to return. *)
Definition VALIDATE_COUNT (count max : Z) : pdec St bool :=
  if (count <? 0) || (count >? max) then
    lift (modify (λ d, mk_thrift_decoder (td_reader d) (td_last_field_id d) (td_nesting_level d) (td_bool_pending d)
      (td_bool_value d) CARQUET_ERROR_THRIFT_DECODE
      ("Invalid count " +:+ pretty count +:+ " (max " +:+ pretty max +:+ ")")));; mret true
  else mret false.

End Combinators.

(** ** Any bytes: the parsers end, in bounds

    [sim m1 m2 Q]: on any input [m2] returns, moving the cursor forward inside the input
    and keeping the invariant of the second state, and [m1] does exactly the same unless
    it has undefined behaviour, in which case [m2] has reported an error.  [pruns m Q] is
    the case of one parser: it always returns. *)

Section Runs.
Context {St : Type} (I : St -> Prop).

Definition sim {A} (m1 m2 : pdec St A) (Q : A -> Prop) : Prop :=
  forall d s, td_wf d -> I s -> exists x d' s', m2 d s = Some (x, d', s') /\ td_step 0 d d' /\ I s' /\ Q x /\
    (m1 d s = Some (x, d', s') \/ (m1 d s = None /\ is_ok (td_status d') = false)).

Abbreviation pruns m := (sim m m).

Lemma pruns_intro {A} (m : pdec St A) (Q : A -> Prop) :
  (forall d s, td_wf d -> I s -> exists x d' s', m d s = Some (x, d', s') /\ td_step 0 d d' /\ I s' /\ Q x) -> pruns m Q.
Proof. intros H d s W HI. destruct (H d s W HI) as (x & d' & s' & ? & ? & ? & ?). exists x, d', s'. auto 10. Qed.

Lemma sim_ret {A} (x : A) (Q : A -> Prop) : Q x -> pruns (mret x) Q.
Proof. intros ?. apply pruns_intro. intros d s W HI. exists x, d, s. split; [done|]. split; [by apply td_step_refl|done]. Qed.

(** An error is never cleared. *)
Lemma error_stays k d d' : td_step k d d' -> is_ok (td_status d) = false -> is_ok (td_status d') = false.
Proof. intros [_ _ _ _ H] E. destruct (is_ok (td_status d')); [|done]. destruct (H eq_refl). congruence. Qed.

Lemma sim_bind {A B} (m1 m2 : pdec St A) (f1 f2 : A -> pdec St B) P Q :
  sim m1 m2 P -> (forall x, P x -> sim (f1 x) (f2 x) Q) -> sim (m1 ≫= f1) (m2 ≫= f2) Q.
Proof.
  intros Hm Hf d s W HI. destruct (Hm d s W HI) as (x & d1 & s1 & E1 & S1 & I1 & HP & C1).
  destruct (Hf x HP d1 s1 (ts_wf _ _ _ S1) I1) as (y & d2 & s2 & E2 & S2 & I2 & HQ & C2).
  exists y, d2, s2. unfold mbind, pdec_bind. rewrite E1. split; [done|]. split; [by apply (td_step_trans 0 0 d d1)|].
  split; [done|]. split; [done|]. destruct C1 as [-> | [-> Hx]]; [done|]. right. split; [done|by apply (error_stays 0 d1)].
Qed.

Lemma sim_weaken {A} (m1 m2 : pdec St A) (P Q : A -> Prop) : sim m1 m2 P -> (forall x, P x -> Q x) -> sim m1 m2 Q.
Proof. intros H HQ d s W HI. destruct (H d s W HI) as (x & d' & s' & ? & ? & ? & ? & ?). exists x, d', s'. auto 10. Qed.

Lemma sim_if {A} (b : bool) (m1 m2 m1' m2' : pdec St A) Q : (b = true -> sim m1 m2 Q) -> (b = false -> sim m1' m2' Q) ->
  sim (if b then m1 else m1') (if b then m2 else m2') Q.
Proof. destruct b; auto. Qed.

Lemma sim_lift {A} (m : tdec A) k P (Q : A -> Prop) : 0 <= k -> runs m k P -> (forall x, P x -> Q x) -> pruns (lift m) Q.
Proof.
  intros Hk H HQ. apply pruns_intro. intros d s W HI. destruct (H d W) as (x & d' & E & S & HP). exists x, d', s. unfold lift. rewrite E.
  split; [done|]. split; [by apply (td_step_weaken k)|auto].
Qed.

Lemma sim_access {A} (o : option A) (Q : A -> Prop) : (exists x, o = Some x /\ Q x) -> pruns (access o) Q.
Proof.
  intros (x & -> & HQ). apply pruns_intro. intros d s W HI. exists x, d, s. split; [done|]. split; [by apply td_step_refl|done].
Qed.

Lemma remaining_measure d : td_wf d -> 0 <= thrift_decoder_remaining d /\ td_measure d <= thrift_decoder_remaining d + 1.
Proof.
  intros W. destruct (W) as [(? & ? & ?) _ _ _ _]. unfold thrift_decoder_remaining. rewrite remaining_rest, td_rest_length by done.
  unfold td_measure. destruct (is_ok _); lia.
Qed.

Lemma sim_skip type : pruns (skip type) (λ _, True).
Proof.
  apply pruns_intro. intros d s W HI. destruct (remaining_measure d W).
  destruct (skip_total (Z.to_nat (thrift_decoder_remaining d) + 3) type d W) as (d' & E & S); [lia|].
  exists (), d', s. unfold skip, lift. by rewrite E.
Qed.

(** The loop ends because every turn consumes a byte or is the last one. *)
Lemma sim_fields_loop {R S} (b1 b2 : Z -> Z -> S -> pdec St (option R * S)) (Q : option R * S -> Prop) :
  (forall t f x, Q (None, x) -> sim (b1 t f x) (b2 t f x) Q) ->
  forall fuel x d s, Q (None, x) -> td_wf d -> I s -> td_measure d < Z.of_nat fuel ->
  exists r d' s', fields_loop fuel b2 x d s = Some (r, d', s') /\ td_step 0 d d' /\ I s' /\ Q r /\
    (fields_loop fuel b1 x d s = Some (r, d', s') \/ (fields_loop fuel b1 x d s = None /\ is_ok (td_status d') = false)).
Proof.
  intros Hb. induction fuel as [|fuel IH]; intros x d s HQ W HI Hf.
  { pose proof (td_measure_step 0 d d W ltac:(lia) (td_step_refl d W)). lia. }
  cbn [fields_loop]. unfold mbind, pdec_bind, lift.
  destruct (field_begin_spec d W) as (more & type & fid & d1 & E1 & S1 & H1). rewrite E1. cbn [mbind option_bind].
  destruct more; [|eexists _, _, _; split; [done|]; split; [done|]; split; [done|]; by split; [|left]].
  destruct (H1 eq_refl) as [Hok S1']. destruct (td_measure_step 1 d d1 W ltac:(lia) S1') as [? HL]. specialize (HL Hok ltac:(lia)).
  destruct (Hb type fid x HQ d1 s (ts_wf _ _ _ S1) HI) as ([r y] & d2 & s2 & E2 & S2 & I2 & Q2 & C2). rewrite E2.
  pose proof (td_step_trans 0 0 _ _ _ ltac:(lia) ltac:(lia) S1 S2) as S12.
  destruct r as [r|].
  { eexists _, _, _. split; [done|]. split; [done|]. split; [done|]. split; [done|].
    destruct C2 as [-> | [-> ?]]; [by left|by right]. }
  destruct (td_measure_step 0 d1 d2 (ts_wf _ _ _ S1) ltac:(lia) S2) as [? _].
  destruct (IH y d2 s2 Q2 (ts_wf _ _ _ S2) I2 ltac:(lia)) as (r & d3 & s3 & E3 & S3 & I3 & Q3 & C3).
  exists r, d3, s3. split; [done|]. split; [by apply (td_step_trans 0 0 _ d2)|]. split; [done|]. split; [done|].
  destruct C2 as [-> | [-> Hx]]; [done|]. right. split; [done|by apply (error_stays 0 d2)].
Qed.

Lemma sim_while_fields {R S} (b1 b2 : Z -> Z -> S -> pdec St (option R * S)) (Q : option R * S -> Prop) x :
  (forall t f x, Q (None, x) -> sim (b1 t f x) (b2 t f x) Q) -> Q (None, x) -> sim (while_fields b1 x) (while_fields b2 x) Q.
Proof.
  intros Hb HQ d s W HI. destruct (remaining_measure d W). apply (sim_fields_loop b1 b2 Q Hb); [done|done|done|lia].
Qed.

Lemma sim_struct_begin : pruns (lift thrift_read_struct_begin) (λ _, True).
Proof. by apply (sim_lift _ 0 (λ _, True)); [lia|apply runs_struct_begin|]. Qed.

Lemma sim_struct_end : pruns (lift thrift_read_struct_end) (λ _, True).
Proof. by apply (sim_lift _ 0 (λ _, True)); [lia|apply runs_struct_end|]. Qed.

Lemma sim_parse_struct {S} (b1 b2 : Z -> Z -> S -> pdec St (option () * S)) (Q : S -> Prop) x :
  (forall t f x, Q x -> sim (b1 t f x) (b2 t f x) (λ r, Q r.2)) -> Q x -> sim (parse_struct b1 x) (parse_struct b2 x) Q.
Proof.
  intros Hb HQ. unfold parse_struct. eapply sim_bind; [apply sim_struct_begin|]. intros _ _.
  eapply sim_bind; [by apply (sim_while_fields _ _ (λ r, Q r.2))|]. intros [[[]|] y] Hy; [by apply sim_ret|].
  eapply sim_bind; [apply sim_struct_end|]. intros _ _. by apply sim_ret.
Qed.

Lemma sim_next {S} (m1 m2 : pdec St S) (Q : S -> Prop) : sim m1 m2 Q -> sim (next m1) (next m2) (λ r, Q r.2).
Proof. intros H. eapply sim_bind; [done|]. intros x Hx. by apply sim_ret. Qed.

Lemma sim_parse_fields {S} (b1 b2 : Z -> Z -> S -> pdec St S) (Q : S -> Prop) x :
  (forall t f x, Q x -> sim (b1 t f x) (b2 t f x) Q) -> Q x -> sim (parse_fields b1 x) (parse_fields b2 x) Q.
Proof. intros Hb HQ. apply sim_parse_struct; [|done]. intros t f y Hy. apply sim_next. auto. Qed.

Lemma sim_for_n {A} n (f1 f2 : pdec St A) (Q : A -> Prop) : sim f1 f2 Q -> sim (for_n n f1) (for_n n f2) (λ l, length l = n /\ Forall Q l).
Proof.
  intros Hf. induction n as [|n IH]; cbn [for_n]; [apply sim_ret; by split; [|apply Forall_nil_2]|].
  eapply sim_bind; [done|]. intros x Hx. eapply sim_bind; [done|]. intros l [El Hl].
  apply sim_ret. split; [cbn; by rewrite El|by apply Forall_cons_2].
Qed.

Lemma sim_validate count max : pruns (VALIDATE_COUNT count max) (λ b, b = false -> 0 <= count <= max).
Proof.
  unfold VALIDATE_COUNT. apply sim_if; intros Hb.
  - eapply (sim_bind _ _ _ _ (λ _, True)); [|intros _ _; by apply sim_ret].
    apply pruns_intro. intros d s W HI. eexists _, _, s. split; [done|]. split; [|done].
    destruct W. split; cbn; [by split|done|done|lia|done].
  - apply sim_ret. intros _. apply orb_false_iff in Hb as [H1 H2]. lia.
Qed.

End Runs.

#[export] Hint Resolve sim_ret sim_skip sim_struct_begin sim_struct_end : parse_runs.

(** ** The bytes of a value: the parsers return what it says *)

(** [I n s]: the second state can still serve requests for [n] bytes in all. *)
Class Budget {St : Type} (I : nat -> St -> Prop) := budget_less : forall n m s, I n s -> (m <= n)%nat -> I m s.

Section Reads.
Context {St : Type} (I : nat -> St -> Prop) {IB : Budget I}.

(** In front of [bs], with [room] more struct levels available, [m] returns [x] and
    consumes [bs], taking at most [K] bytes from the second state for each byte consumed;
    the field ids of the enclosing structs are as before. *)
Definition preads (K : nat) {A} (m : pdec St A) (room : Z) (bs : list Z) (x : A) : Prop :=
  forall d q s B, td_wf d -> td_ok d -> td_rest d = bs ++ q -> td_nesting_level d + room <= 32 ->
  td_bool_pending d = false -> I (K * length bs + B)%nat s ->
  exists d' s', m d s = Some (x, d', s') /\ skipped (td_nesting_level d) bs d d' /\ I B s'.

Lemma preads_ret K {A} (x : A) room : preads K (mret x) room [] x.
Proof.
  intros d q s B W Hok E _ Hb HI. exists d, s. split; [done|]. split; [|by rewrite Nat.mul_0_r in HI].
  pose proof (skipped_advance (td_nesting_level d) [] q d W Hok E Hb) as H. cbn [length] in H. by rewrite td_advance_0 in H.
Qed.

Lemma preads_bind K {A B} (m : pdec St A) (f : A -> pdec St B) room bs1 bs2 x y :
  preads K m room bs1 x -> preads K (f x) room bs2 y -> preads K (m ≫= f) room (bs1 ++ bs2) y.
Proof.
  intros Hm Hf d q s C W Hok E Hr Hb HI. rewrite <- app_assoc in E. rewrite length_app, Nat.mul_add_distr_l, <- Nat.add_assoc in HI.
  destruct (Hm d _ s _ W Hok E Hr Hb HI) as (d1 & s1 & E1 & S1 & I1). pose proof (skipped_rest _ _ _ _ _ W E S1) as R1.
  pose proof (sk_level _ _ _ _ S1) as L1.
  destruct (Hf d1 q s1 C) as (d2 & s2 & E2 & S2 & I2); try apply S1; [done|lia|done|].
  exists d2, s2. unfold mbind, pdec_bind. rewrite E1. split; [done|]. split; [|done].
  rewrite L1 in S2. by apply (skipped_trans _ _ _ q d d1).
Qed.

Lemma preads_bind_nil K {A B} (m : pdec St A) (f : A -> pdec St B) room x y :
  preads K m room [] x -> preads K (f x) room [] y -> preads K (m ≫= f) room [] y.
Proof. intros H1 H2. by apply (preads_bind K m f room [] [] x y). Qed.

Lemma preads_map K {A B} (m : pdec St A) (f : A -> B) room bs x : preads K m room bs x -> preads K (v ← m; mret (f v)) room bs (f x).
Proof. intros H. rewrite <- (app_nil_r bs). eapply preads_bind; [done|apply preads_ret]. Qed.

Lemma preads_reads K {A} (m : tdec A) room bs x : reads m bs x -> preads K (lift m) room bs x.
Proof.
  intros H d q s B W Hok E _ Hb HI. exists (td_advance d (lenZ bs)), s. unfold lift. rewrite (H d q) by done.
  split; [done|]. split; [by apply (skipped_advance _ _ q)|]. apply (budget_less _ _ _ HI). lia.
Qed.

Lemma preads_access K {A} (o : option A) x room : o = Some x -> preads K (access o) room [] x.
Proof. intros ->. apply preads_ret. Qed.

Lemma preads_weaken K K' {A} (m : pdec St A) room room' bs x : (K <= K')%nat -> room <= room' ->
  preads K m room bs x -> preads K' m room' bs x.
Proof.
  intros HK Hr H d q s B W Hok E Hl Hb HI. apply (H d q s B); (done || lia || apply (budget_less _ _ _ HI)).
  apply Nat.add_le_mono_r, Nat.mul_le_mono_r, HK.
Qed.

Lemma preads_validate K count max room : 0 <= count <= max -> preads K (VALIDATE_COUNT count max) room [] false.
Proof. intros Hc. unfold VALIDATE_COUNT. rewrite Z.gtb_ltb. decide_bool. apply preads_ret. Qed.

Lemma preads_for_n K {A T} (f : pdec St A) room (bytes : T -> list Z) (val : T -> A) l :
  Forall (λ t, preads K f room (bytes t) (val t)) l ->
  preads K (for_n (length l) f) room (concat (map bytes l)) (map val l).
Proof.
  induction 1 as [|t l Ht _ IH]; cbn [length for_n map concat]; [apply preads_ret|].
  eapply preads_bind; [done|]. by apply preads_map.
Qed.

(** A list: its header, then what [k] does with the count.  [k] may take [c] bytes of the
    second state for each element before it reads them. *)
Lemma preads_list K c {A} (k : Z -> Z -> pdec St A) room t l x :
  0 <= t < 16 -> lenZ l < 2 ^ 31 -> Forall (λ v, 1 <= length (val_bytes v))%nat l ->
  (forall d q s B, td_wf d -> td_ok d -> td_rest d = concat (map val_bytes l) ++ q -> td_nesting_level d + room <= 32 ->
    td_bool_pending d = false -> I (c * length l + (K * length (concat (map val_bytes l)) + B))%nat s ->
    exists d' s', k t (lenZ l) d s = Some (x, d', s') /\ skipped (td_nesting_level d) (concat (map val_bytes l)) d d' /\ I B s') ->
  preads (c + K) ('(t, n) ← lift thrift_read_list_begin; k t n) room (val_bytes (VList t l)) x.
Proof.
  intros Ht Hl Hb Hk d q s B W Hok E Hr Hp HI. cbn [val_bytes] in *. rewrite <- app_assoc in E. pose proof (concat_length_ge val_bytes l Hb) as Hge.
  unfold mbind at 1, pdec_bind at 1, lift.
  rewrite (read_list_begin_spec t (lenZ l) d (concat (map val_bytes l) ++ q)); [|lia|lia|done|done|done|rewrite length_app; lia].
  cbn [mbind option_bind].
  pose proof (skipped_advance (td_nesting_level d) _ _ d W Hok E Hp) as S1. pose proof (skipped_rest _ _ _ _ _ W E S1) as R1.
  destruct (Hk (td_advance d (lenZ (list_bytes t (lenZ l)))) q s B) as (d2 & s2 & E2 & S2 & I2); try apply S1; [done|done| |].
  { apply (budget_less _ _ _ HI). rewrite length_app. nia. }
  exists d2, s2. split; [exact E2|]. split; [|done]. by apply (skipped_trans _ _ _ q d _ d2 W E S1).
Qed.

(** What a field's value is read by: a boolean is already in the header. *)
Definition vreads (K : nat) {A} (m : pdec St A) (room : Z) (v : tval) (x : A) : Prop :=
  forall d q s B, td_wf d -> td_ok d -> td_rest d = (if is_bool v then [] else val_bytes v) ++ q ->
  td_nesting_level d + room <= 32 ->
  match v with VBool b => td_bool_pending d = true /\ td_bool_value d = b | _ => td_bool_pending d = false end ->
  I (K * length (if is_bool v then [] else val_bytes v) + B)%nat s ->
  exists d' s', m d s = Some (x, d', s') /\
    skipped (td_nesting_level d) (if is_bool v then [] else val_bytes v) d d' /\ I B s'.

Lemma vreads_preads K {A} (m : pdec St A) room v x : is_bool v = false -> preads K m room (val_bytes v) x -> vreads K m room v x.
Proof. intros Hv H d q s B W Hok E Hr Hb HI. rewrite Hv in *. apply (H d q s B); auto. by destruct v. Qed.

Lemma vreads_bool K {A} b (f : bool -> pdec St A) room x : preads K (f b) room [] x ->
  vreads K (v ← lift thrift_read_bool; f v) room (VBool b) x.
Proof.
  intros Hf d q s B W Hok E Hr [Hp Hv] HI. cbn [is_bool] in *. set (d1 := set_bool false (td_bool_value d) d).
  destruct (Hf d1 q s B) as (d2 & s2 & E2 & S2 & I2); try done; [by apply (ts_wf 0 d), set_bool_step|].
  exists d2, s2. unfold mbind, pdec_bind, lift, thrift_read_bool, mbind, tdec_bind, gets. rewrite Hp, Hv.
  split; [exact E2|]. split; [|done]. by destruct S2.
Qed.

Lemma vreads_bind K {A B} (m : pdec St A) (f : A -> pdec St B) room v x y :
  vreads K m room v x -> preads K (f x) room [] y -> vreads K (m ≫= f) room v y.
Proof.
  intros Hm Hf d q s C W Hok E Hr Hb HI. destruct (Hm d q s C W Hok E Hr Hb HI) as (d1 & s1 & E1 & S1 & I1).
  pose proof (skipped_rest _ _ _ _ _ W E S1) as R1. pose proof (sk_level _ _ _ _ S1) as L1.
  destruct (Hf d1 q s1 C) as (d2 & s2 & E2 & S2 & I2); try apply S1; [done|lia|by rewrite Nat.mul_0_r|].
  exists d2, s2. unfold mbind, pdec_bind. rewrite E1. split; [done|]. split; [|done]. rewrite L1 in S2.
  rewrite <- (app_nil_r (if is_bool v then [] else val_bytes v)) in E |- *. rewrite <- app_assoc in E.
  by apply (skipped_trans _ _ _ q d d1).
Qed.

(** What is done before the value is read. *)
Lemma vreads_store K {A B C} (o : option A) x (g : A -> B) (f : B -> pdec St C) room v y : o = Some x -> vreads K (f (g x)) room v y ->
  vreads K ((u ← access o; mret (g u)) ≫= f) room v y.
Proof. intros ->. done. Qed.

(** The status is still OK. *)
Lemma vreads_status K {B} (f : carquet_status_t -> pdec St B) room v y : (forall st, is_ok st = true -> vreads K (f st) room v y) ->
  vreads K (lift (gets td_status) ≫= f) room v y.
Proof. intros H d q s B' W Hd. exact (H (td_status d) Hd d q s B' W Hd). Qed.

(** Unknown and uninteresting fields are stepped over. *)
Lemma vreads_skip K room v : val_ok room v -> 0 <= room -> vreads K (skip (type_of v)) room v ().
Proof.
  intros Hv Hr0 d q s B W Hok E Hr Hb HI. destruct (remaining_measure d W).
  destruct (skip_total (Z.to_nat (thrift_decoder_remaining d) + 3) (type_of v) d W) as (d' & Es & _); [lia|].
  exists d', s. unfold skip, lift. rewrite Es. split; [done|]. split; [|apply (budget_less _ _ _ HI); lia].
  destruct (is_bool v) eqn:Ev.
  - assert (type_of v = 1 \/ type_of v = 2) as Ht by (destruct v as [[]| | | | | | | | | | |]; auto; done).
    apply skip_bool_spec in Es as ->; [|done|done]. split; try done; [by apply (ts_wf 0 d), set_bool_step|].
    exact (eq_sym (f_equal td_reader (td_advance_0 d W))).
  - apply (all_skip v room Hv Ev (Z.to_nat (thrift_decoder_remaining d) + 3)%nat d q d'); auto. by destruct v.
Qed.

(** The fields [fs] take the loop's state from [x] to [y]. *)
Inductive chain (K : nat) {R S} (body : Z -> Z -> S -> pdec St (option R * S)) (room : Z) : list (Z * tval) -> S -> S -> Prop :=
  | chain_nil x : chain K body room [] x x
  | chain_cons id v fs x y z : in_i 16 id -> vreads K (body (type_of v) id x) room v (None, y) ->
      chain K body room fs y z -> chain K body room ((id, v) :: fs) x z.

Lemma chain_app K {R S} (body : Z -> Z -> S -> pdec St (option R * S)) room f1 f2 x y z :
  chain K body room f1 x y -> chain K body room f2 y z -> chain K body room (f1 ++ f2) x z.
Proof. induction 1; cbn [app]; [done|]. intros. econstructor; eauto. Qed.

Lemma chain_one K {R S} (body : Z -> Z -> S -> pdec St (option R * S)) room id v x y :
  in_i 16 id -> vreads K (body (type_of v) id x) room v (None, y) -> chain K body room [(id, v)] x y.
Proof. intros. econstructor; [done|done|constructor]. Qed.

(** One field: its header, then its value. *)
Lemma field_reads K {A} (m : pdec St A) d q s id v room x B : td_wf d -> td_ok d -> 0 < td_nesting_level d ->
  td_bool_pending d = false -> in_i 16 id -> td_nesting_level d + room <= 32 -> vreads K m room v x ->
  I (K * length (if is_bool v then [] else val_bytes v) + B)%nat s ->
  td_rest d = field_bytes (td_last d) (type_of v) id ++ (if is_bool v then [] else val_bytes v) ++ q ->
  exists d' s', m (after_field (td_advance d (lenZ (field_bytes (td_last d) (type_of v) id))) (type_of v) id) s = Some (x, d', s') /\
    skipped (td_nesting_level d - 1) (field_bytes (td_last d) (type_of v) id ++ (if is_bool v then [] else val_bytes v)) d d' /\
    td_last d' = id /\ I B s'.
Proof.
  intros W Hok Hl Hb Hid Hroom Hm HI E. set (h := field_bytes _ _ _) in *.
  pose proof (td_advance_wf _ _ _ W E) as W1. pose proof (td_advance_rest _ _ _ W E) as E1.
  set (d1 := td_advance d (lenZ h)) in *. pose proof (after_field_wf d1 (type_of v) id W1 Hid) as W2.
  destruct (after_field_frame d1 (type_of v) id Hl) as (FR & FL & FS & FI & FB).
  set (d2 := after_field d1 (type_of v) id) in *. destruct (W) as [_ _ HL HF Hlev].
  assert (take (Z.to_nat (td_nesting_level d - 1)) (td_last_field_id d2) = take (Z.to_nat (td_nesting_level d - 1)) (td_last_field_id d)) as FT.
  { rewrite FI. apply take_insert_ge. change (td_nesting_level d1) with (td_nesting_level d). lia. }
  pose proof (td_last_insert _ _ id d2 FI FL HL ltac:(cbn; lia)) as Hlast.
  destruct (Hm d2 q s B) as (d' & s' & Em & S & I'); [done|rewrite FS; exact Hok|unfold td_rest; rewrite FR; exact E1|by rewrite FL| |done|].
  { destruct v as [b| | | | | | | | | | |]; try (rewrite FB by (cbn; lia); exact Hb).
    unfold d2, after_field. destruct b; by split. }
  exists d', s'. split; [done|]. rewrite FL in S. change (td_nesting_level d1) with (td_nesting_level d) in S. split; [|split; [|done]].
  - destruct S as [SW SO SR SL SI SB]. split; [done|done| |by rewrite SL, FL| |done].
    + rewrite SR, FR. exact (f_equal td_reader (td_advance_add d h _ q W E)).
    + rewrite <- FT. apply (f_equal (take (Z.to_nat (td_nesting_level d - 1)))) in SI. rewrite !take_take in SI.
      by rewrite !Nat.min_l in SI by lia.
  - rewrite <- Hlast. apply td_last_take; [by rewrite (sk_level _ _ _ _ S)|rewrite FL; exact Hl|].
    rewrite FL. apply (sk_ids _ _ _ _ S).
Qed.

Lemma field_bytes_nonempty last t id : (1 <= length (field_bytes last t id))%nat.
Proof. unfold field_bytes. destruct (_ && _); cbn [length]; lia. Qed.

Lemma fields_loop_reads K {R S} (body : Z -> Z -> S -> pdec St (option R * S)) room fs x y : chain K body room fs x y ->
  forall fuel d q s B, td_wf d -> td_ok d -> 0 < td_nesting_level d -> td_bool_pending d = false ->
  td_nesting_level d + room <= 32 -> td_rest d = fields_bytes (td_last d) fs ++ q ->
  I (K * length (fields_bytes (td_last d) fs) + B)%nat s -> td_measure d < Z.of_nat fuel ->
  exists d' s', fields_loop fuel body x d s = Some ((None, y), d', s') /\
    skipped (td_nesting_level d - 1) (fields_bytes (td_last d) fs) d d' /\ I B s'.
Proof.
  induction 1 as [x|id v fs x y z Hid Hv _ IH]; intros fuel d q s B W Hd Hl Hb Hroom E HI Hf;
    (destruct fuel as [|fuel]; [pose proof (td_measure_step 0 d d W ltac:(lia) (td_step_refl d W)); lia|]);
    cbn [fields_loop fields_with] in *; unfold mbind at 1, pdec_bind at 1, lift.
  - rewrite (read_field_stop_spec d q W Hd E). eexists _, s. split; [done|]. split; [by apply (skipped_advance _ [0] q)|].
    apply (budget_less _ _ _ HI). lia.
  - rewrite <- !app_assoc in E. pose proof (type_of_range v) as [Ht _].
    rewrite (read_field_begin_spec (type_of v) id d _ ltac:(lia) Hid W Hd E). cbn [mbind option_bind].
    destruct (field_reads K (body (type_of v) id x) d (fields_bytes id fs ++ q) s id v room (None, y) (K * length (fields_bytes id fs) + B) W Hd Hl Hb Hid Hroom Hv) as (d1 & s1 & E1 & S1 & L1 & I1); [|done|].
    { apply (budget_less _ _ _ HI). rewrite !length_app. lia. }
    unfold mbind, pdec_bind. rewrite E1. rewrite app_assoc in E. pose proof (skipped_rest _ _ _ _ _ W E S1) as R1.
    rewrite <- L1 in R1, E, I1 |- *. rewrite app_assoc. rewrite <- (sk_level _ _ _ _ S1) in Hroom, Hl.
    assert (td_measure d1 < td_measure d).
    { unfold td_measure. rewrite Hd, (sk_ok _ _ _ _ S1), <- !td_rest_length by (done || apply S1). rewrite R1, E, !length_app.
      pose proof (field_bytes_nonempty (td_last d) (type_of v) (td_last d1)). lia. }
    destruct (IH fuel d1 q s1 B) as (d2 & s2 & E2 & S2 & I2); try apply S1; try done; [lia|].
    exists d2, s2. split; [exact E2|]. split; [|done]. rewrite (sk_level _ _ _ _ S1) in S2.
    eapply (skipped_trans _ _ _ q); [done|rewrite L1; rewrite L1 in E; done|rewrite L1; exact S1|exact S2].
Qed.

(** A whole struct: what its beginning, its loop and its end do. *)
Lemma struct_reads K {R S} (body : Z -> Z -> S -> pdec St (option R * S)) room fs x y d q s B : chain K body (room - 1) fs x y ->
  0 < room -> td_wf d -> td_ok d -> td_rest d = val_bytes (VStruct fs) ++ q -> td_nesting_level d + room <= 32 ->
  td_bool_pending d = false -> I (K * length (val_bytes (VStruct fs)) + B)%nat s ->
  exists d1 d2 d3 s', thrift_read_struct_begin d = Some ((), d1) /\ while_fields body x d1 s = Some ((None, y), d2, s') /\
    thrift_read_struct_end d2 = Some ((), d3) /\ skipped (td_nesting_level d) (val_bytes (VStruct fs)) d d3 /\ I B s'.
Proof.
  intros HC Hroom W Hd E Hr Hb HI. destruct (W) as [_ _ HL HF Hlev]. cbn [val_bytes] in *.
  set (d1 := set_ids (<[Z.to_nat (td_nesting_level d) := 0]> (td_last_field_id d)) (td_nesting_level d + 1) d).
  assert (thrift_read_struct_begin d = Some ((), d1)) as EB.
  { unfold thrift_read_struct_begin, mbind, tdec_bind, gets, THRIFT_MAX_NESTING. rewrite Z.geb_leb. decide_bool.
    unfold checked. by rewrite wr_Some by lia. }
  assert (td_wf d1) as W1.
  { apply (ts_wf 0 d), set_ids_step; [done|by rewrite length_insert| |lia]. apply Forall_insert; [done|unfold in_i; lia]. }
  assert (td_last d1 = 0) as L1.
  { apply (td_last_insert (td_last_field_id d) (td_nesting_level d + 1)); [|done|done|lia]. unfold d1. cbn. f_equal. lia. }
  rewrite <- L1 in E, HI |- *. destruct (remaining_measure d1 W1).
  destruct (fields_loop_reads K body (room - 1) fs x y HC (Z.to_nat (thrift_decoder_remaining d1) + 2) d1 q s B) as (d2 & s2 & E2 & SK & I2);
    try done; [cbn; lia|cbn; lia|lia|].
  destruct SK as [SW SO SR SL SI SB]. change (td_nesting_level d1) with (td_nesting_level d + 1) in *.
  eexists d1, d2, _, s2. split; [done|]. split; [exact E2|]. split; [done|]. split; [|done].
  rewrite Z.add_simpl_r in SI. rewrite SL, Z.gtb_ltb. decide_bool. destruct (SW).
  split; cbn; [|done|exact SR|lia| |done].
  - apply (ts_wf 0 d2), set_ids_step; (done || lia).
  - rewrite SI. unfold d1. cbn. by apply take_insert_ge.
Qed.

Lemma preads_struct K {S} (body : Z -> Z -> S -> pdec St (option () * S)) room fs x y : 0 < room ->
  chain K body (room - 1) fs x y -> preads K (parse_struct body x) room (val_bytes (VStruct fs)) y.
Proof.
  intros Hroom HC d q s B W Hd E Hr Hb HI.
  destruct (struct_reads K body room fs x y d q s B) as (d1 & d2 & d3 & s' & E1 & E2 & E3 & SK & I2); try done.
  exists d3, s'. unfold parse_struct, mbind, pdec_bind, lift. rewrite E1. cbn [mbind option_bind]. rewrite E2, E3. done.
Qed.

Lemma vreads_next K {S} (m : pdec St S) room v y : vreads K m room v y -> vreads K (next m) room v (None, y).
Proof. intros H. eapply vreads_bind; [done|]. apply preads_ret. Qed.

End Reads.
