(* ===== verification/ParquetTypes.v ===== *)
(** * The Parquet metadata structures (carquet/thrift/parquet_types.h, carquet/types.h)

    The footer of a file and the headers of its pages, as the parsers leave them and the
    writers take them.  A C pair [has_x], [x] is an option: nothing reads [x] when [has_x]
    is false.  An array with its count is a list.  A [char *] is the memory it points to,
    terminator included, [None] for NULL; binary data keeps its pointer and its length
    apart.  Doubles are bit patterns, enumerations the integers they are cast from.  The
    two unions are their bytes (little-endian, natural alignment), so that a file that
    sets two members at once is read as the code reads it. *)

From S2P Require Import Prelude Status Endian Memory.
From coqutil Require Import Datatypes.RecordSetters.

Definition CARQUET_CONVERTED_UTF8 : Z := 0.
Definition CARQUET_CONVERTED_MAP : Z := 1.
Definition CARQUET_CONVERTED_MAP_KEY_VALUE : Z := 2.
Definition CARQUET_CONVERTED_LIST : Z := 3.
Definition CARQUET_CONVERTED_ENUM : Z := 4.
Definition CARQUET_CONVERTED_DECIMAL : Z := 5.
Definition CARQUET_CONVERTED_DATE : Z := 6.
Definition CARQUET_CONVERTED_TIME_MILLIS : Z := 7.
Definition CARQUET_CONVERTED_TIME_MICROS : Z := 8.
Definition CARQUET_CONVERTED_TIMESTAMP_MILLIS : Z := 9.
Definition CARQUET_CONVERTED_TIMESTAMP_MICROS : Z := 10.
Definition CARQUET_CONVERTED_UINT_8 : Z := 11.
Definition CARQUET_CONVERTED_UINT_16 : Z := 12.
Definition CARQUET_CONVERTED_UINT_32 : Z := 13.
Definition CARQUET_CONVERTED_UINT_64 : Z := 14.
Definition CARQUET_CONVERTED_INT_8 : Z := 15.
Definition CARQUET_CONVERTED_INT_16 : Z := 16.
Definition CARQUET_CONVERTED_INT_32 : Z := 17.
Definition CARQUET_CONVERTED_INT_64 : Z := 18.
Definition CARQUET_CONVERTED_JSON : Z := 19.
Definition CARQUET_CONVERTED_BSON : Z := 20.
Definition CARQUET_CONVERTED_INTERVAL : Z := 21.

Definition CARQUET_LOGICAL_UNKNOWN : Z := 0.
Definition CARQUET_LOGICAL_STRING : Z := 1.
Definition CARQUET_LOGICAL_MAP : Z := 2.
Definition CARQUET_LOGICAL_LIST : Z := 3.
Definition CARQUET_LOGICAL_ENUM : Z := 4.
Definition CARQUET_LOGICAL_DECIMAL : Z := 5.
Definition CARQUET_LOGICAL_DATE : Z := 6.
Definition CARQUET_LOGICAL_TIME : Z := 7.
Definition CARQUET_LOGICAL_TIMESTAMP : Z := 8.
Definition CARQUET_LOGICAL_INTEGER : Z := 9.
Definition CARQUET_LOGICAL_NULL : Z := 10.
Definition CARQUET_LOGICAL_JSON : Z := 11.
Definition CARQUET_LOGICAL_BSON : Z := 12.
Definition CARQUET_LOGICAL_UUID : Z := 13.
Definition CARQUET_LOGICAL_FLOAT16 : Z := 14.
Definition CARQUET_LOGICAL_VARIANT : Z := 15.
Definition CARQUET_LOGICAL_GEOMETRY : Z := 16.
Definition CARQUET_LOGICAL_GEOGRAPHY : Z := 17.
Definition CARQUET_LOGICAL_INTERVAL : Z := 18.

Definition CARQUET_TIME_UNIT_MILLIS : Z := 0.
Definition CARQUET_TIME_UNIT_MICROS : Z := 1.
Definition CARQUET_TIME_UNIT_NANOS : Z := 2.

Definition CARQUET_GEOSPATIAL_CRS_MAX : Z := 128.
Definition CARQUET_GEO_MAX_TYPES : Z := 64.

Definition CARQUET_PAGE_DATA : Z := 0.
Definition CARQUET_PAGE_DICTIONARY : Z := 2.
Definition CARQUET_PAGE_DATA_V2 : Z := 3.

(** ** Pointers *)

Abbreviation cstring := (option (list Z)).
Abbreviation binary := (option (list Z) * Z)%type.

(** ** Typed accesses to the bytes of a union *)

Definition get_i32 (u : list Z) (off : Z) : option Z := (λ b, i32 (le_val b)) <$> rd_n u off 4.
Definition get_i8 (u : list Z) (off : Z) : option Z := i8 <$> rd u off.
Definition get_bool (u : list Z) (off : Z) : option bool := (λ b, negb (b =? 0)) <$> rd u off.
Definition put_i32 (u : list Z) (off v : Z) : option (list Z) := wr_n u off (carquet_write_i32_le v).
Definition put_i8 (u : list Z) (off v : Z) : option (list Z) := wr u off (u8 v).
Definition put_bool (u : list Z) (off : Z) (b : bool) : option (list Z) := wr u off (Z.b2z b).

(** ** Logical types

    [params] is the union, 136 bytes: [decimal] has precision at 0 and scale at 4,
    [integer] the width at 0 and the sign at 1, [time] and [timestamp] the unit at 0 and
    the flag at 4, [variant] its version at 0, [geometry] and [geography] the CRS text at
    0, the latter also the algorithm at 128 and its flag at 132. *)

Record carquet_logical_type_t := mk_logical_type { lt_id : Z; lt_params : list Z }.

Definition lt_zero : carquet_logical_type_t := mk_logical_type CARQUET_LOGICAL_UNKNOWN (replicate 136 0).

(** ** The structures *)

Record parquet_schema_element_t := mk_schema_element {
  se_type : option Z;
  se_type_length : Z;
  se_repetition_type : option Z;
  se_name : cstring;
  se_num_children : Z;
  se_converted_type : option Z;
  se_scale : Z;
  se_precision : Z;
  se_field_id : option Z;
  se_logical_type : option carquet_logical_type_t }.

Record parquet_statistics_t := mk_statistics {
  st_max_deprecated : binary;
  st_min_deprecated : binary;
  st_null_count : option Z;
  st_distinct_count : option Z;
  st_max_value : binary;
  st_min_value : binary;
  st_is_max_value_exact : option bool;
  st_is_min_value_exact : option bool }.

Record parquet_geospatial_statistics_t := mk_geospatial {
  geo_valid : bool;
  geo_xmin : Z; geo_xmax : Z; geo_ymin : Z; geo_ymax : Z;
  geo_has_z : bool; geo_zmin : Z; geo_zmax : Z;
  geo_has_m : bool; geo_mmin : Z; geo_mmax : Z;
  geo_types : list Z;   (* int32_t[CARQUET_GEO_MAX_TYPES] *)
  geo_num_types : Z }.

Record parquet_page_encoding_stats_t := mk_encoding_stats { es_page_type : Z; es_encoding : Z; es_count : Z }.

Record parquet_key_value_t := mk_key_value { kv_key : cstring; kv_value : cstring }.

Record parquet_column_metadata_t := mk_column_metadata {
  cm_type : Z;
  cm_encodings : list Z;
  cm_path_in_schema : list cstring;
  cm_codec : Z;
  cm_num_values : Z;
  cm_total_uncompressed_size : Z;
  cm_total_compressed_size : Z;
  cm_key_value_metadata : list parquet_key_value_t;
  cm_data_page_offset : Z;
  cm_index_page_offset : option Z;
  cm_dictionary_page_offset : option Z;
  cm_statistics : option parquet_statistics_t;
  cm_encoding_stats : list parquet_page_encoding_stats_t;
  cm_bloom_filter_offset : option Z;
  cm_bloom_filter_length : option Z;
  cm_geospatial_statistics : option parquet_geospatial_statistics_t }.

Record parquet_column_chunk_t := mk_column_chunk {
  cc_file_path : cstring;
  cc_file_offset : Z;
  cc_metadata : option parquet_column_metadata_t;
  cc_offset_index_offset : option Z;
  cc_offset_index_length : option Z;
  cc_column_index_offset : option Z;
  cc_column_index_length : option Z }.

Record parquet_sorting_column_t := mk_sorting_column { sc_column_idx : Z; sc_descending : bool; sc_nulls_first : bool }.

Record parquet_row_group_t := mk_row_group {
  rg_columns : list parquet_column_chunk_t;
  rg_total_byte_size : Z;
  rg_num_rows : Z;
  rg_sorting_columns : list parquet_sorting_column_t;
  rg_file_offset : option Z;
  rg_total_compressed_size : option Z;
  rg_ordinal : option Z }.

Record parquet_file_metadata_t := mk_file_metadata {
  fm_version : Z;
  fm_schema : list parquet_schema_element_t;
  fm_num_rows : Z;
  fm_row_groups : list parquet_row_group_t;
  fm_key_value_metadata : list parquet_key_value_t;
  fm_created_by : cstring;
  fm_num_column_orders : Z }.

(** [ph_union] is the first 32 bytes of the union: [data_page_header] has num_values, its
    three encodings at 0, 4, 8, 12 and has_statistics at 16; [data_page_header_v2] has
    num_values, num_nulls, num_rows, encoding and the two level lengths at 0, 4, ... 20,
    is_compressed at 24 and has_statistics at 25; [dictionary_page_header] has num_values
    and encoding at 0 and 4, is_sorted at 8.  The statistics behind them are never
    parsed; the writer takes them as an argument of their own. *)
Record parquet_page_header_t := mk_page_header {
  ph_type : Z;
  ph_uncompressed_page_size : Z;
  ph_compressed_page_size : Z;
  ph_crc : option Z;
  ph_union : list Z }.

(** What [memset(..., 0, ...)] leaves. *)
Definition se_zero := mk_schema_element None 0 None None 0 None 0 0 None None.
Definition st_zero := mk_statistics (None, 0) (None, 0) None None (None, 0) (None, 0) None None.
Definition geo_zero := mk_geospatial false 0 0 0 0 false 0 0 false 0 0 (replicate 64 0) 0.
Definition es_zero := mk_encoding_stats 0 0 0.
Definition kv_zero := mk_key_value None None.
Definition cm_zero := mk_column_metadata 0 [] [] 0 0 0 0 [] 0 None None None [] None None None.
Definition cc_zero := mk_column_chunk None 0 None None None None None.
Definition sc_zero := mk_sorting_column 0 false false.
Definition rg_zero := mk_row_group [] 0 0 [] None None None.
Definition fm_zero := mk_file_metadata 0 [] 0 [] [] None 0.
Definition ph_zero := mk_page_header 0 0 0 None (replicate 32 0).

(** [sizeof] of the array elements, for the arena requests. *)
Definition sizeof_schema_element : Z := 208.
Definition sizeof_key_value : Z := 16.
Definition sizeof_encoding_stats : Z := 12.
Definition sizeof_column_chunk : Z := 688.
Definition sizeof_sorting_column : Z := 8.
Definition sizeof_row_group : Z := 80.

(** ** Converted types, the legacy form of logical types *)

Definition logical (id : Z) : carquet_logical_type_t := mk_logical_type id (lt_params lt_zero).

(** A boolean result and the type; the union has just been cleared, so the stores are to
    known places. *)
Definition logical_decimal (scale precision : Z) : option carquet_logical_type_t :=
  p ← put_i32 (lt_params lt_zero) 4 scale; p ← put_i32 p 0 precision; Some (mk_logical_type CARQUET_LOGICAL_DECIMAL p).

Definition logical_time (id unit : Z) : option carquet_logical_type_t :=
  p ← put_bool (lt_params lt_zero) 4 true; p ← put_i32 p 0 unit; Some (mk_logical_type id p).

Definition logical_integer (is_signed : bool) (bit_width : Z) : option carquet_logical_type_t :=
  p ← put_bool (lt_params lt_zero) 1 is_signed; p ← put_i8 p 0 bit_width; Some (mk_logical_type CARQUET_LOGICAL_INTEGER p).

(** [Some None] is the answer [false]. *)
Definition logical_type_from_converted_type (converted_type scale precision : Z) : option (option carquet_logical_type_t) :=
  let ct := converted_type in
  if ct =? CARQUET_CONVERTED_UTF8 then Some (Some (logical CARQUET_LOGICAL_STRING)) else
  if (ct =? CARQUET_CONVERTED_MAP) || (ct =? CARQUET_CONVERTED_MAP_KEY_VALUE) then Some (Some (logical CARQUET_LOGICAL_MAP)) else
  if ct =? CARQUET_CONVERTED_LIST then Some (Some (logical CARQUET_LOGICAL_LIST)) else
  if ct =? CARQUET_CONVERTED_ENUM then Some (Some (logical CARQUET_LOGICAL_ENUM)) else
  if ct =? CARQUET_CONVERTED_DECIMAL then Some <$> logical_decimal scale precision else
  if ct =? CARQUET_CONVERTED_DATE then Some (Some (logical CARQUET_LOGICAL_DATE)) else
  if ct =? CARQUET_CONVERTED_TIME_MILLIS then Some <$> logical_time CARQUET_LOGICAL_TIME CARQUET_TIME_UNIT_MILLIS else
  if ct =? CARQUET_CONVERTED_TIME_MICROS then Some <$> logical_time CARQUET_LOGICAL_TIME CARQUET_TIME_UNIT_MICROS else
  if ct =? CARQUET_CONVERTED_TIMESTAMP_MILLIS then Some <$> logical_time CARQUET_LOGICAL_TIMESTAMP CARQUET_TIME_UNIT_MILLIS else
  if ct =? CARQUET_CONVERTED_TIMESTAMP_MICROS then Some <$> logical_time CARQUET_LOGICAL_TIMESTAMP CARQUET_TIME_UNIT_MICROS else
  if (ct =? CARQUET_CONVERTED_UINT_8) || (ct =? CARQUET_CONVERTED_UINT_16) || (ct =? CARQUET_CONVERTED_UINT_32) || (ct =? CARQUET_CONVERTED_UINT_64) then
    Some <$> logical_integer false (if ct =? CARQUET_CONVERTED_UINT_8 then 8 else if ct =? CARQUET_CONVERTED_UINT_16 then 16
                                    else if ct =? CARQUET_CONVERTED_UINT_32 then 32 else 64) else
  if (ct =? CARQUET_CONVERTED_INT_8) || (ct =? CARQUET_CONVERTED_INT_16) || (ct =? CARQUET_CONVERTED_INT_32) || (ct =? CARQUET_CONVERTED_INT_64) then
    Some <$> logical_integer true (if ct =? CARQUET_CONVERTED_INT_8 then 8 else if ct =? CARQUET_CONVERTED_INT_16 then 16
                                   else if ct =? CARQUET_CONVERTED_INT_32 then 32 else 64) else
  if ct =? CARQUET_CONVERTED_JSON then Some (Some (logical CARQUET_LOGICAL_JSON)) else
  if ct =? CARQUET_CONVERTED_BSON then Some (Some (logical CARQUET_LOGICAL_BSON)) else
  if ct =? CARQUET_CONVERTED_INTERVAL then Some (Some (logical CARQUET_LOGICAL_INTERVAL))
  else Some None.

(** [Some None] is the answer [false]. *)
Definition converted_type_from_logical_type (lt : carquet_logical_type_t) : option (option Z) :=
  let id := lt_id lt in
  if id =? CARQUET_LOGICAL_STRING then Some (Some CARQUET_CONVERTED_UTF8) else
  if id =? CARQUET_LOGICAL_MAP then Some (Some CARQUET_CONVERTED_MAP) else
  if id =? CARQUET_LOGICAL_LIST then Some (Some CARQUET_CONVERTED_LIST) else
  if id =? CARQUET_LOGICAL_ENUM then Some (Some CARQUET_CONVERTED_ENUM) else
  if id =? CARQUET_LOGICAL_DECIMAL then Some (Some CARQUET_CONVERTED_DECIMAL) else
  if id =? CARQUET_LOGICAL_DATE then Some (Some CARQUET_CONVERTED_DATE) else
  if id =? CARQUET_LOGICAL_TIME then
    unit ← get_i32 (lt_params lt) 0;
    Some (if unit =? CARQUET_TIME_UNIT_MILLIS then Some CARQUET_CONVERTED_TIME_MILLIS
          else if unit =? CARQUET_TIME_UNIT_MICROS then Some CARQUET_CONVERTED_TIME_MICROS else None) else
  if id =? CARQUET_LOGICAL_TIMESTAMP then
    unit ← get_i32 (lt_params lt) 0;
    Some (if unit =? CARQUET_TIME_UNIT_MILLIS then Some CARQUET_CONVERTED_TIMESTAMP_MILLIS
          else if unit =? CARQUET_TIME_UNIT_MICROS then Some CARQUET_CONVERTED_TIMESTAMP_MICROS else None) else
  if id =? CARQUET_LOGICAL_INTEGER then
    is_signed ← get_bool (lt_params lt) 1;
    w ← get_i8 (lt_params lt) 0;
    Some (if is_signed : bool then
            if w =? 8 then Some CARQUET_CONVERTED_INT_8 else if w =? 16 then Some CARQUET_CONVERTED_INT_16
            else if w =? 32 then Some CARQUET_CONVERTED_INT_32 else if w =? 64 then Some CARQUET_CONVERTED_INT_64 else None
          else
            if w =? 8 then Some CARQUET_CONVERTED_UINT_8 else if w =? 16 then Some CARQUET_CONVERTED_UINT_16
            else if w =? 32 then Some CARQUET_CONVERTED_UINT_32 else if w =? 64 then Some CARQUET_CONVERTED_UINT_64 else None) else
  if id =? CARQUET_LOGICAL_JSON then Some (Some CARQUET_CONVERTED_JSON) else
  if id =? CARQUET_LOGICAL_BSON then Some (Some CARQUET_CONVERTED_BSON) else
  if id =? CARQUET_LOGICAL_INTERVAL then Some (Some CARQUET_CONVERTED_INTERVAL)
  else Some None.
