(* ===== verification/ParquetParse.v ===== *)
(** * Parsing the Parquet metadata (carquet/thrift/parquet_types.c, parsing functions)

    The parsers of the file footer and of page headers over the Thrift decoder, with the
    arena that their strings and arrays are allocated from.  [ParquetSafe] proves them on
    arbitrary bytes, [ParquetRoundtrip] on the bytes the writers produce. *)

From S2P Require Import Prelude Status Endian Memory Buffer Arena ThriftDecode ThriftParse ParquetTypes.
From coqutil Require Import Datatypes.RecordSetters.
Import RecordSetters.TriangleBracketNotations.

Definition CARQUET_MAX_SCHEMA_ELEMENTS : Z := 10000.
Definition CARQUET_MAX_ROW_GROUPS : Z := 100000.
Definition CARQUET_MAX_COLUMNS_PER_RG : Z := 10000.
Definition CARQUET_MAX_KEY_VALUE_PAIRS : Z := 10000.
Definition CARQUET_MAX_ENCODINGS : Z := 100.
Definition CARQUET_MAX_PATH_ELEMENTS : Z := 100.
Definition CARQUET_MAX_ENCODING_STATS : Z := 100.

(** ** Logical types *)

Section Logical.
Context {St : Type}.

(** A store into [lt->params]. *)
Definition in_params (lt : carquet_logical_type_t) (store : list Z -> option (list Z)) : pdec St carquet_logical_type_t :=
  p ← access (store (lt_params lt)); mret (mk_logical_type (lt_id lt) p).

Definition parse_decimal (type field_id : Z) (lt : carquet_logical_type_t) : pdec St carquet_logical_type_t :=
  if field_id =? 1 then v ← lift thrift_read_i32; in_params lt (λ p, put_i32 p 4 v) else
  if field_id =? 2 then v ← lift thrift_read_i32; in_params lt (λ p, put_i32 p 0 v)
  else skip type;; mret lt.

(** The TimeUnit union. *)
Definition parse_unit (ut uf : Z) (lt : carquet_logical_type_t) : pdec St carquet_logical_type_t :=
  lt ← (if uf =? 1 then in_params lt (λ p, put_i32 p 0 CARQUET_TIME_UNIT_MILLIS) else
        if uf =? 2 then in_params lt (λ p, put_i32 p 0 CARQUET_TIME_UNIT_MICROS) else
        if uf =? 3 then in_params lt (λ p, put_i32 p 0 CARQUET_TIME_UNIT_NANOS) else mret lt);
  skip ut;; mret lt.

(** TIME and TIMESTAMP: the two members have the same layout. *)
Definition parse_time (type field_id : Z) (lt : carquet_logical_type_t) : pdec St carquet_logical_type_t :=
  if field_id =? 1 then v ← lift thrift_read_bool; in_params lt (λ p, put_bool p 4 v) else
  if field_id =? 2 then parse_fields parse_unit lt
  else skip type;; mret lt.

Definition parse_integer (type field_id : Z) (lt : carquet_logical_type_t) : pdec St carquet_logical_type_t :=
  if field_id =? 1 then v ← lift thrift_read_byte; in_params lt (λ p, put_i8 p 0 (i8 v)) else
  if field_id =? 2 then v ← lift thrift_read_bool; in_params lt (λ p, put_bool p 1 v)
  else skip type;; mret lt.

Definition parse_variant (type field_id : Z) (lt : carquet_logical_type_t) : pdec St carquet_logical_type_t :=
  if field_id =? 1 then v ← lift thrift_read_byte; in_params lt (λ p, put_i8 p 0 (i8 v))
  else skip type;; mret lt.

(** At most 127 bytes and a terminator, into [crs]. *)
Definition parse_crs (lt : carquet_logical_type_t) : pdec St carquet_logical_type_t :=
  '(data, len) ← lift thrift_read_binary;
  match data with
  | Some data =>
      if len >? 0 then
        let n := if len <? CARQUET_GEOSPATIAL_CRS_MAX - 1 then len else CARQUET_GEOSPATIAL_CRS_MAX - 1 in
        bs ← access (rd_n data 0 n);
        lt ← in_params lt (λ p, wr_n p 0 bs);
        in_params lt (λ p, wr p n 0)
      else mret lt
  | None => mret lt
  end.

Definition parse_geometry (type field_id : Z) (lt : carquet_logical_type_t) : pdec St carquet_logical_type_t :=
  if field_id =? 1 then parse_crs lt else skip type;; mret lt.

Definition parse_geography (type field_id : Z) (lt : carquet_logical_type_t) : pdec St carquet_logical_type_t :=
  if field_id =? 1 then parse_crs lt else
  if field_id =? 2 then
    v ← lift thrift_read_i32; lt ← in_params lt (λ p, put_i32 p 128 v); in_params lt (λ p, put_bool p 132 true)
  else skip type;; mret lt.

Definition with_id (id : Z) (lt : carquet_logical_type_t) : carquet_logical_type_t := mk_logical_type id (lt_params lt).

Definition parse_logical_field (type field_id : Z) (lt : carquet_logical_type_t) : pdec St carquet_logical_type_t :=
  let plain id := skip type;; mret (with_id id lt) in
  if field_id =? 1 then plain CARQUET_LOGICAL_STRING else
  if field_id =? 2 then plain CARQUET_LOGICAL_MAP else
  if field_id =? 3 then plain CARQUET_LOGICAL_LIST else
  if field_id =? 4 then plain CARQUET_LOGICAL_ENUM else
  if field_id =? 5 then parse_fields parse_decimal (with_id CARQUET_LOGICAL_DECIMAL lt) else
  if field_id =? 6 then plain CARQUET_LOGICAL_DATE else
  if field_id =? 7 then parse_fields parse_time (with_id CARQUET_LOGICAL_TIME lt) else
  if field_id =? 8 then parse_fields parse_time (with_id CARQUET_LOGICAL_TIMESTAMP lt) else
  if field_id =? 10 then parse_fields parse_integer (with_id CARQUET_LOGICAL_INTEGER lt) else
  if field_id =? 11 then plain CARQUET_LOGICAL_NULL else
  if field_id =? 12 then plain CARQUET_LOGICAL_JSON else
  if field_id =? 13 then plain CARQUET_LOGICAL_BSON else
  if field_id =? 14 then plain CARQUET_LOGICAL_UUID else
  if field_id =? 15 then plain CARQUET_LOGICAL_FLOAT16 else
  if field_id =? 16 then
    lt ← in_params (with_id CARQUET_LOGICAL_VARIANT lt) (λ p, put_i8 p 0 1); parse_fields parse_variant lt else
  if field_id =? 17 then parse_fields parse_geometry (with_id CARQUET_LOGICAL_GEOMETRY lt) else
  if field_id =? 18 then parse_fields parse_geography (with_id CARQUET_LOGICAL_GEOGRAPHY lt)
  else skip type;; mret lt.

Definition parse_logical_type : pdec St carquet_logical_type_t := parse_fields parse_logical_field lt_zero.

End Logical.

(** ** The footer *)

Section Footer.
Context {Sp : AddressSpace}.
Abbreviation parser := (pdec carquet_arena_t).

Definition arena_strdup_thrift : parser cstring :=
  '(data, len) ← lift thrift_read_binary;
  match data with
  | None =>
      if len =? 0 then r ← on_state (λ a, carquet_arena_strdup a (Some [0])); mret (snd <$> r) else mret None
  | Some _ => r ← on_state (λ a, carquet_arena_strndup a data len); mret (snd <$> r)
  end.

Definition arena_bindup_thrift : parser binary :=
  '(data, len) ← lift thrift_read_binary;
  match data with
  | None => mret (None, len)
  | Some _ =>
      if len =? 0 then mret (None, len)
      else r ← on_state (λ a, carquet_arena_memdup a data len); mret (snd <$> r, len)
  end.

(** [p = carquet_arena_calloc(arena, count, size); for (i < count) p[i] = f()]: a NULL
    result is not checked for. *)
Definition arena_array {A} (count size : Z) (f : parser A) : parser (list A) :=
  r ← on_state (λ a, carquet_arena_calloc a count size);
  match r with
  | None => if count >? 0 then access None else mret []
  | Some _ => for_n (Z.to_nat count) f
  end.

Definition parse_statistics_field (type field_id : Z) (s : parquet_statistics_t) : parser parquet_statistics_t :=
  if field_id =? 1 then v ← arena_bindup_thrift; mret (s<| st_max_deprecated := v |>) else
  if field_id =? 2 then v ← arena_bindup_thrift; mret (s<| st_min_deprecated := v |>) else
  if field_id =? 3 then v ← lift thrift_read_i64; mret (s<| st_null_count := Some v |>) else
  if field_id =? 4 then v ← lift thrift_read_i64; mret (s<| st_distinct_count := Some v |>) else
  if field_id =? 5 then v ← arena_bindup_thrift; mret (s<| st_max_value := v |>) else
  if field_id =? 6 then v ← arena_bindup_thrift; mret (s<| st_min_value := v |>) else
  if field_id =? 7 then v ← lift thrift_read_bool; mret (s<| st_is_max_value_exact := Some v |>) else
  if field_id =? 8 then v ← lift thrift_read_bool; mret (s<| st_is_min_value_exact := Some v |>)
  else skip type;; mret s.

Definition parse_statistics : parser parquet_statistics_t := parse_fields parse_statistics_field st_zero.

Definition parse_schema_field (type field_id : Z) (e : parquet_schema_element_t) : parser parquet_schema_element_t :=
  if field_id =? 1 then v ← lift thrift_read_i32; mret (e<| se_type := Some v |>) else
  if field_id =? 2 then v ← lift thrift_read_i32; mret (e<| se_type_length := v |>) else
  if field_id =? 3 then v ← lift thrift_read_i32; mret (e<| se_repetition_type := Some v |>) else
  if field_id =? 4 then v ← arena_strdup_thrift; mret (e<| se_name := v |>) else
  if field_id =? 5 then v ← lift thrift_read_i32; mret (e<| se_num_children := v |>) else
  if field_id =? 6 then v ← lift thrift_read_i32; mret (e<| se_converted_type := Some v |>) else
  if field_id =? 7 then v ← lift thrift_read_i32; mret (e<| se_scale := v |>) else
  if field_id =? 8 then v ← lift thrift_read_i32; mret (e<| se_precision := v |>) else
  if field_id =? 9 then v ← lift thrift_read_i32; mret (e<| se_field_id := Some v |>) else
  if field_id =? 10 then v ← parse_logical_type; mret (e<| se_logical_type := Some v |>)
  else skip type;; mret e.

(** The end of [parse_schema_element]: legacy files have only the converted type. *)
Definition complete_schema_element (e : parquet_schema_element_t) : option parquet_schema_element_t :=
  match se_logical_type e, se_converted_type e with
  | None, Some ct =>
      lt ← logical_type_from_converted_type ct (se_scale e) (se_precision e); Some (e<| se_logical_type := lt |>)
  | _, _ => Some e
  end.

Definition parse_schema_element : parser parquet_schema_element_t :=
  e ← parse_fields parse_schema_field se_zero; access (complete_schema_element e).

Definition parse_key_value_field (type field_id : Z) (kv : parquet_key_value_t) : parser parquet_key_value_t :=
  if field_id =? 1 then v ← arena_strdup_thrift; mret (kv<| kv_key := v |>) else
  if field_id =? 2 then v ← arena_strdup_thrift; mret (kv<| kv_value := v |>)
  else skip type;; mret kv.

Definition parse_key_value : parser parquet_key_value_t := parse_fields parse_key_value_field kv_zero.

Definition parse_encoding_stats_field (type field_id : Z) (e : parquet_page_encoding_stats_t) : parser parquet_page_encoding_stats_t :=
  if field_id =? 1 then v ← lift thrift_read_i32; mret (e<| es_page_type := v |>) else
  if field_id =? 2 then v ← lift thrift_read_i32; mret (e<| es_encoding := v |>) else
  if field_id =? 3 then v ← lift thrift_read_i32; mret (e<| es_count := v |>)
  else skip type;; mret e.

Definition parse_bounding_box (type field_id : Z) (g : parquet_geospatial_statistics_t) : parser parquet_geospatial_statistics_t :=
  dv ← lift thrift_read_double;
  mret (if field_id =? 1 then g<| geo_xmin := dv |><| geo_valid := true |> else
        if field_id =? 2 then g<| geo_xmax := dv |><| geo_valid := true |> else
        if field_id =? 3 then g<| geo_ymin := dv |><| geo_valid := true |> else
        if field_id =? 4 then g<| geo_ymax := dv |><| geo_valid := true |> else
        if field_id =? 5 then g<| geo_zmin := dv |><| geo_has_z := true |> else
        if field_id =? 6 then g<| geo_zmax := dv |><| geo_has_z := true |> else
        if field_id =? 7 then g<| geo_mmin := dv |><| geo_has_m := true |> else
        if field_id =? 8 then g<| geo_mmax := dv |><| geo_has_m := true |> else g).

(** [for (i = 0; i < cnt; i++)], [n] turns left: the guard is on [i], not on [num_types]. *)
Fixpoint parse_geo_types (n : nat) (i : Z) (g : parquet_geospatial_statistics_t) : parser parquet_geospatial_statistics_t :=
  match n with
  | O => mret g
  | S n =>
      code ← lift thrift_read_i32;
      g ← (if i <? CARQUET_GEO_MAX_TYPES then
             types ← access (wr (geo_types g) (geo_num_types g) code);
             mret (g<| geo_types := types |><| geo_num_types := i32 (geo_num_types g + 1) |>)
           else mret g);
      parse_geo_types n (i + 1) g
  end.

Definition parse_geospatial_field (type field_id : Z) (g : parquet_geospatial_statistics_t) : parser parquet_geospatial_statistics_t :=
  if field_id =? 1 then parse_fields parse_bounding_box g else
  if field_id =? 2 then
    '(_, cnt) ← lift thrift_read_list_begin; parse_geo_types (Z.to_nat cnt) 0 g
  else skip type;; mret g.

Definition parse_geospatial : parser parquet_geospatial_statistics_t := parse_fields parse_geospatial_field geo_zero.

(** The rest of the footer, over any way to fill an array and any parser of the geospatial
    statistics; the code is the instance with [arena_array] and [parse_geospatial]. *)
Section Guards.
Context (array : forall A, Z -> Z -> parser A -> parser (list A)) (geospatial : parser parquet_geospatial_statistics_t).

(** A list field: count, limit, array; [VALIDATE_COUNT] may return from the function. *)
Definition list_field {A S} (x : S) (max size : Z) (f : parser A) (store : list A -> S) : parser (option () * S) :=
  '(elem_type, count) ← lift thrift_read_list_begin;
  bad ← VALIDATE_COUNT count max;
  if bad : bool then mret (Some (), x) else
  l ← array _ count size f; mret (None, store l).

Definition parse_column_metadata_field (type field_id : Z) (m : parquet_column_metadata_t) : parser (option () * parquet_column_metadata_t) :=
  if field_id =? 1 then next (v ← lift thrift_read_i32; mret (m<| cm_type := v |>)) else
  if field_id =? 2 then
    list_field m CARQUET_MAX_ENCODINGS 4 (lift thrift_read_i32) (λ l, m<| cm_encodings := l |>) else
  if field_id =? 3 then
    list_field m CARQUET_MAX_PATH_ELEMENTS 8 arena_strdup_thrift (λ l, m<| cm_path_in_schema := l |>) else
  if field_id =? 4 then next (v ← lift thrift_read_i32; mret (m<| cm_codec := v |>)) else
  if field_id =? 5 then next (v ← lift thrift_read_i64; mret (m<| cm_num_values := v |>)) else
  if field_id =? 6 then next (v ← lift thrift_read_i64; mret (m<| cm_total_uncompressed_size := v |>)) else
  if field_id =? 7 then next (v ← lift thrift_read_i64; mret (m<| cm_total_compressed_size := v |>)) else
  if field_id =? 8 then
    list_field m CARQUET_MAX_KEY_VALUE_PAIRS sizeof_key_value parse_key_value (λ l, m<| cm_key_value_metadata := l |>) else
  if field_id =? 9 then next (v ← lift thrift_read_i64; mret (m<| cm_data_page_offset := v |>)) else
  if field_id =? 10 then next (v ← lift thrift_read_i64; mret (m<| cm_index_page_offset := Some v |>)) else
  if field_id =? 11 then next (v ← lift thrift_read_i64; mret (m<| cm_dictionary_page_offset := Some v |>)) else
  if field_id =? 12 then next (v ← parse_statistics; mret (m<| cm_statistics := Some v |>)) else
  if field_id =? 13 then
    list_field m CARQUET_MAX_ENCODING_STATS sizeof_encoding_stats (parse_fields parse_encoding_stats_field es_zero)
      (λ l, m<| cm_encoding_stats := l |>) else
  if field_id =? 14 then next (v ← lift thrift_read_i64; mret (m<| cm_bloom_filter_offset := Some v |>)) else
  if field_id =? 15 then next (v ← lift thrift_read_i32; mret (m<| cm_bloom_filter_length := Some v |>)) else
  if field_id =? 17 then next (v ← geospatial; mret (m<| cm_geospatial_statistics := Some v |>))
  else next (skip type;; mret m).

Definition parse_column_metadata : parser parquet_column_metadata_t := parse_struct parse_column_metadata_field cm_zero.

Definition parse_column_chunk_field (type field_id : Z) (c : parquet_column_chunk_t) : parser parquet_column_chunk_t :=
  if field_id =? 1 then v ← arena_strdup_thrift; mret (c<| cc_file_path := v |>) else
  if field_id =? 2 then v ← lift thrift_read_i64; mret (c<| cc_file_offset := v |>) else
  if field_id =? 3 then v ← parse_column_metadata; mret (c<| cc_metadata := Some v |>) else
  if field_id =? 4 then v ← lift thrift_read_i64; mret (c<| cc_offset_index_offset := Some v |>) else
  if field_id =? 5 then v ← lift thrift_read_i32; mret (c<| cc_offset_index_length := Some v |>) else
  if field_id =? 6 then v ← lift thrift_read_i64; mret (c<| cc_column_index_offset := Some v |>) else
  if field_id =? 7 then v ← lift thrift_read_i32; mret (c<| cc_column_index_length := Some v |>)
  else skip type;; mret c.

Definition parse_column_chunk : parser parquet_column_chunk_t := parse_fields parse_column_chunk_field cc_zero.

Definition parse_sorting_field (type field_id : Z) (sc : parquet_sorting_column_t) : parser parquet_sorting_column_t :=
  if field_id =? 1 then v ← lift thrift_read_i32; mret (sc<| sc_column_idx := v |>) else
  if field_id =? 2 then v ← lift thrift_read_bool; mret (sc<| sc_descending := v |>) else
  if field_id =? 3 then v ← lift thrift_read_bool; mret (sc<| sc_nulls_first := v |>)
  else skip type;; mret sc.

Definition parse_row_group_field (type field_id : Z) (rg : parquet_row_group_t) : parser (option () * parquet_row_group_t) :=
  if field_id =? 1 then
    list_field rg CARQUET_MAX_COLUMNS_PER_RG sizeof_column_chunk parse_column_chunk (λ l, rg<| rg_columns := l |>) else
  if field_id =? 2 then next (v ← lift thrift_read_i64; mret (rg<| rg_total_byte_size := v |>)) else
  if field_id =? 3 then next (v ← lift thrift_read_i64; mret (rg<| rg_num_rows := v |>)) else
  if field_id =? 4 then
    list_field rg CARQUET_MAX_COLUMNS_PER_RG sizeof_sorting_column (parse_fields parse_sorting_field sc_zero)
      (λ l, rg<| rg_sorting_columns := l |>) else
  if field_id =? 5 then next (v ← lift thrift_read_i64; mret (rg<| rg_file_offset := Some v |>)) else
  if field_id =? 6 then next (v ← lift thrift_read_i64; mret (rg<| rg_total_compressed_size := Some v |>)) else
  if field_id =? 7 then next (v ← lift thrift_read_i16; mret (rg<| rg_ordinal := Some v |>))
  else next (skip type;; mret rg).

Definition parse_row_group : parser parquet_row_group_t := parse_struct parse_row_group_field rg_zero.

(** [VALIDATE_COUNT_STATUS] returns from [parquet_parse_file_metadata] with a status. *)
Definition meta_list_field {A} (m : parquet_file_metadata_t) (max size : Z) (f : parser A)
    (store : list A -> parquet_file_metadata_t) : parser (option carquet_status_t * parquet_file_metadata_t) :=
  '(elem_type, count) ← lift thrift_read_list_begin;
  if (count <? 0) || (count >? max) then mret (Some CARQUET_ERROR_INVALID_METADATA, m) else
  l ← array _ count size f; mret (None, store l).

Definition meta_next (m : parser parquet_file_metadata_t) : parser (option carquet_status_t * parquet_file_metadata_t) :=
  x ← m; mret (None, x).

Definition parse_file_metadata_field (type field_id : Z) (m : parquet_file_metadata_t)
    : parser (option carquet_status_t * parquet_file_metadata_t) :=
  status ← lift (gets td_status);
  if negb (is_ok status) then mret (Some status, m) else
  if field_id =? 1 then meta_next (v ← lift thrift_read_i32; mret (m<| fm_version := v |>)) else
  if field_id =? 2 then
    meta_list_field m CARQUET_MAX_SCHEMA_ELEMENTS sizeof_schema_element parse_schema_element (λ l, m<| fm_schema := l |>) else
  if field_id =? 3 then meta_next (v ← lift thrift_read_i64; mret (m<| fm_num_rows := v |>)) else
  if field_id =? 4 then
    meta_list_field m CARQUET_MAX_ROW_GROUPS sizeof_row_group parse_row_group (λ l, m<| fm_row_groups := l |>) else
  if field_id =? 5 then
    meta_list_field m CARQUET_MAX_KEY_VALUE_PAIRS sizeof_key_value parse_key_value (λ l, m<| fm_key_value_metadata := l |>) else
  if field_id =? 6 then meta_next (v ← arena_strdup_thrift; mret (m<| fm_created_by := v |>)) else
  if field_id =? 7 then
    '(elem_type, count) ← lift thrift_read_list_begin;
    if (count <? 0) || (count >? CARQUET_MAX_COLUMNS_PER_RG) then mret (Some CARQUET_ERROR_INVALID_METADATA, m) else
    for_n (Z.to_nat count) (skip elem_type);; mret (None, m<| fm_num_column_orders := count |>)
  else meta_next (skip type;; mret m).

Definition parse_file_metadata_with (data : option (list Z)) (size : Z) (arena : carquet_arena_t) (metadata : parquet_file_metadata_t)
    : option (carquet_status_t * parquet_file_metadata_t * carquet_arena_t) :=
  match data with
  | None => Some (CARQUET_ERROR_INVALID_ARGUMENT, metadata, arena)
  | Some data =>
      '(status, m, _, arena) ←
        (lift thrift_read_struct_begin;;
         '(r, m) ← while_fields parse_file_metadata_field fm_zero;
         match r with
         | Some status => mret (status, m)
         | None => lift thrift_read_struct_end;; status ← lift (gets td_status); mret (status, m)
         end) (thrift_decoder_init data size) arena;
      Some (status, m, arena)
  end.

End Guards.

(** The status, [*metadata] and the arena; [data = None] is NULL. *)
Definition parquet_parse_file_metadata := parse_file_metadata_with (@arena_array) parse_geospatial.

End Footer.

(** ** Page headers *)

Abbreviation header_parser := (pdec ()).

Definition in_union (h : parquet_page_header_t) (store : list Z -> option (list Z)) : header_parser parquet_page_header_t :=
  u ← access (store (ph_union h)); mret (h<| ph_union := u |>).

Definition union_i32 (h : parquet_page_header_t) (off : Z) : header_parser parquet_page_header_t :=
  v ← lift thrift_read_i32; in_union h (λ u, put_i32 u off v).

Definition parse_data_page_header (type field_id : Z) (h : parquet_page_header_t) : header_parser parquet_page_header_t :=
  if field_id =? 1 then union_i32 h 0 else
  if field_id =? 2 then union_i32 h 4 else
  if field_id =? 3 then union_i32 h 8 else
  if field_id =? 4 then union_i32 h 12 else
  if field_id =? 5 then h ← in_union h (λ u, put_bool u 16 true); skip type;; mret h
  else skip type;; mret h.

Definition parse_dictionary_page_header (type field_id : Z) (h : parquet_page_header_t) : header_parser parquet_page_header_t :=
  if field_id =? 1 then union_i32 h 0 else
  if field_id =? 2 then union_i32 h 4 else
  if field_id =? 3 then v ← lift thrift_read_bool; in_union h (λ u, put_bool u 8 v)
  else skip type;; mret h.

Definition parse_data_page_header_v2 (type field_id : Z) (h : parquet_page_header_t) : header_parser parquet_page_header_t :=
  if field_id =? 1 then union_i32 h 0 else
  if field_id =? 2 then union_i32 h 4 else
  if field_id =? 3 then union_i32 h 8 else
  if field_id =? 4 then union_i32 h 12 else
  if field_id =? 5 then union_i32 h 16 else
  if field_id =? 6 then union_i32 h 20 else
  if field_id =? 7 then v ← lift thrift_read_bool; in_union h (λ u, put_bool u 24 v) else
  if field_id =? 8 then h ← in_union h (λ u, put_bool u 25 true); skip type;; mret h
  else skip type;; mret h.

Definition header_next (m : header_parser parquet_page_header_t) : header_parser (option carquet_status_t * parquet_page_header_t) :=
  x ← m; mret (None, x).

Definition parse_page_header_field (type field_id : Z) (h : parquet_page_header_t)
    : header_parser (option carquet_status_t * parquet_page_header_t) :=
  status ← lift (gets td_status);
  if negb (is_ok status) then mret (Some status, h) else
  if field_id =? 1 then header_next (v ← lift thrift_read_i32; mret (h<| ph_type := v |>)) else
  if field_id =? 2 then header_next (v ← lift thrift_read_i32; mret (h<| ph_uncompressed_page_size := v |>)) else
  if field_id =? 3 then header_next (v ← lift thrift_read_i32; mret (h<| ph_compressed_page_size := v |>)) else
  if field_id =? 4 then header_next (v ← lift thrift_read_i32; mret (h<| ph_crc := Some v |>)) else
  if field_id =? 5 then header_next (parse_fields parse_data_page_header h) else
  if field_id =? 7 then header_next (parse_fields parse_dictionary_page_header h) else
  if field_id =? 8 then
    header_next
      (lift thrift_read_struct_begin;;
       h ← in_union h (λ u, put_bool u 24 true);
       '(_, h) ← while_fields (R := ()) (λ t f h, next (parse_data_page_header_v2 t f h)) h;
       lift thrift_read_struct_end;; mret h)
  else header_next (skip type;; mret h).

(** The status, [*header] and [*bytes_read]. *)
Definition parquet_parse_page_header (data : option (list Z)) (size : Z) (header : parquet_page_header_t) (bytes_read : Z)
    : option (carquet_status_t * parquet_page_header_t * Z) :=
  match data with
  | None => Some (CARQUET_ERROR_INVALID_ARGUMENT, header, bytes_read)
  | Some data =>
      '(status, h, dec, _) ←
        (lift thrift_read_struct_begin;;
         '(r, h) ← while_fields parse_page_header_field ph_zero;
         match r with
         | Some status => mret (status, h)
         | None => lift thrift_read_struct_end;; status ← lift (gets td_status); mret (status, h)
         end) (thrift_decoder_init data size) ();
      Some (status, h, if is_ok status then reader_pos (td_reader dec) else 0)
  end.
