(* ===== verification/ParquetWrite.v ===== *)
(** * Writing the Parquet metadata (carquet/thrift/parquet_types.c, writing functions)

    The writers of the file footer and of page headers over the Thrift encoder.  A writer
    is a function from encoder to encoder; [None] is an access outside an object. *)

From S2P Require Import Prelude Status Endian Memory Buffer Arena ThriftDecode ThriftEncode ParquetTypes.
From coqutil Require Import Datatypes.RecordSetters.
Import RecordSetters.TriangleBracketNotations.

Section Writers.
Context {A : Allocator}.

(** ** Sequencing *)

Definition tenc : Type := thrift_encoder_t -> option thrift_encoder_t.

Definition wseq (w1 w2 : tenc) : tenc := λ e, e ← w1 e; w2 e.
#[local] Notation "w1 ;> w2" := (wseq w1 w2) (at level 100, right associativity).

Definition wnop : tenc := Some.
Definition wwhen (b : bool) (w : tenc) : tenc := if b then w else wnop.
Definition wopt {X} (o : option X) (w : X -> tenc) : tenc := match o with Some x => w x | None => wnop end.
Definition wread {X} (o : option X) (w : X -> tenc) : tenc := λ e, x ← o; w x e.
Fixpoint wfor {X} (l : list X) (w : X -> tenc) : tenc := match l with [] => wnop | x :: l => w x ;> wfor l w end.

Definition struct_begin : tenc := thrift_write_struct_begin.
Definition struct_end : tenc := λ e, Some (thrift_write_struct_end e).
Definition write_i16 (v : Z) : tenc := λ e, thrift_write_i16 e v.
Definition write_i32 (v : Z) : tenc := λ e, thrift_write_i32 e v.
Definition write_i64 (v : Z) : tenc := λ e, thrift_write_i64 e v.
Definition write_byte (v : Z) : tenc := λ e, Some (thrift_write_byte e v).
Definition write_double (v : Z) : tenc := λ e, Some (thrift_write_double e v).
Definition write_binary (b : binary) : tenc := λ e, thrift_write_binary e b.1 b.2.
Definition write_list_begin (t n : Z) : tenc := λ e, thrift_write_list_begin e t n.

(** [thrift_write_string] on a pointer: [strlen] stops at the terminator. *)
Definition write_string (s : cstring) : tenc := λ e,
  match s with
  | None => thrift_write_string e None
  | Some m => n ← strlen m; bs ← rd_n m 0 n; thrift_write_string e (Some bs)
  end.

(** A field header and its value; a boolean is its header alone. *)
Definition field (type id : Z) (w : tenc) : tenc := (λ e, thrift_write_field_header e type id) ;> w.
Definition field_bool (id : Z) (b : bool) : tenc := λ e, thrift_write_field_header e (if b then 1 else 2) id.

(** ** Statistics and logical types *)

(** [stats->x && stats->x_len > 0] *)
Definition present (b : binary) : bool := match b.1 with Some _ => b.2 >? 0 | None => false end.

Definition write_statistics (stats : parquet_statistics_t) : tenc :=
  struct_begin ;>
  wwhen (present (st_max_deprecated stats)) (field THRIFT_TYPE_BINARY 1 (write_binary (st_max_deprecated stats))) ;>
  wwhen (present (st_min_deprecated stats)) (field THRIFT_TYPE_BINARY 2 (write_binary (st_min_deprecated stats))) ;>
  wopt (st_null_count stats) (λ v, field THRIFT_TYPE_I64 3 (write_i64 v)) ;>
  wopt (st_distinct_count stats) (λ v, field THRIFT_TYPE_I64 4 (write_i64 v)) ;>
  wwhen (present (st_max_value stats)) (field THRIFT_TYPE_BINARY 5 (write_binary (st_max_value stats))) ;>
  wwhen (present (st_min_value stats)) (field THRIFT_TYPE_BINARY 6 (write_binary (st_min_value stats))) ;>
  wopt (st_is_max_value_exact stats) (field_bool 7) ;>
  wopt (st_is_min_value_exact stats) (field_bool 8) ;>
  struct_end.

Definition write_empty_struct : tenc := struct_begin ;> struct_end.

Definition write_time (lt : carquet_logical_type_t) : tenc :=
  struct_begin ;>
  wread (get_bool (lt_params lt) 4) (field_bool 1) ;>
  field THRIFT_TYPE_STRUCT 2
    (struct_begin ;>
     wread (get_i32 (lt_params lt) 0) (λ unit,
       field THRIFT_TYPE_STRUCT (if unit =? CARQUET_TIME_UNIT_MILLIS then 1 else if unit =? CARQUET_TIME_UNIT_MICROS then 2 else 3)
         write_empty_struct) ;>
     struct_end) ;>
  struct_end.

(** The text of [crs] when it is not empty; [strlen] reads inside the array or not at all. *)
Definition write_crs (lt : carquet_logical_type_t) : tenc :=
  wread (rd (lt_params lt) 0) (λ c,
    wwhen (negb (c =? 0)) (field THRIFT_TYPE_BINARY 1 (write_string (Some (take 128 (lt_params lt)))))).

Definition write_logical_type (lt : carquet_logical_type_t) : tenc :=
  let id := lt_id lt in
  let plain n := field THRIFT_TYPE_STRUCT n write_empty_struct in
  struct_begin ;>
  (if id =? CARQUET_LOGICAL_STRING then plain 1 else
   if id =? CARQUET_LOGICAL_MAP then plain 2 else
   if id =? CARQUET_LOGICAL_LIST then plain 3 else
   if id =? CARQUET_LOGICAL_ENUM then plain 4 else
   if id =? CARQUET_LOGICAL_DECIMAL then
     field THRIFT_TYPE_STRUCT 5
       (struct_begin ;>
        wread (get_i32 (lt_params lt) 4) (λ v, field THRIFT_TYPE_I32 1 (write_i32 v)) ;>
        wread (get_i32 (lt_params lt) 0) (λ v, field THRIFT_TYPE_I32 2 (write_i32 v)) ;>
        struct_end) else
   if id =? CARQUET_LOGICAL_DATE then plain 6 else
   if id =? CARQUET_LOGICAL_TIME then field THRIFT_TYPE_STRUCT 7 (write_time lt) else
   if id =? CARQUET_LOGICAL_TIMESTAMP then field THRIFT_TYPE_STRUCT 8 (write_time lt) else
   if id =? CARQUET_LOGICAL_INTEGER then
     field THRIFT_TYPE_STRUCT 10
       (struct_begin ;>
        wread (get_i8 (lt_params lt) 0) (λ v, field THRIFT_TYPE_BYTE 1 (write_byte v)) ;>
        wread (get_bool (lt_params lt) 1) (field_bool 2) ;>
        struct_end) else
   if id =? CARQUET_LOGICAL_NULL then plain 11 else
   if id =? CARQUET_LOGICAL_JSON then plain 12 else
   if id =? CARQUET_LOGICAL_BSON then plain 13 else
   if id =? CARQUET_LOGICAL_UUID then plain 14 else
   if id =? CARQUET_LOGICAL_FLOAT16 then plain 15 else
   if id =? CARQUET_LOGICAL_VARIANT then
     field THRIFT_TYPE_STRUCT 16
       (struct_begin ;>
        wread (get_i8 (lt_params lt) 0) (λ v, field THRIFT_TYPE_BYTE 1 (write_byte (if v >? 0 then v else 1))) ;>
        struct_end) else
   if id =? CARQUET_LOGICAL_GEOMETRY then
     field THRIFT_TYPE_STRUCT 17 (struct_begin ;> write_crs lt ;> struct_end) else
   if id =? CARQUET_LOGICAL_GEOGRAPHY then
     field THRIFT_TYPE_STRUCT 18
       (struct_begin ;>
        write_crs lt ;>
        wread (get_bool (lt_params lt) 132) (λ has,
          wwhen has (wread (get_i32 (lt_params lt) 128) (λ v, field THRIFT_TYPE_I32 2 (write_i32 v)))) ;>
        struct_end)
   else wnop) ;>
  struct_end.

(** ** Schema elements *)

Definition schema_element_with_logical_compat (elem : parquet_schema_element_t) : option parquet_schema_element_t :=
  match se_logical_type elem with
  | None => Some elem
  | Some lt =>
      ct ← converted_type_from_logical_type lt;
      let e := match ct with Some c => elem<| se_converted_type := Some c |> | None => elem end in
      e ← (if lt_id lt =? CARQUET_LOGICAL_DECIMAL then
             scale ← get_i32 (lt_params lt) 4;
             precision ← get_i32 (lt_params lt) 0;
             Some (e<| se_scale := scale |><| se_precision := precision |>)
           else Some e);
      Some (if lt_id lt =? CARQUET_LOGICAL_INTERVAL then e<| se_logical_type := None |> else e)
  end.

Definition write_schema_element (elem : parquet_schema_element_t) : tenc :=
  wread (schema_element_with_logical_compat elem) (λ e,
    struct_begin ;>
    wopt (se_type e) (λ v, field THRIFT_TYPE_I32 1 (write_i32 v)) ;>
    wwhen (se_type_length e >? 0) (field THRIFT_TYPE_I32 2 (write_i32 (se_type_length e))) ;>
    wopt (se_repetition_type e) (λ v, field THRIFT_TYPE_I32 3 (write_i32 v)) ;>
    wwhen (bool_decide (is_Some (se_name e))) (field THRIFT_TYPE_BINARY 4 (write_string (se_name e))) ;>
    wwhen (se_num_children e >? 0) (field THRIFT_TYPE_I32 5 (write_i32 (se_num_children e))) ;>
    wopt (se_converted_type e) (λ v, field THRIFT_TYPE_I32 6 (write_i32 v)) ;>
    wwhen (negb (se_scale e =? 0)) (field THRIFT_TYPE_I32 7 (write_i32 (se_scale e))) ;>
    wwhen (negb (se_precision e =? 0)) (field THRIFT_TYPE_I32 8 (write_i32 (se_precision e))) ;>
    wopt (se_field_id e) (λ v, field THRIFT_TYPE_I32 9 (write_i32 v)) ;>
    wopt (se_logical_type e) (λ lt,
      wwhen (negb (lt_id lt =? CARQUET_LOGICAL_UNKNOWN)) (field THRIFT_TYPE_STRUCT 10 (write_logical_type lt))) ;>
    struct_end).

(** ** Column metadata *)

Definition write_bounding_box (g : parquet_geospatial_statistics_t) : tenc :=
  struct_begin ;>
  field THRIFT_TYPE_DOUBLE 1 (write_double (geo_xmin g)) ;>
  field THRIFT_TYPE_DOUBLE 2 (write_double (geo_xmax g)) ;>
  field THRIFT_TYPE_DOUBLE 3 (write_double (geo_ymin g)) ;>
  field THRIFT_TYPE_DOUBLE 4 (write_double (geo_ymax g)) ;>
  wwhen (geo_has_z g) (field THRIFT_TYPE_DOUBLE 5 (write_double (geo_zmin g)) ;> field THRIFT_TYPE_DOUBLE 6 (write_double (geo_zmax g))) ;>
  wwhen (geo_has_m g) (field THRIFT_TYPE_DOUBLE 7 (write_double (geo_mmin g)) ;> field THRIFT_TYPE_DOUBLE 8 (write_double (geo_mmax g))) ;>
  struct_end.

Definition write_geospatial (g : parquet_geospatial_statistics_t) : tenc :=
  struct_begin ;>
  wwhen (geo_valid g) (field THRIFT_TYPE_STRUCT 1 (write_bounding_box g)) ;>
  field THRIFT_TYPE_LIST 2
    (write_list_begin THRIFT_TYPE_I32 (geo_num_types g) ;>
     wread (rd_n (geo_types g) 0 (Z.max 0 (geo_num_types g))) (λ l, wfor l write_i32)) ;>
  struct_end.

(** A list field: header, list header, elements. *)
Definition field_list {X} (id elem_type : Z) (l : list X) (w : X -> tenc) : tenc :=
  field THRIFT_TYPE_LIST id (write_list_begin elem_type (lenZ l) ;> wfor l w).

Definition write_column_metadata (meta : parquet_column_metadata_t) : tenc :=
  struct_begin ;>
  field THRIFT_TYPE_I32 1 (write_i32 (cm_type meta)) ;>
  field_list 2 THRIFT_TYPE_I32 (cm_encodings meta) write_i32 ;>
  field_list 3 THRIFT_TYPE_BINARY (cm_path_in_schema meta) write_string ;>
  field THRIFT_TYPE_I32 4 (write_i32 (cm_codec meta)) ;>
  field THRIFT_TYPE_I64 5 (write_i64 (cm_num_values meta)) ;>
  field THRIFT_TYPE_I64 6 (write_i64 (cm_total_uncompressed_size meta)) ;>
  field THRIFT_TYPE_I64 7 (write_i64 (cm_total_compressed_size meta)) ;>
  field THRIFT_TYPE_I64 9 (write_i64 (cm_data_page_offset meta)) ;>
  wopt (cm_index_page_offset meta) (λ v, field THRIFT_TYPE_I64 10 (write_i64 v)) ;>
  wopt (cm_dictionary_page_offset meta) (λ v, field THRIFT_TYPE_I64 11 (write_i64 v)) ;>
  wopt (cm_statistics meta) (λ s, field THRIFT_TYPE_STRUCT 12 (write_statistics s)) ;>
  wopt (cm_bloom_filter_offset meta) (λ v, field THRIFT_TYPE_I64 14 (write_i64 v)) ;>
  wopt (cm_bloom_filter_length meta) (λ v, field THRIFT_TYPE_I32 15 (write_i32 v)) ;>
  wopt (cm_geospatial_statistics meta) (λ g, field THRIFT_TYPE_STRUCT 17 (write_geospatial g)) ;>
  struct_end.

Definition write_column_chunk (chunk : parquet_column_chunk_t) : tenc :=
  struct_begin ;>
  wwhen (bool_decide (is_Some (cc_file_path chunk))) (field THRIFT_TYPE_BINARY 1 (write_string (cc_file_path chunk))) ;>
  field THRIFT_TYPE_I64 2 (write_i64 (cc_file_offset chunk)) ;>
  wopt (cc_metadata chunk) (λ m, field THRIFT_TYPE_STRUCT 3 (write_column_metadata m)) ;>
  wopt (cc_offset_index_offset chunk) (λ v, field THRIFT_TYPE_I64 4 (write_i64 v)) ;>
  wopt (cc_offset_index_length chunk) (λ v, field THRIFT_TYPE_I32 5 (write_i32 v)) ;>
  wopt (cc_column_index_offset chunk) (λ v, field THRIFT_TYPE_I64 6 (write_i64 v)) ;>
  wopt (cc_column_index_length chunk) (λ v, field THRIFT_TYPE_I32 7 (write_i32 v)) ;>
  struct_end.

(** ** Row groups and the footer *)

Definition write_sorting_column (sc : parquet_sorting_column_t) : tenc :=
  struct_begin ;>
  field THRIFT_TYPE_I32 1 (write_i32 (sc_column_idx sc)) ;>
  field_bool 2 (sc_descending sc) ;>
  field_bool 3 (sc_nulls_first sc) ;>
  struct_end.

Definition write_row_group (rg : parquet_row_group_t) : tenc :=
  struct_begin ;>
  field_list 1 THRIFT_TYPE_STRUCT (rg_columns rg) write_column_chunk ;>
  field THRIFT_TYPE_I64 2 (write_i64 (rg_total_byte_size rg)) ;>
  field THRIFT_TYPE_I64 3 (write_i64 (rg_num_rows rg)) ;>
  wwhen (0 <? lenZ (rg_sorting_columns rg)) (field_list 4 THRIFT_TYPE_STRUCT (rg_sorting_columns rg) write_sorting_column) ;>
  wopt (rg_file_offset rg) (λ v, field THRIFT_TYPE_I64 5 (write_i64 v)) ;>
  wopt (rg_total_compressed_size rg) (λ v, field THRIFT_TYPE_I64 6 (write_i64 v)) ;>
  wopt (rg_ordinal rg) (λ v, field THRIFT_TYPE_I16 7 (write_i16 v)) ;>
  struct_end.

Definition write_key_value (kv : parquet_key_value_t) : tenc :=
  struct_begin ;>
  field THRIFT_TYPE_BINARY 1 (write_string (kv_key kv)) ;>
  wwhen (bool_decide (is_Some (kv_value kv))) (field THRIFT_TYPE_BINARY 2 (write_string (kv_value kv))) ;>
  struct_end.

Definition write_column_order_type_defined : tenc :=
  struct_begin ;> field THRIFT_TYPE_STRUCT 1 write_empty_struct ;> struct_end.

Definition write_file_metadata (metadata : parquet_file_metadata_t) : tenc :=
  struct_begin ;>
  field THRIFT_TYPE_I32 1 (write_i32 (fm_version metadata)) ;>
  field_list 2 THRIFT_TYPE_STRUCT (fm_schema metadata) write_schema_element ;>
  field THRIFT_TYPE_I64 3 (write_i64 (fm_num_rows metadata)) ;>
  field_list 4 THRIFT_TYPE_STRUCT (fm_row_groups metadata) write_row_group ;>
  wwhen (0 <? lenZ (fm_key_value_metadata metadata)) (field_list 5 THRIFT_TYPE_STRUCT (fm_key_value_metadata metadata) write_key_value) ;>
  wwhen (bool_decide (is_Some (fm_created_by metadata))) (field THRIFT_TYPE_BINARY 6 (write_string (fm_created_by metadata))) ;>
  wwhen (fm_num_column_orders metadata >? 0)
    (field_list 7 THRIFT_TYPE_STRUCT (replicate (Z.to_nat (fm_num_column_orders metadata)) ()) (λ _, write_column_order_type_defined)) ;>
  struct_end.

(** The status and the buffer. *)
Definition finish (e : thrift_encoder_t) : carquet_status_t * carquet_buffer_t := (te_status e, te_buffer e).

Definition parquet_write_file_metadata (metadata : parquet_file_metadata_t) (buffer : carquet_buffer_t)
    : option (carquet_status_t * carquet_buffer_t) :=
  finish <$> write_file_metadata metadata (thrift_encoder_init buffer).

(** ** Page headers *)

Definition union_field (h : parquet_page_header_t) (id off : Z) : tenc :=
  wread (get_i32 (ph_union h) off) (λ v, field THRIFT_TYPE_I32 id (write_i32 v)).

Definition write_data_page_header (h : parquet_page_header_t) (statistics : parquet_statistics_t) : tenc :=
  struct_begin ;>
  union_field h 1 0 ;> union_field h 2 4 ;> union_field h 3 8 ;> union_field h 4 12 ;>
  wread (get_bool (ph_union h) 16) (λ has, wwhen has (field THRIFT_TYPE_STRUCT 5 (write_statistics statistics))) ;>
  struct_end.

Definition write_data_page_header_v2 (h : parquet_page_header_t) : tenc :=
  struct_begin ;>
  union_field h 1 0 ;> union_field h 2 4 ;> union_field h 3 8 ;> union_field h 4 12 ;> union_field h 5 16 ;> union_field h 6 20 ;>
  wread (get_bool (ph_union h) 24) (field_bool 7) ;>
  struct_end.

Definition write_dictionary_page_header (h : parquet_page_header_t) : tenc :=
  struct_begin ;>
  union_field h 1 0 ;> union_field h 2 4 ;>
  wread (get_bool (ph_union h) 8) (field_bool 3) ;>
  struct_end.

Definition write_page_header (h : parquet_page_header_t) (statistics : parquet_statistics_t) : tenc :=
  struct_begin ;>
  field THRIFT_TYPE_I32 1 (write_i32 (ph_type h)) ;>
  field THRIFT_TYPE_I32 2 (write_i32 (ph_uncompressed_page_size h)) ;>
  field THRIFT_TYPE_I32 3 (write_i32 (ph_compressed_page_size h)) ;>
  wopt (ph_crc h) (λ v, field THRIFT_TYPE_I32 4 (write_i32 v)) ;>
  (if ph_type h =? CARQUET_PAGE_DATA then field THRIFT_TYPE_STRUCT 5 (write_data_page_header h statistics) else
   if ph_type h =? CARQUET_PAGE_DATA_V2 then field THRIFT_TYPE_STRUCT 8 (write_data_page_header_v2 h) else
   if ph_type h =? CARQUET_PAGE_DICTIONARY then field THRIFT_TYPE_STRUCT 7 (write_dictionary_page_header h)
   else wnop) ;>
  struct_end.

(** [statistics] is [header->data_page_header.statistics]. *)
Definition parquet_write_page_header (header : parquet_page_header_t) (statistics : parquet_statistics_t) (buffer : carquet_buffer_t)
    : option (carquet_status_t * carquet_buffer_t) :=
  finish <$> write_page_header header statistics (thrift_encoder_init buffer).

End Writers.
