(* ===== verification/ParquetSafe.v ===== *)
(** * Parsing the Parquet metadata: arbitrary bytes

    A page header parses in bounds whatever the bytes.  The footer parser has two places
    where a file or a full memory makes it leave its objects: an array that could not be
    allocated, and a list of geometry type codes given twice.  With a check in those two
    places it is total, and the parser of the code does exactly the same on every footer
    that the checked one accepts. *)

From S2P Require Import Prelude Status Endian Memory Buffer Arena ThriftDecode ThriftRoundtrip ThriftParse ParquetTypes ParquetParse.
From stdpp Require Import strings.
From coqutil Require Import Datatypes.RecordSetters.
Import RecordSetters.TriangleBracketNotations.

#[local] Open Scope Z_scope.

(** ** The readers *)

Lemma runs_read_i32 : runs thrift_read_i32 1 (in_i 32).
Proof. eapply runs_then; [lia|apply runs_read_zigzag|]. intros. apply wrap_signed_range. lia. Qed.

Lemma runs_read_byte : runs thrift_read_byte 1 (in_i 8).
Proof. eapply runs_then; [lia|apply runs_read_byte_raw|]. intros. apply wrap_signed_range. lia. Qed.

Lemma runs_read_bool : runs thrift_read_bool 0 (λ _, True).
Proof.
  unfold thrift_read_bool. apply (runs_bind _ _ 0 0 (λ _, True)); [lia|lia|apply runs_gets|]. intros pending _.
  apply runs_if; intros _.
  - apply (runs_bind _ _ 0 0 (λ _, True)); [lia|lia|apply runs_gets|]. intros v _.
    apply (runs_bind _ _ 0 0 (λ _, True)); [lia|lia| |intros _ _; by apply runs_ret].
    intros d W. eexists _, _. split; [done|]. split; [by apply set_bool_step|done].
  - apply (runs_weaken _ 1 0 (λ _, True)); [|lia|done]. eapply runs_then; [lia|apply runs_read_byte_raw|done].
Qed.

Lemma runs_read_double : runs thrift_read_double 0 (λ _, True).
Proof.
  intros d W. unfold thrift_read_double. unfold mbind at 1, tdec_bind at 1. rewrite has_bytes_spec by (done || lia).
  destruct (W) as [(? & ? & ?) _ _ _ _]. destruct (Z.leb_spec (td_pos d + 8) (reader_size (td_reader d))); cbn [negb].
  - unfold checked, carquet_read_f64_le, carquet_read_u64_le, carquet_buffer_reader_peek. unfold mbind at 1, tdec_bind at 1.
    rewrite rd_n_Some by (rewrite ?length_ptr_add; lia). cbn [fmap option_fmap option_map mbind option_bind].
    destruct (runs_skip_raw 8 ltac:(lia) d W) as ([] & d' & E & S & _). exists (le_val (take (Z.to_nat 8) (drop (Z.to_nat 0) (ptr_add (reader_data (td_reader d)) (td_pos d))))), d'. unfold mbind, tdec_bind. rewrite E. done.
  - destruct (runs_error_ret CARQUET_ERROR_THRIFT_TRUNCATED "Truncated double" 0 0 (λ _, True) eq_refl ltac:(lia) I d W) as (x & d' & E & S & _).
    exists x, d'. done.
Qed.

(** A pointer comes with that many readable bytes. *)
Definition binary_ok (x : option (list Z) * Z) : Prop :=
  match x.1 with None => x.2 = 0 | Some p => 0 <= x.2 < 2 ^ 31 /\ x.2 <= lenZ p /\ bytes_ok p end.

Lemma runs_read_binary_ok : runs thrift_read_binary 1 binary_ok.
Proof.
  unfold thrift_read_binary. apply (runs_bind _ _ 1 0 (in_u 64)); [lia|lia|apply runs_read_varint|]. intros v Hv.
  apply runs_if; intros E; [by apply runs_error_ret|].
  assert (in_i 32 (i32 v)) as R by (apply wrap_signed_range; lia). unfold in_i in R.
  intros d W. unfold mbind at 1, tdec_bind at 1. rewrite has_bytes_spec by (done || lia).
  destruct (Z.leb_spec (td_pos d + i32 v) (reader_size (td_reader d))) as [Hr|Hr]; cbn [negb].
  - unfold mbind at 1, tdec_bind at 1, gets. destruct (runs_skip_raw (i32 v) ltac:(lia) d W) as ([] & d' & E' & S & _).
    exists (Some (carquet_buffer_reader_peek (td_reader d)), i32 v), d'. unfold mbind, tdec_bind. rewrite E'. split; [done|]. split; [done|].
    destruct (W) as [(? & ? & ?) Wb _ _ _]. cbn. split; [lia|]. unfold carquet_buffer_reader_peek. rewrite length_ptr_add by lia. split; [lia|auto with bytes].
  - apply (runs_error_ret _ _ _ _ binary_ok); (done || lia).
Qed.

(** ** The pieces of a parser *)

Section Pieces.
Context {St : Type} (I : St -> Prop).
Abbreviation any := (λ _, True).

Lemma sim_read_i16 : sim I (lift thrift_read_i16) (lift thrift_read_i16) any.
Proof. by eapply (sim_lift I _ 1); [lia|apply runs_read_i16|]. Qed.
Lemma sim_read_i32 : sim I (lift thrift_read_i32) (lift thrift_read_i32) any.
Proof. by eapply (sim_lift I _ 1); [lia|apply runs_read_i32|]. Qed.
Lemma sim_read_i64 : sim I (lift thrift_read_i64) (lift thrift_read_i64) any.
Proof. by eapply (sim_lift I _ 1); [lia|apply runs_read_zigzag|]. Qed.
Lemma sim_read_byte : sim I (lift thrift_read_byte) (lift thrift_read_byte) any.
Proof. by eapply (sim_lift I _ 1); [lia|apply runs_read_byte|]. Qed.
Lemma sim_read_bool : sim I (lift thrift_read_bool) (lift thrift_read_bool) any.
Proof. by eapply (sim_lift I _ 0); [lia|apply runs_read_bool|]. Qed.
Lemma sim_read_double : sim I (lift thrift_read_double) (lift thrift_read_double) any.
Proof. by eapply (sim_lift I _ 0); [lia|apply runs_read_double|]. Qed.
Lemma sim_read_list_begin : sim I (lift thrift_read_list_begin) (lift thrift_read_list_begin) any.
Proof. by eapply (sim_lift I _ 1); [lia|apply runs_read_list_begin|]. Qed.
Lemma sim_read_binary : sim I (lift thrift_read_binary) (lift thrift_read_binary) binary_ok.
Proof. by eapply (sim_lift I _ 1); [lia|apply runs_read_binary_ok|]. Qed.

(** [status] is that of the decoder. *)
Lemma sim_status {A} (f1 f2 : carquet_status_t -> pdec St A) Q :
  (forall st, sim I (f1 st) (f2 st) Q) -> sim I (st ← lift (gets td_status); f1 st) (st ← lift (gets td_status); f2 st) Q.
Proof. intros H d s W HI. exact (H (td_status d) d s W HI). Qed.

End Pieces.

#[export] Hint Resolve sim_read_i16 sim_read_i32 sim_read_i64 sim_read_byte sim_read_bool sim_read_double : parse_runs.

(** Straight-line parser code whose result is unconstrained. *)
Ltac sim_steps :=
  repeat lazymatch goal with
    | |- sim _ (if _ then _ else _) _ _ => apply sim_if; intros ?
    | |- sim _ (next _) _ _ => apply sim_next
    | |- sim _ (mret _) _ _ => apply sim_ret; solve [done | auto]
    | |- sim _ (_ ≫= _) _ _ => eapply sim_bind; [solve [eauto with parse_runs]|intros ? ?]
    | |- sim _ _ _ _ => solve [eauto with parse_runs]
    end.

(** ** The unions stay whole *)

Definition keeps (n : nat) (store : list Z -> option (list Z)) : Prop :=
  forall u, length u = n -> exists u', store u = Some u' /\ length u' = n.

Lemma keeps_wr_n n off bs : 0 <= off -> off + lenZ bs <= Z.of_nat n -> keeps n (λ u, wr_n u off bs).
Proof.
  intros ? ? u Hu. destruct (wr_n_total u off bs) as [u' E]; [done|lia|]. exists u'. split; [done|]. by rewrite (length_wr_n _ _ _ _ E).
Qed.

Lemma keeps_put_i32 n off v : 0 <= off -> off + 4 <= Z.of_nat n -> keeps n (λ u, put_i32 u off v).
Proof. intros. by apply keeps_wr_n. Qed.

Lemma keeps_wr n off v : 0 <= off < Z.of_nat n -> keeps n (λ u, wr u off v).
Proof. intros ? u Hu. rewrite wr_as_wr_n. apply (keeps_wr_n n off [v]); [lia|cbn; lia|done]. Qed.

#[export] Hint Extern 2 (keeps _ _) => (first [apply keeps_put_i32; lia | apply keeps_wr; lia]) : parse_runs.

Section Logical.
Context {St : Type} (I : St -> Prop).

Definition lt_whole (lt : carquet_logical_type_t) : Prop := length (lt_params lt) = 136%nat.

Lemma sim_in_params lt store : lt_whole lt -> keeps 136 store -> sim I (in_params lt store) (in_params lt store) lt_whole.
Proof.
  intros Hl Hk. destruct (Hk _ Hl) as (u & E & Hu). eapply (sim_bind _ _ _ _ _ (λ p, length p = 136%nat)).
  - apply sim_access. eauto.
  - intros p Hp. by apply sim_ret.
Qed.
Hint Resolve sim_in_params : parse_runs.

Ltac params := intros ? ? ? ?; sim_steps.

Lemma sim_parse_crs lt : lt_whole lt -> sim I (parse_crs lt) (parse_crs lt) lt_whole.
Proof.
  intros Hl. unfold parse_crs. eapply sim_bind; [apply sim_read_binary|]. intros [[p|] len] H; [|by apply sim_ret].
  destruct H as [H1 H2]. cbn [fst snd] in *. unfold CARQUET_GEOSPATIAL_CRS_MAX. apply sim_if; intros E; [|by apply sim_ret].
  set (n := if len <? 128 - 1 then len else 128 - 1). assert (0 <= n <= 127 /\ n <= lenZ p) as [Hn Hp] by (unfold n; case_bool; lia).
  eapply (sim_bind _ _ _ _ _ (λ bs, lenZ bs = n)).
  - apply sim_access. destruct (rd_n_total p 0 n) as (l & El & Hlen); [lia|lia|lia|]. eauto.
  - intros bs Hbs. eapply sim_bind; [apply sim_in_params; [done|apply keeps_wr_n; lia]|]. intros lt' Hl'.
    apply sim_in_params; [done|apply keeps_wr; lia].
Qed.
Hint Resolve sim_parse_crs : parse_runs.

Lemma sim_parse_unit lt : lt_whole lt -> sim I (parse_fields parse_unit lt) (parse_fields parse_unit lt) lt_whole.
Proof.
  intros Hl. apply sim_parse_fields; [|done]. clear lt Hl. intros t f lt Hl. unfold parse_unit.
  eapply (sim_bind _ _ _ _ _ lt_whole); [sim_steps|]. intros lt' Hl'. sim_steps.
Qed.
Hint Resolve sim_parse_unit : parse_runs.

Lemma sim_parse_logical_type : sim I parse_logical_type parse_logical_type lt_whole.
Proof.
  assert (forall b lt, (forall t f lt, lt_whole lt -> sim I (b t f lt) (b t f lt) lt_whole) -> lt_whole lt ->
    sim I (parse_fields b lt) (parse_fields b lt) lt_whole) as F by (intros; by apply sim_parse_fields).
  apply sim_parse_fields; [|done]. intros t f lt Hl. unfold parse_logical_field.
  repeat (apply sim_if; intros _; [first [solve [sim_steps] | solve [apply F; [unfold parse_decimal, parse_time, parse_integer, parse_geometry, parse_geography; params|done]] | idtac]|]).
  - eapply sim_bind; [apply (sim_in_params (with_id CARQUET_LOGICAL_VARIANT lt)); [done|auto with parse_runs]|]. intros lt' Hl'.
    apply F; [|done]. unfold parse_variant. params.
  - sim_steps.
Qed.

End Logical.

(** ** Page headers *)

Section PageHeader.
Abbreviation any := (λ _ : (), True).
Abbreviation hruns m Q := (sim any m m Q).

Definition ph_whole (h : parquet_page_header_t) : Prop := length (ph_union h) = 32%nat.

Lemma sim_in_union h store : ph_whole h -> keeps 32 store -> hruns (in_union h store) ph_whole.
Proof.
  intros Hl Hk. destruct (Hk _ Hl) as (u & E & Hu). eapply (sim_bind _ _ _ _ _ (λ p, length p = 32%nat)).
  - apply sim_access. eauto.
  - intros p Hp. by apply sim_ret.
Qed.

Lemma sim_union_i32 h off : ph_whole h -> 0 <= off <= 28 -> hruns (union_i32 h off) ph_whole.
Proof.
  intros Hh Ho. eapply sim_bind; [apply sim_read_i32|]. intros v _. apply sim_in_union; [done|]. apply keeps_put_i32; lia.
Qed.
Hint Resolve sim_in_union : parse_runs.
Hint Extern 3 (sim _ (union_i32 _ _) _ _) => (apply sim_union_i32; [assumption|lia]) : parse_runs.

Lemma sim_data_page_header h : ph_whole h -> hruns (parse_fields parse_data_page_header h) ph_whole.
Proof. intros Hh. apply sim_parse_fields; [|done]. intros ? ? ? ?. unfold parse_data_page_header. sim_steps. Qed.

Lemma sim_dictionary_page_header h : ph_whole h -> hruns (parse_fields parse_dictionary_page_header h) ph_whole.
Proof. intros Hh. apply sim_parse_fields; [|done]. intros ? ? ? ?. unfold parse_dictionary_page_header. sim_steps. Qed.

Lemma sim_data_page_header_v2 h : ph_whole h ->
  hruns (lift thrift_read_struct_begin;;
         h ← in_union h (λ u, put_bool u 24 true);
         '(_, h) ← while_fields (R := ()) (λ t f h, next (parse_data_page_header_v2 t f h)) h;
         lift thrift_read_struct_end;; mret h) ph_whole.
Proof.
  intros Hh. eapply sim_bind; [apply sim_struct_begin|]. intros _ _.
  eapply sim_bind; [apply sim_in_union; [done|auto with parse_runs]|]. intros h' Hh'.
  eapply sim_bind; [apply (sim_while_fields any _ _ (λ r : option () * _, ph_whole r.2)); [|done]|].
  - intros ? ? ? ?. apply sim_next. unfold parse_data_page_header_v2. cbn [snd] in *. sim_steps.
  - intros [r h2] H2. cbn [snd] in H2. sim_steps.
Qed.
Hint Resolve sim_data_page_header sim_dictionary_page_header sim_data_page_header_v2 : parse_runs.

(** A result other than [None] is a failure. *)
Definition header_state (r : option carquet_status_t * parquet_page_header_t) : Prop :=
  ph_whole r.2 /\ forall st, r.1 = Some st -> is_ok st = false.

Lemma sim_header_next m : hruns m ph_whole -> hruns (header_next m) header_state.
Proof. intros H. eapply sim_bind; [exact H|]. intros x Hx. by apply sim_ret. Qed.

Lemma sim_page_header_field t f h : ph_whole h -> hruns (parse_page_header_field t f h) header_state.
Proof.
  intros Hh. unfold parse_page_header_field. apply sim_status. intros st. destruct (is_ok st) eqn:Est; cbn [negb].
  2:{ apply sim_ret. split; [done|]. by intros ? [= <-]. }
  repeat (apply sim_if; intros _; [apply sim_header_next; first [solve [eauto with parse_runs] | sim_steps]|]). apply sim_header_next. sim_steps.
Qed.

Lemma page_header_total data size h0 n0 : bytes_ok data -> 0 <= size <= lenZ data -> size < 2 ^ 63 ->
  exists status h n, parquet_parse_page_header (Some data) size h0 n0 = Some (status, h, n) /\ 0 <= n <= size /\ ph_whole h.
Proof.
  intros Hb Hs Hs'. pose proof (thrift_decoder_init_wf data size Hb Hs Hs') as W. unfold parquet_parse_page_header.
  set (m := lift thrift_read_struct_begin ≫= _ : header_parser (carquet_status_t * parquet_page_header_t)).
  assert (hruns m (λ r, ph_whole r.2)) as H.
  { eapply sim_bind; [apply sim_struct_begin|]. intros _ _.
    eapply sim_bind; [apply (sim_while_fields any _ _ header_state); [|done]|].
    - intros t f h [Hh _]. by apply sim_page_header_field.
    - intros [[st|] h] [Hh _]; [by apply sim_ret|]. eapply sim_bind; [apply sim_struct_end|]. intros _ _.
      apply sim_status. intros st. by apply sim_ret. }
  destruct (H _ () W I) as ([st h] & d & [] & E & S & _ & Hh & _). rewrite E. cbn [mbind option_bind].
  eexists st, h, _. split; [done|]. split; [|done]. destruct S as [[(? & ? & ?) _ _ _ _] _ HS HP _]. cbn in HS, HP.
  destruct (is_ok st); [|lia]. rewrite HS in *. lia.
Qed.

End PageHeader.

(** C28: page headers parse safely.  Whatever bytes the page starts with, truncated,
    corrupt or hostile, the parser of page headers returns: it ends, it never reads
    outside the input nor writes outside the header (whose union keeps its size even when
    a file names several kinds of header), and the number of bytes it reports is within
    the input. *)
Theorem page_header_parse_safe data size h0 n0 : bytes_ok data -> 0 <= size <= lenZ data -> size < 2 ^ 63 ->
  exists status h n, parquet_parse_page_header (Some data) size h0 n0 = Some (status, h, n) /\
    0 <= n <= size /\ length (ph_union h) = 32%nat.
Proof. apply page_header_total. Qed.

Lemma page_header_parse_safe_witness :
  let data := [0x15; 0; 0x15; 8; 0x15; 8; 0x2C; 0x15; 4; 0x15; 0; 0x15; 6; 0x15; 6; 0; 0; 255] in
  exists status h n, parquet_parse_page_header (Some data) 18 ph_zero 0 = Some (status, h, n) /\ 0 <= n <= 18.
Proof.
  intros data. destruct (page_header_parse_safe data 18 ph_zero 0) as (st & h & n & E & Hn & _).
  - apply (bool_decide_unpack _). vm_compute. exact I.
  - cbn. lia.
  - lia.
  - exists st, h, n. split; [exact E|exact Hn].
Defined.

(** ** The footer *)

Lemma string_length_total max_len : forall str, (max_len <= length str)%nat ->
  exists n, string_length max_len str = Some n /\ 0 <= n <= Z.of_nat max_len.
Proof.
  induction max_len as [|m IH]; intros [|c str] H; cbn [string_length length] in *; try (eexists; split; [done|lia]); [lia|].
  destruct (c =? 0); [eexists; split; [done|lia]|]. destruct (IH str ltac:(lia)) as (n & -> & ?). eexists. split; [done|lia].
Qed.

Section Footer.
Context {Sp : AddressSpace}.
Abbreviation any := arena_ready.
Abbreviation fruns m Q := (sim any m m Q).

Lemma sim_on_state {A} (f : carquet_arena_t -> option (A * carquet_arena_t)) :
  (forall a, arena_ready a -> exists r a', f a = Some (r, a') /\ arena_ready a') -> fruns (on_state f) (λ _, True).
Proof.
  intros H. apply pruns_intro. intros d a W R. destruct (H a R) as (x & a' & E & R'). exists x, d, a'. unfold on_state. rewrite E.
  split; [done|]. split; [by apply td_step_refl|done].
Qed.

Lemma strndup_total p len a : 0 <= len <= lenZ p -> arena_ready a -> exists r a', carquet_arena_strndup a (Some p) len = Some (r, a') /\ arena_ready a'.
Proof.
  intros H R. unfold carquet_arena_strndup. destruct (string_length_total (Z.to_nat len) p) as (n & -> & Hn); [lia|]. cbn [mbind option_bind].
  rewrite rd_n_Some by lia. cbn [mbind option_bind]. destruct (stored_ready a (u64 (n + 1)) 1 (take (Z.to_nat n) (drop (Z.to_nat 0) p) ++ [0]) R) as (r & a' & E & R' & _). by exists r, a'.
Qed.

Lemma memdup_total p len a : 0 <= len <= lenZ p -> arena_ready a -> exists r a', carquet_arena_memdup a (Some p) len = Some (r, a') /\ arena_ready a'.
Proof.
  intros H R. unfold carquet_arena_memdup. destruct (len =? 0); [by exists None, a|]. rewrite rd_n_Some by lia. cbn [mbind option_bind].
  destruct (stored_ready a len CARQUET_ARENA_ALIGNMENT (take (Z.to_nat len) (drop (Z.to_nat 0) p)) R) as (r & a' & E & R' & _). by exists r, a'.
Qed.

Lemma sim_arena_strdup : fruns arena_strdup_thrift (λ _, True).
Proof.
  eapply sim_bind; [apply sim_read_binary|]. intros [[p|] len] H; cbn in H.
  - eapply sim_bind; [apply sim_on_state; intros a; apply strndup_total; lia|]. intros r _. by apply sim_ret.
  - apply sim_if; intros _; [|by apply sim_ret]. eapply sim_bind; [apply sim_on_state; intros a R; exact (strndup_total [0] 0 a ltac:(cbn; lia) R)|]. intros r _. by apply sim_ret.
Qed.

Lemma sim_arena_bindup : fruns arena_bindup_thrift (λ _, True).
Proof.
  eapply sim_bind; [apply sim_read_binary|]. intros [[p|] len] H; cbn in H; [|by apply sim_ret].
  destruct (Z.eqb_spec len 0); [by apply sim_ret|].
  eapply sim_bind; [|intros r _; by apply sim_ret]. apply sim_on_state. intros a. apply memdup_total; lia.
Qed.

(** The array, refused when it could not be allocated. *)
Definition checked_array A (count size : Z) (f : pdec carquet_arena_t A) : pdec carquet_arena_t (list A) :=
  r ← on_state (λ a, carquet_arena_calloc a count size);
  match r with
  | None => if count >? 0 then lift (set_error CARQUET_ERROR_OUT_OF_MEMORY "Out of memory");; mret [] else mret []
  | Some _ => for_n (Z.to_nat count) f
  end.

Lemma sim_array {A} count size (f1 f2 : pdec carquet_arena_t A) Q : sim any f1 f2 Q ->
  sim any (arena_array count size f1) (checked_array A count size f2) (λ l, lenZ l <= Z.max 0 count).
Proof.
  intros Hf. eapply sim_bind; [apply sim_on_state; intros a; by apply calloc_ready|]. intros [r|] _.
  { eapply sim_weaken; [by apply sim_for_n|]. cbn. intros l [-> _]. lia. }
  apply sim_if; intros _; [|apply sim_ret; cbn; lia].
  intros d a W R. destruct (runs_error CARQUET_ERROR_OUT_OF_MEMORY "Out of memory" 1 eq_refl d W) as ([] & d' & E & S & _).
  exists [], d', a. unfold mbind, pdec_bind, lift. rewrite E. split; [done|]. split; [by apply (td_step_weaken 1)|].
  split; [done|]. split; [cbn; lia|]. right. split; [done|]. unfold set_error, modify in E. injection E as <-.
  by destruct (is_ok (td_status d)) eqn:Ed.
Qed.

(** The type codes, refused when there are more than fit. *)
Fixpoint checked_geo_types (n : nat) (i : Z) (g : parquet_geospatial_statistics_t) : pdec carquet_arena_t parquet_geospatial_statistics_t :=
  match n with
  | O => mret g
  | S n =>
      code ← lift thrift_read_i32;
      g ← (if i <? CARQUET_GEO_MAX_TYPES then
             if geo_num_types g <? CARQUET_GEO_MAX_TYPES then
               types ← access (wr (geo_types g) (geo_num_types g) code);
               mret (g<| geo_types := types |><| geo_num_types := i32 (geo_num_types g + 1) |>)
             else lift (set_error CARQUET_ERROR_THRIFT_DECODE "Too many geospatial types");; mret g
           else mret g);
      checked_geo_types n (i + 1) g
  end.

Definition checked_geospatial_field (type field_id : Z) (g : parquet_geospatial_statistics_t) : pdec carquet_arena_t parquet_geospatial_statistics_t :=
  if field_id =? 1 then parse_fields parse_bounding_box g else
  if field_id =? 2 then '(_, cnt) ← lift thrift_read_list_begin; checked_geo_types (Z.to_nat cnt) 0 g
  else skip type;; mret g.

Definition checked_geospatial : pdec carquet_arena_t parquet_geospatial_statistics_t := parse_fields checked_geospatial_field geo_zero.

Definition geo_ok (g : parquet_geospatial_statistics_t) : Prop := length (geo_types g) = 64%nat /\ 0 <= geo_num_types g <= 64.

Lemma sim_geo_types n : forall i g, geo_ok g -> sim any (parse_geo_types n i g) (checked_geo_types n i g) geo_ok.
Proof.
  induction n as [|n IH]; intros i g [Hl Hn]; cbn [parse_geo_types checked_geo_types]; [by apply sim_ret|].
  eapply sim_bind; [apply sim_read_i32|]. intros code _. eapply (sim_bind _ _ _ _ _ geo_ok); [|intros g' Hg'; by apply IH].
  apply sim_if; intros _; [|by apply sim_ret]. unfold CARQUET_GEO_MAX_TYPES. destruct (Z.ltb_spec (geo_num_types g) 64).
  - eapply (sim_bind _ _ _ _ _ (λ l, length l = 64%nat)).
    + apply sim_access. rewrite wr_Some by lia. eexists. split; [done|]. by rewrite length_insert.
    + intros l Hl'. apply sim_ret. split; [done|]. cbn. unfold i32. rewrite wrap_signed_small; [|lia|unfold in_i; lia]. unfold constant. lia.
  - intros d a W R. destruct (runs_error CARQUET_ERROR_THRIFT_DECODE "Too many geospatial types" 1 eq_refl d W) as ([] & d' & E & S & _).
    exists g, d', a. unfold mbind at 1, pdec_bind at 1, lift. rewrite E. split; [done|]. split; [by apply (td_step_weaken 1)|].
    split; [done|]. split; [done|]. right. split.
    + unfold access. unfold mbind at 1, pdec_bind at 1. assert (wr (geo_types g) (geo_num_types g) code = None) as ->; [|done].
      unfold wr. by decide_bool.
    + unfold set_error, modify in E. injection E as <-. by destruct (is_ok (td_status d)) eqn:Ed.
Qed.

Lemma sim_geospatial : sim any parse_geospatial checked_geospatial (λ _, True).
Proof.
  eapply (sim_weaken _ _ _ geo_ok); [|done]. apply sim_parse_fields; [|split; cbn; (done || lia)].
  intros t f g Hg. unfold parse_geospatial_field, checked_geospatial_field. apply sim_if; intros _; [|apply sim_if; intros _].
  - apply sim_parse_fields; [|done]. intros ? ? ? Hg'. eapply sim_bind; [apply sim_read_double|]. intros v _. apply sim_ret.
    repeat case_match; done.
  - eapply sim_bind; [apply sim_read_list_begin|]. intros [? cnt] _. by apply sim_geo_types.
  - sim_steps.
Qed.

Hint Resolve sim_arena_strdup sim_arena_bindup sim_geospatial : parse_runs.

Lemma sim_statistics : fruns parse_statistics (λ _, True).
Proof. apply sim_parse_fields; [|done]. intros ? ? ? ?. unfold parse_statistics_field. sim_steps. Qed.

Lemma sim_key_value : fruns parse_key_value (λ _, True).
Proof. apply sim_parse_fields; [|done]. intros ? ? ? ?. unfold parse_key_value_field. sim_steps. Qed.

Lemma sim_encoding_stats : fruns (parse_fields parse_encoding_stats_field es_zero) (λ _, True).
Proof. apply sim_parse_fields; [|done]. intros ? ? ? ?. unfold parse_encoding_stats_field. sim_steps. Qed.

Lemma sim_sorting : fruns (parse_fields parse_sorting_field sc_zero) (λ _, True).
Proof. apply sim_parse_fields; [|done]. intros ? ? ? ?. unfold parse_sorting_field. sim_steps. Qed.

Lemma logical_from_converted_total ct scale precision : exists lt, logical_type_from_converted_type ct scale precision = Some lt.
Proof.
  assert (forall o : option carquet_logical_type_t, is_Some o -> exists lt, Some <$> o = Some lt) as L by (intros o [x ->]; by eexists).
  unfold logical_type_from_converted_type. repeat case_match; try (by eexists); apply L; by eexists.
Qed.

Lemma sim_schema_element : fruns parse_schema_element (λ _, True).
Proof.
  eapply (sim_bind _ _ _ _ _ (λ _, True)).
  - apply sim_parse_fields; [|done]. intros ? ? ? ?. unfold parse_schema_field.
    assert (fruns parse_logical_type (λ _, True)) by (eapply sim_weaken; [apply sim_parse_logical_type|done]). sim_steps.
  - intros e _. apply sim_access. unfold complete_schema_element. destruct (se_logical_type e), (se_converted_type e); try by eexists.
    destruct (logical_from_converted_total z (se_scale e) (se_precision e)) as [lt ->]. by eexists.
Qed.

Hint Resolve sim_statistics sim_key_value sim_encoding_stats sim_sorting sim_schema_element : parse_runs.

Lemma sim_list_field {A S} (x : S) max size (f1 f2 : pdec carquet_arena_t A) (store : list A -> S) : sim any f1 f2 (λ _, True) ->
  sim any (list_field (@arena_array Sp) x max size f1 store) (list_field checked_array x max size f2 store) (λ _, True).
Proof.
  intros Hf. eapply sim_bind; [apply sim_read_list_begin|]. intros [et count] _.
  eapply sim_bind; [apply sim_validate|]. intros bad _. apply sim_if; intros _; [by apply sim_ret|].
  eapply sim_bind; [by apply (sim_array _ _ _ _ (λ _, True))|]. intros l _. by apply sim_ret.
Qed.
Hint Resolve sim_list_field : parse_runs.

Lemma sim_column_metadata :
  sim any (parse_column_metadata (@arena_array Sp) parse_geospatial) (parse_column_metadata checked_array checked_geospatial) (λ _, True).
Proof.
  apply sim_parse_struct; [|done]. intros ? ? m _. unfold parse_column_metadata_field.
  repeat (apply sim_if; intros _; [first [apply sim_list_field | apply (sim_next _ _ _ (λ _, True))]; sim_steps|]).
  apply (sim_next _ _ _ (λ _, True)). sim_steps.
Qed.
Hint Resolve sim_column_metadata : parse_runs.

Lemma sim_column_chunk :
  sim any (parse_column_chunk (@arena_array Sp) parse_geospatial) (parse_column_chunk checked_array checked_geospatial) (λ _, True).
Proof. apply sim_parse_fields; [|done]. intros ? ? ? ?. unfold parse_column_chunk_field. sim_steps. Qed.
Hint Resolve sim_column_chunk : parse_runs.

Lemma sim_row_group :
  sim any (parse_row_group (@arena_array Sp) parse_geospatial) (parse_row_group checked_array checked_geospatial) (λ _, True).
Proof.
  apply sim_parse_struct; [|done]. intros ? ? m _. unfold parse_row_group_field.
  repeat (apply sim_if; intros _; [first [apply sim_list_field | apply (sim_next _ _ _ (λ _, True))]; sim_steps|]).
  apply (sim_next _ _ _ (λ _, True)). sim_steps.
Qed.

(** The limits of the reader on what it stores. *)
Definition meta_bounded (m : parquet_file_metadata_t) : Prop := lenZ (fm_schema m) <= 10000 /\ lenZ (fm_row_groups m) <= 100000.

(** A result other than [None] is a failure. *)
Definition meta_state (r : option carquet_status_t * parquet_file_metadata_t) : Prop :=
  (forall st, r.1 = Some st -> is_ok st = false) /\ meta_bounded r.2.

Lemma sim_meta_next {A} (m : pdec carquet_arena_t A) g : (forall x, meta_bounded (g x)) -> fruns m (λ _, True) -> fruns (meta_next (v ← m; mret (g v))) meta_state.
Proof.
  intros Hg H. eapply (sim_bind _ _ _ _ _ meta_bounded); [eapply sim_bind; [exact H|]; intros x _; by apply sim_ret|]. intros x Hx. by apply sim_ret.
Qed.

Lemma sim_meta_list {A} m max size (f1 f2 : pdec carquet_arena_t A) store : meta_bounded m -> 0 <= max ->
  (forall l, lenZ l <= max -> meta_bounded (store l)) -> sim any f1 f2 (λ _, True) ->
  sim any (meta_list_field (@arena_array Sp) m max size f1 store) (meta_list_field checked_array m max size f2 store) meta_state.
Proof.
  intros Hm H0 Hs Hf. eapply sim_bind; [apply sim_read_list_begin|]. intros [et count] _.
  apply sim_if; intros Hc; [apply sim_ret; split; [by intros ? [= <-]|done]|]. apply orb_false_iff in Hc as [Hc1 Hc2].
  eapply sim_bind; [by apply (sim_array _ _ _ _ (λ _, True))|]. cbn. intros l Hl. apply sim_ret. split; [done|]. apply Hs. lia.
Qed.

Lemma sim_file_metadata_field t f m : meta_bounded m ->
  sim any (parse_file_metadata_field (@arena_array Sp) parse_geospatial t f m)
    (parse_file_metadata_field checked_array checked_geospatial t f m) meta_state.
Proof.
  intros Hm. unfold parse_file_metadata_field. apply sim_status. intros st. destruct (is_ok st) eqn:Est; cbn [negb].
  2:{ apply sim_ret. split; [by intros ? [= <-]|done]. }
  assert (forall g : parquet_file_metadata_t, fm_schema g = fm_schema m -> fm_row_groups g = fm_row_groups m -> meta_bounded g) as Same
    by (intros g E1 E2; unfold meta_bounded; by rewrite E1, E2).
  repeat (apply sim_if; intros _; [first [apply sim_meta_list; [done|done|intros l Hl; destruct m; destruct Hm; split; (done || exact Hl)|first [apply sim_row_group | sim_steps]]
    | apply sim_meta_next; [intros x; apply Same; by destruct m|sim_steps] | idtac]|]).
  - eapply sim_bind; [apply sim_read_list_begin|]. intros [et count] _.
    apply sim_if; intros _; [apply sim_ret; split; [by intros ? [= <-]|done]|].
    eapply sim_bind; [apply (sim_for_n _ _ _ _ (λ _, True)), sim_skip|]. intros l _. apply sim_ret. split; [done|]. apply Same; by destruct m.
  - apply (sim_meta_next (skip t) (λ _, m)); [done|sim_steps].
Qed.

(** The footer parser with the two checks. *)
Definition parse_file_metadata_checked := parse_file_metadata_with checked_array checked_geospatial.

Lemma footer_total data size arena m0 : bytes_ok data -> 0 <= size <= lenZ data -> size < 2 ^ 63 -> arena_ready arena ->
  exists status m arena', parse_file_metadata_checked (Some data) size arena m0 = Some (status, m, arena') /\ meta_bounded m /\ arena_ready arena' /\
    (parquet_parse_file_metadata (Some data) size arena m0 = Some (status, m, arena') \/
     (parquet_parse_file_metadata (Some data) size arena m0 = None /\ is_ok status = false)).
Proof.
  intros Hb Hs Hs' Ra. pose proof (thrift_decoder_init_wf data size Hb Hs Hs') as W.
  unfold parse_file_metadata_checked, parquet_parse_file_metadata, parse_file_metadata_with.
  set (m1 := lift thrift_read_struct_begin ≫= (λ _, while_fields (parse_file_metadata_field (@arena_array Sp) _) _ ≫= _)).
  set (m2 := lift thrift_read_struct_begin ≫= (λ _, while_fields (parse_file_metadata_field checked_array _) _ ≫= _)).
  (* the status returned is that of the decoder, or a failure *)
  assert (forall d a, td_wf d -> arena_ready a -> exists st m d' a', m2 d a = Some ((st, m), d', a') /\ (is_ok st = true -> td_status d' = st) /\ meta_bounded m /\ arena_ready a' /\
    (m1 d a = Some ((st, m), d', a') \/ (m1 d a = None /\ is_ok (td_status d') = false))) as H.
  { intros d a Wd R0. unfold m1, m2. destruct (sim_struct_begin any d a Wd R0) as ([] & d1 & a1 & E1 & S1 & R1 & _ & _).
    unfold mbind, pdec_bind. rewrite E1.
    destruct (sim_while_fields any (parse_file_metadata_field (@arena_array Sp) parse_geospatial)
      (parse_file_metadata_field checked_array checked_geospatial) meta_state fm_zero (λ t f m H, sim_file_metadata_field t f m (proj2 H)) ltac:(done)
      d1 a1 (ts_wf _ _ _ S1) R1) as ([r m] & d2 & a2 & E2 & S2 & R2 & [Hr Hm] & C2). rewrite E2. cbn [fst snd] in *.
    destruct (sim_struct_end any d2 a2 (ts_wf _ _ _ S2) R2) as ([] & d3 & a3 & E3 & S3 & R3 & _ & _).
    destruct r as [st|].
    - exists st, m, d2, a2. split; [done|]. split; [intros Hx; by rewrite (Hr st eq_refl) in Hx|]. split; [done|]. split; [done|].
      destruct C2 as [-> | [-> ?]]; [by left|by right].
    - exists (td_status d3), m, d3, a3. rewrite E3. split; [done|]. split; [done|]. split; [done|]. split; [done|].
      destruct C2 as [-> | [-> ?]]; [rewrite E3; by left|]. right. split; [done|]. by apply (error_stays 0 d2). }
  destruct (H _ arena W Ra) as (st & m & d' & a' & -> & Hst & Hm & R' & C). exists st, m, a'. split; [done|]. split; [done|]. split; [done|].
  destruct C as [-> | [-> Hx]]; [by left|]. right. split; [done|]. destruct (is_ok st) eqn:E; [|done]. rewrite (Hst eq_refl) in Hx. congruence.
Qed.

End Footer.

(** C8: the footer parser is safe up to two missing checks.  Take the parser of the code
    and add a check for a failed array allocation and one for more than 64 geometry type
    codes.  On any bytes and any arena that was created the checked parser returns, in bounds; and the
    parser of the code computes exactly the same status, metadata and arena, except that
    it may have undefined behaviour on footers the checked parser refuses.  So every
    footer the checked parser accepts is parsed by the code without leaving any object. *)
Theorem footer_parse_safe {Sp : AddressSpace} data size arena m0 :
  bytes_ok data -> 0 <= size <= lenZ data -> size < 2 ^ 63 -> arena_ready arena ->
  exists status m arena', parse_file_metadata_checked (Some data) size arena m0 = Some (status, m, arena') /\
    (is_ok status = true -> parquet_parse_file_metadata (Some data) size arena m0 = Some (status, m, arena')) /\
    (parquet_parse_file_metadata (Some data) size arena m0 <> None ->
      parquet_parse_file_metadata (Some data) size arena m0 = Some (status, m, arena')).
Proof.
  intros Hb Hs Hs' R. destruct (footer_total data size arena m0 Hb Hs Hs' R) as (st & m & a & E & _ & _ & C).
  exists st, m, a. split; [done|]. destruct C as [C | [C Hst]]; split; intros H; (done || congruence).
Qed.

(** A footer with one schema element, [type_length] 4. *)
Definition small_footer : list Z := [0x15; 2; 0x19; 0x1C; 0x25; 8; 0; 0].

Lemma footer_parse_safe_witness :
  exists status m arena', parquet_parse_file_metadata (Sp := upward_space) (Some small_footer) 8 arena_0 fm_zero = Some (status, m, arena').
Proof.
  destruct (footer_parse_safe (Sp := upward_space) small_footer 8 arena_0 fm_zero) as (st & m & a & E & H & _).
  - apply (bool_decide_unpack _). vm_compute. exact I.
  - cbn. lia.
  - lia.
  - by eexists.
  - exists st, m, a. apply H. revert E. vm_compute. intros [= <- _ _]. reflexivity.
Defined.

(** A footer whose one column gives its list of 64 geometry types twice: the second list
    is stored behind the array. *)
Definition twice_geo_types : list Z :=
  [0x49; 0x1C; 0x19; 0x1C; 0x3C; 0x0C; 0x22; 0x29; 0xF5; 64] ++ replicate 64 2 ++ [0x09; 4; 0xF5; 64] ++ replicate 64 2 ++ [0; 0; 0; 0; 0].

Lemma geo_types_overflow :
  parquet_parse_file_metadata (Sp := upward_space) (Some twice_geo_types) (lenZ twice_geo_types) arena_0 fm_zero = None.
Proof. vm_compute. reflexivity. Qed.

(** A footer of the schema element above, in an arena that is full: the array of schema
    elements is NULL and written to. *)
Lemma footer_array_unchecked :
  let Sp : AddressSpace := λ _ _, None in
  parquet_parse_file_metadata (Some small_footer) 8 (mk_arena [mk_block 4096 65536 65536] 0 65536 0 65536) fm_zero = None.
Proof. vm_compute. reflexivity. Qed.
