(* ===== verification/ParquetValues.v ===== *)
(** * The Parquet metadata as Thrift values

    Every structure of [ParquetTypes] as the nested Thrift value its writer puts on the
    wire, and the proof that the writers of [ParquetWrite] emit exactly those values,
    whatever the allocator does. *)

From S2P Require Import Prelude Status Endian Memory Buffer Arena ThriftDecode ThriftEncode ThriftRoundtrip ParquetTypes ParquetWrite.
From coqutil Require Import Datatypes.RecordSetters.
Import RecordSetters.TriangleBracketNotations.

#[local] Open Scope Z_scope.

(** ** Strings and binary data *)

(** The characters before the terminator. *)
Fixpoint c_text (m : list Z) : list Z := match m with [] => [] | c :: m => if c =? 0 then [] else c :: c_text m end.

Definition text_of (s : cstring) : list Z := c_text (default [] s).

(** A pointer to terminated text whose length an [int32_t] holds, or NULL. *)
Definition cstr_ok (s : cstring) : Prop := match s with Some m => bytes_ok m /\ 0 ∈ m /\ lenZ m <= 2 ^ 31 | None => True end.

(** A pointer to at least as many bytes as the length says, or NULL. *)
Definition bin_ok (b : binary) : Prop := match b.1 with Some p => bytes_ok p /\ b.2 <= lenZ p /\ b.2 < 2 ^ 31 | None => True end.

Definition opt_ok {X} (P : X -> Prop) (o : option X) : Prop := match o with Some x => P x | None => True end.

Definition bin_val (b : binary) : tval := VBinary (take (Z.to_nat b.2) (default [] b.1)).

Lemma c_text_prefix m : take (length (c_text m)) m = c_text m /\ (length (c_text m) <= length m)%nat.
Proof.
  induction m as [|c m [IH1 IH2]]; cbn; [done|]. destruct (c =? 0); cbn; [split; [done|lia]|]. rewrite IH1. split; [done|lia].
Qed.

Lemma string_length_text m : forall n, 0 ∈ m -> (length (c_text m) < n)%nat -> string_length n m = Some (lenZ (c_text m)).
Proof.
  induction m as [|c m IH]; intros n Hm Hn; [by apply not_elem_of_nil in Hm|]. destruct n as [|n]; [lia|]. cbn [string_length c_text] in *.
  destruct (Z.eqb_spec c 0) as [->|Hc]; [done|]. apply elem_of_cons in Hm as [Hx|Hm]; [congruence|]. cbn [length] in *.
  rewrite IH by (done || lia). cbn. f_equal. lia.
Qed.

Lemma strlen_text m : 0 ∈ m -> strlen m = Some (lenZ (c_text m)).
Proof. intros Hm. apply string_length_text; [done|]. pose proof (c_text_prefix m). lia. Qed.

Lemma rd_n_text m : rd_n m 0 (lenZ (c_text m)) = Some (c_text m).
Proof.
  destruct (c_text_prefix m) as [H1 H2]. rewrite rd_n_Some by lia. change (Z.to_nat 0) with 0%nat. rewrite drop_0, Nat2Z.id. by rewrite H1.
Qed.

Lemma c_text_short m : 0 ∈ m -> (length (c_text m) < length m)%nat.
Proof.
  induction m as [|c m IH]; intros Hm; [by apply not_elem_of_nil in Hm|]. cbn [c_text]. destruct (Z.eqb_spec c 0); cbn; [lia|].
  apply elem_of_cons in Hm as [Hx|Hm]; [congruence|]. specialize (IH Hm). lia.
Qed.

(** ** Values *)

Definition opt_val {X} (o : option X) (id : Z) (f : X -> tval) : list (Z * tval) := match o with Some x => [(id, f x)] | None => [] end.
Definition if_val (b : bool) (id : Z) (v : tval) : list (Z * tval) := if b then [(id, v)] else [].
Definition str_val (s : cstring) : tval := VBinary (text_of s).

Definition statistics_val (s : parquet_statistics_t) : tval := VStruct (
  if_val (present (st_max_deprecated s)) 1 (bin_val (st_max_deprecated s)) ++
  if_val (present (st_min_deprecated s)) 2 (bin_val (st_min_deprecated s)) ++
  opt_val (st_null_count s) 3 VI64 ++
  opt_val (st_distinct_count s) 4 VI64 ++
  if_val (present (st_max_value s)) 5 (bin_val (st_max_value s)) ++
  if_val (present (st_min_value s)) 6 (bin_val (st_min_value s)) ++
  opt_val (st_is_max_value_exact s) 7 VBool ++
  opt_val (st_is_min_value_exact s) 8 VBool).

Definition param_i32 (lt : carquet_logical_type_t) (off : Z) : Z := default 0 (get_i32 (lt_params lt) off).
Definition param_i8 (lt : carquet_logical_type_t) (off : Z) : Z := default 0 (get_i8 (lt_params lt) off).
Definition param_bool (lt : carquet_logical_type_t) (off : Z) : bool := default false (get_bool (lt_params lt) off).

Definition unit_field (lt : carquet_logical_type_t) : Z :=
  if param_i32 lt 0 =? CARQUET_TIME_UNIT_MILLIS then 1 else if param_i32 lt 0 =? CARQUET_TIME_UNIT_MICROS then 2 else 3.

Definition time_val (lt : carquet_logical_type_t) : tval :=
  VStruct ([(1, VBool (param_bool lt 4))] ++ [(2, VStruct [(unit_field lt, VStruct [])])]).

Definition crs_text (lt : carquet_logical_type_t) : list Z := c_text (take 128 (lt_params lt)).

Definition crs_val (lt : carquet_logical_type_t) : list (Z * tval) :=
  if_val (negb (default 0 (rd (lt_params lt) 0) =? 0)) 1 (VBinary (crs_text lt)).

Definition variant_version (lt : carquet_logical_type_t) : Z := if param_i8 lt 0 >? 0 then param_i8 lt 0 else 1.

Definition logical_val (lt : carquet_logical_type_t) : tval :=
  let id := lt_id lt in
  let plain n := [(n, VStruct [])] in
  VStruct (
    if id =? CARQUET_LOGICAL_STRING then plain 1 else
    if id =? CARQUET_LOGICAL_MAP then plain 2 else
    if id =? CARQUET_LOGICAL_LIST then plain 3 else
    if id =? CARQUET_LOGICAL_ENUM then plain 4 else
    if id =? CARQUET_LOGICAL_DECIMAL then [(5, VStruct ([(1, VI32 (param_i32 lt 4))] ++ [(2, VI32 (param_i32 lt 0))]))] else
    if id =? CARQUET_LOGICAL_DATE then plain 6 else
    if id =? CARQUET_LOGICAL_TIME then [(7, time_val lt)] else
    if id =? CARQUET_LOGICAL_TIMESTAMP then [(8, time_val lt)] else
    if id =? CARQUET_LOGICAL_INTEGER then [(10, VStruct ([(1, VByte (param_i8 lt 0))] ++ [(2, VBool (param_bool lt 1))]))] else
    if id =? CARQUET_LOGICAL_NULL then plain 11 else
    if id =? CARQUET_LOGICAL_JSON then plain 12 else
    if id =? CARQUET_LOGICAL_BSON then plain 13 else
    if id =? CARQUET_LOGICAL_UUID then plain 14 else
    if id =? CARQUET_LOGICAL_FLOAT16 then plain 15 else
    if id =? CARQUET_LOGICAL_VARIANT then [(16, VStruct [(1, VByte (variant_version lt))])] else
    if id =? CARQUET_LOGICAL_GEOMETRY then [(17, VStruct (crs_val lt))] else
    if id =? CARQUET_LOGICAL_GEOGRAPHY then
      [(18, VStruct (crs_val lt ++ if_val (param_bool lt 132) 2 (VI32 (param_i32 lt 128))))]
    else []).

(** What is written is the element with its legacy fields filled in. *)
Definition compat (e : parquet_schema_element_t) : parquet_schema_element_t := default e (schema_element_with_logical_compat e).

Definition known_logical (e : parquet_schema_element_t) : option carquet_logical_type_t :=
  lt ← se_logical_type e; if lt_id lt =? CARQUET_LOGICAL_UNKNOWN then None else Some lt.

Definition compat_val (e : parquet_schema_element_t) : tval := VStruct (
  opt_val (se_type e) 1 VI32 ++
  if_val (se_type_length e >? 0) 2 (VI32 (se_type_length e)) ++
  opt_val (se_repetition_type e) 3 VI32 ++
  if_val (bool_decide (is_Some (se_name e))) 4 (str_val (se_name e)) ++
  if_val (se_num_children e >? 0) 5 (VI32 (se_num_children e)) ++
  opt_val (se_converted_type e) 6 VI32 ++
  if_val (negb (se_scale e =? 0)) 7 (VI32 (se_scale e)) ++
  if_val (negb (se_precision e =? 0)) 8 (VI32 (se_precision e)) ++
  opt_val (se_field_id e) 9 VI32 ++
  opt_val (known_logical e) 10 logical_val).

Definition schema_element_val (e : parquet_schema_element_t) : tval := compat_val (compat e).

Definition bounding_box_val (g : parquet_geospatial_statistics_t) : tval := VStruct (
  [(1, VDouble (geo_xmin g))] ++ [(2, VDouble (geo_xmax g))] ++ [(3, VDouble (geo_ymin g))] ++ [(4, VDouble (geo_ymax g))] ++
  (if geo_has_z g then [(5, VDouble (geo_zmin g))] ++ [(6, VDouble (geo_zmax g))] else []) ++
  (if geo_has_m g then [(7, VDouble (geo_mmin g))] ++ [(8, VDouble (geo_mmax g))] else [])).

Definition geo_list (g : parquet_geospatial_statistics_t) : list Z := take (Z.to_nat (geo_num_types g)) (geo_types g).

Definition geospatial_val (g : parquet_geospatial_statistics_t) : tval := VStruct (
  if_val (geo_valid g) 1 (bounding_box_val g) ++ [(2, VList THRIFT_TYPE_I32 (map VI32 (geo_list g)))]).

Definition column_metadata_val (m : parquet_column_metadata_t) : tval := VStruct (
  [(1, VI32 (cm_type m))] ++
  [(2, VList THRIFT_TYPE_I32 (map VI32 (cm_encodings m)))] ++
  [(3, VList THRIFT_TYPE_BINARY (map str_val (cm_path_in_schema m)))] ++
  [(4, VI32 (cm_codec m))] ++
  [(5, VI64 (cm_num_values m))] ++
  [(6, VI64 (cm_total_uncompressed_size m))] ++
  [(7, VI64 (cm_total_compressed_size m))] ++
  [(9, VI64 (cm_data_page_offset m))] ++
  opt_val (cm_index_page_offset m) 10 VI64 ++
  opt_val (cm_dictionary_page_offset m) 11 VI64 ++
  opt_val (cm_statistics m) 12 statistics_val ++
  opt_val (cm_bloom_filter_offset m) 14 VI64 ++
  opt_val (cm_bloom_filter_length m) 15 VI32 ++
  opt_val (cm_geospatial_statistics m) 17 geospatial_val).

Definition column_chunk_val (c : parquet_column_chunk_t) : tval := VStruct (
  if_val (bool_decide (is_Some (cc_file_path c))) 1 (str_val (cc_file_path c)) ++
  [(2, VI64 (cc_file_offset c))] ++
  opt_val (cc_metadata c) 3 column_metadata_val ++
  opt_val (cc_offset_index_offset c) 4 VI64 ++
  opt_val (cc_offset_index_length c) 5 VI32 ++
  opt_val (cc_column_index_offset c) 6 VI64 ++
  opt_val (cc_column_index_length c) 7 VI32).

Definition sorting_column_val (sc : parquet_sorting_column_t) : tval := VStruct (
  [(1, VI32 (sc_column_idx sc))] ++ [(2, VBool (sc_descending sc))] ++ [(3, VBool (sc_nulls_first sc))]).

Definition row_group_val (rg : parquet_row_group_t) : tval := VStruct (
  [(1, VList THRIFT_TYPE_STRUCT (map column_chunk_val (rg_columns rg)))] ++
  [(2, VI64 (rg_total_byte_size rg))] ++
  [(3, VI64 (rg_num_rows rg))] ++
  if_val (0 <? lenZ (rg_sorting_columns rg)) 4 (VList THRIFT_TYPE_STRUCT (map sorting_column_val (rg_sorting_columns rg))) ++
  opt_val (rg_file_offset rg) 5 VI64 ++
  opt_val (rg_total_compressed_size rg) 6 VI64 ++
  opt_val (rg_ordinal rg) 7 VI16).

Definition key_value_val (kv : parquet_key_value_t) : tval := VStruct (
  [(1, str_val (kv_key kv))] ++ if_val (bool_decide (is_Some (kv_value kv))) 2 (str_val (kv_value kv))).

Definition column_order_val : tval := VStruct [(1, VStruct [])].

Definition file_metadata_val (m : parquet_file_metadata_t) : tval := VStruct (
  [(1, VI32 (fm_version m))] ++
  [(2, VList THRIFT_TYPE_STRUCT (map schema_element_val (fm_schema m)))] ++
  [(3, VI64 (fm_num_rows m))] ++
  [(4, VList THRIFT_TYPE_STRUCT (map row_group_val (fm_row_groups m)))] ++
  if_val (0 <? lenZ (fm_key_value_metadata m)) 5 (VList THRIFT_TYPE_STRUCT (map key_value_val (fm_key_value_metadata m))) ++
  if_val (bool_decide (is_Some (fm_created_by m))) 6 (str_val (fm_created_by m)) ++
  if_val (fm_num_column_orders m >? 0) 7
    (VList THRIFT_TYPE_STRUCT (map (λ _, column_order_val) (replicate (Z.to_nat (fm_num_column_orders m)) ())))).

Definition union_val (h : parquet_page_header_t) (id off : Z) : list (Z * tval) := [(id, VI32 (default 0 (get_i32 (ph_union h) off)))].
Definition union_flag (h : parquet_page_header_t) (off : Z) : bool := default false (get_bool (ph_union h) off).

Definition page_header_val (h : parquet_page_header_t) (s : parquet_statistics_t) : tval := VStruct (
  [(1, VI32 (ph_type h))] ++
  [(2, VI32 (ph_uncompressed_page_size h))] ++
  [(3, VI32 (ph_compressed_page_size h))] ++
  opt_val (ph_crc h) 4 VI32 ++
  (if ph_type h =? CARQUET_PAGE_DATA then
     [(5, VStruct (union_val h 1 0 ++ union_val h 2 4 ++ union_val h 3 8 ++ union_val h 4 12 ++
                   if_val (union_flag h 16) 5 (statistics_val s)))] else
   if ph_type h =? CARQUET_PAGE_DATA_V2 then
     [(8, VStruct (union_val h 1 0 ++ union_val h 2 4 ++ union_val h 3 8 ++ union_val h 4 12 ++ union_val h 5 16 ++ union_val h 6 20 ++
                   [(7, VBool (union_flag h 24))]))] else
   if ph_type h =? CARQUET_PAGE_DICTIONARY then
     [(7, VStruct (union_val h 1 0 ++ union_val h 2 4 ++ [(3, VBool (union_flag h 8))]))]
   else [])).

(** ** Structures that can be written

    Every field is a value of its C type, pointers address what they say, and lists are
    within the limits the parsers check. *)

Definition statistics_ok (s : parquet_statistics_t) : Prop :=
  bin_ok (st_max_deprecated s) /\ bin_ok (st_min_deprecated s) /\ opt_ok (in_i 64) (st_null_count s) /\
  opt_ok (in_i 64) (st_distinct_count s) /\ bin_ok (st_max_value s) /\ bin_ok (st_min_value s).

(** The union is whole and the text of a CRS ends inside its array. *)
Definition logical_ok (lt : carquet_logical_type_t) : Prop :=
  bytes_ok (lt_params lt) /\ length (lt_params lt) = 136%nat /\
  (lt_id lt = CARQUET_LOGICAL_GEOMETRY \/ lt_id lt = CARQUET_LOGICAL_GEOGRAPHY -> 0 ∈ take 128 (lt_params lt)).

Definition schema_element_ok (e : parquet_schema_element_t) : Prop :=
  opt_ok (in_i 32) (se_type e) /\ in_i 32 (se_type_length e) /\ opt_ok (in_i 32) (se_repetition_type e) /\ cstr_ok (se_name e) /\
  in_i 32 (se_num_children e) /\ opt_ok (in_i 32) (se_converted_type e) /\ in_i 32 (se_scale e) /\ in_i 32 (se_precision e) /\
  opt_ok (in_i 32) (se_field_id e) /\ opt_ok logical_ok (se_logical_type e).

Definition geospatial_ok (g : parquet_geospatial_statistics_t) : Prop :=
  in_u 64 (geo_xmin g) /\ in_u 64 (geo_xmax g) /\ in_u 64 (geo_ymin g) /\ in_u 64 (geo_ymax g) /\
  in_u 64 (geo_zmin g) /\ in_u 64 (geo_zmax g) /\ in_u 64 (geo_mmin g) /\ in_u 64 (geo_mmax g) /\
  Forall (in_i 32) (geo_types g) /\ length (geo_types g) = 64%nat /\ 0 <= geo_num_types g <= 64.

Definition column_metadata_ok (m : parquet_column_metadata_t) : Prop :=
  in_i 32 (cm_type m) /\ Forall (in_i 32) (cm_encodings m) /\ lenZ (cm_encodings m) <= 100 /\
  Forall cstr_ok (cm_path_in_schema m) /\ lenZ (cm_path_in_schema m) <= 100 /\ in_i 32 (cm_codec m) /\
  in_i 64 (cm_num_values m) /\ in_i 64 (cm_total_uncompressed_size m) /\ in_i 64 (cm_total_compressed_size m) /\
  in_i 64 (cm_data_page_offset m) /\ opt_ok (in_i 64) (cm_index_page_offset m) /\ opt_ok (in_i 64) (cm_dictionary_page_offset m) /\
  opt_ok statistics_ok (cm_statistics m) /\ opt_ok (in_i 64) (cm_bloom_filter_offset m) /\
  opt_ok (in_i 32) (cm_bloom_filter_length m) /\ opt_ok geospatial_ok (cm_geospatial_statistics m).

Definition column_chunk_ok (c : parquet_column_chunk_t) : Prop :=
  cstr_ok (cc_file_path c) /\ in_i 64 (cc_file_offset c) /\ opt_ok column_metadata_ok (cc_metadata c) /\
  opt_ok (in_i 64) (cc_offset_index_offset c) /\ opt_ok (in_i 32) (cc_offset_index_length c) /\
  opt_ok (in_i 64) (cc_column_index_offset c) /\ opt_ok (in_i 32) (cc_column_index_length c).

Definition sorting_column_ok (sc : parquet_sorting_column_t) : Prop := in_i 32 (sc_column_idx sc).

Definition row_group_ok (rg : parquet_row_group_t) : Prop :=
  Forall column_chunk_ok (rg_columns rg) /\ lenZ (rg_columns rg) <= 10000 /\ in_i 64 (rg_total_byte_size rg) /\
  in_i 64 (rg_num_rows rg) /\ Forall sorting_column_ok (rg_sorting_columns rg) /\ lenZ (rg_sorting_columns rg) <= 10000 /\
  opt_ok (in_i 64) (rg_file_offset rg) /\ opt_ok (in_i 64) (rg_total_compressed_size rg) /\ opt_ok (in_i 16) (rg_ordinal rg).

Definition key_value_ok (kv : parquet_key_value_t) : Prop := cstr_ok (kv_key kv) /\ cstr_ok (kv_value kv).

Definition file_metadata_ok (m : parquet_file_metadata_t) : Prop :=
  in_i 32 (fm_version m) /\ Forall schema_element_ok (fm_schema m) /\ lenZ (fm_schema m) <= 10000 /\ in_i 64 (fm_num_rows m) /\
  Forall row_group_ok (fm_row_groups m) /\ lenZ (fm_row_groups m) <= 100000 /\
  Forall key_value_ok (fm_key_value_metadata m) /\ lenZ (fm_key_value_metadata m) <= 10000 /\
  cstr_ok (fm_created_by m) /\ fm_num_column_orders m <= 10000.

Definition page_header_ok (h : parquet_page_header_t) : Prop :=
  in_i 32 (ph_type h) /\ in_i 32 (ph_uncompressed_page_size h) /\ in_i 32 (ph_compressed_page_size h) /\ opt_ok (in_i 32) (ph_crc h) /\
  bytes_ok (ph_union h) /\ length (ph_union h) = 32%nat.

(** Whether a structure can be written is decided by looking at it. *)
#[export] Instance opt_ok_dec {X} (P : X -> Prop) `{forall x, Decision (P x)} o : Decision (opt_ok P o).
Proof. destruct o; cbn; apply _. Defined.
#[export] Instance cstr_ok_dec s : Decision (cstr_ok s).
Proof. destruct s; cbn; apply _. Defined.
#[export] Instance bin_ok_dec b : Decision (bin_ok b).
Proof. unfold bin_ok. destruct b.1; apply _. Defined.
#[export] Instance statistics_ok_dec s : Decision (statistics_ok s).
Proof. unfold statistics_ok. apply _. Defined.
#[export] Instance logical_ok_dec lt : Decision (logical_ok lt).
Proof. unfold logical_ok. apply _. Defined.
#[export] Instance schema_element_ok_dec e : Decision (schema_element_ok e).
Proof. unfold schema_element_ok. apply _. Defined.
#[export] Instance geospatial_ok_dec g : Decision (geospatial_ok g).
Proof. unfold geospatial_ok. apply _. Defined.
#[export] Instance column_metadata_ok_dec m : Decision (column_metadata_ok m).
Proof. unfold column_metadata_ok. apply _. Defined.
#[export] Instance column_chunk_ok_dec c : Decision (column_chunk_ok c).
Proof. unfold column_chunk_ok. apply _. Defined.
#[export] Instance sorting_column_ok_dec sc : Decision (sorting_column_ok sc).
Proof. unfold sorting_column_ok. apply _. Defined.
#[export] Instance row_group_ok_dec rg : Decision (row_group_ok rg).
Proof. unfold row_group_ok. apply _. Defined.
#[export] Instance key_value_ok_dec kv : Decision (key_value_ok kv).
Proof. unfold key_value_ok. apply _. Defined.
#[export] Instance file_metadata_ok_dec m : Decision (file_metadata_ok m).
Proof. unfold file_metadata_ok. apply _. Defined.
#[export] Instance page_header_ok_dec h : Decision (page_header_ok h).
Proof. unfold page_header_ok. apply _. Defined.

(** ** How deep the structs are *)

Lemma depth_struct n fs : Forall (λ f, depth_ok n f.2) fs -> depth_ok (S n) (VStruct fs).
Proof. intros H. cbn [depth_ok]. by rewrite foldr_and_Forall. Qed.

Lemma depth_list n t {X} (f : X -> tval) l : (forall x, depth_ok n (f x)) -> depth_ok n (VList t (map f l)).
Proof. intros H. cbn [depth_ok]. rewrite foldr_and_Forall. by apply Forall_map, Forall_true. Qed.

Lemma depth_opt {X} n (o : option X) id f : (forall x, depth_ok n (f x)) -> Forall (λ g, depth_ok n g.2) (opt_val o id f).
Proof. intros H. destruct o; [apply Forall_singleton, H|apply Forall_nil_2]. Qed.

Lemma depth_if n (b : bool) id v : depth_ok n v -> Forall (λ g, depth_ok n g.2) (if_val b id v).
Proof. intros H. destruct b; [by apply Forall_singleton|apply Forall_nil_2]. Qed.

Create HintDb depth.

Ltac depth :=
  repeat first
    [ solve [auto with depth]
    | done
    | apply depth_struct
    | apply Forall_app; split
    | apply depth_opt; intros ?
    | apply depth_if
    | apply depth_list; intros ?
    | apply Forall_cons_2
    | apply Forall_nil_2
    | case_match ].

Lemma depth_statistics n s : depth_ok (1 + n) (statistics_val s). Proof. depth. Qed.
Lemma depth_logical n lt : depth_ok (4 + n) (logical_val lt). Proof. depth. Qed.
#[local] Hint Resolve depth_statistics depth_logical : depth.
Lemma depth_schema_element n e : depth_ok (5 + n) (schema_element_val e). Proof. depth. Qed.
Lemma depth_geospatial n g : depth_ok (2 + n) (geospatial_val g). Proof. depth. Qed.
#[local] Hint Resolve depth_schema_element depth_geospatial : depth.
Lemma depth_column_metadata n m : depth_ok (3 + n) (column_metadata_val m). Proof. depth. Qed.
#[local] Hint Resolve depth_column_metadata : depth.
Lemma depth_column_chunk n c : depth_ok (4 + n) (column_chunk_val c). Proof. depth. Qed.
#[local] Hint Resolve depth_column_chunk : depth.
Lemma depth_row_group n rg : depth_ok (5 + n) (row_group_val rg). Proof. depth. Qed.
#[local] Hint Resolve depth_row_group : depth.
Lemma depth_file_metadata m : depth_ok 6 (file_metadata_val m). Proof. depth. Qed.
Lemma depth_page_header h s : depth_ok 3 (page_header_val h s). Proof. depth. Qed.

(** ** The writers emit the values *)

Create HintDb emit.

Lemma run_wops_app {A : Allocator} enc a b : run_wops enc (a ++ b) = (enc ← run_wops enc a; run_wops enc b).
Proof. revert enc. induction a as [|op a IH]; intros enc; cbn; [done|]. destruct (run_wop enc op); cbn; [apply IH|done]. Qed.

(** The operations of the fields of a struct. *)
Definition fields_ops (fs : list (Z * tval)) : list wop :=
  concat (map (λ f, WField (type_of f.2) f.1 :: if is_bool f.2 then [] else val_ops f.2) fs).

Lemma fields_ops_app f1 f2 : fields_ops (f1 ++ f2) = fields_ops f1 ++ fields_ops f2.
Proof. unfold fields_ops. by rewrite map_app, concat_app. Qed.

Section Emit.
Context {A : Allocator}.
#[local] Notation "w1 ;> w2" := (wseq w1 w2) (at level 100, right associativity).

(** [w] is the program [ops] of the Thrift writer, and the program is one that
    [thrift_writer_sound] is about. *)
Definition emits (w : tenc) (ops : list wop) : Prop := Forall wop_ok ops /\ forall enc, w enc = run_wops enc ops.

Definition emits_fields (w : tenc) (fs : list (Z * tval)) : Prop := emits w (fields_ops fs).
(** ... followed by the end of the struct. *)
Definition emits_end (w : tenc) (fs : list (Z * tval)) : Prop := emits w (fields_ops fs ++ [WStructEnd]).

Lemma emits_seq w1 w2 a b : emits w1 a -> emits w2 b -> emits (w1 ;> w2) (a ++ b).
Proof.
  intros [O1 H1] [O2 H2]. split; [by apply Forall_app|]. intros enc. unfold wseq. rewrite run_wops_app, H1.
  destruct (run_wops enc a); cbn; [apply H2|done].
Qed.

Lemma emits_one w op : wop_ok op -> (forall enc, w enc = run_wop enc op) -> emits w [op].
Proof. intros Hop H. split; [by apply Forall_singleton|]. intros enc. rewrite H. cbn. by destruct (run_wop enc op). Qed.

Lemma emits_read {X} (o : option X) x (w : X -> tenc) ops : o = Some x -> emits (w x) ops -> emits (wread o w) ops.
Proof. intros ->. done. Qed.

Lemma emits_fields_app w1 w2 f1 f2 : emits_fields w1 f1 -> emits_fields w2 f2 -> emits_fields (w1 ;> w2) (f1 ++ f2).
Proof. intros. unfold emits_fields. rewrite fields_ops_app. by apply emits_seq. Qed.

Lemma emits_end_seq w1 w2 f1 f2 : emits_fields w1 f1 -> emits_end w2 f2 -> emits_end (w1 ;> w2) (f1 ++ f2).
Proof. intros. unfold emits_end. rewrite fields_ops_app, <- app_assoc. by apply emits_seq. Qed.

Lemma emits_end_last w fs : emits_fields w fs -> emits_end (w ;> struct_end) fs.
Proof. intros. apply emits_seq; [done|]. by apply emits_one. Qed.

Lemma emits_struct w fs : emits_end w fs -> emits (struct_begin ;> w) (val_ops (VStruct fs)).
Proof. intros. apply (emits_seq _ _ [WStructBegin]); [by apply emits_one|done]. Qed.

Lemma emits_empty : emits write_empty_struct (val_ops (VStruct [])).
Proof. apply emits_struct. by apply emits_one. Qed.

Lemma emits_field t id w v : emits w (val_ops v) -> type_of v = t -> is_bool v = false -> in_i 16 id -> emits_fields (field t id w) [(id, v)].
Proof.
  intros H <- Hb Hid. unfold emits_fields, fields_ops. cbn [map concat fst snd]. rewrite Hb, app_nil_r.
  pose proof (type_of_range v). apply (emits_seq _ _ [WField (type_of v) id]); [|done]. apply emits_one; [|done]. split; [lia|done].
Qed.

Lemma emits_field_bool id b : in_i 16 id -> emits_fields (field_bool id b) [(id, VBool b)].
Proof. intros Hid. apply emits_one; [|done]. split; [destruct b; cbn; lia|done]. Qed.

Lemma emits_nop : emits_fields wnop [].
Proof. split; [by apply Forall_nil_2|done]. Qed.

Lemma emits_when (b : bool) w fs : (b = true -> emits_fields w fs) -> emits_fields (wwhen b w) (if b then fs else []).
Proof. destruct b; auto using emits_nop. Qed.

Lemma emits_if_val (b : bool) w id v : (b = true -> emits_fields w [(id, v)]) -> emits_fields (wwhen b w) (if_val b id v).
Proof. apply emits_when. Qed.

Lemma emits_opt_val {X} (o : option X) (P : X -> Prop) w id f : opt_ok P o -> (forall x, o = Some x -> P x -> emits_fields (w x) [(id, f x)]) ->
  emits_fields (wopt o w) (opt_val o id f).
Proof. destruct o; cbn; auto using emits_nop. Qed.

Lemma emits_opt_bool (o : option bool) id : in_i 16 id -> emits_fields (wopt o (field_bool id)) (opt_val o id VBool).
Proof. destruct o; cbn; auto using emits_nop, emits_field_bool. Qed.

Lemma emits_for {X} (l : list X) (w : X -> tenc) (f : X -> tval) : Forall (λ x, emits (w x) (val_ops (f x))) l ->
  emits (wfor l w) (concat (map val_ops (map f l))).
Proof. induction 1; cbn [wfor map concat]; [apply emits_nop|]. by apply emits_seq. Qed.

Lemma emits_list {X} t (l : list X) (w : X -> tenc) (f : X -> tval) : 0 <= t < 16 -> lenZ l < 2 ^ 31 ->
  Forall (λ x, emits (w x) (val_ops (f x))) l -> emits (write_list_begin t (lenZ l) ;> wfor l w) (val_ops (VList t (map f l))).
Proof.
  intros Ht Hl H. cbn [val_ops]. rewrite length_map. apply (emits_seq _ _ [_]); [|by apply emits_for].
  apply emits_one; [|done]. split; [done|lia].
Qed.

Lemma emits_field_list {X} (P : X -> Prop) id t (l : list X) (w : X -> tenc) (f : X -> tval) : in_i 16 id -> 0 <= t < 16 -> lenZ l < 2 ^ 31 ->
  Forall P l -> (forall x, P x -> emits (w x) (val_ops (f x))) -> emits_fields (field_list id t l w) [(id, VList t (map f l))].
Proof.
  intros Hid Ht Hl HP H. apply emits_field; [|done|done|done]. apply emits_list; [done|done|]. eapply Forall_impl; [done|exact HP].
Qed.

Lemma emits_i16 v : in_i 16 v -> emits (write_i16 v) (val_ops (VI16 v)). Proof. intros. by apply emits_one. Qed.
Lemma emits_i32 v : in_i 32 v -> emits (write_i32 v) (val_ops (VI32 v)). Proof. intros. by apply emits_one. Qed.
Lemma emits_i64 v : in_i 64 v -> emits (write_i64 v) (val_ops (VI64 v)). Proof. intros. by apply emits_one. Qed.
Lemma emits_byte v : in_i 8 v -> emits (write_byte v) (val_ops (VByte v)). Proof. intros. by apply emits_one. Qed.
Lemma emits_double v : in_u 64 v -> emits (write_double v) (val_ops (VDouble v)). Proof. intros. by apply emits_one. Qed.

Lemma text_ok s : cstr_ok s -> bytes_ok (text_of s) /\ lenZ (text_of s) < 2 ^ 31.
Proof.
  destruct s as [m|]; [|intros _; split; [by apply Forall_nil_2|cbn; lia]]. intros (Hb & H0 & Hl). change (text_of (Some m)) with (c_text m).
  pose proof (c_text_prefix m) as [Hp _]. pose proof (c_text_short m H0). split; [|lia]. rewrite <- Hp. by apply Forall_take.
Qed.

Lemma emits_string s : cstr_ok s -> emits (write_string s) (val_ops (str_val s)).
Proof.
  intros Hs. destruct (text_ok s Hs) as [Ht Hl]. apply emits_one; [done|]. intros enc. unfold write_string, str_val. cbn [run_wop].
  destruct s as [m|].
  - change (text_of (Some m)) with (c_text m) in *. destruct Hs as (_ & H0 & _). rewrite strlen_text by done. cbn [mbind option_bind]. rewrite rd_n_text. cbn [mbind option_bind thrift_write_string].
    unfold i32. by rewrite wrap_signed_small; [|lia|unfold in_i; lia].
  - cbn. unfold thrift_write_binary. destruct (thrift_write_varint enc (u64 0)); done.
Qed.

Lemma emits_binary b : bin_ok b -> present b = true -> emits (write_binary b) (val_ops (bin_val b)).
Proof.
  destruct b as [[p|] n]; [|done]. unfold bin_ok, present. cbn [fst snd]. rewrite Z.gtb_ltb. intros (Hp & Hb & Hn) H0%Z.ltb_lt.
  unfold bin_val. cbn [fst snd]. change (default [] (Some p)) with p. apply emits_one; [split; [by apply Forall_take|rewrite length_take; lia]|]. intros enc.
  unfold write_binary. cbn [run_wop fst snd]. rewrite length_take, Nat.min_l by lia. rewrite Z2Nat.id by lia.
  unfold thrift_write_binary. destruct (thrift_write_varint enc (u64 n)); [|done]. cbn [mbind option_bind]. rewrite Z.gtb_ltb. decide_bool.
  rewrite !rd_n_Some by (rewrite ?length_take; lia). change (Z.to_nat 0) with 0%nat. by rewrite !drop_0, take_take, Nat.min_id.
Qed.

Hint Resolve emits_i16 emits_i32 emits_i64 emits_byte emits_double emits_empty emits_field_bool emits_string emits_binary : emit.

Ltac idok := unfold in_i; lia.
Ltac tyok := unfold THRIFT_TYPE_I32, THRIFT_TYPE_BINARY, THRIFT_TYPE_STRUCT; lia.

(** The fields of a struct one by one; what is left are the side conditions. *)
Ltac emit_fields :=
  repeat first
    [ solve [auto with emit]
    | apply emits_struct
    | apply emits_end_seq
    | apply emits_end_last
    | apply emits_if_val; intros ?
    | eapply emits_opt_val; [eassumption|]; intros ? _ ?
    | eapply emits_field_list; [idok|tyok|lia|eassumption|]; intros ? ?
    | apply emits_field; [|reflexivity|reflexivity|idok]
    | apply emits_field_bool; idok
    | apply emits_opt_bool; idok ].

Lemma emits_statistics s : statistics_ok s -> emits (write_statistics s) (val_ops (statistics_val s)).
Proof. intros (? & ? & ? & ? & ? & ?). unfold write_statistics, statistics_val. emit_fields. Qed.

(** Reads of a union. *)
Lemma get_i32_whole u off n : length u = n -> 0 <= off -> off + 4 <= Z.of_nat n ->
  get_i32 u off = Some (default 0 (get_i32 u off)) /\ in_i 32 (default 0 (get_i32 u off)).
Proof. intros. unfold get_i32. rewrite rd_n_Some by lia. split; [done|]. by apply wrap_signed_range. Qed.
Lemma get_i8_whole u off n : length u = n -> 0 <= off < Z.of_nat n ->
  get_i8 u off = Some (default 0 (get_i8 u off)) /\ in_i 8 (default 0 (get_i8 u off)).
Proof. intros. unfold get_i8. destruct (rd_Some u off) as [x ->]; [lia|]. split; [done|]. by apply wrap_signed_range. Qed.
Lemma get_bool_whole u off n : length u = n -> 0 <= off < Z.of_nat n -> get_bool u off = Some (default false (get_bool u off)).
Proof. intros. unfold get_bool. destruct (rd_Some u off) as [x ->]; [lia|]. done. Qed.

Lemma emits_get_i32 u off n id : length u = n -> 0 <= off -> off + 4 <= Z.of_nat n -> in_i 16 id ->
  emits_fields (wread (get_i32 u off) (λ v, field THRIFT_TYPE_I32 id (write_i32 v))) [(id, VI32 (default 0 (get_i32 u off)))].
Proof. intros Hu H0 Hn Hid. destruct (get_i32_whole u off n Hu H0 Hn) as [E R]. eapply emits_read; [exact E|]. apply emits_field; auto with emit. Qed.

Lemma emits_get_bool u off n id : length u = n -> 0 <= off < Z.of_nat n -> in_i 16 id ->
  emits_fields (wread (get_bool u off) (field_bool id)) [(id, VBool (default false (get_bool u off)))].
Proof. intros Hu Hn Hid. eapply emits_read; [by apply (get_bool_whole u off n)|]. by apply emits_field_bool. Qed.

Lemma emits_time lt : length (lt_params lt) = 136%nat -> emits (write_time lt) (val_ops (time_val lt)).
Proof.
  intros Hl. unfold write_time, time_val. apply emits_struct, emits_end_seq; [by apply (emits_get_bool _ _ 136); [|lia|idok]|].
  apply emits_end_last, emits_field; [|done|done|idok]. apply emits_struct, emits_end_last.
  eapply emits_read; [apply (get_i32_whole _ 0 136 Hl); lia|]. fold (param_i32 lt 0). apply emits_field; [apply emits_empty|done|done|].
  unfold unit_field. repeat case_match; idok.
Qed.

Lemma emits_crs lt : bytes_ok (lt_params lt) -> length (lt_params lt) = 136%nat -> 0 ∈ take 128 (lt_params lt) ->
  emits_fields (write_crs lt) (crs_val lt).
Proof.
  intros Hb Hl H0. unfold write_crs, crs_val. destruct (rd_Some (lt_params lt) 0) as [c E]; [lia|]. rewrite E.
  apply (emits_read _ c); [done|]. apply emits_if_val. intros _. apply emits_field; [|done|done|idok].
  apply (emits_string (Some (take 128 (lt_params lt)))). split; [by apply Forall_take|]. split; [done|]. rewrite length_take. lia.
Qed.

Lemma emits_logical lt : logical_ok lt -> emits (write_logical_type lt) (val_ops (logical_val lt)).
Proof.
  intros (Hb & Hl & Hg). unfold write_logical_type, logical_val. apply emits_struct, emits_end_last.
  assert (forall n, in_i 16 n -> emits_fields (field THRIFT_TYPE_STRUCT n write_empty_struct) [(n, VStruct [])]) as P
    by (intros; apply emits_field; [apply emits_empty|done|done|done]).
  destruct (get_i8_whole (lt_params lt) 0 136 Hl ltac:(lia)) as [E8 R8].
  repeat match goal with |- context [if ?b then _ else _] => destruct b eqn:?; [first [apply P; idok | apply emits_field; [|done|done|idok]]|] end.
  - apply emits_struct, emits_end_seq; [|apply emits_end_last]; apply (emits_get_i32 _ _ 136); (done || idok).
  - by apply emits_time.
  - by apply emits_time.
  - apply emits_struct, emits_end_seq; [|apply emits_end_last; apply (emits_get_bool _ _ 136); (done || idok)].
    eapply emits_read; [exact E8|]. emit_fields.
  - apply emits_struct, emits_end_last. eapply emits_read; [exact E8|]. apply emits_field; [|done|done|idok]. apply (emits_byte (variant_version lt)).
    unfold variant_version. case_match; [done|idok].
  - apply emits_struct, emits_end_last. apply emits_crs; [done|done|]. apply Hg. left. by apply Z.eqb_eq.
  - apply emits_struct, emits_end_seq; [apply emits_crs; [done|done|]; apply Hg; right; by apply Z.eqb_eq|].
    apply emits_end_last. eapply emits_read; [apply (get_bool_whole _ 132 136 Hl); lia|]. apply emits_if_val. intros _.
    apply (emits_get_i32 _ _ 136); (done || idok).
  - apply emits_nop.
Qed.

(** Filling in the legacy fields keeps an element writable. *)
Lemma compat_spec e : schema_element_ok e -> schema_element_with_logical_compat e = Some (compat e) /\ schema_element_ok (compat e).
Proof.
  intros He. pose proof He as (_ & _ & _ & _ & _ & _ & _ & _ & _ & HL). unfold compat, schema_element_with_logical_compat.
  destruct (se_logical_type e) as [lt|] eqn:El; [|done]. destruct HL as (Hb & Hl & Hg).
  destruct (get_i32_whole (lt_params lt) 0 136 Hl) as [E0 R0]; [lia|lia|].
  destruct (get_i32_whole (lt_params lt) 4 136 Hl) as [E4 R4]; [lia|lia|].
  assert (exists ct, converted_type_from_logical_type lt = Some ct /\ opt_ok (in_i 32) ct) as (ct & -> & Hct).
  { unfold converted_type_from_logical_type. destruct (get_i8_whole (lt_params lt) 0 136 Hl) as [E8 _]; [lia|].
    rewrite E0, E8, (get_bool_whole (lt_params lt) 1 136 Hl) by lia. cbn [mbind option_bind].
    repeat case_match; eexists; (split; [reflexivity|]); first [done | cbn; idok]. }
  cbn [mbind option_bind]. rewrite E0, E4. cbn [mbind option_bind].
  destruct e. unfold schema_element_ok in *. cbn in He, El. subst.
  destruct ct, (lt_id lt =? CARQUET_LOGICAL_DECIMAL), (lt_id lt =? CARQUET_LOGICAL_INTERVAL); cbn; (split; [done|]); naive_solver.
Qed.

Lemma emits_schema_element e : schema_element_ok e -> emits (write_schema_element e) (val_ops (schema_element_val e)).
Proof.
  intros He. destruct (compat_spec e He) as [E Hc]. unfold write_schema_element, schema_element_val.
  eapply emits_read; [exact E|]. destruct Hc as (? & ? & ? & ? & ? & ? & ? & ? & ? & HL). unfold compat_val. emit_fields.
  unfold known_logical. destruct (se_logical_type (compat e)) as [lt|]; cbn; [|apply emits_nop].
  destruct (lt_id lt =? CARQUET_LOGICAL_UNKNOWN); cbn; [apply emits_nop|]. apply emits_field; [|done|done|idok]. by apply emits_logical.
Qed.

Lemma emits_bounding_box g : geospatial_ok g -> emits (write_bounding_box g) (val_ops (bounding_box_val g)).
Proof.
  intros (? & ? & ? & ? & ? & ? & ? & ? & _). unfold write_bounding_box, bounding_box_val.
  emit_fields; apply emits_when; intros _; apply emits_fields_app; emit_fields.
Qed.

Lemma emits_geospatial g : geospatial_ok g -> emits (write_geospatial g) (val_ops (geospatial_val g)).
Proof.
  intros Hg. pose proof Hg as (_ & _ & _ & _ & _ & _ & _ & _ & Ht & Hl & Hn). unfold write_geospatial, geospatial_val.
  apply emits_struct, emits_end_seq; [apply emits_if_val; intros _; apply emits_field; [by apply emits_bounding_box|done|done|idok]|].
  apply emits_end_last, emits_field; [|done|done|idok]. rewrite Z.max_r by lia.
  assert (rd_n (geo_types g) 0 (geo_num_types g) = Some (geo_list g)) as ->.
  { rewrite rd_n_Some by lia. change (Z.to_nat 0) with 0%nat. by rewrite drop_0. }
  assert (geo_num_types g = lenZ (geo_list g)) as -> by (unfold geo_list; rewrite length_take; lia).
  change (wread (Some (geo_list g)) (λ l, wfor l write_i32)) with (wfor (geo_list g) write_i32).
  apply emits_list; [tyok|unfold geo_list; rewrite length_take; lia|]. unfold geo_list. apply Forall_take.
  eapply Forall_impl; [|exact Ht]. intros. by apply emits_i32.
Qed.

Hint Resolve emits_statistics emits_schema_element emits_geospatial : emit.

Lemma emits_column_metadata m : column_metadata_ok m -> emits (write_column_metadata m) (val_ops (column_metadata_val m)).
Proof.
  intros (? & ? & ? & ? & ? & ? & ? & ? & ? & ? & ? & ? & ? & ? & ? & ?). unfold write_column_metadata, column_metadata_val. emit_fields.
Qed.

Hint Resolve emits_column_metadata : emit.

Lemma emits_column_chunk c : column_chunk_ok c -> emits (write_column_chunk c) (val_ops (column_chunk_val c)).
Proof.
  intros (? & ? & ? & ? & ? & ? & ?). unfold write_column_chunk, column_chunk_val. emit_fields.
Qed.

Lemma emits_sorting_column sc : sorting_column_ok sc -> emits (write_sorting_column sc) (val_ops (sorting_column_val sc)).
Proof. intros ?. unfold write_sorting_column, sorting_column_val. emit_fields. Qed.

Hint Resolve emits_column_chunk emits_sorting_column : emit.

Lemma emits_row_group rg : row_group_ok rg -> emits (write_row_group rg) (val_ops (row_group_val rg)).
Proof. intros (? & ? & ? & ? & ? & ? & ? & ? & ?). unfold write_row_group, row_group_val. emit_fields. Qed.

Lemma emits_key_value kv : key_value_ok kv -> emits (write_key_value kv) (val_ops (key_value_val kv)).
Proof. intros [? ?]. unfold write_key_value, key_value_val. emit_fields. Qed.

Hint Resolve emits_row_group emits_key_value : emit.

Lemma emits_column_order : emits write_column_order_type_defined (val_ops column_order_val).
Proof. unfold write_column_order_type_defined, column_order_val. emit_fields. Qed.

Lemma emits_file_metadata m : file_metadata_ok m -> emits (write_file_metadata m) (val_ops (file_metadata_val m)).
Proof.
  intros (? & ? & ? & ? & ? & ? & ? & ? & ? & ?). unfold write_file_metadata, file_metadata_val. emit_fields.
  apply emits_list; [tyok|rewrite length_replicate; lia|]. apply Forall_true. intros. apply emits_column_order.
Qed.

Lemma emits_page_header h s : page_header_ok h -> statistics_ok s -> emits (write_page_header h s) (val_ops (page_header_val h s)).
Proof.
  intros (? & ? & ? & ? & ? & Hu) Hs. unfold write_page_header, page_header_val. emit_fields.
  assert (forall id off, in_i 16 id -> 0 <= off <= 28 -> emits_fields (union_field h id off) (union_val h id off)) as U.
  { intros. apply (emits_get_i32 _ _ 32); (done || lia). }
  repeat match goal with |- context [if ?b then _ else _] => destruct b eqn:?; [apply emits_field; [|done|done|idok]|] end.
  - apply emits_struct. do 4 (apply emits_end_seq; [apply U; idok|]). apply emits_end_last.
    eapply emits_read; [apply (get_bool_whole _ 16 32 Hu); lia|]. fold (union_flag h 16). emit_fields.
  - apply emits_struct. do 6 (apply emits_end_seq; [apply U; idok|]). apply emits_end_last. apply (emits_get_bool _ _ 32); (done || idok).
  - apply emits_struct. do 2 (apply emits_end_seq; [apply U; idok|]). apply emits_end_last. apply (emits_get_bool _ _ 32); (done || idok).
  - apply emits_nop.
Qed.

End Emit.

(** What a writer that emits a value leaves in the buffer. *)
Section Written.
Context {A : Allocator} {AOk : AllocatorOk A}.

Lemma written w v b n : emits w (val_ops v) -> depth_ok n v -> (n <= 32)%nat -> buffer_wf b ->
  exists status b', finish <$> w (thrift_encoder_init b) = Some (status, b') /\ buffer_wf b' /\
    (is_ok status = true -> buf_bytes b' = buf_bytes b ++ val_bytes v) /\
    (AllocatorTotal A -> buf_owns_data b = true -> buf_size b + lenZ (val_bytes v) < 2 ^ 64 -> is_ok status = true).
Proof.
  intros [Hops Hw] Hd Hn Hb. pose proof (thrift_encoder_init_wf b Hb) as W. rewrite Hw.
  destruct (run_wops_spec _ _ W Hops) as (enc' & -> & W' & H & T). eexists _, _. split; [done|]. split; [apply W'|].
  destruct (val_ops_exact v (enc_stack (thrift_encoder_init b))) as [E _]. rewrite E in *. split; [intros Hok; apply (H Hok)|].
  intros AT Ho Hs. apply T; [|done|done|done|].
  - apply (val_ops_nest v n); [done|]. change (length (enc_stack (thrift_encoder_init b))) with 0%nat. lia.
  - unfold enc_bytes. cbn [te_buffer thrift_encoder_init]. by rewrite buf_bytes_length.
Qed.

End Written.
