(* ===== verification/HeaderRoundtrip.v ===== *)
(** * Page headers: what is written is read back (carquet/thrift/parquet_types.c)

    The readers of primitive values in the form the parsers of [ParquetParse] use them,
    and the round trip of page headers. *)

From S2P Require Import Prelude Status Endian Memory Buffer Arena ThriftDecode ThriftEncode ThriftRoundtrip ThriftParse ParquetTypes ParquetParse ParquetWrite ParquetValues.
From coqutil Require Import Datatypes.RecordSetters.
Import RecordSetters.TriangleBracketNotations.

#[local] Open Scope Z_scope.

Create HintDb reads.

(** ** Primitive values *)

Section Prims.
Context {St : Type} (I : nat -> St -> Prop) {IB : Budget I}.

Lemma preads_i16 K room v : in_i 16 v -> preads I K (lift thrift_read_i16) room (val_bytes (VI16 v)) v.
Proof. intros. by apply preads_reads, reads_i16. Qed.
Lemma preads_i32 K room v : in_i 32 v -> preads I K (lift thrift_read_i32) room (val_bytes (VI32 v)) v.
Proof. intros. by apply preads_reads, reads_i32. Qed.
Lemma preads_i64 K room v : in_i 64 v -> preads I K (lift thrift_read_i64) room (val_bytes (VI64 v)) v.
Proof. intros. by apply preads_reads, reads_zigzag. Qed.
Lemma preads_byte K room v : in_i 8 v -> preads I K (lift thrift_read_byte) room (val_bytes (VByte v)) v.
Proof. intros. by apply preads_reads, reads_i8. Qed.
Lemma preads_double K room v : in_u 64 v -> preads I K (lift thrift_read_double) room (val_bytes (VDouble v)) v.
Proof. intros. by apply preads_reads, reads_double. Qed.

(** Binary data: the code gets a pointer to it. *)
Lemma preads_binary K {A} (f : option (list Z) * Z -> pdec St A) room bs x : bytes_ok bs -> lenZ bs < 2 ^ 31 ->
  (forall p d s B, take (length bs) p = bs -> I (K * (length bs + 1) + B)%nat s ->
    exists s', f (Some p, lenZ bs) d s = Some (x, d, s') /\ I B s') ->
  preads I K (lift thrift_read_binary ≫= f) room (val_bytes (VBinary bs)) x.
Proof.
  intros Hb Hl Hf d q s B W Hok E _ Hp HI. cbn [val_bytes] in *. destruct (read_binary_spec bs d q Hb Hl W Hok E) as (p & E1 & Hbs).
  set (d1 := td_advance d _) in *. destruct (Hf p d1 s B Hbs) as (s' & E2 & I2).
  { apply (budget_less _ _ _ HI). rewrite length_app. pose proof (length_uleb (lenZ bs)). nia. }
  exists d1, s'. unfold mbind, pdec_bind, lift. rewrite E1. split; [exact E2|]. split; [|done]. by apply (skipped_advance _ _ q).
Qed.

(** A field whose value is stored, and one whose value is computed with. *)
Lemma vreads_then K {A B} (m : pdec St A) (f : A -> pdec St B) room v x y : is_bool v = false ->
  preads I K m room (val_bytes v) x -> preads I K (f x) room [] y -> vreads I K (m ≫= f) room v y.
Proof. intros. eapply vreads_bind; [by apply vreads_preads|done]. Qed.

(** An optional field, present or not. *)
Lemma chain_opt K {R S X} (body : Z -> Z -> S -> pdec St (option R * S)) room (o : option X) id f x y : in_i 16 id ->
  (o = None -> x = y) -> (forall v, o = Some v -> vreads I K (body (type_of (f v)) id x) room (f v) (None, y)) ->
  chain I K body room (opt_val o id f) x y.
Proof. destruct o; cbn; intros ? Hn Hs; [apply chain_one; [done|by apply Hs]|rewrite Hn by done; constructor]. Qed.

Lemma chain_if K {R S} (body : Z -> Z -> S -> pdec St (option R * S)) room (b : bool) id v x y : in_i 16 id ->
  (b = false -> x = y) -> (b = true -> vreads I K (body (type_of v) id x) room v (None, y)) ->
  chain I K body room (if_val b id v) x y.
Proof. destruct b; cbn; intros ? Hn Hs; [apply chain_one; [done|by apply Hs]|rewrite Hn by done; constructor]. Qed.

Lemma chain_app_at K {R S} (body : Z -> Z -> S -> pdec St (option R * S)) room f1 f2 y x z :
  chain I K body room f1 x y -> chain I K body room f2 y z -> chain I K body room (f1 ++ f2) x z.
Proof. apply chain_app. Qed.

(** The bytes of a value that is not empty on the wire. *)
Lemma bytes_struct fs : (1 <= length (val_bytes (VStruct fs)))%nat.
Proof. destruct fs as [|[id v] fs]; cbn [val_bytes fields_with]; [cbn; lia|]. rewrite length_app. pose proof (field_bytes_nonempty 0 (type_of v) id). lia. Qed.

Lemma bytes_i32 v : (1 <= length (val_bytes (VI32 v)))%nat.
Proof. cbn [val_bytes]. unfold zz. pose proof (length_uleb (carquet_zigzag_encode64 v)). lia. Qed.

Lemma bytes_binary bs : (1 <= length (val_bytes (VBinary bs)))%nat.
Proof. cbn [val_bytes]. rewrite length_app. pose proof (length_uleb (lenZ bs)). lia. Qed.

End Prims.

#[export] Hint Resolve preads_i16 preads_i32 preads_i64 preads_byte preads_double preads_ret : reads.

(** The next fields of the struct set [f] of the record to [v]. *)
Ltac step f v :=
  match goal with |- chain _ _ _ _ _ ?x _ =>
    let y := eval cbv beta iota delta [apply_update constant] in (apply_update (mk_update f (constant v)) x) in
    eapply (chain_app_at _ _ _ _ _ _ y)
  end.

Ltac idok := unfold in_i; lia.
Ltac tyok := unfold THRIFT_TYPE_I32, THRIFT_TYPE_BINARY, THRIFT_TYPE_STRUCT; lia.

Ltac head_of t := match t with ?f _ => head_of f | _ => t end.

(** The branch of the parser that a field id selects. *)
Ltac open_branch :=
  cbv beta; try apply vreads_next;
  match goal with |- vreads _ _ ?m _ _ _ => let f := head_of m in unfold f; cbn [Z.eqb Pos.eqb] end;
  try apply vreads_next.

(** The value that the branch reads and stores. *)
Ltac stores := eapply vreads_then; [reflexivity|solve [eauto with reads typeclass_instances]|apply preads_ret].
Ltac stores_bool := apply vreads_bool, preads_ret.

(** ** The union of a page header *)

(** The first [k] bytes of a union, the others as they were in [bg]. *)
Definition fill (bg : list Z) (k : nat) (u : list Z) : list Z := take k u ++ drop k bg.

Lemma length_fill bg k u : length u = length bg -> (k <= length bg)%nat -> length (fill bg k u) = length bg.
Proof. intros. unfold fill. rewrite length_app, length_take, length_drop. lia. Qed.

Lemma put_get_i32 bs : bytes_ok bs -> length bs = 4%nat -> carquet_write_i32_le (i32 (le_val bs)) = bs.
Proof.
  intros Hb Hl. unfold carquet_write_i32_le, carquet_write_u32_le. pose proof (le_val_bound bs Hb) as B. rewrite Hl in B. change (2 ^ (8 * Z.of_nat 4)) with (2 ^ 32) in B.
  unfold u32, i32. rewrite wrap_signed_mod, Z.mod_small by lia.
  etransitivity; [|apply (le_bytes_val bs Hb)]. by rewrite Hl.
Qed.

Lemma put_i32_fill bg k u : length u = length bg -> bytes_ok u -> (k + 4 <= length bg)%nat ->
  put_i32 (fill bg k u) (Z.of_nat k) (default 0 (get_i32 u (Z.of_nat k))) = Some (fill bg (k + 4) u).
Proof.
  intros Hl Hb Hk. unfold get_i32. rewrite rd_n_Some by lia. rewrite Nat2Z.id. change (Z.to_nat 4) with 4%nat. cbn [fmap option_fmap option_map default from_option id].
  set (bs := take 4 (drop k u)). assert (length bs = 4%nat) as L4 by (unfold bs; rewrite length_take, length_drop; lia).
  unfold put_i32. rewrite put_get_i32; [|by apply Forall_take, Forall_drop|done].
  rewrite wr_n_Some by (rewrite ?length_fill by lia; lia). rewrite Nat2Z.id, L4. f_equal. unfold fill.
  assert (length (take k u) = k) as Lk by (rewrite length_take; lia). rewrite take_app_length' by done.
  rewrite drop_app, Lk, drop_ge by lia. cbn [app]. rewrite drop_drop, <- take_take_drop, <- app_assoc. do 3 f_equal. lia.
Qed.

(** ... and a flag behind them. *)
Definition fill_flag (bg : list Z) (k : nat) (u : list Z) (b : bool) : list Z := take k u ++ Z.b2z b :: drop (S k) bg.

Lemma put_bool_fill bg k u b : length u = length bg -> (k < length bg)%nat -> put_bool (fill bg k u) (Z.of_nat k) b = Some (fill_flag bg k u b).
Proof.
  intros Hl Hk. unfold put_bool. rewrite wr_Some by (rewrite length_fill; lia). f_equal. unfold fill, fill_flag. rewrite Nat2Z.id.
  destruct (lookup_lt_is_Some_2 bg k Hk) as [x Hx]. rewrite (drop_S bg x k Hx).
  rewrite insert_app_r_alt by (rewrite length_take; lia). rewrite length_take, Nat.min_l, Nat.sub_diag by lia. done.
Qed.

(** ** What a page header is after a round trip

    The members of the union the type selects; the others are cleared. *)
Definition zeros : list Z := replicate 32 0.

Definition read_union (h : parquet_page_header_t) : list Z :=
  if ph_type h =? CARQUET_PAGE_DATA then fill_flag zeros 16 (ph_union h) (union_flag h 16) else
  if ph_type h =? CARQUET_PAGE_DATA_V2 then fill_flag zeros 24 (ph_union h) (union_flag h 24) else
  if ph_type h =? CARQUET_PAGE_DICTIONARY then fill_flag zeros 8 (ph_union h) (union_flag h 8)
  else zeros.

Definition read_page_header (h : parquet_page_header_t) : parquet_page_header_t :=
  mk_page_header (ph_type h) (ph_uncompressed_page_size h) (ph_compressed_page_size h) (ph_crc h) (read_union h).

Section PageHeader.
Abbreviation any := (λ (_ : nat) (_ : ()), True).
Abbreviation hchain body := (chain any 0 body).

#[export] Instance any_budget : Budget any.
Proof. done. Qed.

Context (h : parquet_page_header_t) (Hu : length (ph_union h) = 32%nat) (Hb : bytes_ok (ph_union h)).

(** The header with [u] as its union. *)
Abbreviation with_union u := (mk_page_header (ph_type h) (ph_uncompressed_page_size h) (ph_compressed_page_size h) (ph_crc h) u).

(** What the union holds before its members are read. *)
Section Background.
Context (bg : list Z) (Hbg : length bg = 32%nat).

Lemma union_reads room k : (k <= 28)%nat ->
  preads any 0 (union_i32 (with_union (fill bg k (ph_union h))) (Z.of_nat k)) room (val_bytes (VI32 (default 0 (get_i32 (ph_union h) (Z.of_nat k)))))
    (with_union (fill bg (k + 4) (ph_union h))).
Proof.
  intros Hk. rewrite <- (app_nil_r (val_bytes _)). eapply preads_bind.
  - apply (preads_i32 any). apply (get_i32_whole _ _ 32); (done || lia).
  - eapply preads_bind_nil; [apply preads_access; cbn [ph_union]; apply put_i32_fill; (done || lia)|]. apply (preads_ret any).
Qed.

(** One integer of the union. *)
Lemma chain_union {R} (body : Z -> Z -> parquet_page_header_t -> pdec () (option R * parquet_page_header_t)) room id k : (k <= 28)%nat -> in_i 16 id ->
  (forall x, body THRIFT_TYPE_I32 id x = (x ← union_i32 x (Z.of_nat k); mret (None, x))) ->
  hchain body room (union_val h id (Z.of_nat k)) (with_union (fill bg k (ph_union h))) (with_union (fill bg (k + 4) (ph_union h))).
Proof.
  intros Hk Hid Hx. apply chain_one; [done|]. change (type_of (VI32 _)) with THRIFT_TYPE_I32. rewrite Hx.
  eapply vreads_then; [done|by apply union_reads|]. apply (preads_ret any).
Qed.

(** The boolean after them. *)
Lemma chain_flag {R} (body : Z -> Z -> parquet_page_header_t -> pdec () (option R * parquet_page_header_t)) room id k b : (k < 32)%nat -> in_i 16 id ->
  (forall t x, body t id x = (x ← (v ← lift thrift_read_bool; in_union x (λ u, put_bool u (Z.of_nat k) v)); mret (None, x))) ->
  hchain body room [(id, VBool b)] (with_union (fill bg k (ph_union h))) (with_union (fill_flag bg k (ph_union h) b)).
Proof.
  intros Hk Hid Hx. apply chain_one; [done|]. rewrite Hx. eapply vreads_bind; [|apply (preads_ret any)].
  apply vreads_bool. eapply preads_bind_nil; [|apply (preads_ret any)].
  apply preads_access. cbn [ph_union]. apply put_bool_fill; lia.
Qed.

End Background.

Ltac member bg id k := eapply chain_app; [apply (chain_union bg eq_refl _ _ id k); [lia|unfold in_i; lia|intros; reflexivity]|].

(** The three kinds of header. *)
Lemma data_page_reads s room : val_ok (room - 1) (statistics_val s) -> 1 < room ->
  preads any 0 (parse_fields parse_data_page_header (with_union zeros)) room
    (val_bytes (VStruct (union_val h 1 0 ++ union_val h 2 4 ++ union_val h 3 8 ++ union_val h 4 12 ++ if_val (union_flag h 16) 5 (statistics_val s))))
    (with_union (fill_flag zeros 16 (ph_union h) (union_flag h 16))).
Proof.
  intros Hs Hr. apply (preads_struct any); [lia|]. change zeros with (fill zeros 0 (ph_union h)) at 1.
  member zeros 1 0%nat. member zeros 2 4%nat. member zeros 3 8%nat. member zeros 4 12%nat.
  apply chain_if; [unfold in_i; lia|by intros ->|]. intros ->. apply vreads_next.
  apply (vreads_store any 0 _ (fill_flag zeros 16 (ph_union h) true) (λ u, with_union u) (λ h, skip (type_of (statistics_val s));; mret h));
    [apply (put_bool_fill zeros 16); (done || (cbn; lia))|].
  eapply vreads_bind; [apply (vreads_skip any); [done|lia]|apply (preads_ret any)].
Qed.

Lemma dictionary_page_reads room : 0 < room ->
  preads any 0 (parse_fields parse_dictionary_page_header (with_union zeros)) room
    (val_bytes (VStruct (union_val h 1 0 ++ union_val h 2 4 ++ [(3, VBool (union_flag h 8))])))
    (with_union (fill_flag zeros 8 (ph_union h) (union_flag h 8))).
Proof.
  intros Hr. apply (preads_struct any); [lia|]. change zeros with (fill zeros 0 (ph_union h)) at 1. member zeros 1 0%nat. member zeros 2 4%nat.
  apply (chain_flag zeros eq_refl _ _ 3 8); [lia|unfold in_i; lia|]. intros. reflexivity.
Qed.

(** The parser of the second version sets is_compressed before it looks. *)
Lemma data_page_v2_reads room : 0 < room ->
  preads any 0 (lift thrift_read_struct_begin;;
      h ← in_union (with_union zeros) (λ u, put_bool u 24 true);
      '(_, h) ← while_fields (R := ()) (λ t f h, next (parse_data_page_header_v2 t f h)) h;
      lift thrift_read_struct_end;; mret h) room
    (val_bytes (VStruct (union_val h 1 0 ++ union_val h 2 4 ++ union_val h 3 8 ++ union_val h 4 12 ++ union_val h 5 16 ++ union_val h 6 20 ++
      [(7, VBool (union_flag h 24))])))
    (with_union (fill_flag zeros 24 (ph_union h) (union_flag h 24))).
Proof.
  intros Hr d q s B W Hd E Hl Hp HI. set (bg := <[24%nat := 1]> zeros).
  destruct (struct_reads any 0 (λ t f h, next (parse_data_page_header_v2 t f h)) room
    (union_val h 1 0 ++ union_val h 2 4 ++ union_val h 3 8 ++ union_val h 4 12 ++ union_val h 5 16 ++ union_val h 6 20 ++ [(7, VBool (union_flag h 24))])
    (with_union (fill bg 0 (ph_union h))) (with_union (fill_flag bg 24 (ph_union h) (union_flag h 24))) d q s B)
    as (d1 & d2 & d3 & s' & E1 & E2 & E3 & SK & _); try done.
  - member bg 1 0%nat. member bg 2 4%nat. member bg 3 8%nat. member bg 4 12%nat. member bg 5 16%nat. member bg 6 20%nat.
    apply (chain_flag bg eq_refl _ _ 7 24); [lia|unfold in_i; lia|]. intros. reflexivity.
  - exists d3, s'. split; [|done]. unfold mbind, pdec_bind, lift. rewrite E1. cbn [mbind option_bind].
    change (in_union (with_union zeros) (λ u, put_bool u 24 true) d1 s) with (Some (with_union (fill bg 0 (ph_union h)), d1, s)).
    cbv beta iota. rewrite E2, E3. done.
Qed.

(** One field of the header. *)
Lemma header_field K {B} (m : pdec () B) room v x (f : B -> parquet_page_header_t) y : is_bool v = false -> preads any K m room (val_bytes v) x -> y = f x ->
  vreads any K (header_next (x ← m; mret (f x))) room v (None, y).
Proof. intros ? ? ->. eapply vreads_then; [done|by apply preads_map|]. apply (preads_ret any). Qed.

Context (Ht : in_i 32 (ph_type h)) (Hus : in_i 32 (ph_uncompressed_page_size h)) (Hcs : in_i 32 (ph_compressed_page_size h)) (Hcrc : opt_ok (in_i 32) (ph_crc h)).

Ltac open_field := apply vreads_status; intros ? ->; cbn [negb Z.eqb Pos.eqb].
Ltac int_field := open_field; eapply header_field; [done|by apply (preads_i32 any)|reflexivity].

Lemma page_header_chain s room : val_ok (room - 2) (statistics_val s) -> 2 < room ->
  exists fs, page_header_val h s = VStruct fs /\ hchain parse_page_header_field (room - 1) fs ph_zero (read_page_header h).
Proof.
  intros Hs Hr. eexists. split; [reflexivity|]. unfold ph_zero.
  step ph_type (ph_type h); [apply chain_one; [idok|int_field]|]. step ph_uncompressed_page_size (ph_uncompressed_page_size h); [apply chain_one; [idok|int_field]|].
  step ph_compressed_page_size (ph_compressed_page_size h); [apply chain_one; [idok|int_field]|].
  step ph_crc (ph_crc h).
  { apply chain_opt; [idok|by intros ->|]. intros v Ev. rewrite Ev in *. int_field. }
  unfold read_page_header, read_union. change (replicate 32 0) with zeros.
  assert (forall (m : pdec () parquet_page_header_t) fs y, preads any 0 m (room - 1) (val_bytes (VStruct fs)) y ->
    vreads any 0 (header_next m) (room - 1) (VStruct fs) (None, y)) as N.
  { intros m fs y Hm. eapply vreads_bind; [by apply vreads_preads|]. apply (preads_ret any). }
  repeat match goal with |- context [if ?b then _ else _] => destruct b; [apply chain_one; [idok|]; open_field; apply N|] end.
  - apply data_page_reads; [by replace (room - 1 - 1) with (room - 2) by lia|lia].
  - apply data_page_v2_reads. lia.
  - apply dictionary_page_reads. lia.
  - constructor.
Qed.

End PageHeader.

(** The statistics of a page are only stepped over. *)
Lemma statistics_val_ok s room : statistics_ok s -> 0 < room -> val_ok room (statistics_val s).
Proof.
  intros (? & ? & ? & ? & ? & ?) Hr. split; [done|]. rewrite foldr_and_Forall.
  assert (forall b id, bin_ok b -> in_i 16 id -> Forall (λ f, in_i 16 f.1 /\ val_ok (room - 1) f.2) (if_val (present b) id (bin_val b))) as B.
  { intros [[p|] n] id Hb Hid; [|apply Forall_nil_2]. unfold present, bin_ok in *. cbn [fst snd] in *. rewrite Z.gtb_ltb. destruct Hb as (Hp & Hn & Hn').
    destruct (Z.ltb_spec 0 n); [|apply Forall_nil_2]. apply Forall_singleton. split; [done|]. unfold bin_val. cbn [fst snd val_ok].
    change (default [] (Some p)) with p. split; [by apply Forall_take|]. rewrite length_take. lia. }
  assert (forall o id, opt_ok (in_i 64) o -> in_i 16 id -> Forall (λ f, in_i 16 f.1 /\ val_ok (room - 1) f.2) (opt_val o id VI64)) as O.
  { intros [v|] id Hv Hid; [by apply Forall_singleton|apply Forall_nil_2]. }
  assert (forall o id, in_i 16 id -> Forall (λ f, in_i 16 f.1 /\ val_ok (room - 1) f.2) (opt_val o id VBool)) as Bo.
  { intros [v|] id Hid; [by apply Forall_singleton|apply Forall_nil_2]. }
  repeat (apply Forall_app; split); first [apply B; [done|idok] | apply O; [done|idok] | apply Bo; idok].
Qed.

Lemma decoder_init_rest bs : td_rest (thrift_decoder_init bs (lenZ bs)) = bs.
Proof.
  change (take (Z.to_nat (lenZ bs - 0)) (ptr_add bs 0) = bs). rewrite Z.sub_0_r, Nat2Z.id. change (ptr_add bs 0) with (drop 0 bs).
  by rewrite drop_0, firstn_all.
Qed.

(** The parser in front of the bytes of a header. *)
Lemma page_header_parses h s q h0 n0 : page_header_ok h -> statistics_ok s ->
  let bs := val_bytes (page_header_val h s) in bytes_ok (bs ++ q) -> lenZ (bs ++ q) < 2 ^ 63 ->
  parquet_parse_page_header (Some (bs ++ q)) (lenZ (bs ++ q)) h0 n0 = Some (CARQUET_OK, read_page_header h, lenZ bs).
Proof.
  intros (Ht & Hus & Hcs & Hcrc & Hb & Hu) Hs bs Hq Hl.
  destruct (page_header_chain h Hu Hb Ht Hus Hcs Hcrc s 32) as (fs & E & HC); [by apply statistics_val_ok; [|lia]|lia|].
  unfold bs in *. clear bs. rewrite E in *. set (bs := val_bytes (VStruct fs)) in *.
  set (d := thrift_decoder_init (bs ++ q) (lenZ (bs ++ q))). assert (td_wf d) as W by (apply thrift_decoder_init_wf; (done || lia)).
  assert (td_rest d = bs ++ q) as ER by apply decoder_init_rest.
  destruct (struct_reads (λ _ _, True) 0 parse_page_header_field 32 fs ph_zero (read_page_header h) d q () 0)
    as (d1 & d2 & d3 & [] & E1 & E2 & E3 & SK & _); try done.
  unfold parquet_parse_page_header. fold d. unfold mbind, pdec_bind, lift, option_bind. rewrite E1. cbn [mbind option_bind]. rewrite E2, E3.
  unfold gets. cbn [mbind option_bind]. destruct SK as [_ SO SR _ _ _]. unfold mret, pdec_ret. rewrite SO.
  apply is_ok_true in SO. rewrite SO, SR. change (Some (CARQUET_OK, read_page_header h, u64 (0 + lenZ bs)) = Some (CARQUET_OK, read_page_header h, lenZ bs)).
  rewrite length_app in Hl. by rewrite u64_small by lia.
Qed.

(** C7: page headers round trip.  For every header and every allocator, the writer is
    defined, and whenever it reports success it has appended to the buffer exactly the
    Thrift value of the header; from these bytes, with any others behind them, the parser
    reads back status OK, the same type, sizes and checksum, the members of the union that
    the type selects, and a byte count that ends exactly at the header.  The writer
    reports success whenever the allocator serves every request. *)
Theorem page_header_roundtrip {A : Allocator} {AOk : AllocatorOk A} h s b :
  page_header_ok h -> statistics_ok s -> buffer_wf b ->
  let bs := val_bytes (page_header_val h s) in
  exists status b', parquet_write_page_header h s b = Some (status, b') /\ buffer_wf b' /\
    (is_ok status = true -> buf_bytes b' = buf_bytes b ++ bs /\
      forall q h0 n0, bytes_ok q -> lenZ (bs ++ q) < 2 ^ 63 ->
      parquet_parse_page_header (Some (bs ++ q)) (lenZ (bs ++ q)) h0 n0 = Some (CARQUET_OK, read_page_header h, lenZ bs)) /\
    (AllocatorTotal A -> buf_owns_data b = true -> buf_size b + lenZ bs < 2 ^ 64 -> is_ok status = true).
Proof.
  intros Hh Hs Hb bs. destruct (written _ _ b 3 (emits_page_header h s Hh Hs) (depth_page_header h s)) as (st & b' & E & W & H & T); [lia|done|].
  exists st, b'. split; [exact E|]. split; [done|]. split; [|exact T]. intros Hok. split; [exact (H Hok)|].
  intros q h0 n0 Hq Hl. apply page_header_parses; [done|done| |done].
  apply Forall_app. split; [|done]. pose proof (buf_bytes_ok b' W) as O. rewrite (H Hok) in O. apply Forall_app in O. apply O.
Qed.

Lemma page_header_roundtrip_witness :
  let A := limited_alloc (2 ^ 64) in
  let h := mk_page_header CARQUET_PAGE_DATA 40 30 (Some 7) (carquet_write_i32_le 10 ++ replicate 12 0 ++ [1] ++ replicate 15 9) in
  let s := mk_statistics (None, 0) (None, 0) (Some 2) None (Some [5; 0], 2) (None, 0) None None in
  let bs := val_bytes (page_header_val h s) in
  exists status b', parquet_write_page_header h s carquet_buffer_init = Some (status, b') /\ is_ok status = true /\ buf_bytes b' = bs /\
    parquet_parse_page_header (Some (bs ++ [1; 2])) (lenZ (bs ++ [1; 2])) ph_zero 0 = Some (CARQUET_OK, read_page_header h, lenZ bs).
Proof.
  intros A h s bs. destruct (page_header_roundtrip (A := A) h s carquet_buffer_init) as (st & b' & E & _ & H & T).
  - apply (bool_decide_unpack _). vm_compute. exact I.
  - apply (bool_decide_unpack _). vm_compute. exact I.
  - apply init_wf.
  - assert (is_ok st = true) as Hok by (apply T; [exact limited_alloc_total|reflexivity|vm_compute; reflexivity]).
    exists st, b'. split; [exact E|]. split; [exact Hok|]. destruct (H Hok) as [EB HP]. split; [exact EB|].
    apply HP; [apply (bool_decide_unpack _); vm_compute; exact I|vm_compute; reflexivity].
Defined.
