(* ===== verification/LogicalRoundtrip.v ===== *)
(** * Logical types: what is written is read back (carquet/thrift/parquet_types.c)

    What the union of a logical type is after [write_logical_type] and
    [parse_logical_type]: the members of the type, in an otherwise cleared union. *)

From S2P Require Import Prelude Status Endian Memory Buffer Arena ThriftDecode ThriftEncode ThriftRoundtrip ThriftParse ParquetTypes ParquetParse ParquetWrite ParquetValues HeaderRoundtrip.

#[local] Open Scope Z_scope.

(** ** The union after a round trip *)

Definition pad (n : nat) (bs : list Z) : list Z := bs ++ replicate (n - length bs) 0.

Definition read_unit (lt : carquet_logical_type_t) : Z :=
  if param_i32 lt 0 =? CARQUET_TIME_UNIT_MILLIS then CARQUET_TIME_UNIT_MILLIS else
  if param_i32 lt 0 =? CARQUET_TIME_UNIT_MICROS then CARQUET_TIME_UNIT_MICROS else CARQUET_TIME_UNIT_NANOS.

(** The members of the type. *)
Definition read_params (lt : carquet_logical_type_t) : list Z :=
  let id := lt_id lt in
  if id =? CARQUET_LOGICAL_DECIMAL then take 8 (lt_params lt) else
  if (id =? CARQUET_LOGICAL_TIME) || (id =? CARQUET_LOGICAL_TIMESTAMP) then carquet_write_i32_le (read_unit lt) ++ [Z.b2z (param_bool lt 4)] else
  if id =? CARQUET_LOGICAL_INTEGER then [u8 (param_i8 lt 0); Z.b2z (param_bool lt 1)] else
  if id =? CARQUET_LOGICAL_VARIANT then [u8 (variant_version lt)] else
  if id =? CARQUET_LOGICAL_GEOMETRY then crs_text lt else
  if id =? CARQUET_LOGICAL_GEOGRAPHY then
    if param_bool lt 132 then pad 128 (crs_text lt) ++ take 4 (drop 128 (lt_params lt)) ++ [1] else crs_text lt
  else [].

Definition read_logical (lt : carquet_logical_type_t) : carquet_logical_type_t :=
  mk_logical_type (if (1 <=? lt_id lt) && (lt_id lt <=? 17) then lt_id lt else CARQUET_LOGICAL_UNKNOWN) (pad 136 (read_params lt)).

(** ** Stores *)

Lemma wr_n_mid (a b c b' : list Z) i : i = lenZ a -> length b' = length b -> wr_n (a ++ b ++ c) i b' = Some (a ++ b' ++ c).
Proof.
  intros -> Hl. rewrite wr_n_Some by (rewrite ?length_app; lia). rewrite Nat2Z.id, take_app_length. f_equal. f_equal. f_equal.
  replace (Z.to_nat (lenZ a + lenZ b')) with (length a + length b)%nat by lia. by rewrite <- drop_drop, !drop_app_length.
Qed.

Lemma wr_mid (a c : list Z) x y i : i = lenZ a -> wr (a ++ x :: c) i y = Some (a ++ y :: c).
Proof.
  intros ->. rewrite wr_Some by (rewrite length_app; cbn; lia). by rewrite Nat2Z.id, insert_app_r_alt, Nat.sub_diag by lia.
Qed.

Lemma get_i32_bytes u off : bytes_ok u -> 0 <= off -> off + 4 <= lenZ u ->
  carquet_write_i32_le (default 0 (get_i32 u off)) = take 4 (drop (Z.to_nat off) u).
Proof.
  intros Hb H0 Hl. unfold get_i32. rewrite rd_n_Some by lia. change (Z.to_nat 4) with 4%nat. cbn [fmap option_fmap option_map default from_option id].
  apply put_get_i32; [by apply Forall_take, Forall_drop|]. rewrite length_take, length_drop. lia.
Qed.

Lemma length_write_i32 v : length (carquet_write_i32_le v) = 4%nat.
Proof. done. Qed.

Section Logical.
Context {St : Type} (I : nat -> St -> Prop) {IB : Budget I}.

(** A member read and stored. *)
Lemma vreads_param K {A} (m : pdec St A) (store : A -> list Z -> option (list Z)) lt room v x p : is_bool v = false ->
  preads I K m room (val_bytes v) x -> store x (lt_params lt) = Some p ->
  vreads I K (x ← m; in_params lt (store x)) room v (mk_logical_type (lt_id lt) p).
Proof.
  intros Hv Hm Hs. eapply vreads_then; [done|done|]. unfold in_params. eapply preads_bind_nil; [by apply preads_access|apply preads_ret].
Qed.

Lemma vreads_param_bool K (store : bool -> list Z -> option (list Z)) lt room b p : store b (lt_params lt) = Some p ->
  vreads I K (x ← lift thrift_read_bool; in_params lt (store x)) room (VBool b) (mk_logical_type (lt_id lt) p).
Proof.
  intros Hs. apply vreads_bool. unfold in_params. eapply preads_bind_nil; [by apply preads_access|apply preads_ret].
Qed.

Lemma decimal_reads K lt room : bytes_ok (lt_params lt) -> length (lt_params lt) = 136%nat -> 0 < room ->
  preads I K (parse_fields parse_decimal (mk_logical_type CARQUET_LOGICAL_DECIMAL (replicate 136 0))) room
    (val_bytes (VStruct ([(1, VI32 (param_i32 lt 4))] ++ [(2, VI32 (param_i32 lt 0))])))
    (mk_logical_type CARQUET_LOGICAL_DECIMAL (pad 136 (take 8 (lt_params lt)))).
Proof.
  intros Hb Hl Hr. apply preads_struct; [done|lia|].
  destruct (get_i32_whole (lt_params lt) 0 136 Hl) as [_ R0]; [lia|lia|]. destruct (get_i32_whole (lt_params lt) 4 136 Hl) as [_ R4]; [lia|lia|].
  eapply chain_app; apply chain_one; try idok; apply vreads_next.
  - eapply (vreads_param K _ (λ v p, put_i32 p 4 v)); [done|by apply preads_i32|].
    cbn [lt_params]. apply (wr_n_mid (replicate 4 0) (replicate 4 0) (replicate 128 0)); [done|apply length_write_i32].
  - eapply (vreads_param K _ (λ v p, put_i32 p 0 v) (mk_logical_type _ _)); [done|by apply preads_i32|].
    cbn [lt_params]. rewrite <- (app_nil_l (replicate 4 0 ++ _)).
    unfold put_i32. rewrite wr_n_mid by (done || apply length_write_i32). f_equal. unfold param_i32.
    rewrite !get_i32_bytes by (done || lia). change (Z.to_nat 0) with 0%nat. change (Z.to_nat 4) with 4%nat.
    unfold pad. rewrite length_take, Hl. change (136 - 8 `min` 136)%nat with 128%nat. cbn [app]. by rewrite app_assoc, drop_0, take_take_drop.
Qed.

Lemma parse_unit_eq lt t x : parse_unit (St := St) t (unit_field lt) x = (x ← in_params x (λ p, put_i32 p 0 (read_unit lt)); skip t;; mret x).
Proof. unfold parse_unit, unit_field, read_unit. by repeat case_match. Qed.

Lemma time_reads K lt id room : length (lt_params lt) = 136%nat -> 2 < room ->
  preads I K (parse_fields parse_time (mk_logical_type id (replicate 136 0))) room (val_bytes (time_val lt))
    (mk_logical_type id (pad 136 (carquet_write_i32_le (read_unit lt) ++ [Z.b2z (param_bool lt 4)]))).
Proof.
  intros Hl Hr. unfold time_val. apply preads_struct; [done|lia|].
  eapply chain_app; apply chain_one; try idok; apply vreads_next.
  - apply (vreads_param_bool K (λ v p, put_bool p 4 v)). apply (wr_mid (replicate 4 0) (replicate 131 0)). done.
  - apply vreads_preads; [done|]. apply preads_struct; [done|lia|].
    apply chain_one; [unfold unit_field; repeat case_match; idok|]. apply vreads_next.
    rewrite parse_unit_eq. eapply vreads_store; [apply (wr_n_mid [] (replicate 4 0)); [done|apply length_write_i32]|].
    eapply vreads_bind; [apply (vreads_skip I); [split; [lia|done]|lia]|]. cbn [lt_id]. unfold pad. rewrite length_app, length_write_i32. cbn [length app].
    rewrite <- app_assoc. apply preads_ret.
Qed.

Lemma integer_reads K lt room : 0 < room -> length (lt_params lt) = 136%nat ->
  preads I K (parse_fields parse_integer (mk_logical_type CARQUET_LOGICAL_INTEGER (replicate 136 0))) room
    (val_bytes (VStruct ([(1, VByte (param_i8 lt 0))] ++ [(2, VBool (param_bool lt 1))])))
    (mk_logical_type CARQUET_LOGICAL_INTEGER (pad 136 [u8 (param_i8 lt 0); Z.b2z (param_bool lt 1)])).
Proof.
  intros Hr Hl. apply preads_struct; [done|lia|]. destruct (get_i8_whole (lt_params lt) 0 136 Hl) as [_ R]; [lia|]. fold (param_i8 lt 0) in R.
  eapply chain_app; apply chain_one; try idok; apply vreads_next.
  - eapply (vreads_param K _ (λ v p, put_i8 p 0 (i8 v))); [done|by apply preads_byte|].
    unfold i8. rewrite wrap_signed_small by (lia || done). apply (wr_mid [] (replicate 135 0)). done.
  - apply (vreads_param_bool K (λ v p, put_bool p 1 v) (mk_logical_type _ _)). apply (wr_mid [_] (replicate 134 0)). done.
Qed.

(** The version is 1 until the field says otherwise, which it always does. *)
Lemma variant_reads K lt room : 0 < room -> length (lt_params lt) = 136%nat ->
  preads I K (lt ← in_params (mk_logical_type CARQUET_LOGICAL_VARIANT (replicate 136 0)) (λ p, put_i8 p 0 1); parse_fields parse_variant lt) room
    (val_bytes (VStruct [(1, VByte (variant_version lt))])) (mk_logical_type CARQUET_LOGICAL_VARIANT (pad 136 [u8 (variant_version lt)])).
Proof.
  intros Hr Hl. rewrite <- (app_nil_l (val_bytes _)). destruct (get_i8_whole (lt_params lt) 0 136 Hl) as [_ R]; [lia|].
  assert (in_i 8 (variant_version lt)) as RV by (unfold variant_version; case_match; [done|idok]).
  eapply preads_bind.
  { unfold in_params. eapply preads_bind_nil; [apply preads_access, (wr_mid [] (replicate 135 0)); done|apply preads_ret]. }
  apply preads_struct; [done|lia|]. apply chain_one; [idok|]. apply vreads_next.
  eapply (vreads_param K _ (λ v p, put_i8 p 0 (i8 v))); [done|by apply preads_byte|].
  unfold i8. rewrite wrap_signed_small by (lia || done). apply (wr_mid [] (replicate 135 0)). done.
Qed.

(** A CRS: its text has at least one byte and fits with its terminator. *)
Lemma crs_reads K id bs rest room : bytes_ok bs -> (1 <= length bs <= 127)%nat -> length rest = 8%nat ->
  preads I K (parse_crs (mk_logical_type id (replicate 128 0 ++ rest))) room (val_bytes (VBinary bs)) (mk_logical_type id (pad 128 bs ++ rest)).
Proof.
  intros Hb Hl Hr. apply preads_binary; [done|done|lia|]. intros p d s B Hp HI. exists s.
  split; [|apply (budget_less _ _ _ HI); lia]. unfold CARQUET_GEOSPATIAL_CRS_MAX. rewrite Z.gtb_ltb. decide_bool.
  assert ((if lenZ bs <? 128 - 1 then lenZ bs else 128 - 1) = lenZ bs) as -> by (case_bool; lia).
  assert (length bs <= length p)%nat by (rewrite <- Hp, length_take; lia).
  rewrite rd_n_Some by lia. change (Z.to_nat 0) with 0%nat. rewrite drop_0, Nat2Z.id, Hp.
  unfold in_params, access, mbind, pdec_bind. cbn [mbind option_bind lt_params lt_id].
  assert (replicate 128 0 ++ rest = [] ++ replicate (length bs) 0 ++ (replicate (128 - length bs) 0 ++ rest)) as ->.
  { cbn [app]. rewrite app_assoc, <- replicate_add. do 2 f_equal. lia. }
  rewrite wr_n_mid by (rewrite ?length_replicate; done). cbn [mbind option_bind lt_params lt_id app]. unfold mret, pdec_ret.
  replace (128 - length bs)%nat with (S (127 - length bs)) by lia. cbn [replicate app lt_params lt_id].
  rewrite (wr_mid bs) by done. unfold pad. replace (128 - length bs)%nat with (S (127 - length bs)) by lia. cbn [replicate mbind option_bind lt_id].
  by rewrite <- app_assoc.
Qed.

Lemma pad_split bs : (length bs <= 128)%nat -> pad 136 bs = pad 128 bs ++ replicate 8 0.
Proof. intros H. unfold pad. rewrite <- app_assoc, <- replicate_add. do 2 f_equal. lia. Qed.

Lemma length_pad n bs : (length bs <= n)%nat -> length (pad n bs) = n.
Proof. intros H. unfold pad. rewrite length_app, length_replicate. lia. Qed.

(** The text of a CRS, as the writer sees it. *)
Definition crs_ok (lt : carquet_logical_type_t) : Prop :=
  bytes_ok (lt_params lt) /\ length (lt_params lt) = 136%nat /\ 0 ∈ take 128 (lt_params lt).

Lemma crs_text_ok lt : crs_ok lt -> bytes_ok (crs_text lt) /\ (length (crs_text lt) <= 127)%nat /\
  (default 0 (rd (lt_params lt) 0) <> 0 -> (1 <= length (crs_text lt))%nat) /\ (default 0 (rd (lt_params lt) 0) = 0 -> crs_text lt = []).
Proof.
  intros (Hb & Hl & H0). unfold crs_text. destruct (text_ok (Some (take 128 (lt_params lt)))) as [Hb' _].
  { split; [by apply Forall_take|]. split; [done|]. rewrite length_take. lia. }
  change (text_of (Some (take 128 (lt_params lt)))) with (c_text (take 128 (lt_params lt))) in Hb'.
  pose proof (c_text_short _ H0) as Hs. rewrite length_take in Hs. split; [done|]. split; [lia|].
  destruct (lt_params lt) as [|c u]; [done|]. change (default 0 (rd (c :: u) 0)) with c. cbn [take c_text].
  destruct (Z.eqb_spec c 0); cbn [length]; split; (done || lia).
Qed.

Lemma chain_crs K {R} (body : Z -> Z -> carquet_logical_type_t -> pdec St (option R * carquet_logical_type_t)) room id lt : crs_ok lt ->
  (forall t x, body t 1 x = (x ← parse_crs x; mret (None, x))) ->
  chain I K body room (crs_val lt) (mk_logical_type id (replicate 136 0)) (mk_logical_type id (pad 136 (crs_text lt))).
Proof.
  intros Hc Hx. destruct (crs_text_ok lt Hc) as (Hb & Hl & H1 & H2). unfold crs_val. apply chain_if; [idok| |].
  - intros E%negb_false_iff%Z.eqb_eq. by rewrite H2.
  - intros E%negb_true_iff%Z.eqb_neq. rewrite Hx. eapply vreads_then; [done| |apply preads_ret]. rewrite pad_split by lia.
    apply (crs_reads K id _ (replicate 8 0)); [done|auto|done].
Qed.

Lemma geometry_reads K lt room : crs_ok lt -> 0 < room ->
  preads I K (parse_fields parse_geometry (mk_logical_type CARQUET_LOGICAL_GEOMETRY (replicate 136 0))) room
    (val_bytes (VStruct (crs_val lt))) (mk_logical_type CARQUET_LOGICAL_GEOMETRY (pad 136 (crs_text lt))).
Proof. intros. apply preads_struct; [done|lia|]. by apply chain_crs. Qed.

Lemma geography_reads K lt room : crs_ok lt -> 0 < room ->
  preads I K (parse_fields parse_geography (mk_logical_type CARQUET_LOGICAL_GEOGRAPHY (replicate 136 0))) room
    (val_bytes (VStruct (crs_val lt ++ if_val (param_bool lt 132) 2 (VI32 (param_i32 lt 128)))))
    (mk_logical_type CARQUET_LOGICAL_GEOGRAPHY (pad 136
      (if param_bool lt 132 then pad 128 (crs_text lt) ++ take 4 (drop 128 (lt_params lt)) ++ [1] else crs_text lt))).
Proof.
  intros Hc Hr. apply preads_struct; [done|lia|]. eapply chain_app; [by apply chain_crs|].
  destruct Hc as (Hb & Hl & H0). destruct (crs_text_ok lt) as (_ & Hlen & _ & _); [by split|].
  destruct (get_i32_whole (lt_params lt) 128 136 Hl) as [_ R]; [lia|lia|].
  apply chain_if; [idok|by intros ->|]. intros ->. apply vreads_next. eapply vreads_then; [done|by apply preads_i32|].
  eapply preads_bind_nil; unfold in_params.
  - eapply preads_bind_nil; [|apply preads_ret]. apply preads_access. cbn [lt_params]. rewrite pad_split by lia.
    apply (wr_n_mid (pad 128 (crs_text lt)) (replicate 4 0) (replicate 4 0)); [rewrite length_pad by lia; done|apply length_write_i32].
  - eapply preads_bind_nil; [|apply preads_ret]. apply preads_access. cbn [lt_params]. unfold param_i32. rewrite get_i32_bytes by (done || lia).
    change (Z.to_nat 128) with 128%nat. unfold put_bool. rewrite app_assoc.
    change (replicate 4 0) with (0 :: replicate 3 0). rewrite wr_mid; [|rewrite length_app, length_pad, length_take, length_drop by lia; lia].
    unfold pad at 2. rewrite !length_app, length_pad, length_take, length_drop, Hl by lia. by rewrite <- !app_assoc.
Qed.

(** The types without parameters. *)
Lemma plain_reads K id room : 0 <= room ->
  vreads I K (skip (type_of (VStruct []));; mret (with_id id lt_zero)) (room + 1) (VStruct []) (mk_logical_type id (pad 136 [])).
Proof. intros Hr. eapply vreads_bind; [apply (vreads_skip I); [split; [lia|done]|lia]|]. apply preads_ret. Qed.

Lemma logical_chain K lt room : logical_ok lt -> 3 < room ->
  exists fs, logical_val lt = VStruct fs /\ chain I K (λ t f x, next (parse_logical_field t f x)) (room - 1) fs lt_zero (read_logical lt).
Proof.
  intros (Hb & Hl & Hg) Hr. eexists. split; [reflexivity|]. replace (room - 1) with (room - 2 + 1) by lia.
  assert (lt_id lt = 16 \/ lt_id lt = 17 -> crs_ok lt) as Hc by (intros ?; split_and!; auto).
  unfold read_logical, read_params.
  repeat match goal with |- context [if lt_id lt =? ?n then [(?id, ?v)] else _] =>
    destruct (Z.eqb_spec (lt_id lt) n) as [E|?];
      [rewrite E; apply chain_one; [idok|]; apply vreads_next; try (apply plain_reads; lia)|] end.
  - apply vreads_preads; [done|]. apply decimal_reads; (done || lia).
  - apply vreads_preads; [done|]. apply time_reads; (done || lia).
  - apply vreads_preads; [done|]. apply time_reads; (done || lia).
  - apply vreads_preads; [done|]. apply integer_reads; (done || lia).
  - apply vreads_preads; [done|]. apply variant_reads; (done || lia).
  - apply vreads_preads; [done|]. apply geometry_reads; [auto|lia].
  - apply vreads_preads; [done|]. apply geography_reads; [auto|lia].
  - assert ((1 <=? lt_id lt) && (lt_id lt <=? 17) = false) as -> by (apply andb_false_iff;
      unfold CARQUET_LOGICAL_STRING, CARQUET_LOGICAL_MAP, CARQUET_LOGICAL_LIST, CARQUET_LOGICAL_ENUM, CARQUET_LOGICAL_DECIMAL, CARQUET_LOGICAL_DATE,
        CARQUET_LOGICAL_TIME, CARQUET_LOGICAL_TIMESTAMP, CARQUET_LOGICAL_INTEGER, CARQUET_LOGICAL_NULL, CARQUET_LOGICAL_JSON, CARQUET_LOGICAL_BSON,
        CARQUET_LOGICAL_UUID, CARQUET_LOGICAL_FLOAT16, CARQUET_LOGICAL_VARIANT, CARQUET_LOGICAL_GEOMETRY, CARQUET_LOGICAL_GEOGRAPHY in *; lia).
    constructor.
Qed.

Lemma logical_reads K lt room : logical_ok lt -> 3 < room ->
  preads I K parse_logical_type room (val_bytes (logical_val lt)) (read_logical lt).
Proof.
  intros Hl Hr. destruct (logical_chain K lt room Hl Hr) as (fs & -> & HC). apply preads_struct; [done|lia|exact HC].
Qed.

End Logical.
