(* ===== verification/FooterRoundtrip.v ===== *)
(** * The file footer: what is written is read back (carquet/thrift/parquet_types.c)

    What each structure of the footer is after its writer and its parser, and the round
    trip of the whole footer through an arena with room for it. *)

From S2P Require Import Prelude Status Endian Memory Buffer Arena ThriftDecode ThriftEncode ThriftRoundtrip ThriftParse ParquetTypes ParquetParse ParquetWrite ParquetSafe ParquetValues HeaderRoundtrip LogicalRoundtrip.
From coqutil Require Import Datatypes.RecordSetters.
Import RecordSetters.TriangleBracketNotations.

#[local] Open Scope Z_scope.

(** ** The structures after a round trip *)

(** A string that was written: its text, terminated; NULL is written as the empty text. *)
Definition read_str (s : cstring) : cstring := Some (text_of s ++ [0]).

(** A string that is written only if there is one. *)
Definition read_opt_str (s : cstring) : cstring := if bool_decide (is_Some s) then read_str s else None.

(** Empty binary data is not written. *)
Definition read_bin (b : binary) : binary := if present b then (Some (take (Z.to_nat b.2) (default [] b.1)), b.2) else (None, 0).

Definition read_statistics (s : parquet_statistics_t) : parquet_statistics_t :=
  mk_statistics (read_bin (st_max_deprecated s)) (read_bin (st_min_deprecated s)) (st_null_count s) (st_distinct_count s)
    (read_bin (st_max_value s)) (read_bin (st_min_value s)) (st_is_max_value_exact s) (st_is_min_value_exact s).

(** The legacy fields are filled in before the element is written, and a logical type
    that is not written is derived from them when it is read. *)
Definition read_compat (e : parquet_schema_element_t) : parquet_schema_element_t :=
  mk_schema_element (se_type e) (Z.max 0 (se_type_length e)) (se_repetition_type e) (read_opt_str (se_name e)) (Z.max 0 (se_num_children e))
    (se_converted_type e) (se_scale e) (se_precision e) (se_field_id e) (read_logical <$> known_logical e).

Definition read_schema_element (e : parquet_schema_element_t) : parquet_schema_element_t :=
  let r := read_compat (compat e) in default r (complete_schema_element r).

Definition read_geospatial (g : parquet_geospatial_statistics_t) : parquet_geospatial_statistics_t :=
  let v := geo_valid g in let z := v && geo_has_z g in let m := v && geo_has_m g in
  mk_geospatial v (if v then geo_xmin g else 0) (if v then geo_xmax g else 0) (if v then geo_ymin g else 0) (if v then geo_ymax g else 0)
    z (if z then geo_zmin g else 0) (if z then geo_zmax g else 0) m (if m then geo_mmin g else 0) (if m then geo_mmax g else 0)
    (pad 64 (geo_list g)) (geo_num_types g).

(** The key-value pairs and the page encoding statistics of a column are not written. *)
Definition read_column_metadata (m : parquet_column_metadata_t) : parquet_column_metadata_t :=
  mk_column_metadata (cm_type m) (cm_encodings m) (map read_str (cm_path_in_schema m)) (cm_codec m) (cm_num_values m)
    (cm_total_uncompressed_size m) (cm_total_compressed_size m) [] (cm_data_page_offset m) (cm_index_page_offset m)
    (cm_dictionary_page_offset m) (read_statistics <$> cm_statistics m) [] (cm_bloom_filter_offset m) (cm_bloom_filter_length m)
    (read_geospatial <$> cm_geospatial_statistics m).

Definition read_column_chunk (c : parquet_column_chunk_t) : parquet_column_chunk_t :=
  mk_column_chunk (read_opt_str (cc_file_path c)) (cc_file_offset c) (read_column_metadata <$> cc_metadata c) (cc_offset_index_offset c)
    (cc_offset_index_length c) (cc_column_index_offset c) (cc_column_index_length c).

Definition read_row_group (rg : parquet_row_group_t) : parquet_row_group_t :=
  mk_row_group (map read_column_chunk (rg_columns rg)) (rg_total_byte_size rg) (rg_num_rows rg) (rg_sorting_columns rg)
    (rg_file_offset rg) (rg_total_compressed_size rg) (rg_ordinal rg).

Definition read_key_value (kv : parquet_key_value_t) : parquet_key_value_t := mk_key_value (read_str (kv_key kv)) (read_opt_str (kv_value kv)).

Definition read_file_metadata (m : parquet_file_metadata_t) : parquet_file_metadata_t :=
  mk_file_metadata (fm_version m) (map read_schema_element (fm_schema m)) (fm_num_rows m) (map read_row_group (fm_row_groups m))
    (map read_key_value (fm_key_value_metadata m)) (read_opt_str (fm_created_by m)) (Z.max 0 (fm_num_column_orders m)).

(** ** Strings, binary data and arrays from the arena *)

Lemma c_text_no_nul m : Forall (λ c, c <> 0) (c_text m).
Proof. induction m as [|c m IH]; cbn; [apply Forall_nil_2|]. destruct (Z.eqb_spec c 0); [apply Forall_nil_2|by apply Forall_cons_2]. Qed.

(** [strnlen] on memory that starts with text of that length. *)
Lemma string_length_prefix bs : forall p, Forall (λ c, c <> 0) bs -> take (length bs) p = bs -> string_length (length bs) p = Some (lenZ bs).
Proof.
  induction bs as [|c bs IH]; intros p Hf Hp; [done|]. apply Forall_cons_iff in Hf as [Hc Hf]. destruct p as [|x p]; [done|].
  cbn [length take] in Hp. injection Hp as -> Hp. cbn [length string_length]. destruct (Z.eqb_spec c 0); [done|].
  rewrite IH by done. cbn. f_equal. lia.
Qed.

Section Arena.
Context {Sp : AddressSpace}.

Definition room_for (n : nat) (a : carquet_arena_t) : Prop := arena_room (Z.of_nat n) a.

#[export] Instance room_budget : Budget room_for.
Proof. intros n m a H Hm used b size al R Hs Hu. apply (H used b size al R Hs). lia. Qed.

Lemma room_take n B a size al : room_for (n + B) a -> 0 < size <= Z.of_nat n -> al = 1 \/ al = 16 ->
  exists p a', carquet_arena_alloc_aligned a size al = Some (Some p, a') /\ room_for B a'.
Proof.
  intros H Hs Hal. apply room_alloc; [|lia|lia|done]. intros used b sz al' R Hsz Hu Hal'. apply (H used b sz al' R Hsz); [lia|done].
Qed.

Lemma strdup_reads room s : cstr_ok s -> preads room_for 1 arena_strdup_thrift room (val_bytes (str_val s)) (read_str s).
Proof.
  intros Hs. destruct (text_ok s Hs) as [Hb Hl]. unfold str_val, read_str. set (bs := text_of s) in *. apply preads_binary; [exact _|done|done|].
  intros p d a B Hp HI. unfold on_state, mbind, pdec_bind. cbn [mbind option_bind carquet_arena_strndup].
  assert (length bs <= length p)%nat by (rewrite <- Hp, length_take; lia).
  rewrite Nat2Z.id, string_length_prefix; [|by apply c_text_no_nul|done]. cbn [mbind option_bind].
  rewrite rd_n_Some by lia. change (Z.to_nat 0) with 0%nat. rewrite drop_0, Nat2Z.id, Hp. cbn [mbind option_bind].
  rewrite u64_small by lia.
  destruct (room_take (length bs + 1) B a (lenZ bs + 1) 1) as (ptr & a' & E & I'); [by rewrite Nat.mul_1_l in HI|lia|by left|].
  rewrite E. exists a'. split; [done|done].
Qed.

Lemma bindup_reads room b : bin_ok b -> present b = true -> preads room_for 1 arena_bindup_thrift room (val_bytes (bin_val b)) (read_bin b).
Proof.
  intros Hb Hp. unfold read_bin. rewrite Hp. destruct b as [[m|] n]; [|done]. unfold present, bin_ok, bin_val in *. cbn [fst snd] in *.
  change (default [] (Some m)) with m. rewrite Z.gtb_ltb in Hp. apply Z.ltb_lt in Hp. destruct Hb as (Hb & Hn & Hn').
  set (bs := take (Z.to_nat n) m). assert (lenZ bs = n) as El by (unfold bs; rewrite length_take; lia). rewrite <- El.
  apply preads_binary; [exact _|by apply Forall_take|lia|].
  intros p d a B Hbs HI. decide_bool. unfold on_state, mbind, pdec_bind. cbn [mbind option_bind carquet_arena_memdup]. decide_bool.
  assert (length bs <= length p)%nat by (rewrite <- Hbs, length_take; lia).
  rewrite rd_n_Some by lia. change (Z.to_nat 0) with 0%nat. rewrite drop_0, Nat2Z.id, Hbs. cbn [mbind option_bind].
  destruct (room_take (length bs + 1) B a (lenZ bs) 16) as (ptr & a' & E & I'); [by rewrite Nat.mul_1_l in HI|lia|by right|].
  unfold carquet_arena_alloc, CARQUET_ARENA_ALIGNMENT. rewrite E. exists a'. split; [done|done].
Qed.

(** An array is allocated, then filled. *)
Lemma calloc_room B a count size : 0 < count <= 100000 -> 0 < size <= 1000 -> room_for (Z.to_nat size * Z.to_nat count + B) a ->
  exists p a', carquet_arena_calloc a count size = Some (Some p, a') /\ room_for B a'.
Proof.
  intros Hc Hs HI. unfold carquet_arena_calloc. rewrite u64_small by nia. destruct (Z.eqb_spec count 0); [lia|].
  rewrite (Z.mul_comm count), Z.div_mul by lia. rewrite Z.eqb_refl. cbn [negb andb].
  destruct (room_take (Z.to_nat size * Z.to_nat count) B a (size * count) 16) as (p & a' & E & I'); [done|nia|by right|].
  unfold carquet_arena_alloc, CARQUET_ARENA_ALIGNMENT. rewrite E. by eexists _, _.
Qed.

Lemma array_reads K size {A T} (f : pdec carquet_arena_t A) room (g : T -> tval) (h : T -> A) l d q a B :
  lenZ l <= 100000 -> 0 < size <= 1000 -> Forall (λ v, preads room_for K f room (val_bytes (g v)) (h v)) l ->
  td_wf d -> td_ok d -> td_rest d = concat (map val_bytes (map g l)) ++ q -> td_nesting_level d + room <= 32 -> td_bool_pending d = false ->
  room_for (Z.to_nat size * length l + (K * length (concat (map val_bytes (map g l))) + B)) a ->
  exists d' a', arena_array (lenZ l) size f d a = Some (map h l, d', a') /\
    skipped (td_nesting_level d) (concat (map val_bytes (map g l))) d d' /\ room_for B a'.
Proof.
  intros Hl Hs Hf W Hd E Hr Hb HI. rewrite map_map in *. pose proof (preads_for_n room_for K f room (λ v, val_bytes (g v)) h l Hf) as HP.
  unfold arena_array, on_state, mbind at 1, pdec_bind at 1. destruct (Z.eqb_spec (lenZ l) 0) as [E0|E0].
  - destruct l; [|cbn in E0; lia]. unfold carquet_arena_calloc. change (u64 (lenZ [] * size)) with 0.
    apply (HP d q a B W Hd E Hr Hb). apply (budget_less _ _ _ HI). lia.
  - destruct (calloc_room (K * length (concat (map (λ v, val_bytes (g v)) l)) + B) a (lenZ l) size) as (p & a' & E1 & I1); [lia|done| |].
    { by rewrite Nat2Z.id. }
    rewrite E1. cbn [mbind option_bind]. rewrite Nat2Z.id. by apply (HP d q a' B W Hd E Hr Hb).
Qed.

Lemma list_field_reads K K' size max {A T S} (x : S) (f : pdec carquet_arena_t A) store room t (g : T -> tval) (h : T -> A) l y :
  0 <= t < 16 -> lenZ l <= max <= 100000 -> 0 < size <= 1000 -> (forall v, 1 <= length (val_bytes (g v)))%nat ->
  y = (None, store (map h l)) -> Forall (λ v, preads room_for K f room (val_bytes (g v)) (h v)) l ->
  (Z.to_nat size + K <= K')%nat -> preads room_for K' (list_field (@arena_array Sp) x max size f store) room (val_bytes (VList t (map g l))) y.
Proof.
  intros Ht Hl Hs Hb -> Hf HK. eapply preads_weaken; [exact _|exact HK|reflexivity|].
  apply (preads_list room_for K (Z.to_nat size)); [done|rewrite length_map; lia|by apply Forall_map, Forall_true|].
  intros d q a B W Hd E Hr Hp HI. rewrite length_map in *.
  destruct (array_reads K size f room g h l d q a B) as (d' & a' & E' & SK & I'); [lia|done..|].
  exists d', a'. split; [|done]. unfold VALIDATE_COUNT. rewrite Z.gtb_ltb. decide_bool. cbn [orb]. unfold mbind, pdec_bind, mret, pdec_ret.
  by rewrite E'.
Qed.

Lemma meta_list_reads K K' size max {A T} x (f : pdec carquet_arena_t A) store room t (g : T -> tval) (h : T -> A) l y :
  0 <= t < 16 -> lenZ l <= max <= 100000 -> 0 < size <= 1000 -> (forall v, 1 <= length (val_bytes (g v)))%nat ->
  y = (None, store (map h l)) -> Forall (λ v, preads room_for K f room (val_bytes (g v)) (h v)) l ->
  (Z.to_nat size + K <= K')%nat -> preads room_for K' (meta_list_field (@arena_array Sp) x max size f store) room (val_bytes (VList t (map g l))) y.
Proof.
  intros Ht Hl Hs Hb -> Hf HK. eapply preads_weaken; [exact _|exact HK|reflexivity|].
  apply (preads_list room_for K (Z.to_nat size)); [done|rewrite length_map; lia|by apply Forall_map, Forall_true|].
  intros d q a B W Hd E Hr Hp HI. rewrite length_map in *.
  destruct (array_reads K size f room g h l d q a B) as (d' & a' & E' & SK & I'); [lia|done..|].
  exists d', a'. split; [|done]. rewrite Z.gtb_ltb. decide_bool. cbn [orb]. unfold mbind, pdec_bind, mret, pdec_ret.
  by rewrite E'.
Qed.

#[local] Hint Resolve strdup_reads bindup_reads : reads.

(** Fields of the common kinds. *)
Ltac field := apply chain_one; [idok|]; open_branch; first [stores | stores_bool].
Ltac opt_field :=
  apply chain_opt; [idok|by intros -> |
    let v := fresh in let E := fresh in intros v E; rewrite E in *; cbn [opt_ok] in *; open_branch; first [stores | stores_bool]].

Ltac binary_field := apply chain_if; [idok|by unfold read_bin; intros -> |intros ?; open_branch; stores].
Ltac string_field := apply chain_if; [idok|by unfold read_opt_str; intros -> |unfold read_opt_str; intros ->; open_branch; stores].

Lemma statistics_reads room s : statistics_ok s -> 0 < room ->
  preads room_for 1 parse_statistics room (val_bytes (statistics_val s)) (read_statistics s).
Proof.
  intros (H1 & H2 & H3 & H4 & H5 & H6) Hr. apply preads_struct; [exact _|done|]. unfold st_zero.
  step st_max_deprecated (read_bin (st_max_deprecated s)); [binary_field|].
  step st_min_deprecated (read_bin (st_min_deprecated s)); [binary_field|].
  step st_null_count (st_null_count s); [opt_field|].
  step st_distinct_count (st_distinct_count s); [opt_field|].
  step st_max_value (read_bin (st_max_value s)); [binary_field|].
  step st_min_value (read_bin (st_min_value s)); [binary_field|].
  step st_is_max_value_exact (st_is_max_value_exact s); [opt_field|]. 
  unfold read_statistics. opt_field.
Qed.

Lemma complete_total e : exists e', complete_schema_element e = Some e'.
Proof.
  unfold complete_schema_element. destruct (se_logical_type e), (se_converted_type e) as [ct|]; try by eexists.
  destruct (logical_from_converted_total ct (se_scale e) (se_precision e)) as [lt ->]. by eexists.
Qed.

(** A number that is written only when it is positive. *)
Ltac positive_field n :=
  apply chain_if; [idok | let H := fresh in intros H; rewrite Z.gtb_ltb in H; apply Z.ltb_ge in H; by rewrite (Z.max_l 0 n) by lia |
    let H := fresh in intros H; rewrite Z.gtb_ltb in H; apply Z.ltb_lt in H; rewrite (Z.max_r 0 n) by lia; open_branch; stores].
(** ... or not zero. *)
Ltac nonzero_field :=
  apply chain_if; [idok | by intros ->%negb_false_iff%Z.eqb_eq | intros _; open_branch; stores].

Lemma compat_reads room e : schema_element_ok e -> 4 < room ->
  preads room_for 1 (parse_fields parse_schema_field se_zero) room (val_bytes (compat_val e)) (read_compat e).
Proof.
  intros (H1 & H2 & H3 & H4 & H5 & H6 & H7 & H8 & H9 & H10) Hr. apply preads_struct; [exact _|lia|]. unfold se_zero.
  step se_type (se_type e); [opt_field|].
  step se_type_length (Z.max 0 (se_type_length e)); [positive_field (se_type_length e)|].
  step se_repetition_type (se_repetition_type e); [opt_field|].
  step se_name (read_opt_str (se_name e)); [string_field|].
  step se_num_children (Z.max 0 (se_num_children e)); [positive_field (se_num_children e)|].
  step se_converted_type (se_converted_type e); [opt_field|].
  step se_scale (se_scale e); [nonzero_field|].
  step se_precision (se_precision e); [nonzero_field|].
  step se_field_id (se_field_id e); [opt_field|].
  unfold read_compat. apply chain_opt; [idok|by intros ->|]. intros lt E. rewrite E. open_branch.
  eapply vreads_then; [done| |apply preads_ret]. apply logical_reads; [exact _| |lia].
  unfold known_logical in E. destruct (se_logical_type e) as [lt'|]; [|done]. cbn in E. destruct (lt_id lt' =? _); [done|]. by injection E as ->.
Qed.

Lemma schema_element_reads room e : schema_element_ok e -> 4 < room ->
  preads room_for 1 parse_schema_element room (val_bytes (schema_element_val e)) (read_schema_element e).
Proof.
  intros He Hr. destruct (compat_spec e He) as [_ Hc]. unfold parse_schema_element, schema_element_val, read_schema_element.
  rewrite <- (app_nil_r (val_bytes _)). eapply preads_bind; [by apply compat_reads|]. apply preads_access.
  by destruct (complete_total (read_compat (compat e))) as [e' ->].
Qed.

Lemma key_value_reads room kv : key_value_ok kv -> 0 < room ->
  preads room_for 1 parse_key_value room (val_bytes (key_value_val kv)) (read_key_value kv).
Proof.
  intros [H1 H2] Hr. apply preads_struct; [exact _|done|]. unfold kv_zero.
  step kv_key (read_str (kv_key kv)); [field|]. unfold read_key_value. string_field.
Qed.

Lemma sorting_reads K room sc : sorting_column_ok sc -> 0 < room ->
  preads room_for K (parse_fields parse_sorting_field sc_zero) room (val_bytes (sorting_column_val sc)) sc.
Proof.
  intros H Hr. destruct sc as [idx desc nulls]. apply preads_struct; [exact _|done|]. unfold sc_zero, sorting_column_ok in *. cbn [sc_column_idx sc_descending sc_nulls_first] in *.
  step sc_column_idx idx; [field|]. step sc_descending desc; [field|]. field.
Qed.

(** ** Column metadata *)

(** The types parsed so far; the place of the next is the number of them. *)
Definition with_types (g : parquet_geospatial_statistics_t) (l : list Z) : parquet_geospatial_statistics_t :=
  mk_geospatial (geo_valid g) (geo_xmin g) (geo_xmax g) (geo_ymin g) (geo_ymax g) (geo_has_z g) (geo_zmin g) (geo_zmax g)
    (geo_has_m g) (geo_mmin g) (geo_mmax g) (pad 64 l) (lenZ l).

Lemma geo_types_reads K room g l : Forall (in_i 32) l -> forall l0, (length l0 + length l <= 64)%nat ->
  preads room_for K (parse_geo_types (length l) (lenZ l0) (with_types g l0)) room (concat (map val_bytes (map VI32 l))) (with_types g (l0 ++ l)).
Proof.
  induction 1 as [|x l Hx _ IH]; intros l0 Hl; cbn [length parse_geo_types map concat]; [rewrite app_nil_r; apply preads_ret|].
  cbn [length] in Hl. eapply preads_bind; [by apply preads_i32; [exact _|]|]. rewrite <- (app_nil_l (concat _)). unfold CARQUET_GEO_MAX_TYPES. decide_bool.
  eapply preads_bind.
  { eapply preads_bind_nil; [|apply preads_ret]. apply preads_access. cbn [geo_types geo_num_types with_types].
    unfold pad. replace (64 - length l0)%nat with (S (63 - length l0)) by lia. cbn [replicate]. by apply wr_mid. }
  unfold i32. cbn [geo_num_types with_types]. rewrite wrap_signed_small by (lia || unfold in_i; lia).
  assert (lenZ (l0 ++ [x]) = lenZ l0 + 1) as E by (rewrite length_app; cbn; lia).
  specialize (IH (l0 ++ [x])). rewrite E in IH. rewrite <- app_assoc in IH. unfold with_types at 1 in IH. rewrite E in IH.
  unfold with_types at 1. cbn -[pad with_types Z.add]. 
  unfold constant. assert (l0 ++ x :: replicate (63 - length l0) 0 = pad 64 (l0 ++ [x])) as ->.
  { unfold pad. rewrite length_app, <- app_assoc. cbn [length app]. by replace (64 - (length l0 + 1))%nat with (63 - length l0)%nat by lia. }
  apply IH. rewrite length_app. cbn. lia.
Qed.

Lemma bounding_box_reads K room g : geospatial_ok g -> 0 < room -> geo_valid g = true ->
  preads room_for K (parse_fields parse_bounding_box geo_zero) room (val_bytes (bounding_box_val g)) (with_types (read_geospatial g) []).
Proof.
  intros (H1 & H2 & H3 & H4 & H5 & H6 & H7 & H8 & _) Hr Hv. apply preads_struct; [exact _|done|]. unfold geo_zero.
  eapply (chain_app_at _ _ _ _ _ _ (mk_geospatial true (geo_xmin g) 0 0 0 false 0 0 false 0 0 (replicate 64 0) 0)); [field|].
  step geo_xmax (geo_xmax g); [field|]. step geo_ymin (geo_ymin g); [field|]. step geo_ymax (geo_ymax g); [field|].
  unfold with_types, read_geospatial. rewrite Hv. cbn [andb geo_valid geo_xmin geo_xmax geo_ymin geo_ymax geo_has_z geo_zmin geo_zmax geo_has_m geo_mmin geo_mmax].
  eapply (chain_app_at _ _ _ _ _ _ (mk_geospatial true (geo_xmin g) (geo_xmax g) (geo_ymin g) (geo_ymax g) (geo_has_z g)
    (if geo_has_z g then geo_zmin g else 0) (if geo_has_z g then geo_zmax g else 0) false 0 0 (replicate 64 0) 0)).
  - destruct (geo_has_z g); [|constructor].
    eapply (chain_app_at _ _ _ _ _ _ (mk_geospatial true (geo_xmin g) (geo_xmax g) (geo_ymin g) (geo_ymax g) true (geo_zmin g) 0 false 0 0 (replicate 64 0) 0)); field.
  - destruct (geo_has_m g); [|constructor].
    eapply (chain_app_at _ _ _ _ _ _ (mk_geospatial true (geo_xmin g) (geo_xmax g) (geo_ymin g) (geo_ymax g) (geo_has_z g)
      (if geo_has_z g then geo_zmin g else 0) (if geo_has_z g then geo_zmax g else 0) true (geo_mmin g) 0 (replicate 64 0) 0)); field.
Qed.

Lemma geospatial_reads K room g : geospatial_ok g -> 1 < room ->
  preads room_for K parse_geospatial room (val_bytes (geospatial_val g)) (read_geospatial g).
Proof.
  intros Hg Hr. pose proof Hg as (_ & _ & _ & _ & _ & _ & _ & _ & Ht & Hl & Hn). apply preads_struct; [exact _|lia|].
  eapply (chain_app_at _ _ _ _ _ _ (with_types (read_geospatial g) [])).
  - apply chain_if; [idok|by intros E; unfold with_types, read_geospatial; rewrite E|]. intros E. open_branch.
    apply vreads_preads; [done|]. apply bounding_box_reads; [done|lia|done].
  - apply chain_one; [idok|]. open_branch. apply vreads_preads; [done|].
    assert (length (geo_list g) <= 64)%nat by (unfold geo_list; rewrite length_take; lia).
    replace (read_geospatial g) with (with_types (read_geospatial g) (geo_list g)).
    2:{ unfold with_types, read_geospatial. cbn -[pad]. f_equal. unfold geo_list. rewrite length_take. lia. }
    apply (preads_list room_for K 0 (λ _ cnt, parse_geo_types (Z.to_nat cnt) 0 (with_types (read_geospatial g) []))); [tyok|rewrite length_map; lia| |].
    + apply Forall_map, Forall_true. intros. apply bytes_i32.
    + intros d q a B W Hd E Hr' Hp HI. rewrite length_map, Nat2Z.id in *.
      apply (geo_types_reads K (room - 1) (read_geospatial g) (geo_list g)) with (l0 := []) (q := q); [|cbn; lia|done..].
      unfold geo_list. by apply Forall_take.
Qed.

Lemma preads_one K {A} (m : pdec carquet_arena_t A) room bs x : (1 <= K)%nat -> preads room_for 1 m room bs x -> preads room_for K m room bs x.
Proof. intros. by apply (preads_weaken room_for 1 K _ room). Qed.

Lemma strdup_reads_more K room s : (1 <= K)%nat -> cstr_ok s -> preads room_for K arena_strdup_thrift room (val_bytes (str_val s)) (read_str s).
Proof. intros. apply preads_one; [done|by apply strdup_reads]. Qed.

Ltac struct_value H := eapply vreads_then; [reflexivity|solve [eapply preads_weaken; [exact _| |reflexivity|apply H; [eassumption|lia]]; lia]|apply preads_ret].
Ltac opt_struct H := apply chain_opt; [idok|by intros ->|];
  let v := fresh in let E := fresh in intros v E; rewrite E in *; cbn [opt_ok] in *; open_branch; struct_value H.
Ltac list_value K sz mx :=
  open_branch; apply vreads_preads; [done|];
  eapply (list_field_reads K) with (size := sz) (max := mx);
    [tyok|lia|lia|intros; first [apply bytes_i32|apply bytes_binary|apply bytes_struct] | reflexivity | eapply Forall_impl; [|eassumption]; intros ? ? | lia].
Ltac list_of K sz mx := apply chain_one; [idok|]; list_value K sz mx.

Lemma column_metadata_reads room m : column_metadata_ok m -> 2 < room ->
  preads room_for 9 (parse_column_metadata (@arena_array Sp) parse_geospatial) room (val_bytes (column_metadata_val m)) (read_column_metadata m).
Proof.
  intros (H1 & H2 & H3 & H4 & H5 & H6 & H7 & H8 & H9 & H10 & H11 & H12 & H13 & H14 & H15 & H16) Hr. apply preads_struct; [exact _|lia|]. unfold cm_zero.
  step cm_type (cm_type m); [field|].
  step cm_encodings (map id (cm_encodings m)); [list_of 5%nat 4 100; by apply preads_i32; [exact _|]|]. rewrite map_id.
  step cm_path_in_schema (map read_str (cm_path_in_schema m)); [list_of 1%nat 8 100; by apply strdup_reads|].
  step cm_codec (cm_codec m); [field|].
  step cm_num_values (cm_num_values m); [field|].
  step cm_total_uncompressed_size (cm_total_uncompressed_size m); [field|].
  step cm_total_compressed_size (cm_total_compressed_size m); [field|].
  step cm_data_page_offset (cm_data_page_offset m); [field|].
  step cm_index_page_offset (cm_index_page_offset m); [opt_field|].
  step cm_dictionary_page_offset (cm_dictionary_page_offset m); [opt_field|].
  step cm_statistics (read_statistics <$> cm_statistics m); [opt_struct statistics_reads|].
  step cm_bloom_filter_offset (cm_bloom_filter_offset m); [opt_field|].
  step cm_bloom_filter_length (cm_bloom_filter_length m); [opt_field|].
  unfold read_column_metadata. opt_struct (geospatial_reads 1).
Qed.

Lemma column_chunk_reads room c : column_chunk_ok c -> 3 < room ->
  preads room_for 9 (parse_column_chunk (@arena_array Sp) parse_geospatial) room (val_bytes (column_chunk_val c)) (read_column_chunk c).
Proof.
  intros (H1 & H2 & H3 & H4 & H5 & H6 & H7) Hr. apply preads_struct; [exact _|lia|]. unfold cc_zero.
  step cc_file_path (read_opt_str (cc_file_path c)).
  { apply chain_if; [idok|by unfold read_opt_str; intros -> |]. unfold read_opt_str. intros ->. open_branch.
    eapply vreads_then; [done|apply strdup_reads_more; [lia|done]|apply preads_ret]. }
  step cc_file_offset (cc_file_offset c); [field|].
  step cc_metadata (read_column_metadata <$> cc_metadata c); [opt_struct column_metadata_reads|].
  step cc_offset_index_offset (cc_offset_index_offset c); [opt_field|].
  step cc_offset_index_length (cc_offset_index_length c); [opt_field|].
  step cc_column_index_offset (cc_column_index_offset c); [opt_field|].
  unfold read_column_chunk. opt_field.
Qed.

Lemma row_group_reads room rg : row_group_ok rg -> 4 < room ->
  preads room_for 697 (parse_row_group (@arena_array Sp) parse_geospatial) room (val_bytes (row_group_val rg)) (read_row_group rg).
Proof.
  intros (H1 & H2 & H3 & H4 & H5 & H6 & H7 & H8 & H9) Hr. apply preads_struct; [exact _|lia|]. unfold rg_zero.
  step rg_columns (map read_column_chunk (rg_columns rg)); [list_of 9%nat 688 10000; apply column_chunk_reads; [done|lia]|].
  step rg_total_byte_size (rg_total_byte_size rg); [field|].
  step rg_num_rows (rg_num_rows rg); [field|].
  step rg_sorting_columns (map id (rg_sorting_columns rg)).
  { apply chain_if; [idok|by destruct (rg_sorting_columns rg)|]. intros _.
    list_value 0%nat 8 10000. apply sorting_reads; [done|lia]. }
  rewrite map_id.
  step rg_file_offset (rg_file_offset rg); [opt_field|].
  step rg_total_compressed_size (rg_total_compressed_size rg); [opt_field|].
  unfold read_row_group. opt_field.
Qed.

(** The fields of the footer; the status is checked before each. *)
Ltac open_meta := apply vreads_status; intros ? ->; cbn [negb Z.eqb Pos.eqb].
Ltac meta_int := apply chain_one; [idok|]; open_meta;
  eapply vreads_bind; [eapply vreads_then; [reflexivity|solve [eauto with reads typeclass_instances]|apply preads_ret]|apply preads_ret].
Ltac meta_list K sz mx := open_meta; apply vreads_preads; [done|];
  eapply (meta_list_reads K) with (size := sz) (max := mx);
    [tyok|lia|lia|intros; first [apply bytes_i32|apply bytes_binary|apply bytes_struct] | reflexivity | eapply Forall_impl; [|eassumption]; intros ? ? | lia].

(** The column orders are counted and stepped over. *)
Lemma column_orders_read K room n x : 1 < room ->
  preads room_for K (for_n n (skip THRIFT_TYPE_STRUCT);; mret x) room (concat (map (λ _ : (), val_bytes column_order_val) (replicate n ()))) (A := option carquet_status_t * parquet_file_metadata_t) x.
Proof.
  intros Hr. rewrite <- (app_nil_r (concat _)). eapply preads_bind; [|apply preads_ret]. rewrite <- (length_replicate n ()) at 1.
  apply (preads_for_n room_for K _ room _ (λ _, ())). apply Forall_true. intros _ d q a B W Hd E Hl Hb HI.
  refine (vreads_skip room_for K room column_order_val _ _ d q a B W Hd E Hl Hb HI); [|lia]. split; [lia|]. split; [|done]. split; [cbn [fst]; idok|]. split; [lia|done].
Qed.

Lemma footer_chain m room : file_metadata_ok m -> 5 < room ->
  exists fs, file_metadata_val m = VStruct fs /\
    chain room_for 777 (parse_file_metadata_field (@arena_array Sp) parse_geospatial) (room - 1) fs fm_zero (read_file_metadata m).
Proof.
  intros (H1 & H2 & H3 & H4 & H5 & H6 & H7 & H8 & H9 & H10) Hr. eexists. split; [reflexivity|]. unfold fm_zero.
  step fm_version (fm_version m); [meta_int|].
  step fm_schema (map read_schema_element (fm_schema m)).
  { apply chain_one; [idok|]. meta_list 1%nat 208 10000. apply schema_element_reads; [done|lia]. }
  step fm_num_rows (fm_num_rows m); [meta_int|].
  step fm_row_groups (map read_row_group (fm_row_groups m)).
  { apply chain_one; [idok|]. meta_list 697%nat 80 100000. apply row_group_reads; [done|lia]. }
  step fm_key_value_metadata (map read_key_value (fm_key_value_metadata m)).
  { apply chain_if; [idok|by destruct (fm_key_value_metadata m)|]. intros _. meta_list 1%nat 16 10000. apply key_value_reads; [done|lia]. }
  step fm_created_by (read_opt_str (fm_created_by m)).
  { apply chain_if; [idok|by unfold read_opt_str; intros -> |]. unfold read_opt_str. intros ->. open_meta.
    eapply vreads_bind; [eapply vreads_then; [done|apply strdup_reads_more; [lia|done]|apply preads_ret]|apply preads_ret]. }
  unfold read_file_metadata. apply chain_if; [idok | intros H; rewrite Z.gtb_ltb in H; apply Z.ltb_ge in H; by rewrite Z.max_l by lia |].
  intros H. rewrite Z.gtb_ltb in H. apply Z.ltb_lt in H. rewrite Z.max_r by lia. open_meta. apply vreads_preads; [done|].
  eapply (preads_weaken _ (0 + 777) _ _ (room - 1)); [lia|reflexivity|]. apply (preads_list room_for 777 0); [tyok|rewrite length_map, length_replicate; lia| |].
  { apply Forall_map, Forall_true. intros. apply bytes_struct. }
  intros d q a B W Hd E Hr' Hp HI. rewrite length_map, length_replicate in *. unfold CARQUET_MAX_COLUMNS_PER_RG. rewrite Z.gtb_ltb. decide_bool. cbn [orb].
  rewrite map_map in *. rewrite !Z2Nat.id by lia.
  apply (column_orders_read 777 (room - 1) (Z.to_nat (fm_num_column_orders m)) _ ltac:(lia) d q a B W Hd E Hr' Hp).
  apply (budget_less _ _ _ HI). lia.
Qed.

End Arena.

(** The parser in front of the bytes of a footer, which end the object or not; the arena has
    [B] bytes left for others. *)
Lemma file_metadata_parses {Sp : AddressSpace} m data size q a m0 B : file_metadata_ok m -> bytes_ok data -> 0 <= size <= lenZ data -> size < 2 ^ 63 ->
  let bs := val_bytes (file_metadata_val m) in take (Z.to_nat size) data = bs ++ q -> arena_room (777 * lenZ bs + Z.of_nat B) a ->
  exists a', parquet_parse_file_metadata (Some data) size a m0 = Some (CARQUET_OK, read_file_metadata m, a') /\ room_for B a'.
Proof.
  intros Hm Hb Hs Hl bs Hq HI. destruct (footer_chain m 32 Hm) as (fs & E & HC); [lia|]. unfold bs in *. clear bs. rewrite E in *.
  set (bs := val_bytes (VStruct fs)) in *. set (d := thrift_decoder_init data size).
  assert (td_wf d) as W by (apply thrift_decoder_init_wf; (done || lia)). assert (td_rest d = bs ++ q) as ER.
  { rewrite <- Hq. change (take (Z.to_nat (size - 0)) (ptr_add data 0) = take (Z.to_nat size) data). by rewrite Z.sub_0_r. }
  destruct (struct_reads room_for 777 (parse_file_metadata_field (@arena_array Sp) parse_geospatial) 32 fs fm_zero (read_file_metadata m) d q a B)
    as (d1 & d2 & d3 & a' & E1 & E2 & E3 & SK & IB); try done.
  { unfold room_for. intros used b n al R Hn Hu. apply (HI used b n al R Hn). fold bs in Hu. lia. }
  exists a'. split; [|exact IB]. clear IB. unfold parquet_parse_file_metadata, parse_file_metadata_with. fold d. unfold mbind, pdec_bind, lift, option_bind. rewrite E1.
  cbn [mbind option_bind]. rewrite E2, E3. unfold gets. cbn [mbind option_bind]. destruct SK as [_ SO _ _ _ _]. unfold mret, pdec_ret.
  apply is_ok_true in SO. by rewrite SO.
Qed.

(** C1: the file footer round trips.  For every file metadata within the limits of the
    reader and every allocator, the writer is defined, and whenever it reports success it
    has appended to the buffer exactly the Thrift value of the metadata; from these bytes,
    with any others behind them, and an arena with room for 777 bytes per byte of footer,
    the parser reads back status OK and the same schema, row groups, columns, statistics,
    key-value pairs and counts, up to [read_file_metadata]: texts end at their first NUL,
    the key-value pairs and encoding statistics of a column are not written, and logical
    types and their legacy forms are filled in from each other.  The writer reports
    success whenever its allocator serves every request. *)
Theorem file_metadata_roundtrip {A : Allocator} {AOk : AllocatorOk A} {Sp : AddressSpace} m b :
  file_metadata_ok m -> buffer_wf b ->
  let bs := val_bytes (file_metadata_val m) in
  exists status b', parquet_write_file_metadata m b = Some (status, b') /\ buffer_wf b' /\
    (is_ok status = true -> buf_bytes b' = buf_bytes b ++ bs /\
      forall q a m0, bytes_ok q -> lenZ (bs ++ q) < 2 ^ 63 -> arena_room (777 * lenZ bs) a ->
      exists a', parquet_parse_file_metadata (Some (bs ++ q)) (lenZ (bs ++ q)) a m0 = Some (CARQUET_OK, read_file_metadata m, a')) /\
    (AllocatorTotal A -> buf_owns_data b = true -> buf_size b + lenZ bs < 2 ^ 64 -> is_ok status = true).
Proof.
  intros Hm Hb bs. destruct (written _ _ b 6 (emits_file_metadata m Hm) (depth_file_metadata m)) as (st & b' & E & W & H & T); [lia|done|].
  exists st, b'. split; [exact E|]. split; [done|]. split; [|exact T]. intros Hok. split; [exact (H Hok)|].
  intros q a m0 Hq Hl HI. destruct (file_metadata_parses m (bs ++ q) (lenZ (bs ++ q)) q a m0 0) as (a' & E' & _);
    [done| |lia|done|by rewrite Nat2Z.id, firstn_all|by rewrite Z.add_0_r|by exists a'].
  apply Forall_app. split; [|done]. pose proof (buf_bytes_ok b' W) as O. rewrite (H Hok) in O. apply Forall_app in O. apply O.
Qed.

(** A file with two schema elements, one row group of one column and a key-value pair. *)
Definition sample_metadata : parquet_file_metadata_t :=
  let geo := mk_logical_type CARQUET_LOGICAL_GEOGRAPHY ([69; 80; 83; 71; 0] ++ replicate 123 7 ++ [4; 0; 0; 0; 1; 9; 9; 9]) in
  let decimal := mk_logical_type CARQUET_LOGICAL_DECIMAL ([9; 0; 0; 0; 2; 0; 0; 0] ++ replicate 128 1) in
  let root := mk_schema_element None 0 None (Some [114; 0]) 2 None 0 0 None None in
  let column := mk_schema_element (Some 1) (-3) (Some 0) (Some [97; 98; 0; 5]) 0 None 0 0 (Some 4) (Some decimal) in
  let place := mk_schema_element (Some 6) 0 (Some 1) (Some [103; 0]) 0 None 0 0 None (Some geo) in
  let stats := mk_statistics (None, 0) (None, 0) (Some 0) None (Some [1; 2; 3; 4], 4) (Some [0], 1) (Some true) None in
  let area := mk_geospatial true 1 2 3 4 true 5 6 false 8 9 ([1; 1001] ++ replicate 62 77) 2 in
  let column_metadata := mk_column_metadata 1 [0; 3] [Some [97; 98; 0]] 1 20 100 80 [mk_key_value None None] 4 None (Some 90) (Some stats)
    [mk_encoding_stats 0 0 1] None (Some 3) (Some area) in
  let chunk := mk_column_chunk None 4 (Some column_metadata) (Some 200) (Some 10) None None in
  mk_file_metadata 2 [root; column; place] 20 [mk_row_group [chunk] 100 20 [mk_sorting_column 0 true false] (Some 4) None (Some 0)]
    [mk_key_value (Some [107; 0]) None] (Some [113; 105; 111; 0]) 2.

Lemma file_metadata_roundtrip_witness :
  let A := limited_alloc (2 ^ 64) in
  let m := sample_metadata in
  let bs := val_bytes (file_metadata_val m) in
  exists status b', parquet_write_file_metadata m carquet_buffer_init = Some (status, b') /\ is_ok status = true /\ buf_bytes b' = bs /\
    exists a', parquet_parse_file_metadata (Sp := upward_space) (Some (bs ++ [1; 2])) (lenZ (bs ++ [1; 2])) arena_0 fm_zero =
      Some (CARQUET_OK, read_file_metadata m, a').
Proof.
  intros A m bs. destruct (file_metadata_roundtrip (A := A) (Sp := upward_space) m carquet_buffer_init) as (st & b' & E & _ & H & T).
  - apply (bool_decide_unpack _). vm_compute. exact I.
  - apply init_wf.
  - assert (is_ok st = true) as Hok by (apply T; [exact limited_alloc_total|reflexivity|vm_compute; reflexivity]).
    exists st, b'. split; [exact E|]. split; [exact Hok|]. destruct (H Hok) as [EB HP]. split; [exact EB|].
    apply HP; [apply (bool_decide_unpack _); vm_compute; exact I|vm_compute; reflexivity|].
    intros used b size al R Hs Hu. apply (arena_0_room used b size al R Hs). assert (777 * lenZ bs <= 2 ^ 27) as Hn by (vm_compute; congruence).
    exact (Z.le_trans _ _ _ Hu Hn).
Defined.
