(* ===== verification/Schema.v ===== *)
(** * Schema construction and queries (carquet/metadata/schema.c)

    The schema of a file is a forest of elements in one growable array, each with the
    index of its parent; columns are the elements with a physical type, and their
    definition and repetition levels are kept in arrays of their own.  This file has the
    operations that build a schema, the queries on it, and the helpers for nested data. *)

From S2P Require Import Prelude Status Endian Memory Heap Arena ParquetTypes.
From coqutil Require Import Datatypes.RecordSetters.
Import RecordSetters.TriangleBracketNotations.

#[local] Open Scope Z_scope.

Definition CARQUET_PHYSICAL_BOOLEAN : Z := 0.
Definition CARQUET_PHYSICAL_INT32 : Z := 1.
Definition CARQUET_PHYSICAL_INT64 : Z := 2.
Definition CARQUET_PHYSICAL_BYTE_ARRAY : Z := 6.
Definition CARQUET_PHYSICAL_FIXED_LEN_BYTE_ARRAY : Z := 7.

Definition CARQUET_REPETITION_REQUIRED : Z := 0.
Definition CARQUET_REPETITION_OPTIONAL : Z := 1.
Definition CARQUET_REPETITION_REPEATED : Z := 2.

(** [floorl(bits * log10l(2.0L))] in the long double of the platform. *)
Class FloorLog10 := floor_log10_pow2 : Z -> Z.

(** That is the number of decimal digits that [bits] bits hold, for arrays up to 1 MiB. *)
Class FloorLog10Ok (F : FloorLog10) :=
  floor_log10_exact : forall bits, 0 < bits < 2 ^ 23 -> 0 <= floor_log10_pow2 bits /\ 10 ^ floor_log10_pow2 bits <= 2 ^ bits < 10 ^ (floor_log10_pow2 bits + 1).

#[export] Instance schema_element_inhabited : Inhabited parquet_schema_element_t := populate se_zero.

Section Schema.
Context {Sp : AddressSpace} {Hp : ArrayHeap} {Fl : FloorLog10}.

(** ** State *)

Record carquet_schema_t := mk_schema {
  sch_arena : carquet_arena_t;
  sch_elements : list parquet_schema_element_t;
  sch_parent_indices : list Z;     (* int32_t, -1 for the root *)
  sch_num_elements : Z;
  sch_capacity : Z;
  sch_leaf_indices : list Z;       (* int32_t: leaf index -> element index *)
  sch_num_leaves : Z;
  sch_max_def_levels : list Z;     (* int16_t, per leaf *)
  sch_max_rep_levels : list Z }.

Definition sizeof_schema : Z := 96.
Definition SCHEMA_INITIAL_CAPACITY : Z := 64.
Definition SCHEMA_GROWTH_FACTOR : Z := 2.

(** "schema" *)
Definition schema_name : list Z := [115; 99; 104; 101; 109; 97; 0].

(** [Some None] is NULL; the error it comes with is always [CARQUET_ERROR_OUT_OF_MEMORY]. *)
Definition carquet_schema_create : option (option carquet_schema_t) :=
  match array_calloc tt 1 sizeof_schema with
  | None => Some None
  | Some _ =>
      match carquet_arena_init_size 4096 with
      | (CARQUET_OK, arena) =>
          let capacity := SCHEMA_INITIAL_CAPACITY in
          match array_calloc se_zero capacity sizeof_schema_element with
          | None => Some None
          | Some elements =>
              '(name, arena) ← carquet_arena_strdup arena (Some schema_name);
              elements ← wr elements 0 (se_zero<| se_name := snd <$> name |><| se_num_children := 0 |>);
              match array_calloc 0 capacity 4 with
              | None => Some None
              | Some parent_indices =>
                  parent_indices ← wr parent_indices 0 (-1);
                  match array_calloc 0 capacity 4, array_calloc 0 capacity 2, array_calloc 0 capacity 2 with
                  | Some leaf_indices, Some max_def_levels, Some max_rep_levels =>
                      Some (Some (mk_schema arena elements parent_indices 1 capacity leaf_indices 0 max_def_levels max_rep_levels))
                  | _, _, _ => Some None
                  end
              end
          end
      | _ => Some None
      end
  end.

(** [new_capacity *= 2] until it suffices; signed overflow is undefined. *)
Fixpoint grow_capacity (fuel : nat) (new_capacity required : Z) : option Z :=
  match fuel with
  | O => None
  | S fuel =>
      if new_capacity <? required then
        let new_capacity := new_capacity * SCHEMA_GROWTH_FACTOR in
        if new_capacity <? 2 ^ 31 then grow_capacity fuel new_capacity required else None
      else Some new_capacity
  end.

Definition schema_ensure_capacity (s : carquet_schema_t) (required : Z) : option (carquet_status_t * carquet_schema_t) :=
  if required <=? sch_capacity s then Some (CARQUET_OK, s) else
  new_capacity ← grow_capacity 32 (sch_capacity s) required;
  match array_realloc (sch_elements s) new_capacity sizeof_schema_element with
  | None => Some (CARQUET_ERROR_OUT_OF_MEMORY, s)
  | Some new_elements =>
      new_elements ← wr_n new_elements (sch_capacity s) (replicate (Z.to_nat (new_capacity - sch_capacity s)) se_zero);
      let s := s<| sch_elements := new_elements |> in
      match array_realloc (sch_parent_indices s) new_capacity 4 with
      | None => Some (CARQUET_ERROR_OUT_OF_MEMORY, s)
      | Some new_parent_indices =>
          let s := s<| sch_parent_indices := new_parent_indices |> in
          match array_realloc (sch_leaf_indices s) new_capacity 4 with
          | None => Some (CARQUET_ERROR_OUT_OF_MEMORY, s)
          | Some new_leaf_indices =>
              let s := s<| sch_leaf_indices := new_leaf_indices |> in
              match array_realloc (sch_max_def_levels s) new_capacity 2 with
              | None => Some (CARQUET_ERROR_OUT_OF_MEMORY, s)
              | Some new_max_def =>
                  let s := s<| sch_max_def_levels := new_max_def |> in
                  match array_realloc (sch_max_rep_levels s) new_capacity 2 with
                  | None => Some (CARQUET_ERROR_OUT_OF_MEMORY, s)
                  | Some new_max_rep =>
                      Some (CARQUET_OK, s<| sch_max_rep_levels := new_max_rep |><| sch_capacity := new_capacity |>)
                  end
              end
          end
      end
  end.

(** ** Validation of a column *)

Definition decimal_max_precision_for_fixed_len (type_length : Z) : Z :=
  if type_length <=? 0 then 0 else i32 (floor_log10_pow2 (type_length * 8 - 1)).

Definition accept (b : bool) : carquet_status_t := if b then CARQUET_OK else CARQUET_ERROR_INVALID_ARGUMENT.

Definition validate_decimal (physical_type precision scale type_length : Z) : carquet_status_t :=
  if (precision <=? 0) || (scale <? 0) || (scale >? precision) then CARQUET_ERROR_INVALID_ARGUMENT else
  if physical_type =? CARQUET_PHYSICAL_INT32 then accept (precision <=? 9) else
  if physical_type =? CARQUET_PHYSICAL_INT64 then accept (precision <=? 18) else
  if physical_type =? CARQUET_PHYSICAL_BYTE_ARRAY then CARQUET_OK else
  if physical_type =? CARQUET_PHYSICAL_FIXED_LEN_BYTE_ARRAY then accept (precision <=? decimal_max_precision_for_fixed_len type_length)
  else CARQUET_ERROR_INVALID_ARGUMENT.

Definition validate_column_logical_type (physical_type : Z) (logical_type : option carquet_logical_type_t) (type_length : Z) : option carquet_status_t :=
  match logical_type with
  | None => Some CARQUET_OK
  | Some lt =>
      let id := lt_id lt in
      if id =? CARQUET_LOGICAL_UNKNOWN then Some CARQUET_OK else
      if (id =? CARQUET_LOGICAL_STRING) || (id =? CARQUET_LOGICAL_ENUM) || (id =? CARQUET_LOGICAL_JSON) || (id =? CARQUET_LOGICAL_BSON)
         || (id =? CARQUET_LOGICAL_GEOMETRY) || (id =? CARQUET_LOGICAL_GEOGRAPHY) then
        Some (accept (physical_type =? CARQUET_PHYSICAL_BYTE_ARRAY)) else
      if id =? CARQUET_LOGICAL_DATE then Some (accept (physical_type =? CARQUET_PHYSICAL_INT32)) else
      if id =? CARQUET_LOGICAL_TIME then
        unit ← get_i32 (lt_params lt) 0;
        Some (if unit =? CARQUET_TIME_UNIT_MILLIS then accept (physical_type =? CARQUET_PHYSICAL_INT32)
              else if (unit =? CARQUET_TIME_UNIT_MICROS) || (unit =? CARQUET_TIME_UNIT_NANOS) then accept (physical_type =? CARQUET_PHYSICAL_INT64)
              else CARQUET_ERROR_INVALID_ARGUMENT) else
      if id =? CARQUET_LOGICAL_TIMESTAMP then Some (accept (physical_type =? CARQUET_PHYSICAL_INT64)) else
      if id =? CARQUET_LOGICAL_INTEGER then
        bit_width ← get_i8 (lt_params lt) 0;
        Some (if (bit_width =? 8) || (bit_width =? 16) || (bit_width =? 32) then accept (physical_type =? CARQUET_PHYSICAL_INT32)
              else if bit_width =? 64 then accept (physical_type =? CARQUET_PHYSICAL_INT64)
              else CARQUET_ERROR_INVALID_ARGUMENT) else
      if id =? CARQUET_LOGICAL_DECIMAL then
        precision ← get_i32 (lt_params lt) 0;
        scale ← get_i32 (lt_params lt) 4;
        Some (validate_decimal physical_type precision scale type_length) else
      if id =? CARQUET_LOGICAL_UUID then Some (accept ((physical_type =? CARQUET_PHYSICAL_FIXED_LEN_BYTE_ARRAY) && (type_length =? 16))) else
      if id =? CARQUET_LOGICAL_FLOAT16 then Some (accept ((physical_type =? CARQUET_PHYSICAL_FIXED_LEN_BYTE_ARRAY) && (type_length =? 2))) else
      if id =? CARQUET_LOGICAL_INTERVAL then Some (accept ((physical_type =? CARQUET_PHYSICAL_FIXED_LEN_BYTE_ARRAY) && (type_length =? 12))) else
      if id =? CARQUET_LOGICAL_NULL then Some CARQUET_OK
      else Some CARQUET_ERROR_INVALID_ARGUMENT
  end.

(** ** Building *)

(** [elem->repetition_type], zero when nothing was stored there; so for [elem->type]. *)
Definition repetition_of (e : parquet_schema_element_t) : Z := default CARQUET_REPETITION_REQUIRED (se_repetition_type e).
Definition type_of (e : parquet_schema_element_t) : Z := default CARQUET_PHYSICAL_BOOLEAN (se_type e).
Definition has_type (e : parquet_schema_element_t) : bool := bool_decide (is_Some (se_type e)).

(** The checks both building operations make; [None] in the result is a refusal. *)
Definition checked_parent (s : carquet_schema_t) (parent_index : Z) : option (option Z) :=
  let parent_index := if parent_index =? -1 then 0 else parent_index in
  if (parent_index <? 0) || (parent_index >=? sch_num_elements s) then Some None else
  if parent_index =? 0 then Some (Some parent_index) else
  e ← rd (sch_elements s) parent_index;
  Some (if has_type e then None else Some parent_index).

(** The element is stored behind the others and its parent gets a child. *)
Definition push_element (s : carquet_schema_t) (elem : parquet_schema_element_t) (parent_index : Z) : option carquet_schema_t :=
  let elem_idx := sch_num_elements s in
  elements ← wr (sch_elements s) elem_idx elem;
  parent_indices ← wr (sch_parent_indices s) elem_idx parent_index;
  parent ← rd elements parent_index;
  elements ← wr elements parent_index (parent<| se_num_children := i32 (se_num_children parent + 1) |>);
  Some (s<| sch_elements := elements |><| sch_parent_indices := parent_indices |><| sch_num_elements := elem_idx + 1 |>).

(** One node's contribution to the definition and repetition levels, in [int16_t]. *)
Definition add_levels (repetition : Z) (levels : Z * Z) : Z * Z :=
  if repetition =? CARQUET_REPETITION_OPTIONAL then (i16 (levels.1 + 1), levels.2)
  else if repetition =? CARQUET_REPETITION_REPEATED then (i16 (levels.1 + 1), i16 (levels.2 + 1))
  else levels.

(** The walk up the parent chain. *)
Fixpoint ancestor_levels (fuel : nat) (elements : list parquet_schema_element_t) (parent_indices : list Z) (ancestor : Z) (levels : Z * Z) : option (Z * Z) :=
  match fuel with
  | O => None
  | S fuel =>
      if ancestor >? 0 then
        e ← rd elements ancestor;
        parent ← rd parent_indices ancestor;
        ancestor_levels fuel elements parent_indices parent (add_levels (repetition_of e) levels)
      else Some levels
  end.

Definition track_leaf (s : carquet_schema_t) (elem_idx : Z) (levels : Z * Z) : option carquet_schema_t :=
  leaf_indices ← wr (sch_leaf_indices s) (sch_num_leaves s) elem_idx;
  max_def_levels ← wr (sch_max_def_levels s) (sch_num_leaves s) levels.1;
  max_rep_levels ← wr (sch_max_rep_levels s) (sch_num_leaves s) levels.2;
  Some (s<| sch_leaf_indices := leaf_indices |><| sch_max_def_levels := max_def_levels |><| sch_max_rep_levels := max_rep_levels |>
         <| sch_num_leaves := sch_num_leaves s + 1 |>).

Definition carquet_schema_add_column (s : carquet_schema_t) (name : list Z) (physical_type : Z) (logical_type : option carquet_logical_type_t)
    (repetition type_length parent_index : Z) : option (carquet_status_t * carquet_schema_t) :=
  status ← validate_column_logical_type physical_type logical_type type_length;
  if negb (is_ok status) then Some (status, s) else
  parent ← checked_parent s parent_index;
  match parent with
  | None => Some (CARQUET_ERROR_INVALID_ARGUMENT, s)
  | Some parent_index =>
      '(status, s) ← schema_ensure_capacity s (sch_num_elements s + 1);
      if negb (is_ok status) then Some (status, s) else
      let elem_idx := sch_num_elements s in
      '(copy, arena) ← carquet_arena_strdup (sch_arena s) (Some name);
      let elem := se_zero<| se_name := snd <$> copy |><| se_type := Some physical_type |><| se_repetition_type := Some repetition |>
                    <| se_type_length := type_length |><| se_logical_type := logical_type |> in
      s ← push_element (s<| sch_arena := arena |>) elem parent_index;
      levels ← ancestor_levels (S (Z.to_nat (sch_num_elements s))) (sch_elements s) (sch_parent_indices s) parent_index (add_levels repetition (0, 0));
      s ← track_leaf s elem_idx levels;
      Some (CARQUET_OK, s)
  end.

(** The index of the group, or -1. *)
Definition carquet_schema_add_group (s : carquet_schema_t) (name : list Z) (repetition parent_index : Z) : option (Z * carquet_schema_t) :=
  parent ← checked_parent s parent_index;
  match parent with
  | None => Some (-1, s)
  | Some parent_index =>
      '(status, s) ← schema_ensure_capacity s (sch_num_elements s + 1);
      if negb (is_ok status) then Some (-1, s) else
      let elem_idx := sch_num_elements s in
      '(copy, arena) ← carquet_arena_strdup (sch_arena s) (Some name);
      let elem := se_zero<| se_name := snd <$> copy |><| se_type := None |><| se_repetition_type := Some repetition |><| se_num_children := 0 |> in
      s ← push_element (s<| sch_arena := arena |>) elem parent_index;
      Some (elem_idx, s)
  end.

(** [has_logical_type = true; logical_type.id = id] *)
Definition annotate (id : Z) (e : parquet_schema_element_t) : parquet_schema_element_t :=
  e<| se_logical_type := Some (mk_logical_type id (lt_params (default lt_zero (se_logical_type e)))) |>.

Definition update_element (s : carquet_schema_t) (i : Z) (f : parquet_schema_element_t -> option parquet_schema_element_t) : option carquet_schema_t :=
  e ← rd (sch_elements s) i;
  e ← f e;
  elements ← wr (sch_elements s) i e;
  Some (s<| sch_elements := elements |>).

(** "metadata", "value", "list", "element", "key_value", "key" *)
Definition name_metadata : list Z := [109; 101; 116; 97; 100; 97; 116; 97; 0].
Definition name_value : list Z := [118; 97; 108; 117; 101; 0].
Definition name_list : list Z := [108; 105; 115; 116; 0].
Definition name_element : list Z := [101; 108; 101; 109; 101; 110; 116; 0].
Definition name_key_value : list Z := [107; 101; 121; 95; 118; 97; 108; 117; 101; 0].
Definition name_key : list Z := [107; 101; 121; 0].

(** The specification version is the first byte of the union. *)
Definition annotate_variant (e : parquet_schema_element_t) : option parquet_schema_element_t :=
  let e := annotate CARQUET_LOGICAL_VARIANT e in
  params ← put_i8 (lt_params (default lt_zero (se_logical_type e))) 0 1;
  Some (e<| se_logical_type := Some (mk_logical_type CARQUET_LOGICAL_VARIANT params) |>).

Definition carquet_schema_add_variant (s : carquet_schema_t) (name : list Z) (variant_repetition parent_index : Z) : option (Z * carquet_schema_t) :=
  '(outer, s) ← carquet_schema_add_group s name variant_repetition parent_index;
  if outer <? 0 then Some (-1, s) else
  s ← update_element s outer annotate_variant;
  '(status, s) ← carquet_schema_add_column s name_metadata CARQUET_PHYSICAL_BYTE_ARRAY None CARQUET_REPETITION_REQUIRED 0 outer;
  if negb (is_ok status) then Some (-1, s) else
  '(status, s) ← carquet_schema_add_column s name_value CARQUET_PHYSICAL_BYTE_ARRAY None CARQUET_REPETITION_REQUIRED 0 outer;
  if negb (is_ok status) then Some (-1, s) else
  Some (outer, s).

Definition carquet_schema_add_list (s : carquet_schema_t) (name : list Z) (element_type : Z) (element_logical_type : option carquet_logical_type_t)
    (list_repetition type_length parent_index : Z) : option (Z * carquet_schema_t) :=
  '(outer, s) ← carquet_schema_add_group s name list_repetition parent_index;
  if outer <? 0 then Some (-1, s) else
  s ← update_element s outer (λ e, Some (annotate CARQUET_LOGICAL_LIST e));
  '(inner, s) ← carquet_schema_add_group s name_list CARQUET_REPETITION_REPEATED outer;
  if inner <? 0 then Some (-1, s) else
  '(status, s) ← carquet_schema_add_column s name_element element_type element_logical_type CARQUET_REPETITION_OPTIONAL type_length inner;
  if negb (is_ok status) then Some (-1, s) else
  Some (outer, s).

Definition carquet_schema_add_map (s : carquet_schema_t) (name : list Z) (key_type : Z) (key_logical_type : option carquet_logical_type_t) (key_type_length : Z)
    (value_type : Z) (value_logical_type : option carquet_logical_type_t) (value_type_length map_repetition parent_index : Z) : option (Z * carquet_schema_t) :=
  '(outer, s) ← carquet_schema_add_group s name map_repetition parent_index;
  if outer <? 0 then Some (-1, s) else
  s ← update_element s outer (λ e, Some (annotate CARQUET_LOGICAL_MAP e));
  '(kv, s) ← carquet_schema_add_group s name_key_value CARQUET_REPETITION_REPEATED outer;
  if kv <? 0 then Some (-1, s) else
  '(status, s) ← carquet_schema_add_column s name_key key_type key_logical_type CARQUET_REPETITION_REQUIRED key_type_length kv;
  if negb (is_ok status) then Some (-1, s) else
  '(status, s) ← carquet_schema_add_column s name_value value_type value_logical_type CARQUET_REPETITION_OPTIONAL value_type_length kv;
  if negb (is_ok status) then Some (-1, s) else
  Some (outer, s).

End Schema.

(** ** Queries *)

(** [strcmp(a, b) == 0] on two readable strings. *)
Fixpoint strcmp_equal (a b : list Z) : option bool :=
  match a, b with
  | x :: a, y :: b => if x =? y then if x =? 0 then Some true else strcmp_equal a b else Some false
  | _, _ => None
  end.

(** The loop from leaf [i], with [n] leaves to look at. *)
Fixpoint find_column_from (s : carquet_schema_t) (name : list Z) (n : nat) (i : Z) : option Z :=
  match n with
  | O => Some (-1)
  | S n =>
      elem_idx ← rd (sch_leaf_indices s) i;
      e ← rd (sch_elements s) elem_idx;
      found ← (match se_name e with None => Some false | Some m => strcmp_equal m name end);
      if found : bool then Some i else find_column_from s name n (i + 1)
  end.

Definition carquet_schema_find_column (s : carquet_schema_t) (name : list Z) : option Z :=
  find_column_from s name (Z.to_nat (sch_num_leaves s)) 0.

Definition carquet_schema_num_columns (s : carquet_schema_t) : Z := sch_num_leaves s.
Definition carquet_schema_num_elements (s : carquet_schema_t) : Z := sch_num_elements s.

(** [Some None] is NULL; a node is the element it points to. *)
Definition carquet_schema_get_element (s : carquet_schema_t) (index : Z) : option (option parquet_schema_element_t) :=
  if (index <? 0) || (index >=? sch_num_elements s) then Some None
  else Some <$> rd (sch_elements s) index.

Definition carquet_schema_node_name (node : parquet_schema_element_t) : list Z := default [0] (se_name node).
Definition carquet_schema_node_is_leaf (node : parquet_schema_element_t) : bool := has_type node.
Definition carquet_schema_node_physical_type (node : parquet_schema_element_t) : Z := type_of node.
Definition carquet_schema_node_logical_type (node : parquet_schema_element_t) : option carquet_logical_type_t := se_logical_type node.
Definition carquet_schema_node_repetition (node : parquet_schema_element_t) : Z := repetition_of node.
Definition carquet_schema_node_max_def_level (node : parquet_schema_element_t) : Z :=
  if (repetition_of node =? CARQUET_REPETITION_OPTIONAL) || (repetition_of node =? CARQUET_REPETITION_REPEATED) then 1 else 0.
Definition carquet_schema_node_max_rep_level (node : parquet_schema_element_t) : Z :=
  if repetition_of node =? CARQUET_REPETITION_REPEATED then 1 else 0.
Definition carquet_schema_node_type_length (node : parquet_schema_element_t) : Z := se_type_length node.

Definition carquet_schema_max_def_level (s : carquet_schema_t) (leaf_index : Z) : option Z :=
  if (leaf_index <? 0) || (leaf_index >=? sch_num_leaves s) then Some (-1) else rd (sch_max_def_levels s) leaf_index.

Definition carquet_schema_max_rep_level (s : carquet_schema_t) (leaf_index : Z) : option Z :=
  if (leaf_index <? 0) || (leaf_index >=? sch_num_leaves s) then Some (-1) else rd (sch_max_rep_levels s) leaf_index.

Definition carquet_schema_column_name (s : carquet_schema_t) (leaf_index : Z) : option cstring :=
  if (leaf_index <? 0) || (leaf_index >=? sch_num_leaves s) then Some None else
  elem_idx ← rd (sch_leaf_indices s) leaf_index;
  se_name <$> rd (sch_elements s) elem_idx.

Definition carquet_schema_column_type (s : carquet_schema_t) (leaf_index : Z) : option Z :=
  if (leaf_index <? 0) || (leaf_index >=? sch_num_leaves s) then Some CARQUET_PHYSICAL_BOOLEAN else
  elem_idx ← rd (sch_leaf_indices s) leaf_index;
  type_of <$> rd (sch_elements s) elem_idx.

(** The walk from leaf to root; [room] cells of [components] are left. *)
Fixpoint collect_path (s : carquet_schema_t) (room : nat) (elem_idx : Z) (components : list cstring) : option (list cstring) :=
  match room with
  | O => Some components
  | S room =>
      if elem_idx >? 0 then
        e ← rd (sch_elements s) elem_idx;
        parent ← rd (sch_parent_indices s) elem_idx;
        collect_path s room parent (components ++ [se_name e])
      else Some components
  end.

(** [path_out[i] = components[depth - 1 - i]], [n] times. *)
Fixpoint copy_path (components : list cstring) (n : nat) (i : Z) (path_out : list cstring) : option (list cstring) :=
  match n with
  | O => Some path_out
  | S n =>
      c ← rd components (lenZ components - 1 - i);
      path_out ← wr path_out i c;
      copy_path components n (i + 1) path_out
  end.

Definition carquet_schema_column_path (s : carquet_schema_t) (leaf_index : Z) (path_out : list cstring) (max_depth : Z) : option (Z * list cstring) :=
  if (leaf_index <? 0) || (leaf_index >=? sch_num_leaves s) || (max_depth <=? 0) then Some (0, path_out) else
  elem_idx ← rd (sch_leaf_indices s) leaf_index;
  components ← collect_path s 64 elem_idx [];
  let depth := lenZ components in
  let result_len := if depth <? max_depth then depth else max_depth in
  path_out ← copy_path components (Z.to_nat result_len) 0 path_out;
  Some (result_len, path_out).

(** ** Nested data *)

Fixpoint count_rows_from (rep_levels : list Z) (n : nat) (i rows : Z) : option Z :=
  match n with
  | O => Some rows
  | S n =>
      r ← rd rep_levels i;
      count_rows_from rep_levels n (i + 1) (if r =? 0 then rows + 1 else rows)
  end.

Definition carquet_count_rows (rep_levels : option (list Z)) (num_values : Z) : option Z :=
  match rep_levels with
  | None => Some (if num_values >? 0 then num_values else 0)
  | Some rep_levels => if num_values <=? 0 then Some 0 else count_rows_from rep_levels (Z.to_nat num_values) 0 0
  end.

(** The number of lists, and the offsets stored so far. *)
Fixpoint list_offsets_from (rep_levels : list Z) (list_rep_level max_offsets : Z) (n : nat) (i num_lists : Z) (offsets_out : list Z) : option (Z * list Z) :=
  match n with
  | O => Some (num_lists, offsets_out)
  | S n =>
      r ← rd rep_levels i;
      if r <? list_rep_level then
        offsets_out ← (if num_lists <? max_offsets then wr offsets_out num_lists i else Some offsets_out);
        list_offsets_from rep_levels list_rep_level max_offsets n (i + 1) (num_lists + 1) offsets_out
      else list_offsets_from rep_levels list_rep_level max_offsets n (i + 1) num_lists offsets_out
  end.

Definition carquet_list_offsets (rep_levels : list Z) (num_values list_rep_level : Z) (offsets_out : list Z) (max_offsets : Z) : option (Z * list Z) :=
  if (num_values <=? 0) || (max_offsets <=? 0) then Some (0, offsets_out) else
  '(num_lists, offsets_out) ← list_offsets_from rep_levels list_rep_level max_offsets (Z.to_nat num_values) 0 0 offsets_out;
  offsets_out ← (if num_lists <? max_offsets then wr offsets_out num_lists num_values else Some offsets_out);
  Some (num_lists, offsets_out).
