(* ===== verification/SchemaForest.v ===== *)
(** * The abstract schema: a forest in an array

    What a schema means, apart from how it is stored: the list of its elements, each with
    the index of its parent.  Everything else that a schema keeps - the numbers of
    children, the columns, their levels, their paths - is a function of that list. *)

From S2P Require Import Prelude Status Endian Memory Heap ParquetTypes Schema.
From coqutil Require Import Datatypes.RecordSetters.
Import RecordSetters.TriangleBracketNotations.

#[local] Open Scope Z_scope.

Abbreviation node := (Z * parquet_schema_element_t)%type.
Abbreviation forest := (list node).

(** A node's own contributions to the levels of the columns below it. *)
Abbreviation adds_def := carquet_schema_node_max_def_level.
Abbreviation adds_rep := carquet_schema_node_max_rep_level.

(** The walk from [i] to the root, [i] included and the root not; every step goes down in
    the array, so [i] steps suffice. *)
Fixpoint up (f : forest) (fuel : nat) (i : Z) : list Z :=
  match fuel with
  | O => []
  | S fuel => if i >? 0 then match rd f i with Some (p, _) => i :: up f fuel p | None => [] end else []
  end.

Definition lineage (f : forest) (i : Z) : list Z := up f (Z.to_nat i) i.

Definition node_at (f : forest) (i : Z) : parquet_schema_element_t := from_option snd se_zero (rd f i).

Definition sum_over (g : parquet_schema_element_t -> Z) (f : forest) (p : list Z) : Z := foldr (λ i t, g (node_at f i) + t) 0 p.

(** The levels of a node: over all its ancestors and itself. *)
Definition def_level (f : forest) (i : Z) : Z := sum_over adds_def f (lineage f i).
Definition rep_level (f : forest) (i : Z) : Z := sum_over adds_rep f (lineage f i).

(** The number of nodes whose parent is [i]. *)
Definition children (f : forest) (i : Z) : Z := lenZ (filter (λ n : node, n.1 = i) f).

(** The indices of the typed nodes, in order. *)
Definition columns (f : forest) : list Z := filter (λ i, has_type (node_at f i) = true) (seqZ 0 (lenZ f)).

(** The names on the way from the root to [i]. *)
Definition path_of (f : forest) (i : Z) : list cstring := reverse ((λ j, se_name (node_at f j)) <$> lineage f i).

(** [i] can be a parent. *)
Definition is_group (f : forest) (i : Z) : Prop := 0 <= i < lenZ f /\ has_type (node_at f i) = false.

Record forest_ok (f : forest) : Prop := {
  forest_root : rd f 0 = Some (-1, node_at f 0) /\ has_type (node_at f 0) = false;
  forest_parent : forall i p e, 0 < i -> rd f i = Some (p, e) -> p < i /\ is_group f p }.

#[export] Instance is_group_dec f i : Decision (is_group f i).
Proof. unfold is_group. apply _. Defined.

(** ** Basic facts *)

Lemma node_at_rd f i p e : rd f i = Some (p, e) -> node_at f i = e.
Proof. unfold node_at. by intros ->. Qed.

Lemma rd_node_at f i : 0 <= i < lenZ f -> exists p, rd f i = Some (p, node_at f i).
Proof. intros H. destruct (rd_Some f i H) as [[p e] E]. exists p. by rewrite (node_at_rd f i p e). Qed.

Lemma node_at_app_l f g i : i < lenZ f -> node_at (f ++ g) i = node_at f i.
Proof. intros. unfold node_at. by rewrite rd_app_l. Qed.

Lemma node_at_snoc f n : node_at (f ++ [n]) (lenZ f) = n.2.
Proof. unfold node_at. rewrite (rd_middle f [] n) by done. by destruct n. Qed.

Lemma forest_nonempty f : forest_ok f -> 0 < lenZ f.
Proof. intros [[E _] _]. apply rd_bound in E. lia. Qed.

Lemma root_group f : forest_ok f -> is_group f 0.
Proof. intros F. pose proof (forest_nonempty f F). split; [lia|apply F]. Qed.

Lemma is_group_app f g i : is_group f i -> is_group (f ++ g) i.
Proof. intros [B T]. split; [rewrite length_app; lia|]. by rewrite node_at_app_l by lia. Qed.

Lemma forest_ok_snoc f p e : forest_ok f -> is_group f p -> forest_ok (f ++ [(p, e)]).
Proof.
  intros F G. pose proof (forest_nonempty f F). split.
  - rewrite rd_app_l, node_at_app_l by lia. apply F.
  - intros i q e' Hi E. destruct (Z.lt_ge_cases i (lenZ f)).
    + rewrite rd_app_l in E by lia. destruct (forest_parent f F i q e' Hi E). split; [done|by apply is_group_app].
    + pose proof (rd_bound _ _ _ E) as B. rewrite length_app in B. cbn in B. assert (i = lenZ f) as -> by lia.
      rewrite (rd_middle f [] (p, e)) in E by done. injection E as <- <-. split; [apply G|by apply is_group_app].
Qed.

(** ** Lineages *)

Section Lineage.
Context (f : forest) (F : forest_ok f).

Lemma up_fuel k : forall j i, 0 <= i <= Z.of_nat k -> i <= Z.of_nat j -> up f k i = up f j i.
Proof.
  induction k as [|k IH]; intros [|j] i Hk Hj; cbn [up]; rewrite ?Z.gtb_ltb; decide_bool; try done.
  destruct (Z.ltb_spec 0 i); [|done]. destruct (rd f i) as [[p e]|] eqn:E; [|done].
  destruct (forest_parent f F i p e ltac:(lia) E) as [? [? _]]. f_equal. apply IH; lia.
Qed.

Lemma lineage_0 : lineage f 0 = [].
Proof. done. Qed.

Lemma lineage_step i p e : 0 < i -> rd f i = Some (p, e) -> lineage f i = i :: lineage f p.
Proof.
  intros Hi E. unfold lineage. replace (Z.to_nat i) with (S (Z.to_nat (i - 1))) by lia. cbn [up].
  rewrite Z.gtb_ltb. decide_bool. rewrite E. destruct (forest_parent f F i p e Hi E) as [? [? _]]. f_equal. apply up_fuel; lia.
Qed.

Lemma lineage_app g i : i < lenZ f -> lineage (f ++ g) i = lineage f i.
Proof.
  unfold lineage. generalize (Z.to_nat i) as k. intros k. revert i. induction k as [|k IH]; intros i Hi; cbn [up]; [done|].
  destruct (i >? 0) eqn:G; [|done]. rewrite rd_app_l by lia. destruct (rd f i) as [[p e]|] eqn:E; [|done].
  destruct (forest_parent f F i p e ltac:(lia) E) as [? [? _]]. f_equal. apply IH. lia.
Qed.

Lemma lineage_bound i j : i < lenZ f -> j ∈ lineage f i -> 0 < j <= i.
Proof.
  unfold lineage. generalize (Z.to_nat i) as k. intros k. revert i. induction k as [|k IH]; intros i Hi; cbn [up]; [by intros ?%not_elem_of_nil|].
  destruct (i >? 0) eqn:G; [|by intros ?%not_elem_of_nil]. destruct (rd f i) as [[p e]|] eqn:E; [|by intros ?%not_elem_of_nil].
  destruct (forest_parent f F i p e ltac:(lia) E) as [? [? _]]. intros [->|Hj]%elem_of_cons; [lia|]. apply IH in Hj; lia.
Qed.

Lemma up_length k : forall i, lenZ (up f k i) <= Z.of_nat k.
Proof.
  induction k as [|k IH]; intros i; cbn [up]; [done|]. destruct (i >? 0); [|cbn; lia].
  destruct (rd f i) as [[p e]|]; cbn [length]; [|lia]. specialize (IH p). lia.
Qed.

Lemma lineage_length i : 0 <= i -> lenZ (lineage f i) <= i.
Proof. intros Hi. pose proof (up_length (Z.to_nat i) i). unfold lineage. lia. Qed.

(** Induction up the tree. *)
Lemma forest_ind (P : Z -> Prop) : P 0 -> (forall i p e, 0 < i < lenZ f -> rd f i = Some (p, e) -> 0 <= p < i -> P p -> P i) ->
  forall i, 0 <= i < lenZ f -> P i.
Proof.
  intros H0 HS i Hi. revert Hi. induction (Z.lt_wf 0 i) as [i _ IH]. intros Hi. destruct (Z.eq_dec i 0) as [->|]; [done|].
  destruct (rd_Some f i Hi) as [[p e] E]. destruct (forest_parent f F i p e ltac:(lia) E) as [? [? _]].
  apply (HS i p e); [lia|done|lia|]. apply IH; lia.
Qed.

End Lineage.

Lemma sum_over_app g f h p : (forall i, i ∈ p -> i < lenZ f) -> sum_over g (f ++ h) p = sum_over g f p.
Proof.
  induction p as [|i p IH]; intros H; [done|]. cbn [sum_over foldr]. fold (sum_over g (f ++ h) p). fold (sum_over g f p).
  rewrite IH by (intros; apply H; by right). rewrite node_at_app_l; [done|]. apply H. by left.
Qed.

Section Append.
Context (f g : forest) (F : forest_ok f).

Lemma sum_lineage_app w i : i < lenZ f -> sum_over w (f ++ g) (lineage (f ++ g) i) = sum_over w f (lineage f i).
Proof. intros Hi. rewrite lineage_app by done. apply sum_over_app. intros j Hj. apply lineage_bound in Hj; [lia|done..]. Qed.

Lemma def_level_app i : i < lenZ f -> def_level (f ++ g) i = def_level f i.
Proof. apply sum_lineage_app. Qed.

Lemma rep_level_app i : i < lenZ f -> rep_level (f ++ g) i = rep_level f i.
Proof. apply sum_lineage_app. Qed.
End Append.

Lemma level_step w f i p e : forest_ok f -> 0 < i -> rd f i = Some (p, e) ->
  sum_over w f (lineage f i) = w e + sum_over w f (lineage f p).
Proof. intros F Hi E. rewrite (lineage_step f F i p e) by done. cbn [sum_over foldr]. by rewrite (node_at_rd f i p e). Qed.

Lemma def_level_step f i p e : forest_ok f -> 0 < i -> rd f i = Some (p, e) -> def_level f i = adds_def e + def_level f p.
Proof. apply level_step. Qed.

Lemma rep_level_step f i p e : forest_ok f -> 0 < i -> rd f i = Some (p, e) -> rep_level f i = adds_rep e + rep_level f p.
Proof. apply level_step. Qed.

Lemma children_snoc f p e i : children (f ++ [(p, e)]) i = children f i + (if decide (p = i) then 1 else 0).
Proof. unfold children. rewrite list.filter_app, length_app. cbn [filter list_filter fst]. destruct (decide (p = i)); cbn [length]; lia. Qed.

Lemma filter_ext_in {X} (P Q : X -> Prop) `{!forall x, Decision (P x)} `{!forall x, Decision (Q x)} (l : list X) :
  (forall x, x ∈ l -> P x <-> Q x) -> filter P l = filter Q l.
Proof.
  induction l as [|x l IH]; intros E; [done|]. rewrite !list.filter_cons, IH by (intros; apply E; by right).
  assert (P x <-> Q x) as Ex by (apply E; by left). destruct (decide (P x)), (decide (Q x)); tauto || done.
Qed.

Lemma columns_snoc f p e : columns (f ++ [(p, e)]) = columns f ++ (if has_type e then [lenZ f] else []).
Proof.
  unfold columns. rewrite length_app. cbn [length].
  replace (Z.of_nat (length f + 1)) with (lenZ f + 1) by lia. rewrite (seqZ_app 0 (lenZ f) 1) by lia.
  rewrite list.filter_app. f_equal.
  - apply filter_ext_in. intros i Hi. apply elem_of_seqZ in Hi. by rewrite node_at_app_l by lia.
  - rewrite seqZ_cons, seqZ_nil, Z.add_0_l, list.filter_cons, node_at_snoc by lia. cbn [snd]. by destruct (has_type e).
Qed.

Lemma children_bound f i : 0 <= children f i <= lenZ f.
Proof. unfold children. pose proof (length_filter (λ n : node, n.1 = i) f). lia. Qed.

(** Nothing hangs below the end of the array. *)
Lemma children_fresh f i : forest_ok f -> lenZ f <= i -> children f i = 0.
Proof.
  intros F Hi. pose proof (forest_nonempty f F). unfold children. destruct (filter (λ n : node, n.1 = i) f) as [|[p e] l] eqn:E; [done|].
  assert ((p, e) ∈ filter (λ n : node, n.1 = i) f) as [Hp Hin]%list_elem_of_filter by (rewrite E; left).
  apply list_elem_of_lookup in Hin as [j Hj]. cbn in Hp. subst p. pose proof (lookup_lt_Some _ _ _ Hj).
  assert (rd f (Z.of_nat j) = Some (i, e)) as R by (rewrite rd_lookup, Nat2Z.id by lia; done).
  destruct j as [|j]; [|destruct (forest_parent f F (Z.of_nat (S j)) i e ltac:(lia) R) as [? [? _]]; lia].
  destruct F as [[R0 _] _]. change (Z.of_nat 0) with 0 in R. rewrite R in R0. injection R0 as ->. lia.
Qed.
