(* ===== verification/SchemaBuild.v ===== *)
(** * Building a schema refines growing a forest (carquet/metadata/schema.c)

    The representation invariant of a schema under construction, and the operations that
    build one against the abstract forest. *)

From S2P Require Import Prelude Status Endian Memory Heap Arena ParquetTypes ParquetValues FooterRoundtrip Schema SchemaForest.
From coqutil Require Import Datatypes.RecordSetters.
Import RecordSetters.TriangleBracketNotations.

#[local] Open Scope Z_scope.

(** ** Representation *)

(** The number of children is not part of the forest: it can be counted. *)
Definition erase (e : parquet_schema_element_t) : parquet_schema_element_t := e<| se_num_children := 0 |>.

Definition node_of (s : carquet_schema_t) (i : Z) : node :=
  (default (-1) (rd (sch_parent_indices s) i), erase (default se_zero (rd (sch_elements s) i))).

Definition forest_of (s : carquet_schema_t) : forest := node_of s <$> seqZ 0 (sch_num_elements s).

Record storage_ok (s : carquet_schema_t) : Prop := {
  st_num : 1 <= sch_num_elements s <= sch_capacity s;
  st_capacity : sch_capacity s < 2 ^ 31;
  st_elements : sch_capacity s <= lenZ (sch_elements s);
  st_parents : sch_capacity s <= lenZ (sch_parent_indices s);
  st_leaf_indices : sch_capacity s <= lenZ (sch_leaf_indices s);
  st_def : sch_capacity s <= lenZ (sch_max_def_levels s);
  st_rep : sch_capacity s <= lenZ (sch_max_rep_levels s) }.

(** Everything stored besides the forest is what the forest says. *)
Record schema_ok (s : carquet_schema_t) : Prop := {
  ok_arena : arena_ready (sch_arena s);
  ok_storage : storage_ok s;
  ok_forest : forest_ok (forest_of s);
  ok_children : forall i e, 0 <= i < sch_num_elements s -> rd (sch_elements s) i = Some e -> se_num_children e = children (forest_of s) i;
  ok_num_leaves : sch_num_leaves s = lenZ (columns (forest_of s));
  ok_columns : forall k i, rd (columns (forest_of s)) k = Some i ->
    rd (sch_leaf_indices s) k = Some i /\
    rd (sch_max_def_levels s) k = Some (i16 (def_level (forest_of s) i)) /\
    rd (sch_max_rep_levels s) k = Some (i16 (rep_level (forest_of s) i)) }.

Lemma rd_fmap_seqZ {X} (g : Z -> X) n i : 0 <= i < n -> rd (g <$> seqZ 0 n) i = Some (g i).
Proof.
  intros Hi. rewrite rd_lookup by lia. rewrite list_lookup_fmap, lookup_seqZ_lt by lia. cbn. do 2 f_equal. lia.
Qed.

Lemma length_forest s : 0 <= sch_num_elements s -> lenZ (forest_of s) = sch_num_elements s.
Proof. intros. unfold forest_of. rewrite length_fmap, length_seqZ. lia. Qed.

Lemma rd_forest s i p e : 0 <= i < sch_num_elements s -> rd (sch_parent_indices s) i = Some p -> rd (sch_elements s) i = Some e ->
  rd (forest_of s) i = Some (p, erase e).
Proof. intros Hi Hp He. unfold forest_of. rewrite rd_fmap_seqZ by done. unfold node_of. by rewrite Hp, He. Qed.

Lemma rd_forest_inv s i p e : storage_ok s -> rd (forest_of s) i = Some (p, e) ->
  0 <= i < sch_num_elements s /\ rd (sch_parent_indices s) i = Some p /\ exists e0, rd (sch_elements s) i = Some e0 /\ e = erase e0.
Proof.
  intros [] H. pose proof (rd_bound _ _ _ H) as B. rewrite length_forest in B by lia. unfold forest_of in H. rewrite rd_fmap_seqZ in H by lia.
  destruct (rd_Some (sch_parent_indices s) i) as [p0 Ep]; [lia|]. destruct (rd_Some (sch_elements s) i) as [e0 Ee]; [lia|].
  unfold node_of in H. rewrite Ep, Ee in H. injection H as <- <-. eauto.
Qed.

(** The cells of two arrays agree below [k]. *)
Definition cells_agree {X} (k : Z) (p q : list X) : Prop := forall i, 0 <= i < k -> rd q i = rd p i.

Lemma forest_of_ext s t : sch_num_elements t = sch_num_elements s -> cells_agree (sch_num_elements s) (sch_parent_indices s) (sch_parent_indices t) ->
  (forall i e, 0 <= i < sch_num_elements s -> rd (sch_elements s) i = Some e -> exists e', rd (sch_elements t) i = Some e' /\ erase e' = erase e) ->
  storage_ok s -> forest_of t = forest_of s.
Proof.
  intros N P E []. unfold forest_of. rewrite N. apply list_fmap_ext. intros k i Hi. apply lookup_seqZ in Hi as [-> Hk]. unfold node_of.
  rewrite P by lia. destruct (rd_Some (sch_elements s) (0 + Z.of_nat k)) as [e0 E0]; [lia|]. destruct (E (0 + Z.of_nat k) e0 ltac:(lia) E0) as (e' & E1 & E2).
  rewrite E0, E1. cbn [default from_option id]. by rewrite E2.
Qed.

Lemma columns_length f : forest_ok f -> lenZ (columns f) < lenZ f.
Proof.
  intros F. pose proof (forest_nonempty f F). unfold columns. rewrite seqZ_cons by lia. rewrite list.filter_cons.
  destruct (decide _) as [D|_]; [destruct F as [[_ T] _]; congruence|].
  pose proof (length_filter (λ i, has_type (node_at f i) = true) (seqZ (Z.succ 0) (Z.pred (lenZ f)))) as L.
  rewrite length_seqZ in L. lia.
Qed.

Lemma num_leaves_bound s : schema_ok s -> 0 <= sch_num_leaves s < sch_num_elements s.
Proof.
  intros K. pose proof (columns_length _ (ok_forest s K)) as L. pose proof (st_num s (ok_storage s K)). rewrite length_forest in L by lia.
  rewrite (ok_num_leaves s K). lia.
Qed.

(** ** Growing the arrays *)

(** The same schema in bigger arrays. *)
Record rehoused (s t : carquet_schema_t) : Prop := {
  rh_num : sch_num_elements t = sch_num_elements s;
  rh_leaves : sch_num_leaves t = sch_num_leaves s;
  rh_arena : sch_arena t = sch_arena s;
  rh_elements : cells_agree (sch_num_elements s) (sch_elements s) (sch_elements t);
  rh_parents : cells_agree (sch_num_elements s) (sch_parent_indices s) (sch_parent_indices t);
  rh_leaf_indices : cells_agree (sch_num_elements s) (sch_leaf_indices s) (sch_leaf_indices t);
  rh_def : cells_agree (sch_num_elements s) (sch_max_def_levels s) (sch_max_def_levels t);
  rh_rep : cells_agree (sch_num_elements s) (sch_max_rep_levels s) (sch_max_rep_levels t) }.

Lemma rehoused_ok s t : schema_ok s -> rehoused s t -> storage_ok t -> schema_ok t /\ forest_of t = forest_of s.
Proof.
  intros K R T. assert (forest_of t = forest_of s) as EF.
  { apply forest_of_ext; [apply R|apply R| |apply K]. intros i e Hi He. exists e. by rewrite (rh_elements s t R i Hi). }
  split; [|done]. pose proof (num_leaves_bound s K) as NL. destruct K as [A S F C N L]. constructor; rewrite ?EF, ?(rh_num s t R), ?(rh_leaves s t R); try done.
  - by rewrite (rh_arena s t R).
  - intros i e Hi He. apply (C i e Hi). by rewrite <- (rh_elements s t R i Hi).
  - intros k i Hk. pose proof (rd_bound _ _ _ Hk) as B. rewrite <- N in B.
    rewrite (rh_leaf_indices s t R k), (rh_def s t R k), (rh_rep s t R k) by lia. by apply L.
Qed.

Lemma rehoused_refl s : rehoused s s.
Proof. by constructor. Qed.

Section Build.
Context {Sp : AddressSpace} {Hp : ArrayHeap} {HpOk : ArrayHeapOk Hp} {Fl : FloorLog10}.

Lemma grown_cells {X} {HX : Inhabited X} (p q : list X) n size k : array_realloc p n size = Some q -> 0 <= k <= n -> k <= lenZ p ->
  lenZ q = n /\ cells_agree k p q.
Proof.
  intros E Hk Hp'. split; [apply (array_length _ _ _ _ _ _ E); lia|]. intros i Hi.
  rewrite <- (rd_take q k i), <- (rd_take p k i) by lia. f_equal.
  apply (array_prefix _ _ _ _ _ _ (Z.to_nat k) E); lia.
Qed.

Lemma grow_capacity_spec fuel : forall cap required, 1 <= cap -> cap < 2 ^ 31 -> required <= 2 ^ 30 -> required <= cap * 2 ^ Z.of_nat fuel ->
  (fuel <> 0)%nat -> exists c, grow_capacity (S fuel) cap required = Some c /\ cap <= c < 2 ^ 31 /\ required <= c.
Proof.
  induction fuel as [|fuel IH]; intros cap required H1 H2 H3 H4 H5; [done|]. cbn [grow_capacity]. fold grow_capacity.
  destruct (Z.ltb_spec cap required); [|exists cap; split; [done|lia]]. unfold SCHEMA_GROWTH_FACTOR. decide_bool.
  destruct (decide (fuel = 0%nat)) as [->|Hf].
  - change (2 ^ Z.of_nat 1) with 2 in H4. exists (cap * 2). cbn [grow_capacity]. decide_bool. split; [done|lia].
  - destruct (IH (cap * 2) required) as (c & E & ?); try lia.
    + rewrite Nat2Z.inj_succ, Z.pow_succ_r in H4 by lia. lia.
    + exists c. split; [exact E|lia].
Qed.

(** One more array is reallocated, or the operation ends here. *)
Ltac next_array n :=
  lazymatch goal with
  | |- context [array_realloc ?p ?c ?z] =>
      let q := fresh "q" in let E := fresh "E" in let L := fresh "L" in let G := fresh "G" in
      destruct (array_realloc p c z) as [q|] eqn:E;
      [destruct (grown_cells _ _ _ _ n E) as [L G]; [lia|lia|]; clear E
      |eexists CARQUET_ERROR_OUT_OF_MEMORY, _; split; [reflexivity|]; split; [|split; [|right; split; [done|apply (not_total _ _ _ E); lia]]]; constructor; cbn; unfold constant; first [done | lia | intros ? ?; reflexivity]]
  end.

Lemma schema_ensure_capacity_spec s required : schema_ok s -> required <= 2 ^ 30 ->
  exists status t, schema_ensure_capacity s required = Some (status, t) /\ schema_ok t /\ forest_of t = forest_of s /\ sch_arena t = sch_arena s /\
    sch_num_elements t = sch_num_elements s /\ (status = CARQUET_OK /\ required <= sch_capacity t \/ status = CARQUET_ERROR_OUT_OF_MEMORY /\ (ArrayHeapTotal Hp -> False)).
Proof.
  intros K HR. enough (exists status t, schema_ensure_capacity s required = Some (status, t) /\ storage_ok t /\ rehoused s t /\
    (status = CARQUET_OK /\ required <= sch_capacity t \/ status = CARQUET_ERROR_OUT_OF_MEMORY /\ (ArrayHeapTotal Hp -> False))) as (st & t & E & T & R & H).
  { destruct (rehoused_ok s t K R T). exists st, t. split_and!; try done; apply R. }
  destruct (ok_storage s K). unfold schema_ensure_capacity. clear K. destruct s as [ar els0 pa n cap lf nl de re]. cbn -[grow_capacity] in *.
  destruct (Z.leb_spec required cap); [eexists CARQUET_OK, _; split; [reflexivity|]; split; [by constructor|]; auto using rehoused_refl|].
  destruct (grow_capacity_spec 31 cap required) as (c & Ec & Hc & Hr); [lia..|].
  rewrite Ec. cbn [mbind option_bind].
  destruct (array_realloc els0 c _) as [els|] eqn:E1; [|eexists CARQUET_ERROR_OUT_OF_MEMORY, _; split; [reflexivity|]; split; [by constructor|];
    split; [apply rehoused_refl|right; split; [done|apply (not_total _ _ _ E1); lia]]].
  destruct (grown_cells _ _ _ _ n E1) as [L1 A1]; [lia..|].
  destruct (wr_n_total els cap (replicate (Z.to_nat (c - cap)) se_zero)) as [els' E1']; [lia|rewrite length_replicate; lia|].
  rewrite E1'. cbn [mbind option_bind].
  assert (lenZ els' = c) as L1' by (rewrite (length_wr_n _ _ _ _ E1'); done).
  assert (cells_agree n els0 els') as A1'.
  { intros i Hi. rewrite (rd_wr_n _ _ _ _ i E1'). decide_bool. by apply A1. }
  clear els E1 E1' L1 A1.
  do 4 next_array n.
  eexists CARQUET_OK, _; split; [reflexivity|]; split; [|split; [|left; split; [done|exact Hr]]]; constructor; cbn; unfold constant; first [done | lia | intros ? ?; reflexivity].
Qed.

(** What storing one more element does. *)
Record pushed (s : carquet_schema_t) (e : parquet_schema_element_t) (p : Z) (t : carquet_schema_t) : Prop := {
  pu_forest : forest_of t = forest_of s ++ [(p, erase e)];
  pu_storage : storage_ok t;
  pu_arena : sch_arena t = sch_arena s;
  pu_num : sch_num_elements t = sch_num_elements s + 1;
  pu_num_leaves : sch_num_leaves t = sch_num_leaves s;
  pu_leaf_indices : sch_leaf_indices t = sch_leaf_indices s;
  pu_def : sch_max_def_levels t = sch_max_def_levels s;
  pu_rep : sch_max_rep_levels t = sch_max_rep_levels s;
  pu_children : forall i e, 0 <= i < sch_num_elements t -> rd (sch_elements t) i = Some e -> se_num_children e = children (forest_of t) i }.

Lemma push_element_spec s e p : schema_ok s -> sch_num_elements s < sch_capacity s -> is_group (forest_of s) p -> se_num_children e = 0 ->
  exists t, push_element s e p = Some t /\ pushed s e p t.
Proof.
  intros K HC HG He. destruct (ok_storage s K) as [N C SE SP SL SD SR]. destruct HG as [Bp Tp]. rewrite length_forest in Bp by lia.
  unfold push_element. rewrite (wr_Some (sch_elements s)) by lia. cbn [mbind option_bind]. set (els := <[_ := e]> _).
  assert (wr (sch_elements s) (sch_num_elements s) e = Some els) as E1 by (rewrite wr_Some by lia; done).
  destruct (wr_total (sch_parent_indices s) (sch_num_elements s) p) as [pa E2]; [lia|]. rewrite E2. cbn [mbind option_bind].
  pose proof (length_wr _ _ _ _ E1) as L1. pose proof (length_wr _ _ _ _ E2) as L2.
  destruct (rd_Some (sch_elements s) p) as [parent Ep]; [lia|]. rewrite (rd_wr _ _ _ _ p E1). decide_bool. rewrite Ep. cbn [mbind option_bind].
  set (parent' := parent<| se_num_children := i32 (se_num_children parent + 1) |>).
  destruct (wr_total els p parent') as [els' E3]; [lia|]. rewrite E3. cbn [mbind option_bind]. pose proof (length_wr _ _ _ _ E3) as L3.
  assert (forall i, rd els' i = if i =? p then Some parent' else if i =? sch_num_elements s then Some e else rd (sch_elements s) i) as R.
  { intros i. by rewrite (rd_wr _ _ _ _ i E3), (rd_wr _ _ _ _ i E1). }
  eexists. split; [reflexivity|].
  match goal with |- pushed _ _ _ ?x => set (t := x) end.
  assert (sch_num_elements t = sch_num_elements s + 1 /\ sch_parent_indices t = pa /\ sch_elements t = els' /\ sch_capacity t = sch_capacity s /\ sch_arena t = sch_arena s /\
    sch_num_leaves t = sch_num_leaves s /\ sch_leaf_indices t = sch_leaf_indices s /\ sch_max_def_levels t = sch_max_def_levels s /\
    sch_max_rep_levels t = sch_max_rep_levels s) as (T1 & T2 & T3 & T4 & T0 & T5 & T6 & T7 & T8) by (unfold t; by destruct s).
  assert (forest_of t = forest_of s ++ [(p, erase e)]) as EF.
  { unfold forest_of. rewrite T1, (seqZ_app 0 (sch_num_elements s) 1), fmap_app by lia. f_equal.
    - apply list_fmap_ext. intros k i Hi. apply lookup_seqZ in Hi as [-> Hk]. unfold node_of. rewrite T2, T3, R, (rd_wr _ _ _ _ _ E2). decide_bool.
      destruct (Z.eqb_spec (0 + Z.of_nat k) p) as [->|]; [|done]. by rewrite Ep.
    - rewrite seqZ_cons, seqZ_nil, Z.add_0_l by lia. cbn [fmap list_fmap]. unfold node_of. rewrite T2, T3, R, (rd_wr _ _ _ _ _ E2). by decide_bool. }
  constructor; try done; [constructor; rewrite ?T1, ?T2, ?T3, ?T4, ?T6, ?T7, ?T8; lia|].
  intros i e' Hi. rewrite T3, R, EF, children_snoc. destruct (Z.eqb_spec i p) as [->|Hip].
  - intros [= <-]. rewrite decide_True by done. unfold parent'. destruct parent as [ty tl rp nm nc ct sc pr fi lt]. cbn.
    pose proof (ok_children s K p _ ltac:(lia) Ep) as Ec. cbn in Ec. unfold constant. rewrite Ec.
    pose proof (children_bound (forest_of s) p) as B. rewrite length_forest in B by lia. apply wrap_signed_small; [lia|]. unfold in_i. lia.
  - rewrite decide_False by done. destruct (Z.eqb_spec i (sch_num_elements s)) as [->|].
    + intros [= <-]. rewrite He, children_fresh; [done|apply K|]. rewrite length_forest; lia.
    + intros Ei. rewrite (ok_children s K i e') by (lia || done). lia.
Qed.

Lemma has_type_erase e : has_type (erase e) = has_type e.
Proof. by destruct e. Qed.

Lemma repetition_erase e : repetition_of (erase e) = repetition_of e.
Proof. by destruct e. Qed.

Lemma adds_erase e : adds_def (erase e) = adds_def e /\ adds_rep (erase e) = adds_rep e.
Proof. by destruct e. Qed.

(** The columns there were, in the larger forest. *)
Lemma pushed_columns s e p t k i : schema_ok s -> pushed s e p t -> rd (columns (forest_of s)) k = Some i ->
  rd (sch_leaf_indices t) k = Some i /\
  rd (sch_max_def_levels t) k = Some (i16 (def_level (forest_of t) i)) /\
  rd (sch_max_rep_levels t) k = Some (i16 (rep_level (forest_of t) i)).
Proof.
  intros K P Hk. pose proof (rd_bound _ _ _ Hk) as B. pose proof (ok_forest s K) as F.
  assert (i < lenZ (forest_of s)) as Hi.
  { rewrite rd_lookup in Hk by lia. apply list_elem_of_lookup_2, list_elem_of_filter in Hk as [_ Hk]. apply elem_of_seqZ in Hk. lia. }
  rewrite (pu_forest _ _ _ _ P), def_level_app, rep_level_app, (pu_leaf_indices _ _ _ _ P), (pu_def _ _ _ _ P), (pu_rep _ _ _ _ P) by done.
  by apply (ok_columns s K).
Qed.

Lemma pushed_group s e p t : schema_ok s -> pushed s e p t -> is_group (forest_of s) p -> has_type e = false -> schema_ok t.
Proof.
  intros K P G T. pose proof (pushed_columns s e p t) as PC. pose proof P as [EF S A N NL _ _ _ C].
  assert (columns (forest_of t) = columns (forest_of s)) as EC by (rewrite EF, columns_snoc, has_type_erase, T; apply app_nil_r).
  constructor; rewrite ?EC; try done.
  - rewrite A. apply K.
  - rewrite EF. apply forest_ok_snoc; [apply K|done].
  - rewrite NL. apply K.
  - intros k i Hk. by apply PC.
Qed.

Lemma i16_add x y : i16 (i16 x + y) = i16 (x + y).
Proof.
  apply wrap_signed_congr. rewrite Z.add_mod, (wrap_signed_mod 16) by lia. by rewrite <- Z.add_mod by lia.
Qed.

Lemma add_levels_spec e d r : add_levels (repetition_of e) (i16 d, i16 r) = (i16 (d + adds_def e), i16 (r + adds_rep e)).
Proof.
  unfold add_levels, adds_def, adds_rep. cbn [fst snd]. destruct (Z.eqb_spec (repetition_of e) CARQUET_REPETITION_OPTIONAL) as [->|].
  - change (CARQUET_REPETITION_OPTIONAL =? CARQUET_REPETITION_REPEATED) with false. cbn [orb]. by rewrite i16_add, !Z.add_0_r.
  - cbn [orb]. destruct (_ =? _); [by rewrite !i16_add|by rewrite !Z.add_0_r].
Qed.

(** The walk of the code computes the levels of the forest, in 16 bits. *)
Lemma ancestor_levels_spec t : storage_ok t -> forest_ok (forest_of t) -> forall fuel i d r, 0 <= i < sch_num_elements t -> i < Z.of_nat fuel ->
  ancestor_levels fuel (sch_elements t) (sch_parent_indices t) i (i16 d, i16 r) =
    Some (i16 (d + def_level (forest_of t) i), i16 (r + rep_level (forest_of t) i)).
Proof.
  intros S F. pose proof S as [N C SE SP _ _ _].
  induction fuel as [|fuel IH]; intros i d r Hi Hf; [lia|]. cbn [ancestor_levels]. rewrite Z.gtb_ltb.
  destruct (Z.ltb_spec 0 i); [|assert (i = 0) as -> by lia; unfold def_level, rep_level; cbn; by rewrite !Z.add_0_r].
  destruct (rd_Some (sch_elements t) i) as [e Ee]; [lia|]. destruct (rd_Some (sch_parent_indices t) i) as [p Ep]; [lia|].
  rewrite Ee, Ep. cbn [mbind option_bind]. pose proof (rd_forest t i p e Hi Ep Ee) as Ef.
  destruct (forest_parent _ F i p _ ltac:(lia) Ef) as [? [? _]]. rewrite add_levels_spec, IH by lia.
  rewrite (def_level_step _ i p (erase e)), (rep_level_step _ i p (erase e)) by (done || lia).
  destruct (adds_erase e) as [-> ->]. by rewrite !Z.add_assoc.
Qed.

Lemma pushed_column s e p t : schema_ok s -> pushed s e p t -> is_group (forest_of s) p -> has_type e = true ->
  let i := sch_num_elements s in
  exists u, track_leaf t i (i16 (def_level (forest_of t) i), i16 (rep_level (forest_of t) i)) = Some u /\ schema_ok u /\ forest_of u = forest_of t /\
    sch_num_elements u = sch_num_elements t /\ sch_capacity u = sch_capacity t /\ sch_arena u = sch_arena t.
Proof.
  intros K P G T i. pose proof (pushed_columns s e p t) as PC. pose proof (num_leaves_bound s K) as B. pose proof (ok_num_leaves s K) as NLs.
  assert (lenZ (forest_of s) = i) as Li by (apply length_forest; pose proof (st_num s (ok_storage s K)); lia).
  pose proof P as [EF S A N NL _ _ _ C]. destruct S as [S1 S2 S3 S4 S5 S6 S7]. unfold track_leaf. fold i in N, B. set (lv := (_, _) : Z * Z).
  destruct (wr_total (sch_leaf_indices t) (sch_num_leaves t) i) as [li E1]; [lia|]. rewrite E1. cbn [mbind option_bind].
  destruct (wr_total (sch_max_def_levels t) (sch_num_leaves t) lv.1) as [de E2]; [lia|]. rewrite E2. cbn [mbind option_bind].
  destruct (wr_total (sch_max_rep_levels t) (sch_num_leaves t) lv.2) as [re E3]; [lia|]. rewrite E3. cbn [mbind option_bind].
  pose proof (length_wr _ _ _ _ E1). pose proof (length_wr _ _ _ _ E2). pose proof (length_wr _ _ _ _ E3).
  eexists. split; [reflexivity|]. match goal with |- schema_ok ?x /\ _ => set (u := x) end.
  assert (sch_num_elements u = sch_num_elements t /\ sch_parent_indices u = sch_parent_indices t /\ sch_elements u = sch_elements t /\
    sch_capacity u = sch_capacity t /\ sch_num_leaves u = sch_num_leaves t + 1 /\ sch_leaf_indices u = li /\ sch_max_def_levels u = de /\
    sch_max_rep_levels u = re /\ sch_arena u = sch_arena t) as (T1 & T2 & T3 & T4 & T5 & T6 & T7 & T8 & T0) by (unfold u; by destruct t).
  assert (forest_of u = forest_of t) as EU by (unfold forest_of, node_of; by rewrite T1, T2, T3).
  split; [|by rewrite EU, T1, T4, T0]. clearbody u.
  assert (columns (forest_of t) = columns (forest_of s) ++ [i]) as EC by (rewrite EF, columns_snoc, has_type_erase, T, Li; done).
  constructor; rewrite ?EU, ?T5, ?T6, ?T7, ?T8.
  - rewrite T0, A. apply K.
  - constructor; rewrite ?T1, ?T2, ?T3, ?T4, ?T6, ?T7, ?T8; lia.
  - rewrite EF. apply forest_ok_snoc; [apply K|done].
  - rewrite T1, T3. exact C.
  - rewrite EC, length_app. cbn [length]. lia.
  - intros k j Hk. rewrite EC in Hk. rewrite (rd_wr _ _ _ _ k E1), (rd_wr _ _ _ _ k E2), (rd_wr _ _ _ _ k E3), NL.
    destruct (Z.eqb_spec k (sch_num_leaves s)) as [->|Hne].
    + rewrite NLs in Hk. rewrite (rd_middle _ [] i) in Hk by done. injection Hk as <-. done.
    + pose proof (rd_bound _ _ _ Hk) as Bk. rewrite length_app in Bk. cbn [length] in Bk. rewrite rd_app_l in Hk by lia. by apply PC.
Qed.

(** ** The abstract operations *)

(** Where a node asked for under [parent_index] goes. *)
Definition target (f : forest) (parent_index : Z) : option Z :=
  let p := if parent_index =? -1 then 0 else parent_index in if decide (is_group f p) then Some p else None.

Definition column_node (name : list Z) (type : Z) (lt : option carquet_logical_type_t) (repetition type_length : Z) : parquet_schema_element_t :=
  mk_schema_element (Some type) type_length (Some repetition) (Some (c_text name ++ [0])) 0 None 0 0 None lt.

Definition group_node (name : list Z) (repetition : Z) (lt : option carquet_logical_type_t) : parquet_schema_element_t :=
  mk_schema_element None 0 (Some repetition) (Some (c_text name ++ [0])) 0 None 0 0 None lt.

(** A column's types go together. *)
Definition node_ok (n : node) : Prop :=
  match se_type n.2 with Some ty => validate_column_logical_type ty (se_logical_type n.2) (se_type_length n.2) = Some CARQUET_OK | None => True end.

(** The nodes as they are stored: the bytes of each name are asked of the arena, in order,
    and a name is missing exactly when they are refused. *)
Fixpoint store_names (a : carquet_arena_t) (ns : list node) : option (list node * carquet_arena_t) :=
  match ns with
  | [] => Some ([], a)
  | (p, e) :: ns =>
      name ← se_name e;
      '(bytes, a) ← carquet_arena_alloc_aligned a (u64 (lenZ name)) 1;
      '(added, a) ← store_names a ns;
      Some ((p, e<| se_name := (λ _, name) <$> bytes |>) :: added, a)
  end.

(** The schema has grown by these nodes. *)
Definition grew (s : carquet_schema_t) (ns : list node) (t : carquet_schema_t) : Prop :=
  schema_ok t /\ exists added, forest_of t = forest_of s ++ added /\ store_names (sch_arena s) ns = Some (added, sch_arena t) /\ Forall node_ok ns.

Lemma store_names_app ns : forall a ms b c added added', store_names a ns = Some (added, b) -> store_names b ms = Some (added', c) ->
  store_names a (ns ++ ms) = Some (added ++ added', c).
Proof.
  induction ns as [|[p e] ns IH]; intros a ms b c x y; cbn [store_names app]; [by intros [= <- <-]|]. destruct (se_name e) as [nm|]; [|done].
  cbn [mbind option_bind]. destruct (carquet_arena_alloc_aligned a _ _) as [[q a']|]; [|done]. cbn [mbind option_bind].
  destruct (store_names a' ns) as [[x' b']|] eqn:E; [|done]. intros [= <- <-] E2. by rewrite (IH _ _ _ _ _ _ E E2).
Qed.

(** Nothing but the name can differ. *)
Definition same_but_name (n n' : node) : Prop := n'.1 = n.1 /\ exists name, n'.2 = n.2<| se_name := name |> /\ (name = se_name n.2 \/ name = None).

Lemma store_names_same ns : forall a added b, store_names a ns = Some (added, b) -> Forall2 same_but_name ns added.
Proof.
  induction ns as [|[p e] ns IH]; intros a x b; cbn [store_names]; [intros [= <- <-]; apply Forall2_nil_2|]. destruct (se_name e) as [nm|] eqn:En; [|done].
  cbn [mbind option_bind]. destruct (carquet_arena_alloc_aligned a _ _) as [[q a']|]; [|done]. cbn [mbind option_bind].
  destruct (store_names a' ns) as [[x' b']|] eqn:E; [|done]. intros [= <- <-]. apply Forall2_cons_2; [|by eapply IH].
  split; [done|]. eexists. split; [done|]. cbn [snd]. rewrite En. destruct q; [by left|by right].
Qed.

(** The room the names take. *)
Definition name_bytes (ns : list node) : Z := lenZ (ns ≫= λ n, default [] (se_name n.2)).

Lemma name_bytes_cons n ns : name_bytes (n :: ns) = lenZ (default [] (se_name n.2)) + name_bytes ns.
Proof.
  unfold name_bytes. change ((n :: ns) ≫= ?f) with (f n ++ (ns ≫= f)). rewrite length_app. lia.
Qed.

Lemma name_bytes_take k ns : name_bytes (take k ns) <= name_bytes ns.
Proof.
  revert k. induction ns as [|n ns IH]; intros [|k]; cbn [take]; rewrite ?name_bytes_cons; try (unfold name_bytes; cbn; lia). specialize (IH k). lia.
Qed.

Definition has_name (n : node) : Prop := match se_name n.2 with Some name => name <> [] | None => False end.

Lemma store_names_room ns : forall a, arena_room (name_bytes ns) a -> name_bytes ns < 2 ^ 64 -> Forall has_name ns ->
  exists b, store_names a ns = Some (ns, b).
Proof.
  induction ns as [|[p e] ns IH]; intros a R B N; cbn [store_names]; [by exists a|]. apply Forall_cons_iff in N as [N1 N2].
  rewrite name_bytes_cons in R, B. cbn [snd] in R, B.
  unfold has_name in N1. cbn [snd] in N1. destruct (se_name e) as [nm|] eqn:En; [|done]. cbn [mbind option_bind default from_option id] in *.
  assert (0 < lenZ nm) by (destruct nm; [done|cbn [length]; lia]). assert (0 <= name_bytes ns) by (unfold name_bytes; lia).
  rewrite u64_small by lia. destruct (room_alloc a (lenZ nm) 1 _ R) as (q & a' & Ea & R'); [lia|lia|by left|]. rewrite Ea. cbn [mbind option_bind].
  destruct (IH a' R') as (b & Eb); [lia|done|]. rewrite Eb. cbn [mbind option_bind fmap option_fmap option_map]. exists b. do 3 f_equal.
  f_equal. destruct e; cbn in En; by subst.
Qed.

Lemma grew_nil s t : schema_ok t -> forest_of t = forest_of s -> sch_arena t = sch_arena s -> grew s [] t.
Proof. intros K E A. split; [done|]. exists []. rewrite app_nil_r, <- A. by repeat constructor. Qed.

Lemma grew_trans s ns t ms u : grew s ns t -> grew t ms u -> grew s (ns ++ ms) u.
Proof.
  intros [_ (a & Ea & Fa & Na)] [K (b & Eb & Fb & Nb)]. split; [done|]. exists (a ++ b). rewrite Eb, Ea, app_assoc.
  split; [done|]. split; [by apply (store_names_app _ _ _ (sch_arena t))|by apply Forall_app].
Qed.

Lemma num_forest s : schema_ok s -> sch_num_elements s = lenZ (forest_of s).
Proof. intros K. pose proof (st_num s (ok_storage s K)). rewrite length_forest; lia. Qed.

Lemma grew_num s ns t : grew s ns t -> schema_ok s -> sch_num_elements t = sch_num_elements s + lenZ ns.
Proof.
  intros [K (a & E & F & _)] Ks. rewrite (num_forest t K), (num_forest s Ks), E, length_app. apply store_names_same, Forall2_length in F. lia.
Qed.

(** Copying a name asks for its bytes. *)
Lemma strdup_text a name : 0 ∈ name ->
  carquet_arena_strdup a (Some name) = stored (carquet_arena_alloc_aligned a (u64 (lenZ (c_text name ++ [0]))) 1) (c_text name ++ [0]).
Proof.
  intros H. unfold carquet_arena_strdup. rewrite strlen_text by done. cbn [mbind option_bind]. unfold carquet_arena_strndup.
  rewrite Nat2Z.id, (string_length_prefix (c_text name) name) by (apply c_text_no_nul || apply c_text_prefix). cbn [mbind option_bind].
  rewrite rd_n_text. cbn [mbind option_bind]. by rewrite length_app, Nat2Z.inj_add.
Qed.

(** The node that is stored, with the copy of its name. *)
Lemma strdup_stores a name (e : option (list Z) -> parquet_schema_element_t) (n : parquet_schema_element_t) p : arena_ready a -> 0 ∈ name ->
  se_name n = Some (c_text name ++ [0]) -> (forall r, e r = n<| se_name := r |>) ->
  exists r a', carquet_arena_strdup a (Some name) = Some (r, a') /\ arena_ready a' /\ store_names a [(p, n)] = Some ([(p, e (snd <$> r))], a').
Proof.
  intros R H Hn He. rewrite strdup_text by done. destruct (alloc_ready a (u64 (lenZ (c_text name ++ [0]))) 1 R) as (q & a' & E & R').
  rewrite E. unfold stored. cbn [mbind option_bind]. eexists _, a'. split; [done|]. split; [done|]. cbn [store_names]. rewrite Hn. cbn [mbind option_bind].
  rewrite E. cbn [mbind option_bind]. rewrite He. by destruct q.
Qed.

Lemma checked_parent_spec s parent_index : schema_ok s -> checked_parent s parent_index = Some (target (forest_of s) parent_index).
Proof.
  intros K. pose proof (num_forest s K) as N. unfold checked_parent, target. set (p := if _ =? -1 then 0 else _). cbv zeta.
  destruct (decide (is_group (forest_of s) p)) as [[B T]|G].
  - destruct (rd_node_at (forest_of s) p B) as [q Ef]. apply rd_forest_inv in Ef as (_ & _ & e0 & Ee & E); [|apply K].
    rewrite N. replace (p >=? _) with false by lia. decide_bool. cbn [orb]. destruct (p =? 0); [done|]. rewrite Ee. cbn [mbind option_bind].
    rewrite E, has_type_erase in T. by rewrite T.
  - destruct (Z.ltb_spec p 0); [done|]. cbn [orb]. rewrite N. destruct (Z.geb_spec p (lenZ (forest_of s))); [done|].
    destruct (Z.eqb_spec p 0) as [Hp0|]; [destruct G; rewrite Hp0; apply root_group, K|].
    destruct (rd_node_at (forest_of s) p ltac:(lia)) as [q Ef]. apply rd_forest_inv in Ef as (_ & _ & e0 & Ee & E); [|apply K].
    rewrite Ee. cbn [mbind option_bind]. destruct (has_type e0) eqn:T; [done|]. destruct G. split; [lia|]. by rewrite E, has_type_erase.
Qed.

Lemma target_group f i p : target f i = Some p -> is_group f p.
Proof. unfold target. destruct (decide _) as [G|]; [|done]. by intros [= <-]. Qed.

Lemma is_ok_OK : is_ok CARQUET_OK = true.
Proof. done. Qed.

Lemma set_arena_ok s a : schema_ok s -> arena_ready a -> schema_ok (s<| sch_arena := a |>) /\ forest_of (s<| sch_arena := a |>) = forest_of s /\
  sch_num_elements (s<| sch_arena := a |>) = sch_num_elements s /\ sch_capacity (s<| sch_arena := a |>) = sch_capacity s /\ sch_arena (s<| sch_arena := a |>) = a.
Proof.
  intros [_ S F C N L] A. destruct s as [ar els pa n cap lf nl de re]. destruct S. split; [|done]. constructor; try done; by constructor.
Qed.

Lemma add_group_grows s name repetition parent_index : schema_ok s -> sch_num_elements s < 2 ^ 30 -> 0 ∈ name ->
  exists r t, carquet_schema_add_group s name repetition parent_index = Some (r, t) /\
    (r = sch_num_elements s /\ (exists p, target (forest_of s) parent_index = Some p /\ grew s [(p, group_node name repetition None)] t) \/
     r = -1 /\ grew s [] t /\ (ArrayHeapTotal Hp -> target (forest_of s) parent_index = None)).
Proof.
  intros K HN Hn. unfold carquet_schema_add_group. rewrite checked_parent_spec by done. cbn [mbind option_bind].
  destruct (target (forest_of s) parent_index) as [p|] eqn:Et; [|exists (-1), s; split; [done|]; right; split; [done|]; split; [by apply grew_nil|done]].
  destruct (schema_ensure_capacity_spec s (sch_num_elements s + 1) K) as (st & t & E & Kt & Ef & Ea & En & Hst); [lia|]. rewrite E. cbn [mbind option_bind].
  destruct Hst as [[-> Hc]|[-> Hf]]; [|exists (-1), t; split; [done|]; right; split; [done|]; split; [by apply grew_nil|tauto]]. cbn [negb is_ok_OK].
  change (negb (is_ok CARQUET_OK)) with false. cbv iota.
  destruct (strdup_stores (sch_arena t) name (λ r, (group_node name repetition None)<| se_name := r |>) (group_node name repetition None) p) as (c & ar & Ec & Rr & Hname);
    [apply Kt|done..|]. rewrite Ec. cbn [mbind option_bind].
  destruct (set_arena_ok t ar Kt Rr) as (Ka & Fa & Na & Ca & Aa). set (ta := t<| sch_arena := ar |>) in *. set (e := _ : parquet_schema_element_t).
  destruct (push_element_spec ta e p Ka) as (u & Eu & P); [lia|rewrite Fa, Ef; by apply target_group in Et|done|].
  rewrite Eu. cbn [mbind option_bind]. exists (sch_num_elements t), u. split; [done|]. left. split; [done|]. exists p. split; [done|].
  split; [apply (pushed_group ta e p u); try done; rewrite Fa, Ef; by apply target_group in Et|].
  exists [(p, erase e)]. rewrite (pu_forest _ _ _ _ P), Fa, Ef, (pu_arena _ _ _ _ P), Aa, <- Ea. split; [done|]. split; [exact Hname|by repeat constructor].
Qed.

(** The union is there to be read. *)
Definition logical_arg_ok (lt : option carquet_logical_type_t) : Prop := match lt with Some lt => 8 <= lenZ (lt_params lt) | None => True end.

Lemma validate_total type lt type_length : logical_arg_ok lt -> exists st, validate_column_logical_type type lt type_length = Some st.
Proof.
  intros H. unfold validate_column_logical_type. destruct lt as [lt|]; [|eauto]. cbn in H. unfold get_i32, get_i8.
  destruct (rd_n_total (lt_params lt) 0 4) as (a & -> & _); [lia..|]. destruct (rd_n_total (lt_params lt) 4 4) as (b & -> & _); [lia..|].
  destruct (rd_Some (lt_params lt) 0) as [c ->]; [lia|]. cbn [fmap option_fmap option_map mbind option_bind].
  repeat (destruct (_ : bool); [by eexists|]). by eexists.
Qed.

Lemma add_column_grows s name type lt repetition type_length parent_index : schema_ok s -> sch_num_elements s < 2 ^ 30 -> 0 ∈ name -> logical_arg_ok lt ->
  let n := column_node name type lt repetition type_length in
  exists st t, carquet_schema_add_column s name type lt repetition type_length parent_index = Some (st, t) /\
    (is_ok st = true /\ (exists p, target (forest_of s) parent_index = Some p /\ grew s [(p, n)] t) \/
     is_ok st = false /\ grew s [] t /\ (ArrayHeapTotal Hp -> target (forest_of s) parent_index = None \/ ~ node_ok (0, n))).
Proof.
  intros K HN Hn HL n. unfold carquet_schema_add_column. destruct (validate_total type lt type_length HL) as [sv Ev]. rewrite Ev. cbn [mbind option_bind].
  destruct (is_ok sv) eqn:Hsv; cbn [negb]; [|exists sv, s; split; [done|]; right; split; [done|]; split; [by apply grew_nil|]].
  2:{ intros _. right. unfold node_ok. cbn. rewrite Ev. by intros [= ->]. }
  apply is_ok_true in Hsv as ->. rewrite checked_parent_spec by done. cbn [mbind option_bind].
  destruct (target (forest_of s) parent_index) as [p|] eqn:Et;
    [|exists CARQUET_ERROR_INVALID_ARGUMENT, s; split; [done|]; right; split; [done|]; split; [by apply grew_nil|auto]].
  destruct (schema_ensure_capacity_spec s (sch_num_elements s + 1) K) as (st & t & E & Kt & Ef & Ea & En & Hst); [lia|]. rewrite E. cbn [mbind option_bind].
  destruct Hst as [[-> Hc]|[-> Hf]]; [|eexists CARQUET_ERROR_OUT_OF_MEMORY, t; split; [done|]; right; split; [done|]; split; [by apply grew_nil|tauto]].
  change (negb (is_ok CARQUET_OK)) with false. cbv iota.
  destruct (strdup_stores (sch_arena t) name (λ r, n<| se_name := r |>) n p) as (c & ar & Ec & Rr & Hname); [apply Kt|done..|]. rewrite Ec. cbn [mbind option_bind].
  destruct (set_arena_ok t ar Kt Rr) as (Ka & Fa & Na & Ca & Aa). set (ta := t<| sch_arena := ar |>) in *. set (e := _ : parquet_schema_element_t).
  apply target_group in Et as G. rewrite <- Ef, <- Fa in G.
  destruct (push_element_spec ta e p Ka) as (u & Eu & P); [lia|done..|]. rewrite Eu. cbn [mbind option_bind].
  assert (has_type e = true) as He by done. destruct (pushed_column ta e p u Ka P G He) as (v & Ev' & Kv & Fv & Nv & _ & Av).
  assert (forest_ok (forest_of u)) as Fu by (rewrite <- Fv; apply Kv). pose proof G as [B _]. rewrite <- (num_forest ta Ka) in B.
  assert (rd (forest_of u) (sch_num_elements ta) = Some (p, erase e)) as Ru.
  { rewrite (pu_forest _ _ _ _ P), (num_forest ta Ka). by apply rd_middle. }
  change (0, 0) with (i16 0, i16 0). change (add_levels repetition) with (add_levels (repetition_of e)).
  rewrite add_levels_spec, ancestor_levels_spec by (apply P || done || rewrite (pu_num _ _ _ _ P); lia). cbn [mbind option_bind].
  rewrite <- Na. rewrite (def_level_step _ _ p (erase e)), (rep_level_step _ _ p (erase e)) in Ev' by (done || lia).
  destruct (adds_erase e) as [Ed Er]. rewrite Ed, Er in Ev'. rewrite !Z.add_0_l, Ev'. cbn [mbind option_bind].
  exists CARQUET_OK, v. split; [done|]. left. split; [done|]. exists p. split; [done|]. split; [done|].
  exists [(p, erase e)]. rewrite Fv, (pu_forest _ _ _ _ P), Fa, Ef, Av, (pu_arena _ _ _ _ P), Aa, <- Ea. split; [done|]. split; [exact Hname|by repeat constructor].
Qed.

End Build.
