(* ===== verification/SchemaOps.v ===== *)
(** * The operations that build a schema, all together (carquet/metadata/schema.c)

    Lists, maps and variants are several nodes.  Every operation adds the nodes it stands
    for, in order, up to the first one that is refused. *)

From S2P Require Import Prelude Status Endian Memory Heap Arena ParquetTypes ParquetValues Schema SchemaForest SchemaBuild.
From coqutil Require Import Datatypes.RecordSetters.
Import RecordSetters.TriangleBracketNotations.

#[local] Open Scope Z_scope.

Section Ops.
Context {Sp : AddressSpace} {Hp : ArrayHeap} {HpOk : ArrayHeapOk Hp} {Fl : FloorLog10}.

(** ** Annotating a group *)

Lemma last_replaced t f p g i e e' els : schema_ok t -> forest_ok f -> forest_of t = f ++ [(p, g)] -> has_type g = false -> i = lenZ f ->
  rd (sch_elements t) i = Some e -> se_num_children e' = se_num_children e -> has_type e' = false -> wr (sch_elements t) i e' = Some els ->
  let u := t<| sch_elements := els |> in
  schema_ok u /\ forest_of u = f ++ [(p, erase e')] /\ sch_arena u = sch_arena t.
Proof.
  intros K Ff EF Tg -> He Hc Te Hw u. pose proof (num_forest t K) as N. rewrite EF, length_app in N. cbn [length] in N.
  assert (rd (forest_of t) (lenZ f) = Some (p, g)) as Rg by (rewrite EF; by apply rd_middle).
  pose proof (forest_nonempty f Ff). destruct (forest_parent _ (ok_forest t K) (lenZ f) p g ltac:(lia) Rg) as [Hp' Gp].
  assert (is_group f p) as G.
  { destruct Gp as [B T]. rewrite EF, node_at_app_l in T by lia. split; [lia|done]. }
  destruct K as [A S F C NL L]. destruct (rd_forest_inv t _ _ _ S Rg) as (_ & Pp & _).
  assert (sch_num_elements u = sch_num_elements t /\ sch_parent_indices u = sch_parent_indices t /\ sch_elements u = els /\
    sch_capacity u = sch_capacity t /\ sch_num_leaves u = sch_num_leaves t /\ sch_leaf_indices u = sch_leaf_indices t /\
    sch_max_def_levels u = sch_max_def_levels t /\ sch_max_rep_levels u = sch_max_rep_levels t /\ sch_arena u = sch_arena t) as (T1 & T2 & T3 & T4 & T5 & T6 & T7 & T8 & T0)
    by (unfold u; by destruct t).
  clearbody u.
  assert (forest_of u = f ++ [(p, erase e')]) as EU.
  { pose proof EF as E1. unfold forest_of in E1 |- *. rewrite T1, N. rewrite N in E1. replace (Z.of_nat (length f + 1)) with (lenZ f + 1) in * by lia.
    rewrite (seqZ_app 0 (lenZ f) 1), fmap_app in E1 |- * by lia. apply app_inj_1 in E1 as [E1 _]; [|rewrite length_fmap, length_seqZ; lia].
    f_equal.
    - transitivity (node_of t <$> seqZ 0 (lenZ f)); [|done]. apply list_fmap_ext. intros k i Hi. apply lookup_seqZ in Hi as [-> Hk].
      unfold node_of. rewrite T2, T3, (rd_wr _ _ _ _ _ Hw). by decide_bool.
    - rewrite seqZ_cons, seqZ_nil, Z.add_0_l by lia. cbn [fmap list_fmap]. unfold node_of. rewrite T2, T3, Pp, (rd_wr _ _ _ _ _ Hw). by decide_bool. }
  split; [|done].
  assert (columns (forest_of u) = columns f) as Cu by (rewrite EU, columns_snoc, has_type_erase, Te; apply app_nil_r).
  assert (columns (forest_of t) = columns f) as Ct by (rewrite EF, columns_snoc, Tg; apply app_nil_r).
  constructor.
  - by rewrite T0.
  - destruct S. constructor; rewrite ?T1, ?T2, ?T3, ?T4, ?T6, ?T7, ?T8, ?(length_wr _ _ _ _ Hw); done.
  - rewrite EU. by apply forest_ok_snoc.
  - intros i x. rewrite T1, T3, (rd_wr _ _ _ _ _ Hw), EU, children_snoc. intros Hi Hx. rewrite EF in C.
    destruct (Z.eqb_spec i (lenZ f)) as [->|]; [injection Hx as <-; rewrite Hc|]; rewrite (C _ _ Hi) by done; by rewrite children_snoc.
  - by rewrite T5, Cu, <- Ct.
  - rewrite Cu, T6, T7, T8. rewrite Ct, EF in L. intros k i Hk. assert (i < lenZ f) as Hi.
    { pose proof (rd_bound _ _ _ Hk). rewrite rd_lookup in Hk by lia. apply list_elem_of_lookup_2, list_elem_of_filter in Hk as [_ Hk]. apply elem_of_seqZ in Hk. lia. }
    specialize (L k i Hk). by rewrite EU, !def_level_app, !rep_level_app in * by done.
Qed.

Lemma annotated s name rep p t h lt : schema_ok s -> grew s [(p, group_node name rep None)] t ->
  (forall e, se_logical_type e = None -> h e = Some (e<| se_logical_type := Some lt |>)) ->
  exists u, update_element t (sch_num_elements s) h = Some u /\ grew s [(p, group_node name rep (Some lt))] u.
Proof.
  intros K [Kt (a & E & F2 & _)] Hh. cbn [store_names] in F2. change (se_name (group_node name rep None)) with (Some (c_text name ++ [0])) in F2.
  cbn [mbind option_bind] in F2. destruct (carquet_arena_alloc_aligned (sch_arena s) _ _) as [[q ar]|] eqn:Eq; [|done].
  cbn [mbind option_bind] in F2. injection F2 as <- Ear.
  set (nm := (λ _, c_text name ++ [0]) <$> q) in *. set (g := (group_node name rep None)<| se_name := nm |>) in *.
  assert (has_type g = false /\ se_logical_type g = None) as (Tg & Lg) by done.
  change (forest_of t = forest_of s ++ [(p, g)]) in E.
  assert (rd (forest_of t) (lenZ (forest_of s)) = Some (p, g)) as R by (rewrite E; by apply rd_middle).
  rewrite (num_forest s K). apply rd_forest_inv in R as (B & _ & e & Ee & Eg); [|apply Kt]. rewrite Eg in Tg, Lg, E. unfold update_element. rewrite Ee. cbn [mbind option_bind].
  assert (se_logical_type e = None) as Le by (by destruct e). rewrite (Hh e Le). cbn [mbind option_bind]. set (e' := e<| se_logical_type := Some lt |>).
  rewrite has_type_erase in Tg.
  destruct (wr_total (sch_elements t) (lenZ (forest_of s)) e') as [els Hw]; [by apply rd_bound in Ee|]. rewrite Hw. cbn [mbind option_bind].
  eexists. split; [reflexivity|].
  destruct (last_replaced t (forest_of s) p (erase e) (lenZ (forest_of s)) e e' els Kt) as (Ku & Eu & Au); [apply K|done|by rewrite has_type_erase|done|done|by destruct e|by destruct e|done|].
  split; [done|]. exists [(p, erase e')]. split; [done|]. split; [|by repeat constructor]. cbn [store_names].
  change (se_name (group_node name rep (Some lt))) with (Some (c_text name ++ [0])). cbn [mbind option_bind]. rewrite Eq. cbn [mbind option_bind].
  rewrite Au, <- Ear. do 4 f_equal. change ((group_node name rep (Some lt))<| se_name := nm |> = erase e').
  transitivity (g<| se_logical_type := Some lt |>); [done|]. rewrite Eg. by destruct e.
Qed.

(** ** One step of an operation *)

(** The operation added the wanted nodes up to some point; it reports success if that is
    all of them, and stops early only at a node whose types do not go together, if memory
    does not run out. *)
Definition outcome (s : carquet_schema_t) (want : list node) (ok : bool) (t : carquet_schema_t) : Prop :=
  exists k, (k <= length want)%nat /\ grew s (take k want) t /\ (ok = true <-> k = length want /\ want <> []) /\
    (ArrayHeapTotal Hp -> (k < length want)%nat -> exists n, want !! k = Some n /\ ~ node_ok n).

Lemma outcome_stop s want t k n : grew s (take k want) t -> want !! k = Some n -> (ArrayHeapTotal Hp -> ~ node_ok n) -> outcome s want false t.
Proof.
  intros G Hk H. apply lookup_lt_Some in Hk as Lk. exists k. split; [lia|]. split; [done|]. split; [split; [done|intros [-> _]; lia]|].
  intros T _. exists n. split; [done|by apply H].
Qed.

Lemma outcome_all s want t : grew s want t -> want <> [] -> outcome s want true t.
Proof. intros G H. exists (length want). rewrite take_ge by done. split; [done|]. split; [done|]. split; [done|lia]. Qed.

Lemma outcome_refused s t : grew s [] t -> outcome s [] false t.
Proof. intros G. exists 0%nat. split; [done|]. split; [done|]. split; [by split; [|intros [_ ?]]|cbn; lia]. Qed.

Lemma grew_same s ns t u : grew s ns t -> grew t [] u -> grew s ns u.
Proof. intros G G'. rewrite <- (app_nil_r ns). by apply (grew_trans s _ t). Qed.

Lemma grew_more s want k n t u : grew s (take k want) t -> want !! k = Some n -> grew t [n] u -> grew s (take (S k) want) u.
Proof. intros G Hk G'. rewrite (take_S_r _ _ _ Hk). by apply (grew_trans s _ t _ u). Qed.

(** A group that was added is a parent for what follows. *)
Lemma grew_target s ns t j p g : schema_ok s -> grew s ns t -> ns !! j = Some (p, g) -> has_type g = false ->
  target (forest_of t) (sch_num_elements s + Z.of_nat j) = Some (sch_num_elements s + Z.of_nat j).
Proof.
  intros K [Kt (a & E & F & _)] Hj Tg. apply store_names_same in F. destruct (Forall2_lookup_l _ _ _ _ _ F Hj) as ([q g'] & Ha & Hq & nm & Hg & _).
  cbn in Hq, Hg. assert (has_type g' = false) as Tg' by (subst g'; by destruct g).
  pose proof (num_forest s K) as N. apply lookup_lt_Some in Ha as La.
  assert (is_group (forest_of t) (sch_num_elements s + Z.of_nat j)) as G.
  { rewrite E. split; [rewrite length_app; lia|]. unfold node_at. rewrite N, rd_app_r by lia.
    replace (lenZ (forest_of s) + Z.of_nat j - lenZ (forest_of s)) with (Z.of_nat j) by lia. rewrite rd_lookup, Nat2Z.id, Ha by lia. done. }
  unfold target. replace (_ =? -1) with false by lia. by rewrite decide_True.
Qed.

Section Step.
Context (s t : carquet_schema_t) (want : list node) (k : nat) (parent_index p : Z) (name : list Z) (repetition : Z).
Context (K : schema_ok s) (G : grew s (take k want) t) (HN : sch_num_elements t < 2 ^ 30) (Hname : 0 ∈ name).
Context (Ht : target (forest_of t) parent_index = Some p).

Lemma column_step type lt type_length : logical_arg_ok lt -> want !! k = Some (p, column_node name type lt repetition type_length) ->
  exists st u, carquet_schema_add_column t name type lt repetition type_length parent_index = Some (st, u) /\
    (is_ok st = true /\ grew s (take (S k) want) u \/ is_ok st = false /\ outcome s want false u).
Proof.
  intros HL Hk. destruct (add_column_grows t name type lt repetition type_length parent_index (proj1 G) HN Hname HL) as (st & u & E & H).
  exists st, u. split; [exact E|]. destruct H as [(Hok & q & Hq & Gu)|(Hok & Gu & Hstop)]; [left|right]; split; try done.
  - rewrite Ht in Hq. injection Hq as <-. exact (grew_more s want k _ t u G Hk Gu).
  - apply (outcome_stop s want u k _ (grew_same _ _ _ _ G Gu) Hk).
    intros T. destruct (Hstop T) as [?|Hbad]; [congruence|exact Hbad].
Qed.

Lemma group_step : want !! k = Some (p, group_node name repetition None) ->
  exists r u, carquet_schema_add_group t name repetition parent_index = Some (r, u) /\
    (r = sch_num_elements t /\ grew s (take (S k) want) u \/ r = -1 /\ outcome s want false u).
Proof.
  intros Hk. destruct (add_group_grows t name repetition parent_index (proj1 G) HN Hname) as (r & u & E & H).
  exists r, u. split; [exact E|]. destruct H as [(Hr & q & Hq & Gu)|(Hr & Gu & Hstop)]; [left|right]; split; try done.
  - rewrite Ht in Hq. injection Hq as <-. exact (grew_more s want k _ t u G Hk Gu).
  - apply (outcome_stop s want u k _ (grew_same _ _ _ _ G Gu) Hk).
    intros T. specialize (Hstop T). congruence.
Qed.
End Step.

(** The annotated group that a list, a map or a variant starts with. *)
Lemma outer_step s want name repetition parent_index lt h : schema_ok s -> sch_num_elements s < 2 ^ 30 -> 0 ∈ name ->
  (forall e, se_logical_type e = None -> h e = Some (e<| se_logical_type := Some lt |>)) ->
  (forall p, target (forest_of s) parent_index = Some p -> want !! 0%nat = Some (p, group_node name repetition (Some lt))) ->
  (target (forest_of s) parent_index = None -> want = []) ->
  exists r t, carquet_schema_add_group s name repetition parent_index = Some (r, t) /\
    (r = sch_num_elements s /\ (exists p u, target (forest_of s) parent_index = Some p /\ update_element t r h = Some u /\ grew s (take 1 want) u) \/
     r = -1 /\ outcome s want false t).
Proof.
  intros K HN Hn Hh Hw Hnone. destruct (add_group_grows s name repetition parent_index K HN Hn) as (r & t & E & H).
  exists r, t. split; [exact E|]. destruct H as [(-> & p & Hp' & Gt)|(-> & Gt & Hstop)]; [left|right]; split; try done.
  - destruct (annotated s name repetition p t h lt K Gt Hh) as (u & Eu & Gu). exists p, u. split; [done|]. split; [exact Eu|].
    specialize (Hw p Hp'). by rewrite (take_S_r _ 0 _ Hw).
  - destruct (target (forest_of s) parent_index) as [p|] eqn:Et.
    + apply (outcome_stop s want t 0 (p, group_node name repetition (Some lt))); [done|by apply Hw|]. intros T. by specialize (Hstop T).
    + rewrite (Hnone eq_refl). by apply outcome_refused.
Qed.

(** ** The operations, abstractly *)

Inductive schema_op :=
| AddColumn (name : list Z) (type : Z) (lt : option carquet_logical_type_t) (repetition type_length parent : Z)
| AddGroup (name : list Z) (repetition parent : Z)
| AddVariant (name : list Z) (repetition parent : Z)
| AddList (name : list Z) (type : Z) (lt : option carquet_logical_type_t) (repetition type_length parent : Z)
| AddMap (name : list Z) (key_type : Z) (key_lt : option carquet_logical_type_t) (key_length : Z)
    (value_type : Z) (value_lt : option carquet_logical_type_t) (value_length repetition parent : Z).

(** What the caller sees: a status, or the index of the outer group, -1 for none. *)
Inductive answer := Status (st : carquet_status_t) | Index (i : Z).

Definition succeeded (a : answer) : bool := match a with Status st => is_ok st | Index i => 0 <=? i end.

Definition run_op (s : carquet_schema_t) (op : schema_op) : option (answer * carquet_schema_t) :=
  match op with
  | AddColumn name type lt repetition type_length parent =>
      '(st, s) ← carquet_schema_add_column s name type lt repetition type_length parent; Some (Status st, s)
  | AddGroup name repetition parent => '(i, s) ← carquet_schema_add_group s name repetition parent; Some (Index i, s)
  | AddVariant name repetition parent => '(i, s) ← carquet_schema_add_variant s name repetition parent; Some (Index i, s)
  | AddList name type lt repetition type_length parent =>
      '(i, s) ← carquet_schema_add_list s name type lt repetition type_length parent; Some (Index i, s)
  | AddMap name kt kl kn vt vl vn repetition parent =>
      '(i, s) ← carquet_schema_add_map s name kt kl kn vt vl vn repetition parent; Some (Index i, s)
  end.

Definition op_parent (op : schema_op) : Z :=
  match op with AddColumn _ _ _ _ _ p | AddGroup _ _ p | AddVariant _ _ p | AddList _ _ _ _ _ p | AddMap _ _ _ _ _ _ _ _ p => p end.

Definition variant_type : carquet_logical_type_t := mk_logical_type CARQUET_LOGICAL_VARIANT (1 :: replicate 135 0).

(** The nodes an operation adds below [p] when there are [n] nodes. *)
Definition op_nodes (n p : Z) (op : schema_op) : list node :=
  match op with
  | AddColumn name type lt repetition type_length _ => [(p, column_node name type lt repetition type_length)]
  | AddGroup name repetition _ => [(p, group_node name repetition None)]
  | AddVariant name repetition _ =>
      [(p, group_node name repetition (Some variant_type));
       (n, column_node name_metadata CARQUET_PHYSICAL_BYTE_ARRAY None CARQUET_REPETITION_REQUIRED 0);
       (n, column_node name_value CARQUET_PHYSICAL_BYTE_ARRAY None CARQUET_REPETITION_REQUIRED 0)]
  | AddList name type lt repetition type_length _ =>
      [(p, group_node name repetition (Some (logical CARQUET_LOGICAL_LIST)));
       (n, group_node name_list CARQUET_REPETITION_REPEATED None);
       (n + 1, column_node name_element type lt CARQUET_REPETITION_OPTIONAL type_length)]
  | AddMap name kt kl kn vt vl vn repetition _ =>
      [(p, group_node name repetition (Some (logical CARQUET_LOGICAL_MAP)));
       (n, group_node name_key_value CARQUET_REPETITION_REPEATED None);
       (n + 1, column_node name_key kt kl CARQUET_REPETITION_REQUIRED kn);
       (n + 1, column_node name_value vt vl CARQUET_REPETITION_OPTIONAL vn)]
  end.

Definition wanted (f : forest) (op : schema_op) : list node :=
  match target f (op_parent op) with Some p => op_nodes (lenZ f) p op | None => [] end.

(** Names are terminated, and the union of a logical type can be read. *)
Definition op_ok (op : schema_op) : Prop :=
  match op with
  | AddColumn name _ lt _ _ _ | AddList name _ lt _ _ _ => 0 ∈ name /\ logical_arg_ok lt
  | AddGroup name _ _ | AddVariant name _ _ => 0 ∈ name
  | AddMap name _ kl _ _ vl _ _ _ => 0 ∈ name /\ logical_arg_ok kl /\ logical_arg_ok vl
  end.

#[export] Instance op_ok_dec op : Decision (op_ok op).
Proof. destruct op as [? ? lt| | |? ? lt|? ? kl ? ? vl]; cbn; try destruct lt; try destruct kl; try destruct vl; cbn; apply _. Defined.

(** What every operation is proved to do. *)
Definition answers (s : carquet_schema_t) (want : list node) (r : option (answer * carquet_schema_t)) : Prop :=
  exists a t, r = Some (a, t) /\ outcome s want (succeeded a) t /\ (forall i, a = Index i -> i = -1 \/ i = sch_num_elements s).

Lemma answers_fail s want t : outcome s want false t -> answers s want (Some (Index (-1), t)).
Proof. intros H. exists (Index (-1)), t. split; [done|]. split; [done|]. intros i [= <-]. by left. Qed.

Lemma answers_index s want t i : 0 <= i -> i = sch_num_elements s -> outcome s want true t -> answers s want (Some (Index i, t)).
Proof.
  intros Hi -> H. exists (Index (sch_num_elements s)), t. split; [done|]. split; [cbn; by decide_bool|]. intros i [= <-]. by right.
Qed.

Lemma annotate_fresh id e : se_logical_type e = None -> annotate id e = e<| se_logical_type := Some (logical id) |>.
Proof. unfold annotate. intros ->. done. Qed.

Lemma annotate_variant_fresh e : se_logical_type e = None -> annotate_variant e = Some (e<| se_logical_type := Some variant_type |>).
Proof.
  intros H. unfold annotate_variant. rewrite annotate_fresh by done.
  replace (default lt_zero _) with (logical CARQUET_LOGICAL_VARIANT) by (by destruct e).
  change (put_i8 (lt_params (logical CARQUET_LOGICAL_VARIANT)) 0 1) with (Some (1 :: replicate 135 0)). cbn [mbind option_bind]. by destruct e.
Qed.

Section Operations.
Context (s : carquet_schema_t) (K : schema_ok s) (HN : sch_num_elements s + 4 < 2 ^ 30).

Lemma bound_after want k t : grew s (take k want) t -> (k <= 3)%nat -> sch_num_elements t < 2 ^ 30.
Proof. intros G Hk. rewrite (grew_num s _ t G K), length_take. lia. Qed.

Lemma index_nonneg : 0 <= sch_num_elements s.
Proof. pose proof (st_num s (ok_storage s K)). lia. Qed.

Lemma target_after want k t j p g : grew s (take k want) t -> want !! j = Some (p, g) -> (j < k)%nat -> has_type g = false ->
  target (forest_of t) (sch_num_elements s + Z.of_nat j) = Some (sch_num_elements s + Z.of_nat j).
Proof. intros G Hj Hk Tg. apply (grew_target s (take k want) t j p g K G); [by rewrite lookup_take_lt|done]. Qed.

(** The first node of a list, a map or a variant. *)
Lemma outer_answers op name rep lt h body : 0 ∈ name -> (forall e, se_logical_type e = None -> h e = Some (e<| se_logical_type := Some lt |>)) ->
  (forall n p, head (op_nodes n p op) = Some (p, group_node name rep (Some lt))) ->
  (forall p u, target (forest_of s) (op_parent op) = Some p -> grew s (take 1 (op_nodes (sch_num_elements s) p op)) u ->
    answers s (op_nodes (sch_num_elements s) p op) ('(i, t) ← body (sch_num_elements s) u; Some (Index i, t))) ->
  answers s (wanted (forest_of s) op)
    ('(i, t) ← ('(outer, t) ← carquet_schema_add_group s name rep (op_parent op);
                if outer <? 0 then Some (-1, t) else u ← update_element t outer h; body outer u); Some (Index i, t)).
Proof.
  intros Hn Hh Hhead Hbody. pose proof index_nonneg.
  destruct (outer_step s (wanted (forest_of s) op) name rep (op_parent op) lt h K) as (r & t & E & H'); [lia|done|done| | |].
  - unfold wanted. intros p ->. specialize (Hhead (lenZ (forest_of s)) p). by destruct (op_nodes _ p op); [|cbn in *].
  - unfold wanted. by intros ->.
  - rewrite E. cbn [mbind option_bind]. destruct H' as [(-> & p & u & Hp' & Eu & Gu)|(-> & Ho)]; [|by apply answers_fail].
    decide_bool. rewrite Eu. cbn [mbind option_bind]. unfold wanted in *. rewrite Hp', <- (num_forest s K) in *. by apply Hbody.
Qed.

(** The group that stands at place [k], then the rest. *)
Lemma group_answers want k u name rep parent body : (k <= 3)%nat -> 0 ∈ name -> grew s (take k want) u ->
  target (forest_of u) parent = Some parent -> want !! k = Some (parent, group_node name rep None) ->
  (forall v, grew s (take (S k) want) v ->
    answers s want ('(i, t) ← body (sch_num_elements s + Z.of_nat k) v; Some (Index i, t))) ->
  answers s want
    ('(i, t) ← ('(inner, v) ← carquet_schema_add_group u name rep parent;
                if inner <? 0 then Some (-1, v) else body inner v); Some (Index i, t)).
Proof.
  intros Hk Hn G Ht Hw Hbody. pose proof index_nonneg. pose proof (lookup_lt_Some _ _ _ Hw) as L.
  destruct (group_step s u want k parent parent name rep G) as (r & v & E & H'); [by apply (bound_after want k u)|done|done|done|].
  rewrite E. cbn [mbind option_bind]. destruct H' as [(-> & Gv)|(-> & Ho)]; [|by apply answers_fail].
  rewrite (grew_num s _ u G K), length_take. replace (Nat.min k (length want)) with k by lia. decide_bool. by apply Hbody.
Qed.

Lemma column_answers want k u name type lt rep type_length parent body : (k <= 3)%nat -> 0 ∈ name -> logical_arg_ok lt -> grew s (take k want) u ->
  target (forest_of u) parent = Some parent -> want !! k = Some (parent, column_node name type lt rep type_length) ->
  (forall v, grew s (take (S k) want) v -> answers s want ('(i, t) ← body v; Some (Index i, t))) ->
  answers s want
    ('(i, t) ← ('(st, v) ← carquet_schema_add_column u name type lt rep type_length parent;
                if negb (is_ok st) then Some (-1, v) else body v); Some (Index i, t)).
Proof.
  intros Hk Hn HL G Ht Hw Hbody.
  destruct (column_step s u want k parent parent name rep G) with (type := type) (lt := lt) (type_length := type_length) as (st & v & E & H');
    [by apply (bound_after want k u)|done..|].
  rewrite E. cbn [mbind option_bind]. destruct H' as [(-> & Gv)|(-> & Ho)]; cbn [negb]; [by apply Hbody|by apply answers_fail].
Qed.

Lemma finished want t : grew s want t -> want <> [] -> answers s want (Some (Index (sch_num_elements s), t)).
Proof. intros G H. apply answers_index; [apply index_nonneg|done|by apply outcome_all]. Qed.

Lemma index_target want k t j p g i : grew s (take k want) t -> want !! j = Some (p, g) -> (j < k)%nat -> has_type g = false ->
  i = sch_num_elements s + Z.of_nat j -> target (forest_of t) i = Some i.
Proof. intros G Hj Hk Tg ->. by apply (target_after want k t j p g). Qed.
End Operations.

Lemma name_ok (l : list Z) : bool_decide (0 ∈ l) = true -> 0 ∈ l.
Proof. by intros ?%bool_decide_eq_true. Qed.

(** Every operation, on every valid schema. *)
Lemma run_op_spec s op : schema_ok s -> op_ok op -> sch_num_elements s + 4 < 2 ^ 30 -> answers s (wanted (forest_of s) op) (run_op s op).
Proof.
  intros K Ho HN. pose proof (index_nonneg s K). destruct op as [name ty lt rep tl par|name rep par|name rep par|name ty lt rep tl par|name kt kl kn vt vl vn rep par]; cbn [op_ok] in Ho.
  - destruct Ho as [Hn HL]. destruct (add_column_grows s name ty lt rep tl par K) as (st & t & E & H'); [lia|done|done|].
    unfold run_op. rewrite E. exists (Status st), t. split; [done|]. split; [|done]. unfold wanted. cbn [op_parent op_nodes succeeded].
    destruct H' as [(-> & p & -> & G)|(-> & G & Hs)]; [by apply outcome_all|]. destruct (target (forest_of s) par) as [p|]; [|by apply outcome_refused].
    eapply (outcome_stop s _ t 0); [done|done|]. intros T. by destruct (Hs T) as [?|?].
  - destruct (add_group_grows s name rep par K) as (r & t & E & H'); [lia|done|]. unfold run_op, wanted. rewrite E. cbn [mbind option_bind op_parent op_nodes].
    destruct H' as [(-> & p & -> & G)|(-> & G & Hs)]; [by apply (finished s K)|apply answers_fail].
    destruct (target (forest_of s) par) as [p|]; [|by apply outcome_refused]. eapply (outcome_stop s _ t 0); [done|done|]. intros T. by specialize (Hs T).
  - eapply (outer_answers s K HN (AddVariant name rep par) name rep variant_type annotate_variant); [done|apply annotate_variant_fresh|done|].
    intros p u Hp' G. cbn [op_nodes] in *.
    apply (column_answers s K HN _ 1); [lia|by apply name_ok|done|done|eapply (index_target s K _ 1 u 0); try done; lia|done|]. intros v Gv.
    apply (column_answers s K HN _ 2); [lia|by apply name_ok|done|done|eapply (index_target s K _ 2 v 0); try done; lia|done|]. intros w Gw.
    by apply (finished s K).
  - destruct Ho as [Hn HL].
    eapply (outer_answers s K HN (AddList name ty lt rep tl par) name rep (logical CARQUET_LOGICAL_LIST)); [done|intros; by rewrite annotate_fresh|done|].
    intros p u Hp' G. cbn [op_nodes] in *.
    apply (group_answers s K HN _ 1); [lia|by apply name_ok|done|eapply (index_target s K _ 1 u 0); try done; lia|done|]. intros v Gv.
    apply (column_answers s K HN _ 2); [lia|by apply name_ok|done|done|eapply (index_target s K _ 2 v 1); try done; lia|done|]. intros w Gw.
    by apply (finished s K).
  - destruct Ho as (Hn & HL1 & HL2).
    eapply (outer_answers s K HN (AddMap name kt kl kn vt vl vn rep par) name rep (logical CARQUET_LOGICAL_MAP)); [done|intros; by rewrite annotate_fresh|done|].
    intros p u Hp' G. cbn [op_nodes] in *.
    apply (group_answers s K HN _ 1); [lia|by apply name_ok|done|eapply (index_target s K _ 1 u 0); try done; lia|done|]. intros v Gv.
    apply (column_answers s K HN _ 2); [lia|by apply name_ok|done|done|eapply (index_target s K _ 2 v 1); try done; lia|done|]. intros w Gw.
    apply (column_answers s K HN _ 3); [lia|by apply name_ok|done|done|eapply (index_target s K _ 3 w 1); try done; lia|done|]. intros x Gx.
    by apply (finished s K).
Qed.

End Ops.
