(* ===== verification/SchemaQueries.v ===== *)
(** * Schemas that a program can build, and what the queries say of them (carquet/metadata/schema.c)

    Creation, the reachable schemas, the queries by column, and the theorems on building
    and validation. *)

From S2P Require Import Prelude Status Endian Memory Heap Buffer Arena ParquetTypes ParquetValues FooterRoundtrip Schema SchemaForest SchemaBuild SchemaOps.
From coqutil Require Import Datatypes.RecordSetters.
Import RecordSetters.TriangleBracketNotations.

#[local] Open Scope Z_scope.

(** The name is terminated, if there is one. *)
Definition named (n : node) : Prop := match se_name n.2 with Some m => 0 ∈ m | None => True end.

Section Reach.
Context {Sp : AddressSpace} {Hp : ArrayHeap} {HpOk : ArrayHeapOk Hp} {Fl : FloorLog10}.

Definition root_node (name : cstring) : node := (-1, se_zero<| se_name := name |>).

Lemma array_calloc_length {X} (zero : X) n size p : array_calloc zero n size = Some p -> p = replicate (Z.to_nat n) zero.
Proof. unfold array_calloc. destruct (array_realloc _ _ _); [|done]. by intros [= <-]. Qed.

Lemma create_spec : carquet_schema_create = Some None \/
  exists s nm, carquet_schema_create = Some (Some s) /\ schema_ok s /\ forest_of s = [root_node nm] /\ named (root_node nm).
Proof.
  unfold carquet_schema_create. destruct (array_calloc tt 1 _); [|by left]. destruct (carquet_arena_init_size 4096) as [[] ar] eqn:Ei; try by left. apply init_ready in Ei.
  destruct (array_calloc se_zero _ _) as [els|] eqn:E1; [|by left]. apply array_calloc_length in E1 as ->.
  destruct (stored_ready ar (u64 (lenZ (c_text schema_name ++ [0]))) 1 (c_text schema_name ++ [0]) Ei) as (c & ar' & Ec & Rc & Hc). rewrite strdup_text, Ec by (by apply name_ok). cbn [mbind option_bind].
  set (root := se_zero<| se_name := snd <$> c |><| se_num_children := 0 |>). destruct (wr_total (replicate (Z.to_nat SCHEMA_INITIAL_CAPACITY) se_zero) 0 root) as [els E]; [done|].
  rewrite E. cbn [mbind option_bind]. destruct (array_calloc 0 _ 4) as [pa|] eqn:E2; [|by left]. apply array_calloc_length in E2 as ->.
  destruct (wr_total (replicate (Z.to_nat SCHEMA_INITIAL_CAPACITY) 0) 0 (-1)) as [pa Ep]; [done|]. rewrite Ep. cbn [mbind option_bind].
  destruct (array_calloc 0 _ 2) as [de|] eqn:E3; [|by left]. apply array_calloc_length in E3 as ->.
  right. eexists _, (snd <$> c). split; [reflexivity|]. set (s := mk_schema _ _ _ _ _ _ _ _ _).
  assert (rd els 0 = Some root) as R by (by rewrite (rd_wr _ _ _ _ 0 E)). assert (rd pa 0 = Some (-1)) as P by (by rewrite (rd_wr _ _ _ _ 0 Ep)).
  assert (forest_of s = [root_node (snd <$> c)]) as EF.
  { unfold forest_of. cbn [sch_num_elements s]. rewrite seqZ_cons, seqZ_nil by lia. cbn [fmap list_fmap]. unfold node_of. cbn [sch_elements sch_parent_indices s].
    by rewrite R, P. }
  split; [|split; [done|]].
  - constructor; rewrite ?EF; try done.
    + constructor; cbn -[lenZ]; rewrite ?(length_wr _ _ _ _ E), ?(length_wr _ _ _ _ Ep); done.
    + constructor; [done|]. intros i p e Hi Hr. apply rd_bound in Hr. cbn in Hr. lia.
    + intros i e Hi He. cbn in Hi. assert (i = 0) as -> by lia. unfold s in He. cbn [sch_elements] in He. rewrite R in He. injection He as <-. done.
    + intros k i Hk. change (columns _) with (@nil Z) in Hk. apply rd_bound in Hk. cbn in Hk. lia.
  - unfold named, root_node. cbn. destruct Hc as [-> | ->]; [by apply name_ok|done].
Qed.

(** The schemas a program can have: it keeps the schema whatever the answer was. *)
Inductive schema_reach : carquet_schema_t -> Prop :=
| reach_create s : carquet_schema_create = Some (Some s) -> schema_reach s
| reach_op s op a t : schema_reach s -> op_ok op -> sch_num_elements s + 4 < 2 ^ 30 -> run_op s op = Some (a, t) -> schema_reach t.

Lemma text_terminated (l : list Z) : 0 ∈ l ++ [0].
Proof. apply elem_of_app. right. by left. Qed.

Lemma op_nodes_named n p op : Forall named (op_nodes n p op).
Proof. destruct op; cbn [op_nodes]; repeat (apply Forall_cons_2; [exact (text_terminated _)|]); apply Forall_nil_2. Qed.

Lemma stored_named n n' : same_but_name n n' -> named n -> named n'.
Proof.
  destruct n as [p e], n' as [p' e']. intros (Hp' & nm & He & H). cbn in *. subst e'. unfold named. cbn. destruct e as [? ? ? m]. cbn in *. by destruct H as [-> | ->].
Qed.

Lemma wanted_named f op : Forall named (wanted f op).
Proof. unfold wanted. destruct (target _ _); [by apply op_nodes_named|apply Forall_nil_2]. Qed.

Lemma op_nodes_has_name n p op : Forall has_name (op_nodes n p op).
Proof.
  assert (forall l : list Z, l ++ [0] <> []) as H by (intros []; done).
  destruct op; cbn [op_nodes]; repeat (apply Forall_cons_2; [exact (H _)|]); apply Forall_nil_2.
Qed.

Lemma wanted_has_name f op : Forall has_name (wanted f op).
Proof. unfold wanted. destruct (target _ _); [by apply op_nodes_has_name|apply Forall_nil_2]. Qed.

Lemma reach_ok s : schema_reach s -> schema_ok s /\ Forall named (forest_of s).
Proof.
  induction 1 as [s E|s op a t _ [K N] Ho HN E].
  - destruct create_spec as [E'|(s' & nm & E' & K & F & Hn)]; rewrite E' in E; [done|]. injection E as <-. split; [done|]. rewrite F. by apply Forall_singleton.
  - destruct (run_op_spec s op K Ho HN) as (a' & t' & E' & (k & _ & (Kt & added & EF & F2 & _) & _) & _). rewrite E in E'. injection E' as <- <-.
    split; [done|]. rewrite EF. apply Forall_app. split; [done|].
    pose proof (Forall_take named k _ (wanted_named (forest_of s) op)) as W. clear -F2 W.
    apply store_names_same in F2. induction F2 as [|n n' l l' H _ IH]; [apply Forall_nil_2|]. apply Forall_cons_iff in W as [W1 W2]. apply Forall_cons_2; [by apply (stored_named n)|by apply IH].
Qed.

(** ** Queries *)

Definition path_names (f : forest) (i : Z) : list cstring := (λ j, se_name (node_at f j)) <$> lineage f i.

Lemma node_stored s i : schema_ok s -> 0 <= i < sch_num_elements s -> exists e, rd (sch_elements s) i = Some e /\ node_at (forest_of s) i = erase e.
Proof.
  intros K Hi. rewrite (num_forest s K) in Hi. destruct (rd_node_at (forest_of s) i Hi) as [p R]. apply rd_forest_inv in R as (_ & _ & e & He & E); [|apply K]. eauto.
Qed.

Lemma column_index s k : schema_ok s -> 0 <= k < sch_num_leaves s -> exists i, rd (columns (forest_of s)) k = Some i /\ 0 < i < sch_num_elements s.
Proof.
  intros K Hk. rewrite (ok_num_leaves s K) in Hk. destruct (rd_Some _ k Hk) as [i Hi]. exists i. split; [done|].
  rewrite rd_lookup in Hi by lia. apply list_elem_of_lookup_2, list_elem_of_filter in Hi as [T Hi]. apply elem_of_seqZ in Hi.
  rewrite (num_forest s K). destruct (Z.eq_dec i 0) as [->|]; [|lia]. pose proof (forest_root _ (ok_forest s K)) as [_ R]. congruence.
Qed.

Lemma collect_path_spec s room : schema_ok s -> forall i comps, 0 <= i < sch_num_elements s ->
  collect_path s room i comps = Some (comps ++ take room (path_names (forest_of s) i)).
Proof.
  intros K. pose proof (ok_forest s K) as F. induction room as [|room IH]; intros i comps Hi; cbn [collect_path]; [by rewrite take_0, app_nil_r|].
  rewrite Z.gtb_ltb. destruct (Z.ltb_spec 0 i).
  - assert (0 <= i < lenZ (forest_of s)) as Hi' by (rewrite <- (num_forest s K); done).
    destruct (rd_node_at (forest_of s) i Hi') as [p R]. pose proof R as R'. apply rd_forest_inv in R' as (_ & Pp & e & He & E); [|apply K].
    rewrite He, Pp. cbn [mbind option_bind]. destruct (forest_parent _ F i p _ ltac:(lia) R) as [? [? _]].
    rewrite IH by lia. unfold path_names. rewrite (lineage_step _ F i p _ ltac:(lia) R). cbn [fmap list_fmap take].
    rewrite <- app_assoc. cbn [app]. rewrite E. by destruct e.
  - assert (i = 0) as -> by lia. unfold path_names. cbn. by rewrite app_nil_r.
Qed.

Lemma copy_path_spec comps : forall n i out, 0 <= i -> i + Z.of_nat n <= lenZ comps -> i + Z.of_nat n <= lenZ out ->
  exists out', copy_path comps n i out = Some out' /\ length out' = length out /\
    forall j, rd out' j = if (i <=? j) && (j <? i + Z.of_nat n) then rd comps (lenZ comps - 1 - j) else rd out j.
Proof.
  induction n as [|n IH]; intros i out Hi Hc Ho; cbn [copy_path].
  - exists out. split; [done|]. split; [done|]. intros j. destruct (Z.leb_spec i j); cbn [andb]; [|done]. by decide_bool.
  - destruct (rd_Some comps (lenZ comps - 1 - i)) as [c Ec]; [lia|]. rewrite Ec. cbn [mbind option_bind].
    destruct (wr_total out i c) as [out1 E1]; [lia|]. rewrite E1. cbn [mbind option_bind]. pose proof (length_wr _ _ _ _ E1) as L1.
    destruct (IH (i + 1) out1) as (out' & E & L & R); [lia..|]. exists out'. split; [exact E|]. split; [congruence|].
    intros j. rewrite R, (rd_wr _ _ _ _ j E1). destruct (Z.eqb_spec j i) as [->|]; [by decide_bool|].
    replace (i + 1 + Z.of_nat n) with (i + Z.of_nat (S n)) by lia.
    destruct (Z.leb_spec (i + 1) j), (Z.leb_spec i j); try lia; done.
Qed.

Lemma rd_reverse {X} (l : list X) j : 0 <= j < lenZ l -> rd l (lenZ l - 1 - j) = rd (reverse l) j.
Proof. intros H. rewrite !rd_lookup by lia. rewrite reverse_lookup by lia. f_equal. lia. Qed.

Lemma rd_ext {X} (p q : list X) : (forall i, 0 <= i -> rd p i = rd q i) -> p = q.
Proof. intros H. apply list_eq. intros i. specialize (H (Z.of_nat i) ltac:(lia)). by rewrite !rd_lookup, Nat2Z.id in H by lia. Qed.

Lemma column_path_spec s k i out max_depth : schema_ok s -> rd (columns (forest_of s)) k = Some i -> 0 < i < sch_num_elements s ->
  0 < max_depth <= lenZ out ->
  let names := take 64 (path_names (forest_of s) i) in
  let n := Z.min (lenZ names) max_depth in
  carquet_schema_column_path s k out max_depth = Some (n, take (Z.to_nat n) (reverse names) ++ drop (Z.to_nat n) out).
Proof.
  intros K Hk Hi Hm names n. pose proof (rd_bound _ _ _ Hk) as B. rewrite <- (ok_num_leaves s K) in B. destruct (ok_columns s K k i Hk) as (Hl & _).
  unfold carquet_schema_column_path. rewrite Z.geb_leb. decide_bool. rewrite Hl. cbn [mbind option_bind].
  rewrite collect_path_spec by (done || lia). cbn [mbind option_bind app]. fold names.
  replace (if lenZ names <? max_depth then lenZ names else max_depth) with n by (unfold n; destruct (Z.ltb_spec (lenZ names) max_depth); lia).
  destruct (copy_path_spec names (Z.to_nat n) 0 out) as (out' & E & L & R); [lia..|]. rewrite E. cbn [mbind option_bind]. do 2 f_equal.
  apply rd_ext. intros j Hj. rewrite R. destruct (Z.ltb_spec j (0 + Z.of_nat (Z.to_nat n))); decide_bool.
  - rewrite rd_reverse by lia. rewrite rd_app_l by (rewrite length_take, length_reverse; lia). by rewrite rd_take by lia.
  - rewrite rd_app_r by (rewrite length_take, length_reverse; lia). rewrite length_take, length_reverse.
    rewrite !rd_lookup, lookup_drop by lia. f_equal. lia.
Qed.

(** ** Search by name *)

Lemma strcmp_spec a : forall b, 0 ∈ a -> 0 ∈ b -> strcmp_equal a b = Some (bool_decide (c_text a = c_text b)).
Proof.
  induction a as [|x a IH]; intros [|y b] Ha Hb; try (by apply not_elem_of_nil in Ha); try (by apply not_elem_of_nil in Hb).
  cbn [strcmp_equal c_text]. destruct (Z.eqb_spec x y) as [->|N].
  - destruct (Z.eqb_spec y 0) as [->|Hy]; [by rewrite bool_decide_true|].
    apply elem_of_cons in Ha as [?|Ha]; [congruence|]. apply elem_of_cons in Hb as [?|Hb]; [congruence|]. rewrite IH by done.
    f_equal. apply bool_decide_ext. split; [by intros ->|by intros [= ->]].
  - rewrite bool_decide_false; [done|]. destruct (Z.eqb_spec x 0), (Z.eqb_spec y 0); congruence.
Qed.

(** The column [k] has this name. *)
Definition column_called (f : forest) (name : list Z) (k : Z) : Prop :=
  exists i m, rd (columns f) k = Some i /\ se_name (node_at f i) = Some m /\ c_text m = c_text name.

Lemma find_column_spec s name n : schema_ok s -> Forall named (forest_of s) -> 0 ∈ name -> forall i, 0 <= i -> i + Z.of_nat n = sch_num_leaves s ->
  exists r, find_column_from s name n i = Some r /\
    (r = -1 /\ (forall k, i <= k < sch_num_leaves s -> ~ column_called (forest_of s) name k) \/
     i <= r < sch_num_leaves s /\ column_called (forest_of s) name r /\ forall k, i <= k < r -> ~ column_called (forest_of s) name k).
Proof.
  intros K N Hn. induction n as [|n IH]; intros i Hi Hsum; cbn [find_column_from]; [exists (-1); split; [done|left; split; [done|lia]]|].
  destruct (column_index s i K) as (j & Hj & Bj); [lia|]. destruct (ok_columns s K i j Hj) as (Hl & _). rewrite Hl. cbn [mbind option_bind].
  destruct (node_stored s j K) as (e & Ee & Ne); [lia|]. rewrite Ee. cbn [mbind option_bind].
  assert (exists b, (match se_name e with None => Some false | Some m => strcmp_equal m name end) = Some b /\ (b = true <-> column_called (forest_of s) name i))
    as (b & -> & Hb).
  { assert (se_name (node_at (forest_of s) j) = se_name e) as En by (rewrite Ne; by destruct e).
    destruct (se_name e) as [m|].
    - destruct (rd_node_at (forest_of s) j) as [p R]; [rewrite <- (num_forest s K); lia|].
      assert (0 ∈ m) as Hm. { rewrite rd_lookup in R by lia. pose proof (Forall_lookup_1 _ _ _ _ N R) as Nm. unfold named in Nm. cbn in Nm. by rewrite En in Nm. }
      rewrite (strcmp_spec m name Hm Hn). eexists. split; [done|]. rewrite bool_decide_eq_true. unfold column_called. rewrite Hj.
      split; [intros E; exists j, m; by rewrite En|]. intros (? & ? & [= <-] & E1 & E2). congruence.
    - exists false. split; [done|]. split; [done|]. intros (? & ? & E1 & E2 & _). congruence. }
  cbn [mbind option_bind]. destruct b.
  - exists i. split; [done|]. right. split; [lia|]. split; [by apply Hb|lia].
  - assert (~ column_called (forest_of s) name i) as Hnot by (intros C; apply Hb in C; done).
    destruct (IH (i + 1)) as (r & E & H); [lia..|]. exists r. split; [exact E|].
    destruct H as [[-> H]|(Br & C & H)]; [left|right]; (split; [done || lia|]); try (split; [done|]);
      intros k Hk; (destruct (Z.eq_dec k i) as [->|]; [done|apply H; lia]).
Qed.

Lemma leaf_search s name : schema_ok s -> Forall named (forest_of s) -> 0 ∈ name -> exists r, carquet_schema_find_column s name = Some r /\
    (r = -1 /\ (forall k, 0 <= k < sch_num_leaves s -> ~ column_called (forest_of s) name k) \/
     0 <= r < sch_num_leaves s /\ column_called (forest_of s) name r /\ forall k, 0 <= k < r -> ~ column_called (forest_of s) name k).
Proof. intros K N Hn. apply (find_column_spec s name (Z.to_nat (sch_num_leaves s)) K N Hn 0); [lia|pose proof (num_leaves_bound s K); lia]. Qed.

End Reach.

(** ** Nested data *)

(** The positions where a list at this level starts. *)
Definition list_starts (rep_levels : list Z) (level n : Z) : list Z := filter (λ i, nth (Z.to_nat i) rep_levels 0 < level) (seqZ 0 n).

Lemma list_starts_snoc rep_levels level i r : 0 <= i -> rd rep_levels i = Some r ->
  list_starts rep_levels level (i + 1) = list_starts rep_levels level i ++ (if r <? level then [i] else []).
Proof.
  intros Hi Hr. unfold list_starts. rewrite (seqZ_app 0 i 1) by lia. rewrite list.filter_app. f_equal. rewrite seqZ_cons, seqZ_nil by lia.
  rewrite list.filter_cons. rewrite Z.add_0_l. rewrite rd_lookup in Hr by lia. rewrite (nth_lookup_Some _ _ _ _ Hr).
  destruct (Z.ltb_spec r level); [by rewrite decide_True|by rewrite decide_False by lia].
Qed.

(** [l] stored at the start of [o]. *)
Definition overlay {X} (l o : list X) : list X := l ++ drop (length l) o.

Lemma wr_overlay {X} (l o : list X) x : lenZ l < lenZ o -> wr (overlay l o) (lenZ l) x = Some (overlay (l ++ [x]) o).
Proof.
  intros H. unfold overlay. rewrite wr_Some by (rewrite length_app, length_drop; lia). f_equal. rewrite Nat2Z.id.
  rewrite length_app. cbn [length]. rewrite <- app_assoc. rewrite insert_app_r_alt by lia. f_equal. rewrite Nat.sub_diag.
  destruct (drop (length l) o) as [|y d] eqn:E; [apply (f_equal length) in E; rewrite length_drop in E; cbn in E; lia|].
  cbn [insert list_insert app]. f_equal. rewrite <- drop_drop, E. done.
Qed.

Lemma list_offsets_loop rep_levels level m o n : forall i, 0 <= i -> i + Z.of_nat n <= lenZ rep_levels -> 0 <= m <= lenZ o ->
  let starts := list_starts rep_levels level in
  list_offsets_from rep_levels level m n i (lenZ (starts i)) (overlay (take (Z.to_nat m) (starts i)) o) =
    Some (lenZ (starts (i + Z.of_nat n)), overlay (take (Z.to_nat m) (starts (i + Z.of_nat n))) o).
Proof.
  intros i Hi Hn Hm starts. revert i Hi Hn. induction n as [|n IH]; intros i Hi Hn; cbn [list_offsets_from]; [by replace (i + Z.of_nat 0) with i by lia|].
  destruct (rd_Some rep_levels i) as [r Hr]; [lia|]. rewrite Hr. cbn [mbind option_bind].
  replace (i + Z.of_nat (S n)) with (i + 1 + Z.of_nat n) by lia. rewrite <- IH by lia.
  pose proof (list_starts_snoc rep_levels level i r Hi Hr) as ES. fold starts in ES. destruct (r <? level); [|by rewrite ES, app_nil_r].
  rewrite ES, length_app. cbn [length]. destruct (Z.ltb_spec (lenZ (starts i)) m).
  - rewrite (take_ge (starts i)) by lia. rewrite (wr_overlay (starts i) o i) by lia. cbn [mbind option_bind].
    rewrite take_ge by (rewrite length_app; cbn; lia). do 2 f_equal; lia.
  - cbn [mbind option_bind]. rewrite take_app_le by lia. f_equal; lia.
Qed.

(** [carquet_list_offsets] stores the Arrow offsets of the lists that start at its
    level: the positions of these starts in order and the number of values behind them, as
    many as fit, the rest of the array untouched; it returns the number of lists.  For
    level 1 and levels that are not negative that is the number of rows that
    [carquet_count_rows] counts. *)
Theorem list_offsets_exact rep_levels n level out m : 0 < n <= lenZ rep_levels -> 0 < m <= lenZ out ->
  let starts := filter (λ i, nth (Z.to_nat i) rep_levels 0 < level) (seqZ 0 n) in
  let offsets := take (Z.to_nat m) (starts ++ [n]) in
  carquet_list_offsets rep_levels n level out m = Some (lenZ starts, offsets ++ drop (length offsets) out) /\
  (level = 1 -> Forall (Z.le 0) rep_levels -> carquet_count_rows (Some rep_levels) n = Some (lenZ starts)).
Proof.
  intros Hn Hm starts offsets. pose proof (list_offsets_loop rep_levels level m out (Z.to_nat n) 0 ltac:(lia) ltac:(lia) ltac:(lia)) as L.
  cbv zeta in L. replace (0 + Z.of_nat (Z.to_nat n)) with n in L by lia. change (list_starts rep_levels level n) with starts in L.
  assert (list_starts rep_levels level 0 = []) as E0 by done. rewrite E0, take_nil in L. split.
  - unfold carquet_list_offsets. decide_bool. unfold overlay in L at 1. cbn [length app] in L. rewrite drop_0 in L. change (Z.of_nat 0) with 0 in L. rewrite L. cbn [mbind option_bind].
    unfold offsets. destruct (Z.ltb_spec (lenZ starts) m).
    + rewrite (take_ge starts) by lia. rewrite wr_overlay by lia. cbn [mbind option_bind]. rewrite take_ge by (rewrite length_app; cbn; lia). done.
    + cbn [mbind option_bind]. rewrite take_app_le by lia. done.
  - intros -> Hpos. unfold carquet_count_rows. decide_bool. clear L. pose proof (list_starts_snoc rep_levels 1) as LS.
    enough (forall k i, 0 <= i -> i + Z.of_nat k <= n -> count_rows_from rep_levels k i (lenZ (list_starts rep_levels 1 i)) =
      Some (lenZ (list_starts rep_levels 1 (i + Z.of_nat k)))) as H.
    { specialize (H (Z.to_nat n) 0 ltac:(lia) ltac:(lia)). rewrite E0 in H. cbn [length] in H. change (Z.of_nat 0) with 0 in H. rewrite H. replace (0 + Z.of_nat (Z.to_nat n)) with n by lia. done. }
    induction k as [|k IH]; intros i Hi Hk; cbn [count_rows_from]; [by replace (i + Z.of_nat 0) with i by lia|].
    destruct (rd_Some rep_levels i) as [r Hr]; [lia|]. rewrite Hr. cbn [mbind option_bind]. specialize (LS i r Hi Hr).
    replace (i + Z.of_nat (S k)) with (i + 1 + Z.of_nat k) by lia. rewrite <- IH by lia. f_equal. rewrite LS, length_app.
    rewrite rd_lookup in Hr by lia. pose proof (Forall_lookup_1 _ _ _ _ Hpos Hr). cbn in H.
    destruct (Z.eqb_spec r 0), (Z.ltb_spec r 1); cbn [length]; lia.
Qed.

Lemma list_offsets_exact_witness :
  carquet_list_offsets [0; 1; 0; 2; 1] 5 1 [9; 9; 9; 9] 4 = Some (2, [0; 2; 5; 9]) /\ carquet_count_rows (Some [0; 1; 0; 2; 1]) 5 = Some 2.
Proof.
  destruct (list_offsets_exact [0; 1; 0; 2; 1] 5 1 [9; 9; 9; 9] 4) as [E1 E2]; [cbn; lia|cbn; lia|].
  split; [exact E1|]. apply E2; [reflexivity|]. apply (bool_decide_unpack _). vm_compute. exact I.
Defined.

(** ** Validation of decimals *)

(** The values of [precision] digits fit into the physical type. *)
Definition decimal_fits (physical_type precision type_length : Z) : Prop :=
  physical_type = CARQUET_PHYSICAL_INT32 /\ 10 ^ precision <= 2 ^ 31 \/
  physical_type = CARQUET_PHYSICAL_INT64 /\ 10 ^ precision <= 2 ^ 63 \/
  physical_type = CARQUET_PHYSICAL_BYTE_ARRAY \/
  physical_type = CARQUET_PHYSICAL_FIXED_LEN_BYTE_ARRAY /\ 0 < type_length /\ 10 ^ precision <= 2 ^ (8 * type_length - 1).

Lemma pow10_bound p q n : 0 <= q -> 10 ^ q <= n < 10 ^ (q + 1) -> 0 <= p -> (10 ^ p <= n <-> p <= q).
Proof.
  intros Hq [H1 H2] Hp. split; intros H.
  - destruct (Z.le_gt_cases p q) as [?|G]; [done|]. pose proof (Z.pow_le_mono_r 10 (q + 1) p). lia.
  - pose proof (Z.pow_le_mono_r 10 p q). lia.
Qed.

Lemma accept_OK b : accept b = CARQUET_OK <-> b = true.
Proof. by destruct b. Qed.

(** C40: a column with a DECIMAL annotation is accepted exactly when the precision is
    positive, the scale is between zero and the precision, and every unscaled value of that
    many digits fits into the physical type: 32 or 64 bits, the bytes of a fixed-length
    array of up to a MiB as a two's complement number, any byte array, no other type. *)
Theorem decimal_validated {Fl : FloorLog10} {FlOk : FloorLog10Ok Fl} params physical_type type_length precision scale :
  get_i32 params 0 = Some precision -> get_i32 params 4 = Some scale -> type_length <= 2 ^ 20 ->
  let lt := mk_logical_type CARQUET_LOGICAL_DECIMAL params in
  exists status, validate_column_logical_type physical_type (Some lt) type_length = Some status /\
    (status = CARQUET_OK <-> 0 < precision /\ 0 <= scale <= precision /\ decimal_fits physical_type precision type_length).
Proof.
  intros Hp Hs Hl lt. exists (validate_decimal physical_type precision scale type_length). split.
  { change (validate_column_logical_type physical_type (Some lt) type_length) with
      (p ← get_i32 params 0; s ← get_i32 params 4; Some (validate_decimal physical_type p s type_length)). by rewrite Hp, Hs. }
  unfold validate_decimal, decimal_fits. destruct (Z.leb_spec precision 0); cbn [orb]; [split; [done|lia]|].
  destruct (Z.ltb_spec scale 0); cbn [orb]; [split; [done|lia]|]. rewrite Z.gtb_ltb. destruct (Z.ltb_spec precision scale); [split; [done|lia]|].
  unfold CARQUET_PHYSICAL_INT32, CARQUET_PHYSICAL_INT64, CARQUET_PHYSICAL_BYTE_ARRAY, CARQUET_PHYSICAL_FIXED_LEN_BYTE_ARRAY.
  destruct (Z.eqb_spec physical_type 1) as [->|].
  { rewrite accept_OK, Z.leb_le, <- (pow10_bound precision 9 (2 ^ 31)) by lia. split; [intros; split; [lia|split; [lia|auto]]|intros (_ & _ & H'); lia]. }
  destruct (Z.eqb_spec physical_type 2) as [->|].
  { rewrite accept_OK, Z.leb_le, <- (pow10_bound precision 18 (2 ^ 63)) by lia. split; [intros; split; [lia|split; [lia|auto]]|intros (_ & _ & H'); lia]. }
  destruct (Z.eqb_spec physical_type 6) as [->|]; [split; [intros; split; [lia|split; [lia|auto]]|done]|].
  destruct (Z.eqb_spec physical_type 7) as [->|]; [|split; [done|lia]].
  rewrite accept_OK, Z.leb_le. unfold decimal_max_precision_for_fixed_len. destruct (Z.leb_spec type_length 0); [lia|].
  destruct (FlOk (type_length * 8 - 1) ltac:(lia)) as [F0 F1]. set (q := floor_log10_pow2 (type_length * 8 - 1)) in *.
  assert (q < 2 ^ 23) as Hq.
  { destruct (Z.lt_ge_cases q (type_length * 8)) as [?|G]; [lia|]. pose proof (Z.pow_lt_mono_r 2 (type_length * 8 - 1) q).
    pose proof (Z.pow_le_mono_l 2 10 q). lia. }
  unfold i32. rewrite wrap_signed_small by (unfold in_i; lia). replace (8 * type_length - 1) with (type_length * 8 - 1) by lia.
  rewrite (pow10_bound precision q (2 ^ (type_length * 8 - 1))) by lia. split; [intros; split; [lia|split; [lia|]]; right; right; right; lia|lia].
Qed.

(** The digits of a number, less one. *)
Fixpoint log10 (fuel : nat) (n : Z) : Z := match fuel with O => 0 | S fuel => if n <? 10 then 0 else 1 + log10 fuel (n / 10) end.

Definition exact_log10 : FloorLog10 := λ bits, log10 (Z.to_nat bits) (2 ^ bits).

Lemma log10_spec fuel : forall n, 1 <= n <= 2 ^ Z.of_nat fuel -> 0 <= log10 fuel n /\ 10 ^ log10 fuel n <= n < 10 ^ (log10 fuel n + 1).
Proof.
  induction fuel as [|fuel IH]; intros n Hn; cbn [log10]; [change (2 ^ Z.of_nat 0) with 1 in Hn; assert (n = 1) as -> by lia; done|].
  destruct (Z.ltb_spec n 10); [split; [done|]; change (10 ^ 0) with 1; change (10 ^ (0 + 1)) with 10; lia|].
  rewrite Nat2Z.inj_succ, Z.pow_succ_r in Hn by lia. destruct (IH (n / 10)) as [I0 I1]; [dlia|].
  split; [lia|]. set (k := log10 fuel (n / 10)) in *. replace (1 + k) with (Z.succ k) by lia. replace (Z.succ k + 1) with (Z.succ (k + 1)) by lia.
  rewrite !Z.pow_succ_r by lia. dlia.
Qed.

#[export] Instance exact_log10_ok : FloorLog10Ok exact_log10.
Proof. intros bits Hb. unfold floor_log10_pow2, exact_log10. apply log10_spec. rewrite Z2Nat.id by lia. pose proof (pow2_pos bits). lia. Qed.

Lemma decimal_validated_witness :
  let lt p := mk_logical_type CARQUET_LOGICAL_DECIMAL ([p; 0; 0; 0; 2; 0; 0; 0] ++ replicate 128 0) in
  let F := exact_log10 in
  validate_column_logical_type 7 (Some (lt 38)) 16 = Some CARQUET_OK /\ validate_column_logical_type 7 (Some (lt 39)) 16 = Some CARQUET_ERROR_INVALID_ARGUMENT /\
  decimal_fits 7 38 16 /\ ~ decimal_fits 7 39 16.
Proof.
  intros lt F. split; [vm_compute; reflexivity|]. split; [vm_compute; reflexivity|]. split.
  - destruct (decimal_validated (lt_params (lt 38)) 7 16 38 2) as (st & E & H); [reflexivity|reflexivity|lia|].
    assert (st = CARQUET_OK) as Hst by (vm_compute in E; injection E as <-; reflexivity). apply (proj1 H Hst).
  - destruct (decimal_validated (lt_params (lt 39)) 7 16 39 2) as (st & E & H); [reflexivity|reflexivity|lia|].
    intros D. assert (st = CARQUET_OK) as Hst by (apply (proj2 H); split; [lia|split; [lia|exact D]]). subst st. vm_compute in E. discriminate E.
Defined.

(** ** Schemas under construction *)

Section Theorems.
Context {Sp : AddressSpace} {Hp : ArrayHeap} {HpOk : ArrayHeapOk Hp} {Fl : FloorLog10}.

(** C30: in every schema that a program can have under construction - after any
    operations, refused ones and ones that ran out of memory included - the parent of every
    element is a group that stands before it (so the walks to the root end), the child
    counts are right, the columns are the elements with a type in order, and the levels
    stored for each are the numbers of optional and repeated elements on the way from the
    root to it, in the 16 bits they are stored in. *)
Theorem schema_invariant s : schema_reach s ->
  schema_ok s /\ Forall named (forest_of s) /\
  forall i, 0 < i < sch_num_elements s ->
    exists p g, rd (sch_parent_indices s) i = Some p /\ 0 <= p < i /\ rd (sch_elements s) p = Some g /\ se_type g = None /\ 0 < se_num_children g.
Proof.
  intros R. destruct (reach_ok s R) as [K N]. split; [done|]. split; [done|]. intros i Hi. pose proof (num_forest s K) as NF.
  destruct (rd_node_at (forest_of s) i) as [p E]; [lia|]. pose proof E as E'. apply rd_forest_inv in E' as (_ & Pp & _); [|apply K].
  destruct (forest_parent _ (ok_forest s K) i p _ ltac:(lia) E) as [Hp' [B T]].
  destruct (node_stored s p K) as (g & Eg & Ng); [lia|]. exists p, g. rewrite Ng, has_type_erase in T. split; [done|]. split; [lia|]. split; [done|].
  split; [unfold has_type in T; apply bool_decide_eq_false in T; by apply eq_None_not_Some|].
  rewrite (ok_children s K p g) by (done || lia). unfold children.
  assert ((p, node_at (forest_of s) i) ∈ filter (λ n : node, n.1 = p) (forest_of s)) as Hin.
  { apply list_elem_of_filter. split; [done|]. rewrite rd_lookup in E by lia. by apply list_elem_of_lookup_2 in E. }
  destruct (filter _ _); [by apply not_elem_of_nil in Hin|cbn; lia].
Qed.

(** C14: each operation that builds a schema is, on every valid schema, an operation on the
    forest it stands for: it always answers, keeps the schema valid, and adds the nodes it
    is meant to add ([wanted]: a column; a group; the three or four nodes of a VARIANT,
    LIST or MAP, below the right parents) in order and up to some point, changing no other.
    Each node is stored as it was asked for, under its name: a name is missing only when the
    arena refused its bytes ([store_names]), so none is when there is room for them.  It
    reports success exactly when that is all of them; if memory does not run out it stops
    early only at a column whose logical type does not go with its physical type, and adds
    nothing only when the parent asked for is not a group.  A successful index is that of
    the outer group. *)
Theorem schema_builder_refines s op : schema_ok s -> op_ok op -> sch_num_elements s + 4 < 2 ^ 30 ->
  let want := wanted (forest_of s) op in
  exists a t k, run_op s op = Some (a, t) /\ schema_ok t /\ (k <= length want)%nat /\
    (exists added, forest_of t = forest_of s ++ added /\ store_names (sch_arena s) (take k want) = Some (added, sch_arena t)) /\
    (arena_room (name_bytes want) (sch_arena s) -> name_bytes want < 2 ^ 64 -> forest_of t = forest_of s ++ take k want) /\
    (succeeded a = true <-> k = length want /\ want <> []) /\
    (forall i, a = Index i -> i = -1 \/ i = sch_num_elements s) /\
    (ArrayHeapTotal Hp -> (k < length want)%nat -> exists n, want !! k = Some n /\ ~ node_ok n).
Proof.
  intros K Ho HN want. destruct (run_op_spec s op K Ho HN) as (a & t & E & (k & Hk & (Kt & added & EF & F2 & _) & Hok & HT) & Hi).
  exists a, t, k. split; [exact E|]. split; [exact Kt|]. split; [exact Hk|]. split; [by exists added|]. split; [|split; [exact Hok|]].
  2:{ split; [exact Hi|exact HT]. }
  intros R B. rewrite EF. f_equal. destruct (store_names_room (take k want) (sch_arena s)) as (b & Eb).
  - apply (room_less _ (name_bytes want)); [done|apply name_bytes_take].
  - pose proof (name_bytes_take k want). lia.
  - apply Forall_take, wanted_has_name.
  - fold want in F2. rewrite Eb in F2. by injection F2 as <- _.
Qed.

(** C31: the queries of a schema under construction answer from the forest: for the k-th
    column, its levels (in 16 bits), name and type, and, when it is at most 64 groups deep,
    its path from the root, outermost name first, as much of it as the caller has room for;
    in a schema whose columns are all at the top, a search finds the first column of that
    name, and -1 exactly when there is none.  (What search and path do in the other cases
    are [find_column_leaf_names] and [column_path_truncated].) *)
Theorem schema_queries_exact s : schema_reach s ->
  let f := forest_of s in
  carquet_schema_num_columns s = lenZ (columns f) /\
  (forall k, 0 <= k < carquet_schema_num_columns s -> exists i, rd (columns f) k = Some i /\
    carquet_schema_max_def_level s k = Some (i16 (def_level f i)) /\ carquet_schema_max_rep_level s k = Some (i16 (rep_level f i)) /\
    carquet_schema_column_name s k = Some (se_name (node_at f i)) /\ carquet_schema_column_type s k = Some (type_of (node_at f i)) /\
    forall out max_depth, lenZ (lineage f i) <= 64 -> 0 < max_depth <= lenZ out ->
      let n := Z.min (lenZ (path_of f i)) max_depth in
      carquet_schema_column_path s k out max_depth = Some (n, take (Z.to_nat n) (path_of f i) ++ drop (Z.to_nat n) out)) /\
  ((forall k i, rd (columns f) k = Some i -> lineage f i = [i]) -> forall name, 0 ∈ name -> exists r, carquet_schema_find_column s name = Some r /\
    (r = -1 /\ (forall k, 0 <= k < carquet_schema_num_columns s -> ~ column_called f name k) \/
     0 <= r < carquet_schema_num_columns s /\ column_called f name r /\ forall k, 0 <= k < r -> ~ column_called f name k)).
Proof.
  intros R f. destruct (reach_ok s R) as [K N]. unfold carquet_schema_num_columns. split; [apply K|]. split; [|intros _ name; by apply leaf_search].
  intros k Hk. destruct (column_index s k K Hk) as (i & Hi & Bi). exists i. split; [done|]. destruct (ok_columns s K k i Hi) as (Hl & Hd & Hr).
  destruct (node_stored s i K) as (e & Ee & Ne); [lia|].
  unfold carquet_schema_max_def_level, carquet_schema_max_rep_level, carquet_schema_column_name, carquet_schema_column_type.
  rewrite Z.geb_leb. decide_bool. rewrite Hl. cbn [mbind option_bind]. rewrite Ee. cbn [fmap option_fmap option_map].
  split; [done|]. split; [done|]. fold f in Ne. rewrite Ne. split; [by destruct e|]. split; [by destruct e|].
  intros out m HL Hm. pose proof (column_path_spec s k i out m K Hi Bi Hm) as E. cbv zeta in E.
  rewrite (take_ge (path_names _ _)) in E by (unfold path_names; rewrite length_fmap; fold f; lia).
  cbv zeta. unfold path_of. rewrite length_reverse. exact E.
Qed.

(** Search compares the columns' own names, wherever they stand. *)
Theorem find_column_leaf_names s name : schema_reach s -> 0 ∈ name -> exists r, carquet_schema_find_column s name = Some r /\
    (r = -1 /\ (forall k, 0 <= k < carquet_schema_num_columns s -> ~ column_called (forest_of s) name k) \/
     0 <= r < carquet_schema_num_columns s /\ column_called (forest_of s) name r /\ forall k, 0 <= k < r -> ~ column_called (forest_of s) name k).
Proof. intros R. destruct (reach_ok s R) as [K N]. by apply leaf_search. Qed.

(** Of a path that is longer than 64 names the outermost are lost. *)
Theorem column_path_truncated s k i out max_depth : schema_reach s -> rd (columns (forest_of s)) k = Some i -> 64 <= max_depth <= lenZ out ->
  64 < lenZ (lineage (forest_of s) i) ->
  carquet_schema_column_path s k out max_depth = Some (64, reverse (take 64 (path_names (forest_of s) i)) ++ drop 64 out).
Proof.
  intros R Hk Hm HL. destruct (reach_ok s R) as [K _]. pose proof (rd_bound _ _ _ Hk) as B. rewrite <- (ok_num_leaves s K) in B.
  destruct (column_index s k K B) as (i' & Hi & Bi). rewrite Hk in Hi. injection Hi as <-.
  pose proof (column_path_spec s k i out max_depth K Hk Bi ltac:(lia)) as E. cbv zeta in E. rewrite E.
  assert (lenZ (take 64 (path_names (forest_of s) i)) = 64) as -> by (unfold path_names; rewrite length_take, length_fmap; lia).
  replace (Z.min 64 max_depth) with 64 by lia. do 3 f_equal. apply take_ge. rewrite length_reverse, length_take. lia.
Qed.
End Theorems.

(** Operations one after another. *)
Fixpoint run_ops {Sp : AddressSpace} {Hp : ArrayHeap} {Fl : FloorLog10} (s : carquet_schema_t) (ops : list schema_op) : option carquet_schema_t :=
  match ops with
  | [] => Some s
  | op :: ops => '(_, s) ← run_op s op; run_ops s ops
  end.

Lemma reach_ops {Sp : AddressSpace} {Hp : ArrayHeap} {HpOk : ArrayHeapOk Hp} {Fl : FloorLog10} ops : forall s t, schema_reach s -> Forall op_ok ops ->
  sch_num_elements s + 4 * lenZ ops < 2 ^ 30 -> run_ops s ops = Some t -> schema_reach t.
Proof.
  induction ops as [|op ops IH]; intros s t R Ho HN E; cbn [run_ops] in E; [by injection E as <-|]. apply Forall_cons_iff in Ho as [H1 H2]. cbn [length] in HN.
  destruct (run_op s op) as [[a u]|] eqn:Eu; [|done]. cbn [mbind option_bind] in E. assert (schema_reach u) as Ru by (apply (reach_op s op a); [done|done|lia|done]).
  destruct (reach_ok s R) as [K _]. apply (IH u t Ru H2); [|done].
  destruct (run_op_spec s op K H1 ltac:(lia)) as (a' & u' & E' & (k & Hk & G & _) & _). rewrite Eu in E'. injection E' as <- <-.
  rewrite (grew_num s _ u G K), length_take. assert (length (wanted (forest_of s) op) <= 4)%nat; [|lia].
  unfold wanted. destruct (target _ _); [destruct op; cbn; lia|cbn; lia].
Qed.

(** A group with a column, a list in it, a map, and an annotation that does not fit. *)
Definition sample_ops : list schema_op :=
  [AddGroup [103; 0] 1 0; AddColumn [97; 0] 1 None 1 0 1; AddList [108; 0] 6 (Some (logical CARQUET_LOGICAL_STRING)) 1 0 0;
   AddMap [109; 0; 7] 2 None 0 7 (Some (logical CARQUET_LOGICAL_UUID)) 16 0 (-1); AddColumn [98; 0] 1 (Some (logical CARQUET_LOGICAL_STRING)) 0 0 0].

Definition created_schema : option carquet_schema_t := Eval vm_compute in mjoin (carquet_schema_create (Sp := upward_space) (Hp := plain_heap)).
Definition sample_schema : option carquet_schema_t :=
  Eval vm_compute in s ← created_schema; run_ops (Sp := upward_space) (Hp := plain_heap) (Fl := exact_log10) s sample_ops.

(** What was created, then the operations, is reachable: to be evaluated. *)
Lemma ops_reach ops : match created_schema with
    | Some s0 => carquet_schema_create (Sp := upward_space) (Hp := plain_heap) = Some (Some s0) /\ bool_decide (Forall op_ok ops) = true /\
        (sch_num_elements s0 + 4 * lenZ ops <? 2 ^ 30) = true
    | None => False
    end ->
  match (s ← created_schema; run_ops (Sp := upward_space) (Hp := plain_heap) (Fl := exact_log10) s ops) with
  | Some s => schema_reach (Sp := upward_space) (Hp := plain_heap) (Fl := exact_log10) s
  | None => True
  end.
Proof.
  destruct created_schema as [s0|]; [|done]. intros (E & Ho%bool_decide_eq_true & HN%Z.ltb_lt). cbn [mbind option_bind].
  destruct (run_ops s0 ops) as [s|] eqn:Es; [|done].
  apply (reach_ops (Sp := upward_space) (Hp := plain_heap) (Fl := exact_log10) ops s0); [by apply reach_create|done..].
Qed.

Lemma sample_reach : match sample_schema with
  | Some s => schema_reach (Sp := upward_space) (Hp := plain_heap) (Fl := exact_log10) s
  | None => False
  end.
Proof. apply (ops_reach sample_ops). vm_compute. auto. Qed.

Lemma schema_invariant_witness : exists s, sample_schema = Some s /\ schema_ok s /\ Forall named (forest_of s).
Proof.
  pose proof sample_reach as R. destruct sample_schema as [s|]; [|destruct R]. exists s. split; [reflexivity|].
  destruct (schema_invariant (Sp := upward_space) (Hp := plain_heap) (Fl := exact_log10) s R) as (K & N & _). split; [exact K|exact N].
Defined.

(** The paths of the columns are g.a, l.list.element, m.key_value.key and m.key_value.value.
    The second schema is flat: two columns of one name and one that is not found. *)
Definition flat_ops : list schema_op :=
  [AddColumn [97; 0] 1 None 1 0 0; AddColumn [98; 0] 2 None 0 0 0; AddColumn [98; 0; 7] 4 None 0 0 (-1)].

Definition flat_schema : option carquet_schema_t :=
  Eval vm_compute in s ← created_schema; run_ops (Sp := upward_space) (Hp := plain_heap) (Fl := exact_log10) s flat_ops.

Lemma flat_reach : match flat_schema with
  | Some s => schema_reach (Sp := upward_space) (Hp := plain_heap) (Fl := exact_log10) s
  | None => False
  end.
Proof. apply (ops_reach flat_ops). vm_compute. auto. Qed.

Lemma schema_queries_exact_witness :
  (exists s, sample_schema = Some s /\ carquet_schema_num_columns s = 4 /\
    carquet_schema_max_def_level s 1 = Some 3 /\ carquet_schema_max_rep_level s 1 = Some 1 /\
    carquet_schema_column_path s 1 (replicate 4 None) 4 = Some (3, [Some [108; 0]; Some name_list; Some name_element; None])) /\
  (exists s, flat_schema = Some s /\ exists r, carquet_schema_find_column s [98; 0; 9] = Some r /\ r = 1 /\ column_called (forest_of s) [98; 0; 9] r).
Proof.
  split.
  - pose proof sample_reach as R. destruct sample_schema as [s|] eqn:Es; [|destruct R]. exists s. split; [reflexivity|].
    destruct (schema_queries_exact (Sp := upward_space) (Hp := plain_heap) (Fl := exact_log10) s R) as (E & H & _).
    assert (carquet_schema_num_columns s = 4 /\ rd (columns (forest_of s)) 1 = Some 5 /\ def_level (forest_of s) 5 = 3 /\ rep_level (forest_of s) 5 = 1 /\
      path_of (forest_of s) 5 = [Some [108; 0]; Some name_list; Some name_element] /\ lenZ (lineage (forest_of s) 5) = 3) as (N & C & D & L & P & LL)
      by (injection Es as <-; vm_compute; auto 10).
    split; [exact N|]. destruct (H 1) as (i & Hi & H1 & H2 & _ & _ & H3); [rewrite N; lia|].
    rewrite C in Hi. injection Hi as <-. rewrite D in H1. rewrite L in H2. specialize (H3 (replicate 4 None) 4). rewrite P, LL in H3.
    split; [exact H1|]. split; [exact H2|]. apply H3; [lia|cbn; lia].
  - pose proof flat_reach as R. destruct flat_schema as [s|] eqn:Es; [|destruct R]. exists s. split; [reflexivity|].
    destruct (schema_queries_exact (Sp := upward_space) (Hp := plain_heap) (Fl := exact_log10) s R) as (_ & _ & H).
    destruct (H) with (name := [98; 0; 9]) as (r & E & Hr); [|by apply name_ok|].
    { injection Es as <-. intros k i Hk. change (columns _) with [1; 2; 3] in Hk.
      pose proof (rd_bound _ _ _ Hk). rewrite rd_lookup in Hk by lia. apply list_elem_of_lookup_2 in Hk. repeat (apply elem_of_cons in Hk as [->|Hk]; [vm_compute; reflexivity|]). by apply not_elem_of_nil in Hk. }
    exists r. split; [exact E|]. assert (r = 1) as Hr1 by (injection Es as <-; vm_compute in E; congruence). split; [exact Hr1|].
    destruct Hr as [[Hr _]|(_ & C & _)]; [lia|exact C].
Defined.

(** The misfit at the end is refused; a list of such elements leaves its two groups behind. *)
Lemma schema_builder_refines_witness : exists s a t k, sample_schema = Some s /\
  let op := AddList [120; 0] 1 (Some (logical CARQUET_LOGICAL_STRING)) 1 0 0 in
  run_op (Sp := upward_space) (Hp := plain_heap) (Fl := exact_log10) s op = Some (a, t) /\ schema_ok t /\
  a = Index (-1) /\ k = 2%nat /\ lenZ (forest_of t) = lenZ (forest_of s) + 2.
Proof.
  pose proof sample_reach as R. destruct sample_schema as [s|] eqn:Es; [|destruct R].
  destruct (schema_invariant (Sp := upward_space) (Hp := plain_heap) (Fl := exact_log10) s R) as (K & _).
  set (op := AddList [120; 0] 1 (Some (logical CARQUET_LOGICAL_STRING)) 1 0 0).
  destruct (schema_builder_refines (Sp := upward_space) (Hp := plain_heap) (Fl := exact_log10) s op K) as (a & t & k & E & Kt & Hk & (added & EF & F) & _).
  - apply (bool_decide_unpack _). vm_compute. exact I.
  - injection Es as <-. vm_compute. reflexivity.
  - exists s, a, t, 2%nat. split; [reflexivity|]. cbv zeta. split; [exact E|]. split; [exact Kt|].
    injection Es as <-. vm_compute in E. injection E as <- <-. vm_compute. auto.
Defined.
