(* ===== verification/SchemaRead.v ===== *)
(** * The schema of a file that is read (carquet/reader/file_reader.c)

    The footer lists the elements in depth-first order with their numbers of children; the
    reader walks the tree to find parents, columns and levels.  The numbers come from the
    file: they need not describe a tree. *)

From S2P Require Import Prelude Status Endian Memory Heap Arena ParquetTypes Schema SchemaForest SchemaBuild SchemaOps SchemaQueries.
From coqutil Require Import Datatypes.RecordSetters.
Import RecordSetters.TriangleBracketNotations.

#[local] Open Scope Z_scope.

(** [for (i = 0; i < count; i++)], [n] turns left. *)
Fixpoint count_leaves_from (elements : list parquet_schema_element_t) (n : nat) (i leaves : Z) : option Z :=
  match n with
  | O => Some leaves
  | S n =>
      e ← rd elements i;
      count_leaves_from elements n (i + 1) (if se_num_children e =? 0 then leaves + 1 else leaves)
  end.

Definition count_leaves (elements : list parquet_schema_element_t) (count : Z) : option Z :=
  count_leaves_from elements (Z.to_nat count) 0 0.

(** The part of the context that changes; [parent_indices] may be NULL. *)
Record schema_traverse_ctx_t := mk_ctx {
  ctx_max_def : list Z;
  ctx_max_rep : list Z;
  ctx_leaf_indices : list Z;
  ctx_parent_indices : option (list Z);
  ctx_leaf_idx : Z;
  ctx_depth_exceeded : bool }.

Definition CARQUET_MAX_SCHEMA_DEPTH : Z := 100.

Definition record_parent (ctx : schema_traverse_ctx_t) (element_idx parent_idx : Z) : option schema_traverse_ctx_t :=
  match ctx_parent_indices ctx with
  | None => Some ctx
  | Some parents => parents ← wr parents element_idx parent_idx; Some (ctx<| ctx_parent_indices := Some parents |>)
  end.

Definition node_levels (e : parquet_schema_element_t) (levels : Z * Z) : Z * Z :=
  match se_repetition_type e with
  | Some r =>
      if r =? CARQUET_REPETITION_OPTIONAL then (i16 (levels.1 + 1), levels.2)
      else if r =? CARQUET_REPETITION_REPEATED then (i16 (levels.1 + 1), i16 (levels.2 + 1))
      else levels
  | None => levels
  end.

Definition record_leaf (ctx : schema_traverse_ctx_t) (element_idx : Z) (levels : Z * Z) : option schema_traverse_ctx_t :=
  max_def ← wr (ctx_max_def ctx) (ctx_leaf_idx ctx) levels.1;
  max_rep ← wr (ctx_max_rep ctx) (ctx_leaf_idx ctx) levels.2;
  leaf_indices ← wr (ctx_leaf_indices ctx) (ctx_leaf_idx ctx) element_idx;
  Some (mk_ctx max_def max_rep leaf_indices (ctx_parent_indices ctx) (ctx_leaf_idx ctx + 1) (ctx_depth_exceeded ctx)).

(** [for (child = 0; child < n; child++) next_idx = visit(next_idx)] *)
Fixpoint visit_children (visit : schema_traverse_ctx_t -> Z -> option (Z * schema_traverse_ctx_t)) (n : nat) (ctx : schema_traverse_ctx_t) (next_idx : Z)
    : option (Z * schema_traverse_ctx_t) :=
  match n with
  | O => Some (next_idx, ctx)
  | S n => '(next_idx, ctx) ← visit ctx next_idx; visit_children visit n ctx next_idx
  end.

Fixpoint traverse_schema_recursive (fuel : nat) (elements : list parquet_schema_element_t) (num_elements : Z)
    (parent_idx : Z) (levels : Z * Z) (depth : Z) (ctx : schema_traverse_ctx_t) (element_idx : Z) : option (Z * schema_traverse_ctx_t) :=
  match fuel with
  | O => None
  | S fuel =>
      if element_idx >=? num_elements then Some (element_idx, ctx) else
      if depth >? CARQUET_MAX_SCHEMA_DEPTH then Some (element_idx, ctx<| ctx_depth_exceeded := true |>) else
      elem ← rd elements element_idx;
      ctx ← record_parent ctx element_idx parent_idx;
      let this := node_levels elem levels in
      if se_num_children elem =? 0 then
        ctx ← record_leaf ctx element_idx this;
        Some (element_idx + 1, ctx)
      else
        visit_children (traverse_schema_recursive fuel elements num_elements element_idx this (depth + 1))
          (Z.to_nat (se_num_children elem)) ctx (element_idx + 1)
  end.

(** The recursion is one level deeper than the deepest element it enters. *)
Definition traverse_fuel : nat := 101.

Definition compute_levels (elements : list parquet_schema_element_t) (num_elements : Z) (max_def max_rep leaf_indices : list Z)
    (parent_indices : option (list Z)) : option (bool * schema_traverse_ctx_t) :=
  let ctx := mk_ctx max_def max_rep leaf_indices parent_indices 0 false in
  if num_elements <=? 1 then Some (true, ctx) else
  ctx ← record_parent ctx 0 (-1);
  root ← rd elements 0;
  '(_, ctx) ← visit_children (traverse_schema_recursive traverse_fuel elements num_elements 0 (0, 0) 1)
                (Z.to_nat (se_num_children root)) ctx 1;
  Some (negb (ctx_depth_exceeded ctx), ctx).

Section Build.
Context {Sp : AddressSpace}.

(** [Some (None, _)] is NULL.  The schema borrows the elements of the metadata. *)
Definition build_schema (arena : carquet_arena_t) (metadata : parquet_file_metadata_t) : option (option carquet_schema_t * carquet_arena_t) :=
  '(schema, arena) ← carquet_arena_calloc arena 1 sizeof_schema;
  match schema with
  | None => Some (None, arena)
  | Some _ =>
      let elements := fm_schema metadata in
      let num_elements := lenZ elements in
      num_leaves ← count_leaves elements num_elements;
      '(parents, arena) ← carquet_arena_calloc arena (u64 num_elements) 4;
      '(leaves, arena) ← carquet_arena_calloc arena (u64 num_leaves) 4;
      '(defs, arena) ← carquet_arena_calloc arena (u64 num_leaves) 2;
      '(reps, arena) ← carquet_arena_calloc arena (u64 num_leaves) 2;
      match parents, leaves, defs, reps with
      | Some _, Some _, Some _, Some _ =>
          let zeros n := replicate (Z.to_nat n) 0 in
          '(ok, ctx) ← compute_levels elements num_elements (zeros num_leaves) (zeros num_leaves) (zeros num_leaves) (Some (zeros num_elements));
          if negb ok then Some (None, arena) else
          Some (Some (mk_schema (mk_arena [] 0 0 0 0) elements (default [] (ctx_parent_indices ctx)) num_elements num_elements
                        (ctx_leaf_indices ctx) num_leaves (ctx_max_def ctx) (ctx_max_rep ctx)), arena)
      | _, _, _, _ => Some (None, arena)
      end
  end.
End Build.

(** ** Any footer *)

Lemma wr_Forall {X} (P : X -> Prop) l i x l' : wr l i x = Some l' -> Forall P l -> P x -> Forall P l'.
Proof. unfold wr. intros H Hl Hx. repeat case_bool_in H; cbn in H; simplify_eq. by apply Forall_insert. Qed.

Section Safe.
Context (elements : list parquet_schema_element_t).
#[local] Abbreviation n := (lenZ elements).

(** The childless elements before [i]. *)
Definition leaves_before (i : Z) : Z := lenZ (filter (λ e, se_num_children e = 0) (take (Z.to_nat i) elements)).

Lemma leaves_before_step i e : 0 <= i -> rd elements i = Some e -> leaves_before (i + 1) = leaves_before i + (if se_num_children e =? 0 then 1 else 0).
Proof.
  intros Hi He. unfold leaves_before. replace (Z.to_nat (i + 1)) with (S (Z.to_nat i)) by lia. rewrite rd_lookup in He by lia.
  rewrite (take_S_r _ _ _ He), list.filter_app, length_app, list.filter_cons, list.filter_nil.
  destruct (Z.eqb_spec (se_num_children e) 0); [rewrite decide_True by done|rewrite decide_False by done]; cbn [length]; lia.
Qed.

Lemma leaves_before_mono i j : i <= j -> leaves_before i <= leaves_before j.
Proof.
  intros H. unfold leaves_before. rewrite <- (take_drop (Z.to_nat i) (take (Z.to_nat j) elements)), take_take, Nat.min_l by lia.
  rewrite list.filter_app, length_app. lia.
Qed.

Lemma count_leaves_spec : count_leaves elements n = Some (leaves_before n).
Proof.
  unfold count_leaves. enough (forall k i, 0 <= i -> i + Z.of_nat k <= n -> count_leaves_from elements k i (leaves_before i) = Some (leaves_before (i + Z.of_nat k))) as H.
  { specialize (H (Z.to_nat n) 0 ltac:(lia) ltac:(lia)). change (leaves_before 0) with 0 in H. rewrite H. do 2 f_equal. lia. }
  induction k as [|k IH]; intros i Hi Hk; cbn [count_leaves_from]; [by replace (i + Z.of_nat 0) with i by lia|].
  destruct (rd_Some elements i) as [e He]; [lia|]. rewrite He. cbn [mbind option_bind].
  replace (i + Z.of_nat (S k)) with (i + 1 + Z.of_nat k) by lia. rewrite <- IH by lia. rewrite (leaves_before_step i e) by done.
  f_equal. destruct (_ =? 0); lia.
Qed.

(** Parents come first; what the arrays hold stays in range. *)
Definition parents_ok (ps : list Z) : Prop := forall i p, rd ps i = Some p -> (i = 0 -> -1 <= p <= 0) /\ (0 < i -> 0 <= p < i).

Record ctx_ok (c : schema_traverse_ctx_t) (idx : Z) : Prop := {
  cx_def : lenZ (ctx_max_def c) = leaves_before n /\ Forall (λ x, 0 <= x <= 100) (ctx_max_def c);
  cx_rep : lenZ (ctx_max_rep c) = leaves_before n /\ Forall (λ x, 0 <= x <= 100) (ctx_max_rep c);
  cx_leaf_indices : lenZ (ctx_leaf_indices c) = leaves_before n /\ Forall (λ x, 0 <= x < n) (ctx_leaf_indices c);
  cx_parents : exists ps, ctx_parent_indices c = Some ps /\ lenZ ps = n /\ parents_ok ps;
  cx_leaf_idx : 0 <= ctx_leaf_idx c <= leaves_before idx }.

Lemma ctx_ok_later c i j : ctx_ok c i -> i <= j -> ctx_ok c j.
Proof. intros [] H. pose proof (leaves_before_mono i j H). constructor; try done. lia. Qed.

Lemma ctx_ok_exceeded c i b : ctx_ok c i -> ctx_ok (c<| ctx_depth_exceeded := b |>) i.
Proof. intros []. destruct c. by constructor. Qed.

Lemma record_parent_spec c i p j : ctx_ok c j -> 0 <= i < n -> (i = 0 -> -1 <= p <= 0) -> (0 < i -> 0 <= p < i) ->
  exists c', record_parent c i p = Some c' /\ ctx_ok c' j.
Proof.
  intros [D R L (ps & Ep & Lp & Hp) I] Hi H0 H1. unfold record_parent. rewrite Ep. destruct (wr_total ps i p) as [ps' E]; [lia|]. rewrite E.
  cbn [mbind option_bind]. eexists. split; [done|]. destruct c. constructor; try done. exists ps'. split; [done|].
  split; [by rewrite (length_wr _ _ _ _ E)|]. intros k q. rewrite (rd_wr _ _ _ _ k E). destruct (Z.eqb_spec k i) as [->|]; [intros [= <-]; auto|apply Hp].
Qed.

Lemma record_leaf_spec c i lv : ctx_ok c i -> 0 <= i < n -> leaves_before (i + 1) = leaves_before i + 1 -> 0 <= lv.1 <= 100 -> 0 <= lv.2 <= 100 ->
  exists c', record_leaf c i lv = Some c' /\ ctx_ok c' (i + 1).
Proof.
  intros [[D1 D2] [R1 R2] [L1 L2] P I] Hi Hl H1 H2. pose proof (leaves_before_mono (i + 1) n ltac:(lia)). unfold record_leaf.
  destruct (wr_total (ctx_max_def c) (ctx_leaf_idx c) lv.1) as [d Ed]; [lia|]. rewrite Ed. cbn [mbind option_bind].
  destruct (wr_total (ctx_max_rep c) (ctx_leaf_idx c) lv.2) as [r Er]; [lia|]. rewrite Er. cbn [mbind option_bind].
  destruct (wr_total (ctx_leaf_indices c) (ctx_leaf_idx c) i) as [l El]; [lia|]. rewrite El. cbn [mbind option_bind].
  eexists. split; [done|]. constructor; cbn [ctx_max_def ctx_max_rep ctx_leaf_indices ctx_parent_indices ctx_leaf_idx]; try done; try lia.
  - rewrite (length_wr _ _ _ _ Ed). split; [done|]. by apply (wr_Forall _ _ _ _ _ Ed).
  - rewrite (length_wr _ _ _ _ Er). split; [done|]. by apply (wr_Forall _ _ _ _ _ Er).
  - rewrite (length_wr _ _ _ _ El). split; [done|]. by apply (wr_Forall _ _ _ _ _ El).
Qed.

Lemma node_levels_range e lv k : 0 <= k < 100 -> 0 <= lv.1 <= k -> 0 <= lv.2 <= k ->
  0 <= (node_levels e lv).1 <= k + 1 /\ 0 <= (node_levels e lv).2 <= k + 1.
Proof.
  intros Hk H1 H2. unfold node_levels, i16. destruct (se_repetition_type e) as [r|]; [|lia].
  destruct (r =? _); [|destruct (r =? _); [|lia]]; cbn [fst snd]; rewrite ?wrap_signed_small by (unfold in_i; lia); lia.
Qed.

(** The loop over children, for any step that moves forward. *)
Lemma visit_children_spec visit lo : (forall c i, lo <= i <= n -> ctx_ok c i -> exists j c', visit c i = Some (j, c') /\ i <= j <= n /\ ctx_ok c' j) ->
  forall k c i, lo <= i <= n -> ctx_ok c i -> exists j c', visit_children visit k c i = Some (j, c') /\ i <= j <= n /\ ctx_ok c' j.
Proof.
  intros H. induction k as [|k IH]; intros c i Hi Hc; cbn [visit_children]; [exists i, c; split; [done|]; split; [lia|done]|].
  destruct (H c i Hi Hc) as (j & c' & E & Hj & Hc'). rewrite E. cbn [mbind option_bind].
  destruct (IH c' j) as (j' & c'' & E' & Hj' & Hc''); [lia|done|]. exists j', c''. split; [done|]. split; [lia|done].
Qed.

Lemma traverse_safe fuel : forall p lv depth c i, 102 <= Z.of_nat fuel + depth -> 1 <= depth <= 101 -> 0 <= p < i -> 1 <= i <= n ->
  0 <= lv.1 <= depth - 1 -> 0 <= lv.2 <= depth - 1 -> ctx_ok c i ->
  exists j c', traverse_schema_recursive fuel elements n p lv depth c i = Some (j, c') /\ i <= j <= n /\ ctx_ok c' j.
Proof.
  induction fuel as [|fuel IH]; intros p lv depth c i Hf Hd Hp Hi H1 H2 Hc; [lia|]. cbn [traverse_schema_recursive].
  rewrite Z.geb_leb. destruct (Z.leb_spec n i); [exists i, c; split; [done|]; split; [lia|done]|].
  unfold CARQUET_MAX_SCHEMA_DEPTH. rewrite Z.gtb_ltb.
  destruct (Z.ltb_spec 100 depth); [eexists i, _; split; [done|]; split; [lia|by apply ctx_ok_exceeded]|].
  destruct (rd_Some elements i) as [e He]; [lia|]. rewrite He. cbn [mbind option_bind].
  destruct (record_parent_spec c i p i Hc) as (c1 & E1 & Hc1); [lia..|]. rewrite E1. cbn [mbind option_bind].
  destruct (node_levels_range e lv (depth - 1)) as [B1 B2]; [lia..|]. pose proof (leaves_before_step i e ltac:(lia) He) as LS.
  destruct (Z.eqb_spec (se_num_children e) 0) as [|Hne].
  - destruct (record_leaf_spec c1 i (node_levels e lv)) as (c2 & E2 & Hc2); [done|lia..|]. rewrite E2. cbn [mbind option_bind].
    exists (i + 1), c2. split; [done|]. split; [lia|done].
  - destruct (visit_children_spec (traverse_schema_recursive fuel elements n i (node_levels e lv) (depth + 1)) (i + 1)) with (k := Z.to_nat (se_num_children e)) (c := c1) (i := i + 1)
      as (j & c2 & E2 & Hj & Hc2); [|lia|apply (ctx_ok_later _ i); [done|lia]|exists j, c2; split; [exact E2|]; split; [lia|done]].
    intros c' i' Hi' Hc'. apply IH; lia || done.
Qed.

Lemma compute_levels_safe L ps : L = leaves_before n -> lenZ ps = n -> parents_ok ps -> 1 <= n ->
  let zeros := replicate (Z.to_nat L) 0 in
  exists ok c, compute_levels elements n zeros zeros zeros (Some ps) = Some (ok, c) /\ ctx_ok c n.
Proof.
  intros -> Lp Hps Hn zeros. unfold compute_levels. set (c0 := mk_ctx _ _ _ _ _ _).
  pose proof (leaves_before_mono 0 n ltac:(lia)) as LB. change (leaves_before 0) with 0 in LB.
  assert (lenZ zeros = leaves_before n) as Lz by (unfold zeros; rewrite length_replicate; lia).
  assert (ctx_ok c0 0) as C0.
  { constructor; cbn; try (split; [done|apply Forall_replicate; lia]); [by exists ps|split; [done|]]. change (leaves_before 0) with 0. done. }
  destruct (Z.leb_spec n 1); [exists true, c0; split; [done|]; apply (ctx_ok_later _ 0); [done|lia]|].
  destruct (record_parent_spec c0 0 (-1) 0 C0) as (c1 & E1 & C1); [lia..|]. rewrite E1. cbn [mbind option_bind].
  destruct (rd_Some elements 0) as [root Er]; [lia|]. rewrite Er. cbn [mbind option_bind].
  destruct (visit_children_spec (traverse_schema_recursive traverse_fuel elements n 0 (0, 0) 1) 1) with (k := Z.to_nat (se_num_children root)) (c := c1) (i := 1)
    as (j & c2 & E2 & Hj & C2); [|lia|apply (ctx_ok_later _ 0); [done|lia]|].
  { intros c i Hi Hc. apply traverse_safe; cbn; lia || done. }
  rewrite E2. cbn [mbind option_bind]. eexists _, c2. split; [done|]. apply (ctx_ok_later _ j); [done|lia].
Qed.
End Safe.

Lemma calloc_0 {Sp : AddressSpace} a size : carquet_arena_calloc a 0 size = Some (None, a).
Proof. done. Qed.

Lemma zeros_parents_ok n : parents_ok (replicate n 0).
Proof. intros i p H. pose proof (rd_bound _ _ _ H). rewrite rd_lookup in H by lia. apply lookup_replicate in H as [-> _]. lia. Qed.

(** What the reader's schema is, whatever the file says. *)
Record read_ok (elements : list parquet_schema_element_t) (s : carquet_schema_t) : Prop := {
  ro_elements : sch_elements s = elements;
  ro_num : sch_num_elements s = lenZ elements;
  ro_leaves : sch_num_leaves s = leaves_before elements (lenZ elements);
  ro_ctx : ctx_ok elements (mk_ctx (sch_max_def_levels s) (sch_max_rep_levels s) (sch_leaf_indices s) (Some (sch_parent_indices s))
             (sch_num_leaves s) false) (lenZ elements) }.

Lemma build_schema_spec {Sp : AddressSpace} a m : lenZ (fm_schema m) < 2 ^ 31 -> arena_ready a ->
  exists r a', build_schema a m = Some (r, a') /\ forall s, r = Some s -> read_ok (fm_schema m) s.
Proof.
  intros HN R0. unfold build_schema. destruct (calloc_ready a 1 sizeof_schema R0) as (sc & a1 & -> & R1). cbn [mbind option_bind].
  destruct sc as [sc|]; [|eexists _, _; split; [done|by intros ? [=]]].
  rewrite count_leaves_spec. cbn [mbind option_bind]. set (els := fm_schema m) in *. set (L := leaves_before els (lenZ els)).
  destruct (calloc_ready a1 (u64 (lenZ els)) 4 R1) as (ps & a2 & E1 & R2). destruct (calloc_ready a2 (u64 L) 4 R2) as (ls & a3 & E2 & R3).
  destruct (calloc_ready a3 (u64 L) 2 R3) as (ds & a4 & E3 & R4). destruct (calloc_ready a4 (u64 L) 2 R4) as (rs & a5 & E4 & _).
  rewrite E1. cbn [mbind option_bind]. rewrite E2. cbn [mbind option_bind]. rewrite E3. cbn [mbind option_bind]. rewrite E4. cbn [mbind option_bind].
  destruct ps as [ps|], ls as [ls|], ds as [ds|], rs as [rs|]; try (eexists _, _; split; [done|by intros ? [=]]).
  assert (1 <= lenZ els) as H1. { destruct (Z.le_gt_cases 1 (lenZ els)); [done|]. replace (lenZ els) with 0 in E1 by lia. done. }
  destruct (compute_levels_safe els L (replicate (Z.to_nat (lenZ els)) 0)) as (ok & c & E & C); [done|rewrite length_replicate; lia|apply zeros_parents_ok|done|].
  cbv zeta in E. rewrite E. cbn [mbind option_bind]. destruct ok; cbn [negb]; [|eexists _, _; split; [done|by intros ? [=]]].
  eexists _, _. split; [done|]. intros s [= <-]. destruct C as [D R LI (pl & Ep & Lp & Hp) LX]. constructor; try done. cbn. rewrite Ep. cbn.
  constructor; try done; [by exists pl|]. cbn. pose proof (leaves_before_mono els 0 (lenZ els) ltac:(lia)) as LB. change (leaves_before els 0) with 0 in LB. fold L. fold L in LB. lia.
Qed.

Section ReadQueries.
Context (els : list parquet_schema_element_t) (s : carquet_schema_t) (R : read_ok els s).

Lemma read_column k : 0 <= k < sch_num_leaves s -> exists i, rd (sch_leaf_indices s) k = Some i /\ 0 <= i < lenZ els.
Proof.
  destruct R as [_ _ NL [_ _ [L1 L2] _ _]]. cbn in *. intros Hk. destruct (rd_Some (sch_leaf_indices s) k) as [i Hi]; [lia|]. exists i. split; [done|].
  rewrite rd_lookup in Hi by lia. exact (Forall_lookup_1 _ _ _ _ L2 Hi).
Qed.

Lemma level_range l k : lenZ l = leaves_before els (lenZ els) /\ Forall (λ x, 0 <= x <= 100) l -> 0 <= k < sch_num_leaves s -> exists d, rd l k = Some d /\ 0 <= d <= 100.
Proof.
  intros [L1 L2] Hk. rewrite (ro_leaves _ _ R) in Hk. destruct (rd_Some l k) as [d Hd]; [lia|]. exists d. split; [done|].
  rewrite rd_lookup in Hd by lia. exact (Forall_lookup_1 _ _ _ _ L2 Hd).
Qed.

Lemma read_collect_path room : forall i comps, 0 <= i < lenZ els -> exists path, collect_path s room i comps = Some path /\ lenZ path <= lenZ comps + Z.of_nat room.
Proof.
  destruct R as [RE _ _ [_ _ _ (ps & Ep & Lp & Hp) _]]. cbn in *. injection Ep as Ep. subst ps.
  induction room as [|room IH]; intros i comps Hi; cbn [collect_path]; [exists comps; split; [done|lia]|].
  rewrite Z.gtb_ltb. destruct (Z.ltb_spec 0 i); [|exists comps; split; [done|lia]]. rewrite RE.
  destruct (rd_Some els i Hi) as [e He]. destruct (rd_Some (sch_parent_indices s) i) as [p Pp]; [lia|]. rewrite He, Pp. cbn [mbind option_bind].
  destruct (Hp i p Pp) as [_ Hb]. destruct (IH p (comps ++ [se_name e])) as (path & E & L); [lia|]. exists path. split; [done|].
  rewrite length_app in L. cbn in L. lia.
Qed.

Lemma read_column_path k out m : m <= lenZ out ->
  exists len out', carquet_schema_column_path s k out m = Some (len, out') /\ 0 <= len <= Z.max 0 m /\ length out' = length out.
Proof.
  intros Hm. unfold carquet_schema_column_path. rewrite Z.geb_leb. destruct (Z.ltb_spec k 0); cbn [orb]; [exists 0, out; split; [done|lia]|].
  destruct (Z.leb_spec (sch_num_leaves s) k); cbn [orb]; [exists 0, out; split; [done|lia]|]. destruct (Z.leb_spec m 0); [exists 0, out; split; [done|lia]|].
  destruct (read_column k) as (i & Hi & Bi); [lia|]. rewrite Hi. cbn [mbind option_bind].
  destruct (read_collect_path 64 i [] Bi) as (path & E & L). rewrite E. cbn [mbind option_bind]. set (len := if _ <? _ then _ else _).
  assert (0 <= len <= m /\ len <= lenZ path) as [B1 B2] by (unfold len; destruct (Z.ltb_spec (lenZ path) m); lia).
  destruct (copy_path_spec path (Z.to_nat len) 0 out) as (out' & Eo & Lo & _); [lia..|]. rewrite Eo. cbn [mbind option_bind].
  exists len, out'. split; [done|]. split; [lia|done].
Qed.
End ReadQueries.

(** C15: [build_schema] is safe on any parsed footer, whatever numbers of children and
    repetitions its elements claim, and any arena that was created: it ends, every access is in bounds, and
    the result is NULL or a schema over these elements in which every column answers the
    queries: its index is that of an element, its levels are at most 100, and the walk to
    the root that finds its path ends and stays inside the caller's array. *)
Theorem build_schema_safe {Sp : AddressSpace} a m : lenZ (fm_schema m) < 2 ^ 31 -> arena_ready a ->
  exists r a', build_schema a m = Some (r, a') /\ forall s, r = Some s ->
    sch_elements s = fm_schema m /\ carquet_schema_num_elements s = lenZ (fm_schema m) /\
    carquet_schema_num_columns s = lenZ (filter (λ e, se_num_children e = 0) (fm_schema m)) /\
    (forall k, 0 <= k < carquet_schema_num_columns s -> exists d p i e,
      carquet_schema_max_def_level s k = Some d /\ 0 <= d <= 100 /\ carquet_schema_max_rep_level s k = Some p /\ 0 <= p <= 100 /\
      rd (sch_leaf_indices s) k = Some i /\ rd (fm_schema m) i = Some e /\ carquet_schema_column_name s k = Some (se_name e) /\
      carquet_schema_column_type s k = Some (type_of e)) /\
    (forall k out max_depth, max_depth <= lenZ out ->
      exists len out', carquet_schema_column_path s k out max_depth = Some (len, out') /\ 0 <= len <= Z.max 0 max_depth /\ length out' = length out).
Proof.
  intros HN R0. destruct (build_schema_spec a m HN R0) as (r & a' & E & H). exists r, a'. split; [done|]. intros s Hs. specialize (H s Hs). pose proof H as [RE RN RL [D P _ _ _]].
  unfold carquet_schema_num_elements, carquet_schema_num_columns. split; [done|]. split; [done|].
  split; [rewrite RL; unfold leaves_before; by rewrite take_ge by lia|]. split; [|intros; by apply (read_column_path (fm_schema m))].
  intros k Hk. destruct (level_range _ s H _ k D Hk) as (d & Ed & Bd). destruct (level_range _ s H _ k P Hk) as (p & Ep & Bp).
  destruct (read_column _ s H k Hk) as (i & Ei & Bi). destruct (rd_Some (fm_schema m) i Bi) as [e Ee].
  exists d, p, i, e. unfold carquet_schema_max_def_level, carquet_schema_max_rep_level, carquet_schema_column_name, carquet_schema_column_type.
  rewrite Z.geb_leb. decide_bool. rewrite Ei. cbn [mbind option_bind]. rewrite RE, Ee. done.
Qed.

(** A root that claims two children, the second of them a group with a negative count. *)
Lemma build_schema_safe_witness :
  let e k r := mk_schema_element None 0 r None k None 0 0 None None in
  let m := mk_file_metadata 2 [e 5 None; e 1 (Some 1); e 0 (Some 2); e (-3) None] 0 [] [] None 0 in
  exists s a', build_schema (Sp := upward_space) arena_0 m = Some (Some s, a') /\ carquet_schema_num_columns s = 1 /\
    carquet_schema_max_def_level s 0 = Some 2 /\ carquet_schema_max_rep_level s 0 = Some 1.
Proof.
  intros e m. destruct (build_schema_safe (Sp := upward_space) arena_0 m) as (r & a' & E & H); [vm_compute; reflexivity|by eexists|].
  destruct r as [s|]; [|vm_compute in E; discriminate E]. destruct (H s eq_refl) as (_ & _ & Hc & _). exists s, a'. split; [exact E|]. split; [exact Hc|].
  vm_compute in E. injection E as <- _. split; reflexivity.
Defined.
