(* ===== verification/SchemaRoundtrip.v ===== *)
(** * A schema that is written is read back (carquet/metadata/schema.c, reader/file_reader.c)

    The file keeps the elements and their numbers of children; the reader rebuilds the rest
    from their order.  It finds what the writer had when the elements were added in
    depth-first order, no group is empty and none is nested too deep; the theorems at the
    end show that the conditions are needed. *)

From S2P Require Import Prelude Status Endian Memory Heap Buffer Arena ThriftEncode ThriftRoundtrip ParquetTypes ParquetParse ParquetWrite ParquetValues FooterRoundtrip Schema SchemaForest SchemaBuild SchemaOps SchemaQueries SchemaRead.
From coqutil Require Import Datatypes.RecordSetters.
Import RecordSetters.TriangleBracketNotations.

#[local] Open Scope Z_scope.

(** ** Order *)

(** [i] is [j] or an ancestor of it; everything is below the root. *)
Definition below (f : forest) (i j : Z) : Prop := i = 0 \/ i ∈ lineage f j.

(** Every node hangs from the node before it or from an ancestor of that. *)
Definition depth_first (f : forest) : Prop := forall i p e, 0 < i -> rd f i = Some (p, e) -> below f p (i - 1).

(** [e] is where the subtree of [i] ends. *)
Definition ends (f : forest) (i e : Z) : Prop :=
  i < e <= lenZ f /\ (forall k, i <= k < e -> below f i k) /\ (forall k, e <= k < lenZ f -> ~ below f i k).

Section Order.
Context (f : forest) (F : forest_ok f) (O : depth_first f).

Lemma parent_at i : 0 < i < lenZ f -> exists p, rd f i = Some (p, node_at f i) /\ 0 <= p < i.
Proof.
  intros Hi. destruct (rd_node_at f i ltac:(lia)) as [p R]. exists p. split; [done|]. destruct (forest_parent f F i p _ ltac:(lia) R) as [? [? _]]. lia.
Qed.

Lemma below_refl i : 0 <= i < lenZ f -> below f i i.
Proof.
  intros Hi. destruct (Z.eq_dec i 0) as [->|]; [by left|right]. destruct (parent_at i) as (p & R & _); [lia|].
  rewrite (lineage_step f F i p _ ltac:(lia) R). by left.
Qed.

(** Up one step. *)
Lemma below_parent i j p e : below f i j -> i <> j -> rd f j = Some (p, e) -> 0 < j -> below f i p.
Proof.
  intros [->|H] N R Hj; [by left|]. rewrite (lineage_step f F j p e Hj R) in H. apply elem_of_cons in H as [?|H]; [done|by right].
Qed.

Lemma below_child i j p e : below f i p -> rd f j = Some (p, e) -> 0 < j -> below f i j.
Proof. intros [->|H] R Hj; [by left|right]. rewrite (lineage_step f F j p e Hj R). by right. Qed.

Lemma below_le i j : below f i j -> 0 <= j < lenZ f -> 0 <= i <= j.
Proof. intros [->|H] Hj; [lia|]. apply lineage_bound in H; [lia|done|lia]. Qed.

Lemma below_trans i j k : below f i j -> below f j k -> 0 <= k < lenZ f -> below f i k.
Proof.
  intros H1 H2 Hk. revert H2. apply (forest_ind f F (λ k, below f j k -> below f i k)); [| |done].
  - intros H2. apply below_le in H2; [|lia]. assert (j = 0) as -> by lia. done.
  - intros k' p e Hk' R Hp IH H2. destruct (Z.eq_dec j k') as [->|N]; [done|].
    apply (below_child i k' p e); [|done|lia]. apply IH. by apply (below_parent j k' p e); [..|lia].
Qed.

Lemma below_pred i j : below f i j -> i < j < lenZ f -> 0 <= i -> below f i (j - 1).
Proof.
  intros H Hij Hi. destruct (parent_at j) as (p & R & Hp); [lia|]. apply (below_trans i p (j - 1)); [|by apply (O j p (node_at f j)); [lia|]|lia].
  apply (below_parent i j p (node_at f j)); [done|lia|done|lia].
Qed.

(** A subtree is an interval. *)
Lemma below_interval i k j : below f i j -> 0 <= i <= k -> k <= j < lenZ f -> below f i k.
Proof.
  intros H Hik Hkj. replace k with (j - Z.of_nat (Z.to_nat (j - k))) in Hik |- * by lia.
  assert (Z.of_nat (Z.to_nat (j - k)) <= j - k) as B by lia. revert Hik B. generalize (Z.to_nat (j - k)) as d.
  induction d as [|d IH]; intros Hik B; [by replace (j - Z.of_nat 0) with j by lia|].
  replace (j - Z.of_nat (S d)) with (j - Z.of_nat d - 1) by lia. apply below_pred; [apply IH; lia|lia|lia].
Qed.

#[local] Instance below_dec i j : Decision (below f i j).
Proof. unfold below. apply _. Defined.

Lemma ends_exists i : 0 <= i < lenZ f -> exists e, ends f i e.
Proof.
  intros Hi. enough (forall d e, e = lenZ f - Z.of_nat d -> i < e -> (forall k, i <= k < e -> below f i k) -> exists e', ends f i e') as H.
  { apply (H (Z.to_nat (lenZ f - (i + 1))) (i + 1)); [lia|lia|]. intros k Hk. assert (k = i) as -> by lia. by apply below_refl. }
  induction d as [|d IH]; intros e He Hie Hb; [exists e; split; [lia|]; split; [done|lia]|].
  destruct (decide (below f i e)) as [B|B].
  - apply (IH (e + 1)); [lia|lia|]. intros k Hk. destruct (Z.eq_dec k e) as [->|]; [done|apply Hb; lia].
  - exists e. split; [lia|]. split; [done|]. intros k Hk C. apply B. by apply (below_interval i e k); [|lia..].
Qed.

Lemma ends_0 e : ends f 0 e -> e = lenZ f.
Proof. intros (B & _ & H). destruct (Z.eq_dec e (lenZ f)); [done|]. destruct (H e); [lia|by left]. Qed.

(** ** Children, counted from the left *)

Lemma children_app g h i : children (g ++ h) i = children g i + children h i.
Proof. unfold children. rewrite list.filter_app, length_app. lia. Qed.

Lemma take_next j p e : 0 <= j -> rd f j = Some (p, e) -> take (Z.to_nat (j + 1)) f = take (Z.to_nat j) f ++ [(p, e)].
Proof. intros Hj R. replace (Z.to_nat (j + 1)) with (S (Z.to_nat j)) by lia. rewrite rd_lookup in R by lia. by rewrite (take_S_r _ _ _ R). Qed.

Lemma children_between i a b : 0 <= a <= b -> b <= lenZ f -> (forall j p e, a <= j < b -> rd f j = Some (p, e) -> p <> i) ->
  children (take (Z.to_nat b) f) i = children (take (Z.to_nat a) f) i.
Proof.
  intros Ha Hb H. replace b with (a + Z.of_nat (Z.to_nat (b - a))) in * by lia. revert Hb H. generalize (Z.to_nat (b - a)) as d.
  induction d as [|d IH]; intros Hb H; [by replace (a + Z.of_nat 0) with a by lia|].
  replace (a + Z.of_nat (S d)) with (a + Z.of_nat d + 1) in * by lia. destruct (rd_Some f (a + Z.of_nat d)) as [[p e] R]; [lia|].
  rewrite (take_next _ p e), children_snoc by (lia || done). rewrite IH by (lia || (intros j q x Hj; apply H; lia)).
  rewrite decide_False; [lia|]. apply (H (a + Z.of_nat d) p e); [lia|done].
Qed.

Lemma children_take j i : children (take (Z.to_nat j) f) i <= children f i.
Proof. rewrite <- (take_drop (Z.to_nat j) f) at 2. rewrite children_app. pose proof (children_bound (drop (Z.to_nat j) f) i). lia. Qed.

Lemma children_all i e : ends f i e -> 0 <= i -> children (take (Z.to_nat e) f) i = children f i.
Proof.
  intros (B & _ & H) Hi. rewrite <- (children_between i e (lenZ f)); [by rewrite Nat2Z.id, firstn_all|lia|lia|].
  intros j p x Hj R ->. apply (H j Hj). apply (below_child i j i x); [apply below_refl; lia|done|lia].
Qed.

(** Typed nodes have no children. *)
Lemma children_typed i : has_type (node_at f i) = true -> children f i = 0.
Proof.
  intros T. replace f with (take (Z.to_nat (lenZ f)) f) by (by rewrite Nat2Z.id, firstn_all).
  rewrite (children_between i 0 (lenZ f)); [done|lia|lia|]. intros j p e Hj R ->.
  destruct (Z.eq_dec j 0) as [->|].
  - destruct F as [[R0 _] _]. rewrite R in R0. injection R0 as -> _. unfold node_at in T. cbn in T. done.
  - destruct (forest_parent f F j i e ltac:(lia) R) as [_ [_ T']]. congruence.
Qed.
End Order.

(** ** The walk over the tree *)

(** The reader's elements are those of the forest as far as its walk looks at them. *)
Definition same_shape (f : forest) (els : list parquet_schema_element_t) : Prop :=
  lenZ els = lenZ f /\ forall i e, rd els i = Some e ->
    se_num_children e = children f i /\ repetition_of e = repetition_of (node_at f i).

Definition no_empty_group (f : forest) : Prop := forall i, 0 <= i < lenZ f -> has_type (node_at f i) = false -> children f i <> 0.

Lemma columns_app f g : exists r, columns (f ++ g) = columns f ++ r.
Proof.
  induction g as [|[p e] g IH] using rev_ind; [exists []; by rewrite !app_nil_r|]. destruct IH as [r E].
  rewrite app_assoc, columns_snoc, E. exists (r ++ if has_type e then [lenZ (f ++ g)] else []). by rewrite app_assoc.
Qed.

Lemma node_levels_spec e d r : node_levels e (i16 d, i16 r) = (i16 (d + adds_def e), i16 (r + adds_rep e)).
Proof.
  rewrite <- add_levels_spec. unfold node_levels, add_levels, repetition_of. destruct (se_repetition_type e) as [x|]; [done|].
  cbn [default from_option]. done.
Qed.

Section Walk.
Context (f : forest) (F : forest_ok f) (O : depth_first f) (NE : no_empty_group f) (HD : forall i, 0 <= i < lenZ f -> lenZ (lineage f i) <= 100).
Context (els : list parquet_schema_element_t) (SS : same_shape f els).
#[local] Abbreviation n := (lenZ f).

(** The walk has reached [i]. *)
Record filled (c : schema_traverse_ctx_t) (i : Z) : Prop := {
  fi_parents : exists ps, ctx_parent_indices c = Some ps /\ lenZ ps = n /\ forall j, 0 <= j < i -> rd ps j = fst <$> rd f j;
  fi_idx : ctx_leaf_idx c = lenZ (columns (take (Z.to_nat i) f));
  fi_lengths : lenZ (ctx_leaf_indices c) = lenZ (columns f) /\ lenZ (ctx_max_def c) = lenZ (columns f) /\ lenZ (ctx_max_rep c) = lenZ (columns f);
  fi_columns : forall k j, rd (columns (take (Z.to_nat i) f)) k = Some j ->
    rd (ctx_leaf_indices c) k = Some j /\ rd (ctx_max_def c) k = Some (i16 (def_level f j)) /\ rd (ctx_max_rep c) k = Some (i16 (rep_level f j));
  fi_depth : ctx_depth_exceeded c = false }.

Lemma element_at i p : rd f i = Some (p, node_at f i) -> exists e, rd els i = Some e /\ se_num_children e = children f i /\
  (forall d r, node_levels e (i16 d, i16 r) = (i16 (d + adds_def (node_at f i)), i16 (r + adds_rep (node_at f i)))).
Proof.
  intros R. apply rd_bound in R. destruct SS as [L H]. destruct (rd_Some els i) as [e E]; [lia|]. exists e. destruct (H i e E) as [H1 H2].
  split; [done|]. split; [done|]. intros d r. rewrite node_levels_spec. unfold adds_def, adds_rep. by rewrite H2.
Qed.

(** A node is entered: its parent is recorded, and itself when it is a column. *)
Lemma record_parent_filled c i p : 0 <= i -> filled c i -> rd f i = Some (p, node_at f i) ->
  exists c1, record_parent c i p = Some c1 /\ ctx_leaf_idx c1 = ctx_leaf_idx c /\
    (has_type (node_at f i) = false -> filled c1 (i + 1)) /\
    (has_type (node_at f i) = true -> exists c2, record_leaf c1 i (i16 (def_level f i), i16 (rep_level f i)) = Some c2 /\ filled c2 (i + 1)).
Proof.
  intros Hi [(ps & Ep & Lp & Hps) FI (L1 & L2 & L3) FC FD] R. pose proof (rd_bound _ _ _ R) as B. unfold record_parent. rewrite Ep.
  destruct (wr_total ps i p) as [ps' E]; [lia|]. rewrite E. cbn [mbind option_bind]. eexists. split; [done|].
  destruct c as [md mr li pi lx de]. cbn in *. unfold constant. cbn.
  assert (forall j, 0 <= j < i + 1 -> rd ps' j = fst <$> rd f j) as Hps'.
  { intros j Hj. rewrite (rd_wr _ _ _ _ j E). destruct (Z.eqb_spec j i) as [->|]; [by rewrite R|apply Hps; lia]. }
  assert (lenZ ps' = n) as Lp' by (by rewrite (length_wr _ _ _ _ E)).
  pose proof (take_next f i p _ Hi R) as TN. pose proof (columns_snoc (take (Z.to_nat i) f) p (node_at f i)) as CS.
  rewrite length_take, Nat.min_l in CS by lia. rewrite Z2Nat.id in CS by lia. rewrite <- TN in CS.
  split; [done|]. split; intros T; rewrite T in CS.
  - rewrite app_nil_r in CS. constructor; cbn; rewrite ?CS; try done. by exists ps'.
  - destruct (columns_app (take (Z.to_nat (i + 1)) f) (drop (Z.to_nat (i + 1)) f)) as [r Er]. rewrite take_drop in Er.
    assert (lenZ (columns (take (Z.to_nat i) f)) < lenZ (columns f)) as BL by (rewrite Er, CS, !length_app; cbn; lia).
    unfold record_leaf. cbn [ctx_max_def ctx_max_rep ctx_leaf_indices ctx_leaf_idx]. subst lx.
    destruct (wr_total md (lenZ (columns (take (Z.to_nat i) f))) (i16 (def_level f i))) as [md' E1]; [lia|].
    destruct (wr_total mr (lenZ (columns (take (Z.to_nat i) f))) (i16 (rep_level f i))) as [mr' E2]; [lia|].
    destruct (wr_total li (lenZ (columns (take (Z.to_nat i) f))) i) as [li' E3]; [lia|].
    cbn [fst snd]. rewrite E1. cbn [mbind option_bind]. rewrite E2. cbn [mbind option_bind]. rewrite E3. cbn [mbind option_bind].
    eexists. split; [done|]. constructor; cbn; rewrite ?CS; try done; [by exists ps'|rewrite length_app; cbn; lia| |].
    + by rewrite (length_wr _ _ _ _ E1), (length_wr _ _ _ _ E2), (length_wr _ _ _ _ E3).
    + intros k j Hk. rewrite (rd_wr _ _ _ _ k E1), (rd_wr _ _ _ _ k E2), (rd_wr _ _ _ _ k E3).
      destruct (Z.eqb_spec k (lenZ (columns (take (Z.to_nat i) f)))) as [->|N].
      * rewrite (rd_middle _ [] i) in Hk by done. by injection Hk as <-.
      * pose proof (rd_bound _ _ _ Hk) as Bk. rewrite length_app in Bk. cbn in Bk. rewrite rd_app_l in Hk by lia. by apply FC.
Qed.

(** The loop over the children of [i], when [visit] enters each and leaves at its end. *)
Lemma visit_children_filled visit i e : 0 <= i < n -> ends f i e ->
  (forall c j ej, i < j < n -> rd f j = Some (i, node_at f j) -> filled c j -> ends f j ej -> exists c', visit c j = Some (ej, c') /\ filled c' ej) ->
  forall k c j, i < j <= e -> filled c j -> (forall a b, i < a < j -> j <= b < n -> ~ below f a b) ->
    children (take (Z.to_nat j) f) i + Z.of_nat k = children f i ->
    exists c', visit_children visit k c j = Some (e, c') /\ filled c' e.
Proof.
  intros Hi He Hv. pose proof He as (Be & Hin & Hout).
  assert (forall j, i < j < e -> (forall a b, i < a < j -> j <= b < n -> ~ below f a b) -> rd f j = Some (i, node_at f j)) as Hchild.
  { intros j Hj Hcl. destruct (parent_at f F j) as (q & R & Hq); [lia|]. rewrite R. do 2 f_equal.
    assert (below f i q) as Bq by (apply (below_parent f F i j q (node_at f j)); [apply Hin; lia|lia|done|lia]).
    apply (below_le f F i q) in Bq; [|lia]. destruct (Z.eq_dec q i); [done|]. destruct (Hcl q j); [lia|lia|].
    apply (below_child f F q j q (node_at f j)); [apply below_refl; [done|lia]|done|lia]. }
  induction k as [|k IH]; intros c j Hj Hc Hcl Hk; cbn [visit_children].
  - destruct (Z.eq_dec j e) as [->|]; [by exists c|]. pose proof (Hchild j ltac:(lia) Hcl) as R.
    pose proof (children_take f (j + 1) i) as CT. rewrite (take_next f j i _ ltac:(lia) R), children_snoc, decide_True in CT by done. lia.
  - destruct (Z.eq_dec j e) as [->|]; [rewrite (children_all f F i e) in Hk by (done || lia); lia|].
    pose proof (Hchild j ltac:(lia) Hcl) as R. destruct (ends_exists f F O j) as [ej Hej]; [lia|]. pose proof Hej as (Bj & Jin & Jout).
    destruct (Hv c j ej) as (c' & E & Hc'); [lia|done..|]. rewrite E. cbn [mbind option_bind].
    assert (below f i j) as Bij by (apply Hin; lia).
    assert (ej <= e) as Hle.
    { destruct (Z.le_gt_cases ej e); [done|]. destruct (Hout e); [lia|]. apply (below_trans f F i j e); [done|apply Jin; lia|lia]. }
    apply IH; [lia|done| |].
    + intros a b Ha Hb. destruct (Z.lt_ge_cases a j); [apply Hcl; lia|]. intros Bab. apply (Jout b); [lia|].
      apply (below_trans f F j a b); [apply Jin; lia|done|lia].
    + rewrite (children_between f i (j + 1) ej); [|lia|lia|].
      * rewrite (take_next f j i _ ltac:(lia) R), children_snoc, decide_True by done. lia.
      * intros m p x Hm Rm ->. assert (below f j m) as Bjm by (apply Jin; lia).
        apply (below_parent f F j m i x) in Bjm; [|lia|done|lia]. apply (below_le f F j i) in Bjm; lia.
Qed.

Lemma traverse_filled fuel : forall i p c e, 0 < i < n -> rd f i = Some (p, node_at f i) -> 102 <= Z.of_nat fuel + lenZ (lineage f i) ->
  filled c i -> ends f i e ->
  exists c', traverse_schema_recursive fuel els n p (i16 (def_level f p), i16 (rep_level f p)) (lenZ (lineage f i)) c i = Some (e, c') /\ filled c' e.
Proof.
  induction fuel as [|fuel IH]; intros i p c e Hi R Hf Hc He; [pose proof (HD i); lia|]. cbn [traverse_schema_recursive].
  rewrite Z.geb_leb, Z.gtb_ltb. decide_bool. unfold CARQUET_MAX_SCHEMA_DEPTH. pose proof (HD i ltac:(lia)). decide_bool.
  destruct (element_at i p R) as (x & Ex & Cx & Lx). rewrite Ex. cbn [mbind option_bind].
  destruct (record_parent_filled c i p ltac:(lia) Hc R) as (c1 & E1 & _ & Hg & Hl). rewrite E1. cbn [mbind option_bind]. rewrite Cx, Lx.
  rewrite (Z.add_comm (def_level f p)), (Z.add_comm (rep_level f p)), <- (def_level_step f i p (node_at f i)), <- (rep_level_step f i p (node_at f i)) by (assumption || lia).
  destruct (has_type (node_at f i)) eqn:T.
  - rewrite (children_typed f F i T). change (0 =? 0) with true. cbv iota. destruct (Hl eq_refl) as (c2 & E2 & Hc2). rewrite E2. cbn [mbind option_bind].
    assert (e = i + 1) as ->.
    { destruct He as (Be & Hin & _). destruct (Z.eq_dec e (i + 1)); [done|]. exfalso.
      destruct (parent_at f F (i + 1)) as (q & Rq & Hq); [lia|]. assert (below f i q) as Bq by (apply (below_parent f F i (i + 1) q (node_at f (i + 1))); [apply Hin; lia|lia|done|lia]).
      apply (below_le f F i q) in Bq; [|lia]. assert (q = i) as -> by lia. destruct (forest_parent f F (i + 1) i _ ltac:(lia) Rq) as [_ [_ T']]. congruence. }
    by exists c2.
  - pose proof (NE i ltac:(lia) T). pose proof (children_bound f i). replace (children f i =? 0) with false by lia.
    pose proof He as (Be & _). apply (visit_children_filled _ i e ltac:(lia) He); [|lia|by apply Hg|intros; lia|].
    + intros c' j ej Hj Rj Hc' Hej. pose proof (lineage_step f F j i _ ltac:(lia) Rj) as LS.
      replace (lenZ (lineage f i) + 1) with (lenZ (lineage f j)) by (rewrite LS; cbn [length]; lia).
      apply IH; [lia|done| |done|done]. rewrite LS. cbn [length]. lia.
    + rewrite (take_next f i p _ ltac:(lia) R), children_snoc, decide_False by (destruct (parent_at f F i Hi) as (q & Rq & Hq); rewrite R in Rq; injection Rq as ->; lia).
      rewrite (children_between f i 0 i); [change (children (take (Z.to_nat 0) f) i) with 0; lia|lia|lia|].
      intros j q y Hj Rj ->. destruct (Z.eq_dec j 0) as [->|]; [destruct F as [[R0 _] _]; rewrite Rj in R0; injection R0; lia|].
      destruct (forest_parent f F j i y ltac:(lia) Rj); lia.
Qed.
End Walk.

Section Rebuild.
Context (f : forest) (F : forest_ok f) (O : depth_first f) (NE : no_empty_group f) (HD : forall i, 0 <= i < lenZ f -> lenZ (lineage f i) <= 100).
Context (els : list parquet_schema_element_t) (SS : same_shape f els).
#[local] Abbreviation n := (lenZ f).

Lemma leaf_iff i : 0 <= i < n -> (children f i =? 0) = has_type (node_at f i).
Proof.
  intros Hi. destruct (has_type (node_at f i)) eqn:T; [by rewrite (children_typed f F i T)|]. pose proof (NE i Hi T). by apply Z.eqb_neq.
Qed.

Lemma leaves_columns : leaves_before els (lenZ els) = lenZ (columns f).
Proof.
  destruct SS as [L H]. enough (forall d, Z.of_nat d <= n -> leaves_before els (Z.of_nat d) = lenZ (columns (take d f))) as G.
  { rewrite L, (G (length f)) by lia. by rewrite firstn_all. }
  induction d as [|d IH]; intros Hd; [done|]. destruct (rd_Some els (Z.of_nat d)) as [e E]; [lia|]. destruct (H _ e E) as [Hc _].
  replace (Z.of_nat (S d)) with (Z.of_nat d + 1) by lia. rewrite (leaves_before_step els _ e) by (done || lia). rewrite IH by lia.
  destruct (rd_node_at f (Z.of_nat d)) as [p R]; [lia|]. pose proof (take_next f (Z.of_nat d) p _ (Zle_0_nat d) R) as TN.
  replace (Z.to_nat (Z.of_nat d + 1)) with (S d) in TN by lia. rewrite Nat2Z.id in TN. rewrite TN, columns_snoc, length_app, Hc, leaf_iff by lia.
  destruct (has_type _); cbn [length]; lia.
Qed.

Lemma compute_levels_filled zeros ps : lenZ zeros = lenZ (columns f) -> lenZ ps = n ->
  exists c, compute_levels els n zeros zeros zeros (Some ps) = Some (true, c) /\ filled f c n.
Proof.
  intros Lz Lp. pose proof (forest_nonempty f F) as N0. destruct (root_group f F) as [_ T0].
  assert (2 <= n) as N2.
  { pose proof (NE 0 ltac:(lia) T0) as C. destruct (Z.le_gt_cases 2 n); [done|]. destruct C.
    replace (children f 0) with (children (take (Z.to_nat n) f) 0) by (by rewrite Nat2Z.id, firstn_all).
    rewrite (children_between f 0 0 n); [done|lia|lia|]. intros j p e Hj R ->. assert (j = 0) as -> by lia. destruct F as [[R0 _] _]. rewrite R in R0. by injection R0. }
  unfold compute_levels. decide_bool. set (c0 := mk_ctx _ _ _ _ _ _).
  assert (filled f c0 0) as C0.
  { constructor; cbn; try done; [exists ps; split; [done|]; split; [done|lia]|]. change (columns (take (Z.to_nat 0) f)) with (@nil Z). intros k j Hk. apply rd_bound in Hk. cbn in Hk. lia. }
  destruct (rd_node_at f 0) as [p0 R0]; [lia|]. assert (p0 = -1) as -> by (destruct F as [[R _] _]; congruence).
  destruct (record_parent_filled f c0 0 (-1) ltac:(lia) C0 R0) as (c1 & E1 & _ & Hg & _). rewrite E1. cbn [mbind option_bind].
  destruct (element_at f els SS 0 (-1) R0) as (root & Er & Cr & _). rewrite Er. cbn [mbind option_bind]. rewrite Cr.
  assert (ends f 0 n) as E0 by (split; [lia|]; split; [intros; by left|lia]).
  destruct (visit_children_filled f F O (traverse_schema_recursive traverse_fuel els n 0 (0, 0) 1) 0 n ltac:(lia) E0) with (k := Z.to_nat (children f 0)) (c := c1) (j := 1)
    as (c2 & E2 & C2); [|lia|by apply Hg|intros; lia| |].
  - intros c j ej Hj Rj Hc Hej. pose proof (lineage_step f F j 0 _ ltac:(lia) Rj) as LS. rewrite lineage_0 in LS.
    pose proof (traverse_filled f F O NE HD els SS traverse_fuel j 0 c ej) as H. rewrite LS in H. apply H; [lia|done|unfold traverse_fuel; cbn [length]; lia|done|done].
  - pose proof (children_bound f 0). change (Z.to_nat 1) with (Z.to_nat (0 + 1)). rewrite (take_next f 0 (-1) _ ltac:(lia) R0).
    change (children (take (Z.to_nat 0) f ++ [(-1, node_at f 0)]) 0) with 0. lia.
  - rewrite E2. cbn [mbind option_bind]. exists c2. split; [|done]. by rewrite (fi_depth _ _ _ C2).
Qed.

(** ** The schema the reader builds *)

Lemma level_small w i : (forall e, 0 <= w e <= 1) -> 0 <= i < n -> i16 (sum_over w f (lineage f i)) = sum_over w f (lineage f i).
Proof.
  intros Hw Hi. apply wrap_signed_small; [lia|]. pose proof (HD i Hi) as L. revert L. generalize (lineage f i) as l. unfold in_i.
  assert (forall l, 0 <= sum_over w f l <= lenZ l) as H; [|intros l ?; specialize (H l); lia].
  induction l as [|j l IH]; cbn [sum_over foldr length]; [lia|]. fold (sum_over w f l). specialize (Hw (node_at f j)). lia.
Qed.

Lemma rd_full {X} (l r : list X) : lenZ l = lenZ r -> (forall k x, rd r k = Some x -> rd l k = Some x) -> l = r.
Proof.
  intros L H. apply rd_ext. intros i Hi. destruct (Z.lt_ge_cases i (lenZ r)).
  - destruct (rd_Some r i) as [x Hx]; [lia|]. rewrite Hx. by apply H.
  - rewrite !rd_lookup by lia. rewrite !lookup_ge_None_2 by lia. done.
Qed.

Lemma rd_fmap {X Y} (g : X -> Y) l k : rd (g <$> l) k = g <$> rd l k.
Proof. unfold rd. destruct (k <? 0); [done|]. apply list_lookup_fmap. Qed.

Lemma filled_arrays c : filled f c n -> ctx_parent_indices c = Some (fst <$> f) /\ ctx_leaf_indices c = columns f /\
  ctx_max_def c = (λ j, def_level f j) <$> columns f /\ ctx_max_rep c = (λ j, rep_level f j) <$> columns f.
Proof.
  intros [(ps & Ep & Lp & Hps) _ (L1 & L2 & L3) FC _]. rewrite Nat2Z.id, firstn_all in FC.
  assert (forall k j, rd (columns f) k = Some j -> 0 <= j < n) as HB.
  { intros k j Hk. pose proof (rd_bound _ _ _ Hk). rewrite rd_lookup in Hk by lia. apply list_elem_of_lookup_2, list_elem_of_filter in Hk as [_ Hk]. apply elem_of_seqZ in Hk. lia. }
  assert (forall e, 0 <= adds_def e <= 1 /\ 0 <= adds_rep e <= 1) as HW.
  { intros e. unfold adds_def, adds_rep. split; [destruct (_ || _)|destruct (_ =? _)]; lia. }
  split; [rewrite Ep; f_equal; apply rd_full; [by rewrite length_fmap|]|].
  { intros k x Hx. pose proof (rd_bound _ _ _ Hx) as B. rewrite length_fmap in B. rewrite Hps by lia. by rewrite <- rd_fmap. }
  split; [apply rd_full; [done|]; intros k j Hk; by apply FC|].
  split; (apply rd_full; [by rewrite length_fmap|]); intros k x Hx; rewrite rd_fmap in Hx; destruct (rd (columns f) k) as [j|] eqn:Hk; try discriminate; injection Hx as <-;
    destruct (FC k j Hk) as (_ & Hd & Hr); [rewrite Hd|rewrite Hr]; f_equal; apply level_small; try (intros e; apply HW); by apply (HB k).
Qed.

Lemma some_column : 0 < lenZ (columns f) <= n.
Proof.
  pose proof (forest_nonempty f F) as N0. pose proof (columns_length f F). split; [|lia].
  assert (has_type (node_at f (n - 1)) = true) as T.
  { apply not_false_is_true. intros T. apply (NE (n - 1) ltac:(lia) T). replace (children f (n - 1)) with (children (take (Z.to_nat n) f) (n - 1)) by (by rewrite Nat2Z.id, firstn_all).
    rewrite (children_between f (n - 1) 0 n); [done|lia|lia|]. intros j p e Hj R ->. destruct (Z.eq_dec j 0) as [->|].
    - destruct F as [[R0 _] _]. rewrite R in R0. injection R0. lia.
    - destruct (forest_parent f F j _ e ltac:(lia) R). lia. }
  assert (n - 1 ∈ columns f) as Hin by (apply list_elem_of_filter; split; [done|apply elem_of_seqZ; lia]).
  destruct (columns f); [by apply not_elem_of_nil in Hin|cbn; lia].
Qed.

Lemma room_calloc {Sp : AddressSpace} a count size k : arena_room (count * size + k) a -> 0 < count -> 0 < size -> count * size < 2 ^ 64 -> 0 <= k ->
  exists x a', carquet_arena_calloc a count size = Some (Some x, a') /\ arena_room k a'.
Proof.
  intros H Hc Hs Hb Hk. unfold carquet_arena_calloc. rewrite u64_small by nia. rewrite Z.mul_comm, Z.div_mul by lia. rewrite Z.eqb_refl. decide_bool.
  destruct (room_alloc a (size * count) 16 k) as (q & a' & E & R); [by rewrite Z.mul_comm|nia|done|by right|].
  unfold carquet_arena_alloc, CARQUET_ARENA_ALIGNMENT. rewrite E. by eexists _, a'.
Qed.

Lemma calloc_outcome {Sp : AddressSpace} a count size k : arena_ready a -> 0 < count -> 0 < size -> count * size < 2 ^ 64 -> 0 <= k ->
  exists r a', carquet_arena_calloc a count size = Some (r, a') /\ arena_ready a' /\ (arena_room (count * size + k) a -> is_Some r /\ arena_room k a').
Proof.
  intros W Hc Hs Hb Hk. destruct (calloc_ready a count size W) as (r & a' & E & W'). exists r, a'. split; [done|]. split; [done|].
  intros R. destruct (room_calloc a count size k R) as (x & b & E' & R'); [done..|]. rewrite E in E'. injection E' as -> ->. split; [by eexists|done].
Qed.

Lemma build_schema_filled {Sp : AddressSpace} a m : fm_schema m = els -> lenZ els < 2 ^ 31 -> arena_ready a ->
  exists r a', build_schema a m = Some (r, a') /\
    (forall t, r = Some t -> sch_num_elements t = n /\ sch_num_leaves t = lenZ (columns f) /\ sch_elements t = els /\ sch_parent_indices t = fst <$> f /\
      sch_leaf_indices t = columns f /\ sch_max_def_levels t = (λ j, def_level f j) <$> columns f /\ sch_max_rep_levels t = (λ j, rep_level f j) <$> columns f) /\
    (arena_room (96 + 12 * n) a -> r <> None).
Proof.
  intros Em Hn W. pose proof some_column as SC. pose proof leaves_columns as LC. destruct SS as [LE _]. unfold build_schema.
  set (L := lenZ (columns f)) in *. destruct (calloc_outcome a 1 sizeof_schema (12 * n) W) as (sc & a1 & -> & W1 & R1); [unfold sizeof_schema; lia..|].
  cbn [mbind option_bind]. destruct sc as [sc|]; [|eexists _, _; split; [done|]; split; [by intros ? [=]|]; intros R; by destruct (R1 R) as [[? [=]] _]].
  rewrite Em, count_leaves_spec, LC, LE. cbn [mbind option_bind]. fold L. rewrite (u64_small n), (u64_small L) by lia.
  destruct (calloc_outcome a1 n 4 (8 * n) W1) as (ps & a2 & -> & W2 & R2); [lia..|]. cbn [mbind option_bind].
  destruct (calloc_outcome a2 L 4 (8 * n - 4 * L) W2) as (ls & a3 & -> & W3 & R3); [lia..|]. cbn [mbind option_bind].
  destruct (calloc_outcome a3 L 2 (8 * n - 6 * L) W3) as (ds & a4 & -> & W4 & R4); [lia..|]. cbn [mbind option_bind].
  destruct (calloc_outcome a4 L 2 (8 * n - 8 * L) W4) as (rs & a5 & -> & _ & R5); [lia..|]. cbn [mbind option_bind].
  assert (arena_room (96 + 12 * n) a -> is_Some ps /\ is_Some ls /\ is_Some ds /\ is_Some rs) as Hroom.
  { intros R. destruct (R1 R) as [_ Q1]. destruct R2 as [? Q2]; [by apply (room_less _ _ _ Q1); lia|].
    destruct R3 as [? Q3]; [by apply (room_less _ _ _ Q2); lia|]. destruct R4 as [? Q4]; [by apply (room_less _ _ _ Q3); lia|].
    destruct R5 as [? _]; [by apply (room_less _ _ _ Q4); lia|]. done. }
  destruct ps as [ps|], ls as [ls|], ds as [ds|], rs as [rs|];
    try (eexists _, _; split; [done|]; split; [by intros ? [=]|]; intros R; destruct (Hroom R) as ([? ?] & [? ?] & [? ?] & [? ?]); congruence).
  destruct (compute_levels_filled (replicate (Z.to_nat L) 0) (replicate (Z.to_nat n) 0)) as (c & E & C); [rewrite length_replicate; lia..|].
  rewrite E. cbn [mbind option_bind negb]. eexists _, _. split; [done|]. split; [|done]. intros t [= <-]. cbn.
  destruct (filled_arrays c C) as (-> & -> & -> & ->). done.
Qed.
End Rebuild.

(** ** From the builder to the reader *)

(** What a written element keeps. *)
Lemma read_element_shape e : se_num_children (read_schema_element e) = Z.max 0 (se_num_children e) /\
  se_repetition_type (read_schema_element e) = se_repetition_type e /\ se_type (read_schema_element e) = se_type e.
Proof.
  assert (se_num_children (compat e) = se_num_children e /\ se_repetition_type (compat e) = se_repetition_type e /\ se_type (compat e) = se_type e) as (C1 & C2 & C3).
  { unfold compat, schema_element_with_logical_compat. destruct e as [ty tl rp nm nc ct sc pr fi [lt|]]; cbn; [|done].
    destruct (converted_type_from_logical_type lt) as [[c|]|]; cbn; [| |done]; destruct (lt_id lt =? CARQUET_LOGICAL_DECIMAL); cbn;
      try (destruct (get_i32 (lt_params lt) 4); cbn; [|done]; destruct (get_i32 (lt_params lt) 0); cbn; [|done]);
      by destruct (lt_id lt =? CARQUET_LOGICAL_INTERVAL). }
  unfold read_schema_element, complete_schema_element. rewrite <- C1, <- C2, <- C3. set (r := read_compat (compat e)).
  assert (se_num_children r = Z.max 0 (se_num_children (compat e)) /\ se_repetition_type r = se_repetition_type (compat e) /\ se_type r = se_type (compat e)) as (R1 & R2 & R3) by done.
  rewrite <- R1, <- R2, <- R3. clearbody r. destruct (se_logical_type r); [done|]. destruct (se_converted_type r) as [ct|]; [|done].
  destruct (logical_type_from_converted_type _ _ _); cbn; [|done]. by destruct r.
Qed.

Lemma stored_shape s : schema_ok s -> same_shape (forest_of s) (map read_schema_element (take (Z.to_nat (sch_num_elements s)) (sch_elements s))).
Proof.
  intros K. pose proof (ok_storage s K) as []. pose proof (num_forest s K) as N. split; [rewrite length_map, length_take; lia|].
  intros i e H. pose proof (rd_bound _ _ _ H) as B. rewrite length_map, length_take in B. change (map ?g ?l) with (g <$> l) in H. rewrite rd_fmap, rd_take in H by lia.
  destruct (rd (sch_elements s) i) as [x|] eqn:Ex; [|done]. injection H as <-. destruct (read_element_shape x) as (S1 & S2 & _).
  rewrite S1, (ok_children s K i x) by (lia || done). pose proof (children_bound (forest_of s) i). split; [lia|].
  unfold repetition_of at 1. rewrite S2. destruct (rd_Some (sch_parent_indices s) i) as [p Ep]; [lia|].
  rewrite (node_at_rd _ i p (erase x)) by (apply rd_forest; [lia|done|done]). symmetry. apply repetition_erase.
Qed.

(** The cells of an array that count. *)
Lemma cells_full {X} (l r : list X) : lenZ r <= lenZ l -> (forall k x, rd r k = Some x -> rd l k = Some x) -> r = take (length r) l.
Proof.
  intros L H. apply rd_full; [rewrite length_take; lia|]. intros k x Hx. pose proof (rd_bound _ _ _ Hx) as B. rewrite length_take in B.
  destruct (rd_Some r k) as [y Hy]; [lia|]. pose proof (H k y Hy) as Hl. rewrite <- (Nat2Z.id (length r)), rd_take in Hx by lia. congruence.
Qed.

Lemma rd_columns s k j : schema_ok s -> rd (columns (forest_of s)) k = Some j -> 0 <= j < lenZ (forest_of s).
Proof.
  intros K Hk. pose proof (rd_bound _ _ _ Hk). rewrite rd_lookup in Hk by lia. apply list_elem_of_lookup_2, list_elem_of_filter in Hk as [_ Hk]. apply elem_of_seqZ in Hk. lia.
Qed.

(** What the builder keeps, in the terms of the reader. *)
Lemma builder_arrays s : schema_ok s -> (forall i, 0 <= i < sch_num_elements s -> lenZ (lineage (forest_of s) i) <= 100) ->
  let f := forest_of s in let l := Z.to_nat (sch_num_leaves s) in
  fst <$> f = take (Z.to_nat (sch_num_elements s)) (sch_parent_indices s) /\ columns f = take l (sch_leaf_indices s) /\
  (λ j, def_level f j) <$> columns f = take l (sch_max_def_levels s) /\ (λ j, rep_level f j) <$> columns f = take l (sch_max_rep_levels s).
Proof.
  intros K HD f l. pose proof (ok_storage s K) as []. pose proof (num_forest s K) as N. pose proof (num_leaves_bound s K) as B. pose proof (ok_num_leaves s K) as NL.
  fold f in N, NL, HD. assert (length (columns f) = l) as Ll by (unfold l; lia).
  assert (forall e, 0 <= adds_def e <= 1 /\ 0 <= adds_rep e <= 1) as HW.
  { intros e. unfold adds_def, adds_rep. split; [destruct (_ || _)|destruct (_ =? _)]; lia. }
  split; [|split; [|split]].
  - rewrite N, Nat2Z.id. rewrite <- (length_fmap fst f). apply cells_full; [rewrite length_fmap; lia|]. intros k x Hx. rewrite rd_fmap in Hx.
    destruct (rd f k) as [[p e]|] eqn:R; [|done]. injection Hx as <-. by apply rd_forest_inv in R as (_ & Hp & _); [|apply K].
  - rewrite <- Ll. apply cells_full; [lia|]. intros k j Hk. by apply (ok_columns s K).
  - rewrite <- Ll, <- (length_fmap (λ j, def_level f j) (columns f)). apply cells_full; [rewrite length_fmap; lia|]. intros k x Hx. rewrite rd_fmap in Hx.
    destruct (rd (columns f) k) as [j|] eqn:Hk; [|done]. injection Hx as <-. destruct (ok_columns s K k j Hk) as (_ & -> & _). f_equal.
    apply level_small; [intros x Hx; apply HD; fold f in Hx; rewrite N; exact Hx|intros e; apply HW|by apply (rd_columns s k)].
  - rewrite <- Ll, <- (length_fmap (λ j, rep_level f j) (columns f)). apply cells_full; [rewrite length_fmap; lia|]. intros k x Hx. rewrite rd_fmap in Hx.
    destruct (rd (columns f) k) as [j|] eqn:Hk; [|done]. injection Hx as <-. destruct (ok_columns s K k j Hk) as (_ & _ & ->). f_equal.
    apply level_small; [intros x Hx; apply HD; fold f in Hx; rewrite N; exact Hx|intros e; apply HW|by apply (rd_columns s k)].
Qed.

(** The schema that a file was written with is the one its reader builds: from the
    metadata read back ([read_file_metadata]) of a footer that holds the elements of a
    schema built by the operations, [build_schema] rebuilds the same parents, the same
    columns in the same order and the same levels, provided the elements were added in
    depth-first order, no group was left empty and the nesting is at most 100.  It fails
    only for want of memory. *)
Theorem schema_roundtrip {Sp : AddressSpace} s a m : schema_ok s -> arena_ready a -> depth_first (forest_of s) -> no_empty_group (forest_of s) ->
  (forall i, 0 <= i < sch_num_elements s -> lenZ (lineage (forest_of s) i) <= 100) ->
  fm_schema m = take (Z.to_nat (sch_num_elements s)) (sch_elements s) ->
  exists r a', build_schema a (read_file_metadata m) = Some (r, a') /\
    (arena_room (96 + 12 * sch_num_elements s) a -> r <> None) /\
    forall t, r = Some t ->
      let l := Z.to_nat (sch_num_leaves s) in
      sch_num_elements t = sch_num_elements s /\ sch_num_leaves t = sch_num_leaves s /\
      sch_parent_indices t = take (Z.to_nat (sch_num_elements s)) (sch_parent_indices s) /\
      sch_leaf_indices t = take l (sch_leaf_indices s) /\
      sch_max_def_levels t = take l (sch_max_def_levels s) /\ sch_max_rep_levels t = take l (sch_max_rep_levels s).
Proof.
  intros K W O NE HD Em. pose proof (ok_storage s K) as []. pose proof (num_forest s K) as N. destruct (builder_arrays s K HD) as (A1 & A2 & A3 & A4).
  pose proof HD as HD'. setoid_rewrite N in HD'. pose proof (stored_shape s K) as SS.
  destruct (build_schema_filled _ (ok_forest s K) O NE HD' _ SS a (read_file_metadata m)) as (r & a' & E & H & R); [cbn; by rewrite Em|destruct SS as [-> _]; lia|done|].
  exists r, a'. split; [exact E|]. split; [by rewrite N|]. intros t Ht. destruct (H t Ht) as (T1 & T2 & _ & T3 & T4 & T5 & T6).
  split; [by rewrite T1|]. split; [rewrite T2; symmetry; apply K|]. split; [by rewrite T3|]. split; [by rewrite T4|]. split; [by rewrite T5|by rewrite T6].
Qed.

(** ** The conditions, checked on concrete schemas *)

Definition depth_first_at (f : forest) (i : Z) : Prop := i = 0 \/ match rd f i with Some (p, _) => below f p (i - 1) | None => True end.

#[export] Instance depth_first_at_dec f i : Decision (depth_first_at f i).
Proof. unfold depth_first_at, below. destruct (rd f i) as [[p e]|]; apply _. Defined.

(** The three conditions of the round trip, decided. *)
Definition readable (f : forest) : Prop :=
  Forall (λ i, depth_first_at f i /\ (has_type (node_at f i) = true \/ children f i <> 0) /\ lenZ (lineage f i) <= 100) (seqZ 0 (lenZ f)).

#[export] Instance readable_dec f : Decision (readable f).
Proof. unfold readable. apply _. Defined.

Lemma readable_spec f : readable f -> depth_first f /\ no_empty_group f /\ forall i, 0 <= i < lenZ f -> lenZ (lineage f i) <= 100.
Proof.
  unfold readable. rewrite list.Forall_forall. intros H. split; [|split].
  - intros i p e Hi R. pose proof (rd_bound _ _ _ R). destruct (H i) as (D & _); [apply elem_of_seqZ; lia|]. destruct D as [?|D]; [lia|by rewrite R in D].
  - intros i Hi T. destruct (H i) as (_ & [T'|C] & _); [apply elem_of_seqZ; lia|congruence|done].
  - intros i Hi. destruct (H i) as (_ & _ & L); [apply elem_of_seqZ; lia|done].
Qed.

(** A footer with these elements and nothing else. *)
Definition footer_of (s : carquet_schema_t) : parquet_file_metadata_t :=
  mk_file_metadata 2 (take (Z.to_nat (sch_num_elements s)) (sch_elements s)) 0 [] [] None 0.

(** What a reader makes of a schema that is written. *)
Definition reread (s : carquet_schema_t) : option carquet_schema_t :=
  r ← build_schema (Sp := upward_space) arena_0 (read_file_metadata (footer_of s)); r.1.

Lemma schema_roundtrip_witness : exists s t, sample_schema = Some s /\ reread s = Some t /\ sch_num_leaves t = 4 /\
  sch_max_def_levels t = take 4 (sch_max_def_levels s) /\ sch_max_def_levels t = [2; 3; 1; 2].
Proof.
  pose proof sample_reach as R. destruct sample_schema as [s|] eqn:Es; [|destruct R].
  assert (schema_ok s) as K by (exact (proj1 (reach_ok (Sp := upward_space) (Hp := plain_heap) (Fl := exact_log10) s R))).
  assert (readable (forest_of s)) as RD by (apply (bool_decide_unpack _); injection Es as <-; vm_compute; exact I).
  destruct (readable_spec _ RD) as (O & NE & HD). rewrite <- (num_forest s K) in HD.
  destruct (schema_roundtrip (Sp := upward_space) s arena_0 (footer_of s) K ltac:(by eexists) O NE HD eq_refl) as (r & a' & E & _ & H).
  assert (reread s = r) as Er by (unfold reread; rewrite E; reflexivity).
  destruct r as [t|]; [|exfalso; injection Es as <-; vm_compute in Er; discriminate Er].
  exists s, t. split; [reflexivity|]. split; [exact Er|]. destruct (H t eq_refl) as (_ & H2 & _ & _ & H5 & _).
  assert (sch_num_leaves s = 4 /\ take 4 (sch_max_def_levels s) = [2; 3; 1; 2]) as [N D] by (injection Es as <-; split; vm_compute; reflexivity).
  rewrite N in H2, H5. split; [exact H2|]. split; [exact H5|]. rewrite <- D. exact H5.
Defined.

(** ** Where the reader finds another schema *)

Definition built (ops : list schema_op) : option carquet_schema_t :=
  s ← created_schema; run_ops (Sp := upward_space) (Hp := plain_heap) (Fl := exact_log10) s ops.

Definition path_at (s : carquet_schema_t) (k : Z) : option (list cstring) :=
  '(n, path) ← carquet_schema_column_path s k (replicate 99 None) 99; Some (take (Z.to_nat n) path).

(** A group, a column beside it, then a column in the group: nothing refuses this order, the
    elements are written as they were added, and the reader puts the first column into the
    group and the second beside it, with the levels that go with that. *)
Theorem schema_order_lost :
  let ops := [AddGroup [103; 0] 1 0; AddColumn [97; 0] 1 None 0 0 0; AddColumn [98; 0] 1 None 0 0 1] in
  exists s t, built ops = Some s /\ reread s = Some t /\
    path_at s 0 = Some [Some [97; 0]] /\ path_at s 1 = Some [Some [103; 0]; Some [98; 0]] /\
    path_at t 0 = Some [Some [103; 0]; Some [97; 0]] /\ path_at t 1 = Some [Some [98; 0]] /\
    carquet_schema_max_def_level s 0 = Some 0 /\ carquet_schema_max_def_level t 0 = Some 1.
Proof. eexists _, _. split; [vm_compute; reflexivity|]. split; [vm_compute; reflexivity|]. vm_compute. auto 10. Qed.

(** A group without columns is no column for the builder, and a column of type BOOLEAN for
    the reader; so is the root of a schema without columns. *)
Theorem schema_empty_group_column :
  (exists s t, built [AddGroup [103; 0] 0 0; AddColumn [97; 0] 1 None 0 0 0] = Some s /\ reread s = Some t /\
    carquet_schema_num_columns s = 1 /\ carquet_schema_num_columns t = 2 /\ carquet_schema_column_name t 0 = Some (Some [103; 0])) /\
  (exists s t, built [] = Some s /\ reread s = Some t /\ carquet_schema_num_columns s = 0 /\ carquet_schema_num_columns t = 1 /\
    carquet_schema_column_name t 0 = Some (Some schema_name)).
Proof. split; (eexists _, _; split; [vm_compute; reflexivity|]; split; [vm_compute; reflexivity|]; vm_compute; auto). Qed.

(** A list whose elements are refused leaves two groups behind, which the caller was not
    told of and which the reader takes for a column. *)
Theorem schema_list_not_undone :
  exists s t, built [AddList [108; 0] 1 (Some (logical CARQUET_LOGICAL_STRING)) 1 0 0] = Some s /\ reread s = Some t /\
    carquet_schema_num_elements s = 3 /\ carquet_schema_num_columns s = 0 /\ carquet_schema_num_columns t = 1.
Proof. eexists _, _; split; [vm_compute; reflexivity|]; split; [vm_compute; reflexivity|]; vm_compute; auto. Qed.

(** [n] groups, each in the one before. *)
Definition nested_groups (n : nat) : list schema_op := (λ i, AddGroup [65 + i mod 26; 0] 0 i) <$> seqZ 0 (Z.of_nat n).

(** Below 65 groups a column's path has 64 names and does not start at the root. *)
Theorem deep_path_truncated :
  exists s, built (nested_groups 65 ++ [AddColumn [97; 0] 1 None 0 0 65]) = Some s /\
    length <$> path_at s 0 = Some 64%nat /\ (λ p, p !! 0%nat) <$> path_at s 0 = Some (Some (Some [67; 0])) /\
    (se_name <$> rd (sch_elements s) 1) = Some (Some [65; 0]).
Proof. eexists; split; [vm_compute; reflexivity|]; vm_compute; auto. Qed.
