(* ===== verification/FileReader.v ===== *)
(** * Opening a file (carquet/reader/file_reader.c, mmap_reader.c)

    The tail of a Parquet file holds the footer, its length and a magic number.  A file is
    opened from a buffer, from a mapping or through stdio; all three parse the same footer
    and build the same schema.  This file also has the accessors of an open reader and the
    bounds-checked read that everything behind the footer goes through. *)

From S2P Require Import Prelude Status Endian Memory Heap Arena ParquetTypes ParquetParse Schema SchemaRead.
From coqutil Require Import Datatypes.RecordSetters.
Import RecordSetters.TriangleBracketNotations.

#[local] Open Scope Z_scope.

(** ** stdio and mmap

    An open stream; each read is preceded by a seek.  [file_read f off n] is what fread got
    of the [n] bytes at [off]. *)

Class FileIO := {
  FILE : Type;
  fopen : list Z -> option FILE;                  (* path, "rb" *)
  mmap_open : list Z -> option (list Z);          (* the bytes mapped, [None] when mapping fails *)
  seek_end : FILE -> bool;                        (* fseek(file, 0, SEEK_END) == 0 *)
  tell_end : FILE -> Z;                           (* ftell there, negative on failure *)
  seek_set : FILE -> Z -> bool;                   (* fseek(file, offset, SEEK_SET) == 0 *)
  file_read : FILE -> Z -> Z -> list Z }.

(** A stream over [contents]: no call invents bytes. *)
Record stream_of (F : FileIO) (f : FILE) (contents : list Z) : Prop := {
  so_tell : 0 <= tell_end f -> tell_end f = lenZ contents;
  so_read : forall off n, 0 <= off -> 0 <= n -> file_read f off n `prefix_of` take (Z.to_nat n) (drop (Z.to_nat off) contents) }.

(** Nothing fails. *)
Record stream_serves (F : FileIO) (f : FILE) (contents : list Z) : Prop := {
  ss_end : seek_end f = true;
  ss_tell : tell_end f = lenZ contents;
  ss_set : forall off, 0 <= off <= lenZ contents -> seek_set f off = true;
  ss_read : forall off n, 0 <= off -> 0 <= n -> file_read f off n = take (Z.to_nat n) (drop (Z.to_nat off) contents) }.

(** "PAR1" *)
Definition PARQUET_MAGIC : list Z := [80; 65; 82; 49].
Definition PARQUET_MAGIC_LEN : Z := 4.
Definition PARQUET_FOOTER_SIZE_LEN : Z := 4.
Definition CARQUET_FOOTER_SPECULATIVE_SIZE : Z := 64 * 1024.

(** [p + i] on a readable object, which must stay inside it. *)
Definition ptr_at {A} (p : list A) (i : Z) : option (list A) :=
  if (0 <=? i) && (i <=? lenZ p) then Some (drop (Z.to_nat i) p) else None.

(** [memcmp(p + i, PARQUET_MAGIC, PARQUET_MAGIC_LEN) == 0] *)
Definition magic_at (p : list Z) (i : Z) : option bool :=
  bs ← rd_n p i PARQUET_MAGIC_LEN; Some (bool_decide (bs = PARQUET_MAGIC)).

Section Reader.
Context {Sp : AddressSpace} {Hp : ArrayHeap} {F : FileIO}.

Record carquet_reader_options_t := mk_options {
  opt_use_mmap : bool;
  opt_verify_checksums : bool;
  opt_buffer_size : Z;
  opt_num_threads : Z }.

Record carquet_prebuffer_t := mk_prebuffer {
  pb_data : option (list Z);
  pb_file_offset : Z;
  pb_size : Z;
  pb_row_group : Z }.

Record carquet_reader_t := mk_file_reader {
  fr_file : option FILE;
  fr_owns_file : bool;
  fr_mmap_data : option (list Z);
  fr_file_size : Z;
  fr_mmap_info : bool;                 (* the mapping is ours, not a caller's buffer *)
  fr_arena : carquet_arena_t;
  fr_metadata : parquet_file_metadata_t;
  fr_schema : option carquet_schema_t;
  fr_options : carquet_reader_options_t;
  fr_prebuffer : carquet_prebuffer_t;
  fr_is_open : bool }.

Definition carquet_reader_options_init : carquet_reader_options_t := mk_options false true (64 * 1024) 0.

(** What [calloc] and the options make of a new reader. *)
Definition new_reader (options : option carquet_reader_options_t) (arena : carquet_arena_t) (row_group : Z) : carquet_reader_t :=
  mk_file_reader None false None 0 false arena fm_zero None (default carquet_reader_options_init options)
    (mk_prebuffer None 0 0 row_group) false.

(** ** The footer *)

(** The metadata, then the schema. *)
Definition parse_footer (reader : carquet_reader_t) (footer_data : list Z) (footer_size : Z) : option (carquet_status_t * carquet_reader_t) :=
  '(status, metadata, arena) ← parquet_parse_file_metadata (Some footer_data) footer_size (fr_arena reader) (fr_metadata reader);
  let reader := reader<| fr_arena := arena |><| fr_metadata := metadata |> in
  if negb (is_ok status) then Some (status, reader) else
  '(schema, arena) ← build_schema (fr_arena reader) metadata;
  let reader := reader<| fr_arena := arena |><| fr_schema := schema |> in
  match schema with
  | None => Some (CARQUET_ERROR_INVALID_SCHEMA, reader)
  | Some _ => Some (CARQUET_OK, reader)
  end.

(** A seek and a read of [n] bytes into a new buffer. *)
Definition fetch (file : FILE) (offset n : Z) : carquet_status_t + list Z :=
  match array_calloc 0 n 1 with
  | None => inl CARQUET_ERROR_OUT_OF_MEMORY
  | Some _ =>
      if negb (seek_set file offset) then inl CARQUET_ERROR_FILE_SEEK else
      let bs := file_read file offset n in
      if negb (lenZ bs =? n) then inl CARQUET_ERROR_FILE_READ else inr bs
  end.

Definition read_footer (reader : carquet_reader_t) : option (carquet_status_t * carquet_reader_t) :=
  file ← fr_file reader;
  if negb (seek_end file) then Some (CARQUET_ERROR_FILE_SEEK, reader) else
  let file_size := tell_end file in
  if file_size <? 0 then Some (CARQUET_ERROR_FILE_READ, reader) else
  let reader := reader<| fr_file_size := file_size |> in
  if file_size <? PARQUET_MAGIC_LEN * 2 + PARQUET_FOOTER_SIZE_LEN then Some (CARQUET_ERROR_INVALID_FOOTER, reader) else
  let spec_size := if file_size <? CARQUET_FOOTER_SPECULATIVE_SIZE then file_size else CARQUET_FOOTER_SPECULATIVE_SIZE in
  match fetch file (file_size - spec_size) spec_size with
  | inl status => Some (status, reader)
  | inr spec_buf =>
      magic ← magic_at spec_buf (spec_size - 4);
      if negb magic then Some (CARQUET_ERROR_INVALID_MAGIC, reader) else
      tail ← ptr_at spec_buf (spec_size - 8);
      footer_size ← carquet_read_u32_le tail;
      if footer_size >? file_size - 8 then Some (CARQUET_ERROR_INVALID_FOOTER, reader) else
      if u32 (footer_size + 8) <=? spec_size then
        footer_data ← ptr_at spec_buf (spec_size - 8 - footer_size);
        parse_footer reader footer_data footer_size
      else
        match fetch file (file_size - 8 - footer_size) footer_size with
        | inl status => Some (status, reader)
        | inr footer_data => parse_footer reader footer_data footer_size
        end
  end.

Definition read_footer_mmap (reader : carquet_reader_t) : option (carquet_status_t * carquet_reader_t) :=
  data ← fr_mmap_data reader;
  let file_size := fr_file_size reader in
  if file_size <? PARQUET_MAGIC_LEN * 2 + PARQUET_FOOTER_SIZE_LEN then Some (CARQUET_ERROR_INVALID_FOOTER, reader) else
  magic ← magic_at data 0;
  if negb magic then Some (CARQUET_ERROR_INVALID_MAGIC, reader) else
  magic ← magic_at data (file_size - 4);
  if negb magic then Some (CARQUET_ERROR_INVALID_MAGIC, reader) else
  tail ← ptr_at data (file_size - 8);
  footer_size ← carquet_read_u32_le tail;
  if footer_size >? file_size - 8 then Some (CARQUET_ERROR_INVALID_FOOTER, reader) else
  footer_data ← ptr_at data (file_size - 8 - footer_size);
  parse_footer reader footer_data footer_size.

(** ** Opening; [Some None] is NULL *)

Definition opened (r : option (carquet_status_t * carquet_reader_t)) : option (option carquet_reader_t) :=
  '(status, reader) ← r;
  Some (if is_ok status then Some (reader<| fr_is_open := true |>) else None).

Definition carquet_reader_open_file (file : FILE) (options : option carquet_reader_options_t) : option (option carquet_reader_t) :=
  match array_calloc tt 1 480 with
  | None => Some None
  | Some _ =>
      match carquet_arena_init with
      | (CARQUET_OK, arena) =>
          let reader := new_reader options arena (-1) in
          let reader := reader<| fr_options := mk_options false (opt_verify_checksums (fr_options reader)) (opt_buffer_size (fr_options reader)) (opt_num_threads (fr_options reader)) |> in
          opened (read_footer (reader<| fr_file := Some file |>))
      | _ => Some None
      end
  end.

Definition carquet_reader_open (path : list Z) (options : option carquet_reader_options_t) : option (option carquet_reader_t) :=
  match array_calloc tt 1 480 with
  | None => Some None
  | Some _ =>
      match carquet_arena_init with
      | (CARQUET_OK, arena) =>
          let reader := new_reader options arena (-1) in
          match (if opt_use_mmap (fr_options reader) then mmap_open path else None) with
          | Some data =>
              opened (read_footer_mmap (reader<| fr_mmap_info := true |><| fr_mmap_data := Some data |><| fr_file_size := lenZ data |>))
          | None =>
              match fopen path with
              | None => Some None
              | Some file => opened (read_footer (reader<| fr_file := Some file |><| fr_owns_file := true |>))
              end
          end
      | _ => Some None
      end
  end.

(** [buffer] may be longer than [size]. *)
Definition carquet_reader_open_buffer (buffer : list Z) (size : Z) (options : option carquet_reader_options_t) : option (option carquet_reader_t) :=
  if size =? 0 then Some None else
  match array_calloc tt 1 480 with
  | None => Some None
  | Some _ =>
      match carquet_arena_init with
      | (CARQUET_OK, arena) =>
          let reader := (new_reader options arena 0)<| fr_mmap_data := Some buffer |><| fr_file_size := size |> in
          if size <? 12 then Some None else
          magic ← magic_at buffer 0;
          if negb magic then Some None else
          magic ← magic_at buffer (size - 4);
          if negb magic then Some None else
          tail ← ptr_at buffer (size - 8);
          footer_size ← carquet_read_u32_le tail;
          if footer_size >? size - 8 then Some None else
          footer_data ← ptr_at buffer (size - 8 - footer_size);
          opened (parse_footer reader footer_data footer_size)
      | _ => Some None
      end
  end.

(** ** The open reader *)

Definition carquet_reader_schema (reader : carquet_reader_t) : option carquet_schema_t := fr_schema reader.
Definition carquet_reader_num_rows (reader : carquet_reader_t) : Z := fm_num_rows (fr_metadata reader).
Definition carquet_reader_num_row_groups (reader : carquet_reader_t) : Z := lenZ (fm_row_groups (fr_metadata reader)).
Definition carquet_reader_num_columns (reader : carquet_reader_t) : option Z := sch_num_leaves <$> fr_schema reader.

Definition carquet_reader_row_group_index_valid (reader : carquet_reader_t) (row_group_index : Z) : bool :=
  (row_group_index >=? 0) && (row_group_index <? lenZ (fm_row_groups (fr_metadata reader))).

Record carquet_row_group_metadata_t := mk_row_group_metadata { rgm_num_rows : Z; rgm_total_byte_size : Z; rgm_total_compressed_size : Z }.

Definition carquet_reader_row_group_metadata (reader : carquet_reader_t) (row_group_index : Z) : option (carquet_status_t * option carquet_row_group_metadata_t) :=
  if negb (carquet_reader_row_group_index_valid reader row_group_index) then Some (CARQUET_ERROR_ROW_GROUP_NOT_FOUND, None) else
  rg ← rd (fm_row_groups (fr_metadata reader)) row_group_index;
  Some (CARQUET_OK, Some (mk_row_group_metadata (rg_num_rows rg) (rg_total_byte_size rg) (default (rg_total_byte_size rg) (rg_total_compressed_size rg)))).

(** [None] in the result is NULL. *)
Definition reader_get_column_chunk (reader : carquet_reader_t) (row_group_index column_index : Z) : option (option parquet_column_chunk_t) :=
  if negb (carquet_reader_row_group_index_valid reader row_group_index) then Some None else
  rg ← rd (fm_row_groups (fr_metadata reader)) row_group_index;
  if (column_index <? 0) || (column_index >=? lenZ (rg_columns rg)) then Some None else
  Some <$> rd (rg_columns rg) column_index.

(** The status, and the bytes from the pointer on. *)
Definition reader_read_bytes (reader : carquet_reader_t) (offset size : Z) : option (carquet_status_t * option (list Z)) :=
  if size <=? 0 then Some (CARQUET_ERROR_INVALID_ARGUMENT, None) else
  if (offset <? 0) || (offset >? 2 ^ 63 - 1 - size) || (offset >? fr_file_size reader) || (size >? fr_file_size reader - offset) then
    Some (CARQUET_ERROR_FILE_READ, None) else
  match fr_mmap_data reader with
  | Some data => p ← ptr_at data offset; Some (CARQUET_OK, Some p)
  | None =>
      match fr_file reader with
      | None => Some (CARQUET_ERROR_INVALID_STATE, None)
      | Some file =>
          Some (match fetch file offset size with
                | inl status => (status, None)
                | inr bs => (CARQUET_OK, Some bs)
                end)
      end
  end.

Definition carquet_reader_num_metadata (reader : carquet_reader_t) : Z := lenZ (fm_key_value_metadata (fr_metadata reader)).

Definition carquet_reader_get_metadata (reader : carquet_reader_t) (index : Z) : option (carquet_status_t * option (cstring * cstring)) :=
  if (index <? 0) || (index >=? lenZ (fm_key_value_metadata (fr_metadata reader))) then Some (CARQUET_ERROR_INVALID_ARGUMENT, None) else
  kv ← rd (fm_key_value_metadata (fr_metadata reader)) index;
  Some (CARQUET_OK, Some (kv_key kv, kv_value kv)).

(** The first entry with the key. *)
Fixpoint find_metadata_in (kvs : list parquet_key_value_t) (key : list Z) : option cstring :=
  match kvs with
  | [] => Some None
  | kv :: kvs =>
      found ← (match kv_key kv with None => Some false | Some k => strcmp_equal k key end);
      if found : bool then Some (kv_value kv) else find_metadata_in kvs key
  end.

Definition carquet_reader_find_metadata (reader : carquet_reader_t) (key : list Z) : option cstring :=
  find_metadata_in (fm_key_value_metadata (fr_metadata reader)) key.

Record carquet_column_chunk_metadata_t := mk_chunk_metadata {
  ccm_type : Z; ccm_codec : Z; ccm_num_values : Z; ccm_total_compressed_size : Z; ccm_total_uncompressed_size : Z; ccm_data_page_offset : Z;
  ccm_has_dictionary_page : bool; ccm_dictionary_page_offset : Z; ccm_num_encodings : Z; ccm_encodings : list Z;
  ccm_has_bloom_filter : bool; ccm_has_column_index : bool; ccm_has_offset_index : bool }.

(** [has_x && x > 0] *)
Definition positive (x : option Z) : bool := match x with Some v => v >? 0 | None => false end.
Definition is_present {A} (x : option A) : bool := match x with Some _ => true | None => false end.

Definition carquet_reader_column_chunk_metadata (reader : carquet_reader_t) (row_group_index column_index : Z)
    : option (carquet_status_t * option carquet_column_chunk_metadata_t) :=
  chunk ← reader_get_column_chunk reader row_group_index column_index;
  match chunk with
  | None => Some (CARQUET_ERROR_INVALID_ARGUMENT, None)
  | Some chunk =>
      match cc_metadata chunk with
      | None => Some (CARQUET_ERROR_INVALID_METADATA, None)
      | Some m =>
          let num_encodings := if lenZ (cm_encodings m) <? 4 then lenZ (cm_encodings m) else 4 in
          encodings ← rd_n (cm_encodings m) 0 num_encodings;
          Some (CARQUET_OK, Some (mk_chunk_metadata (cm_type m) (cm_codec m) (cm_num_values m) (cm_total_compressed_size m)
            (cm_total_uncompressed_size m) (cm_data_page_offset m) (is_present (cm_dictionary_page_offset m)) (default 0 (cm_dictionary_page_offset m))
            num_encodings (encodings ++ replicate (4 - length encodings) 0)
            (is_present (cm_bloom_filter_offset m) && (default 0 (cm_bloom_filter_length m) >? 0))
            (is_present (cc_column_index_offset chunk) && positive (cc_column_index_length chunk))
            (is_present (cc_offset_index_offset chunk) && positive (cc_offset_index_length chunk))))
      end
  end.

End Reader.
