(* ===== verification/FileOpen.v ===== *)
(** * Opening a file: correctness

    What an open reader guarantees ([reader_ok]), that opening any bytes leaves no object
    except where the footer parser does, that the three ways to open a file agree, and
    that the metadata and the schema of a file are those it was written with. *)

From S2P Require Import Prelude Status Endian Memory Heap Buffer Arena ThriftEncode ThriftRoundtrip ParquetTypes ParquetParse ParquetWrite ParquetSafe ParquetValues FooterRoundtrip Schema SchemaForest SchemaBuild SchemaRead SchemaQueries SchemaRoundtrip FileReader.
From coqutil Require Import Datatypes.RecordSetters.
Import RecordSetters.TriangleBracketNotations.

#[local] Open Scope Z_scope.

(** ** Pieces of a file *)

Lemma ptr_at_Some {A} (p : list A) i : 0 <= i <= lenZ p -> ptr_at p i = Some (drop (Z.to_nat i) p).
Proof. intros. unfold ptr_at. by decide_bool. Qed.

Lemma magic_at_total p i : 0 <= i -> i + 4 <= lenZ p -> exists b, magic_at p i = Some b.
Proof. intros. unfold magic_at, PARQUET_MAGIC_LEN. rewrite rd_n_Some by lia. by eexists. Qed.

Lemma magic_at_drop p k i : 0 <= k -> 0 <= i -> magic_at (drop (Z.to_nat k) p) i = magic_at p (k + i).
Proof.
  intros Hk Hi. unfold magic_at, rd_n, PARQUET_MAGIC_LEN. rewrite length_drop, drop_drop.
  replace (Z.to_nat k + Z.to_nat i)%nat with (Z.to_nat (k + i)) by lia.
  destruct (Z.leb_spec 0 i), (Z.leb_spec 0 (k + i)); try lia. cbn [andb].
  destruct (Z.leb_spec (i + 4) (Z.of_nat (length p - Z.to_nat k))), (Z.leb_spec (k + i + 4) (lenZ p)); (done || lia).
Qed.

Lemma u32_total p : 4 <= lenZ p -> bytes_ok p -> exists v, carquet_read_u32_le p = Some v /\ 0 <= v < 2 ^ 32.
Proof.
  intros Hl Hb. unfold carquet_read_u32_le. rewrite rd_n_Some by lia. cbn. eexists. split; [done|].
  pose proof (le_val_bound (take (Z.to_nat 4) (drop (Z.to_nat 0) p)) ltac:(auto with bytes)) as B. by rewrite length_take, length_drop in B; replace (Z.of_nat _) with 4 in B by lia.
Qed.

(** The length of the footer, as the last eight bytes tell it. *)
Definition footer_length (contents : list Z) : Z := le_val (take 4 (drop (length contents - 8) contents)).

Lemma tail_length contents : 8 <= lenZ contents -> carquet_read_u32_le (drop (Z.to_nat (lenZ contents - 8)) contents) = Some (footer_length contents).
Proof.
  intros. unfold carquet_read_u32_le, footer_length. rewrite rd_n_Some by (rewrite ?length_drop; lia). cbn. rewrite drop_0.
  by replace (Z.to_nat (lenZ contents - 8)) with (length contents - 8)%nat by lia.
Qed.

Lemma footer_length_range contents : bytes_ok contents -> 0 <= footer_length contents < 2 ^ 32.
Proof.
  intros H. unfold footer_length. pose proof (le_val_bound (take 4 (drop (length contents - 8) contents)) ltac:(auto with bytes)) as [B1 B2].
  split; [lia|]. eapply Z.lt_le_trans; [exact B2|]. apply Z.pow_le_mono_r; [lia|]. rewrite length_take. lia.
Qed.

Section Open.
Context {Sp : AddressSpace} {Hp : ArrayHeap} {F : FileIO}.

Lemma fetch_serves f contents off n : ArrayHeapTotal Hp -> stream_serves F f contents -> 0 <= off -> 0 <= n < 2 ^ 31 -> off + n <= lenZ contents ->
  fetch f off n = inr (take (Z.to_nat n) (drop (Z.to_nat off) contents)).
Proof.
  intros T [_ _ SS SR] Ho Hn Hl. unfold fetch. rewrite array_calloc_total by done. rewrite SS by lia. cbn [negb]. rewrite SR by lia.
  rewrite length_take, length_drop. by decide_bool.
Qed.

(** What was fetched is what the file holds there. *)
Lemma fetch_inv f contents off n bs : stream_of F f contents -> 0 <= off -> 0 <= n -> fetch f off n = inr bs ->
  lenZ bs = n /\ off + n <= Z.max off (lenZ contents) /\ bs = take (Z.to_nat n) (drop (Z.to_nat off) contents).
Proof.
  intros [_ SR] Ho Hn. unfold fetch. destruct (array_calloc 0 n 1); [|done]. destruct (seek_set f off); [|done]. cbn [negb].
  destruct (Z.eqb_spec (lenZ (file_read f off n)) n) as [E|]; [|done]. intros [= <-]. split; [done|].
  pose proof (SR off n Ho Hn) as [q Hq]. pose proof (f_equal length Hq) as L. rewrite length_take, length_drop, length_app in L.
  split; [lia|]. rewrite Hq. destruct q; [by rewrite app_nil_r|]. cbn [length] in L. lia.
Qed.

Lemma fetch_error f off n status : fetch f off n = inl status -> is_ok status = false.
Proof. unfold fetch. destruct (array_calloc 0 n 1), (seek_set f off), (lenZ (file_read f off n) =? n); cbn [negb]; by intros [= <-]. Qed.

(** ** The invariant of an open reader *)

Record reader_ok (contents : list Z) (r : carquet_reader_t) : Prop := {
  rk_size : fr_file_size r = lenZ contents;
  rk_data : match fr_mmap_data r with
            | Some data => take (length contents) data = contents
            | None => exists f, fr_file r = Some f /\ stream_of F f contents
            end;
  rk_schema : exists s, fr_schema r = Some s /\ read_ok (fm_schema (fr_metadata r)) s }.



(** ** Where the footer is *)

(** The length and the closing magic number of a file fit together. *)
Definition tail_ok (contents : list Z) : Prop :=
  12 <= lenZ contents /\ magic_at contents (lenZ contents - 4) = Some true /\ footer_length contents <= lenZ contents - 8.

Definition footer_start (contents : list Z) : Z := lenZ contents - 8 - footer_length contents.

Definition footer_bytes (contents : list Z) : list Z :=
  take (Z.to_nat (footer_length contents)) (drop (Z.to_nat (footer_start contents)) contents).

Lemma footer_data_ok contents : bytes_ok contents -> tail_ok contents ->
  let data := drop (Z.to_nat (footer_start contents)) contents in
  bytes_ok data /\ 0 <= footer_length contents <= lenZ data /\ lenZ data <= lenZ contents.
Proof.
  intros Hb (H1 & _ & H2). pose proof (footer_length_range contents Hb). unfold footer_start. cbn. rewrite length_drop. split; [auto with bytes|]. lia.
Qed.

(** What is handed to the parser: the file from the footer on when it is in memory or in the
    bytes that are read ahead, else the footer, which is read by itself. *)
Definition footer_data (stream : bool) (contents : list Z) : list Z :=
  if stream && negb (footer_length contents + 8 <=? CARQUET_FOOTER_SPECULATIVE_SIZE) then footer_bytes contents
  else drop (Z.to_nat (footer_start contents)) contents.

(** In memory. *)
Lemma mapped_footer r contents : fr_mmap_data r = Some contents -> fr_file_size r = lenZ contents -> bytes_ok contents ->
  (exists status, read_footer_mmap r = Some (status, r) /\ is_ok status = false /\ ~ (tail_ok contents /\ magic_at contents 0 = Some true)) \/
  tail_ok contents /\ magic_at contents 0 = Some true /\
    read_footer_mmap r = parse_footer r (drop (Z.to_nat (footer_start contents)) contents) (footer_length contents).
Proof.
  intros Ed Es Hb. pose proof (footer_length_range contents Hb) as FR. unfold read_footer_mmap, tail_ok, PARQUET_MAGIC_LEN, PARQUET_FOOTER_SIZE_LEN. rewrite Ed, Es. cbn [mbind option_bind].
  destruct (Z.ltb_spec (lenZ contents) (4 * 2 + 4)); [left; eexists; split; [done|]; split; [done|lia]|].
  destruct (magic_at_total contents 0) as [b0 E0]; [lia..|]. rewrite E0. cbn [mbind option_bind].
  destruct b0; cbn [negb]; [|left; eexists; split; [done|]; split; [done|by intros [_ [=]]]].
  destruct (magic_at_total contents (lenZ contents - 4)) as [b1 E1]; [lia..|]. rewrite E1. cbn [mbind option_bind].
  destruct b1; cbn [negb]; [|left; eexists; split; [done|]; split; [done|by intros [(_ & [=] & _) _]]].
  rewrite ptr_at_Some by lia. cbn [mbind option_bind]. rewrite tail_length by lia. cbn [mbind option_bind]. rewrite Z.gtb_ltb.
  destruct (Z.ltb_spec (lenZ contents - 8) (footer_length contents)); [left; eexists; split; [done|]; split; [done|lia]|].
  right. rewrite ptr_at_Some by lia. cbn [mbind option_bind]. split; [|done]. split; [lia|]. by split.
Qed.

(** Through a stream, whose calls may fail. *)
Lemma stream_footer r f contents : fr_file r = Some f -> stream_of F f contents -> bytes_ok contents -> lenZ contents < 2 ^ 32 ->
  (exists status r', read_footer r = Some (status, r') /\ is_ok status = false /\
    (ArrayHeapTotal Hp -> stream_serves F f contents -> lenZ contents < 2 ^ 31 -> ~ tail_ok contents)) \/
  tail_ok contents /\ let data := footer_data true contents in
    read_footer r = parse_footer (r<| fr_file_size := lenZ contents |>) data (footer_length contents) /\
    bytes_ok data /\ footer_length contents <= lenZ data <= lenZ contents /\ take (Z.to_nat (footer_length contents)) data = footer_bytes contents.
Proof.
  intros Ef SO Hb HL. pose proof (footer_length_range contents Hb) as FR. unfold read_footer. rewrite Ef. cbn [mbind option_bind].
  destruct (seek_end f) eqn:E0; cbn [negb]; [|left; eexists _, _; split; [done|]; split; [done|]; intros _ [SE _ _ _]; congruence].
  destruct (Z.ltb_spec (tell_end f) 0); [left; eexists _, _; split; [done|]; split; [done|]; intros _ [_ ST _ _]; lia|].
  rewrite (so_tell _ _ _ SO) by done. unfold tail_ok, PARQUET_MAGIC_LEN, PARQUET_FOOTER_SIZE_LEN, CARQUET_FOOTER_SPECULATIVE_SIZE. set (n := lenZ contents) in *.
  destruct (Z.ltb_spec n (4 * 2 + 4)); [left; eexists _, _; split; [done|]; split; [done|]; lia|].
  set (k := if n <? 64 * 1024 then n else 64 * 1024). assert (12 <= k <= n /\ k <= 65536 /\ (k = n \/ k = 65536)) as Hk by (unfold k; destruct (Z.ltb_spec n (64 * 1024)); lia).
  destruct (fetch f (n - k) k) as [st|buf] eqn:E1.
  { left. eexists _, _. split; [done|]. split; [exact (fetch_error _ _ _ _ E1)|].
    intros T SS Hn. rewrite (fetch_serves f contents) in E1 by (done || lia). done. }
  destruct (fetch_inv f contents (n - k) k buf SO ltac:(lia) ltac:(lia) E1) as (L1 & _ & Ebuf). clear E1.
  rewrite take_ge in Ebuf by (rewrite length_drop; lia).
  rewrite Ebuf, magic_at_drop by lia. replace (n - k + (k - 4)) with (n - 4) by lia.
  destruct (magic_at_total contents (n - 4)) as [b1 E1]; [lia..|]. rewrite E1. cbn [mbind option_bind].
  destruct b1; cbn [negb]; [|left; eexists _, _; split; [done|]; split; [done|]; by intros _ _ _ (_ & [=] & _)].
  assert (forall i, 0 <= i -> drop (Z.to_nat i) buf = drop (Z.to_nat (n - k + i)) contents) as Db by (intros i Hi; rewrite Ebuf, drop_drop; f_equal; lia).
  rewrite <- Ebuf. rewrite ptr_at_Some by lia. cbn [mbind option_bind]. rewrite Db by lia. replace (n - k + (k - 8)) with (n - 8) by lia.
  unfold n. rewrite tail_length by lia. fold n. cbn [mbind option_bind]. rewrite Z.gtb_ltb.
  destruct (Z.ltb_spec (n - 8) (footer_length contents)); [left; eexists _, _; split; [done|]; split; [done|]; lia|].
  rewrite u32_small by lia. destruct (Z.leb_spec (footer_length contents + 8) k).
  - right. split; [repeat split; (done || lia)|]. rewrite ptr_at_Some by lia. cbn [mbind option_bind]. rewrite Db by lia.
    replace (n - k + (k - 8 - footer_length contents)) with (footer_start contents) by (unfold footer_start; lia).
    unfold footer_data. unfold CARQUET_FOOTER_SPECULATIVE_SIZE. replace (footer_length contents + 8 <=? 64 * 1024) with true by lia. cbn [andb negb].
    destruct (footer_data_ok contents Hb) as (D1 & D2 & D3); [repeat split; (done || lia)|]. split; [done|]. split; [done|]. split; [lia|done].
  - destruct (fetch f (n - 8 - footer_length contents) (footer_length contents)) as [st|data] eqn:E2.
    { left. eexists _, _. split; [done|]. split; [exact (fetch_error _ _ _ _ E2)|].
      intros T SS Hn. rewrite (fetch_serves f contents) in E2 by (done || lia). done. }
    destruct (fetch_inv f contents (n - 8 - footer_length contents) (footer_length contents) data SO ltac:(lia) ltac:(lia) E2) as (L2 & _ & Ed). right. split; [repeat split; (done || lia)|].
    assert (footer_data true contents = data) as ->.
    { unfold footer_data, CARQUET_FOOTER_SPECULATIVE_SIZE. replace (footer_length contents + 8 <=? 64 * 1024) with false by lia. symmetry. exact Ed. }
    split; [done|]. split; [rewrite Ed; auto with bytes|]. split; [lia|]. rewrite take_ge by lia. exact Ed.
Qed.



Section Outcome.
Context (stream : bool) (contents : list Z) (Hb : bytes_ok contents) (HL : lenZ contents < 2 ^ 63).



End Outcome.



(** A caller's buffer is read like a mapping. *)
Lemma open_buffer_mapped contents options : lenZ contents <> 0 ->
  carquet_reader_open_buffer contents (lenZ contents) options =
    match array_calloc tt 1 480, carquet_arena_init with
    | Some _, (CARQUET_OK, arena) =>
        opened (read_footer_mmap ((new_reader options arena 0)<| fr_mmap_data := Some contents |><| fr_file_size := lenZ contents |>))
    | _, _ => Some None
    end.
Proof.
  intros H0. unfold carquet_reader_open_buffer. destruct (Z.eqb_spec (lenZ contents) 0); [done|]. destruct (array_calloc tt 1 480); [|done].
  destruct carquet_arena_init as [[] arena]; try done.
  unfold read_footer_mmap, PARQUET_MAGIC_LEN, PARQUET_FOOTER_SIZE_LEN. cbn [fr_mmap_data fr_file_size new_reader mbind option_bind]. change (4 * 2 + 4) with 12.
  unfold new_reader. cbn. unfold constant. destruct (lenZ contents <? 12); [done|].
  destruct (magic_at contents 0) as [[]|]; cbn [mbind option_bind negb]; [|done|done].
  destruct (magic_at contents (lenZ contents - 4)) as [[]|]; cbn [mbind option_bind negb]; [|done|done].
  destruct (ptr_at contents (lenZ contents - 8)) as [tail|]; cbn [mbind option_bind]; [|done]. destruct (carquet_read_u32_le tail) as [len|]; cbn [mbind option_bind]; [|done].
  destruct (len >? lenZ contents - 8); [done|]. by destruct (ptr_at contents (lenZ contents - 8 - len)).
Qed.

(** What a reader knows of its file. *)
Definition reader_view (r : option (option carquet_reader_t)) : option (option (parquet_file_metadata_t * option carquet_schema_t * Z)) :=
  option_map (option_map (λ t, (fr_metadata t, fr_schema t, fr_file_size t))) r.

Lemma parse_footer_view r r' data n : fr_arena r = fr_arena r' -> fr_metadata r = fr_metadata r' -> fr_file_size r = fr_file_size r' ->
  reader_view (opened (parse_footer r data n)) = reader_view (opened (parse_footer r' data n)).
Proof.
  intros Ha Hm Hs. unfold parse_footer. rewrite <- Ha, <- Hm.
  destruct (parquet_parse_file_metadata (Some data) n (fr_arena r) (fr_metadata r)) as [[[status m] a]|]; [|done]. cbn [mbind option_bind].
  destruct r as [f o d z i ar me sc op pb io], r' as [f' o' d' z' i' ar' me' sc' op' pb' io']. cbn in *. unfold constant. subst.
  destruct (is_ok status) eqn:E; cbn [negb]; [|unfold opened, reader_view; cbn; by rewrite E].
  destruct (build_schema a m) as [[[s|] a']|]; done.
Qed.

Lemma serves_stream f contents : stream_serves F f contents -> stream_of F f contents.
Proof. intros [_ ST _ SR]. split; [by intros _|]. intros off n Ho Hn. by rewrite SR. Qed.

(** ** A file as its writer leaves it *)

Definition file_bytes (body footer : list Z) : list Z := PARQUET_MAGIC ++ body ++ footer ++ le_bytes 4 (lenZ footer) ++ PARQUET_MAGIC.

Lemma file_bytes_ok body footer : bytes_ok body -> bytes_ok footer -> bytes_ok (file_bytes body footer).
Proof.
  intros Hb Hf. assert (bytes_ok PARQUET_MAGIC) as Hm by (repeat constructor; done). unfold file_bytes.
  rewrite !Forall_app. repeat split; try done. apply le_bytes_ok.
Qed.

Lemma file_bytes_tail body footer : bytes_ok footer -> lenZ (file_bytes body footer) < 2 ^ 32 ->
  let contents := file_bytes body footer in
  footer_length contents = lenZ footer /\ tail_ok contents /\ magic_at contents 0 = Some true /\ footer_bytes contents = footer.
Proof.
  intros Hf HL contents. assert (lenZ contents = 4 + lenZ body + lenZ footer + 8) as L by (unfold contents, file_bytes; rewrite !length_app, length_le_bytes; cbn; lia).
  assert (drop (length contents - 8) contents = le_bytes 4 (lenZ footer) ++ PARQUET_MAGIC) as T8.
  { unfold contents, file_bytes. rewrite !app_assoc, <- (app_assoc _ (le_bytes _ _)). rewrite drop_app_length'; [done|]. rewrite !length_app, length_le_bytes. cbn. lia. }
  assert (footer_length contents = lenZ footer) as FL.
  { unfold footer_length. rewrite T8. rewrite take_app_length' by (by rewrite length_le_bytes). rewrite le_val_bytes. change (8 * Z.of_nat 4) with 32. apply Z.mod_small. fold contents in HL. lia. }
  assert (magic_at contents (lenZ contents - 4) = Some true) as M1.
  { replace (lenZ contents - 4) with (lenZ contents - 8 + 4) by lia. rewrite <- magic_at_drop by lia. replace (Z.to_nat (lenZ contents - 8)) with (length contents - 8)%nat by lia. rewrite T8.
    unfold magic_at. replace (le_bytes 4 (lenZ footer) ++ PARQUET_MAGIC) with (le_bytes 4 (lenZ footer) ++ PARQUET_MAGIC ++ []) by (by rewrite app_nil_r).
    rewrite (rd_n_middle _ PARQUET_MAGIC) by (rewrite ?length_le_bytes; reflexivity). reflexivity. }
  split; [done|]. split; [unfold tail_ok; split; [lia|]; split; [done|lia]|]. split.
  { unfold magic_at, contents, file_bytes. by rewrite (rd_n_middle [] PARQUET_MAGIC (body ++ footer ++ le_bytes 4 (lenZ footer) ++ PARQUET_MAGIC) 0 PARQUET_MAGIC_LEN eq_refl eq_refl : rd_n (PARQUET_MAGIC ++ _) 0 PARQUET_MAGIC_LEN = Some PARQUET_MAGIC). }
  unfold footer_bytes, footer_start. rewrite FL. replace (lenZ contents - 8 - lenZ footer) with (4 + lenZ body) by lia.
  unfold contents, file_bytes. rewrite (app_assoc PARQUET_MAGIC). rewrite drop_app_length' by (rewrite length_app; cbn [length PARQUET_MAGIC]; lia).
  apply take_app_length'. lia.
Qed.

End Open.

(** The schema read back has the elements, columns and levels of the schema written. *)
Definition same_schema (s t : carquet_schema_t) : Prop :=
  let l := Z.to_nat (sch_num_leaves s) in
  sch_num_elements t = sch_num_elements s /\ sch_num_leaves t = sch_num_leaves s /\
  sch_parent_indices t = take (Z.to_nat (sch_num_elements s)) (sch_parent_indices s) /\
  sch_leaf_indices t = take l (sch_leaf_indices s) /\
  sch_max_def_levels t = take l (sch_max_def_levels s) /\ sch_max_rep_levels t = take l (sch_max_rep_levels s).

(** The reader holds the metadata [m] and the schema [s]. *)
Definition reads_back {F : FileIO} (m : parquet_file_metadata_t) (s : carquet_schema_t) (t : carquet_reader_t) : Prop :=
  fr_metadata t = read_file_metadata m /\ exists u, fr_schema t = Some u /\ same_schema s u.

Section Readback.
Context {Sp : AddressSpace} {F : FileIO}.
Variables (m : parquet_file_metadata_t) (s : carquet_schema_t).
Hypotheses (Hm : file_metadata_ok m) (K : schema_ok s) (O : depth_first (forest_of s)) (NE : no_empty_group (forest_of s))
  (HD : forall i, 0 <= i < sch_num_elements s -> lenZ (lineage (forest_of s) i) <= 100)
  (Em : fm_schema m = take (Z.to_nat (sch_num_elements s)) (sch_elements s)).

Lemma parse_footer_reads r data size : bytes_ok data -> 0 <= size <= lenZ data -> size < 2 ^ 63 ->
  take (Z.to_nat size) data = val_bytes (file_metadata_val m) -> arena_room (777 * size + 96 + 12 * sch_num_elements s) (fr_arena r) ->
  exists t, parse_footer r data size = Some (CARQUET_OK, t) /\ reads_back m s t.
Proof.
  intros Hb Hs Hl Ht HA. assert (lenZ (val_bytes (file_metadata_val m)) = size) as L by (rewrite <- Ht, length_take; lia).
  pose proof (ok_storage s K) as []. destruct (file_metadata_parses m data size [] (fr_arena r) (fr_metadata r) (Z.to_nat (96 + 12 * sch_num_elements s)))
    as (a & E & RA); [done|done|lia|done|by rewrite app_nil_r|rewrite L; eapply room_less; [exact HA|lia]|].
  unfold room_for in RA. destruct (schema_roundtrip s a m) as (u & a' & Eb & HR & HU); try done; [apply (room_ready _ _ RA); lia|]. unfold parse_footer. rewrite E. cbn [mbind option_bind is_ok negb].
  destruct r. cbn. unfold constant. rewrite Eb. cbn [mbind option_bind]. rewrite Z2Nat.id in RA by lia.
  destruct u as [u|]; [|by destruct (HR RA)]. eexists. split; [done|]. split; [done|]. exists u. split; [done|]. exact (HU u eq_refl).
Qed.

End Readback.

(** ** The theorems *)


(** C24: the ways to open a file agree.  For a file that starts with the magic number and
    whose footer fits the 64 KiB read ahead, a buffer and a stream that serves its requests
    give the same result: the same metadata, schema and size, or both a refusal. *)
Theorem open_paths_agree {Sp : AddressSpace} {Hp : ArrayHeap} {F : FileIO} contents f options : ArrayHeapTotal Hp -> stream_serves F f contents ->
  bytes_ok contents -> lenZ contents < 2 ^ 31 -> magic_at contents 0 = Some true -> footer_length contents + 8 <= CARQUET_FOOTER_SPECULATIVE_SIZE ->
  reader_view (carquet_reader_open_buffer contents (lenZ contents) options) = reader_view (carquet_reader_open_file f options).
Proof.
  intros T SS Hb HL HM HF. assert (lenZ contents <> 0) as H0 by (intros H0; destruct contents; [discriminate HM|discriminate H0]).
  rewrite open_buffer_mapped by done. unfold carquet_reader_open_file. rewrite array_calloc_total by done. destruct carquet_arena_init as [[] a]; try done.
  set (r := _<| fr_mmap_data := _ |><| fr_file_size := _ |>). set (r' := _<| fr_file := _ |>).
  destruct (mapped_footer r contents eq_refl eq_refl Hb) as [(st & -> & E & NT)|(T1 & _ & ->)];
    (destruct (stream_footer r' f contents eq_refl (serves_stream f contents SS) Hb ltac:(lia)) as [(st' & t & -> & E' & NT')|(T2 & -> & D1 & D2 & D3)]).
  - unfold opened, reader_view. cbn. by rewrite E, E'.
  - by destruct NT.
  - by destruct (NT' T SS HL).
  - unfold footer_data. replace (footer_length contents + 8 <=? _) with true by lia. cbn [andb negb]. apply parse_footer_view; done.
Qed.

(** C6: a file read back.  A writer that went depth first built the schema [s], left no
    group empty and nested at most 100 levels; its footer [m], within the limits of the
    reader, was written behind [body], and length and magic number behind that.  Opened from
    a buffer, and through a stream that serves its requests, the file gives the metadata
    [read_file_metadata m], that is [m] up to what the format normalises, and a schema with
    the same elements in the same places, the same columns and the same levels. *)
Theorem file_roundtrip {A : Allocator} {AOk : AllocatorOk A} {Sp : AddressSpace} {Hp : ArrayHeap} {F : FileIO} m s b b' body arena options :
  file_metadata_ok m -> schema_ok s -> depth_first (forest_of s) -> no_empty_group (forest_of s) ->
  (forall i, 0 <= i < sch_num_elements s -> lenZ (lineage (forest_of s) i) <= 100) ->
  fm_schema m = take (Z.to_nat (sch_num_elements s)) (sch_elements s) ->
  buffer_wf b -> buf_bytes b = [] -> parquet_write_file_metadata m b = Some (CARQUET_OK, b') ->
  let contents := file_bytes body (buf_bytes b') in
  bytes_ok body -> lenZ contents < 2 ^ 31 -> ArrayHeapTotal Hp ->
  carquet_arena_init = (CARQUET_OK, arena) -> arena_room (777 * lenZ (buf_bytes b') + 96 + 12 * sch_num_elements s) arena ->
  let good r := exists t, r = Some (Some t) /\ reads_back m s t /\ fr_is_open t = true in
  good (carquet_reader_open_buffer contents (lenZ contents) options) /\
  (forall f, stream_serves F f contents -> good (carquet_reader_open_file f options)).
Proof.
  intros Hm K O NE HD Em Hb Hb0 HW contents Hbody HL T Ha HA good.
  destruct (written _ _ b 6 (emits_file_metadata m Hm) (depth_file_metadata m)) as (st & b1 & E & W & H & _); [lia|done|].
  change (parquet_write_file_metadata m b = Some (st, b1)) in E. rewrite HW in E. injection E as <- <-. specialize (H eq_refl). rewrite Hb0 in H. cbn [app] in H.
  pose proof (buf_bytes_ok b' W) as Hf. assert (bytes_ok contents) as Hc by (by apply file_bytes_ok).
  destruct (file_bytes_tail body (buf_bytes b') Hf ltac:(fold contents; lia)) as (FL & TO & M0 & FB). fold contents in FL, TO, M0, FB.
  destruct (footer_data_ok contents Hc TO) as (D1 & D2 & D3).
  assert (forall r data, fr_arena r = arena -> bytes_ok data -> footer_length contents <= lenZ data -> take (Z.to_nat (footer_length contents)) data = buf_bytes b' ->
    good (opened (parse_footer r data (footer_length contents)))) as Good.
  { intros r data Er Hd Hl Ht. destruct (parse_footer_reads m s Hm K O NE HD Em r data (footer_length contents)) as (t & E & RB);
      [done|lia|lia|by rewrite Ht|by rewrite Er, FL|]. rewrite E. unfold opened. cbn [mbind option_bind is_ok]. eexists. split; [done|]. by destruct t. }
  split.
  - rewrite open_buffer_mapped by (destruct TO; lia). rewrite array_calloc_total, Ha by done.
    set (r := _<| fr_mmap_data := _ |><| fr_file_size := _ |>). destruct (mapped_footer r contents eq_refl eq_refl Hc) as [(st & -> & _ & NT)|(_ & _ & ->)].
    + by destruct NT.
    + apply Good; [done|done|lia|exact FB].
  - intros f SS. unfold carquet_reader_open_file. rewrite array_calloc_total, Ha by done. cbv zeta. set (r := _<| fr_file := _ |>).
    destruct (stream_footer r f contents eq_refl (serves_stream f contents SS) Hc ltac:(lia)) as [(st & t & -> & _ & NT)|(_ & -> & E1 & E2 & E3)].
    + by destruct (NT T SS HL).
    + apply Good; [done|done|lia|by rewrite E3].
Qed.

(** The bytes that are read, and bytes they are. *)
Lemma read_bytes_spec {Hp : ArrayHeap} {F : FileIO} contents r offset size : reader_ok contents r -> lenZ contents < 2 ^ 63 ->
  exists status p, reader_read_bytes r offset size = Some (status, p) /\
    match p with
    | Some bs => status = CARQUET_OK /\ 0 < size /\ 0 <= offset <= lenZ contents - size /\ take (Z.to_nat size) bs = take (Z.to_nat size) (drop (Z.to_nat offset) contents) /\
        (bytes_ok contents -> (forall data, fr_mmap_data r = Some data -> bytes_ok data) -> bytes_ok bs)
    | None => is_ok status = false
    end /\
    (0 < size -> 0 <= offset <= lenZ contents - size ->
      (fr_mmap_data r <> None \/ ArrayHeapTotal Hp /\ size < 2 ^ 31 /\ forall f, fr_file r = Some f -> stream_serves F f contents) -> p <> None).
Proof.
  intros [RS RD _] HL. unfold reader_read_bytes. rewrite !Z.gtb_ltb, RS.
  destruct (Z.leb_spec size 0); [eexists _, _; split; [done|]; split; [done|lia]|].
  destruct (Z.ltb_spec offset 0); [eexists _, _; split; [done|]; split; [done|lia]|].
  destruct (Z.ltb_spec (2 ^ 63 - 1 - size) offset); [eexists _, _; split; [done|]; split; [done|lia]|].
  destruct (Z.ltb_spec (lenZ contents) offset); [eexists _, _; split; [done|]; split; [done|lia]|].
  destruct (Z.ltb_spec (lenZ contents - offset) size); [eexists _, _; split; [done|]; split; [done|lia]|]. cbn [orb].
  destruct (fr_mmap_data r) as [data|].
  - pose proof (f_equal length RD) as L. rewrite length_take in L. rewrite ptr_at_Some by lia. cbn [mbind option_bind]. eexists _, _. split; [done|].
    split; [|done]. split; [done|]. split; [done|]. split; [lia|]. split; [|intros _ Hd; apply Forall_drop, (Hd _ eq_refl)]. transitivity (take (Z.to_nat size) (drop (Z.to_nat offset) (take (length contents) data))); [|by rewrite RD]. rewrite skipn_firstn_comm, take_take. f_equal. lia.
  - destruct RD as (f & -> & SO). destruct (fetch f offset size) as [st|bs] eqn:E; (eexists _, _; split; [done|]).
    + split; [exact (fetch_error _ _ _ _ E)|]. intros _ _ [?|(T & Hs & SS)]; [done|].
      by rewrite (fetch_serves f contents offset size T (SS f eq_refl)) in E by lia.
    + destruct (fetch_inv f contents offset size bs SO) as (L & _ & ->); [lia|lia|done|]. split; [|done]. rewrite take_take, Nat.min_id. split; [done|]. split; [done|]. split; [lia|]. split; [done|]. intros Hc _. by apply Forall_take, Forall_drop.
Qed.

(** C17: reads behind the footer stay inside the file.  For any offset and size a hostile
    footer asks for, [reader_read_bytes] on an open reader ends with every access in bounds;
    what it returns on success starts with the bytes of the file at that offset, and a range
    that is not inside the file is refused.  A range inside is refused only when a seek, a
    read or an allocation fails, never for a mapped file. *)
Theorem read_bytes_exact {Hp : ArrayHeap} {F : FileIO} contents r offset size : reader_ok contents r -> lenZ contents < 2 ^ 63 ->
  exists status p, reader_read_bytes r offset size = Some (status, p) /\
    match p with
    | Some bs => status = CARQUET_OK /\ 0 < size /\ 0 <= offset <= lenZ contents - size /\ take (Z.to_nat size) bs = take (Z.to_nat size) (drop (Z.to_nat offset) contents)
    | None => is_ok status = false
    end /\
    (0 < size -> 0 <= offset <= lenZ contents - size ->
      (fr_mmap_data r <> None \/ ArrayHeapTotal Hp /\ size < 2 ^ 31 /\ forall f, fr_file r = Some f -> stream_serves F f contents) -> p <> None).
Proof.
  intros K HL. destruct (read_bytes_spec contents r offset size K HL) as (status & p & E & H & HQ). exists status, p. split; [done|]. split; [|done].
  destruct p; [|done]. destruct H as (? & ? & ? & ? & _). done.
Qed.

(** The addition on line 328 is one of 32 bits: with a length field of 2^32 - 4 in a file of
    4 GiB and more, the footer passes for one inside the read ahead, and its data is taken
    before the buffer. *)
Theorem footer_length_wraps {Sp : AddressSpace} {Hp : ArrayHeap} {F : FileIO} f contents r : ArrayHeapTotal Hp -> stream_serves F f contents ->
  fr_file r = Some f -> 2 ^ 32 + 16 <= lenZ contents -> magic_at contents (lenZ contents - 4) = Some true -> footer_length contents = 2 ^ 32 - 4 ->
  read_footer r = None.
Proof.
  intros T SS Hf HL HM HF. unfold read_footer. rewrite Hf. cbn [mbind option_bind]. pose proof SS as [-> -> _ _]. cbn [negb].
  unfold PARQUET_MAGIC_LEN, PARQUET_FOOTER_SIZE_LEN, CARQUET_FOOTER_SPECULATIVE_SIZE. decide_bool. rewrite (fetch_serves f contents) by (done || lia).
  rewrite take_ge by (rewrite length_drop; lia). change (64 * 1024) with 65536. rewrite magic_at_drop by lia.
  replace (lenZ contents - 65536 + (65536 - 4)) with (lenZ contents - 4) by lia. rewrite HM. cbn [mbind option_bind negb].
  rewrite ptr_at_Some by (rewrite ?length_drop; lia). cbn [mbind option_bind]. rewrite drop_drop.
  replace (Z.to_nat (lenZ contents - 65536) + Z.to_nat (65536 - 8))%nat with (Z.to_nat (lenZ contents - 8)) by lia. rewrite tail_length, HF by lia. cbn [mbind option_bind].
  rewrite Z.gtb_ltb. decide_bool. done.
Qed.

(** ** The theorems at concrete files *)

(** Files kept in memory, which can be mapped as well as read. *)
Definition memory_io (disk : list Z -> option (list Z)) : FileIO := {|
  FILE := list Z; fopen := disk; mmap_open := disk; seek_end _ := true; tell_end f := lenZ f; seek_set _ _ := true;
  file_read f off n := take (Z.to_nat n) (drop (Z.to_nat off) f) |}.

Lemma memory_io_serves disk f : stream_serves (memory_io disk) f f.
Proof. by split. Qed.

Definition arena_64k : carquet_arena_t := Eval vm_compute in (carquet_arena_init (Sp := upward_space)).2.

Lemma arena_64k_room : arena_room (Sp := upward_space) (2 ^ 27) arena_64k.
Proof.
  apply (low_room 0); [|by eexists|lia|lia]. split; [|cbn; lia|vm_compute; congruence].
  apply Forall_singleton. vm_compute. repeat split; congruence.
Qed.

(** The sample schema, the buffer its footer is written to, and a file with nothing else. *)
Definition sample_buffer : option carquet_buffer_t :=
  s ← sample_schema; snd <$> parquet_write_file_metadata (A := limited_alloc (2 ^ 64)) (footer_of s) carquet_buffer_init.

Definition sample_file : list Z := match sample_buffer with Some b => file_bytes [] (buf_bytes b) | None => [] end.

Lemma file_roundtrip_witness : exists s t,
  sample_schema = Some s /\ carquet_reader_open_file (Sp := upward_space) (Hp := plain_heap) (F := memory_io Some) sample_file None = Some (Some t) /\
  fr_metadata t = read_file_metadata (footer_of s) /\ carquet_reader_num_columns t = Some 4.
Proof.
  pose proof sample_reach as R. destruct sample_schema as [s|] eqn:Es; [|destruct R].
  assert (schema_ok s) as K by (exact (proj1 (reach_ok (Sp := upward_space) (Hp := plain_heap) (Fl := exact_log10) s R))).
  assert (readable (forest_of s)) as RD by (apply (bool_decide_unpack _); injection Es as <-; vm_compute; exact I).
  destruct (readable_spec _ RD) as (O & NE & HD). rewrite <- (num_forest s K) in HD.
  assert (file_metadata_ok (footer_of s)) as Hm by (apply (bool_decide_unpack _); injection Es as <-; vm_compute; exact I).
  assert (exists b', parquet_write_file_metadata (A := limited_alloc (2 ^ 64)) (footer_of s) carquet_buffer_init = Some (CARQUET_OK, b') /\
    sample_file = file_bytes [] (buf_bytes b') /\ lenZ sample_file < 2 ^ 12 /\ sch_num_elements s = 10 /\ sch_num_leaves s = 4) as (b' & E & EF & HL & N & L).
  { injection Es as <-. eexists. split; [vm_compute; reflexivity|]. repeat split; vm_compute; reflexivity. }
  assert (lenZ (buf_bytes b') < 2 ^ 12) as HL'.
  { eapply Z.le_lt_trans; [|exact HL]. rewrite EF. unfold file_bytes. rewrite !length_app. lia. }
  destruct (file_roundtrip (A := limited_alloc (2 ^ 64)) (Sp := upward_space) (Hp := plain_heap) (F := memory_io Some) (footer_of s) s carquet_buffer_init b' [] arena_64k None
    Hm K O NE HD eq_refl init_wf eq_refl E (List.Forall_nil _)) as [_ G].
  - rewrite <- EF. apply (Z.lt_trans _ (2 ^ 12)); [exact HL|reflexivity].
  - exact plain_heap_total.
  - vm_compute. reflexivity.
  - rewrite N. intros used b size al Ra Hs Hu. apply (arena_64k_room used b size al Ra Hs). clear - Hu HL'. lia.
  - destruct (G (file_bytes [] (buf_bytes b')) (memory_io_serves Some _)) as (t & Et & (Em & u & Eu & _ & Lu & _) & _). exists s, t.
    split; [reflexivity|]. rewrite EF. split; [exact Et|]. split; [exact Em|]. unfold carquet_reader_num_columns. rewrite Eu. cbn. rewrite Lu, L. reflexivity.
Defined.

Lemma sample_file_bytes : bytes_ok sample_file /\ lenZ sample_file < 2 ^ 12.
Proof. split; [apply (bool_decide_unpack _); vm_compute; exact I|vm_compute; reflexivity]. Qed.


Lemma open_paths_agree_witness :
  reader_view (F := memory_io Some) (carquet_reader_open_buffer (Sp := upward_space) (Hp := plain_heap) (F := memory_io Some) sample_file (lenZ sample_file) None) =
  reader_view (carquet_reader_open_file (Sp := upward_space) (Hp := plain_heap) (F := memory_io Some) sample_file None).
Proof.
  destruct sample_file_bytes as [Hb HL]. apply (open_paths_agree (F := memory_io Some) sample_file sample_file None plain_heap_total (memory_io_serves Some sample_file) Hb).
  - exact (Z.lt_trans _ (2 ^ 12) (2 ^ 31) HL eq_refl).
  - vm_compute. reflexivity.
  - vm_compute. congruence.
Defined.

(** A reader over four bytes, two of which are asked for. *)
Lemma read_bytes_exact_witness : exists r p, reader_ok (F := memory_io Some) [5; 6; 7; 8] r /\
  reader_read_bytes (Hp := plain_heap) r 1 2 = Some (CARQUET_OK, Some p) /\ take 2 p = [6; 7].
Proof.
  set (el := mk_schema_element None 0 None None 0 None 0 0 None None). set (m := mk_file_metadata 2 [el] 0 [] [] None 0).
  assert (exists s a, build_schema (Sp := upward_space) arena_64k m = Some (Some s, a)) as (s & a & E) by (eexists _, _; vm_compute; reflexivity).
  destruct (build_schema_spec (Sp := upward_space) arena_64k m eq_refl ltac:(by eexists)) as (s' & a' & E' & H). rewrite E in E'. injection E' as <- <-. specialize (H s eq_refl).
  set (r := mk_file_reader (F := memory_io Some) None false (Some [5; 6; 7; 8]) 4 false a m (Some s) carquet_reader_options_init (mk_prebuffer None 0 0 0) true).
  assert (reader_ok (F := memory_io Some) [5; 6; 7; 8] r) as RO by (split; [reflexivity|reflexivity|exists s; split; [reflexivity|exact H]]).
  destruct (read_bytes_exact (Hp := plain_heap) (F := memory_io Some) [5; 6; 7; 8] r 1 2 RO ltac:(reflexivity)) as (st & p & E2 & H2 & H3).
  destruct p as [p|]; [|exfalso; apply H3; [lia|cbn; lia|by left|reflexivity]]. destruct H2 as (-> & _ & _ & H2). exists r, p. split; [exact RO|]. split; [exact E2|]. exact H2.
Defined.
