(* ===== verification/ValueOrder.v ===== *)
(** * The order of column values

    Statistics and predicates are compared as the bytes they are stored in.  This file has
    C's comparison of integers, of floats as bit patterns, and of byte strings, and what
    they amount to: every value has a [rank], a list of integers, and the comparisons are
    the lexicographic comparison of ranks.  A NaN has no rank. *)

From S2P Require Import Prelude Status Endian Memory.

#[local] Open Scope Z_scope.

(** ** Lexicographic comparison *)

Fixpoint lex (x y : list Z) : comparison :=
  match x, y with
  | [], [] => Eq
  | [], _ :: _ => Lt
  | _ :: _, [] => Gt
  | a :: x, b :: y => match a ?= b with Eq => lex x y | c => c end
  end.

Definition sgn (c : comparison) : Z := match c with Lt => -1 | Eq => 0 | Gt => 1 end.

Lemma lex_refl x : lex x x = Eq.
Proof. induction x as [|a x IH]; cbn; [done|]. by rewrite Z.compare_refl. Qed.

Lemma lex_eq x y : lex x y = Eq -> x = y.
Proof.
  revert y. induction x as [|a x IH]; intros [|b y]; cbn; try done.
  destruct (Z.compare_spec a b) as [->| |]; try done. intros H. by rewrite (IH y H).
Qed.

Lemma lex_antisym x y : lex y x = CompOpp (lex x y).
Proof.
  revert y. induction x as [|a x IH]; intros [|b y]; cbn; try done.
  rewrite (Z.compare_antisym a b). destruct (a ?= b); cbn; [apply IH|done|done].
Qed.

Lemma lex_lt_le_trans x y z : lex x y = Lt -> lex y z <> Gt -> lex x z = Lt.
Proof.
  revert y z. induction x as [|a x IH]; intros [|b y] [|c z]; cbn; try done.
  destruct (Z.compare_spec a b), (Z.compare_spec b c), (Z.compare_spec a c); try done; try lia. apply IH.
Qed.

Lemma lex_le_lt_trans x y z : lex x y <> Gt -> lex y z = Lt -> lex x z = Lt.
Proof.
  revert y z. induction x as [|a x IH]; intros [|b y] [|c z]; cbn; try done.
  destruct (Z.compare_spec a b), (Z.compare_spec b c), (Z.compare_spec a c); try done; try lia. apply IH.
Qed.

Lemma lex_le_trans x y z : lex x y <> Gt -> lex y z <> Gt -> lex x z <> Gt.
Proof.
  intros H1 H2. destruct (lex x y) eqn:E; [by apply lex_eq in E as -> | |done]. by rewrite (lex_lt_le_trans _ _ _ E H2).
Qed.

Lemma lex_le_antisym x y : lex x y <> Gt -> lex y x <> Gt -> x = y.
Proof. rewrite (lex_antisym x y). intros H1 H2. apply lex_eq. by destruct (lex x y). Qed.

(** Comparing the common prefix first, then the lengths. *)
Lemma lex_prefix n x y : (n = length x \/ n = length y) -> (n <= length x)%nat -> (n <= length y)%nat ->
  lex x y = match lex (take n x) (take n y) with Eq => (lenZ x ?= lenZ y) | c => c end.
Proof.
  revert x y. induction n as [|n IH]; intros [|a x] [|b y]; cbn [length take lex]; intros Hn Hx Hy; try lia; try done.
  - destruct (a ?= b) eqn:E; [|done|done]. rewrite (IH x y) by lia. destruct (lex (take n x) (take n y)); [|done|done].
    destruct (Z.compare_spec (lenZ x) (lenZ y)), (Z.compare_spec (Z.of_nat (S (length x))) (Z.of_nat (S (length y)))); (done || lia).
Qed.

(** ** Comparisons in C *)

(** [memcmp(a, b, n)]; C promises its sign only. *)
Definition memcmp (a b : list Z) (n : Z) : option Z :=
  x ← rd_n a 0 n; y ← rd_n b 0 n; Some (sgn (lex x y)).

(** [memcpy(&v, p, sizeof v)] for an unsigned [v] of [n] bytes; the host is little-endian. *)
Definition load (n : Z) (p : list Z) : option Z := le_val <$> rd_n p 0 n.

(** Binary floating point of [w] bits as bit patterns: the magnitude is what is below the
    sign bit, it orders like an integer, and a NaN is above infinity. *)
Definition float_inf (w : Z) : Z := if w =? 32 then 0x7F800000 else 0x7FF0000000000000.
Definition float_isnan (w bits : Z) : bool := float_inf w <? bits mod 2 ^ (w - 1).
Definition float_key (w bits : Z) : Z := if bits <? 2 ^ (w - 1) then bits else 2 ^ (w - 1) - bits.

(** [a < b] on floats: false when either is NaN, and the zeros are equal. *)
Definition float_lt (w a b : Z) : bool := negb (float_isnan w a) && negb (float_isnan w b) && (float_key w a <? float_key w b).

(** [(a > b) - (a < b)], which the code also writes [a < b ? -1 : (a > b ? 1 : 0)] *)
Definition CMP3 (lt : Z -> Z -> bool) (a b : Z) : Z := Z.b2z (lt b a) - Z.b2z (lt a b).

Lemma CMP3_int a b : CMP3 Z.ltb a b = sgn (lex [a] [b]).
Proof.
  unfold CMP3. cbn. destruct (Z.compare_spec a b), (Z.ltb_spec a b), (Z.ltb_spec b a); cbn; (done || lia).
Qed.

Lemma CMP3_float w a b : float_isnan w a = false -> float_isnan w b = false -> CMP3 (float_lt w) a b = sgn (lex [float_key w a] [float_key w b]).
Proof. intros Ha Hb. unfold CMP3, float_lt. rewrite Ha, Hb. cbn [negb andb]. exact (CMP3_int _ _). Qed.

Lemma CMP3_nan w a b : float_isnan w a || float_isnan w b = true -> CMP3 (float_lt w) a b = 0.
Proof. unfold CMP3, float_lt. by destruct (float_isnan w a), (float_isnan w b). Qed.

(** ** What a value is in the order of its column *)

Inductive cmp_kind_t := CMP_INT32_S | CMP_INT32_U | CMP_INT64_S | CMP_INT64_U | CMP_FLOAT | CMP_DOUBLE | CMP_BOOL | CMP_FLOAT16 | CMP_BYTES.

#[export] Instance cmp_kind_eq_dec : EqDecision cmp_kind_t.
Proof. solve_decision. Defined.

(** The bytes that a comparison of this kind looks at; [CMP_BYTES] looks at all there are. *)
Definition kind_width (kind : cmp_kind_t) : Z :=
  match kind with
  | CMP_BOOL => 1 | CMP_FLOAT16 => 2
  | CMP_INT32_S | CMP_INT32_U | CMP_FLOAT => 4
  | CMP_INT64_S | CMP_INT64_U | CMP_DOUBLE => 8
  | CMP_BYTES => 0
  end.

Definition float_rank (w bits : Z) : option (list Z) := if float_isnan w bits then None else Some [float_key w bits].

Definition rank (kind : cmp_kind_t) (bs : list Z) : option (list Z) :=
  match kind with
  | CMP_BOOL => b ← rd bs 0; Some [if b =? 0 then 0 else 1]
  | CMP_INT32_S => v ← load 4 bs; Some [i32 v]
  | CMP_INT32_U => v ← load 4 bs; Some [v]
  | CMP_INT64_S => v ← load 8 bs; Some [i64 v]
  | CMP_INT64_U => v ← load 8 bs; Some [v]
  | CMP_FLOAT => v ← load 4 bs; float_rank 32 v
  | CMP_DOUBLE => v ← load 8 bs; float_rank 64 v
  | CMP_FLOAT16 => h ← load 2 bs; v ← carquet_half_to_float h; float_rank 32 v
  | CMP_BYTES => Some bs
  end.

(** ** The six comparisons *)

Inductive carquet_compare_op_t :=
  CARQUET_COMPARE_EQ | CARQUET_COMPARE_NE | CARQUET_COMPARE_LT | CARQUET_COMPARE_LE | CARQUET_COMPARE_GT | CARQUET_COMPARE_GE.

(** [x op value], from how [x] compares with [value] *)
Definition holds (op : carquet_compare_op_t) (c : comparison) : bool :=
  match op, c with
  | CARQUET_COMPARE_EQ, Eq | CARQUET_COMPARE_NE, (Lt | Gt) | CARQUET_COMPARE_LT, Lt | CARQUET_COMPARE_LE, (Lt | Eq)
  | CARQUET_COMPARE_GT, Gt | CARQUET_COMPARE_GE, (Gt | Eq) => true
  | _, _ => false
  end.

(** [x] satisfies [x op value] in a column of this kind.  A NaN satisfies nothing but [!=]. *)
Definition satisfies (kind : cmp_kind_t) (op : carquet_compare_op_t) (x value : list Z) : Prop :=
  exists rx rv, rank kind x = Some rx /\ rank kind value = Some rv /\ holds op (lex rx rv) = true.

(** [lo] and [hi] bound [x]. *)
Definition above_min (kind : cmp_kind_t) (lo x : list Z) : Prop :=
  exists a rx, rank kind lo = Some a /\ rank kind x = Some rx /\ lex a rx <> Gt.
Definition below_max (kind : cmp_kind_t) (x hi : list Z) : Prop :=
  exists rx b, rank kind x = Some rx /\ rank kind hi = Some b /\ lex rx b <> Gt.

(** Every binary16 pattern widens. *)
Lemma half_total h : in_u 16 h -> exists f, carquet_half_to_float h = Some f.
Proof. intros H. destruct (half_to_float_exact h H) as (f & E & _). by exists f. Qed.

Lemma load_Some n bs : 0 <= n <= lenZ bs -> bytes_ok bs -> exists v, load n bs = Some v /\ 0 <= v < 2 ^ (8 * n).
Proof.
  intros Hn Hb. unfold load. rewrite rd_n_Some by lia. cbn. eexists. split; [done|].
  pose proof (le_val_bound (take (Z.to_nat n) (drop (Z.to_nat 0) bs)) ltac:(auto with bytes)) as B.
  by rewrite length_take, length_drop in B; replace (Z.of_nat _) with n in B by lia.
Qed.

Lemma load_take n m bs : 0 <= n <= m -> m <= lenZ bs -> load n (take (Z.to_nat m) bs) = load n bs.
Proof.
  intros Hn Hm. unfold load. rewrite !rd_n_Some by (rewrite ?length_take; lia). rewrite !drop_0, take_take. do 2 f_equal. f_equal. lia.
Qed.

Lemma load_inv n bs v : load n bs = Some v -> n <= lenZ bs.
Proof. unfold load. intros H. apply fmap_Some in H as (l & H & _). apply rd_n_inv in H as (_ & _ & H & _). lia. Qed.

(** A prefix that has a rank decides it. *)
Lemma load_prefix n m bs v : 0 <= m <= lenZ bs -> load n (take (Z.to_nat m) bs) = Some v -> n <= m /\ load n bs = Some v.
Proof.
  intros Hm H. pose proof (load_inv _ _ _ H) as L. rewrite length_take in L. pose proof H as H'. unfold load in H'.
  apply fmap_Some in H' as (l & E & _). pose proof (rd_n_inv _ _ _ _ E) as (_ & H0 & _). rewrite load_take in H by lia. split; [lia|done].
Qed.

Lemma load_1 bs : load 1 bs = rd bs 0.
Proof.
  unfold load. destruct bs as [|x bs]; [done|]. rewrite rd_n_Some by (cbn; lia). change (Some (x + 0) = Some x). by rewrite Z.add_0_r.
Qed.

(** ** Widening keeps the order of binary16 *)

(** The value of a binary16 pattern, in units of 2^-24; infinity is above all others. *)
Definition half_value (h : Z) : option Z :=
  if half_exp h =? 31 then
    if half_mant h =? 0 then Some (if h <? 2 ^ 15 then 2 ^ 152 else - 2 ^ 152) else None
  else Some (if h <? 2 ^ 15 then half_mag h else - half_mag h).

(** Magnitudes of binary32 patterns order like the patterns. *)
Lemma float_mag_step x : 0 <= x < float_inf 32 -> float_mag x < float_mag (x + 1).
Proof.
  intros Hx. change (float_inf 32) with (255 * 2 ^ 23) in Hx. unfold float_mag, float_exp, float_mant.
  set (e := x / 2 ^ 23). set (m := x mod 2 ^ 23). assert (x = e * 2 ^ 23 + m /\ 0 <= m < 2 ^ 23 /\ 0 <= e < 255) as (Ex & Bm & Be) by (unfold e, m; dlia).
  rewrite (Z.mod_small e) by lia. destruct (Z.eq_dec m (2 ^ 23 - 1)).
  - replace ((x + 1) / 2 ^ 23) with (e + 1) by dlia. replace ((x + 1) mod 2 ^ 23) with 0 by dlia. rewrite Z.mod_small by lia. decide_bool. rewrite Z.add_simpl_r.
    destruct (Z.eqb_spec e 0) as [->|]; [lia|]. pose proof (pow2_pos (e - 1) ltac:(lia)).
    assert (2 ^ e = 2 * 2 ^ (e - 1)) as -> by (rewrite <- Z.pow_succ_r by lia; f_equal; lia). nia.
  - replace ((x + 1) / 2 ^ 23) with e by dlia. replace ((x + 1) mod 2 ^ 23) with (m + 1) by dlia. rewrite (Z.mod_small e) by lia.
    destruct (Z.eqb_spec e 0); [lia|]. pose proof (pow2_pos (e - 1) ltac:(lia)). nia.
Qed.

Lemma float_mag_mono x y : 0 <= x -> x < y -> y <= float_inf 32 -> float_mag x < float_mag y.
Proof.
  intros Hx Hy Hm. replace y with (x + 1 + Z.of_nat (Z.to_nat (y - x - 1))) in * by lia. clear Hy. revert Hm. generalize (Z.to_nat (y - x - 1)) as n.
  induction n as [|n IH]; intros Hn; [rewrite Z.add_0_r; apply float_mag_step; lia|]. specialize (IH ltac:(lia)).
  pose proof (float_mag_step (x + 1 + Z.of_nat n) ltac:(lia)) as St. replace (x + 1 + Z.of_nat n + 1) with (x + 1 + Z.of_nat (S n)) in St by lia. lia.
Qed.

(** The pattern without its sign has the value of the half. *)
Lemma half_widens h v : in_u 16 h -> half_value h = Some v ->
  exists f x, carquet_half_to_float h = Some f /\ float_rank 32 f = Some [if h <? 2 ^ 15 then x else - x] /\ 0 <= x <= float_inf 32 /\
    v * 2 ^ 125 = if h <? 2 ^ 15 then float_mag x else - float_mag x.
Proof.
  intros Hh Hv. destruct (half_to_float_exact h Hh) as (f & E & Bf & Sg & H). exists f, (f mod 2 ^ 31). split; [done|]. unfold in_u in *.
  assert (float_mag (f mod 2 ^ 31) = float_mag f) as ->.
  { unfold float_mag, float_exp, float_mant. replace ((f mod 2 ^ 31 / 2 ^ 23) mod 2 ^ 8) with ((f / 2 ^ 23) mod 2 ^ 8) by dlia. by replace ((f mod 2 ^ 31) mod 2 ^ 23) with (f mod 2 ^ 23) by dlia. }
  assert (f mod 2 ^ 31 = float_exp f * 2 ^ 23 + float_mant f /\ 0 <= float_mant f < 2 ^ 23 /\ 0 <= float_exp f) as (Fx & Bm & Be) by (unfold float_exp, float_mant; dlia).
  assert (0 <= f mod 2 ^ 31 <= float_inf 32 /\ v * 2 ^ 125 = if h <? 2 ^ 15 then float_mag f else - float_mag f) as [B V].
  { change (float_inf 32) with (255 * 2 ^ 23). unfold half_value in Hv. destruct (half_exp h =? 31).
    - destruct H as [H1 H2]. destruct (Z.eqb_spec (half_mant h) 0) as [M|]; [|done]. split; [lia|]. rewrite M in H2.
      unfold float_mag. rewrite H1, H2. injection Hv as <-. by destruct (h <? 2 ^ 15).
    - destruct H as [H1 H2]. split; [lia|]. injection Hv as <-. rewrite H2. destruct (h <? 2 ^ 15); lia. }
  split; [|done]. unfold float_rank, float_isnan. change (32 - 1) with 31. replace (float_inf 32 <? f mod 2 ^ 31) with false by lia.
  do 3 f_equal. unfold float_key. change (32 - 1) with 31. destruct (Z.ltb_spec f (2 ^ 31)), (Z.ltb_spec h (2 ^ 15)); dlia.
Qed.

(** So halves compare like their values. *)
Lemma half_lex h k v w : in_u 16 h -> in_u 16 k -> half_value h = Some v -> half_value k = Some w ->
  exists a b, (f ← carquet_half_to_float h; float_rank 32 f) = Some a /\ (f ← carquet_half_to_float k; float_rank 32 f) = Some b /\ lex a b = lex [v] [w].
Proof.
  intros Hh Hk Ev Ew. destruct (half_widens h v Hh Ev) as (f & x & -> & Rf & Bx & V). destruct (half_widens k w Hk Ew) as (g & y & -> & Rg & By & W).
  eexists _, _. split; [exact Rf|]. split; [exact Rg|]. pose proof (float_mag_mono x y). pose proof (float_mag_mono y x).
  assert (forall z, 0 < z <= float_inf 32 -> 0 < float_mag z) as P by (intros z Hz; pose proof (float_mag_mono 0 z); change (float_mag 0) with 0 in *; lia).
  assert ((x = 0 -> float_mag x = 0) /\ (y = 0 -> float_mag y = 0) /\ (x = y -> float_mag x = float_mag y)) as (X0 & Y0 & XY) by (split; [by intros ->|split; by intros ->]).
  pose proof (P x). pose proof (P y). revert V W. generalize dependent (float_mag x). generalize dependent (float_mag y). intros my ? ? mx. intros.
  cbn [lex]. destruct (h <? 2 ^ 15), (k <? 2 ^ 15);
    match goal with |- match ?a ?= ?b with _ => _ end = _ => destruct (Z.compare_spec a b), (Z.compare_spec v w); (done || lia) end.
Qed.
