(* ===== verification/RowGroupFilter.v ===== *)
(** * Skipping row groups by their statistics (carquet/reader/statistics.c)

    A predicate [column op value] is compared with the bounds that the footer has for the
    column in a row group.  A group that the comparison rules out holds no value that
    satisfies the predicate. *)

From S2P Require Import Prelude Status Endian Memory Heap Arena ParquetTypes Schema SchemaRead FileReader FileOpen ValueOrder.

#[local] Open Scope Z_scope.

Definition CARQUET_PHYSICAL_FLOAT : Z := 4.
Definition CARQUET_PHYSICAL_DOUBLE : Z := 5.

(** ** The code *)

(** [None] is [false], a comparison that cannot be made; the argument lengths are [size_t]. *)
Definition stat_compare (kind : cmp_kind_t) (val : list Z) (val_len : Z) (st : list Z) (st_len : Z) : option (option Z) :=
  let scalar n (cmp : Z -> Z -> Z) :=
    if (val_len <? n) || (st_len <? n) then Some None else a ← load n val; b ← load n st; Some (Some (cmp a b)) in
  match kind with
  | CMP_BOOL => scalar 1 (λ a b, CMP3 Z.ltb (if a =? 0 then 0 else 1) (if b =? 0 then 0 else 1))
  | CMP_INT32_S => scalar 4 (λ a b, CMP3 Z.ltb (i32 a) (i32 b))
  | CMP_INT32_U => scalar 4 (CMP3 Z.ltb)
  | CMP_INT64_S => scalar 8 (λ a b, CMP3 Z.ltb (i64 a) (i64 b))
  | CMP_INT64_U => scalar 8 (CMP3 Z.ltb)
  | CMP_FLOAT => scalar 4 (CMP3 (float_lt 32))
  | CMP_DOUBLE => scalar 8 (CMP3 (float_lt 64))
  | CMP_FLOAT16 =>
      if (val_len <? 2) || (st_len <? 2) then Some None else
      ha ← load 2 val; hb ← load 2 st;
      a ← carquet_half_to_float ha; b ← carquet_half_to_float hb;
      Some (Some (CMP3 (float_lt 32) a b))
  | CMP_BYTES =>
      let min_len := if val_len <? st_len then val_len else st_len in
      cmp ← (if min_len >? 0 then memcmp val st min_len else Some 0);
      if negb (cmp =? 0) then Some (Some cmp) else Some (Some (CMP3 Z.ltb val_len st_len))
  end.

Definition converted_unsigned (converted_type : Z) : bool :=
  (converted_type =? CARQUET_CONVERTED_UINT_8) || (converted_type =? CARQUET_CONVERTED_UINT_16) ||
  (converted_type =? CARQUET_CONVERTED_UINT_32) || (converted_type =? CARQUET_CONVERTED_UINT_64).

(** [has_logical_type && logical_type.id == id] *)
Definition has_logical (elem : parquet_schema_element_t) (id : Z) : bool :=
  match se_logical_type elem with Some lt => lt_id lt =? id | None => false end.

Definition get_cmp_kind (elem : parquet_schema_element_t) (type : Z) : option cmp_kind_t :=
  is_unsigned ← (match se_logical_type elem with
                 | Some lt =>
                     if lt_id lt =? CARQUET_LOGICAL_INTEGER then negb <$> get_bool (lt_params lt) 1
                     else Some (match se_converted_type elem with Some ct => converted_unsigned ct | None => false end)
                 | None => Some (match se_converted_type elem with Some ct => converted_unsigned ct | None => false end)
                 end);
  Some (if type =? CARQUET_PHYSICAL_BOOLEAN then CMP_BOOL else
        if type =? CARQUET_PHYSICAL_INT32 then (if is_unsigned : bool then CMP_INT32_U else CMP_INT32_S) else
        if type =? CARQUET_PHYSICAL_INT64 then (if is_unsigned then CMP_INT64_U else CMP_INT64_S) else
        if type =? CARQUET_PHYSICAL_FLOAT then CMP_FLOAT else
        if type =? CARQUET_PHYSICAL_DOUBLE then CMP_DOUBLE else
        if type =? CARQUET_PHYSICAL_FIXED_LEN_BYTE_ARRAY then
          (if has_logical elem CARQUET_LOGICAL_FLOAT16 then CMP_FLOAT16 else CMP_BYTES)
        else CMP_BYTES).

(** [has_min_max] with both bounds is one field here. *)
Record carquet_column_statistics_t := mk_column_statistics {
  cst_min_max : option ((list Z * Z) * (list Z * Z));
  cst_null_count : option Z;
  cst_distinct_count : option Z;
  cst_num_values : Z }.

Definition no_statistics (num_values : Z) : carquet_column_statistics_t := mk_column_statistics None None None num_values.

(** Both bounds there and not empty. *)
Definition both_bounds (lo hi : binary) : option ((list Z * Z) * (list Z * Z)) :=
  match lo.1, hi.1 with
  | Some a, Some b => if (lo.2 >? 0) && (hi.2 >? 0) then Some ((a, lo.2), (b, hi.2)) else None
  | _, _ => None
  end.

Section Filter.
Context {F : FileIO}.
Implicit Types reader : carquet_reader_t.

(** The status, and the statistics when it is [CARQUET_OK]. *)
Definition carquet_reader_column_statistics reader (row_group_index column_index : Z) : option (carquet_status_t * option carquet_column_statistics_t) :=
  if (row_group_index <? 0) || (row_group_index >=? lenZ (fm_row_groups (fr_metadata reader))) then Some (CARQUET_ERROR_ROW_GROUP_NOT_FOUND, None) else
  schema ← fr_schema reader;
  if (column_index <? 0) || (column_index >=? sch_num_leaves schema) then Some (CARQUET_ERROR_COLUMN_NOT_FOUND, None) else
  rg ← rd (fm_row_groups (fr_metadata reader)) row_group_index;
  if column_index >=? lenZ (rg_columns rg) then Some (CARQUET_ERROR_COLUMN_NOT_FOUND, None) else
  chunk ← rd (rg_columns rg) column_index;
  match cc_metadata chunk with
  | None => Some (CARQUET_OK, Some (no_statistics 0))
  | Some meta =>
      match cm_statistics meta with
      | None => Some (CARQUET_OK, Some (no_statistics (cm_num_values meta)))
      | Some pstats =>
          let bounds := match both_bounds (st_min_value pstats) (st_max_value pstats) with
                        | Some b => Some b
                        | None => both_bounds (st_min_deprecated pstats) (st_max_deprecated pstats)
                        end in
          Some (CARQUET_OK, Some (mk_column_statistics bounds (st_null_count pstats) (st_distinct_count pstats) (cm_num_values meta)))
      end
  end.

(** The switch at the end: is the group left in? *)
Definition might_match_bounds (op : carquet_compare_op_t) (cmp_min cmp_max : Z) : bool :=
  match op with
  | CARQUET_COMPARE_EQ => negb ((cmp_min <? 0) || (cmp_max >? 0))
  | CARQUET_COMPARE_NE => negb ((cmp_min =? 0) && (cmp_max =? 0))
  | CARQUET_COMPARE_LT => negb (cmp_min <=? 0)
  | CARQUET_COMPARE_LE => negb (cmp_min <? 0)
  | CARQUET_COMPARE_GT => negb (cmp_max >=? 0)
  | CARQUET_COMPARE_GE => negb (cmp_max >? 0)
  end.

(** The type a column is compared as. *)
Definition leaf_element reader (column_index : Z) : option parquet_schema_element_t :=
  schema ← fr_schema reader; schema_idx ← rd (sch_leaf_indices schema) column_index; rd (sch_elements schema) schema_idx.

Definition column_kind reader (column_index : Z) : option cmp_kind_t :=
  elem ← leaf_element reader column_index;
  get_cmp_kind elem (default CARQUET_PHYSICAL_BYTE_ARRAY (se_type elem)).

(** The status and [*might_match]. *)
Definition carquet_reader_row_group_matches reader (row_group_index column_index : Z) (op : carquet_compare_op_t) (value : list Z) (value_size : Z)
    : option (carquet_status_t * bool) :=
  '(status, stats) ← carquet_reader_column_statistics reader row_group_index column_index;
  match stats with
  | None => Some (status, true)
  | Some stats =>
      match cst_min_max stats with
      | None => Some (CARQUET_OK, true)
      | Some ((lo, lo_len), (hi, hi_len)) =>
          kind ← column_kind reader column_index;
          cmp_min ← stat_compare kind value (u64 value_size) lo (u64 lo_len);
          match cmp_min with
          | None => Some (CARQUET_OK, true)
          | Some cmp_min =>
              cmp_max ← stat_compare kind value (u64 value_size) hi (u64 hi_len);
              match cmp_max with
              | None => Some (CARQUET_OK, true)
              | Some cmp_max => Some (CARQUET_OK, might_match_bounds op cmp_min cmp_max)
              end
          end
      end
  end.

(** The loop over the row groups from [i] on, [n] of them left; the indices stored are
    returned in order. *)
Fixpoint filter_row_groups_from reader (column_index : Z) (op : carquet_compare_op_t) (value : list Z) (value_size max_indices : Z) (n : nat) (i num_matching : Z)
    : option (list Z) :=
  match n with
  | O => Some []
  | S n =>
      if negb (num_matching <? max_indices) then Some [] else
      '(status, might_match) ← carquet_reader_row_group_matches reader i column_index op value value_size;
      let might_match := if is_ok status then might_match else true in
      if might_match : bool
      then rest ← filter_row_groups_from reader column_index op value value_size max_indices n (i + 1) (num_matching + 1); Some (i :: rest)
      else filter_row_groups_from reader column_index op value value_size max_indices n (i + 1) num_matching
  end.

(** The return value, and the array after the call; it has [max_indices] cells. *)
Definition carquet_reader_filter_row_groups reader (column_index : Z) (op : carquet_compare_op_t) (value : list Z) (value_size : Z) (matching_indices : list Z) (max_indices : Z)
    : option (Z * list Z) :=
  if max_indices <=? 0 then Some (-1, matching_indices) else
  let num_row_groups := carquet_reader_num_row_groups reader in
  found ← filter_row_groups_from reader column_index op value value_size max_indices (Z.to_nat num_row_groups) 0 0;
  matching_indices ← wr_n matching_indices 0 found;
  Some (lenZ found, matching_indices).

End Filter.

(** ** The order of a column, by the annotations of its type

    As the format defines it, not as the code chooses it: what the bytes of a value stand
    for, [None] when they are too few or a NaN. *)

Definition order := list Z -> option (list Z).

(** An integer type is unsigned by its logical type, or without one by its converted type.
    Annotations that contradict each other say nothing. *)
Definition unsigned_type (e : parquet_schema_element_t) : option bool :=
  let converted := match se_converted_type e with
                   | Some ct => bool_decide (ct ∈ [CARQUET_CONVERTED_UINT_8; CARQUET_CONVERTED_UINT_16; CARQUET_CONVERTED_UINT_32; CARQUET_CONVERTED_UINT_64])
                   | None => false
                   end in
  match se_logical_type e with
  | None => Some converted
  | Some lt =>
      if lt_id lt =? CARQUET_LOGICAL_INTEGER then (λ is_signed, is_signed =? 0) <$> rd (lt_params lt) 1
      else if converted then None else Some false
  end.

(** Annotated so, by the logical type or without one by the converted type. *)
Definition annotated_as (e : parquet_schema_element_t) (logical_id converted : Z) : bool :=
  match se_logical_type e with
  | Some lt => lt_id lt =? logical_id
  | None => bool_decide (se_converted_type e = Some converted)
  end.

Definition is_decimal (e : parquet_schema_element_t) : bool := annotated_as e CARQUET_LOGICAL_DECIMAL CARQUET_CONVERTED_DECIMAL.
Definition is_interval (e : parquet_schema_element_t) : bool := annotated_as e CARQUET_LOGICAL_INTERVAL CARQUET_CONVERTED_INTERVAL.
Definition is_float16 (e : parquet_schema_element_t) : bool := match se_logical_type e with Some lt => lt_id lt =? CARQUET_LOGICAL_FLOAT16 | None => false end.

(** A decimal in bytes is a big-endian number in two's complement. *)
Definition big_endian (bs : list Z) : Z :=
  let v := le_val (reverse bs) in if 2 * v <? 2 ^ (8 * lenZ bs) then v else v - 2 ^ (8 * lenZ bs).

(** The order of a column of this type; INT96 and INTERVAL have none. *)
Definition type_order (e : parquet_schema_element_t) : option order :=
  type ← se_type e;
  if type =? CARQUET_PHYSICAL_BOOLEAN then Some (λ bs, b ← rd bs 0; Some [if b =? 0 then 0 else 1]) else
  if type =? CARQUET_PHYSICAL_INT32 then unsigned ← unsigned_type e; Some (λ bs, v ← load 4 bs; Some [if unsigned : bool then v else i32 v]) else
  if type =? CARQUET_PHYSICAL_INT64 then unsigned ← unsigned_type e; Some (λ bs, v ← load 8 bs; Some [if unsigned : bool then v else i64 v]) else
  if type =? CARQUET_PHYSICAL_FLOAT then Some (λ bs, v ← load 4 bs; float_rank 32 v) else
  if type =? CARQUET_PHYSICAL_DOUBLE then Some (λ bs, v ← load 8 bs; float_rank 64 v) else
  if type =? CARQUET_PHYSICAL_BYTE_ARRAY then Some (if is_decimal e then λ bs, Some [big_endian bs] else λ bs, Some bs) else
  if type =? CARQUET_PHYSICAL_FIXED_LEN_BYTE_ARRAY then
    if is_interval e then None else
    Some (if is_float16 e then λ bs, h ← load 2 bs; v ← half_value h; Some [v]
          else if is_decimal e then λ bs, Some [big_endian bs]
          else λ bs, Some bs)
  else None.

(** The decimals that the code compares as byte strings. *)
Definition binary_decimal (e : parquet_schema_element_t) : bool :=
  is_decimal e && negb (is_float16 e) && bool_decide (se_type e = Some CARQUET_PHYSICAL_BYTE_ARRAY \/ se_type e = Some CARQUET_PHYSICAL_FIXED_LEN_BYTE_ARRAY).

(** [x op value]; [lo] at most [x]; [x] at most [hi]. *)
Definition meets (o : order) (op : carquet_compare_op_t) (x value : list Z) : Prop :=
  exists rx rv, o x = Some rx /\ o value = Some rv /\ holds op (lex rx rv) = true.
Definition at_least (o : order) (lo x : list Z) : Prop := exists a rx, o lo = Some a /\ o x = Some rx /\ lex a rx <> Gt.
Definition at_most (o : order) (x hi : list Z) : Prop := exists rx b, o x = Some rx /\ o hi = Some b /\ lex rx b <> Gt.

(** The bounds that the footer records: the new fields, or without both of them the
    deprecated ones.  An empty field counts as absent. *)
Definition field_is (b : binary) (v : list Z) : Prop := exists bs, b.1 = Some bs /\ 0 < b.2 /\ v = take (Z.to_nat b.2) bs.

Inductive recorded (st : parquet_statistics_t) (lo hi : list Z) : Prop :=
| recorded_new : field_is (st_min_value st) lo -> field_is (st_max_value st) hi -> recorded st lo hi
| recorded_old : ~ (exists a b, field_is (st_min_value st) a /\ field_is (st_max_value st) b) ->
    field_is (st_min_deprecated st) lo -> field_is (st_max_deprecated st) hi -> recorded st lo hi.

(** A value of column [c] in group [rg]: between the bounds recorded for it, if there are any. *)
Definition group_holds (m : parquet_file_metadata_t) (o : order) (rg c : Z) (x : list Z) : Prop :=
  forall g k cm st lo hi, rd (fm_row_groups m) rg = Some g -> rd (rg_columns g) c = Some k -> cc_metadata k = Some cm -> cm_statistics cm = Some st ->
  recorded st lo hi -> at_least o lo x /\ at_most o x hi.

Lemma converted_unsigned_spec ct :
  bool_decide (ct ∈ [CARQUET_CONVERTED_UINT_8; CARQUET_CONVERTED_UINT_16; CARQUET_CONVERTED_UINT_32; CARQUET_CONVERTED_UINT_64]) = converted_unsigned ct.
Proof.
  unfold converted_unsigned. case_bool_decide as C; [by repeat (apply elem_of_cons in C as [->|C]); [..|apply not_elem_of_nil in C]|].
  repeat (apply not_elem_of_cons in C as [? C]). symmetry. rewrite !orb_false_iff, !Z.eqb_neq. done.
Qed.

(** The code's choice of a comparison is that order. *)
Lemma kind_of_order e o kind : type_order e = Some o -> binary_decimal e = false -> get_cmp_kind e (default CARQUET_PHYSICAL_BYTE_ARRAY (se_type e)) = Some kind ->
  (forall bs, o bs = rank kind bs) \/
  kind = CMP_FLOAT16 /\ forall bs, o bs = (h ← load 2 bs; v ← half_value h; Some [v]).
Proof.
  intros Ho Hd Hk. unfold get_cmp_kind in Hk. apply bind_Some in Hk as (u & Eu & Hk).
  assert (forall b, unsigned_type e = Some b -> b = u) as HU.
  { unfold unsigned_type. intros b. destruct (se_logical_type e) as [lt|].
    - destruct (lt_id lt =? CARQUET_LOGICAL_INTEGER).
      + unfold get_bool in Eu. destruct (rd (lt_params lt) 1); [|done]. cbn in Eu |- *. intros [= <-]. injection Eu as <-. by destruct (_ =? 0).
      + injection Eu as <-. destruct (se_converted_type e) as [ct|]; [|by intros [= <-]]. rewrite converted_unsigned_spec. by destruct (converted_unsigned ct); intros [= <-].
    - injection Eu as <-. destruct (se_converted_type e) as [ct|]; [rewrite converted_unsigned_spec|]; by intros [= <-]. }
  clear Eu. unfold type_order in Ho. unfold binary_decimal in Hd. destruct (se_type e) as [ty|]; [|done]. cbn [default from_option id mbind option_bind] in *.
  destruct (ty =? CARQUET_PHYSICAL_BOOLEAN); [injection Ho as <-; injection Hk as <-; by left|].
  destruct (ty =? CARQUET_PHYSICAL_INT32).
  { destruct (unsigned_type e) as [b|]; [|done]. rewrite (HU b eq_refl) in Ho. injection Ho as <-. injection Hk as <-. left. by destruct u. }
  destruct (ty =? CARQUET_PHYSICAL_INT64).
  { destruct (unsigned_type e) as [b|]; [|done]. rewrite (HU b eq_refl) in Ho. injection Ho as <-. injection Hk as <-. left. by destruct u. }
  destruct (ty =? CARQUET_PHYSICAL_FLOAT); [injection Ho as <-; injection Hk as <-; by left|].
  destruct (ty =? CARQUET_PHYSICAL_DOUBLE); [injection Ho as <-; injection Hk as <-; by left|].
  destruct (Z.eqb_spec ty CARQUET_PHYSICAL_BYTE_ARRAY) as [E6|].
  { rewrite E6 in *.  injection Ho as <-. injection Hk as <-. left. unfold is_float16 in Hd. destruct (is_decimal e) eqn:ED; [|done]. exfalso. revert Hd ED. unfold is_decimal, annotated_as.
    destruct (se_logical_type e) as [lt|]; [|done]. by destruct (Z.eqb_spec (lt_id lt) CARQUET_LOGICAL_DECIMAL) as [-> |]. }
  destruct (Z.eqb_spec ty CARQUET_PHYSICAL_FIXED_LEN_BYTE_ARRAY) as [E7|]; [|done]. rewrite E7 in *. destruct (is_interval e); [done|]. injection Ho as <-.
  unfold has_logical in Hk. fold (is_float16 e) in Hk. injection Hk as <-. destruct (is_float16 e); [by right|]. left. by destruct (is_decimal e).
Qed.

(** So it compares what it can. *)
Lemma order_rank e o kind x y rx ry : type_order e = Some o -> binary_decimal e = false -> get_cmp_kind e (default CARQUET_PHYSICAL_BYTE_ARRAY (se_type e)) = Some kind ->
  bytes_ok x -> bytes_ok y -> o x = Some rx -> o y = Some ry -> exists kx ky, rank kind x = Some kx /\ rank kind y = Some ky /\ lex kx ky = lex rx ry.
Proof.
  intros Ho Hd Hk Bx By Ox Oy. destruct (kind_of_order e o kind Ho Hd Hk) as [E|[-> E]]; [exists rx, ry; by rewrite <- !E|].
  rewrite E in Ox, Oy. apply bind_Some in Ox as (h & Eh & Ox). apply bind_Some in Ox as (v & Ev & [= <-]).
  apply bind_Some in Oy as (k & Ek & Oy). apply bind_Some in Oy as (w & Ew & [= <-]).
  assert (forall z bs, bytes_ok bs -> load 2 bs = Some z -> in_u 16 z) as B.
  { intros z bs Hb Hz. destruct (load_Some 2 bs) as (z' & Ez & Bz); [apply load_inv in Hz; lia|done|]. rewrite Hz in Ez. injection Ez as <-. exact Bz. }
  destruct (half_lex h k v w) as (a & b & Ra & Rb & L); [by apply (B h x)|by apply (B k y)|done|done|].
  exists a, b. cbn [rank]. rewrite Eh, Ek. cbn [mbind option_bind]. done.
Qed.

(** ** Comparison by rank *)

(** A scalar comparison that may be refused. *)
Lemma scalar_spec n cmp (f : Z -> option (list Z)) val vl st sl : 0 < n -> bytes_ok val -> bytes_ok st -> 0 <= vl <= lenZ val -> 0 <= sl <= lenZ st ->
  (forall a b ra rb, 0 <= a < 2 ^ (8 * n) -> 0 <= b < 2 ^ (8 * n) -> f a = Some ra -> f b = Some rb -> cmp a b = Some (sgn (lex ra rb))) ->
  (forall a b, 0 <= a < 2 ^ (8 * n) -> 0 <= b < 2 ^ (8 * n) -> is_Some (cmp a b)) ->
  exists r, (if (vl <? n) || (sl <? n) then Some None else a ← load n val; b ← load n st; c ← cmp a b; Some (Some c)) = Some r /\
    forall rv rs, (v ← load n (take (Z.to_nat vl) val); f v) = Some rv -> (v ← load n (take (Z.to_nat sl) st); f v) = Some rs -> r = Some (sgn (lex rv rs)).
Proof.
  intros Hn Bv Bs Hv Hs Hc Ht. destruct (Z.ltb_spec vl n), (Z.ltb_spec sl n); cbn [orb];
    try (eexists; split; [done|]; intros rv rs Ev Es; apply bind_Some in Ev as (x & Ev & _); apply bind_Some in Es as (y & Es & _);
         apply load_inv in Ev; apply load_inv in Es; rewrite length_take in Ev, Es; lia).
  destruct (load_Some n val) as (a & Ea & Ra); [lia|done|]. destruct (load_Some n st) as (b & Eb & Rb); [lia|done|].
  rewrite !load_take, Ea, Eb by lia. cbn [mbind option_bind]. destruct (Ht a b Ra Rb) as [c Ec]. rewrite Ec. cbn [mbind option_bind].
  eexists. split; [done|]. intros rv rs Ev Es. rewrite (Hc a b rv rs Ra Rb Ev Es) in Ec. by injection Ec as <-.
Qed.

Lemma float_rank_spec w a b ra rb : float_rank w a = Some ra -> float_rank w b = Some rb -> CMP3 (float_lt w) a b = sgn (lex ra rb).
Proof.
  unfold float_rank. destruct (float_isnan w a) eqn:Ea; [done|]. destruct (float_isnan w b) eqn:Eb; [done|].
  intros [= <-] [= <-]. by apply CMP3_float.
Qed.

Lemma stat_compare_spec kind val vl st sl : bytes_ok val -> bytes_ok st -> 0 <= vl <= lenZ val -> 0 <= sl <= lenZ st ->
  exists r, stat_compare kind val vl st sl = Some r /\
    forall rv rs, rank kind (take (Z.to_nat vl) val) = Some rv -> rank kind (take (Z.to_nat sl) st) = Some rs -> r = Some (sgn (lex rv rs)).
Proof.
  intros Bv Bs Hv Hs. destruct kind; unfold stat_compare, rank.
  1-6: apply (scalar_spec _ (λ a b, Some _)); try done; try lia; try (intros; by eexists); intros a b ra rb _ _;
    try (intros [= <-] [= <-]; by rewrite CMP3_int); intros Ha Hb; by rewrite (float_rank_spec _ _ _ ra rb).
  - destruct (scalar_spec 1 (λ a b, Some (CMP3 Z.ltb (if a =? 0 then 0 else 1) (if b =? 0 then 0 else 1))) (λ b, Some [if b =? 0 then 0 else 1]) val vl st sl) as (r & E & H);
      [lia|done|done|done|done|intros a b ra rb _ _ [= <-] [= <-]; by rewrite CMP3_int|intros; by eexists|].
    exists r. split; [exact E|]. intros rv rs Ev Es. apply H; by rewrite load_1.
  - destruct (scalar_spec 2 (λ ha hb, a ← carquet_half_to_float ha; b ← carquet_half_to_float hb; Some (CMP3 (float_lt 32) a b))
      (λ h, v ← carquet_half_to_float h; float_rank 32 v) val vl st sl) as (r & E & H); [lia|done|done|done|done| | |].
    + intros a b ra rb _ _ Ha Hb. apply bind_Some in Ha as (x & -> & Ha). apply bind_Some in Hb as (y & -> & Hb). cbn. by rewrite (float_rank_spec _ _ _ ra rb).
    + intros a b Ha Hb. destruct (half_total a Ha) as [x ->]. destruct (half_total b Hb) as [y ->]. by eexists.
    + exists r. split; [|exact H]. rewrite <- E. destruct ((vl <? 2) || (sl <? 2)); [done|]. destruct (load 2 val); [|done]. destruct (load 2 st); [|done].
      cbn. destruct (carquet_half_to_float z); [|done]. cbn. by destruct (carquet_half_to_float z0).
  - set (m := if vl <? sl then vl else sl). assert (0 <= m <= vl /\ m <= sl /\ (m = vl \/ m = sl)) as Hm by (unfold m; destruct (Z.ltb_spec vl sl); lia).
    assert ((if m >? 0 then memcmp val st m else Some 0) = Some (sgn (lex (take (Z.to_nat m) val) (take (Z.to_nat m) st)))) as ->.
    { rewrite Z.gtb_ltb. destruct (Z.ltb_spec 0 m); [|by replace (Z.to_nat m) with 0%nat by lia]. unfold memcmp. by rewrite !rd_n_Some by lia. }
    cbn [mbind option_bind]. assert (forall rv rs, Some (take (Z.to_nat vl) val) = Some rv -> Some (take (Z.to_nat sl) st) = Some rs ->
      lex rv rs = match lex (take (Z.to_nat m) val) (take (Z.to_nat m) st) with Eq => vl ?= sl | c => c end) as L.
    { intros rv rs [= <-] [= <-]. rewrite (lex_prefix (Z.to_nat m)) by (rewrite ?length_take; lia). rewrite !take_take, !length_take.
      replace (Z.to_nat m `min` Z.to_nat vl)%nat with (Z.to_nat m) by lia. replace (Z.to_nat m `min` Z.to_nat sl)%nat with (Z.to_nat m) by lia.
      by replace (Z.of_nat (Z.to_nat vl `min` length val)) with vl by lia; replace (Z.of_nat (Z.to_nat sl `min` length st)) with sl by lia. }
    destruct (lex (take (Z.to_nat m) val) (take (Z.to_nat m) st)); cbn [sgn Z.eqb negb]; (eexists; split; [done|]; intros rv rs Ev Es; rewrite (L rv rs Ev Es)); [|done|done].
    rewrite CMP3_int. cbn. by destruct (vl ?= sl).
Qed.

(** ** Soundness *)

(** No group is dropped whose bounds leave room for a value that satisfies the predicate. *)
Lemma bounds_sound op rv lo hi rx : lex lo rx <> Gt -> lex rx hi <> Gt -> holds op (lex rx rv) = true ->
  might_match_bounds op (sgn (lex rv lo)) (sgn (lex rv hi)) = true.
Proof.
  intros Hlo Hhi Ho. destruct op; cbn [might_match_bounds holds] in *.
  - destruct (lex rx rv) eqn:E; try done. apply lex_eq in E as ->. rewrite (lex_antisym lo rv) in *. destruct (lex lo rv), (lex rv hi); done.
  - destruct (lex rv lo) eqn:E1; [|done|done]. destruct (lex rv hi) eqn:E2; [|done|done]. apply lex_eq in E1 as ->. apply lex_eq in E2 as ->.
    by rewrite (lex_le_antisym rx hi Hhi Hlo), lex_refl in Ho.
  - assert (lex lo rv = Lt) as E by (apply (lex_le_lt_trans lo rx); [done|by destruct (lex rx rv)]). by rewrite (lex_antisym lo rv), E.
  - assert (lex lo rv <> Gt) as E by (apply (lex_le_trans lo rx); [done|by destruct (lex rx rv)]). rewrite (lex_antisym lo rv). by destruct (lex lo rv).
  - assert (lex rv rx = Lt) as E by (rewrite (lex_antisym rx rv); by destruct (lex rx rv)). by rewrite (lex_lt_le_trans rv rx hi E Hhi).
  - assert (lex rv rx <> Gt) as E by (rewrite (lex_antisym rx rv); by destruct (lex rx rv)).
    pose proof (lex_le_trans rv rx hi E Hhi) as E2. by destruct (lex rv hi).
Qed.

(** What a footer that a writer wrote satisfies. *)
Definition stored (b : binary) : Prop := match b.1 with Some bs => bytes_ok bs /\ b.2 <= lenZ bs /\ lenZ bs < 2 ^ 31 | None => True end.

Definition statistics_stored (st : parquet_statistics_t) : Prop :=
  stored (st_min_value st) /\ stored (st_max_value st) /\ stored (st_min_deprecated st) /\ stored (st_max_deprecated st).

Definition chunk_statistics (c : parquet_column_chunk_t) : option parquet_statistics_t := m ← cc_metadata c; cm_statistics m.

Record metadata_stored (m : parquet_file_metadata_t) : Prop := {
  ms_elements : Forall (λ e, match se_logical_type e with Some lt => 2 <= lenZ (lt_params lt) | None => True end) (fm_schema m);
  ms_statistics : Forall (λ rg, Forall (λ c, match chunk_statistics c with Some st => statistics_stored st | None => True end) (rg_columns rg)) (fm_row_groups m) }.

Section Sound.
Context {F : FileIO} (contents : list Z) (reader : carquet_reader_t).
Hypotheses (RK : reader_ok contents reader) (MS : metadata_stored (fr_metadata reader)).

Lemma both_bounds_stored lo hi b : stored lo -> stored hi -> both_bounds lo hi = Some b ->
  (bytes_ok b.1.1 /\ 0 < b.1.2 <= lenZ b.1.1 /\ b.1.2 < 2 ^ 31) /\ (bytes_ok b.2.1 /\ 0 < b.2.2 <= lenZ b.2.1 /\ b.2.2 < 2 ^ 31).
Proof.
  unfold both_bounds, stored. destruct lo as [[x|] n], hi as [[y|] k]; cbn; try done. rewrite !Z.gtb_ltb.
  destruct (Z.ltb_spec 0 n), (Z.ltb_spec 0 k); cbn; try done. intros (Bx & ? & ?) (By & ? & ?) [= <-]. cbn. repeat split; (done || lia).
Qed.

Lemma both_bounds_fields lo hi :
  match both_bounds lo hi with
  | Some b => field_is lo (take (Z.to_nat b.1.2) b.1.1) /\ field_is hi (take (Z.to_nat b.2.2) b.2.1)
  | None => ~ (exists x y, field_is lo x /\ field_is hi y)
  end.
Proof.
  unfold both_bounds, field_is. destruct lo as [[x|] n], hi as [[y|] k]; cbn; try (intros (? & ? & (? & ? & _) & (? & ? & _)); congruence). rewrite !Z.gtb_ltb.
  destruct (Z.ltb_spec 0 n), (Z.ltb_spec 0 k); cbn; [split; eexists; done|..]; intros (? & ? & (? & ? & ? & _) & (? & ? & ? & _)); lia.
Qed.

Lemma leaf_element_total c s : fr_schema reader = Some s -> 0 <= c < sch_num_leaves s -> exists e, leaf_element reader c = Some e /\ e ∈ fm_schema (fr_metadata reader).
Proof.
  intros Es Hc. unfold leaf_element. rewrite Es. cbn. destruct (rk_schema _ _ RK) as (s' & Es' & [RE RN RL RC]). rewrite Es in Es'. injection Es' as <-.
  destruct (cx_leaf_indices _ _ _ RC) as [L F1]. cbn in L, F1. rewrite <- RL in L. destruct (rd_Some (sch_leaf_indices s) c) as [i Ei]; [lia|]. rewrite Ei. cbn.
  pose proof (rd_bound _ _ _ Ei). rewrite rd_lookup in Ei by lia. pose proof (Forall_lookup_1 _ _ _ _ F1 Ei) as Hi. cbn in Hi. rewrite RE.
  destruct (rd_Some (fm_schema (fr_metadata reader)) i) as [e Ee]; [lia|]. exists e. split; [done|]. rewrite rd_lookup in Ee by lia. by eapply list_elem_of_lookup_2.
Qed.

Lemma get_cmp_kind_total e type : e ∈ fm_schema (fr_metadata reader) -> exists k, get_cmp_kind e type = Some k.
Proof.
  intros He. pose proof (ms_elements _ MS) as H. rewrite list.Forall_forall in H. specialize (H e He). unfold get_cmp_kind.
  destruct (se_logical_type e) as [lt|]; [|by eexists]. destruct (lt_id lt =? CARQUET_LOGICAL_INTEGER); [|by eexists].
  unfold get_bool. destruct (rd_Some (lt_params lt) 1) as [b ->]; [lia|]. by eexists.
Qed.

(** The statistics of a column are found or refused, and their bounds are in their objects. *)
Lemma column_statistics_spec rg c : exists status st, carquet_reader_column_statistics reader rg c = Some (status, st) /\
  (is_ok status = false <-> st = None) /\
  forall s, st = Some s -> (exists sch, fr_schema reader = Some sch /\ 0 <= c < sch_num_leaves sch) /\
    match cst_min_max s with
    | Some b => ((bytes_ok b.1.1 /\ 0 < b.1.2 <= lenZ b.1.1 /\ b.1.2 < 2 ^ 31) /\ (bytes_ok b.2.1 /\ 0 < b.2.2 <= lenZ b.2.1 /\ b.2.2 < 2 ^ 31)) /\
        exists g k cm ps, rd (fm_row_groups (fr_metadata reader)) rg = Some g /\ rd (rg_columns g) c = Some k /\ cc_metadata k = Some cm /\
          cm_statistics cm = Some ps /\ recorded ps (take (Z.to_nat b.1.2) b.1.1) (take (Z.to_nat b.2.2) b.2.1)
    | None => True
    end.
Proof.
  unfold carquet_reader_column_statistics. rewrite !Z.geb_leb. destruct (rk_schema _ _ RK) as (s & Es & _).
  destruct (Z.ltb_spec rg 0); [by eexists _, _|]. destruct (Z.leb_spec (lenZ (fm_row_groups (fr_metadata reader))) rg); [by eexists _, _|]. cbn [orb]. rewrite Es. cbn [mbind option_bind].
  rewrite Z.geb_leb. destruct (Z.ltb_spec c 0); [by eexists _, _|]. destruct (Z.leb_spec (sch_num_leaves s) c); [by eexists _, _|]. cbn [orb].
  destruct (rd_Some (fm_row_groups (fr_metadata reader)) rg) as [g Eg]; [lia|]. rewrite Eg. cbn [mbind option_bind].
  rewrite Z.geb_leb. destruct (Z.leb_spec (lenZ (rg_columns g)) c); [by eexists _, _|]. destruct (rd_Some (rg_columns g) c) as [k Ek]; [lia|]. rewrite Ek. cbn [mbind option_bind].
  assert (exists sch, Some s = Some sch /\ 0 <= c < sch_num_leaves sch) as HS by (exists s; split; [done|lia]).
  destruct (cc_metadata k) as [m|] eqn:Em; [|eexists _, _; split; [done|]; split; [done|]; intros ? [= <-]; by split].
  destruct (cm_statistics m) as [st|] eqn:Et; [|eexists _, _; split; [done|]; split; [done|]; intros ? [= <-]; by split].
  eexists _, _. split; [done|]. split; [done|]. intros ? [= <-]. split; [done|]. cbn [cst_min_max].
  pose proof (ms_statistics _ MS) as HM. pose proof Eg as Eg'. pose proof Ek as Ek'. rewrite rd_lookup in Eg by lia. rewrite rd_lookup in Ek by lia. pose proof (Forall_lookup_1 _ _ _ _ (Forall_lookup_1 _ _ _ _ HM Eg) Ek) as HQ.
  cbn in HQ. unfold chunk_statistics in HQ. rewrite Em in HQ. cbn in HQ. rewrite Et in HQ. destruct HQ as (S1 & S2 & S3 & S4).
  pose proof (both_bounds_fields (st_min_value st) (st_max_value st)) as FN. pose proof (both_bounds_fields (st_min_deprecated st) (st_max_deprecated st)) as FO.
  destruct (both_bounds (st_min_value st) (st_max_value st)) as [b|] eqn:Eb.
  - split; [by apply (both_bounds_stored _ _ _ S1 S2 Eb)|]. exists g, k, m, st. do 4 (split; [done|]). apply recorded_new; apply FN.
  - destruct (both_bounds (st_min_deprecated st) (st_max_deprecated st)) as [b|] eqn:Eb'; [|done].
    split; [by apply (both_bounds_stored _ _ _ S3 S4 Eb')|]. exists g, k, m, st. do 4 (split; [done|]). apply recorded_old; [exact FN|apply FO..].
Qed.

Lemma row_group_matches_spec rg c op value : bytes_ok value -> lenZ value < 2 ^ 31 ->
  exists status m, carquet_reader_row_group_matches reader rg c op value (lenZ value) = Some (status, m) /\
    (is_ok status = false -> m = true) /\
    forall x e o, leaf_element reader c = Some e -> type_order e = Some o -> binary_decimal e = false -> bytes_ok x ->
      group_holds (fr_metadata reader) o rg c x -> meets o op x value -> m = true.
Proof.
  intros Bv Hv. unfold carquet_reader_row_group_matches. destruct (column_statistics_spec rg c) as (status & st & E & HN & HS). rewrite E. cbn [mbind option_bind].
  destruct st as [s|]; [|by eexists _, _]. destruct (HS s eq_refl) as ((sch & Esch & Hc) & HB). destruct (cst_min_max s) as [[lo hi]|] eqn:Emm; [|by eexists _, _].
  destruct lo as [lo ln], hi as [hi hn]. cbn in HB. destruct HB as (((B1 & B2 & B2') & (B3 & B4 & B4')) & HR). unfold column_kind.
  destruct (leaf_element_total c sch Esch Hc) as (e & Ee & He). rewrite Ee. cbn [mbind option_bind].
  destruct (get_cmp_kind_total e (default CARQUET_PHYSICAL_BYTE_ARRAY (se_type e)) He) as [kind Ek]. rewrite Ek. cbn [mbind option_bind].
  rewrite !u64_small by lia. destruct (stat_compare_spec kind value (lenZ value) lo ln) as (r1 & E1 & H1); [done|done|lia|lia|]. rewrite E1. cbn [mbind option_bind].
  destruct r1 as [c1|]; [|by eexists _, _]. destruct (stat_compare_spec kind value (lenZ value) hi hn) as (r2 & E2 & H2); [done|done|lia|lia|]. rewrite E2. cbn [mbind option_bind].
  destruct r2 as [c2|]; [|by eexists _, _]. eexists _, _. split; [done|]. split; [done|].
  intros x ? o [= <-] HO HD Bx HG (rx & rv & Rx & Rv & Ho). destruct HR as (g & k & cm & ps & R1 & R2 & R3 & R4 & R5).
  destruct (HG g k cm ps _ _ R1 R2 R3 R4 R5) as [(a & rx' & Ra & Rx' & Ha) (rx'' & b & Rx'' & Rb & Hb)].
  assert (rx' = rx) as -> by congruence. assert (rx'' = rx) as -> by congruence.
  destruct (order_rank e o kind value _ rv a HO HD Ek Bv (Forall_take _ _ _ B1) Rv Ra) as (kv & ka & K1 & K2 & L1).
  destruct (order_rank e o kind value _ rv b HO HD Ek Bv (Forall_take _ _ _ B3) Rv Rb) as (kv' & kb & K3 & K4 & L2).
  rewrite Nat2Z.id, firstn_all in H1, H2. injection (H1 kv ka K1 K2) as ->. injection (H2 kv' kb K3 K4) as ->. rewrite L1, L2. by apply (bounds_sound op rv a b rx).
Qed.

(** The loop keeps the groups that may match, in order, as many as there is room for. *)
Definition left_in (c : Z) (op : carquet_compare_op_t) (value : list Z) (rg : Z) : bool :=
  match carquet_reader_row_group_matches reader rg c op value (lenZ value) with
  | Some (status, m) => if is_ok status then m else true
  | None => true
  end.

Lemma filter_from_spec c op value max : bytes_ok value -> lenZ value < 2 ^ 31 -> forall n i k, 0 <= k <= max ->
  filter_row_groups_from reader c op value (lenZ value) max n i k =
    Some (take (Z.to_nat (max - k)) (List.filter (left_in c op value) (seqZ i (Z.of_nat n)))).
Proof.
  intros Bv Hv. induction n as [|n IH]; intros i k Hk; cbn [filter_row_groups_from]; [by destruct (Z.to_nat (max - k))|].
  destruct (Z.ltb_spec k max); cbn [negb]; [|by replace (Z.to_nat (max - k)) with 0%nat by lia].
  rewrite seqZ_cons by lia. replace (Z.pred (Z.of_nat (S n))) with (Z.of_nat n) by lia. rewrite <- Z.add_1_r. cbn [List.filter]. unfold left_in at 1.
  destruct (row_group_matches_spec i c op value Bv Hv) as (st & m & E & _). rewrite E. cbn [mbind option_bind].
  destruct (if is_ok st then m else true).
  - rewrite IH by lia. cbn [mbind option_bind]. replace (Z.to_nat (max - k)) with (S (Z.to_nat (max - (k + 1)))) by lia. done.
  - by rewrite IH by lia.
Qed.

End Sound.

Lemma sublist_List_filter {A} (P : A -> bool) l : List.filter P l `sublist_of` l.
Proof. induction l as [|x l IH]; cbn; [constructor|]. destruct (P x); by constructor. Qed.

(** ** The theorem *)

(** C20: skipping row groups is sound.  On an open reader whose footer holds its statistics
    in objects of their length, for any column, predicate and value, the filter ends with
    every access in bounds and stores, in their order, as many groups as there is room for.
    With room for all, every group is among them that may hold a match: in the order that
    the format gives the column's type ([type_order], from the annotations of its schema
    element), some value lies between the bounds that the footer records for the group and
    satisfies the predicate.  Decimals stored in bytes are excluded: the code compares them
    as strings ([binary_decimal_drops_group]). *)
Theorem row_group_filter_sound {F : FileIO} contents reader column_index op value cells max_indices :
  reader_ok contents reader -> metadata_stored (fr_metadata reader) -> bytes_ok value -> lenZ value < 2 ^ 31 -> 0 < max_indices <= lenZ cells ->
  exists found cells', carquet_reader_filter_row_groups reader column_index op value (lenZ value) cells max_indices = Some (lenZ found, cells') /\
    cells' = found ++ drop (length found) cells /\ lenZ found <= max_indices /\
    found `sublist_of` seqZ 0 (carquet_reader_num_row_groups reader) /\
    (carquet_reader_num_row_groups reader <= max_indices ->
      forall s i e o, fr_schema reader = Some s -> rd (sch_leaf_indices s) column_index = Some i -> rd (fm_schema (fr_metadata reader)) i = Some e ->
      type_order e = Some o -> binary_decimal e = false ->
      forall rg x, 0 <= rg < carquet_reader_num_row_groups reader -> bytes_ok x ->
        group_holds (fr_metadata reader) o rg column_index x -> meets o op x value -> rg ∈ found).
Proof.
  intros RK MS Bv Hv Hm. unfold carquet_reader_filter_row_groups. decide_bool. set (n := carquet_reader_num_row_groups reader).
  assert (0 <= n) as Hn by (unfold n, carquet_reader_num_row_groups; lia).
  rewrite (filter_from_spec contents reader RK MS column_index op value max_indices Bv Hv (Z.to_nat n) 0 0) by lia. rewrite Z2Nat.id, Z.sub_0_r by lia. cbn [mbind option_bind].
  set (kept := List.filter (left_in reader column_index op value) (seqZ 0 n)). set (found := take (Z.to_nat max_indices) kept).
  assert (lenZ found <= max_indices) as HL by (unfold found; rewrite length_take; lia).
  rewrite wr_n_Some by lia. cbn [mbind option_bind Z.to_nat take app]. exists found, (found ++ drop (length found) cells). rewrite Z.add_0_l, Nat2Z.id.
  split; [done|]. split; [done|]. split; [done|]. split.
  - transitivity kept; [apply sublist_take|apply sublist_List_filter].
  - intros HA s i e o Es Ei Ee HO HD rg x Hr Bx HG HS. unfold found. rewrite take_ge.
    + apply list_elem_of_In, filter_In. split; [apply list_elem_of_In, elem_of_seqZ; lia|]. unfold left_in.
      destruct (row_group_matches_spec contents reader RK MS rg column_index op value Bv Hv) as (st & m & -> & _ & H). rewrite (H x e o); [by destruct (is_ok st)| |done..]. unfold leaf_element. rewrite Es. cbn [mbind option_bind]. rewrite Ei. cbn [mbind option_bind].
      destruct (rk_schema _ _ RK) as (s' & Es' & RO). rewrite Es in Es'. injection Es' as <-. by rewrite (ro_elements _ _ RO).
    + transitivity (length (seqZ 0 n)); [apply List.filter_length_le|rewrite length_seqZ; lia].
Qed.

(** ** Concrete groups *)

Definition plain_reader {F : FileIO} (m : parquet_file_metadata_t) (s : carquet_schema_t) : carquet_reader_t :=
  mk_file_reader None false (Some []) 0 false (sch_arena s) m (Some s) carquet_reader_options_init (mk_prebuffer None 0 0 0) true.

(** A footer with one column of [element] and a row group for each of the statistics. *)
Definition stats_footer (element : parquet_schema_element_t) (stats : list parquet_statistics_t) : parquet_file_metadata_t :=
  let root := mk_schema_element None 0 None (Some [114; 0]) 1 None 0 0 None None in
  let chunk st := mk_column_chunk None 4 (Some (mk_column_metadata (default 0 (se_type element)) [0] [Some [97; 0]] 0 3 12 12 [] 4 None None (Some st) [] None None None)) None None None None in
  mk_file_metadata 2 [root; element] (3 * lenZ stats) ((λ st, mk_row_group [chunk st] 12 3 [] None None None) <$> stats) [] None 0.

Definition stats_reader (element : parquet_schema_element_t) (stats : list parquet_statistics_t) : option (carquet_reader_t (F := memory_io Some)) :=
  '(s, _) ← build_schema (Sp := upward_space) arena_64k (stats_footer element stats); plain_reader (stats_footer element stats) <$> s.

Definition bounds (lo hi : list Z) : parquet_statistics_t := mk_statistics (None, 0) (None, 0) (Some 0) None (Some hi, lenZ hi) (Some lo, lenZ lo) None None.

Definition leaf (type : Z) (converted : option Z) : parquet_schema_element_t := mk_schema_element (Some type) 0 (Some 0) (Some [97; 0]) 0 converted 0 0 None None.

(** Three groups of INT32 values, 1 to 5, 6 to 9 and -4 to 2, and the predicate [x > 5]. *)
Lemma row_group_filter_sound_witness : exists r found cells', stats_reader (leaf 1 None) [bounds [1; 0; 0; 0] [5; 0; 0; 0]; bounds [6; 0; 0; 0] [9; 0; 0; 0]; bounds [252; 255; 255; 255] [2; 0; 0; 0]] = Some r /\
  carquet_reader_filter_row_groups r 0 CARQUET_COMPARE_GT [5; 0; 0; 0] 4 [0; 0; 0] 3 = Some (lenZ found, cells') /\ 1 ∈ found /\ cells' = [1; 0; 0].
Proof.
  set (st := [_; _; _]). assert (exists s a, build_schema (Sp := upward_space) arena_64k (stats_footer (leaf 1 None) st) = Some (Some s, a)) as (s & a & E) by (eexists _, _; vm_compute; reflexivity).
  destruct (build_schema_spec (Sp := upward_space) arena_64k (stats_footer (leaf 1 None) st) eq_refl ltac:(by eexists)) as (s' & a' & E' & H). rewrite E in E'. injection E' as <- <-. specialize (H s eq_refl).
  set (r := plain_reader (F := memory_io Some) (stats_footer (leaf 1 None) st) s).
  assert (stats_reader (leaf 1 None) st = Some r) as Er by (unfold stats_reader; rewrite E; reflexivity).
  assert (reader_ok (F := memory_io Some) [] r) as RO by (split; [reflexivity|reflexivity|exists s; split; [reflexivity|exact H]]).
  assert (metadata_stored (fr_metadata r)) as MS by (split; repeat constructor; cbn; try lia; repeat constructor; unfold in_u; lia).
  destruct (row_group_filter_sound (F := memory_io Some) [] r 0 CARQUET_COMPARE_GT [5; 0; 0; 0] [0; 0; 0] 3 RO MS) as (found & cells' & EF & EC & _ & _ & HF);
    [apply (bool_decide_unpack _); vm_compute; exact I|reflexivity|cbn; lia|].
  exists r, found, cells'. split; [exact Er|]. split; [exact EF|]. split.
  - assert (rd (sch_leaf_indices s) 0 = Some 1) as EL by (vm_compute in E; injection E as <- <-; vm_compute; reflexivity).
    apply (HF ltac:(vm_compute; discriminate) s 1 (leaf 1 None) (λ bs, v ← load 4 bs; Some [i32 v])) with (x := [9; 0; 0; 0]); [reflexivity|exact EL|reflexivity|reflexivity|reflexivity| | | |].
    + split; vm_compute; (discriminate || reflexivity).
    + apply (bool_decide_unpack _). vm_compute. exact I.
    + intros g k cm ps lo hi E1 E2 E3 E4 R. cbn in E1. injection E1 as <-. cbn in E2. injection E2 as <-. cbn in E3. injection E3 as <-. cbn in E4. injection E4 as <-.
      destruct R as [(bs & [= <-] & _ & ->) (bs' & [= <-] & _ & ->)|_ (bs & [=] & _) _].
      split; eexists _, _; (split; [vm_compute; reflexivity|]); (split; [vm_compute; reflexivity|]); vm_compute; discriminate.
    + eexists _, _. split; [vm_compute; reflexivity|]. split; vm_compute; reflexivity.
  - vm_compute in E. injection E as <- <-. vm_compute in EF. congruence.
Defined.

(** ** Where groups are dropped that hold matches *)

Definition group_matches (element : parquet_schema_element_t) (st : parquet_statistics_t) (op : carquet_compare_op_t) (value : list Z) : option bool :=
  r ← stats_reader element [st]; snd <$> carquet_reader_row_group_matches r 0 0 op value (lenZ value).

Definition f32_one : list Z := [0; 0; 128; 63].
Definition f32_nan : list Z := [0; 0; 192; 127].

(** A bound that is NaN compares as equal to everything, so that a predicate [x < 1.0]
    drops the group whatever it holds. *)
Theorem nan_bound_drops_group : group_matches (leaf CARQUET_PHYSICAL_FLOAT None) (bounds f32_nan f32_nan) CARQUET_COMPARE_LT f32_one = Some false.
Proof. vm_compute. reflexivity. Qed.

(** The deprecated bounds are those of the signed order, but are compared in the unsigned
    order of a UINT_32 column: a group with values 1 and 2^32 - 1 is dropped for
    [x == 2^32 - 1]. *)
Theorem deprecated_bounds_drop_group :
  group_matches (leaf CARQUET_PHYSICAL_INT32 (Some CARQUET_CONVERTED_UINT_32))
    (mk_statistics (Some [1; 0; 0; 0], 4) (Some [255; 255; 255; 255], 4) (Some 0) None (None, 0) (None, 0) None None) CARQUET_COMPARE_EQ [255; 255; 255; 255] = Some false.
Proof. vm_compute. reflexivity. Qed.

(** Decimals in bytes are compared as strings: a group with the values -1 and 1 of a
    DECIMAL column of two bytes is dropped for [x == 0]. *)
Theorem binary_decimal_drops_group :
  let e := mk_schema_element (Some CARQUET_PHYSICAL_FIXED_LEN_BYTE_ARRAY) 2 (Some 0) (Some [97; 0]) 0 (Some CARQUET_CONVERTED_DECIMAL) 0 4 None None in
  group_matches e (bounds [255; 255] [0; 1]) CARQUET_COMPARE_EQ [0; 0] = Some false /\
  exists o, type_order e = Some o /\ at_least o [255; 255] [0; 0] /\ at_most o [0; 0] [0; 1] /\ meets o CARQUET_COMPARE_EQ [0; 0] [0; 0].
Proof.
  cbv zeta. split; [vm_compute; reflexivity|]. eexists. split; [vm_compute; reflexivity|].
  split; [|split]; eexists _, _; (split; [vm_compute; reflexivity|]); (split; [vm_compute; reflexivity|]); vm_compute; (discriminate || reflexivity).
Qed.
