(* ===== verification/PageIndex.v ===== *)
(** * The page index (carquet/metadata/page_index.c)

    The column index has, for each page of a column chunk, the number of nulls and the
    bounds of the values; the offset index has where the page is and its first row.  A
    writer builds both page by page and serialises them; a reader parses them back. *)

From S2P Require Import Prelude Status Endian Memory Heap Buffer ThriftDecode ThriftEncode ThriftParse ParquetTypes ParquetWrite Schema ValueOrder.
From coqutil Require Import Datatypes.RecordSetters.
Import RecordSetters.TriangleBracketNotations.

#[local] Open Scope Z_scope.

(** ** Data *)

Record carquet_column_index_t := mk_column_index {
  ci_num_pages : Z;
  ci_null_counts : option (list Z);
  ci_num_null_counts : Z;
  ci_min_values : option (list (option (list Z)));
  ci_min_value_lens : option (list Z);
  ci_num_min_values : Z;
  ci_max_values : option (list (option (list Z)));
  ci_max_value_lens : option (list Z);
  ci_num_max_values : Z;
  ci_null_pages : option (list bool);
  ci_num_null_pages : Z;
  ci_boundary_order : Z }.

Definition ci_zero : carquet_column_index_t := mk_column_index 0 None 0 None None 0 None None 0 None 0 0.

Record carquet_page_location_t := mk_page_location { pl_offset : Z; pl_compressed_size : Z; pl_first_row_index : Z }.

Definition pl_zero : carquet_page_location_t := mk_page_location 0 0 0.

Record carquet_offset_index_t := mk_offset_index { oi_num_pages : Z; oi_page_locations : option (list carquet_page_location_t) }.

(** A pointer to the bytes of a bound, and its length. *)
Record carquet_page_stats_t := mk_page_stats {
  ps_null_count : Z;
  ps_min_value : option (list Z);
  ps_min_value_size : Z;
  ps_max_value : option (list Z);
  ps_max_value_size : Z;
  ps_is_null_page : bool }.

Record carquet_column_index_builder_t := mk_ci_builder {
  cb_type : Z;
  cb_logical_type : carquet_logical_type_t;
  cb_type_length : Z;
  cb_capacity : Z;
  cb_num_pages : Z;
  cb_null_counts : block Z;
  cb_min_values : block (option (list Z));
  cb_min_value_lens : block Z;
  cb_max_values : block (option (list Z));
  cb_max_value_lens : block Z;
  cb_null_pages : block bool;
  cb_boundary_order : Z }.

(** [uncompressed_sizes] is NULL unless they are tracked. *)
Record carquet_offset_index_builder_t := mk_oi_builder {
  ob_capacity : Z;
  ob_num_pages : Z;
  ob_offsets : block Z;
  ob_compressed_sizes : block Z;
  ob_first_row_indices : block Z;
  ob_uncompressed_sizes : option (block Z) }.

Section PageIndex.
Context {Hp : ArrayHeap}.

(** ** Column index builder *)

Definition carquet_column_index_builder_create (type : Z) (logical_type : option carquet_logical_type_t) (type_length : Z) : option carquet_column_index_builder_t :=
  match array_calloc tt 1 216 with
  | None => None
  | Some _ =>
      match array_calloc 0 16 8, array_calloc None 16 8, array_calloc 0 16 4, array_calloc None 16 8, array_calloc 0 16 4, array_calloc false 16 1 with
      | Some null_counts, Some min_values, Some min_value_lens, Some max_values, Some max_value_lens, Some null_pages =>
          Some (mk_ci_builder type (default lt_zero logical_type) type_length 16 0 (Live null_counts) (Live min_values) (Live min_value_lens)
                  (Live max_values) (Live max_value_lens) (Live null_pages) 0)
      | _, _, _, _, _, _ => None
      end
  end.

(** The cells from [num_pages] on, after the loop that initialises them. *)
Definition init_from {X} (p : list X) (num_pages new_cap : Z) (x : X) : list X :=
  take (Z.to_nat num_pages) p ++ replicate (Z.to_nat (new_cap - num_pages)) x.

(** All six arrays are moved before any of the results is looked at; when one could not be
    moved the builder keeps pointers to those that were. *)
Definition ensure_capacity (b : carquet_column_index_builder_t) : option (carquet_status_t * carquet_column_index_builder_t) :=
  if cb_num_pages b <? cb_capacity b then Some (CARQUET_OK, b) else
  let new_cap := cb_capacity b * 2 in
  '(new_null_counts, null_counts) ← block_realloc (cb_null_counts b) new_cap 8;
  '(new_min_values, min_values) ← block_realloc (cb_min_values b) new_cap 8;
  '(new_min_lens, min_value_lens) ← block_realloc (cb_min_value_lens b) new_cap 4;
  '(new_max_values, max_values) ← block_realloc (cb_max_values b) new_cap 8;
  '(new_max_lens, max_value_lens) ← block_realloc (cb_max_value_lens b) new_cap 4;
  '(new_null_pages, null_pages) ← block_realloc (cb_null_pages b) new_cap 1;
  match new_null_counts, new_min_values, new_min_lens, new_max_values, new_max_lens, new_null_pages with
  | Some nc, Some mi, Some ml, Some ma, Some xl, Some np =>
      let n := cb_num_pages b in
      Some (CARQUET_OK, mk_ci_builder (cb_type b) (cb_logical_type b) (cb_type_length b) new_cap n
        (Live (init_from nc n new_cap 0)) (Live (init_from mi n new_cap None)) (Live (init_from ml n new_cap 0))
        (Live (init_from ma n new_cap None)) (Live (init_from xl n new_cap 0)) (Live (init_from np n new_cap false)) (cb_boundary_order b))
  | _, _, _, _, _, _ =>
      Some (CARQUET_ERROR_OUT_OF_MEMORY, mk_ci_builder (cb_type b) (cb_logical_type b) (cb_type_length b) (cb_capacity b) (cb_num_pages b)
        null_counts min_values min_value_lens max_values max_value_lens null_pages (cb_boundary_order b))
  end.

(** A store into an array behind a pointer. *)
Definition block_wr {X} (p : block X) (i : Z) (x : X) : option (block X) := l ← live p; l ← wr l i x; Some (Live l).
Definition block_rd {X} (p : block X) (i : Z) : option X := l ← live p; rd l i.

(** [malloc(len)] and [memcpy] of a bound that is there; the bool is false when memory ran out. *)
Definition copy_bound (value : option (list Z)) (len : Z) : option (bool * option (list Z)) :=
  match value with
  | Some p =>
      if len >? 0 then
        match array_calloc 0 len 1 with
        | None => Some (false, None)
        | Some _ => bs ← rd_n p 0 len; Some (true, Some bs)
        end
      else Some (true, None)
  | None => Some (true, None)
  end.

(** The pointer and the length in cell [i], when there is a bound. *)
Definition store_bound (values : block (option (list Z))) (lens : block Z) (i : Z) (value : option (list Z)) (len : Z) : option (block (option (list Z)) * block Z) :=
  match value with
  | None => Some (values, lens)
  | Some bs => values ← block_wr values i (Some bs); lens ← block_wr lens i len; Some (values, lens)
  end.

Definition carquet_column_index_add_page (b : carquet_column_index_builder_t) (null_count : Z) (min_value : option (list Z)) (min_value_len : Z)
    (max_value : option (list Z)) (max_value_len : Z) (is_null_page : bool) : option (carquet_status_t * carquet_column_index_builder_t) :=
  '(status, b) ← ensure_capacity b;
  if negb (is_ok status) then Some (status, b) else
  let idx := cb_num_pages b in
  null_counts ← block_wr (cb_null_counts b) idx null_count;
  null_pages ← block_wr (cb_null_pages b) idx is_null_page;
  let b := b<| cb_null_counts := null_counts |><| cb_null_pages := null_pages |> in
  '(ok, bound) ← copy_bound min_value min_value_len;
  if negb ok then min_values ← block_wr (cb_min_values b) idx None; Some (CARQUET_ERROR_OUT_OF_MEMORY, b<| cb_min_values := min_values |>) else
  '(min_values, min_lens) ← store_bound (cb_min_values b) (cb_min_value_lens b) idx bound min_value_len;
  let b := b<| cb_min_values := min_values |><| cb_min_value_lens := min_lens |> in
  '(ok, bound) ← copy_bound max_value max_value_len;
  if negb ok then
    max_values ← block_wr (cb_max_values b) idx None;
    min_values ← block_wr (cb_min_values b) idx None;
    Some (CARQUET_ERROR_OUT_OF_MEMORY, b<| cb_max_values := max_values |><| cb_min_values := min_values |>)
  else
  '(max_values, max_lens) ← store_bound (cb_max_values b) (cb_max_value_lens b) idx bound max_value_len;
  Some (CARQUET_OK, b<| cb_max_values := max_values |><| cb_max_value_lens := max_lens |><| cb_num_pages := cb_num_pages b + 1 |>).

Definition carquet_column_index_set_boundary_order (b : carquet_column_index_builder_t) (order : Z) : carquet_column_index_builder_t :=
  b<| cb_boundary_order := order |>.

Definition index_logical_integer_is_unsigned (lt : carquet_logical_type_t) : option bool :=
  if lt_id lt =? CARQUET_LOGICAL_INTEGER then negb <$> get_bool (lt_params lt) 1 else Some false.

Definition compare_index_bytes (a : list Z) (alen : Z) (b : list Z) (blen : Z) : option Z :=
  let n := if alen <? blen then alen else blen in
  c ← memcmp a b n;
  Some (if negb (c =? 0) then c else CMP3 Z.ltb alen blen).

Definition compare_index_values (builder : carquet_column_index_builder_t) (a : list Z) (alen : Z) (b : list Z) (blen : Z) : option Z :=
  if (alen =? blen) && (cb_type builder =? CARQUET_PHYSICAL_INT32) then
    unsigned ← index_logical_integer_is_unsigned (cb_logical_type builder);
    av ← load 4 a; bv ← load 4 b;
    Some (if unsigned : bool then CMP3 Z.ltb av bv else CMP3 Z.ltb (i32 av) (i32 bv))
  else if (alen =? blen) && (cb_type builder =? CARQUET_PHYSICAL_INT64) then
    unsigned ← index_logical_integer_is_unsigned (cb_logical_type builder);
    av ← load 8 a; bv ← load 8 b;
    Some (if unsigned : bool then CMP3 Z.ltb av bv else CMP3 Z.ltb (i64 av) (i64 bv))
  else compare_index_bytes a alen b blen.

(** [query && values[page_idx]], and how the query compares with that bound. *)
Definition compare_query (b : carquet_column_index_builder_t) (query : option (list Z)) (values : block (option (list Z))) (lens : block Z) (page_idx value_len : Z) (test : Z -> bool) : option bool :=
  match query with
  | None => Some false
  | Some v =>
      bound ← block_rd values page_idx;
      match bound with
      | None => Some false
      | Some p => len ← block_rd lens page_idx; c ← compare_index_values b v value_len p len; Some (test c)
      end
  end.

(** The status and [*might_match]. *)
Definition carquet_column_index_page_might_match (b : carquet_column_index_builder_t) (page_idx : Z) (min_value max_value : option (list Z)) (value_len : Z) (m0 : bool)
    : option (carquet_status_t * bool) :=
  if (page_idx <? 0) || (page_idx >=? cb_num_pages b) then Some (CARQUET_ERROR_INVALID_ARGUMENT, m0) else
  null_page ← block_rd (cb_null_pages b) page_idx;
  if null_page : bool then Some (CARQUET_OK, false) else
  below ← compare_query b max_value (cb_min_values b) (cb_min_value_lens b) page_idx value_len (λ c, c <? 0);
  if below : bool then Some (CARQUET_OK, false) else
  above ← compare_query b min_value (cb_max_values b) (cb_max_value_lens b) page_idx value_len (λ c, c >? 0);
  Some (CARQUET_OK, negb above).

(** ** Offset index builder *)

Definition carquet_offset_index_builder_create (track_uncompressed : bool) : option carquet_offset_index_builder_t :=
  match array_calloc tt 1 48 with
  | None => None
  | Some _ =>
      match array_calloc 0 16 8, array_calloc 0 16 4, array_calloc 0 16 8, (if track_uncompressed then Some <$> array_calloc 0 16 4 else Some None) with
      | Some offsets, Some compressed_sizes, Some first_row_indices, Some uncompressed_sizes =>
          Some (mk_oi_builder 16 0 (Live offsets) (Live compressed_sizes) (Live first_row_indices) (Live <$> uncompressed_sizes))
      | _, _, _, _ => None
      end
  end.

Definition offset_ensure_capacity (b : carquet_offset_index_builder_t) : option (carquet_status_t * carquet_offset_index_builder_t) :=
  if ob_num_pages b <? ob_capacity b then Some (CARQUET_OK, b) else
  let new_cap := ob_capacity b * 2 in
  '(new_offsets, offsets) ← block_realloc (ob_offsets b) new_cap 8;
  '(new_compressed, compressed) ← block_realloc (ob_compressed_sizes b) new_cap 4;
  '(new_first_rows, first_rows) ← block_realloc (ob_first_row_indices b) new_cap 8;
  match new_offsets, new_compressed, new_first_rows with
  | Some o, Some c, Some f =>
      let b := b<| ob_offsets := Live o |><| ob_compressed_sizes := Live c |><| ob_first_row_indices := Live f |> in
      match ob_uncompressed_sizes b with
      | None => Some (CARQUET_OK, b<| ob_capacity := new_cap |>)
      | Some u =>
          '(new_uncompressed, u) ← block_realloc u new_cap 4;
          match new_uncompressed with
          | None => Some (CARQUET_ERROR_OUT_OF_MEMORY, b<| ob_uncompressed_sizes := Some u |>)
          | Some u => Some (CARQUET_OK, b<| ob_uncompressed_sizes := Some (Live u) |><| ob_capacity := new_cap |>)
          end
      end
  | _, _, _ => Some (CARQUET_ERROR_OUT_OF_MEMORY, b<| ob_offsets := offsets |><| ob_compressed_sizes := compressed |><| ob_first_row_indices := first_rows |>)
  end.

(** [for (i = i0; i < num_pages; i++) offsets[i] += delta], where overflow is undefined *)
Fixpoint shift_from (n : nat) (i delta : Z) (offsets : list Z) : option (list Z) :=
  match n with
  | O => Some offsets
  | S n => x ← rd offsets i; x ← sint 64 (x + delta); offsets ← wr offsets i x; shift_from n (i + 1) delta offsets
  end.

Definition carquet_offset_index_builder_shift_offsets (b : carquet_offset_index_builder_t) (delta : Z) : option carquet_offset_index_builder_t :=
  if delta =? 0 then Some b else
  l ← (if ob_num_pages b >? 0 then live (ob_offsets b) else Some []);
  l ← shift_from (Z.to_nat (ob_num_pages b)) 0 delta l;
  Some (if ob_num_pages b >? 0 then b<| ob_offsets := Live l |> else b).

Definition carquet_offset_index_add_page (b : carquet_offset_index_builder_t) (offset compressed_size first_row_index uncompressed_size : Z)
    : option (carquet_status_t * carquet_offset_index_builder_t) :=
  '(status, b) ← offset_ensure_capacity b;
  if negb (is_ok status) then Some (status, b) else
  let idx := ob_num_pages b in
  offsets ← block_wr (ob_offsets b) idx offset;
  compressed ← block_wr (ob_compressed_sizes b) idx compressed_size;
  first_rows ← block_wr (ob_first_row_indices b) idx first_row_index;
  uncompressed ← (match ob_uncompressed_sizes b with None => Some None | Some u => Some <$> block_wr u idx uncompressed_size end);
  Some (CARQUET_OK, mk_oi_builder (ob_capacity b) (idx + 1) offsets compressed first_rows uncompressed).

(** ** Serialisation *)

Section Serialize.
Context {A : Allocator}.
#[local] Notation "w1 ;> w2" := (wseq w1 w2) (at level 100, right associativity).

Definition write_bool (v : bool) : tenc := λ e, Some (thrift_write_bool e v).

(** The first [num_pages] elements of an array of the builder. *)
Definition pages_of {X} (num_pages : Z) (p : block X) : option (list X) :=
  if num_pages =? 0 then Some [] else l ← live p; rd_n l 0 num_pages.

(** The bounds, an empty string for none. *)
Definition write_bounds (num_pages : Z) (values : block (option (list Z))) (lens : block Z) : tenc :=
  wread (pages_of num_pages values) (λ values,
    wfor (zip (seqZ 0 num_pages) values) (λ v,
      match v.2 with Some bs => wread (block_rd lens v.1) (λ len, write_binary (Some bs, len)) | None => write_binary (None, 0) end)).

Definition write_column_index (b : carquet_column_index_builder_t) : tenc :=
  let n := cb_num_pages b in
  struct_begin ;>
  field THRIFT_TYPE_LIST 1 (write_list_begin THRIFT_TYPE_TRUE n ;> wread (pages_of n (cb_null_pages b)) (λ l, wfor l write_bool)) ;>
  field THRIFT_TYPE_LIST 2 (write_list_begin THRIFT_TYPE_BINARY n ;> write_bounds n (cb_min_values b) (cb_min_value_lens b)) ;>
  field THRIFT_TYPE_LIST 3 (write_list_begin THRIFT_TYPE_BINARY n ;> write_bounds n (cb_max_values b) (cb_max_value_lens b)) ;>
  field THRIFT_TYPE_I32 4 (write_i32 (cb_boundary_order b)) ;>
  field THRIFT_TYPE_LIST 5 (write_list_begin THRIFT_TYPE_I64 n ;> wread (pages_of n (cb_null_counts b)) (λ l, wfor l write_i64)) ;>
  struct_end.

(** The encoder's status is not looked at. *)
Definition carquet_column_index_serialize (b : carquet_column_index_builder_t) (output : carquet_buffer_t) : option (carquet_status_t * carquet_buffer_t) :=
  e ← write_column_index b (thrift_encoder_init output); Some (CARQUET_OK, te_buffer e).

Definition write_page_location (l : Z * Z * Z) : tenc :=
  let '(offset, compressed_size, first_row_index) := l in
  struct_begin ;>
  field THRIFT_TYPE_I64 1 (write_i64 offset) ;>
  field THRIFT_TYPE_I32 2 (write_i32 compressed_size) ;>
  field THRIFT_TYPE_I64 3 (write_i64 first_row_index) ;>
  struct_end.

Definition write_offset_index (b : carquet_offset_index_builder_t) : tenc :=
  let n := ob_num_pages b in
  struct_begin ;>
  field THRIFT_TYPE_LIST 1 (write_list_begin THRIFT_TYPE_STRUCT n ;>
    wread (pages_of n (ob_offsets b)) (λ offsets, wread (pages_of n (ob_compressed_sizes b)) (λ sizes, wread (pages_of n (ob_first_row_indices b)) (λ rows,
      wfor (zip (zip offsets sizes) rows) write_page_location)))) ;>
  wopt (ob_uncompressed_sizes b) (λ u,
    field THRIFT_TYPE_LIST 2 (write_list_begin THRIFT_TYPE_I32 n ;> wread (pages_of n u) (λ l, wfor l write_i32))) ;>
  struct_end.

Definition carquet_offset_index_serialize (b : carquet_offset_index_builder_t) (output : carquet_buffer_t) : option (carquet_status_t * carquet_buffer_t) :=
  e ← write_offset_index b (thrift_encoder_init output); Some (CARQUET_OK, te_buffer e).

End Serialize.

(** ** Parsing: a field may free the index and return NULL *)

Abbreviation iparser := (pdec ()).

Definition index_fails {S} (x : S) : iparser (option () * S) := mret (Some (), x).

(** A list header with its bound on the count. *)
Definition index_list {S} (x : S) (k : Z -> iparser (option () * S)) : iparser (option () * S) :=
  '(_, count) ← lift thrift_read_list_begin;
  if (count <? 0) || (count >? 1000000) then index_fails x else k count.

(** The loop over the values of a list; [None] when memory ran out. *)
Fixpoint read_bounds (n : nat) : iparser (option (list (option (list Z) * Z))) :=
  match n with
  | O => mret (Some [])
  | S n =>
      '(bin, len) ← lift thrift_read_binary;
      match bin with
      | Some p =>
          if len >? 0 then
            match array_calloc 0 len 1 with
            | None => mret None
            | Some _ => bs ← access (rd_n p 0 len); rest ← read_bounds n; mret (cons (Some bs, len) <$> rest)
            end
          else rest ← read_bounds n; mret (cons (None, 0) <$> rest)
      | None => rest ← read_bounds n; mret (cons (None, 0) <$> rest)
      end
  end.

(** The two arrays of a list of bounds. *)
Definition bounds_list (ci : carquet_column_index_t) (store : Z -> list (option (list Z)) -> list Z -> carquet_column_index_t) : iparser (option () * carquet_column_index_t) :=
  index_list ci (λ count,
    match array_calloc (X := option (list Z)) None count 8, array_calloc 0 count 4 with
    | Some _, Some _ =>
        l ← read_bounds (Z.to_nat count);
        match l with
        | None => index_fails ci
        | Some l => mret (None, store count l.*1 l.*2)
        end
    | _, _ => index_fails ci
    end).

Definition parse_column_index_field (type field_id : Z) (ci : carquet_column_index_t) : iparser (option () * carquet_column_index_t) :=
  if field_id =? 1 then
    match ci_null_pages ci with
    | Some _ => index_fails ci
    | None => index_list ci (λ count,
        match array_calloc false count 1 with
        | None => index_fails ci
        | Some _ =>
            l ← for_n (Z.to_nat count) (lift thrift_read_bool);
            mret (None, ci<| ci_num_pages := count |><| ci_null_pages := Some l |><| ci_num_null_pages := count |>)
        end)
    end
  else if field_id =? 2 then
    match ci_min_values ci with
    | Some _ => index_fails ci
    | None => bounds_list ci (λ count values lens, ci<| ci_min_values := Some values |><| ci_min_value_lens := Some lens |><| ci_num_min_values := count |>)
    end
  else if field_id =? 3 then
    match ci_max_values ci with
    | Some _ => index_fails ci
    | None => bounds_list ci (λ count values lens, ci<| ci_max_values := Some values |><| ci_max_value_lens := Some lens |><| ci_num_max_values := count |>)
    end
  else if field_id =? 4 then v ← lift thrift_read_i32; mret (None, ci<| ci_boundary_order := v |>)
  else if field_id =? 5 then
    match ci_null_counts ci with
    | Some _ => index_fails ci
    | None => index_list ci (λ count,
        match array_calloc 0 count 8 with
        | None => index_fails ci
        | Some _ =>
            l ← for_n (Z.to_nat count) (lift thrift_read_i64);
            mret (None, ci<| ci_null_counts := Some l |><| ci_num_null_counts := count |>)
        end)
    end
  else skip type;; mret (None, ci).

Definition clamp_to {X} (array : option X) (count num_pages : Z) : Z :=
  match array with Some _ => if count <? num_pages then count else num_pages | None => num_pages end.

Definition clamp_num_pages (ci : carquet_column_index_t) : carquet_column_index_t :=
  let n := clamp_to (ci_null_pages ci) (ci_num_null_pages ci) (ci_num_pages ci) in
  let n := clamp_to (ci_min_values ci) (ci_num_min_values ci) n in
  let n := clamp_to (ci_max_values ci) (ci_num_max_values ci) n in
  let n := clamp_to (ci_null_counts ci) (ci_num_null_counts ci) n in
  ci<| ci_num_pages := n |>.

(** Parsing an index: the struct, its fields, the status at the end. *)
Definition parse_index {S} (body : Z -> Z -> S -> iparser (option () * S)) (x : S) (finish : S -> S) (data : option (list Z)) (size sizeof : Z) : option (option S) :=
  match data with
  | None => Some None
  | Some data =>
      if size =? 0 then Some None else
      match array_calloc tt 1 sizeof with
      | None => Some None
      | Some _ =>
          '(r, _, _) ← (lift thrift_read_struct_begin;;
             '(r, x) ← while_fields body x;
             match r with
             | Some _ => mret None
             | None => lift thrift_read_struct_end;; status ← lift (gets td_status); mret (if is_ok status then Some (finish x) else None)
             end) (thrift_decoder_init data size) ();
          Some r
      end
  end.

Definition carquet_column_index_parse (data : option (list Z)) (size : Z) : option (option carquet_column_index_t) :=
  parse_index parse_column_index_field ci_zero clamp_num_pages data size 88.

Definition parse_page_location_field (ft fid : Z) (l : carquet_page_location_t) : iparser carquet_page_location_t :=
  if fid =? 1 then v ← lift thrift_read_i64; mret (l<| pl_offset := v |>) else
  if fid =? 2 then v ← lift thrift_read_i32; mret (l<| pl_compressed_size := v |>) else
  if fid =? 3 then v ← lift thrift_read_i64; mret (l<| pl_first_row_index := v |>)
  else skip ft;; mret l.

Definition parse_offset_index_field (type field_id : Z) (oi : carquet_offset_index_t) : iparser (option () * carquet_offset_index_t) :=
  if field_id =? 1 then
    match oi_page_locations oi with
    | Some _ => index_fails oi
    | None => index_list oi (λ count,
        match array_calloc pl_zero count 24 with
        | None => index_fails oi
        | Some _ => l ← for_n (Z.to_nat count) (parse_fields parse_page_location_field pl_zero); mret (None, mk_offset_index count (Some l))
        end)
    end
  else skip type;; mret (None, oi).

Definition carquet_offset_index_parse (data : option (list Z)) (size : Z) : option (option carquet_offset_index_t) :=
  parse_index parse_offset_index_field (mk_offset_index 0 None) (λ oi, oi) data size 16.

(** ** Accessors *)

Definition carquet_column_index_num_pages (index : carquet_column_index_t) : Z := ci_num_pages index.
Definition carquet_column_index_boundary_order (index : carquet_column_index_t) : Z := ci_boundary_order index.
Definition carquet_offset_index_num_pages (index : carquet_offset_index_t) : Z := oi_num_pages index.

(** [array && page_index < count ? array[page_index] : absent] *)
Definition page_entry {X} (array : option (list X)) (count page_index : Z) (absent : X) : option X :=
  match array with
  | Some l => if page_index <? count then rd l page_index else Some absent
  | None => Some absent
  end.

Definition carquet_column_index_get_page_stats (index : carquet_column_index_t) (page_index : Z) : option (carquet_status_t * option carquet_page_stats_t) :=
  if (page_index <? 0) || (page_index >=? ci_num_pages index) then Some (CARQUET_ERROR_INVALID_ARGUMENT, None) else
  null_count ← page_entry (ci_null_counts index) (ci_num_null_counts index) page_index 0;
  min_value ← page_entry (ci_min_values index) (ci_num_min_values index) page_index None;
  min_value_size ← page_entry (ci_min_value_lens index) (ci_num_min_values index) page_index 0;
  max_value ← page_entry (ci_max_values index) (ci_num_max_values index) page_index None;
  max_value_size ← page_entry (ci_max_value_lens index) (ci_num_max_values index) page_index 0;
  is_null_page ← page_entry (ci_null_pages index) (ci_num_null_pages index) page_index false;
  Some (CARQUET_OK, Some (mk_page_stats null_count min_value min_value_size max_value max_value_size is_null_page)).

Definition carquet_offset_index_get_page_location (index : carquet_offset_index_t) (page_index : Z) : option (carquet_status_t * option carquet_page_location_t) :=
  if (page_index <? 0) || (page_index >=? oi_num_pages index) then Some (CARQUET_ERROR_INVALID_ARGUMENT, None) else
  locations ← oi_page_locations index;
  l ← rd locations page_index;
  Some (CARQUET_OK, Some l).

End PageIndex.
