(* ===== verification/PageIndexSafe.v ===== *)
(** * The page index: parsing arbitrary bytes

    Whatever bytes a file names as a page index, parsing ends in bounds and gives NULL or
    an index on which every accessor is safe. *)

From S2P Require Import Prelude Status Endian Memory Heap Buffer ThriftDecode ThriftRoundtrip ThriftParse ParquetTypes ParquetSafe PageIndex.
From coqutil Require Import Datatypes.RecordSetters.
Import RecordSetters.TriangleBracketNotations.

#[local] Open Scope Z_scope.

(** The arrays of an index have the lengths it has for them, and bounds their own. *)
Definition array_of {X} (array : option (list X)) (count : Z) : Prop := match array with Some l => lenZ l = count | None => True end.

Definition bound_ok (v : option (list Z) * Z) : Prop := match v.1 with Some bs => lenZ bs = v.2 /\ 0 < v.2 < 2 ^ 31 /\ bytes_ok bs | None => v.2 = 0 end.

(** The two arrays of bounds come together. *)
Definition bounds_of (values : option (list (option (list Z)))) (lens : option (list Z)) (count : Z) : Prop :=
  match values, lens with
  | Some vs, Some ls => lenZ vs = count /\ lenZ ls = count /\ Forall bound_ok (zip vs ls)
  | None, None => True
  | _, _ => False
  end.

Record column_index_ok (ci : carquet_column_index_t) : Prop := {
  cio_null_counts : array_of (ci_null_counts ci) (ci_num_null_counts ci);
  cio_min : bounds_of (ci_min_values ci) (ci_min_value_lens ci) (ci_num_min_values ci);
  cio_max : bounds_of (ci_max_values ci) (ci_max_value_lens ci) (ci_num_max_values ci);
  cio_null_pages : array_of (ci_null_pages ci) (ci_num_null_pages ci) }.

Definition offset_index_ok (oi : carquet_offset_index_t) : Prop :=
  match oi_page_locations oi with Some l => lenZ l = oi_num_pages oi | None => oi_num_pages oi = 0 end.

Section Safe.
Context {Hp : ArrayHeap}.
Abbreviation any := (λ _ : (), True).
Abbreviation iruns m Q := (sim any m m Q).

(** A field whose result is fine when it has not failed. *)
Lemma sim_index_list {S} (x : S) k (Q : option () * S -> Prop) : (forall y, Q (Some (), y)) -> (forall count, 0 <= count <= 1000000 -> iruns (k count) Q) -> iruns (index_list x k) Q.
Proof.
  intros HQ Hk. eapply sim_bind; [apply sim_read_list_begin|]. intros [et count] _. apply sim_if; intros Hc; [by apply sim_ret|].
  apply orb_false_iff in Hc as [H1 H2]. apply Hk. lia.
Qed.

Lemma sim_read_bounds n : iruns (read_bounds n) (λ r, match r with Some l => length l = n /\ Forall bound_ok l | None => True end).
Proof.
  induction n as [|n IH]; cbn [read_bounds]; [apply sim_ret; by split|]. eapply sim_bind; [apply sim_read_binary|]. intros [bin len] Hb.
  assert (forall v, bound_ok v -> iruns (rest ← read_bounds n; mret (cons v <$> rest)) (λ r, match r with Some l => length l = S n /\ Forall bound_ok l | None => True end)) as K.
  { intros v Hv. eapply sim_bind; [exact IH|]. intros [l|] Hl; apply sim_ret; [|done]. destruct Hl as [Hl1 Hl2]. split; [cbn; lia|by constructor]. }
  destruct bin as [p|]; [|by apply K]. destruct Hb as (H1 & H2 & H3). cbn [fst snd] in *. apply sim_if; intros Hz; [|by apply K].
  destruct (array_calloc 0 len 1); [|by apply sim_ret]. destruct (rd_n_total p 0 len) as (bs & E & L); [lia|lia|lia|].
  eapply (sim_bind _ _ _ _ _ (λ b, lenZ b = len /\ bytes_ok b)); [apply sim_access; exists bs; split; [done|]; split; [done|by eapply rd_n_bytes]|]. intros b [Lb Bb]. apply K. split; cbn; [lia|split; [lia|done]].
Qed.

Lemma bounds_split l : Forall bound_ok l -> bounds_of (Some l.*1) (Some l.*2) (lenZ l).
Proof. intros H. cbn. rewrite !length_fmap. split; [done|]. split; [done|]. by rewrite zip_fst_snd. Qed.

(** A field either fails or keeps the invariant. *)
Definition kept {S} (P : S -> Prop) (r : option () * S) : Prop := r.1 = None -> P r.2.

Lemma sim_bounds_list ci store (P : carquet_column_index_t -> Prop) : (forall count vs ls, bounds_of (Some vs) (Some ls) count -> P (store count vs ls)) -> iruns (bounds_list ci store) (kept P).
Proof.
  intros HP. apply sim_index_list; [by intros y ?|]. intros count Hc.
  destruct (array_calloc _ _ 8); [|by apply sim_ret]. destruct (array_calloc 0 _ 4); [|by apply sim_ret].
  eapply sim_bind; [apply sim_read_bounds|]. intros [xs|] Hl; [|by apply sim_ret]. apply sim_ret. intros _. apply HP. destruct Hl as [L1 L2].
  replace count with (lenZ xs) by lia. by apply bounds_split.
Qed.

(** The array of a list of scalars. *)
Lemma sim_scalars {X} n (f : pdec () X) Q : 0 <= n -> iruns f (λ _, True) -> (forall l : list X, lenZ l = n -> Q l) -> iruns (for_n (Z.to_nat n) f) Q.
Proof. intros Hn Hf HQ. eapply sim_weaken; [by apply sim_for_n|]. cbn. intros l [L _]. apply HQ. lia. Qed.

Lemma sim_column_index_field t f ci : column_index_ok ci -> iruns (parse_column_index_field t f ci) (kept column_index_ok).
Proof.
  intros [N1 N2 N3 N4]. unfold parse_column_index_field. repeat (apply sim_if; intros _).
  - destruct (ci_null_pages ci); [by apply sim_ret|]. apply sim_index_list; [by intros y ?|]. intros count Hc.
    destruct (array_calloc false _ _); [|by apply sim_ret]. eapply sim_bind; [apply (sim_scalars _ _ (λ l, lenZ l = count)); [lia|apply sim_read_bool|done]|].
    intros xs Hl. apply sim_ret. intros _. destruct ci. by constructor.
  - destruct (ci_min_values ci); [by apply sim_ret|]. apply sim_bounds_list. intros count vs ls Hb. destruct ci. by constructor.
  - destruct (ci_max_values ci); [by apply sim_ret|]. apply sim_bounds_list. intros count vs ls Hb. destruct ci. by constructor.
  - eapply sim_bind; [apply sim_read_i32|]. intros v _. apply sim_ret. intros _. destruct ci. by constructor.
  - destruct (ci_null_counts ci); [by apply sim_ret|]. apply sim_index_list; [by intros y ?|]. intros count Hc.
    destruct (array_calloc 0 _ _); [|by apply sim_ret]. eapply sim_bind; [apply (sim_scalars _ _ (λ l, lenZ l = count)); [lia|apply sim_read_i64|done]|].
    intros xs Hl. apply sim_ret. intros _. destruct ci. by constructor.
  - eapply sim_bind; [apply sim_skip|]. intros _ _. by apply sim_ret.
Qed.

Lemma sim_page_location l : iruns (parse_fields parse_page_location_field l) (λ _, True).
Proof. apply sim_parse_fields; [|done]. intros ? ? ? ?. unfold parse_page_location_field. sim_steps. Qed.

Lemma sim_offset_index_field t f oi : offset_index_ok oi -> iruns (parse_offset_index_field t f oi) (kept offset_index_ok).
Proof.
  intros N. unfold parse_offset_index_field. apply sim_if; intros _.
  - destruct (oi_page_locations oi); [by apply sim_ret|]. apply sim_index_list; [by intros y ?|]. intros count Hc.
    destruct (array_calloc pl_zero _ _); [|by apply sim_ret]. eapply sim_bind; [apply (sim_scalars _ _ (λ l, lenZ l = count)); [lia|apply sim_page_location|done]|].
    intros xs Hl. apply sim_ret. by intros _.
  - eapply sim_bind; [apply sim_skip|]. intros _ _. apply sim_ret. by intros _.
Qed.

Lemma parse_index_total {S} body (x : S) finish (P Q : S -> Prop) data size sizeof : (forall t f y, P y -> iruns (body t f y) (kept P)) -> P x -> (forall y, P y -> Q (finish y)) ->
  bytes_ok data -> 0 <= size <= lenZ data -> size < 2 ^ 63 ->
  exists r, parse_index body x finish (Some data) size sizeof = Some r /\ forall y, r = Some y -> Q y.
Proof.
  intros Hb Hx HQ Hd Hs Hs'. unfold parse_index. destruct (size =? 0); [by eexists|]. destruct (array_calloc tt 1 sizeof); [|by eexists].
  pose proof (thrift_decoder_init_wf data size Hd Hs Hs') as W. set (m := lift thrift_read_struct_begin ≫= _ : pdec () (option S)).
  assert (iruns m (λ r, forall y, r = Some y -> Q y)) as H.
  { eapply sim_bind; [apply sim_struct_begin|]. intros _ _.
    eapply sim_bind; [apply (sim_while_fields any body body (kept P)); [|by intros _]|].
    - intros t f y Hy. apply Hb. by apply Hy.
    - intros [[[]|] y] Hy; [by apply sim_ret|]. eapply sim_bind; [apply sim_struct_end|]. intros _ _. apply sim_status. intros st.
      apply sim_ret. destruct (is_ok st); [|done]. intros z [= <-]. apply HQ. by apply Hy. }
  destruct (H _ () W I) as (r & d & [] & E & _ & _ & Hr & _). rewrite E. by exists r.
Qed.

(** A clamped index: every page is in every array there is. *)
Definition clamped (ci : carquet_column_index_t) : Prop :=
  column_index_ok ci /\ (ci_null_counts ci <> None -> ci_num_pages ci <= ci_num_null_counts ci) /\ (ci_min_values ci <> None -> ci_num_pages ci <= ci_num_min_values ci) /\
  (ci_max_values ci <> None -> ci_num_pages ci <= ci_num_max_values ci) /\ (ci_null_pages ci <> None -> ci_num_pages ci <= ci_num_null_pages ci).

Lemma clamp_to_le {X} (array : option X) count n : clamp_to array count n <= n /\ (array <> None -> clamp_to array count n <= count).
Proof. unfold clamp_to. destruct array; [|done]. destruct (Z.ltb_spec count n); lia. Qed.

Lemma clamp_clamped ci : column_index_ok ci -> clamped (clamp_num_pages ci).
Proof.
  intros [N1 N2 N3 N4]. unfold clamp_num_pages. set (n1 := clamp_to (ci_null_pages ci) _ _). set (n2 := clamp_to (ci_min_values ci) _ _).
  set (n3 := clamp_to (ci_max_values ci) _ _). set (n4 := clamp_to (ci_null_counts ci) _ _).
  destruct (clamp_to_le (ci_null_pages ci) (ci_num_null_pages ci) (ci_num_pages ci)) as [_ A1]. fold n1 in A1.
  destruct (clamp_to_le (ci_min_values ci) (ci_num_min_values ci) n1) as [B2 A2]. fold n2 in A2, B2.
  destruct (clamp_to_le (ci_max_values ci) (ci_num_max_values ci) n2) as [B3 A3]. fold n3 in A3, B3.
  destruct (clamp_to_le (ci_null_counts ci) (ci_num_null_counts ci) n3) as [B4 A4]. fold n4 in A4, B4.
  destruct ci. cbn in *. split; [by constructor|]. cbn. repeat split; intros Hn; [specialize (A4 Hn)|specialize (A2 Hn)|specialize (A3 Hn)|specialize (A1 Hn)]; unfold constant; lia.
Qed.

Lemma column_index_parse_total data size : bytes_ok data -> 0 <= size <= lenZ data -> size < 2 ^ 63 ->
  exists r, carquet_column_index_parse (Some data) size = Some r /\ forall ci, r = Some ci -> clamped ci.
Proof.
  apply (parse_index_total _ _ _ column_index_ok); [apply sim_column_index_field|by constructor|apply clamp_clamped].
Qed.

Lemma offset_index_parse_total data size : bytes_ok data -> 0 <= size <= lenZ data -> size < 2 ^ 63 ->
  exists r, carquet_offset_index_parse (Some data) size = Some r /\ forall oi, r = Some oi -> offset_index_ok oi.
Proof. apply (parse_index_total _ _ _ offset_index_ok); [apply sim_offset_index_field|done|done]. Qed.

(** ** The accessors *)

Lemma page_entry_total {X} (array : option (list X)) count i absent : array_of array count -> 0 <= i -> exists x, page_entry array count i absent = Some x.
Proof.
  unfold page_entry, array_of. destruct array as [l|]; [|by eexists]. intros L Hi. destruct (Z.ltb_spec i count); [|by eexists]. apply rd_Some. lia.
Qed.

(** A bound and its length, from the two arrays. *)
Lemma page_bound_total values lens count i : bounds_of values lens count -> 0 <= i ->
  exists v n, page_entry values count i None = Some v /\ page_entry lens count i 0 = Some n /\ bound_ok (v, n).
Proof.
  unfold page_entry, bounds_of. destruct values as [vs|], lens as [ls|]; try done; [|intros; eexists _, _; by split]. intros (L1 & L2 & H) Hi.
  destruct (Z.ltb_spec i count); [|intros; eexists _, _; by split]. destruct (rd_Some vs i) as [v Ev]; [lia|]. destruct (rd_Some ls i) as [n En]; [lia|].
  exists v, n. split; [done|]. split; [done|]. rewrite rd_lookup in Ev by lia. rewrite rd_lookup in En by lia. apply (Forall_lookup_1 _ _ (Z.to_nat i) _ H).
  apply lookup_zip_with_Some. by exists v, n.
Qed.

(** What a page's statistics look like. *)
Definition page_stats_ok (s : carquet_page_stats_t) : Prop := bound_ok (ps_min_value s, ps_min_value_size s) /\ bound_ok (ps_max_value s, ps_max_value_size s).

Lemma get_page_stats_total ci i : column_index_ok ci ->
  exists status s, carquet_column_index_get_page_stats ci i = Some (status, s) /\ (s = None <-> is_ok status = false) /\ (s <> None <-> 0 <= i < ci_num_pages ci) /\
    forall p, s = Some p -> page_stats_ok p.
Proof.
  intros [N1 N2 N3 N4]. unfold carquet_column_index_get_page_stats. rewrite Z.geb_leb.
  destruct (Z.ltb_spec i 0), (Z.leb_spec (ci_num_pages ci) i); cbn [orb]; try (eexists _, _; split; [done|]; repeat split; (done || lia)).
  destruct (page_entry_total _ _ i 0 N1 ltac:(lia)) as [nc ->]. destruct (page_bound_total _ _ _ i N2 ltac:(lia)) as (mi & ml & -> & -> & B1).
  destruct (page_bound_total _ _ _ i N3 ltac:(lia)) as (ma & xl & -> & -> & B2). destruct (page_entry_total _ _ i false N4 ltac:(lia)) as [np ->].
  cbn [mbind option_bind]. eexists _, _. split; [done|]. split; [by split|]. split; [split; [lia|done]|]. intros p [= <-]. by split.
Qed.

Lemma get_page_location_total oi i : offset_index_ok oi ->
  exists status l, carquet_offset_index_get_page_location oi i = Some (status, l) /\ (l = None <-> is_ok status = false) /\ (l <> None <-> 0 <= i < oi_num_pages oi).
Proof.
  unfold offset_index_ok, carquet_offset_index_get_page_location. intros N. rewrite Z.geb_leb.
  destruct (Z.ltb_spec i 0), (Z.leb_spec (oi_num_pages oi) i); cbn [orb]; try (eexists _, _; split; [done|]; repeat split; (done || lia)).
  destruct (oi_page_locations oi) as [ls|]; [|lia]. cbn [mbind option_bind]. destruct (rd_Some ls i) as [l ->]; [lia|]. cbn. eexists _, _. split; [done|]. split; [by split|]. split; [lia|done].
Qed.

End Safe.

(** C23: parsing a page index is safe.  Whatever the bytes, truncated, hostile or with lists
    of different lengths, and whatever the allocator refuses, both parsers end in bounds
    and give NULL or an index; on such an index the accessors return, for every page index
    and no other, a bound as NULL or as an object of the length reported with it. *)
Theorem page_index_parse_safe {Hp : ArrayHeap} data size : bytes_ok data -> 0 <= size <= lenZ data -> size < 2 ^ 63 ->
  (exists r, carquet_column_index_parse (Some data) size = Some r /\ forall ci, r = Some ci -> forall i,
    exists status s, carquet_column_index_get_page_stats ci i = Some (status, s) /\ (is_ok status = true <-> 0 <= i < carquet_column_index_num_pages ci) /\
      (is_ok status = true -> exists p, s = Some p /\ page_stats_ok p)) /\
  (exists r, carquet_offset_index_parse (Some data) size = Some r /\ forall oi, r = Some oi -> forall i,
    exists status l, carquet_offset_index_get_page_location oi i = Some (status, l) /\ (is_ok status = true <-> 0 <= i < carquet_offset_index_num_pages oi) /\
      (is_ok status = true -> exists p, l = Some p)).
Proof.
  intros Hb Hs Hs'. split.
  - destruct (column_index_parse_total data size Hb Hs Hs') as (r & E & H). exists r. split; [done|]. intros ci Hci i. destruct (H ci Hci) as (K & _).
    destruct (get_page_stats_total ci i K) as (st & s & E1 & E2 & E3 & E4). exists st, s. split; [done|]. unfold carquet_column_index_num_pages. rewrite <- E3, E2.
    destruct (is_ok st); [|split; [split; [done|intros []; done]|done]]. split; [split; [by intros _ ?|done]|]. intros _.
    destruct s as [p|]; [exists p; split; [done|by apply E4]|discriminate (proj1 E2 eq_refl)].
  - destruct (offset_index_parse_total data size Hb Hs Hs') as (r & E & H). exists r. split; [done|]. intros oi Hoi i.
    destruct (get_page_location_total oi i (H oi Hoi)) as (st & l & E1 & E2 & E3). exists st, l. split; [done|]. unfold carquet_offset_index_num_pages. rewrite <- E3, E2.
    destruct (is_ok st); [|split; [split; [done|intros []; done]|done]]. split; [split; [by intros _ ?|done]|]. intros _.
    destruct l as [p|]; [by exists p|discriminate (proj1 E2 eq_refl)].
Qed.

Lemma page_index_parse_safe_witness : let data := [25; 33; 1; 0; 25; 40; 1; 5; 0; 25; 24; 1; 9; 21; 2; 0] in
  exists r, carquet_column_index_parse (Hp := plain_heap) (Some data) 16 = Some r /\
    forall ci, r = Some ci -> exists s, carquet_column_index_get_page_stats ci 9 = Some (s, None).
Proof.
  intros data. destruct (page_index_parse_safe (Hp := plain_heap) data 16) as [(r & E & H) _].
  - apply (bool_decide_unpack _). vm_compute. exact I.
  - split; vm_compute; discriminate.
  - reflexivity.
  - exists r. split; [exact E|]. intros ci Hci. destruct (H ci Hci 9) as (st & s & E1 & H2 & _).
    vm_compute in E. injection E as <-. first [discriminate Hci | injection Hci as <-; vm_compute in E1; injection E1 as <- <-; eexists; vm_compute; reflexivity].
Defined.
