(* ===== verification/PageIndexBuild.v ===== *)
(** * The page index: building

    The builders as lists of pages: every page that was added without an error is there,
    in order, however often the arrays grew.  A builder whose arrays could not all be moved
    is the exception; it keeps pointers to freed memory. *)

From S2P Require Import Prelude Status Endian Memory Heap ParquetTypes PageIndex.
From coqutil Require Import Datatypes.RecordSetters.
Import RecordSetters.TriangleBracketNotations.

#[local] Open Scope Z_scope.

(** ** Arrays that grow *)

(** A live array of [cap] cells that begins with [xs]. *)
Definition cells {X} (p : block X) (cap : Z) (xs : list X) : Prop := exists l, p = Live l /\ lenZ l = cap /\ xs `prefix_of` l.

(** The bounds of the pages [xs] in the two arrays: the cells behind are NULL, and a
    length counts only where there is a bound. *)
Definition bound_cells (values : block (option (list Z))) (lens : block Z) (cap : Z) (xs : list (option (list Z))) : Prop :=
  lenZ xs <= cap /\ values = Live (xs ++ replicate (Z.to_nat (cap - lenZ xs)) None) /\
  exists ls, lens = Live ls /\ lenZ ls = cap /\ forall i bs, xs !! i = Some (Some bs) -> ls !! i = Some (lenZ bs).

Section Cells.
Context {Hp : ArrayHeap} {Ok : ArrayHeapOk Hp}.

Lemma cells_wr {X} (p : block X) cap xs x : cells p cap xs -> lenZ xs < cap -> exists p', block_wr p (lenZ xs) x = Some p' /\ cells p' cap (xs ++ [x]).
Proof.
  intros (l & -> & L & q & ->) Hn. unfold block_wr. cbn. rewrite length_app in L. rewrite wr_Some by (rewrite length_app; lia). cbn. eexists. split; [done|].
  rewrite Nat2Z.id, insert_app_r_alt, Nat.sub_diag by lia. destruct q as [|y q]; [cbn in L; lia|]. eexists. split; [done|]. split; [rewrite length_app in *; cbn in *; lia|].
  exists q. by rewrite <- app_assoc.
Qed.

Lemma cells_realloc {X} {HX : Inhabited X} (p : block X) cap xs cap' size x : cells p cap xs -> cap <= cap' ->
  exists r p', block_realloc p cap' size = Some (r, p') /\ (r = None -> ArrayHeapTotal Hp -> cap' < 2 ^ 31 -> False) /\ (forall q, r = Some q -> cells (Live (init_from q (lenZ xs) cap' x)) cap' xs /\ init_from q (lenZ xs) cap' x = xs ++ replicate (Z.to_nat (cap' - lenZ xs)) x).
Proof.
  intros (l & -> & L & q & ->) Hc. rewrite length_app in L. unfold block_realloc. cbn. destruct (array_realloc (xs ++ q) cap' size) as [r|] eqn:E; (eexists _, _; split; [done|]; split; [try done|]).
  2:{ intros _ T HT. apply (not_total _ _ _ E); [lia|done]. }
  2: done.
  intros ? [= <-]. pose proof (array_length _ _ _ _ _ _ E ltac:(lia)) as Lr. pose proof (array_prefix _ _ _ _ _ _ (length xs) E ltac:(rewrite length_app; lia) ltac:(lia)) as P.
  rewrite take_app_length in P. assert (init_from r (lenZ xs) cap' x = xs ++ replicate (Z.to_nat (cap' - lenZ xs)) x) as EI by (unfold init_from; by rewrite Nat2Z.id, P).
  split; [|done]. eexists. split; [done|]. rewrite EI. split; [rewrite length_app, length_replicate; lia|by eexists].
Qed.

Lemma cells_weaken {X} (p : block X) cap xs ys : cells p cap (xs ++ ys) -> cells p cap xs.
Proof. intros (l & -> & L & q & ->). eexists. split; [done|]. split; [done|]. exists (ys ++ q). by rewrite app_assoc. Qed.

Lemma cells_len {X} (p : block X) cap xs : cells p cap xs -> lenZ xs <= cap.
Proof. intros (l & _ & L & q & ->). rewrite length_app in L. lia. Qed.

Lemma cells_pages {X} (p : block X) cap xs : cells p cap xs -> pages_of (lenZ xs) p = Some xs.
Proof.
  intros (l & -> & L & q & ->). unfold pages_of. destruct (Z.eqb_spec (lenZ xs) 0) as [E|]; [by destruct xs|]. cbn. rewrite length_app in L.
  rewrite rd_n_Some by (rewrite ?length_app; lia). by rewrite Nat2Z.id, drop_0, take_app_length.
Qed.

(** The length cells count only where there is a bound. *)
Lemma lens_cells {X} {HX : Inhabited X} (values : block (option (list Z))) lens cap xs : bound_cells values lens cap xs -> cells values cap xs /\ cells lens cap [].
Proof.
  intros (Hc & -> & ls & -> & Ls & _). split; [|exists ls; split; [done|]; split; [done|by exists ls]].
  eexists. split; [done|]. split; [rewrite length_app, length_replicate; lia|by eexists].
Qed.

Lemma bound_cells_none values lens cap xs : bound_cells values lens cap xs -> lenZ xs < cap -> bound_cells values lens cap (xs ++ [None]).
Proof.
  intros (Hc & -> & ls & -> & Ls & H) Hn. split; [rewrite length_app; cbn; lia|]. split.
  - f_equal. rewrite <- app_assoc. f_equal. rewrite length_app. cbn [length]. by replace (Z.to_nat (cap - lenZ xs)) with (S (Z.to_nat (cap - Z.of_nat (length xs + 1)))) by lia.
  - exists ls. split; [done|]. split; [done|]. intros i bs Hi. apply lookup_app_Some in Hi as [Hi|[_ Hi]]; [by apply H|]. destruct (i - length xs)%nat as [|k]; [done|by destruct k].
Qed.

(** Storing NULL behind the pages changes nothing. *)
Lemma bound_cells_reset values lens cap xs : bound_cells values lens cap xs -> lenZ xs < cap -> block_wr values (lenZ xs) None = Some values.
Proof.
  intros (Hc & -> & _) Hn. unfold block_wr. cbn. rewrite wr_Some by (rewrite length_app, length_replicate; lia). cbn. do 2 f_equal.
  rewrite Nat2Z.id, insert_app_r_alt, Nat.sub_diag by lia. by replace (Z.to_nat (cap - lenZ xs)) with (S (Z.to_nat (cap - lenZ xs - 1))) by lia.
Qed.

Lemma bound_cells_some values lens cap xs bs : bound_cells values lens cap xs -> lenZ xs < cap ->
  exists v' l', store_bound values lens (lenZ xs) (Some bs) (lenZ bs) = Some (v', l') /\ bound_cells v' l' cap (xs ++ [Some bs]) /\ block_wr v' (lenZ xs) None = Some values.
Proof.
  intros (Hc & -> & ls & -> & Ls & H) Hn. unfold store_bound, block_wr. cbn.
  replace (Z.to_nat (cap - lenZ xs)) with (S (Z.to_nat (cap - lenZ xs - 1))) by lia. cbn [replicate].
  rewrite (wr_Some (_ ++ _)) by (rewrite length_app; cbn; lia). cbn. rewrite Nat2Z.id, insert_app_r_alt, Nat.sub_diag by lia. cbn [list_insert].
  rewrite wr_Some by lia. cbn. eexists _, _. split; [done|]. split.
  - split; [rewrite length_app; cbn; lia|]. split.
    + f_equal. rewrite <- app_assoc. cbn. do 3 f_equal. rewrite length_app. cbn. lia.
    + eexists. split; [done|]. rewrite length_insert. split; [done|]. intros i b Hi. rewrite Nat2Z.id. apply lookup_app_Some in Hi as [Hi|[Hg Hi]].
      * rewrite list_lookup_insert_ne; [by apply H|]. apply lookup_lt_Some in Hi. lia.
      * destruct (i - length xs)%nat as [|k] eqn:Ek; [|by destruct k]. injection Hi as <-. replace i with (length xs) by lia. rewrite list_lookup_insert_eq; [done|lia].
  - cbn. rewrite wr_Some by (rewrite length_app; cbn; lia). cbn. rewrite Nat2Z.id, insert_app_r_alt, Nat.sub_diag by lia. cbn. done.
Qed.

Lemma bound_cells_grow values lens cap xs cap' : bound_cells values lens cap xs -> cap <= cap' ->
  exists r1 v' r2 l', block_realloc values cap' 8 = Some (r1, v') /\ block_realloc lens cap' 4 = Some (r2, l') /\
    (r1 = None -> ArrayHeapTotal Hp -> cap' < 2 ^ 31 -> False) /\ (r2 = None -> ArrayHeapTotal Hp -> cap' < 2 ^ 31 -> False) /\
    (forall q k, r1 = Some q -> r2 = Some k -> bound_cells (Live (init_from q (lenZ xs) cap' None)) (Live (init_from k (lenZ xs) cap' 0)) cap' xs).
Proof.
  intros H Hc. pose proof H as (Hx & Ev & ls & El & Ll & HL). destruct (lens_cells (HX := populate 0) _ _ _ _ H) as [C1 _].
  destruct (cells_realloc values cap xs cap' 8 None C1 Hc) as (r1 & v' & E1 & N1 & S1).
  assert (cells lens cap (take (length xs) ls)) as C2 by (exists ls; split; [done|]; split; [done|apply prefix_take]).
  destruct (cells_realloc lens cap _ cap' 4 0 C2 Hc) as (r2 & l' & E2 & N2 & S2). exists r1, v', r2, l'. repeat (split; [done|]).
  intros q k -> ->. destruct (S1 q eq_refl) as [_ EI]. destruct (S2 k eq_refl) as [(l & _ & L2 & _) EK]. split; [lia|]. split; [by rewrite EI|].
  assert (lenZ (take (length xs) ls) = lenZ xs) as LT by (rewrite length_take; lia). rewrite LT in EK. eexists. split; [done|]. rewrite EK.
  split; [rewrite length_app, length_replicate; lia|]. intros i bs Hi. pose proof (lookup_lt_Some _ _ _ Hi). rewrite lookup_app_l by lia. rewrite lookup_take_lt by lia. by apply HL.
Qed.

End Cells.

(** ** The column index builder *)

Record page := mk_page { pg_null_count : Z; pg_min : option (list Z); pg_max : option (list Z); pg_null_page : bool }.

(** What is kept of a bound passed as a pointer and a length. *)
Definition bound_arg (value : option (list Z)) (len : Z) : option (list Z) := if len >? 0 then take (Z.to_nat len) <$> value else None.

Definition arg_ok (value : option (list Z)) (len : Z) : Prop := len < 2 ^ 31 /\ match value with Some p => len <= lenZ p | None => True end.

Record column_builds (b : carquet_column_index_builder_t) (pages : list page) : Prop := {
  ub_num : cb_num_pages b = lenZ pages;
  ub_cap : 0 < cb_capacity b;
  ub_counts : cells (cb_null_counts b) (cb_capacity b) (pg_null_count <$> pages);
  ub_nulls : cells (cb_null_pages b) (cb_capacity b) (pg_null_page <$> pages);
  ub_min : bound_cells (cb_min_values b) (cb_min_value_lens b) (cb_capacity b) (pg_min <$> pages);
  ub_max : bound_cells (cb_max_values b) (cb_max_value_lens b) (cb_capacity b) (pg_max <$> pages) }.

Section Builder.
Context {Hp : ArrayHeap} {Ok : ArrayHeapOk Hp}.

Lemma column_create_builds type lt type_length b : carquet_column_index_builder_create type lt type_length = Some b -> column_builds b [] /\ cb_boundary_order b = 0.
Proof.
  unfold carquet_column_index_builder_create. destruct (array_calloc tt 1 216); [|done].
  destruct (array_calloc 0 16 8) as [nc|] eqn:E1; [|done]. destruct (array_calloc (X := option (list Z)) None 16 8) as [mi|] eqn:E2; [|done].
  destruct (array_calloc 0 16 4) as [ml|] eqn:E3; [|done]. destruct (array_calloc false 16 1) as [np|] eqn:E4; [|done]. intros [= <-].
  apply calloc_inv in E1 as ->. apply calloc_inv in E2 as ->. apply calloc_inv in E3 as ->. apply calloc_inv in E4 as ->.
  split; [|done]. constructor; cbn; try done; try (eexists; split; [done|]; split; [done|by eexists]); (split; [done|]; split; [done|]; by eexists).
Qed.

Lemma column_ensure_capacity_spec b pages : column_builds b pages ->
  exists status b', ensure_capacity b = Some (status, b') /\ cb_boundary_order b' = cb_boundary_order b /\
    (is_ok status = true -> column_builds b' pages /\ lenZ pages < cb_capacity b') /\ (lenZ pages < cb_capacity b -> status = CARQUET_OK) /\
    (ArrayHeapTotal Hp -> lenZ pages < 2 ^ 30 -> status = CARQUET_OK).
Proof.
  intros [N C H1 H2 H3 H4]. unfold ensure_capacity. rewrite N. destruct (Z.ltb_spec (lenZ pages) (cb_capacity b)) as [Hc|Hc]; [by eexists _, _|].
  assert (forall X (f : page -> X), lenZ (f <$> pages) = lenZ pages) as LF by (intros; by rewrite length_fmap).
  assert (cb_capacity b = lenZ pages) as EC by (apply cells_len in H1; rewrite LF in H1; lia).
  destruct (cells_realloc (cb_null_counts b) _ _ (cb_capacity b * 2) 8 0 H1 ltac:(lia)) as (r1 & p1 & -> & T1 & S1). cbn [mbind option_bind].
  destruct (bound_cells_grow _ _ _ _ (cb_capacity b * 2) H3 ltac:(lia)) as (r2 & p2 & r3 & p3 & -> & -> & T2 & T3 & S2). cbn [mbind option_bind].
  destruct (bound_cells_grow _ _ _ _ (cb_capacity b * 2) H4 ltac:(lia)) as (r4 & p4 & r5 & p5 & -> & -> & T4 & T5 & S3). cbn [mbind option_bind].
  destruct (cells_realloc (cb_null_pages b) _ _ (cb_capacity b * 2) 1 false H2 ltac:(lia)) as (r6 & p6 & -> & T6 & S4). cbn [mbind option_bind].
  rewrite !LF in *.
  destruct r1 as [q1|], r2 as [q2|], r3 as [q3|], r4 as [q4|], r5 as [q5|], r6 as [q6|];
    try (eexists _, _; split; [done|]; split; [done|]; split; [done|]; split; [lia|]; intros T HT; exfalso;
         first [apply (T1 eq_refl T) | apply (T2 eq_refl T) | apply (T3 eq_refl T) | apply (T4 eq_refl T) | apply (T5 eq_refl T) | apply (T6 eq_refl T)]; lia).
  eexists _, _. split; [done|]. split; [done|]. split; [|done]. intros _. split; [|cbn; lia].
  constructor; cbn; [done|lia|by apply S1|by apply S4|by apply S2|by apply S3].
Qed.

Lemma copy_bound_spec value len : arg_ok value len ->
  exists ok v, copy_bound value len = Some (ok, v) /\ (ok = true -> v = bound_arg value len) /\ (ArrayHeapTotal Hp -> ok = true) /\
    match bound_arg value len with Some bs => lenZ bs = len | None => True end.
Proof.
  unfold arg_ok, copy_bound, bound_arg. intros [Hl Hp']. destruct value as [p|]; [|eexists _, _; by destruct (len >? 0)].
  rewrite Z.gtb_ltb. destruct (Z.ltb_spec 0 len); [|by eexists _, _]. cbn [fmap option_fmap option_map]. destruct (array_calloc 0 len 1) as [x|] eqn:E.
  - rewrite rd_n_Some by lia. cbn [mbind option_bind]. eexists _, _. split; [done|]. change (Z.to_nat 0) with 0%nat. rewrite drop_0. split; [done|]. split; [done|]. rewrite length_take. lia.
  - eexists _, _. split; [done|]. split; [done|]. split; [|rewrite length_take; lia]. intros T. by rewrite array_calloc_total in E by (done || lia).
Qed.

Definition column_add (null_count : Z) (min_value : option (list Z)) (min_len : Z) (max_value : option (list Z)) (max_len : Z) (is_null : bool) : page :=
  mk_page null_count (bound_arg min_value min_len) (bound_arg max_value max_len) is_null.

(** The cell of one more page, whether there is a bound or not. *)
Lemma store_bound_spec values lens cap xs (v : option (list Z)) len : bound_cells values lens cap xs -> lenZ xs < cap -> match v with Some bs => lenZ bs = len | None => True end ->
  exists v' l', store_bound values lens (lenZ xs) v len = Some (v', l') /\ bound_cells v' l' cap (xs ++ [v]) /\ block_wr v' (lenZ xs) None = Some values.
Proof.
  intros H Hn Hv. destruct v as [bs|].
  - rewrite <- Hv. by apply bound_cells_some.
  - eexists _, _. split; [done|]. split; [by apply bound_cells_none|by apply (bound_cells_reset _ lens cap)].
Qed.

(** Lengths of the page before may be overwritten, its pointer is not. *)
Lemma bound_cells_drop values cap xs v l' w : bound_cells values l' cap (xs ++ [v]) -> block_wr values (lenZ xs) None = Some w -> bound_cells w l' cap xs.
Proof.
  intros (Hc & -> & ls & -> & Ls & H). unfold block_wr. cbn. rewrite length_app in Hc. cbn in Hc. rewrite wr_Some by (rewrite !length_app; cbn; lia). cbn. intros [= <-].
  split; [lia|]. split.
  - f_equal. rewrite Nat2Z.id, <- app_assoc, insert_app_r_alt, Nat.sub_diag by lia. cbn. f_equal. rewrite length_app. cbn [length].
    by replace (Z.to_nat (cap - lenZ xs)) with (S (Z.to_nat (cap - Z.of_nat (length xs + 1)))) by lia.
  - exists ls. split; [done|]. split; [done|]. intros i bs Hi. apply H. rewrite lookup_app_l; [done|]. by eapply lookup_lt_Some.
Qed.

Lemma add_page_spec b pages null_count min_value min_len max_value max_len is_null : column_builds b pages -> arg_ok min_value min_len -> arg_ok max_value max_len ->
  exists status b', carquet_column_index_add_page b null_count min_value min_len max_value max_len is_null = Some (status, b') /\ cb_boundary_order b' = cb_boundary_order b /\
    (is_ok status = true -> column_builds b' (pages ++ [column_add null_count min_value min_len max_value max_len is_null])) /\
    (is_ok status = false -> lenZ pages < cb_capacity b -> column_builds b' pages) /\
    (ArrayHeapTotal Hp -> lenZ pages < 2 ^ 30 -> status = CARQUET_OK).
Proof.
  intros B Am Ax. unfold carquet_column_index_add_page. destruct (column_ensure_capacity_spec b pages B) as (st & b1 & E & EO & H1 & H2 & H3). rewrite E. cbn [mbind option_bind].
  destruct (is_ok st) eqn:Est; cbn [negb]; [|exists st, b1; rewrite Est; split; [done|]; split; [done|]; split; [done|]; split; [intros _ Hl; by rewrite (H2 Hl) in Est|intros T Hl; by apply H3]].
  destruct (H1 eq_refl) as [[N C K1 K2 K3 K4] Hcap]. clear H1. rewrite N. assert (forall X (f : page -> X), lenZ (f <$> pages) = lenZ pages) as LF by (intros; by rewrite length_fmap).
  destruct (cells_wr _ _ _ null_count K1) as (nc & E1 & K1'); [by rewrite LF|]. rewrite LF in E1. rewrite E1. cbn [mbind option_bind].
  destruct (cells_wr _ _ _ is_null K2) as (np & E2 & K2'); [by rewrite LF|]. rewrite LF in E2. rewrite E2. cbn [mbind option_bind].
  destruct b1 as [ty lt tl cap n nc0 mi ml ma xl np0 order]. cbn in *. unfold constant.
  destruct (copy_bound_spec min_value min_len Am) as (ok1 & v1 & -> & V1 & T1 & L1). cbn [mbind option_bind].
  destruct ok1; cbn [negb].
  2:{ rewrite <- (LF _ pg_min), (bound_cells_reset _ _ _ _ K3) by (by rewrite LF). cbn [mbind option_bind]. eexists _, _. split; [done|]. split; [done|]. split; [done|].
      split; [|by intros T; specialize (T1 T)]. intros _ _. constructor; cbn; (done || by eapply cells_weaken). }
  rewrite (V1 eq_refl). destruct (store_bound_spec mi ml cap _ (bound_arg min_value min_len) min_len K3) as (mi' & ml' & E3 & K3' & R3); [by rewrite LF|exact L1|].
  rewrite LF in E3, R3. rewrite E3. cbn. unfold constant. destruct (copy_bound_spec max_value max_len Ax) as (ok2 & v2 & -> & V2 & T2 & L2). cbn [mbind option_bind]. destruct ok2; cbn [negb].
  2:{ rewrite <- (LF _ pg_max), (bound_cells_reset _ _ _ _ K4) by (by rewrite LF). cbn [mbind option_bind]. rewrite LF, R3. cbn [mbind option_bind]. eexists _, _. split; [done|]. split; [done|]. split; [done|].
      split; [|by intros T; specialize (T2 T)]. intros _ _. constructor; cbn; try (done || by eapply cells_weaken).
      apply (bound_cells_drop mi' cap _ _ ml' mi K3'). by rewrite LF. }
  rewrite (V2 eq_refl). destruct (store_bound_spec ma xl cap _ (bound_arg max_value max_len) max_len K4) as (ma' & xl' & E4 & K4' & R4); [by rewrite LF|exact L2|].
  rewrite LF in E4. rewrite E4. cbn. unfold constant. eexists _, _. split; [done|]. split; [done|]. split; [|split; [done|done]]. intros _.
  constructor; cbn; rewrite ?fmap_app; try done. rewrite length_app. cbn. lia.
Qed.

End Builder.

(** ** The offset index builder *)

Record location := mk_location { lo_offset : Z; lo_compressed : Z; lo_first_row : Z; lo_uncompressed : Z }.

Record offset_builds (b : carquet_offset_index_builder_t) (locs : list location) : Prop := {
  uo_num : ob_num_pages b = lenZ locs;
  uo_cap : 0 < ob_capacity b;
  uo_offsets : cells (ob_offsets b) (ob_capacity b) (lo_offset <$> locs);
  uo_sizes : cells (ob_compressed_sizes b) (ob_capacity b) (lo_compressed <$> locs);
  uo_rows : cells (ob_first_row_indices b) (ob_capacity b) (lo_first_row <$> locs);
  uo_uncompressed : match ob_uncompressed_sizes b with Some u => cells u (ob_capacity b) (lo_uncompressed <$> locs) | None => True end }.

Definition shift_location (delta : Z) (l : location) : location := mk_location (lo_offset l + delta) (lo_compressed l) (lo_first_row l) (lo_uncompressed l).

(** The sizes are tracked, or not. *)
Definition tracks (b : carquet_offset_index_builder_t) : bool := match ob_uncompressed_sizes b with Some _ => true | None => false end.

Section Offsets.
Context {Hp : ArrayHeap} {Ok : ArrayHeapOk Hp}.

Lemma offset_create_builds track b : carquet_offset_index_builder_create track = Some b -> offset_builds b [] /\ tracks b = track.
Proof.
  unfold carquet_offset_index_builder_create. destruct (array_calloc tt 1 48); [|done].
  destruct (array_calloc 0 16 8) as [o|] eqn:E1; [|done]. destruct (array_calloc 0 16 4) as [c|] eqn:E2; [|done].
  apply calloc_inv in E1 as ->. apply calloc_inv in E2 as ->.
  destruct track; cbn [fmap option_fmap option_map]; intros [= <-]; (split; [|done]); constructor; cbn; try done; (eexists; split; [done|]; split; [done|by eexists]).
Qed.

(** A growth that [cells_realloc] describes keeps the cells. *)
Lemma cells_grown {X} {HX : Inhabited X} (p : block X) cap xs cap' size : cells p cap xs -> cap <= cap' ->
  exists r p', block_realloc p cap' size = Some (r, p') /\ (r = None -> ArrayHeapTotal Hp -> cap' < 2 ^ 31 -> False) /\ (forall q, r = Some q -> cells (Live q) cap' xs).
Proof.
  intros (l & -> & L & q & ->) Hc. rewrite length_app in L. unfold block_realloc. cbn. destruct (array_realloc (xs ++ q) cap' size) as [r|] eqn:E; (eexists _, _; split; [done|]; split; [try done|]).
  2:{ intros _ T HT. apply (not_total _ _ _ E); [lia|done]. }
  2: done.
  intros ? [= <-]. pose proof (array_length _ _ _ _ _ _ E ltac:(lia)) as Lr. pose proof (array_prefix _ _ _ _ _ _ (length xs) E ltac:(rewrite length_app; lia) ltac:(lia)) as P.
  rewrite take_app_length in P. eexists. split; [done|]. split; [done|]. exists (drop (length xs) r). by rewrite <- P at 1; rewrite take_drop.
Qed.

Lemma offset_ensure_spec b locs : offset_builds b locs ->
  exists status b', offset_ensure_capacity b = Some (status, b') /\
    (is_ok status = true -> offset_builds b' locs /\ lenZ locs < ob_capacity b' /\ tracks b' = tracks b) /\ (lenZ locs < ob_capacity b -> status = CARQUET_OK /\ b' = b) /\
    (ArrayHeapTotal Hp -> lenZ locs < 2 ^ 30 -> status = CARQUET_OK).
Proof.
  intros [N C H1 H2 H3 H4]. unfold offset_ensure_capacity. rewrite N. destruct (Z.ltb_spec (lenZ locs) (ob_capacity b)) as [Hc|Hc]; [by eexists _, _|].
  assert (ob_capacity b = lenZ locs) as EC by (apply cells_len in H1; rewrite length_fmap in H1; lia).
  destruct (cells_grown (ob_offsets b) _ _ (ob_capacity b * 2) 8 H1 ltac:(lia)) as (r1 & p1 & -> & T1 & S1). cbn [mbind option_bind].
  destruct (cells_grown (ob_compressed_sizes b) _ _ (ob_capacity b * 2) 4 H2 ltac:(lia)) as (r2 & p2 & -> & T2 & S2). cbn [mbind option_bind].
  destruct (cells_grown (ob_first_row_indices b) _ _ (ob_capacity b * 2) 8 H3 ltac:(lia)) as (r3 & p3 & -> & T3 & S3). cbn [mbind option_bind].
  destruct r1 as [q1|], r2 as [q2|], r3 as [q3|];
    try (eexists _, _; split; [done|]; split; [done|]; split; [lia|]; intros T HT; exfalso; first [apply (T1 eq_refl T) | apply (T2 eq_refl T) | apply (T3 eq_refl T)]; lia).
  destruct b as [cap n o c f [u|]]; cbn in *; unfold constant.
  - destruct (cells_grown u _ _ (cap * 2) 4 H4 ltac:(lia)) as (r4 & p4 & -> & T4 & S4). cbn [mbind option_bind]. destruct r4 as [q4|].
    + eexists _, _. split; [done|]. split; [|split; [lia|done]]. intros _. split; [|split; [cbn; lia|done]]. constructor; cbn; [done|lia|by apply S1|by apply S2|by apply S3|by apply S4].
    + eexists _, _. split; [done|]. split; [done|]. split; [lia|]. intros T HT. exfalso. apply (T4 eq_refl T). lia.
  - eexists _, _. split; [done|]. split; [|split; [lia|done]]. intros _. split; [|split; [cbn; lia|done]]. constructor; cbn; [done|lia|by apply S1|by apply S2|by apply S3|done].
Qed.

Lemma offset_add_spec b locs offset size row unc : offset_builds b locs ->
  exists status b', carquet_offset_index_add_page b offset size row unc = Some (status, b') /\
    (is_ok status = true -> offset_builds b' (locs ++ [mk_location offset size row unc]) /\ tracks b' = tracks b) /\
    (is_ok status = false -> ob_capacity b <= lenZ locs) /\ (ArrayHeapTotal Hp -> lenZ locs < 2 ^ 30 -> status = CARQUET_OK).
Proof.
  intros B. unfold carquet_offset_index_add_page. destruct (offset_ensure_spec b locs B) as (st & b1 & E & H1 & H2 & H3). rewrite E. cbn [mbind option_bind].
  destruct (is_ok st) eqn:Est; cbn [negb].
  2:{ exists st, b1. rewrite Est. split; [done|]. split; [done|]. split; [|done]. intros _. destruct (Z.lt_ge_cases (lenZ locs) (ob_capacity b)) as [Hl|]; [|lia].
      destruct (H2 Hl) as [-> _]. done. }
  destruct (H1 eq_refl) as ([N C K1 K2 K3 K4] & Hcap & HT). rewrite N. clear H1.
  destruct (cells_wr _ _ _ offset K1) as (o & E1 & K1'); [by rewrite length_fmap|]. rewrite length_fmap in E1. rewrite E1. cbn [mbind option_bind].
  destruct (cells_wr _ _ _ size K2) as (c & E2 & K2'); [by rewrite length_fmap|]. rewrite length_fmap in E2. rewrite E2. cbn [mbind option_bind].
  destruct (cells_wr _ _ _ row K3) as (f & E3 & K3'); [by rewrite length_fmap|]. rewrite length_fmap in E3. rewrite E3. cbn [mbind option_bind].
  assert (exists u', (match ob_uncompressed_sizes b1 with None => Some None | Some u => Some <$> block_wr u (lenZ locs) unc end) = Some u' /\
    match u' with Some u => cells u (ob_capacity b1) (lo_uncompressed <$> locs ++ [mk_location offset size row unc]) /\ tracks b1 = true | None => tracks b1 = false end) as (u' & -> & K4').
  { unfold tracks. destruct (ob_uncompressed_sizes b1) as [u|]; [|by eexists]. destruct (cells_wr _ _ _ unc K4) as (u' & E4 & K4'); [by rewrite length_fmap|].
    rewrite length_fmap in E4. rewrite E4. eexists. split; [done|]. by rewrite fmap_app. }
  cbn [mbind option_bind]. eexists _, _. split; [done|]. split; [|done]. intros _. split.
  - constructor; cbn; rewrite ?fmap_app; try done; [rewrite length_app; cbn; lia|]. destruct u' as [u|]; [|done]. rewrite <- (fmap_app lo_uncompressed). apply K4'.
  - rewrite <- HT. destruct u' as [u|]; cbn; [by destruct K4' as [_ ->]|by rewrite K4'].
Qed.

Lemma shift_from_spec delta : forall n k (l : list Z), (k + n <= length l)%nat -> Forall (λ x, in_i 64 (x + delta)) (take n (drop k l)) ->
  shift_from n (Z.of_nat k) delta l = Some (take k l ++ ((λ x, x + delta) <$> take n (drop k l)) ++ drop (k + n) l).
Proof.
  induction n as [|n IH]; intros k l Hk Hr; cbn [shift_from]; [by rewrite Nat.add_0_r, take_0; cbn [fmap list_fmap app]; rewrite take_drop|].
  destruct (rd_Some l (Z.of_nat k)) as [x Ex]; [lia|]. rewrite Ex. cbn [mbind option_bind].
  rewrite rd_lookup, Nat2Z.id in Ex by lia. rewrite (drop_S l x k Ex) in Hr. cbn [take] in Hr. apply Forall_cons_iff in Hr as [Hx Hr].
  rewrite sint_Some by done. cbn [mbind option_bind]. rewrite wr_Some by lia. cbn [mbind option_bind].
  rewrite Nat2Z.id. replace (Z.of_nat k + 1) with (Z.of_nat (S k)) by lia. rewrite IH by (rewrite ?length_insert, ?drop_insert_lt by lia; (lia || done)). f_equal.
  rewrite (take_S_r _ k (x + delta)) by (rewrite list_lookup_insert_eq; [done|lia]). rewrite take_insert_ge by lia. rewrite !drop_insert_lt by lia.
  rewrite (drop_S l x k Ex). cbn [take fmap list_fmap]. rewrite <- app_assoc. cbn [app]. by replace (S k + n)%nat with (k + S n)%nat by lia.
Qed.

Lemma shift_offsets_spec b locs delta : offset_builds b locs -> Forall (λ l, in_i 64 (lo_offset l + delta)) locs ->
  exists b', carquet_offset_index_builder_shift_offsets b delta = Some b' /\ offset_builds b' (shift_location delta <$> locs) /\ tracks b' = tracks b.
Proof.
  intros B HF. unfold carquet_offset_index_builder_shift_offsets. destruct (Z.eqb_spec delta 0) as [->|Hd].
  { exists b. split; [done|]. split; [|done]. replace (shift_location 0 <$> locs) with locs; [done|]. rewrite <- (list_fmap_id locs) at 1.
    apply list_fmap_ext. intros _ [o c f u] _. unfold shift_location. cbn. by rewrite Z.add_0_r. }
  destruct B as [N C H1 H2 H3 H4].
  pose proof H1 as (l & El & L & q & Hq). rewrite El, N, Z.gtb_ltb. destruct (Z.ltb_spec 0 (lenZ locs)).
  - cbn [live mbind option_bind]. rewrite (shift_from_spec delta _ 0).
    2:{ rewrite Hq, length_app, length_fmap. lia. }
    2:{ rewrite drop_0, Hq, Nat2Z.id, <- (length_fmap lo_offset locs), take_app_length. by apply Forall_fmap. }
    cbn [mbind option_bind take app Nat.add]. rewrite drop_0.
    eexists. split; [done|]. split; [|by destruct b]. rewrite Nat2Z.id, Hq. rewrite <- (length_fmap lo_offset locs), take_app_length, drop_app_length.
    destruct b. cbn in *. unfold constant. constructor; cbn; rewrite ?length_fmap, <- ?list_fmap_compose; try done.
    eexists. split; [done|]. split; [rewrite <- L, Hq, !length_app, !length_fmap; done|]. exists q. f_equal.
  - cbn [mbind option_bind]. destruct locs; [|cbn in *; lia]. cbn. eexists. split; [done|]. split; [|done]. by constructor.
Qed.

End Offsets.
