(* ===== verification/PageIndexRoundtrip.v ===== *)
(** * The page index: what is built is read back

    The serialised index is one Thrift value; parsing it gives the pages that were added,
    bounds and null pages included, through the accessors a reader uses. *)

From S2P Require Import Prelude Status Endian Memory Heap Buffer ThriftDecode ThriftEncode ThriftRoundtrip ThriftParse ParquetTypes ParquetWrite ParquetValues HeaderRoundtrip PageIndex PageIndexSafe PageIndexBuild.
From coqutil Require Import Datatypes.RecordSetters.
Import RecordSetters.TriangleBracketNotations.

#[local] Open Scope Z_scope.

(** ** The index as a Thrift value *)

Definition bound_val (v : option (list Z)) : tval := VBinary (default [] v).

Definition column_index_val (order : Z) (pages : list page) : tval :=
  VStruct [(1, VList 1 (map VBool (map pg_null_page pages))); (2, VList 8 (map bound_val (map pg_min pages))); (3, VList 8 (map bound_val (map pg_max pages)));
           (4, VI32 order); (5, VList 6 (map VI64 (map pg_null_count pages)))].

Definition location_val (l : location) : tval := VStruct [(1, VI64 (lo_offset l)); (2, VI32 (lo_compressed l)); (3, VI64 (lo_first_row l))].

Definition offset_index_val (track : bool) (locs : list location) : tval :=
  VStruct ((1, VList 12 (map location_val locs)) :: if track then [(2, VList 5 (map VI32 (map lo_uncompressed locs)))] else []).

(** ** What is read back *)

Definition bound_len (v : option (list Z)) : Z := lenZ (default [] v).

Definition column_index_of (order : Z) (pages : list page) : carquet_column_index_t :=
  let n := lenZ pages in
  mk_column_index n (Some (map pg_null_count pages)) n (Some (map pg_min pages)) (Some (map bound_len (map pg_min pages))) n
    (Some (map pg_max pages)) (Some (map bound_len (map pg_max pages))) n (Some (map pg_null_page pages)) n order.

Definition location_of (l : location) : carquet_page_location_t := mk_page_location (lo_offset l) (lo_compressed l) (lo_first_row l).

Definition offset_index_of (locs : list location) : carquet_offset_index_t := mk_offset_index (lenZ locs) (Some (map location_of locs)).

(** ** The limits of the reader *)

Definition bound_fits (v : option (list Z)) : Prop := match v with Some bs => bytes_ok bs /\ 0 < lenZ bs < 2 ^ 31 | None => True end.

#[export] Instance bound_fits_dec v : Decision (bound_fits v).
Proof. unfold bound_fits. destruct v; apply _. Defined.

Definition page_fits (p : page) : Prop := in_i 64 (pg_null_count p) /\ bound_fits (pg_min p) /\ bound_fits (pg_max p).

Definition pages_fit (pages : list page) : Prop := lenZ pages <= 1000000 /\ Forall page_fits pages.

#[export] Instance pages_fit_dec pages : Decision (pages_fit pages).
Proof. unfold pages_fit, page_fits. apply _. Defined.

Definition location_fits (l : location) : Prop := in_i 64 (lo_offset l) /\ in_i 32 (lo_compressed l) /\ in_i 64 (lo_first_row l) /\ in_i 32 (lo_uncompressed l).

Definition locations_fit (locs : list location) : Prop := lenZ locs <= 1000000 /\ Forall location_fits locs.

#[export] Instance locations_fit_dec locs : Decision (locations_fit locs).
Proof. unfold locations_fit, location_fits. apply _. Defined.

(** ** Writing *)

Section Emit.
Context {A : Allocator} {Hp : ArrayHeap}.

Lemma emits_bool v : emits (write_bool v) (val_ops (VBool v)).
Proof. by apply emits_one. Qed.

Lemma emits_empty_binary : emits (write_binary (None, 0)) (val_ops (VBinary [])).
Proof. apply emits_one; [done|]. intros enc. unfold write_binary, thrift_write_binary. cbn. by destruct (thrift_write_varint enc 0). Qed.

(** The elements of an array of a builder. *)
Lemma emits_elements {X} id t (p : block X) cap xs (w : X -> tenc) (f : X -> tval) : in_i 16 id -> 0 <= t < 16 -> lenZ xs < 2 ^ 31 -> cells p cap xs ->
  Forall (λ x, emits (w x) (val_ops (f x))) xs ->
  emits_fields (field THRIFT_TYPE_LIST id (wseq (write_list_begin t (lenZ xs)) (wread (pages_of (lenZ xs) p) (λ l, wfor l w)))) [(id, VList t (map f xs))].
Proof.
  intros Hid Ht Hl HC Hw. apply emits_field; [|done|done|done]. rewrite (cells_pages _ _ _ HC). by apply emits_list.
Qed.

Lemma map_zip_snd {X Y Z'} (f : Y -> Z') (xs : list X) ys : length xs = length ys -> map (λ v, f v.2) (zip xs ys) = map f ys.
Proof. revert ys. induction xs as [|x xs IH]; intros [|y ys]; cbn; try done. intros [= H]. by rewrite IH. Qed.

Lemma emits_bounds id values lens cap xs : in_i 16 id -> lenZ xs < 2 ^ 31 -> bound_cells values lens cap xs -> Forall bound_fits xs ->
  emits_fields (field THRIFT_TYPE_LIST id (wseq (write_list_begin THRIFT_TYPE_BINARY (lenZ xs)) (write_bounds (lenZ xs) values lens))) [(id, VList 8 (map bound_val xs))].
Proof.
  intros Hid Hl HB HF. destruct (lens_cells (HX := populate 0) _ _ _ _ HB) as [C1 _]. destruct HB as (Hc & _ & ls & -> & Ls & H).
  apply emits_field; [|done|done|done]. unfold write_bounds. rewrite (cells_pages _ _ _ C1).
  assert (length (seqZ 0 (lenZ xs)) = length xs) as LZ by (rewrite length_seqZ; lia). rewrite <- (map_zip_snd bound_val (seqZ 0 (lenZ xs)) xs LZ).
  replace (lenZ xs) with (lenZ (zip (seqZ 0 (lenZ xs)) xs)) at 1 by (rewrite length_zip_with; lia).
  apply emits_list; [done|rewrite length_zip_with; lia|]. apply list.Forall_forall. intros [i v] Hi. apply list_elem_of_lookup in Hi as [k Hk].
  apply lookup_zip_with_Some in Hk as (i' & v' & [= <- <-] & Hi & Hv). apply lookup_seqZ in Hi as [-> _]. pose proof (Forall_lookup_1 _ _ _ _ HF Hv) as Hb. cbn [fst snd].
  destruct v as [bs|]; [|apply emits_empty_binary]. destruct Hb as [Hb Hb']. unfold block_rd. cbn [live mbind option_bind].
  rewrite rd_lookup, Z.add_0_l, Nat2Z.id by lia. rewrite (H _ _ Hv). apply emits_one; [split; [done|cbn; lia]|]. intros enc. done.
Qed.

Lemma emits_column_index b pages : column_builds b pages -> pages_fit pages -> in_i 32 (cb_boundary_order b) ->
  emits (write_column_index b) (val_ops (column_index_val (cb_boundary_order b) pages)).
Proof.
  intros [N C K1 K2 K3 K4] [HL HF] HO. unfold write_column_index, column_index_val. rewrite N.
  assert (forall X (f : page -> X), lenZ pages = lenZ (map f pages)) as LF by (intros; by rewrite length_map).
  apply emits_struct, (emits_end_seq _ _ [_]).
  { rewrite (LF _ pg_null_page). eapply emits_elements; [unfold in_i; lia|unfold THRIFT_TYPE_TRUE; lia|rewrite <- LF; lia|exact K2|]. by apply Forall_true, emits_bool. }
  apply (emits_end_seq _ _ [_]).
  { rewrite (LF _ pg_min). eapply emits_bounds; [unfold in_i; lia|rewrite <- LF; lia|exact K3|]. apply Forall_map. eapply Forall_impl; [|exact HF]. by intros p (_ & ? & _). }
  apply (emits_end_seq _ _ [_]).
  { rewrite (LF _ pg_max). eapply emits_bounds; [unfold in_i; lia|rewrite <- LF; lia|exact K4|]. apply Forall_map. eapply Forall_impl; [|exact HF]. by intros p (_ & _ & ?). }
  apply (emits_end_seq _ _ [_]); [apply emits_field; [by apply emits_i32|done|done|unfold in_i; lia]|]. apply emits_end_last.
  rewrite (LF _ pg_null_count). eapply emits_elements; [unfold in_i; lia|unfold THRIFT_TYPE_I64; lia|rewrite <- LF; lia|exact K1|].
  apply Forall_map. eapply Forall_impl; [|exact HF]. intros p (? & _). by apply emits_i64.
Qed.

Lemma emits_location l : location_fits l -> emits (write_page_location (lo_offset l, lo_compressed l, lo_first_row l)) (val_ops (location_val l)).
Proof.
  intros (? & ? & ? & _). apply emits_struct, (emits_end_seq _ _ [_]); [apply emits_field; [by apply emits_i64|done|done|unfold in_i; lia]|].
  apply (emits_end_seq _ _ [_]); [apply emits_field; [by apply emits_i32|done|done|unfold in_i; lia]|]. apply emits_end_last.
  apply emits_field; [by apply emits_i64|done|done|unfold in_i; lia].
Qed.

Lemma zip3_map {X A1 A2 A3} (f : X -> A1) (g : X -> A2) (h : X -> A3) l : zip (zip (map f l) (map g l)) (map h l) = map (λ x, (f x, g x, h x)) l.
Proof. induction l; cbn; [done|]. by f_equal. Qed.

Lemma wfor_map {X Y} (g : X -> Y) (w : Y -> tenc) l : wfor (map g l) w = wfor l (λ x, w (g x)).
Proof. induction l; cbn; [done|]. by rewrite IHl. Qed.

Lemma emits_offset_index b locs : offset_builds b locs -> locations_fit locs -> emits (write_offset_index b) (val_ops (offset_index_val (tracks b) locs)).
Proof.
  intros [N C K1 K2 K3 K4] [HL HF]. unfold write_offset_index, offset_index_val, tracks. rewrite N.
  assert (forall X (f : location -> X), lenZ locs = lenZ (map f locs)) as LF by (intros; by rewrite length_map).
  apply emits_struct, (emits_end_seq _ _ [_]).
  { apply emits_field; [|done|done|unfold in_i; lia].
    pose proof (cells_pages _ _ _ K1) as P1. pose proof (cells_pages _ _ _ K2) as P2. pose proof (cells_pages _ _ _ K3) as P3. rewrite length_fmap in P1, P2, P3. rewrite P1, P2, P3.
    unfold wread. cbn [mbind option_bind]. change ((lo_offset <$> locs)) with (map lo_offset locs). change (lo_compressed <$> locs) with (map lo_compressed locs). change (lo_first_row <$> locs) with (map lo_first_row locs).
    rewrite zip3_map, wfor_map. apply emits_list; [done|lia|]. eapply Forall_impl; [|exact HF]. intros l Hl. by apply emits_location. }
  apply emits_end_last. destruct (ob_uncompressed_sizes b) as [u|]; cbn [wopt]; [|apply emits_nop].
  rewrite (LF _ lo_uncompressed). eapply emits_elements; [unfold in_i; lia|unfold THRIFT_TYPE_I32; lia|rewrite <- LF; lia|exact K4|].
  apply Forall_map. eapply Forall_impl; [|exact HF]. intros l (_ & _ & _ & ?). by apply emits_i32.
Qed.

End Emit.

(** ** Reading *)

Section Read.
Context {Hp : ArrayHeap} (HT : ArrayHeapTotal Hp).

(** Nothing is taken from the second state. *)
Definition no_state (n : nat) (s : ()) : Prop := True.

#[local] Instance no_state_budget : Budget no_state.
Proof. done. Qed.

Abbreviation ireads := (preads no_state 0).

Lemma preads_bool room b : ireads (lift thrift_read_bool) room (val_bytes (VBool b)) b.
Proof.
  intros d q s B W Hok E _ Hp' _. exists (td_advance d 1), s. unfold lift. rewrite (reads_bool_byte b d q) by done.
  split; [done|]. split; [|done]. by apply (skipped_advance _ [if b then 1 else 0] q).
Qed.

Lemma index_list_reads {S} (x : S) k room t l y : 0 <= t < 16 -> lenZ l <= 1000000 -> Forall (λ v, 1 <= length (val_bytes v))%nat l ->
  ireads (k (lenZ l)) room (concat (map val_bytes l)) y -> ireads (index_list x k) room (val_bytes (VList t l)) y.
Proof.
  intros Ht Hl Hb Hk. apply (preads_list no_state 0 0); [done|lia|done|]. intros d q s B W Hok E Hr Hp' _.
  rewrite Z.gtb_ltb. decide_bool. cbn [orb]. by apply (Hk d q s B).
Qed.

(** A list of scalars, read by a loop. *)
Lemma scalars_reads {X} (f : pdec () X) (g : X -> tval) room l : Forall (λ x, ireads f room (val_bytes (g x)) x) l ->
  ireads (for_n (length l) f) room (concat (map val_bytes (map g l))) l.
Proof. intros H. rewrite map_map. rewrite <- (map_id l) at 3. by apply preads_for_n. Qed.

Lemma one_bound_reads {X} (k : option (list Z) * Z -> pdec () X) room v bs y : bound_fits v ->
  ireads (k (v, bound_len v)) room bs y ->
  ireads ('(bin, len) ← lift thrift_read_binary;
    match bin with
    | Some p => if len >? 0 then match array_calloc 0 len 1 with None => k (None, -1) | Some _ => bs ← access (rd_n p 0 len); k (Some bs, len) end else k (None, 0)
    | None => k (None, 0)
    end) room (val_bytes (bound_val v) ++ bs) y.
Proof.
  intros Hv Hk d q s B W Hok E Hr Hb _. rewrite <- app_assoc in E. set (v0 := default [] v).
  assert (bytes_ok v0 /\ lenZ v0 < 2 ^ 31) as [Hv1 Hv2] by (unfold v0; destruct v; cbn in *; [split; [apply Hv|lia]|split; [constructor|lia]]).
  destruct (read_binary_spec v0 d (bs ++ q) Hv1 Hv2 W Hok E) as (p & E1 & Hp'). pose proof (skipped_advance (td_nesting_level d) _ _ d W Hok E Hb) as S1.
  pose proof (skipped_rest _ _ _ _ _ W E S1) as R1. change (val_bytes (bound_val v)) with (uleb (lenZ v0) ++ v0) in *. set (d1 := td_advance d _) in *.
  destruct (Hk d1 q s B) as (d2 & s2 & E2 & S2 & _); try apply S1; [done|rewrite (sk_level _ _ _ _ S1); lia|done|].
  exists d2, s2. split; [|split; [|done]].
  2:{ rewrite (sk_level _ _ _ _ S1) in S2. by apply (skipped_trans _ _ _ q d d1). }
  unfold mbind at 1, pdec_bind at 1, lift. rewrite E1. cbn [mbind option_bind]. rewrite <- E2, Z.gtb_ltb. unfold bound_len, v0 in *.
  destruct v as [l|]; cbn [default from_option id] in *; [|done]. destruct Hv as [_ Hl]. decide_bool. rewrite array_calloc_total by (done || lia).
  assert (length l <= length p)%nat by (rewrite <- Hp', length_take; lia). rewrite rd_n_Some by lia. change (Z.to_nat 0) with 0%nat. by rewrite drop_0, Nat2Z.id, Hp'.
Qed.

Lemma read_bounds_reads room l : Forall bound_fits l -> ireads (read_bounds (length l)) room (concat (map val_bytes (map bound_val l))) (Some (map (λ v, (v, bound_len v)) l)).
Proof.
  induction 1 as [|v l Hv _ IH]; cbn [length read_bounds map concat]; [apply preads_ret|].
  set (k := λ v : option (list Z) * Z, if v.2 =? -1 then mret None else rest ← read_bounds (length l); mret (cons v <$> rest)).
  pose proof (one_bound_reads k room v (concat (map val_bytes (map bound_val l))) (Some ((v, bound_len v) :: map (λ v, (v, bound_len v)) l)) Hv) as H.
  assert (ireads (k (v, bound_len v)) room (concat (map val_bytes (map bound_val l))) (Some ((v, bound_len v) :: map (λ v, (v, bound_len v)) l))) as HK.
  { unfold k. cbn [snd]. assert (bound_len v <> -1) by (unfold bound_len; lia). decide_bool.
    change (Some ((v, bound_len v) :: map (λ v, (v, bound_len v)) l)) with (cons (v, bound_len v) <$> Some (map (λ v, (v, bound_len v)) l)). by apply preads_map. }
  specialize (H HK). intros d q s B W Hok E Hr Hb HI. destruct (H d q s B W Hok E Hr Hb HI) as (d' & s' & E' & R). exists d', s'. split; [|exact R].
  rewrite <- E'. unfold k. clear. unfold mbind, pdec_bind. destruct (lift thrift_read_binary d s) as [[[[[p|] len] d1] s1]|]; [|done|done].
  rewrite Z.gtb_ltb. destruct (Z.ltb_spec 0 len); [|done]. destruct (array_calloc 0 len 1); [|done]. destruct (access (rd_n p 0 len) d1 s1) as [[[bs d2] s2]|]; [|done].
  cbn [snd]. by decide_bool.
Qed.

Lemma bounds_list_reads ci store room l y : lenZ l <= 1000000 -> Forall bound_fits l -> y = (None, store (lenZ l) l (map bound_len l)) ->
  ireads (bounds_list ci store) room (val_bytes (VList 8 (map bound_val l))) y.
Proof.
  intros Hl HF ->. unfold bounds_list. apply index_list_reads; [lia|by rewrite length_map|apply Forall_map, Forall_true; intros v; apply bytes_binary|].
  rewrite length_map. rewrite !array_calloc_total by (done || lia). rewrite Nat2Z.id. rewrite <- (app_nil_r (concat _)). eapply preads_bind; [by apply read_bounds_reads|].
  assert ((map (λ v, (v, bound_len v)) l).*1 = l /\ (map (λ v, (v, bound_len v)) l).*2 = map bound_len l) as [-> ->] by (clear; induction l as [|v l [IH1 IH2]]; cbn; [done|by rewrite <- IH1 at 2; rewrite <- IH2]).
  apply preads_ret.
Qed.

Lemma bytes_bool b : (1 <= length (val_bytes (VBool b)))%nat.
Proof. cbn. lia. Qed.

Lemma bytes_i64 v : (1 <= length (val_bytes (VI64 v)))%nat.
Proof. exact (bytes_i32 v). Qed.

(** A list of scalars into an array of the index. *)
Lemma scalar_list_reads {X S} (zero : X) size (f : pdec () X) (g : X -> tval) (x : S) (store : Z -> list X -> S) room t l y : 0 <= t < 16 -> lenZ l <= 1000000 ->
  (forall v, (1 <= length (val_bytes (g v)))%nat) -> Forall (λ v, ireads f room (val_bytes (g v)) v) l -> y = (None, store (lenZ l) l) ->
  ireads (index_list x (λ count, match array_calloc zero count size with None => index_fails x | Some _ => l ← for_n (Z.to_nat count) f; mret (None, store count l) end))
    room (val_bytes (VList t (map g l))) y.
Proof.
  intros Ht Hl Hg HF ->. apply index_list_reads; [done|by rewrite length_map|by apply Forall_map, Forall_true|].
  rewrite length_map, array_calloc_total, Nat2Z.id by (done || lia). rewrite <- (app_nil_r (concat _)). eapply preads_bind; [by apply scalars_reads|apply preads_ret].
Qed.

(** The next field of the column index. *)
Ltac next_field := eapply chain_cons; [idok|apply vreads_preads; [done|]; unfold parse_column_index_field; cbn [Z.eqb Pos.eqb ci_null_pages ci_min_values ci_max_values ci_null_counts]|].

Lemma column_fields_chain room order pages : pages_fit pages -> in_i 32 order ->
  chain no_state 0 parse_column_index_field room
    [(1, VList 1 (map VBool (map pg_null_page pages))); (2, VList 8 (map bound_val (map pg_min pages))); (3, VList 8 (map bound_val (map pg_max pages)));
     (4, VI32 order); (5, VList 6 (map VI64 (map pg_null_count pages)))] ci_zero (column_index_of order pages).
Proof.
  intros [HL HF] HO. unfold ci_zero. assert (forall X (f : page -> X), lenZ (map f pages) = lenZ pages) as LF by (intros; by rewrite length_map).
  next_field.
  { eapply (scalar_list_reads _ _ _ VBool); [lia|by rewrite LF|apply bytes_bool|by apply Forall_true, preads_bool|reflexivity]. }
  next_field.
  { eapply bounds_list_reads; [by rewrite LF| |reflexivity]. apply Forall_map. eapply Forall_impl; [|exact HF]. by intros p (_ & ? & _). }
  next_field.
  { eapply bounds_list_reads; [by rewrite LF| |reflexivity]. apply Forall_map. eapply Forall_impl; [|exact HF]. by intros p (_ & _ & ?). }
  next_field.
  { rewrite <- (app_nil_r (val_bytes _)). eapply preads_bind; [by apply preads_i32|apply preads_ret]. }
  next_field.
  { eapply (scalar_list_reads _ _ _ VI64); [lia|by rewrite LF|apply bytes_i64| |reflexivity]. apply Forall_map. eapply Forall_impl; [|exact HF]. intros p (? & _). by apply preads_i64. }
  unfold column_index_of. rewrite !LF. apply chain_nil.
Qed.

Lemma location_reads room l : 0 < room -> location_fits l -> ireads (parse_fields parse_page_location_field pl_zero) room (val_bytes (location_val l)) (location_of l).
Proof.
  intros Hr (? & ? & ? & _). apply preads_struct; [exact _|done|]. unfold pl_zero, location_of.
  do 3 (eapply chain_cons; [idok|open_branch; stores|]). apply chain_nil.
Qed.

Lemma offset_fields_chain room track locs : 1 < room -> locations_fit locs ->
  chain no_state 0 parse_offset_index_field room
    ((1, VList 12 (map location_val locs)) :: if track : bool then [(2, VList 5 (map VI32 (map lo_uncompressed locs)))] else []) (mk_offset_index 0 None) (offset_index_of locs).
Proof.
  intros Hr [HL HF]. apply (chain_cons _ _ _ _ _ _ _ _ (offset_index_of locs)); [idok| |].
  - apply vreads_preads; [done|]. unfold parse_offset_index_field. cbn [Z.eqb Pos.eqb oi_page_locations].
    apply index_list_reads; [lia|by rewrite length_map|apply Forall_map, Forall_true; intros l; apply bytes_struct|].
    rewrite length_map, array_calloc_total, Nat2Z.id by (done || lia). rewrite <- (app_nil_r (concat _)). eapply preads_bind; [|apply preads_ret].
    rewrite map_map. apply preads_for_n. eapply Forall_impl; [|exact HF]. intros l Hl. apply location_reads; [lia|done].
  - destruct track; [|constructor]. apply chain_one; [idok|]. unfold parse_offset_index_field. cbn [Z.eqb Pos.eqb].
    eapply vreads_bind; [apply (vreads_skip _ _ _ (VList 5 (map VI32 (map lo_uncompressed locs))))|apply preads_ret]; [|lia].
    split; [lia|]. split; [rewrite !length_map; lia|]. rewrite foldr_and_Forall. apply Forall_map, Forall_map. eapply Forall_impl; [|exact HF]. by intros l (_ & _ & _ & ?).
Qed.

Lemma parse_index_reads {S} body (x : S) finish fs y q size sizeof : chain no_state 0 body 31 fs x y -> let bs := val_bytes (VStruct fs) in
  bytes_ok bs -> bytes_ok q -> size = lenZ (bs ++ q) -> size < 2 ^ 63 -> parse_index body x finish (Some (bs ++ q)) size sizeof = Some (Some (finish y)).
Proof.
  intros HC bs Hb Hq -> Hl. pose proof (bytes_struct fs) as Hn. fold bs in Hn. unfold parse_index. assert (lenZ (bs ++ q) <> 0) by (rewrite length_app; lia). decide_bool.
  rewrite array_calloc_total by (done || lia). set (d := thrift_decoder_init _ _).
  assert (bytes_ok (bs ++ q)) as Ha by (by apply Forall_app). assert (td_wf d) as W by (apply thrift_decoder_init_wf; (done || lia)).
  assert (td_rest d = bs ++ q) as ER.
  { change (take (Z.to_nat (lenZ (bs ++ q) - 0)) (ptr_add (bs ++ q) 0) = bs ++ q). rewrite Z.sub_0_r, Nat2Z.id. apply firstn_all. }
  destruct (struct_reads no_state 0 body 32 fs x y d q () 0%nat) as (d1 & d2 & d3 & [] & E1 & E2 & E3 & [SK SO _ _ _ _] & _); try done.
  unfold mbind at 1, option_bind, mbind, pdec_bind, lift. rewrite E1. cbn [mbind option_bind]. rewrite E2, E3. unfold gets. cbn [mbind option_bind].
  unfold mret, pdec_ret. apply is_ok_true in SO. by rewrite SO.
Qed.

End Read.

(** ** The theorems *)

(** The builder after a sequence of pages, when all were accepted. *)
Fixpoint add_pages {Hp : ArrayHeap} (b : carquet_column_index_builder_t) (args : list (Z * (option (list Z) * Z) * (option (list Z) * Z) * bool)) : option (option carquet_column_index_builder_t) :=
  match args with
  | [] => Some (Some b)
  | (nc, lo, hi, np) :: args =>
      '(status, b) ← carquet_column_index_add_page b nc lo.1 lo.2 hi.1 hi.2 np;
      if is_ok status then add_pages b args else Some None
  end.

Definition page_of (a : Z * (option (list Z) * Z) * (option (list Z) * Z) * bool) : page :=
  let '(nc, lo, hi, np) := a in column_add nc lo.1 lo.2 hi.1 hi.2 np.

Definition page_arg_ok (a : Z * (option (list Z) * Z) * (option (list Z) * Z) * bool) : Prop := let '(nc, lo, hi, np) := a in arg_ok lo.1 lo.2 /\ arg_ok hi.1 hi.2.

#[export] Instance page_arg_ok_dec a : Decision (page_arg_ok a).
Proof. unfold page_arg_ok, arg_ok. destruct a as [[[nc [[lo|] ln]] [[hi|] hn]] np]; cbn; apply _. Defined.

Lemma add_pages_spec {Hp : ArrayHeap} {Ok : ArrayHeapOk Hp} args : Forall page_arg_ok args -> forall b pages, column_builds b pages ->
  exists r, add_pages b args = Some r /\ (forall b', r = Some b' -> column_builds b' (pages ++ map page_of args) /\ cb_boundary_order b' = cb_boundary_order b) /\
    (ArrayHeapTotal Hp -> lenZ pages + lenZ args < 2 ^ 30 -> r <> None).
Proof.
  induction 1 as [|[[[nc lo] hi] np] args [A1 A2] _ IH]; intros b pages B; cbn [add_pages map].
  - exists (Some b). split; [done|]. split; [intros ? [= <-]; by rewrite app_nil_r|done].
  - destruct (add_page_spec b pages nc lo.1 lo.2 hi.1 hi.2 np B A1 A2) as (st & b1 & E & EO & H1 & _ & H3). rewrite E. cbn [mbind option_bind].
    destruct (is_ok st) eqn:Est.
    + destruct (IH b1 _ (H1 eq_refl)) as (r & Er & HR & HT). exists r. split; [done|]. split.
      * intros b' Hb'. destruct (HR b' Hb') as [K KO]. rewrite <- app_assoc in K. split; [exact K|by rewrite KO].
      * intros T Hl. apply HT; [done|]. rewrite length_app. cbn [length] in *. lia.
    + exists None. split; [done|]. split; [done|]. intros T Hl. cbn [length] in Hl. by rewrite (H3 T ltac:(lia)) in Est.
Qed.

Lemma serialized {A : Allocator} {AOk : AllocatorOk A} w v b n : emits w (val_ops v) -> depth_ok n v -> (n <= 32)%nat -> buffer_wf b ->
  exists e, w (thrift_encoder_init b) = Some e /\ buffer_wf (te_buffer e) /\
    (AllocatorTotal A -> buf_owns_data b = true -> buf_size b + lenZ (val_bytes v) < 2 ^ 64 -> buf_bytes (te_buffer e) = buf_bytes b ++ val_bytes v).
Proof.
  intros Hw Hd Hn Hb. destruct (written w v b n Hw Hd Hn Hb) as (st & b' & E & W & H & T). destruct (w (thrift_encoder_init b)) as [e|]; [|done].
  injection E as <- <-. exists e. split; [done|]. split; [exact W|]. intros AT Ho Hs. apply H. by apply T.
Qed.

(** C21: the page index round trips.  Whatever pages are added to a new column index
    builder, through every growth of its arrays, it accepts them when memory suffices; what
    it serialises, appended to any buffer and followed by any bytes, parses back to an index
    that says of every page what was added: the null count, the null page flag and the
    bounds, an empty bound being none. *)
Theorem column_index_roundtrip {A : Allocator} {AOk : AllocatorOk A} {Hp : ArrayHeap} {Ok : ArrayHeapOk Hp} type lt type_length b0 order args out q :
  carquet_column_index_builder_create type lt type_length = Some b0 -> Forall page_arg_ok args -> pages_fit (map page_of args) -> in_i 32 order ->
  ArrayHeapTotal Hp -> AllocatorTotal A -> buffer_wf out -> buf_owns_data out = true -> bytes_ok q ->
  let pages := map page_of args in
  let bs := val_bytes (column_index_val order pages) in
  buf_size out + lenZ bs < 2 ^ 64 -> lenZ (bs ++ q) < 2 ^ 63 ->
  exists b out' ci, add_pages b0 args = Some (Some b) /\
    carquet_column_index_serialize (carquet_column_index_set_boundary_order b order) out = Some (CARQUET_OK, out') /\ buf_bytes out' = buf_bytes out ++ bs /\
    carquet_column_index_parse (Some (bs ++ q)) (lenZ (bs ++ q)) = Some (Some ci) /\
    carquet_column_index_num_pages ci = lenZ pages /\ carquet_column_index_boundary_order ci = order /\
    forall i p, pages !! i = Some p ->
      carquet_column_index_get_page_stats ci (Z.of_nat i) =
        Some (CARQUET_OK, Some (mk_page_stats (pg_null_count p) (pg_min p) (bound_len (pg_min p)) (pg_max p) (bound_len (pg_max p)) (pg_null_page p))).
Proof.
  intros Hc Ha HF HO T AT W Ho Hq pages bs Hs Hl. destruct (column_create_builds _ _ _ _ Hc) as [B0 _].
  destruct (add_pages_spec args Ha b0 [] B0) as (r & E & HR & HT). pose proof (proj1 HF) as HL. rewrite length_map in HL.
  destruct r as [b|]; [|by destruct (HT T ltac:(cbn; lia))]. destruct (HR b eq_refl) as [B _]. cbn [app] in B. fold pages in B, HF.
  assert (column_builds (carquet_column_index_set_boundary_order b order) pages) as B' by (destruct b, B; by constructor).
  assert (cb_boundary_order (carquet_column_index_set_boundary_order b order) = order) as EO by (by destruct b).
  pose proof (emits_column_index _ pages B' HF ltac:(by rewrite EO)) as EM. rewrite EO in EM.
  destruct (serialized _ _ out 2 EM) as (e & Ee & W' & HB); [apply depth_struct; repeat constructor; by apply depth_list|lia|done|]. specialize (HB AT Ho Hs).
  pose proof (buf_bytes_ok _ W') as Hb. rewrite HB in Hb. apply Forall_app in Hb as [_ Hb].
  exists b, (te_buffer e), (clamp_num_pages (column_index_of order pages)). split; [done|]. split; [unfold carquet_column_index_serialize; by rewrite Ee|]. split; [exact HB|].
  split; [apply (parse_index_reads T parse_column_index_field ci_zero clamp_num_pages _ (column_index_of order pages)); try done; by apply column_fields_chain|].
  assert (clamp_num_pages (column_index_of order pages) = column_index_of order pages) as EC.
  { unfold clamp_num_pages, column_index_of, clamp_to. cbn. unfold constant. by rewrite !Z.ltb_irrefl. }
  rewrite EC. split; [done|]. split; [done|]. intros i p Hi. pose proof (lookup_lt_Some _ _ _ Hi) as Hlt.
  unfold carquet_column_index_get_page_stats, page_entry, column_index_of. cbn [ci_num_pages ci_null_counts ci_num_null_counts ci_min_values ci_min_value_lens ci_num_min_values ci_max_values ci_max_value_lens ci_num_max_values ci_null_pages ci_num_null_pages].
  rewrite Z.geb_leb. decide_bool. cbn [orb]. rewrite !map_map, !rd_lookup, !Nat2Z.id by lia.
  change (map ?f pages) with (f <$> pages). by rewrite !list_lookup_fmap, Hi.
Qed.

(** The places of the pages, one after another; [None] inside when one was refused. *)
Fixpoint add_locations {Hp : ArrayHeap} (b : carquet_offset_index_builder_t) (locs : list location) : option (option carquet_offset_index_builder_t) :=
  match locs with
  | [] => Some (Some b)
  | l :: locs =>
      '(status, b) ← carquet_offset_index_add_page b (lo_offset l) (lo_compressed l) (lo_first_row l) (lo_uncompressed l);
      if is_ok status then add_locations b locs else Some None
  end.

Lemma add_locations_spec {Hp : ArrayHeap} {Ok : ArrayHeapOk Hp} (T : ArrayHeapTotal Hp) locs : forall b before, offset_builds b before ->
  lenZ before + lenZ locs < 2 ^ 30 -> exists b', add_locations b locs = Some (Some b') /\ offset_builds b' (before ++ locs) /\ tracks b' = tracks b.
Proof.
  induction locs as [|l locs IH]; intros b before B HL; cbn [add_locations]; [exists b; by rewrite app_nil_r|]. cbn [length] in HL.
  destruct (offset_add_spec b before (lo_offset l) (lo_compressed l) (lo_first_row l) (lo_uncompressed l) B) as (st & b1 & E & H & _ & HT).
  rewrite E. cbn [mbind option_bind]. rewrite (HT T ltac:(lia)) in *. cbn [is_ok]. destruct (H eq_refl) as [B1 T1].
  destruct (IH b1 _ B1) as (b' & Eb & B' & T'); [rewrite length_app; cbn [length]; lia|]. exists b'. split; [exact Eb|].
  rewrite <- app_assoc in B'. split; [by destruct l|congruence].
Qed.

(** C22: the offset index round trips.  Whatever places of pages are added to a new builder,
    with or without the optional sizes and through every growth of its arrays, it accepts
    them when memory suffices; shifted by where the column begins, serialised, appended to
    any buffer and followed by any bytes, they parse back to an index that says of every
    page where it is, how long and which row it starts with. *)
Theorem offset_index_roundtrip {A : Allocator} {AOk : AllocatorOk A} {Hp : ArrayHeap} {Ok : ArrayHeapOk Hp} track b0 locs delta out q :
  carquet_offset_index_builder_create track = Some b0 -> locations_fit (shift_location delta <$> locs) ->
  ArrayHeapTotal Hp -> AllocatorTotal A -> buffer_wf out -> buf_owns_data out = true -> bytes_ok q ->
  let shifted := shift_location delta <$> locs in
  let bs := val_bytes (offset_index_val track shifted) in
  buf_size out + lenZ bs < 2 ^ 64 -> lenZ (bs ++ q) < 2 ^ 63 ->
  exists b b' out' oi, add_locations b0 locs = Some (Some b) /\ carquet_offset_index_builder_shift_offsets b delta = Some b' /\
    carquet_offset_index_serialize b' out = Some (CARQUET_OK, out') /\ buf_bytes out' = buf_bytes out ++ bs /\
    carquet_offset_index_parse (Some (bs ++ q)) (lenZ (bs ++ q)) = Some (Some oi) /\ carquet_offset_index_num_pages oi = lenZ locs /\
    forall i l, locs !! i = Some l ->
      carquet_offset_index_get_page_location oi (Z.of_nat i) = Some (CARQUET_OK, Some (mk_page_location (lo_offset l + delta) (lo_compressed l) (lo_first_row l))).
Proof.
  intros Hc HF T AT W Ho Hq shifted bs Hs Hl. destruct (offset_create_builds track b0 Hc) as [B0 T0].
  assert (lenZ locs <= 1000000) as HL by (destruct HF as [HL _]; by rewrite length_fmap in HL).
  destruct (add_locations_spec T locs b0 [] B0) as (b & Eb0 & B & HT0); [cbn; lia|]. cbn [app] in B. rewrite T0 in HT0.
  destruct (shift_offsets_spec b locs delta B) as (b' & Eb & HB & HT).
  { destruct HF as [_ HF]. rewrite Forall_fmap in HF. eapply Forall_impl; [|exact HF]. intros l (H & _). exact H. }
  pose proof (emits_offset_index b' shifted HB HF) as EM. rewrite HT, HT0 in EM.
  destruct (serialized _ _ out 3 EM) as (e & Ee & W' & HE);
    [apply depth_struct; constructor; [apply depth_list; intros l; apply depth_struct; by repeat constructor|destruct track; [|constructor]; repeat constructor; by apply depth_list]|lia|done|]. specialize (HE AT Ho Hs).
  pose proof (buf_bytes_ok _ W') as Hb. rewrite HE in Hb. apply Forall_app in Hb as [_ Hb].
  exists b, b', (te_buffer e), (offset_index_of shifted). split; [done|]. split; [done|]. split; [unfold carquet_offset_index_serialize; by rewrite Ee|]. split; [exact HE|].
  split; [apply (parse_index_reads T parse_offset_index_field (mk_offset_index 0 None) (λ oi, oi) _ (offset_index_of shifted)); try done; apply offset_fields_chain; (done || lia)|].
  unfold carquet_offset_index_num_pages, carquet_offset_index_get_page_location, offset_index_of. cbn [oi_num_pages oi_page_locations].
  assert (lenZ shifted = lenZ locs) as LS by (unfold shifted; by rewrite length_fmap). split; [exact LS|]. intros i l Hi. pose proof (lookup_lt_Some _ _ _ Hi) as Hlt.
  rewrite Z.geb_leb, LS. decide_bool. cbn [orb mbind option_bind]. rewrite rd_lookup, Nat2Z.id by lia. change (map location_of shifted) with (location_of <$> shifted).
  unfold shifted. by rewrite !list_lookup_fmap, Hi.
Qed.

(** ** Concrete indexes *)

Definition sample_args : list (Z * (option (list Z) * Z) * (option (list Z) * Z) * bool) :=
  (2, (Some [1; 0; 0; 0], 4), (Some [9; 0; 0; 0; 7], 4), false) :: (5, (None, 0), (None, 0), true) ::
  ((λ i, (0, (Some [i; 0; 0; 0], 4), (Some [i; 1; 0; 0], 4), false)) <$> seqZ 10 20).

(** 22 pages, so that the arrays grow once. *)
Lemma column_index_roundtrip_witness : let A := limited_alloc (2 ^ 64) in let bs := val_bytes (column_index_val 1 (map page_of sample_args)) in
  exists b0 b out' ci, carquet_column_index_builder_create (Hp := plain_heap) 1 None 0 = Some b0 /\ add_pages (Hp := plain_heap) b0 sample_args = Some (Some b) /\
    carquet_column_index_serialize (carquet_column_index_set_boundary_order b 1) carquet_buffer_init = Some (CARQUET_OK, out') /\ buf_bytes out' = bs /\
    carquet_column_index_parse (Hp := plain_heap) (Some (bs ++ [3])) (lenZ (bs ++ [3])) = Some (Some ci) /\
    carquet_column_index_get_page_stats ci 0 = Some (CARQUET_OK, Some (mk_page_stats 2 (Some [1; 0; 0; 0]) 4 (Some [9; 0; 0; 0]) 4 false)).
Proof.
  assert (exists b0, carquet_column_index_builder_create (Hp := plain_heap) 1 None 0 = Some b0) as [b0 E0] by (eexists; vm_compute; reflexivity). intros A bs.
  destruct (column_index_roundtrip (A := A) (Hp := plain_heap) 1 None 0 b0 1 sample_args carquet_buffer_init [3] E0) as (b & out' & ci & E1 & E2 & E3 & E4 & _ & _ & H).
  - apply (bool_decide_unpack _). vm_compute. exact I.
  - apply (bool_decide_unpack _). vm_compute. exact I.
  - unfold in_i. lia.
  - exact plain_heap_total.
  - exact limited_alloc_total.
  - apply init_wf.
  - reflexivity.
  - apply (bool_decide_unpack _). vm_compute. exact I.
  - vm_compute. reflexivity.
  - vm_compute. reflexivity.
  - exists b0, b, out', ci. split; [exact E0|]. split; [exact E1|]. split; [exact E2|]. split; [exact E3|]. split; [exact E4|].
    exact (H 0%nat (page_of (2, (Some [1; 0; 0; 0], 4), (Some [9; 0; 0; 0; 7], 4), false)) eq_refl).
Defined.

(** 20 pages behind a column that begins at byte 100. *)
Definition sample_locations : list location := (λ i, mk_location (4 + 50 * i) 50 (10 * i) 70) <$> seqZ 0 20.

Lemma offset_index_roundtrip_witness : let A := limited_alloc (2 ^ 64) in let bs := val_bytes (offset_index_val true (shift_location 100 <$> sample_locations)) in
  exists b0 b b' out' oi, carquet_offset_index_builder_create (Hp := plain_heap) true = Some b0 /\ add_locations (Hp := plain_heap) b0 sample_locations = Some (Some b) /\
    carquet_offset_index_builder_shift_offsets b 100 = Some b' /\ carquet_offset_index_serialize b' carquet_buffer_init = Some (CARQUET_OK, out') /\
    buf_bytes out' = bs /\ carquet_offset_index_parse (Hp := plain_heap) (Some (bs ++ [3])) (lenZ (bs ++ [3])) = Some (Some oi) /\
    carquet_offset_index_get_page_location oi 19 = Some (CARQUET_OK, Some (mk_page_location 1054 50 190)).
Proof.
  assert (exists b0, carquet_offset_index_builder_create (Hp := plain_heap) true = Some b0) as [b0 E0] by (eexists; vm_compute; reflexivity). intros A bs.
  destruct (offset_index_roundtrip (A := A) (Hp := plain_heap) true b0 sample_locations 100 carquet_buffer_init [3] E0) as (b & b' & out' & oi & E1 & E2 & E3 & E4 & E5 & _ & H).
  - apply (bool_decide_unpack _). vm_compute. exact I.
  - exact plain_heap_total.
  - exact limited_alloc_total.
  - apply init_wf.
  - reflexivity.
  - apply (bool_decide_unpack _). vm_compute. exact I.
  - vm_compute. reflexivity.
  - vm_compute. reflexivity.
  - exists b0, b, b', out', oi. split; [exact E0|]. split; [exact E1|]. split; [exact E2|]. split; [exact E3|]. split; [exact E4|]. split; [exact E5|].
    exact (H 19%nat (mk_location 954 50 190 70) eq_refl).
Defined.

(** ** Where the code does otherwise *)

(** A heap that serves requests of up to [limit] bytes. *)
Definition small_heap (limit : Z) : ArrayHeap := λ X HX p n size, if n * size <=? limit then array_realloc (ArrayHeap := plain_heap) p n size else None.

(** The seventeenth page of a builder whose larger arrays cannot grow: the status is
    OUT_OF_MEMORY, the smaller arrays were moved and their old blocks freed, and the next
    use of the builder reads freed memory. *)
Theorem column_builder_dangles : exists b0 b b', carquet_column_index_builder_create (Hp := small_heap 240) 1 None 0 = Some b0 /\
  add_pages (Hp := small_heap 240) b0 (replicate 16 (0, (None, 0), (None, 0), true)) = Some (Some b) /\
  carquet_column_index_add_page (Hp := small_heap 240) b 0 None 0 None 0 true = Some (CARQUET_ERROR_OUT_OF_MEMORY, b') /\
  carquet_column_index_add_page (Hp := small_heap 240) b' 0 None 0 None 0 true = None /\
  carquet_column_index_serialize (A := limited_alloc (2 ^ 64)) b' carquet_buffer_init = None.
Proof. eexists _, _, _. split; [vm_compute; reflexivity|]. split; [vm_compute; reflexivity|]. split; [vm_compute; reflexivity|]. split; vm_compute; reflexivity. Qed.

(** A buffer that cannot grow: the index is not written, the status is OK. *)
Theorem index_serialize_ignores_oom : exists b out, carquet_column_index_builder_create (Hp := plain_heap) 1 None 0 = Some b /\
  carquet_column_index_serialize (A := limited_alloc 0) b carquet_buffer_init = Some (CARQUET_OK, out) /\ buf_bytes out = [].
Proof. eexists _, _. split; [vm_compute; reflexivity|]. split; vm_compute; reflexivity. Qed.

(** Pages of a FLOAT column are compared byte by byte: a page with values from -1.0 to 1.0
    is ruled out for the value 0.5. *)
Theorem float_page_ruled_out : exists b0 b, carquet_column_index_builder_create (Hp := plain_heap) 4 None 0 = Some b0 /\
  add_pages (Hp := plain_heap) b0 [(0, (Some [0; 0; 128; 191], 4), (Some [0; 0; 128; 63], 4), false)] = Some (Some b) /\
  carquet_column_index_page_might_match b 0 (Some [0; 0; 0; 63]) (Some [0; 0; 0; 63]) 4 true = Some (CARQUET_OK, false).
Proof. eexists _, _. split; [vm_compute; reflexivity|]. split; [vm_compute; reflexivity|]. vm_compute. reflexivity. Qed.
