(* ===== verification/PageFilter.v ===== *)
(** * The page filter (carquet/reader/page_filter.c)

    From a conjunction of clauses and the page indexes of the columns they name, the row
    ranges of a row group that may hold matching rows.  This file also has the functions of
    reader/file_reader.c that read the page indexes of an open file. *)

From S2P Require Import Prelude Status Endian Memory Heap Arena ParquetTypes Schema SchemaRead FileReader ValueOrder RowGroupFilter PageIndex.
From coqutil Require Import Datatypes.RecordSetters.
Import RecordSetters.TriangleBracketNotations.

#[local] Open Scope Z_scope.

Definition CARQUET_PHYSICAL_INT96 : Z := 3.

(** ** Row ranges *)

Record carquet_row_range_t := mk_range { rr_first_row : Z; rr_num_rows : Z }.

#[export] Instance row_range_inhabited : Inhabited carquet_row_range_t := populate (mk_range 0 0).

Record carquet_row_range_list_t := mk_range_list { rl_ranges : list carquet_row_range_t; rl_count : Z; rl_capacity : Z; rl_total_rows : Z }.

Definition carquet_row_range_list_init : carquet_row_range_list_t := mk_range_list [] 0 0 0.
Definition carquet_row_range_list_clear (l : carquet_row_range_list_t) : carquet_row_range_list_t := mk_range_list (rl_ranges l) 0 (rl_capacity l) 0.

Section Ranges.
Context {Hp : ArrayHeap}.

(** A new range at the end; the array grows when it is full.  [capacity * 2] is an [int32_t]:
    it would overflow at 2^30 ranges, an array of 16 GiB. *)
Definition append_range (l : carquet_row_range_list_t) (first_row num_rows : Z) : option (carquet_status_t * carquet_row_range_list_t) :=
  let full := rl_count l >=? rl_capacity l in
  let new_cap := if rl_capacity l >? 0 then rl_capacity l * 2 else 8 in
  match (if full then array_realloc (rl_ranges l) new_cap 16 else Some (rl_ranges l)) with
  | None => Some (CARQUET_ERROR_OUT_OF_MEMORY, l)
  | Some ranges =>
      ranges ← wr ranges (rl_count l) (mk_range first_row num_rows);
      total_rows ← sint 64 (rl_total_rows l + num_rows);
      Some (CARQUET_OK, mk_range_list ranges (rl_count l + 1) (if full then new_cap else rl_capacity l) total_rows)
  end.

(** The sums are of [int64_t]: an overflow is undefined behaviour. *)
Definition carquet_row_range_list_append (l : carquet_row_range_list_t) (first_row num_rows : Z) : option (carquet_status_t * carquet_row_range_list_t) :=
  if num_rows <=? 0 then Some (CARQUET_OK, l) else
  if rl_count l >? 0 then
    last ← rd (rl_ranges l) (rl_count l - 1);
    last_end ← sint 64 (rr_first_row last + rr_num_rows last);
    if last_end =? first_row then
      last_rows ← sint 64 (rr_num_rows last + num_rows);
      ranges ← wr (rl_ranges l) (rl_count l - 1) (mk_range (rr_first_row last) last_rows);
      total_rows ← sint 64 (rl_total_rows l + num_rows);
      Some (CARQUET_OK, mk_range_list ranges (rl_count l) (rl_capacity l) total_rows)
    else append_range l first_row num_rows
  else append_range l first_row num_rows.

End Ranges.

(** ** Column types *)

Record column_type_info_t := mk_type_info { ti_physical_type : Z; ti_type_length : Z; ti_is_unsigned : bool; ti_is_float16 : bool }.

Definition type_info_of (elem : parquet_schema_element_t) : option column_type_info_t :=
  unsigned ← (match se_logical_type elem with
              | Some lt => if lt_id lt =? CARQUET_LOGICAL_INTEGER then negb <$> get_bool (lt_params lt) 1 else Some false
              | None => Some false
              end);
  Some (mk_type_info (default CARQUET_PHYSICAL_BYTE_ARRAY (se_type elem)) (se_type_length elem)
    (match se_converted_type elem with Some ct => if converted_unsigned ct then true else unsigned | None => unsigned end)
    (has_logical elem CARQUET_LOGICAL_FLOAT16)).

Definition scalar_size (pt type_length : Z) : Z :=
  if pt =? CARQUET_PHYSICAL_BOOLEAN then 1 else
  if (pt =? CARQUET_PHYSICAL_INT32) || (pt =? CARQUET_PHYSICAL_FLOAT) then 4 else
  if (pt =? CARQUET_PHYSICAL_INT64) || (pt =? CARQUET_PHYSICAL_DOUBLE) then 8 else
  if pt =? CARQUET_PHYSICAL_FIXED_LEN_BYTE_ARRAY then (if type_length >? 0 then type_length else 0) else 0.

Definition stat_len_ok (ti : column_type_info_t) (len : Z) : bool :=
  if len <=? 0 then false else
  let expected := scalar_size (ti_physical_type ti) (ti_type_length ti) in
  if expected =? 0 then true else len =? expected.

(** ** Comparison *)

(** [while ((mant & 0x400) == 0) { mant <<= 1; e--; }] on a [uint16_t] *)
Fixpoint float16_normalize (fuel : nat) (mant e : Z) : option (Z * Z) :=
  match fuel with
  | O => None
  | S fuel => if (mant .& 0x400) =? 0 then float16_normalize fuel (u16 (mant ≪ 1)) (e - 1) else Some (mant, e)
  end.

(** The bits of the float. *)
Definition decode_float16 (b : list Z) : option Z :=
  b0 ← rd b 0; b1 ← rd b 1;
  let raw := b0 .| u16 (b1 ≪ 8) in
  let sign := (raw ≫ 15) .& 1 in
  let exp := (raw ≫ 10) .& 0x1F in
  let mant := raw .& 0x3FF in
  if exp =? 0 then
    if mant =? 0 then Some (u32 (sign ≪ 31))
    else
      '(mant, e) ← float16_normalize 11 mant (-14);
      let mant := mant .& 0x3FF in
      Some (u32 (sign ≪ 31) .| u32 (u32 (e + 127) ≪ 23) .| u32 (mant ≪ 13))
  else if exp =? 0x1F then Some (u32 (sign ≪ 31) .| u32 (0xFF ≪ 23) .| u32 (mant ≪ 13))
  else Some (u32 (sign ≪ 31) .| u32 (u32 (exp - 15 + 127) ≪ 23) .| u32 (mant ≪ 13)).

Definition cmp_bytes_lex (a : list Z) (alen : Z) (b : list Z) (blen : Z) : option Z :=
  let n := if alen <? blen then alen else blen in
  c ← memcmp a b n;
  Some (if negb (c =? 0) then (if c <? 0 then -1 else 1) else if alen =? blen then 0 else if alen <? blen then -1 else 1).

Definition compare_typed (ti : column_type_info_t) (a : list Z) (alen : Z) (b : list Z) (blen : Z) : option Z :=
  let pt := ti_physical_type ti in
  if pt =? CARQUET_PHYSICAL_BOOLEAN then
    av ← rd a 0; bv ← rd b 0; Some (CMP3 Z.ltb (if av =? 0 then 0 else 1) (if bv =? 0 then 0 else 1))
  else if pt =? CARQUET_PHYSICAL_INT32 then
    av ← load 4 a; bv ← load 4 b; Some (if ti_is_unsigned ti then CMP3 Z.ltb av bv else CMP3 Z.ltb (i32 av) (i32 bv))
  else if pt =? CARQUET_PHYSICAL_INT64 then
    av ← load 8 a; bv ← load 8 b; Some (if ti_is_unsigned ti then CMP3 Z.ltb av bv else CMP3 Z.ltb (i64 av) (i64 bv))
  else if pt =? CARQUET_PHYSICAL_FLOAT then av ← load 4 a; bv ← load 4 b; Some (CMP3 (float_lt 32) av bv)
  else if pt =? CARQUET_PHYSICAL_DOUBLE then av ← load 8 a; bv ← load 8 b; Some (CMP3 (float_lt 64) av bv)
  else if pt =? CARQUET_PHYSICAL_FIXED_LEN_BYTE_ARRAY then
    if ti_is_float16 ti && (alen =? 2) && (blen =? 2) then av ← decode_float16 a; bv ← decode_float16 b; Some (CMP3 (float_lt 32) av bv)
    else cmp_bytes_lex a alen b blen
  else if pt =? CARQUET_PHYSICAL_BYTE_ARRAY then cmp_bytes_lex a alen b blen
  else Some 0.

Definition predicate_value_is_nan (ti : column_type_info_t) (v : option (list Z)) : option bool :=
  match v with
  | None => Some false
  | Some v =>
      if ti_physical_type ti =? CARQUET_PHYSICAL_FLOAT then float_isnan 32 <$> load 4 v else
      if ti_physical_type ti =? CARQUET_PHYSICAL_DOUBLE then float_isnan 64 <$> load 8 v else
      if ti_is_float16 ti && (ti_physical_type ti =? CARQUET_PHYSICAL_FIXED_LEN_BYTE_ARRAY) then float_isnan 32 <$> decode_float16 v
      else Some false
  end.

(** ** Clauses *)

Definition CARQUET_FILTER_EQ : Z := 0.
Definition CARQUET_FILTER_NE : Z := 1.
Definition CARQUET_FILTER_LT : Z := 2.
Definition CARQUET_FILTER_LE : Z := 3.
Definition CARQUET_FILTER_GT : Z := 4.
Definition CARQUET_FILTER_GE : Z := 5.
Definition CARQUET_FILTER_RANGE : Z := 6.
Definition CARQUET_FILTER_IN : Z := 7.
Definition CARQUET_FILTER_IS_NULL : Z := 8.
Definition CARQUET_FILTER_IS_NOT_NULL : Z := 9.

(** What [values] points to: packed values, or byte arrays with their lengths. *)
Inductive in_values_t := InNull | InPacked (bytes : list Z) | InArrays (arrays : list (option (list Z) * Z)).

Record carquet_filter_clause_t := mk_clause {
  cl_column_index : Z;
  cl_op : Z;
  cl_value : option (list Z);
  cl_value_size : Z;
  cl_lo : option (list Z);
  cl_lo_size : Z;
  cl_hi : option (list Z);
  cl_hi_size : Z;
  cl_has_lo : bool;
  cl_has_hi : bool;
  cl_values : in_values_t;
  cl_value_count : Z }.

Definition validate_scalar_size (ti : column_type_info_t) (got_size : Z) : carquet_status_t :=
  let expected := scalar_size (ti_physical_type ti) (ti_type_length ti) in
  if ti_physical_type ti =? CARQUET_PHYSICAL_BYTE_ARRAY then
    if got_size <? 0 then CARQUET_ERROR_INVALID_ARGUMENT else CARQUET_OK
  else if expected =? 0 then CARQUET_ERROR_INVALID_ARGUMENT
  else if (ti_physical_type ti =? CARQUET_PHYSICAL_FIXED_LEN_BYTE_ARRAY) && negb (got_size =? ti_type_length ti) then CARQUET_ERROR_INVALID_ARGUMENT
  else CARQUET_OK.

(** An end of a RANGE. *)
Definition validate_end (ti : column_type_info_t) (has : bool) (p : option (list Z)) (size : Z) : carquet_status_t :=
  if has then match p with None => CARQUET_ERROR_INVALID_ARGUMENT | Some _ => validate_scalar_size ti size end else CARQUET_OK.

Definition validate_op (ti : column_type_info_t) (clause : carquet_filter_clause_t) : carquet_status_t :=
  let op := cl_op clause in
  if ti_physical_type ti =? CARQUET_PHYSICAL_INT96 then CARQUET_ERROR_INVALID_ARGUMENT else
  if (CARQUET_FILTER_EQ <=? op) && (op <=? CARQUET_FILTER_GE) then
    match cl_value clause with None => CARQUET_ERROR_INVALID_ARGUMENT | Some _ => validate_scalar_size ti (cl_value_size clause) end
  else if op =? CARQUET_FILTER_RANGE then
    if negb (cl_has_lo clause) && negb (cl_has_hi clause) then CARQUET_ERROR_INVALID_ARGUMENT else
    let st := validate_end ti (cl_has_lo clause) (cl_lo clause) (cl_lo_size clause) in
    if negb (is_ok st) then st else
    let st := validate_end ti (cl_has_hi clause) (cl_hi clause) (cl_hi_size clause) in
    if negb (is_ok st) then st else CARQUET_OK
  else if op =? CARQUET_FILTER_IN then
    match cl_values clause with
    | InNull => CARQUET_ERROR_INVALID_ARGUMENT
    | _ => if cl_value_count clause <=? 0 then CARQUET_ERROR_INVALID_ARGUMENT
           else if cl_value_count clause >? 256 then CARQUET_ERROR_INVALID_ARGUMENT else CARQUET_OK
    end
  else if (op =? CARQUET_FILTER_IS_NULL) || (op =? CARQUET_FILTER_IS_NOT_NULL) then CARQUET_OK
  else CARQUET_ERROR_INVALID_ARGUMENT.

(** The [i]-th value: where it is, and its length. *)
Definition in_value_at (ti : column_type_info_t) (clause : carquet_filter_clause_t) (i : Z) : option (option (list Z) * Z) :=
  if ti_physical_type ti =? CARQUET_PHYSICAL_BYTE_ARRAY then
    match cl_values clause with InArrays arr => rd arr i | _ => None end
  else
    match cl_values clause with
    | InPacked base =>
        let sz := if ti_physical_type ti =? CARQUET_PHYSICAL_FIXED_LEN_BYTE_ARRAY then ti_type_length ti else scalar_size (ti_physical_type ti) (ti_type_length ti) in
        p ← ptr_at base (i * sz); Some (Some p, sz)
    | _ => None
    end.

(** ** One page and one clause *)

(** A bound that is there and usable; then the test, false when it is not. *)
Definition bound_test (bound : option (list Z)) (cmp : list Z -> option Z) (test : Z -> bool) : option bool :=
  match bound with Some p => test <$> cmp p | None => Some false end.

Section Page.
Context (ti : column_type_info_t).

(** The loop over the values from [i] on, [n] of them left. *)
Fixpoint any_value_fits (clause : carquet_filter_clause_t) (pmin pmax : option (list Z)) (pmin_len pmax_len : Z) (n : nat) (i : Z) : option bool :=
  match n with
  | O => Some false
  | S n =>
      '(v, vlen) ← in_value_at ti clause i;
      match v with
      | None => any_value_fits clause pmin pmax pmin_len pmax_len n (i + 1)
      | Some v =>
          nan ← predicate_value_is_nan ti (Some v);
          if nan : bool then any_value_fits clause pmin pmax pmin_len pmax_len n (i + 1) else
          below ← bound_test pmin (λ p, compare_typed ti v vlen p pmin_len) (λ c, c <? 0);
          above ← bound_test pmax (λ p, compare_typed ti v vlen p pmax_len) (λ c, c >? 0);
          if negb below && negb above then Some true else any_value_fits clause pmin pmax pmin_len pmax_len n (i + 1)
      end
  end.

(** A clause with one value: [test] says whether the page is ruled out. *)
Definition value_clause (v : option (list Z)) (test : option bool) : option bool :=
  nan ← predicate_value_is_nan ti v;
  if nan : bool then Some false else negb <$> test.

(** The switch over the operations that look at the bounds.  The value is looked at only
    where there is a bound to compare it with. *)
Definition matches_bounds (clause : carquet_filter_clause_t) (pmin : option (list Z)) (pmin_len : Z) (pmax : option (list Z)) (pmax_len : Z) : option bool :=
  let vs_min v vlen p := v ← v; compare_typed ti v vlen p pmin_len in
  let vs_max v vlen p := v ← v; compare_typed ti v vlen p pmax_len in
  let min_vs v vlen p := v ← v; compare_typed ti p pmin_len v vlen in
  let max_vs v vlen p := v ← v; compare_typed ti p pmax_len v vlen in
  let op := cl_op clause in
  let v := cl_value clause in
  let vlen := cl_value_size clause in
  if op =? CARQUET_FILTER_EQ then
    value_clause v (
      below ← bound_test pmin (vs_min v vlen) (λ c, c <? 0);
      if below : bool then Some true else bound_test pmax (vs_max v vlen) (λ c, c >? 0))
  else if op =? CARQUET_FILTER_NE then
    match pmin, pmax with
    | Some lo, Some hi =>
        nan ← predicate_value_is_nan ti v;
        if nan : bool then Some true else
        c ← compare_typed ti lo pmin_len hi pmax_len;
        if negb (c =? 0) then Some true else
        c ← vs_min v vlen lo; Some (negb (c =? 0))
    | _, _ => Some true
    end
  else if op =? CARQUET_FILTER_LT then value_clause v (bound_test pmin (min_vs v vlen) (λ c, c >=? 0))
  else if op =? CARQUET_FILTER_LE then value_clause v (bound_test pmin (min_vs v vlen) (λ c, c >? 0))
  else if op =? CARQUET_FILTER_GT then value_clause v (bound_test pmax (max_vs v vlen) (λ c, c <=? 0))
  else if op =? CARQUET_FILTER_GE then value_clause v (bound_test pmax (max_vs v vlen) (λ c, c <? 0))
  else if op =? CARQUET_FILTER_RANGE then
    lo_keeps ← (if cl_has_lo clause then value_clause (cl_lo clause) (bound_test pmax (max_vs (cl_lo clause) (cl_lo_size clause)) (λ c, c <? 0)) else Some true);
    if negb lo_keeps then Some false else
    if cl_has_hi clause then value_clause (cl_hi clause) (bound_test pmin (min_vs (cl_hi clause) (cl_hi_size clause)) (λ c, c >? 0)) else Some true
  else if op =? CARQUET_FILTER_IN then any_value_fits clause pmin pmax pmin_len pmax_len (Z.to_nat (cl_value_count clause)) 0
  else Some true.

Definition page_matches_clause (stats : carquet_page_stats_t) (clause : carquet_filter_clause_t) (page_num_rows : Z) : option bool :=
  let op := cl_op clause in
  if op =? CARQUET_FILTER_IS_NULL then Some ((ps_null_count stats >? 0) || ps_is_null_page stats) else
  if op =? CARQUET_FILTER_IS_NOT_NULL then
    Some (negb (ps_is_null_page stats) && negb ((page_num_rows >? 0) && (ps_null_count stats >=? page_num_rows))) else
  if ps_is_null_page stats then Some false else
  if (page_num_rows >? 0) && (ps_null_count stats >=? page_num_rows) then Some false else
  let pmin := if stat_len_ok ti (ps_min_value_size stats) then ps_min_value stats else None in
  let pmax := if stat_len_ok ti (ps_max_value_size stats) then ps_max_value stats else None in
  match pmin, pmax with
  | None, None => Some true
  | _, _ => matches_bounds clause pmin (ps_min_value_size stats) pmax (ps_max_value_size stats)
  end.

End Page.

(** ** One clause, then all *)

Section Eval.
Context {Hp : ArrayHeap} {F : FileIO}.

Definition lookup_column_type (reader : carquet_reader_t) (column_index : Z) : option (carquet_status_t * option column_type_info_t) :=
  match carquet_reader_schema reader with
  | None => Some (CARQUET_ERROR_INVALID_STATE, None)
  | Some schema =>
      if (column_index <? 0) || (column_index >=? sch_num_leaves schema) then Some (CARQUET_ERROR_INVALID_ARGUMENT, None) else
      schema_idx ← rd (sch_leaf_indices schema) column_index;
      elem ← rd (sch_elements schema) schema_idx;
      ti ← type_info_of elem;
      Some (CARQUET_OK, Some ti)
  end.

Definition carquet_page_filter_validate_clause (reader : carquet_reader_t) (clause : carquet_filter_clause_t) : option carquet_status_t :=
  '(st, ti) ← lookup_column_type reader (cl_column_index clause);
  Some (match ti with None => st | Some ti => validate_op ti clause end).

(** Reading an index of a column; [None] inside is NULL. *)
Definition read_index {X} (reader : carquet_reader_t) (offset length : option Z) (parse : option (list Z) -> Z -> option (option X)) : option (option X) :=
  match offset, length with
  | Some offset, Some length =>
      if length <=? 0 then Some None else
      '(status, data) ← reader_read_bytes reader offset length;
      if negb (is_ok status) then Some None else parse data length
  | _, _ => Some None
  end.

Definition carquet_reader_get_column_index (reader : carquet_reader_t) (row_group_index column_index : Z) : option (option carquet_column_index_t) :=
  chunk ← reader_get_column_chunk reader row_group_index column_index;
  match chunk with
  | None => Some None
  | Some chunk => read_index reader (cc_column_index_offset chunk) (cc_column_index_length chunk) carquet_column_index_parse
  end.

Definition carquet_reader_get_offset_index (reader : carquet_reader_t) (row_group_index column_index : Z) : option (option carquet_offset_index_t) :=
  chunk ← reader_get_column_chunk reader row_group_index column_index;
  match chunk with
  | None => Some None
  | Some chunk => read_index reader (cc_offset_index_offset chunk) (cc_offset_index_length chunk) carquet_offset_index_parse
  end.

(** The loop over the pages from [i] on, [n] of them left. *)
Fixpoint pages_to_ranges (ti : column_type_info_t) (ci : carquet_column_index_t) (oi : carquet_offset_index_t) (clause : carquet_filter_clause_t) (num_rows n_pages : Z)
    (n : nat) (i : Z) (out : carquet_row_range_list_t) : option (carquet_status_t * carquet_row_range_list_t) :=
  match n with
  | O => Some (CARQUET_OK, out)
  | S n =>
      '(st, stats) ← carquet_column_index_get_page_stats ci i;
      match stats with None => pages_to_ranges ti ci oi clause num_rows n_pages n (i + 1) out | Some stats =>
      '(st, loc) ← carquet_offset_index_get_page_location oi i;
      match loc with None => pages_to_ranges ti ci oi clause num_rows n_pages n (i + 1) out | Some loc =>
      let first_row := pl_first_row_index loc in
      '(st, end_row) ← (if i + 1 <? n_pages then
                          '(st, next) ← carquet_offset_index_get_page_location oi (i + 1); Some (st, pl_first_row_index (default pl_zero next))
                        else Some (CARQUET_OK, num_rows));
      if negb (is_ok st) then Some (st, out) else
      page_rows ← sint 64 (end_row - first_row);
      if page_rows <=? 0 then pages_to_ranges ti ci oi clause num_rows n_pages n (i + 1) out else
      keep ← page_matches_clause ti stats clause page_rows;
      if keep : bool then
        '(st, out) ← carquet_row_range_list_append out first_row page_rows;
        if negb (is_ok st) then Some (st, out) else pages_to_ranges ti ci oi clause num_rows n_pages n (i + 1) out
      else pages_to_ranges ti ci oi clause num_rows n_pages n (i + 1) out
      end end
  end.

Definition eval_clause_to_ranges (reader : carquet_reader_t) (row_group_index row_group_num_rows : Z) (clause : carquet_filter_clause_t) (out : carquet_row_range_list_t)
    : option (carquet_status_t * carquet_row_range_list_t) :=
  '(st, ti) ← lookup_column_type reader (cl_column_index clause);
  match ti with
  | None => Some (st, out)
  | Some ti =>
      ci ← carquet_reader_get_column_index reader row_group_index (cl_column_index clause);
      oi ← carquet_reader_get_offset_index reader row_group_index (cl_column_index clause);
      match ci, oi with
      | Some ci, Some oi =>
          let n_ci_pages := carquet_column_index_num_pages ci in
          let n_oi_pages := carquet_offset_index_num_pages oi in
          let n_pages := if n_ci_pages <? n_oi_pages then n_ci_pages else n_oi_pages in
          pages_to_ranges ti ci oi clause row_group_num_rows n_pages (Z.to_nat n_pages) 0 (carquet_row_range_list_clear out)
      | _, _ => Some (CARQUET_ERROR_PAGE_INDEX_REQUIRED, out)
      end
  end.

(** The two-finger sweep; every turn advances [i] or [j]. *)
Fixpoint intersect_from (fuel : nat) (a b : carquet_row_range_list_t) (i j : Z) (out : carquet_row_range_list_t) : option (carquet_status_t * carquet_row_range_list_t) :=
  match fuel with
  | O => None
  | S fuel =>
      if (i <? rl_count a) && (j <? rl_count b) then
        ra ← rd (rl_ranges a) i;
        rb ← rd (rl_ranges b) j;
        let a_lo := rr_first_row ra in
        a_hi ← sint 64 (a_lo + rr_num_rows ra);
        let b_lo := rr_first_row rb in
        b_hi ← sint 64 (b_lo + rr_num_rows rb);
        let lo := if a_lo >? b_lo then a_lo else b_lo in
        let hi := if a_hi <? b_hi then a_hi else b_hi in
        '(st, out) ← (if lo <? hi then rows ← sint 64 (hi - lo); carquet_row_range_list_append out lo rows else Some (CARQUET_OK, out));
        if negb (is_ok st) then Some (st, out) else
        if a_hi <=? b_hi then intersect_from fuel a b (i + 1) j out else intersect_from fuel a b i (j + 1) out
      else Some (CARQUET_OK, out)
  end.

Definition intersect_lists (a b out : carquet_row_range_list_t) : option (carquet_status_t * carquet_row_range_list_t) :=
  intersect_from (Z.to_nat (rl_count a) + Z.to_nat (rl_count b) + 1) a b 0 0 (carquet_row_range_list_clear out).

(** The clauses after the first: [accum], [scratch] and [next] as in the loop. *)
Fixpoint eval_rest (reader : carquet_reader_t) (row_group_index num_rows : Z) (clauses : list carquet_filter_clause_t) (accum scratch next : carquet_row_range_list_t)
    : option (carquet_status_t * carquet_row_range_list_t) :=
  match clauses with
  | [] => Some (CARQUET_OK, accum)
  | clause :: clauses =>
      if rl_count accum =? 0 then Some (CARQUET_OK, accum) else
      '(st, scratch) ← eval_clause_to_ranges reader row_group_index num_rows clause scratch;
      if negb (is_ok st) then Some (st, accum) else
      '(st, next) ← intersect_lists accum scratch next;
      if negb (is_ok st) then Some (st, accum) else
      eval_rest reader row_group_index num_rows clauses next (carquet_row_range_list_clear scratch) (carquet_row_range_list_clear accum)
  end.

(** The ranges [k] on of [accum], moved to the caller's list. *)
Fixpoint move_ranges (n : nat) (k : Z) (accum out : carquet_row_range_list_t) : option (carquet_status_t * carquet_row_range_list_t) :=
  match n with
  | O => Some (CARQUET_OK, out)
  | S n =>
      r ← rd (rl_ranges accum) k;
      '(st, out) ← carquet_row_range_list_append out (rr_first_row r) (rr_num_rows r);
      if negb (is_ok st) then Some (st, out) else move_ranges n (k + 1) accum out
  end.

(** The clauses are the first [clause_count] of an array. *)
Definition carquet_page_filter_eval_row_group (reader : carquet_reader_t) (row_group_index : Z) (clauses : list carquet_filter_clause_t) (out_ranges : carquet_row_range_list_t)
    : option (carquet_status_t * carquet_row_range_list_t) :=
  let out_ranges := carquet_row_range_list_clear out_ranges in
  match clauses with
  | [] => Some (CARQUET_OK, out_ranges)
  | clause :: clauses =>
      if (row_group_index <? 0) || (row_group_index >=? carquet_reader_num_row_groups reader) then Some (CARQUET_ERROR_ROW_GROUP_NOT_FOUND, out_ranges) else
      rg ← rd (fm_row_groups (fr_metadata reader)) row_group_index;
      let row_group_num_rows := rg_num_rows rg in
      if row_group_num_rows <=? 0 then Some (CARQUET_OK, out_ranges) else
      let empty := carquet_row_range_list_init in
      '(st, accum) ← eval_clause_to_ranges reader row_group_index row_group_num_rows clause empty;
      '(st, accum) ← (if negb (is_ok st) then Some (st, accum) else eval_rest reader row_group_index row_group_num_rows clauses accum empty empty);
      '(st, out_ranges) ← (if negb (is_ok st) then Some (st, out_ranges) else move_ranges (Z.to_nat (rl_count accum)) 0 accum out_ranges);
      Some (st, if negb (is_ok st) then carquet_row_range_list_clear out_ranges else out_ranges)
  end.

End Eval.
