(* ===== verification/RowRanges.v ===== *)
(** * The row ranges of the page filter

    A list of ranges as the C structure holds it, the rows it covers, and what appending a
    range and intersecting two lists do to them. *)

From S2P Require Import Prelude Status Memory Heap FileReader PageFilter.

#[local] Open Scope Z_scope.

(** ** The ranges in a list *)

Definition view (l : carquet_row_range_list_t) : list carquet_row_range_t := take (Z.to_nat (rl_count l)) (rl_ranges l).

Record range_list_ok (l : carquet_row_range_list_t) : Prop := {
  rlo_count : 0 <= rl_count l <= rl_capacity l;
  rlo_cells : lenZ (rl_ranges l) = rl_capacity l }.

Abbreviation range_end r := (rr_first_row r + rr_num_rows r).

Definition in_range (row : Z) (r : carquet_row_range_t) : Prop := rr_first_row r <= row < range_end r.
Definition covers (v : list carquet_row_range_t) (row : Z) : Prop := Exists (in_range row) v.

(** Ascending, disjoint and not empty, between [lo] and [hi]. *)
Fixpoint ordered (lo : Z) (v : list carquet_row_range_t) (hi : Z) : Prop :=
  match v with
  | [] => lo <= hi
  | r :: v => lo <= rr_first_row r /\ 0 < rr_num_rows r /\ ordered (range_end r) v hi
  end.

Lemma view_length l : range_list_ok l -> length (view l) = Z.to_nat (rl_count l).
Proof. intros [H1 H2]. unfold view. rewrite length_take. lia. Qed.

Lemma range_list_init_ok : range_list_ok carquet_row_range_list_init.
Proof. by split. Qed.

Lemma range_list_clear_ok l : range_list_ok l -> range_list_ok (carquet_row_range_list_clear l) /\ view (carquet_row_range_list_clear l) = [].
Proof. intros [H1 H2]. split; [split; cbn; lia|done]. Qed.

Lemma ordered_le lo v hi : ordered lo v hi -> lo <= hi.
Proof. revert lo. induction v as [|r v IH]; cbn; intros lo; [done|]. intros (H1 & H2 & H3). specialize (IH _ H3). lia. Qed.

Lemma ordered_weaken lo v hi hi' : ordered lo v hi -> hi <= hi' -> ordered lo v hi'.
Proof. revert lo. induction v as [|r v IH]; cbn; intros lo; [lia|]. intros (H1 & H2 & H3) Hh. repeat split; [lia|lia|by apply IH]. Qed.

Lemma ordered_snoc lo v r hi : ordered lo (v ++ [r]) hi <-> ordered lo v (rr_first_row r) /\ 0 < rr_num_rows r /\ range_end r <= hi.
Proof. revert lo. induction v as [|x v IH]; cbn; intros lo; [lia|]. rewrite IH. tauto. Qed.

Lemma ordered_covers lo v hi row : ordered lo v hi -> covers v row -> lo <= row < hi.
Proof.
  revert lo. induction v as [|r v IH]; cbn; intros lo; [by intros _ H; inversion H|]. intros (H1 & H2 & H3) [H|H]%Exists_cons.
  - unfold in_range in H. pose proof (ordered_le _ _ _ H3). lia.
  - specialize (IH _ H3 H). lia.
Qed.

(** The number of rows in the ranges. *)
Definition rows_of (v : list carquet_row_range_t) : Z := foldr (λ r n, rr_num_rows r + n) 0 v.

Lemma rows_of_app v w : rows_of (v ++ w) = rows_of v + rows_of w.
Proof. unfold rows_of. induction v as [|r v IH]; cbn; [done|]. rewrite IH. lia. Qed.

Lemma rows_of_ordered lo v hi : ordered lo v hi -> rows_of v <= hi - lo.
Proof. revert lo. unfold rows_of. induction v as [|r v IH]; cbn; intros lo; [lia|]. intros (H1 & H2 & H3). specialize (IH _ H3). lia. Qed.

(** ** Lists within a number of rows

    Every range lies in the rows from 0 to [N], and the total is exact. *)

Definition range_in (N : Z) (r : carquet_row_range_t) : Prop := 0 <= rr_first_row r /\ 0 < rr_num_rows r /\ range_end r <= N.

Record ranges_in (N : Z) (l : carquet_row_range_list_t) : Prop := {
  ri_list : range_list_ok l;
  ri_view : Forall (range_in N) (view l);
  ri_total : rl_total_rows l = rows_of (view l) }.

(** [k] more ranges do not overflow the total, whichever they are. *)
Definition room (N k : Z) (l : carquet_row_range_list_t) : Prop := (rl_count l + k) * N < 2 ^ 63.

Lemma rows_of_in N v : Forall (range_in N) v -> 0 <= rows_of v <= lenZ v * N.
Proof. unfold rows_of. induction 1 as [|r v (H1 & H2 & H3) _ IH]; cbn [foldr length]; nia. Qed.

Lemma rows_room_append N k l num_rows : ranges_in N l -> 0 <= k -> 0 < num_rows <= N -> room N (k + 1) l -> rows_of (view l) + num_rows < 2 ^ 63.
Proof.
  intros [K HF _] Hk Hn HR. pose proof (rows_of_in N _ HF) as H. rewrite view_length in H by done. pose proof (rlo_count _ K). unfold room in HR. rewrite Z2Nat.id in H by lia. nia.
Qed.

Lemma rows_room_less N k k' l l' : 0 <= N -> rl_count l' + k' <= rl_count l + k -> room N k l -> room N k' l'.
Proof. unfold room. nia. Qed.

Lemma range_list_clear_in N l : range_list_ok l -> ranges_in N (carquet_row_range_list_clear l) /\ view (carquet_row_range_list_clear l) = [].
Proof. intros K. destruct (range_list_clear_ok l K) as [K' E]. split; [split; [done|by rewrite E|by rewrite E]|done]. Qed.

Lemma range_list_init_in N : ranges_in N carquet_row_range_list_init.
Proof. split; [apply range_list_init_ok|constructor|done]. Qed.

(** ** Appending *)

(** The ranges afterwards. *)
Definition append_view (v : list carquet_row_range_t) (first_row num_rows : Z) : list carquet_row_range_t :=
  match list.last v with
  | Some r => if range_end r =? first_row then take (length v - 1) v ++ [mk_range (rr_first_row r) (rr_num_rows r + num_rows)] else v ++ [mk_range first_row num_rows]
  | None => [mk_range first_row num_rows]
  end.

Lemma append_view_rows v first_row num_rows : rows_of (append_view v first_row num_rows) = rows_of v + num_rows.
Proof.
  unfold append_view. destruct v as [|r v] using rev_ind; [cbn; lia|]. rewrite last_snoc. destruct (_ =? _); rewrite ?length_app, ?Nat.add_sub, ?take_app_length, !rows_of_app; cbn; lia.
Qed.

Lemma append_view_in N v first_row num_rows : Forall (range_in N) v -> 0 <= first_row -> 0 < num_rows -> first_row + num_rows <= N -> Forall (range_in N) (append_view v first_row num_rows).
Proof.
  intros HF H1 H2 H3. unfold append_view. destruct v as [|r v] using rev_ind; [by repeat constructor|]. rewrite last_snoc. apply Forall_app in HF as [HF Hr]. pose proof (Forall_inv Hr) as (R1 & R2 & R3).
  destruct (Z.eqb_spec (range_end r) first_row); rewrite ?length_app, ?Nat.add_sub, ?take_app_length, ?Forall_app; repeat split; try done; repeat constructor; cbn; lia.
Qed.

(** Behind the ranges of the list, appending adds the rows. *)
Lemma append_view_adds v lo m first_row num_rows : ordered lo v m -> m <= first_row -> 0 < num_rows ->
  ordered lo (append_view v first_row num_rows) (first_row + num_rows) /\
  forall row, covers (append_view v first_row num_rows) row <-> covers v row \/ first_row <= row < first_row + num_rows.
Proof.
  intros HO Hm Hn. unfold append_view.
  destruct v as [|r v] using rev_ind.
  { cbn in *. split; [lia|]. intros row. unfold covers. rewrite Exists_cons, !Exists_nil. unfold in_range. cbn. naive_solver lia. }
  rewrite last_snoc. apply ordered_snoc in HO as (HO & H1 & H2). pose proof (ordered_le _ _ _ HO).
  destruct (Z.eqb_spec (range_end r) first_row) as [E|E].
  - rewrite length_app. cbn [length]. replace (length v + 1 - 1)%nat with (length v) by lia. rewrite take_app_length. split; [apply ordered_snoc; cbn; repeat split; (done || lia)|].
    intros row. unfold covers. rewrite !Exists_app, !Exists_cons, !Exists_nil. unfold in_range. cbn. naive_solver lia.
  - split; [apply ordered_snoc; cbn; split; [apply ordered_snoc; repeat split; (done || lia)|lia]|]. intros row. unfold covers. rewrite !Exists_app, !Exists_cons, !Exists_nil. unfold in_range. cbn. naive_solver lia.
Qed.

Lemma ordered_append_room v lo m first_row num_rows N : 0 <= lo -> ordered lo v m -> m <= first_row -> first_row + num_rows <= N -> N < 2 ^ 63 -> rows_of v + num_rows < 2 ^ 63.
Proof. intros Hlo HO Hm Hf HN. pose proof (rows_of_ordered _ _ _ HO). lia. Qed.

Section Ranges.
Context {Hp : ArrayHeap} {Ho : ArrayHeapOk Hp}.

(** OK with the range added, or out of memory and the list as it was. *)
Definition added (l : carquet_row_range_list_t) (first_row num_rows : Z) (st : carquet_status_t) (l' : carquet_row_range_list_t) : Prop :=
  rl_count l' <= rl_count l + 1 /\
  (st = CARQUET_OK /\ view l' = append_view (view l) first_row num_rows \/ st = CARQUET_ERROR_OUT_OF_MEMORY /\ l' = l).

(** What the two ways to append have in common: the new array and the new total. *)
Lemma stored_range N l first_row num_rows cells count capacity : ranges_in N l -> N < 2 ^ 63 -> 0 <= first_row -> 0 < num_rows -> first_row + num_rows <= N ->
  rows_of (view l) + num_rows < 2 ^ 63 -> lenZ cells = capacity -> 0 <= count <= capacity -> count <= rl_count l + 1 -> take (Z.to_nat count) cells = append_view (view l) first_row num_rows ->
  exists l', (total_rows ← sint 64 (rl_total_rows l + num_rows); Some (CARQUET_OK, mk_range_list cells count capacity total_rows)) = Some (CARQUET_OK, l') /\
    ranges_in N l' /\ added l first_row num_rows CARQUET_OK l'.
Proof.
  intros [K HF HT] HN H1 H2 H3 HR HL HC HC' HV. pose proof (rows_of_in N _ HF). rewrite sint_Some by (unfold in_i; lia). cbn [mbind option_bind]. eexists. split; [done|].
  split; [|split; [done|by left]]. split; [by split|unfold view; cbn; rewrite HV; by apply append_view_in|unfold view; cbn; rewrite HV, append_view_rows; lia].
Qed.

Lemma append_range_spec N l first_row num_rows : ranges_in N l -> N < 2 ^ 63 -> 0 <= first_row -> 0 < num_rows -> first_row + num_rows <= N ->
  rows_of (view l) + num_rows < 2 ^ 63 -> view l ++ [mk_range first_row num_rows] = append_view (view l) first_row num_rows ->
  exists st l', append_range l first_row num_rows = Some (st, l') /\ ranges_in N l' /\ added l first_row num_rows st l'.
Proof.
  intros K HN H1' Hn H3' HR HV. pose proof (ri_list _ _ K) as [H1 H2]. unfold append_range. rewrite Z.geb_leb, Z.gtb_ltb. destruct (Z.leb_spec (rl_capacity l) (rl_count l)).
  - set (new_cap := if 0 <? rl_capacity l then rl_capacity l * 2 else 8). assert (rl_count l < new_cap) as HC by (unfold new_cap; case_bool; lia).
    destruct (array_realloc (rl_ranges l) new_cap 16) as [q|] eqn:E; [|eexists _, _; split; [done|]; split; [done|]; split; [lia|by right]].
    pose proof (array_length _ _ _ _ _ _ E ltac:(lia)) as L. pose proof (array_prefix _ _ _ _ _ _ (Z.to_nat (rl_count l)) E ltac:(lia) ltac:(lia)) as P.
    rewrite wr_Some by lia. cbn [mbind option_bind]. exists CARQUET_OK. apply (stored_range N); try (done || lia); [rewrite length_insert; lia|].
    rewrite <- HV. unfold view. replace (Z.to_nat (rl_count l + 1)) with (S (Z.to_nat (rl_count l))) by lia.
    rewrite (take_S_r _ _ (mk_range first_row num_rows)) by (apply list_lookup_insert_eq; lia). by rewrite take_insert_ge, P by lia.
  - rewrite wr_Some by lia. cbn [mbind option_bind]. exists CARQUET_OK. apply (stored_range N); try (done || lia); [rewrite length_insert; lia|].
    rewrite <- HV. unfold view. replace (Z.to_nat (rl_count l + 1)) with (S (Z.to_nat (rl_count l))) by lia.
    rewrite (take_S_r _ _ (mk_range first_row num_rows)) by (apply list_lookup_insert_eq; lia). by rewrite take_insert_ge by lia.
Qed.

Lemma row_range_append_spec N l first_row num_rows : ranges_in N l -> N < 2 ^ 63 -> 0 <= first_row -> 0 < num_rows -> first_row + num_rows <= N -> rows_of (view l) + num_rows < 2 ^ 63 ->
  exists st l', carquet_row_range_list_append l first_row num_rows = Some (st, l') /\ ranges_in N l' /\ added l first_row num_rows st l'.
Proof.
  intros K HN Hf Hn Hb HR. pose proof (ri_list _ _ K) as K'. pose proof K' as [H1 H2]. pose proof (view_length l K') as L. unfold carquet_row_range_list_append. destruct (Z.leb_spec num_rows 0) as [?|_]; [lia|].
  rewrite Z.gtb_ltb. destruct (Z.ltb_spec 0 (rl_count l)).
  - destruct (rd_Some (rl_ranges l) (rl_count l - 1)) as [r Er]; [lia|]. rewrite Er. cbn [mbind option_bind]. rewrite rd_lookup in Er by lia.
    assert (list.last (view l) = Some r) as EL by (rewrite last_lookup, L; unfold view; rewrite lookup_take_lt by lia; rewrite <- Er; f_equal; lia).
    assert (range_in N r) as (R1 & R2 & R3) by (eapply Forall_lookup_1; [apply (ri_view _ _ K)|by rewrite <- last_lookup]).
    rewrite (sint_Some 64 (range_end r)) by (unfold in_i; lia). cbn [mbind option_bind]. destruct (Z.eqb_spec (range_end r) first_row) as [E|E].
    + rewrite (sint_Some 64 (rr_num_rows r + num_rows)) by (unfold in_i; lia). cbn [mbind option_bind]. rewrite wr_Some by lia. cbn [mbind option_bind]. exists CARQUET_OK.
      apply (stored_range N); try (done || lia); [rewrite length_insert; lia|].
      unfold append_view. rewrite EL, L. rewrite (proj2 (Z.eqb_eq _ _) E). unfold view. rewrite take_take. replace (Z.to_nat (rl_count l)) with (S (Z.to_nat (rl_count l - 1))) at 1 by lia.
      rewrite (take_S_r _ _ (mk_range (rr_first_row r) (rr_num_rows r + num_rows))) by (apply list_lookup_insert_eq; lia). rewrite take_insert_ge by lia. f_equal. f_equal. lia.
    + apply append_range_spec; try done. unfold append_view. rewrite EL. by rewrite (proj2 (Z.eqb_neq _ _) E).
  - apply append_range_spec; try done. unfold append_view. destruct (view l); [done|cbn in L; lia].
Qed.

End Ranges.

(** ** Intersecting *)

(** The statuses of an append. *)
Definition stored_or_full (st : carquet_status_t) : Prop := st = CARQUET_OK \/ st = CARQUET_ERROR_OUT_OF_MEMORY.

(** The first range starts at [m] or behind it. *)
Definition starts_after (m : Z) (v : list carquet_row_range_t) : Prop := match v with r :: _ => m <= rr_first_row r | [] => True end.

Lemma ordered_starts lo v hi m : ordered lo v hi -> m <= lo -> starts_after m v.
Proof. destruct v; cbn; lia. Qed.

Lemma view_rd l i : range_list_ok l -> 0 <= i < rl_count l -> exists r v, rd (rl_ranges l) i = Some r /\ drop (Z.to_nat i) (view l) = r :: v /\ drop (Z.to_nat (i + 1)) (view l) = v.
Proof.
  intros [H1 H2] Hi. destruct (rd_Some (rl_ranges l) i) as [r Er]; [lia|]. pose proof Er as E. rewrite rd_lookup in E by lia. exists r, (drop (S (Z.to_nat i)) (view l)). split; [done|].
  replace (Z.to_nat (i + 1)) with (S (Z.to_nat i)) by lia. split; [|done]. apply drop_S. unfold view. rewrite lookup_take_lt by lia. done.
Qed.

(** The next range of a list, and what is behind it. *)
Lemma view_next N l i : ranges_in N l -> 0 <= i < rl_count l ->
  exists r v, rd (rl_ranges l) i = Some r /\ range_in N r /\ drop (Z.to_nat i) (view l) = r :: v /\ drop (Z.to_nat (i + 1)) (view l) = v.
Proof.
  intros K Hi. destruct (view_rd l i (ri_list _ _ K) Hi) as (r & v & E & E1 & E2). exists r, v. split; [done|]. split; [|done].
  pose proof (Forall_drop _ (Z.to_nat i) _ (ri_view _ _ K)) as HF. rewrite E1 in HF. by apply Forall_cons_1 in HF as [? _].
Qed.

Lemma covers_cons r v row : covers (r :: v) row <-> in_range row r \/ covers v row.
Proof. apply Exists_cons. Qed.

Lemma covers_past l i row : range_list_ok l -> covers (drop (Z.to_nat i) (view l)) row -> i < rl_count l.
Proof.
  intros K H. destruct (Z.lt_ge_cases i (rl_count l)) as [?|Hi]; [done|]. rewrite drop_ge in H by (rewrite view_length by done; lia). inversion H.
Qed.

(** A turn of the sweep: what the first two ranges share, and the rest. *)
Lemma common_rest ra va rb vb l1 l2 hi : ordered l1 (ra :: va) hi -> ordered l2 (rb :: vb) hi -> range_end ra <= range_end rb -> forall row,
  covers (ra :: va) row /\ covers (rb :: vb) row <->
  Z.max (rr_first_row ra) (rr_first_row rb) <= row < range_end ra \/ covers va row /\ covers (rb :: vb) row.
Proof.
  intros (A1 & A2 & A3) (B1 & B2 & B3) He row. rewrite !covers_cons. pose proof (λ H, ordered_covers _ _ _ row A3 H). pose proof (λ H, ordered_covers _ _ _ row B3 H). unfold in_range. intuition lia.
Qed.

(** Two ordered lists, and the result in front of one of them. *)
Definition sweep_ordered (N : Z) (va vb vo : list carquet_row_range_t) : Prop :=
  exists l1 l2 m, 0 <= l1 /\ 0 <= l2 /\ ordered l1 va N /\ ordered l2 vb N /\ ordered 0 vo m /\ m <= N /\ (starts_after m va \/ starts_after m vb).

Lemma sweep_ordered_sym N va vb vo : sweep_ordered N va vb vo -> sweep_ordered N vb va vo.
Proof. intros (l1 & l2 & m & H1 & H2 & H3 & H4 & H5 & H6 & H7). exists l2, l1, m. tauto. Qed.

Abbreviation common_first ra rb := (Z.max (rr_first_row ra) (rr_first_row rb)).
Abbreviation common_end ra rb := (Z.min (range_end ra) (range_end rb)).

(** The result after a turn. *)
Definition with_common ra rb (vo : list carquet_row_range_t) : list carquet_row_range_t :=
  if common_first ra rb <? common_end ra rb then append_view vo (common_first ra rb) (common_end ra rb - common_first ra rb) else vo.

Lemma with_common_sym ra rb vo : with_common ra rb vo = with_common rb ra vo.
Proof. unfold with_common. by rewrite Z.max_comm, Z.min_comm. Qed.

Lemma sweep_turn N ra va rb vb vo : sweep_ordered N (ra :: va) (rb :: vb) vo -> range_end ra <= range_end rb ->
  sweep_ordered N va (rb :: vb) (with_common ra rb vo) /\
  forall row, covers (with_common ra rb vo) row \/ covers va row /\ covers (rb :: vb) row <-> covers vo row \/ covers (ra :: va) row /\ covers (rb :: vb) row.
Proof.
  intros (l1 & l2 & m & H1 & H2 & HA & HB & HO & Hm & Hs) He. pose proof HA as (A1 & A2 & A3). pose proof HB as (B1 & B2 & B3).
  pose proof (ordered_le _ _ _ A3). pose proof (ordered_le _ _ _ B3). unfold with_common. rewrite (Z.min_l (range_end ra)) by done.
  destruct (Z.ltb_spec (common_first ra rb) (range_end ra)).
  - destruct (append_view_adds vo 0 m (common_first ra rb) (range_end ra - common_first ra rb) HO) as [C1 C2]; [destruct Hs as [Hs|Hs]; cbn in Hs; lia|lia|].
    rewrite Zplus_minus in C1, C2. split.
    + exists (range_end ra), l2, (range_end ra). do 6 (split; [done || lia|]). left. by apply (ordered_starts _ _ _ _ A3).
    + intros row. rewrite C2, (common_rest _ _ _ _ _ _ _ HA HB He). tauto.
  - split; [|intros row; rewrite (common_rest _ _ _ _ _ _ _ HA HB He); intuition lia].
    exists (range_end ra), l2, m. do 6 (split; [done || lia|]). destruct Hs as [Hs|Hs]; [left; apply (ordered_starts _ _ _ _ A3); cbn in Hs; lia|by right].
Qed.

Lemma sweep_room N ra va rb vb vo : N < 2 ^ 63 -> sweep_ordered N (ra :: va) (rb :: vb) vo -> common_first ra rb < common_end ra rb ->
  rows_of vo + (common_end ra rb - common_first ra rb) < 2 ^ 63.
Proof.
  intros HN (l1 & l2 & m & H1 & H2 & HA & HB & HO & Hm & Hs) Hc. pose proof HA as (A1 & A2 & A3). pose proof HB as (B1 & B2 & B3). pose proof (ordered_le _ _ _ A3). pose proof (ordered_le _ _ _ B3).
  apply (ordered_append_room vo 0 m (common_first ra rb) _ N); [done|done|destruct Hs as [Hs|Hs]; cbn in Hs; lia|lia|done].
Qed.

Lemma sweep_end N va vb vo : va = [] \/ vb = [] -> sweep_ordered N va vb vo -> ordered 0 vo N /\ forall row, covers vo row <-> covers vo row \/ covers va row /\ covers vb row.
Proof.
  intros HE (l1 & l2 & m & _ & _ & _ & _ & HO & Hm & _). split; [by eapply ordered_weaken|]. intros row. unfold covers at 3 4. destruct HE as [-> | ->]; rewrite Exists_nil; tauto.
Qed.

Section Intersect.
Context {Hp : ArrayHeap} {Ho : ArrayHeapOk Hp} (N : Z) (HN : 0 <= N < 2 ^ 63).

(** The part of two ranges that both cover, appended when there is one. *)
Lemma append_common out ra rb : ranges_in N out -> range_in N ra -> range_in N rb ->
  (common_first ra rb < common_end ra rb -> rows_of (view out) + (common_end ra rb - common_first ra rb) < 2 ^ 63) ->
  exists st out',
    (if common_first ra rb <? common_end ra rb then rows ← sint 64 (common_end ra rb - common_first ra rb); carquet_row_range_list_append out (common_first ra rb) rows
     else Some (CARQUET_OK, out)) = Some (st, out') /\ ranges_in N out' /\ rl_count out' <= rl_count out + 1 /\ stored_or_full st /\
    (st = CARQUET_OK -> view out' = with_common ra rb (view out)).
Proof.
  intros K (A1 & A2 & A3) (B1 & B2 & B3) HR. unfold with_common. destruct (Z.ltb_spec (common_first ra rb) (common_end ra rb)) as [Hlt|Hlt].
  - rewrite sint_Some by (unfold in_i; lia). cbn [mbind option_bind].
    destruct (row_range_append_spec N out (common_first ra rb) (common_end ra rb - common_first ra rb) K) as (st & out' & E & K' & Hc & H); [lia|lia|lia|lia|by apply HR|].
    exists st, out'. split; [done|]. split; [done|]. split; [done|]. destruct H as [[-> H]|[-> _]]; split; [by left|done|by right|done].
  - eexists _, _. split; [done|]. split; [done|]. split; [lia|]. split; [by left|done].
Qed.

(** No total overflows: there is room for as many ranges as there are turns, or the lists are in order. *)
Definition sweep_ready (a b out : carquet_row_range_list_t) (i j : Z) : Prop :=
  room N (rl_count a - i + (rl_count b - j)) out \/ sweep_ordered N (drop (Z.to_nat i) (view a)) (drop (Z.to_nat j) (view b)) (view out).

Lemma intersect_from_spec a b : ranges_in N a -> ranges_in N b -> forall fuel i j out, 0 <= i <= rl_count a -> 0 <= j <= rl_count b ->
  rl_count a - i + (rl_count b - j) < Z.of_nat fuel -> ranges_in N out -> sweep_ready a b out i j ->
  exists st out', intersect_from fuel a b i j out = Some (st, out') /\ ranges_in N out' /\ rl_count out' <= rl_count out + (rl_count a - i + (rl_count b - j)) /\ stored_or_full st /\
    (st = CARQUET_OK -> sweep_ordered N (drop (Z.to_nat i) (view a)) (drop (Z.to_nat j) (view b)) (view out) ->
      ordered 0 (view out') N /\ forall row, covers (view out') row <-> covers (view out) row \/ covers (drop (Z.to_nat i) (view a)) row /\ covers (drop (Z.to_nat j) (view b)) row).
Proof.
  intros Ka Kb. induction fuel as [|fuel IH]; intros i j out Hi Hj Hf Ko HR; [lia|]. cbn [intersect_from].
  destruct ((i <? rl_count a) && (j <? rl_count b)) eqn:EB.
  2: { eexists _, _. split; [done|]. split; [done|]. split; [lia|]. split; [by left|]. intros _. apply sweep_end. apply andb_false_iff in EB as [E%Z.ltb_ge|E%Z.ltb_ge]; [left|right];
       apply drop_ge; rewrite view_length by (by apply ri_list with N); lia. }
  apply andb_true_iff in EB as [Hi'%Z.ltb_lt Hj'%Z.ltb_lt].
  destruct (view_next N a i Ka) as (ra & va & -> & Ra & EA & EA'); [lia|]. destruct (view_next N b j Kb) as (rb & vb & -> & Rb & EB & EB'); [lia|]. cbn [mbind option_bind].
  pose proof Ra as (A1 & A2 & A3). pose proof Rb as (B1 & B2 & B3). rewrite (sint_Some 64 (range_end ra)), (sint_Some 64 (range_end rb)) by (unfold in_i; lia). cbn [mbind option_bind].
  replace (if rr_first_row ra >? rr_first_row rb then rr_first_row ra else rr_first_row rb) with (common_first ra rb) by (rewrite Z.gtb_ltb; case_bool; lia).
  replace (if range_end ra <? range_end rb then range_end ra else range_end rb) with (common_end ra rb) by (case_bool; lia).
  unfold sweep_ready in HR. rewrite EA, EB in *.
  destruct (append_common out ra rb Ko Ra Rb) as (st & out1 & -> & K1 & C1 & HS & HV).
  { intros Hc. destruct HR as [HR|HR]; [|apply (sweep_room N ra va rb vb); [lia|done|done]]. apply (rows_room_append N 0 out); [done|lia|lia|]. apply (rows_room_less N (rl_count a - i + (rl_count b - j)) _ out); (done || lia). }
  cbn [mbind option_bind]. destruct HS as [-> | ->]; cbn [is_ok negb]; [|eexists _, _; split; [done|]; split; [done|]; split; [lia|]; split; [by right|done]]. specialize (HV eq_refl).
  destruct (Z.leb_spec (range_end ra) (range_end rb)) as [He|He].
  - destruct (IH (i + 1) j out1) as (st & out' & E' & K' & C' & HS & HI); [lia|lia|lia|done| |].
    { unfold sweep_ready. rewrite EA', EB, HV. destruct HR as [HR|HR]; [left|right; by apply sweep_turn]. apply (rows_room_less N (rl_count a - i + (rl_count b - j)) _ out); (done || lia). }
    exists st, out'. split; [exact E'|]. split; [done|]. split; [lia|]. split; [done|]. intros Hst HO. rewrite EA', EB, HV in HI. destruct (sweep_turn N ra va rb vb (view out) HO He) as [T1 T2].
    destruct (HI Hst T1) as [I1 I2]. split; [done|]. intros row. rewrite I2. apply T2.
  - destruct (IH i (j + 1) out1) as (st & out' & E' & K' & C' & HS & HI); [lia|lia|lia|done| |].
    { unfold sweep_ready. rewrite EA, EB', HV. destruct HR as [HR|HR]; [left; apply (rows_room_less N (rl_count a - i + (rl_count b - j)) _ out); (done || lia)|right].
      apply sweep_ordered_sym. rewrite with_common_sym. apply sweep_turn; [by apply sweep_ordered_sym|lia]. }
    exists st, out'. split; [exact E'|]. split; [done|]. split; [lia|]. split; [done|]. intros Hst HO. rewrite EA, EB', HV in HI.
    destruct (sweep_turn N rb vb ra va (view out)) as [T1 T2]; [by apply sweep_ordered_sym|lia|]. rewrite with_common_sym in T1, T2. apply sweep_ordered_sym in T1.
    destruct (HI Hst T1) as [I1 I2]. split; [done|]. intros row. rewrite I2. pose proof (T2 row). tauto.
Qed.

(** Two lists of ordered ranges are intersected exactly, or memory runs out. *)
Lemma intersect_lists_spec a b out : ranges_in N a -> ranges_in N b -> range_list_ok out ->
  (rl_count a + rl_count b) * N < 2 ^ 63 \/ ordered 0 (view a) N /\ ordered 0 (view b) N ->
  exists st out', intersect_lists a b out = Some (st, out') /\ ranges_in N out' /\ rl_count out' <= rl_count a + rl_count b /\ stored_or_full st /\
    (st = CARQUET_OK -> ordered 0 (view a) N -> ordered 0 (view b) N ->
      ordered 0 (view out') N /\ forall row, covers (view out') row <-> covers (view a) row /\ covers (view b) row).
Proof.
  intros Ka Kb Ko HR. destruct (range_list_clear_in N out Ko) as [Kc Ec]. pose proof (rlo_count _ (ri_list _ _ Ka)). pose proof (rlo_count _ (ri_list _ _ Kb)). unfold intersect_lists.
  assert (ordered 0 (view a) N -> ordered 0 (view b) N -> sweep_ordered N (view a) (view b) (view (carquet_row_range_list_clear out))) as HS0.
  { intros HA HB. exists 0, 0, 0. rewrite Ec. do 6 (split; [done || lia|]). left. by apply (ordered_starts _ _ _ _ HA). }
  destruct (intersect_from_spec a b Ka Kb (Z.to_nat (rl_count a) + Z.to_nat (rl_count b) + 1) 0 0 (carquet_row_range_list_clear out)) as (st & out' & E & K' & C & HS & H'); [lia|lia|lia|done| |].
  { destruct HR as [HR|[HA HB]]; [left; unfold room; cbn [carquet_row_range_list_clear rl_count]; nia|right]. change (Z.to_nat 0) with 0%nat. rewrite !drop_0. auto. }
  exists st, out'. split; [done|]. split; [done|]. split; [cbn in C; lia|]. split; [done|]. intros Hst HA HB. change (Z.to_nat 0) with 0%nat in H'. rewrite !drop_0 in H'.
  destruct (H' Hst (HS0 HA HB)) as [R1 R2]. split; [done|]. intros row. rewrite R2, Ec. unfold covers at 1. rewrite Exists_nil. tauto.
Qed.

(** Moving the ranges of one list to another. *)
Lemma move_ranges_spec a : ranges_in N a -> forall n k out, 0 <= k -> k + Z.of_nat n = rl_count a -> ranges_in N out ->
  room N (Z.of_nat n) out \/ (exists l m, 0 <= l /\ ordered l (drop (Z.to_nat k) (view a)) N /\ ordered 0 (view out) m /\ m <= l) ->
  exists st out', move_ranges n k a out = Some (st, out') /\ ranges_in N out' /\ stored_or_full st /\
    (st = CARQUET_OK -> forall l m, 0 <= l -> ordered l (drop (Z.to_nat k) (view a)) N -> ordered 0 (view out) m -> m <= l ->
      ordered 0 (view out') N /\ forall row, covers (view out') row <-> covers (view out) row \/ covers (drop (Z.to_nat k) (view a)) row).
Proof.
  intros Ka. induction n as [|n IH]; intros k out Hk Hn Ko HR; cbn [move_ranges].
  - eexists _, _. split; [done|]. split; [done|]. split; [by left|]. intros _ l m Hl HA HO Hm. pose proof (ordered_le _ _ _ HA). split; [apply (ordered_weaken _ _ m); [done|lia]|].
    intros row. pose proof (covers_past a k row (ri_list _ _ Ka)). intuition lia.
  - destruct (view_next N a k Ka) as (r & v & -> & Rr & EA & EA'); [lia|]. cbn [mbind option_bind]. pose proof Rr as (R1 & R2 & R3). rewrite EA in *.
    destruct (row_range_append_spec N out (rr_first_row r) (rr_num_rows r) Ko) as (st & out1 & -> & K1 & C1 & HA); [lia|done|done|done| |].
    { destruct HR as [HR|(l & m & Hl & (A1 & A2 & A3) & HO & Hm)]; [apply (rows_room_append N (Z.of_nat n)); [done|lia|lia|by replace (Z.of_nat n + 1) with (Z.of_nat (S n)) by lia]|].
      apply (ordered_append_room (view out) 0 m (rr_first_row r) _ N); (done || lia). }
    cbn [mbind option_bind]. destruct HA as [[-> HV]|[-> _]]; cbn [is_ok negb]; [|eexists _, _; split; [done|]; split; [done|]; split; [by right|done]].
    assert (forall l m, ordered l (r :: v) N -> ordered 0 (view out) m -> m <= l -> ordered 0 (view out1) (range_end r) /\
      forall row, covers (view out1) row <-> covers (view out) row \/ rr_first_row r <= row < range_end r) as HO1.
    { intros l m (A1 & A2 & A3) HO Hm. rewrite HV. by apply (append_view_adds _ 0 m); [|lia|]. }
    destruct (IH (k + 1) out1) as (st & out' & E & K' & HS & HI); [lia|lia|done| |].
    { rewrite EA'. destruct HR as [HR|(l & m & Hl & HA & HO & Hm)]; [left; apply (rows_room_less N (Z.of_nat (S n)) _ out); (done || lia)|right].
      exists (range_end r), (range_end r). destruct (HO1 l m) as [O1 _]; [done..|]. destruct HA as (A1 & A2 & A3). do 3 (split; [done || lia|]). lia. }
    eexists _, _. split; [exact E|]. split; [done|]. split; [done|].
    intros Hst l m Hl HA HO Hm. destruct (HO1 l m) as [B1 B2]; [done..|]. rewrite EA' in HI. pose proof HA as (A1 & A2 & A3).
    destruct (HI Hst (range_end r) (range_end r)) as [C1' C2]; [lia|done|done|lia|]. split; [done|]. intros row. rewrite C2, B2, covers_cons. unfold in_range. tauto.
Qed.

End Intersect.
