(* ===== verification/PageMatch.v ===== *)
(** * Pages that a clause cannot rule out

    The typed comparison of the page filter is the order of [ValueOrder]; a page that holds
    a value satisfying a clause is kept, as long as its statistics are true of it. *)

From S2P Require Import Prelude Status Endian Memory Heap ParquetTypes Schema FileReader FileOpen ValueOrder RowGroupFilter PageIndex PageIndexSafe PageFilter.

#[local] Open Scope Z_scope.

(** ** Half floats *)

(** The two widening functions of the code agree, here on the subnormals. *)
Definition normalize_agrees (mant : Z) : bool :=
  match float16_normalize 11 mant (-14), half_normalize 11 mant 1 with
  | Some (m1, e), Some (m2, x) => (m1 =? m2) && (u32 (e + 127) =? u32 (x + (127 - 15)))
  | _, _ => false
  end.

Lemma float16_normalize_spec mant : 0 < mant < 2 ^ 10 -> exists m e x, float16_normalize 11 mant (-14) = Some (m, e) /\ half_normalize 11 mant 1 = Some (m, x) /\ u32 (e + 127) = u32 (x + (127 - 15)).
Proof.
  intros H. pose proof (forall_range (2 ^ 10) (λ m, (m =? 0) || normalize_agrees m) ltac:(vm_compute; reflexivity) mant ltac:(lia)) as E. cbn beta in E. rewrite (proj2 (Z.eqb_neq _ _)) in E by lia. cbn [orb] in E.
  unfold normalize_agrees in E. destruct (float16_normalize 11 mant (-14)) as [[m1 e]|]; [|done]. destruct (half_normalize 11 mant 1) as [[m2 x]|]; [|done].
  apply andb_true_iff in E as [->%Z.eqb_eq E2%Z.eqb_eq]. by exists m2, e, x.
Qed.

Lemma decode_float16_spec b : bytes_ok b -> 2 <= lenZ b -> exists h f, load 2 b = Some h /\ decode_float16 b = Some f /\ carquet_half_to_float h = Some f.
Proof.
  intros Hb Hl. destruct b as [|b0 [|b1 b]]; [cbn in Hl; lia..|]. apply Forall_cons_1 in Hb as [H0 [H1 _]%Forall_cons_1].
  assert (load 2 (b0 :: b1 :: b) = Some (b0 + 256 * b1)) as E by (unfold load; rewrite rd_n_Some by (cbn; lia); cbn; red_nat; cbn; rewrite take_0; f_equal; cbn; lia).
  exists (b0 + 256 * b1). rewrite E. unfold in_u in *. unfold decode_float16. change (rd (b0 :: b1 :: b) 0) with (Some b0). change (rd (b0 :: b1 :: b) 1) with (Some b1). cbn [mbind option_bind].
  assert (b0 .| u16 (b1 ≪ 8) = b0 + 256 * b1) as -> by (rewrite u16_small by (rewrite shiftl_mul by lia; lia); lor_to_add; lia).
  set (h := b0 + 256 * b1). unfold carquet_half_to_float. cbv zeta. rewrite (u32_small (h ≫ 15)) by (rewrite shiftr_div by lia; unfold h; dlia).
  assert (0 <= h .& 0x3FF < 2 ^ 10) as Hm by (change 0x3FF with (2 ^ 10 - 1); rewrite land_ones_mod by lia; apply Z.mod_pos_bound; lia).
  destruct ((h ≫ 10) .& 0x1F =? 0); [|destruct ((h ≫ 10) .& 0x1F =? 0x1F); (eexists; split; [done|]; split; [done|]); [done|by replace ((h ≫ 10) .& 31 - 15 + 127) with ((h ≫ 10) .& 31 + (127 - 15)) by lia]].
  destruct (Z.eqb_spec (h .& 0x3FF) 0); [by eexists|]. destruct (float16_normalize_spec (h .& 0x3FF)) as (m & e & x & -> & -> & E2); [lia|]. cbn [mbind option_bind]. rewrite E2. by eexists.
Qed.

(** ** Values and their order *)

Definition ti_kind (ti : column_type_info_t) : option cmp_kind_t :=
  let pt := ti_physical_type ti in
  if pt =? CARQUET_PHYSICAL_BOOLEAN then Some CMP_BOOL else
  if pt =? CARQUET_PHYSICAL_INT32 then Some (if ti_is_unsigned ti then CMP_INT32_U else CMP_INT32_S) else
  if pt =? CARQUET_PHYSICAL_INT64 then Some (if ti_is_unsigned ti then CMP_INT64_U else CMP_INT64_S) else
  if pt =? CARQUET_PHYSICAL_FLOAT then Some CMP_FLOAT else
  if pt =? CARQUET_PHYSICAL_DOUBLE then Some CMP_DOUBLE else
  if pt =? CARQUET_PHYSICAL_FIXED_LEN_BYTE_ARRAY then Some (if ti_is_float16 ti then CMP_FLOAT16 else CMP_BYTES) else
  if pt =? CARQUET_PHYSICAL_BYTE_ARRAY then Some CMP_BYTES else None.

(** What the schema says of the type of a column: an integer is unsigned when the logical type
    or the converted type says so. *)
Definition declared_unsigned (e : parquet_schema_element_t) : bool :=
  match se_logical_type e with Some lt => (lt_id lt =? CARQUET_LOGICAL_INTEGER) && bool_decide (rd (lt_params lt) 1 = Some 0) | None => false end ||
  match se_converted_type e with
  | Some ct => bool_decide (ct ∈ [CARQUET_CONVERTED_UINT_8; CARQUET_CONVERTED_UINT_16; CARQUET_CONVERTED_UINT_32; CARQUET_CONVERTED_UINT_64])
  | None => false
  end.

Definition declared_info (e : parquet_schema_element_t) : column_type_info_t :=
  mk_type_info (default CARQUET_PHYSICAL_BYTE_ARRAY (se_type e)) (se_type_length e) (declared_unsigned e) (is_float16 e).

Lemma type_info_declared e ti : type_info_of e = Some ti -> ti = declared_info e.
Proof.
  unfold type_info_of, declared_info, declared_unsigned. intros (u & Eu & [= <-])%bind_Some. f_equal.
  assert (u = match se_logical_type e with Some lt => (lt_id lt =? CARQUET_LOGICAL_INTEGER) && bool_decide (rd (lt_params lt) 1 = Some 0) | None => false end) as ->.
  { destruct (se_logical_type e) as [lt|]; [|by injection Eu as <-]. destruct (lt_id lt =? CARQUET_LOGICAL_INTEGER); [|by injection Eu as <-]. unfold get_bool in Eu.
    destruct (rd (lt_params lt) 1) as [b|]; [|done]. injection Eu as <-. destruct (Z.eqb_spec b 0) as [->|]; [done|]. cbn. case_bool_decide; [congruence|done]. }
  destruct (se_converted_type e) as [ct|]; [|by rewrite orb_false_r]. rewrite converted_unsigned_spec. destruct (converted_unsigned ct); [by rewrite orb_true_r|by rewrite orb_false_r].
Qed.

(** Fixed-length columns have a length, half floats that of two bytes. *)
Definition ti_ok (ti : column_type_info_t) : Prop :=
  ti_physical_type ti = CARQUET_PHYSICAL_FIXED_LEN_BYTE_ARRAY -> 0 < ti_type_length ti /\ (ti_is_float16 ti = true -> ti_type_length ti = 2).

(** The width of a value of the type, as the format gives it; byte arrays have their own length. *)
Definition fixed_width (ti : column_type_info_t) : option Z :=
  let pt := ti_physical_type ti in
  if pt =? CARQUET_PHYSICAL_BOOLEAN then Some 1 else
  if pt =? CARQUET_PHYSICAL_INT32 then Some 4 else
  if pt =? CARQUET_PHYSICAL_INT64 then Some 8 else
  if pt =? CARQUET_PHYSICAL_FLOAT then Some 4 else
  if pt =? CARQUET_PHYSICAL_DOUBLE then Some 8 else
  if pt =? CARQUET_PHYSICAL_FIXED_LEN_BYTE_ARRAY then Some (ti_type_length ti) else None.

(** The bytes at a pointer that are the value. *)
Definition value_len (ti : column_type_info_t) (len : Z) : Z := default len (fixed_width ti).

Definition value_of (ti : column_type_info_t) (p : list Z) (len : Z) : list Z := take (Z.to_nat (value_len ti len)) p.

(** They are in their object, and a fixed-length value has the length of its type. *)
Definition value_ok (ti : column_type_info_t) (p : list Z) (len : Z) : Prop :=
  bytes_ok p /\ 0 <= value_len ti len <= lenZ p /\ (ti_physical_type ti = CARQUET_PHYSICAL_FIXED_LEN_BYTE_ARRAY -> len = ti_type_length ti).

Lemma scalar_size_width ti : ti_ok ti -> scalar_size (ti_physical_type ti) (ti_type_length ti) = default 0 (fixed_width ti) /\ forall w, fixed_width ti = Some w -> 0 < w.
Proof.
  unfold ti_ok, scalar_size, fixed_width. intros Ht. destruct ti as [pt tl un f16]. cbn [ti_physical_type ti_type_length] in *.
  destruct (pt =? CARQUET_PHYSICAL_BOOLEAN); [split; [done|by intros w [= <-]]|]. destruct (pt =? CARQUET_PHYSICAL_INT32); [split; [done|by intros w [= <-]]|].
  destruct (pt =? CARQUET_PHYSICAL_INT64) eqn:E64; destruct (pt =? CARQUET_PHYSICAL_FLOAT) eqn:EF; cbn [orb]; [apply Z.eqb_eq in E64, EF; rewrite E64 in EF; discriminate|split; [done|by intros w [= <-]]..|].
  destruct (pt =? CARQUET_PHYSICAL_DOUBLE); [split; [done|by intros w [= <-]]|]. destruct (Z.eqb_spec pt CARQUET_PHYSICAL_FIXED_LEN_BYTE_ARRAY) as [->|]; [|split; [done|by intros w [=]]].
  destruct (Ht eq_refl) as [H _]. rewrite (proj2 (Z.gtb_lt tl 0) H). split; [done|by intros w [= <-]].
Qed.

(** Comparing two scalars of [n] bytes. *)
Lemma compare_scalar n (cmp : Z -> Z -> Z) (f : Z -> option (list Z)) a b : bytes_ok a -> bytes_ok b -> 0 <= n <= lenZ a -> n <= lenZ b ->
  (forall x y rx ry, f x = Some rx -> f y = Some ry -> cmp x y = sgn (lex rx ry)) ->
  exists c, (x ← load n a; y ← load n b; Some (cmp x y)) = Some c /\
    forall ra rb, (x ← load n (take (Z.to_nat n) a); f x) = Some ra -> (x ← load n (take (Z.to_nat n) b); f x) = Some rb -> c = sgn (lex ra rb).
Proof.
  intros Ba Bb Ha Hb Hc. destruct (load_Some n a) as (x & Ex & _); [lia|done|]. destruct (load_Some n b) as (y & Ey & _); [lia|done|].
  rewrite !load_take, Ex, Ey by lia. cbn [mbind option_bind]. eexists. split; [done|]. intros ra rb. apply Hc.
Qed.

(** Comparing byte strings. *)
Lemma cmp_bytes_lex_spec a alen b blen : 0 <= alen <= lenZ a -> 0 <= blen <= lenZ b ->
  cmp_bytes_lex a alen b blen = Some (sgn (lex (take (Z.to_nat alen) a) (take (Z.to_nat blen) b))).
Proof.
  intros Ha Hb. unfold cmp_bytes_lex, memcmp. set (n := if alen <? blen then alen else blen). assert (0 <= n <= alen /\ n <= blen /\ (n = alen \/ n = blen)) as Hn by (unfold n; case_bool; lia).
  rewrite !rd_n_Some by lia. cbn [mbind option_bind]. change (Z.to_nat 0) with 0%nat. rewrite !drop_0. rewrite (lex_prefix (Z.to_nat n) (take (Z.to_nat alen) a)) by (rewrite ?length_take; lia).
  rewrite !take_take, !length_take. replace (Z.to_nat n `min` Z.to_nat alen)%nat with (Z.to_nat n) by lia. replace (Z.to_nat n `min` Z.to_nat blen)%nat with (Z.to_nat n) by lia.
  replace (Z.of_nat (Z.to_nat alen `min` length a)) with alen by lia. replace (Z.of_nat (Z.to_nat blen `min` length b)) with blen by lia.
  destruct (lex (take (Z.to_nat n) a) (take (Z.to_nat n) b)); cbn [sgn Z.eqb negb Z.ltb]; [|done|done]. destruct (Z.eqb_spec alen blen) as [->|]; [by rewrite Z.compare_refl|].
  destruct (Z.ltb_spec alen blen), (Z.compare_spec alen blen); (done || lia).
Qed.

(** [compare_typed] is total, and compares by rank. *)
Lemma compare_typed_spec ti k a alen b blen : ti_kind ti = Some k -> ti_ok ti -> value_ok ti a alen -> value_ok ti b blen ->
  exists c, compare_typed ti a alen b blen = Some c /\
    forall ra rb, rank k (value_of ti a alen) = Some ra -> rank k (value_of ti b blen) = Some rb -> c = sgn (lex ra rb).
Proof.
  unfold ti_kind, ti_ok, value_ok, value_of, value_len, compare_typed, fixed_width. destruct ti as [pt tl un f16].
  unfold CARQUET_PHYSICAL_BOOLEAN, CARQUET_PHYSICAL_INT32, CARQUET_PHYSICAL_INT64, CARQUET_PHYSICAL_FLOAT, CARQUET_PHYSICAL_DOUBLE, CARQUET_PHYSICAL_FIXED_LEN_BYTE_ARRAY, CARQUET_PHYSICAL_BYTE_ARRAY.
  cbn [ti_physical_type ti_type_length ti_is_unsigned ti_is_float16].
  destruct (Z.eqb_spec pt 0) as [->|_]; [|destruct (Z.eqb_spec pt 1) as [->|_]; [|destruct (Z.eqb_spec pt 2) as [->|_]; [|destruct (Z.eqb_spec pt 4) as [->|_];
    [|destruct (Z.eqb_spec pt 5) as [->|_]; [|destruct (Z.eqb_spec pt 7) as [->|_]; [|destruct (Z.eqb_spec pt 6) as [->|_]; [|done]]]]]]]; cbn [Z.eqb Pos.eqb orb default from_option id]; intros [= <-] Hti (Ba & Ha & Fa) (Bb & Hb & Fb).
  - destruct (compare_scalar 1 (λ x y, CMP3 Z.ltb (if x =? 0 then 0 else 1) (if y =? 0 then 0 else 1)) (λ b, Some [if b =? 0 then 0 else 1]) a b) as (c & E & H); try (done || lia).
    { intros x y rx ry [= <-] [= <-]. apply CMP3_int. }
    exists c. rewrite <- !load_1. split; [exact E|]. cbn [rank]. intros ra rb Ra Rb. apply H; by rewrite load_1.
  - destruct un; [apply (compare_scalar 4 (CMP3 Z.ltb) (λ v, Some [v]))|apply (compare_scalar 4 (λ x y, CMP3 Z.ltb (i32 x) (i32 y)) (λ v, Some [i32 v]))]; try (done || lia); intros x y rx ry [= <-] [= <-]; apply CMP3_int.
  - destruct un; [apply (compare_scalar 8 (CMP3 Z.ltb) (λ v, Some [v]))|apply (compare_scalar 8 (λ x y, CMP3 Z.ltb (i64 x) (i64 y)) (λ v, Some [i64 v]))]; try (done || lia); intros x y rx ry [= <-] [= <-]; apply CMP3_int.
  - apply (compare_scalar 4 (CMP3 (float_lt 32)) (float_rank 32)); try (done || lia). intros x y rx ry. apply float_rank_spec.
  - apply (compare_scalar 8 (CMP3 (float_lt 64)) (float_rank 64)); try (done || lia). intros x y rx ry. apply float_rank_spec.
  - destruct (Hti eq_refl) as [H1 H2]. specialize (Fa eq_refl). specialize (Fb eq_refl). subst. destruct f16; cbn [andb].
    + rewrite (H2 eq_refl) in *. destruct (decode_float16_spec a Ba) as (ha & fa & La & -> & Va); [lia|]. destruct (decode_float16_spec b Bb) as (hb & fb & Lb & -> & Vb); [lia|].
      eexists. split; [done|]. cbn [rank]. rewrite !load_take, La, Lb by lia. cbn [mbind option_bind]. rewrite Va, Vb. intros ra rb. apply float_rank_spec.
    + rewrite cmp_bytes_lex_spec by lia. eexists. split; [done|]. by intros ra rb [= <-] [= <-].
  - rewrite cmp_bytes_lex_spec by lia. eexists. split; [done|]. by intros ra rb [= <-] [= <-].
Qed.

(** A value that has a rank is not a NaN. *)
Lemma value_is_nan_spec ti k v len : ti_kind ti = Some k -> ti_ok ti -> value_ok ti v len ->
  exists nan, predicate_value_is_nan ti (Some v) = Some nan /\ (is_Some (rank k (value_of ti v len)) -> nan = false).
Proof.
  unfold ti_kind, ti_ok, value_ok, value_of, value_len, predicate_value_is_nan, fixed_width. destruct ti as [pt tl un f16].
  unfold CARQUET_PHYSICAL_BOOLEAN, CARQUET_PHYSICAL_INT32, CARQUET_PHYSICAL_INT64, CARQUET_PHYSICAL_FLOAT, CARQUET_PHYSICAL_DOUBLE, CARQUET_PHYSICAL_FIXED_LEN_BYTE_ARRAY, CARQUET_PHYSICAL_BYTE_ARRAY.
  cbn [ti_physical_type ti_type_length ti_is_unsigned ti_is_float16].
  destruct (Z.eqb_spec pt 4) as [->|_]; [|destruct (Z.eqb_spec pt 5) as [->|_]; [|destruct (Z.eqb_spec pt 7) as [->|_]; [|intros; rewrite andb_false_r; by eexists]]];
    cbn [Z.eqb Pos.eqb orb default from_option id]; intros [= <-] Hti (Bv & Hv & Fv).
  - destruct (load_Some 4 v) as (x & Ex & _); [lia|done|]. cbn [rank]. rewrite load_take, Ex by lia. cbn. eexists. split; [done|]. unfold float_rank. destruct (float_isnan 32 x); [by intros [? ?]|done].
  - destruct (load_Some 8 v) as (x & Ex & _); [lia|done|]. cbn [rank]. rewrite load_take, Ex by lia. cbn. eexists. split; [done|]. unfold float_rank. destruct (float_isnan 64 x); [by intros [? ?]|done].
  - destruct (Hti eq_refl) as [H1 H2]. destruct f16; [|by eexists]. rewrite (H2 eq_refl) in *.
    destruct (decode_float16_spec v Bv) as (h & f & Lh & -> & Vh); [lia|]. cbn [rank andb fmap option_fmap option_map]. rewrite load_take, Lh by lia. cbn [mbind option_bind]. rewrite Vh. eexists. split; [done|].
    cbn [mbind option_bind]. unfold float_rank. destruct (float_isnan 32 f); [by intros [? ?]|done].
Qed.

(** ** What a clause says of a cell, [None] being NULL *)

Definition value_satisfies ti k (op : carquet_compare_op_t) (x : list Z) (p : option (list Z)) (len : Z) : Prop :=
  exists v, p = Some v /\ satisfies k op x (value_of ti v len).

Definition filter_compare (op : Z) : option carquet_compare_op_t :=
  if op =? CARQUET_FILTER_EQ then Some CARQUET_COMPARE_EQ else if op =? CARQUET_FILTER_NE then Some CARQUET_COMPARE_NE else
  if op =? CARQUET_FILTER_LT then Some CARQUET_COMPARE_LT else if op =? CARQUET_FILTER_LE then Some CARQUET_COMPARE_LE else
  if op =? CARQUET_FILTER_GT then Some CARQUET_COMPARE_GT else if op =? CARQUET_FILTER_GE then Some CARQUET_COMPARE_GE else None.

(** Entry [i] of the values of an IN: packed values of the type's width, or byte arrays.  For
    FIXED_LEN_BYTE_ARRAY the values are packed, as the code has it. *)
Definition in_entry ti (cl : carquet_filter_clause_t) (i : Z) : option (option (list Z) * Z) :=
  match cl_values cl with
  | InNull => None
  | InPacked base => w ← fixed_width ti; Some (Some (take (Z.to_nat w) (drop (Z.to_nat (i * w)) base)), w)
  | InArrays arr => arr !! Z.to_nat i
  end.

(** The comparison of a clause holds of a value. *)
Definition value_matches ti k (cl : carquet_filter_clause_t) (x : list Z) : Prop :=
  match filter_compare (cl_op cl) with
  | Some c => value_satisfies ti k c x (cl_value cl) (cl_value_size cl)
  | None =>
      if cl_op cl =? CARQUET_FILTER_RANGE then
        (cl_has_lo cl = true -> value_satisfies ti k CARQUET_COMPARE_GE x (cl_lo cl) (cl_lo_size cl)) /\
        (cl_has_hi cl = true -> value_satisfies ti k CARQUET_COMPARE_LE x (cl_hi cl) (cl_hi_size cl))
      else exists i v len, 0 <= i < cl_value_count cl /\ in_entry ti cl i = Some (v, len) /\ value_satisfies ti k CARQUET_COMPARE_EQ x v len
  end.

Definition clause_holds ti k (cl : carquet_filter_clause_t) (cell : option (list Z)) : Prop :=
  if cl_op cl =? CARQUET_FILTER_IS_NULL then cell = None else
  if cl_op cl =? CARQUET_FILTER_IS_NOT_NULL then cell <> None else
  exists x, cell = Some x /\ value_matches ti k cl x.

(** The pointers of a clause are to objects as long as documented. *)
Definition points_to ti (p : option (list Z)) (len : Z) : Prop :=
  match p with Some v => bytes_ok v /\ 0 <= value_len ti len <= lenZ v | None => True end.

Definition values_readable ti (cl : carquet_filter_clause_t) : Prop :=
  match cl_values cl with
  | InNull => True
  | InPacked base => exists w, fixed_width ti = Some w /\ bytes_ok base /\ cl_value_count cl * w <= lenZ base
  | InArrays arr => fixed_width ti = None /\ cl_value_count cl <= lenZ arr /\ Forall (λ a, points_to ti a.1 a.2) arr
  end.

Record clause_memory ti (cl : carquet_filter_clause_t) : Prop := {
  clm_value : points_to ti (cl_value cl) (cl_value_size cl);
  clm_lo : points_to ti (cl_lo cl) (cl_lo_size cl);
  clm_hi : points_to ti (cl_hi cl) (cl_hi_size cl);
  clm_values : cl_op cl = CARQUET_FILTER_IN -> values_readable ti cl }.

(** The statistics of a page of [rows] rows are true of a cell in it. *)
Definition page_truthful ti k (stats : carquet_page_stats_t) (rows : Z) (cell : option (list Z)) : Prop :=
  match cell with
  | None => 0 < ps_null_count stats \/ ps_is_null_page stats = true
  | Some x =>
      ps_is_null_page stats = false /\ ps_null_count stats < rows /\
      (is_Some (rank k x) ->
        (forall p, ps_min_value stats = Some p -> stat_len_ok ti (ps_min_value_size stats) = true -> above_min k p x) /\
        (forall p, ps_max_value stats = Some p -> stat_len_ok ti (ps_max_value_size stats) = true -> below_max k x p))
  end.

Section Page.
Context (ti : column_type_info_t) (k : cmp_kind_t).
Hypotheses (Hk : ti_kind ti = Some k) (Hti : ti_ok ti).

Lemma validated_value p size v : validate_scalar_size ti size = CARQUET_OK -> p = Some v -> points_to ti p size -> value_ok ti v size.
Proof.
  intros HV -> [Hb Hl]. split; [done|]. split; [done|]. intros E. unfold validate_scalar_size in HV. rewrite E in HV. cbn in HV.
  destruct ((if ti_type_length ti >? 0 then ti_type_length ti else 0) =? 0); [done|]. destruct (Z.eqb_spec size (ti_type_length ti)); [done|done].
Qed.

(** A bound that the code uses is a value of the column. *)
Lemma usable_bound v len p : bound_ok (v, len) -> (if stat_len_ok ti len then v else None) = Some p ->
  v = Some p /\ stat_len_ok ti len = true /\ value_ok ti p len /\ value_of ti p len = p.
Proof.
  intros HB. destruct (stat_len_ok ti len) eqn:E; [|done]. intros ->. destruct HB as (HL & HP & Hb). cbn in HL, HP, Hb. split; [done|]. split; [done|].
  assert (value_len ti len = len) as EV.
  { destruct (scalar_size_width ti Hti) as [EW HW]. unfold value_len. unfold stat_len_ok in E. destruct (len <=? 0); [done|]. rewrite EW in E.
    destruct (fixed_width ti) as [w|]; [|done]. specialize (HW w eq_refl). cbn in E |- *. destruct (Z.eqb_spec w 0); [lia|]. by apply Z.eqb_eq in E as ->. }
  unfold value_ok, value_of. rewrite EV, <- HL, Nat2Z.id, firstn_all. split; [|done]. split; [done|]. split; [lia|]. intros EF. destruct (Hti EF) as [Ht _].
  unfold stat_len_ok in E. rewrite EF in E. cbn in E. rewrite (proj2 (Z.gtb_lt (ti_type_length ti) 0) Ht), (proj2 (Z.eqb_neq (ti_type_length ti) 0)) in E by lia.
  destruct (len <=? 0); [done|]. apply Z.eqb_eq in E. lia.
Qed.

(** A value against a bound: [test] rules the page out only when the ranks say so. *)
Lemma value_vs_bound b blen v len test : bound_ok (b, blen) -> value_ok ti v len ->
  exists r, bound_test (if stat_len_ok ti blen then b else None) (λ p, compare_typed ti v len p blen) test = Some r /\
    (r = true -> exists p, b = Some p /\ stat_len_ok ti blen = true /\ forall rv rp, rank k (value_of ti v len) = Some rv -> rank k p = Some rp -> test (sgn (lex rv rp)) = true).
Proof.
  intros HB HV. destruct (if stat_len_ok ti blen then b else None) as [p|] eqn:E; cbn [bound_test]; [|by eexists].
  destruct (usable_bound b blen p HB E) as (-> & Hs & HP & EP). destruct (compare_typed_spec ti k v len p blen Hk Hti HV HP) as (c & -> & Hc). cbn [fmap option_fmap option_map].
  eexists. split; [done|]. intros Ht. exists p. split; [done|]. split; [done|]. intros rv rp Rv Rp. rewrite EP in Hc. by rewrite <- (Hc rv rp).
Qed.

Lemma bound_vs_value b blen v len test : bound_ok (b, blen) -> value_ok ti v len ->
  exists r, bound_test (if stat_len_ok ti blen then b else None) (λ p, compare_typed ti p blen v len) test = Some r /\
    (r = true -> exists p, b = Some p /\ stat_len_ok ti blen = true /\ forall rv rp, rank k (value_of ti v len) = Some rv -> rank k p = Some rp -> test (- sgn (lex rv rp)) = true).
Proof.
  intros HB HV. destruct (if stat_len_ok ti blen then b else None) as [p|] eqn:E; cbn [bound_test]; [|by eexists].
  destruct (usable_bound b blen p HB E) as (-> & Hs & HP & EP). destruct (compare_typed_spec ti k p blen v len Hk Hti HP HV) as (c & -> & Hc). cbn [fmap option_fmap option_map].
  eexists. split; [done|]. intros Ht. exists p. split; [done|]. split; [done|]. intros rv rp Rv Rp. rewrite EP in Hc.
  replace (- sgn (lex rv rp)) with (sgn (lex rp rv)) by (rewrite (lex_antisym rv rp); by destruct (lex rv rp)). by rewrite <- (Hc rp rv).
Qed.

(** What is known of a cell and a bound: their ranks are in relation [R]. *)
Definition bound_true (b : option (list Z)) (blen : Z) (R : list Z -> list Z -> Prop) (x : list Z) : Prop :=
  forall p, b = Some p -> stat_len_ok ti blen = true -> exists rp rx, rank k p = Some rp /\ rank k x = Some rx /\ R rp rx.

Definition min_rel (rp rx : list Z) : Prop := lex rp rx <> Gt.
Definition max_rel (rp rx : list Z) : Prop := lex rx rp <> Gt.

(** The test of a bound against a value does not rule out a page with a match. *)
Lemma value_first b blen p len v test : bound_ok (b, blen) -> p = Some v -> value_ok ti v len ->
  exists r, bound_test (if stat_len_ok ti blen then b else None) (λ q, v ← p; compare_typed ti v len q blen) test = Some r /\
    forall R op x, value_satisfies ti k op x p len -> bound_true b blen R x ->
      (forall rv rp rx, R rp rx -> holds op (lex rx rv) = true -> test (sgn (lex rv rp)) = false) -> r = false.
Proof.
  intros HB -> HV. destruct (value_vs_bound b blen v len test HB HV) as (r & E & Hr). exists r. split; [exact E|].
  intros R op x (v' & [= <-] & rx & rv & Rx & Rv & Ho) HT HO. destruct r; [|done]. destruct (Hr eq_refl) as (q & Eq & Es & Ht). destruct (HT q Eq Es) as (rp & rx' & Rp & Rx' & HR).
  assert (rx' = rx) as -> by congruence. rewrite <- (Ht rv rp Rv Rp). by rewrite (HO rv rp rx).
Qed.

Lemma bound_first b blen p len v test : bound_ok (b, blen) -> p = Some v -> value_ok ti v len ->
  exists r, bound_test (if stat_len_ok ti blen then b else None) (λ q, v ← p; compare_typed ti q blen v len) test = Some r /\
    forall R op x, value_satisfies ti k op x p len -> bound_true b blen R x ->
      (forall rv rp rx, R rp rx -> holds op (lex rx rv) = true -> test (- sgn (lex rv rp)) = false) -> r = false.
Proof.
  intros HB -> HV. destruct (bound_vs_value b blen v len test HB HV) as (r & E & Hr). exists r. split; [exact E|].
  intros R op x (v' & [= <-] & rx & rv & Rx & Rv & Ho) HT HO. destruct r; [|done]. destruct (Hr eq_refl) as (q & Eq & Es & Ht). destruct (HT q Eq Es) as (rp & rx' & Rp & Rx' & HR).
  assert (rx' = rx) as -> by congruence. rewrite <- (Ht rv rp Rv Rp). by rewrite (HO rv rp rx).
Qed.

(** Where the bounds stand to a value that has a match between them. *)
Lemma min_fact op rv rp rx : min_rel rp rx -> holds op (lex rx rv) = true -> might_match_bounds op (sgn (lex rv rp)) (sgn (lex rv rx)) = true.
Proof. intros H. apply bounds_sound; [done|by rewrite lex_refl]. Qed.

Lemma max_fact op rv rp rx : max_rel rp rx -> holds op (lex rx rv) = true -> might_match_bounds op (sgn (lex rv rx)) (sgn (lex rv rp)) = true.
Proof. intros H. apply bounds_sound; [by rewrite lex_refl|done]. Qed.

(** A clause with one value keeps the page when its test does not rule it out. *)
Lemma value_clause_spec p len v test r : p = Some v -> value_ok ti v len -> test = Some r ->
  exists keep, value_clause ti p test = Some keep /\ forall op x, value_satisfies ti k op x p len -> r = false -> keep = true.
Proof.
  intros -> HV ->. unfold value_clause. destruct (value_is_nan_spec ti k v len Hk Hti HV) as (nan & -> & Hn). cbn [mbind option_bind].
  destruct nan; (eexists; split; [done|]); [|by intros op x _ ->]. intros op x (v' & [= <-] & rx & rv & _ & Rv & _) _. discriminate Hn. by exists rv.
Qed.

Lemma any_value_fits_spec cl b1 n1 b2 n2 : bound_ok (b1, n1) -> bound_ok (b2, n2) -> forall n i, 0 <= i ->
  (forall j, i <= j < i + Z.of_nat n -> exists v len, in_value_at ti cl j = Some (v, len) /\ forall p, v = Some p -> value_ok ti p len) ->
  exists keep, any_value_fits ti cl (if stat_len_ok ti n1 then b1 else None) (if stat_len_ok ti n2 then b2 else None) n1 n2 n i = Some keep /\
    forall x j v len, bound_true b1 n1 min_rel x -> bound_true b2 n2 max_rel x -> i <= j < i + Z.of_nat n -> in_value_at ti cl j = Some (v, len) ->
      value_satisfies ti k CARQUET_COMPARE_EQ x v len -> keep = true.
Proof.
  intros B1 B2. induction n as [|n IH]; intros i Hi HM; cbn [any_value_fits]; [eexists; split; [done|]; lia|].
  destruct (HM i ltac:(lia)) as (v & len & E & HV). rewrite E. cbn [mbind option_bind].
  destruct (IH (i + 1)) as (keep & EK & HK); [lia|intros j Hj; apply HM; lia|].
  assert (forall x j v' len', bound_true b1 n1 min_rel x -> bound_true b2 n2 max_rel x -> i <= j < i + Z.of_nat (S n) -> in_value_at ti cl j = Some (v', len') ->
    value_satisfies ti k CARQUET_COMPARE_EQ x v' len' -> keep = true \/ v' = v /\ len' = len) as HL.
  { intros x j v' len' T1 T2 Hj Ej HS. destruct (decide (j = i)) as [->|]; [right; split; congruence|left; apply (HK x j v' len'); (done || lia)]. }
  destruct v as [v|]; [|exists keep; split; [exact EK|]; intros x j v' len' T1 T2 Hj Ej HS; destruct (HL x j v' len') as [?|[-> ->]]; [done..|]; by destruct HS as (? & ? & _)].
  specialize (HV v eq_refl). destruct (value_is_nan_spec ti k v len Hk Hti HV) as (nan & -> & Hn). cbn [mbind option_bind]. destruct nan.
  { exists keep. split; [exact EK|]. intros x j v' len' T1 T2 Hj Ej HS. destruct (HL x j v' len') as [?|[-> ->]]; [done..|]. destruct HS as (? & [= <-] & rx & rv & _ & Rv & _). discriminate Hn. by exists rv. }
  destruct (value_first b1 n1 (Some v) len v (λ c, c <? 0) B1 eq_refl HV) as (r1 & E1 & H1). destruct (value_first b2 n2 (Some v) len v (λ c, c >? 0) B2 eq_refl HV) as (r2 & E2 & H2).
  cbn [mbind option_bind] in E1, E2. rewrite E1. cbn [mbind option_bind]. rewrite E2. cbn [mbind option_bind].
  destruct (negb r1 && negb r2) eqn:ER; [by exists true|]. exists keep. split; [exact EK|]. intros x j v' len' T1 T2 Hj Ej HS. destruct (HL x j v' len') as [?|[-> ->]]; [done..|].
  rewrite (H1 min_rel CARQUET_COMPARE_EQ x HS T1), (H2 max_rel CARQUET_COMPARE_EQ x HS T2) in ER; [done| |].
  - intros rv rp rx HR Ho. pose proof (max_fact _ _ _ _ HR Ho) as F. cbn in F. by destruct (lex rv rp), (lex rv rx).
  - intros rv rp rx HR Ho. pose proof (min_fact _ _ _ _ HR Ho) as F. cbn in F. by destruct (lex rv rp), (lex rv rx).
Qed.

(** ** One page *)

Definition given (p : option (list Z)) (len : Z) : Prop := exists v, p = Some v /\ value_ok ti v len.

(** What the validation of a clause leaves. *)
Inductive clause_shape (cl : carquet_filter_clause_t) : Prop :=
  | ShapeValue op : filter_compare (cl_op cl) = Some op -> given (cl_value cl) (cl_value_size cl) -> clause_shape cl
  | ShapeRange : cl_op cl = CARQUET_FILTER_RANGE -> cl_has_lo cl || cl_has_hi cl = true -> (cl_has_lo cl = true -> given (cl_lo cl) (cl_lo_size cl)) -> (cl_has_hi cl = true -> given (cl_hi cl) (cl_hi_size cl)) -> clause_shape cl
  | ShapeIn : cl_op cl = CARQUET_FILTER_IN ->
      (forall i, 0 <= i < cl_value_count cl -> exists v len, in_value_at ti cl i = Some (v, len) /\ forall p, v = Some p -> value_ok ti p len) -> clause_shape cl
  | ShapeNull : cl_op cl = CARQUET_FILTER_IS_NULL \/ cl_op cl = CARQUET_FILTER_IS_NOT_NULL -> clause_shape cl.

Lemma validated_given p size : match p with None => CARQUET_ERROR_INVALID_ARGUMENT | Some _ => validate_scalar_size ti size end = CARQUET_OK -> points_to ti p size -> given p size.
Proof. destruct p as [v|]; [|done]. intros HV HP. exists v. split; [done|]. by apply (validated_value (Some v)). Qed.

(** Where the code finds an entry: at the start of the bytes it has. *)
Lemma in_value_entry cl i : values_readable ti cl -> cl_values cl <> InNull -> 0 <= i < cl_value_count cl ->
  exists v len, in_value_at ti cl i = Some (v, len) /\ (forall p, v = Some p -> value_ok ti p len) /\
    forall e n, in_entry ti cl i = Some (e, n) -> n = len /\ (v = None -> e = None) /\ forall p, v = Some p -> exists q, e = Some q /\ value_of ti q len = value_of ti p len.
Proof.
  intros HR HN Hi. unfold values_readable, in_entry, in_value_at in *. destruct (scalar_size_width ti Hti) as [EW HW]. destruct (cl_values cl) as [|base|arr]; [done| |].
  - destruct HR as (w & Ew & Hb & Hl). specialize (HW w Ew). rewrite Ew in *. cbn [default from_option id] in EW.
    assert ((ti_physical_type ti =? CARQUET_PHYSICAL_BYTE_ARRAY) = false) as -> by (apply Z.eqb_neq; intros E; unfold fixed_width in Ew; by rewrite E in Ew).
    assert ((if ti_physical_type ti =? CARQUET_PHYSICAL_FIXED_LEN_BYTE_ARRAY then ti_type_length ti else scalar_size (ti_physical_type ti) (ti_type_length ti)) = w) as ->.
    { destruct (Z.eqb_spec (ti_physical_type ti) CARQUET_PHYSICAL_FIXED_LEN_BYTE_ARRAY) as [E|]; [|done]. unfold fixed_width in Ew. rewrite E in Ew. cbn in Ew. congruence. }
    rewrite ptr_at_Some by nia. cbn [mbind option_bind]. eexists _, _. split; [done|]. split.
    + intros p [= <-]. unfold value_ok, value_len. rewrite Ew. cbn [default from_option id]. split; [by apply Forall_drop|]. split; [rewrite length_drop; nia|].
      intros E. unfold fixed_width in Ew. rewrite E in Ew. cbn in Ew. congruence.
    + intros e n [= <- <-]. split; [done|]. split; [done|]. intros p [= <-]. eexists. split; [done|]. unfold value_of, value_len. rewrite Ew. cbn [default from_option id]. rewrite take_take. f_equal. lia.
  - destruct HR as (Ew & Hl & HF). destruct (decide (ti_physical_type ti = CARQUET_PHYSICAL_BYTE_ARRAY)) as [E|E].
    + rewrite (proj2 (Z.eqb_eq _ _) E). destruct (rd_Some arr i) as [[v len] Er]; [lia|]. rewrite Er. exists v, len. split; [done|]. rewrite rd_lookup in Er by lia. pose proof (Forall_lookup_1 _ _ _ _ HF Er) as HP. cbn in HP. split.
      * intros p ->. destruct HP as [Hb Hl']. split; [done|]. split; [done|]. by rewrite E.
      * rewrite Er. intros e n [= <- <-]. split; [done|]. split; [done|]. intros p ->. by eexists.
    + exfalso. unfold fixed_width in Ew. unfold ti_kind in Hk. repeat (destruct (ti_physical_type ti =? _) eqn:? in Hk, Ew; try done). apply E. by apply Z.eqb_eq.
Qed.

Lemma validated_shape cl : validate_op ti cl = CARQUET_OK -> clause_memory ti cl -> clause_shape cl.
Proof.
  intros HV [M1 M2 M3 M4]. unfold validate_op in HV. destruct (ti_physical_type ti =? CARQUET_PHYSICAL_INT96); [done|].
  destruct (_ && _) eqn:EO in HV.
  { apply andb_true_iff in EO as [O1%Z.leb_le O2%Z.leb_le]. unfold CARQUET_FILTER_EQ, CARQUET_FILTER_GE in *.
    assert (exists op, filter_compare (cl_op cl) = Some op) as [op Eop].
    { assert (cl_op cl = 0 \/ cl_op cl = 1 \/ cl_op cl = 2 \/ cl_op cl = 3 \/ cl_op cl = 4 \/ cl_op cl = 5) as [E|[E|[E|[E|[E|E]]]]] by lia; rewrite E; by eexists. }
    apply (ShapeValue _ op Eop). by apply validated_given. }
  destruct (Z.eqb_spec (cl_op cl) CARQUET_FILTER_RANGE) as [E|_].
  { destruct (negb (cl_has_lo cl) && negb (cl_has_hi cl)) eqn:EB; [done|]. destruct (validate_end ti (cl_has_lo cl) (cl_lo cl) (cl_lo_size cl)) eqn:E1; try done. cbn [is_ok negb] in HV.
    destruct (validate_end ti (cl_has_hi cl) (cl_hi cl) (cl_hi_size cl)) eqn:E2; try done. unfold validate_end in E1, E2.
    apply ShapeRange; [done|by destruct (cl_has_lo cl), (cl_has_hi cl)|intros EH; rewrite EH in E1; by apply validated_given|intros EH; rewrite EH in E2; by apply validated_given]. }
  destruct (Z.eqb_spec (cl_op cl) CARQUET_FILTER_IN) as [E|_].
  { apply ShapeIn; [done|]. intros i Hi. destruct (in_value_entry cl i (M4 E)) as (v & len & Ev & Hp & _); [by destruct (cl_values cl)|done|]. by exists v, len. }
  destruct (_ || _) eqn:EO2 in HV; [|done]. apply ShapeNull. apply orb_true_iff in EO2 as [?%Z.eqb_eq|?%Z.eqb_eq]; [by left|by right].
Qed.

(** The same comparison, with the values of an IN where the code finds them. *)
Definition match_of (cl : carquet_filter_clause_t) (x : list Z) : Prop :=
  match filter_compare (cl_op cl) with
  | Some c => value_satisfies ti k c x (cl_value cl) (cl_value_size cl)
  | None =>
      if cl_op cl =? CARQUET_FILTER_RANGE then
        (cl_has_lo cl = true -> value_satisfies ti k CARQUET_COMPARE_GE x (cl_lo cl) (cl_lo_size cl)) /\
        (cl_has_hi cl = true -> value_satisfies ti k CARQUET_COMPARE_LE x (cl_hi cl) (cl_hi_size cl))
      else exists i v len, 0 <= i < cl_value_count cl /\ in_value_at ti cl i = Some (v, len) /\ value_satisfies ti k CARQUET_COMPARE_EQ x v len
  end.

Lemma match_of_value cl x : clause_shape cl -> clause_memory ti cl -> (cl_op cl =? CARQUET_FILTER_IS_NULL) || (cl_op cl =? CARQUET_FILTER_IS_NOT_NULL) = false ->
  value_matches ti k cl x -> match_of cl x.
Proof.
  intros HS HM HN. unfold value_matches, match_of. destruct (filter_compare (cl_op cl)) eqn:Ef; [done|]. destruct (Z.eqb_spec (cl_op cl) CARQUET_FILTER_RANGE) as [|Er]; [done|].
  intros (i & e & n & Hi & Ee & HV). assert (cl_op cl = CARQUET_FILTER_IN) as EI by (destruct HS as [op Eop| | |[E|E]]; [congruence|done|done|rewrite E in HN; done..]).
  assert (cl_values cl <> InNull) as Hv by (intros E; unfold in_entry in Ee; by rewrite E in Ee).
  destruct (in_value_entry cl i (clm_values _ _ HM EI) Hv Hi) as (v & len & Ev & _ & HE). destruct (HE e n Ee) as (-> & E0 & E1).
  exists i, v, len. split; [done|]. split; [done|]. destruct HV as (q & -> & HV). destruct v as [p|]; [|by discriminate E0]. destruct (E1 p eq_refl) as (q' & [= <-] & Eq). exists p. split; [done|]. by rewrite <- Eq.
Qed.

Section Bounds.
Context (b1 : option (list Z)) (n1 : Z) (b2 : option (list Z)) (n2 : Z).
Hypotheses (B1 : bound_ok (b1, n1)) (B2 : bound_ok (b2, n2)).

Definition between (x : list Z) : Prop := bound_true b1 n1 min_rel x /\ bound_true b2 n2 max_rel x.
Abbreviation pmin := (if stat_len_ok ti n1 then b1 else None).
Abbreviation pmax := (if stat_len_ok ti n2 then b2 else None).

Ltac by_fact F := let rv := fresh in let rp := fresh in let rx := fresh in let HR := fresh in let Ho := fresh in
  intros rv rp rx HR Ho; pose proof (F _ _ _ _ HR Ho) as G; cbn in G; by destruct (lex rv rp), (lex rv rx).

(** One comparison with one bound. *)
Lemma one_value_spec op v len (test : Z -> bool) (b : bool) : given v len ->
  (forall rv rp rx, (if b then min_rel rp rx else max_rel rp rx) -> holds op (lex rx rv) = true -> test (- sgn (lex rv rp)) = false) ->
  exists keep, value_clause ti v (bound_test (if b then pmin else pmax) (λ p, v ← v; compare_typed ti p (if b then n1 else n2) v len) test) = Some keep /\
    forall x, between x -> value_satisfies ti k op x v len -> keep = true.
Proof.
  intros (w & -> & HV) HT. destruct b.
  - destruct (bound_first b1 n1 (Some w) len w test B1 eq_refl HV) as (r & E & Hr). destruct (value_clause_spec (Some w) len w _ r eq_refl HV E) as (keep & EK & HK). exists keep. split; [exact EK|].
    intros x [T1 _] HS. apply (HK op x HS). by apply (Hr min_rel op x HS T1).
  - destruct (bound_first b2 n2 (Some w) len w test B2 eq_refl HV) as (r & E & Hr). destruct (value_clause_spec (Some w) len w _ r eq_refl HV E) as (keep & EK & HK). exists keep. split; [exact EK|].
    intros x [_ T2] HS. apply (HK op x HS). by apply (Hr max_rel op x HS T2).
Qed.

(** EQ: both bounds. *)
Lemma eq_value_spec v len : given v len ->
  exists keep, value_clause ti v (below ← bound_test pmin (λ p, v ← v; compare_typed ti v len p n1) (λ c, c <? 0);
      if below : bool then Some true else bound_test pmax (λ p, v ← v; compare_typed ti v len p n2) (λ c, c >? 0)) = Some keep /\
    forall x, between x -> value_satisfies ti k CARQUET_COMPARE_EQ x v len -> keep = true.
Proof.
  intros (w & -> & HV). destruct (value_first b1 n1 (Some w) len w (λ c, c <? 0) B1 eq_refl HV) as (r1 & E1 & H1). destruct (value_first b2 n2 (Some w) len w (λ c, c >? 0) B2 eq_refl HV) as (r2 & E2 & H2).
  rewrite E1. cbn [mbind option_bind] in E2 |- *. rewrite E2. destruct (value_clause_spec (Some w) len w (if r1 then Some true else Some r2) (r1 || r2) eq_refl HV) as (keep & EK & HK); [by destruct r1|].
  exists keep. split; [exact EK|]. intros x [T1 T2] HS. apply (HK CARQUET_COMPARE_EQ x HS).
  rewrite (H1 min_rel CARQUET_COMPARE_EQ x HS T1), (H2 max_rel CARQUET_COMPARE_EQ x HS T2); [done|by_fact max_fact|by_fact min_fact].
Qed.

(** NE: the page is ruled out when both bounds are the value. *)
Lemma ne_value_spec v len : given v len ->
  exists keep, match pmin, pmax with
    | Some lo, Some hi =>
        nan ← predicate_value_is_nan ti v;
        if nan : bool then Some true else
        c ← compare_typed ti lo n1 hi n2;
        if negb (c =? 0) then Some true else
        c ← (v ← v; compare_typed ti v len lo n1); Some (negb (c =? 0))
    | _, _ => Some true
    end = Some keep /\
    forall x, between x -> value_satisfies ti k CARQUET_COMPARE_NE x v len -> keep = true.
Proof.
  intros (w & -> & HV). destruct pmin as [lo|] eqn:El; [|by eexists]. destruct pmax as [hi|] eqn:Eh; [|by eexists].
  destruct (usable_bound b1 n1 lo B1 El) as (Q1 & S1 & V1 & EV1). destruct (usable_bound b2 n2 hi B2 Eh) as (Q2 & S2 & V2 & EV2).
  destruct (value_is_nan_spec ti k w len Hk Hti HV) as (nan & -> & _). cbn [mbind option_bind]. destruct nan; [by eexists|].
  destruct (compare_typed_spec ti k lo n1 hi n2 Hk Hti V1 V2) as (c & -> & Hc). cbn [mbind option_bind]. destruct (Z.eqb_spec c 0) as [->|]; [|by eexists]. cbn [negb].
  destruct (compare_typed_spec ti k w len lo n1 Hk Hti HV V1) as (c & -> & Hd). cbn [mbind option_bind]. eexists. split; [done|].
  intros x [T1 T2] (w' & [= <-] & rx & rv & Rx & Rv & Ho). destruct (T1 lo Q1 S1) as (ra & rx' & Ra & Rx' & HA). destruct (T2 hi Q2 S2) as (rb & rx'' & Rb & Rx'' & HB).
  assert (rx' = rx) as -> by congruence. assert (rx'' = rx) as -> by congruence. rewrite EV1 in Hc, Hd. rewrite EV2 in Hc. specialize (Hc ra rb Ra Rb). rewrite (Hd rv ra Rv Ra).
  assert (ra = rb) as -> by (apply lex_eq; by destruct (lex ra rb)). pose proof (bounds_sound CARQUET_COMPARE_NE rv rb rb rx HA HB Ho) as F. cbn in F. by destruct (lex rv rb).
Qed.

Lemma matches_bounds_spec cl : clause_shape cl -> exists keep, matches_bounds ti cl pmin n1 pmax n2 = Some keep /\ forall x, between x -> match_of cl x -> keep = true.
Proof.
  intros [op Eop HG|E _ HL HH|E HV|E]; unfold match_of.
  - rewrite Eop. unfold filter_compare in Eop. unfold matches_bounds. destruct (cl_op cl =? CARQUET_FILTER_EQ); [injection Eop as <-; by apply eq_value_spec|].
    destruct (cl_op cl =? CARQUET_FILTER_NE); [injection Eop as <-; by apply ne_value_spec|].
    destruct (cl_op cl =? CARQUET_FILTER_LT); [injection Eop as <-; apply (one_value_spec CARQUET_COMPARE_LT _ _ _ true HG); by_fact min_fact|].
    destruct (cl_op cl =? CARQUET_FILTER_LE); [injection Eop as <-; apply (one_value_spec CARQUET_COMPARE_LE _ _ _ true HG); by_fact min_fact|].
    destruct (cl_op cl =? CARQUET_FILTER_GT); [injection Eop as <-; apply (one_value_spec CARQUET_COMPARE_GT _ _ _ false HG); by_fact max_fact|].
    destruct (cl_op cl =? CARQUET_FILTER_GE); [injection Eop as <-; apply (one_value_spec CARQUET_COMPARE_GE _ _ _ false HG); by_fact max_fact|done].
  - unfold matches_bounds. rewrite E. cbn.
    destruct (cl_has_lo cl); [|cbn].
    + destruct (one_value_spec CARQUET_COMPARE_GE _ _ (λ c, c <? 0) false (HL eq_refl)) as (k1 & E1 & H1); [by_fact max_fact|]. rewrite E1. cbn [mbind option_bind].
      destruct k1; cbn [negb]; [|exists false; split; [done|]; intros x HB [HS _]; by apply (H1 x HB), HS].
      destruct (cl_has_hi cl); [|by eexists]. destruct (one_value_spec CARQUET_COMPARE_LE _ _ (λ c, c >? 0) true (HH eq_refl)) as (k2 & E2 & H2); [by_fact min_fact|].
      exists k2. split; [exact E2|]. intros x HB [_ HS]. by apply (H2 x HB), HS.
    + destruct (cl_has_hi cl); [|by eexists]. destruct (one_value_spec CARQUET_COMPARE_LE _ _ (λ c, c >? 0) true (HH eq_refl)) as (k2 & E2 & H2); [by_fact min_fact|].
      exists k2. split; [exact E2|]. intros x HB [_ HS]. by apply (H2 x HB), HS.
  - unfold matches_bounds. rewrite E. cbn. destruct (any_value_fits_spec cl b1 n1 b2 n2 B1 B2 (Z.to_nat (cl_value_count cl)) 0) as (keep & EK & HK); [lia|intros j Hj; apply HV; lia|].
    exists keep. split; [exact EK|]. intros x [T1 T2] (i & v & len & Hi & Ei & HS). apply (HK x i v len); (done || lia).
  - unfold matches_bounds. destruct E as [-> | ->]; cbn; by eexists.
Qed.

End Bounds.

(** A match is not a NaN. *)
Lemma match_rank cl x : clause_shape cl -> (cl_op cl =? CARQUET_FILTER_IS_NULL) || (cl_op cl =? CARQUET_FILTER_IS_NOT_NULL) = false -> match_of cl x -> is_Some (rank k x).
Proof.
  intros HS HN. unfold match_of. assert (forall op p len, value_satisfies ti k op x p len -> is_Some (rank k x)) as HR by (intros op p len (? & _ & rx & ? & ? & _); by exists rx).
  destruct HS as [op Eop HG|E HB HL HH|E HV|E]; [rewrite Eop; apply HR| | |by destruct E as [E|E]; rewrite E in HN].
  - rewrite E. cbn. intros [H1 H2]. destruct (cl_has_lo cl); [by eapply HR, H1|]. destruct (cl_has_hi cl); [by eapply HR, H2|done].
  - rewrite E. cbn. intros (i & v & len & _ & _ & HS). by eapply HR.
Qed.

(** A page is kept when a cell of it satisfies the clause and its statistics are true. *)
Lemma page_matches_spec stats cl rows : page_stats_ok stats -> validate_op ti cl = CARQUET_OK -> clause_memory ti cl ->
  exists keep, page_matches_clause ti stats cl rows = Some keep /\ forall cell, page_truthful ti k stats rows cell -> clause_holds ti k cl cell -> keep = true.
Proof.
  intros [B1 B2] HV HM. unfold page_matches_clause, clause_holds. rewrite !Z.gtb_ltb, Z.geb_leb.
  destruct (cl_op cl =? CARQUET_FILTER_IS_NULL) eqn:E1; [eexists; split; [done|]; intros cell HT ->; cbn in HT; apply orb_true_iff; rewrite Z.ltb_lt; tauto|].
  destruct (cl_op cl =? CARQUET_FILTER_IS_NOT_NULL) eqn:E2.
  { eexists. split; [done|]. intros [x|] HT HN; [|done]. destruct HT as (-> & HC & _). cbn [negb andb]. rewrite (proj2 (Z.leb_gt _ _)) by lia. by rewrite andb_false_r. }
  assert ((cl_op cl =? CARQUET_FILTER_IS_NULL) || (cl_op cl =? CARQUET_FILTER_IS_NOT_NULL) = false) as Hn by by rewrite E1, E2.
  destruct (ps_is_null_page stats) eqn:EN; [exists false; split; [done|]; intros cell HT (x & -> & _); destruct HT as [HN _]; by rewrite EN in HN|].
  destruct ((0 <? rows) && (rows <=? ps_null_count stats)) eqn:EC.
  { exists false. split; [done|]. intros cell HT (x & -> & _). destruct HT as (_ & HC & _). apply andb_true_iff in EC as [_ EC%Z.leb_le]. lia. }
  destruct (matches_bounds_spec (ps_min_value stats) (ps_min_value_size stats) (ps_max_value stats) (ps_max_value_size stats) B1 B2 cl (validated_shape cl HV HM)) as (keep & EK & HK).
  assert (forall cell, page_truthful ti k stats rows cell -> (exists x, cell = Some x /\ value_matches ti k cl x) -> keep = true) as H.
  { intros cell HT (x & -> & HS). apply (match_of_value cl x (validated_shape cl HV HM) HM Hn) in HS. apply (HK x); [|exact HS]. destruct HT as (_ & _ & HT).
    destruct (HT (match_rank cl x (validated_shape cl HV HM) Hn HS)) as [T1 T2]. split; [exact T1|]. intros p Ep Es. destruct (T2 p Ep Es) as (rx & b & Rx & Rb & HR). by exists b, rx. }
  destruct (if stat_len_ok ti (ps_min_value_size stats) then _ else _), (if stat_len_ok ti (ps_max_value_size stats) then _ else _); [by exists keep..|by exists true].
Qed.

End Page.
