(* ===== verification/PageFilterSound.v ===== *)
(** * What the page filter keeps

    On hostile page indexes, with numbers of rows that do not overflow, the filter ends with
    every access in bounds; where the indexes are true of the columns, the ranges it returns are ascending, disjoint and inside the row
    group, and have every row that satisfies all clauses. *)

From S2P Require Import Prelude Status Endian Memory Heap Arena ParquetTypes Schema SchemaForest SchemaBuild SchemaRead FileReader FileOpen ValueOrder RowGroupFilter PageIndex PageIndexSafe PageFilter RowRanges PageMatch.

#[local] Open Scope Z_scope.

(** ** The pages of a column *)

(** The first row of page [i]; behind the last page, the number of rows. *)
Definition page_start (oi : carquet_offset_index_t) (n_pages num_rows i : Z) : Z :=
  if i <? n_pages then match carquet_offset_index_get_page_location oi i with Some (_, Some l) => pl_first_row_index l | _ => 0 end else num_rows.

(** The indexes are true of a column whose cells are [cells]: the pages are in order from
    row 0 on, and what the column index says of a page holds of its cells. *)
Record index_describes ti k (ci : carquet_column_index_t) (oi : carquet_offset_index_t) (n_pages num_rows : Z) (cells : Z -> option (list Z)) : Prop := {
  id_pages : 0 < n_pages;
  id_first : page_start oi n_pages num_rows 0 = 0;
  id_sorted : forall i, 0 <= i < n_pages -> page_start oi n_pages num_rows i <= page_start oi n_pages num_rows (i + 1);
  id_stats : forall i stats row, 0 <= i < n_pages -> carquet_column_index_get_page_stats ci i = Some (CARQUET_OK, Some stats) ->
    page_start oi n_pages num_rows i <= row < page_start oi n_pages num_rows (i + 1) ->
    page_truthful ti k stats (page_start oi n_pages num_rows (i + 1) - page_start oi n_pages num_rows i) (cells row) }.

Section Pages.
Context {Hp : ArrayHeap} {Ho : ArrayHeapOk Hp}.
Context (ti : column_type_info_t) (k : cmp_kind_t) (ci : carquet_column_index_t) (oi : carquet_offset_index_t) (clause : carquet_filter_clause_t) (n_pages num_rows : Z).
Hypotheses (Hk : ti_kind ti = Some k) (Hti : ti_ok ti) (HV : validate_op ti clause = CARQUET_OK) (HM : clause_memory ti clause).
Hypotheses (Kc : column_index_ok ci) (Ko : offset_index_ok oi) (Nc : n_pages <= ci_num_pages ci) (No : n_pages <= oi_num_pages oi).
Abbreviation start := (page_start oi n_pages num_rows).

Lemma start_mono cells i j : index_describes ti k ci oi n_pages num_rows cells -> 0 <= i <= j -> j <= n_pages -> start i <= start j.
Proof.
  intros D Hij Hj. replace j with (i + Z.of_nat (Z.to_nat (j - i))) in * by lia. revert Hj. generalize (Z.to_nat (j - i)). induction n as [|n IH]; intros Hj; [replace (i + Z.of_nat 0) with i by lia; lia|].
  specialize (IH ltac:(lia)). pose proof (id_sorted _ _ _ _ _ _ _ D (i + Z.of_nat n) ltac:(lia)) as Hs. replace (i + Z.of_nat (S n)) with (i + Z.of_nat n + 1) by lia. lia.
Qed.

Lemma start_end : start n_pages = num_rows.
Proof. unfold page_start. by rewrite Z.ltb_irrefl. Qed.

(** Every location and all statistics are there. *)
Lemma page_location i : 0 <= i < n_pages -> exists l, carquet_offset_index_get_page_location oi i = Some (CARQUET_OK, Some l) /\ pl_first_row_index l = start i.
Proof.
  intros Hi. destruct (get_page_location_total oi i Ko) as (st & l & E & H1 & H2). destruct l as [l|]; [|exfalso; by apply (proj2 H2 ltac:(lia))].
  exists l. unfold page_start. decide_bool. rewrite E. destruct st; try (by discriminate (proj2 H1 eq_refl)). done.
Qed.

Lemma page_stats i : 0 <= i < n_pages -> exists s, carquet_column_index_get_page_stats ci i = Some (CARQUET_OK, Some s) /\ page_stats_ok s.
Proof.
  intros Hi. destruct (get_page_stats_total ci i Kc) as (st & s & E & H1 & H2 & H3). destruct s as [s|]; [|exfalso; by apply (proj2 H2 ltac:(lia))].
  exists s. rewrite E. destruct st; try (by discriminate (proj2 H1 eq_refl)). split; [done|by apply H3].
Qed.

(** Truthful indexes have their pages in order, inside the group. *)
Lemma described_order cells : index_describes ti k ci oi n_pages num_rows cells ->
  (forall i, 0 <= i <= n_pages -> 0 <= start i <= num_rows) /\ forall i, 0 <= i < n_pages -> start i <= start (i + 1).
Proof.
  intros D. split; [|apply D]. intros i Hi. pose proof (start_mono cells 0 i D ltac:(lia) ltac:(lia)) as M1. pose proof (start_mono cells i n_pages D ltac:(lia) ltac:(lia)) as M2.
  rewrite (id_first _ _ _ _ _ _ _ D) in M1. rewrite start_end in M2. done.
Qed.

(** The first rows lie in [N] rows.  No total overflows: there is room for a range a page, or the pages are in order. *)
Context (N : Z).
Hypotheses (HN : N < 2 ^ 63) (HS : forall i, 0 <= i <= n_pages -> 0 <= start i <= N).

Definition in_order (i : Z) (out : carquet_row_range_list_t) : Prop := exists m, ordered 0 (view out) m /\ m <= start i.

Definition pages_ready (n : Z) (i : Z) (out : carquet_row_range_list_t) : Prop :=
  room N n out \/ (forall j, 0 <= j < n_pages -> start j <= start (j + 1)) /\ in_order i out.

(** The loop over the pages: total, and when it does not run out of memory it keeps every
    row that satisfies the clause. *)
Lemma pages_to_ranges_spec n : forall i out, 0 <= i -> i + Z.of_nat n = n_pages -> ranges_in N out -> pages_ready (Z.of_nat n) i out ->
  exists st out', pages_to_ranges ti ci oi clause num_rows n_pages n i out = Some (st, out') /\ ranges_in N out' /\ stored_or_full st /\ rl_count out' <= rl_count out + Z.of_nat n /\
    (st = CARQUET_OK -> forall cells, index_describes ti k ci oi n_pages num_rows cells -> in_order i out ->
      ordered 0 (view out') num_rows /\ (forall row, covers (view out) row -> covers (view out') row) /\
      forall row, start i <= row < num_rows -> clause_holds ti k clause (cells row) -> covers (view out') row).
Proof.
  induction n as [|n IH]; intros i out Hi Hn K HR; cbn [pages_to_ranges].
  { eexists _, _. split; [done|]. split; [done|]. split; [by left|]. split; [lia|]. intros _ cells D (m & HO & Hm). assert (start i = num_rows) as E by (replace i with n_pages by lia; apply start_end).
    split; [by apply (ordered_weaken _ _ m); [|lia]|]. split; [done|lia]. }
  destruct (page_stats i) as (stats & ES & KS); [lia|]. destruct (page_location i) as (loc & EL & HL); [lia|]. rewrite ES. cbn [mbind option_bind]. rewrite EL. cbn [mbind option_bind].
  assert ((if i + 1 <? n_pages then '(st, next) ← carquet_offset_index_get_page_location oi (i + 1); Some (st, pl_first_row_index (default pl_zero next)) else Some (CARQUET_OK, num_rows)) = Some (CARQUET_OK, start (i + 1))) as ->.
  { destruct (Z.ltb_spec (i + 1) n_pages); [|by replace (i + 1) with n_pages by lia; rewrite start_end]. destruct (page_location (i + 1)) as (next & -> & <-); [lia|]. done. }
  cbn [mbind option_bind is_ok negb]. rewrite HL. pose proof (HS i ltac:(lia)) as Si. pose proof (HS (i + 1) ltac:(lia)) as Si'.
  rewrite sint_Some by (unfold in_i; lia). cbn [mbind option_bind]. set (rows := start (i + 1) - start i).
  (* a page that is left out *)
  assert (forall m, ordered 0 (view out) m -> m <= start i -> start i <= start (i + 1) -> in_order (i + 1) out) as HI by (intros m HO Hm Hs; exists m; split; [done|lia]).
  destruct (IH (i + 1) out ltac:(lia) ltac:(lia) K) as (st0 & out0 & E0 & K0 & S0 & C0 & H0).
  { destruct HR as [HR|[HO (m & HO1 & HO2)]]; [left; apply (rows_room_less N (Z.of_nat (S n)) _ out); (done || lia)|right]. split; [done|]. apply (HI m); [done|done|]. apply HO. lia. }
  destruct (Z.leb_spec rows 0) as [Hr|Hr].
  { exists st0, out0. split; [exact E0|]. split; [done|]. split; [done|]. split; [lia|]. intros Hst cells D (m & HO & Hm). pose proof (id_sorted _ _ _ _ _ _ _ D i ltac:(lia)) as Hs.
    destruct (H0 Hst cells D (HI m HO Hm Hs)) as (A1 & A2 & A3). split; [done|]. split; [done|]. intros row Hrow. apply A3. lia. }
  destruct (page_matches_spec ti k Hk Hti stats clause rows KS HV HM) as (keep & -> & HK). cbn [mbind option_bind]. destruct keep.
  - destruct (row_range_append_spec N out (start i) rows K) as (st1 & out1 & -> & K1 & C1 & HA); [lia|lia|lia|lia| |].
    { destruct HR as [HR|[_ (m & HO1 & HO2)]]; [apply (rows_room_append N (Z.of_nat n)); [done|lia|lia|by replace (Z.of_nat n + 1) with (Z.of_nat (S n)) by lia]|].
      apply (ordered_append_room (view out) 0 m (start i) rows N); (done || lia). }
    cbn [mbind option_bind]. destruct HA as [[-> EV]|[-> _]]; cbn [is_ok negb]; [|eexists _, _; split; [done|]; split; [done|]; split; [by right|]; split; [lia|done]].
    assert (forall m, ordered 0 (view out) m -> m <= start i -> in_order (i + 1) out1 /\ forall row, covers (view out1) row <-> covers (view out) row \/ start i <= row < start (i + 1)) as HI1.
    { intros m HO Hm. destruct (append_view_adds (view out) 0 m (start i) rows) as [B1 B2]; [done|done|done|]. rewrite <- EV in B1, B2. replace (start i + rows) with (start (i + 1)) in B1, B2 by lia. split; [by exists (start (i + 1))|done]. }
    destruct (IH (i + 1) out1 ltac:(lia) ltac:(lia) K1) as (st & out' & E & K' & S' & C' & H).
    { destruct HR as [HR|[HO (m & HO1 & HO2)]]; [left; apply (rows_room_less N (Z.of_nat (S n)) _ out); (done || lia)|right]. split; [done|]. by apply (HI1 m). }
    exists st, out'. split; [exact E|]. split; [done|]. split; [done|]. split; [lia|]. intros Hst cells D (m & HO & Hm). destruct (HI1 m HO Hm) as [B1 B2].
    destruct (H Hst cells D B1) as (A1 & A2 & A3). split; [done|]. split; [intros row Hc; apply A2, B2; by left|].
    intros row Hrow HC. destruct (Z.lt_ge_cases row (start (i + 1))); [apply A2, B2; right; lia|apply A3; [lia|done]].
  - exists st0, out0. split; [exact E0|]. split; [done|]. split; [done|]. split; [lia|]. intros Hst cells D (m & HO & Hm). pose proof (id_sorted _ _ _ _ _ _ _ D i ltac:(lia)) as Hs.
    destruct (H0 Hst cells D (HI m HO Hm Hs)) as (A1 & A2 & A3). split; [done|]. split; [done|]. intros row Hrow HC. destruct (Z.lt_ge_cases row (start (i + 1))); [|apply A3; [lia|done]].
    discriminate (HK (cells row)); [|done]. apply (id_stats _ _ _ _ _ _ _ D i stats row); (done || lia).
Qed.

End Pages.

(** ** The clauses *)

(** The type that the schema declares for the column of a clause, and what its values are compared as. *)
Definition clause_type {F : FileIO} (reader : carquet_reader_t) (clause : carquet_filter_clause_t) : option (column_type_info_t * cmp_kind_t) :=
  e ← leaf_element reader (cl_column_index clause); k ← ti_kind (declared_info e); Some (declared_info e, k).

(** The validation accepts a clause. *)
Definition validated {F : FileIO} (reader : carquet_reader_t) (clause : carquet_filter_clause_t) : Prop :=
  carquet_page_filter_validate_clause reader clause = Some CARQUET_OK.

(** Of the file, and not checked by the validation: the column has a type with an order, and a
    fixed-length type has a length that fits it. *)
Definition column_supported {F : FileIO} (reader : carquet_reader_t) (clause : carquet_filter_clause_t) : Prop :=
  match clause_type reader clause with Some (ti, _) => ti_ok ti | None => False end.

(** Of the caller: the pointers of a clause are to values of the column. *)
Definition values_in_memory {F : FileIO} (reader : carquet_reader_t) (clause : carquet_filter_clause_t) : Prop :=
  match clause_type reader clause with Some (ti, _) => clause_memory ti clause | None => False end.

(** The cell of a row satisfies a clause; [cells c row] is what column [c] has in [row]. *)
Definition row_matches {F : FileIO} (reader : carquet_reader_t) (cells : Z -> Z -> option (list Z)) (row : Z) (clause : carquet_filter_clause_t) : Prop :=
  match clause_type reader clause with Some (ti, k) => clause_holds ti k clause (cells (cl_column_index clause) row) | None => False end.

(** The page indexes in the file are true of the column of a clause. *)
Definition column_described {Hp : ArrayHeap} {F : FileIO} (reader : carquet_reader_t) (rg num_rows : Z) (cells : Z -> Z -> option (list Z)) (clause : carquet_filter_clause_t) : Prop :=
  forall ti k ci oi, clause_type reader clause = Some (ti, k) ->
    carquet_reader_get_column_index reader rg (cl_column_index clause) = Some (Some ci) -> carquet_reader_get_offset_index reader rg (cl_column_index clause) = Some (Some oi) ->
    index_describes ti k ci oi (Z.min (carquet_column_index_num_pages ci) (carquet_offset_index_num_pages oi)) num_rows (cells (cl_column_index clause)).

(** What an open file is made of. *)
Record file_ok {F : FileIO} (contents : list Z) (reader : carquet_reader_t) : Prop := {
  fo_reader : reader_ok contents reader;
  fo_bytes : bytes_ok contents;
  fo_mapped : forall data, fr_mmap_data reader = Some data -> bytes_ok data;
  fo_size : lenZ contents < 2 ^ 63 }.

Section Eval.
Context {Hp : ArrayHeap} {Ho : ArrayHeapOk Hp} {F : FileIO} (contents : list Z) (reader : carquet_reader_t).
Hypothesis (KF : file_ok contents reader).

Lemma read_index_total {X} offset length (parse : option (list Z) -> Z -> option (option X)) (P : X -> Prop) :
  (forall data size, bytes_ok data -> 0 <= size <= lenZ data -> size < 2 ^ 63 -> exists r, parse (Some data) size = Some r /\ forall x, r = Some x -> P x) ->
  exists r, read_index reader offset length parse = Some r /\ forall x, r = Some x -> P x.
Proof.
  intros HP. unfold read_index. destruct offset as [offset|], length as [length|]; try by eexists. destruct (Z.leb_spec length 0); [by eexists|].
  destruct (read_bytes_spec contents reader offset length (fo_reader _ _ KF) (fo_size _ _ KF)) as (st & p & -> & H1 & _). cbn [mbind option_bind].
  destruct p as [bs|]; [|rewrite H1; by eexists]. destruct H1 as (-> & _ & H1 & H2 & H3). cbn [is_ok negb]. pose proof (f_equal List.length H2) as L. rewrite !length_take, length_drop in L.
  pose proof (fo_size _ _ KF). apply HP; [apply H3; [apply KF|apply KF]|lia|lia].
Qed.

Lemma column_chunk_total rg c : exists chunk, reader_get_column_chunk reader rg c = Some chunk.
Proof.
  unfold reader_get_column_chunk, carquet_reader_row_group_index_valid. rewrite Z.geb_leb.
  destruct (Z.leb_spec 0 rg), (Z.ltb_spec rg (lenZ (fm_row_groups (fr_metadata reader)))); cbn [negb andb]; try by eexists.
  destruct (rd_Some (fm_row_groups (fr_metadata reader)) rg) as [g ->]; [lia|]. cbn [mbind option_bind]. rewrite Z.geb_leb.
  destruct (Z.ltb_spec c 0), (Z.leb_spec (lenZ (rg_columns g)) c); cbn [orb]; try by eexists. destruct (rd_Some (rg_columns g) c) as [x ->]; [lia|]. by eexists.
Qed.

Lemma column_index_total rg c : exists r, carquet_reader_get_column_index reader rg c = Some r /\ forall ci, r = Some ci -> column_index_ok ci.
Proof.
  unfold carquet_reader_get_column_index. destruct (column_chunk_total rg c) as [[chunk|] ->]; cbn [mbind option_bind]; [|by eexists].
  apply read_index_total. intros data size Hb Hs Hs'. destruct (column_index_parse_total data size Hb Hs Hs') as (r & E & H). exists r. split; [done|]. intros ci ->. by destruct (H ci eq_refl).
Qed.

Lemma offset_index_total rg c : exists r, carquet_reader_get_offset_index reader rg c = Some r /\ forall oi, r = Some oi -> offset_index_ok oi.
Proof.
  unfold carquet_reader_get_offset_index. destruct (column_chunk_total rg c) as [[chunk|] ->]; cbn [mbind option_bind]; [|by eexists].
  apply read_index_total. apply offset_index_parse_total.
Qed.

(** A column has both indexes. *)
Definition indexed (rg c : Z) : Prop :=
  exists ci oi, carquet_reader_get_column_index reader rg c = Some (Some ci) /\ carquet_reader_get_offset_index reader rg c = Some (Some oi).

(** How an evaluation ends. *)
Inductive outcome (rg : Z) (clauses : list carquet_filter_clause_t) : carquet_status_t -> Prop :=
  | Evaluated : outcome rg clauses CARQUET_OK
  | NoMemory : outcome rg clauses CARQUET_ERROR_OUT_OF_MEMORY
  | NoIndex clause : clause ∈ clauses -> ~ indexed rg (cl_column_index clause) -> outcome rg clauses CARQUET_ERROR_PAGE_INDEX_REQUIRED.

Lemma stored_outcome rg clauses st : stored_or_full st -> outcome rg clauses st.
Proof. intros [-> | ->]; constructor. Qed.

Lemma outcome_mono rg l l' st : l ⊆ l' -> outcome rg l st -> outcome rg l' st.
Proof. intros HL []; [constructor|constructor|]. eapply NoIndex; [by apply HL|done]. Qed.

(** A clause that the evaluation can look at. *)
Record clause_ready (clause : carquet_filter_clause_t) : Prop := {
  cr_valid : validated reader clause;
  cr_type : column_supported reader clause;
  cr_memory : values_in_memory reader clause }.

Lemma clauses_ready clauses : Forall (validated reader) clauses -> Forall (column_supported reader) clauses -> Forall (values_in_memory reader) clauses -> Forall clause_ready clauses.
Proof. rewrite !Forall_forall. intros H1 H2 H3 c Hc. split; auto. Qed.

(** The validation looks up the declared type. *)
Lemma lookup_declared clause ti k : validated reader clause -> clause_type reader clause = Some (ti, k) ->
  exists st, lookup_column_type reader (cl_column_index clause) = Some (st, Some ti) /\ ti_kind ti = Some k /\ validate_op ti clause = CARQUET_OK.
Proof.
  unfold validated, carquet_page_filter_validate_clause, clause_type, leaf_element, lookup_column_type, carquet_reader_schema. intros HV HT.
  apply bind_Some in HT as (e & He & HT). apply bind_Some in HT as (k' & Hk & [= <- <-]). apply bind_Some in He as (s & Es & He). rewrite Es in *.
  destruct ((cl_column_index clause <? 0) || (cl_column_index clause >=? sch_num_leaves s)); [done|]. apply bind_Some in He as (idx & Ei & He). rewrite Ei in *. cbn [mbind option_bind] in *. rewrite He in *. cbn [mbind option_bind] in *.
  destruct (type_info_of e) as [ti|] eqn:Et; [|done]. apply type_info_declared in Et as ->. cbn [mbind option_bind] in *. injection HV as HV. by eexists.
Qed.

(** The first rows of an offset index with at most [P] pages lie in [N] rows. *)
Definition pages_fit (rg N P : Z) (clause : carquet_filter_clause_t) : Prop :=
  forall oi, carquet_reader_get_offset_index reader rg (cl_column_index clause) = Some (Some oi) ->
    carquet_offset_index_num_pages oi <= P /\
    forall i st l, carquet_offset_index_get_page_location oi i = Some (st, Some l) -> 0 <= pl_first_row_index l <= N.

(** No sum of rows overflows for one of two reasons: there is a budget of [P] pages for each of
    [C] clauses, all inside [N] rows; or the indexes are true of the columns. *)
Section Sums.
Context (rg num_rows N C : Z) (budget : option Z).
Hypotheses (HN : 0 <= num_rows <= N) (HN' : N < 2 ^ 63).
Hypothesis (HB : match budget with Some P => 0 <= P /\ C * P * N < 2 ^ 63 | None => N = num_rows end).

Definition sums_fit (clause : carquet_filter_clause_t) : Prop :=
  match budget with Some P => pages_fit rg N P clause | None => exists cells, column_described reader rg num_rows cells clause end.

(** What [c] clauses leave in a list. *)
Definition within (c : Z) (l : carquet_row_range_list_t) : Prop :=
  match budget with Some P => rl_count l <= c * P | None => ordered 0 (view l) num_rows end.

Lemma budget_room P c n : 0 <= P -> C * P * N < 2 ^ 63 -> c <= C -> n <= c * P -> n * N < 2 ^ 63.
Proof.
  intros HP HC Hc Hn. pose proof (Z.mul_le_mono_nonneg_r c C P HP Hc). pose proof (Z.mul_le_mono_nonneg_r n (C * P) N ltac:(lia) ltac:(lia)). lia.
Qed.

Lemma within_room c l : 0 <= c <= C -> ranges_in N l -> within c l -> rl_count l * N < 2 ^ 63 \/ ordered 0 (view l) N.
Proof.
  unfold within. intros Hc K H. destruct budget as [P|]; [left|right; by subst]. apply (budget_room P c); (done || lia).
Qed.

Lemma within_ordered c l : budget = None -> within c l -> N = num_rows /\ ordered 0 (view l) N.
Proof. unfold within. destruct budget; [done|]. intros _ H. split; [done|by rewrite HB]. Qed.

Lemma eval_clause_spec clause out : 1 <= C -> clause_ready clause -> sums_fit clause -> range_list_ok out ->
  exists st out', eval_clause_to_ranges reader rg num_rows clause out = Some (st, out') /\ (range_list_ok out' /\ (st = CARQUET_OK -> ranges_in N out')) /\ outcome rg [clause] st /\
    (st = CARQUET_OK -> within 1 out' /\ forall cells, column_described reader rg num_rows cells clause ->
      forall row, 0 <= row < num_rows -> row_matches reader cells row clause -> covers (view out') row).
Proof.
  intros HC [HV HT HM] HF K. unfold column_supported, values_in_memory, sums_fit, row_matches, column_described in *. unfold eval_clause_to_ranges.
  destruct (clause_type reader clause) as [[ti k]|] eqn:ET; [|done]. destruct (lookup_declared clause ti k HV ET) as (st0 & -> & Hk & HO). cbn [mbind option_bind].
  destruct (column_index_total rg (cl_column_index clause)) as (rc & Ec & Kc). destruct (offset_index_total rg (cl_column_index clause)) as (ro & Eo & Ko).
  rewrite Ec. cbn [mbind option_bind]. rewrite Eo. cbn [mbind option_bind].
  assert (rc = None \/ ro = None -> outcome rg [clause] CARQUET_ERROR_PAGE_INDEX_REQUIRED) as HX.
  { intros HX. apply (NoIndex _ _ clause); [constructor|]. intros (ci & oi & Ec' & Eo'). destruct HX; congruence. }
  destruct rc as [ci|]; [|eexists _, _; split; [done|]; split; [done|]; split; [apply HX; by left|done]]. destruct ro as [oi|]; [|eexists _, _; split; [done|]; split; [done|]; split; [apply HX; by right|done]].
  set (n := if _ <? _ then _ else _). assert (n = Z.min (carquet_column_index_num_pages ci) (carquet_offset_index_num_pages oi)) as En by (unfold n; case_bool; lia).
  specialize (Kc ci eq_refl). specialize (Ko oi eq_refl). unfold carquet_column_index_num_pages, carquet_offset_index_num_pages in En.
  destruct (range_list_clear_in N out K) as [K' EV]. change (rl_count out) with (rl_count out) in K'.
  assert (forall cells, (forall ti' k' ci' oi', Some (ti, k) = Some (ti', k') -> Some (Some ci) = Some (Some ci') -> Some (Some oi) = Some (Some oi') ->
    index_describes ti' k' ci' oi' (Z.min (ci_num_pages ci') (oi_num_pages oi')) num_rows cells) -> index_describes ti k ci oi n num_rows cells) as HD.
  { intros cells D. rewrite En. by apply D. }
  destruct (Z.lt_ge_cases 0 n) as [Hn|Hn].
  2: { replace (Z.to_nat n) with 0%nat by lia. cbn [pages_to_ranges]. eexists _, _. split; [done|]. split; [by split; [apply K'|]|]. split; [constructor|]. intros _. split.
       - unfold within. destruct budget as [P|]; [cbn; lia|]. destruct HF as [cells D]. rewrite Ec, Eo in D. pose proof (id_pages _ _ _ _ _ _ _ (HD _ D)). lia.
       - intros cells D. pose proof (id_pages _ _ _ _ _ _ _ (HD _ D)). lia. }
  assert (forall i, 0 <= i <= n -> 0 <= page_start oi n num_rows i <= N) as HS.
  { unfold pages_fit in HF. destruct budget as [P|].
    - intros i Hi. destruct (HF oi Eo) as [_ HF']. unfold page_start. destruct (Z.ltb_spec i n); [|lia]. destruct (get_page_location_total oi i Ko) as (st & l & E & _ & H2). rewrite E.
      destruct l as [l|]; [by apply (HF' i st)|lia].
    - destruct HF as [cells D]. rewrite Ec, Eo in D. rewrite HB. by destruct (described_order ti k ci oi n num_rows _ (HD _ D)) as [? ?]; auto. }
  assert (in_order oi n num_rows 0 (carquet_row_range_list_clear out)) as H00 by (exists 0; rewrite EV; split; [done|by apply HS; lia]).
  destruct (pages_to_ranges_spec ti k ci oi clause n num_rows Hk HT HO HM Kc Ko) with (N := N) (n := Z.to_nat n) (i := 0) (out := carquet_row_range_list_clear out) as (st & out' & E & K1 & S & C1 & H);
    [lia|lia|lia|done|lia|lia|done| |].
  { unfold pages_ready, pages_fit in *. destruct budget as [P|]; [left|right; split; [|done]].
    - destruct (HF oi Eo) as [HP _]. unfold carquet_offset_index_num_pages in HP. unfold room. cbn [carquet_row_range_list_clear rl_count]. apply (budget_room P 1); (done || lia).
    - destruct HF as [cells D]. rewrite Ec, Eo in D. by destruct (described_order ti k ci oi n num_rows _ (HD _ D)) as [? ?]; auto. }
  exists st, out'. split; [exact E|]. split; [split; [apply K1|done]|]. split; [by apply stored_outcome|]. intros Hst. split.
  - unfold within, pages_fit in *. destruct budget as [P|]; [destruct (HF oi Eo) as [HP _]; unfold carquet_offset_index_num_pages in HP; cbn in C1; lia|].
    destruct HF as [cells D]. rewrite Ec, Eo in D. by destruct (H Hst _ (HD _ D) H00).
  - intros cells D. destruct (H Hst _ (HD _ D) H00) as (A1 & A2 & A3). intros row Hrow. apply A3. by rewrite (id_first _ _ _ _ _ _ _ (HD _ D)).
Qed.

Lemma eval_rest_spec clauses : Forall clause_ready clauses -> Forall sums_fit clauses -> forall c accum scratch next, 0 <= c -> c + lenZ clauses <= C ->
  ranges_in N accum -> within c accum -> range_list_ok scratch -> range_list_ok next ->
  exists st out', eval_rest reader rg num_rows clauses accum scratch next = Some (st, out') /\ ranges_in N out' /\ outcome rg clauses st /\
    (st = CARQUET_OK -> within (c + lenZ clauses) out' /\ forall cells, budget = None -> Forall (column_described reader rg num_rows cells) clauses ->
      forall row, 0 <= row < num_rows -> covers (view accum) row -> Forall (row_matches reader cells row) clauses -> covers (view out') row).
Proof.
  induction 1 as [|clause clauses HC HF IH]; intros HFit c accum scratch next Hc HcC Ka Wa Ks Kn; cbn [eval_rest].
  { eexists _, _; split; [done|]; split; [done|]; split; [constructor|]. intros _. split; [by rewrite Z.add_0_r|done]. }
  apply Forall_cons_1 in HFit as [F1 HFit]. cbn [length] in *.
  assert (within c accum -> within (c + Z.of_nat (S (length clauses))) accum) as HW by (unfold within; destruct budget; [nia|done]).
  destruct (rl_count accum =? 0); [eexists _, _; split; [done|]; split; [done|]; split; [constructor|]; intros _; split; [by apply HW|done]|].
  destruct (eval_clause_spec clause scratch ltac:(lia) HC F1 Ks) as (st1 & sc & -> & [K1 R1] & S1 & H1). cbn [mbind option_bind].
  destruct (is_ok st1) eqn:E1; cbn [negb].
  2: { eexists _, _. split; [done|]. split; [done|]. split; [by eapply outcome_mono, S1; intros ? ->%list_elem_of_singleton; constructor|by intros ->]. }
  assert (st1 = CARQUET_OK) as -> by (by destruct S1). destruct (H1 eq_refl) as [W1 M1]. specialize (R1 eq_refl).
  assert ((rl_count accum + rl_count sc) * N < 2 ^ 63 \/ ordered 0 (view accum) N /\ ordered 0 (view sc) N) as HR.
  { unfold within in Wa, W1. destruct budget as [P|]; [left|right; rewrite HB; by split]. apply (budget_room P (c + 1)); (done || lia). }
  destruct (intersect_lists_spec N ltac:(lia) accum sc next Ka R1 Kn HR) as (st2 & nx & -> & K2 & C2 & S2 & H2). cbn [mbind option_bind].
  destruct S2 as [-> | ->]; cbn [is_ok negb]; [|eexists _, _; split; [done|]; split; [done|]; split; [constructor|done]]. specialize (H2 eq_refl).
  assert (within (c + 1) nx) as W2 by (unfold within in *; destruct budget as [P|]; [nia|rewrite HB in H2; by apply H2]).
  destruct (IH HFit (c + 1) nx (carquet_row_range_list_clear sc) (carquet_row_range_list_clear accum)) as (st & out' & E & K' & HS & H);
    [lia|lia|done|done|by apply range_list_clear_ok|by apply range_list_clear_ok, Ka|].
  exists st, out'. split; [exact E|]. split; [done|]. split; [eapply outcome_mono, HS; intros ? ?; by constructor|].
  intros Hst. destruct (H Hst) as [W3 M3]. split; [by replace (c + Z.of_nat (S (length clauses))) with (c + 1 + lenZ clauses) by lia|].
  intros cells HBN [D DF]%Forall_cons_1 row Hrow Hcov [M MF]%Forall_cons_1. destruct (within_ordered _ _ HBN Wa) as [_ O1]. destruct (within_ordered _ _ HBN W1) as [_ O2]. destruct (H2 O1 O2) as [_ H2'].
  apply (M3 cells HBN DF row Hrow); [|done]. apply H2'. split; [done|]. by apply (M1 cells D).
Qed.

(** The evaluation of a row group with rows. *)
Lemma eval_group_spec g clause clauses out : rd (fm_row_groups (fr_metadata reader)) rg = Some g -> rg_num_rows g = num_rows -> 0 < num_rows -> C = lenZ (clause :: clauses) ->
  Forall clause_ready (clause :: clauses) -> Forall sums_fit (clause :: clauses) -> range_list_ok out ->
  exists st out', carquet_page_filter_eval_row_group reader rg (clause :: clauses) out = Some (st, out') /\ range_list_ok out' /\ (is_ok st = false -> rl_count out' = 0) /\
    outcome rg (clause :: clauses) st /\
    (st = CARQUET_OK -> budget = None -> ordered 0 (view out') num_rows /\ forall cells, Forall (column_described reader rg num_rows cells) (clause :: clauses) ->
      forall row, 0 <= row < num_rows -> Forall (row_matches reader cells row) (clause :: clauses) -> covers (view out') row).
Proof.
  intros Eg En Hn EC [HC HF]%Forall_cons_1 [F1 FF]%Forall_cons_1 K. destruct (range_list_clear_in N out K) as [Kc EV]. unfold carquet_page_filter_eval_row_group, carquet_reader_num_row_groups.
  pose proof (rd_bound _ _ _ Eg) as Hrg. rewrite (proj2 (Z.ltb_ge rg 0)), Z.geb_leb, (proj2 (Z.leb_gt _ rg)) by lia. cbn [orb]. rewrite Eg. cbn [mbind option_bind]. rewrite En. rewrite (proj2 (Z.leb_gt num_rows 0)) by lia.
  cbn [length] in EC. destruct (eval_clause_spec clause carquet_row_range_list_init ltac:(lia) HC F1 range_list_init_ok) as (st1 & acc & -> & [K1 R1] & S1 & H1). cbn [mbind option_bind].
  destruct (is_ok st1) eqn:E1; cbn [negb].
  2: { do 3 (cbn [mbind option_bind negb]; rewrite ?E1). eexists _, _. split; [done|]. split; [by apply range_list_clear_ok, Kc|]. split; [done|].
       split; [eapply outcome_mono, S1; intros ? ->%list_elem_of_singleton; constructor|by intros ->]. }
  assert (st1 = CARQUET_OK) as -> by (by destruct S1). destruct (H1 eq_refl) as [W1 M1]. specialize (R1 eq_refl).
  destruct (eval_rest_spec clauses HF FF 1 acc carquet_row_range_list_init carquet_row_range_list_init) as (st2 & acc' & -> & K2 & S2 & H2); [lia|lia|done|done|apply range_list_init_ok|apply range_list_init_ok|].
  cbn [mbind option_bind]. destruct (is_ok st2) eqn:E2; cbn [negb].
  2: { do 3 (cbn [mbind option_bind negb]; rewrite ?E2). eexists _, _. split; [done|]. split; [by apply range_list_clear_ok, Kc|]. split; [done|]. split; [eapply outcome_mono, S2; intros ? ?; by constructor|by intros ->]. }
  assert (st2 = CARQUET_OK) as -> by (by destruct S2). destruct (H2 eq_refl) as [W2 M2]. pose proof (rlo_count _ (ri_list _ _ K2)).
  assert (room N (rl_count acc') (carquet_row_range_list_clear out) \/ ordered 0 (view acc') N) as HR.
  { unfold room. cbn [carquet_row_range_list_clear rl_count]. apply (within_room (1 + lenZ clauses) acc'); (done || lia). }
  destruct (move_ranges_spec N ltac:(lia) acc' K2 (Z.to_nat (rl_count acc')) 0 (carquet_row_range_list_clear out)) as (st3 & out3 & -> & K3 & S3 & H3); [lia|lia|done| |].
  { rewrite Z2Nat.id by lia. destruct HR as [HR|HR]; [by left|right]. exists 0, 0. rewrite EV. change (Z.to_nat 0) with 0%nat. rewrite drop_0. by repeat split. }
  cbn [mbind option_bind]. destruct S3 as [-> | ->]; cbn [is_ok negb]; eexists _, _; (split; [done|]); [|split; [by apply range_list_clear_ok, K3|]; split; [done|]; split; [constructor|done]].
  split; [apply K3|]. split; [done|]. split; [constructor|]. intros _ HBN. destruct (within_ordered _ _ HBN W2) as [EN O2].
  change (Z.to_nat 0) with 0%nat in H3. rewrite drop_0 in H3. destruct (H3 eq_refl 0 0) as [O3 C3]; [lia|done|by rewrite EV|lia|]. split; [by rewrite <- EN|].
  intros cells [D DF]%Forall_cons_1 row Hrow [M MF]%Forall_cons_1. apply C3. right. apply (M2 cells HBN DF row Hrow); [|done]. by apply (M1 cells D).
Qed.

End Sums.

(** Without rows to look at, or without a row group, nothing is evaluated. *)
Lemma eval_nothing rg clauses out : range_list_ok out -> (clauses = [] \/ forall g, rd (fm_row_groups (fr_metadata reader)) rg = Some g -> rg_num_rows g <= 0) ->
  exists st out', carquet_page_filter_eval_row_group reader rg clauses out = Some (st, out') /\ range_list_ok out' /\ view out' = [] /\ rl_count out' = 0 /\
    (st = CARQUET_ERROR_ROW_GROUP_NOT_FOUND /\ ~ 0 <= rg < carquet_reader_num_row_groups reader \/ st = CARQUET_OK).
Proof.
  intros K HN. destruct (range_list_clear_ok out K) as [Kc EV]. unfold carquet_page_filter_eval_row_group, carquet_reader_num_row_groups.
  destruct clauses as [|clause clauses]; [eexists _, _; split; [done|]; split; [done|]; split; [done|]; split; [done|by right]|]. destruct HN as [|HN]; [done|].
  rewrite Z.geb_leb. destruct (Z.ltb_spec rg 0); [eexists _, _; split; [done|]; split; [done|]; split; [done|]; split; [done|left; split; [done|lia]]|].
  destruct (Z.leb_spec (lenZ (fm_row_groups (fr_metadata reader))) rg); cbn [orb]; [eexists _, _; split; [done|]; split; [done|]; split; [done|]; split; [done|left; split; [done|lia]]|].
  destruct (rd_Some (fm_row_groups (fr_metadata reader)) rg) as [g Eg]; [lia|]. rewrite Eg. cbn [mbind option_bind]. rewrite (proj2 (Z.leb_le _ 0)) by (by apply HN).
  eexists _, _. split; [done|]. split; [done|]. split; [done|]. split; [done|by right].
Qed.

End Eval.


(** ** The theorems *)

(** The numbers of rows in the file are so small that no sum of them overflows: the row group
    has at most [N] rows, the pages of a clause's column are at most [P] and start inside [N]
    rows, and all of them together have fewer than 2^63. *)
Record rows_fit {Hp : ArrayHeap} {F : FileIO} (reader : carquet_reader_t) (rg : Z) (clauses : list carquet_filter_clause_t) (N P : Z) : Prop := {
  rf_group : forall g, rd (fm_row_groups (fr_metadata reader)) rg = Some g -> rg_num_rows g <= N;
  rf_pages : Forall (pages_fit reader rg N P) clauses;
  rf_total : 0 <= P /\ 0 <= N < 2 ^ 63 /\ lenZ clauses * P * N < 2 ^ 63 }.

(** C19: the page filter is safe on a hostile file.  Let the clauses be validated, with their
    values in memory, on columns whose type the filter supports: the validation does not look
    at the length that the file gives a fixed-length type, so that is a hypothesis.  Let the
    numbers of rows be small enough for [int64_t] sums ([rows_fit]; see [page_rows_overflow]).
    Then, for any row group number and whatever else the bytes of the page indexes say, with
    pages in any order and statistics of any size, evaluating the filter ends with every
    access in bounds.  It fails only when there is no such row group, when memory runs out or
    when a column that a clause names has no usable page index, and then leaves no range. *)
Theorem page_filter_safe {Hp : ArrayHeap} {Ho : ArrayHeapOk Hp} {F : FileIO} contents reader rg clauses out N P :
  file_ok contents reader -> Forall (validated reader) clauses -> Forall (column_supported reader) clauses -> Forall (values_in_memory reader) clauses -> range_list_ok out ->
  rows_fit reader rg clauses N P ->
  exists st out', carquet_page_filter_eval_row_group reader rg clauses out = Some (st, out') /\ range_list_ok out' /\ (is_ok st = false -> rl_count out' = 0) /\
    (st = CARQUET_ERROR_ROW_GROUP_NOT_FOUND /\ ~ 0 <= rg < carquet_reader_num_row_groups reader \/ outcome reader rg clauses st).
Proof.
  intros KF HV HT HM K [RG RP (HP & HN & HC)]. pose proof (clauses_ready _ _ HV HT HM) as HR.
  assert ((clauses = [] \/ forall g, rd (fm_row_groups (fr_metadata reader)) rg = Some g -> rg_num_rows g <= 0) \/
    exists c l g, clauses = c :: l /\ rd (fm_row_groups (fr_metadata reader)) rg = Some g /\ 0 < rg_num_rows g) as [HE|(c & l & g & -> & Eg & Hg)].
  { destruct clauses as [|c l]; [by left; left|]. destruct (rd (fm_row_groups (fr_metadata reader)) rg) as [g|] eqn:Eg; [|left; by right].
    destruct (Z.lt_ge_cases 0 (rg_num_rows g)); [right; by exists c, l, g|left; right; by intros g' [= <-]]. }
  - destruct (eval_nothing reader rg clauses out K HE) as (st & out' & E & K' & _ & H0 & Hs). exists st, out'. split; [done|]. split; [done|]. split; [done|].
    destruct Hs as [?| ->]; [by left|right; constructor].
  - specialize (RG g Eg). destruct (eval_group_spec contents reader KF rg (rg_num_rows g) N (lenZ (c :: l)) (Some P) ltac:(lia) ltac:(lia) ltac:(done) g c l out) as (st & out' & E & K' & H0 & Hs & _); [done..|].
    exists st, out'. split; [exact E|]. split; [done|]. split; [done|]. by right.
Qed.


(** ** A column in two pages *)


Definition two_pages_column_index : list Z :=
  [25; 33; 0; 0; 25; 40; 4; 1; 0; 0; 0; 4; 6; 0; 0; 0; 25; 40; 4; 5; 0; 0; 0; 4; 9; 0; 0; 0; 21; 0; 25; 38; 2; 0; 0].
Definition two_pages_offset_index : list Z := [25; 44; 22; 8; 21; 40; 22; 0; 0; 22; 48; 21; 40; 22; 6; 0; 0].
Definition two_pages_file : list Z := two_pages_column_index ++ two_pages_offset_index.

Definition two_pages_group : parquet_row_group_t :=
  mk_row_group [mk_column_chunk None 4 None (Some 35) (Some 17) (Some 0) (Some 35)] 12 6 [] None None None.

Definition two_pages_footer : parquet_file_metadata_t :=
  mk_file_metadata 2 [mk_schema_element None 0 None (Some [114; 0]) 1 None 0 0 None None; leaf CARQUET_PHYSICAL_INT32 None] 6 [two_pages_group] [] None 0.

Definition reader_of (file : list Z) : option (carquet_reader_t (F := memory_io Some)) :=
  '(s, a) ← build_schema (Sp := upward_space) arena_64k two_pages_footer;
  s ← s; Some (mk_file_reader (F := memory_io Some) None false (Some file) 52 false a two_pages_footer (Some s) carquet_reader_options_init (mk_prebuffer None 0 0 0) true).


(** The same with a first page from row 5 on and a second one from row 2 on. *)
Definition shuffled_file : list Z := two_pages_column_index ++ [25; 44; 22; 8; 21; 40; 22; 10; 0; 22; 48; 21; 40; 22; 4; 0; 0].
Definition shuffled_reader : option (carquet_reader_t (F := memory_io Some)) := reader_of shuffled_file.

(** [x > 5] *)
Definition above_five : carquet_filter_clause_t := mk_clause 0 CARQUET_FILTER_GT (Some [5; 0; 0; 0]) 4 None 0 None 0 false false InNull 0.

Lemma reader_of_ok file : bytes_ok file -> lenZ file = 52 -> exists r, reader_of file = Some r /\ file_ok (F := memory_io Some) file r /\
  validated r above_five /\ column_supported r above_five /\ values_in_memory r above_five.
Proof.
  intros HB HL. assert (exists s a, build_schema (Sp := upward_space) arena_64k two_pages_footer = Some (Some s, a)) as (s & a & E) by (eexists _, _; vm_compute; reflexivity).
  destruct (build_schema_spec (Sp := upward_space) arena_64k two_pages_footer eq_refl ltac:(by eexists)) as (s' & a' & E' & H). rewrite E in E'. injection E' as <- <-. specialize (H s eq_refl).
  set (r := mk_file_reader (F := memory_io Some) None false (Some file) 52 false a two_pages_footer (Some s) carquet_reader_options_init (mk_prebuffer None 0 0 0) true).
  exists r. split; [unfold reader_of; rewrite E; reflexivity|].
  split; [split; [split; [symmetry; exact HL|apply firstn_all|exists s; split; [reflexivity|exact H]]|exact HB|intros data [= <-]; exact HB|by rewrite HL]|].
  vm_compute in E. injection E as <- <-. split; [vm_compute; reflexivity|]. unfold column_supported, values_in_memory.
  assert (clause_type r above_five = Some (mk_type_info 1 0 false false, CMP_INT32_S)) as -> by (vm_compute; reflexivity).
  split; [done|]. split; [|done|done|done]. split; [apply (bool_decide_unpack _); vm_compute; exact I|]. split; vm_compute; discriminate.
Qed.




(** Pages out of order: the second one has rows 2 to 5. *)
Lemma page_filter_safe_witness : exists r out', shuffled_reader = Some r /\
  carquet_page_filter_eval_row_group (Hp := plain_heap) r 0 [above_five] carquet_row_range_list_init = Some (CARQUET_OK, out') /\ view out' = [mk_range 2 4].
Proof.
  destruct (reader_of_ok shuffled_file) as (r & Er & KF & CV & CT & CM); [apply (bool_decide_unpack _); vm_compute; exact I|reflexivity|].
  assert (exists oi, carquet_reader_get_offset_index (Hp := plain_heap) r 0 0 = Some (Some oi) /\ carquet_offset_index_num_pages oi = 2 /\ oi_page_locations oi = Some [mk_page_location 4 20 5; mk_page_location 24 20 2]) as (oi & Eo & En & El)
    by (vm_compute in Er; injection Er as <-; eexists; split; [vm_compute; reflexivity|by split]).
  destruct (page_filter_safe (Hp := plain_heap) (F := memory_io Some) shuffled_file r 0 [above_five] carquet_row_range_list_init 6 2) as (st & out' & E & _ & _ & _);
    [exact KF|by constructor..|apply range_list_init_ok| |].
  - split; [intros g Eg; vm_compute in Er; injection Er as <-; vm_compute in Eg; injection Eg as <-; cbn; lia| |cbn; lia]. constructor; [|constructor]. intros oi' Eo'. cbn [cl_column_index above_five] in Eo'. rewrite Eo in Eo'. injection Eo' as <-.
    split; [lia|]. intros i st' l Hl. unfold carquet_offset_index_get_page_location in Hl. destruct (_ || _) in Hl; [done|]. rewrite El in Hl. cbn [mbind option_bind] in Hl. apply bind_Some in Hl as (l' & Hl & [= <- <-]).
    assert (l' ∈ [mk_page_location 4 20 5; mk_page_location 24 20 2]) as Hin by (apply list_elem_of_lookup_2 with (Z.to_nat i); rewrite <- rd_lookup; [done|apply rd_bound in Hl; lia]).
    apply elem_of_cons in Hin as [-> |Hin]; [cbn; lia|]. apply elem_of_cons in Hin as [-> |Hin]; [cbn; lia|by apply not_elem_of_nil in Hin].
  - exists r, out'. split; [exact Er|]. vm_compute in Er. injection Er as <-. vm_compute in E. injection E as <- <-. split; [vm_compute; reflexivity|reflexivity].
Defined.

(** ** Surprises *)

(** An IN clause on a FIXED_LEN_BYTE_ARRAY column is accepted without a look at the length of
    the type; when a file has a negative length there, [memcmp] gets it as its size. *)
Theorem in_clause_negative_length :
  let ti := mk_type_info CARQUET_PHYSICAL_FIXED_LEN_BYTE_ARRAY (-4) false false in
  let clause := mk_clause 0 CARQUET_FILTER_IN None 0 None 0 None 0 false false (InPacked [1; 2; 3; 4]) 1 in
  validate_op ti clause = CARQUET_OK /\ page_matches_clause ti (mk_page_stats 0 (Some [0; 0; 0; 0]) 4 (Some [9; 9; 9; 9]) 4 false) clause 3 = None.
Proof. by split; vm_compute. Qed.

(** A FLOAT16 annotation on a column of one byte: the test for NaN reads two. *)
Theorem half_float_overread :
  let ti := mk_type_info CARQUET_PHYSICAL_FIXED_LEN_BYTE_ARRAY 1 false true in
  let clause := mk_clause 0 CARQUET_FILTER_EQ (Some [1]) 1 None 0 None 0 false false InNull 0 in
  validate_op ti clause = CARQUET_OK /\ page_matches_clause ti (mk_page_stats 0 (Some [0]) 1 (Some [9]) 1 false) clause 3 = None.
Proof. by split; vm_compute. Qed.

(** A first row of -2^63 in an offset index: the number of rows of the page overflows. *)
Theorem page_rows_overflow :
  let index := [25; 44; 22; 8; 21; 40; 22; 255; 255; 255; 255; 255; 255; 255; 255; 255; 1; 0; 22; 48; 21; 40; 22; 6; 0; 0] in
  exists ci oi, carquet_column_index_parse (Hp := plain_heap) (Some two_pages_file) 35 = Some (Some ci) /\
    carquet_offset_index_parse (Hp := plain_heap) (Some index) 26 = Some (Some oi) /\
    pages_to_ranges (Hp := plain_heap) (mk_type_info 1 0 false false) ci oi above_five 6 2 2 0 carquet_row_range_list_init = None.
Proof. intros index. eexists _, _. split; [vm_compute; reflexivity|]. split; [vm_compute; reflexivity|]. vm_compute; reflexivity. Qed.

(** Null counts are optional in a column index.  Where they are missing the accessor says 0,
    and a page that may hold nulls is dropped by IS NULL. *)
Theorem absent_null_counts_drop_page :
  let index := [25; 17; 2; 25; 24; 4; 1; 0; 0; 0; 25; 24; 4; 5; 0; 0; 0; 21; 0; 0] in
  let clause := mk_clause 0 CARQUET_FILTER_IS_NULL None 0 None 0 None 0 false false InNull 0 in
  exists ci stats, carquet_column_index_parse (Hp := plain_heap) (Some index) 20 = Some (Some ci) /\ ci_null_counts ci = None /\
    carquet_column_index_get_page_stats ci 0 = Some (CARQUET_OK, Some stats) /\ page_matches_clause (mk_type_info 1 0 false false) stats clause 3 = Some false.
Proof. intros index clause. eexists _, _. split; [vm_compute; reflexivity|]. split; [reflexivity|]. split; vm_compute; reflexivity. Qed.
